(* ===== verification/_CoqProject ===== *)
-Q . S2P
Prelude.v
Ast.v
Bytecode.v
Codegen.v
Verifier.v
StackCert.v
CompileOk.v
Bundle.v
BundleOk.v
Standalone.v
Values.v
ValuesOk.v
Gate.v
GateOk.v
Vm.v
Tree.v
TreeLift.v
Engine.v
Clean.v
CleanTree.v
VmSafe.v
VmMono.v
VmEnds.v
VmOk.v
VmKeeps.v
Sim.v
AgreeExpr.v
AgreeStmt.v
AgreeOk.v
Collector.v
CollectorOk.v
Text.v
Strs.v
Lexer.v
Grammar.v
LexerOk.v
LexReads.v
LexScan.v
LexPos.v
Formatter.v
FormatterOk.v
Utf8.v
Parser.v
ParserOk.v
LexWeight.v
ParserTotal.v
ParserWf.v
Spelling.v
PrecedenceOk.v
ParserEdges.v
Json.v
JsonSpec.v
JsonReads.v
JsonOk.v
JsonWrite.v
IntCode.v
Native.v
NativeOk.v
NativeRun.v
NativeWalk.v
NativeSim.v
NativeTier.v
NativeRoot.v
WebSocket.v
WebSocketOk.v
WsHandshake.v
WsHandshakeOk.v
WsOpen.v
Manifest.v
ManifestOk.v
Package.v
PackageOk.v
Trust.v
TrustOk.v
Registry.v
Install.v
LocksOk.v
InstallOk.v
Workspace.v
Channel.v
