(* ===== verification/Prelude.v ===== *)
(** * Nivren: a verified core of the language toolchain

    Nivren is a small programming language whose toolchain is a Rust program.
    Source text is scanned and parsed into syntax trees, checked, compiled to
    bytecode, and run by a virtual machine that meters the program (instruction
    and memory budgets) and refuses effects it was not granted (capabilities,
    promises).  Compiled programs travel as binary bundles, possibly glued to a
    copy of the runtime as a standalone executable, and are verified again when
    they are loaded.  Projects have manifests, and depend on packages that are
    archives in registries, signed, installed and pinned by lock files.  This
    library models the path from source text to execution but for the type
    checker, and the path of a package from its archive to an installed tree,
    and proves what makes them correct and safe.

    ** The parts and their files

    - [Prelude] (this file): results with an error, machine integers, slices,
      little-endian bytes, UTF-8, and the lemmas and tactics the components
      share.
    - [Ast]: src/src/ast.rs, the token types of src/src/lexer.rs and [NivError]
      of src/src/error.rs.  One constructor per Rust constructor.
    - [Bytecode]: the instruction set and the one-pass compiler of
      src/src/bytecode.rs.  The Rust compiler pushes onto a mutable vector; here
      [expression] and [statement] take the buffer and return it.  [None] is a
      panic of the compiler.
    - [Codegen]: a reference code generator without backpatching, and the proof
      that the compiler agrees with it.
    - [Verifier]: [verify] and [compile] of src/src/bytecode.rs.
    - [StackCert]: certificates (stack and scope depths per instruction) and the
      proof that [verify_stack] decides their existence.
    - [CompileOk]: compiled programs verify.
    - [Bundle], [BundleOk]: src/src/bundle.rs and its round trip.
    - [Standalone]: src/src/standalone.rs and its round trip.
    - [Values], [ValuesOk]: runtime values and arithmetic of src/src/runtime.rs
      and src/src/fixed.rs; floats are IEEE bit patterns computed by the
      Standard Library's specification floats; decimals and date/times, from
      other packages, are the class [Foreign].
    - [Gate], [GateOk]: the scopes of granted capabilities.
    - [Vm]: the interpreter state and the bytecode loop of src/src/runtime.rs
      with every instruction, calls, patterns, promises and budgets.  Natives,
      iterators, resources and the file system are the class [Host].  It is the
      loop by itself: native code and collections, which can change what a
      program does, are added by [NativeTier], [NativeRoot] and [Collector].
    - [VmSafe]: the verifier's certificate as an invariant of the machine; the
      class [HostLaws] says what a host must respect.
    - [Tree]: the second engine, [evaluate], [execute] and their helpers in
      src/src/runtime.rs, over the state and the calls of [Vm]; [TreeLift]:
      relations it respects; [Engine]: the knot of the two engines and their
      entry points [run_bytecode] and [run].
    - [Clean], [CleanTree]: the internal returns of the tree interpreter, as a
      Hoare logic for it; the class [HostClean].
    - [VmMono]: relations both engines respect, and fuel as the first of them.
    - [VmEnds]: the instruction budget as a measure; the class [HostEnds].
    - [VmOk]: the machine's guarantees, and a recording host ([Trace]) that
      instantiates the laws and runs programs by computation.
    - [VmKeeps]: what every execution leaves as it was (budgets that are off, the
      payload limit, the caller's promises); the class [HostQuiet].
    - [Sim]: the relation between the states of the two engines and the programs
      that are compared; the class [HostBlind].
    - [AgreeExpr], [AgreeStmt], [AgreeOk]: the code of expressions, statements,
      function bodies and programs does on the machine what the tree interpreter
      does with them, and the programs on which the engines differ.
    - [Collector]: the garbage collector of src/src/runtime.rs over the store of
      [Vm], and the machine with its collections; the class [Holds] is what the
      handles of the host hold, [Collects] where the collector is kept.
      [CollectorOk]: what it spares, empties and forgets.
    - [Text]: characters, UTF-8 and the number parsers of Rust's standard library
      that the scanner and the formatter use; the Unicode tables are the class
      [Unicode].
    - [Strs]: lines, splitting, trimming, Unix paths and the order in which
      Rust's ordered maps are walked.
    - [Lexer]: src/src/lexer.rs, every method, as a state monad over the cursor;
      [Grammar]: the lexical grammar, a relation between a text and its tokens.
    - [LexerOk]: the scanner returns; [LexReads], [LexScan]: it computes the
      grammar; [LexPos]: positions.
    - [Formatter], [FormatterOk]: src/src/formatter.rs.
    - [Parser]: src/src/parser.rs, every method, over the tokens of the scanner;
      the methods that call each other are tied by [knot].  [Utf8]: decoding
      inverts encoding; [LexWeight]: how much recursion the tokens of a source
      may ask for; [ParserOk], [ParserTotal]: the parser returns; [ParserWf]: the
      compiler takes what it builds; [Spelling]: the expression grammar of
      src/spec/LANGUAGE-5-DRAFT.md as a printer; [PrecedenceOk]: the parser
      reads what it prints, and where it departs from the draft; [ParserEdges]: where the parser panics,
      recurses without limit or misreads.
    - [Json]: src/src/json.rs; [JsonSpec]: the grammar of RFC 8259 as a relation;
      [JsonReads], [JsonOk]: the reader computes it; [JsonWrite]: the writer.
    - [WebSocket], [WsHandshake]: src/src/websocket.rs on a connection of bytes;
      [WebSocketOk]: frames and messages against RFC 6455; [WsHandshakeOk],
      [WsOpen]: base64, header text and the two ends of the handshake.
    - [IntCode]: the integer operations of src/crates/nivren-jit/src/lib.rs, what
      the back end refuses and what the code it emits does; Cranelift itself is
      represented by the documented meaning of its instructions.
    - [Native]: the planner of src/src/bytecode.rs, from reachability and kinds to
      the lowering of shapes, calls and inlined functions.
    - [NativeOk], [NativeRun]: the planner's analyses and the safety of planned
      code; [NativeWalk]: its view of scopes; [NativeSim]: the simulation of the
      machine by planned code.
    - [NativeTier]: [try_jit] and [call_function] of src/src/runtime.rs with the
      native tier; [NativeRoot]: [try_root_native] and [run_bytecode] with it.
    - [Manifest], [ManifestOk]: project manifests and the text of the lock file,
      src/src/project.rs.
    - [Package], [PackageOk]: package archives, the first half of
      src/src/package.rs.
    - [Trust], [TrustOk]: src/src/trust.rs; signatures and digests are the class
      [Crypto], the JSON documents of an envelope the class [Documents], and what
      is relied on are [CryptoLaws] and [DocumentsLaws].
    - [Registry]: [publish], [fetch] and [set_yanked] of
      src/src/package.rs on a registry as a state, and the shelf it implements.
    - [Install]: dependency resolution, lock files, the authority lock and
      installation of src/src/package.rs on a disk as a state; which writes fail
      is the class [DiskFaults], JSON strings are the class [LockText].  [LocksOk]: the search and the texts; [InstallOk]:
      installation as a whole.
    - [Workspace]: the members of a workspace and their order,
      src/src/workspace.rs; the disk is the class [Files].
    - [Channel]: the signed manifests of src/src/channel.rs; their JSON
      text is the class [ChannelText].

    ** What is proved

    Compilation: the compiler equals the reference generator; pipelines compile
    as the calls they stand for; every well-formed program compiles to code the
    verifier accepts.  Verification: the verifier terminates and accepts exactly
    the chunks that have a certificate.  Bundles: encoding and decoding are
    inverse within the format's limits, everything decoded is verified, trailing
    bytes are refused; two theorems record where writer and reader disagree.
    Standalone files: extraction inverts attachment, attachment replaces, and
    neither panics.  Arithmetic: results stay in range and the machine's integer
    path equals the general operator.  Gate: URL hosts, wildcards and clauses
    admit what they say.  Machine: verified code does not panic; loop exits do
    not escape; promises renounce capabilities for the rest of their chunk and
    end with it; refused natives are not entered; calls and [for] loops restore
    the environment, while a theorem by computation shows that [repeat] does
    not; assignment updates exactly one binding; an instruction budget ends every
    chunk of the bytecode loop that adopts no protocol and can call none that
    does, with collections too, while protocol dispatch is shown to escape
    it; the outcome does not depend on the fuel.  These are theorems about the
    loop with the native tier off; native code is not charged.  Engines: what a
    tame program does in the tree interpreter when it runs to its end, without
    budgets, without two functions of one name in a scope and two fields of one
    name in a record, and under a host that does not interfere, its compiled code
    does in the bytecode loop, in value and in state (a simulation, by induction
    on the fuel of calls and on the syntax); internal returns are never stored;
    other programs show a promise that outlives its block, a leaked scope and a
    silent redeclaration.  Collector: marking ends with exactly the scopes that can
    be found from its roots, and a collection changes no other thing than to empty
    scopes outside of them; a program by computation shows that the machine does
    not hand over all the roots it has.  Scanner: it returns on every source, and returns
    tokens exactly when the lexical grammar reads them, with the same positions;
    those positions are where the tokens begin, but for strings over several
    lines and one escape, shown by computation.  Formatter: it returns on every
    source and changes white space only; a theorem by computation shows a text
    literal whose meaning that changes.  Parser: it returns on the tokens of every
    source; what it builds compiles when loop exits stand in loops; it reads
    expressions as the grammar of the language draft writes them, with the least
    parentheses and spans included, but for a [??] under [or give] or [through],
    where it is shown to read something else; a single expression panics exactly on a source without tokens, and
    function bodies nest without limit.  JSON: the reader accepts exactly the
    texts of the grammar within its limits, the writer's text is read back when it fits them, and
    compacting may exceed the reader's limit.  Native code: reachability is exact;
    the analysis of kinds ends and what it accepts never lacks an operand, a slot
    or an operation; a call through the native tier, without budgets and cancellation, ends as
    on the machine (a lockstep simulation of scopes by slots) for bodies that use their names with
    discipline, a condition that can be computed ([disciplined]: the names agree
    along every jump and only mutable names are stored to); two theorems by
    computation show that whole programs part from the machine when a block binds
    a function's name again and when instructions are limited.  WebSocket: a
    message is received exactly when the frames spell it, what one end sends the
    other receives, the handshake of the two ends completes; a theorem by
    computation shows frames hidden in a refused frame.  Manifests: what parses is
    in order, adding a dependency keeps it so, and the text written for a manifest
    in order is read back as the same.  Archives: decoding inverts encoding, and
    what is decoded stays within its limits and below the directory it is
    extracted to; theorems by computation show a name that closes its own quotes
    and two paths of one file.  Trust: signed messages are injective and separated
    by kind, so an accepted release was authorized, attested and not revoked or
    withdrawn; an honest release is accepted; a key spelled otherwise escapes its
    revocation.  Registries: every sequence of publications and yanks does what it
    does on a shelf that never replaces an archive.  Installation: the search ends
    with exactly the reachable packages; the lock file pins what it was written
    for; nothing pinned changes and no authority is added behind an existing lock,
    and a failing installation leaves both lock files, unless it is the last
    write that fails; the check of the installed tree gives back the lock file that was written; the
    text shown for review can hide a new grant.  Workspaces: the members are put in
    an order of their dependencies exactly when there is one.  Channels: what is
    accepted was issued, is current and not older than what was trusted.

    ** Bounds and fuel

    [verify_stack_loop] runs with fuel [2 * length code + 2], proved sufficient.
    The bundle reader recurses on the nesting room, [MAX_DEPTH + 1] levels, as
    the source bounds it.  The machine takes fuel for its loops and nested
    executions and reports [OutOfFuel] when it is spent; its theorems hold for
    every amount of fuel, the outcome is the same for every sufficient amount,
    and [k + 2] is enough under a budget of [k] instructions.  Scope chains are walked with the size of the store,
    which bounds their length.  The scanner's loops and the formatter's main loop
    run with the number of characters left as fuel, proved sufficient.  The
    parser's loops run with the number of tokens left, its recursion with the
    weight of the tokens ([token_weight]: a string counts with its characters,
    since a text literal holds programs) and the nesting limit; [ParserTotal]
    shows that both are enough.  The JSON reader recurses on its depth limit; the WebSocket
    receiver runs with the number of bytes left, proved sufficient.  The planner's
    worklists run with fuel proved sufficient ([reachable_exact],
    [kinds_loop_total], [depths_loop_ok]).  Native code takes fuel like the
    machine, one unit per operation, and the simulation gives both the same.
    The search of the dependency graph runs with the number of dependencies of
    what the registry or the store has ([resolve_fuel]), proved sufficient.
    Marking runs with the weight of the roots and of the store, proved sufficient
    when what a handle holds is smaller than the handle.
    [usize] is 64 bits wide and paths are those of Unix.

    ** What is not modelled

    The type checker, macro expansion and plan reports, slot-allocated locals and
    the control traces of [run_native], object files, natives, tasks, the reading
    of manifests and sources from disk, trusted remote installation, the cache
    commands and the later authority check of an installed tree, release reports,
    and the command-line and editor tools.  Natives, tasks and the tools act on
    sockets, threads, processes and terminals; the type checker is left out for
    its size, and no theorem here relies on it.  Of the disk, symbolic links and
    reads that fail are not represented; writes that fail are in installation
    only. *)
From Stdlib Require Import ZArith NArith Lia.
From Stdlib Require Export Strings.Byte.
From stdpp Require Export base numbers list gmap strings pretty.

#[export] Set Default Proof Using "Type".
#[export] Set Warnings "-register-all".
Open Scope N_scope.

(** ** Results *)

(** [Result<A, E>]: the outcome of a fallible Rust function. *)
Inductive result (E A : Type) : Type :=
| Ok (a : A)
| Err (e : E).
Arguments Ok {E A} a.
Arguments Err {E A} e.

#[export] Instance result_ret {E} : MRet (result E) := fun A a => Ok a.
#[export] Instance result_bind {E} : MBind (result E) := fun A B f r =>
  match r with Ok a => f a | Err e => Err e end.
#[export] Instance result_fmap {E} : FMap (result E) := fun A B f r =>
  match r with Ok a => Ok (f a) | Err e => Err e end.

Definition is_ok {E A} (r : result E A) : bool :=
  match r with Ok _ => true | Err _ => false end.

(** [option.ok_or(e)] *)
Definition ok_or {E A} (e : E) (o : option A) : result E A :=
  match o with Some a => Ok a | None => Err e end.

Lemma bind_Ok {E A B} (r : result E A) (f : A → result E B) b :
  (r ≫= f) = Ok b ↔ ∃ a, r = Ok a ∧ f a = Ok b.
Proof. destruct r; cbn; naive_solver. Qed.

Lemma ok_or_Ok {E A} (e : E) (o : option A) a :
  ok_or e o = Ok a ↔ o = Some a.
Proof. destruct o; cbn; naive_solver. Qed.

(** A loop over a slice whose body may leave with [?]. *)
Definition for_each {E A} (f : A → result E unit) : list A → result E unit :=
  fix go l :=
    match l with
    | [] => Ok tt
    | x :: l => _ ← f x; go l
    end.

Lemma for_each_Ok {E A} (f : A → result E unit) l :
  for_each f l = Ok tt ↔ Forall (λ x, f x = Ok tt) l.
Proof.
  induction l as [|x l IH]; cbn; [by split|].
  rewrite Forall_cons. destruct (f x) as [[]|]; cbn; [rewrite IH|]; naive_solver.
Qed.

(** A loop that threads a state of type [S]; [None] is a panic. *)
Definition foldM {A S} (f : A → S → option S) : list A → S → option S :=
  fix go l s :=
    match l with
    | [] => Some s
    | x :: l => s' ← f x s; go l s'
    end.

(** Case analysis on every computation an option or result bind waits for,
    innermost first, in the goal. *)
Ltac bind_cases :=
  repeat (match goal with
    | |- context [mbind _ ?m] =>
        lazymatch m with context [mbind _ _] => fail | _ => destruct m eqn:? end
    end; cbn [mbind option_bind result_bind]; try done).

(** ** Machine integers *)

(** [usize], [u64], [u32], [u16] and [u8] values are [N]; the signed types
    are [Z].  Where a width matters, the bound is written out. *)
Definition u8_max : N := 255.
Definition u16_max : N := 65535.
Definition u32_max : N := 4294967295.
Definition u64_max : N := 18446744073709551615.
Definition usize_max : N := u64_max.
Definition isize_max : Z := 9223372036854775807.

(** [value as isize] on a 64-bit target: the two's complement reading. *)
Definition as_isize (n : N) : Z :=
  let r := Z.of_N (n mod 2 ^ 64) in
  if (r <=? isize_max)%Z then r else (r - 2 ^ 64)%Z.

Lemma as_isize_small n : (Z.of_N n ≤ isize_max)%Z → as_isize n = Z.of_N n.
Proof.
  unfold as_isize, isize_max. intros H.
  rewrite N.mod_small by (cbn; lia).
  destruct (Z.leb_spec (Z.of_N n) 9223372036854775807); lia.
Qed.

(** [a.checked_add(b)] on [usize]. *)
Definition checked_add (a b : N) : option N :=
  if a + b <=? usize_max then Some (a + b) else None.

(** [a.checked_sub(b)] on [usize]. *)
Definition checked_sub (a b : N) : option N :=
  if b <=? a then Some (a - b) else None.

(** [a.saturating_add(b)] on [u64]. *)
Definition saturating_add_u64 (a b : N) : N := N.min (a + b) u64_max.

(** [Vec::len] as a [usize]. *)
Definition len {A} (l : list A) : N := N.of_nat (length l).

Lemma len_nil {A} : len (@nil A) = 0.
Proof. done. Qed.
Lemma len_cons {A} (x : A) l : len (x :: l) = 1 + len l.
Proof. unfold len. cbn [length]. lia. Qed.
Lemma len_app {A} (l k : list A) : len (l ++ k) = len l + len k.
Proof. unfold len. rewrite length_app. lia. Qed.
Lemma len_to_nat {A} (l : list A) : N.to_nat (len l) = length l.
Proof. unfold len. lia. Qed.
Lemma len_map {A B} (f : A → B) l : len (map f l) = len l.
Proof. unfold len. by rewrite length_map. Qed.
Create Rewrite HintDb len.
#[export] Hint Rewrite @len_nil @len_cons @len_app @len_map : len.
Ltac len_simpl := autorewrite with len in *.

(** [&v[i..j]]: [None] when the range is out of bounds ([slice::get]). *)
Definition slice_get {A} (l : list A) (from to : N) : option (list A) :=
  if (from <=? to) && (to <=? len l)
  then Some (take (N.to_nat (to - from)) (drop (N.to_nat from) l))
  else None.

Lemma slice_get_app {A} (pre mid post : list A) :
  slice_get (pre ++ mid ++ post) (len pre) (len pre + len mid) = Some mid.
Proof.
  unfold slice_get. len_simpl.
  destruct (N.leb_spec (len pre) (len pre + len mid)); [|lia].
  destruct (N.leb_spec (len pre + len mid) (len pre + (len mid + len post))); [|lia].
  cbn [andb]. f_equal.
  replace (len pre + len mid - len pre) with (len mid) by lia.
  rewrite !len_to_nat, drop_app_length. apply take_app_length.
Qed.

(** ** Bytes *)

(** The low eight bits of a number, [n as u8]. *)
Definition byte_of_N (n : N) : byte :=
  default x00 (Byte.of_N (n mod 256)).

Lemma byte_of_N_to_N n : Byte.to_N (byte_of_N n) = n mod 256.
Proof.
  unfold byte_of_N.
  destruct (Byte.of_N (n mod 256)) as [b|] eqn:Hb; cbn.
  - by apply Byte.to_of_N in Hb.
  - apply Byte.of_N_None_iff in Hb.
    pose proof (N.mod_upper_bound n 256). lia.
Qed.

Lemma byte_to_N_bound b : Byte.to_N b < 256.
Proof. pose proof (Byte.to_N_bounded b). lia. Qed.

Lemma byte_to_N_inj b c : Byte.to_N b = Byte.to_N c → b = c.
Proof.
  intros H. pose proof (Byte.of_to_N b) as E1. pose proof (Byte.of_to_N c) as E2.
  rewrite H in E1. congruence.
Qed.

Lemma byte_of_N_of_byte b : byte_of_N (Byte.to_N b) = b.
Proof.
  apply byte_to_N_inj. rewrite byte_of_N_to_N.
  apply N.mod_small, byte_to_N_bound.
Qed.

#[export] Instance byte_eq_dec : EqDecision byte := Byte.byte_eq_dec.

(** [v.to_le_bytes()] for an integer of [n] bytes. *)
Fixpoint to_le_bytes (n : nat) (v : N) : list byte :=
  match n with
  | O => []
  | S n => byte_of_N v :: to_le_bytes n (v / 256)
  end.

(** [uN::from_le_bytes(bytes)] *)
Fixpoint from_le_bytes (l : list byte) : N :=
  match l with
  | [] => 0
  | b :: l => Byte.to_N b + 256 * from_le_bytes l
  end.

Lemma length_to_le_bytes n v : length (to_le_bytes n v) = n.
Proof. revert v. induction n; intros; cbn; congruence. Qed.

Lemma from_to_le_bytes n v :
  v < 256 ^ N.of_nat n → from_le_bytes (to_le_bytes n v) = v.
Proof.
  revert v. induction n as [|n IH]; intros v Hv.
  - cbn in *. lia.
  - cbn [to_le_bytes from_le_bytes]. rewrite byte_of_N_to_N, IH.
    + pose proof (N.div_mod v 256). lia.
    + apply N.Div0.div_lt_upper_bound.
      rewrite Nat2N.inj_succ, N.pow_succ_r' in Hv. done.
Qed.

Lemma from_le_bytes_bound l : from_le_bytes l < 256 ^ len l.
Proof.
  induction l as [|b l IH]; [cbn; lia|].
  cbn [from_le_bytes]. rewrite len_cons, N.pow_add_r, N.pow_1_r.
  pose proof (byte_to_N_bound b). nia.
Qed.

Lemma to_from_le_bytes l : to_le_bytes (length l) (from_le_bytes l) = l.
Proof.
  induction l as [|b l IH]; [done|].
  cbn [length to_le_bytes from_le_bytes]. pose proof (byte_to_N_bound b) as Hb.
  rewrite (N.mul_comm 256), N.div_add, N.div_small by lia.
  rewrite N.add_0_l, IH. f_equal.
  apply byte_to_N_inj. rewrite byte_of_N_to_N, N.Div0.mod_add, N.mod_small; done.
Qed.

Lemma to_le_bytes_inj n v w :
  v < 256 ^ N.of_nat n → w < 256 ^ N.of_nat n →
  to_le_bytes n v = to_le_bytes n w → v = w.
Proof.
  intros Hv Hw H. apply (f_equal from_le_bytes) in H.
  by rewrite !from_to_le_bytes in H.
Qed.

(** ** Strings *)

(** A Rust [String] is its UTF-8 bytes.  [std::str::from_utf8] accepts exactly
    the well-formed sequences of the Unicode standard (table 3-7): no overlong
    forms, no surrogates, nothing above U+10FFFF. *)
Definition string_bytes (s : string) : list byte := String.list_byte_of_string s.
Definition string_of_bytes (l : list byte) : string := String.string_of_list_byte l.

Definition byte_in (lo hi : N) (b : byte) : bool :=
  (lo <=? Byte.to_N b) && (Byte.to_N b <=? hi).

Fixpoint utf8_valid (l : list byte) : bool :=
  match l with
  | [] => true
  | b0 :: l1 =>
    if byte_in 0x00 0x7F b0 then utf8_valid l1
    else match l1 with
    | [] => false
    | b1 :: l2 =>
      if byte_in 0xC2 0xDF b0 then byte_in 0x80 0xBF b1 && utf8_valid l2
      else match l2 with
      | [] => false
      | b2 :: l3 =>
        let three := byte_in 0x80 0xBF b2 && utf8_valid l3 in
        if byte_in 0xE0 0xE0 b0 then byte_in 0xA0 0xBF b1 && three
        else if byte_in 0xE1 0xEC b0 then byte_in 0x80 0xBF b1 && three
        else if byte_in 0xED 0xED b0 then byte_in 0x80 0x9F b1 && three
        else if byte_in 0xEE 0xEF b0 then byte_in 0x80 0xBF b1 && three
        else match l3 with
        | [] => false
        | b3 :: l4 =>
          let four := byte_in 0x80 0xBF b2 && byte_in 0x80 0xBF b3 && utf8_valid l4 in
          if byte_in 0xF0 0xF0 b0 then byte_in 0x90 0xBF b1 && four
          else if byte_in 0xF1 0xF3 b0 then byte_in 0x80 0xBF b1 && four
          else if byte_in 0xF4 0xF4 b0 then byte_in 0x80 0x8F b1 && four
          else false
        end
      end
    end
  end.

(** [String::from_utf8(bytes)] *)
Definition from_utf8 (l : list byte) : option string :=
  if utf8_valid l then Some (string_of_bytes l) else None.

(** [s.len()]: the number of bytes. *)
Definition str_len (s : string) : N := len (string_bytes s).

Lemma string_of_bytes_bytes s : string_of_bytes (string_bytes s) = s.
Proof. apply String.string_of_list_byte_of_string. Qed.
Lemma string_bytes_of_bytes l : string_bytes (string_of_bytes l) = l.
Proof. apply String.list_byte_of_string_of_list_byte. Qed.

Lemma string_bytes_inj s t : string_bytes s = string_bytes t → s = t.
Proof.
  intros H. apply (f_equal string_of_bytes) in H.
  by rewrite !string_of_bytes_bytes in H.
Qed.

Lemma from_utf8_bytes s :
  utf8_valid (string_bytes s) = true → from_utf8 (string_bytes s) = Some s.
Proof. unfold from_utf8. intros ->. by rewrite string_of_bytes_bytes. Qed.

Lemma from_utf8_Some l s :
  from_utf8 l = Some s → string_bytes s = l ∧ utf8_valid (string_bytes s) = true.
Proof.
  unfold from_utf8. destruct (utf8_valid l) eqn:Hl; [|done].
  intros [= <-]. by rewrite string_bytes_of_bytes.
Qed.
