(* ===== verification/Ast.v ===== *)
(** * Abstract syntax

    Tokens (src/src/lexer.rs), diagnostics (src/src/error.rs) and the syntax
    trees the parser builds (src/src/ast.rs), constructor for constructor.
    A Rust enum variant [T::V] is the constructor [T_V]; a [Vec] is a list, a
    [Box] is transparent, and an [f64] is its 64-bit pattern.  The file also
    holds the functions of ast.rs: the [span] accessors and the lowering of a
    [through] pipeline to an ordinary call. *)
From S2P Require Import Prelude.

(** ** Positions and diagnostics *)

Record Span := mkSpan { span_line : N; span_column : N }.

#[export] Instance span_eq_dec : EqDecision Span.
Proof. solve_decision. Defined.

Record TraceFrame := mkTraceFrame {
  frame_function : string;
  frame_line : N;
  frame_column : N }.

Record NivError := mkNivError {
  err_message : string;
  err_line : N;
  err_column : N;
  err_trace : list TraceFrame }.

(** [NivError::new] *)
Definition NivError_new (message : string) (line column : N) : NivError :=
  {| err_message := message; err_line := line; err_column := column; err_trace := [] |}.

(** [NivError::with_frame] *)
Definition with_frame (e : NivError) (function : string) (line column : N) : NivError :=
  {| err_message := err_message e; err_line := err_line e; err_column := err_column e;
     err_trace := err_trace e ++ [mkTraceFrame function line column] |}.

(** The recurring [NivError::new(message, span.line, span.column)]. *)
Definition error_at (message : string) (s : Span) : NivError :=
  NivError_new message (span_line s) (span_column s).

(** ** Tokens *)

(** An [f64] by its bit pattern ([f64::to_bits]). *)
Definition f64 := N.

Inductive TokenKind : Type :=
| Tk_LeftParen | Tk_RightParen | Tk_LeftBrace | Tk_RightBrace
| Tk_LeftBracket | Tk_RightBracket | Tk_Comma | Tk_Semicolon | Tk_Colon
| Tk_Arrow | Tk_Question | Tk_QuestionQuestion | Tk_Dot
| Tk_Plus | Tk_Minus | Tk_Star | Tk_Slash | Tk_Percent
| Tk_Bang | Tk_BangEqual | Tk_Equal | Tk_EqualEqual | Tk_FatArrow
| Tk_Greater | Tk_GreaterEqual | Tk_Less | Tk_LessEqual
| Tk_Identifier (name : string)
| Tk_DocComment (text : string)
| Tk_Int (value : Z)
| Tk_Float (value : f64)
| Tk_String (value : string)
| Tk_Let | Tk_Var | Tk_Fun | Tk_Return | Tk_If | Tk_Else | Tk_While | Tk_For
| Tk_In | Tk_True | Tk_False | Tk_Null | Tk_Print | Tk_Record | Tk_Enum
| Tk_Protocol | Tk_Adopt | Tk_ForType | Tk_Match | Tk_Import | Tk_Export
| Tk_Through | Tk_Start | Tk_Wait | Tk_Together | Tk_Race | Tk_Needs
| Tk_Using | Tk_Is | Tk_Set | Tk_To | Tk_Takes | Tk_Holds | Tk_Case
| Tk_Carries | Tk_With | Tk_Maybe | Tk_As | Tk_From | Tk_Type | Tk_Prepare
| Tk_Perform | Tk_WhileClause | Tk_And | Tk_Or | Tk_Eof.

Record Token := mkToken { tok_kind : TokenKind; tok_line : N; tok_column : N }.

(** ** Syntax trees *)

Inductive Literal : Type :=
| Literal_Int (value : Z)
| Literal_Float (value : f64)
| Literal_String (value : string)
| Literal_Bool (value : bool)
| Literal_Null.

Inductive TypeRef : Type :=
| TypeRef_Named (name : string) (span : Span)
| TypeRef_Applied (name : string) (arguments : list TypeRef) (span : Span)
| TypeRef_Array (item : TypeRef) (span : Span)
| TypeRef_Nullable (item : TypeRef) (span : Span)
| TypeRef_Result (ok error : TypeRef) (span : Span).

Record Param := mkParam {
  param_name : string; param_ty : option TypeRef; param_span : Span }.

Record TypeParam := mkTypeParam {
  tparam_name : string; tparam_constraint : option string; tparam_span : Span }.

Record CapabilityNeed := mkCapabilityNeed {
  need_capability : string; need_boundary : option string; need_span : Span }.

Record FieldDef := mkFieldDef {
  field_name : string; field_ty : TypeRef; field_span : Span }.

Record VariantDef := mkVariantDef {
  variant_name : string; variant_payload : option TypeRef; variant_span : Span }.

Record ProtocolMember := mkProtocolMember {
  member_name : string; member_params : list Param; member_return_type : TypeRef;
  member_needs : list string; member_span : Span }.

Record AdoptionMember := mkAdoptionMember {
  adoption_member : string; adoption_implementation : string; adoption_span : Span }.

Inductive Pattern : Type :=
| Pattern_Any (span : Span)
| Pattern_Literal (literal : Literal) (span : Span)
| Pattern_Name (name : string) (span : Span)
| Pattern_Binding (name : string) (span : Span)
| Pattern_Carries (name : string) (inner : Pattern) (span : Span)
| Pattern_Shape (name : string) (fields : list (string * Pattern)) (span : Span).

(** [Pattern::span] *)
Definition pattern_span (p : Pattern) : Span :=
  match p with
  | Pattern_Any span | Pattern_Literal _ span | Pattern_Name _ span
  | Pattern_Binding _ span | Pattern_Carries _ _ span | Pattern_Shape _ _ span => span
  end.

Record PromiseClause := mkPromiseClause {
  clause_capability : string;
  clause_never : bool;
  clause_boundaries : list string;
  clause_span : Span }.

Inductive Expr : Type :=
| Expr_Literal (literal : Literal) (span : Span)
| Expr_Text (pieces : list TextPiece) (span : Span)
| Expr_Variable (name : string) (span : Span)
| Expr_Assign (name : string) (value : Expr) (span : Span)
| Expr_Unary (operator : TokenKind) (value : Expr) (span : Span)
| Expr_Binary (left : Expr) (operator : TokenKind) (right : Expr) (span : Span)
| Expr_Logical (left : Expr) (operator : TokenKind) (right : Expr) (span : Span)
| Expr_Call (callee : Expr) (arguments : list Expr) (labels : option (list string))
    (span : Span)
| Expr_Array (values : list Expr) (span : Span)
| Expr_Index (value index : Expr) (span : Span)
| Expr_Coalesce (left right : Expr) (span : Span)
| Expr_Propagate (value : Expr) (span : Span)
| Expr_Perform (value : Expr) (span : Span)
| Expr_Through (input stage : Expr) (span : Span)
| Expr_Get (object : Expr) (name : string) (span : Span)
| Expr_Match (subject : Expr) (arms : list MatchArm) (span : Span)
with MatchArm : Type :=
| mkMatchArm (patterns : list Pattern) (guard : option Expr) (value : Expr) (span : Span)
with TextPiece : Type :=
| TextPiece_Literal (part : string)
| TextPiece_Hole (hole : Expr).

(** [Expr::span] *)
Definition expr_span (e : Expr) : Span :=
  match e with
  | Expr_Literal _ span | Expr_Text _ span | Expr_Variable _ span
  | Expr_Assign _ _ span | Expr_Unary _ _ span | Expr_Binary _ _ _ span
  | Expr_Logical _ _ _ span | Expr_Call _ _ _ span | Expr_Array _ span
  | Expr_Index _ _ span | Expr_Coalesce _ _ span | Expr_Propagate _ span
  | Expr_Perform _ span | Expr_Through _ _ span
  | Expr_Get _ _ span | Expr_Match _ _ span => span
  end.

Inductive Stmt : Type :=
| Stmt_Prepare (name plan_type : string) (initializer : Expr) (span : Span)
| Stmt_Let (name : string) (mutable : bool) (annotation : option TypeRef)
    (initializer : Expr) (span : Span)
| Stmt_LetPattern (pattern : Pattern) (initializer : Expr) (span : Span)
| Stmt_Expression (expression : Expr)
| Stmt_Print (expression : Expr) (span : Span)
| Stmt_Block (statements : list Stmt) (span : Span)
| Stmt_If (condition : Expr) (then_branch : Stmt) (else_branch : option Stmt) (span : Span)
| Stmt_IfCarries (subject : Expr) (patterns : list Pattern) (then_branch : Stmt)
    (else_branch : option Stmt) (span : Span)
| Stmt_While (condition : Expr) (body : Stmt) (span : Span)
| Stmt_Stop (span : Span)
| Stmt_Skip (span : Span)
| Stmt_Promise (clauses : list PromiseClause) (span : Span)
| Stmt_Generator (name : string) (params : list Param) (body : list Stmt) (span : Span)
| Stmt_Expand (name : string) (labels : list string) (arguments : list Expr) (span : Span)
| Stmt_Trusted (reason : string) (span : Span)
| Stmt_Sample (title : string) (body : list Stmt) (shows : option string) (span : Span)
| Stmt_For (name : string) (pattern : option Pattern) (iterable : Expr) (body : Stmt)
    (span : Span)
| Stmt_Using (name : string) (resource : Expr) (body : Stmt) (span : Span)
| Stmt_Function (name : string) (type_params : list TypeParam) (params : list Param)
    (return_type : option TypeRef) (needs : list string)
    (capability_needs : list CapabilityNeed) (body : list Stmt) (span : Span)
| Stmt_Return (value : option Expr) (span : Span)
| Stmt_Record (name : string) (type_params : list TypeParam) (fields : list FieldDef)
    (derives : list string) (span : Span)
| Stmt_Enum (name : string) (type_params : list TypeParam) (variants : list VariantDef)
    (span : Span)
| Stmt_Protocol (name : string) (members : list ProtocolMember) (span : Span)
| Stmt_Adoption (protocol : string) (ty : TypeRef) (members : list AdoptionMember)
    (span : Span)
| Stmt_Import (path : string) (alias : option string) (span : Span)
| Stmt_Export (names : list string) (span : Span)
| Stmt_Module (name : string) (body : list Stmt) (exports : list string) (span : Span)
| Stmt_Doc (text : string) (span : Span).

(** ** Pipelines *)

(** [expression_path]: the dotted path of a variable or field access. *)
Fixpoint expression_path (e : Expr) : option string :=
  match e with
  | Expr_Variable name _ => Some name
  | Expr_Get parent name _ =>
      path ← expression_path parent; Some (path +:+ "." +:+ name)
  | _ => None
  end.

Section lower_through.
(** [call_labels::get]: the labels the standard library declares for a path. *)
Variable call_labels_get : string → option (list string).

(** The label list of a lowered pipeline: the first declared label is put in
    front when exactly it is missing. *)
Definition through_labels (callee : Expr) (labels : list string) : list string :=
  match expression_path callee with
  | Some path =>
      match call_labels_get path with
      | Some expected =>
          if len expected =? len labels + 1
          then match expected with first :: _ => first :: labels | [] => labels end
          else labels
      | None => labels
      end
  | None => labels
  end.

(** [lower_through]; [None] is its [unreachable!()]. *)
Definition lower_through (input stage : Expr) (span : Span) : option Expr :=
  match stage with
  | Expr_Call callee arguments labels _ =>
      Some (Expr_Call callee (input :: arguments)
              (through_labels callee <$> labels) span)
  | Expr_Variable _ _ | Expr_Get _ _ _ =>
      Some (Expr_Call stage [input] None span)
  | _ => None
  end.
End lower_through.

(** ** Induction principles for the nested types *)

(** [P] holds of the callee and the arguments when [e] is a call: performing a
    call and piping into one are compiled and evaluated through its parts. *)
Definition call_parts (P : Expr → Prop) (e : Expr) : Prop :=
  match e with
  | Expr_Call callee arguments _ _ => P callee ∧ Forall P arguments
  | _ => True
  end.

Section expr_ind.
Variable P : Expr → Prop.
Variable Q : MatchArm → Prop.
Variable R : TextPiece → Prop.
Hypothesis HLiteral : ∀ l s, P (Expr_Literal l s).
Hypothesis HText : ∀ ps s, Forall R ps → P (Expr_Text ps s).
Hypothesis HVariable : ∀ n s, P (Expr_Variable n s).
Hypothesis HAssign : ∀ n e s, P e → P (Expr_Assign n e s).
Hypothesis HUnary : ∀ o e s, P e → P (Expr_Unary o e s).
Hypothesis HBinary : ∀ l o r s, P l → P r → P (Expr_Binary l o r s).
Hypothesis HLogical : ∀ l o r s, P l → P r → P (Expr_Logical l o r s).
Hypothesis HCall : ∀ c es ls s, P c → Forall P es → P (Expr_Call c es ls s).
Hypothesis HArray : ∀ es s, Forall P es → P (Expr_Array es s).
Hypothesis HIndex : ∀ e i s, P e → P i → P (Expr_Index e i s).
Hypothesis HCoalesce : ∀ l r s, P l → P r → P (Expr_Coalesce l r s).
Hypothesis HPropagate : ∀ e s, P e → P (Expr_Propagate e s).
Hypothesis HPerform : ∀ e s, P e → call_parts P e → P (Expr_Perform e s).
Hypothesis HThrough : ∀ i t s, P i → P t → call_parts P t → P (Expr_Through i t s).
Hypothesis HGet : ∀ e n s, P e → P (Expr_Get e n s).
Hypothesis HMatch : ∀ e arms s, P e → Forall Q arms → P (Expr_Match e arms s).
Hypothesis HArm : ∀ ps g e s, from_option P True g → P e → Q (mkMatchArm ps g e s).
Hypothesis HPiece : ∀ t, R (TextPiece_Literal t).
Hypothesis HHole : ∀ e, P e → R (TextPiece_Hole e).

Fixpoint Expr_nested_ind (e : Expr) : P e :=
  let exprs := fix go (es : list Expr) : Forall P es :=
    match es with
    | [] => @List.Forall_nil _ P
    | e :: es => @List.Forall_cons _ P e es (Expr_nested_ind e) (go es)
    end in
  let parts := fun e : Expr =>
    match e return call_parts P e with
    | Expr_Call c es _ _ => conj (Expr_nested_ind c) (exprs es)
    | _ => I
    end in
  match e with
  | Expr_Literal l s => HLiteral l s
  | Expr_Text ps s =>
      HText ps s
        ((fix go (ps : list TextPiece) : Forall R ps :=
            match ps with
            | [] => @List.Forall_nil _ R
            | p :: ps =>
                @List.Forall_cons _ R p ps
                  (match p with
                   | TextPiece_Literal t => HPiece t
                   | TextPiece_Hole e => HHole e (Expr_nested_ind e)
                   end) (go ps)
            end) ps)
  | Expr_Variable n s => HVariable n s
  | Expr_Assign n e s => HAssign n e s (Expr_nested_ind e)
  | Expr_Unary o e s => HUnary o e s (Expr_nested_ind e)
  | Expr_Binary l o r s => HBinary l o r s (Expr_nested_ind l) (Expr_nested_ind r)
  | Expr_Logical l o r s => HLogical l o r s (Expr_nested_ind l) (Expr_nested_ind r)
  | Expr_Call c es ls s => HCall c es ls s (Expr_nested_ind c) (exprs es)
  | Expr_Array es s => HArray es s (exprs es)
  | Expr_Index e i s => HIndex e i s (Expr_nested_ind e) (Expr_nested_ind i)
  | Expr_Coalesce l r s => HCoalesce l r s (Expr_nested_ind l) (Expr_nested_ind r)
  | Expr_Propagate e s => HPropagate e s (Expr_nested_ind e)
  | Expr_Perform e s => HPerform e s (Expr_nested_ind e) (parts e)
  | Expr_Through i t s => HThrough i t s (Expr_nested_ind i) (Expr_nested_ind t) (parts t)
  | Expr_Get e n s => HGet e n s (Expr_nested_ind e)
  | Expr_Match e arms s =>
      HMatch e arms s (Expr_nested_ind e)
        ((fix go (arms : list MatchArm) : Forall Q arms :=
            match arms with
            | [] => @List.Forall_nil _ Q
            | a :: arms =>
                @List.Forall_cons _ Q a arms
                  (match a with
                   | mkMatchArm ps g v s =>
                       HArm ps g v s
                         (match g with
                          | Some e => Expr_nested_ind e
                          | None => I
                          end) (Expr_nested_ind v)
                   end) (go arms)
            end) arms)
  end.
End expr_ind.


Section stmt_ind.
Variable P : Stmt → Prop.
Hypothesis HLeaf : ∀ st,
  match st with
  | Stmt_Block _ _ | Stmt_If _ _ _ _ | Stmt_IfCarries _ _ _ _ _ | Stmt_While _ _ _
  | Stmt_Sample _ _ _ _ | Stmt_For _ _ _ _ _ | Stmt_Using _ _ _ _
  | Stmt_Function _ _ _ _ _ _ _ _ | Stmt_Module _ _ _ _ => False
  | _ => True
  end → P st.
Hypothesis HBlock : ∀ ss s, Forall P ss → P (Stmt_Block ss s).
Hypothesis HIf : ∀ c t e s, P t → from_option P True e → P (Stmt_If c t e s).
Hypothesis HIfCarries : ∀ c ps t e s,
  P t → from_option P True e → P (Stmt_IfCarries c ps t e s).
Hypothesis HWhile : ∀ c b s, P b → P (Stmt_While c b s).
Hypothesis HSample : ∀ t b sh s, Forall P b → P (Stmt_Sample t b sh s).
Hypothesis HFor : ∀ n p i b s, P b → P (Stmt_For n p i b s).
Hypothesis HUsing : ∀ n r b s, P b → P (Stmt_Using n r b s).
Hypothesis HFunction : ∀ n tp ps rt ne cn b s,
  Forall P b → P (Stmt_Function n tp ps rt ne cn b s).
Hypothesis HModule : ∀ n b ex s, Forall P b → P (Stmt_Module n b ex s).

(** Structural induction on statements through their nested lists and options;
    [HLeaf] covers every constructor without a sub-statement. *)
Fixpoint Stmt_nested_ind (st : Stmt) : P st :=
  let stmts := fix go (ss : list Stmt) : Forall P ss :=
    match ss with
    | [] => @List.Forall_nil _ P
    | x :: ss => @List.Forall_cons _ P x ss (Stmt_nested_ind x) (go ss)
    end in
  let opt := fun (o : option Stmt) =>
    match o return from_option P True o with
    | Some x => Stmt_nested_ind x
    | None => I
    end in
  match st with
  | Stmt_Block ss s => HBlock ss s (stmts ss)
  | Stmt_If c t e s => HIf c t e s (Stmt_nested_ind t) (opt e)
  | Stmt_IfCarries c ps t e s => HIfCarries c ps t e s (Stmt_nested_ind t) (opt e)
  | Stmt_While c b s => HWhile c b s (Stmt_nested_ind b)
  | Stmt_Sample t b sh s => HSample t b sh s (stmts b)
  | Stmt_For n p i b s => HFor n p i b s (Stmt_nested_ind b)
  | Stmt_Using n r b s => HUsing n r b s (Stmt_nested_ind b)
  | Stmt_Function n tp ps rt ne cn b s => HFunction n tp ps rt ne cn b s (stmts b)
  | Stmt_Module n b ex s => HModule n b ex s (stmts b)
  | st => HLeaf st I
  end.
End stmt_ind.
