(* ===== verification/Bytecode.v ===== *)
(** * Bytecode and its compiler

    The instruction set (src/src/bytecode.rs, [Chunk], [Instruction], [Op],
    [BytecodeArm]) and the compiler that walks a syntax tree and appends
    instructions to one growing code vector, emitting a placeholder operand
    for every forward jump and patching it once the target is known
    ([Compiler::statements], [statement], [expression], [emit], [patch]).
    Compiling is partial: [None] is a Rust panic, either the [unreachable!()]
    of [lower_through] and [patch] or an index out of bounds. *)
From S2P Require Import Prelude Ast.

(** ** Instruction set *)

Definition BYTECODE_VERSION : N := 8.

Inductive Op : Type :=
| Op_Constant (literal : Literal)
| Op_Load (name : string)
| Op_Store (name : string)
| Op_Define (name : string) (mutable : bool)
| Op_Pop
| Op_Unary (operator : TokenKind)
| Op_Binary (operator : TokenKind)
| Op_Jump (target : N)
| Op_JumpIfFalse (target : N)
| Op_Call (arity : N)
| Op_PerformCall (arity : N)
| Op_MakeArray (length : N)
| Op_MakeText (length : N)
| Op_Index
| Op_Coalesce (target : N)
| Op_Propagate
| Op_Get (name : string)
| Op_Print
| Op_EnterScope
| Op_ExitScope
| Op_MakeFunction (name : string) (params : list string) (body : Chunk)
| Op_Return
| Op_DefineRecord (name : string) (fields : list (string * string)) (derives : list string)
| Op_DefineEnum (name : string) (variants payload_variants : list string)
| Op_Match (arms : list BytecodeArm)
| Op_DefineModule (name : string) (body : Chunk) (exports : list string)
| Op_Iterate (name : string) (pattern : option Pattern) (body : Chunk)
| Op_DefinePattern (pattern : Pattern)
| Op_Sample (title : string) (body : Chunk) (shows : option string)
| Op_Repeat (condition body : Chunk)
| Op_LoopExit (skip : bool)
| Op_IfCarries (patterns : list Pattern) (then_branch : Chunk) (else_branch : option Chunk)
| Op_Using (name : string) (body : Chunk)
| Op_DefineProtocol (name : string) (members : list string)
| Op_AdoptProtocol (protocol type_name : string) (mappings : list (string * string))
| Op_Prepare (plan_type : string)
| Op_Perform
| Op_Promise (clauses : list PromiseClause)
with Instruction : Type :=
| mkInstruction (op : Op) (span : Span)
with Chunk : Type :=
| mkChunk (version : N) (code : list Instruction)
with BytecodeArm : Type :=
| mkArm (patterns : list Pattern) (guard : option Chunk) (body : Chunk) (span : Span).

Definition instr_op (i : Instruction) : Op := let 'mkInstruction op _ := i in op.
Definition instr_span (i : Instruction) : Span := let 'mkInstruction _ s := i in s.
Definition chunk_version (c : Chunk) : N := let 'mkChunk v _ := c in v.
Definition chunk_code (c : Chunk) : list Instruction := let 'mkChunk _ code := c in code.

(** ** Helpers of the compiler *)

(** [statement_span] *)
Definition statement_span (statement : Stmt) : Span :=
  match statement with
  | Stmt_Prepare _ _ _ span | Stmt_Doc _ span | Stmt_Let _ _ _ _ span
  | Stmt_Print _ span | Stmt_Block _ span | Stmt_If _ _ _ span
  | Stmt_While _ _ span | Stmt_IfCarries _ _ _ _ span | Stmt_LetPattern _ _ span
  | Stmt_Stop span | Stmt_Skip span | Stmt_Promise _ span | Stmt_Trusted _ span
  | Stmt_Sample _ _ _ span | Stmt_Generator _ _ _ span | Stmt_Expand _ _ _ span
  | Stmt_For _ _ _ _ span | Stmt_Using _ _ _ span
  | Stmt_Function _ _ _ _ _ _ _ span | Stmt_Return _ span
  | Stmt_Record _ _ _ _ span | Stmt_Enum _ _ _ span | Stmt_Protocol _ _ span
  | Stmt_Adoption _ _ _ span | Stmt_Import _ _ span | Stmt_Export _ span
  | Stmt_Module _ _ _ span => span
  | Stmt_Expression expression => expr_span expression
  end.

(** [contains_loop_exit] *)
Fixpoint contains_loop_exit (statement : Stmt) : bool :=
  match statement with
  | Stmt_Stop _ | Stmt_Skip _ => true
  | Stmt_Block statements _ => existsb contains_loop_exit statements
  | Stmt_If _ then_branch else_branch _
  | Stmt_IfCarries _ _ then_branch else_branch _ =>
      contains_loop_exit then_branch
      || match else_branch with Some b => contains_loop_exit b | None => false end
  | Stmt_Using _ _ body _ => contains_loop_exit body
  | _ => false
  end.

(** [items.join(sep)] *)
Fixpoint join (sep : string) (items : list string) : string :=
  match items with
  | [] => ""
  | [x] => x
  | x :: items => x +:+ sep +:+ join sep items
  end.

(** [schema_name] *)
Fixpoint schema_name (reference : TypeRef) : string :=
  match reference with
  | TypeRef_Named name _ => name
  | TypeRef_Applied name arguments _ =>
      name +:+ "<" +:+ join "," (map schema_name arguments) +:+ ">"
  | TypeRef_Array item _ => "[" +:+ schema_name item +:+ "]"
  | TypeRef_Nullable item _ => schema_name item +:+ "?"
  | TypeRef_Result ok error _ =>
      "Result<" +:+ schema_name ok +:+ "," +:+ schema_name error +:+ ">"
  end.

(** ** The code buffer *)

Definition Code := list Instruction.

(** [Compiler::emit]: append; the index of the new instruction is the old
    length. *)
Definition emit (op : Op) (span : Span) (code : Code) : Code :=
  code ++ [mkInstruction op span].

(** [Compiler::patch] *)
Definition patch (instruction target : N) (code : Code) : option Code :=
  match code !! N.to_nat instruction with
  | Some (mkInstruction op span) =>
      match op with
      | Op_Jump _ => Some (<[N.to_nat instruction := mkInstruction (Op_Jump target) span]> code)
      | Op_JumpIfFalse _ =>
          Some (<[N.to_nat instruction := mkInstruction (Op_JumpIfFalse target) span]> code)
      | Op_Coalesce _ =>
          Some (<[N.to_nat instruction := mkInstruction (Op_Coalesce target) span]> code)
      | _ => None
      end
  | None => None
  end.

(** ** Expressions *)

(** [matches!(operator, TokenKind::Or)] *)
Definition is_or (operator : TokenKind) : bool :=
  match operator with Tk_Or => true | _ => false end.

(** [Compiler::expression] and [compile_arm].  The source compiles a [through]
    pipeline by compiling [lower_through input stage span]; the lowered call
    is unfolded here so that the recursion is structural
    ([expression_through] shows the two agree). *)
Fixpoint expression (e : Expr) (code : Code) {struct e} : option Code :=
  match e with
  | Expr_Literal value span => Some (emit (Op_Constant value) span code)
  | Expr_Text pieces span =>
      code ← foldM (text_piece span) pieces code;
      Some (emit (Op_MakeText (len pieces)) span code)
  | Expr_Variable name span => Some (emit (Op_Load name) span code)
  | Expr_Assign name value span =>
      code ← expression value code;
      Some (emit (Op_Store name) span code)
  | Expr_Unary operator value span =>
      code ← expression value code;
      Some (emit (Op_Unary operator) span code)
  | Expr_Binary lhs operator rhs span =>
      code ← expression lhs code;
      code ← expression rhs code;
      Some (emit (Op_Binary operator) span code)
  | Expr_Logical lhs operator rhs span =>
      code ← expression lhs code;
      let jump := len code in
      let code := emit (Op_JumpIfFalse usize_max) span code in
      if is_or operator then
        let end_ := len code in
        let code := emit (Op_Jump usize_max) span code in
        code ← patch jump (len code) code;
        let code := emit Op_Pop span code in
        code ← expression rhs code;
        patch end_ (len code) code
      else
        let code := emit Op_Pop span code in
        code ← expression rhs code;
        patch jump (len code) code
  | Expr_Call callee arguments _ span =>
      code ← expression callee code;
      code ← foldM expression arguments code;
      Some (emit (Op_Call (len arguments)) span code)
  | Expr_Array values span =>
      code ← foldM expression values code;
      Some (emit (Op_MakeArray (len values)) span code)
  | Expr_Index value index span =>
      code ← expression value code;
      code ← expression index code;
      Some (emit Op_Index span code)
  | Expr_Coalesce lhs rhs span =>
      code ← expression lhs code;
      let instruction := len code in
      let code := emit (Op_Coalesce usize_max) span code in
      let code := emit Op_Pop span code in
      code ← expression rhs code;
      patch instruction (len code) code
  | Expr_Propagate value span =>
      code ← expression value code;
      Some (emit Op_Propagate span code)
  | Expr_Perform value span =>
      match value with
      | Expr_Call callee arguments _ _ =>
          code ← expression callee code;
          code ← foldM expression arguments code;
          Some (emit (Op_PerformCall (len arguments)) span code)
      | _ =>
          code ← expression value code;
          Some (emit Op_Perform span code)
      end
  | Expr_Through input stage span =>
      match stage with
      | Expr_Call callee arguments _ _ =>
          code ← expression callee code;
          code ← expression input code;
          code ← foldM expression arguments code;
          Some (emit (Op_Call (1 + len arguments)) span code)
      | Expr_Variable _ _ | Expr_Get _ _ _ =>
          code ← expression stage code;
          code ← expression input code;
          Some (emit (Op_Call 1) span code)
      | _ => None
      end
  | Expr_Get object name span =>
      code ← expression object code;
      Some (emit (Op_Get name) span code)
  | Expr_Match subject arms span =>
      code ← expression subject code;
      arms ← mapM compile_arm arms;
      Some (emit (Op_Match arms) span code)
  end
with text_piece (span : Span) (piece : TextPiece) (code : Code) {struct piece} : option Code :=
  match piece with
  | TextPiece_Literal part => Some (emit (Op_Constant (Literal_String part)) span code)
  | TextPiece_Hole hole => expression hole code
  end
with compile_arm (arm : MatchArm) {struct arm} : option BytecodeArm :=
  match arm with
  | mkMatchArm patterns guard value span =>
      body ← expression value [];
      guard ← match guard with
              | Some g => g ← expression g []; Some (Some (mkChunk BYTECODE_VERSION g))
              | None => Some None
              end;
      Some (mkArm patterns guard (mkChunk BYTECODE_VERSION body) span)
  end.

(** [compile_expression] *)
Definition compile_expression (e : Expr) : option Chunk :=
  code ← expression e []; Some (mkChunk BYTECODE_VERSION code).

(** ** Statements *)

(** [Compiler::statements], over the compiler of one statement: a [Pop] after
    every statement but the last, [null] for an empty list. *)
Definition statements_with (statement : Stmt → Code → option Code)
    : list Stmt → Code → option Code :=
  fix go ss code :=
    match ss with
    | [] => Some (emit (Op_Constant Literal_Null) (mkSpan 1 1) code)
    | [s] => statement s code
    | s :: ss =>
        code ← statement s code;
        go ss (emit Op_Pop (statement_span s) code)
    end.

(** [compile_statements] and [compile_statement] start from an empty buffer. *)
Definition new_chunk (code : option Code) : option Chunk :=
  mkChunk BYTECODE_VERSION <$> code.

(** [Compiler::statement] *)
Fixpoint statement (st : Stmt) (code : Code) {struct st} : option Code :=
  match st with
  | Stmt_Prepare name plan_type initializer span =>
      code ← expression initializer code;
      let code := emit (Op_Prepare plan_type) span code in
      Some (emit (Op_Define name false) span code)
  | Stmt_Let name mutable _ initializer span =>
      code ← expression initializer code;
      Some (emit (Op_Define name mutable) span code)
  | Stmt_Expression e => expression e code
  | Stmt_Print e span =>
      code ← expression e code;
      Some (emit Op_Print span code)
  | Stmt_Block statements span =>
      let code := emit Op_EnterScope span code in
      code ← statements_with statement statements code;
      Some (emit Op_ExitScope span code)
  | Stmt_If condition then_branch else_branch span =>
      code ← expression condition code;
      let false_jump := len code in
      let code := emit (Op_JumpIfFalse usize_max) span code in
      let code := emit Op_Pop span code in
      code ← statement then_branch code;
      let end_jump := len code in
      let code := emit (Op_Jump usize_max) span code in
      code ← patch false_jump (len code) code;
      let code := emit Op_Pop span code in
      code ← match else_branch with
             | Some branch => statement branch code
             | None => Some (emit (Op_Constant Literal_Null) span code)
             end;
      patch end_jump (len code) code
  | Stmt_While condition body span =>
      if contains_loop_exit body then
        condition ← compile_expression condition;
        body ← new_chunk (statements_with statement [body] []);
        Some (emit (Op_Repeat condition body) span code)
      else
        let code := emit (Op_Constant Literal_Null) span code in
        let start := len code in
        code ← expression condition code;
        let end_ := len code in
        let code := emit (Op_JumpIfFalse usize_max) span code in
        let code := emit Op_Pop span code in
        let code := emit Op_Pop span code in
        code ← statement body code;
        let code := emit (Op_Jump start) span code in
        code ← patch end_ (len code) code;
        Some (emit Op_Pop span code)
  | Stmt_IfCarries subject patterns then_branch else_branch span =>
      code ← expression subject code;
      then_branch ← new_chunk (statements_with statement [then_branch] []);
      else_branch ← match else_branch with
                    | Some branch =>
                        branch ← new_chunk (statements_with statement [branch] []);
                        Some (Some branch)
                    | None => Some None
                    end;
      Some (emit (Op_IfCarries patterns then_branch else_branch) span code)
  | Stmt_Stop span => Some (emit (Op_LoopExit false) span code)
  | Stmt_Skip span => Some (emit (Op_LoopExit true) span code)
  | Stmt_Promise clauses span =>
      let code := emit (Op_Promise clauses) span code in
      Some (emit (Op_Constant Literal_Null) span code)
  | Stmt_Trusted _ span | Stmt_Doc _ span | Stmt_Generator _ _ _ span
  | Stmt_Expand _ _ _ span =>
      Some (emit (Op_Constant Literal_Null) span code)
  | Stmt_Sample title body shows span =>
      body ← new_chunk (statements_with statement body []);
      Some (emit (Op_Sample title body shows) span code)
  | Stmt_For name pattern iterable body span =>
      code ← expression iterable code;
      body ← new_chunk (statements_with statement [body] []);
      Some (emit (Op_Iterate name pattern body) span code)
  | Stmt_LetPattern pattern initializer span =>
      code ← expression initializer code;
      Some (emit (Op_DefinePattern pattern) span code)
  | Stmt_Using name resource body span =>
      code ← expression resource code;
      body ← new_chunk (statements_with statement [body] []);
      Some (emit (Op_Using name body) span code)
  | Stmt_Function name _ params _ _ _ body span =>
      body ← statements_with statement body [];
      let body := emit (Op_Constant Literal_Null) span body in
      let body := emit Op_Return span body in
      let code :=
        emit (Op_MakeFunction name (map param_name params) (mkChunk BYTECODE_VERSION body))
          span code in
      Some (emit (Op_Define name false) span code)
  | Stmt_Return value span =>
      code ← match value with
             | Some value => expression value code
             | None => Some (emit (Op_Constant Literal_Null) span code)
             end;
      Some (emit Op_Return span code)
  | Stmt_Record name _ fields derives span =>
      Some (emit (Op_DefineRecord name
                    (map (λ f, (field_name f, schema_name (field_ty f))) fields) derives)
              span code)
  | Stmt_Enum name _ variants span =>
      Some (emit (Op_DefineEnum name (map variant_name variants)
                    (map variant_name
                       (List.filter (λ v, bool_decide (is_Some (variant_payload v))) variants)))
              span code)
  | Stmt_Protocol name members span =>
      Some (emit (Op_DefineProtocol name (map member_name members)) span code)
  | Stmt_Adoption protocol ty members span =>
      Some (emit (Op_AdoptProtocol protocol (schema_name ty)
                    (map (λ m, (adoption_member m, adoption_implementation m)) members))
              span code)
  | Stmt_Import _ _ span | Stmt_Export _ span =>
      Some (emit (Op_Constant Literal_Null) span code)
  | Stmt_Module name body exports span =>
      body ← new_chunk (statements_with statement body []);
      Some (emit (Op_DefineModule name body exports) span code)
  end.

Definition statements : list Stmt → Code → option Code := statements_with statement.

(** [compile_statements] *)
Definition compile_statements (ss : list Stmt) : option Chunk :=
  new_chunk (statements ss []).

(** [compile_statement] *)
Definition compile_statement (s : Stmt) : option Chunk := compile_statements [s].

Example compile_if :
  statements [Stmt_If (Expr_Variable "a" (mkSpan 1 1)) (Stmt_Return None (mkSpan 1 2))
                None (mkSpan 1 0)] [] =
  Some [mkInstruction (Op_Load "a") (mkSpan 1 1);
        mkInstruction (Op_JumpIfFalse 6) (mkSpan 1 0);
        mkInstruction Op_Pop (mkSpan 1 0);
        mkInstruction (Op_Constant Literal_Null) (mkSpan 1 2);
        mkInstruction Op_Return (mkSpan 1 2);
        mkInstruction (Op_Jump 8) (mkSpan 1 0);
        mkInstruction Op_Pop (mkSpan 1 0);
        mkInstruction (Op_Constant Literal_Null) (mkSpan 1 0)].
Proof. reflexivity. Qed.

(** ** The pipeline case *)

(** Compiling a pipeline is compiling the call [lower_through] builds, for
    any label table: labels do not reach the bytecode, and the compiler panics
    on a stage exactly where [lower_through] does. *)
Theorem expression_through labels input stage span code :
  expression (Expr_Through input stage span) code =
  (e ← lower_through labels input stage span; expression e code).
Proof.
  destruct stage; try done; cbn [lower_through mbind option_bind expression foldM];
    bind_cases; by rewrite ?len_cons.
Qed.
