(* ===== verification/Codegen.v ===== *)
(** * Position-aware code generation

    A reference code generator: [gen_expr b e] is the code of [e] placed at
    address [b], with every jump target computed from the sizes of the parts
    and no buffer or patching.  The theorems show that the buffer-and-patch
    compiler of Bytecode.v appends exactly this fragment, so it never patches
    a wrong instruction and leaves no placeholder behind. *)
From S2P Require Import Prelude Ast Bytecode.

(** ** The reference generator *)

Definition ins (op : Op) (span : Span) : Instruction := mkInstruction op span.

(** Consecutive fragments, each placed after the previous one. *)
Definition gen_seq {A} (gen : N → A → option Code) : N → list A → option Code :=
  fix go b l :=
    match l with
    | [] => Some []
    | x :: l => f ← gen b x; fs ← go (b + len f) l; Some (f ++ fs)
    end.

Fixpoint gen_expr (b : N) (e : Expr) {struct e} : option Code :=
  match e with
  | Expr_Literal value span => Some [ins (Op_Constant value) span]
  | Expr_Text pieces span =>
      ps ← gen_seq (gen_piece span) b pieces;
      Some (ps ++ [ins (Op_MakeText (len pieces)) span])
  | Expr_Variable name span => Some [ins (Op_Load name) span]
  | Expr_Assign name value span =>
      v ← gen_expr b value; Some (v ++ [ins (Op_Store name) span])
  | Expr_Unary operator value span =>
      v ← gen_expr b value; Some (v ++ [ins (Op_Unary operator) span])
  | Expr_Binary lhs operator rhs span =>
      l ← gen_expr b lhs;
      r ← gen_expr (b + len l) rhs;
      Some (l ++ r ++ [ins (Op_Binary operator) span])
  | Expr_Logical lhs operator rhs span =>
      l ← gen_expr b lhs;
      if is_or operator then
        r ← gen_expr (b + len l + 3) rhs;
        Some (l ++ [ins (Op_JumpIfFalse (b + len l + 2)) span;
                    ins (Op_Jump (b + len l + 3 + len r)) span;
                    ins Op_Pop span] ++ r)
      else
        r ← gen_expr (b + len l + 2) rhs;
        Some (l ++ [ins (Op_JumpIfFalse (b + len l + 2 + len r)) span;
                    ins Op_Pop span] ++ r)
  | Expr_Call callee arguments _ span =>
      c ← gen_expr b callee;
      a ← gen_seq gen_expr (b + len c) arguments;
      Some (c ++ a ++ [ins (Op_Call (len arguments)) span])
  | Expr_Array values span =>
      v ← gen_seq gen_expr b values; Some (v ++ [ins (Op_MakeArray (len values)) span])
  | Expr_Index value index span =>
      v ← gen_expr b value;
      i ← gen_expr (b + len v) index;
      Some (v ++ i ++ [ins Op_Index span])
  | Expr_Coalesce lhs rhs span =>
      l ← gen_expr b lhs;
      r ← gen_expr (b + len l + 2) rhs;
      Some (l ++ [ins (Op_Coalesce (b + len l + 2 + len r)) span; ins Op_Pop span] ++ r)
  | Expr_Propagate value span =>
      v ← gen_expr b value; Some (v ++ [ins Op_Propagate span])
  | Expr_Perform value span =>
      match value with
      | Expr_Call callee arguments _ _ =>
          c ← gen_expr b callee;
          a ← gen_seq gen_expr (b + len c) arguments;
          Some (c ++ a ++ [ins (Op_PerformCall (len arguments)) span])
      | _ => v ← gen_expr b value; Some (v ++ [ins Op_Perform span])
      end
  | Expr_Through input stage span =>
      match stage with
      | Expr_Call callee arguments _ _ =>
          c ← gen_expr b callee;
          i ← gen_expr (b + len c) input;
          a ← gen_seq gen_expr (b + len c + len i) arguments;
          Some (c ++ i ++ a ++ [ins (Op_Call (1 + len arguments)) span])
      | Expr_Variable _ _ | Expr_Get _ _ _ =>
          c ← gen_expr b stage;
          i ← gen_expr (b + len c) input;
          Some (c ++ i ++ [ins (Op_Call 1) span])
      | _ => None
      end
  | Expr_Get object name span =>
      v ← gen_expr b object; Some (v ++ [ins (Op_Get name) span])
  | Expr_Match subject arms span =>
      v ← gen_expr b subject;
      arms ← mapM gen_arm arms;
      Some (v ++ [ins (Op_Match arms) span])
  end
with gen_piece (span : Span) (b : N) (piece : TextPiece) {struct piece} : option Code :=
  match piece with
  | TextPiece_Literal part => Some [ins (Op_Constant (Literal_String part)) span]
  | TextPiece_Hole hole => gen_expr b hole
  end
with gen_arm (arm : MatchArm) {struct arm} : option BytecodeArm :=
  match arm with
  | mkMatchArm patterns guard value span =>
      body ← gen_expr 0 value;
      guard ← match guard with
              | Some g => g ← gen_expr 0 g; Some (Some (mkChunk BYTECODE_VERSION g))
              | None => Some None
              end;
      Some (mkArm patterns guard (mkChunk BYTECODE_VERSION body) span)
  end.

Definition gen_stmts (gen : N → Stmt → option Code) : N → list Stmt → option Code :=
  fix go b ss :=
    match ss with
    | [] => Some [ins (Op_Constant Literal_Null) (mkSpan 1 1)]
    | [s] => gen b s
    | s :: ss =>
        f ← gen b s;
        fs ← go (b + len f + 1) ss;
        Some (f ++ [ins Op_Pop (statement_span s)] ++ fs)
    end.

Fixpoint gen_stmt (b : N) (st : Stmt) {struct st} : option Code :=
  let chunk := fun ss => new_chunk (gen_stmts gen_stmt 0 ss) in
  match st with
  | Stmt_Prepare name plan_type initializer span =>
      v ← gen_expr b initializer;
      Some (v ++ [ins (Op_Prepare plan_type) span; ins (Op_Define name false) span])
  | Stmt_Let name mutable _ initializer span =>
      v ← gen_expr b initializer; Some (v ++ [ins (Op_Define name mutable) span])
  | Stmt_Expression e => gen_expr b e
  | Stmt_Print e span => v ← gen_expr b e; Some (v ++ [ins Op_Print span])
  | Stmt_Block statements span =>
      body ← gen_stmts gen_stmt (b + 1) statements;
      Some ([ins Op_EnterScope span] ++ body ++ [ins Op_ExitScope span])
  | Stmt_If condition then_branch else_branch span =>
      c ← gen_expr b condition;
      t ← gen_stmt (b + len c + 2) then_branch;
      e ← match else_branch with
          | Some branch => gen_stmt (b + len c + 2 + len t + 2) branch
          | None => Some [ins (Op_Constant Literal_Null) span]
          end;
      Some (c ++ [ins (Op_JumpIfFalse (b + len c + 2 + len t + 1)) span; ins Op_Pop span]
              ++ t ++ [ins (Op_Jump (b + len c + 2 + len t + 2 + len e)) span;
                       ins Op_Pop span] ++ e)
  | Stmt_While condition body span =>
      if contains_loop_exit body then
        condition ← new_chunk (gen_expr 0 condition);
        body ← chunk [body];
        Some [ins (Op_Repeat condition body) span]
      else
        c ← gen_expr (b + 1) condition;
        s ← gen_stmt (b + 1 + len c + 3) body;
        Some ([ins (Op_Constant Literal_Null) span] ++ c
                ++ [ins (Op_JumpIfFalse (b + 1 + len c + 3 + len s + 1)) span;
                    ins Op_Pop span; ins Op_Pop span]
                ++ s ++ [ins (Op_Jump (b + 1)) span; ins Op_Pop span])
  | Stmt_IfCarries subject patterns then_branch else_branch span =>
      v ← gen_expr b subject;
      then_branch ← chunk [then_branch];
      else_branch ← match else_branch with
                    | Some branch => branch ← chunk [branch]; Some (Some branch)
                    | None => Some None
                    end;
      Some (v ++ [ins (Op_IfCarries patterns then_branch else_branch) span])
  | Stmt_Stop span => Some [ins (Op_LoopExit false) span]
  | Stmt_Skip span => Some [ins (Op_LoopExit true) span]
  | Stmt_Promise clauses span =>
      Some [ins (Op_Promise clauses) span; ins (Op_Constant Literal_Null) span]
  | Stmt_Trusted _ span | Stmt_Doc _ span | Stmt_Generator _ _ _ span
  | Stmt_Expand _ _ _ span | Stmt_Import _ _ span | Stmt_Export _ span =>
      Some [ins (Op_Constant Literal_Null) span]
  | Stmt_Sample title body shows span =>
      body ← chunk body; Some [ins (Op_Sample title body shows) span]
  | Stmt_For name pattern iterable body span =>
      v ← gen_expr b iterable;
      body ← chunk [body];
      Some (v ++ [ins (Op_Iterate name pattern body) span])
  | Stmt_LetPattern pattern initializer span =>
      v ← gen_expr b initializer; Some (v ++ [ins (Op_DefinePattern pattern) span])
  | Stmt_Using name resource body span =>
      v ← gen_expr b resource;
      body ← chunk [body];
      Some (v ++ [ins (Op_Using name body) span])
  | Stmt_Function name _ params _ _ _ body span =>
      body ← gen_stmts gen_stmt 0 body;
      Some [ins (Op_MakeFunction name (map param_name params)
                   (mkChunk BYTECODE_VERSION
                      (body ++ [ins (Op_Constant Literal_Null) span; ins Op_Return span])))
              span;
            ins (Op_Define name false) span]
  | Stmt_Return value span =>
      v ← match value with
          | Some value => gen_expr b value
          | None => Some [ins (Op_Constant Literal_Null) span]
          end;
      Some (v ++ [ins Op_Return span])
  | Stmt_Record _ _ _ _ _ | Stmt_Enum _ _ _ _ | Stmt_Protocol _ _ _
  | Stmt_Adoption _ _ _ _ => statement st []
  | Stmt_Module name body exports span =>
      body ← chunk body; Some [ins (Op_DefineModule name body exports) span]
  end.

(** ** The buffer compiler appends the generated fragment *)

(** The operand a patch writes; [None] for an instruction without a target. *)
Definition retarget (target : N) (op : Op) : option Op :=
  match op with
  | Op_Jump _ => Some (Op_Jump target)
  | Op_JumpIfFalse _ => Some (Op_JumpIfFalse target)
  | Op_Coalesce _ => Some (Op_Coalesce target)
  | _ => None
  end.

Lemma patch_eq pre op span post i target op' code :
  code = pre ++ ins op span :: post → i = len pre → retarget target op = Some op' →
  patch i target code = Some (pre ++ ins op' span :: post).
Proof.
  intros -> -> H. unfold patch, ins, Code. rewrite len_to_nat.
  rewrite (list_lookup_middle pre post _ (length pre)) by done.
  destruct op; simplify_eq/=; f_equal;
    (rewrite insert_app_r_alt by lia); by rewrite Nat.sub_diag.
Qed.

(** Two states of the compiler are compared as [code ++ fragment]. *)
Definition appended (code : Code) (fragment : option Code) : option Code :=
  app code <$> fragment.

Lemma appended_nil fragment : appended [] fragment = fragment.
Proof. by destruct fragment. Qed.

Lemma foldM_gen_seq {A} (f : A → Code → option Code) (g : N → A → option Code) l :
  Forall (λ x, ∀ code, f x code = appended code (g (len code) x)) l →
  ∀ code, foldM f l code = appended code (gen_seq g (len code) l).
Proof.
  induction 1 as [|x l Hx _ IH]; intros code; unfold appended in *; cbn.
  - by rewrite app_nil_r.
  - rewrite Hx. destruct (g (len code) x) as [fx|]; cbn; [|done].
    rewrite IH, len_app. destruct (gen_seq g (len code + len fx) l); cbn; [|done].
    by rewrite app_assoc.
Qed.

Lemma mapM_ext {A B} (f g : A → option B) l :
  Forall (λ x, f x = g x) l → mapM f l = mapM g l.
Proof. induction 1 as [|x l Hx _ IH]; cbn; [done|]. by rewrite Hx, IH. Qed.

(** Equal addresses that differ only in how the sizes are added up. *)
Ltac same_address :=
  repeat match goal with
  | |- context [?g ?b1 ?e] =>
      lazymatch type of (g b1 e) with option Code => idtac end;
      match goal with
      | |- context [g ?b2 ?e] =>
          lazymatch b1 with b2 => fail | _ => idtac end;
          replace b1 with b2 by (unfold emit; autorewrite with len; lia)
      end
  end.

(** Right-nested appends. *)
Ltac code_norm := cbn [app]; repeat (rewrite <- !app_assoc; cbn [app]).

(** Two buffers that differ in the association of appends and in the
    arithmetic of the jump targets. *)
Ltac same_code :=
  unfold emit, ins, appended; cbn [fmap option_fmap option_map mbind option_bind];
  code_norm;
  repeat first [reflexivity | f_equal]; autorewrite with len; lia.

(** Patch the jump [op] that stands between [pre] and [post]. *)
Tactic Notation "patch_between" open_constr(pre) open_constr(op) constr(span)
    open_constr(post) :=
  erewrite (patch_eq pre op span post);
  [ | unfold emit, ins; code_norm; reflexivity
    | unfold emit; autorewrite with len; lia | reflexivity ];
  cbn [mbind option_bind].

(** One sub-computation of the compiler and of the generator. *)
Ltac sub_gen IH f :=
  rewrite IH; same_address;
  match goal with |- context [appended _ (?g ?b ?e)] =>
    unfold appended at 1; destruct (g b e) as [f|]; cbn [fmap option_fmap option_map mbind option_bind]; [|done]
  end.

Lemma expression_gen e code : expression e code = appended code (gen_expr (len code) e).
Proof.
  revert code.
  induction e using Expr_nested_ind with
    (Q := λ a, compile_arm a = gen_arm a)
    (R := λ p, ∀ span code, text_piece span p code = appended code (gen_piece span (len code) p)).
  all: try intros code; cbn [expression gen_expr].
  all: try reflexivity.
  - rewrite (foldM_gen_seq _ (gen_piece s)).
    + destruct (gen_seq _ _ _); cbn; [|done]. same_code.
    + eapply Forall_impl; [done|]. naive_solver.
  - sub_gen IHe f. same_code.
  - sub_gen IHe f. same_code.
  - sub_gen IHe1 f. sub_gen IHe2 g. same_code.
  - sub_gen IHe1 f. destruct (is_or o).
    + patch_between (code ++ f) (Op_JumpIfFalse _) s [_].
      sub_gen IHe2 g.
      patch_between (code ++ f ++ [_]) (Op_Jump _) s (_ :: g). same_code.
    + sub_gen IHe2 g.
      patch_between (code ++ f) (Op_JumpIfFalse _) s (_ :: g). same_code.
  - sub_gen IHe f. sub_gen (foldM_gen_seq _ _ es H) g. same_code.
  - sub_gen (foldM_gen_seq _ _ es H) g. same_code.
  - sub_gen IHe1 f. sub_gen IHe2 g. same_code.
  - sub_gen IHe1 f. sub_gen IHe2 g.
    patch_between (code ++ f) (Op_Coalesce _) s (_ :: g). same_code.
  - sub_gen IHe f. same_code.
  - destruct e; try (sub_gen IHe f; same_code).
    destruct H as [Hc Hes]. sub_gen Hc f. sub_gen (foldM_gen_seq _ _ _ Hes) g. same_code.
  - destruct e2; try done; try (sub_gen IHe2 f; sub_gen IHe1 g; same_code).
    destruct H as [Hc Hes]. sub_gen Hc f. sub_gen IHe1 g.
    sub_gen (foldM_gen_seq _ _ _ Hes) h. same_code.
  - sub_gen IHe f. same_code.
  - sub_gen IHe f. rewrite (mapM_ext _ _ _ H). destruct (mapM gen_arm arms); cbn; [|done].
    same_code.
  - cbn [compile_arm gen_arm]. rewrite IHe, appended_nil. destruct g as [g|]; [|done].
    cbn in H. by rewrite H, appended_nil.
  - apply IHe.
Qed.

Lemma compile_expression_gen e : compile_expression e = new_chunk (gen_expr 0 e).
Proof.
  unfold compile_expression, new_chunk. rewrite expression_gen, appended_nil, len_nil.
  by destruct (gen_expr 0 e).
Qed.

Lemma statements_with_gen f g ss :
  Forall (λ s, ∀ code, f s code = appended code (g (len code) s)) ss →
  ∀ code, statements_with f ss code = appended code (gen_stmts g (len code) ss).
Proof.
  induction 1 as [|s ss Hs _ IH]; intros code; [done|].
  cbn [statements_with gen_stmts]. destruct ss as [|s' ss]; [done|].
  sub_gen Hs h. sub_gen IH k. same_code.
Qed.

Lemma body_chunk f g ss :
  Forall (λ s, ∀ code, f s code = appended code (g (len code) s)) ss →
  new_chunk (statements_with f ss []) = new_chunk (gen_stmts g 0 ss).
Proof. intros H. by rewrite (statements_with_gen f g), appended_nil, len_nil. Qed.

(** The buffer compiler of one statement appends the generated fragment. *)
Lemma statement_gen st code : statement st code = appended code (gen_stmt (len code) st).
Proof.
  revert code.
  induction st as [st Hleaf|ss s IHss|c t e s IHt IHe|c ps t e s IHt IHe|c b s IHb
    |ti b sh s IHb|n p i b s IHb|n r b s IHb|n tp ps rt ne cn b s IHb|n b ex s IHb]
    using Stmt_nested_ind; intros code; cbn [statement gen_stmt].
  - destruct st; try done; cbn [statement gen_stmt];
      try (sub_gen expression_gen f; same_code); try same_code.
    destruct value; [sub_gen expression_gen f|]; same_code.
  - sub_gen (statements_with_gen _ _ ss IHss) f. same_code.
  - sub_gen expression_gen f. sub_gen IHt g.
    patch_between (code ++ f) (Op_JumpIfFalse _) s (_ :: g ++ [_]).
    destruct e as [e|]; cbn in IHe.
    + sub_gen IHe h. patch_between (code ++ f ++ _ :: _ :: g) (Op_Jump _) s (_ :: h).
      same_code.
    + cbn [mbind option_bind].
      patch_between (code ++ f ++ _ :: _ :: g) (Op_Jump _) s [_; _]. same_code.
  - sub_gen expression_gen f. rewrite (body_chunk _ gen_stmt) by auto.
    destruct (new_chunk (gen_stmts gen_stmt 0 [t])); cbn [mbind option_bind]; [|done].
    destruct e as [e|]; cbn in IHe; [|same_code]. rewrite (body_chunk _ gen_stmt) by auto.
    destruct (new_chunk (gen_stmts gen_stmt 0 [e])); cbn [mbind option_bind]; [|done].
    same_code.
  - destruct (contains_loop_exit b).
    + rewrite compile_expression_gen, (body_chunk _ gen_stmt) by auto.
      destruct (new_chunk (gen_expr 0 c)); cbn [mbind option_bind]; [|done].
      destruct (new_chunk (gen_stmts gen_stmt 0 [b])); cbn [mbind option_bind]; [|done].
      same_code.
    + sub_gen expression_gen f. sub_gen IHb g.
      patch_between (code ++ _ :: f) (Op_JumpIfFalse _) s (_ :: _ :: g ++ [_]).
      same_code.
  - rewrite (body_chunk _ gen_stmt) by auto.
    destruct (new_chunk (gen_stmts gen_stmt 0 b)); cbn [mbind option_bind]; [|done].
    same_code.
  - sub_gen expression_gen f. rewrite (body_chunk _ gen_stmt) by auto.
    destruct (new_chunk (gen_stmts gen_stmt 0 [b])); cbn [mbind option_bind]; [|done].
    same_code.
  - sub_gen expression_gen f. rewrite (body_chunk _ gen_stmt) by auto.
    destruct (new_chunk (gen_stmts gen_stmt 0 [b])); cbn [mbind option_bind]; [|done].
    same_code.
  - rewrite (statements_with_gen _ gen_stmt), appended_nil, len_nil by auto.
    destruct (gen_stmts gen_stmt 0 b); cbn [mbind option_bind]; [|done]. same_code.
  - rewrite (body_chunk _ gen_stmt) by auto.
    destruct (new_chunk (gen_stmts gen_stmt 0 b)); cbn [mbind option_bind]; [|done].
    same_code.
Qed.

(** The same for a statement list: the buffer compiler equals the generator. *)
Lemma statements_gen ss code :
  statements ss code = appended code (gen_stmts gen_stmt (len code) ss).
Proof. apply statements_with_gen, Forall_true, statement_gen. Qed.

(** C4: Backpatching is sound: the chunk built in one pass with placeholder
    targets patched later is the chunk of the reference generator, which
    computes every jump target from the lengths of the fragments; the compiler
    panics exactly where the reference is undefined. *)
Theorem compile_is_reference ss :
  compile_statements ss = new_chunk (gen_stmts gen_stmt 0 ss).
Proof.
  unfold compile_statements. by rewrite statements_gen, appended_nil, len_nil.
Qed.
