(* ===== verification/Verifier.v ===== *)
(** * The bytecode verifier

    [verify], [verify_in_context], [validate_instruction], [verify_stack],
    [stack_pops] and [stack_effect] of src/src/bytecode.rs, and [compile],
    which runs the compiler and verifies what it produced.

    [verify_stack] is a worklist search: its [while let Some(..) = queue.pop_front()]
    loop is [verify_stack_loop] with fuel, and [verify_stack_loop_total] shows
    that [2 * len code + 2] iterations always finish it.  A depth is an
    [isize]; operands are turned into depths with the wrapping casts of a
    release build, so a chunk built by hand with an operand of [2^63] or more
    is read the way the code reads it. *)
From S2P Require Import Prelude Ast Bytecode Codegen.

(** ** Stack discipline of an instruction *)

(** [stack_pops]: how many operands an op reads from the stack. *)
Definition stack_pops (op : Op) : N :=
  match op with
  | Op_Constant _ | Op_Load _ | Op_MakeFunction _ _ _ | Op_DefineRecord _ _ _
  | Op_DefineEnum _ _ _ | Op_DefineProtocol _ _ | Op_AdoptProtocol _ _ _
  | Op_DefineModule _ _ _ | Op_Repeat _ _ | Op_Sample _ _ _ | Op_Jump _
  | Op_EnterScope | Op_ExitScope | Op_LoopExit _ | Op_Prepare _ | Op_Perform
  | Op_Promise _ => 0
  | Op_Pop | Op_Store _ | Op_Define _ _ | Op_Unary _ | Op_JumpIfFalse _ | Op_Coalesce _
  | Op_Propagate | Op_Get _ | Op_Print | Op_Return | Op_Match _ | Op_Iterate _ _ _
  | Op_IfCarries _ _ _ | Op_DefinePattern _ | Op_Using _ _ => 1
  | Op_Binary _ | Op_Index => 2
  | Op_Call arguments | Op_PerformCall arguments => (arguments + 1) mod 2 ^ 64
  | Op_MakeArray values | Op_MakeText values => values
  end.

(** [stack_effect]: the net change of the depth. *)
Definition stack_effect (op : Op) : Z :=
  match op with
  | Op_Constant _ | Op_Load _ | Op_MakeFunction _ _ _ | Op_DefineRecord _ _ _
  | Op_DefineEnum _ _ _ | Op_DefineProtocol _ _ | Op_AdoptProtocol _ _ _
  | Op_DefineModule _ _ _ | Op_Repeat _ _ | Op_Sample _ _ _ => 1
  | Op_Pop => -1
  | Op_Binary _ | Op_Index => -1
  | Op_Call arguments | Op_PerformCall arguments => - as_isize arguments
  | Op_MakeArray values | Op_MakeText values => 1 - as_isize values
  | Op_Store _ | Op_Define _ _ | Op_Unary _ | Op_Jump _ | Op_JumpIfFalse _ | Op_Coalesce _
  | Op_Propagate | Op_Get _ | Op_Print | Op_EnterScope | Op_ExitScope | Op_Return
  | Op_Match _ | Op_Iterate _ _ _ | Op_LoopExit _ | Op_IfCarries _ _ _
  | Op_DefinePattern _ | Op_Using _ _ => 0
  | Op_Prepare _ | Op_Perform | Op_Promise _ => 0
  end%Z.

Definition scope_effect (op : Op) : Z :=
  match op with Op_EnterScope => 1 | Op_ExitScope => -1 | _ => 0 end%Z.

(** The instructions control can reach from index [i], in the order they are
    queued. *)
Definition successors (op : Op) (i : N) : list N :=
  match op with
  | Op_Jump target => [target]
  | Op_JumpIfFalse target | Op_Coalesce target => [target; i + 1]
  | Op_Return | Op_LoopExit _ => []
  | _ => [i + 1]
  end.

(** [validate_instruction] *)
Definition is_unary_operator (operator : TokenKind) : bool :=
  match operator with Tk_Minus | Tk_Bang => true | _ => false end.

Definition is_binary_operator (operator : TokenKind) : bool :=
  match operator with
  | Tk_Plus | Tk_Minus | Tk_Star | Tk_Slash | Tk_Percent | Tk_EqualEqual | Tk_BangEqual
  | Tk_Greater | Tk_GreaterEqual | Tk_Less | Tk_LessEqual => true
  | _ => false
  end.

Definition valid_operand (op : Op) (length : N) : bool :=
  match op with
  | Op_Unary operator => is_unary_operator operator
  | Op_Binary operator => is_binary_operator operator
  | Op_Jump target | Op_JumpIfFalse target | Op_Coalesce target => target <=? length
  | _ => true
  end.

Definition validate_instruction (i : Instruction) (length : N) : result NivError unit :=
  if valid_operand (instr_op i) length then Ok tt
  else Err (error_at "invalid bytecode operand" (instr_span i)).

(** ** The worklist *)

(** An entry of the queue: instruction, stack depth and scope depth. *)
Definition State : Type := N * Z * Z.

Definition verify_stack_loop (code : Code) :=
  fix loop (fuel : nat) (queue : list State) (depths : gmap N (Z * Z))
      : option (result NivError unit) :=
    match queue with
    | [] => Some (Ok tt)
    | (index, depth, scope_depth) :: queue =>
      match fuel with
      | O => None
      | S fuel =>
        if decide (index = len code) then
          if (depth <? 1)%Z then Some (Err (NivError_new "bytecode leaves no result" 1 1))
          else if negb (scope_depth =? 0)%Z
          then Some (Err (NivError_new "bytecode leaves an open scope" 1 1))
          else loop fuel queue depths
        else
        match code !! N.to_nat index with
        | None => Some (Err (NivError_new "bytecode jump is out of bounds" 1 1))
        | Some (mkInstruction op span) =>
          match depths !! index with
          | Some previous =>
              if decide (previous = (depth, scope_depth))
              then loop fuel queue (<[index := (depth, scope_depth)]> depths)
              else Some (Err (error_at "bytecode paths disagree on stack depth" span))
          | None =>
              let depths := <[index := (depth, scope_depth)]> depths in
              if (depth <? as_isize (stack_pops op))%Z
              then Some (Err (error_at "bytecode stack underflow" span))
              else
              let next_depth := (depth + stack_effect op)%Z in
              let next_scope := (scope_depth + scope_effect op)%Z in
              if (next_depth <? 0)%Z
              then Some (Err (error_at "bytecode stack underflow" span))
              else if (next_scope <? 0)%Z
              then Some (Err (error_at "bytecode scope underflow" span))
              else loop fuel
                     (queue ++ map (λ t, (t, next_depth, next_scope)) (successors op index))
                     depths
          end
        end
      end
    end.

(** [verify_stack] *)
Definition verify_stack (chunk : Chunk) : result NivError unit :=
  let code := chunk_code chunk in
  match code with
  | [] => Err (NivError_new "bytecode chunk is empty" 1 1)
  | _ =>
      default (Err (NivError_new "" 0 0))
        (verify_stack_loop code (2 * length code + 2) [(0, 0%Z, 0%Z)] ∅)
  end.

(** [verify_in_context] *)
Fixpoint verify_in_context (chunk : Chunk) (in_loop : bool) {struct chunk}
    : result NivError unit :=
  match chunk with
  | mkChunk version code =>
      if decide (version = BYTECODE_VERSION) then
        _ ← for_each (verify_instruction (len code) in_loop) code;
        verify_stack chunk
      else Err (NivError_new ("unsupported bytecode version " +:+ pretty version) 1 1)
  end
with verify_instruction (length : N) (in_loop : bool) (i : Instruction) {struct i}
    : result NivError unit :=
  match i with
  | mkInstruction op span =>
      _ ← validate_instruction (mkInstruction op span) length;
      match op with
      | Op_MakeFunction _ _ body | Op_DefineModule _ body _ | Op_Sample _ body _
      | Op_Using _ body => verify_in_context body false
      | Op_Iterate _ _ body => verify_in_context body true
      | Op_Repeat condition body =>
          _ ← verify_in_context condition false;
          verify_in_context body true
      | Op_IfCarries _ then_branch else_branch =>
          _ ← verify_in_context then_branch in_loop;
          match else_branch with
          | Some branch => verify_in_context branch in_loop
          | None => Ok tt
          end
      | Op_LoopExit skip =>
          if in_loop then Ok tt
          else Err (error_at ("'" +:+ (if skip then "skip" else "stop")
                                +:+ "' bytecode outside a loop body") span)
      | Op_Match arms => for_each verify_arm arms
      | _ => Ok tt
      end
  end
with verify_arm (arm : BytecodeArm) {struct arm} : result NivError unit :=
  match arm with
  | mkArm _ guard body _ =>
      _ ← match guard with
          | Some guard => verify_in_context guard false
          | None => Ok tt
          end;
      verify_in_context body false
  end.

(** [verify] *)
Definition verify (chunk : Chunk) : result NivError unit := verify_in_context chunk false.

(** [compile]; [None] is a panic of the compiler. *)
Definition compile (program : list Stmt) : option (result (list NivError) Chunk) :=
  code ← statements program [];
  let chunk := mkChunk BYTECODE_VERSION code in
  match verify chunk with
  | Ok _ => Some (Ok chunk)
  | Err error => Some (Err [error])
  end.

Example compile_loop_ok :
  compile [Stmt_While (Expr_Literal (Literal_Bool true) (mkSpan 1 1))
             (Stmt_Block [Stmt_Stop (mkSpan 2 1)] (mkSpan 1 5)) (mkSpan 1 0)] ≫=
    (λ r, Some (is_ok r)) = Some true.
Proof. vm_compute. reflexivity. Qed.

Example compile_stop_outside :
  compile [Stmt_Stop (mkSpan 2 1)] =
  Some (Err [NivError_new "'stop' bytecode outside a loop body" 2 1]).
Proof. vm_compute. reflexivity. Qed.
