(* ===== verification/StackCert.v ===== *)
(** * What the stack verifier decides

    A certificate assigns a stack depth and a scope depth to instructions.
    [wt_code code L] says that [L] is consistent with the code: the entry has
    depth zero, every annotated instruction finds its operands, keeps both
    depths non-negative and agrees with the annotation of everything control
    can reach from it, and leaving the code needs a result and no open scope.
    [verify_stack] accepts a chunk exactly when such an assignment exists, and
    it always terminates. *)
From S2P Require Import Prelude Ast Bytecode Codegen Verifier.

(** ** Certificates *)

Definition Cert := N → option (Z * Z).

(** Control may arrive at [t] with depths [x]. *)
Definition goes_to (code : Code) (L : Cert) (x : Z * Z) (t : N) : Prop :=
  (t = len code ∧ 1 ≤ x.1 ∧ x.2 = 0)%Z ∨ (t < len code ∧ L t = Some x).

Definition wt_instr (code : Code) (L : Cert) (i : N) (op : Op) (x : Z * Z) : Prop :=
  (as_isize (stack_pops op) ≤ x.1)%Z ∧
  (0 ≤ x.1 + stack_effect op)%Z ∧ (0 ≤ x.2 + scope_effect op)%Z ∧
  Forall (goes_to code L (x.1 + stack_effect op, x.2 + scope_effect op)%Z)
    (successors op i).

Definition wt_code (code : Code) (L : Cert) : Prop :=
  goes_to code L (0, 0)%Z 0 ∧
  ∀ i op span x,
    code !! N.to_nat i = Some (mkInstruction op span) → L i = Some x →
    wt_instr code L i op x.

Lemma lookup_lt_len {A} (l : list A) i x : l !! N.to_nat i = Some x → i < len l.
Proof. intros H%lookup_lt_Some. unfold len. lia. Qed.

Lemma lookup_len_None {A} (l : list A) i :
  l !! N.to_nat i = None → i ≠ len l → len l < i.
Proof. intros H%lookup_ge_None. unfold len. lia. Qed.

(** ** Termination *)

(** Every visited index is an instruction of the chunk. *)
Definition in_code (code : Code) (depths : gmap N (Z * Z)) : Prop :=
  ∀ i x, depths !! i = Some x → i < len code.

Lemma in_code_insert code depths i x :
  in_code code depths → i < len code → in_code code (<[i := x]> depths).
Proof. intros H Hi j y. rewrite lookup_insert. case_decide; naive_solver. Qed.

Lemma in_code_size code depths : in_code code depths → (size depths ≤ length code)%nat.
Proof.
  intros H.
  assert (dom depths ⊆@{gset N} list_to_set (N.of_nat <$> seq 0 (length code))) as Hs.
  { intros i [x Hx]%elem_of_dom. apply H in Hx. unfold len in Hx.
    apply elem_of_list_to_set, list_elem_of_fmap. exists (N.to_nat i).
    split; [lia|]. apply elem_of_seq. lia. }
  apply subseteq_size in Hs. rewrite size_dom in Hs. etrans; [exact Hs|].
  rewrite size_list_to_set; [by rewrite length_fmap, length_seq|].
  apply NoDup_fmap_2; [apply _|]. apply NoDup_seq.
Qed.

Lemma successors_length op i : (length (successors op i) ≤ 2)%nat.
Proof. destruct op; cbn; lia. Qed.

(** One iteration either drops a queue entry, or visits a new instruction and
    queues at most two. *)
Lemma verify_stack_loop_total code fuel queue depths :
  in_code code depths →
  (length queue + 2 * (length code - size depths) < fuel)%nat →
  is_Some (verify_stack_loop code fuel queue depths).
Proof.
  revert queue depths. induction fuel as [|fuel IH]; intros queue depths Hin Hf; [lia|].
  destruct queue as [|[[i d] s] queue]; [by eexists|]. cbn [length] in Hf.
  cbn [verify_stack_loop].
  repeat match goal with |- is_Some (Some _) => by eexists | |- _ => case_match end.
  - apply IH; [done|lia].
  - simplify_eq. apply IH; [by eauto using in_code_insert, lookup_lt_len|].
    rewrite (insert_id depths) by done. lia.
  - apply IH; [by eauto using in_code_insert, lookup_lt_len|].
    assert (size (<[i := (d, s)]> depths) ≤ length code)%nat as Hle
      by (apply in_code_size, in_code_insert; eauto using lookup_lt_len).
    rewrite map_size_insert_None in Hle |- * by done.
    rewrite length_app, length_map. pose proof (successors_length op i). lia.
Qed.

(** ** Soundness and completeness *)

Lemma goes_to_mono code (m : gmap N (Z * Z)) (L : Cert) x t :
  (∀ i y, m !! i = Some y → L i = Some y) →
  goes_to code (m !!.) x t → goes_to code L x t.
Proof. intros H [?|[??]]; [by left|right; eauto]. Qed.

(** An accepting run visits a closed set of consistent instructions. *)
Lemma verify_stack_loop_sound code fuel queue depths :
  verify_stack_loop code fuel queue depths = Some (Ok tt) →
  ∃ m : gmap N (Z * Z),
    depths ⊆ m ∧
    Forall (λ q : State, goes_to code (m !!.) (q.1.2, q.2) q.1.1) queue ∧
    ∀ i op span x,
      code !! N.to_nat i = Some (mkInstruction op span) → m !! i = Some x →
      depths !! i = None → wt_instr code (m !!.) i op x.
Proof.
  revert queue depths. induction fuel as [|fuel IH]; intros queue depths;
    destruct queue as [|[[i d] s] queue]; cbn [verify_stack_loop]; intros H; try done.
  1,2: exists depths; split_and!; [done|by constructor|naive_solver].
  repeat case_match; simplify_eq; try done; destruct (IH _ _ H) as (m & Hsub & Hq & Hm).
  - exists m. split_and!; [done| |done]. constructor; [|done]. left; cbn.
    rewrite Z.ltb_ge, negb_false_iff, Z.eqb_eq in *. lia.
  - rewrite (insert_id depths) in Hsub, Hm by done.
    exists m. split_and!; [done| |done]. constructor; [|done].
    right; cbn. split; [by eapply lookup_lt_len|]. by eapply lookup_weaken.
  - rewrite Z.ltb_ge in *. apply Forall_app in Hq as [Hq Hsucc].
    rewrite Forall_map in Hsucc.
    assert (m !! i = Some (d, s)) as Hi.
    { eapply lookup_weaken; [|exact Hsub]. by rewrite lookup_insert_eq. }
    exists m. split_and!.
    + etrans; [|exact Hsub]. by apply insert_subseteq.
    + constructor; [|done]. right; cbn. split; [by eapply lookup_lt_len|done].
    + intros j op' span' x Hj Hx Hnone. destruct (decide (i = j)) as [<-|Hne].
      * simplify_eq. split_and!; cbn; [lia|lia|lia|]. done.
      * eapply Hm; [done..|]. by rewrite lookup_insert_ne.
Qed.

(** A run on certified code never reports an error. *)
Lemma verify_stack_loop_complete code (L : Cert) fuel queue depths r :
  (∀ i op span x,
    code !! N.to_nat i = Some (mkInstruction op span) → L i = Some x →
    wt_instr code L i op x) →
  Forall (λ q : State, goes_to code L (q.1.2, q.2) q.1.1) queue →
  (∀ i x, depths !! i = Some x → L i = Some x) →
  verify_stack_loop code fuel queue depths = Some r → r = Ok tt.
Proof.
  intros HL. revert queue depths.
  induction fuel as [|fuel IH]; intros queue depths Hq Hd;
    destruct queue as [|[[i d] s] queue]; cbn [verify_stack_loop]; intros H; simplify_eq;
    [done|done|].
  apply Forall_cons in Hq as [Hi Hq]. unfold goes_to in Hi; cbn in Hi.
  destruct (decide (i = len code)) as [->|Hne].
  { destruct Hi as [(_ & Hd1 & Hs)|[Hlt _]]; [|lia].
    destruct (Z.ltb_spec d 1); [lia|]. destruct (Z.eqb_spec s 0); [|done].
    cbn in H. by eauto. }
  destruct Hi as [[? _]|[Hlt Hi]]; [done|].
  destruct (code !! N.to_nat i) as [[op span]|] eqn:Hop;
    [|apply lookup_len_None in Hop; [lia|done]].
  assert (∀ j x, <[i := (d, s)]> depths !! j = Some x → L j = Some x) as Hd'.
  { intros j x. rewrite lookup_insert. case_decide; naive_solver. }
  destruct (depths !! i) as [prev|] eqn:Hprev.
  { apply Hd in Hprev. rewrite Hi in Hprev. simplify_eq. rewrite decide_True in H by done.
    eauto. }
  destruct (HL _ _ _ _ Hop Hi) as (H1 & H2 & H3 & H4); cbn in *.
  rewrite !(proj2 (Z.ltb_ge _ _)) in H by lia.
  eapply IH; [|exact Hd'|exact H]. apply Forall_app. split; [done|]. by rewrite Forall_map.
Qed.

(** [verify_stack] accepts exactly the non-empty chunks with a certificate. *)
Lemma verify_stack_Ok v code :
  verify_stack (mkChunk v code) = Ok tt ↔ code ≠ [] ∧ ∃ L, wt_code code L.
Proof.
  unfold verify_stack; cbn [chunk_code]. destruct code as [|i0 code0]; [naive_solver|].
  set (code := i0 :: code0).
  destruct (verify_stack_loop_total code (2 * length code + 2) [(0, 0%Z, 0%Z)] ∅)
    as [r Hr]; [done|rewrite map_size_empty; cbn [length]; lia|].
  rewrite Hr; cbn. split.
  - intros ->. split; [done|]. destruct (verify_stack_loop_sound _ _ _ _ Hr) as (m & _ & Hq & Hm).
    apply Forall_cons in Hq as [H0 _]. exists (m !!.). split; [done|].
    intros i op span x Hi Hx. eapply Hm; [done..|]. by rewrite lookup_empty.
  - intros [_ (L & H0 & HL)].
    eapply (verify_stack_loop_complete code L); [done| | |exact Hr].
    + by constructor.
    + intros i x. by rewrite lookup_empty.
Qed.

(** C5: The stack verifier decides exactly the certified chunks: it accepts a
    chunk if and only if the code is not empty and some assignment of stack and
    scope depths to instructions is consistent with every operand, every jump
    and every exit. *)
Theorem verify_stack_decides version code :
  verify_stack (mkChunk version code) = Ok tt ↔ code ≠ [] ∧ ∃ L, wt_code code L.
Proof. apply verify_stack_Ok. Qed.

(** The verifier's worklist terminates: twice the number of instructions,
    plus two, iterations are enough for every chunk, jumps backward and
    operands of any size included. *)
Theorem verify_stack_terminates code :
  is_Some (verify_stack_loop code (2 * length code + 2) [(0, 0%Z, 0%Z)] ∅).
Proof.
  apply verify_stack_loop_total; [done|]. rewrite map_size_empty. cbn [length]. lia.
Qed.
