(* ===== verification/CompileOk.v ===== *)
(** * Compiled code verifies

    The compiler's output is accepted by the verifier for every program the
    front end can produce: operators where the grammar puts them, pipelines
    into something callable, [stop] and [skip] inside a loop body and not
    across a function, module, sample or [using] boundary ([wf_stmt]).  Every
    fragment of generated code raises the stack depth by exactly one and keeps
    the scope depth ([balanced]), at whatever address and depth it is placed. *)
From S2P Require Import Prelude Ast Bytecode Codegen Verifier StackCert.

(** ** Well-formed programs *)

(** A vector's length always leaves room for the arity arithmetic: Rust bounds
    an allocation by [isize::MAX] bytes. *)
Definition vec_ok {A} (l : list A) : bool := (Z.of_N (len l + 3) <=? isize_max)%Z.

Definition callable (stage : Expr) : bool :=
  match stage with
  | Expr_Call _ _ _ _ | Expr_Variable _ _ | Expr_Get _ _ _ => true
  | _ => false
  end.

Fixpoint wf_expr (e : Expr) : bool :=
  match e with
  | Expr_Literal _ _ | Expr_Variable _ _ => true
  | Expr_Text pieces _ => vec_ok pieces && forallb wf_piece pieces
  | Expr_Assign _ value _ | Expr_Propagate value _ | Expr_Perform value _
  | Expr_Get value _ _ => wf_expr value
  | Expr_Unary operator value _ => is_unary_operator operator && wf_expr value
  | Expr_Binary lhs operator rhs _ =>
      is_binary_operator operator && wf_expr lhs && wf_expr rhs
  | Expr_Logical lhs _ rhs _ | Expr_Coalesce lhs rhs _ | Expr_Index lhs rhs _ =>
      wf_expr lhs && wf_expr rhs
  | Expr_Call callee arguments _ _ =>
      vec_ok arguments && wf_expr callee && forallb wf_expr arguments
  | Expr_Array values _ => vec_ok values && forallb wf_expr values
  | Expr_Through input stage _ => callable stage && wf_expr input && wf_expr stage
  | Expr_Match subject arms _ => wf_expr subject && forallb wf_arm arms
  end
with wf_piece (p : TextPiece) : bool :=
  match p with TextPiece_Literal _ => true | TextPiece_Hole hole => wf_expr hole end
with wf_arm (a : MatchArm) : bool :=
  match a with
  | mkMatchArm _ guard value _ =>
      match guard with Some g => wf_expr g | None => true end && wf_expr value
  end.

(** [wf_stmt in_loop st]: [st] may stand where the enclosing loop context is
    [in_loop]. *)
Fixpoint wf_stmt (in_loop : bool) (st : Stmt) : bool :=
  match st with
  | Stmt_Stop _ | Stmt_Skip _ => in_loop
  | Stmt_Prepare _ _ e _ | Stmt_Let _ _ _ e _ | Stmt_LetPattern _ e _
  | Stmt_Expression e | Stmt_Print e _ => wf_expr e
  | Stmt_Return value _ => match value with Some e => wf_expr e | None => true end
  | Stmt_Block ss _ => forallb (wf_stmt in_loop) ss
  | Stmt_If c t e _ | Stmt_IfCarries c _ t e _ =>
      wf_expr c && wf_stmt in_loop t
      && match e with Some e => wf_stmt in_loop e | None => true end
  | Stmt_While c b _ => wf_expr c && wf_stmt true b
  | Stmt_For _ _ i b _ => wf_expr i && wf_stmt true b
  | Stmt_Using _ r b _ => wf_expr r && wf_stmt false b
  | Stmt_Sample _ b _ _ | Stmt_Function _ _ _ _ _ _ b _ | Stmt_Module _ b _ _ =>
      forallb (wf_stmt false) b
  | _ => true
  end.

(** A loop body without an exit of its own does not depend on the context. *)
Lemma wf_stmt_exit_free il st :
  contains_loop_exit st = false → wf_stmt true st = true → wf_stmt il st = true.
Proof.
  induction st as [st Hleaf|ss s IH|c t e s IHt IHe|c ps t e s IHt IHe|c b s IHb
    |ti b sh s IHb|n p i b s IHb|n r b s IHb|n tp ps rt ne cn b s IHb|n b ex s IHb]
    using Stmt_nested_ind; cbn; try done.
  - by destruct st.
  - rewrite !forallb_forall, <- not_true_iff_false, existsb_exists.
    rewrite Forall_forall in IH. intros Hno Hwf x Hx.
    apply IH; [by apply list_elem_of_In| |by apply Hwf].
    apply not_true_iff_false. naive_solver.
  - rewrite !orb_false_iff, !andb_true_iff. destruct e; naive_solver.
  - rewrite !orb_false_iff, !andb_true_iff. destruct e; naive_solver.
Qed.

(** ** Annotated fragments *)

Definition instr_ok (L : N → Z * Z) (i : N) (op : Op) (x : Z * Z) : Prop :=
  (as_isize (stack_pops op) ≤ x.1)%Z ∧
  (0 ≤ x.1 + stack_effect op)%Z ∧ (0 ≤ x.2 + scope_effect op)%Z ∧
  Forall (λ t, L t = (x.1 + stack_effect op, x.2 + scope_effect op)%Z) (successors op i).

Fixpoint seg_ok (L : N → Z * Z) (b : N) (f : Code) (a : list (Z * Z)) : Prop :=
  match f, a with
  | [], [] => True
  | mkInstruction op _ :: f, x :: a => instr_ok L b op x ∧ seg_ok L (b + 1) f a
  | _, _ => False
  end.

Fixpoint agrees (L : N → Z * Z) (b : N) (a : list (Z * Z)) : Prop :=
  match a with
  | [] => True
  | x :: a => L b = x ∧ agrees L (b + 1) a
  end.

(** Placed at [b], entered with depths [x], the fragment [f] falls through
    with depths [y]; jumps stay inside it or go to its end. *)
Definition frag_ok (b : N) (f : Code) (x y : Z * Z) : Prop :=
  ∃ a, length a = length f ∧
    ∀ L, agrees L b a → L (b + len f) = y → L b = x ∧ seg_ok L b f a.

Lemma agrees_app L b a1 a2 :
  agrees L b (a1 ++ a2) ↔ agrees L b a1 ∧ agrees L (b + len a1) a2.
Proof.
  revert b. induction a1 as [|x a1 IH]; intros b; cbn.
  - rewrite len_nil, N.add_0_r. tauto.
  - rewrite IH, len_cons, N.add_assoc. tauto.
Qed.

Lemma seg_ok_app L b f1 f2 a1 a2 :
  seg_ok L b f1 a1 → seg_ok L (b + len f1) f2 a2 → seg_ok L b (f1 ++ f2) (a1 ++ a2).
Proof.
  revert b a1. induction f1 as [|[op s] f1 IH]; intros b [|x a1]; cbn; try done.
  - by rewrite len_nil, N.add_0_r.
  - intros [Hi Hf] H. split; [done|]. apply IH; [done|]. by rewrite len_cons, N.add_assoc in H.
Qed.

Lemma len_eq {A B} (l : list A) (k : list B) : length l = length k → len l = len k.
Proof. unfold len. lia. Qed.

Lemma frag_nil b x : frag_ok b [] x x.
Proof. exists []. split; [done|]. intros L _. rewrite len_nil, N.add_0_r. done. Qed.

Lemma frag_app b f g x y z :
  frag_ok b f x y → frag_ok (b + len f) g y z → frag_ok b (f ++ g) x z.
Proof.
  intros (a1 & Hl1 & H1) (a2 & Hl2 & H2). exists (a1 ++ a2).
  split; [rewrite !length_app; lia|]. intros L [Ha1 Ha2]%agrees_app Hend.
  rewrite (len_eq a1 f) in Ha2 by done. rewrite len_app, N.add_assoc in Hend.
  destruct (H2 L Ha2 Hend) as [Hy Hs2]. destruct (H1 L Ha1 Hy) as [Hx Hs1].
  split; [done|]. by apply seg_ok_app.
Qed.

(** One instruction that falls through. *)
Lemma frag_one b op span d s :
  successors op b = [b + 1] →
  (as_isize (stack_pops op) ≤ d)%Z → (0 ≤ d + stack_effect op)%Z →
  (0 ≤ s + scope_effect op)%Z →
  frag_ok b [mkInstruction op span] (d, s) (d + stack_effect op, s + scope_effect op)%Z.
Proof.
  intros Hs ???. exists [(d, s)]. split; [done|]. intros L [HL _] Hend. split; [done|].
  cbn. split; [|done]. split_and!; try done. rewrite Hs. by repeat constructor.
Qed.

(** One instruction that leaves the chunk. *)
Lemma frag_leave b op span d s y :
  successors op b = [] →
  (as_isize (stack_pops op) ≤ d)%Z → (0 ≤ d + stack_effect op)%Z →
  (0 ≤ s + scope_effect op)%Z → frag_ok b [mkInstruction op span] (d, s) y.
Proof.
  intros Hs ???. exists [(d, s)]. split; [done|]. intros L [HL _] Hend. split; [done|].
  cbn. split; [|done]. split_and!; try done. rewrite Hs. constructor.
Qed.

(** Split the hypotheses on [L] along appends and bring addresses into the
    form [b + ...]. *)
Ltac split_agrees :=
  repeat match goal with
  | H : agrees _ _ (_ ++ _) |- _ => apply agrees_app in H as [? H]
  | H : agrees _ _ (_ :: _) |- _ => destruct H as [? H]
  end.

Lemma L_at (L : N → Z * Z) i j x : L i = x → i = j → L j = x.
Proof. by intros ? <-. Qed.

Lemma agrees_at L b b' a : agrees L b a → b = b' → agrees L b' a.
Proof. by intros ? <-. Qed.

Lemma seg_at L b b' f a : seg_ok L b f a → b = b' → seg_ok L b' f a.
Proof. by intros ? <-. Qed.

(** Addresses that are equal once the fragments' sizes are known. *)
Ltac address := autorewrite with len; lia.

(** [L] at an address some hypothesis knows under another spelling. *)
Ltac at_label :=
  match goal with
  | H : ?L ?i = _ |- ?L ?j = _ =>
      solve [apply (L_at L i j); [rewrite H; f_equal; lia|address]]
  end.

(** Apply the specification of a fragment placed under [L]. *)
Ltac use_frag Hfrag L H0 Hs :=
  destruct (Hfrag L) as [H0 Hs];
  [eapply agrees_at; [eassumption|address]|at_label|].

(** Close a goal about one annotated jump or [Pop]. *)
Ltac one_instr :=
  unfold instr_ok; cbn [fst snd stack_pops stack_effect scope_effect successors];
  rewrite ?as_isize_small by (unfold isize_max; lia);
  split_and!; [lia..|repeat (constructor; [at_label|]); constructor].

(** [l and r], [l ?? r]: a conditional jump over [Pop; r] to the end. *)
Lemma frag_branch b op f g span d s :
  (0 ≤ d)%Z → (0 ≤ s)%Z →
  (op = Op_JumpIfFalse (b + len f + 2 + len g) ∨ op = Op_Coalesce (b + len f + 2 + len g)) →
  frag_ok b f (d, s) (d + 1, s)%Z →
  frag_ok (b + len f + 2) g (d, s) (d + 1, s)%Z →
  frag_ok b (f ++ [mkInstruction op span; mkInstruction Op_Pop span] ++ g)
    (d, s) (d + 1, s)%Z.
Proof.
  intros Hd Hs Hop (af & Hlf & Hf) (ag & Hlg & Hg).
  exists (af ++ [(d + 1, s); (d + 1, s)]%Z ++ ag).
  split; [rewrite !length_app; cbn; lia|].
  apply len_eq in Hlf, Hlg. intros L Ha Hend. rewrite !len_app in Hend. split_agrees.
  use_frag Hg L Hg0 Hgs. use_frag Hf L Hf0 Hfs.
  split; [done|]. apply seg_ok_app; [done|]. cbn [app seg_ok]. split_and!.
  - destruct Hop as [->| ->]; one_instr.
  - one_instr.
  - eapply seg_at; [exact Hgs|address].
Qed.

(** [l or r] *)
Lemma frag_or b f g span d s :
  (0 ≤ d)%Z → (0 ≤ s)%Z →
  frag_ok b f (d, s) (d + 1, s)%Z →
  frag_ok (b + len f + 3) g (d, s) (d + 1, s)%Z →
  frag_ok b (f ++ [mkInstruction (Op_JumpIfFalse (b + len f + 2)) span;
                   mkInstruction (Op_Jump (b + len f + 3 + len g)) span;
                   mkInstruction Op_Pop span] ++ g) (d, s) (d + 1, s)%Z.
Proof.
  intros Hd Hs (af & Hlf & Hf) (ag & Hlg & Hg).
  exists (af ++ [(d + 1, s); (d + 1, s); (d + 1, s)]%Z ++ ag).
  split; [rewrite !length_app; cbn; lia|].
  apply len_eq in Hlf, Hlg. intros L Ha Hend. rewrite !len_app in Hend. split_agrees.
  use_frag Hg L Hg0 Hgs. use_frag Hf L Hf0 Hfs.
  split; [done|]. apply seg_ok_app; [done|]. cbn [app seg_ok].
  split_and!; [one_instr..|]. eapply seg_at; [exact Hgs|address].
Qed.

(** [if c { t } else { e }] *)
Lemma frag_if b c t e span d s :
  (0 ≤ d)%Z → (0 ≤ s)%Z →
  frag_ok b c (d, s) (d + 1, s)%Z →
  frag_ok (b + len c + 2) t (d, s) (d + 1, s)%Z →
  frag_ok (b + len c + 2 + len t + 2) e (d, s) (d + 1, s)%Z →
  frag_ok b (c ++ [mkInstruction (Op_JumpIfFalse (b + len c + 2 + len t + 1)) span;
                   mkInstruction Op_Pop span] ++ t
               ++ [mkInstruction (Op_Jump (b + len c + 2 + len t + 2 + len e)) span;
                   mkInstruction Op_Pop span] ++ e) (d, s) (d + 1, s)%Z.
Proof.
  intros Hd Hs (ac & Hlc & Hc) (at_ & Hlt & Ht) (ae & Hle & He).
  exists (ac ++ [(d + 1, s); (d + 1, s)]%Z ++ at_ ++ [(d + 1, s); (d + 1, s)]%Z ++ ae).
  split; [rewrite !length_app; cbn; lia|].
  apply len_eq in Hlc, Hlt, Hle. intros L Ha Hend. rewrite !len_app in Hend. split_agrees.
  use_frag He L He0 Hes. use_frag Ht L Ht0 Hts. use_frag Hc L Hc0 Hcs.
  split; [done|]. apply seg_ok_app; [done|]. cbn [app seg_ok].
  split_and!; [one_instr..|].
  apply seg_ok_app; [eapply seg_at; [exact Hts|address]|]. cbn [app seg_ok].
  split_and!; [one_instr..|]. eapply seg_at; [exact Hes|address].
Qed.

(** The jump-based [repeat while] *)
Lemma frag_while b c t span d s :
  (0 ≤ d)%Z → (0 ≤ s)%Z →
  frag_ok (b + 1) c (d + 1, s)%Z (d + 2, s)%Z →
  frag_ok (b + 1 + len c + 3) t (d, s)%Z (d + 1, s)%Z →
  frag_ok b ([mkInstruction (Op_Constant Literal_Null) span] ++ c
             ++ [mkInstruction (Op_JumpIfFalse (b + 1 + len c + 3 + len t + 1)) span;
                 mkInstruction Op_Pop span; mkInstruction Op_Pop span]
             ++ t ++ [mkInstruction (Op_Jump (b + 1)) span; mkInstruction Op_Pop span])
    (d, s) (d + 1, s)%Z.
Proof.
  intros Hd Hs (ac & Hlc & Hc) (at_ & Hlt & Ht).
  exists ([(d, s)] ++ ac ++ [(d + 2, s); (d + 2, s); (d + 1, s)]%Z ++ at_
            ++ [(d + 1, s); (d + 2, s)]%Z).
  split; [rewrite !length_app; cbn; lia|].
  apply len_eq in Hlc, Hlt. intros L Ha Hend. rewrite !len_app in Hend. split_agrees.
  use_frag Ht L Ht0 Hts. use_frag Hc L Hc0 Hcs.
  split; [done|]. cbn [app seg_ok]. split; [one_instr|].
  apply seg_ok_app; [done|]. cbn [app seg_ok]. split_and!; [one_instr..|].
  apply seg_ok_app; [eapply seg_at; [exact Hts|address]|]. cbn [app seg_ok].
  split_and!; [one_instr..|done].
Qed.

(** ** Balanced fragments *)

(** A fragment the stack check and the per-instruction check both accept. *)
Definition good (il : bool) (b : N) (f : Code) (x y : Z * Z) : Prop :=
  frag_ok b f x y ∧
  ∀ n, b + len f ≤ n → Forall (λ i, verify_instruction n il i = Ok tt) f.

Definition balanced (il : bool) (b : N) (f : Code) : Prop :=
  ∀ d s, (0 ≤ d)%Z → (0 ≤ s)%Z → good il b f (d, s) (d + 1, s)%Z.

Lemma good_nil il b x : good il b [] x x.
Proof. split; [apply frag_nil|]. constructor. Qed.

Lemma good_app il b f g x y z :
  good il b f x y → good il (b + len f) g y z → good il b (f ++ g) x z.
Proof.
  intros [Hf Vf] [Hg Vg]. split; [by eapply frag_app|].
  intros n Hn. rewrite len_app in Hn. apply Forall_app. split; [apply Vf|apply Vg]; lia.
Qed.

Lemma good_cons il b i g x y z :
  good il b [i] x y → good il (b + 1) g y z → good il b (i :: g) x z.
Proof. apply (good_app il b [i]). Qed.

Lemma good_one il b op span d s y :
  successors op b = [b + 1] →
  (as_isize (stack_pops op) ≤ d)%Z → (0 ≤ d + stack_effect op)%Z →
  (0 ≤ s + scope_effect op)%Z →
  y = (d + stack_effect op, s + scope_effect op)%Z →
  (∀ n, b + 1 ≤ n → verify_instruction n il (mkInstruction op span) = Ok tt) →
  good il b [mkInstruction op span] (d, s) y.
Proof.
  intros ???? -> Hv. split; [by apply frag_one|].
  intros n Hn. rewrite len_cons, len_nil in Hn. constructor; [|done]. apply Hv. lia.
Qed.

Lemma good_leave il b op span d s y :
  successors op b = [] →
  (as_isize (stack_pops op) ≤ d)%Z → (0 ≤ d + stack_effect op)%Z →
  (0 ≤ s + scope_effect op)%Z →
  (∀ n, b + 1 ≤ n → verify_instruction n il (mkInstruction op span) = Ok tt) →
  good il b [mkInstruction op span] (d, s) y.
Proof.
  intros ???? Hv. split; [by apply frag_leave|].
  intros n Hn. rewrite len_cons, len_nil in Hn. constructor; [|done]. apply Hv. lia.
Qed.

Lemma lookup_agrees (y : Z * Z) a0 c :
  agrees (λ i, default y ((a0 ++ c) !! N.to_nat i)) (len a0) c.
Proof.
  revert a0. induction c as [|x c IH]; intros a0; [done|]. split.
  - by rewrite len_to_nat, list_lookup_middle.
  - specialize (IH (a0 ++ [x])). rewrite <- app_assoc in IH. cbn in IH.
    eapply agrees_at; [exact IH|address].
Qed.

Lemma seg_ok_lookup L b f a k op span x :
  seg_ok L b f a → f !! k = Some (mkInstruction op span) → a !! k = Some x →
  instr_ok L (b + N.of_nat k) op x.
Proof.
  revert b a k. induction f as [|[op' s'] f IH]; intros b [|x' a] k; cbn; try done.
  intros [H1 H2]. destruct k as [|k]; cbn.
  - intros ??; simplify_eq. by rewrite N.add_0_r.
  - intros ??. replace (b + N.of_nat (S k)) with (b + 1 + N.of_nat k) by lia.
    by eapply IH.
Qed.

(** The per-instruction check bounds where control can go. *)
Lemma successors_bound n il op span i :
  verify_instruction n il (mkInstruction op span) = Ok tt → i < n →
  Forall (λ t, t ≤ n) (successors op i).
Proof.
  intros Hv Hi. cbn [verify_instruction] in Hv. apply bind_Ok in Hv as ([] & Hv & _).
  unfold validate_instruction in Hv. cbn [instr_op] in Hv.
  destruct (valid_operand op n) eqn:E; [|done].
  destruct op; cbn in *; try rewrite N.leb_le in E; repeat constructor; lia.
Qed.

(** A good fragment from the empty stack to a result is an acceptable chunk. *)
Lemma good_chunk il f y :
  good il 0 f (0, 0)%Z y → (1 ≤ y.1)%Z → y.2 = 0%Z →
  verify_in_context (mkChunk BYTECODE_VERSION f) il = Ok tt.
Proof.
  intros [(a & Hlen & Ha) Hv] Hy1 Hy2. cbn [verify_in_context]. rewrite decide_True by done.
  rewrite (proj2 (for_each_Ok _ _)) by (apply Hv; lia). cbn [mbind result_bind].
  pose (L := λ i, default y (a !! N.to_nat i)).
  destruct (Ha L) as [H0 Hs]; [apply (lookup_agrees y [])| |].
  { unfold L. rewrite lookup_ge_None_2; [done|]. unfold len. lia. }
  assert (∀ t, t ≤ len f → goes_to f (λ i, a !! N.to_nat i) (L t) t) as Hgo.
  { apply len_eq in Hlen. intros t Ht. unfold L.
    destruct (a !! N.to_nat t) as [x|] eqn:E; cbn.
    - right. split; [|done]. apply lookup_lt_len in E. lia.
    - left. destruct (decide (t = len f)); [done|]. apply lookup_len_None in E; [exfalso|]; lia. }
  apply verify_stack_Ok. split.
  { intros ->. destruct a; [|done]. change (y = (0, 0)%Z) in H0.
    rewrite H0 in Hy1. cbn [fst] in Hy1. lia. }
  exists (λ i, a !! N.to_nat i). split; [rewrite <- H0; apply Hgo; lia|].
  intros i op span x Hi Hx.
  destruct (seg_ok_lookup _ _ _ _ _ _ _ _ Hs Hi Hx) as (? & ? & ? & Hsucc).
  split_and!; try done. rewrite N.add_0_l, N2Nat.id in Hsucc.
  apply lookup_lt_len in Hi as Hlt. specialize (Hv (len f)). rewrite Forall_forall in Hv.
  apply list_elem_of_lookup_2, Hv, (successors_bound _ _ _ _ i) in Hi; [|done|lia].
  rewrite Forall_forall in Hi, Hsucc |- *. intros t Ht.
  rewrite <- (Hsucc t Ht). auto.
Qed.

Lemma balanced_chunk il f :
  balanced il 0 f → verify_in_context (mkChunk BYTECODE_VERSION f) il = Ok tt.
Proof. intros H. eapply good_chunk; [by apply H|done|done]. Qed.

(** Branching shapes: the stack part is the lemma on fragments, the
    per-instruction part is that every target lies inside the shape. *)
Ltac targets_inside :=
  intros ?n ?Hn; rewrite ?len_app, ?len_cons, ?len_nil in *;
  repeat (apply Forall_app; split); repeat constructor;
  try match goal with
  | H : ∀ n, _ → Forall _ ?f |- Forall _ ?f => apply H; lia
  end;
  cbn [verify_instruction]; unfold validate_instruction;
  cbn [instr_op valid_operand]; rewrite (proj2 (N.leb_le _ _)) by lia; reflexivity.

Lemma balanced_branch il b op f g span :
  (op = Op_JumpIfFalse (b + len f + 2 + len g) ∨ op = Op_Coalesce (b + len f + 2 + len g)) →
  balanced il b f → balanced il (b + len f + 2) g →
  balanced il b (f ++ [mkInstruction op span; mkInstruction Op_Pop span] ++ g).
Proof.
  intros Hop Hf Hg d s ??.
  destruct (Hf d s) as [Ff Vf]; [done..|]. destruct (Hg d s) as [Fg Vg]; [done..|].
  split; [by apply frag_branch|]. destruct Hop as [->| ->]; targets_inside.
Qed.

Lemma balanced_or il b f g span :
  balanced il b f → balanced il (b + len f + 3) g →
  balanced il b (f ++ [mkInstruction (Op_JumpIfFalse (b + len f + 2)) span;
                       mkInstruction (Op_Jump (b + len f + 3 + len g)) span;
                       mkInstruction Op_Pop span] ++ g).
Proof.
  intros Hf Hg d s ??.
  destruct (Hf d s) as [Ff Vf]; [done..|]. destruct (Hg d s) as [Fg Vg]; [done..|].
  split; [by apply frag_or|]. targets_inside.
Qed.

Lemma balanced_if il b c t e span :
  balanced il b c → balanced il (b + len c + 2) t →
  balanced il (b + len c + 2 + len t + 2) e →
  balanced il b (c ++ [mkInstruction (Op_JumpIfFalse (b + len c + 2 + len t + 1)) span;
                       mkInstruction Op_Pop span] ++ t
                   ++ [mkInstruction (Op_Jump (b + len c + 2 + len t + 2 + len e)) span;
                       mkInstruction Op_Pop span] ++ e).
Proof.
  intros Hc Ht He d s ??. destruct (Hc d s) as [Fc Vc]; [done..|].
  destruct (Ht d s) as [Ft Vt]; [done..|]. destruct (He d s) as [Fe Ve]; [done..|].
  split; [by apply frag_if|]. targets_inside.
Qed.

Lemma balanced_while il b c t span :
  balanced il (b + 1) c → balanced il (b + 1 + len c + 3) t →
  balanced il b ([mkInstruction (Op_Constant Literal_Null) span] ++ c
             ++ [mkInstruction (Op_JumpIfFalse (b + 1 + len c + 3 + len t + 1)) span;
                 mkInstruction Op_Pop span; mkInstruction Op_Pop span]
             ++ t ++ [mkInstruction (Op_Jump (b + 1)) span; mkInstruction Op_Pop span]).
Proof.
  intros Hc Ht d s ??. destruct (Hc (d + 1)%Z s) as [Fc Vc]; [lia..|].
  destruct (Ht d s) as [Ft Vt]; [done..|].
  rewrite <- Z.add_assoc in Fc. cbn in Fc.
  split; [by apply frag_while|]. targets_inside.
Qed.

(** ** Expressions *)

Lemma call_pops n :
  (Z.of_N (n + 2) ≤ isize_max)%Z → as_isize ((n + 1) mod 2 ^ 64) = (Z.of_N n + 1)%Z.
Proof.
  intros H. unfold isize_max in *. rewrite N.mod_small by lia.
  rewrite as_isize_small; unfold isize_max; lia.
Qed.

(** An instruction that consumes [k] operands and leaves one result. *)
Lemma good_consume il b f op span d s k :
  good il b f (d, s) (d + k, s)%Z → (0 ≤ d)%Z → (0 ≤ s)%Z →
  successors op (b + len f) = [b + len f + 1] →
  (as_isize (stack_pops op) ≤ k)%Z → (0 ≤ as_isize (stack_pops op))%Z →
  stack_effect op = (1 - k)%Z → scope_effect op = 0%Z →
  (∀ n, verify_instruction n il (mkInstruction op span) = Ok tt) →
  good il b (f ++ [ins op span]) (d, s) (d + 1, s)%Z.
Proof.
  intros Hf ?? Hsu Hp1 Hp0 He Hc Hv. eapply good_app; [exact Hf|].
  apply good_one; rewrite ?He, ?Hc; [done|lia|lia|lia|f_equal; lia|done].
Qed.

(** A falling-through instruction whose operands are at most [k], on a stack
    at least that deep. *)
Lemma good_op il b op span d s k y :
  (∀ i, successors op i = [i + 1]) → stack_pops op = k →
  (Z.of_N k ≤ isize_max)%Z → (Z.of_N k ≤ d)%Z →
  (0 ≤ d + stack_effect op)%Z → (0 ≤ s + scope_effect op)%Z →
  y = (d + stack_effect op, s + scope_effect op)%Z →
  (∀ n, verify_instruction n il (mkInstruction op span) = Ok tt) →
  good il b [mkInstruction op span] (d, s) y.
Proof. intros ? Hk ??????. apply good_one; auto. by rewrite Hk, as_isize_small. Qed.

Ltac op_side :=
  cbn [successors stack_pops stack_effect scope_effect]; try done;
  try (rewrite as_isize_small); try (unfold isize_max; lia); try (f_equal; lia).

(** [balanced] for an instruction applied to one balanced operand. *)
Lemma balanced_snoc1 il b f op span :
  balanced il b f →
  (∀ i, successors op i = [i + 1]) → stack_effect op = 0%Z → scope_effect op = 0%Z →
  stack_pops op ≤ 1 →
  (∀ n, verify_instruction n il (mkInstruction op span) = Ok tt) →
  balanced il b (f ++ [ins op span]).
Proof.
  intros Hf Hsu He Hc Hp Hv d s ??.
  assert (as_isize (stack_pops op) = Z.of_N (stack_pops op)) as Hq
    by (apply as_isize_small; unfold isize_max; lia).
  eapply (good_consume _ _ _ _ _ _ _ 1); eauto; rewrite Hq; lia.
Qed.

(** An instruction without operands that pushes one value. *)
Lemma balanced_push il b op span :
  (∀ i, successors op i = [i + 1]) → stack_effect op = 1%Z → scope_effect op = 0%Z →
  stack_pops op = 0 →
  (∀ n, verify_instruction n il (mkInstruction op span) = Ok tt) →
  balanced il b [ins op span].
Proof.
  intros Hsu He Hc Hp Hv d s ??.
  apply good_one; rewrite ?He, ?Hc, ?Hp; [done|change (as_isize 0) with 0%Z; lia|lia|lia|f_equal; lia|done].
Qed.

(** Operands in sequence: one value each. *)
Lemma gen_seq_good {A} (gen : N → A → option Code) il l :
  Forall (λ x, ∀ b, ∃ f, gen b x = Some f ∧ balanced il b f) l →
  ∀ b, ∃ f, gen_seq gen b l = Some f ∧
    ∀ d s, (0 ≤ d)%Z → (0 ≤ s)%Z → good il b f (d, s) (d + Z.of_N (len l), s)%Z.
Proof.
  induction 1 as [|x l Hx _ IH]; intros b; cbn [gen_seq].
  - exists []. split; [done|]. intros. rewrite Z.add_0_r. apply good_nil.
  - destruct (Hx b) as (f & -> & Hf). destruct (IH (b + len f)) as (g & Hg & Hgood).
    cbn [mbind option_bind]. rewrite Hg. exists (f ++ g). split; [done|].
    intros d s ??. eapply good_app; [by apply Hf|].
    replace (d + Z.of_N (len (x :: l)))%Z with (d + 1 + Z.of_N (len l))%Z
      by (rewrite len_cons; lia).
    apply Hgood; lia.
Qed.

Lemma mapM_Some_Forall {A B} (f : A → option B) (Q : B → Prop) l :
  Forall (λ x, ∃ y, f x = Some y ∧ Q y) l → ∃ k, mapM f l = Some k ∧ Forall Q k.
Proof.
  induction 1 as [|x l (y & Hy & Qy) _ (k & Hk & Qk)]; cbn.
  - by exists [].
  - rewrite Hy, Hk. exists (y :: k). by split; [|constructor].
Qed.

(** [Forall] of an implication whose premise [forallb] provides. *)
Lemma Forall_wf {A} (wf : A → bool) (P : A → Prop) l :
  Forall (λ x, wf x = true → P x) l → forallb wf l = true → Forall P l.
Proof.
  rewrite forallb_forall, !Forall_forall. setoid_rewrite list_elem_of_In. auto.
Qed.

Definition expr_good (e : Expr) : Prop :=
  ∀ il b, ∃ f, gen_expr b e = Some f ∧ balanced il b f.

Lemma exprs_good il es :
  Forall expr_good es →
  ∀ b, ∃ f, gen_seq gen_expr b es = Some f ∧
    ∀ d s, (0 ≤ d)%Z → (0 ≤ s)%Z → good il b f (d, s) (d + Z.of_N (len es), s)%Z.
Proof. intros H. apply gen_seq_good. eapply Forall_impl; [exact H|]. intros e He. apply He. Qed.

(** A call: callee, then arguments, then an instruction of that arity. *)
Lemma call_good il b c f es n op span :
  (op = Op_Call n ∨ op = Op_PerformCall n) →
  n = len es → (Z.of_N (n + 2) ≤ isize_max)%Z →
  balanced il b c →
  (∀ d s, (0 ≤ d)%Z → (0 ≤ s)%Z →
     good il (b + len c) f (d, s) (d + Z.of_N (len (es : list Expr)), s)%Z) →
  balanced il b (c ++ f ++ [ins op span]).
Proof.
  intros Hop -> Hn Hc Hf d s ??. rewrite app_assoc.
  apply (good_consume _ _ _ _ _ _ _ (1 + Z.of_N (len es))%Z); try done.
  - eapply good_app; [by apply Hc|]. rewrite Z.add_assoc. apply Hf; lia.
  - by destruct Hop as [->| ->].
  - destruct Hop as [->| ->]; cbn [stack_pops]; rewrite call_pops by done; lia.
  - destruct Hop as [->| ->]; cbn [stack_pops]; rewrite call_pops by done; lia.
  - destruct Hop as [->| ->]; cbn [stack_effect]; rewrite as_isize_small by lia; lia.
  - by destruct Hop as [->| ->].
  - by destruct Hop as [->| ->].
Qed.

(** An aggregate: its parts, then an instruction that joins them. *)
Lemma aggregate_good il b f op n span :
  (op = Op_MakeArray n ∨ op = Op_MakeText n) → (Z.of_N (n + 2) ≤ isize_max)%Z →
  (∀ d s, (0 ≤ d)%Z → (0 ≤ s)%Z → good il b f (d, s) (d + Z.of_N n, s)%Z) →
  balanced il b (f ++ [ins op span]).
Proof.
  intros Hop Hn Hf d s ??.
  apply (good_consume _ _ _ _ _ _ _ (Z.of_N n)); [by apply Hf|done|done|..].
  - by destruct Hop as [->| ->].
  - destruct Hop as [->| ->]; cbn [stack_pops]; rewrite as_isize_small by lia; lia.
  - destruct Hop as [->| ->]; cbn [stack_pops]; rewrite as_isize_small by lia; lia.
  - destruct Hop as [->| ->]; cbn [stack_effect]; rewrite as_isize_small by lia; lia.
  - by destruct Hop as [->| ->].
  - by destruct Hop as [->| ->].
Qed.

Lemma vec_ok_le {A} (l : list A) : vec_ok l = true →
  (Z.of_N (len l + 2) ≤ isize_max)%Z ∧ (Z.of_N (1 + len l + 2) ≤ isize_max)%Z.
Proof. unfold vec_ok. rewrite Z.leb_le. lia. Qed.

(** Take the fragment of a sub-term from its induction hypothesis. *)
Ltac fragment H il b f Hf :=
  let E := fresh "E" in
  destruct (H il b) as (f & E & Hf); rewrite E; clear E; cbn [mbind option_bind].

Ltac wf_split :=
  repeat match goal with
  | H : _ && _ = true |- _ => apply andb_true_iff in H as [? H]
  | H : vec_ok _ = true |- _ => apply vec_ok_le in H as [? ?]
  | IH : ?a = true → _, H : ?a = true |- _ => specialize (IH H)
  end.

(** Side conditions on a concrete instruction. *)
Ltac by_op := try done; try lia; cbn [stack_pops]; try lia.

Lemma operator_valid n il op span :
  match op with Op_Unary _ | Op_Binary _ => True | _ => False end →
  valid_operand op n = true → verify_instruction n il (mkInstruction op span) = Ok tt.
Proof.
  intros Hop Hv. cbn [verify_instruction]. unfold validate_instruction. cbn [instr_op].
  rewrite Hv. by destruct op.
Qed.

Lemma gen_expr_good e : wf_expr e = true → expr_good e.
Proof.
  induction e as [l s|ps s IH|n s|n e s IH|o e s IH|l o r s IHl IHr|l o r s IHl IHr
    |c es ls s IHc IHes|es s IHes|e i s IHe IHi|l r s IHl IHr|e s IH|e s IH IHp
    |i t s IHi IHt IHp|e n s IH|e arms s IH IHarms|ps g e s IHg IH|t|e IH]
    using Expr_nested_ind with
    (Q := λ a, wf_arm a = true → ∃ a', gen_arm a = Some a' ∧ verify_arm a' = Ok tt)
    (R := λ p, wf_piece p = true → ∀ span il b,
        ∃ f, gen_piece span b p = Some f ∧ balanced il b f).
  all: cbn [wf_expr wf_piece wf_arm]; intros Hwf; wf_split;
    try (intros il b; cbn [gen_expr]).
  - eexists; split; [done|]. by apply balanced_push.
  - destruct (gen_seq_good (gen_piece s) il ps) with (b := b) as (f & Hf & Hgood).
    { eapply Forall_impl; [exact (Forall_wf _ _ _ IH Hwf)|]. cbn. auto. }
    rewrite Hf. eexists; split; [done|]. by eapply aggregate_good; [right| |].
  - eexists; split; [done|]. by apply balanced_push.
  - fragment IH il b f Hf. eexists; split; [done|]. by apply balanced_snoc1.
  - fragment IH il b f Hf. eexists; split; [done|]. apply balanced_snoc1; by_op.
    intros n. by apply operator_valid; [done|].
  - fragment IHl il b f Hf. fragment IHr il (b + len f) g Hg. eexists; split; [done|].
    rewrite app_assoc. intros d s' ??.
    eapply (good_consume _ _ _ _ _ _ _ 2); by_op.
    + eapply good_app; [by apply Hf|]. replace (d + 2)%Z with (d + 1 + 1)%Z by lia.
      apply Hg; lia.
    + intros n. by apply operator_valid; [done|].
  - fragment IHl il b f Hf. destruct (is_or o).
    + fragment IHr il (b + len f + 3) g Hg. eexists; split; [done|]. by apply balanced_or.
    + fragment IHr il (b + len f + 2) g Hg. eexists; split; [done|].
      by apply balanced_branch; [left| |].
  - fragment IHc il b c' Hc.
    destruct (exprs_good il es) with (b := b + len c') as (f & -> & Hf);
      [exact (Forall_wf _ _ _ IHes Hwf)|].
    eexists; split; [done|]. eapply call_good; by eauto.
  - destruct (exprs_good il es) with (b := b) as (f & -> & Hf);
      [exact (Forall_wf _ _ _ IHes Hwf)|].
    eexists; split; [done|]. eapply aggregate_good; by eauto.
  - fragment IHe il b f Hf. fragment IHi il (b + len f) g Hg. eexists; split; [done|].
    rewrite app_assoc. intros d s' ??.
    eapply (good_consume _ _ _ _ _ _ _ 2); by_op.
    eapply good_app; [by apply Hf|]. replace (d + 2)%Z with (d + 1 + 1)%Z by lia.
    apply Hg; lia.
  - fragment IHl il b f Hf. fragment IHr il (b + len f + 2) g Hg. eexists; split; [done|].
    by apply balanced_branch; [right| |].
  - fragment IH il b f Hf. eexists; split; [done|]. by apply balanced_snoc1.
  - destruct e; try (fragment IH il b f Hf; eexists; split; [done|]; by apply balanced_snoc1).
    cbn in Hwf, IHp. destruct IHp as [IHc IHes]. wf_split. fragment IHc il b c' Hc.
    destruct (exprs_good il arguments) with (b := b + len c') as (f & -> & Hf);
      [exact (Forall_wf _ _ _ IHes Hwf)|].
    eexists; split; [done|]. eapply call_good; by eauto.
  - destruct t; try done.
    + fragment IHt il b c' Hc. fragment IHi il (b + len c') f Hf. eexists; split; [done|].
      by eapply (call_good _ _ _ _ [i]); [left| | | |].
    + cbn in Hwf, IHp. destruct IHp as [IHc IHes]. wf_split.
      fragment IHc il b c' Hc. fragment IHi il (b + len c') f Hf.
      destruct (exprs_good il arguments) with (b := b + len c' + len f) as (g & -> & Hg);
        [exact (Forall_wf _ _ _ IHes Hwf)|].
      eexists; split; [done|].
      rewrite (app_assoc f g). eapply (call_good _ _ _ _ (i :: arguments)); eauto.
      * by rewrite len_cons.
      * intros d s' ??. eapply good_app; [by apply Hf|].
        replace (d + Z.of_N (len (i :: arguments)))%Z with (d + 1 + Z.of_N (len arguments))%Z
          by (rewrite len_cons; lia).
        apply Hg; lia.
    + fragment IHt il b c' Hc. fragment IHi il (b + len c') f Hf. eexists; split; [done|].
      by eapply (call_good _ _ _ _ [i]); [left| | | |].
  - fragment IH il b f Hf. eexists; split; [done|]. by apply balanced_snoc1.
  - fragment IH il b f Hf.
    destruct (mapM_Some_Forall gen_arm (λ a, verify_arm a = Ok tt) arms) as (k & -> & Hk);
      [exact (Forall_wf _ _ _ IHarms Hwf)|].
    eexists; split; [done|]. apply balanced_snoc1; by_op.
    intros n. cbn. by apply for_each_Ok.
  - destruct (IH false 0) as (f & Hf & Bf). cbn [gen_arm]. rewrite Hf. cbn [mbind option_bind].
    destruct g as [g|]; cbn in IHg.
    + destruct (IHg H false 0) as (fg & Hfg & Bfg). rewrite Hfg. eexists; split; [done|].
      cbn [verify_arm]. rewrite !balanced_chunk by done. done.
    + eexists; split; [done|]. cbn [verify_arm mbind result_bind]. by apply balanced_chunk.
  - intros. eexists; split; [done|]. by apply balanced_push.
  - apply IH.
Qed.

(** ** Statements *)

Definition stmt_good (st : Stmt) : Prop :=
  ∀ il, wf_stmt il st = true → ∀ b, ∃ f, gen_stmt b st = Some f ∧ balanced il b f.

Lemma gen_stmts_good ss il :
  Forall stmt_good ss → forallb (wf_stmt il) ss = true →
  ∀ b, ∃ f, gen_stmts gen_stmt b ss = Some f ∧ balanced il b f.
Proof.
  induction 1 as [|s ss Hs _ IH]; intros Hwf b.
  - eexists; split; [done|]. by apply balanced_push.
  - cbn [forallb] in Hwf. apply andb_true_iff in Hwf as [Hw Hws]. cbn [gen_stmts].
    destruct ss as [|s' ss]; [by apply Hs|].
    destruct (Hs il Hw b) as (f & -> & Hf). cbn [mbind option_bind].
    destruct (IH Hws (b + len f + 1)) as (g & -> & Hg). eexists; split; [done|].
    intros d sc ??. eapply good_app; [by apply Hf|]. cbn [app].
    apply (good_cons _ _ _ _ _ (d, sc)); [|by apply Hg].
    apply (good_op _ _ _ _ _ _ 1); op_side.
Qed.

(** A nested chunk compiled from well-formed statements verifies. *)
Lemma chunk_good ss il :
  Forall stmt_good ss → forallb (wf_stmt il) ss = true →
  ∃ c, new_chunk (gen_stmts gen_stmt 0 ss) = Some c ∧ verify_in_context c il = Ok tt.
Proof.
  intros Hss Hwf. destruct (gen_stmts_good ss il Hss Hwf 0) as (f & -> & Hf).
  eexists; split; [done|]. by apply balanced_chunk.
Qed.

Lemma body_good st il :
  stmt_good st → wf_stmt il st = true →
  ∃ c, new_chunk (gen_stmts gen_stmt 0 [st]) = Some c ∧ verify_in_context c il = Ok tt.
Proof. intros H Hwf. apply chunk_good; [by constructor|]. cbn. by rewrite Hwf. Qed.

(** The statements without a nested statement. *)
Lemma leaf_good st :
  match st with
  | Stmt_Block _ _ | Stmt_If _ _ _ _ | Stmt_IfCarries _ _ _ _ _ | Stmt_While _ _ _
  | Stmt_Sample _ _ _ _ | Stmt_For _ _ _ _ _ | Stmt_Using _ _ _ _
  | Stmt_Function _ _ _ _ _ _ _ _ | Stmt_Module _ _ _ _ => False
  | _ => True
  end → stmt_good st.
Proof.
  intros Hleaf il Hwf b. destruct st; try done; cbn [gen_stmt wf_stmt statement] in *.
  all: try (by eexists; split; [done|]; apply balanced_push).
  all: try (destruct (gen_expr_good _ Hwf il b) as (f & -> & Hf); cbn [mbind option_bind]).
  - eexists; split; [done|]. change [?x; ?y] with ([x] ++ [y]). rewrite app_assoc.
    apply balanced_snoc1; try done. by apply balanced_snoc1.
  - eexists; split; [done|]. by apply balanced_snoc1.
  - eexists; split; [done|]. by apply balanced_snoc1.
  - by eexists.
  - eexists; split; [done|]. by apply balanced_snoc1.
  - subst. eexists; split; [done|]. intros d s ??. apply good_leave; op_side.
  - subst. eexists; split; [done|]. intros d s ??. apply good_leave; op_side.
  - eexists; split; [done|]. intros d s ??. apply (good_app _ _ [_] [_] _ (d, s)).
    + apply (good_op _ _ _ _ _ _ 0); op_side.
    + apply (good_op _ _ _ _ _ _ 0); op_side.
  - destruct value as [e|].
    + destruct (gen_expr_good _ Hwf il b) as (f & -> & Hf). eexists; split; [done|].
      intros d s ??. eapply good_app; [by apply Hf|].
      apply good_leave; op_side.
    + eexists; split; [done|].
      intros d s ??. eapply good_app; [by apply balanced_push|].
      apply good_leave; op_side.
Qed.

Lemma gen_stmt_good st : stmt_good st.
Proof.
  induction st as [st Hleaf|ss s IHss|c t e s IHt IHe|c ps t e s IHt IHe|c b s IHb
    |ti b sh s IHb|n p i b s IHb|n r b s IHb|n tp ps rt ne cn b s IHb|n b ex s IHb]
    using Stmt_nested_ind; [by apply leaf_good|..]; intros il Hwf a;
    cbn [gen_stmt wf_stmt] in *; wf_split.
  - destruct (gen_stmts_good ss il) with (b := a + 1) as (f & -> & Hf); [done..|].
    eexists; split; [done|]. intros d sc ??. cbn [app].
    apply (good_cons _ _ _ _ _ (d, sc + 1)%Z).
    { apply (good_op _ _ _ _ _ _ 0); op_side. }
    eapply good_app; [apply Hf; lia|]. apply (good_op _ _ _ _ _ _ 0); op_side.
  - destruct (gen_expr_good c) with (il := il) (b := a) as (f & -> & Hf); [done|].
    cbn [mbind option_bind].
    destruct (IHt il) with (b := a + len f + 2) as (g & -> & Hg); [done|].
    cbn [mbind option_bind]. destruct e as [e|]; cbn in IHe.
    + destruct (IHe il) with (b := a + len f + 2 + len g + 2) as (h & -> & Hh); [done|].
      eexists; split; [done|]. by apply balanced_if.
    + eexists; split; [done|]. apply balanced_if; [done..|]. by apply balanced_push.
  - destruct (gen_expr_good c) with (il := il) (b := a) as (f & -> & Hf); [done|].
    cbn [mbind option_bind]. destruct (body_good t il) as (ct & -> & Vt); [done..|].
    cbn [mbind option_bind]. destruct e as [e|]; cbn in IHe.
    + destruct (body_good e il) as (ce & -> & Ve); [done..|]. eexists; split; [done|].
      apply balanced_snoc1; try done. intros n. cbn. by rewrite Vt.
    + eexists; split; [done|].
      apply balanced_snoc1; try done. intros n. cbn. by rewrite Vt.
  - destruct (contains_loop_exit b) eqn:Hexit.
    + destruct (gen_expr_good c) with (il := false) (b := 0) as (f & -> & Hf); [done|].
      cbn [mbind option_bind new_chunk fmap option_fmap option_map].
      destruct (body_good b true) as (cb & -> & Vb); [done..|]. eexists; split; [done|].
      apply balanced_push; try done. intros n. cbn -[verify_in_context].
      by rewrite balanced_chunk.
    + destruct (gen_expr_good c) with (il := il) (b := a + 1) as (f & -> & Hf); [done|].
      cbn [mbind option_bind].
      destruct (IHb il) with (b := a + 1 + len f + 3) as (g & -> & Hg);
        [by apply wf_stmt_exit_free|].
      eexists; split; [done|]. by apply balanced_while.
  - destruct (chunk_good b false) as (cb & -> & Vb); [done..|]. eexists; split; [done|].
    by apply balanced_push.
  - destruct (gen_expr_good i) with (il := il) (b := a) as (f & -> & Hf); [done|].
    cbn [mbind option_bind]. destruct (body_good b true) as (cb & -> & Vb); [done..|].
    eexists; split; [done|]. by apply balanced_snoc1.
  - destruct (gen_expr_good r) with (il := il) (b := a) as (f & -> & Hf); [done|].
    cbn [mbind option_bind]. destruct (body_good b false) as (cb & -> & Vb); [done..|].
    eexists; split; [done|]. by apply balanced_snoc1.
  - destruct (gen_stmts_good b false) with (b := 0) as (f & -> & Hf); [done..|].
    eexists; split; [done|]. cbn [app].
    apply (balanced_snoc1 _ _ [_]); try done. apply balanced_push; try done.
    intros k. cbn -[verify_in_context]. apply (good_chunk _ _ (1, 0)%Z); try done.
    eapply good_app; [by apply Hf|]. apply (good_cons _ _ _ _ _ (2, 0)%Z).
    + apply (good_op _ _ _ _ _ _ 0); op_side.
    + apply good_leave; op_side.
  - destruct (chunk_good b false) as (cb & -> & Vb); [done..|]. eexists; split; [done|].
    by apply balanced_push.
Qed.

Lemma compile_accepted program :
  forallb (wf_stmt false) program = true → ∃ chunk, compile program = Some (Ok chunk).
Proof.
  intros Hwf.
  destruct (gen_stmts_good program false (Forall_true _ _ gen_stmt_good) Hwf 0) as (f & Hf & Hb).
  unfold compile. rewrite statements_gen, appended_nil, len_nil, Hf. cbn [mbind option_bind].
  unfold verify. rewrite (balanced_chunk false f Hb). by eexists.
Qed.

(** C2: The compiler's output always verifies: for every program with operators
    where the grammar puts them, pipelines into callable stages and loop exits
    inside loops, [compile] neither panics nor reports an error. *)
Theorem compile_accepts program :
  forallb (wf_stmt false) program = true → ∃ chunk, compile program = Some (Ok chunk).
Proof. apply compile_accepted. Qed.

Lemma compile_accepts_witness :
  ∃ chunk, compile
    [Stmt_While (Expr_Literal (Literal_Bool true) (mkSpan 1 1))
       (Stmt_Block [Stmt_If (Expr_Variable "a" (mkSpan 1 2)) (Stmt_Stop (mkSpan 1 3)) None
                      (mkSpan 1 4)] (mkSpan 1 5)) (mkSpan 1 6)] = Some (Ok chunk).
Proof. apply compile_accepts. vm_compute. reflexivity. Defined.
