(* ===== verification/Bundle.v ===== *)
(** * Bytecode bundles

    The binary format of src/src/bundle.rs: [encode] and [Writer] on one side,
    [decode] and [Reader] on the other.  A writer method that appends to
    [self.bytes] is the list of bytes it appends; the reader's pair
    [(bytes, at)] is the unread suffix [bytes[at..]].  The depth counter of the
    reader is its remaining room, [MAX_DEPTH + 1 - depth], which is also the
    measure that makes reading structurally recursive. *)
From S2P Require Import Prelude Ast Bytecode Codegen Verifier.

Definition MAGIC : list byte := string_bytes "NIVB".
Definition MAX_ITEMS : N := 1000000.
Definition MAX_DEPTH : nat := 256.

(** [bundle_error] *)
Definition bundle_error (message : string) : NivError := NivError_new message 1 1.

(** ** Writer *)

Definition Bytes := result NivError (list byte).

(** Consecutive writes; the first failure ends the sequence. *)
Fixpoint cat (ws : list Bytes) : Bytes :=
  match ws with
  | [] => Ok []
  | w :: ws => a ← w; b ← cat ws; Ok (a ++ b)
  end.

Definition w_u8 (value : N) : Bytes := Ok [byte_of_N value].
Definition w_u16 (value : N) : Bytes := Ok (to_le_bytes 2 value).
Definition w_bool (value : bool) : Bytes := w_u8 (if value then 1 else 0).

(** [Writer::len] *)
Definition w_len (value : N) : Bytes :=
  if value <=? u32_max then Ok (to_le_bytes 4 value)
  else Err (bundle_error "bundle value exceeds format limit").

(** [Writer::span] *)
Definition w_span (span : Span) : Bytes := cat [w_len (span_line span); w_len (span_column span)].

(** [Writer::string] *)
Definition w_string (value : string) : Bytes :=
  cat [w_len (str_len value); Ok (string_bytes value)].

(** A counted vector. *)
Definition w_vec {A} (w : A → Bytes) (values : list A) : Bytes :=
  cat [w_len (len values); cat (map w values)].

(** [Writer::strings] *)
Definition w_strings : list string → Bytes := w_vec w_string.

(** [Writer::operator] *)
Definition operator_tag (operator : TokenKind) : option N :=
  match operator with
  | Tk_Plus => Some 0 | Tk_Minus => Some 1 | Tk_Star => Some 2 | Tk_Slash => Some 3
  | Tk_Percent => Some 4 | Tk_Bang => Some 5 | Tk_EqualEqual => Some 6
  | Tk_BangEqual => Some 7 | Tk_Greater => Some 8 | Tk_GreaterEqual => Some 9
  | Tk_Less => Some 10 | Tk_LessEqual => Some 11
  | _ => None
  end.

Definition w_operator (operator : TokenKind) : Bytes :=
  match operator_tag operator with
  | Some tag => w_u8 tag
  | None => Err (bundle_error "invalid bytecode operator")
  end.

(** [i64::to_le_bytes] *)
Definition i64_to_le_bytes (value : Z) : list byte := to_le_bytes 8 (Z.to_N (value mod 2 ^ 64)).

(** [Writer::literal] *)
Definition w_literal (value : Literal) : Bytes :=
  match value with
  | Literal_Int value => cat [w_u8 0; Ok (i64_to_le_bytes value)]
  | Literal_Float value => cat [w_u8 1; Ok (to_le_bytes 8 value)]
  | Literal_String value => cat [w_u8 2; w_string value]
  | Literal_Bool value => cat [w_u8 3; w_bool value]
  | Literal_Null => w_u8 4
  end.

(** [Writer::pattern] *)
Fixpoint w_pattern (pattern : Pattern) : Bytes :=
  match pattern with
  | Pattern_Any span => cat [w_u8 0; w_span span]
  | Pattern_Literal literal span => cat [w_u8 1; w_span span; w_literal literal]
  | Pattern_Name name span => cat [w_u8 2; w_span span; w_string name]
  | Pattern_Binding name span => cat [w_u8 3; w_span span; w_string name]
  | Pattern_Carries name inner span =>
      cat [w_u8 4; w_span span; w_string name; w_pattern inner]
  | Pattern_Shape name fields span =>
      cat [w_u8 5; w_span span; w_string name;
           w_vec (λ f : string * Pattern, cat [w_string (fst f); w_pattern (snd f)]) fields]
  end.

Definition w_pair (p : string * string) : Bytes := cat [w_string (fst p); w_string (snd p)].

Definition w_clause (clause : PromiseClause) : Bytes :=
  cat [w_string (clause_capability clause); w_bool (clause_never clause);
       w_strings (clause_boundaries clause); w_span (clause_span clause)].

(** [Writer::chunk], [Writer::instruction] and [Writer::arm] *)
Fixpoint w_chunk (chunk : Chunk) {struct chunk} : Bytes :=
  match chunk with
  | mkChunk version code =>
      cat [w_u16 version; w_len (len code); cat (map w_instruction code)]
  end
with w_instruction (instruction : Instruction) {struct instruction} : Bytes :=
  match instruction with
  | mkInstruction op span =>
      cat (w_span span ::
        match op with
        | Op_Constant value => [w_u8 0; w_literal value]
        | Op_Load name => [w_u8 1; w_string name]
        | Op_Store name => [w_u8 2; w_string name]
        | Op_Define name mutable => [w_u8 3; w_string name; w_bool mutable]
        | Op_Pop => [w_u8 4]
        | Op_Unary operator => [w_u8 5; w_operator operator]
        | Op_Binary operator => [w_u8 6; w_operator operator]
        | Op_Jump target => [w_u8 7; w_len target]
        | Op_JumpIfFalse target => [w_u8 8; w_len target]
        | Op_Call arity => [w_u8 9; w_len arity]
        | Op_MakeArray length => [w_u8 10; w_len length]
        | Op_Index => [w_u8 11]
        | Op_Coalesce target => [w_u8 12; w_len target]
        | Op_Get name => [w_u8 13; w_string name]
        | Op_Print => [w_u8 14]
        | Op_EnterScope => [w_u8 15]
        | Op_ExitScope => [w_u8 16]
        | Op_MakeFunction name params body =>
            [w_u8 17; w_string name; w_strings params; w_chunk body]
        | Op_Return => [w_u8 18]
        | Op_DefineRecord name fields derives =>
            [w_u8 19; w_string name; w_vec w_pair fields; w_strings derives]
        | Op_DefineEnum name variants payload_variants =>
            [w_u8 20; w_string name; w_strings variants; w_strings payload_variants]
        | Op_Match arms => [w_u8 21; w_vec w_arm arms]
        | Op_DefineModule name body exports =>
            [w_u8 22; w_string name; w_chunk body; w_strings exports]
        | Op_Iterate name pattern body =>
            [w_u8 23; w_string name;
             match pattern with
             | Some pattern => cat [w_u8 1; w_pattern pattern]
             | None => w_u8 0
             end; w_chunk body]
        | Op_Using name body => [w_u8 24; w_string name; w_chunk body]
        | Op_Propagate => [w_u8 25]
        | Op_DefineProtocol name members => [w_u8 26; w_string name; w_strings members]
        | Op_AdoptProtocol protocol type_name mappings =>
            [w_u8 27; w_string protocol; w_string type_name; w_vec w_pair mappings]
        | Op_Prepare plan_type => [w_u8 28; w_string plan_type]
        | Op_Perform => [w_u8 29]
        | Op_PerformCall arity => [w_u8 30; w_len arity]
        | Op_Repeat condition body => [w_u8 31; w_chunk condition; w_chunk body]
        | Op_LoopExit skip => [w_u8 32; w_bool skip]
        | Op_IfCarries patterns then_branch else_branch =>
            [w_u8 33; w_vec w_pattern patterns; w_chunk then_branch;
             match else_branch with
             | Some branch => cat [w_u8 1; w_chunk branch]
             | None => w_u8 0
             end]
        | Op_MakeText length => [w_u8 34; w_len length]
        | Op_DefinePattern pattern => [w_u8 35; w_pattern pattern]
        | Op_Sample title body shows =>
            [w_u8 36; w_string title; w_chunk body;
             match shows with
             | Some expected => cat [w_u8 1; w_string expected]
             | None => w_u8 0
             end]
        | Op_Promise clauses => [w_u8 37; w_vec w_clause clauses]
        end)
  end
with w_arm (arm : BytecodeArm) {struct arm} : Bytes :=
  match arm with
  | mkArm patterns guard body span =>
      cat [w_vec w_pattern patterns;
           match guard with
           | Some guard => cat [w_u8 1; w_chunk guard]
           | None => w_u8 0
           end; w_span span; w_chunk body]
  end.

(** [encode] *)
Definition encode (chunk : Chunk) : Bytes :=
  _ ← verify chunk;
  bytes ← w_chunk chunk;
  Ok (MAGIC ++ bytes).

(** ** Reader *)

Definition Reader (A : Type) : Type := list byte → result NivError (A * list byte).

#[export] Instance reader_ret : MRet Reader := fun A a l => Ok (a, l).
#[export] Instance reader_bind : MBind Reader := fun A B f r l =>
  match r l with Ok (a, l) => f a l | Err e => Err e end.

Definition fail {A} (message : string) : Reader A := fun _ => Err (bundle_error message).

(** [for _ in 0..n { values.push(r()?) }] *)
Fixpoint r_repeat {A} (n : nat) (r : Reader A) : Reader (list A) :=
  match n with
  | O => mret []
  | S n => x ← r; xs ← r_repeat n r; mret (x :: xs)
  end.

(** [Reader::take] *)
Definition r_take (length : N) : Reader (list byte) := fun l =>
  if length <=? len l then Ok (take (N.to_nat length) l, drop (N.to_nat length) l)
  else Err (bundle_error "truncated bytecode bundle").

Definition r_u8 : Reader N := bytes ← r_take 1; mret (from_le_bytes bytes).
Definition r_u16 : Reader N := bytes ← r_take 2; mret (from_le_bytes bytes).

(** [Reader::count] *)
Definition r_count : Reader N :=
  bytes ← r_take 4;
  let value := from_le_bytes bytes in
  if MAX_ITEMS <? value then fail "bundle allocation limit exceeded" else mret value.

(** [Reader::boolean] *)
Definition r_boolean : Reader bool :=
  tag ← r_u8;
  match tag with
  | 0 => mret false
  | 1 => mret true
  | _ => fail "invalid boolean"
  end.

(** [self.u8()? != 0] *)
Definition r_flag : Reader bool := tag ← r_u8; mret (negb (tag =? 0)).

(** [Reader::span] *)
Definition r_span : Reader Span :=
  line ← r_count; column ← r_count; mret (mkSpan line column).

(** [Reader::string] *)
Definition r_string : Reader string :=
  length ← r_count;
  bytes ← r_take length;
  match from_utf8 bytes with
  | Some value => mret value
  | None => fail "bundle contains invalid UTF-8"
  end.

Definition r_vec {A} (r : Reader A) : Reader (list A) :=
  count ← r_count; r_repeat (N.to_nat count) r.

(** [Reader::strings] *)
Definition r_strings : Reader (list string) := r_vec r_string.

(** [Reader::operator] *)
Definition tag_operator (tag : N) : option TokenKind :=
  match tag with
  | 0 => Some Tk_Plus | 1 => Some Tk_Minus | 2 => Some Tk_Star | 3 => Some Tk_Slash
  | 4 => Some Tk_Percent | 5 => Some Tk_Bang | 6 => Some Tk_EqualEqual
  | 7 => Some Tk_BangEqual | 8 => Some Tk_Greater | 9 => Some Tk_GreaterEqual
  | 10 => Some Tk_Less | 11 => Some Tk_LessEqual
  | _ => None
  end.

Definition r_operator : Reader TokenKind :=
  tag ← r_u8;
  match tag_operator tag with
  | Some operator => mret operator
  | None => fail "unknown bytecode operator"
  end.

(** [i64::from_le_bytes] *)
Definition i64_from_le_bytes (bytes : list byte) : Z :=
  let value := Z.of_N (from_le_bytes bytes) in
  if (value <? 2 ^ 63)%Z then value else (value - 2 ^ 64)%Z.

(** [Reader::literal] *)
Definition r_literal : Reader Literal :=
  tag ← r_u8;
  match tag with
  | 0 => bytes ← r_take 8; mret (Literal_Int (i64_from_le_bytes bytes))
  | 1 => bytes ← r_take 8; mret (Literal_Float (from_le_bytes bytes))
  | 2 => value ← r_string; mret (Literal_String value)
  | 3 => value ← r_boolean; mret (Literal_Bool value)
  | 4 => mret Literal_Null
  | _ => fail "unknown bytecode literal"
  end.

(** [Reader::pattern] *)
Fixpoint r_pattern (room : nat) : Reader Pattern :=
  match room with
  | O => fail "pattern nesting is too deep"
  | S room =>
    tag ← r_u8;
    match tag with
    | 0 => span ← r_span; mret (Pattern_Any span)
    | 1 => span ← r_span; literal ← r_literal; mret (Pattern_Literal literal span)
    | 2 => span ← r_span; name ← r_string; mret (Pattern_Name name span)
    | 3 => span ← r_span; name ← r_string; mret (Pattern_Binding name span)
    | 4 => span ← r_span; name ← r_string; inner ← r_pattern room;
           mret (Pattern_Carries name inner span)
    | 5 => span ← r_span; name ← r_string;
           fields ← r_vec (field ← r_string; sub ← r_pattern room; mret (field, sub));
           mret (Pattern_Shape name fields span)
    | _ => fail "unknown pattern kind"
    end
  end.

Definition r_pair : Reader (string * string) := a ← r_string; b ← r_string; mret (a, b).

Definition r_clause : Reader PromiseClause :=
  capability ← r_string;
  never ← r_flag;
  boundaries ← r_strings;
  span ← r_span;
  mret (mkPromiseClause capability never boundaries span).

(** At least one pattern, or [message]. *)
Definition r_patterns (pattern : Reader Pattern) (message : string) : Reader (list Pattern) :=
  count ← r_count;
  if count =? 0 then fail message else r_repeat (N.to_nat count) pattern.

Section nested.
Variable pattern : Reader Pattern.
Variable chunk : Reader Chunk.

(** [Reader::arm], given the readers of the nesting level of the arm. *)
Definition r_arm : Reader BytecodeArm :=
  patterns ← r_patterns pattern "a choose arm needs at least one pattern";
  tag ← r_u8;
  guard ← match tag with
          | 0 => mret None
          | 1 => guard ← chunk; mret (Some guard)
          | _ => fail "invalid optional guard"
          end;
  span ← r_span;
  body ← chunk;
  mret (mkArm patterns guard body span).

(** [Reader::instruction], given the readers one level deeper. *)
Definition r_instruction : Reader Instruction :=
  span ← r_span;
  tag ← r_u8;
  op ← match tag with
    | 0 => value ← r_literal; mret (Op_Constant value)
    | 1 => name ← r_string; mret (Op_Load name)
    | 2 => name ← r_string; mret (Op_Store name)
    | 3 => name ← r_string; mutable ← r_boolean; mret (Op_Define name mutable)
    | 4 => mret Op_Pop
    | 5 => operator ← r_operator; mret (Op_Unary operator)
    | 6 => operator ← r_operator; mret (Op_Binary operator)
    | 7 => target ← r_count; mret (Op_Jump target)
    | 8 => target ← r_count; mret (Op_JumpIfFalse target)
    | 9 => arity ← r_count; mret (Op_Call arity)
    | 10 => length ← r_count; mret (Op_MakeArray length)
    | 11 => mret Op_Index
    | 12 => target ← r_count; mret (Op_Coalesce target)
    | 13 => name ← r_string; mret (Op_Get name)
    | 14 => mret Op_Print
    | 15 => mret Op_EnterScope
    | 16 => mret Op_ExitScope
    | 17 => name ← r_string; params ← r_strings; body ← chunk;
            mret (Op_MakeFunction name params body)
    | 18 => mret Op_Return
    | 19 => name ← r_string; fields ← r_vec r_pair; derives ← r_strings;
            mret (Op_DefineRecord name fields derives)
    | 20 => name ← r_string; variants ← r_strings; payload_variants ← r_strings;
            mret (Op_DefineEnum name variants payload_variants)
    | 21 => arms ← r_vec r_arm; mret (Op_Match arms)
    | 22 => name ← r_string; body ← chunk; exports ← r_strings;
            mret (Op_DefineModule name body exports)
    | 23 => name ← r_string;
            tag ← r_u8;
            pattern ← match tag with
                      | 0 => mret None
                      | 1 => pattern ← pattern; mret (Some pattern)
                      | _ => fail "invalid optional pattern"
                      end;
            body ← chunk;
            mret (Op_Iterate name pattern body)
    | 24 => name ← r_string; body ← chunk; mret (Op_Using name body)
    | 25 => mret Op_Propagate
    | 26 => name ← r_string; members ← r_strings; mret (Op_DefineProtocol name members)
    | 27 => protocol ← r_string; type_name ← r_string; mappings ← r_vec r_pair;
            mret (Op_AdoptProtocol protocol type_name mappings)
    | 28 => plan_type ← r_string; mret (Op_Prepare plan_type)
    | 29 => mret Op_Perform
    | 30 => arity ← r_count; mret (Op_PerformCall arity)
    | 31 => condition ← chunk; body ← chunk; mret (Op_Repeat condition body)
    | 32 => skip ← r_flag; mret (Op_LoopExit skip)
    | 33 => patterns ← r_patterns pattern "'when … carries' needs at least one pattern";
            then_branch ← chunk;
            flag ← r_flag;
            else_branch ← (if flag : bool then branch ← chunk; mret (Some branch)
                           else mret None);
            mret (Op_IfCarries patterns then_branch else_branch)
    | 34 => length ← r_count; mret (Op_MakeText length)
    | 35 => pattern ← pattern; mret (Op_DefinePattern pattern)
    | 36 => title ← r_string; body ← chunk;
            flag ← r_flag;
            shows ← (if flag : bool then expected ← r_string; mret (Some expected)
                     else mret None);
            mret (Op_Sample title body shows)
    | 37 => clauses ← r_vec r_clause; mret (Op_Promise clauses)
    | _ => fail "unknown bytecode instruction"
    end;
  mret (mkInstruction op span).
End nested.

(** [Reader::chunk] *)
Fixpoint r_chunk (room : nat) : Reader Chunk :=
  match room with
  | O => fail "bundle nesting limit exceeded"
  | S room =>
      version ← r_u16;
      if decide (version = BYTECODE_VERSION) then
        code ← r_vec (r_instruction (r_pattern room) (r_chunk room));
        mret (mkChunk version code)
      else fail ("unsupported bytecode version " +:+ pretty version)
  end.

(** [decode] *)
Definition decode (bytes : list byte) : result NivError Chunk :=
  if bool_decide (take 4 bytes = MAGIC) then
    match r_chunk (S MAX_DEPTH) (drop 4 bytes) with
    | Ok (chunk, rest) =>
        match rest with
        | [] => _ ← verify chunk; Ok chunk
        | _ => Err (bundle_error "trailing data after bytecode bundle")
        end
    | Err e => Err e
    end
  else Err (bundle_error "invalid bundle magic").
