(* ===== verification/BundleOk.v ===== *)
(** * Bundles round-trip

    [fits] is the set of chunks the reader accepts: counts, operands,
    positions and string lengths up to [MAX_ITEMS], nesting up to [MAX_DEPTH],
    at least one pattern where the format asks for one.  Encoding a verified
    chunk that fits and decoding the bytes gives the chunk back, and everything
    [decode] returns is verified and fits. *)
From S2P Require Import Prelude Ast Bytecode Codegen Verifier Bundle.

(** ** The limits of the format *)

Definition fits_count (n : N) : bool := n <=? MAX_ITEMS.
Definition fits_span (s : Span) : bool :=
  fits_count (span_line s) && fits_count (span_column s).
Definition fits_string (s : string) : bool :=
  fits_count (str_len s) && utf8_valid (string_bytes s).
Definition fits_vec {A} (p : A → bool) (l : list A) : bool :=
  fits_count (len l) && forallb p l.
Definition fits_strings : list string → bool := fits_vec fits_string.
Definition fits_option {A} (p : A → bool) (o : option A) : bool :=
  match o with Some a => p a | None => true end.
Definition fits_pair (p : string * string) : bool :=
  fits_string (fst p) && fits_string (snd p).
Definition fits_operator (o : TokenKind) : bool :=
  match operator_tag o with Some _ => true | None => false end.
Definition fits_literal (l : Literal) : bool :=
  match l with
  | Literal_Int z => (- 2 ^ 63 <=? z)%Z && (z <? 2 ^ 63)%Z
  | Literal_Float bits => bits <=? u64_max
  | Literal_String s => fits_string s
  | Literal_Bool _ | Literal_Null => true
  end.
Definition fits_clause (c : PromiseClause) : bool :=
  fits_string (clause_capability c) && fits_strings (clause_boundaries c)
  && fits_span (clause_span c).

Fixpoint fits_pattern (room : nat) (p : Pattern) : bool :=
  match room with
  | O => false
  | S room =>
    match p with
    | Pattern_Any s => fits_span s
    | Pattern_Literal l s => fits_span s && fits_literal l
    | Pattern_Name n s | Pattern_Binding n s => fits_span s && fits_string n
    | Pattern_Carries n inner s => fits_span s && fits_string n && fits_pattern room inner
    | Pattern_Shape n fields s =>
        fits_span s && fits_string n
        && fits_vec (λ f : string * Pattern, fits_string (fst f) && fits_pattern room (snd f))
             fields
    end
  end.

Section fits_nested.
Variable pattern : Pattern → bool.
Variable chunk : Chunk → bool.

Definition fits_patterns (ps : list Pattern) : bool :=
  negb (len ps =? 0) && fits_vec pattern ps.

Definition fits_arm (a : BytecodeArm) : bool :=
  match a with
  | mkArm patterns guard body span =>
      fits_patterns patterns && fits_option chunk guard && fits_span span && chunk body
  end.

Definition fits_op (op : Op) : bool :=
  match op with
  | Op_Constant l => fits_literal l
  | Op_Load n | Op_Store n | Op_Define n _ | Op_Get n | Op_Prepare n => fits_string n
  | Op_Unary o | Op_Binary o => fits_operator o
  | Op_Jump n | Op_JumpIfFalse n | Op_Call n | Op_PerformCall n | Op_MakeArray n
  | Op_MakeText n | Op_Coalesce n => fits_count n
  | Op_Pop | Op_Index | Op_Propagate | Op_Print | Op_EnterScope | Op_ExitScope
  | Op_Return | Op_LoopExit _ | Op_Perform => true
  | Op_MakeFunction n ps b => fits_string n && fits_strings ps && chunk b
  | Op_DefineRecord n fs ds => fits_string n && fits_vec fits_pair fs && fits_strings ds
  | Op_DefineEnum n vs pvs => fits_string n && fits_strings vs && fits_strings pvs
  | Op_Match arms => fits_vec fits_arm arms
  | Op_DefineModule n b ex => fits_string n && chunk b && fits_strings ex
  | Op_Iterate n p b => fits_string n && fits_option pattern p && chunk b
  | Op_DefinePattern p => pattern p
  | Op_Sample t b sh => fits_string t && chunk b && fits_option fits_string sh
  | Op_Repeat c b => chunk c && chunk b
  | Op_IfCarries ps t e => fits_patterns ps && chunk t && fits_option chunk e
  | Op_Using n b => fits_string n && chunk b
  | Op_DefineProtocol n ms => fits_string n && fits_strings ms
  | Op_AdoptProtocol p t ms => fits_string p && fits_string t && fits_vec fits_pair ms
  | Op_Promise cs => fits_vec fits_clause cs
  end.

Definition fits_instruction (i : Instruction) : bool :=
  fits_span (instr_span i) && fits_op (instr_op i).
End fits_nested.

Fixpoint fits_chunk (room : nat) (c : Chunk) : bool :=
  match room with
  | O => false
  | S room =>
      (chunk_version c =? BYTECODE_VERSION)
      && fits_vec (fits_instruction (fits_pattern room) (fits_chunk room)) (chunk_code c)
  end.

Definition fits (c : Chunk) : bool := fits_chunk (S MAX_DEPTH) c.

(** ** Write, then read *)

(** [w] writes bytes from which [r], whatever follows, reads [x]. *)
Definition rt {A} (w : Bytes) (r : Reader A) (x : A) : Prop :=
  ∃ bytes, w = Ok bytes ∧ ∀ rest, r (bytes ++ rest) = Ok (x, rest).

Lemma cat_cons w ws : cat (w :: ws) = a ← w; b ← cat ws; Ok (a ++ b).
Proof. done. Qed.

Lemma rt_ret {A} (x : A) : rt (cat []) (mret x) x.
Proof. by exists []. Qed.

Lemma rt_bind {A B} w ws (r : Reader A) (f : A → Reader B) x y :
  rt w r x → rt (cat ws) (f x) y → rt (cat (w :: ws)) (r ≫= f) y.
Proof.
  intros (b1 & -> & H1) (b2 & Hw & H2). exists (b1 ++ b2). cbn [cat mbind result_bind].
  rewrite Hw. split; [done|]. intros rest. unfold mbind, reader_bind.
  by rewrite <- app_assoc, H1.
Qed.

Lemma rt_map {A B} w (r : Reader A) (f : A → B) x :
  rt w r x → rt w (r ≫= λ x, mret (f x)) (f x).
Proof.
  intros (bs & -> & H). exists bs. split; [done|]. intros rest.
  unfold mbind, reader_bind. by rewrite H.
Qed.

(** A single write read through the last step of a reader. *)
Lemma rt_last {A B} w (r : Reader A) (f : A → Reader B) x y :
  rt w r x → rt (cat []) (f x) y → rt w (r ≫= f) y.
Proof.
  intros (b1 & -> & H1) (b2 & Hw & H2). exists b1. cbn in Hw. simplify_eq.
  split; [done|]. intros rest. unfold mbind, reader_bind. rewrite H1. exact (H2 rest).
Qed.

Lemma r_take_app bytes rest :
  r_take (len bytes) (bytes ++ rest) = Ok (bytes, rest).
Proof.
  unfold r_take. rewrite len_app, (proj2 (N.leb_le _ _)) by lia.
  by rewrite len_to_nat, take_app_length, drop_app_length.
Qed.

Lemma rt_bytes bytes n : n = len bytes → rt (Ok bytes) (r_take n) bytes.
Proof. intros ->. eexists; split; [done|]. apply r_take_app. Qed.

Lemma rt_u8 n : n < 256 → rt (w_u8 n) r_u8 n.
Proof.
  intros H. eapply rt_last; [by apply rt_bytes|].
  cbn [from_le_bytes]. rewrite byte_of_N_to_N, N.mod_small, N.mul_0_r, N.add_0_r by done.
  apply rt_ret.
Qed.

Lemma rt_u16 n : n < 65536 → rt (w_u16 n) r_u16 n.
Proof.
  intros H. eapply rt_last; [by apply rt_bytes|].
  rewrite from_to_le_bytes by (cbn; lia). apply rt_ret.
Qed.

Lemma rt_count n : fits_count n = true → rt (w_len n) r_count n.
Proof.
  unfold fits_count, w_len. rewrite N.leb_le. unfold MAX_ITEMS. intros H.
  rewrite (proj2 (N.leb_le _ _)) by (unfold u32_max; lia).
  eapply rt_last; [by apply rt_bytes|]. rewrite from_to_le_bytes by (cbn; lia).
  cbv zeta. rewrite (proj2 (N.ltb_ge _ _)) by (unfold MAX_ITEMS; lia). apply rt_ret.
Qed.

Lemma rt_bool b : rt (w_bool b) r_boolean b.
Proof. eapply rt_last; [by apply rt_u8; destruct b|]. destruct b; apply rt_ret. Qed.

Lemma rt_flag b : rt (w_bool b) r_flag b.
Proof. eapply rt_last; [by apply rt_u8; destruct b|]. destruct b; apply rt_ret. Qed.

Ltac fits_split :=
  repeat match goal with
  | H : _ && _ = true |- _ => apply andb_true_iff in H as [? ?]
  end.

Lemma rt_span s : fits_span s = true → rt (w_span s) r_span s.
Proof.
  destruct s as [line column]. unfold fits_span, w_span. cbn [span_line span_column]. intros H. fits_split.
  repeat (eapply rt_bind; [by apply rt_count|]). apply rt_ret.
Qed.

Lemma rt_string s : fits_string s = true → rt (w_string s) r_string s.
Proof.
  unfold fits_string. intros H. fits_split. eapply rt_bind; [by apply rt_count|].
  eapply rt_bind; [by apply rt_bytes|]. rewrite from_utf8_bytes by done. apply rt_ret.
Qed.

Lemma rt_repeat {A} (w : A → Bytes) (r : Reader A) l :
  Forall (λ x, rt (w x) r x) l → rt (cat (map w l)) (r_repeat (length l) r) l.
Proof.
  induction 1 as [|x l Hx _ IH]; [apply rt_ret|].
  cbn [map length r_repeat]. eapply rt_bind; [done|].
  destruct IH as (bs & Hw & Hr). exists bs. split; [done|]. intros rest.
  unfold mbind, reader_bind. by rewrite Hr.
Qed.

Lemma forallb_Forall {A} (p : A → bool) (P : A → Prop) l :
  (∀ x, p x = true → P x) → forallb p l = true → Forall P l.
Proof.
  intros H. rewrite forallb_forall, Forall_forall. setoid_rewrite list_elem_of_In. auto.
Qed.

Lemma rt_vec {A} (p : A → bool) (w : A → Bytes) (r : Reader A) l :
  (∀ x, p x = true → rt (w x) r x) → fits_vec p l = true → rt (w_vec w l) (r_vec r) l.
Proof.
  unfold fits_vec. intros Hp H. fits_split. eapply rt_bind; [by apply rt_count|].
  rewrite len_to_nat. destruct (rt_repeat w r l) as (bs & Hw & Hr).
  { by eapply forallb_Forall. }
  exists bs. cbn [cat]. rewrite Hw. cbn. by rewrite app_nil_r.
Qed.

(** Readers of the leaves of the format. *)
Create HintDb rt.
#[export] Hint Resolve rt_count rt_bool rt_flag rt_span rt_string : rt.
#[export] Hint Extern 1 (rt (w_u8 _) r_u8 _) => apply rt_u8; reflexivity : rt.

(** Read the next field of a record of the format. *)
Ltac rt_step := eapply rt_bind; [solve [eauto with rt]|cbv beta iota zeta].
Ltac rt_fields := repeat rt_step; apply rt_ret.

Lemma rt_strings l : fits_strings l = true → rt (w_strings l) r_strings l.
Proof. apply rt_vec. apply rt_string. Qed.

Lemma rt_pair p : fits_pair p = true → rt (w_pair p) r_pair p.
Proof. destruct p. unfold fits_pair, w_pair. cbn [fst snd]. intros H. fits_split. rt_fields. Qed.

Lemma rt_pairs l : fits_vec fits_pair l = true → rt (w_vec w_pair l) (r_vec r_pair) l.
Proof. apply rt_vec, rt_pair. Qed.

Lemma rt_operator o : fits_operator o = true → rt (w_operator o) r_operator o.
Proof.
  unfold fits_operator, w_operator. intros H.
  destruct o; try done; (eapply rt_last; [by apply rt_u8|apply rt_ret]).
Qed.

Lemma i64_roundtrip z :
  (- 2 ^ 63 ≤ z < 2 ^ 63)%Z → i64_from_le_bytes (i64_to_le_bytes z) = z.
Proof.
  intros H. unfold i64_from_le_bytes, i64_to_le_bytes.
  pose proof (Z.mod_pos_bound z (2 ^ 64)) as Hm.
  rewrite from_to_le_bytes by (cbn -[Z.modulo]; lia).
  rewrite Z2N.id by lia. destruct (Z_lt_le_dec z 0).
  - rewrite <- (Z.mod_add z 1), Z.mod_small by lia.
    destruct (Z.ltb_spec (z + 1 * 2 ^ 64) (2 ^ 63)); lia.
  - rewrite Z.mod_small by lia. destruct (Z.ltb_spec z (2 ^ 63)); lia.
Qed.

Lemma rt_literal l : fits_literal l = true → rt (w_literal l) r_literal l.
Proof.
  destruct l as [z|bits|s|b|]; cbn [fits_literal]; intros H; fits_split.
  - rt_step. eapply rt_bind; [by apply rt_bytes|].
    rewrite i64_roundtrip by lia. apply rt_ret.
  - rt_step. eapply rt_bind; [by apply rt_bytes|]. apply N.leb_le in H. unfold u64_max in H.
    rewrite from_to_le_bytes by (cbn; lia). apply rt_ret.
  - rt_fields.
  - rt_fields.
  - eapply rt_last; [by apply rt_u8|]. apply rt_ret.
Qed.

Lemma rt_clause c : fits_clause c = true → rt (w_clause c) r_clause c.
Proof.
  destruct c as [cap never bs sp]. unfold fits_clause, w_clause.
  cbn [clause_capability clause_never clause_boundaries clause_span]. intros H. fits_split.
  do 2 rt_step. eapply rt_bind; [by apply rt_strings|]. rt_fields.
Qed.

Lemma rt_clauses l :
  fits_vec fits_clause l = true → rt (w_vec w_clause l) (r_vec r_clause) l.
Proof. apply rt_vec, rt_clause. Qed.

#[export] Hint Resolve rt_strings rt_pairs rt_operator rt_literal rt_clauses : rt.

Lemma rt_pattern room p : fits_pattern room p = true → rt (w_pattern p) (r_pattern room) p.
Proof.
  revert p. induction room as [|room IH]; intros p H; [done|].
  destruct p as [s|l s|n s|n s|n inner s|n fields s]; cbn [fits_pattern w_pattern r_pattern] in *;
    fits_split; try rt_fields.
  do 3 rt_step. eapply rt_bind; [|apply rt_ret].
  eapply rt_vec; [|done]. intros [f sub] Hf. cbn [fst snd] in Hf |- *. fits_split. rt_fields.
Qed.

#[export] Hint Resolve rt_pattern : rt.

(** An optional part behind a tag byte. *)
Lemma rt_option {A B} (p : A → bool) (w : A → Bytes) (r : Reader A) o ws
    (f : option A → Reader B) y message :
  (∀ x, p x = true → rt (w x) r x) → fits_option p o = true →
  rt (cat ws) (f o) y →
  rt (cat (match o with Some x => cat [w_u8 1; w x] | None => w_u8 0 end :: ws))
     (tag ← r_u8;
      v ← match tag with
          | 0 => mret None
          | 1 => x ← r; mret (Some x)
          | _ => fail message
          end; f v) y.
Proof.
  intros Hp Ho (b & Hw & Hr).
  assert (rt (match o with Some x => cat [w_u8 1; w x] | None => w_u8 0 end)
    (tag ← r_u8;
     match tag with 0 => mret None | 1 => x ← r; mret (Some x) | _ => fail message end) o)
    as (b' & Hw' & Hr').
  { destruct o as [x|]; cbn in Ho.
    - rt_step. eapply rt_bind; [by apply Hp|apply rt_ret].
    - eapply rt_last; [by apply rt_u8|apply rt_ret]. }
  exists (b' ++ b). rewrite cat_cons, Hw', Hw. split; [done|].
  intros rest. rewrite <- app_assoc. specialize (Hr' (b ++ rest)).
  unfold mbind, reader_bind in *. destruct (r_u8 _) as [[tag l]|]; [|done].
  by rewrite Hr'.
Qed.

(** The same behind a flag byte that is read with [!= 0]. *)
Lemma rt_flagged {A B} (p : A → bool) (w : A → Bytes) (r : Reader A) o ws
    (f : option A → Reader B) y :
  (∀ x, p x = true → rt (w x) r x) → fits_option p o = true →
  rt (cat ws) (f o) y →
  rt (cat (match o with Some x => cat [w_u8 1; w x] | None => w_u8 0 end :: ws))
     (flag ← r_flag;
      v ← (if flag : bool then x ← r; mret (Some x) else mret None); f v) y.
Proof.
  intros Hp Ho (b & Hw & Hr).
  assert (rt (match o with Some x => cat [w_u8 1; w x] | None => w_u8 0 end)
    (flag ← r_flag; if flag : bool then x ← r; mret (Some x) else mret None) o)
    as (b' & Hw' & Hr').
  { destruct o as [x|]; cbn in Ho.
    - eapply rt_bind; [exact (rt_flag true)|]. eapply rt_bind; [by apply Hp|apply rt_ret].
    - eapply rt_last; [exact (rt_flag false)|apply rt_ret]. }
  exists (b' ++ b). rewrite cat_cons, Hw', Hw. split; [done|].
  intros rest. rewrite <- app_assoc. specialize (Hr' (b ++ rest)).
  unfold mbind, reader_bind in *. destruct (r_flag _) as [[tag l]|]; [|done].
  by rewrite Hr'.
Qed.

Lemma rt_patterns room ps message :
  fits_patterns (fits_pattern room) ps = true →
  rt (w_vec w_pattern ps) (r_patterns (r_pattern room) message) ps.
Proof.
  unfold fits_patterns. intros H. fits_split.
  destruct (rt_vec (fits_pattern room) w_pattern (r_pattern room) ps) as (bs & Hw & Hr);
    [apply rt_pattern|done|].
  exists bs. split; [done|]. intros rest. specialize (Hr rest).
  destruct (rt_count (len ps)) as (cb & Hcb & Hcr); [by unfold fits_vec in *; fits_split|].
  unfold w_vec in Hw. rewrite cat_cons, Hcb in Hw. cbn [mbind result_bind] in Hw.
  destruct (cat [cat (map w_pattern ps)]) as [tl|] eqn:E; [|done]. cbn in Hw. simplify_eq.
  rewrite <- app_assoc in *. unfold r_vec, r_patterns, mbind, reader_bind in *.
  rewrite Hcr in *. destruct (len ps =? 0); [done|]. exact Hr.
Qed.
#[export] Hint Resolve rt_patterns : rt.

Section rt_nested.
Variable room : nat.
Hypothesis rt_chunk_IH : ∀ c, fits_chunk room c = true → rt (w_chunk c) (r_chunk room) c.

Lemma rt_arm a :
  fits_arm (fits_pattern room) (fits_chunk room) a = true →
  rt (w_arm a) (r_arm (r_pattern room) (r_chunk room)) a.
Proof using rt_chunk_IH.
  destruct a as [ps g b s]. cbn [fits_arm w_arm]. intros H. fits_split.
  unfold r_arm. rt_step. eapply rt_option; [apply rt_chunk_IH|done|]. rt_fields.
Qed.

Lemma rt_arms arms :
  fits_vec (fits_arm (fits_pattern room) (fits_chunk room)) arms = true →
  rt (w_vec w_arm arms) (r_vec (r_arm (r_pattern room) (r_chunk room))) arms.
Proof using rt_chunk_IH. apply rt_vec, rt_arm. Qed.

#[local] Hint Resolve rt_chunk_IH rt_arms : rt.

Lemma rt_instruction i :
  fits_instruction (fits_pattern room) (fits_chunk room) i = true →
  rt (w_instruction i) (r_instruction (r_pattern room) (r_chunk room)) i.
Proof using rt_chunk_IH.
  destruct i as [op s]. unfold fits_instruction. cbn [instr_span instr_op w_instruction].
  intros H. fits_split. unfold r_instruction. rt_step.
  destruct op; cbn [fits_op] in *; fits_split; rt_step;
    apply (rt_map _ _ (λ op, mkInstruction op s)).
  all: try (by rt_fields).
  - rt_step. eapply rt_option; [apply rt_pattern|done|]. rt_fields.
  - do 2 rt_step. eapply rt_flagged; [apply rt_string|done|apply rt_ret].
  - do 2 rt_step. eapply rt_flagged; [apply rt_chunk_IH|done|apply rt_ret].
Qed.
End rt_nested.

Lemma rt_chunk room c : fits_chunk room c = true → rt (w_chunk c) (r_chunk room) c.
Proof.
  revert c. induction room as [|room IH]; intros [v code] H; [done|].
  cbn [fits_chunk chunk_version chunk_code] in H. fits_split.
  match goal with Hv : (v =? _) = true |- _ => apply N.eqb_eq in Hv; subst v end.
  cbn [w_chunk r_chunk]. eapply rt_bind; [by apply rt_u16|]. rewrite decide_True by done.
  apply (rt_map _ _ (mkChunk BYTECODE_VERSION)). eapply rt_vec; [by apply rt_instruction|done].
Qed.

(** ** Everything read fits *)

(** Whatever [r] returns satisfies [p]. *)
Definition yields {A} (r : Reader A) (p : A → bool) : Prop :=
  ∀ l x rest, r l = Ok (x, rest) → p x = true.

Lemma yields_ret {A} (x : A) p : p x = true → yields (mret x) p.
Proof. intros H l y rest [= <- <-]. done. Qed.

Lemma yields_fail {A} message (p : A → bool) : yields (fail message) p.
Proof. done. Qed.

Lemma yields_bind {A B} (r : Reader A) (f : A → Reader B) p q :
  yields r p → (∀ x, p x = true → yields (f x) q) → yields (r ≫= f) q.
Proof.
  intros Hr Hf l y rest. unfold mbind, reader_bind.
  destruct (r l) as [[x l']|] eqn:E; [|done]. intros H. eapply Hf; eauto.
Qed.

Definition anything {A} (x : A) : bool := true.
Lemma yields_any {A} (r : Reader A) : yields r anything.
Proof. done. Qed.

Lemma r_take_len n l x rest : r_take n l = Ok (x, rest) → len x = n.
Proof.
  unfold r_take. destruct (N.leb_spec n (len l)); [|done]. intros [= <- <-].
  unfold len in *. rewrite length_take. lia.
Qed.

Lemma yields_take n : yields (r_take n) (λ x, len x =? n).
Proof. intros l x rest H. apply r_take_len in H. by apply N.eqb_eq. Qed.

Lemma yields_count : yields r_count fits_count.
Proof.
  apply (yields_bind _ _ anything); [apply yields_any|]. intros bs _. cbv zeta.
  destruct (N.ltb_spec MAX_ITEMS (from_le_bytes bs)); [apply yields_fail|].
  apply yields_ret, N.leb_le. done.
Qed.

Lemma yields_string : yields r_string fits_string.
Proof.
  eapply yields_bind; [apply yields_count|]. intros n Hn.
  eapply yields_bind; [apply yields_take|]. intros bs Hbs%N.eqb_eq. subst.
  destruct (from_utf8 bs) as [s|] eqn:E; [|apply yields_fail].
  apply from_utf8_Some in E as [<- E]. apply yields_ret.
  unfold fits_string. by rewrite E, andb_true_r.
Qed.

Create HintDb yields.
#[export] Hint Resolve yields_count yields_string : yields.

(** Walk a reader; leaves whose result does not matter yield [anything]. *)
Ltac yields_step :=
  eapply yields_bind;
  [first [solve [eauto with yields] | apply (yields_any r_u8) | apply (yields_any r_boolean)
         | apply (yields_any r_flag)]
  | cbv beta; intros ?x ?Hx].
Ltac yields_done :=
  apply yields_ret; unfold fits_span, fits_pair, fits_clause, fits_option;
  cbn [span_line span_column fst snd clause_capability clause_boundaries clause_span
       fits_op fits_arm fits_literal];
  rewrite ?andb_true_iff; tauto.
Ltac yields_fields := repeat yields_step; yields_done.

Lemma yields_span : yields r_span fits_span.
Proof. unfold r_span. yields_fields. Qed.

Lemma yields_repeat {A} (r : Reader A) p n :
  yields r p → yields (r_repeat n r) (λ l, (len l =? N.of_nat n) && forallb p l).
Proof.
  intros Hr. induction n as [|n IH]; [by apply yields_ret|]. cbn [r_repeat].
  eapply yields_bind; [exact Hr|]. intros x Hx.
  eapply yields_bind; [exact IH|]. intros l [Hn Hl]%andb_true_iff.
  apply N.eqb_eq in Hn. apply yields_ret. cbn [forallb]. rewrite len_cons, Hn.
  rewrite !andb_true_iff, N.eqb_eq. split_and!; try done. lia.
Qed.

Lemma yields_vec {A} (r : Reader A) p : yields r p → yields (r_vec r) (fits_vec p).
Proof.
  intros Hr. eapply yields_bind; [apply yields_count|]. intros n Hn.
  intros l x rest H. apply (yields_repeat r p _ Hr) in H as [E Hl]%andb_true_iff.
  apply N.eqb_eq in E. rewrite N2Nat.id in E. unfold fits_vec. rewrite E.
  by apply andb_true_iff.
Qed.

Lemma yields_strings : yields r_strings fits_strings.
Proof. apply yields_vec, yields_string. Qed.
#[export] Hint Resolve yields_span yields_strings yields_vec : yields.

Lemma yields_pair : yields r_pair fits_pair.
Proof. unfold r_pair. yields_fields. Qed.

Lemma yields_clause : yields r_clause fits_clause.
Proof. unfold r_clause. yields_fields. Qed.

Lemma yields_operator : yields r_operator fits_operator.
Proof.
  unfold r_operator. yields_step.
  destruct (tag_operator x) as [o|] eqn:E; [|apply yields_fail]. apply yields_ret.
  unfold tag_operator in E. repeat case_match; naive_solver.
Qed.

Lemma i64_from_le_bytes_range bs :
  len bs = 8 → (- 2 ^ 63 ≤ i64_from_le_bytes bs < 2 ^ 63)%Z.
Proof.
  intros H. pose proof (from_le_bytes_bound bs) as Hb. rewrite H in Hb.
  unfold i64_from_le_bytes. change (256 ^ 8) with (2 ^ 64) in Hb.
  destruct (Z.ltb_spec (Z.of_N (from_le_bytes bs)) (2 ^ 63)); lia.
Qed.

Lemma yields_literal : yields r_literal fits_literal.
Proof.
  unfold r_literal. yields_step. repeat case_match; try apply yields_fail; try (by yields_fields).
  all: eapply yields_bind; [apply yields_take|]; intros bs Hbs%N.eqb_eq; apply yields_ret;
    cbn [fits_literal].
  - apply i64_from_le_bytes_range in Hbs. apply andb_true_iff. lia.
  - pose proof (from_le_bytes_bound bs) as Hb. rewrite Hbs in Hb. apply N.leb_le.
    unfold u64_max. change (256 ^ 8) with (2 ^ 64) in Hb. lia.
Qed.
#[export] Hint Resolve yields_pair yields_clause yields_operator yields_literal : yields.

Lemma yields_pattern room : yields (r_pattern room) (fits_pattern room).
Proof.
  induction room as [|room IH]; [apply yields_fail|]. cbn [r_pattern]. yields_step.
  repeat case_match; try apply yields_fail.
  all: repeat yields_step. all: try (apply yields_ret; cbn [fits_pattern];
    rewrite ?andb_true_iff; tauto).
  eapply yields_bind; [eapply (yields_vec _ (λ f : string * Pattern,
    fits_string (fst f) && fits_pattern room (snd f)))|].
  - yields_fields.
  - intros fs Hfs. apply yields_ret. cbn [fits_pattern]. rewrite ?andb_true_iff. tauto.
Qed.
#[export] Hint Resolve yields_pattern : yields.

Lemma yields_patterns room message :
  yields (r_patterns (r_pattern room) message) (fits_patterns (fits_pattern room)).
Proof.
  unfold r_patterns. yields_step. destruct (x =? 0) eqn:E; [apply yields_fail|].
  intros l ps rest H. apply (yields_repeat _ _ _ (yields_pattern room)) in H
    as [El Hl]%andb_true_iff.
  apply N.eqb_eq in El. rewrite N2Nat.id in El. unfold fits_patterns, fits_vec.
  by rewrite El, E, Hx, Hl.
Qed.
#[export] Hint Resolve yields_patterns : yields.

Section yields_nested.
Variable room : nat.
Hypothesis yields_chunk_IH : yields (r_chunk room) (fits_chunk room).
#[local] Hint Resolve yields_chunk_IH : yields.

Lemma yields_arm :
  yields (r_arm (r_pattern room) (r_chunk room)) (fits_arm (fits_pattern room) (fits_chunk room)).
Proof using yields_chunk_IH.
  unfold r_arm. do 2 yields_step.
  apply (yields_bind _ _ (fits_option (fits_chunk room))).
  - repeat case_match; try apply yields_fail; [by apply yields_ret|yields_fields].
  - intros g Hg. yields_fields.
Qed.
#[local] Hint Resolve yields_arm : yields.

Lemma yields_instruction :
  yields (r_instruction (r_pattern room) (r_chunk room))
    (fits_instruction (fits_pattern room) (fits_chunk room)).
Proof using yields_chunk_IH.
  unfold r_instruction. do 2 yields_step.
  apply (yields_bind _ _ (fits_op (fits_pattern room) (fits_chunk room))).
  - repeat case_match; try apply yields_fail; try (by yields_fields).
    all: repeat yields_step.
    all: match goal with
      | |- yields (_ ≫= λ v, _ ≫= λ b, mret (Op_Iterate _ v b)) _ =>
          apply (yields_bind _ _ (fits_option (fits_pattern room)))
      | |- yields (_ ≫= λ v, mret (Op_Sample _ _ v)) _ =>
          apply (yields_bind _ _ (fits_option fits_string))
      | |- yields (_ ≫= λ v, mret (Op_IfCarries _ _ v)) _ =>
          apply (yields_bind _ _ (fits_option (fits_chunk room)))
      end.
    all: try (repeat case_match; try apply yields_fail; first [by apply yields_ret|yields_fields]).
    all: intros ?v ?Hv; yields_fields.
  - intros op Hop. apply yields_ret. unfold fits_instruction. by apply andb_true_iff.
Qed.
End yields_nested.

Lemma yields_chunk room : yields (r_chunk room) (fits_chunk room).
Proof.
  induction room as [|room IH]; [apply yields_fail|]. cbn [r_chunk].
  eapply yields_bind; [apply yields_any|]. intros v _.
  case_decide as Hv; [|apply yields_fail]. subst v.
  eapply yields_bind; [by apply yields_vec, yields_instruction|]. intros code Hcode.
  apply yields_ret. cbn [fits_chunk chunk_version chunk_code]. by rewrite Hcode.
Qed.

(** ** The two directions *)

Lemma encode_decode c :
  verify c = Ok tt → fits c = true → ∃ bytes, encode c = Ok bytes ∧ decode bytes = Ok c.
Proof.
  intros Hv Hf. destruct (rt_chunk _ _ Hf) as (bs & Hw & Hr). exists (MAGIC ++ bs).
  unfold encode, decode. rewrite Hv, Hw. split; [done|].
  change (take 4 (MAGIC ++ bs)) with MAGIC. change (drop 4 (MAGIC ++ bs)) with bs.
  rewrite bool_decide_true by done. specialize (Hr []). rewrite app_nil_r in Hr.
  rewrite Hr, Hv. done.
Qed.

Lemma decode_Ok bytes c : decode bytes = Ok c → verify c = Ok tt ∧ fits c = true.
Proof.
  unfold decode. case_bool_decide; [|done].
  destruct (r_chunk (S MAX_DEPTH) (drop 4 bytes)) as [[c' rest]|] eqn:E; [|done].
  destruct rest; [|done]. destruct (verify c') as [[]|] eqn:Hv; [|done].
  intros [= <-]. split; [done|]. by eapply yields_chunk.
Qed.

(** ** Claims *)

(** A chunk for the witnesses: [if true { 1 }]. *)
Definition sample_chunk : Chunk :=
  mkChunk BYTECODE_VERSION
    [ mkInstruction (Op_Constant (Literal_Bool true)) (mkSpan 1 4);
      mkInstruction (Op_JumpIfFalse 5) (mkSpan 1 1);
      mkInstruction Op_Pop (mkSpan 1 1);
      mkInstruction (Op_Constant (Literal_Int (-1))) (mkSpan 1 9);
      mkInstruction (Op_Jump 7) (mkSpan 1 1);
      mkInstruction Op_Pop (mkSpan 1 1);
      mkInstruction (Op_Constant Literal_Null) (mkSpan 1 1) ].

(** C35: Bundles round-trip: a verified chunk within the format's limits encodes,
    and decoding its bytes gives the same chunk, nested chunks, patterns,
    operators, floats and positions included. *)
Theorem bundle_roundtrip c :
  verify c = Ok tt → fits c = true → ∃ bytes, encode c = Ok bytes ∧ decode bytes = Ok c.
Proof. apply encode_decode. Qed.

Lemma bundle_roundtrip_witness :
  ∃ bytes, encode sample_chunk = Ok bytes ∧ decode bytes = Ok sample_chunk.
Proof. apply bundle_roundtrip; vm_compute; reflexivity. Defined.

(** C36: Whatever bytes [decode] accepts, the chunk it returns is verified and
    within the format's limits: no unverified code enters through a bundle. *)
Theorem decode_sound bytes c : decode bytes = Ok c → verify c = Ok tt ∧ fits c = true.
Proof. apply decode_Ok. Qed.

Definition sample_bytes : list byte :=
  match encode sample_chunk with Ok bytes => bytes | Err _ => [] end.

Lemma decode_sound_witness : verify sample_chunk = Ok tt ∧ fits sample_chunk = true.
Proof. apply (decode_sound sample_bytes). vm_compute. reflexivity. Defined.

(** A decoded chunk can be stored again: encoding what [decode] returned
    succeeds, and decoding that gives the same chunk. *)
Theorem decode_encode bytes c :
  decode bytes = Ok c → ∃ bytes', encode c = Ok bytes' ∧ decode bytes' = Ok c.
Proof. intros [Hv Hf]%decode_Ok. by apply encode_decode. Qed.

Lemma decode_encode_witness :
  ∃ bytes', encode sample_chunk = Ok bytes' ∧ decode bytes' = Ok sample_chunk.
Proof. apply (decode_encode sample_bytes). vm_compute. reflexivity. Defined.

(** A bundle holds nothing after its chunk: bytes appended to an encoded
    chunk are refused. *)
Theorem trailing_bytes_refused c bytes extra :
  fits c = true → encode c = Ok bytes → extra ≠ [] → is_ok (decode (bytes ++ extra)) = false.
Proof.
  intros Hf He Hx. destruct (rt_chunk _ _ Hf) as (bs & Hw & Hr). unfold encode in He.
  destruct (verify c) as [[]|]; [|done]. rewrite Hw in He.
  assert (bytes = MAGIC ++ bs) as -> by (by injection He).
  rewrite <- app_assoc. unfold decode. change (take 4 (MAGIC ++ bs ++ extra)) with MAGIC.
  change (drop 4 (MAGIC ++ bs ++ extra)) with (bs ++ extra).
  rewrite bool_decide_true by done. rewrite Hr. by destruct extra.
Qed.

Lemma trailing_bytes_refused_witness : is_ok (decode (sample_bytes ++ [x00])) = false.
Proof.
  apply (trailing_bytes_refused sample_chunk); [vm_compute; reflexivity..|done].
Defined.

(** The writer accepts more than the reader: a source position beyond line
    1,000,000 is encoded without an error, and the bundle does not load. *)
Theorem long_source_refused :
  let c := mkChunk BYTECODE_VERSION
             [mkInstruction (Op_Constant Literal_Null) (mkSpan 1000001 1)] in
  verify c = Ok tt ∧ ∃ bytes, encode c = Ok bytes ∧ is_ok (decode bytes) = false.
Proof.
  split; [vm_compute; reflexivity|]. eexists.
  split; [vm_compute; reflexivity|]. vm_compute. reflexivity.
Qed.

(** A chunk with a flag byte: [promise never Network]. *)
Definition promise_chunk : Chunk :=
  mkChunk BYTECODE_VERSION
    [ mkInstruction (Op_Promise [mkPromiseClause "Network" true [] (mkSpan 1 1)]) (mkSpan 1 1);
      mkInstruction (Op_Constant Literal_Null) (mkSpan 1 1) ].

(** Bundles are not canonical: the flag of a promise clause is read as any
    non-zero byte, so a bundle with another byte there is accepted too and
    holds the same chunk. *)
Lemma flags_not_canonical :
  ∃ bytes bytes', bytes ≠ bytes' ∧
    decode bytes = Ok promise_chunk ∧ decode bytes' = Ok promise_chunk.
Proof.
  set (b := match encode promise_chunk with Ok b => b | Err _ => [] end).
  exists b, (<[34%nat := x02]> b). split_and!; [|vm_compute; reflexivity..].
  vm_compute. discriminate.
Qed.
