(* ===== verification/Standalone.v ===== *)
(** * Standalone executables

    [attach] and [extract] of src/src/standalone.rs: an application is a copy
    of the runtime executable followed by the bundle, the manifest, their two
    lengths and a magic number.  A slice expression out of range is a Rust
    panic, the outer [None] of both functions; [extract_no_panic] and
    [attach_no_panic] show that neither can happen. *)
From S2P Require Import Prelude Ast Bytecode Codegen Verifier Bundle BundleOk.

Definition APP_MAGIC : list byte := string_bytes "NIVAPP3" ++ [x00].
Definition TRAILER : N := 24.
Definition MAX_MANIFEST : N := 1024 * 1024.

Record EmbeddedApplication := mkEmbedded {
  executable_length : N;
  app_bundle : list byte;
  app_manifest : string }.

(** [extract] *)
Definition extract (executable : list byte) : option (option EmbeddedApplication) :=
  if len executable <? TRAILER then Some None else
  magic ← slice_get executable (len executable - len APP_MAGIC) (len executable);
  if negb (bool_decide (magic = APP_MAGIC)) then Some None else
  let lengths := len executable - TRAILER in
  bundle_field ← slice_get executable lengths (lengths + 8);
  manifest_field ← slice_get executable (lengths + 8) (lengths + 16);
  let bundle_length := from_le_bytes bundle_field in
  let manifest_length := from_le_bytes manifest_field in
  if MAX_MANIFEST <? manifest_length then Some None else
  match checked_add bundle_length manifest_length with
  | None => Some None
  | Some payload_length =>
  match checked_sub lengths payload_length with
  | None => Some None
  | Some executable_length =>
  match checked_add executable_length bundle_length with
  | None => Some None
  | Some bundle_end =>
  match checked_add bundle_end manifest_length with
  | None => Some None
  | Some manifest_end =>
      bundle ← slice_get executable executable_length bundle_end;
      if negb (is_ok (decode bundle)) then Some None else
      manifest ← slice_get executable bundle_end manifest_end;
      match from_utf8 manifest with
      | None => Some None
      | Some manifest => Some (Some (mkEmbedded executable_length bundle manifest))
      end
  end end end end.

(** [attach] *)
Definition attach (executable bundle : list byte) (manifest : string)
    : option (result NivError (list byte)) :=
  embedded ← extract executable;
  let base := match embedded with
              | Some application => executable_length application
              | None => len executable
              end in
  if MAX_MANIFEST <? str_len manifest
  then Some (Err (NivError_new "standalone manifest exceeds 1 MiB" 1 1)) else
  match decode bundle with
  | Err e => Some (Err e)
  | Ok _ =>
      prefix ← slice_get executable 0 base;
      Some (Ok (prefix ++ bundle ++ string_bytes manifest
                  ++ to_le_bytes 8 (len bundle) ++ to_le_bytes 8 (str_len manifest)
                  ++ APP_MAGIC))
  end.

(** ** Proofs *)

Lemma slice_get_in_range {A} (l : list A) from to :
  from ≤ to → to ≤ len l → is_Some (slice_get l from to).
Proof. intros. unfold slice_get. rewrite !(proj2 (N.leb_le _ _)) by done. by eexists. Qed.

Lemma checked_add_Some a b c : checked_add a b = Some c → c = a + b.
Proof. unfold checked_add. case_match; naive_solver. Qed.

Lemma checked_sub_Some a b c : checked_sub a b = Some c → c = a - b ∧ b ≤ a.
Proof. unfold checked_sub. destruct (N.leb_spec b a); naive_solver. Qed.

Lemma checked_add_ok a b : a + b ≤ usize_max → checked_add a b = Some (a + b).
Proof. intros. unfold checked_add. by rewrite (proj2 (N.leb_le _ _)). Qed.

Lemma extract_no_panic executable : is_Some (extract executable).
Proof.
  unfold extract. destruct (N.ltb_spec (len executable) TRAILER); [by eexists|].
  change (len APP_MAGIC) with 8. unfold TRAILER in *.
  destruct (slice_get_in_range executable (len executable - 8) (len executable))
    as [magic ->]; [lia..|]. cbn [mbind option_bind]. case_match; [by eexists|].
  destruct (slice_get_in_range executable (len executable - 24) (len executable - 24 + 8))
    as [bf ->]; [lia..|]. cbn [mbind option_bind].
  destruct (slice_get_in_range executable (len executable - 24 + 8) (len executable - 24 + 16))
    as [mf ->]; [lia..|]. cbn [mbind option_bind]. case_match; [by eexists|].
  destruct (checked_add (from_le_bytes bf) _) as [p|] eqn:Ep; [|by eexists].
  destruct (checked_sub _ p) as [el|] eqn:Ee; [|by eexists].
  destruct (checked_add el _) as [be|] eqn:Eb; [|by eexists].
  destruct (checked_add be _) as [me|] eqn:Em; [|by eexists].
  apply checked_add_Some in Ep, Eb, Em. apply checked_sub_Some in Ee.
  destruct (slice_get_in_range executable el be) as [b ->]; [lia..|]. cbn [mbind option_bind].
  case_match; [by eexists|].
  destruct (slice_get_in_range executable be me) as [m ->]; [lia..|]. cbn [mbind option_bind].
  case_match; by eexists.
Qed.

(** The layout of an application file. *)
Definition layout (prefix bundle : list byte) (manifest : string) : list byte :=
  prefix ++ bundle ++ string_bytes manifest
    ++ to_le_bytes 8 (len bundle) ++ to_le_bytes 8 (str_len manifest) ++ APP_MAGIC.

Lemma slice_get_parts {A} (l pre mid post : list A) from to :
  l = pre ++ mid ++ post → from = len pre → to = len pre + len mid →
  slice_get l from to = Some mid.
Proof. intros -> -> ->. apply slice_get_app. Qed.

Lemma len_le_bytes n v : len (to_le_bytes n v) = N.of_nat n.
Proof. unfold len. by rewrite length_to_le_bytes. Qed.

Lemma len_layout prefix bundle manifest :
  len (layout prefix bundle manifest) = len prefix + len bundle + str_len manifest + 24.
Proof.
  unfold layout. autorewrite with len. rewrite !len_le_bytes.
  change (len APP_MAGIC) with 8. unfold str_len. lia.
Qed.

(** A slice of [layout] by the parts before and in it. *)
Ltac slice_layout pre mid post :=
  apply (slice_get_parts _ pre mid post);
  repeat match goal with x := _ |- _ => subst x end;
  [unfold layout; by rewrite <- ?app_assoc
  |rewrite ?len_layout; autorewrite with len; rewrite ?len_le_bytes;
   change (len APP_MAGIC) with 8; unfold str_len; lia..].

Lemma extract_layout prefix bundle manifest :
  is_ok (decode bundle) = true → utf8_valid (string_bytes manifest) = true →
  str_len manifest ≤ MAX_MANIFEST → len (layout prefix bundle manifest) ≤ usize_max →
  extract (layout prefix bundle manifest) = Some (Some (mkEmbedded (len prefix) bundle manifest)).
Proof.
  intros Hd Hu Hm Hsize. rewrite len_layout in Hsize. unfold usize_max, u64_max in Hsize.
  pose (bl := to_le_bytes 8 (len bundle)). pose (ml := to_le_bytes 8 (str_len manifest)).
  unfold extract. rewrite (proj2 (N.ltb_ge _ _)) by (rewrite len_layout; unfold TRAILER; lia).
  unfold TRAILER. change (len APP_MAGIC) with 8. set (file := layout prefix bundle manifest).
  assert (slice_get file (len file - 8) (len file) = Some APP_MAGIC) as ->
    by slice_layout (prefix ++ bundle ++ string_bytes manifest ++ bl ++ ml) APP_MAGIC
         (@nil byte).
  cbn [mbind option_bind]. rewrite bool_decide_true by done. cbn [negb].
  assert (slice_get file (len file - 24) (len file - 24 + 8) = Some bl) as ->
    by slice_layout (prefix ++ bundle ++ string_bytes manifest) bl (ml ++ APP_MAGIC).
  cbn [mbind option_bind].
  assert (slice_get file (len file - 24 + 8) (len file - 24 + 16) = Some ml) as ->
    by slice_layout (prefix ++ bundle ++ string_bytes manifest ++ bl) ml APP_MAGIC.
  cbn [mbind option_bind]. cbv zeta. unfold bl, ml.
  rewrite !from_to_le_bytes by (change (256 ^ N.of_nat 8) with (2 ^ 64); lia).
  rewrite (proj2 (N.ltb_ge _ _)) by done.
  rewrite checked_add_ok by (unfold usize_max, u64_max; lia).
  replace (checked_sub _ _) with (Some (len prefix))
    by (unfold file, checked_sub; rewrite len_layout, (proj2 (N.leb_le _ _)) by lia;
        f_equal; lia).
  rewrite !checked_add_ok by (unfold usize_max, u64_max; lia).
  assert (slice_get file (len prefix) (len prefix + len bundle) = Some bundle) as ->
    by slice_layout prefix bundle (string_bytes manifest ++ bl ++ ml ++ APP_MAGIC).
  cbn [mbind option_bind]. rewrite Hd. cbn [negb].
  assert (slice_get file (len prefix + len bundle) (len prefix + len bundle + str_len manifest)
          = Some (string_bytes manifest)) as ->
    by slice_layout (prefix ++ bundle) (string_bytes manifest) (bl ++ ml ++ APP_MAGIC).
  cbn [mbind option_bind]. by rewrite from_utf8_bytes.
Qed.

Lemma slice_get_prefix {A} (l : list A) n :
  n ≤ len l → slice_get l 0 n = Some (take (N.to_nat n) l).
Proof.
  intros H. unfold slice_get. rewrite !(proj2 (N.leb_le _ _)) by lia.
  by rewrite N.sub_0_r, drop_0.
Qed.

(** What [extract] reports about a file it recognises. *)
Lemma extract_Some executable app :
  extract executable = Some (Some app) → executable_length app ≤ len executable.
Proof.
  unfold extract. repeat (case_match || (bind_cases; try done)).
  all: intros; simplify_eq; cbn.
  all: repeat match goal with
    | H : checked_add _ _ = Some _ |- _ => apply checked_add_Some in H
    | H : checked_sub _ _ = Some _ |- _ => apply checked_sub_Some in H
    end; lia.
Qed.

(** The base [attach] copies: everything before an embedded application. *)
Definition base_of (executable : list byte) : N :=
  match extract executable with
  | Some (Some app) => executable_length app
  | _ => len executable
  end.

Lemma base_of_le executable : base_of executable ≤ len executable.
Proof.
  unfold base_of. destruct (extract executable) as [[app|]|] eqn:E; [|done..].
  by apply extract_Some.
Qed.

Lemma attach_eq executable bundle manifest :
  attach executable bundle manifest =
  Some (if MAX_MANIFEST <? str_len manifest
        then Err (NivError_new "standalone manifest exceeds 1 MiB" 1 1)
        else match decode bundle with
             | Err e => Err e
             | Ok _ =>
                 Ok (layout (take (N.to_nat (base_of executable)) executable) bundle manifest)
             end).
Proof.
  unfold attach. pose proof (base_of_le executable) as Hb. unfold base_of in *.
  destruct (extract_no_panic executable) as [e He]. rewrite He in *.
  cbn [mbind option_bind]. destruct (MAX_MANIFEST <? _); [done|].
  destruct (decode bundle); [|done].
  destruct e as [app|]; rewrite slice_get_prefix; done.
Qed.

Lemma attach_no_panic executable bundle manifest : is_Some (attach executable bundle manifest).
Proof. rewrite attach_eq. by eexists. Qed.

Lemma attach_extract_base executable bundle manifest out :
  attach executable bundle manifest = Some (Ok out) →
  utf8_valid (string_bytes manifest) = true → len out ≤ usize_max →
  extract out = Some (Some (mkEmbedded (base_of executable) bundle manifest)) ∧
  take (N.to_nat (base_of executable)) out =
    take (N.to_nat (base_of executable)) executable.
Proof.
  rewrite attach_eq. destruct (N.ltb_spec MAX_MANIFEST (str_len manifest)); [done|].
  destruct (decode bundle) as [c|] eqn:Hd; [|done]. intros [= <-] Hu Hs.
  pose proof (base_of_le executable) as Hb.
  assert (len (take (N.to_nat (base_of executable)) executable) = base_of executable) as Hl.
  { unfold len in *. rewrite length_take. lia. }
  split.
  - rewrite extract_layout; try done; [by rewrite Hl|by rewrite Hd].
  - unfold layout. rewrite take_app_le; [by rewrite take_take, Nat.min_id|].
    rewrite length_take. unfold len in Hb. lia.
Qed.

(** ** Claims *)

Definition sample_file : list byte :=
  match attach [x7f; x45] sample_bytes "name" with Some (Ok out) => out | _ => [] end.

(** An attached application is found again: extracting from the file
    [attach] writes gives back the bundle and the manifest byte for byte, and
    the runtime in front of them is unchanged. *)
Theorem attach_extract executable bundle manifest out :
  attach executable bundle manifest = Some (Ok out) →
  utf8_valid (string_bytes manifest) = true → len out ≤ usize_max →
  extract out = Some (Some (mkEmbedded (base_of executable) bundle manifest)) ∧
  take (N.to_nat (base_of executable)) out =
    take (N.to_nat (base_of executable)) executable.
Proof. apply attach_extract_base. Qed.

Lemma attach_extract_witness :
  extract sample_file = Some (Some (mkEmbedded 2 sample_bytes "name")) ∧
  take 2 sample_file = [x7f; x45].
Proof.
  apply (attach_extract [x7f; x45] sample_bytes "name" sample_file);
    [vm_compute; reflexivity|reflexivity|vm_compute; discriminate].
Defined.

(** Neither operation can panic: for any file, bundle and manifest, every
    slice [attach] and [extract] take is in range and no length overflows. *)
Theorem standalone_no_panic executable bundle manifest :
  is_Some (extract executable) ∧ is_Some (attach executable bundle manifest).
Proof. split; [apply extract_no_panic|apply attach_no_panic]. Qed.

(** Building over a built application replaces it: attaching a second
    application to the result gives the file that attaching it to the original
    executable gives, so applications do not accumulate. *)
Theorem reattach_replaces executable bundle manifest out bundle' manifest' :
  attach executable bundle manifest = Some (Ok out) →
  utf8_valid (string_bytes manifest) = true → len out ≤ usize_max →
  attach out bundle' manifest' = attach executable bundle' manifest'.
Proof.
  intros Ha Hu Hs. destruct (attach_extract_base _ _ _ _ Ha Hu Hs) as [He Ht].
  rewrite !attach_eq. replace (base_of out) with (base_of executable); [by rewrite Ht|].
  symmetry. unfold base_of at 1. by rewrite He.
Qed.

Lemma reattach_replaces_witness :
  attach sample_file sample_bytes "other" = attach [x7f; x45] sample_bytes "other".
Proof.
  apply (reattach_replaces _ sample_bytes "name");
    [vm_compute; reflexivity|reflexivity|vm_compute; discriminate].
Defined.
