(* ===== verification/Values.v ===== *)
(** * Runtime values

    The data the virtual machine works on: fixed-width integers
    (src/src/fixed.rs), [Value] with its structural and pointer equality, type
    names and canonical text, and the pure operations on values
    (src/src/runtime.rs: [negate], [int_binary], [uint_binary], [u128_binary],
    [fixed_binary], [float_binary], [bigint_binary], [binary], [index_value],
    [get_value], [estimated_value_bytes_within]).

    An [Arc] whose equality is [Arc::ptr_eq] carries the identity of its
    allocation, a number; resources behind a lock are a kind and such a number.
    A 64-bit float is its bit pattern, computed with the Standard Library's
    IEEE 754 specification floats.  Third-party number and time types
    (rust_decimal, jiff) are parameters, the class [Foreign]. *)
From Stdlib Require Import Floats.SpecFloat.
From S2P Require Import Prelude Ast Bytecode.

(** ** Fixed-width integers *)

Inductive FixedKind : Type :=
| FK_I8 | FK_I16 | FK_I32 | FK_I128 | FK_U8 | FK_U16 | FK_U32 | FK_U64.

#[export] Instance fixed_kind_eq_dec : EqDecision FixedKind.
Proof. solve_decision. Defined.

(** [FixedKind::name] *)
Definition kind_name (k : FixedKind) : string :=
  match k with
  | FK_I8 => "I8" | FK_I16 => "I16" | FK_I32 => "I32" | FK_I128 => "I128"
  | FK_U8 => "U8" | FK_U16 => "U16" | FK_U32 => "U32" | FK_U64 => "U64"
  end.

Definition i128_min : Z := (- 2 ^ 127)%Z.
Definition i128_max : Z := (2 ^ 127 - 1)%Z.

(** [FixedKind::minimum] *)
Definition kind_minimum (k : FixedKind) : Z :=
  match k with
  | FK_I8 => - 2 ^ 7 | FK_I16 => - 2 ^ 15 | FK_I32 => - 2 ^ 31 | FK_I128 => i128_min
  | FK_U8 | FK_U16 | FK_U32 | FK_U64 => 0
  end%Z.

(** [FixedKind::maximum] *)
Definition kind_maximum (k : FixedKind) : Z :=
  match k with
  | FK_I8 => 2 ^ 7 - 1 | FK_I16 => 2 ^ 15 - 1 | FK_I32 => 2 ^ 31 - 1 | FK_I128 => i128_max
  | FK_U8 => 2 ^ 8 - 1 | FK_U16 => 2 ^ 16 - 1 | FK_U32 => 2 ^ 32 - 1 | FK_U64 => 2 ^ 64 - 1
  end%Z.

(** [FixedKind::signed] *)
Definition kind_signed (k : FixedKind) : bool :=
  match k with FK_I8 | FK_I16 | FK_I32 | FK_I128 => true | _ => false end.

Record FixedInt := mkFixed { fixed_kind : FixedKind; fixed_value : Z }.

(** [FixedInt::new] *)
Definition FixedInt_new (k : FixedKind) (value : Z) : result string FixedInt :=
  if ((value <? kind_minimum k) || (kind_maximum k <? value))%Z
  then Err ("value is outside the " +:+ kind_name k +:+ " range")
  else Ok (mkFixed k value).

(** ** Checked machine arithmetic *)

(** [checked_*] on a type with the given range: the exact result, or [None]
    when it does not fit.  Rust's division truncates, as [Z.quot]. *)
Definition checked (lo hi : Z) (z : Z) : option Z :=
  if ((lo <=? z) && (z <=? hi))%Z then Some z else None.

Definition i64_min : Z := (- 2 ^ 63)%Z.
Definition i64_max : Z := (2 ^ 63 - 1)%Z.
Definition u64_top : Z := (2 ^ 64 - 1)%Z.
Definition u128_top : Z := (2 ^ 128 - 1)%Z.

(** [checked_rem] is [None] also where [checked_div] is: [MIN % -1]. *)
Definition checked_rem (lo hi : Z) (a b : Z) : option Z :=
  _ ← checked lo hi (Z.quot a b); Some (Z.rem a b).

(** ** IEEE 754 binary64 *)

(** Decode a bit pattern. *)
Definition float_of_bits (bits : f64) : spec_float :=
  let sign := N.testbit bits 63 in
  let exponent := N.land (N.shiftr bits 52) 2047 in
  let mantissa := N.land bits (2 ^ 52 - 1) in
  match exponent with
  | 0 => match mantissa with
         | 0 => S754_zero sign
         | Npos m => S754_finite sign m (-1074)
         end
  | 2047 => match mantissa with 0 => S754_infinity sign | _ => S754_nan end
  | _ => match mantissa + 2 ^ 52 with
         | 0 => S754_nan
         | Npos m => S754_finite sign m (Z.of_N exponent - 1075)
         end
  end.

(** Encode; every NaN becomes the canonical quiet NaN. *)
Definition bits_of_float (f : spec_float) : f64 :=
  let signed := fun (s : bool) v => if s then v + 2 ^ 63 else v in
  match f with
  | S754_zero s => signed s 0
  | S754_infinity s => signed s (N.shiftl 2047 52)
  | S754_nan => N.shiftl 4095 51
  | S754_finite s m e =>
      if Npos m <? 2 ^ 52 then signed s (Npos m)
      else signed s (N.shiftl (Z.to_N (e + 1075)) 52 + (Npos m - 2 ^ 52))
  end.

Definition f64_op (op : spec_float → spec_float → spec_float) (a b : f64) : f64 :=
  bits_of_float (op (float_of_bits a) (float_of_bits b)).
Definition f64_add := f64_op (SFadd 53 1024).
Definition f64_sub := f64_op (SFsub 53 1024).
Definition f64_mul := f64_op (SFmul 53 1024).
Definition f64_div := f64_op (SFdiv 53 1024).
Definition f64_neg (a : f64) : f64 := N.lxor a (2 ^ 63).

(** [a % b]: the exact remainder with the sign of [a]. *)
Definition SFrem (a b : spec_float) : spec_float :=
  match a, b with
  | S754_nan, _ | _, S754_nan | S754_infinity _, _ | _, S754_zero _ => S754_nan
  | S754_zero s, _ => S754_zero s
  | S754_finite s m e, S754_infinity _ => S754_finite s m e
  | S754_finite s m e, S754_finite _ m' e' =>
      let low := Z.min e e' in
      let r := Z.rem (Zpos m * 2 ^ (e - low)) (Zpos m' * 2 ^ (e' - low)) in
      binary_normalize 53 1024 (cond_Zopp s r) low s
  end.
Definition f64_rem := f64_op SFrem.

Definition f64_compare (a b : f64) : option comparison :=
  SFcompare (float_of_bits a) (float_of_bits b).
Definition f64_eq (a b : f64) : bool :=
  match f64_compare a b with Some Eq => true | _ => false end.
Definition f64_is_zero (a : f64) : bool := f64_eq a 0.
Definition f64_is_finite (a : f64) : bool :=
  match float_of_bits a with S754_zero _ | S754_finite _ _ _ => true | _ => false end.

Example f64_arith :
  f64_add 0x3FF8000000000000 0x4002000000000000 = 0x400E000000000000 ∧   (* 1.5 + 2.25 *)
  f64_rem 0xC01E000000000000 0x4000000000000000 = 0xBFF8000000000000 ∧   (* -7.5 % 2.0 *)
  f64_div 0x3FF0000000000000 0x4008000000000000 = 0x3FD5555555555555 ∧   (* 1 / 3 *)
  f64_eq 0 (2 ^ 63) = true ∧ f64_eq 0x7FF8000000000000 0x7FF8000000000000 = false.
Proof. vm_compute. auto. Qed.

(** ** Values *)

(** Resources and other values compared by allocation. *)
Inductive HandleKind : Type :=
| H_SourceDeclaration | H_SecretKey | H_Iterator | H_File | H_TcpListener | H_TcpStream
| H_TlsStream | H_WebSocket | H_TlsListener | H_Lock | H_LockGuard | H_AtomicInt
| H_NativeHandle | H_NativeLibrary | H_Transaction | H_Task | H_Channel.

#[export] Instance handle_kind_eq_dec : EqDecision HandleKind.
Proof. solve_decision. Defined.

Record NativeFunction := mkNative {
  native_ref : N;
  native_name : string;
  native_arity : N;
  native_capability : option string;
  native_problem_kind : option string }.

(** [catalog] and [choices] of the source, which only derived methods read,
    are left out. *)
Record RecordType := mkRecordType {
  rt_ref : N;
  rt_name : string;
  rt_fields : list (string * string);
  rt_derives : list string }.

Record EnumType := mkEnumType {
  et_ref : N;
  et_name : string;
  et_variants : list string;
  et_payload_variants : list string }.

(** A record value pairs its field names with its values: the source keeps two
    sequences, which every place that builds one makes equally long. *)
Inductive Value : Type :=
| V_Int (z : Z)
| V_UInt (n : Z)
| V_U128 (n : Z)
| V_FixedInt (i : FixedInt)
| V_BigInt (z : Z)
| V_Float (f : f64)
| V_Decimal (repr : N)
| V_DateTime (repr : N)
| V_String (s : string)
| V_Bytes (bytes : list byte)
| V_Bool (b : bool)
| V_Null
| V_Function (ref : N)
| V_Native (f : NativeFunction)
| V_Array (values : list Value)
| V_Map (entries : list (Value * Value))
| V_Set (values : list Value)
| V_RecordType (t : RecordType)
| V_Record (type_name : string) (fields : list (string * Value))
| V_EnumType (t : EnumType)
| V_EnumConstructor (ref : N) (type_name variant : string)
| V_Enum (type_name variant : string) (payload : option Value)
| V_ProtocolType (ref : N) (name : string) (members : list string)
| V_ProtocolMethod (ref : N) (protocol member : string)
| V_DerivedMethod (ref : N) (schema : RecordType) (name : string)
| V_Ok (v : Value)
| V_Err (v : Value)
| V_EarlyReturn (v : Value)
| V_Module (ref : N) (members : list (string * Value))
| V_Handle (kind : HandleKind) (ref : N).

Definition handle_type_name (k : HandleKind) : string :=
  match k with
  | H_SourceDeclaration => "source.Declaration" | H_SecretKey => "SecretKey"
  | H_Iterator => "Iterator" | H_File => "File" | H_TcpListener => "TcpListener"
  | H_TcpStream => "TcpStream" | H_TlsStream => "TlsStream" | H_WebSocket => "WebSocket"
  | H_TlsListener => "TlsListener" | H_Lock => "Lock" | H_LockGuard => "LockGuard"
  | H_AtomicInt => "AtomicInt" | H_NativeHandle => "NativeHandle"
  | H_NativeLibrary => "NativeLibrary" | H_Transaction => "Transaction" | H_Task => "Task"
  | H_Channel => "Channel"
  end.

(** [Value::type_name] *)
Definition type_name (v : Value) : string :=
  match v with
  | V_Int _ => "Int" | V_UInt _ => "UInt" | V_U128 _ => "U128" | V_Float _ => "Float"
  | V_String _ => "String" | V_Bytes _ => "Bytes" | V_Bool _ => "Bool"
  | V_Null => "Nothing" | V_Function _ | V_Native _ => "Function"
  | V_Array _ => "Array" | V_Map _ => "Map" | V_Set _ => "Set"
  | V_RecordType _ => "RecordType" | V_Record name _ => name
  | V_EnumType _ => "EnumType" | V_EnumConstructor _ _ _ => "Function"
  | V_Enum name _ _ => name | V_ProtocolType _ _ _ => "ProtocolType"
  | V_ProtocolMethod _ _ _ | V_DerivedMethod _ _ _ => "Function"
  | V_Ok _ | V_Err _ => "Result" | V_EarlyReturn _ => "internal return"
  | V_Module _ _ => "Module" | V_DateTime _ => "DateTime" | V_BigInt _ => "BigInt"
  | V_Decimal _ => "Decimal" | V_FixedInt i => kind_name (fixed_kind i)
  | V_Handle k _ => handle_type_name k
  end.

(** ** Third-party types *)

(** rust_decimal's and jiff's operations the runtime calls, the text of a
    float ([f64]'s [Display]), and the size of what a lock protects. *)
Class Foreign := {
  decimal_compare : N → N → comparison;
  decimal_is_zero : N → bool;
  decimal_add : N → N → option N;
  decimal_sub : N → N → option N;
  decimal_mul : N → N → option N;
  decimal_div : N → N → option N;
  decimal_rem : N → N → option N;
  decimal_zero : N;
  decimal_display : N → string;
  datetime_equal : N → N → bool;
  datetime_compare : N → N → comparison;
  datetime_display : N → string;
  float_display : f64 → string;
  handle_bytes : HandleKind → N → nat → option N }.

Section operations.
Context `{Foreign}.

(** ** Equality *)

Definition comparison_eqb (a b : comparison) : bool :=
  match a, b with Eq, Eq | Lt, Lt | Gt, Gt => true | _, _ => false end.

(** [Value]'s [PartialEq] *)
Fixpoint value_eq (a b : Value) {struct a} : bool :=
  let values := fix values (l k : list Value) {struct l} : bool :=
    match l, k with
    | [], [] => true
    | x :: l, y :: k => value_eq x y && values l k
    | _, _ => false
    end in
  match a, b with
  | V_Int a, V_Int b | V_UInt a, V_UInt b | V_U128 a, V_U128 b
  | V_BigInt a, V_BigInt b => Z.eqb a b
  | V_FixedInt a, V_FixedInt b =>
      bool_decide (fixed_kind a = fixed_kind b) && Z.eqb (fixed_value a) (fixed_value b)
  | V_Float a, V_Float b => f64_eq a b
  | V_Decimal a, V_Decimal b => comparison_eqb (decimal_compare a b) Eq
  | V_DateTime a, V_DateTime b => datetime_equal a b
  | V_String a, V_String b => bool_decide (a = b)
  | V_Bytes a, V_Bytes b => bool_decide (a = b)
  | V_Bool a, V_Bool b => eqb a b
  | V_Null, V_Null => true
  | V_Function a, V_Function b => a =? b
  | V_Native a, V_Native b => native_ref a =? native_ref b
  | V_Array a, V_Array b | V_Set a, V_Set b => values a b
  | V_Map a, V_Map b =>
      (fix entries (l k : list (Value * Value)) {struct l} : bool :=
         match l, k with
         | [], [] => true
         | (x, u) :: l, (y, v) :: k => value_eq x y && value_eq u v && entries l k
         | _, _ => false
         end) a b
  | V_RecordType a, V_RecordType b => rt_ref a =? rt_ref b
  | V_Record ta fa, V_Record tb fb =>
      bool_decide (ta = tb)
      && (fix fields (l k : list (string * Value)) {struct l} : bool :=
            match l, k with
            | [], [] => true
            | (x, u) :: l, (y, v) :: k => bool_decide (x = y) && value_eq u v && fields l k
            | _, _ => false
            end) fa fb
  | V_EnumType a, V_EnumType b => et_ref a =? et_ref b
  | V_EnumConstructor a _ _, V_EnumConstructor b _ _
  | V_ProtocolType a _ _, V_ProtocolType b _ _
  | V_ProtocolMethod a _ _, V_ProtocolMethod b _ _
  | V_DerivedMethod a _ _, V_DerivedMethod b _ _
  | V_Module a _, V_Module b _ => a =? b
  | V_Enum ta va pa, V_Enum tb vb pb =>
      bool_decide (ta = tb) && bool_decide (va = vb)
      && match pa, pb with
         | Some x, Some y => value_eq x y
         | None, None => true
         | _, _ => false
         end
  | V_Ok a, V_Ok b | V_Err a, V_Err b | V_EarlyReturn a, V_EarlyReturn b => value_eq a b
  | V_Handle ka a, V_Handle kb b =>
      match ka with
      | H_SecretKey => false
      | _ => bool_decide (ka = kb) && (a =? b)
      end
  | _, _ => false
  end.

(** ** Canonical text *)

Definition handle_display (k : HandleKind) : string :=
  match k with
  | H_SourceDeclaration => "<source declaration>" | H_SecretKey => "<secret-key>"
  | H_Iterator => "<iterator>" | H_File => "<file>" | H_TcpListener => "<tcp-listener>"
  | H_TcpStream => "<tcp-stream>" | H_TlsStream => "<tls-stream>"
  | H_WebSocket => "<websocket>" | H_TlsListener => "<tls-listener>" | H_Lock => "<lock>"
  | H_LockGuard => "<lock-guard>" | H_AtomicInt => "<atomic-int>"
  | H_NativeHandle => "<native-handle>" | H_NativeLibrary => "<native-library>"
  | H_Transaction => "<transaction>" | H_Task => "<task>" | H_Channel => "<channel>"
  end.

(** The first [message] field of a [Problem], when it is text. *)
Fixpoint message_field (fields : list (string * Value)) : option string :=
  match fields with
  | (n, v) :: fields =>
      if bool_decide (n = "message")
      then match v with V_String s => Some s | _ => None end
      else message_field fields
  | [] => None
  end.

(** [Value]'s [Display]; [function_name] is the name of a function value. *)
Fixpoint display (function_name : N → string) (v : Value) : string :=
  let text := display function_name in
  match v with
  | V_Int z | V_UInt z | V_U128 z | V_BigInt z => pretty z
  | V_FixedInt i => pretty (fixed_value i)
  | V_Float f => float_display f
  | V_Decimal d => decimal_display d
  | V_DateTime d => datetime_display d
  | V_String s => s
  | V_Bytes bytes => "<" +:+ pretty (len bytes) +:+ " bytes>"
  | V_Bool true => "yes"
  | V_Bool false => "no"
  | V_Null => "none"
  | V_Function f => "<define " +:+ function_name f +:+ ">"
  | V_Native f => "<native " +:+ native_name f +:+ ">"
  | V_Array values => "[" +:+ join ", " (map text values) +:+ "]"
  | V_Map entries =>
      "map {" +:+ join ", " (map (λ '(k, v), text k +:+ ": " +:+ text v) entries) +:+ "}"
  | V_Set values => "set {" +:+ join ", " (map text values) +:+ "}"
  | V_RecordType t => "<shape " +:+ rt_name t +:+ ">"
  | V_Record type_name fields =>
      match (if bool_decide (type_name = "Problem") then message_field fields else None) with
      | Some message => message
      | None =>
          type_name +:+ " { "
            +:+ join ", " (map (λ '(n, v), n +:+ ": " +:+ text v) fields) +:+ " }"
      end
  | V_EnumType t => "<choice " +:+ et_name t +:+ ">"
  | V_EnumConstructor _ t v => "<choice constructor " +:+ t +:+ "." +:+ v +:+ ">"
  | V_Enum t v (Some payload) => t +:+ "." +:+ v +:+ "(" +:+ text payload +:+ ")"
  | V_Enum t v None => t +:+ "." +:+ v
  | V_ProtocolType _ name _ => "<protocol " +:+ name +:+ ">"
  | V_ProtocolMethod _ p m => "<protocol method " +:+ p +:+ "." +:+ m +:+ ">"
  | V_DerivedMethod _ schema name => "<derived " +:+ rt_name schema +:+ "." +:+ name +:+ ">"
  | V_Ok v => "Ok(" +:+ text v +:+ ")"
  | V_Err v => "Err(" +:+ text v +:+ ")"
  | V_EarlyReturn _ => "<early-return>"
  | V_Module _ _ => "<module>"
  | V_Handle k _ => handle_display k
  end.

(** ** Arithmetic *)

(** [checked_int] *)
Definition checked_int (value : option Z) (span : Span) : result NivError Value :=
  match value with
  | Some z => Ok (V_Int z)
  | None => Err (error_at "integer overflow" span)
  end.

(** [negate] *)
Definition negate (value : Value) (span : Span) : result NivError Value :=
  match value with
  | V_Int z => checked_int (checked i64_min i64_max (- z)) span
  | V_Float f => Ok (V_Float (f64_neg f))
  | V_BigInt z => Ok (V_BigInt (- z))
  | V_Decimal d =>
      V_Decimal <$> ok_or (error_at "decimal overflow" span) (decimal_sub decimal_zero d)
  | V_UInt _ | V_U128 _ =>
      Err (error_at "unsigned values have no negation; convert with std.uint.to_int first" span)
  | V_FixedInt i =>
      if kind_signed (fixed_kind i) then
        z ← ok_or (error_at "fixed-width integer overflow" span)
              (checked i128_min i128_max (- fixed_value i)%Z);
        match FixedInt_new (fixed_kind i) z with
        | Ok i => Ok (V_FixedInt i)
        | Err _ => Err (error_at "fixed-width integer overflow" span)
        end
      else Err (error_at ("expected a numeric value, found " +:+ type_name value) span)
  | other => Err (error_at ("expected a numeric value, found " +:+ type_name other) span)
  end.

(** The order operators, from a comparison. *)
Definition ordered (operator : TokenKind) (c : comparison) : option bool :=
  match operator with
  | Tk_Greater => Some (comparison_eqb c Gt)
  | Tk_GreaterEqual => Some (negb (comparison_eqb c Lt))
  | Tk_Less => Some (comparison_eqb c Lt)
  | Tk_LessEqual => Some (negb (comparison_eqb c Gt))
  | _ => None
  end.

(** [None] is [unreachable!()]. *)
Definition R := option (result NivError Value).

(** The operators shared by the integer types with range [lo, hi]: subtraction
    to order.  [inject] wraps a result that fits, [overflow] reports one that
    does not. *)
Definition integer_binary (lo hi : Z) (inject : Z → Value) (overflow : string)
    (a : Z) (operator : TokenKind) (b : Z) (span : Span) : R :=
  let fits z := match z with
    | Some z => Some (Ok (inject z))
    | None => Some (Err (error_at overflow span))
    end in
  match operator with
  | Tk_Minus => fits (checked lo hi (a - b)%Z)
  | Tk_Star => fits (checked lo hi (a * b)%Z)
  | Tk_Slash =>
      if Z.eqb b 0 then Some (Err (error_at "division by zero" span))
      else fits (checked lo hi (Z.quot a b))
  | Tk_Percent =>
      if Z.eqb b 0 then Some (Err (error_at "remainder by zero" span))
      else fits (checked_rem lo hi a b)
  | _ => r ← ordered operator (Z.compare a b); Some (Ok (V_Bool r))
  end.

(** [int_binary] *)
Definition int_binary : Z → TokenKind → Z → Span → R :=
  integer_binary i64_min i64_max V_Int "integer overflow".

(** [uint_binary] *)
Definition uint_binary (a : Z) (operator : TokenKind) (b : Z) (span : Span) : R :=
  match operator with
  | Tk_Plus => Some (V_UInt <$> ok_or (error_at "unsigned integer overflow" span)
                                 (checked 0 u64_top (a + b)))
  | _ => integer_binary 0 u64_top V_UInt "unsigned integer overflow" a operator b span
  end.

(** [u128_binary] *)
Definition u128_binary (a : Z) (operator : TokenKind) (b : Z) (span : Span) : R :=
  match operator with
  | Tk_Plus => Some (V_U128 <$> ok_or (error_at "unsigned integer overflow" span)
                                 (checked 0 u128_top (a + b)))
  | _ => integer_binary 0 u128_top V_U128 "unsigned integer overflow" a operator b span
  end.

(** [fixed_binary]: arithmetic in [i128], then the range of the kind. *)
Definition fixed_binary (a : FixedInt) (operator : TokenKind) (b : FixedInt) (span : Span) : R :=
  let overflow := error_at "fixed-width integer overflow" span in
  if negb (bool_decide (fixed_kind a = fixed_kind b)) then
    Some (Err (error_at ("fixed-width operands must match; found " +:+ kind_name (fixed_kind a)
                           +:+ " and " +:+ kind_name (fixed_kind b)) span))
  else
  let renew z := match FixedInt_new (fixed_kind a) z with
    | Ok i => Ok (V_FixedInt i)
    | Err _ => Err overflow
    end in
  match operator with
  | Tk_Plus =>
      Some (z ← ok_or overflow (checked i128_min i128_max (fixed_value a + fixed_value b)%Z);
            renew z)
  | _ =>
      r ← integer_binary i128_min i128_max (λ z, V_FixedInt (mkFixed (fixed_kind a) z))
            "fixed-width integer overflow" (fixed_value a) operator (fixed_value b) span;
      Some (match r with
            | Ok (V_FixedInt i) => renew (fixed_value i)
            | r => r
            end)
  end.

(** [float_binary] *)
Definition float_binary (a : f64) (operator : TokenKind) (b : f64) (span : Span) : R :=
  match operator with
  | Tk_Minus => Some (Ok (V_Float (f64_sub a b)))
  | Tk_Star => Some (Ok (V_Float (f64_mul a b)))
  | Tk_Slash =>
      if f64_is_zero b then Some (Err (error_at "division by zero" span))
      else Some (Ok (V_Float (f64_div a b)))
  | Tk_Percent =>
      if f64_is_zero b then Some (Err (error_at "remainder by zero" span))
      else Some (Ok (V_Float (f64_rem a b)))
  | _ =>
      r ← ordered operator Eq;
      match f64_compare a b with
      | Some c => r ← ordered operator c; Some (Ok (V_Bool r))
      | None => Some (Ok (V_Bool false))
      end
  end.

(** [bigint_binary] *)
Definition bigint_binary (a : Z) (operator : TokenKind) (b : Z) (span : Span) : R :=
  match operator with
  | Tk_Minus => Some (Ok (V_BigInt (a - b)))
  | Tk_Star => Some (Ok (V_BigInt (a * b)))
  | Tk_Slash =>
      if Z.eqb b 0 then Some (Err (error_at "division by zero" span))
      else Some (Ok (V_BigInt (Z.quot a b)))
  | Tk_Percent =>
      if Z.eqb b 0 then Some (Err (error_at "remainder by zero" span))
      else Some (Ok (V_BigInt (Z.rem a b)))
  | _ => r ← ordered operator (Z.compare a b); Some (Ok (V_Bool r))
  end.

(** [decimal_binary] *)
Definition decimal_binary (a : N) (operator : TokenKind) (b : N) (span : Span) : R :=
  let result o := Some (V_Decimal <$> ok_or (error_at "decimal overflow" span) o) in
  match operator with
  | Tk_Minus => result (decimal_sub a b)
  | Tk_Star => result (decimal_mul a b)
  | Tk_Slash =>
      if decimal_is_zero b then Some (Err (error_at "division by zero" span))
      else result (decimal_div a b)
  | Tk_Percent =>
      if decimal_is_zero b then Some (Err (error_at "remainder by zero" span))
      else result (decimal_rem a b)
  | _ => r ← ordered operator (decimal_compare a b); Some (Ok (V_Bool r))
  end.

(** [type_error] *)
Definition type_error (message : string) (a b : Value) (span : Span) : NivError :=
  error_at (message +:+ "; found " +:+ type_name a +:+ " and " +:+ type_name b) span.

(** [Interpreter::binary] *)
Definition binary (a : Value) (operator : TokenKind) (b : Value) (span : Span) : R :=
  match operator with
  | Tk_EqualEqual => Some (Ok (V_Bool (value_eq a b)))
  | Tk_BangEqual => Some (Ok (V_Bool (negb (value_eq a b))))
  | Tk_Plus =>
      match a, b with
      | V_Int a, V_Int b => Some (checked_int (checked i64_min i64_max (a + b)) span)
      | V_UInt a, V_UInt b => uint_binary a operator b span
      | V_U128 a, V_U128 b => u128_binary a operator b span
      | V_Float a, V_Float b => Some (Ok (V_Float (f64_add a b)))
      | V_BigInt a, V_BigInt b => Some (Ok (V_BigInt (a + b)))
      | V_Decimal a, V_Decimal b =>
          Some (V_Decimal <$> ok_or (error_at "decimal overflow" span) (decimal_add a b))
      | V_FixedInt a, V_FixedInt b => fixed_binary a operator b span
      | V_String a, V_String b => Some (Ok (V_String (a +:+ b)))
      | a, b =>
          Some (Err (type_error "'+' requires two Ints, two Floats, or two Strings" a b span))
      end
  | Tk_Minus | Tk_Star | Tk_Slash | Tk_Percent =>
      match a, b with
      | V_Int a, V_Int b => int_binary a operator b span
      | V_UInt a, V_UInt b => uint_binary a operator b span
      | V_U128 a, V_U128 b => u128_binary a operator b span
      | V_Float a, V_Float b => float_binary a operator b span
      | V_BigInt a, V_BigInt b => bigint_binary a operator b span
      | V_Decimal a, V_Decimal b => decimal_binary a operator b span
      | V_FixedInt a, V_FixedInt b => fixed_binary a operator b span
      | a, b =>
          Some (Err (type_error "numeric operator requires operands of the same numeric type"
                       a b span))
      end
  | Tk_Greater | Tk_GreaterEqual | Tk_Less | Tk_LessEqual =>
      match a, b with
      | V_Int a, V_Int b => int_binary a operator b span
      | V_UInt a, V_UInt b => uint_binary a operator b span
      | V_U128 a, V_U128 b => u128_binary a operator b span
      | V_Float a, V_Float b => float_binary a operator b span
      | V_BigInt a, V_BigInt b => bigint_binary a operator b span
      | V_Decimal a, V_Decimal b => decimal_binary a operator b span
      | V_FixedInt a, V_FixedInt b => fixed_binary a operator b span
      | V_DateTime a, V_DateTime b =>
          r ← ordered operator (datetime_compare a b); Some (Ok (V_Bool r))
      | a, b =>
          Some (Err (type_error "ordered comparison requires matching numeric or DateTime values"
                       a b span))
      end
  | _ => None
  end.

(** [vm_int_binary]: the machine's path for two [Int]s. *)
Definition vm_int_binary (a : Z) (operator : TokenKind) (b : Z) (span : Span) : R :=
  match operator with
  | Tk_Plus => Some (checked_int (checked i64_min i64_max (a + b)) span)
  | Tk_EqualEqual => Some (Ok (V_Bool (Z.eqb a b)))
  | Tk_BangEqual => Some (Ok (V_Bool (negb (Z.eqb a b))))
  | _ => int_binary a operator b span
  end.

(** [expect_bool] *)
Definition expect_bool (value : Value) (span : Span) : result NivError bool :=
  match value with
  | V_Bool b => Ok b
  | other => Err (error_at ("expected Bool, found " +:+ type_name other) span)
  end.

(** ** Access *)

(** [str::chars]: the UTF-8 sequences, split by their leading bytes. *)
Definition char_width (b : byte) : nat :=
  let n := Byte.to_N b in
  if n <? 0x80 then 1 else if n <? 0xE0 then 2 else if n <? 0xF0 then 3 else 4%nat.

Fixpoint utf8_chars (fuel : nat) (l : list byte) : list (list byte) :=
  match fuel, l with
  | S fuel, b :: _ =>
      take (char_width b) l :: utf8_chars fuel (drop (char_width b) l)
  | _, _ => []
  end.

Definition chars (s : string) : list string :=
  let l := string_bytes s in map string_of_bytes (utf8_chars (length l) l).

(** [expect_index] *)
Definition expect_index (value : Value) (span : Span) : result NivError N :=
  match value with
  | V_Int z =>
      if (0 <=? z)%Z then Ok (Z.to_N z)
      else Err (error_at "index must be non-negative" span)
  | other => Err (error_at ("index must be Int, found " +:+ type_name other) span)
  end.

Definition out_of_bounds (index length : N) (span : Span) : NivError :=
  error_at ("index " +:+ pretty index +:+ " is out of bounds for length " +:+ pretty length) span.

(** [index_value] *)
Definition index_value (collection : Value) (index : N) (span : Span) : result NivError Value :=
  match collection with
  | V_Array values =>
      ok_or (out_of_bounds index (len values) span) (values !! N.to_nat index)
  | V_String s =>
      V_String <$> ok_or (out_of_bounds index (len (chars s)) span) (chars s !! N.to_nat index)
  | other => Err (error_at (type_name other +:+ " cannot be indexed") span)
  end.

(** derive_methods.rs [METHODS], as (derive, name). *)
Definition METHODS : list (string * string) :=
  [("Json", "to_json"); ("Json", "from_json"); ("Compare", "compare");
   ("Display", "display"); ("Key", "key"); ("Validate", "validate");
   ("Binary", "to_binary"); ("Binary", "from_binary"); ("DatabaseRow", "from_row");
   ("Arguments", "from_arguments")].

(** [derive_methods::named] *)
Definition method_named (name : string) : option (string * string) :=
  List.find (λ m : string * string, bool_decide (snd m = name)) METHODS.

Definition contains (l : list string) (s : string) : bool := bool_decide (s ∈ l).

(** The linear scan of [get_value]. *)
Fixpoint first_field (fields : list (string * Value)) (name : string) : option Value :=
  match fields with
  | [] => None
  | (n, v) :: fields => if bool_decide (n = name) then Some v else first_field fields name
  end.

(** A map lookup ([field_indices], a module's members): collecting pairs into a
    map lets later entries shadow earlier ones. *)
Fixpoint member_get (members : list (string * Value)) (name : string) : option Value :=
  match members with
  | [] => None
  | (n, v) :: members =>
      match member_get members name with
      | Some v => Some v
      | None => if bool_decide (n = name) then Some v else None
      end
  end.

(** [get_value]; [ref] is the identity of a method or constructor value it
    allocates. *)
Definition get_value (ref : N) (object : Value) (name : string) (span : Span)
    : result NivError Value :=
  match object with
  | V_Record type_name fields =>
      ok_or (error_at (type_name +:+ " has no field '" +:+ name +:+ "'") span)
        (if len fields <=? 8 then first_field fields name else member_get fields name)
  | V_RecordType record =>
      match method_named name with
      | None =>
          Err (error_at (rt_name record +:+ " has no generated method '" +:+ name +:+ "'") span)
      | Some (derive, _) =>
          if contains (rt_derives record) derive then Ok (V_DerivedMethod ref record name)
          else Err (error_at (rt_name record +:+ " needs derive " +:+ derive
                                +:+ " for generated method '" +:+ name +:+ "'") span)
      end
  | V_EnumType t =>
      (if contains (et_variants t) name then
         if contains (et_payload_variants t) name
         then Ok (V_EnumConstructor ref (et_name t) name)
         else Ok (V_Enum (et_name t) name None)
       else Err (error_at (et_name t +:+ " has no variant '" +:+ name +:+ "'") span))
  | V_ProtocolType _ protocol members =>
      (if contains members name then Ok (V_ProtocolMethod ref protocol name)
       else Err (error_at (protocol +:+ " has no member '" +:+ name +:+ "'") span))
  | V_Module _ members =>
      (ok_or (error_at ("module has no exposed member '" +:+ name +:+ "'") span)
         (member_get members name))
  | other => Err (error_at (type_name other +:+ " has no fields") span)
  end.

(** ** Size *)

Definition HANDLE_BYTES : N := 64.
Definition MAXIMUM_VALUE_DEPTH : nat := 1024.

(** [iter().try_fold(init, |total, value| ...)] with saturating sums. *)
Definition sum_bytes (init : N) (sizes : list (option N)) : option N :=
  foldl (λ total size, t ← total; s ← size; Some (saturating_add_u64 t s)) (Some init) sizes.

(** [estimated_value_bytes_within], with the remaining room
    [MAXIMUM_VALUE_DEPTH + 1 - depth]. *)
Fixpoint value_bytes (room : nat) (v : Value) {struct v} : option N :=
  match room with
  | O => None
  | S room =>
    let nested := value_bytes room in
    match v with
    | V_Int _ | V_UInt _ | V_U128 _ | V_Float _ | V_Bool _ | V_Null | V_Decimal _
    | V_FixedInt _ => Some 16
    | V_Enum _ _ (Some payload) => b ← nested payload; Some (saturating_add_u64 16 b)
    | V_Enum _ _ None => Some 16
    | V_BigInt z => Some (saturating_add_u64 24 (str_len (pretty z)))
    | V_String s => Some (saturating_add_u64 24 (str_len s))
    | V_Bytes bytes => Some (saturating_add_u64 24 (len bytes))
    | V_Array values | V_Set values => sum_bytes 24 (map nested values)
    | V_Map entries =>
        sum_bytes 24 (flat_map (λ '(k, v), [nested k; nested v]) entries)
    | V_Record _ fields =>
        sum_bytes 32 (flat_map (λ '(n, v), [Some (str_len n); nested v]) fields)
    | V_Ok v | V_Err v | V_EarlyReturn v => b ← nested v; Some (saturating_add_u64 16 b)
    | V_Handle k ref =>
        match k with
        | H_Lock | H_Iterator | H_Transaction => handle_bytes k ref room
        | _ => Some HANDLE_BYTES
        end
    | _ => Some HANDLE_BYTES
    end
  end.
End operations.
