(* ===== verification/ValuesOk.v ===== *)
(** * Arithmetic is checked

    Results of the machine's arithmetic are the exact mathematical ones or a
    typed error: nothing wraps, nothing leaves the range of its type, and the
    path the machine takes for two [Int]s agrees with the general one. *)
From S2P Require Import Prelude Ast Bytecode Verifier Values.

Section arithmetic.
Context `{Foreign}.

(** ** Every valid operator is handled *)

Lemma integer_binary_total lo hi inject overflow a o b span :
  is_binary_operator o = true → o ≠ Tk_Plus → o ≠ Tk_EqualEqual → o ≠ Tk_BangEqual →
  is_Some (integer_binary lo hi inject overflow a o b span).
Proof.
  destruct o; try done; intros _ ???; unfold integer_binary; cbn [ordered]; cbv zeta;
    repeat first [by eexists | case_match].
Qed.

(** A valid binary operator always has a result or a typed error. *)
Lemma binary_total a o b span : is_binary_operator o = true → is_Some (binary a o b span).
Proof.
  destruct o; try done; intros _; cbn [binary]; try by eexists.
  all: destruct a; try (by eexists); destruct b; try (by eexists);
    unfold int_binary, uint_binary, u128_binary, fixed_binary, float_binary, bigint_binary,
      decimal_binary, integer_binary; cbn [ordered]; cbv zeta;
    repeat first [by eexists | case_match | progress cbn [mbind option_bind]].
Qed.

Lemma vm_int_binary_total a o b span :
  is_binary_operator o = true → is_Some (vm_int_binary a o b span).
Proof.
  destruct o; try done; intros _; unfold vm_int_binary, int_binary, integer_binary;
    cbn [ordered]; cbv zeta; repeat first [by eexists | case_match].
Qed.

(** ** Ranges *)

(** The machine integers of a value are within their types. *)
Definition in_range (v : Value) : bool :=
  match v with
  | V_Int z => (i64_min <=? z)%Z && (z <=? i64_max)%Z
  | V_UInt z => (0 <=? z)%Z && (z <=? u64_top)%Z
  | V_U128 z => (0 <=? z)%Z && (z <=? u128_top)%Z
  | V_FixedInt i =>
      (kind_minimum (fixed_kind i) <=? fixed_value i)%Z
      && (fixed_value i <=? kind_maximum (fixed_kind i))%Z
  | _ => true
  end.

Lemma checked_Some lo hi z r : checked lo hi z = Some r → r = z ∧ (lo ≤ z ≤ hi)%Z.
Proof using Type. unfold checked. case_match eqn:E; [|done]. intros [= <-]. split; [done|lia]. Qed.

(** The remainder of operands in a type's range is in it. *)
Lemma checked_rem_Some lo hi a b r :
  (lo ≤ 0 ≤ hi)%Z → (lo ≤ a ≤ hi)%Z → b ≠ 0%Z → checked_rem lo hi a b = Some r →
  r = Z.rem a b ∧ (lo ≤ r ≤ hi)%Z.
Proof using Type.
  intros H0 Ha Hb. unfold checked_rem. destruct (checked _ _ _); [|done]. intros [= <-].
  split; [done|]. destruct (Z.le_gt_cases 0 a).
  - pose proof (Z.rem_nonneg a b Hb). pose proof (Z.rem_le a b). 
    destruct (Z.lt_total b 0) as [?|[?|?]]; [|lia|].
    + rewrite <- Z.rem_opp_r in * by done. pose proof (Z.rem_le a (- b)). lia.
    + lia.
  - assert (Z.rem a b = - Z.rem (- a) b)%Z as -> by (rewrite Z.rem_opp_l by done; lia).
    pose proof (Z.rem_nonneg (- a) b Hb).
    destruct (Z.lt_total b 0) as [?|[?|?]]; [|lia|].
    + rewrite <- (Z.rem_opp_r (- a)) in * by done. pose proof (Z.rem_le (- a) (- b)). lia.
    + pose proof (Z.rem_le (- a) b). lia.
Qed.

Lemma integer_binary_range lo hi inject overflow a o b span v :
  (lo ≤ 0 ≤ hi)%Z → (lo ≤ a ≤ hi)%Z →
  integer_binary lo hi inject overflow a o b span = Some (Ok v) →
  (∃ z, v = inject z ∧ (lo ≤ z ≤ hi)%Z) ∨ ∃ r, v = V_Bool r.
Proof using Type.
  intros H0 Ha. unfold integer_binary.
  destruct o; cbv zeta; try done;
    repeat match goal with
      | |- context [Z.eqb ?x ?y] => destruct (Z.eqb_spec x y); [done|]
      | |- context [checked ?l ?h ?z] =>
          destruct (checked l h z) eqn:E; [apply checked_Some in E as [-> ?]|done]
      | |- context [checked_rem ?l ?h ?x ?y] =>
          destruct (checked_rem l h x y) eqn:E;
          [apply checked_rem_Some in E as [-> ?]; [|done..]|done]
      end;
    cbn [ordered mbind option_bind]; intros [= <-]; eauto.
Qed.

Lemma renew_range k z v span :
  match FixedInt_new k z with
  | Ok i => Ok (V_FixedInt i)
  | Err _ => Err (error_at "fixed-width integer overflow" span)
  end = Ok v → in_range v = true.
Proof using Type.
  unfold FixedInt_new. case_match eqn:E; [case_match eqn:E2; [done|]|case_match; done].
  simplify_eq. intros [= <-]. cbn. lia.
Qed.

Lemma fixed_range a o b span v :
  in_range (V_FixedInt a) = true → fixed_binary a o b span = Some (Ok v) → in_range v = true.
Proof using Type.
  intros Ha. unfold fixed_binary. case_match; [done|]. cbv zeta.
  assert (∀ r : R,
    (r ← r; Some (match r with
       | Ok (V_FixedInt i) =>
           match FixedInt_new (fixed_kind a) (fixed_value i) with
           | Ok i => Ok (V_FixedInt i)
           | Err _ => Err (error_at "fixed-width integer overflow" span)
           end
       | r => r end)) = Some (Ok v) →
    (∀ w, r = Some (Ok w) → ∃ i r', w = V_FixedInt i ∨ w = V_Bool r') → in_range v = true) as Hr.
  { intros [[w|e]|]; [|done..]. cbn [mbind option_bind]. intros Hv Hw.
    destruct (Hw w eq_refl) as (i & r' & [->| ->]); [|by simplify_eq].
    injection Hv as Hv. by apply renew_range in Hv. }
  destruct o; try (intros Hv; eapply Hr; [exact Hv|]; intros w Hw;
    apply integer_binary_range in Hw as [(z & -> & _)|[r' ->]];
    [by eexists (mkFixed (fixed_kind a) z), true; left
    |by eexists (mkFixed (fixed_kind a) 0), r'; right
    |unfold i128_min, i128_max; lia
    |cbn in Ha; destruct (fixed_kind a); cbn in Ha; unfold i128_min, i128_max in *; lia]).
  destruct (checked _ _ _); [|done]. cbn [ok_or mbind result_bind]. intros [= Hv].
  by apply renew_range in Hv.
Qed.

Lemma unsigned_range inject hi overflow a o b span v :
  (0 ≤ hi)%Z → (0 ≤ a ≤ hi)%Z → (∀ z, (0 ≤ z ≤ hi)%Z → in_range (inject z) = true) →
  match o with
  | Tk_Plus => Some (inject <$> ok_or (error_at overflow span) (checked 0 hi (a + b)))
  | _ => integer_binary 0 hi inject overflow a o b span
  end = Some (Ok v) → in_range v = true.
Proof using Type.
  intros Hhi Ha Hin.
  assert (integer_binary 0 hi inject overflow a o b span = Some (Ok v) → in_range v = true) as Hi.
  { intros Hv. apply integer_binary_range in Hv as [(z & -> & Hz)|[r ->]]; auto with lia. }
  destruct o; try exact Hi. destruct (checked _ _ _) eqn:E; [|done].
  apply checked_Some in E as [-> ?]. intros [= <-]. auto.
Qed.

Lemma int_range a o b span v :
  in_range (V_Int a) = true → vm_int_binary a o b span = Some (Ok v) → in_range v = true.
Proof using Type.
  intros Ha. cbn in Ha.
  assert (int_binary a o b span = Some (Ok v) → in_range v = true) as Hi.
  { intros Hv. apply integer_binary_range in Hv as [(z & -> & Hz)|[r ->]]; cbn;
      unfold i64_min, i64_max in *; lia || done. }
  destruct o; try exact Hi; cbn [vm_int_binary]; try (by intros [= <-]).
  destruct (checked _ _ _) eqn:E; [|done]. apply checked_Some in E as [-> ?].
  intros [= <-]. cbn. lia.
Qed.

(** The machine's path for two [Int]s. *)
Lemma binary_int a o b span :
  is_binary_operator o = true → binary (V_Int a) o (V_Int b) span = vm_int_binary a o b span.
Proof using Type. by destruct o. Qed.

Lemma binary_operator a o b span : is_Some (binary a o b span) → is_binary_operator o = true.
Proof using Type. destruct o; try done; cbn; intros []; done. Qed.

Lemma bool_range (o : option bool) v :
  (r ← o; Some (Ok (V_Bool r))) = Some (@Ok NivError _ v) → in_range v = true.
Proof using Type. destruct o; [|done]. by intros [= <-]. Qed.

(** Results that are not machine integers. *)
Definition unranged (v : Value) : bool :=
  match v with V_Int _ | V_UInt _ | V_U128 _ | V_FixedInt _ => false | _ => true end.
Lemma unranged_range v : unranged v = true → in_range v = true.
Proof using Type. by destruct v. Qed.

(** Nothing wraps: when the operands of a binary operator are within the
    ranges of their integer types, 64-bit, unsigned, 128-bit or fixed-width, so
    is the result; an operation that would leave the range is an error. *)
Theorem binary_in_range a o b span v :
  in_range a = true → in_range b = true → binary a o b span = Some (Ok v) → in_range v = true.
Proof using Type.
  intros Ha _ Hv.
  assert (is_binary_operator o = true) as Ho by (eapply binary_operator; by eexists).
  assert (∀ x y, a = V_Int x → b = V_Int y → in_range v = true) as HInt.
  { intros x y -> ->. rewrite binary_int in Hv by done. by eapply int_range. }
  assert (∀ x y, a = V_UInt x → b = V_UInt y → uint_binary x o y span = Some (Ok v) →
    in_range v = true) as HUInt.
  { intros x y -> -> E. eapply unsigned_range; [..|exact E]; cbn in *;
      unfold u64_top in *; lia. }
  assert (∀ x y, a = V_U128 x → b = V_U128 y → u128_binary x o y span = Some (Ok v) →
    in_range v = true) as HU128.
  { intros x y -> -> E. eapply unsigned_range; [..|exact E]; cbn in *;
      unfold u128_top in *; lia. }
  assert (∀ x y, a = V_FixedInt x → b = V_FixedInt y → fixed_binary x o y span = Some (Ok v) →
    in_range v = true) as HFixed.
  { intros x y -> -> E. by eapply fixed_range. }
  destruct o; try done; cbn [binary] in Hv; try (by injection Hv as <-).
  all: destruct a; try discriminate Hv; destruct b; try discriminate Hv; eauto.
  all: apply unranged_range; revert Hv;
    unfold float_binary, bigint_binary, decimal_binary, ok_or; cbn [ordered mbind option_bind];
    repeat case_match; intros; simplify_eq/=; done.
Qed.

(** The machine's path for two [Int]s computes what the general operator of
    the tree interpreter computes, results and errors alike, for every operator
    the verifier lets through, and it is defined for each of them. *)
Theorem int_fast_path a o b span :
  is_binary_operator o = true →
  binary (V_Int a) o (V_Int b) span = vm_int_binary a o b span ∧
  is_Some (vm_int_binary a o b span).
Proof using Type. intros Ho. split; [by apply binary_int|by apply vm_int_binary_total]. Qed.

(** Division and remainder agree: they are defined for the same operands,
    and then the quotient times the divisor plus the remainder is the dividend,
    the remainder is smaller than the divisor and has the dividend's sign. *)
Theorem division_remainder a b span q :
  vm_int_binary a Tk_Slash b span = Some (Ok (V_Int q)) →
  ∃ r, vm_int_binary a Tk_Percent b span = Some (Ok (V_Int r)) ∧
    (a = q * b + r ∧ Z.abs r < Z.abs b ∧ 0 ≤ r * a)%Z.
Proof using Type.
  unfold vm_int_binary, int_binary, integer_binary, checked_rem. cbv zeta.
  destruct (Z.eqb_spec b 0); [done|].
  destruct (checked _ _ (Z.quot a b)) eqn:E; [|done]. apply checked_Some in E as [-> _].
  intros [= <-]. exists (Z.rem a b). split; [done|]. split_and!.
  - pose proof (Z.quot_rem' a b). lia.
  - by apply Z.rem_bound_abs.
  - by apply Z.rem_sign_mul.
Qed.
End arithmetic.

(** Natural numbers in place of the third-party types, to run the operations. *)
Definition plain_foreign : Foreign := {|
  decimal_compare := N.compare;
  decimal_is_zero := λ d, d =? 0;
  decimal_add := λ a b, Some (a + b);
  decimal_sub := λ a b, if b <=? a then Some (a - b) else None;
  decimal_mul := λ a b, Some (a * b);
  decimal_div := λ a b, if b =? 0 then None else Some (a / b);
  decimal_rem := λ a b, if b =? 0 then None else Some (a mod b);
  decimal_zero := 0;
  decimal_display := λ d, pretty d;
  datetime_equal := N.eqb;
  datetime_compare := N.compare;
  datetime_display := λ d, pretty d;
  float_display := λ _, "float";
  handle_bytes := λ _ _ _, Some 1 |}.

Lemma int_fast_path_witness :
  @binary plain_foreign (V_Int i64_max) Tk_Plus (V_Int 1) (mkSpan 1 1) =
  vm_int_binary i64_max Tk_Plus 1 (mkSpan 1 1).
Proof. apply (@int_fast_path plain_foreign i64_max Tk_Plus 1 (mkSpan 1 1)). reflexivity. Defined.

Lemma binary_in_range_witness : in_range (V_FixedInt (mkFixed FK_U8 255)) = true.
Proof.
  apply (@binary_in_range plain_foreign (V_FixedInt (mkFixed FK_U8 200)) Tk_Plus
           (V_FixedInt (mkFixed FK_U8 55)) (mkSpan 1 1)); reflexivity.
Defined.

Lemma division_remainder_witness :
  ∃ r, vm_int_binary (-7) Tk_Percent 2 (mkSpan 1 1) = Some (Ok (V_Int r)) ∧
    (-7 = -3 * 2 + r ∧ Z.abs r < Z.abs 2 ∧ 0 ≤ r * -7)%Z.
Proof. apply (division_remainder (-7) 2 (mkSpan 1 1) (-3)). reflexivity. Defined.
