(* ===== verification/Gate.v ===== *)
(** * The capability gate

    Which effects a program may perform: the scopes a project grants
    (src/src/runtime.rs: [authorize_scope], [network_scope_allows],
    [process_scope_allows], [host_is_within], [parse_http_url]).  Whether a
    path lies under a granted directory depends on the file system
    ([canonicalize]) and is a parameter, [path_is_within]. *)
From Stdlib Require Import Ascii.
From S2P Require Import Prelude Ast Bytecode Values.
Open Scope N_scope.
Open Scope list_scope.

(** ** Text *)

(** [s.strip_prefix(p)] *)
Fixpoint strip_prefix (p s : string) : option string :=
  match p, s with
  | EmptyString, s => Some s
  | String a p, String b s => if Ascii.eqb a b then strip_prefix p s else None
  | String _ _, EmptyString => None
  end.

Definition starts_with (p s : string) : bool := bool_decide (is_Some (strip_prefix p s)).

(** [s.ends_with(p)] *)
Fixpoint ends_with (p s : string) : bool :=
  String.eqb p s || match s with EmptyString => false | String _ s => ends_with p s end.

(** [s.split(c)] *)
Fixpoint split (c : Ascii.ascii) (s : string) : list string :=
  match s with
  | EmptyString => [""]
  | String a s =>
      match split c s with
      | [] => []
      | w :: ws => if Ascii.eqb a c then "" :: w :: ws else String a w :: ws
      end
  end.

(** [s.split_once(c)] *)
Fixpoint split_once (c : Ascii.ascii) (s : string) : option (string * string) :=
  match s with
  | EmptyString => None
  | String a s =>
      if Ascii.eqb a c then Some ("", s)
      else '(w, rest) ← split_once c s; Some (String a w, rest)
  end.

(** [s.rsplit_once(c)] *)
Fixpoint rsplit_once (c : Ascii.ascii) (s : string) : option (string * string) :=
  match s with
  | EmptyString => None
  | String a s =>
      match rsplit_once c s with
      | Some (w, rest) => Some (String a w, rest)
      | None => if Ascii.eqb a c then Some ("", s) else None
      end
  end.

(** [s.contains(c)] *)
Fixpoint has_char (c : Ascii.ascii) (s : string) : bool :=
  match s with
  | EmptyString => false
  | String a s => Ascii.eqb a c || has_char c s
  end.

Definition ascii_lower (a : Ascii.ascii) : Ascii.ascii :=
  let n := Ascii.N_of_ascii a in
  if (65 <=? n) && (n <=? 90) then Ascii.ascii_of_N (n + 32) else a.

(** [s.to_ascii_lowercase()] *)
Fixpoint lowercase (s : string) : string :=
  match s with
  | EmptyString => EmptyString
  | String a s => String (ascii_lower a) (lowercase s)
  end.

Definition eq_ignore_ascii_case (a b : string) : bool :=
  bool_decide (lowercase a = lowercase b).

Definition only_dots (s : string) : bool :=
  forallb (λ b, bool_decide (b = x2e)) (string_bytes s).

(** [s.trim_end_matches('.')] *)
Fixpoint trim_end_dots (s : string) : string :=
  if only_dots s then ""
  else match s with EmptyString => "" | String a s => String a (trim_end_dots s) end.

(** ** URLs *)

(** [parse::<u16>]: an optional sign and at least one digit, in range. *)
Fixpoint digits (acc : N) (s : string) : option N :=
  match s with
  | EmptyString => Some acc
  | String a s =>
      let n := Ascii.N_of_ascii a in
      if (48 <=? n) && (n <=? 57) then
        let acc := acc * 10 + (n - 48) in
        if acc <=? u16_max then digits acc s else None
      else None
  end.

(** [parse_url_port] *)
Definition parse_url_port (value : string) : result string N :=
  let body := default value (strip_prefix "+" value) in
  match body with
  | EmptyString => Err "URL port must be from 0 through 65535"
  | _ => ok_or "URL port must be from 0 through 65535" (digits 0 body)
  end.

Record HttpUrl := mkUrl { url_tls : bool; url_host : string; url_port : N; url_target : string }.

(** [char::is_whitespace], on the UTF-8 bytes of one character. *)
Definition is_whitespace (c : list byte) : bool :=
  match map Byte.to_N c with
  | [n] => ((9 <=? n) && (n <=? 13)) || (n =? 32)
  | [0xC2; n] => (n =? 0x85) || (n =? 0xA0)
  | [0xE1; 0x9A; 0x80] => true
  | [0xE2; 0x80; n] =>
      ((0x80 <=? n) && (n <=? 0x8A)) || (n =? 0xA8) || (n =? 0xA9) || (n =? 0xAF)
  | [0xE2; 0x81; 0x9F] => true
  | [0xE3; 0x80; 0x80] => true
  | _ => false
  end.

Definition has_whitespace (s : string) : bool :=
  let l := string_bytes s in existsb is_whitespace (utf8_chars (length l) l).

(** The host and port of an authority. *)
Definition parse_authority (authority : string) (default_port : N) : result string (string * N) :=
  match strip_prefix "[" authority with
  | Some bracketed =>
      '(host, suffix) ← ok_or "unterminated IPv6 URL host" (split_once "]"%char bracketed);
      match suffix with
      | EmptyString => Ok (host, default_port)
      | _ =>
          digits ← ok_or "invalid IPv6 URL authority" (strip_prefix ":" suffix);
          port ← parse_url_port digits;
          Ok (host, port)
      end
  | None =>
      match rsplit_once ":"%char authority with
      | Some (host, port) =>
          if has_char ":"%char host then Err "IPv6 URL hosts must use brackets"
          else port ← parse_url_port port; Ok (host, port)
      | None => Ok (authority, default_port)
      end
  end.

(** [parse_http_url] *)
Definition parse_http_url (value : string) : result string HttpUrl :=
  '(tls, rest, default_port) ←
    match strip_prefix "https://" value with
    | Some rest => Ok (true, rest, 443)
    | None =>
        match strip_prefix "http://" value with
        | Some rest => Ok (false, rest, 80)
        | None => Err "URL must begin with http:// or https://"
        end
    end;
  if existsb (λ c, has_char c rest)
       [Ascii.ascii_of_N 13; Ascii.ascii_of_N 10; "#"%char; "@"%char]
  then Err "URL contains a forbidden authority or control character" else
  let '(authority, target) :=
    match split_once "/"%char rest with
    | Some (authority, path) => (authority, "/" +:+ path)
    | None => (rest, "/")
    end in
  if bool_decide (authority = "") then Err "URL host cannot be empty" else
  '(host, port) ← parse_authority authority default_port;
  if bool_decide (host = "") || has_whitespace host then Err "invalid URL host"
  else Ok (mkUrl tls host port target).

(** ** Scopes *)

(** The host a scope is compared with. *)
Definition target_host (target : string) : option string :=
  if starts_with "http://" target || starts_with "https://" target then
    match parse_http_url target with Ok url => Some (url_host url) | Err _ => None end
  else Some target.

(** [host_is_within] *)
Definition host_is_within (target scope : string) : bool :=
  match target_host target with
  | None => false
  | Some target =>
      let target := lowercase (trim_end_dots target) in
      let scope := lowercase (trim_end_dots scope) in
      match strip_prefix "*." scope with
      | Some suffix =>
          negb (bool_decide (target = suffix)) && ends_with ("." +:+ suffix) target
      | None => bool_decide (target = scope)
      end
  end.

(** [Option::is_some_and] *)
Definition is_some_and {A} (o : option A) (p : A → bool) : bool :=
  match o with Some a => p a | None => false end.

(** [network_scope_allows] *)
Definition network_scope_allows (scope target : string) (method : option string) : bool :=
  forallb (λ clause,
    is_some_and (strip_prefix "host:" clause)
      (λ choices, existsb (host_is_within target) (split ","%char choices))
    || is_some_and (strip_prefix "method:" clause)
         (λ choices, is_some_and method
            (λ method, existsb (λ choice, eq_ignore_ascii_case choice method)
                         (split ","%char choices))))
    (split ";"%char scope).

(** [process_scope_allows] *)
Definition process_scope_allows (scope command : string) (first_argument : option string) : bool :=
  forallb (λ clause,
    is_some_and (strip_prefix "command:" clause)
      (λ choices, existsb (λ choice, bool_decide (choice = command)) (split ","%char choices))
    || is_some_and (strip_prefix "arg0:" clause)
         (λ choices, is_some_and first_argument
            (λ argument, existsb (λ choice, bool_decide (choice = argument))
                           (split ","%char choices))))
    (split ";"%char scope).

Section gate.
(** The file-system check of a target path against a granted directory. *)
Variable path_is_within : string → string → bool.

(** The text argument at a position. *)
Definition string_argument (arguments : list Value) (index : nat) : option string :=
  match arguments !! index with Some (V_String s) => Some s | _ => None end.

Definition is_network_handle (v : option Value) : bool :=
  match v with
  | Some (V_Handle k _) =>
      match k with
      | H_TcpListener | H_TlsListener | H_TcpStream | H_TlsStream | H_WebSocket => true
      | _ => false
      end
  | _ => false
  end.

(** The decision of [authorize_scope] for a granted scope. *)
Definition scope_allows (scope capability operation : string) (arguments : list Value) : bool :=
  let first := head arguments in
  let under_path target :=
    is_some_and (strip_prefix "path:" scope) (λ scope, path_is_within target scope) in
  if bool_decide (capability = "FileRead") || bool_decide (capability = "FileWrite") then
    match first with
    | Some (V_String target) => under_path target
    | Some (V_Handle H_File _) => true
    | _ => false
    end
  else if bool_decide (capability = "Network") then
    if is_network_handle first then true else
    let '(target, method) :=
      if bool_decide (operation = "get") then (string_argument arguments 0, Some "GET")
      else if bool_decide (operation = "request")
      then (string_argument arguments 1, string_argument arguments 0)
      else (string_argument arguments 0, None) in
    is_some_and target (λ target, network_scope_allows scope target method)
  else if bool_decide (capability = "Environment") then
    match first with
    | Some (V_String target) =>
        bool_decide (strip_prefix "name:" scope = Some target)
        || is_some_and (strip_prefix "prefix:" scope) (λ prefix, starts_with prefix target)
    | _ => false
    end
  else if bool_decide (capability = "Process") then
    match first with
    | Some (V_String target) =>
        let first_argument :=
          match arguments !! 1%nat with
          | Some (V_Array (V_String value :: _)) => Some value
          | _ => None
          end in
        process_scope_allows scope target first_argument
    | _ => false
    end
  else if bool_decide (capability = "Native") then
    match first with
    | Some (V_String target) =>
        if bool_decide (operation = "open") then under_path target
        else is_some_and (strip_prefix "kind:" scope)
               (λ kind, bool_decide (kind = "*") || bool_decide (kind = target))
    | Some (V_Handle H_NativeHandle _) | Some (V_Handle H_NativeLibrary _) => true
    | _ => false
    end
  else false.

(** [authorize_scope] *)
Definition authorize_scope (capability_scopes : gmap string string)
    (capability operation : string) (arguments : list Value) (span : Span)
    : result NivError unit :=
  match capability_scopes !! capability with
  | None => Ok tt
  | Some scope =>
      if scope_allows scope capability operation arguments then Ok tt
      else Err (error_at ("this " +:+ capability +:+ " operation is outside the project grant '"
                            +:+ scope +:+ "'") span)
  end.
End gate.

Example scope_wildcard :
  network_scope_allows "host:*.example.com,api.test;method:get,POST" "https://a.example.com:8443/x"
    (Some "post") = true ∧
  network_scope_allows "host:*.example.com" "https://example.com/" (Some "GET") = false ∧
  network_scope_allows "host:*.example.com" "https://evilexample.com/" (Some "GET") = false.
Proof. vm_compute. auto. Qed.
