(* ===== verification/GateOk.v ===== *)
(** * The gate admits what the grant says

    A wildcard host admits subdomains only, a URL that parses has the host an
    HTTP client connects to (no user info, no path or fragment in it, a port in
    range), and a scope is a conjunction of clauses: what it admits is admitted
    by each of them alone. *)
From Stdlib Require Import Ascii.
From S2P Require Import Prelude Ast Bytecode Values Gate.
Open Scope N_scope.
Open Scope list_scope.

(** ** Text *)

Lemma append_cons a s t : String a s +:+ t = String a (s +:+ t).
Proof. done. Qed.
Lemma append_nil t : "" +:+ t = t.
Proof. done. Qed.

Lemma strip_prefix_Some p s r : strip_prefix p s = Some r ↔ s = p +:+ r.
Proof.
  revert s. induction p as [|a p IH]; intros s; cbn [strip_prefix]; rewrite ?append_nil, ?append_cons.
  - split; [by intros [= ->]|by intros ->].
  - destruct s as [|b s]; [done|]. destruct (Ascii.eqb_spec a b) as [->|Hne].
    + rewrite IH. split; [by intros ->|by intros [= ->]].
    + split; [done|]. by intros [= ??].
Qed.

Lemma append_empty s : s +:+ "" = s.
Proof. induction s as [|a s IH]; [done|]. by rewrite append_cons, IH. Qed.

Lemma ends_with_Some p s : ends_with p s = true → ∃ l, s = l +:+ p.
Proof.
  induction s as [|a s IH]; cbn [ends_with]; intros [H%String.eqb_eq|H]%orb_true_iff; subst;
    try done; try by exists "".
  destruct (IH H) as [l ->]. by exists (String a l).
Qed.

Lemma has_char_app c s t : has_char c (s +:+ t) = has_char c s || has_char c t.
Proof.
  induction s as [|a s IH]; [done|]. rewrite append_cons. cbn [has_char]. by rewrite IH, orb_assoc.
Qed.

Lemma split_once_Some c s w r :
  split_once c s = Some (w, r) → s = w +:+ String c r ∧ has_char c w = false.
Proof.
  revert w. induction s as [|a s IH]; intros w; [done|]. cbn [split_once].
  destruct (Ascii.eqb_spec a c) as [->|Hne]; [by intros [= <- <-]|].
  destruct (split_once c s) as [[w' r']|]; [|done]. intros [= <- <-].
  destruct (IH w' eq_refl) as [-> Hw]. split; [done|]. cbn. rewrite Hw, orb_false_r.
  by destruct (Ascii.eqb_spec a c).
Qed.

Lemma split_once_None c s : split_once c s = None → has_char c s = false.
Proof.
  induction s as [|a s IH]; [done|]. cbn [split_once has_char].
  destruct (Ascii.eqb a c); [done|]. destruct (split_once c s) as [[]|]; auto; done.
Qed.

Lemma rsplit_once_Some c s w r : rsplit_once c s = Some (w, r) → s = w +:+ String c r.
Proof.
  revert w. induction s as [|a s IH]; intros w; [done|]. cbn [rsplit_once].
  destruct (rsplit_once c s) as [[w' r']|].
  - intros [= <- <-]. by rewrite (IH w' eq_refl).
  - destruct (Ascii.eqb_spec a c) as [->|]; [|done]. by intros [= <- <-].
Qed.

(** ** Ports *)

Lemma digits_bound acc s n : acc ≤ u16_max → digits acc s = Some n → n ≤ u16_max.
Proof.
  revert acc. induction s as [|a s IH]; intros acc Hacc; cbn [digits]; [by intros [= <-]|].
  case_match; [|done]. destruct (N.leb_spec (acc * 10 + (Ascii.N_of_ascii a - 48)) u16_max);
    [|done]. by apply IH.
Qed.

Lemma parse_url_port_bound value n : parse_url_port value = Ok n → n ≤ u16_max.
Proof.
  unfold parse_url_port. destruct (default _ _) as [|a s]; [done|].
  destruct (digits 0 _) as [n'|] eqn:E; [|done]. intros [= <-].
  eapply digits_bound; [|exact E]. done.
Qed.

(** How an authority spells a host. *)
Definition spells (authority host : string) : Prop :=
  authority = host ∨ (∃ port, authority = host +:+ ":" +:+ port) ∨
  ∃ rest, authority = "[" +:+ host +:+ "]" +:+ rest.

Lemma parse_authority_Ok authority default_port host port :
  default_port ≤ u16_max → parse_authority authority default_port = Ok (host, port) →
  port ≤ u16_max ∧ spells authority host.
Proof.
  intros Hd. unfold parse_authority. destruct (strip_prefix "[" authority) as [br|] eqn:Eb.
  - apply strip_prefix_Some in Eb as ->.
    destruct (split_once "]" br) as [[h suffix]|] eqn:Es; [|done].
    apply split_once_Some in Es as [-> _]. cbn [ok_or mbind result_bind].
    destruct suffix as [|a suffix].
    + intros [= <- <-]. split; [done|]. right. right. by exists "".
    + destruct (strip_prefix ":" _) as [ds|]; [|done]. cbn [ok_or mbind result_bind].
      destruct (parse_url_port ds) as [p|] eqn:Ep; [|done]. intros [= <- <-].
      split; [by eapply parse_url_port_bound|]. right. right. by eexists.
  - destruct (rsplit_once ":" authority) as [[h p]|] eqn:Es.
    + apply rsplit_once_Some in Es as ->. destruct (has_char _ _); [done|].
      destruct (parse_url_port p) as [n|] eqn:Ep; [|done]. intros [= <- <-].
      split; [by eapply parse_url_port_bound|]. right. left. by eexists.
    + intros [= <- <-]. split; [done|by left].
Qed.

Lemma spells_has_char c authority host :
  spells authority host → has_char c authority = false → has_char c host = false.
Proof.
  intros [->|[[p ->]|[r ->]]]; rewrite ?has_char_app, ?orb_false_iff; naive_solver.
Qed.

(** A URL that parses names the host the client connects to: the text is the
    scheme, an authority and the target; the authority has no slash, no user
    info and no fragment and spells the reported host, which is not empty and
    has none of them either; the port fits 16 bits; and the target starts with
    a slash. *)
Theorem parse_http_url_host value url :
  parse_http_url value = Ok url →
  ∃ authority tail,
    value = (if url_tls url then "https://" else "http://") +:+ authority +:+ tail ∧
    spells authority (url_host url) ∧ url_host url ≠ "" ∧ url_port url ≤ u16_max ∧
    (tail = url_target url ∨ tail = "" ∧ url_target url = "/") ∧
    (∃ path, url_target url = "/" +:+ path) ∧
    ∀ c, In c ["/"; "@"; "#"; Ascii.ascii_of_N 13; Ascii.ascii_of_N 10]%char →
      has_char c (url_host url) = false.
Proof.
  unfold parse_http_url.
  assert (∀ r, match strip_prefix "https://" value with
     | Some rest => Ok (true, rest, 443)
     | None => match strip_prefix "http://" value with
               | Some rest => Ok (false, rest, 80)
               | None => Err "URL must begin with http:// or https://"
               end
     end = Ok r → r.2 ≤ u16_max ∧
       value = (if r.1.1 : bool then "https://" else "http://") +:+ r.1.2) as Hs.
  { intros r. destruct (strip_prefix "https://" value) as [rest|] eqn:E1.
    - apply strip_prefix_Some in E1. by intros [= <-].
    - destruct (strip_prefix "http://" value) as [rest|] eqn:E2; [|done].
      apply strip_prefix_Some in E2. by intros [= <-]. }
  destruct (match strip_prefix "https://" value with Some _ => _ | None => _ end)
    as [[[tls rest] port0]|]; [|done].
  destruct (Hs _ eq_refl) as [Hp0 Hv]. cbn [fst snd] in *. clear Hs.
  cbn [mbind result_bind]. destruct (existsb _ _) eqn:Hex; [done|].
  assert (∀ c, In c ["@"; "#"; Ascii.ascii_of_N 13; Ascii.ascii_of_N 10]%char →
    has_char c rest = false) as Hno.
  { intros c Hc. apply not_true_iff_false. intros Ht. apply not_true_iff_false in Hex.
    apply Hex, existsb_exists. exists c. split; [|done]. cbn in *. tauto. }
  assert (∃ authority tail target path,
    match split_once "/" rest with
    | Some (authority, path) => (authority, "/" +:+ path)
    | None => (rest, "/")
    end = (authority, target) ∧ rest = authority +:+ tail ∧ has_char "/" authority = false ∧
    (tail = target ∨ tail = "" ∧ target = "/") ∧ target = "/" +:+ path)
    as (authority & tail & target & path & -> & Hr & Hslash & Htail & Htarget).
  { destruct (split_once "/" rest) as [[w r]|] eqn:E.
    - apply split_once_Some in E as [-> Hw]. exists w, ("/" +:+ r), ("/" +:+ r), r.
      by split_and!; [..|left|].
    - apply split_once_None in E. exists rest, "", "/", "".
      split_and!; [done|by rewrite append_empty|done|by right|done]. }
  destruct (bool_decide (authority = "")); [done|].
  destruct (parse_authority authority port0) as [[host port]|] eqn:Ea; [|done].
  apply parse_authority_Ok in Ea as [Hport Hsp]; [|done]. cbn [mbind result_bind].
  case_bool_decide as Hh; [done|]. cbn [orb]. destruct (has_whitespace host); [done|].
  intros [= <-]. cbn [url_tls url_host url_port url_target].
  exists authority, tail. split_and!; try done; [by rewrite Hv, Hr|by eexists|].
  intros c Hc. eapply spells_has_char; [done|]. destruct Hc as [<-|Hc]; [done|].
  specialize (Hno c Hc). rewrite Hr, has_char_app in Hno. by apply orb_false_iff in Hno as [? _].
Qed.

Lemma parse_http_url_host_witness :
  ∃ authority tail, "https://a.test:8443/x" = "https://" +:+ authority +:+ tail ∧
    spells authority "a.test".
Proof.
  destruct (parse_http_url_host "https://a.test:8443/x" (mkUrl true "a.test" 8443 "/x"))
    as (authority & tail & Hv & Hs & _); [vm_compute; reflexivity|].
  exists authority, tail. split; [exact Hv|exact Hs].
Defined.

(** ** Hosts *)

Lemma trim_end_dots_cons a s :
  only_dots (String a s) = false → trim_end_dots (String a s) = String a (trim_end_dots s).
Proof. cbn [trim_end_dots]. by intros ->. Qed.

(** A wildcard admits subdomains only: a target admitted by the scope
    [*.suffix] has a host that, up to case and trailing dots, is a label, a dot
    and the suffix; in particular neither the suffix itself nor a name that
    merely ends with the same letters is admitted. *)
Theorem wildcard_admits_subdomains target suffix :
  only_dots suffix = false → host_is_within target ("*." +:+ suffix) = true →
  ∃ host label, target_host target = Some host ∧
    lowercase (trim_end_dots host) = label +:+ "." +:+ lowercase (trim_end_dots suffix) ∧
    lowercase (trim_end_dots host) ≠ lowercase (trim_end_dots suffix).
Proof.
  intros Hd. unfold host_is_within. destruct (target_host target) as [host|]; [|done].
  assert (trim_end_dots ("*." +:+ suffix) = "*." +:+ trim_end_dots suffix) as ->.
  { change ("*." +:+ suffix) with (String "*" (String "." suffix)).
    rewrite !trim_end_dots_cons; [done|exact Hd|done]. }
  change (lowercase ("*." +:+ trim_end_dots suffix))
    with ("*." +:+ lowercase (trim_end_dots suffix)).
  rewrite (proj2 (strip_prefix_Some "*." _ _) eq_refl).
  intros [Hne [label Hl]%ends_with_Some]%andb_true_iff.
  exists host, label. split_and!; [done|done|].
  by apply negb_true_iff, bool_decide_eq_false in Hne.
Qed.

Lemma wildcard_admits_subdomains_witness :
  ∃ host label, target_host "https://API.example.com./v1" = Some host ∧
    lowercase (trim_end_dots host) = label +:+ "." +:+ "example.com".
Proof.
  destruct (wildcard_admits_subdomains "https://API.example.com./v1" "example.com")
    as (host & label & Hh & Hl & _); [reflexivity|vm_compute; reflexivity|].
  exists host, label. split; [exact Hh|exact Hl].
Defined.

(** ** Scopes are conjunctions *)

Lemma split_app c s t :
  has_char c s = false → split c (s +:+ String c t) = s :: split c t.
Proof.
  induction s as [|a s IH]; rewrite ?append_nil, ?append_cons; cbn [split has_char].
  - intros _. destruct (split c t) as [|w ws] eqn:E.
    + exfalso. destruct t as [|b t]; cbn in E; [done|]. destruct (split c t) eqn:E2.
      * revert E2. clear. induction t as [|d t IH]; [done|]. cbn.
        destruct (split c t); [by intros; apply IH|by case_match].
      * by case_match.
    + destruct (Ascii.eqb_spec c c); [|done]. done.
  - intros [Ha Hs]%orb_false_iff. rewrite IH by done. by rewrite Ha.
Qed.

Lemma split_single c s : has_char c s = false → split c s = [s].
Proof.
  induction s as [|a s IH]; cbn [split has_char]; [done|].
  intros [Ha Hs]%orb_false_iff. rewrite IH by done. by rewrite Ha.
Qed.

(** Clauses only narrow a network grant: what a scope of two clauses admits
    is admitted by each clause alone. *)
Theorem network_clauses_narrow clause scope target method :
  has_char ";" clause = false →
  network_scope_allows (clause +:+ ";" +:+ scope) target method =
  network_scope_allows clause target method && network_scope_allows scope target method.
Proof.
  intros Hc. unfold network_scope_allows.
  change (clause +:+ ";" +:+ scope) with (clause +:+ String ";" scope).
  rewrite split_app, (split_single ";" clause) by done. cbn [forallb].
  by rewrite andb_true_r.
Qed.

Lemma network_clauses_narrow_witness :
  network_scope_allows "host:a.test;method:GET" "a.test" None =
  network_scope_allows "host:a.test" "a.test" None
  && network_scope_allows "method:GET" "a.test" None.
Proof. apply (network_clauses_narrow "host:a.test" "method:GET"). reflexivity. Defined.
