(* ===== verification/Vm.v ===== *)
(** * The virtual machine

    [Interpreter]'s bytecode loop (src/src/runtime.rs): [execute_chunk_vm],
    [execute_bytecode_step] with every instruction, the nested executions of
    [Match], [DefineModule], [Iterate], [Repeat], [Using], [IfCarries] and
    [Sample], [call] and [call_function], scopes ([lookup], [assign],
    [child_scope]), promises, the instruction and memory budgets and the
    capability checks in front of every native function.

    Scopes are shared mutable objects in the source ([Arc<Mutex<Scope>>]); here
    they live in a store and an environment is an address.  Function values are
    addresses too, since they are compared by allocation.  The model is the
    bytecode loop by itself, and its theorems are about that loop.  The native
    tier is off, as in a build without the feature host-runtime; [NativeTier]
    and [NativeRoot] add it, and with it budgets are not charged and a shadowed
    function is miscompiled.  There are
    no collections; [Collector] adds them, and they can empty a scope that is
    still in use.  Slot-allocated locals, which the source turns off whenever
    metrics or a debugger are attached, metrics, debugger, effect recording and
    replay are left out.

    A computation may end in [Panic], which is what a Rust panic is here
    ([unwrap] of a missing operand or parent scope, an index out of range, an
    [unreachable!]).  [Dangling] is an address the store does not hold, which
    Rust's ownership rules out.  Natives and the operating system are the class
    [Host]. *)
From Stdlib Require Import Ascii.
From S2P Require Import Prelude Ast Bytecode Verifier Values Gate.
Open Scope list_scope.

(** ** State *)

Record Binding := mkBinding { b_value : Value; b_mutable : bool }.
Record Scope := mkScope { s_values : gmap string Binding; s_parent : option N }.

(** [FunctionBody]: the tree interpreter makes the former, the machine the
    latter. *)
Inductive FunctionBody : Type :=
| Body_Tree (body : list Stmt)
| Body_Bytecode (body : Chunk).
Coercion Body_Bytecode : Chunk >-> FunctionBody.

Record Function := mkFunction {
  f_name : string; f_params : list string; f_body : FunctionBody; f_closure : N }.

(** [Interpreter], over the state [W] of the world outside it. *)
Record Interp (W : Type) := mkInterp {
  environment : N;
  scopes : gmap N Scope;
  functions : gmap N Function;
  next_ref : N;
  globals : N;
  namespace : list string;
  active_promises : list PromiseClause;
  protocol_dispatch : gmap (string * string * string) Value;
  call_depth : N;
  max_call_depth : N;
  instruction_budget : option N;
  memory_budget : option N;
  capabilities : option (gset string);
  capability_scopes : gmap string string;
  run_samples : bool;
  payload_limit : N;
  printed : list string;
  world : W }.
Arguments mkInterp {W}.
Arguments environment {W}. Arguments scopes {W}. Arguments functions {W}.
Arguments next_ref {W}. Arguments globals {W}. Arguments namespace {W}.
Arguments active_promises {W}. Arguments protocol_dispatch {W}. Arguments call_depth {W}.
Arguments max_call_depth {W}. Arguments instruction_budget {W}. Arguments memory_budget {W}.
Arguments capabilities {W}. Arguments capability_scopes {W}. Arguments run_samples {W}.
Arguments payload_limit {W}. Arguments printed {W}. Arguments world {W}.

Section updates.
Context {W : Type}.
Implicit Types st : Interp W.

Definition set_environment (e : N) st : Interp W :=
  mkInterp e (scopes st) (functions st) (next_ref st) (globals st) (namespace st)
    (active_promises st) (protocol_dispatch st) (call_depth st) (max_call_depth st)
    (instruction_budget st) (memory_budget st) (capabilities st) (capability_scopes st)
    (run_samples st) (payload_limit st) (printed st) (world st).
Definition set_scopes (s : gmap N Scope) st : Interp W :=
  mkInterp (environment st) s (functions st) (next_ref st) (globals st) (namespace st)
    (active_promises st) (protocol_dispatch st) (call_depth st) (max_call_depth st)
    (instruction_budget st) (memory_budget st) (capabilities st) (capability_scopes st)
    (run_samples st) (payload_limit st) (printed st) (world st).
Definition set_functions (f : gmap N Function) st : Interp W :=
  mkInterp (environment st) (scopes st) f (next_ref st) (globals st) (namespace st)
    (active_promises st) (protocol_dispatch st) (call_depth st) (max_call_depth st)
    (instruction_budget st) (memory_budget st) (capabilities st) (capability_scopes st)
    (run_samples st) (payload_limit st) (printed st) (world st).
Definition set_next_ref (r : N) st : Interp W :=
  mkInterp (environment st) (scopes st) (functions st) r (globals st) (namespace st)
    (active_promises st) (protocol_dispatch st) (call_depth st) (max_call_depth st)
    (instruction_budget st) (memory_budget st) (capabilities st) (capability_scopes st)
    (run_samples st) (payload_limit st) (printed st) (world st).
Definition set_namespace (n : list string) st : Interp W :=
  mkInterp (environment st) (scopes st) (functions st) (next_ref st) (globals st) n
    (active_promises st) (protocol_dispatch st) (call_depth st) (max_call_depth st)
    (instruction_budget st) (memory_budget st) (capabilities st) (capability_scopes st)
    (run_samples st) (payload_limit st) (printed st) (world st).
Definition set_promises (p : list PromiseClause) st : Interp W :=
  mkInterp (environment st) (scopes st) (functions st) (next_ref st) (globals st)
    (namespace st) p (protocol_dispatch st) (call_depth st) (max_call_depth st)
    (instruction_budget st) (memory_budget st) (capabilities st) (capability_scopes st)
    (run_samples st) (payload_limit st) (printed st) (world st).
Definition set_dispatch (d : gmap (string * string * string) Value) st : Interp W :=
  mkInterp (environment st) (scopes st) (functions st) (next_ref st) (globals st)
    (namespace st) (active_promises st) d (call_depth st) (max_call_depth st)
    (instruction_budget st) (memory_budget st) (capabilities st) (capability_scopes st)
    (run_samples st) (payload_limit st) (printed st) (world st).
Definition set_call_depth (d : N) st : Interp W :=
  mkInterp (environment st) (scopes st) (functions st) (next_ref st) (globals st)
    (namespace st) (active_promises st) (protocol_dispatch st) d (max_call_depth st)
    (instruction_budget st) (memory_budget st) (capabilities st) (capability_scopes st)
    (run_samples st) (payload_limit st) (printed st) (world st).
Definition set_budgets (i m : option N) st : Interp W :=
  mkInterp (environment st) (scopes st) (functions st) (next_ref st) (globals st)
    (namespace st) (active_promises st) (protocol_dispatch st) (call_depth st)
    (max_call_depth st) i m (capabilities st) (capability_scopes st)
    (run_samples st) (payload_limit st) (printed st) (world st).
Definition set_printed (p : list string) st : Interp W :=
  mkInterp (environment st) (scopes st) (functions st) (next_ref st) (globals st)
    (namespace st) (active_promises st) (protocol_dispatch st) (call_depth st)
    (max_call_depth st) (instruction_budget st) (memory_budget st) (capabilities st)
    (capability_scopes st) (run_samples st) (payload_limit st) p (world st).
Definition set_world (w : W) st : Interp W :=
  mkInterp (environment st) (scopes st) (functions st) (next_ref st) (globals st)
    (namespace st) (active_promises st) (protocol_dispatch st) (call_depth st)
    (max_call_depth st) (instruction_budget st) (memory_budget st) (capabilities st)
    (capability_scopes st) (run_samples st) (payload_limit st) (printed st) w.
End updates.

(** ** Effects *)

(** How a computation ends. *)
Inductive outcome (W A : Type) : Type :=
| Done (a : A) (st : Interp W)
| Fail (e : NivError) (st : Interp W)
| Panic
| Dangling
| OutOfFuel.
Arguments Done {W A}. Arguments Fail {W A}. Arguments Panic {W A}.
Arguments Dangling {W A}. Arguments OutOfFuel {W A}.

Definition M (W A : Type) : Type := Interp W → outcome W A.

#[export] Instance M_ret {W} : MRet (M W) := fun A a st => Done a st.
#[export] Instance M_bind {W} : MBind (M W) := fun A B f m st =>
  match m st with
  | Done a st => f a st
  | Fail e st => Fail e st
  | Panic => Panic
  | Dangling => Dangling
  | OutOfFuel => OutOfFuel
  end.

Section effects.
Context {W : Type}.

Definition get : M W (Interp W) := fun st => Done st st.
Definition update (f : Interp W → Interp W) : M W unit := fun st => Done tt (f st).
Definition throw {A} (e : NivError) : M W A := fun st => Fail e st.
Definition panic {A} : M W A := fun _ => Panic.
Definition dangling {A} : M W A := fun _ => Dangling.
Definition out_of_fuel {A} : M W A := fun _ => OutOfFuel.

(** [?] on a pure result. *)
Definition lift {A} (r : result NivError A) : M W A :=
  match r with Ok a => mret a | Err e => throw e end.

(** [unwrap] and [unreachable!]. *)
Definition unwrap {A} (o : option A) : M W A :=
  match o with Some a => mret a | None => panic end.

(** A pure operation with an [unreachable!] arm. *)
Definition lift_r (r : option (result NivError Value)) : M W Value :=
  r ← unwrap r; lift r.

(** Run [m]; afterwards, also after an error, apply [cleanup]. *)
Definition finally {A} (m : M W A) (cleanup : Interp W → Interp W) : M W A := fun st =>
  match m st with
  | Done a st => Done a (cleanup st)
  | Fail e st => Fail e (cleanup st)
  | o => o
  end.

(** A loop over a list with an accumulator. *)
Definition fold_left_M {A S} (f : S → A → M W S) : list A → S → M W S :=
  fix go l s := match l with [] => mret s | x :: l => s ← f s x; go l s end.

(** ** Scopes *)

(** The identity of a new allocation. *)
Definition fresh : M W N := fun st => Done (next_ref st) (set_next_ref (next_ref st + 1) st).

Definition scope_at (env : N) : M W Scope :=
  st ← get; match scopes st !! env with Some s => mret s | None => dangling end.

(** [child_scope] with the given bindings. *)
Definition child_scope (parent : N) (bindings : list (string * Binding)) : M W N :=
  ref ← fresh;
  _ ← update (λ st, set_scopes
        (<[ref := mkScope (foldl (λ m '(n, b), <[n := b]> m) ∅ bindings) (Some parent)]>
           (scopes st)) st);
  mret ref.

(** [values.insert(name, binding)] in a scope, and whether it replaced one. *)
Definition insert_binding (env : N) (name : string) (binding : Binding) : M W bool :=
  s ← scope_at env;
  _ ← update (λ st, set_scopes
        (<[env := mkScope (<[name := binding]> (s_values s)) (s_parent s)]> (scopes st)) st);
  mret (bool_decide (is_Some (s_values s !! name))).

(** [lookup]: walk the parents.  The chain is shorter than the store. *)
Fixpoint lookup_in (fuel : nat) (store : gmap N Scope) (env : N) (name : string)
    : option Value :=
  match fuel with
  | O => None
  | S fuel =>
      s ← store !! env;
      match s_values s !! name with
      | Some b => Some (b_value b)
      | None => parent ← s_parent s; lookup_in fuel store parent name
      end
  end.

Definition lookup_name (st : Interp W) (name : string) : option Value :=
  lookup_in (S (size (scopes st))) (scopes st) (environment st) name.

(** [assign] *)
Fixpoint assign (fuel : nat) (env : N) (name : string) (value : Value) (span : Span) : M W unit :=
  match fuel with
  | O => dangling
  | S fuel =>
      s ← scope_at env;
      match s_values s !! name with
      | Some b =>
          if b_mutable b then
            _ ← insert_binding env name (mkBinding value true); mret tt
          else throw (error_at ("cannot assign to immutable binding '" +:+ name +:+ "'") span)
      | None =>
          match s_parent s with
          | Some parent => assign fuel parent name value span
          | None => throw (error_at ("undefined name '" +:+ name +:+ "'") span)
          end
      end
  end.

(** [qualified] *)
Definition qualified (st : Interp W) (name : string) : string :=
  match namespace st with
  | [] => name
  | ns => join "." ns +:+ "." +:+ name
  end.

(** ** Budgets *)

(** [charge] *)
Definition charge (span : Span) : M W unit :=
  st ← get;
  match instruction_budget st with
  | None => mret tt
  | Some 0 => throw (error_at "instruction limit exceeded" span)
  | Some n => update (set_budgets (Some (n - 1)) (memory_budget st))
  end.
End effects.

(** ** Host *)

(** What the machine calls outside it: natives and derived methods, lazy
    iterators, resources, the file system and the cancellation flag. *)
Class Host (W : Type) := {
  host_cancelled : W → bool;
  host_native : NativeFunction → list Value → Span → M W Value;
  host_derived : RecordType → string → list Value → Span → result NivError Value;
  host_drain : N → Span → M W (list Value);
  host_close : HandleKind → N → Span → M W unit;
  host_path_is_within : W → string → string → bool;
  host_canonicalize : W → string → option string }.

(** ** Patterns *)

(** The value of a literal. *)
Definition literal_value (l : Literal) : Value :=
  match l with
  | Literal_Int z => V_Int z
  | Literal_Float f => V_Float f
  | Literal_String s => V_String s
  | Literal_Bool b => V_Bool b
  | Literal_Null => V_Null
  end.

(** [s.rsplit('.').next()] *)
Definition last_segment (s : string) : string := default s (last (split "."%char s)).

Section machine.
Context {W : Type} `{Foreign} `{Host W}.
Implicit Types st : Interp W.

(** [lookup] by full name, then by the last segment. *)
Definition lookup_type (st : Interp W) (type_name : string) : option Value :=
  match lookup_name st type_name with
  | Some v => Some v
  | None => lookup_name st (last_segment type_name)
  end.

(** [enum_has_variant] *)
Definition enum_has_variant (st : Interp W) (type_name variant : string) : bool :=
  match lookup_type st type_name with
  | Some (V_EnumType t) => contains (et_variants t) variant
  | _ => false
  end.

Definition Bindings := list (string * Value).

(** [pattern_matches], extending the bindings on success. *)
Fixpoint pattern_matches (st : Interp W) (pattern : Pattern) (value : Value)
    (bindings : Bindings) {struct pattern} : option Bindings :=
  let bind name := Some (bindings ++ [(name, value)]) in
  match pattern with
  | Pattern_Any _ => Some bindings
  | Pattern_Binding name _ => bind name
  | Pattern_Literal literal _ =>
      if value_eq value (literal_value literal) then Some bindings else None
  | Pattern_Name name _ =>
      match value with
      | V_Enum type_name variant _ =>
          if bool_decide (variant = name) then Some bindings
          else if enum_has_variant st type_name name then None else bind name
      | V_Ok _ =>
          if bool_decide (name = "Ok") then Some bindings
          else if bool_decide (name = "Err") then None else bind name
      | V_Err _ =>
          if bool_decide (name = "Err") then Some bindings
          else if bool_decide (name = "Ok") then None else bind name
      | _ => bind name
      end
  | Pattern_Carries name inner _ =>
      match value with
      | V_Enum _ variant payload =>
          if bool_decide (variant = name) then
            match payload with
            | Some payload => pattern_matches st inner payload bindings
            | None => None
            end
          else None
      | V_Ok payload =>
          if bool_decide (name = "Ok") then pattern_matches st inner payload bindings else None
      | V_Err payload =>
          if bool_decide (name = "Err") then pattern_matches st inner payload bindings else None
      | _ => None
      end
  | Pattern_Shape name fields _ =>
      match value with
      | V_Record type_name values =>
          if bool_decide (type_name = name) || ends_with ("." +:+ name) type_name then
            foldM (λ '(field, sub) bindings,
              v ← member_get values field;
              pattern_matches st sub v bindings) fields bindings
          else None
      | _ => None
      end
  end.

(** [pattern_bindings] *)
Definition pattern_bindings (st : Interp W) (pattern : Pattern) (value : Value)
    : option Bindings := pattern_matches st pattern value [].

(** [patterns.iter().find_map(...)] *)
Fixpoint first_match (st : Interp W) (patterns : list Pattern) (value : Value)
    : option Bindings :=
  match patterns with
  | [] => None
  | p :: patterns =>
      match pattern_bindings st p value with
      | Some b => Some b
      | None => first_match st patterns value
      end
  end.

(** Immutable bindings, in order. *)
Definition immutable (bindings : Bindings) : list (string * Binding) :=
  map (λ '(n, v), (n, mkBinding v false)) bindings.

(** ** Text *)

Definition text_of (st : Interp W) (v : Value) : string :=
  display (λ f, match functions st !! f with Some f => f_name f | None => "" end) v.

Definition TEXT_HOLE_CONTRACT : string :=
  "give text, a number, a boolean, a date/time, or a shape that derives Display".

(** [text_hole_string] *)
Definition text_hole_string (st : Interp W) (value : Value) (span : Span)
    : result NivError string :=
  match value with
  | V_String text => Ok text
  | V_Int _ | V_UInt _ | V_U128 _ | V_Bool _ | V_BigInt _ | V_Decimal _ | V_FixedInt _
  | V_DateTime _ => Ok (text_of st value)
  | V_Float f =>
      if f64_is_finite f then Ok (text_of st value)
      else Err (error_at ("a text hole attempted to render a float that is not finite; "
                            +:+ "handle NaN or infinity before formatting") span)
  | V_Record name _ =>
      let derives_display :=
        match lookup_type st name with
        | Some (V_RecordType schema) => contains (rt_derives schema) "Display"
        | _ => false
        end in
      if derives_display then Ok (text_of st value)
      else Err (error_at ("a text hole attempted to render " +:+ name
                            +:+ ", which does not derive Display; " +:+ TEXT_HOLE_CONTRACT) span)
  | other =>
      Err (error_at ("a text hole attempted to render " +:+ type_name other
                       +:+ ", which has no canonical text; " +:+ TEXT_HOLE_CONTRACT) span)
  end.

(** [text_too_long_error] *)
Definition text_too_long_error (limit : N) (span : Span) : NivError :=
  error_at ("a text literal grew beyond the declared " +:+ pretty limit
              +:+ "-byte payload limit; build large output through bounded streams or raise "
              +:+ "payload_bytes under [limits]") span.

(** The loop of [MakeText]. *)
Fixpoint make_text (st : Interp W) (values : list Value) (output : string) (span : Span)
    : result NivError string :=
  match values with
  | [] => Ok output
  | v :: values =>
      text ← text_hole_string st v span;
      let output := output +:+ text in
      if payload_limit st <? str_len output then Err (text_too_long_error (payload_limit st) span)
      else make_text st values output span
  end.

(** [charge_memory] *)
Definition charge_memory (value : Value) (span : Span) : M W unit :=
  st ← get;
  match value_bytes (S MAXIMUM_VALUE_DEPTH) value with
  | None =>
      throw (error_at ("value nesting exceeds the supported depth of "
                         +:+ pretty (N.of_nat MAXIMUM_VALUE_DEPTH)) span)
  | Some bytes =>
      let bytes := N.max bytes 1 in
      match memory_budget st with
      | None => mret tt
      | Some budget =>
          if bytes <=? budget
          then update (set_budgets (instruction_budget st) (Some (budget - bytes)))
          else throw (error_at "memory limit exceeded" span)
      end
  end.

(** [is_cancelled] *)
Definition check_cancelled : M W unit :=
  st ← get;
  if host_cancelled (world st) then throw (NivError_new "task cancelled" 1 1) else mret tt.

(** ** Calls *)

Inductive VmFlow : Type :=
| Flow_Continue (v : Value)
| Flow_Return (v : Value)
| Flow_Stop
| Flow_Skip.

(** [check_arity] *)
Definition check_arity (name : string) (expected actual : N) (span : Span)
    : result NivError unit :=
  if expected =? actual then Ok tt
  else Err (error_at ("'" +:+ name +:+ "' expects " +:+ pretty expected
                        +:+ " arguments, received " +:+ pretty actual) span).

(** [loop_exit_escape_error] *)
Definition loop_exit_escape_error (span : Span) : NivError :=
  error_at "a loop exit crossed a scope the checker should have rejected" span.

(** [problem_value] *)
Definition problem_value (kind message : string) : Value :=
  V_Record "Problem" [("kind", V_String kind); ("message", V_String message)].

(** Typed failures carry the [Problem] shape. *)
Definition wrap_problem (kind : option string) (v : Value) : Value :=
  match v, kind with
  | V_Err (V_String message), Some kind => V_Err (problem_value kind message)
  | v, _ => v
  end.

(** The capability checks of a native call: an active promise, the project's
    allow list, then the granted scope. *)
Definition promised_never (promises : list PromiseClause) (capability : string) : bool :=
  existsb (λ c, bool_decide (clause_capability c = capability) && clause_never c) promises.

Definition native_arguments (st : Interp W) (f : NativeFunction) (capability : string)
    (arguments : list Value) : list Value :=
  if bool_decide (capability = "Native") && bool_decide (native_name f = "open")
     && bool_decide (is_Some (capability_scopes st !! "Native"))
  then match arguments with
       | V_String path :: rest =>
           match host_canonicalize (world st) path with
           | Some text => V_String text :: rest
           | None => arguments
           end
       | _ => arguments
       end
  else arguments.

(** A double quote. *)
Definition quote : string := String (Ascii.ascii_of_N 34) EmptyString.

(** The arguments a permitted native is called with, or why it is refused. *)
Definition gate (st : Interp W) (f : NativeFunction) (arguments : list Value) (span : Span)
    : result NivError (list Value) :=
  match native_capability f with
  | None => Ok arguments
  | Some capability =>
      if promised_never (active_promises st) capability then
        Err (error_at ("this effect needs " +:+ capability
                         +:+ ", but an active 'promise never " +:+ capability
                         +:+ "' renounces it") span)
      else if match capabilities st with
              | Some allowed => negb (bool_decide (capability ∈ allowed))
              | None => false
              end
      then Err (error_at ("this project does not allow " +:+ capability +:+ "; add "
                            +:+ capability +:+ " = " +:+ quote +:+ "allow" +:+ quote
                            +:+ " under [capabilities] in niv.toml") span)
      else
        let arguments := native_arguments st f capability arguments in
        _ ← authorize_scope (host_path_is_within (world st)) (capability_scopes st)
              capability (native_name f) arguments span;
        Ok arguments
  end.

(** ** Running chunks *)

(** The machine is defined over [exec], which runs a nested chunk, or the body
    of a function of either engine, with the fuel that is left; [execute] of
    [Engine] ties the knot. *)
Section execution.
Variable exec : FunctionBody → M W VmFlow.

(** What a finished function body means to its caller: a tree body that runs
    to its end gives [null]. *)
Definition function_result (body : FunctionBody) (flow : VmFlow) (span : Span) : M W Value :=
  match flow, body with
  | Flow_Continue _, Body_Tree _ => mret V_Null
  | Flow_Continue value, Body_Bytecode _ | Flow_Return value, _ => mret value
  | Flow_Stop, _ | Flow_Skip, _ => throw (loop_exit_escape_error span)
  end.

(** Run [m] with the environment [env] and restore the previous one, also
    after an error. *)
Definition in_environment {A} (env : N) (m : M W A) : M W A :=
  st ← get;
  finally (_ ← update (set_environment env); m) (set_environment (environment st)).

(** Errors get a trace frame. *)
Definition with_trace {A} (m : M W A) (name : string) (span : Span) : M W A := fun st =>
  match m st with
  | Fail e st => Fail (with_frame e name (span_line span) (span_column span)) st
  | o => o
  end.

(** [call_function], with the [try_jit] of a build without host-runtime, which
    gives [None], and without slot-allocated frames; [NativeTier.call_function_jit]
    has the other [try_jit]. *)
Definition call_function (ref : N) (arguments : list Value) (span : Span) : M W Value :=
  st ← get;
  match functions st !! ref with
  | None => dangling
  | Some f =>
      _ ← lift (check_arity (f_name f) (len (f_params f)) (len arguments) span);
      if max_call_depth st <=? call_depth st then
        throw (error_at ("call depth limit of " +:+ pretty (max_call_depth st)
                           +:+ " exceeded") span)
      else
        _ ← update (set_call_depth (call_depth st + 1));
        with_trace
          (finally
             (env ← child_scope (f_closure f) (immutable (zip (f_params f) arguments));
              flow ← in_environment env (exec (f_body f));
              function_result (f_body f) flow span)
             (λ st, set_call_depth (call_depth st - 1) st))
          (f_name f) span
  end.

(** [call] *)
Fixpoint call (fuel : nat) (callee : Value) (arguments : list Value) (span : Span) : M W Value :=
  match callee with
  | V_Native f =>
      _ ← lift (check_arity (native_name f) (native_arity f) (len arguments) span);
      st ← get;
      arguments ← lift (gate st f arguments span);
      value ← host_native f arguments span;
      mret (wrap_problem (native_problem_kind f) value)
  | V_Function ref => call_function ref arguments span
  | V_RecordType record =>
      _ ← lift (check_arity (rt_name record) (len (rt_fields record)) (len arguments) span);
      mret (V_Record (rt_name record) (zip (map fst (rt_fields record)) arguments))
  | V_EnumConstructor _ type_name variant =>
      _ ← lift (check_arity (type_name +:+ "." +:+ variant) 1 (len arguments) span);
      mret (V_Enum type_name variant (head arguments))
  | V_ProtocolMethod _ protocol member =>
      match arguments with
      | [] => throw (error_at (protocol +:+ "." +:+ member +:+ " requires a receiver") span)
      | receiver :: _ =>
          st ← get;
          match protocol_dispatch st !! (protocol, member, type_name receiver) with
          | None =>
              throw (error_at ("no coherent implementation of " +:+ protocol +:+ "." +:+ member
                                 +:+ " for " +:+ type_name receiver) span)
          | Some implementation =>
              match fuel with
              | O => out_of_fuel
              | S fuel => call fuel implementation arguments span
              end
          end
      end
  | V_DerivedMethod _ schema name =>
      value ← lift (host_derived schema name arguments span);
      mret (wrap_problem (Some "derive") value)
  | value => throw (error_at (type_name value +:+ " is not callable") span)
  end.

(** [execute_bytecode_match] *)
Definition run_arm (body : Chunk) (guard : option Chunk) (span : Span) : M W (option VmFlow) :=
  decision ←
    match guard with
    | None => mret (inl true)
    | Some guard =>
        flow ← exec guard;
        match flow with
        | Flow_Continue decision => b ← lift (expect_bool decision span); mret (inl b)
        | Flow_Return v => mret (inr (Flow_Return v))
        | Flow_Stop | Flow_Skip => throw (loop_exit_escape_error span)
        end
    end;
  match decision with
  | inr returned => mret (Some returned)
  | inl false => mret None
  | inl true => flow ← exec body; mret (Some flow)
  end.

Fixpoint execute_match (subject : Value) (arms : list BytecodeArm) (span : Span) : M W VmFlow :=
  match arms with
  | [] => throw (error_at "no choose arm matched this value; add an 'otherwise' arm" span)
  | mkArm patterns guard body _ :: arms =>
      st ← get;
      match first_match st patterns subject with
      | None => execute_match subject arms span
      | Some bindings =>
          env ← child_scope (environment st) (immutable bindings);
          outcome ← in_environment env (run_arm body guard span);
          match outcome with
          | Some flow => mret flow
          | None => execute_match subject arms span
          end
      end
  end.

(** The exported values of a module scope. *)
Definition module_exports (name : string) (scope : Scope) (exports : list string) (span : Span)
    : result NivError (list (string * Value)) :=
  (fix go exports :=
     match exports with
     | [] => Ok []
     | e :: exports =>
         b ← ok_or (error_at ("module '" +:+ name +:+ "' does not declare expose '" +:+ e
                                +:+ "'") span) (s_values scope !! e);
         rest ← go exports;
         Ok ((e, b_value b) :: rest)
     end) exports.

(** [execute_bytecode_module] *)
Definition execute_module (name : string) (body : Chunk) (exports : list string) (span : Span)
    : M W Value :=
  st ← get;
  env ← child_scope (globals st) [];
  flow ← in_environment env
           (st ← get;
            finally (_ ← update (set_namespace (namespace st ++ [name])); exec body)
              (set_namespace (namespace st)));
  match flow with
  | Flow_Return _ => throw (error_at "give may only appear inside a function" span)
  | _ =>
      scope ← scope_at env;
      values ← lift (module_exports name scope exports span);
      ref ← fresh;
      let module := V_Module ref values in
      st ← get;
      _ ← insert_binding (environment st) name (mkBinding module false);
      mret module
  end.

(** The binding scope of one element of an iteration. *)
Definition iteration_bindings (st : Interp W) (name : string) (pattern : option Pattern)
    (value : Value) (span : Span) : result NivError Bindings :=
  match pattern with
  | Some pattern =>
      ok_or (error_at "this element did not match the iteration pattern" span)
        (pattern_bindings st pattern value)
  | None => Ok [(name, value)]
  end.

(** [drain_iterate_adopter]; the fuel bounds the calls of [advance]. *)
Fixpoint drain_adopter (fuel : nat) (implementation state : Value) (items : list Value)
    (span : Span) : M W (list Value) :=
  match fuel with
  | O => out_of_fuel
  | S fuel =>
      step ← call fuel implementation [state] span;
      match step with
      | V_Null => mret items
      | V_Record _ fields =>
          match member_get fields "item", member_get fields "next" with
          | Some item, Some next =>
              let items := items ++ [item] in
              if 1000000 <? len items
              then throw (error_at "Iterate materialization refuses more than 1000000 values"
                            span)
              else drain_adopter fuel implementation next items span
          | _, _ => throw (error_at "an Iterate step holds 'item' and 'next' fields" span)
          end
      | other =>
          throw (error_at ("Iterate.advance gives none or a step shape, found "
                             +:+ type_name other) span)
      end
  end.

(** The elements of an iterable value. *)
Definition iteration_values (fuel : nat) (iterable : Value) (span : Span) : M W (list Value) :=
  match iterable with
  | V_Array values => mret values
  | V_String s => mret (map V_String (chars s))
  | V_Handle H_Iterator ref => host_drain ref span
  | V_Record type_name _ =>
      st ← get;
      match protocol_dispatch st !! ("Iterate", "advance", type_name) with
      | Some implementation => drain_adopter fuel implementation iterable [] span
      | None => throw (error_at (type_name +:+ " is not iterable") span)
      end
  | other => throw (error_at (type_name other +:+ " is not iterable") span)
  end.

(** The loop of [execute_bytecode_iteration]. *)
Fixpoint iterate (name : string) (pattern : option Pattern) (body : Chunk) (span : Span)
    (values : list Value) (last : Value) : M W VmFlow :=
  match values with
  | [] => mret (Flow_Continue last)
  | value :: values =>
      st ← get;
      bindings ← lift (iteration_bindings st name pattern value span);
      env ← child_scope (environment st) (immutable bindings);
      flow ← in_environment env (exec body);
      match flow with
      | Flow_Continue value => iterate name pattern body span values value
      | Flow_Return value => mret (Flow_Return value)
      | Flow_Stop => mret (Flow_Continue last)
      | Flow_Skip => iterate name pattern body span values last
      end
  end.

(** [execute_bytecode_repeat]; the fuel bounds the passes. *)
Fixpoint repeat (fuel : nat) (condition body : Chunk) (span : Span) (last : Value) : M W VmFlow :=
  match fuel with
  | O => out_of_fuel
  | S fuel =>
      flow ← exec condition;
      match flow with
      | Flow_Return value => mret (Flow_Return value)
      | Flow_Stop | Flow_Skip => throw (loop_exit_escape_error span)
      | Flow_Continue decision =>
          go ← lift (expect_bool decision span);
          if go : bool then
            flow ← exec body;
            match flow with
            | Flow_Continue value => repeat fuel condition body span value
            | Flow_Return value => mret (Flow_Return value)
            | Flow_Stop => mret (Flow_Continue last)
            | Flow_Skip => repeat fuel condition body span last
            end
          else mret (Flow_Continue last)
      end
  end.

(** [ensure_closable] *)
Definition closable (k : HandleKind) : bool :=
  match k with
  | H_File | H_TcpListener | H_TlsListener | H_TcpStream | H_TlsStream | H_WebSocket
  | H_LockGuard | H_NativeHandle | H_NativeLibrary | H_Transaction => true
  | _ => false
  end.

(** Close after the body, keeping the body's own error. *)
Definition then_close (m : M W VmFlow) (kind : HandleKind) (ref : N) (span : Span)
    : M W VmFlow := fun st =>
  match m st with
  | Done flow st => (_ ← host_close kind ref span; mret flow) st
  | Fail e st =>
      match host_close kind ref span st with
      | Done _ st | Fail _ st => Fail e st
      | Panic => Panic
      | Dangling => Dangling
      | OutOfFuel => OutOfFuel
      end
  | o => o
  end.

(** [execute_bytecode_using] *)
Definition execute_using (name : string) (resource : Value) (body : Chunk) (span : Span)
    : M W VmFlow :=
  let refuse :=
    throw (error_at ("using needs a closable resource, found " +:+ type_name resource) span) in
  match resource with
  | V_Handle kind ref =>
      if closable kind then
        st ← get;
        env ← child_scope (environment st) [(name, mkBinding resource false)];
        then_close (in_environment env (exec body)) kind ref span
      else refuse
  | _ => refuse
  end.

(** ** One instruction *)

(** The operand stack, top first. *)
Definition Stack := list Value.

Inductive BytecodeStep : Type :=
| Step_Next (pc : N) (stack : Stack)
| Step_Return (v : Value)
| Step_Stop
| Step_Skip.

(** [stack.pop().unwrap()] *)
Definition pop (stack : Stack) : M W (Value * Stack) :=
  match stack with v :: stack => mret (v, stack) | [] => panic end.

(** [stack.last().cloned().unwrap()] *)
Definition peek (stack : Stack) : M W Value := unwrap (head stack).

(** [stack.split_off(stack.len() - n)]: the last [n] values in order. *)
Definition split_off (n : N) (stack : Stack) : M W (list Value * Stack) :=
  if n <=? len stack
  then mret (rev (take (N.to_nat n) stack), drop (N.to_nat n) stack)
  else panic.

(** The instructions whose result is charged against the memory budget. *)
Definition charges_memory (op : Op) : bool :=
  match op with
  | Op_Constant _ | Op_Binary _ | Op_Call _ | Op_PerformCall _ | Op_MakeArray _
  | Op_MakeText _ | Op_Index | Op_Get _ | Op_MakeFunction _ _ _ | Op_DefineRecord _ _ _
  | Op_DefineEnum _ _ _ => true
  | _ => false
  end.

(** The common end of an instruction. *)
Definition next (op : Op) (span : Span) (pc : N) (stack : Stack) : M W BytecodeStep :=
  _ ← match charges_memory op, stack with
      | true, value :: _ => charge_memory value span
      | _, _ => mret tt
      end;
  mret (Step_Next (pc + 1) stack).

(** Push what a nested chunk gives, or pass its exit on; [escape] says what a
    loop exit means here. *)
Definition push_flow (op : Op) (span : Span) (pc : N) (stack : Stack) (flow : VmFlow)
    (escape : bool) : M W BytecodeStep :=
  match flow with
  | Flow_Continue value => next op span pc (value :: stack)
  | Flow_Return value => mret (Step_Return value)
  | Flow_Stop => if escape then mret Step_Stop else throw (loop_exit_escape_error span)
  | Flow_Skip => if escape then mret Step_Skip else throw (loop_exit_escape_error span)
  end.

(** Declare a value in the current scope and give it. *)
Definition declare (name : string) (value : Value) : M W unit :=
  st ← get;
  _ ← insert_binding (environment st) name (mkBinding value false);
  mret tt.

(** The [Call] and [PerformCall] instructions.  A function value returns to the
    loop at once, before the result is charged. *)
Definition step_call (fuel : nat) (op : Op) (arity : N) (span : Span) (pc : N) (stack : Stack)
    : M W BytecodeStep :=
  '(arguments, rest) ← split_off arity stack;
  '(callee, rest) ← pop rest;
  value ← call fuel callee arguments span;
  match callee with
  | V_Function _ => mret (Step_Next (pc + 1) (value :: rest))
  | _ => next op span pc (value :: rest)
  end.

(** [DefinePattern]: declare each bound name, refusing one the scope has. *)
Definition declare_all (bindings : Bindings) (span : Span) : M W unit :=
  st ← get;
  fold_left_M (λ _ '(name, value),
    scope ← scope_at (environment st);
    if bool_decide (is_Some (s_values scope !! name)) then
      throw (error_at ("'" +:+ name +:+ "' is already declared in this scope") span)
    else declare name value) bindings tt.

(** [AdoptProtocol] *)
Definition adopt (protocol type_name : string) (mappings : list (string * string)) (span : Span)
    : M W Value :=
  st ← get;
  let protocol_name := match lookup_name st protocol with
    | Some (V_ProtocolType _ name _) => name
    | _ => qualified st protocol
    end in
  let base := default type_name (head (split "<"%char type_name)) in
  let qualified_base := qualified st base in
  _ ← fold_left_M (λ _ '(member, implementation_name),
        st ← get;
        implementation ←
          lift (ok_or (error_at ("unknown protocol implementation '" +:+ implementation_name
                                   +:+ "'") span) (lookup_name st implementation_name));
        update (λ st, set_dispatch
          (<[(protocol_name, member, qualified_base) := implementation]>
             (<[(protocol_name, member, base) := implementation]> (protocol_dispatch st))) st))
        mappings tt;
  mret (match mappings with [] => V_Null | _ => V_Bool true end).

(** [{:?}] of text, with the escapes of ASCII text. *)
Fixpoint debug_escape (s : string) : string :=
  match s with
  | EmptyString => EmptyString
  | String a s =>
      let backslash := Ascii.ascii_of_N 92 in
      let escaped c := String backslash (String c (debug_escape s)) in
      match Ascii.N_of_ascii a with
      | 0 => escaped "0"%char
      | 9 => escaped "t"%char
      | 10 => escaped "n"%char
      | 13 => escaped "r"%char
      | 34 | 92 => escaped a
      | _ => String a (debug_escape s)
      end
  end.
Definition debug_text (s : string) : string := quote +:+ debug_escape s +:+ quote.

(** [Sample] *)
Definition execute_sample (title : string) (body : Chunk) (shows : option string) (span : Span)
    : M W unit :=
  st ← get;
  if run_samples st then
    env ← child_scope (environment st) [];
    flow ← in_environment env (exec body);
    match flow with
    | Flow_Continue value =>
        st ← get;
        match shows with
        | Some expected =>
            if bool_decide (text_of st value = expected) then mret tt
            else throw (error_at ("sample '" +:+ title +:+ "' shows " +:+ debug_text expected
                                    +:+ ", produced " +:+ debug_text (text_of st value)) span)
        | None => mret tt
        end
    | Flow_Return _ =>
        throw (error_at ("sample '" +:+ title +:+ "' ends with an expression, not 'give'") span)
    | Flow_Stop | Flow_Skip => throw (loop_exit_escape_error span)
    end
  else mret tt.

(** [IfCarries] *)
Definition execute_if_carries (subject : Value) (patterns : list Pattern) (then_branch : Chunk)
    (else_branch : option Chunk) : M W VmFlow :=
  st ← get;
  match (match subject with V_Null => None | _ => first_match st patterns subject end) with
  | None =>
      match else_branch with
      | Some branch => exec branch
      | None => mret (Flow_Continue V_Null)
      end
  | Some bindings =>
      env ← child_scope (environment st) (immutable bindings);
      in_environment env (exec then_branch)
  end.

(** [execute_bytecode_step], after the instruction has been charged and without
    [maybe_collect], which [Collector.run_collecting] adds. *)
Definition step_op (fuel : nat) (op : Op) (span : Span) (stack : Stack) (pc : N)
    : M W BytecodeStep :=
  match op with
  | Op_Constant literal => next op span pc (literal_value literal :: stack)
  | Op_Load name =>
      st ← get;
      value ← lift (ok_or (error_at ("undefined name '" +:+ name +:+ "'") span)
                      (lookup_name st name));
      next op span pc (value :: stack)
  | Op_Store name =>
      value ← peek stack;
      st ← get;
      _ ← assign (S (size (scopes st))) (environment st) name value span;
      next op span pc stack
  | Op_Define name mutable =>
      value ← peek stack;
      st ← get;
      replaced ← insert_binding (environment st) name (mkBinding value mutable);
      if replaced : bool
      then throw (error_at ("'" +:+ name +:+ "' is already declared in this scope") span)
      else next op span pc stack
  | Op_Pop => next op span pc (tail stack)
  | Op_Unary operator =>
      '(value, stack) ← pop stack;
      value ← match operator with
              | Tk_Minus => lift (negate value span)
              | Tk_Bang => b ← lift (expect_bool value span); mret (V_Bool (negb b))
              | _ => panic
              end;
      next op span pc (value :: stack)
  | Op_Binary operator =>
      '(rhs, stack) ← pop stack;
      '(lhs, stack) ← pop stack;
      value ← lift_r (match lhs, rhs with
                      | V_Int a, V_Int b => vm_int_binary a operator b span
                      | _, _ => binary lhs operator rhs span
                      end);
      next op span pc (value :: stack)
  | Op_Jump target => mret (Step_Next target stack)
  | Op_JumpIfFalse target =>
      value ← peek stack;
      b ← lift (expect_bool value span);
      if b : bool then next op span pc stack else mret (Step_Next target stack)
  | Op_Call arity | Op_PerformCall arity => step_call fuel op arity span pc stack
  | Op_MakeArray length =>
      '(values, stack) ← split_off length stack;
      next op span pc (V_Array values :: stack)
  | Op_MakeText length =>
      '(values, stack) ← split_off length stack;
      st ← get;
      text ← lift (make_text st values "" span);
      next op span pc (V_String text :: stack)
  | Op_Index =>
      '(index, stack) ← pop stack;
      index ← lift (expect_index index span);
      '(collection, stack) ← pop stack;
      value ← lift (index_value collection index span);
      next op span pc (value :: stack)
  | Op_Coalesce target =>
      match stack with
      | [] | V_Null :: _ => next op span pc stack
      | _ => mret (Step_Next target stack)
      end
  | Op_Propagate =>
      '(value, stack) ← pop stack;
      match value with
      | V_Ok value => next op span pc (value :: stack)
      | V_Err value => mret (Step_Return (V_Err value))
      | other => throw (error_at ("or give needs a Result, found " +:+ type_name other) span)
      end
  | Op_Get name =>
      '(object, stack) ← pop stack;
      ref ← fresh;
      value ← lift (get_value ref object name span);
      next op span pc (value :: stack)
  | Op_Print =>
      '(value, stack) ← pop stack;
      _ ← update (λ st, set_printed (printed st ++ [text_of st value]) st);
      next op span pc (V_Null :: stack)
  | Op_EnterScope =>
      st ← get;
      env ← child_scope (environment st) [];
      _ ← update (set_environment env);
      next op span pc stack
  | Op_ExitScope =>
      st ← get;
      scope ← scope_at (environment st);
      parent ← unwrap (s_parent scope);
      _ ← update (set_environment parent);
      next op span pc stack
  | Op_MakeFunction name params body =>
      ref ← fresh;
      _ ← update (λ st, set_functions
            (<[ref := mkFunction name params body (environment st)]> (functions st)) st);
      next op span pc (V_Function ref :: stack)
  | Op_Return => '(value, _) ← pop stack; mret (Step_Return value)
  | Op_DefineRecord name fields derives =>
      st ← get;
      ref ← fresh;
      let value := V_RecordType (mkRecordType ref (qualified st name) fields derives) in
      _ ← declare name value;
      next op span pc (value :: stack)
  | Op_DefineEnum name variants payload_variants =>
      st ← get;
      ref ← fresh;
      let value := V_EnumType (mkEnumType ref (qualified st name) variants payload_variants) in
      _ ← declare name value;
      next op span pc (value :: stack)
  | Op_DefineProtocol name members =>
      st ← get;
      ref ← fresh;
      let value := V_ProtocolType ref (qualified st name) members in
      _ ← declare name value;
      next op span pc (value :: stack)
  | Op_AdoptProtocol protocol type_name mappings =>
      value ← adopt protocol type_name mappings span;
      next op span pc (value :: stack)
  | Op_Prepare _ | Op_Perform => next op span pc stack
  | Op_Promise clauses =>
      _ ← update (λ st, set_promises (active_promises st ++ clauses) st);
      next op span pc stack
  | Op_Match arms =>
      '(subject, stack) ← pop stack;
      flow ← execute_match subject arms span;
      push_flow op span pc stack flow false
  | Op_DefineModule name body exports =>
      value ← execute_module name body exports span;
      next op span pc (value :: stack)
  | Op_DefinePattern pattern =>
      value ← peek stack;
      st ← get;
      bindings ← lift (ok_or (error_at "this value did not match the binding pattern" span)
                         (pattern_bindings st pattern value));
      _ ← declare_all bindings span;
      next op span pc stack
  | Op_Iterate name pattern body =>
      '(iterable, stack) ← pop stack;
      values ← iteration_values fuel iterable span;
      flow ← iterate name pattern body span values V_Null;
      push_flow op span pc stack flow false
  | Op_Repeat condition body =>
      flow ← repeat fuel condition body span V_Null;
      push_flow op span pc stack flow false
  | Op_LoopExit skip => mret (if skip then Step_Skip else Step_Stop)
  | Op_IfCarries patterns then_branch else_branch =>
      '(subject, stack) ← pop stack;
      flow ← execute_if_carries subject patterns then_branch else_branch;
      push_flow op span pc stack flow true
  | Op_Sample title body shows =>
      _ ← execute_sample title body shows span;
      next op span pc (V_Null :: stack)
  | Op_Using name body =>
      '(resource, stack) ← pop stack;
      flow ← execute_using name resource body span;
      push_flow op span pc stack flow false
  end.

(** [execute_bytecode_step] *)
Definition step (fuel : nat) (code : Code) (stack : Stack) (pc : N) : M W BytecodeStep :=
  _ ← check_cancelled;
  match code !! N.to_nat pc with
  | None => panic
  | Some (mkInstruction op span) => _ ← charge span; step_op fuel op span stack pc
  end.

(** The [while] loop of [execute_chunk_vm]. *)
Fixpoint run (fuel : nat) (code : Code) (stack : Stack) (pc : N) : M W VmFlow :=
  if pc <? len code then
    match fuel with
    | O => out_of_fuel
    | S fuel =>
        s ← step fuel code stack pc;
        match s with
        | Step_Next pc stack => run fuel code stack pc
        | Step_Return v => mret (Flow_Return v)
        | Step_Stop => mret Flow_Stop
        | Step_Skip => mret Flow_Skip
        end
    end
  else
    _ ← check_cancelled;
    mret (Flow_Continue (default V_Null (head stack))).

(** [execute_chunk_vm]: promises made in the chunk end with it. *)
Definition execute_chunk_vm (fuel : nat) (chunk : Chunk) : M W VmFlow :=
  st ← get;
  finally (run fuel (chunk_code chunk) [] 0)
    (λ st', set_promises (take (length (active_promises st)) (active_promises st')) st').
End execution.

End machine.
