(* ===== verification/Tree.v ===== *)
(** * The tree interpreter

    [Interpreter::evaluate], [evaluate_match], [execute] and [execute_block]
    (src/src/runtime.rs), the second engine of the runtime, which walks the
    syntax tree.  It shares the state, scopes, patterns, arithmetic and calls of
    [Vm], and [Flow] has the constructors of [VmFlow].  [or give] is a value,
    [EarlyReturn], that every enclosing expression passes on at once
    ([evaluate_part!]), before its own result is charged, and that the enclosing
    statement turns into a return.

    Two points where the engines differ are parameters.  Member access is spelled
    out in [evaluate] and again, for the machine, in [get_value]; [tree_get] is
    the former.  A function declaration replaces a name its scope already has,
    where the machine refuses it; that is [redeclare] = [true]. *)
From Stdlib Require Import Ascii.
From S2P Require Import Prelude Ast Bytecode Verifier Values Gate Vm.
Open Scope list_scope.

Section tree.
Context {W : Type} `{Foreign} `{Host W}.

(** Runs function bodies, and the fuel of protocol dispatch. *)
Variable exec : FunctionBody → M W VmFlow.
Variable fuel : nat.
Variable get_member : N → Value → string → Span → result NivError Value.
Variable redeclare : bool.

Definition is_early (v : Value) : bool := match v with V_EarlyReturn _ => true | _ => false end.

(** [evaluate_part!] *)
Definition part (m : M W Value) (k : Value → M W Value) : M W Value :=
  v ← m; if is_early v then mret v else k v.

(** The end of [evaluate]. *)
Definition finish (span : Span) (v : Value) : M W Value :=
  _ ← charge_memory v span; mret v.

(** The argument loops. *)
Definition parts (ev : Expr → M W Value) : list Expr → list Value → (list Value → M W Value)
    → M W Value :=
  fix go es evaluated k :=
    match es with
    | [] => k evaluated
    | e :: es => part (ev e) (λ v, go es (evaluated ++ [v]) k)
    end.

(** One piece of a text literal, then the size check. *)
Definition push_piece (span : Span) (output text : string) (k : string → M W Value) : M W Value :=
  st ← get;
  let output := output +:+ text in
  if payload_limit st <? str_len output then throw (text_too_long_error (payload_limit st) span)
  else k output.

(** The loop over the pieces of a text literal. *)
Definition each_piece (piece : TextPiece → string → (string → M W Value) → M W Value)
    : list TextPiece → string → (string → M W Value) → M W Value :=
  fix go pieces output k :=
    match pieces with
    | [] => k output
    | p :: pieces => piece p output (λ output, go pieces output k)
    end.

(** The loop over the arms of a [choose]. *)
Definition each_arm (arm : MatchArm → M W Value → M W Value) (none : M W Value)
    : list MatchArm → M W Value :=
  fix go arms :=
    match arms with
    | [] => none
    | a :: arms => arm a (go arms)
    end.

(** A call with the callee's and the arguments' evaluation. *)
Definition evaluate_call (ev : Expr → M W Value) (callee : Expr) (arguments : list Expr)
    (span : Span) : M W Value :=
  part (ev callee) (λ callee,
    parts ev arguments [] (λ arguments,
      v ← call exec fuel callee arguments span; finish span v)).

(** [evaluate] *)
Fixpoint evaluate (e : Expr) {struct e} : M W Value :=
  _ ← charge (expr_span e);
  match e with
  | Expr_Literal literal span => finish span (literal_value literal)
  | Expr_Variable name span =>
      st ← get;
      v ← lift (ok_or (error_at ("undefined name '" +:+ name +:+ "'") span)
                  (lookup_name st name));
      finish span v
  | Expr_Text pieces span =>
      each_piece (evaluate_piece span) pieces "" (λ output, finish span (V_String output))
  | Expr_Assign name value span =>
      part (evaluate value) (λ v,
        st ← get;
        _ ← assign (S (size (scopes st))) (environment st) name v span;
        finish span v)
  | Expr_Unary operator rhs span =>
      part (evaluate rhs) (λ rhs,
        v ← match operator with
            | Tk_Minus => lift (negate rhs span)
            | Tk_Bang => b ← lift (expect_bool rhs span); mret (V_Bool (negb b))
            | _ => panic
            end;
        finish span v)
  | Expr_Binary lhs operator rhs span =>
      part (evaluate lhs) (λ lhs,
        part (evaluate rhs) (λ rhs,
          v ← lift_r (binary lhs operator rhs span); finish span v))
  | Expr_Logical lhs operator rhs span =>
      part (evaluate lhs) (λ lhs,
        lhs ← lift (expect_bool lhs span);
        match operator, lhs with
        | Tk_Or, true => finish span (V_Bool true)
        | Tk_And, false => finish span (V_Bool false)
        | _, _ =>
            part (evaluate rhs) (λ rhs,
              rhs ← lift (expect_bool rhs span); finish span (V_Bool rhs))
        end)
  | Expr_Call callee arguments _ span => evaluate_call evaluate callee arguments span
  | Expr_Array values span =>
      parts evaluate values [] (λ values, finish span (V_Array values))
  | Expr_Index collection index span =>
      part (evaluate collection) (λ collection,
        part (evaluate index) (λ index,
          index ← lift (expect_index index span);
          v ← lift (index_value collection index span);
          finish span v))
  | Expr_Coalesce lhs rhs span =>
      part (evaluate lhs) (λ lhs,
        if value_eq lhs V_Null then v ← evaluate rhs; finish span v else finish span lhs)
  | Expr_Propagate value span =>
      part (evaluate value) (λ v,
        match v with
        | V_Ok v => finish span v
        | V_Err v => finish span (V_EarlyReturn (V_Err v))
        | other => throw (error_at ("or give needs a Result, found " +:+ type_name other) span)
        end)
  | Expr_Perform value span => v ← evaluate value; finish span v
  | Expr_Through input stage span =>
      (** [lower_through], evaluated in place. *)
      match stage with
      | Expr_Call callee arguments _ _ =>
          v ← (_ ← charge span;
               part (evaluate callee) (λ callee,
                 part (evaluate input) (λ input,
                   parts evaluate arguments [input] (λ arguments,
                     v ← call exec fuel callee arguments span; finish span v))));
          finish span v
      | Expr_Variable _ _ | Expr_Get _ _ _ =>
          v ← (_ ← charge span;
               part (evaluate stage) (λ callee,
                 part (evaluate input) (λ input,
                   v ← call exec fuel callee [input] span; finish span v)));
          finish span v
      | _ => panic
      end
  | Expr_Get object name span =>
      part (evaluate object) (λ object,
        ref ← fresh;
        v ← lift (get_member ref object name span);
        finish span v)
  | Expr_Match subject arms span =>
      part (evaluate subject) (λ subject,
        v ← each_arm (evaluate_arm subject span)
              (throw (error_at "no choose arm matched this value; add an 'otherwise' arm" span))
              arms;
        finish span v)
  end
with evaluate_piece (span : Span) (piece : TextPiece) (output : string)
    (k : string → M W Value) {struct piece} : M W Value :=
  match piece with
  | TextPiece_Literal text => push_piece span output text k
  | TextPiece_Hole hole =>
      part (evaluate hole) (λ v,
        st ← get;
        text ← lift (text_hole_string st v span);
        push_piece span output text k)
  end
with evaluate_arm (subject : Value) (span : Span) (arm : MatchArm) (continue : M W Value)
    {struct arm} : M W Value :=
  match arm with
  | mkMatchArm patterns guard value _ =>
      st ← get;
      match first_match st patterns subject with
      | None => continue
      | Some bindings =>
          env ← child_scope (environment st) (immutable bindings);
          outcome ← in_environment env
            (let body := v ← evaluate value; mret (Some v) in
             match guard with
             | None => body
             | Some guard =>
                 decision ← evaluate guard;
                 if is_early decision then mret (Some decision)
                 else b ← lift (expect_bool decision span);
                      if b : bool then body else mret None
             end);
          match outcome with
          | Some v => mret v
          | None => continue
          end
      end
  end.

(** The unfoldings of the two loops. *)
Lemma evaluate_match_eq subject arms span :
  evaluate (Expr_Match subject arms span) =
  (_ ← charge span;
   part (evaluate subject) (λ subject,
     v ← each_arm (evaluate_arm subject span)
           (throw (error_at "no choose arm matched this value; add an 'otherwise' arm" span))
           arms;
     finish span v)).
Proof. done. Qed.

Lemma evaluate_text_eq pieces span :
  evaluate (Expr_Text pieces span) =
  (_ ← charge span;
   each_piece (evaluate_piece span) pieces "" (λ output, finish span (V_String output))).
Proof. done. Qed.

(** ** Statements *)

(** The value of a statement's expression; [or give] returns. *)
Definition after (m : M W Value) (k : Value → M W VmFlow) : M W VmFlow :=
  v ← m;
  match v with
  | V_EarlyReturn v => mret (Flow_Return v)
  | v => k v
  end.

(** [Ok(Flow::Continue(value))] *)
Definition continue_with (v : Value) : M W VmFlow := mret (Flow_Continue v).

(** [Let] and [Prepare]: a declaration that refuses a name the scope has. *)
Definition declare_new (name : string) (mutable : bool) (value : Value) (span : Span)
    : M W VmFlow :=
  st ← get;
  scope ← scope_at (environment st);
  if bool_decide (is_Some (s_values scope !! name)) then
    throw (error_at ("'" +:+ name +:+ "' is already declared in this scope") span)
  else
    _ ← insert_binding (environment st) name (mkBinding value mutable);
    continue_with value.

(** The loop of [execute_block] and of [run]. *)
Definition run_statements (execute : Stmt → M W VmFlow) : list Stmt → Value → M W VmFlow :=
  fix go ss last :=
    match ss with
    | [] => continue_with last
    | s :: ss =>
        flow ← execute s;
        match flow with
        | Flow_Continue v => go ss v
        | other => mret other
        end
    end.

(** [execute_block] in the current environment: promises end with the block. *)
Definition block (execute : Stmt → M W VmFlow) (ss : list Stmt) : M W VmFlow :=
  st ← get;
  finally (run_statements execute ss V_Null)
    (λ st', set_promises (take (length (active_promises st)) (active_promises st')) st').

(** [execute_block] *)
Definition execute_block (execute : Stmt → M W VmFlow) (ss : list Stmt) (env : N) : M W VmFlow :=
  in_environment env (block execute ss).

(** The [while] loop; [passes] bounds its passes. *)
Fixpoint while_loop (passes : nat) (condition : M W Value) (body : M W VmFlow) (span : Span)
    (last : Value) : M W VmFlow :=
  match passes with
  | O => out_of_fuel
  | S passes =>
      after condition (λ decision,
        b ← lift (expect_bool decision span);
        if b : bool then
          flow ← body;
          match flow with
          | Flow_Continue v => while_loop passes condition body span v
          | Flow_Return v => mret (Flow_Return v)
          | Flow_Stop => continue_with last
          | Flow_Skip => while_loop passes condition body span last
          end
        else continue_with last)
  end.

(** The [for] loop over the elements. *)
Fixpoint for_loop (name : string) (pattern : option Pattern) (body : M W VmFlow) (span : Span)
    (values : list Value) (last : Value) : M W VmFlow :=
  match values with
  | [] => continue_with last
  | value :: values =>
      st ← get;
      bindings ← lift (iteration_bindings st name pattern value span);
      env ← child_scope (environment st) (immutable bindings);
      flow ← in_environment env body;
      match flow with
      | Flow_Continue v => for_loop name pattern body span values v
      | Flow_Return v => mret (Flow_Return v)
      | Flow_Stop => continue_with last
      | Flow_Skip => for_loop name pattern body span values last
      end
  end.

(** [Using] *)
Definition using_resource (name : string) (resource : Value) (body : M W VmFlow) (span : Span)
    : M W VmFlow :=
  let refuse :=
    throw (error_at ("using needs a closable resource, found " +:+ type_name resource) span) in
  match resource with
  | V_Handle kind ref =>
      if closable kind then
        st ← get;
        env ← child_scope (environment st) [(name, mkBinding resource false)];
        then_close (in_environment env body) kind ref span
      else refuse
  | _ => refuse
  end.

(** [Sample] *)
Definition run_sample (title : string) (body : M W VmFlow) (shows : option string) (span : Span)
    : M W VmFlow :=
  st ← get;
  if run_samples st then
    env ← child_scope (environment st) [];
    flow ← in_environment env body;
    match flow with
    | Flow_Continue value =>
        st ← get;
        match shows with
        | Some expected =>
            if bool_decide (text_of st value = expected) then continue_with V_Null
            else throw (error_at ("sample '" +:+ title +:+ "' shows " +:+ debug_text expected
                                    +:+ ", produced " +:+ debug_text (text_of st value)) span)
        | None => continue_with V_Null
        end
    | Flow_Return _ =>
        throw (error_at ("sample '" +:+ title +:+ "' ends with an expression, not 'give'") span)
    | Flow_Stop | Flow_Skip => throw (loop_exit_escape_error span)
    end
  else continue_with V_Null.

(** [Adoption] *)
Definition adopt_members (protocol : string) (ty : TypeRef) (members : list AdoptionMember)
    : M W VmFlow :=
  st ← get;
  let protocol_name := match lookup_name st protocol with
    | Some (V_ProtocolType _ name _) => name
    | _ => qualified st protocol
    end in
  let schema := schema_name ty in
  let base := default schema (head (split "<"%char schema)) in
  let qualified_base := qualified st base in
  _ ← fold_left_M (λ _ mapping,
        st ← get;
        implementation ←
          lift (ok_or (error_at ("unknown protocol implementation '"
                                   +:+ adoption_implementation mapping +:+ "'")
                         (adoption_span mapping))
                  (lookup_name st (adoption_implementation mapping)));
        update (λ st, set_dispatch
          (<[(protocol_name, adoption_member mapping, qualified_base) := implementation]>
             (<[(protocol_name, adoption_member mapping, base) := implementation]>
                (protocol_dispatch st))) st))
        members tt;
  continue_with (match members with [] => V_Null | _ => V_Bool true end).

(** [Module] *)
Definition run_module (name : string) (body : M W VmFlow) (exports : list string) (span : Span)
    : M W VmFlow :=
  st ← get;
  env ← child_scope (globals st) [];
  flow ← in_environment env
           (st ← get;
            finally (_ ← update (set_namespace (namespace st ++ [name])); body)
              (set_namespace (namespace st)));
  match flow with
  | Flow_Continue _ =>
      scope ← scope_at env;
      values ← lift (module_exports name scope exports span);
      ref ← fresh;
      let module := V_Module ref values in
      _ ← declare name module;
      continue_with module
  | Flow_Return _ => throw (error_at "give may only appear inside a function" span)
  | Flow_Stop | Flow_Skip => throw (loop_exit_escape_error span)
  end.

(** A declaration that makes a value named in the current scope. *)
Definition declare_value (name : string) (value : N → Value) : M W VmFlow :=
  ref ← fresh;
  _ ← declare name (value ref);
  continue_with (value ref).

(** The binding of a function declaration. *)
Definition declare_function (name : string) (value : Value) : M W unit :=
  if redeclare then declare name value
  else
    st ← get;
    scope ← scope_at (environment st);
    if bool_decide (is_Some (s_values scope !! name)) then
      throw (NivError_new ("'" +:+ name +:+ "' is already declared in this scope") 1 1)
    else declare name value.

(** [execute] *)
Fixpoint execute_stmt (s : Stmt) {struct s} : M W VmFlow :=
  _ ← charge (statement_span s);
  match s with
  | Stmt_Prepare name _ initializer _ =>
      after (evaluate initializer) (λ v, declare_new name false v (expr_span initializer))
  | Stmt_Let name mutable _ initializer _ =>
      after (evaluate initializer) (λ v, declare_new name mutable v (expr_span initializer))
  | Stmt_LetPattern pattern initializer span =>
      after (evaluate initializer) (λ v,
        st ← get;
        bindings ← lift (ok_or (error_at "this value did not match the binding pattern" span)
                           (pattern_bindings st pattern v));
        _ ← declare_all bindings span;
        continue_with v)
  | Stmt_Expression e => after (evaluate e) continue_with
  | Stmt_Print e _ =>
      after (evaluate e) (λ v,
        _ ← update (λ st, set_printed (printed st ++ [text_of st v]) st);
        continue_with V_Null)
  | Stmt_Block ss _ =>
      st ← get;
      env ← child_scope (environment st) [];
      execute_block execute_stmt ss env
  | Stmt_If condition then_branch else_branch span =>
      after (evaluate condition) (λ condition,
        b ← lift (expect_bool condition span);
        if b : bool then execute_stmt then_branch
        else match else_branch with
             | Some branch => execute_stmt branch
             | None => continue_with V_Null
             end)
  | Stmt_IfCarries subject patterns then_branch else_branch _ =>
      after (evaluate subject) (λ subject,
        st ← get;
        match (match subject with V_Null => None | _ => first_match st patterns subject end) with
        | Some bindings =>
            env ← child_scope (environment st) (immutable bindings);
            execute_block execute_stmt [then_branch] env
        | None =>
            match else_branch with
            | Some branch => execute_stmt branch
            | None => continue_with V_Null
            end
        end)
  | Stmt_While condition body span =>
      while_loop fuel (evaluate condition) (execute_stmt body) span V_Null
  | Stmt_Stop _ => mret Flow_Stop
  | Stmt_Skip _ => mret Flow_Skip
  | Stmt_Promise clauses _ =>
      _ ← update (λ st, set_promises (active_promises st ++ clauses) st);
      continue_with V_Null
  | Stmt_Trusted _ _ | Stmt_Doc _ _ | Stmt_Export _ _ => continue_with V_Null
  | Stmt_Generator _ _ _ span | Stmt_Expand _ _ _ span =>
      throw (error_at "generator expansion runs before execution" span)
  | Stmt_Sample title body shows span => run_sample title (block execute_stmt body) shows span
  | Stmt_For name pattern iterable body span =>
      after (evaluate iterable) (λ iterable,
        values ← iteration_values exec fuel iterable span;
        for_loop name pattern (block execute_stmt [body]) span values V_Null)
  | Stmt_Using name resource body span =>
      after (evaluate resource) (λ resource,
        using_resource name resource (block execute_stmt [body]) span)
  | Stmt_Function name _ params _ _ _ body _ =>
      ref ← fresh;
      _ ← update (λ st, set_functions
            (<[ref := mkFunction name (map param_name params) (Body_Tree body)
                        (environment st)]> (functions st)) st);
      _ ← declare_function name (V_Function ref);
      continue_with (V_Function ref)
  | Stmt_Return value _ =>
      match value with
      | Some e =>
          v ← evaluate e;
          mret (Flow_Return (match v with V_EarlyReturn v => v | v => v end))
      | None => mret (Flow_Return V_Null)
      end
  | Stmt_Record name _ fields derives _ =>
      st ← get;
      declare_value name (λ ref, V_RecordType (mkRecordType ref (qualified st name)
        (map (λ f, (field_name f, schema_name (field_ty f))) fields) derives))
  | Stmt_Enum name _ variants _ =>
      st ← get;
      declare_value name (λ ref, V_EnumType (mkEnumType ref (qualified st name)
        (map variant_name variants)
        (map variant_name
           (List.filter (λ v, bool_decide (is_Some (variant_payload v))) variants))))
  | Stmt_Protocol name members _ =>
      st ← get;
      declare_value name (λ ref, V_ProtocolType ref (qualified st name)
        (map member_name members))
  | Stmt_Adoption protocol ty members _ => adopt_members protocol ty members
  | Stmt_Import _ _ span => throw (error_at "use requires file-context compilation" span)
  | Stmt_Module name body exports span =>
      run_module name (block execute_stmt body) exports span
  end.
End tree.

(** Member access as [evaluate] spells it out: a record's fields through
    [field_indices], whatever their number. *)
Definition tree_get `{Foreign} (ref : N) (object : Value) (name : string) (span : Span)
    : result NivError Value :=
  match object with
  | V_Record type_name fields =>
      ok_or (error_at (type_name +:+ " has no field '" +:+ name +:+ "'") span)
        (member_get fields name)
  | object => get_value ref object name span
  end.

(** Evaluating a pipeline is evaluating the call it stands for. *)
Lemma evaluate_through {W} `{Foreign} `{Host W} exec fuel get labels input stage span e :
  lower_through labels input stage span = Some e →
  evaluate (W := W) exec fuel get (Expr_Through input stage span) =
  (_ ← charge span; v ← evaluate exec fuel get e; finish span v).
Proof. destruct stage; intros [= <-]; done. Qed.
