(* ===== verification/TreeLift.v ===== *)
(** * Relations the tree interpreter respects

    A relation between computations that is closed under the operations the tree
    interpreter is built from relates what two tree interpreters do, when it
    relates their calls.  The order of fuel ([VmMono]), what executions leave
    alone ([VmKeeps]) and the comparison of rules ([Sim]) are instances. *)
From S2P Require Import Prelude Ast Bytecode Verifier Values Gate Vm Tree.
Open Scope list_scope.

(** A change of the state that touches neither budgets nor promises. *)
Definition modest {W} (f : Interp W → Interp W) : Prop := ∀ st,
  instruction_budget (f st) = instruction_budget st ∧ memory_budget (f st) = memory_budget st ∧
  payload_limit (f st) = payload_limit st ∧ active_promises (f st) = active_promises st.

(** What expressions are built from. *)
Class Lifting {W} `{Foreign} `{!Host W} (Rel : ∀ A, M W A → M W A → Prop) : Prop := {
  rel_ret : ∀ A (a : A), Rel A (mret a) (mret a);
  rel_bind : ∀ A B (m m' : M W A) (f f' : A → M W B),
    Rel A m m' → (∀ a, Rel B (f a) (f' a)) → Rel B (m ≫= f) (m' ≫= f');
  rel_get : Rel _ get get;
  rel_throw : ∀ A e, Rel A (throw e) (throw e);
  rel_panic : ∀ A, Rel A panic panic;
  rel_dangling : ∀ A, Rel A dangling dangling;
  rel_out_of_fuel : ∀ A (m : M W A), Rel A out_of_fuel m;
  rel_update : ∀ f, modest f → Rel _ (update f) (update f);
  rel_finally : ∀ A (m m' : M W A) f,
    modest f → Rel A m m' → Rel A (finally m f) (finally m' f);
  rel_charge : ∀ span, Rel _ (charge span) (charge span);
  rel_charge_memory : ∀ v span, Rel _ (charge_memory v span) (charge_memory v span) }.

(** What statements are built from. *)
Class StatementLifting {W} `{Foreign} `{!Host W} (Rel : ∀ A, M W A → M W A → Prop) : Prop := {
  rel_promise : ∀ clauses : list PromiseClause,
    Rel _ (update (λ st, set_promises (active_promises st ++ clauses) st))
      (update (λ st, set_promises (active_promises st ++ clauses) st));
  rel_truncate : ∀ m m' : M W VmFlow, Rel _ m m' →
    Rel _ (st ← get; finally m (λ st', set_promises
             (take (length (active_promises st)) (active_promises st')) st'))
      (st ← get; finally m' (λ st', set_promises
             (take (length (active_promises st)) (active_promises st')) st'));
  rel_then_close : ∀ (m m' : M W VmFlow) kind ref span,
    Rel _ m m' → Rel _ (then_close m kind ref span) (then_close m' kind ref span) }.

Create HintDb rel.

Section lifting.
Context {W : Type} `{Foreign} `{!Host W}.
Context (Rel : ∀ A, M W A → M W A → Prop) `{!Lifting Rel}.
#[local] Set Default Proof Using "All".
#[local] Notation "m ⊑ m'" := (Rel _ m m') (at level 70).
#[local] Hint Extern 0 (Rel _ _ _) =>
  first [apply rel_ret | apply rel_get | apply rel_throw | apply rel_panic | apply rel_dangling
        | apply rel_out_of_fuel | apply rel_charge | apply rel_charge_memory] : rel.

Lemma rel_lift {A} (r : result NivError A) : lift r ⊑ lift r.
Proof. destruct r; cbn [lift]; eauto with rel. Qed.
Lemma rel_unwrap {A} (o : option A) : unwrap o ⊑ unwrap o.
Proof. destruct o; cbn [unwrap]; eauto with rel. Qed.
Lemma rel_fresh : fresh ⊑ fresh.
Proof.
  change (fresh (W := W)) with
    (st ← get; _ ← update (set_next_ref (next_ref st + 1)); mret (M := M W) (next_ref st)).
  apply rel_bind; [eauto with rel|]. intros st. apply rel_bind; [by apply rel_update|eauto with rel].
Qed.
Lemma rel_in_environment {A} env (m m' : M W A) :
  m ⊑ m' → in_environment env m ⊑ in_environment env m'.
Proof.
  intros Hm. unfold in_environment. apply rel_bind; [eauto with rel|]. intros st.
  apply rel_finally; [done|]. apply rel_bind; [by apply rel_update|done].
Qed.
Lemma rel_fold {A S} (f : S → A → M W S) l s :
  (∀ s a, f s a ⊑ f s a) → fold_left_M f l s ⊑ fold_left_M f l s.
Proof.
  intros Hf. revert s. induction l as [|x l IH]; intros s; cbn; [eauto with rel|]. by apply rel_bind.
Qed.
#[local] Hint Resolve rel_lift rel_unwrap rel_fresh rel_in_environment : rel.

(** Follow the structure of two computations. *)
#[local] Ltac rel :=
  repeat first
    [ solve [eauto with rel]
    | apply rel_bind; [|intros ?]
    | match goal with
      | |- Rel _ (update _) _ => apply rel_update; done
      | |- Rel _ (finally _ _) _ => apply rel_finally; [done|]
      | |- Rel _ (match ?x with _ => _ end) (match ?x with _ => _ end) => destruct x
      end ].

Lemma rel_lift_r r : lift_r (W := W) r ⊑ lift_r r.
Proof. unfold lift_r. rel. Qed.
Lemma rel_scope_at env : scope_at (W := W) env ⊑ scope_at env.
Proof. unfold scope_at. rel. Qed.
Lemma rel_child_scope parent bindings : child_scope (W := W) parent bindings ⊑ child_scope parent bindings.
Proof. unfold child_scope. rel. Qed.
#[local] Hint Resolve rel_lift_r rel_scope_at rel_child_scope : rel.
Lemma rel_insert_binding env name b :
  insert_binding (W := W) env name b ⊑ insert_binding env name b.
Proof. unfold insert_binding. rel. Qed.
#[local] Hint Resolve rel_insert_binding : rel.
Lemma rel_assign fuel env name v span :
  assign (W := W) fuel env name v span ⊑ assign fuel env name v span.
Proof. revert env. induction fuel as [|fuel IH]; intros env; cbn [assign]; rel. Qed.
Lemma rel_declare name v : declare (W := W) name v ⊑ declare name v.
Proof. unfold declare. rel. Qed.
#[local] Hint Resolve rel_assign rel_declare : rel.
Lemma rel_declare_all bindings span : declare_all (W := W) bindings span ⊑ declare_all bindings span.
Proof.
  unfold declare_all. apply rel_bind; [eauto with rel|intros st]. apply rel_fold. intros _ [n v]. rel.
Qed.
Lemma rel_declare_function redeclare name v :
  declare_function (W := W) redeclare name v ⊑ declare_function redeclare name v.
Proof. unfold declare_function. rel. Qed.
Lemma rel_finish span v : finish (W := W) span v ⊑ finish span v.
Proof. unfold finish. rel. Qed.
#[local] Hint Resolve rel_declare_all rel_finish : rel.

Lemma rel_part m m' (k k' : Value → M W Value) :
  m ⊑ m' → (∀ v, k v ⊑ k' v) → part m k ⊑ part m' k'.
Proof. intros Hm Hk. unfold part. rel. Qed.
Lemma rel_after m m' (k k' : Value → M W VmFlow) :
  m ⊑ m' → (∀ v, k v ⊑ k' v) → after m k ⊑ after m' k'.
Proof. intros Hm Hk. unfold after. apply rel_bind; [done|]. intros []; rel. Qed.
Lemma rel_parts ev ev' es acc (k k' : list Value → M W Value) :
  Forall (λ e, ev e ⊑ ev' e) es → (∀ vs, k vs ⊑ k' vs) → parts ev es acc k ⊑ parts ev' es acc k'.
Proof.
  intros Hes Hk. revert acc. induction Hes as [|e es He _ IH]; intros acc; cbn [parts]; [done|].
  apply rel_part; [done|]. intros v. apply IH.
Qed.
Lemma rel_push_piece span output text (k k' : string → M W Value) :
  (∀ o, k o ⊑ k' o) → push_piece span output text k ⊑ push_piece span output text k'.
Proof. intros Hk. unfold push_piece. rel. Qed.

(** ** Two interpreters *)

Context (exec exec' : FunctionBody → M W VmFlow) (fuel fuel' : nat).
Context (gm gm' : N → Value → string → Span → result NivError Value).
Hypothesis call_rel : ∀ callee arguments span,
  call exec fuel callee arguments span ⊑ call exec' fuel' callee arguments span.
Hypothesis member_rel : ∀ ref v name span, lift (gm ref v name span) ⊑ lift (gm' ref v name span).
#[local] Hint Resolve call_rel member_rel : rel.

#[local] Ltac rels :=
  repeat first
    [ progress rel
    | apply rel_part; [|intros ?]
    | apply rel_after; [|intros ?] ].

Lemma evaluate_rel e : evaluate exec fuel gm e ⊑ evaluate exec' fuel' gm' e.
Proof.
  induction e using Expr_nested_ind with
    (Q := λ a, ∀ subject span k k', k ⊑ k' →
       evaluate_arm exec fuel gm subject span a k ⊑ evaluate_arm exec' fuel' gm' subject span a k')
    (R := λ p, ∀ span output k k', (∀ o, k o ⊑ k' o) →
       evaluate_piece exec fuel gm span p output k ⊑ evaluate_piece exec' fuel' gm' span p output k').
  all: lazymatch goal with
    | |- Rel _ (evaluate _ _ _ (Expr_Text _ _)) _ => rewrite !evaluate_text_eq
    | |- Rel _ (evaluate _ _ _ (Expr_Match _ _ _)) _ => rewrite !evaluate_match_eq
    | _ => cbn [evaluate evaluate_piece evaluate_arm]
    end.
  all: try (rels; fail).
  - apply rel_bind; [eauto with rel|intros _]. generalize "" as output.
    match goal with Hf : Forall _ _ |- _ => rename Hf into Hps end.
    induction Hps as [|p ps' Hp _ IH]; intros output; cbn [each_piece]; [eauto with rel|].
    by apply Hp.
  - apply rel_bind; [eauto with rel|intros _]. unfold evaluate_call.
    apply rel_part; [done|intros ?]. apply rel_parts; [done|]. intros vs. rels.
  - apply rel_bind; [eauto with rel|intros _]. apply rel_parts; [done|]. intros vs. rels.
  - destruct e2; try (rels; fail).
    match goal with Hc : call_parts _ _ |- _ => destruct Hc as [? ?] end.
    rels. apply rel_parts; [done|]. intros vs. rels.
  - rels. match goal with Hf : Forall _ _ |- _ => rename Hf into Harms end.
    induction Harms as [|a' arms' Ha _ IH]; cbn [each_arm]; [eauto with rel|]. by apply Ha.
  - intros. apply rel_bind; [eauto with rel|intros st].
    destruct (first_match _ _ _); [|done].
    apply rel_bind; [eauto with rel|intros env].
    apply rel_bind; [|intros [v|]; [eauto with rel|done]].
    apply rel_in_environment. destruct g; cbn in *; rels.
  - intros. by apply rel_push_piece.
  - intros. apply rel_part; [done|intros v].
    do 2 (apply rel_bind; [eauto with rel|intros ?]). by apply rel_push_piece.
Qed.

(** ** Statements *)

Context `{!StatementLifting Rel}.
Hypothesis values_rel : ∀ iterable span,
  iteration_values exec fuel iterable span ⊑ iteration_values exec' fuel' iterable span.
Hypothesis fuel_le : (fuel ≤ fuel')%nat.
Context (redeclare redeclare' : bool).
Hypothesis function_rel : ∀ name v,
  declare_function (W := W) redeclare name v ⊑ declare_function redeclare' name v.
#[local] Hint Resolve evaluate_rel values_rel function_rel : rel.
#[local] Hint Extern 0 (Rel _ _ _) => apply rel_promise : rel.
#[local] Hint Extern 1 (Rel _ (then_close _ _ _ _) _) => apply rel_then_close : rel.

Lemma rel_continue_with v : continue_with (W := W) v ⊑ continue_with v.
Proof using Lifting0. apply rel_ret. Qed.
#[local] Hint Resolve rel_continue_with : rel.

Lemma rel_declare_new name mutable v span :
  declare_new (W := W) name mutable v span ⊑ declare_new name mutable v span.
Proof. unfold declare_new. rel. Qed.

Lemma rel_run_statements ex ex' ss last :
  Forall (λ s, ex s ⊑ ex' s) ss → run_statements ex ss last ⊑ run_statements ex' ss last.
Proof using Lifting0.
  intros Hss. revert last. induction Hss as [|s ss Hs _ IH]; intros last; cbn; [eauto with rel|].
  apply rel_bind; [done|]. intros []; rel.
Qed.

Lemma rel_block ex ex' ss : Forall (λ s, ex s ⊑ ex' s) ss → block ex ss ⊑ block ex' ss.
Proof using Lifting0 StatementLifting0.
  intros Hss. apply rel_truncate. by apply rel_run_statements.
Qed.
#[local] Hint Resolve rel_declare_new rel_block : rel.

Lemma rel_while_loop passes passes' condition condition' body body' span last :
  (passes ≤ passes')%nat → condition ⊑ condition' → body ⊑ body' →
  while_loop passes condition body span last ⊑ while_loop passes' condition' body' span last.
Proof.
  intros Hle Hc Hb. revert passes' last Hle.
  induction passes as [|passes IH]; intros [|passes'] last Hle; cbn [while_loop]; try lia;
    eauto with rel. apply rel_after; [done|]. intros v. rel; apply IH; lia.
Qed.

Lemma rel_for_loop name pattern body body' span values last :
  body ⊑ body' →
  for_loop name pattern body span values last ⊑ for_loop name pattern body' span values last.
Proof.
  intros Hb. revert last. induction values as [|v values IH]; intros last; cbn [for_loop]; rel.
Qed.

Lemma rel_using_resource name resource body body' span :
  body ⊑ body' → using_resource name resource body span ⊑ using_resource name resource body' span.
Proof. intros Hb. unfold using_resource. rel. Qed.

Lemma rel_run_sample title body body' shows span :
  body ⊑ body' → run_sample title body shows span ⊑ run_sample title body' shows span.
Proof. intros Hb. unfold run_sample. rel. Qed.

Lemma rel_adopt_members protocol ty members :
  adopt_members (W := W) protocol ty members ⊑ adopt_members protocol ty members.
Proof.
  unfold adopt_members. apply rel_bind; [eauto with rel|intros st].
  apply rel_bind; [|intros []; eauto with rel]. apply rel_fold. intros _ m. rel.
Qed.

Lemma rel_run_module name body body' exports span :
  body ⊑ body' → run_module name body exports span ⊑ run_module name body' exports span.
Proof.
  intros Hb. unfold run_module. rel.
Qed.

Lemma rel_declare_value name value : declare_value (W := W) name value ⊑ declare_value name value.
Proof. unfold declare_value. rel. Qed.
#[local] Hint Resolve rel_while_loop rel_for_loop rel_using_resource rel_run_sample
  rel_adopt_members rel_run_module rel_declare_value : rel.

Lemma execute_stmt_rel s :
  execute_stmt exec fuel gm redeclare s ⊑ execute_stmt exec' fuel' gm' redeclare' s.
Proof.
  induction s using Stmt_nested_ind; [destruct s; try done|..];
    cbn [execute_stmt]; (apply rel_bind; [apply rel_charge|intros _]);
    unfold execute_block; rels.
Qed.
End lifting.
