(* ===== verification/Engine.v ===== *)
(** * The engines

    The knot of the two engines.  A function body runs on the engine that made
    it, with the fuel that is left ([execute]); [run_bytecode] and [run_tree]
    are the entry points of src/src/runtime.rs, the former with the native tier
    off and without collections. *)
From S2P Require Import Prelude Ast Bytecode Verifier Values Gate Vm Tree.
Open Scope list_scope.

Section engines.
Context {W : Type} `{Foreign} `{Host W}.

(** The parameters of the tree interpreter, and those of the source. *)
Record Rules := mkRules {
  rule_get : N → Value → string → Span → result NivError Value;
  rule_redeclare : bool }.
Definition source_rules : Rules := mkRules tree_get true.

(** Nested execution with the fuel that is left: [execute_chunk] and
    [execute_block]. *)
Fixpoint execute_with (rules : Rules) (fuel : nat) (body : FunctionBody) : M W VmFlow :=
  match fuel with
  | O => out_of_fuel
  | S fuel =>
      match body with
      | Body_Bytecode chunk => execute_chunk_vm (execute_with rules fuel) fuel chunk
      | Body_Tree ss =>
          block (execute_stmt (execute_with rules fuel) fuel (rule_get rules) (rule_redeclare rules))
            ss
      end
  end.
#[local] Notation execute := (execute_with source_rules).

(** [run_bytecode] without [try_root_native] and collections;
    [NativeRoot.run_bytecode_native] and [Collector.run_bytecode_collecting] add
    them. *)
Definition run_bytecode (fuel : nat) (chunk : Chunk) : M W Value :=
  _ ← lift (verify chunk);
  flow ← execute fuel chunk;
  match flow with
  | Flow_Continue value => mret value
  | Flow_Return _ => throw (NivError_new "give may only appear inside a function" 1 1)
  | Flow_Stop | Flow_Skip => throw (loop_exit_escape_error (mkSpan 1 1))
  end.

(** [run]: the tree interpreter's entry point. *)
Fixpoint run_tree_with (rules : Rules) (fuel : nat) (program : list Stmt) (value : Value)
    : M W Value :=
  match program with
  | [] => mret value
  | s :: program =>
      flow ← execute_stmt (execute_with rules fuel) fuel (rule_get rules) (rule_redeclare rules) s;
      match flow with
      | Flow_Continue value => run_tree_with rules fuel program value
      | Flow_Return _ => throw (error_at "give may only appear inside a function" (statement_span s))
      | Flow_Stop | Flow_Skip => throw (loop_exit_escape_error (statement_span s))
      end
  end.
End engines.

Notation execute := (execute_with source_rules).
Notation run_tree := (run_tree_with source_rules).
