(* ===== verification/Clean.v ===== *)
(** * Internal returns stay internal

    The tree interpreter encodes [or give] as a value, [EarlyReturn], on its way
    from the expression to the enclosing statement.  That value is never stored:
    no variable, no field, no element and no implementation of a protocol ever
    holds one, and none is ever given to a native or returned by a call.  The
    machine has no such value at all. *)
From S2P Require Import Prelude Ast Bytecode Verifier Values ValuesOk Gate Vm Tree Engine.
Open Scope list_scope.

(** ** Clean values *)

(** No internal return, at any depth. *)
Fixpoint clean (v : Value) : bool :=
  match v with
  | V_EarlyReturn _ => false
  | V_Array vs | V_Set vs => forallb clean vs
  | V_Map entries => forallb (λ '(k, v), clean k && clean v) entries
  | V_Record _ fields | V_Module _ fields => forallb (λ '(_, v), clean v) fields
  | V_Enum _ _ (Some v) | V_Ok v | V_Err v => clean v
  | _ => true
  end.

(** What an expression gives: a clean value or one on its way out. *)
Definition passing (v : Value) : Prop :=
  match v with V_EarlyReturn v => clean v = true | v => clean v = true end.

Definition clean_bindings (bs : Bindings) : bool := forallb (λ '(_, v), clean v) bs.

Lemma clean_passing v : clean v = true → passing v.
Proof. by destruct v. Qed.
Lemma passing_clean v : passing v → is_early v = false → clean v = true.
Proof. by destruct v. Qed.
#[export] Hint Resolve clean_passing : core.

Lemma clean_literal l : clean (literal_value l) = true.
Proof. by destruct l. Qed.

Section values.
Context `{Foreign}.

Lemma clean_negate v span r : negate v span = Ok r → clean r = true.
Proof.
  destruct v; cbn [negate]; try done.
  - unfold checked_int. destruct (checked _ _ _); [|done]. by intros [= <-].
  - destruct (kind_signed _); [|done]. destruct (checked _ _ _); [|done]. cbn.
    destruct (FixedInt_new _ _); [|done]. by intros [= <-].
  - by intros [= <-].
  - by intros [= <-].
  - destruct (decimal_sub _ _); [|done]. by intros [= <-].
Qed.

Lemma clean_member fields name v :
  forallb (λ '(_, v), clean v) fields = true → member_get fields name = Some v → clean v = true.
Proof.
  induction fields as [|[n w] fields IH]; [done|]. cbn. intros [Hw Hf]%andb_true_iff.
  destruct (member_get fields name); [by apply IH|]. case_bool_decide; [|done]. by intros [= <-].
Qed.

Lemma clean_get ref v name span r :
  clean v = true → tree_get ref v name span = Ok r → clean r = true.
Proof.
  intros Hv. destruct v; cbn [tree_get get_value]; try done.
  - destruct (method_named name) as [[d m]|]; [|done]. destruct (contains _ _); [|done]. by intros [= <-].
  - destruct (member_get fields name) eqn:Hm; [|done]. intros [= <-]. by eapply clean_member.
  - destruct (contains _ _); [|done]. destruct (contains _ _); by intros [= <-].
  - destruct (contains _ _); [|done]. by intros [= <-].
  - destruct (member_get members name) eqn:Hm; [|done]. intros [= <-]. by eapply clean_member.
Qed.

Lemma clean_index v i span r : clean v = true → index_value v i span = Ok r → clean r = true.
Proof.
  intros Hv. destruct v; cbn [index_value]; try done.
  - destruct (_ !! _); [|done]. by intros [= <-].
  - destruct (values !! _) as [w|] eqn:Hw; [|done]. intros [= <-]. cbn in Hv.
    rewrite forallb_forall in Hv. apply Hv, list_elem_of_In. by eapply list_elem_of_lookup_2.
Qed.

Lemma clean_integer lo hi inject overflow a o b span r :
  (∀ z, clean (inject z) = true) →
  integer_binary lo hi inject overflow a o b span = Some (Ok r) → clean r = true.
Proof.
  intros Hi. unfold integer_binary. destruct o; cbn; try done;
    repeat (case_match; try done); by intros [= <-].
Qed.

Lemma clean_fixed a o b span r : fixed_binary a o b span = Some (Ok r) → clean r = true.
Proof.
  unfold fixed_binary. destruct (negb _); [done|].
  assert (∀ z, match FixedInt_new (fixed_kind a) z with
    | Ok i => Ok (V_FixedInt i)
    | Err _ => Err (error_at "fixed-width integer overflow" span) end = Ok r → clean r = true) as Hr.
  { intros z. destruct (FixedInt_new _ _); [|done]. by intros [= <-]. }
  assert (∀ x, integer_binary i128_min i128_max (λ z, V_FixedInt (mkFixed (fixed_kind a) z))
    "fixed-width integer overflow" (fixed_value a) o (fixed_value b) span = Some (Ok x) → clean x = true)
    as Hi by (intros x; by apply clean_integer).
  destruct o; cbn [mbind option_bind];
    try (destruct (integer_binary _ _ _ _ _ _ _ _) as [[x|]|] eqn:E; [| |done]; cbn;
         [|done]; intros Hx; specialize (Hi x eq_refl);
         destruct x; try (by injection Hx as <-); injection Hx; by apply Hr).
  destruct (checked _ _ _); [|done]. cbn. intros [= E]. by eapply Hr.
Qed.

Lemma clean_uint a o b span r : uint_binary a o b span = Some (Ok r) → clean r = true.
Proof.
  unfold uint_binary. destruct o; try (by apply clean_integer).
  destruct (checked _ _ _); [|done]. by intros [= <-].
Qed.
Lemma clean_u128 a o b span r : u128_binary a o b span = Some (Ok r) → clean r = true.
Proof.
  unfold u128_binary. destruct o; try (by apply clean_integer).
  destruct (checked _ _ _); [|done]. by intros [= <-].
Qed.
Lemma clean_float a o b span r : float_binary a o b span = Some (Ok r) → clean r = true.
Proof.
  unfold float_binary. destruct o; cbn; try done; repeat (case_match; try done); by intros [= <-].
Qed.
Lemma clean_bigint a o b span r : bigint_binary a o b span = Some (Ok r) → clean r = true.
Proof.
  unfold bigint_binary. destruct o; cbn; try done; repeat (case_match; try done); by intros [= <-].
Qed.
Lemma clean_decimal a o b span r : decimal_binary a o b span = Some (Ok r) → clean r = true.
Proof.
  unfold decimal_binary, ok_or. destruct o; cbn; try done; repeat (case_match; try done); by intros [= <-].
Qed.
Lemma clean_int a o b span r : int_binary a o b span = Some (Ok r) → clean r = true.
Proof. by apply clean_integer. Qed.

Lemma clean_checked o span r : Some (checked_int o span) = Some (Ok r) → clean r = true.
Proof. destruct o; [|done]. by intros [= <-]. Qed.

Lemma clean_binary a o b span r : binary a o b span = Some (Ok r) → clean r = true.
Proof.
  intros Hv. destruct o; try discriminate Hv; cbn [binary] in Hv; try (by injection Hv as <-).
  all: destruct a; try discriminate Hv; destruct b; try discriminate Hv.
  all: lazymatch type of Hv with
    | fixed_binary _ _ _ _ = _ => by eapply clean_fixed
    | uint_binary _ _ _ _ = _ => by eapply clean_uint
    | u128_binary _ _ _ _ = _ => by eapply clean_u128
    | float_binary _ _ _ _ = _ => by eapply clean_float
    | bigint_binary _ _ _ _ = _ => by eapply clean_bigint
    | decimal_binary _ _ _ _ = _ => by eapply clean_decimal
    | int_binary _ _ _ _ = _ => by eapply clean_int
    | Some (checked_int _ _) = _ => by eapply clean_checked
    | _ => revert Hv; cbn; unfold ok_or; repeat case_match; intros; simplify_eq/=; done
    end.
Qed.
End values.

(** ** Tidy states *)

Section tidy.
Context {W : Type}.
Implicit Types st : Interp W.

(** Every binding and implementation is clean, every function is the tree
    interpreter's, and new references are new. *)
Record tidy st : Prop := mkTidy {
  tidy_scopes : ∀ r s n b, scopes st !! r = Some s → s_values s !! n = Some b → clean (b_value b) = true;
  tidy_dispatch : ∀ k v, protocol_dispatch st !! k = Some v → clean v = true;
  tidy_functions : ∀ r f, functions st !! r = Some f → ∃ ss, f_body f = Body_Tree ss;
  tidy_fresh : ∀ r s, scopes st !! r = Some s → r < next_ref st }.

(** The environment is the same and no scope has moved. *)
Record anchored st st' : Prop := mkAnchored {
  anchored_environment : environment st' = environment st;
  anchored_parent : ∀ r s, scopes st !! r = Some s →
    ∃ s', scopes st' !! r = Some s' ∧ s_parent s' = s_parent s }.

#[export] Instance anchored_preorder : PreOrder anchored.
Proof.
  split.
  - intros st. split; [done|eauto].
  - intros a b c [E1 P1] [E2 P2]. split; [congruence|]. intros r s Hs.
    destruct (P1 _ _ Hs) as (s1 & Hs1 & <-). eauto.
Qed.

(** A change of the state that is tidy. *)
Definition tidies (f : Interp W → Interp W) : Prop := ∀ st, tidy st → tidy (f st) ∧ anchored st (f st).

(** From a tidy state, [m] ends in a tidy state, with the same environment and
    with a result in [P]. *)
Definition gives {A} (m : M W A) (P : A → Prop) : Prop :=
  ∀ st a st', tidy st → m st = Done a st' → tidy st' ∧ anchored st st' ∧ P a.

Definition anything {A} (_ : A) : Prop := True.

Lemma gives_ret {A} (a : A) (P : A → Prop) : P a → gives (mret a) P.
Proof. intros Ha st x st' Ht [= <- <-]. done. Qed.
Lemma gives_throw {A} e (P : A → Prop) : gives (throw e) P.
Proof. done. Qed.
Lemma gives_panic {A} (P : A → Prop) : gives panic P.
Proof. done. Qed.
Lemma gives_dangling {A} (P : A → Prop) : gives dangling P.
Proof. done. Qed.
Lemma gives_out_of_fuel {A} (P : A → Prop) : gives out_of_fuel P.
Proof. done. Qed.
Lemma gives_bind {A B} (m : M W A) (f : A → M W B) (P : A → Prop) (Q : B → Prop) :
  gives m P → (∀ a, P a → gives (f a) Q) → gives (m ≫= f) Q.
Proof.
  intros Hm Hf st b st' Ht. cbv [mbind M_bind]. destruct (m st) as [a st1|e st1| | |] eqn:E; try done.
  destruct (Hm _ _ _ Ht E) as (Ht1 & Ha1 & Ha). intros Hb.
  destruct (Hf _ Ha _ _ _ Ht1 Hb) as (? & ? & ?). split_and!; [done|by etrans|done].
Qed.
Lemma gives_weaken {A} (m : M W A) (P Q : A → Prop) : gives m P → (∀ a, P a → Q a) → gives m Q.
Proof. intros Hm HPQ st a st' Ht E. destruct (Hm _ _ _ Ht E) as (? & ? & ?). auto. Qed.
Lemma gives_read {B} (f : Interp W → M W B) (Q : B → Prop) :
  (∀ st, tidy st → gives (f st) Q) → gives (get ≫= f) Q.
Proof. intros Hf st b st' Ht. by apply Hf. Qed.
Lemma gives_lift {A} (r : result NivError A) (P : A → Prop) :
  (∀ a, r = Ok a → P a) → gives (lift r) P.
Proof. destruct r; intros Ha; [by apply gives_ret, Ha|apply gives_throw]. Qed.
Lemma gives_update f : tidies f → gives (update f) anything.
Proof. intros Hf st a st' Ht [= <- <-]. by destruct (Hf _ Ht). Qed.
Lemma gives_finally {A} (m : M W A) f (P : A → Prop) :
  gives m P → tidies f → gives (finally m f) P.
Proof.
  intros Hm Hf st a st' Ht. unfold finally. destruct (m st) as [x st1|e st1| | |] eqn:E; try done.
  intros [= <- <-]. destruct (Hm _ _ _ Ht E) as (Ht1 & ? & ?). destruct (Hf _ Ht1).
  split_and!; [done|by etrans|done].
Qed.
Lemma gives_with_trace {A} (m : M W A) name span (P : A → Prop) :
  gives m P → gives (with_trace m name span) P.
Proof. intros Hm st a st' Ht. unfold with_trace. destruct (m st) eqn:E; try done. rewrite <- E. by apply Hm. Qed.
Lemma tidy_environment env st : tidy st → tidy (set_environment env st).
Proof. by intros []. Qed.
Lemma gives_in_environment {A} env (m : M W A) (P : A → Prop) :
  gives m P → gives (in_environment env m) P.
Proof.
  intros Hm st a st' Ht. unfold in_environment, finally. cbv [mbind M_bind get update].
  destruct (m (set_environment env st)) as [x st1|e st1| | |] eqn:E; try done. intros [= <- <-].
  destruct (Hm _ _ _ (tidy_environment env _ Ht) E) as (Ht1 & [_ Hp] & Hx).
  split_and!; [by apply tidy_environment|by split|done].
Qed.
Lemma gives_fold {A S} (f : S → A → M W S) l s (Q : S → Prop) :
  Q s → (∀ s a, Q s → gives (f s a) Q) → gives (fold_left_M f l s) Q.
Proof.
  intros Hs Hf. revert s Hs. induction l as [|x l IH]; intros s Hs; cbn; [by apply gives_ret|].
  eapply gives_bind; [by apply Hf|]. auto.
Qed.

(** A change of other components. *)
Lemma tidies_other f :
  (∀ st, scopes (f st) = scopes st ∧ protocol_dispatch (f st) = protocol_dispatch st ∧
    functions (f st) = functions st ∧ next_ref st ≤ next_ref (f st) ∧
    environment (f st) = environment st) → tidies f.
Proof.
  intros Hf st [Hs Hd Hfun Hn]. destruct (Hf st) as (E1 & E2 & E3 & E4 & E5). split; split.
  - by rewrite E1.
  - by rewrite E2.
  - by rewrite E3.
  - intros r s. rewrite E1. intros Hr%Hn. lia.
  - done.
  - rewrite E1. eauto.
Qed.

Lemma gives_fresh : gives fresh anything.
Proof.
  intros st a st' [? ? ? Hn] [= <- <-]. split_and!; [|by split; [|eauto]|done]. split; [done..|].
  cbn. intros r s Hr%Hn. lia.
Qed.
Lemma gives_charge span : gives (charge span) anything.
Proof.
  unfold charge. apply gives_read. intros st _. destruct (instruction_budget st) as [[|p]|].
  - apply gives_throw.
  - by apply gives_update, tidies_other.
  - by apply gives_ret.
Qed.
Lemma gives_scope_at env :
  gives (scope_at env) (λ s, ∀ n b, s_values s !! n = Some b → clean (b_value b) = true).
Proof.
  apply gives_read. intros st Ht. destruct (scopes st !! env) eqn:E; [|apply gives_dangling].
  apply gives_ret. intros n b. by eapply tidy_scopes.
Qed.

Lemma tidy_scope st r s :
  tidy st → (∀ n b, s_values s !! n = Some b → clean (b_value b) = true) → r < next_ref st →
  tidy (set_scopes (<[r := s]> (scopes st)) st).
Proof.
  intros [Hs Hd Hf Hn] Hb Hr. split; [|done|done|].
  - cbn. intros r' s' n b. rewrite lookup_insert. case_decide; [intros [= <-]; apply Hb|eauto].
  - cbn. intros r' s'. rewrite lookup_insert. case_decide; [by intros; subst|eauto].
Qed.

Lemma gives_child_scope parent bindings :
  Forall (λ '(_, b), clean (b_value b) = true) bindings →
  gives (child_scope parent bindings) anything.
Proof.
  intros Hb st env st' Ht [= <- <-].
  assert (tidy (set_next_ref (next_ref st + 1) st)) as Ht1.
  { destruct Ht as [? ? ? Hn]. split; [done..|]. cbn. intros r s Hr%Hn. lia. }
  split_and!; [|split; [done|]|done].
  - apply (tidy_scope (set_next_ref (next_ref st + 1) st)); [done| |cbn; lia]. cbn [s_values].
    assert (∀ m : gmap string Binding, (∀ n b, m !! n = Some b → clean (b_value b) = true) →
      ∀ n b, foldl (λ m '(n, b), <[n := b]> m) m bindings !! n = Some b → clean (b_value b) = true) as Hfold.
    { induction Hb as [|[n b] bs Hb _ IH]; intros m Hm; [done|]. cbn. apply IH. intros n' b'.
      destruct (decide (n' = n)) as [->|Hn]; [rewrite lookup_insert_eq; by intros [= <-]|].
      rewrite lookup_insert_ne by done. apply Hm. }
    apply Hfold. by intros n b [=].
  - intros r s Hr. exists s. split; [|done]. cbn. rewrite lookup_insert_ne; [done|].
    apply (tidy_fresh _ Ht) in Hr. lia.
Qed.

Lemma gives_insert_binding env name b :
  clean (b_value b) = true → gives (insert_binding env name b) anything.
Proof.
  intros Hb st a st' Ht. unfold insert_binding, scope_at. cbv [mbind M_bind get].
  destruct (scopes st !! env) as [s|] eqn:Hs; [|done]. intros [= <- <-].
  split_and!; [|split; [done|]|done].
  - apply tidy_scope; [done| |by eapply tidy_fresh]. cbn [s_values]. intros n b'.
    rewrite lookup_insert. case_decide; [by intros [= <-]|]. by eapply tidy_scopes.
  - intros r s' Hr. cbn. rewrite lookup_insert. case_decide; [|eauto]. subst. simplify_eq. eauto.
Qed.

Lemma gives_assign fuel env name v span :
  clean v = true → gives (assign fuel env name v span) anything.
Proof.
  intros Hv. revert env. induction fuel as [|fuel IH]; intros env; cbn [assign]; [apply gives_dangling|].
  eapply gives_bind; [apply gives_scope_at|]. intros s _. destruct (s_values s !! name) as [b|].
  - destruct (b_mutable b); [|apply gives_throw].
    eapply gives_bind; [by apply gives_insert_binding|]. intros. by apply gives_ret.
  - destruct (s_parent s); [apply IH|apply gives_throw].
Qed.

Lemma gives_declare name v : clean v = true → gives (declare name v) anything.
Proof.
  intros Hv. apply gives_read. intros st _.
  eapply gives_bind; [by apply gives_insert_binding|]. intros. by apply gives_ret.
Qed.

Lemma lookup_clean st name v : tidy st → lookup_name st name = Some v → clean v = true.
Proof.
  intros Ht. unfold lookup_name. generalize (S (size (scopes st))) as n, (environment st) as env.
  induction n as [|n IH]; intros env; [done|]. cbn [lookup_in].
  destruct (scopes st !! env) as [s|] eqn:Hs; [|done]. cbn [mbind option_bind].
  destruct (s_values s !! name) as [b|] eqn:Hb.
  - intros [= <-]. by eapply tidy_scopes.
  - destruct (s_parent s); [|done]. apply IH.
Qed.
End tidy.

(** ** Patterns *)

Section patterns.
Context {W : Type} `{Foreign}.
Implicit Types st : Interp W.

Lemma clean_bind bs name v :
  clean_bindings bs = true → clean v = true → clean_bindings (bs ++ [(name, v)]) = true.
Proof.
  unfold clean_bindings. intros Hb Hv. rewrite forallb_app, Hb. cbn. by rewrite Hv.
Qed.

Lemma pattern_clean st p v bs bs' :
  clean v = true → clean_bindings bs = true → pattern_matches st p v bs = Some bs' →
  clean_bindings bs' = true.
Proof.
  revert p v bs bs'. fix IH 1. intros p v bs bs' Hv Hb. destruct p as [|l| | |name inner|name fields];
    cbn [pattern_matches].
  - by intros [= <-].
  - destruct (value_eq _ _); [|done]. by intros [= <-].
  - destruct v; repeat case_bool_decide; try case_match; intros; simplify_eq; auto using clean_bind.
  - intros [= <-]. by apply clean_bind.
  - destruct v as [ | | | | | | | | | | | | | | | | | | | | |t c [w|]| | | |w|w| | | ]; try done;
      case_bool_decide; try done; by apply IH.
  - destruct v as [ | | | | | | | | | | | | | | | | | |t values| | | | | | | | | | | ]; try done.
    destruct (_ || _); [|done]. revert bs bs' Hb. cbn [clean] in Hv.
    induction fields as [|[f sub] fields IHf]; intros bs bs' Hb; cbn.
    + by intros [= <-].
    + destruct (member_get values f) as [w|] eqn:Hw; [|done]. cbn [mbind option_bind].
      destruct (pattern_matches st sub w bs) as [bs1|] eqn:Hs; [|done]. cbn.
      apply IHf. refine (IH sub w bs _ (clean_member _ _ _ Hv Hw) Hb Hs).
Qed.

Lemma first_match_clean st ps v bs :
  clean v = true → first_match st ps v = Some bs → clean_bindings bs = true.
Proof.
  intros Hv. induction ps as [|p ps IH]; [done|]. cbn.
  destruct (pattern_bindings st p v) eqn:E; [|done]. intros [= <-]. exact (pattern_clean st p v [] _ Hv eq_refl E).
Qed.

Lemma immutable_clean bs :
  clean_bindings bs = true → Forall (λ '(_, b), clean (b_value b) = true) (immutable bs).
Proof.
  unfold clean_bindings, immutable. rewrite forallb_forall. intros Hb. apply Forall_map, Forall_forall.
  intros [n v] Hin%list_elem_of_In. apply (Hb _ Hin).
Qed.

Lemma zip_clean names vs : forallb clean vs = true → clean_bindings (zip names vs) = true.
Proof.
  revert vs. induction names as [|n names IH]; intros [|v vs]; cbn; try done.
  intros [Hv Hvs]%andb_true_iff. apply andb_true_iff. split; [done|by apply IH].
Qed.
End patterns.
