(* ===== verification/CleanTree.v ===== *)
(** * The tree interpreter is clean

    From a tidy state, with natives that are clean, expressions give clean values
    or one internal return on its way out, and statements, calls and whole
    programs end clean in a tidy state. *)
From S2P Require Import Prelude Ast Bytecode Verifier Values ValuesOk Gate Vm Tree Engine Clean.
Open Scope list_scope.

(** ** The interpreter *)

(** Natives given clean values give clean values. *)
Class HostClean (W : Type) `{Host W} : Prop := {
  native_clean : ∀ f arguments span, forallb clean arguments = true →
    gives (host_native f arguments span) (λ v, clean v = true);
  derived_clean : ∀ schema name arguments span v, forallb clean arguments = true →
    host_derived schema name arguments span = Ok v → clean v = true;
  drain_clean : ∀ ref span, gives (host_drain ref span) (λ vs, forallb clean vs = true);
  close_clean : ∀ kind ref span, gives (host_close kind ref span) anything }.

(** What a statement ends with. *)
Definition flow_clean (flow : VmFlow) : Prop :=
  match flow with
  | Flow_Continue v | Flow_Return v => clean v = true
  | Flow_Stop | Flow_Skip => True
  end.

Create HintDb gives.
#[export] Hint Resolve gives_throw gives_panic gives_dangling gives_out_of_fuel gives_fresh
  gives_charge : gives.
#[export] Hint Unfold anything : gives.

Section interpreter.
Context {W : Type} `{Foreign} `{!Host W, !HostClean W}.
#[local] Set Default Proof Using "All".

Lemma gives_charge_memory v span : gives (W := W) (charge_memory v span) anything.
Proof using Type.
  unfold charge_memory. apply gives_read. intros st _. destruct (value_bytes _ v); eauto with gives.
  destruct (memory_budget st); [case_match; eauto with gives|by apply gives_ret].
  by apply gives_update, tidies_other.
Qed.

Lemma gives_finish span v (P : Value → Prop) : P v → gives (W := W) (finish span v) P.
Proof using Type.
  intros Hv. eapply gives_bind; [apply gives_charge_memory|]. intros. by apply gives_ret.
Qed.

Lemma gives_part (m : M W Value) k :
  gives m passing → (∀ v, clean v = true → gives (k v) passing) → gives (part m k) passing.
Proof using Type.
  intros Hm Hk. eapply gives_bind; [done|]. intros v Hv.
  destruct (is_early v) eqn:He; [by apply gives_ret|]. by apply Hk, passing_clean.
Qed.

Lemma gives_parts (ev : Expr → M W Value) es acc k :
  Forall (λ e, gives (ev e) passing) es → forallb clean acc = true →
  (∀ vs, forallb clean vs = true → gives (k vs) passing) → gives (parts ev es acc k) passing.
Proof using Type.
  intros He Hacc Hk. revert acc Hacc. induction He as [|e es He _ IH]; intros acc Hacc; cbn [parts]; [auto|].
  apply gives_part; [done|]. intros v Hv. apply IH. rewrite forallb_app, Hacc. cbn. by rewrite Hv.
Qed.

Lemma gives_push_piece span output text (k : string → M W Value) :
  (∀ o, gives (k o) passing) → gives (push_piece span output text k) passing.
Proof using Type. intros Hk. apply gives_read. intros st _. cbv zeta. case_match; eauto with gives. Qed.

Section execution.
Context (exec : FunctionBody → M W VmFlow).
Hypothesis exec_clean : ∀ ss, gives (exec (Body_Tree ss)) flow_clean.

Lemma gives_call_function ref arguments span :
  forallb clean arguments = true →
  gives (call_function exec ref arguments span) (λ v, clean v = true).
Proof.
  intros Ha. apply gives_read. intros st Ht. destruct (functions st !! ref) as [f|] eqn:Hf; eauto with gives.
  destruct (tidy_functions _ Ht _ _ Hf) as [ss ->].
  eapply gives_bind; [by apply (gives_lift _ anything)|]. intros _ _. case_match; eauto with gives.
  eapply gives_bind; [by apply gives_update, tidies_other|]. intros _ _.
  apply gives_with_trace, gives_finally; [|by apply tidies_other].
  eapply gives_bind; [by apply gives_child_scope, immutable_clean, zip_clean|]. intros env _.
  eapply gives_bind; [by apply gives_in_environment|]. intros [v|v| |] Hv; cbn; eauto with gives.
  - by apply gives_ret.
  - by apply gives_ret.
Qed.

Lemma wrap_clean kind v : clean v = true → clean (wrap_problem kind v) = true.
Proof using Type. destruct v; try done. by destruct v, kind. Qed.

Lemma gives_call fuel callee arguments span :
  forallb clean arguments = true →
  gives (call exec fuel callee arguments span) (λ v, clean v = true).
Proof.
  intros Ha. assert (∀ st f args, gate st f arguments span = Ok args →
    forallb clean args = true) as Hgate.
  { intros st f args. unfold gate. destruct (native_capability f); [|by intros [= <-]].
    destruct (promised_never _ _); [done|].
    destruct (match capabilities st with Some _ => _ | None => _ end); [done|].
    destruct (authorize_scope _ _ _ _ _ _) as [[]|]; cbn; [|done].
    intros [= <-]. unfold native_arguments. case_match; [|done].
    destruct arguments as [|[] rest]; try done. by case_match. }
  revert callee. induction fuel as [|fuel IH]; intros callee.
  all: destruct callee; cbn [call]; eauto with gives; try (by apply gives_call_function).
  all: try (eapply gives_bind; [by apply (gives_lift _ anything)|]; intros _ _).
  all: try (apply gives_ret; cbn; by apply zip_clean).
  all: try (apply gives_ret; cbn; destruct arguments as [|v vs]; [done|]; cbn in Ha |- *;
            by apply andb_true_iff in Ha as [-> _]).
  all: try (apply gives_read; intros st _; eapply gives_bind; [apply gives_lift, Hgate|];
            intros args Hargs; eapply gives_bind; [by apply native_clean|]; intros v Hv;
            apply gives_ret; by apply wrap_clean).
  all: try (eapply gives_bind; [apply gives_lift; intros v; by apply derived_clean|];
            intros v Hv; apply gives_ret; by apply wrap_clean).
  all: destruct arguments as [|receiver rest]; eauto with gives.
  all: apply gives_read; intros st _; case_match; eauto with gives.
Qed.

Lemma gives_drain_adopter fuel implementation state items span :
  clean state = true → forallb clean items = true →
  gives (drain_adopter exec fuel implementation state items span) (λ vs, forallb clean vs = true).
Proof.
  revert state items. induction fuel as [|fuel IH]; intros state items Hs Hi; cbn [drain_adopter];
    eauto with gives.
  eapply gives_bind; [apply gives_call; cbn; by rewrite Hs|]. intros v Hv.
  destruct v as [ | | | | | | | | | | | | | | | | | |t fields| | | | | | | | | | | ]; eauto with gives;
    [by apply gives_ret|].
  destruct (member_get fields "item") as [item|] eqn:H1; eauto with gives.
  destruct (member_get fields "next") as [next|] eqn:H2; eauto with gives. cbv zeta.
  case_match; eauto with gives. apply IH; [by eapply clean_member|].
  rewrite forallb_app, Hi. cbn. rewrite andb_true_r. by eapply clean_member.
Qed.

Lemma gives_iteration_values fuel iterable span :
  clean iterable = true →
  gives (iteration_values exec fuel iterable span) (λ vs, forallb clean vs = true).
Proof.
  intros Hv. destruct iterable; cbn [iteration_values]; eauto with gives.
  - apply gives_ret. by apply forallb_forall; intros ? (c & <- & _)%in_map_iff.
  - by apply gives_ret.
  - apply gives_read. intros st Ht. case_match; eauto with gives. by apply gives_drain_adopter.
  - destruct kind; eauto with gives. apply drain_clean.
Qed.

Context (fuel : nat) (gm : N → Value → string → Span → result NivError Value).
Hypothesis member_clean : ∀ ref v name span r,
  clean v = true → gm ref v name span = Ok r → clean r = true.

Lemma gives_evaluate e : gives (evaluate exec fuel gm e) passing.
Proof.
  induction e using Expr_nested_ind with
    (Q := λ a, ∀ subject span k, clean subject = true → gives k passing →
       gives (evaluate_arm exec fuel gm subject span a k) passing)
    (R := λ p, ∀ span output k, (∀ o, gives (k o) passing) →
       gives (evaluate_piece exec fuel gm span p output k) passing).
  all: lazymatch goal with
    | |- gives (evaluate _ _ _ (Expr_Text _ _)) _ => rewrite !evaluate_text_eq
    | |- gives (evaluate _ _ _ (Expr_Match _ _ _)) _ => rewrite !evaluate_match_eq
    | _ => cbn [evaluate evaluate_piece evaluate_arm]
    end.
  all: try (eapply gives_bind; [apply gives_charge|intros _ _]).
  - apply gives_finish, clean_passing, clean_literal.
  - generalize "" as output. match goal with Hf : Forall _ _ |- _ => rename Hf into Hps end.
    induction Hps as [|p ps' Hp _ IH]; intros output; cbn [each_piece]; [by apply gives_finish|].
    by apply Hp.
  - apply gives_read. intros st Ht. eapply gives_bind.
    + apply (gives_lift _ (λ v, clean v = true)). intros v. destruct (lookup_name st n) eqn:E; [|done].
      intros [= <-]. by eapply lookup_clean.
    + intros v Hv. by apply gives_finish, clean_passing.
  - apply gives_part; [done|]. intros v Hv. apply gives_read. intros st _.
    eapply gives_bind; [by apply gives_assign|]. intros _ _. by apply gives_finish, clean_passing.
  - apply gives_part; [done|]. intros v Hv. apply (gives_bind _ _ (λ v, clean v = true)).
    + destruct o; eauto with gives; [by apply gives_lift; intros r; apply clean_negate|].
      eapply gives_bind; [by apply (gives_lift _ anything)|]. intros. by apply gives_ret.
    + intros r Hr. by apply gives_finish, clean_passing.
  - do 2 (apply gives_part; [done|]; intros ? ?). unfold lift_r.
    apply (gives_bind _ _ (λ v, clean v = true)); [|intros; by apply gives_finish, clean_passing].
    match goal with |- context [binary ?a ?o ?b ?s] => destruct (binary a o b s) eqn:E end;
      eauto with gives.
    eapply gives_bind; [by apply (gives_ret _ (λ x, x = r))|]. intros ? ->.
    apply gives_lift. intros x ->. by eapply clean_binary.
  - apply gives_part; [done|]. intros v Hv.
    eapply gives_bind; [by apply (gives_lift _ anything)|]. intros x _.
    assert (gives (part (evaluate exec fuel gm e2) (λ rhs, rhs ← lift (expect_bool rhs s);
      finish s (V_Bool rhs))) passing) as Hr.
    { apply gives_part; [done|]. intros w Hw.
      eapply gives_bind; [by apply (gives_lift _ anything)|]. intros y _. by apply gives_finish. }
    destruct o, x; try exact Hr; by apply gives_finish.
  - unfold evaluate_call. apply gives_part; [done|]. intros c Hc. apply gives_parts; [done|done|].
    intros vs Hvs. eapply gives_bind; [by apply gives_call|]. intros v Hv.
    by apply gives_finish, clean_passing.
  - apply gives_parts; [done|done|]. intros vs Hvs. by apply gives_finish.
  - do 2 (apply gives_part; [done|]; intros ? ?).
    eapply gives_bind; [by apply (gives_lift _ anything)|]. intros i _.
    eapply gives_bind; [apply gives_lift; intros r; by apply clean_index|].
    intros r Hr. by apply gives_finish, clean_passing.
  - apply gives_part; [done|]. intros v Hv. destruct (value_eq v V_Null);
      [|by apply gives_finish, clean_passing].
    eapply gives_bind; [done|]. intros w Hw. by apply gives_finish.
  - apply gives_part; [done|]. intros v Hv. destruct v; eauto with gives; apply gives_finish; auto.
  - eapply gives_bind; [done|]. intros w Hw. by apply gives_finish.
  - destruct e2; eauto with gives; (eapply gives_bind; [|intros w Hw; by apply gives_finish]);
      (eapply gives_bind; [apply gives_charge|intros _ _]).
    + apply gives_part; [done|]. intros c Hc. apply gives_part; [done|]. intros i Hi.
      eapply gives_bind; [apply gives_call; cbn; by rewrite Hi|]. intros v Hv. by apply gives_finish, clean_passing.
    + match goal with Hc : call_parts _ _ |- _ => destruct Hc as [? ?] end.
      apply gives_part; [done|]. intros c Hc. apply gives_part; [done|]. intros i Hi.
      apply gives_parts; [done|cbn; by rewrite Hi|]. intros vs Hvs.
      eapply gives_bind; [by apply gives_call|]. intros v Hv. by apply gives_finish, clean_passing.
    + apply gives_part; [done|]. intros c Hc. apply gives_part; [done|]. intros i Hi.
      eapply gives_bind; [apply gives_call; cbn; by rewrite Hi|]. intros v Hv. by apply gives_finish, clean_passing.
  - apply gives_part; [done|]. intros v Hv. eapply gives_bind; [apply gives_fresh|]. intros ref _.
    eapply gives_bind; [apply gives_lift; intros r; by apply member_clean|].
    intros r Hr. by apply gives_finish, clean_passing.
  - apply gives_part; [done|]. intros v Hv. eapply gives_bind; [|intros w Hw; by apply gives_finish].
    match goal with Hf : Forall _ _ |- _ => rename Hf into Harms end.
    induction Harms as [|a' arms' Ha _ IH]; cbn [each_arm]; eauto with gives.
  - intros subject span k Hs Hk. apply gives_read. intros st _.
    destruct (first_match _ _ _) eqn:Hf; [|done].
    eapply gives_bind; [eapply gives_child_scope, immutable_clean, first_match_clean; done|]. intros env _.
    apply (gives_bind _ _ (λ o, from_option passing True o)); [|intros [v|] Hv; [by apply gives_ret|done]].
    apply gives_in_environment.
    assert (gives (v ← evaluate exec fuel gm e; mret (Some v)) (λ o, from_option passing True o)) as Hv.
    { eapply gives_bind; [done|]. intros w Hw. by apply gives_ret. }
    destruct g as [g|]; [|done]. eapply gives_bind; [done|]. intros d Hd.
    destruct (is_early d); [by apply gives_ret|].
    eapply gives_bind; [by apply (gives_lift _ anything)|]. intros [] _; [done|by apply gives_ret].
  - intros. by apply gives_push_piece.
  - intros. apply gives_part; [done|]. intros v Hv. apply gives_read. intros st _.
    eapply gives_bind; [by apply (gives_lift _ anything)|]. intros text _. by apply gives_push_piece.
Qed.

(** ** Statements *)

Lemma gives_after (m : M W Value) k :
  gives m passing → (∀ v, clean v = true → gives (k v) flow_clean) → gives (after m k) flow_clean.
Proof using Type.
  intros Hm Hk. eapply gives_bind; [done|]. intros v Hv. destruct v; try (by apply Hk). by apply gives_ret.
Qed.

Lemma gives_continue v : clean v = true → gives (W := W) (continue_with v) flow_clean.
Proof using Type. intros Hv. by apply gives_ret. Qed.
#[local] Hint Resolve gives_continue : gives.

Lemma gives_declare_new name mutable v span :
  clean v = true → gives (W := W) (declare_new name mutable v span) flow_clean.
Proof using Type.
  intros Hv. apply gives_read. intros st _. eapply gives_bind; [apply gives_scope_at|]. intros s _.
  case_bool_decide; eauto with gives. eapply gives_bind; [by apply gives_insert_binding|eauto with gives].
Qed.

Lemma gives_declare_all bindings span :
  clean_bindings bindings = true → gives (W := W) (declare_all bindings span) anything.
Proof using Type.
  intros Hb. apply gives_read. intros st _. generalize tt. induction bindings as [|[n v] bs IH]; intros u; cbn.
  { by apply gives_ret. }
  cbn in Hb. apply andb_true_iff in Hb as [Hv Hb]. eapply gives_bind; [|intros; by apply IH].
  eapply gives_bind; [apply gives_scope_at|]. intros s _. case_bool_decide; eauto with gives.
  by apply gives_declare.
Qed.

Lemma gives_run_statements (ex : Stmt → M W VmFlow) ss last :
  Forall (λ s, gives (ex s) flow_clean) ss → clean last = true →
  gives (run_statements ex ss last) flow_clean.
Proof using Type.
  intros Hss. revert last. induction Hss as [|s ss Hs _ IH]; intros last Hl; cbn; eauto with gives.
  eapply gives_bind; [done|]. intros [v|v| |] Hv; [by apply IH|by apply gives_ret..].
Qed.

Lemma gives_block (ex : Stmt → M W VmFlow) ss :
  Forall (λ s, gives (ex s) flow_clean) ss → gives (block ex ss) flow_clean.
Proof using Type.
  intros Hss. apply gives_read. intros st _. apply gives_finally; [|by apply tidies_other].
  by apply gives_run_statements.
Qed.

Lemma gives_while_loop passes condition body span last :
  gives condition passing → gives body flow_clean → clean last = true →
  gives (W := W) (while_loop passes condition body span last) flow_clean.
Proof using Type.
  intros Hc Hb. revert last. induction passes as [|passes IH]; intros last Hl; cbn [while_loop];
    eauto with gives.
  apply gives_after; [done|]. intros v Hv. eapply gives_bind; [by apply (gives_lift _ anything)|].
  intros [] _; eauto with gives. eapply gives_bind; [done|].
  intros [w|w| |] Hw; eauto with gives. by apply gives_ret.
Qed.

Lemma gives_for_loop name pattern body span values last :
  gives body flow_clean → forallb clean values = true → clean last = true →
  gives (W := W) (for_loop name pattern body span values last) flow_clean.
Proof using Type.
  intros Hb. revert last. induction values as [|v values IH]; intros last Hvs Hl; cbn [for_loop];
    eauto with gives.
  cbn in Hvs. apply andb_true_iff in Hvs as [Hv Hvs]. apply gives_read. intros st _.
  apply (gives_bind _ _ (λ bs, clean_bindings bs = true)).
  { apply gives_lift. intros bs. unfold iteration_bindings. destruct pattern as [p|].
    - destruct (pattern_bindings st p v) eqn:E; [|done]. intros [= <-].
      exact (pattern_clean st p v [] _ Hv eq_refl E).
    - intros [= <-]. cbn. by rewrite Hv. }
  intros bs Hbs. eapply gives_bind; [by apply gives_child_scope, immutable_clean|]. intros env _.
  eapply gives_bind; [by apply gives_in_environment|].
  intros [w|w| |] Hw; eauto with gives. by apply gives_ret.
Qed.

Lemma gives_then_close (m : M W VmFlow) kind ref span :
  gives m flow_clean → gives (then_close m kind ref span) flow_clean.
Proof.
  intros Hm st a st' Ht. unfold then_close. destruct (m st) as [f st1|e st1| | |] eqn:E; try done.
  - destruct (Hm _ _ _ Ht E) as (Ht1 & Ha1 & Hf). intros Hc.
    assert (gives (_ ← host_close kind ref span; mret f) flow_clean) as Hclose
      by (eapply gives_bind; [apply close_clean|]; intros; by apply gives_ret).
    destruct (Hclose _ _ _ Ht1 Hc) as (? & ? & ?). split_and!; [done|by etrans|done].
  - by destruct (host_close kind ref span st1).
Qed.

Lemma gives_using_resource name resource body span :
  clean resource = true → gives body flow_clean →
  gives (using_resource name resource body span) flow_clean.
Proof.
  intros Hr Hb. unfold using_resource. destruct resource; eauto with gives.
  destruct (closable kind); eauto with gives. apply gives_read. intros st _.
  eapply gives_bind; [by apply gives_child_scope, Forall_singleton|]. intros env _.
  by apply gives_then_close, gives_in_environment.
Qed.

Lemma gives_run_sample title body shows span :
  gives body flow_clean → gives (W := W) (run_sample title body shows span) flow_clean.
Proof using Type.
  intros Hb. apply gives_read. intros st _. destruct (run_samples st); eauto with gives.
  eapply gives_bind; [by apply gives_child_scope|]. intros env _.
  eapply gives_bind; [by apply gives_in_environment|]. intros [v|v| |] Hv; eauto with gives.
  apply gives_read. intros st1 _. destruct shows; [case_bool_decide|]; eauto with gives.
Qed.

Lemma gives_adopt_members protocol ty members :
  gives (W := W) (adopt_members protocol ty members) flow_clean.
Proof using Type.
  apply gives_read. intros st _. eapply gives_bind.
  - apply (gives_fold _ _ _ anything); [done|]. intros _ m _. apply gives_read. intros st1 Ht1.
    apply (gives_bind _ _ (λ v, clean v = true)).
    + apply gives_lift. intros v. destruct (lookup_name st1 _) eqn:E; [|done].
      intros [= <-]. by eapply lookup_clean.
    + intros v Hv. apply gives_update. intros st2 [Hs Hd Hf Hn].
      split; [|by split; [|eauto]]. split; [done| |done..]. cbn. intros k w.
      rewrite !lookup_insert. repeat case_decide; try (by intros [= <-]). apply Hd.
  - intros _ _. destruct members; eauto with gives.
Qed.

Lemma exports_clean name s exports span vs :
  (∀ n b, s_values s !! n = Some b → clean (b_value b) = true) →
  module_exports name s exports span = Ok vs → clean_bindings vs = true.
Proof using Type.
  intros Hs. revert vs. induction exports as [|e exports IH]; intros vs; [by intros [= <-]|].
  unfold module_exports. cbn. fold (module_exports name s exports span).
  destruct (s_values s !! e) as [b|] eqn:Hb; [|done]. cbn.
  destruct (module_exports name s exports span) as [rest|]; [|done]. cbn.
  intros [= <-]. cbn. rewrite (Hs _ _ Hb). by apply IH.
Qed.

Lemma gives_run_module name body exports span :
  gives body flow_clean → gives (W := W) (run_module name body exports span) flow_clean.
Proof using Type.
  intros Hb. apply gives_read. intros st _.
  eapply gives_bind; [by apply gives_child_scope|]. intros env _. eapply gives_bind.
  { apply gives_in_environment. apply gives_read. intros st1 _. apply gives_finally; [|by apply tidies_other].
    eapply gives_bind; [by apply gives_update, tidies_other|]. intros _ _. exact Hb. }
  intros [v|v| |] _; eauto with gives. eapply gives_bind; [apply gives_scope_at|]. intros s Hs.
  apply (gives_bind _ _ (λ vs, clean_bindings vs = true)).
  { apply gives_lift. intros vs. by apply exports_clean. }
  intros vs Hvs. eapply gives_bind; [apply gives_fresh|]. intros ref _.
  eapply gives_bind; [by apply gives_declare|]. eauto with gives.
Qed.

Lemma gives_declare_value name value :
  (∀ ref, clean (value ref) = true) → gives (W := W) (declare_value name value) flow_clean.
Proof using Type.
  intros Hv. eapply gives_bind; [apply gives_fresh|]. intros ref _.
  eapply gives_bind; [by apply gives_declare|]. eauto with gives.
Qed.

Context (redeclare : bool).

Lemma gives_declare_function name v :
  clean v = true → gives (W := W) (declare_function redeclare name v) anything.
Proof using Type.
  intros Hv. unfold declare_function. destruct redeclare; [by apply gives_declare|].
  apply gives_read. intros st _. eapply gives_bind; [apply gives_scope_at|]. intros s _.
  case_bool_decide; eauto with gives. by apply gives_declare.
Qed.

Lemma flow_passing v : passing v → flow_clean (Flow_Return (match v with V_EarlyReturn v => v | v => v end)).
Proof using Type. by destruct v. Qed.

#[local] Hint Resolve gives_evaluate gives_declare_new gives_adopt_members : gives.

Lemma gives_execute_stmt s : gives (execute_stmt exec fuel gm redeclare s) flow_clean.
Proof.
  induction s using Stmt_nested_ind; [destruct s; try done|..]; cbn [execute_stmt];
    (eapply gives_bind; [apply gives_charge|intros _ _]).
  all: eauto with gives.
  all: try (apply gives_after; [apply gives_evaluate|]; intros v Hv; eauto with gives).
  - apply gives_read. intros st _. apply (gives_bind _ _ (λ bs, clean_bindings bs = true)).
    + apply gives_lift. intros bs. destruct (pattern_bindings st pattern v) eqn:E; [|done].
      intros [= <-]. exact (pattern_clean st pattern v [] _ Hv eq_refl E).
    + intros bs Hbs. eapply gives_bind; [by apply gives_declare_all|]. eauto with gives.
  - eapply gives_bind; [by apply gives_update, tidies_other|]. eauto with gives.
  - by apply gives_ret.
  - by apply gives_ret.
  - eapply gives_bind; [by apply gives_update, tidies_other|]. eauto with gives.
  - destruct value as [e|]; [|by apply gives_ret]. eapply gives_bind; [apply gives_evaluate|].
    intros v Hv. by apply gives_ret, flow_passing.
  - apply gives_read. intros st _. by apply gives_declare_value.
  - apply gives_read. intros st _. by apply gives_declare_value.
  - apply gives_read. intros st _. by apply gives_declare_value.
  - apply gives_read. intros st _. eapply gives_bind; [by apply gives_child_scope|]. intros env _.
    by apply gives_in_environment, gives_block.
  - eapply gives_bind; [by apply (gives_lift _ anything)|]. intros [] _; [done|].
    destruct e; eauto with gives.
  - apply gives_read. intros st _. destruct (match v with V_Null => _ | _ => _ end) as [bs|] eqn:E.
    + eapply gives_bind; [eapply gives_child_scope, immutable_clean, (first_match_clean st ps v); [done|]; by destruct v|].
      intros env _. apply gives_in_environment, gives_block. by apply Forall_singleton.
    + destruct e; eauto with gives.
  - apply gives_while_loop; auto using gives_evaluate.
  - by apply gives_run_sample, gives_block.
  - eapply gives_bind; [by apply gives_iteration_values|]. intros vs Hvs.
    apply gives_for_loop; [|done|done]. apply gives_block. by apply Forall_singleton.
  - apply gives_using_resource; [done|]. apply gives_block. by apply Forall_singleton.
  - eapply gives_bind; [apply gives_fresh|]. intros ref _.
    eapply gives_bind; [|intros _ _; eapply gives_bind; [by apply gives_declare_function|]; eauto with gives].
    apply gives_update. intros st [Hs Hd Hf Hn]. split; [|by split; [|eauto]].
    split; [done..| |done]. cbn. intros r f.
    rewrite lookup_insert. case_decide; [|apply Hf]. intros [= <-]. cbn. eauto.
  - by apply gives_run_module, gives_block.
Qed.
End execution.

(** ** Programs *)

Context (rules : Rules).
Hypothesis rules_clean : ∀ ref v name span r,
  clean v = true → rule_get rules ref v name span = Ok r → clean r = true.

Lemma gives_execute fuel ss : gives (W := W) (execute_with rules fuel (Body_Tree ss)) flow_clean.
Proof.
  revert ss. induction fuel as [|fuel IH]; intros ss; cbn [execute_with]; eauto with gives.
  apply gives_block, Forall_forall. intros s _. by apply gives_execute_stmt.
Qed.

Lemma gives_run_tree fuel program v :
  clean v = true → gives (W := W) (run_tree_with rules fuel program v) (λ v, clean v = true).
Proof.
  revert v. induction program as [|s program IH]; intros v Hv; cbn [run_tree_with]; [by apply gives_ret|].
  eapply gives_bind; [apply gives_execute_stmt; [by apply gives_execute|done]|].
  intros [w|w| |] Hw; eauto with gives.
Qed.
End interpreter.
