(* ===== verification/VmSafe.v ===== *)
(** * Verified bytecode cannot panic the machine

    The verifier's promise, proved of the machine: running a verified chunk
    never reaches a Rust panic.  Every instruction finds its operands on the
    stack, no scope without a parent is left, no [unreachable!] is reached, and
    a loop exit only leaves a chunk that is a loop body.

    The proof follows the verifier's certificate: at instruction [i] annotated
    with [(d, s)] the stack holds [d] values and the environment has [s] scopes
    above the one the chunk was entered with.  What the host must respect is
    the class [HostLaws]. *)
From S2P Require Import Prelude Ast Bytecode Codegen Verifier.
From S2P Require Import StackCert Values ValuesOk Gate Vm Tree Engine.
Open Scope list_scope.
#[local] Set Default Proof Using "All".

(** ** Operands of ordinary size *)

(** Arities and lengths below [isize::MAX], at every nesting level. *)
Definition small_operand (n : N) : bool := (Z.of_N n + 1 <=? isize_max)%Z.

Fixpoint small_chunk (c : Chunk) : bool :=
  match c with mkChunk _ code => forallb small_instruction code end
with small_instruction (i : Instruction) : bool :=
  match i with
  | mkInstruction op _ =>
      match op with
      | Op_Call n | Op_PerformCall n | Op_MakeArray n | Op_MakeText n => small_operand n
      | Op_MakeFunction _ _ b | Op_DefineModule _ b _ | Op_Iterate _ _ b | Op_Sample _ b _
      | Op_Using _ b => small_chunk b
      | Op_Repeat c b => small_chunk c && small_chunk b
      | Op_IfCarries _ t e =>
          small_chunk t && match e with Some e => small_chunk e | None => true end
      | Op_Match arms => forallb small_arm arms
      | _ => true
      end
  end
with small_arm (a : BytecodeArm) : bool :=
  match a with
  | mkArm _ g b _ => match g with Some g => small_chunk g | None => true end && small_chunk b
  end.

(** A chunk the machine may run in the given loop context. *)
Definition admissible (il : bool) (c : Chunk) : Prop :=
  verify_in_context c il = Ok tt ∧ small_chunk c = true.

(** ** The world *)

(** [untouched c w w']: between the worlds [w] and [w'] no native function that
    needs the capability [c] was entered. *)
Class Watch (W : Type) := untouched : string → W → W → Prop.
Class WatchLaws (W : Type) `{Watch W} : Prop := {
  untouched_refl : ∀ c w, untouched c w w;
  untouched_trans : ∀ c w1 w2 w3, untouched c w1 w2 → untouched c w2 w3 → untouched c w1 w3 }.

(** ** The invariant *)

(** A scope with at least [k] ancestors. *)
Fixpoint has_parents (k : nat) (store : gmap N Scope) (env : N) : Prop :=
  match k with
  | O => True
  | S k => ∃ s p, store !! env = Some s ∧ s_parent s = Some p ∧ has_parents k store p
  end.

Lemma promised_never_prefix p p' c :
  p `prefix_of` p' → promised_never p c = true → promised_never p' c = true.
Proof.
  intros [q ->]. unfold promised_never. rewrite existsb_app. intros ->. done.
Qed.

Section invariant.
Context {W : Type} `{!Watch W} `{!WatchLaws W}.
Implicit Types st : Interp W.

(** The machine's functions: verified chunks. *)
Definition admissible_body (body : FunctionBody) : Prop :=
  match body with Body_Bytecode c => admissible false c | Body_Tree _ => False end.

Record inv st : Prop := mkInv {
  inv_functions : ∀ r f, functions st !! r = Some f → admissible_body (f_body f);
  inv_fresh : ∀ r s, scopes st !! r = Some s → r < next_ref st }.

(** Later states keep every chain of parents and every promise, and enter no
    native that a promise renounces. *)
Record ext st st' : Prop := mkExt {
  ext_parents : ∀ e k, has_parents k (scopes st) e → has_parents k (scopes st') e;
  ext_promises : active_promises st `prefix_of` active_promises st';
  ext_world : ∀ c, promised_never (active_promises st) c = true →
                   untouched c (world st) (world st') }.

Definition sane st st' : Prop := inv st' ∧ ext st st'.

(** The environment did not lose ancestors. *)
Definition deep st st' : Prop :=
  ∀ k, has_parents k (scopes st) (environment st) →
       has_parents k (scopes st') (environment st').

Definition same_env st st' : Prop := environment st' = environment st.

Lemma sane_refl st : inv st → sane st st.
Proof. intros Hi. split; [done|]. split; [done|done|]. intros. apply untouched_refl. Qed.
Lemma sane_trans a b c : sane a b → sane b c → sane a c.
Proof.
  intros [_ [E1 P1 W1]] [I2 [E2 P2 W2]]. split; [done|]. split; [auto|by etrans|].
  intros cap Hc. eapply untouched_trans; [by apply W1|]. apply W2.
  by eapply promised_never_prefix.
Qed.
Lemma deep_trans a b c : deep a b → deep b c → deep a c.
Proof. intros H1 H2 k Hk. auto. Qed.
Lemma same_env_deep a b : sane a b → same_env a b → deep a b.
Proof. intros [_ [E _ _]] H k Hk. rewrite H. auto. Qed.

(** [m] started in [st] does not panic; a result satisfies [P] with the final
    state, and also a failure leaves a sane state. *)
Definition spec_at {A} st (R : Interp W → Interp W → Prop) (P : A → Interp W → Prop)
    (m : M W A) : Prop :=
  match m st with
  | Done a st' => sane st st' ∧ R st st' ∧ P a st'
  | Fail _ st' => sane st st'
  | Panic => False
  | Dangling | OutOfFuel => True
  end.

Definition any {A} (_ : A) (_ : Interp W) : Prop := True.

(** Relations a computation can respect step by step. *)
Class Chain (R : Interp W → Interp W → Prop) : Prop := {
  chain_refl : ∀ st, R st st;
  chain_trans : ∀ a b c, R a b → R b c → R a c }.
#[export] Instance chain_same : Chain same_env.
Proof. split; unfold same_env; congruence. Qed.
#[export] Instance chain_deep : Chain deep.
Proof. split; [by intros st k|apply deep_trans]. Qed.

Lemma spec_ret {A} st R `{!Chain R} (P : A → Interp W → Prop) a :
  inv st → P a st → spec_at st R P (mret a).
Proof. intros Hi Ha. split_and!; [by apply sane_refl|apply chain_refl|done]. Qed.

Lemma spec_throw {A} st R (P : A → Interp W → Prop) e : inv st → spec_at st R P (throw e).
Proof. by apply sane_refl. Qed.

Lemma spec_bind {A B} st R `{!Chain R} (P : A → Interp W → Prop) (Q : B → Interp W → Prop) m f :
  spec_at st R P m →
  (∀ a st', P a st' → inv st' → sane st st' → R st st' → spec_at st' R Q (f a)) →
  spec_at st R Q (m ≫= f).
Proof.
  unfold spec_at. cbv [mbind M_bind]. destruct (m st) as [a st'|e st'| | |]; try done.
  intros (Hs & HR & Ha) Hf. specialize (Hf a st' Ha (proj1 Hs) Hs HR).
  destruct (f a st') as [b st''|e st''| | |]; try done.
  - destruct Hf as (Hs' & HR' & Hb). split_and!; [by eapply sane_trans|by eapply chain_trans|done].
  - by eapply sane_trans.
Qed.

Lemma spec_get {B} st R (Q : B → Interp W → Prop) (f : Interp W → M W B) :
  spec_at st R Q (f st) → spec_at st R Q (get ≫= f).
Proof. done. Qed.

Lemma spec_weaken {A} st (R R' : Interp W → Interp W → Prop) (P Q : A → Interp W → Prop) m :
  spec_at st R P m → (∀ st', sane st st' → R st st' → R' st st') →
  (∀ a st', sane st st' → R st st' → P a st' → Q a st') → spec_at st R' Q m.
Proof. unfold spec_at. destruct (m st); naive_solver. Qed.

Lemma spec_lift {A} st R `{!Chain R} (P : A → Interp W → Prop) r :
  inv st → (∀ a, r = Ok a → P a st) → spec_at st R P (lift r).
Proof. intros Hi Hr. destruct r; [apply spec_ret; auto|]. by apply spec_throw. Qed.

Lemma spec_update st R (P : unit → Interp W → Prop) (f : Interp W → Interp W) :
  sane st (f st) → R st (f st) → P tt (f st) → spec_at st R P (update f).
Proof. intros. by split_and!. Qed.

(** Updates of the other components change neither scopes nor functions. *)
Lemma sane_same st st' :
  inv st → scopes st' = scopes st → functions st' = functions st → next_ref st ≤ next_ref st' →
  active_promises st `prefix_of` active_promises st' → world st' = world st →
  sane st st'.
Proof.
  intros [If Ir] Hs Hf Hn Hp Hw. split.
  - split; [by rewrite Hf|]. intros r s. rewrite Hs. intros H%Ir. lia.
  - split; [by rewrite Hs|done|]. intros c _. rewrite Hw. apply untouched_refl.
Qed.

Lemma inv_set_environment st e : inv st → inv (set_environment e st).
Proof. by intros [??]. Qed.

Lemma ext_insert (store : gmap N Scope) env sc values e k :
  store !! env = Some sc → has_parents k store e →
  has_parents k (<[env := mkScope values (s_parent sc)]> store) e.
Proof.
  intros Hs. revert e. induction k as [|k IH]; intros e; [done|].
  intros (s & p & He & Hp & Hk). destruct (decide (env = e)) as [<-|Hne].
  - simplify_eq. eexists _, p. rewrite lookup_insert_eq. split_and!; [done|done|auto].
  - exists s, p. rewrite lookup_insert_ne by done. auto.
Qed.

Lemma ext_fresh (store : gmap N Scope) env sc e k :
  store !! env = None → has_parents k store e → has_parents k (<[env := sc]> store) e.
Proof.
  intros Hs. revert e. induction k as [|k IH]; intros e; [done|].
  intros (s & p & He & Hp & Hk). exists s, p.
  rewrite lookup_insert_ne by congruence. auto.
Qed.

Lemma has_parents_le k k' store e : (k' ≤ k)%nat → has_parents k store e → has_parents k' store e.
Proof.
  revert k' e. induction k as [|k IH]; intros [|k'] e Hle; try done; [lia|].
  intros (s & p & ? & ? & ?). exists s, p. split_and!; try done. apply IH; [lia|done].
Qed.

(** ** Scopes *)

Lemma spec_fresh st : inv st → spec_at st same_env any fresh.
Proof.
  intros Hi. split_and!; [|done|done]. by apply sane_same; cbn; try lia.
Qed.

Lemma spec_child_scope st parent bindings :
  inv st →
  spec_at st same_env
    (λ env st', ∀ k, has_parents k (scopes st) parent → has_parents (S k) (scopes st') env)
    (child_scope parent bindings).
Proof.
  intros [If Ir]. cbn. unfold spec_at. cbn.
  assert (scopes st !! next_ref st = None) as Hf.
  { destruct (scopes st !! next_ref st) eqn:E; [|done]. apply Ir in E. lia. }
  split_and!.
  - split; [split|split].
    + done.
    + intros r s. cbn. rewrite lookup_insert. case_decide; [intros; subst; lia|].
      intros E%Ir. lia.
    + intros e k. cbn. by apply ext_fresh.
    + done.
    + intros c _. apply untouched_refl.
  - done.
  - intros k Hk. eexists _, parent. cbn. rewrite lookup_insert_eq. split_and!; [done..|].
    by apply ext_fresh.
Qed.

Lemma spec_scope_at st env :
  inv st → spec_at st same_env (λ s st', st' = st ∧ scopes st !! env = Some s) (scope_at env).
Proof.
  intros Hi. unfold spec_at, scope_at. cbv [mbind M_bind get].
  destruct (scopes st !! env); [|done]. split_and!; [by apply sane_refl|done..].
Qed.

Lemma spec_insert_binding st env name b :
  inv st → spec_at st same_env any (insert_binding env name b).
Proof.
  intros Hi. unfold insert_binding. eapply spec_bind; [apply _|by apply spec_scope_at|].
  intros s st' [-> Hs] _ _ _. eapply spec_bind; [apply _| |].
  - apply (spec_update _ _ any); [|done|done]. destruct Hi as [If Ir]. split; [split|split].
    + done.
    + intros r s'. cbn. rewrite lookup_insert. case_decide; [|by apply Ir].
      intros _. subst. by eapply Ir.
    + intros e k. cbn. by apply ext_insert.
    + done.
    + intros c _. apply untouched_refl.
  - intros _ st'' _ Hi' _ _. by apply spec_ret; [apply _| |].
Qed.

Lemma spec_assign st fuel env name v span :
  inv st → spec_at st same_env any (assign fuel env name v span).
Proof.
  intros Hi. revert env. induction fuel as [|fuel IH]; intros env; [done|]. cbn [assign].
  eapply spec_bind; [apply _|by apply spec_scope_at|]. intros s st' [-> Hs] _ _ _.
  repeat case_match; try (by apply spec_throw); [|apply IH].
  eapply spec_bind; [apply _|by apply spec_insert_binding|].
  intros. by apply spec_ret; [apply _| |].
Qed.
End invariant.

(** ** What the host respects *)

(** A native, an iterator or a resource may change the world, the heap and the
    output, but it gives back control in the caller's environment, it creates
    functions only from verified code, it does not panic, and it enters a native
    that needs a capability only when it is one. *)
Class HostLaws (W : Type) `{!Host W, !Watch W, !WatchLaws W} : Prop := {
  law_native : ∀ f arguments span st,
    inv st →
    (∀ c, promised_never (active_promises st) c = true → native_capability f ≠ Some c) →
    spec_at st same_env any (host_native f arguments span);
  law_drain : ∀ ref span st, inv st → spec_at st same_env any (host_drain ref span);
  law_close : ∀ kind ref span st, inv st → spec_at st same_env any (host_close kind ref span) }.

Create HintDb spec.
#[export] Hint Resolve spec_fresh spec_child_scope spec_scope_at spec_insert_binding
  spec_assign law_drain law_close spec_throw : spec.
#[export] Hint Unfold any : spec.

(** Sequence the specification of the next computation. *)
Ltac spec_step :=
  eapply spec_bind; [apply _|solve [eauto with spec]|cbv beta; intros ?a ?st ?Ha ?Hi ?Hs ?HR].
Ltac spec_read := apply spec_get; cbv beta zeta.
Ltac spec_done := apply spec_ret; [apply _|done|done].

Section machine.
Context {W : Type} `{Foreign} `{!Host W, !Watch W, !WatchLaws W} {laws : HostLaws W}.
Implicit Types st : Interp W.

(** A loop exit never leaves a chunk that is not a loop body. *)
Definition flow_inside (flow : VmFlow) : Prop :=
  match flow with Flow_Stop | Flow_Skip => False | _ => True end.

Definition flow_ok (il : bool) (flow : VmFlow) (_ : Interp W) : Prop :=
  il = false → flow_inside flow.

Lemma spec_pure_lift {A} st (r : result NivError A) : inv st → spec_at st same_env any (lift r).
Proof. intros. by apply spec_lift; [apply _| |]. Qed.

Lemma spec_update_env st (f : Interp W → Interp W) :
  inv st → scopes (f st) = scopes st → functions (f st) = functions st →
  next_ref st ≤ next_ref (f st) → active_promises st `prefix_of` active_promises (f st) →
  world (f st) = world st → environment (f st) = environment st →
  spec_at st same_env any (update f).
Proof. intros. apply spec_update; [by apply sane_same|done|done]. Qed.

Lemma spec_charge st span : inv st → spec_at st same_env any (charge span).
Proof.
  intros Hi. unfold charge. spec_read.
  destruct (instruction_budget st) as [[|n]|]; eauto with spec; [|spec_done].
  apply spec_update_env; done.
Qed.

Lemma spec_charge_memory st v span : inv st → spec_at st same_env any (charge_memory v span).
Proof.
  intros Hi. unfold charge_memory. spec_read. case_match; eauto with spec.
  case_match; [|spec_done]. case_match; eauto with spec. apply spec_update_env; done.
Qed.

Lemma spec_check_cancelled st : inv st → spec_at st same_env any check_cancelled.
Proof. intros Hi. unfold check_cancelled. spec_read. case_match; eauto with spec. spec_done. Qed.
#[local] Hint Resolve spec_pure_lift spec_charge spec_charge_memory spec_check_cancelled : spec.

Lemma spec_declare st name v : inv st → spec_at st same_env any (declare name v).
Proof.
  intros Hi. unfold declare. spec_read. spec_step. spec_done.
Qed.
#[local] Hint Resolve spec_declare : spec.

(** The loop of a list of declarations. *)
Lemma spec_fold {A S} (f : S → A → M W S) l s st :
  (∀ s x st, inv st → spec_at st same_env any (f s x)) → inv st →
  spec_at st same_env any (fold_left_M f l s).
Proof.
  intros Hf. revert s st. induction l as [|x l IH]; intros s st Hi; cbn.
  - spec_done.
  - eapply spec_bind; [apply _|by apply Hf|]. intros. by apply IH.
Qed.

Lemma spec_declare_all st bindings span :
  inv st → spec_at st same_env any (declare_all bindings span).
Proof.
  intros Hi. unfold declare_all. spec_read.
  apply spec_fold; [|done]. intros [] [n v] st' Hi'. spec_step.
  case_match; eauto with spec.
Qed.

Lemma spec_adopt st protocol type_name mappings span :
  inv st → spec_at st same_env any (adopt protocol type_name mappings span).
Proof.
  intros Hi. unfold adopt. spec_read. eapply spec_bind; [apply _| |intros; spec_done].
  apply spec_fold; [|done]. intros [] [m i] st' Hi'. spec_read. spec_step.
  apply spec_update_env; done.
Qed.
#[local] Hint Resolve spec_declare_all spec_adopt : spec.

(** ** Nested executions *)

Section execution.
Variable exec : FunctionBody → M W VmFlow.
Hypothesis exec_spec : ∀ il c st,
  inv st → admissible il c → spec_at st deep (flow_ok il) (exec c).

(** Entering another environment and coming back. *)
Lemma spec_in_environment {A} st env R (P : A → Prop) (m : M W A) :
  inv st → spec_at (set_environment env st) R (λ a _, P a) m →
  spec_at st same_env (λ a _, P a) (in_environment env m).
Proof.
  intros Hi Hm. unfold in_environment. spec_read. unfold spec_at, finally in *.
  cbv [mbind M_bind update]. 
  assert (sane st (set_environment env st)) as Hs by by apply sane_same.
  destruct (m (set_environment env st)) as [a st'|e st'| | |]; try done.
  - destruct Hm as (Hs' & _ & Ha). pose proof (sane_trans _ _ _ Hs Hs') as [Hi' He].
    split_and!; [|done|done]. eapply sane_trans; [by split|]. by apply sane_same.
  - pose proof (sane_trans _ _ _ Hs Hm) as [Hi' He].
    eapply sane_trans; [by split|]. by apply sane_same.
Qed.

Lemma spec_exec_in st env il c :
  inv st → admissible il c →
  spec_at st same_env (flow_ok il) (in_environment env (exec c)).
Proof.
  intros Hi Hc. apply (spec_in_environment _ _ deep (λ flow, il = false → flow_inside flow)).
  - done.
  - apply exec_spec; [|done]. by apply (sane_same st).
Qed.
#[local] Hint Resolve spec_exec_in : spec.

Lemma spec_function_result st body flow span : inv st → spec_at st same_env any (function_result body flow span).
Proof. intros Hi. destruct flow, body; cbn [function_result]; eauto with spec; spec_done. Qed.
#[local] Hint Resolve spec_function_result : spec.

(** Cleanup and tracing around a computation. *)
Lemma spec_finally {A} st R R' (P Q : A → Interp W → Prop) (m : M W A) f :
  spec_at st R P m →
  (∀ st', sane st st' → sane st (f st')) →
  (∀ a st', sane st st' → R st st' → P a st' → R' st (f st') ∧ Q a (f st')) →
  spec_at st R' Q (finally m f).
Proof.
  intros Hm Hf HQ. unfold spec_at, finally in *. destruct (m st) as [a st'|e st'| | |]; try done.
  - destruct Hm as (Hs & HR & HP). destruct (HQ a st') as [HR' HP']; [done..|].
    split_and!; [by apply Hf|done|done].
  - by apply Hf.
Qed.

Lemma spec_with_trace {A} st R (P : A → Interp W → Prop) (m : M W A) name span :
  spec_at st R P m → spec_at st R P (with_trace m name span).
Proof. unfold spec_at, with_trace. by destruct (m st). Qed.

Lemma spec_call_function st ref arguments span :
  inv st → spec_at st same_env any (call_function exec ref arguments span).
Proof.
  intros Hi. unfold call_function. spec_read.
  destruct (functions st !! ref) as [f|] eqn:Hf; [|done].
  pose proof (inv_functions st Hi _ _ Hf) as Hb. destruct (f_body f) as [|body]; [done|]. spec_step.
  case_match; eauto with spec.
  eapply spec_bind; [apply _|by apply spec_update_env|]. intros _ st1 _ Hi1 _ _.
  apply spec_with_trace. apply (spec_finally _ same_env _ any).
  - spec_step. eapply spec_bind; [apply _| |].
    + apply (spec_exec_in _ _ false); [done|]. exact Hb.
    + intros flow ? _ ? _ _. eauto with spec.
  - intros st' Hs'. eapply sane_trans; [done|]. by apply sane_same; [apply Hs'|..].
  - intros a' st' _ Hsame _. by split.
Qed.
#[local] Hint Resolve spec_call_function : spec.

Lemma gate_promise st f arguments span permitted c :
  gate st f arguments span = Ok permitted →
  promised_never (active_promises st) c = true → native_capability f ≠ Some c.
Proof. unfold gate. intros Hg Hp Hc. rewrite Hc, Hp in Hg. done. Qed.

Lemma spec_call_native st f arguments span :
  inv st →
  spec_at st same_env any
    (_ ← lift (check_arity (native_name f) (native_arity f) (len arguments) span);
     st ← get;
     arguments ← lift (gate st f arguments span);
     value ← host_native f arguments span;
     mret (wrap_problem (native_problem_kind f) value)).
Proof.
  intros Hi. spec_step. spec_read.
  apply (spec_bind _ _ (λ args st', st' = st0 ∧ gate st0 f arguments span = Ok args)).
  - by apply spec_lift; [apply _| |].
  - intros args st1 [-> Hg] _ _ _.
    eapply spec_bind; [apply _|apply law_native; [done|]|].
    + intros c Hc. by eapply gate_promise.
    + intros. spec_done.
Qed.

Lemma spec_call st fuel callee arguments span :
  inv st → spec_at st same_env any (call exec fuel callee arguments span).
Proof.
  revert st callee. induction fuel as [|fuel IH]; intros st callee Hi; destruct callee;
    cbn [call]; eauto using spec_call_native with spec;
    try (repeat (spec_step || spec_read); spec_done).
  all: case_match; eauto with spec; spec_read; case_match; eauto with spec. done.
Qed.
#[local] Hint Resolve spec_call : spec.

Lemma spec_run_arm st body guard span :
  inv st → admissible false body → from_option (admissible false) True guard →
  spec_at st deep (λ o _, from_option flow_inside True o) (run_arm exec body guard span).
Proof.
  intros Hi Hb Hg. unfold run_arm.
  apply (spec_bind _ _ (λ d _, match d with inr f => flow_inside f | _ => True end)).
  - destruct guard as [g|]; [|spec_done].
    eapply spec_bind; [apply _|by apply (exec_spec false)|]. intros flow st' Hf Hi' _ _.
    destruct flow; try (by apply spec_throw); [|spec_done].
    eapply spec_bind; [apply _|by apply (spec_lift _ _ any)|]. intros. spec_done.
  - intros [[]|f] st' Hd Hi' _ _; [|spec_done|spec_done].
    eapply spec_bind; [apply _|by apply (exec_spec false)|]. intros flow st'' Hf Hi'' _ _.
    apply spec_ret; [apply _|done|]. by apply Hf.
Qed.

(** The arms of a verified [Match]. *)
Definition arm_ok (a : BytecodeArm) : Prop :=
  let 'mkArm _ guard body _ := a in
  admissible false body ∧ from_option (admissible false) True guard.

Lemma spec_execute_match st subject arms span :
  inv st → Forall arm_ok arms →
  spec_at st same_env (flow_ok false) (execute_match exec subject arms span).
Proof.
  intros Hi Ha. revert st Hi.
  induction Ha as [|[ps g b sp] arms [Hb Hg] _ IH]; intros st Hi; cbn [execute_match].
  - by apply spec_throw.
  - spec_read. case_match; [|by apply IH]. spec_step.
    eapply spec_bind; [apply _| |].
    + apply (spec_in_environment _ _ deep (from_option flow_inside True)); [done|].
      apply spec_run_arm; [|done|done]. eapply (sane_same st0); done.
    + intros [flow|] st2 Hflow Hi2 _ _; [|by apply IH].
      apply spec_ret; [apply _|done|]. by intros _.
Qed.

Lemma spec_execute_module st name body exports span :
  inv st → admissible false body →
  spec_at st same_env any (execute_module exec name body exports span).
Proof.
  intros Hi Hb. unfold execute_module. spec_read. spec_step.
  eapply spec_bind; [apply _| |].
  - apply (spec_in_environment _ _ deep (λ flow, flow_inside flow)); [done|]. spec_read.
    eapply (spec_finally _ deep).
    + eapply spec_bind; [apply _| |].
      * apply (spec_update _ _ any); [|by intros k|done].
        apply sane_same; [by apply inv_set_environment|done..].
      * intros _ st' _ Hi' _ _. by apply (exec_spec false).
    + intros st' Hs'. eapply sane_trans; [done|]. by apply sane_same; [apply Hs'|..].
    + intros flow st' _ Hd Hf. split; [exact Hd|by apply Hf].
  - intros flow st1 _ Hi1 _ _. destruct flow; eauto with spec;
      (spec_step; spec_step; spec_step; spec_read; spec_step; spec_done).
Qed.

Lemma spec_iterate st name pattern body span values last :
  inv st → admissible true body →
  spec_at st same_env (flow_ok false) (iterate exec name pattern body span values last).
Proof.
  intros Hi Hb. revert last st Hi. induction values as [|v values IH]; intros last st Hi;
    cbn [iterate]; [by apply spec_ret; [apply _| |]|].
  spec_read. spec_step. spec_step.
  eapply spec_bind; [apply _|by apply (spec_exec_in _ _ true)|].
  intros flow st' _ Hi' _ _. destruct flow; auto; by apply spec_ret; [apply _| |].
Qed.

Lemma spec_repeat st fuel condition body span last :
  inv st → admissible false condition → admissible true body →
  spec_at st deep (flow_ok false) (repeat exec fuel condition body span last).
Proof.
  intros Hi Hc Hb. revert last st Hi. induction fuel as [|fuel IH]; intros last st Hi;
    cbn [repeat]; [done|].
  eapply spec_bind; [apply _|by apply (exec_spec false)|]. intros flow st1 Hf Hi1 _ _.
  destruct flow; try (by apply spec_throw); [|by apply spec_ret; [apply _| |]].
  eapply spec_bind; [apply _|by apply (spec_lift _ _ any)|]. intros [] st2 _ Hi2 _ _.
  - eapply spec_bind; [apply _|by apply (exec_spec true)|]. intros flow st3 _ Hi3 _ _.
    destruct flow; auto; by apply spec_ret; [apply _| |].
  - by apply spec_ret; [apply _| |].
Qed.

Lemma spec_drain_adopter st fuel impl state items span :
  inv st → spec_at st same_env any (drain_adopter exec fuel impl state items span).
Proof.
  intros Hi. revert state items st Hi. induction fuel as [|fuel IH]; intros state items st Hi;
    cbn [drain_adopter]; [done|]. spec_step.
  destruct a; eauto with spec; [spec_done|]. repeat case_match; eauto with spec.
Qed.
#[local] Hint Resolve spec_drain_adopter : spec.

Lemma spec_iteration_values st fuel iterable span :
  inv st → spec_at st same_env any (iteration_values exec fuel iterable span).
Proof.
  intros Hi. destruct iterable; cbn [iteration_values]; eauto with spec; try spec_done.
  - spec_read. case_match; eauto with spec.
  - destruct kind; eauto with spec.
Qed.

Lemma spec_execute_using st name resource body span :
  inv st → admissible false body →
  spec_at st same_env (flow_ok false) (execute_using exec name resource body span).
Proof.
  intros Hi Hb. unfold execute_using. destruct resource; try (by apply spec_throw).
  case_match; [|by apply spec_throw]. spec_read. spec_step.
  pose proof (spec_exec_in st0 a false body Hi0 Hb) as Hx.
  unfold spec_at, then_close in *.
  destruct (in_environment a (exec body) st0) as [flow st1|e st1| | |]; try done.
  - destruct Hx as (Hs1 & He1 & Hf). cbv [mbind M_bind].
    pose proof (law_close kind ref span st1 (proj1 Hs1)) as Hcl. unfold spec_at in Hcl.
    destruct (host_close kind ref span st1) as [u st2|e st2| | |]; try done.
    + destruct Hcl as (Hs2 & He2 & _). split_and!; [by eapply sane_trans| |done].
      by eapply chain_trans.
    + by eapply sane_trans.
  - pose proof (law_close kind ref span st1 (proj1 Hx)) as Hcl. unfold spec_at in Hcl.
    destruct (host_close kind ref span st1) as [u st2|e' st2| | |]; try done;
      [destruct Hcl as [Hcl _]|]; by eapply sane_trans.
Qed.

Lemma spec_execute_sample st title body shows span :
  inv st → admissible false body →
  spec_at st same_env any (execute_sample exec title body shows span).
Proof.
  intros Hi Hb. unfold execute_sample. spec_read. case_match; [|spec_done]. spec_step.
  eapply spec_bind; [apply _|by apply (spec_exec_in _ _ false)|]. intros flow st1 _ Hi1 _ _.
  destruct flow; eauto with spec. spec_read. repeat case_match; eauto with spec; spec_done.
Qed.

Lemma spec_execute_if_carries st il subject patterns t e :
  inv st → admissible il t → from_option (admissible il) True e →
  spec_at st deep (flow_ok il) (execute_if_carries exec subject patterns t e).
Proof.
  intros Hi Ht He. unfold execute_if_carries. spec_read. case_match.
  - eapply (spec_weaken _ same_env _ (flow_ok il)); [|by intros; apply same_env_deep|done].
    spec_step. by apply spec_exec_in.
  - destruct e as [e|]; [by apply exec_spec|]. by apply spec_ret; [apply _| |].
Qed.

(** ** One instruction *)

Section step.
Variable code : Code.
Variable L : Cert.
Variable il : bool.

(** Where an instruction may leave the machine. *)
Definition step_post (s : Z) (r : BytecodeStep) (_ : Interp W) : Prop :=
  match r with
  | Step_Next pc stack => goes_to code L (Z.of_N (len stack), s) pc
  | Step_Return _ => True
  | Step_Stop | Step_Skip => il = true
  end.

Lemma spec_next_eq st op span pc stack :
  inv st → spec_at st same_env (λ r _, r = Step_Next (pc + 1) stack) (next op span pc stack).
Proof.
  intros Hi. unfold next. apply (spec_bind _ _ any).
  - destruct (charges_memory op), stack; eauto with spec; spec_done.
  - intros _ st' _ Hi' _ _. by apply spec_ret; [apply _| |].
Qed.

Lemma spec_next st op span pc stack s :
  inv st → goes_to code L (Z.of_N (len stack), s) (pc + 1) →
  spec_at st same_env (step_post s) (next op span pc stack).
Proof.
  intros Hi Hg. eapply spec_weaken; [by apply spec_next_eq|done|]. by intros ? ? _ _ ->.
Qed.

Lemma spec_push_flow st op span pc stack flow escape s :
  inv st → goes_to code L (Z.of_N (len stack) + 1, s)%Z (pc + 1) →
  (escape = true → flow_ok il flow st) →
  spec_at st same_env (step_post s) (push_flow op span pc stack flow escape).
Proof.
  intros Hi Hg Hf. destruct flow; cbn [push_flow].
  - apply spec_next; [done|]. rewrite len_cons.
    by replace (Z.of_N (1 + len stack)) with (Z.of_N (len stack) + 1)%Z by lia.
  - by apply spec_ret; [apply _| |].
  - destruct escape; [|by apply spec_throw]. apply spec_ret; [apply _|done|].
    cbn [step_post]. unfold flow_ok in Hf. destruct il; [done|]. by destruct (Hf eq_refl eq_refl).
  - destruct escape; [|by apply spec_throw]. apply spec_ret; [apply _|done|].
    cbn [step_post]. unfold flow_ok in Hf. destruct il; [done|]. by destruct (Hf eq_refl eq_refl).
Qed.

(** A computation in the caller's environment, seen from the step. *)
Lemma spec_deep {A} st (P : A → Interp W → Prop) m :
  spec_at st same_env P m → spec_at st deep P m.
Proof. intros Hm. eapply spec_weaken; [done|by intros; apply same_env_deep|done]. Qed.

Lemma spec_pop st (stack : Stack) :
  inv st → 1 ≤ len stack →
  spec_at st same_env (λ r _, ∃ v, stack = v :: r.2 ∧ r.1 = v) (pop stack).
Proof.
  intros Hi Hlen. destruct stack as [|v stack]; [unfold len in Hlen; cbn [length] in Hlen; lia|].
  apply spec_ret; [apply _|done|]. by exists v.
Qed.

Lemma spec_peek st (stack : Stack) :
  inv st → 1 ≤ len stack → spec_at st same_env any (peek stack).
Proof.
  intros Hi Hlen. destruct stack as [|v stack]; [unfold len in Hlen; cbn [length] in Hlen; lia|]. spec_done.
Qed.

Lemma spec_split_off st n (stack : Stack) :
  inv st → n ≤ len stack →
  spec_at st same_env (λ r _, len r.2 = len stack - n) (split_off n stack).
Proof.
  intros Hi Hlen. unfold split_off. rewrite (proj2 (N.leb_le _ _)) by done.
  apply spec_ret; [apply _|done|]. cbn. unfold len in *. rewrite length_drop. lia.
Qed.

(** What the verifier says about one instruction. *)
Lemma spec_unwrap_binary st o lhs rhs span :
  inv st → is_binary_operator o = true →
  spec_at st same_env any
    (lift_r (match lhs, rhs with
             | V_Int a, V_Int b => vm_int_binary a o b span
             | _, _ => binary lhs o rhs span
             end)).
Proof.
  intros Hi Ho. unfold lift_r.
  assert (is_Some (match lhs, rhs with
     | V_Int a, V_Int b => vm_int_binary a o b span | _, _ => binary lhs o rhs span end))
    as [r Hr].
  { pose proof (binary_total lhs o rhs span Ho). destruct lhs; try done. destruct rhs; try done.
    by apply vm_int_binary_total. }
  rewrite Hr. change (spec_at st same_env any (lift r)). eauto with spec.
Qed.

Lemma spec_step_call st fuel op arity span pc stack s :
  inv st → arity + 1 ≤ len stack →
  goes_to code L (Z.of_N (len stack - arity), s) (pc + 1) →
  spec_at st same_env (step_post s) (step_call exec fuel op arity span pc stack).
Proof.
  intros Hi Hlen Hg. unfold step_call.
  eapply spec_bind; [apply _|by apply spec_split_off; [done|lia]|].
  intros [arguments rest] st1 Hrest Hi1 _ _. cbn in Hrest.
  eapply spec_bind; [apply _|apply spec_pop; [done|lia]|].
  intros [callee rest'] st2 (v & -> & _) Hi2 _ _. cbn [fst snd] in *. rewrite len_cons in Hrest.
  eapply spec_bind; [apply _|by apply spec_call|]. intros value st3 _ Hi3 _ _.
  assert (goes_to code L (Z.of_N (len (value :: rest')), s) (pc + 1)) as Hg'
    by (rewrite len_cons, Hrest; done).
  destruct callee; try (by apply spec_next). by apply spec_ret; [apply _| |].
Qed.

(** The successor the certificate gives for an instruction that falls through. *)
Lemma wt_next pc op d s :
  wt_instr code L pc op (d, s) → successors op pc = [pc + 1] →
  goes_to code L (d + stack_effect op, s + scope_effect op)%Z (pc + 1).
Proof. intros (_ & _ & _ & Hsu) Hs. rewrite Hs in Hsu. by apply Forall_cons in Hsu as [? _]. Qed.

Lemma goes_to_at d d' s t : goes_to code L (d, s) t → d = d' → goes_to code L (d', s) t.
Proof. by intros ? <-. Qed.

(** The nested chunks of a verified instruction are admissible. *)
Definition nested_ok (op : Op) : Prop :=
  match op with
  | Op_MakeFunction _ _ b | Op_DefineModule _ b _ | Op_Sample _ b _ | Op_Using _ b =>
      admissible false b
  | Op_Iterate _ _ b => admissible true b
  | Op_Repeat c b => admissible false c ∧ admissible true b
  | Op_IfCarries _ t e => admissible il t ∧ from_option (admissible il) True e
  | Op_Match arms => Forall arm_ok arms
  | Op_LoopExit _ => il = true
  | Op_Unary o => is_unary_operator o = true
  | Op_Binary o => is_binary_operator o = true
  | Op_Call n | Op_PerformCall n | Op_MakeArray n | Op_MakeText n => small_operand n = true
  | _ => True
  end.

Lemma verified_nested n op span :
  verify_instruction n il (mkInstruction op span) = Ok tt →
  small_instruction (mkInstruction op span) = true → nested_ok op.
Proof using Type.
  cbn [verify_instruction small_instruction]. intros Hv Hs.
  apply bind_Ok in Hv as ([] & Hval & Hv). unfold validate_instruction in Hval.
  cbn [instr_op] in Hval. destruct op; cbn [nested_ok valid_operand] in *; try done.
  - by destruct (is_unary_operator operator).
  - by destruct (is_binary_operator operator).
  - apply for_each_Ok in Hv. rewrite forallb_forall in Hs. rewrite Forall_forall in Hv |- *.
    intros [ps g b sp] Ha. specialize (Hs _ (proj1 (list_elem_of_In _ _) Ha)).
    specialize (Hv _ Ha). cbn [verify_arm small_arm] in *.
    apply bind_Ok in Hv as ([] & Hg & Hb). apply andb_true_iff in Hs as [Sg Sb].
    split; [by split|]. by destruct g.
  - apply bind_Ok in Hv as ([] & Hc & Hb). apply andb_true_iff in Hs as [Sc Sb]. by repeat split.
  - by destruct il.
  - apply bind_Ok in Hv as ([] & Hc & Hb). apply andb_true_iff in Hs as [Sc Sb].
    split; [by split|]. by destruct else_branch.
Qed.

(** Operand counts as naturals. *)
Lemma pops_le op d s pc :
  wt_instr code L pc op (Z.of_N d, s) → nested_ok op →
  match op with
  | Op_Call n | Op_PerformCall n => n + 1
  | _ => stack_pops op
  end ≤ d.
Proof.
  intros (Hp & _) Hok. cbn [fst] in Hp.
  assert (∀ n, small_operand n = true → (Z.of_N (n + 1) ≤ isize_max)%Z) as Hsm
    by (intros n; unfold small_operand; lia).
  destruct op; cbn [stack_pops nested_ok] in *;
    try (rewrite as_isize_small in Hp by (unfold isize_max; lia); lia).
  all: specialize (Hsm _ Hok); unfold isize_max in Hsm;
    rewrite ?N.mod_small in Hp by lia; rewrite as_isize_small in Hp by (unfold isize_max; lia);
    lia.
Qed.

(** Read the pops and the fall-through target off the certificate. *)
Ltac cert Hwt Hok Hp Hn :=
  pose proof (pops_le _ _ _ _ Hwt Hok) as Hp; cbn [stack_pops] in Hp;
  pose proof (wt_next _ _ _ _ Hwt eq_refl) as Hn; cbn [stack_effect scope_effect] in Hn;
  rewrite ?Z.add_0_r in Hn.
Ltac pop_one :=
  eapply spec_bind; [apply _|apply spec_pop; [done|lia]|];
  intros [?v ?rest] ?st (?w & -> & ?Hw) ?Hi _ _; cbn [fst snd] in *;
  rewrite ?len_cons in *; simplify_eq.
Ltac finish :=
  apply spec_next; [done|]; eapply goes_to_at;
  [eassumption|rewrite ?len_cons in *; lia].

Lemma wt_branch pc op d s t :
  wt_instr code L pc op (d, s) → successors op pc = [t; pc + 1] →
  goes_to code L (d + stack_effect op, s + scope_effect op)%Z t ∧
  goes_to code L (d + stack_effect op, s + scope_effect op)%Z (pc + 1).
Proof.
  intros (_ & _ & _ & Hsu) Hs. rewrite Hs in Hsu.
  apply Forall_cons in Hsu as [? Hsu]. by apply Forall_cons in Hsu as [? _].
Qed.

Lemma small_isize n : small_operand n = true → as_isize n = Z.of_N n.
Proof. unfold small_operand. intros H0. apply as_isize_small. lia. Qed.

(** A new function value from an admissible body. *)
Lemma spec_add_function st ref name params body :
  inv st → admissible false body →
  spec_at st same_env any
    (update (λ st, set_functions
       (<[ref := mkFunction name params body (environment st)]> (functions st)) st)).
Proof.
  intros [If Ir] Hb. apply spec_update; [|done|done]. split; [split|split]; try done;
    [|intros c _; apply untouched_refl].
  intros r f. cbn. rewrite lookup_insert. case_decide; [|by apply If].
  by intros [= <-].
Qed.

(** Instructions that neither open nor close a scope. *)
Lemma spec_step_op st fuel op span pc (stack : Stack) s :
  inv st → nested_ok op → wt_instr code L pc op (Z.of_N (len stack), s) →
  op ≠ Op_EnterScope → op ≠ Op_ExitScope →
  spec_at st deep (step_post s) (step_op exec fuel op span stack pc).
Proof.
  intros Hi Hok Hwt Hne Hnx.
  destruct op; try done; cbn [step_op];
    lazymatch goal with
    | |- context [repeat] => idtac
    | |- context [execute_if_carries] => idtac
    | |- _ => apply spec_deep
    end.
  - cert Hwt Hok Hp Hn. finish.
  - cert Hwt Hok Hp Hn. spec_read. spec_step. finish.
  - cert Hwt Hok Hp Hn.
    eapply spec_bind; [apply _|by apply spec_peek|]. intros v st1 _ Hi1 _ _.
    spec_read. spec_step. finish.
  - cert Hwt Hok Hp Hn.
    eapply spec_bind; [apply _|by apply spec_peek|]. intros v st1 _ Hi1 _ _.
    spec_read. spec_step. destruct a; [by apply spec_throw|]. finish.
  - cert Hwt Hok Hp Hn. destruct stack as [|v stack]; [unfold len in Hp; cbn in Hp; lia|].
    cbn [tail]. finish.
  - cert Hwt Hok Hp Hn. pop_one.
    apply (spec_bind _ _ any); [|intros; finish].
    cbn in Hok. destruct operator; try done; eauto with spec. spec_step. spec_done.
  - cert Hwt Hok Hp Hn. pop_one. pop_one.
    eapply spec_bind; [apply _|by apply spec_unwrap_binary|]. intros. finish.
  - destruct Hwt as (_ & _ & _ & Hsu). apply Forall_cons in Hsu as [Hg _].
    cbn [stack_effect scope_effect] in Hg. rewrite ?Z.add_0_r in Hg.
    by apply spec_ret; [apply _| |].
  - (* JumpIfFalse *)
    pose proof (pops_le _ _ _ _ Hwt Hok) as Hp; cbn [stack_pops] in Hp.
    destruct (wt_branch _ _ _ _ _ Hwt eq_refl) as [Hg Hn].
    cbn [stack_effect scope_effect] in *. rewrite ?Z.add_0_r in *.
    eapply spec_bind; [apply _|by apply spec_peek|]. intros v st1 _ Hi1 _ _. spec_step.
    destruct a; [finish|]. by apply spec_ret; [apply _| |].
  - cert Hwt Hok Hp Hn. apply spec_step_call; [done|done|].
    eapply goes_to_at; [eassumption|]. rewrite small_isize by done. lia.
  - cert Hwt Hok Hp Hn. apply spec_step_call; [done|done|].
    eapply goes_to_at; [eassumption|]. rewrite small_isize by done. lia.
  - cert Hwt Hok Hp Hn. rewrite small_isize in Hn by done.
    eapply spec_bind; [apply _|by apply spec_split_off|].
    intros [vs rest] st1 Hr Hi1 _ _. cbn in Hr. finish.
  - cert Hwt Hok Hp Hn. rewrite small_isize in Hn by done.
    eapply spec_bind; [apply _|by apply spec_split_off|].
    intros [vs rest] st1 Hr Hi1 _ _. cbn in Hr. spec_read. spec_step. finish.
  - cert Hwt Hok Hp Hn. pop_one. spec_step. pop_one. spec_step. finish.
  - (* Coalesce *)
    destruct (wt_branch _ _ _ _ _ Hwt eq_refl) as [Hg Hn].
    cbn [stack_effect scope_effect] in *. rewrite ?Z.add_0_r in *.
    destruct stack as [|v stack]; [finish|].
    destruct v; by apply spec_ret; [apply _| |].
  - cert Hwt Hok Hp Hn. pop_one.
    destruct w; try (by apply spec_throw); [finish|]. by apply spec_ret; [apply _| |].
  - cert Hwt Hok Hp Hn. pop_one. spec_step. spec_step. finish.
  - cert Hwt Hok Hp Hn. pop_one.
    eapply spec_bind; [apply _|by apply spec_update_env|]. intros. finish.
  - cert Hwt Hok Hp Hn. spec_step.
    eapply spec_bind; [apply _|by apply spec_add_function|]. intros. finish.
  - pose proof (pops_le _ _ _ _ Hwt Hok) as Hp; cbn [stack_pops] in Hp. pop_one.
    by apply spec_ret; [apply _| |].
  - cert Hwt Hok Hp Hn. spec_read. spec_step. spec_step. finish.
  - cert Hwt Hok Hp Hn. spec_read. spec_step. spec_step. finish.
  - cert Hwt Hok Hp Hn. pop_one.
    eapply spec_bind; [apply _|by apply spec_execute_match|]. intros flow st1 Hf Hi1 _ _.
    apply spec_push_flow; [done| |done]. eapply goes_to_at; [eassumption|lia].
  - cert Hwt Hok Hp Hn.
    eapply spec_bind; [apply _|by apply spec_execute_module|]. intros. finish.
  - cert Hwt Hok Hp Hn. pop_one.
    eapply spec_bind; [apply _|by apply spec_iteration_values|]. intros vs st1 _ Hi1 _ _.
    eapply spec_bind; [apply _|by apply spec_iterate|]. intros flow st2 Hf Hi2 _ _.
    apply spec_push_flow; [done| |done]. eapply goes_to_at; [eassumption|lia].
  - cert Hwt Hok Hp Hn.
    eapply spec_bind; [apply _|by apply spec_peek|]. intros v st1 _ Hi1 _ _.
    spec_read. spec_step. spec_step. finish.
  - cert Hwt Hok Hp Hn.
    eapply spec_bind; [apply _|by apply spec_execute_sample|]. intros. finish.
  - (* Repeat *)
    cert Hwt Hok Hp Hn. destruct Hok as [Hc Hb].
    eapply spec_bind; [apply _|by apply spec_repeat|]. intros flow st1 Hf Hi1 _ _.
    apply spec_deep, spec_push_flow; [done| |done]. eapply goes_to_at; [eassumption|lia].
  - apply spec_ret; [apply _|done|]. by destruct skip.
  - (* IfCarries *)
    cert Hwt Hok Hp Hn. destruct Hok as [Ht He].
    eapply spec_bind; [apply _|apply spec_deep, spec_pop; [done|lia]|].
    intros [v rest] st1 (w & -> & Hw) Hi1 _ _. cbn [fst snd] in *. rewrite len_cons in *.
    eapply spec_bind; [apply _|by apply (spec_execute_if_carries _ il)|].
    intros flow st2 Hf Hi2 _ _.
    apply spec_deep, spec_push_flow; [done| |done]. eapply goes_to_at; [eassumption|lia].
  - cert Hwt Hok Hp Hn. pop_one.
    eapply spec_bind; [apply _|by apply spec_execute_using|]. intros flow st1 Hf Hi1 _ _.
    apply spec_push_flow; [done| |done]. eapply goes_to_at; [eassumption|lia].
  - cert Hwt Hok Hp Hn. spec_read. spec_step. spec_step. finish.
  - cert Hwt Hok Hp Hn. spec_step. finish.
  - cert Hwt Hok Hp Hn. finish.
  - cert Hwt Hok Hp Hn. finish.
  - cert Hwt Hok Hp Hn.
    eapply spec_bind; [apply _| |].
    { apply spec_update_env; try done. by apply prefix_app_r. }
    intros. finish.
Qed.

(** ** The loop *)

(** [st] is [s] scopes above the state the chunk was entered in. *)
Definition level (st0 : Interp W) (s : Z) st : Prop :=
  ∀ k, has_parents k (scopes st0) (environment st0) →
       has_parents (k + Z.to_nat s) (scopes st) (environment st).

Definition top (_ _ : Interp W) : Prop := True.
#[local] Instance chain_top : Chain top.
Proof. by split. Qed.

Lemma spec_top {A} st R (P : A → Interp W → Prop) m :
  spec_at st R P m → spec_at st top (λ a st', P a st' ∧ R st st') m.
Proof. intros Hm. eapply spec_weaken; [done|done|]. by intros. Qed.

Lemma level_deep st0 s st st' : level st0 s st → deep st st' → level st0 s st'.
Proof. intros Hl Hd k Hk. auto. Qed.

(** A step together with the scope level it leaves. *)
Definition step_level (st0 : Interp W) (r : BytecodeStep) st : Prop :=
  match r with
  | Step_Next pc stack =>
      ∃ s, (0 ≤ s)%Z ∧ goes_to code L (Z.of_N (len stack), s) pc ∧ level st0 s st
  | Step_Return _ => level st0 0 st
  | Step_Stop | Step_Skip => il = true ∧ level st0 0 st
  end.

Lemma level_weaken st0 s s' st : (0 ≤ s' ≤ s)%Z → level st0 s st → level st0 s' st.
Proof. intros Hs Hl k Hk. eapply has_parents_le; [|by apply Hl]. lia. Qed.

Lemma spec_enter st st0 fuel span pc (stack : Stack) s :
  inv st → (0 ≤ s)%Z → level st0 s st →
  wt_instr code L pc Op_EnterScope (Z.of_N (len stack), s) →
  spec_at st top (step_level st0) (step_op exec fuel Op_EnterScope span stack pc).
Proof.
  intros Hi Hs Hl Hwt. cert Hwt I Hp Hn. cbn [step_op]. spec_read.
  eapply spec_bind; [apply _|by apply spec_top, spec_child_scope|].
  intros env st1 [Henv _] Hi1 Hs1 _.
  eapply spec_bind; [apply _| |].
  - apply (spec_update _ _ (λ _ st', st' = set_environment env st1)); [|done|done].
    by apply sane_same.
  - intros _ st2 -> Hi2 _ _. eapply spec_weaken; [by apply spec_next_eq|done|].
    intros r st3 Hs3 He ->. exists (s + 1)%Z. split_and!; [lia|done|].
    intros k Hk. rewrite He. apply Hs3. cbn.
    replace (k + Z.to_nat (s + 1))%nat with (S (k + Z.to_nat s)) by lia. auto.
Qed.

Lemma spec_exit st st0 fuel span pc (stack : Stack) s :
  inv st → (0 ≤ s)%Z → level st0 s st →
  wt_instr code L pc Op_ExitScope (Z.of_N (len stack), s) →
  spec_at st top (step_level st0) (step_op exec fuel Op_ExitScope span stack pc).
Proof.
  intros Hi Hs Hl Hwt. cert Hwt I Hp Hn.
  destruct Hwt as (_ & _ & Hs1 & _). cbn [snd scope_effect] in Hs1. cbn [step_op]. spec_read.
  eapply spec_bind; [apply _|by apply spec_top, spec_scope_at|].
  intros scope st1 [[-> Hscope] _] _ _ _.
  assert (∀ k, has_parents k (scopes st0) (environment st0) → ∃ p, s_parent scope = Some p ∧
    has_parents (k + Z.to_nat (s - 1)) (scopes st) p) as Hlev.
  { intros k Hk. apply Hl in Hk.
    replace (k + Z.to_nat s)%nat with (S (k + Z.to_nat (s - 1))) in Hk by lia.
    destruct Hk as (s' & p & He & Hp' & Hk). simplify_eq. eauto. }
  destruct (Hlev 0%nat I) as (p & Hparent & _). rewrite Hparent.
  eapply spec_bind; [apply _| |].
  { by apply (spec_ret _ _ (λ a st', a = p ∧ st' = st)). }
  intros _ st1 [-> ->] _ _ _. eapply spec_bind; [apply _| |].
  - apply (spec_update _ _ (λ _ st', st' = set_environment p st)); [|done|done].
    by apply sane_same.
  - intros _ st2 -> Hi2 _ _. eapply spec_weaken; [by apply spec_next_eq|done|].
    intros r st3 Hs3 He ->. exists (s - 1)%Z. split_and!; [lia|done|].
    intros k Hk. rewrite He. apply Hs3. cbn. destruct (Hlev k Hk) as (p' & Hp'' & Hk').
    by simplify_eq.
Qed.

(** Any instruction. *)
Lemma spec_step_level st st0 fuel op span pc (stack : Stack) s :
  inv st → (0 ≤ s)%Z → level st0 s st → nested_ok op →
  wt_instr code L pc op (Z.of_N (len stack), s) →
  spec_at st top (step_level st0) (step_op exec fuel op span stack pc).
Proof.
  intros Hi Hs Hl Hok Hwt.
  assert ({op = Op_EnterScope} + {op = Op_ExitScope} + {op ≠ Op_EnterScope ∧ op ≠ Op_ExitScope})
    as [[->| ->]|[Hne Hnx]] by (destruct op; auto).
  - by apply (spec_enter _ _ _ _ _ _ s).
  - by apply (spec_exit _ _ _ _ _ _ s).
  - eapply spec_weaken; [by apply spec_step_op|done|].
    intros r st' Hsane Hd Hr. pose proof (level_deep _ _ _ _ Hl Hd) as Hl'.
    assert (level st0 0 st') by (eapply level_weaken; [|done]; lia).
    destruct r; cbn [step_post step_level] in *; eauto.
Qed.

Hypothesis code_ok : ∀ i op span,
  code !! N.to_nat i = Some (mkInstruction op span) → nested_ok op.
Hypothesis code_wt : ∀ i op span x,
  code !! N.to_nat i = Some (mkInstruction op span) → L i = Some x → wt_instr code L i op x.

Lemma spec_run st st0 fuel pc (stack : Stack) s :
  inv st → (0 ≤ s)%Z → level st0 s st → goes_to code L (Z.of_N (len stack), s) pc →
  spec_at st top (λ flow st', flow_ok il flow st' ∧ level st0 0 st') (run exec fuel code stack pc).
Proof.
  revert st pc stack s. induction fuel as [|fuel IH]; intros st pc stack s Hi Hs Hl Hg;
    cbn [run]; destruct (N.ltb_spec pc (len code)) as [Hlt|Hge]; try done.
  2: { destruct Hg as [[-> _]|[Hlt' HL]]; [lia|]. eapply spec_bind; [apply _| |].
    - unfold step. eapply spec_bind; [apply _|by apply spec_top, spec_check_cancelled|].
      intros _ st1 [_ He1] Hi1 Hs1 _.
      destruct (code !! N.to_nat pc) as [[op span]|] eqn:Hop;
        [|apply lookup_ge_None in Hop; unfold len in Hlt; lia].
      eapply spec_bind; [apply _|by apply spec_top, spec_charge|].
      intros _ st2 [_ He2] Hi2 Hs2 _.
      apply (spec_step_level st2 st0 _ _ _ _ _ s); try done; [|by eapply code_ok|by eapply code_wt].
      eapply level_deep; [exact Hl|].
      eapply deep_trans; [by apply same_env_deep|by apply same_env_deep].
    - intros r st1 Hr Hi1 _ _. destruct r; cbn [step_level] in Hr.
      + destruct Hr as (s' & Hs' & Hg' & Hl'). by eapply IH.
      + by apply spec_ret; [apply _| |].
      + apply spec_ret; [apply _|done|]. destruct Hr as [Hil Hl']. split; [|done].
        intros Hf. congruence.
      + apply spec_ret; [apply _|done|]. destruct Hr as [Hil Hl']. split; [|done].
        intros Hf. congruence. }
  all: destruct Hg as [(-> & _ & Hs0)|[? _]]; [|lia]; cbn in Hs0; subst s;
    eapply spec_bind; [apply _|by apply spec_top, spec_check_cancelled|];
    intros _ st1 [_ He1] Hi1 Hs1 _; apply spec_ret; [apply _|done|];
    split; [done|]; eapply level_deep; [done|]; by apply same_env_deep.
Qed.
End step.
End execution.

(** ** Whole executions *)

Lemma prefix_take_length {A} (l k : list A) : l `prefix_of` k → take (length l) k = l.
Proof. intros [r ->]. by rewrite take_app_length. Qed.

Lemma end_promises_eq (st st' : Interp W) :
  sane st st' → take (length (active_promises st)) (active_promises st') = active_promises st.
Proof. intros [_ [_ Hp _]]. by apply prefix_take_length. Qed.

Lemma sane_end_promises (st st' : Interp W) :
  sane st st' →
  sane st (set_promises (take (length (active_promises st)) (active_promises st')) st').
Proof.
  intros Hs. rewrite (end_promises_eq _ _ Hs). destruct Hs as [[If Ir] [E P Wd]].
  by split; split.
Qed.

(** What the verifier establishes of a chunk. *)
Lemma chunk_cert il v code :
  admissible il (mkChunk v code) →
  ∃ L, goes_to code L (0, 0)%Z 0
    ∧ (∀ i op span, code !! N.to_nat i = Some (mkInstruction op span) → nested_ok il op)
    ∧ (∀ i op span x, code !! N.to_nat i = Some (mkInstruction op span) → L i = Some x →
         wt_instr code L i op x).
Proof using Type.
  intros [Hv Hsm]. cbn [verify_in_context] in *.
  destruct (decide (v = BYTECODE_VERSION)) as [->|]; [|done].
  apply bind_Ok in Hv as ([] & Hins & Hst). apply verify_stack_Ok in Hst as (Hne & L & Hw0 & HwL).
  apply for_each_Ok in Hins. cbn [small_chunk] in Hsm. rewrite forallb_forall in Hsm.
  rewrite Forall_forall in Hins. exists L. split_and!; [done| |done].
  intros i op span Hi'. apply list_elem_of_lookup_2 in Hi'.
  eapply verified_nested; [by apply Hins|]. by apply Hsm, list_elem_of_In.
Qed.

(** The loop of a verified chunk, before its promises end. *)
Lemma run_spec fuel il v code st :
  inv st → admissible il (mkChunk v code) →
  (∀ il c st, inv st → admissible il c → spec_at st deep (flow_ok il) (execute fuel c)) →
  spec_at st top (λ flow st', flow_ok il flow st' ∧ level st 0 st')
    (run (execute fuel) fuel code [] 0).
Proof.
  intros Hi (L & Hw0 & Hok & HwL)%chunk_cert IH.
  apply (spec_run (execute fuel) IH code L il) with (st0 := st) (s := 0%Z); try done.
  intros k Hk. cbn. by rewrite Nat.add_0_r.
Qed.

(** A verified chunk of ordinary size, run with any amount of fuel from a state
    whose functions are verified, does not panic. *)
Lemma execute_spec fuel il c st :
  inv st → admissible il c → spec_at st deep (flow_ok il) (execute fuel c).
Proof.
  revert il c st. induction fuel as [|fuel IH]; intros il c st Hi Hc; [done|].
  cbn [execute_with]. unfold execute_chunk_vm. spec_read. destruct c as [v code].
  pose proof (run_spec fuel il v code st Hi Hc IH) as Hr. cbn [chunk_code].
  unfold spec_at, finally in *. destruct (run _ _ _ _ _ st) as [flow st'|e st'| | |]; try done.
  - destruct Hr as (Hs & _ & Hf & Hl). split_and!; [by apply sane_end_promises| |exact Hf].
    intros k Hk. specialize (Hl k Hk). by rewrite Nat.add_0_r in Hl.
  - by apply sane_end_promises.
Qed.

(** The promises a chunk makes end with it. *)
Lemma execute_promises_eq fuel il c st :
  inv st → admissible il c →
  match execute fuel c st with
  | Done _ st' | Fail _ st' => active_promises st' = active_promises st
  | Panic | Dangling | OutOfFuel => True
  end.
Proof.
  intros Hi Hc. destruct fuel as [|fuel]; [done|]. destruct c as [v code].
  pose proof (run_spec fuel il v code st Hi Hc (execute_spec fuel)) as Hr.
  cbn [execute_with]. unfold execute_chunk_vm, finally, spec_at in *. cbv [mbind M_bind get].
  cbn [chunk_code]. destruct (run _ _ _ _ _ st) as [flow st'|e st'| | |]; try done.
  - destruct Hr as [Hs _]. by apply end_promises_eq.
  - by apply end_promises_eq.
Qed.
End machine.
