(* ===== verification/VmMono.v ===== *)
(** * Refinement of executions, and fuel

    A relation between computations that is reflexive, has running out of fuel at
    the bottom and is closed under the operations both engines are built from
    relates whole executions when it relates their rules ([refines_execute]).
    Its first use is the order of fuel: more fuel never changes what an engine
    does, so the result of a program is well defined and the fuel is a device of
    the model only. *)
From S2P Require Import Prelude Ast Bytecode Verifier Values Gate Vm Tree TreeLift Engine.
Open Scope list_scope.

(** What both engines are built from. *)
Class Refining {W} `{Foreign} `{!Host W} (Rel : ∀ A, M W A → M W A → Prop) : Prop := {
  ref_same : ∀ A (m : M W A), Rel A m m;
  ref_out : ∀ A (m : M W A), Rel A out_of_fuel m;
  ref_bind : ∀ A B (m m' : M W A) (f f' : A → M W B),
    Rel A m m' → (∀ a, Rel B (f a) (f' a)) → Rel B (m ≫= f) (m' ≫= f');
  ref_finally : ∀ A (m m' : M W A) cleanup,
    Rel A m m' → Rel A (finally m cleanup) (finally m' cleanup);
  ref_with_trace : ∀ A (m m' : M W A) name span,
    Rel A m m' → Rel A (with_trace m name span) (with_trace m' name span);
  ref_then_close : ∀ (m m' : M W VmFlow) kind ref span,
    Rel _ m m' → Rel _ (then_close m kind ref span) (then_close m' kind ref span) }.

Create HintDb mono.

Section refinement.
Context {W : Type} `{Foreign} `{!Host W} (Rel : ∀ A, M W A → M W A → Prop) `{!Refining Rel}.
#[local] Set Default Proof Using "All".

#[export] Instance refining_lifting : Lifting Rel.
Proof.
  split; intros; try apply ref_same; [by apply ref_bind|apply ref_out|by apply ref_finally].
Qed.
#[export] Instance refining_statement_lifting : StatementLifting Rel.
Proof.
  split; intros; [apply ref_same| |by apply ref_then_close].
  apply ref_bind; [apply ref_same|]. intros st. by apply ref_finally.
Qed.

Lemma ref_in_environment {A} env (m m' : M W A) :
  Rel _ m m' → Rel _ (in_environment env m) (in_environment env m').
Proof.
  intros Hm. apply ref_bind; [apply ref_same|]. intros st. apply ref_finally.
  apply ref_bind; [apply ref_same|]. by intros _.
Qed.
#[local] Hint Extern 0 (Rel _ _ _) => first [apply ref_same | apply ref_out] : mono.
#[local] Hint Extern 1 (Rel _ (in_environment _ _) _) => apply ref_in_environment : mono.
#[local] Hint Extern 1 (Rel _ (with_trace _ _ _) _) => apply ref_with_trace : mono.
#[local] Hint Extern 1 (Rel _ (finally _ _) _) => apply ref_finally : mono.
#[local] Hint Extern 1 (Rel _ (then_close _ _ _ _) _) => apply ref_then_close : mono.

(** Compare two computations of the same shape. *)
#[local] Ltac mono :=
  repeat first
    [ solve [eauto with mono]
    | apply ref_bind; [|intros ?]
    | match goal with
      | |- Rel _ (match ?x with _ => _ end) (match ?x with _ => _ end) => destruct x
      | |- Rel _ (let '(_, _) := ?x in _) _ => destruct x
      end ].

Section execution.
Context (exec exec' : FunctionBody → M W VmFlow).
Hypothesis exec_rel : ∀ c, Rel _ (exec c) (exec' c).
#[local] Set Default Proof Using "All".
#[local] Hint Resolve exec_rel : mono.

Lemma ref_call_function ref arguments span :
  Rel _ (call_function exec ref arguments span) (call_function exec' ref arguments span).
Proof. unfold call_function. mono. apply ref_with_trace, ref_finally. mono. Qed.
#[local] Hint Resolve ref_call_function : mono.

Lemma ref_call fuel fuel' callee arguments span :
  (fuel ≤ fuel')%nat →
  Rel _ (call exec fuel callee arguments span) (call exec' fuel' callee arguments span).
Proof.
  revert fuel' callee. induction fuel as [|fuel IH]; intros [|fuel'] callee Hle;
    destruct callee; cbn [call]; try lia; mono.
  apply IH. lia.
Qed.
#[local] Hint Resolve ref_call : mono.

Lemma ref_run_arm body guard span :
  Rel _ (run_arm exec body guard span) (run_arm exec' body guard span).
Proof. unfold run_arm. mono. Qed.
#[local] Hint Resolve ref_run_arm : mono.

Lemma ref_execute_match subject arms span :
  Rel _ (execute_match exec subject arms span) (execute_match exec' subject arms span).
Proof. induction arms as [|[ps g b s] arms IH]; cbn [execute_match]; mono. Qed.

Lemma ref_execute_module name body exports span :
  Rel _ (execute_module exec name body exports span) (execute_module exec' name body exports span).
Proof.
  unfold execute_module. do 2 (apply ref_bind; [apply ref_same|intros ?]).
  apply ref_bind; [|intros; mono]. apply ref_in_environment. mono. apply ref_finally. mono.
Qed.

Lemma ref_drain_adopter fuel fuel' implementation state items span :
  (fuel ≤ fuel')%nat →
  Rel _ (drain_adopter exec fuel implementation state items span)
    (drain_adopter exec' fuel' implementation state items span).
Proof.
  revert fuel' state items. induction fuel as [|fuel IH]; intros [|fuel'] state items Hle;
    cbn [drain_adopter]; try lia; mono.
  - apply ref_call. lia.
  - apply IH. lia.
Qed.

Lemma ref_iteration_values fuel fuel' iterable span :
  (fuel ≤ fuel')%nat →
  Rel _ (iteration_values exec fuel iterable span) (iteration_values exec' fuel' iterable span).
Proof. intros Hle. unfold iteration_values. mono. by apply ref_drain_adopter. Qed.

Lemma ref_iterate name pattern body span values last :
  Rel _ (iterate exec name pattern body span values last)
    (iterate exec' name pattern body span values last).
Proof. revert last. induction values as [|v values IH]; intros last; cbn [iterate]; mono. Qed.

Lemma ref_repeat fuel fuel' condition body span last :
  (fuel ≤ fuel')%nat →
  Rel _ (repeat exec fuel condition body span last) (repeat exec' fuel' condition body span last).
Proof.
  revert fuel' last. induction fuel as [|fuel IH]; intros [|fuel'] last Hle; cbn [repeat];
    try lia; mono; apply IH; lia.
Qed.

Lemma ref_execute_using name resource body span :
  Rel _ (execute_using exec name resource body span) (execute_using exec' name resource body span).
Proof. unfold execute_using. mono. Qed.

#[local] Hint Resolve ref_execute_match ref_execute_module ref_iteration_values ref_iterate
  ref_repeat ref_execute_using : mono.

Lemma ref_step_op fuel fuel' op span stack pc :
  (fuel ≤ fuel')%nat →
  Rel _ (step_op exec fuel op span stack pc) (step_op exec' fuel' op span stack pc).
Proof.
  intros Hle. destruct op; cbn [step_op]; try apply ref_same; unfold step_call, execute_sample,
    execute_if_carries; mono.
Qed.

Lemma ref_run fuel fuel' code stack pc :
  (fuel ≤ fuel')%nat → Rel _ (run exec fuel code stack pc) (run exec' fuel' code stack pc).
Proof.
  revert fuel' stack pc. induction fuel as [|fuel IH]; intros fuel' stack pc Hle.
  - destruct fuel' as [|fuel']; cbn [run]; destruct (pc <? len code); eauto with mono.
  - destruct fuel' as [|fuel']; [lia|]. cbn [run]. destruct (pc <? len code); [|eauto with mono].
    apply ref_bind; [|intros []; [apply IH; lia|eauto with mono..]]. unfold step. mono.
    apply ref_step_op. lia.
Qed.
End execution.

(** The tree interpreter runs on the same calls. *)
Lemma refines_execute_stmt exec exec' fuel fuel' gm gm' redeclare redeclare' s :
  (∀ c, Rel _ (exec c) (exec' c)) → (fuel ≤ fuel')%nat →
  (∀ ref v name span, Rel _ (lift (gm ref v name span)) (lift (gm' ref v name span))) →
  (∀ name v, Rel _ (declare_function redeclare name v) (declare_function redeclare' name v)) →
  Rel _ (execute_stmt exec fuel gm redeclare s) (execute_stmt exec' fuel' gm' redeclare' s).
Proof.
  intros He Hle Hg Hd. apply (execute_stmt_rel Rel); try done; try apply _; intros.
  - by apply ref_call.
  - by apply ref_iteration_values.
Qed.

Lemma refines_execute rules rules' fuel fuel' body :
  (∀ ref v name span, Rel _ (lift (rule_get rules ref v name span)) (lift (rule_get rules' ref v name span))) →
  (∀ name v, Rel _ (declare_function (rule_redeclare rules) name v)
     (declare_function (rule_redeclare rules') name v)) →
  (fuel ≤ fuel')%nat → Rel _ (execute_with rules fuel body) (execute_with rules' fuel' body).
Proof.
  intros Hg Hd. revert fuel' body. induction fuel as [|fuel IH]; intros [|fuel'] body Hle; cbn [execute_with];
    try lia; eauto with mono. destruct body as [ss|chunk].
  - apply (rel_block Rel). apply Forall_forall. intros s _.
    apply refines_execute_stmt; try done; [|lia]. intros c. apply IH. lia.
  - unfold execute_chunk_vm. mono. apply ref_finally, ref_run; [|lia]. intros c. apply IH. lia.
Qed.
End refinement.

(** ** The order of fuel *)

Section order.
Context {W : Type}.

(** [o] is what [o'] is, or ran out of fuel. *)
Definition below {A} (o o' : outcome W A) : Prop := o = OutOfFuel ∨ o = o'.
Definition mle {A} (m m' : M W A) : Prop := ∀ st, below (m st) (m' st).

Lemma mle_bind {A B} (m m' : M W A) (f f' : A → M W B) :
  mle m m' → (∀ a, mle (f a) (f' a)) → mle (m ≫= f) (m' ≫= f').
Proof.
  intros Hm Hf st. unfold mbind, M_bind. destruct (Hm st) as [->| ->]; [by left|].
  destruct (m' st); by (apply Hf || right).
Qed.

Context `{Foreign} `{!Host W}.

#[export] Instance mle_refining : Refining (@mle).
Proof.
  split.
  - by right.
  - by left.
  - intros. by apply mle_bind.
  - intros A m m' cleanup Hm st. unfold finally. destruct (Hm st) as [->| ->]; [by left|by right].
  - intros A m m' name span Hm st. unfold with_trace. destruct (Hm st) as [->| ->]; [by left|by right].
  - intros m m' kind ref span Hm st. unfold then_close. destruct (Hm st) as [->| ->]; [by left|by right].
Qed.

Lemma execute_more rules fuel fuel' body st o :
  execute_with rules fuel body st = o → o ≠ OutOfFuel → (fuel ≤ fuel')%nat →
  execute_with rules fuel' body st = o.
Proof.
  intros <- Ho Hle. destruct (refines_execute (@mle) rules rules fuel fuel' body) with (st := st)
    as [?| ->]; try done; intros; apply ref_same.
Qed.
End order.
