(* ===== verification/VmEnds.v ===== *)
(** * Metered programs end

    An instruction budget bounds a program: with budget [k], the machine ends
    within fuel [k + 2], whatever the code, verified or not, and however deeply
    its loops, calls and nested chunks are interleaved.  Every pass of a
    [repeat] is charged at least once, since a condition that executes no
    instruction yields [null], which is not a boolean.

    The one unmetered recursion of the machine is protocol dispatch; code that
    adopts no protocol ([no_adopt]) cannot reach it. *)
From S2P Require Import Prelude Ast Bytecode Verifier Values Gate Vm Tree Engine.
Open Scope list_scope.

(** ** Code without adoptions *)

Fixpoint no_adopt (c : Chunk) : bool :=
  match c with mkChunk _ code => forallb no_adopt_instruction code end
with no_adopt_instruction (i : Instruction) : bool :=
  match i with
  | mkInstruction op _ =>
      match op with
      | Op_AdoptProtocol _ _ _ => false
      | Op_MakeFunction _ _ b | Op_DefineModule _ b _ | Op_Iterate _ _ b | Op_Sample _ b _
      | Op_Using _ b => no_adopt b
      | Op_Repeat c b => no_adopt c && no_adopt b
      | Op_IfCarries _ t e =>
          no_adopt t && match e with Some e => no_adopt e | None => true end
      | Op_Match arms => forallb no_adopt_arm arms
      | _ => true
      end
  end
with no_adopt_arm (a : BytecodeArm) : bool :=
  match a with
  | mkArm _ g b _ => match g with Some g => no_adopt g | None => true end && no_adopt b
  end.

Definition no_adopt_body (body : FunctionBody) : bool :=
  match body with Body_Bytecode c => no_adopt c | Body_Tree _ => false end.

Section ends.
Context {W : Type}.
Implicit Types st : Interp W.

(** No protocol has been adopted, and no function adopts one. *)
Record undispatched st : Prop := mkUndispatched {
  un_dispatch : protocol_dispatch st = ∅;
  un_functions : ∀ r f, functions st !! r = Some f → no_adopt_body (f_body f) = true }.

(** With [k] instructions left, [m] ends; a result comes with [P] of it and of
    what is left. *)
Definition ends {A} (k : N) (m : M W A) (P : A → N → Prop) : Prop :=
  ∀ st, undispatched st → instruction_budget st = Some k →
    match m st with
    | Done a st' =>
        undispatched st' ∧ ∃ k', instruction_budget st' = Some k' ∧ k' ≤ k ∧ P a k'
    | OutOfFuel => False
    | Fail _ _ | Panic | Dangling => True
    end.

Definition some {A} (_ : A) (_ : N) : Prop := True.

Lemma ends_ret {A} k (a : A) (P : A → N → Prop) : P a k → ends k (mret a) P.
Proof. intros Ha st Hu Hk. cbn. eauto. Qed.
Lemma ends_throw {A} k e (P : A → N → Prop) : ends k (throw e) P.
Proof. done. Qed.
Lemma ends_panic {A} k (P : A → N → Prop) : ends k panic P.
Proof. done. Qed.
Lemma ends_dangling {A} k (P : A → N → Prop) : ends k dangling P.
Proof. done. Qed.
Lemma ends_get k : ends k get some.
Proof. intros st Hu Hk. cbn. split; [done|]. eexists. done. Qed.
Lemma ends_lift {A} k (r : result NivError A) : ends k (lift r) some.
Proof. destruct r; [by apply ends_ret|apply ends_throw]. Qed.
Lemma ends_unwrap {A} k (o : option A) : ends k (unwrap o) some.
Proof. destruct o; [by apply ends_ret|apply ends_panic]. Qed.
Lemma ends_update k f :
  (∀ st, undispatched st → undispatched (f st)) →
  (∀ st, instruction_budget (f st) = instruction_budget st) → ends k (update f) some.
Proof. intros Hf Hb st Hu Hk. cbn. split; [auto|]. exists k. rewrite Hb. done. Qed.

Lemma ends_bind {A B} k (m : M W A) (f : A → M W B) (P : A → N → Prop) (Q : B → N → Prop) :
  ends k m P → (∀ a k', k' ≤ k → P a k' → ends k' (f a) Q) → ends k (m ≫= f) Q.
Proof.
  intros Hm Hf st Hu Hk. specialize (Hm st Hu Hk). cbv [mbind M_bind].
  destruct (m st) as [a st'|e st'| | |]; try done.
  destruct Hm as (Hu' & k' & Hk' & Hle & Ha). specialize (Hf a k' Hle Ha st' Hu' Hk').
  destruct (f a st') as [b st''|e st''| | |]; try done.
  destruct Hf as (Hu'' & k'' & Hk'' & Hle' & Hb). split; [done|]. exists k''. split_and!; [done|lia|done].
Qed.

(** Reading the state tells what the invariant says of it. *)
Lemma ends_read {B} k (f : Interp W → M W B) (Q : B → N → Prop) :
  (∀ st, undispatched st → ends k (f st) Q) → ends k (get ≫= f) Q.
Proof. intros Hf st Hu Hk. by apply Hf. Qed.

Lemma ends_weaken {A} k (m : M W A) (P Q : A → N → Prop) :
  ends k m P → (∀ a k', k' ≤ k → P a k' → Q a k') → ends k m Q.
Proof.
  intros Hm HPQ st Hu Hk. specialize (Hm st Hu Hk). destruct (m st); try done.
  destruct Hm as (? & k' & ? & ? & ?). eauto 10.
Qed.

Lemma ends_finally {A} k (m : M W A) f (P : A → N → Prop) :
  ends k m P → (∀ st, undispatched st → undispatched (f st)) →
  (∀ st, instruction_budget (f st) = instruction_budget st) → ends k (finally m f) P.
Proof.
  intros Hm Hf Hb st Hu Hk. specialize (Hm st Hu Hk). unfold finally. destruct (m st); try done.
  destruct Hm as (? & k' & ? & ? & ?). split; [auto|]. exists k'. by rewrite Hb.
Qed.

Lemma ends_with_trace {A} k (m : M W A) name span (P : A → N → Prop) :
  ends k m P → ends k (with_trace m name span) P.
Proof. intros Hm st Hu Hk. specialize (Hm st Hu Hk). unfold with_trace. by destruct (m st). Qed.

Lemma ends_in_environment {A} k env (m : M W A) (P : A → N → Prop) :
  (∀ k', k' ≤ k → ends k' m P) → ends k (in_environment env m) P.
Proof.
  intros Hm. apply ends_read. intros st _. apply ends_finally; [|by intros ? [??]|done].
  eapply ends_bind; [by apply ends_update; [intros ? [??]|]|]. auto.
Qed.

Lemma ends_fold {A S} (f : S → A → M W S) l s k :
  (∀ s a k', k' ≤ k → ends k' (f s a) some) → ends k (fold_left_M f l s) some.
Proof.
  revert s k. induction l as [|x l IH]; intros s k Hf; cbn; [by apply ends_ret|].
  eapply ends_bind; [by apply Hf|]. intros s' k' Hle _. apply IH. intros. apply Hf. lia.
Qed.
End ends.

Create HintDb ends.
#[export] Hint Resolve ends_throw ends_panic ends_dangling ends_get ends_lift ends_unwrap : ends.
#[export] Hint Unfold some : ends.

(** Follow the structure of a computation. *)
Ltac ending :=
  repeat first
    [ solve [eauto with ends]
    | match goal with
      | |- ends _ (mret _) _ => apply ends_ret; solve [exact I|done]
      | |- ends _ (get ≫= _) _ => apply ends_read; intros ?st ?Hu
      | |- ends _ (update _) _ => apply ends_update; [by intros ? []|done]
      | |- ends _ (finally _ _) _ => apply ends_finally; [|by intros ? []|done]
      | |- ends _ (with_trace _ _ _) _ => apply ends_with_trace
      | |- ends _ (match ?x with _ => _ end) _ => destruct x eqn:?
      | |- ends _ (_ ≫= _) _ => apply (ends_bind _ _ _ some); [|intros ?a ?k ?Hle _]
      end ].

(** What the machine needs of its host: natives end, adopt nothing and do not
    refill the budget. *)
Class HostEnds (W : Type) `{Host W} : Prop := {
  native_ends : ∀ f arguments span k, ends k (host_native f arguments span) some;
  drain_ends : ∀ ref span k, ends k (host_drain ref span) some;
  close_ends : ∀ kind ref span k, ends k (host_close kind ref span) some;
  close_never_spins : ∀ kind ref span st, host_close kind ref span st ≠ OutOfFuel }.
#[export] Hint Resolve native_ends drain_ends close_ends : ends.

Section machine.
Context {W : Type} `{Foreign} `{!Host W, !HostEnds W}.
Implicit Types st : Interp W.
#[local] Set Default Proof Using "All".

Lemma fresh_ends k : ends (W := W) k fresh some.
Proof. intros st [Hd Hf] Hk. cbn. split; [by split|]. by exists k. Qed.
Lemma scope_at_ends k env : ends (W := W) k (scope_at env) some.
Proof. unfold scope_at. ending. Qed.
#[local] Hint Resolve fresh_ends scope_at_ends : ends.
Lemma child_scope_ends k parent bindings : ends (W := W) k (child_scope parent bindings) some.
Proof. unfold child_scope. ending. Qed.
Lemma insert_binding_ends k env name b : ends (W := W) k (insert_binding env name b) some.
Proof. unfold insert_binding. ending. Qed.
#[local] Hint Resolve child_scope_ends insert_binding_ends : ends.
Lemma assign_ends fuel env name v span k : ends (W := W) k (assign fuel env name v span) some.
Proof. revert env k. induction fuel as [|fuel IH]; intros env k; cbn [assign]; ending. Qed.
Lemma charge_memory_ends k v span : ends (W := W) k (charge_memory v span) some.
Proof.
  intros st [Hd Hf] Hk. unfold charge_memory. cbv [mbind M_bind get].
  destruct (value_bytes _ v); [|done]. destruct (memory_budget st) as [b|]; [destruct (_ <=? b); [|done]|];
    cbn; (split; [by split|]); by exists k.
Qed.
Lemma check_cancelled_ends k : ends (W := W) k check_cancelled some.
Proof. unfold check_cancelled. ending. Qed.
#[local] Hint Resolve assign_ends charge_memory_ends check_cancelled_ends : ends.

(** A charge takes one instruction or ends the program. *)
Lemma charge_ends k span : ends (W := W) k (charge span) (λ _ k', k' < k).
Proof.
  intros st [Hd Hf] Hk. unfold charge. cbv [mbind M_bind get]. rewrite Hk.
  destruct k as [|p]; [done|]. cbn -[N.sub]. split; [by split|].
  exists (N.pos p - 1). split_and!; [done|lia..].
Qed.

Lemma declare_ends k name v : ends (W := W) k (declare name v) some.
Proof. unfold declare. ending. Qed.
#[local] Hint Resolve declare_ends : ends.
Lemma declare_all_ends k bindings span : ends (W := W) k (declare_all bindings span) some.
Proof.
  unfold declare_all. apply ends_read. intros st _. apply ends_fold. intros ? [n v] k' _. ending.
Qed.
Lemma next_ends k op span pc stack : ends (W := W) k (next op span pc stack) some.
Proof. unfold next. ending. Qed.
Lemma pop_ends k stack : ends (W := W) k (pop stack) some.
Proof. unfold pop. ending. Qed.
Lemma peek_ends k stack : ends (W := W) k (peek stack) some.
Proof. unfold peek. ending. Qed.
Lemma split_off_ends k n stack : ends (W := W) k (split_off n stack) some.
Proof. unfold split_off. ending. Qed.
Lemma lift_r_ends k r : ends (W := W) k (lift_r r) some.
Proof. unfold lift_r. ending. Qed.
#[local] Hint Resolve declare_all_ends next_ends pop_ends peek_ends split_off_ends lift_r_ends : ends.
Lemma push_flow_ends k op span pc stack flow escape :
  ends (W := W) k (push_flow op span pc stack flow escape) some.
Proof. unfold push_flow. ending. Qed.
#[local] Hint Resolve push_flow_ends : ends.

(** ** Nested executions *)

(** A chunk that yields a value other than [null] was charged. *)
Definition paid (k : N) (flow : VmFlow) (k' : N) : Prop :=
  ∀ v, flow = Flow_Continue v → k' < k ∨ v = V_Null.

Section execution.
Context (exec : FunctionBody → M W VmFlow) (K : N).
Hypothesis exec_ends : ∀ k (c : Chunk), k < K → no_adopt c = true → ends k (exec c) (paid k).

Lemma exec_some k c : k < K → no_adopt c = true → ends k (exec c) some.
Proof. intros Hk Hc. eapply ends_weaken; [by apply exec_ends|done]. Qed.
#[local] Hint Resolve exec_some : ends.

Lemma exec_in k env c : k < K → no_adopt c = true → ends k (in_environment env (exec c)) some.
Proof. intros Hk Hc. apply ends_in_environment. intros k' Hle. apply exec_some; [lia|done]. Qed.
#[local] Hint Resolve exec_in : ends.

Lemma call_function_ends k ref arguments span :
  k < K → ends k (call_function exec ref arguments span) some.
Proof.
  intros Hk. unfold call_function. apply ends_read. intros st Hu.
  destruct (functions st !! ref) as [f|] eqn:Hf; [|apply ends_dangling].
  pose proof (un_functions st Hu _ _ Hf) as Hn. destruct (f_body f) as [|body]; [done|]. ending.
  - apply exec_in; [lia|done].
  - unfold function_result. ending.
Qed.

Lemma call_ends fuel callee arguments span k :
  k < K → ends k (call exec fuel callee arguments span) some.
Proof.
  intros Hk. destruct fuel, callee; cbn [call]; try (by apply call_function_ends); ending.
  all: exfalso; rewrite (un_dispatch _ Hu) in *; done.
Qed.
#[local] Hint Resolve call_ends : ends.

Lemma run_arm_ends k body guard span :
  k < K → no_adopt body = true → from_option (λ g, no_adopt g = true) True guard →
  ends k (run_arm exec body guard span) some.
Proof.
  intros Hk Hb Hg. unfold run_arm. destruct guard; cbn in Hg; ending; apply exec_some; lia || done.
Qed.

Lemma execute_match_ends k subject arms span :
  k < K → forallb no_adopt_arm arms = true → ends k (execute_match exec subject arms span) some.
Proof.
  revert k. induction arms as [|[ps g b s] arms IH]; intros k Hk Ha; cbn [execute_match]; [ending|].
  cbn [forallb no_adopt_arm] in Ha. rewrite !andb_true_iff in Ha. destruct Ha as [[Hg Hb] Ha].
  ending; try (apply IH; [lia|done]).
  apply ends_in_environment. intros k' Hle'. apply run_arm_ends; [lia|done|]. by destruct g.
Qed.

Lemma execute_module_ends k name body exports span :
  k < K → no_adopt body = true → ends k (execute_module exec name body exports span) some.
Proof.
  intros Hk Hb. unfold execute_module. ending.
  apply ends_in_environment. intros k' Hle'. ending. apply exec_some; [lia|done].
Qed.

Lemma iteration_values_ends k fuel iterable span :
  ends k (iteration_values exec fuel iterable span) some.
Proof.
  unfold iteration_values. ending. exfalso. rewrite (un_dispatch _ Hu) in *. done.
Qed.

Lemma iterate_ends k name pattern body span values last :
  k < K → no_adopt body = true → ends k (iterate exec name pattern body span values last) some.
Proof.
  intros Hk Hb. revert k last Hk. induction values as [|v values IH]; intros k last Hk;
    cbn [iterate]; ending; try (apply IH; lia). apply exec_in; [lia|done].
Qed.

(** Every pass pays for its condition. *)
Lemma repeat_ends fuel k condition body span last :
  k < K → (N.to_nat k < fuel)%nat → no_adopt condition = true → no_adopt body = true →
  ends k (repeat exec fuel condition body span last) some.
Proof.
  intros Hk Hf Hc Hb. revert k last Hk Hf. induction fuel as [|fuel IH]; intros k last Hk Hf; [lia|].
  cbn [repeat]. eapply ends_bind; [by apply exec_ends|]. intros flow k1 Hle Hpaid.
  destruct flow as [v| | |]; [|ending..]. destruct (Hpaid v eq_refl) as [Hlt| ->]; [|by intros st ? ?].
  ending; try (apply IH; lia). apply exec_some; [lia|done].
Qed.

Lemma then_close_ends k (m : M W VmFlow) kind ref span :
  ends k m some → ends k (then_close m kind ref span) some.
Proof.
  intros Hm st Hu Hk. specialize (Hm st Hu Hk). unfold then_close.
  destruct (m st) as [flow st'|e st'| | |]; try done.
  - destruct Hm as (Hu' & k' & Hk' & Hle & _).
    assert (ends k' (_ ← host_close kind ref span; mret flow) some) as Hc by ending.
    specialize (Hc st' Hu' Hk'). destruct ((_ ← host_close kind ref span; mret flow) st'); try done.
    destruct Hc as (? & k'' & ? & ? & ?). split; [done|]. exists k''. split_and!; [done|lia|done].
  - pose proof (close_never_spins kind ref span st'). by destruct (host_close kind ref span st').
Qed.

Lemma execute_using_ends k name resource body span :
  k < K → no_adopt body = true → ends k (execute_using exec name resource body span) some.
Proof.
  intros Hk Hb. unfold execute_using. ending. apply then_close_ends, exec_in; [lia|done].
Qed.
#[local] Hint Resolve execute_match_ends execute_module_ends iteration_values_ends iterate_ends
  repeat_ends execute_using_ends : ends.

Lemma step_op_ends fuel op span stack pc k :
  k < K → (N.to_nat k < fuel)%nat → no_adopt_instruction (mkInstruction op span) = true →
  ends k (step_op exec fuel op span stack pc) some.
Proof.
  intros Hk Hf Hn. destruct op; cbn [step_op no_adopt_instruction] in *; try done;
    rewrite ?andb_true_iff in Hn; try match type of Hn with _ ∧ _ => destruct Hn as [Hn Hn'] end;
    unfold step_call, execute_sample, execute_if_carries; ending.
  all: try (first [apply call_ends | apply execute_match_ends | apply execute_module_ends
    | apply iterate_ends | apply exec_in | apply exec_some | apply execute_using_ends]; lia || done).
  - intros st [Hd Hu] Hb. cbn. split; [|by exists k0]. split; [done|]. cbn. intros r f.
    destruct (decide (r = a)) as [->|Hr]; [rewrite lookup_insert_eq|rewrite lookup_insert_ne by done; eauto].
    by intros [= <-].
Qed.

Lemma step_ends fuel code stack pc k :
  k ≤ K → (N.to_nat k ≤ fuel)%nat → forallb no_adopt_instruction code = true →
  ends k (step exec fuel code stack pc) (λ _ k', k' < k).
Proof.
  intros Hk Hf Hn. unfold step. apply (ends_bind _ _ _ some); [ending|]. intros _ k1 Hle _.
  destruct (lookup (M := Code) (N.to_nat pc) code) as [[op span]|] eqn:Hi; [|apply ends_panic].
  eapply ends_bind; [apply charge_ends|]. intros [] k2 Hle2 Hlt.
  eapply ends_weaken; [apply step_op_ends; [lia..|]|intros; lia].
  rewrite forallb_forall in Hn. apply Hn, list_elem_of_In. by eapply list_elem_of_lookup_2.
Qed.

Lemma run_ends fuel code stack pc k :
  k ≤ K → (N.to_nat k < fuel)%nat → forallb no_adopt_instruction code = true →
  ends k (run exec fuel code stack pc) (λ flow k', k' < k ∨ ∀ v, flow = Flow_Continue v → v = default V_Null (head stack)).
Proof.
  intros Hk Hf Hn. revert stack pc k Hk Hf. induction fuel as [|fuel IH]; intros stack pc k Hk Hf; [lia|].
  cbn [run]. destruct (pc <? len code).
  - eapply ends_bind; [apply step_ends; [done|lia|done]|]. intros s k1 Hle Hlt.
    destruct s; try (apply ends_ret; by left).
    eapply ends_weaken; [apply IH; lia|]. intros flow k2 Hle2 _. left. lia.
  - eapply ends_bind; [apply check_cancelled_ends|]. intros _ k1 Hle _. apply ends_ret. right.
    by intros v [= <-].
Qed.
End execution.

Theorem execute_ends fuel c k :
  (N.to_nat k + 2 ≤ fuel)%nat → no_adopt c = true → ends k (execute fuel c) (paid k).
Proof.
  revert c k. induction fuel as [|fuel IH]; intros [name code] k Hf Hc; [lia|].
  cbn [execute_with]. unfold execute_chunk_vm. apply ends_read. intros st _.
  apply ends_finally; [|by intros ? []|done].
  eapply ends_weaken; [apply (run_ends _ k); [|lia|lia|done]|].
  - intros k' c Hk' Hc'. apply IH; [lia|done].
  - intros flow k' Hle [Hlt|Hv] v ->; [by left|right; by apply Hv].
Qed.
End machine.
