(* ===== verification/VmOk.v ===== *)
(** * What the machine guarantees

    The properties of the virtual machine, over any host that respects
    [HostLaws]: verified bundles do not panic, loop exits do not escape, promises
    renounce capabilities and end with their chunk, refused natives are not
    entered, calls restore the environment and assignment updates exactly one
    binding.  [Trace] is a concrete host whose world is the list of natives that
    were entered; it instantiates the laws, and the machine runs on it by
    computation. *)
From S2P Require Import Prelude Ast Bytecode Codegen Verifier StackCert.
From S2P Require Import Bundle BundleOk Values ValuesOk Gate Vm Tree Engine VmSafe VmMono VmEnds.
Open Scope list_scope.

(** ** What fits a bundle is small *)

Lemma fits_count_small n : fits_count n = true → small_operand n = true.
Proof.
  unfold fits_count, small_operand, MAX_ITEMS, isize_max. intros H%N.leb_le.
  apply Z.leb_le. lia.
Qed.

Lemma forallb_impl {A} (p q : A → bool) l :
  (∀ x, p x = true → q x = true) → forallb p l = true → forallb q l = true.
Proof. intros Hpq. rewrite !forallb_forall. auto. Qed.

Lemma fits_vec_forallb {A} (p q : A → bool) l :
  (∀ x, p x = true → q x = true) → fits_vec p l = true → forallb q l = true.
Proof. intros Hpq [_ H]%andb_true_iff. by eapply forallb_impl. Qed.

Section small.
Context (pattern : Pattern → bool) (chunk : Chunk → bool).
Hypothesis chunk_small : ∀ c, chunk c = true → small_chunk c = true.

Lemma fits_option_small o :
  fits_option chunk o = true → match o with Some c => small_chunk c | None => true end = true.
Proof using chunk_small. destruct o; cbn; auto. Qed.

Lemma fits_arm_small a : fits_arm pattern chunk a = true → small_arm a = true.
Proof using chunk_small.
  destruct a as [ps g b s]. cbn [fits_arm small_arm].
  intros [[[_ Hg]%andb_true_iff _]%andb_true_iff Hb]%andb_true_iff.
  apply andb_true_iff. split; [by apply fits_option_small|auto].
Qed.

Lemma fits_instruction_small i :
  fits_instruction pattern chunk i = true → small_instruction i = true.
Proof using chunk_small.
  destruct i as [op s]. unfold fits_instruction. cbn [instr_span instr_op].
  intros [_ H]%andb_true_iff. destruct op; cbn [fits_op small_instruction] in *; try done;
    repeat match goal with H : _ && _ = true |- _ => apply andb_true_iff in H as [? ?] end;
    rewrite ?andb_true_iff; eauto using fits_count_small, fits_option_small.
  eapply fits_vec_forallb; [apply fits_arm_small|done].
Qed.
End small.

Lemma fits_chunk_small room c : fits_chunk room c = true → small_chunk c = true.
Proof.
  revert c. induction room as [|room IH]; intros [v code]; [done|].
  cbn [fits_chunk chunk_code chunk_version small_chunk]. intros [_ H]%andb_true_iff.
  eapply fits_vec_forallb; [|done]. intros i. by apply fits_instruction_small.
Qed.

Lemma decode_admissible bytes c : decode bytes = Ok c → admissible false c.
Proof.
  intros [Hv Hf]%decode_Ok. split; [done|]. by eapply fits_chunk_small.
Qed.

(** ** A host that records what it is asked to do *)

Module Trace.
(** The natives entered so far. *)
Definition World := list NativeFunction.

#[export] Existing Instance plain_foreign.

#[export] Instance host : Host World := {
  host_cancelled _ := false;
  host_native f _ _ := _ ← update (λ st, set_world (world st ++ [f]) st); mret V_Null;
  host_derived _ _ _ _ := Ok V_Null;
  host_drain _ _ := mret [];
  host_close _ _ _ := mret tt;
  host_path_is_within _ path scope := bool_decide (path = scope);
  host_canonicalize _ path := Some path }.

(** Only natives without the capability were added. *)
#[export] Instance watch : Watch World := λ c w w',
  ∃ log, w' = w ++ log ∧ Forall (λ f, native_capability f ≠ Some c) log.

#[export] Instance watch_laws : WatchLaws World.
Proof.
  split.
  - intros c w. exists []. by rewrite app_nil_r.
  - intros c w1 w2 w3 (l1 & -> & H1) (l2 & -> & H2). exists (l1 ++ l2).
    rewrite app_assoc. split; [done|]. by apply Forall_app.
Qed.

#[export] Instance host_laws : HostLaws World.
Proof.
  split.
  - intros f arguments span st [If Ir] Hf. cbn. split_and!; [split|done|done].
    + by split.
    + split; cbn; [done|done|]. intros c Hc. exists [f]. split; [done|].
      apply Forall_singleton. auto.
  - intros ref span st Hi. by apply spec_ret; [apply _| |].
  - intros kind ref span st Hi. by apply spec_ret; [apply _| |].
Qed.

#[export] Instance host_ends : HostEnds World.
Proof.
  split.
  - intros f arguments span k. apply (ends_bind _ _ _ some); [|intros; by apply ends_ret].
    apply ends_update; [by intros ? []|done].
  - intros ref span k. by apply ends_ret.
  - intros kind ref span k. by apply ends_ret.
  - done.
Qed.

(** A fresh interpreter with the given bindings. *)
Definition start (bindings : list (string * Value)) (promises : list PromiseClause)
    : Interp World :=
  mkInterp 0
    {[ 0 := mkScope (list_to_map (map (λ '(n, v), (n, mkBinding v false)) bindings)) None ]}
    ∅ 1 0 [] promises ∅ 0 128 None None None ∅ false (64 * 1024 * 1024) [] [].

Lemma start_inv bindings promises : inv (start bindings promises).
Proof.
  split; cbn.
  - by intros r f.
  - intros r s [<- _]%lookup_singleton_Some. lia.
Qed.

(** The lines a program prints, when it ends. *)
Definition output {A} (o : outcome World A) : option (list string) :=
  match o with Done _ st | Fail _ st => Some (printed st) | _ => None end.

(** Compile and run a program. *)
Definition run_program (fuel : nat) (program : list Stmt) (st : Interp World)
    : outcome World Value :=
  match compile program with
  | Some (Ok chunk) => run_bytecode fuel chunk st
  | _ => Panic
  end.
End Trace.

(** ** Scopes *)

Section scopes.
Context {W : Type}.
Implicit Types st : Interp W.

Lemma insert_binding_Done env name b st r st' :
  insert_binding env name b st = Done r st' →
  ∃ s, scopes st !! env = Some s ∧
    st' = set_scopes (<[env := mkScope (<[name := b]> (s_values s)) (s_parent s)]> (scopes st)) st.
Proof.
  unfold insert_binding, scope_at. cbv [mbind M_bind get update mret M_ret].
  destruct (scopes st !! env) as [s|] eqn:E; [|done]. intros [= <- <-]. eauto.
Qed.

Lemma assign_Done fuel env name v span st st' :
  assign fuel env name v span st = Done tt st' →
  ∃ env' s b,
    scopes st !! env' = Some s ∧ s_values s !! name = Some b ∧ b_mutable b = true ∧
    st' = set_scopes (<[env' := mkScope (<[name := mkBinding v true]> (s_values s)) (s_parent s)]>
            (scopes st)) st ∧
    lookup_in fuel (scopes st') env name = Some v.
Proof.
  revert env. induction fuel as [|fuel IH]; intros env; [done|].
  cbn [assign lookup_in]. unfold scope_at at 1. cbv [mbind M_bind get mret M_ret].
  destruct (scopes st !! env) as [s|] eqn:Es; [|done].
  destruct (s_values s !! name) as [b|] eqn:Eb.
  - destruct (b_mutable b) eqn:Em; [|done].
    destruct (insert_binding _ _ _ st) as [r st1|e st1| | |] eqn:Ei; try done. intros [= ->].
    apply insert_binding_Done in Ei as (s' & Es' & ->).
    assert (s' = s) as -> by congruence.
    exists env, s, b. split_and!; try done. cbn. rewrite lookup_insert_eq. cbn.
    by rewrite lookup_insert_eq.
  - destruct (s_parent s) as [p|] eqn:Ep; [|done]. intros H.
    destruct (IH _ H) as (env' & s' & b & Es' & Eb' & Em & -> & Hl). exists env', s', b.
    split_and!; try done. cbn in *.
    destruct (decide (env' = env)) as [->|Hne]; [by simplify_eq|].
    rewrite lookup_insert_ne by done. cbn. rewrite Es; cbn. by rewrite Eb, Ep; cbn.
Qed.

Lemma lookup_in_other fuel (store : gmap N Scope) env env' s name name' b :
  store !! env' = Some s → name ≠ name' →
  lookup_in fuel (<[env' := mkScope (<[name := b]> (s_values s)) (s_parent s)]> store) env name' =
  lookup_in fuel store env name'.
Proof.
  intros Hs Hne. revert env. induction fuel as [|fuel IH]; intros env; [done|]. cbn [lookup_in].
  destruct (decide (env' = env)) as [->|Hd].
  - rewrite lookup_insert_eq, Hs. cbn. rewrite lookup_insert_ne by done.
    destruct (s_values s !! name'); [done|]. destruct (s_parent s); cbn; auto.
  - rewrite lookup_insert_ne by done. destruct (store !! env) as [s'|]; [|done]. cbn.
    destruct (s_values s' !! name'); [done|]. destruct (s_parent s'); cbn; auto.
Qed.
End scopes.

(** A successful assignment updates the binding that the name resolves to:
    looking the name up afterwards gives the assigned value, and every other
    name resolves as before in every scope, the functions' captured scopes
    included. *)
Theorem assign_lookup {W} (st st' : Interp W) name v span :
  assign (S (size (scopes st))) (environment st) name v span st = Done tt st' →
  lookup_name st' name = Some v ∧
  ∀ fuel env name', name' ≠ name →
    lookup_in fuel (scopes st') env name' = lookup_in fuel (scopes st) env name'.
Proof.
  intros H. destruct (assign_Done _ _ _ _ _ _ _ H) as (env' & s & b & Es & Eb & Em & -> & Hl).
  split.
  - unfold lookup_name. cbn in *.
    replace (size (<[env' := _]> (scopes st))) with (size (scopes st)); [done|].
    symmetry. by apply map_size_insert_Some.
  - intros fuel env name' Hne. by apply lookup_in_other.
Qed.

Lemma assign_lookup_witness :
  lookup_name (set_scopes {[ 0 := mkScope {[ "x" := mkBinding (V_Int 2) true ]} None ]}
                 (Trace.start [] [])) "x" = Some (V_Int 2).
Proof.
  apply (assign_lookup (set_scopes {[ 0 := mkScope {[ "x" := mkBinding (V_Int 1) true ]} None ]}
                 (Trace.start [] [])) _ "x" (V_Int 2) (mkSpan 1 1)).
  vm_compute. reflexivity.
Defined.

(** ** Executions *)

Section executions.
#[local] Set Default Proof Using "All".
Context {W : Type} `{Foreign} `{!Host W, !Watch W, !WatchLaws W, !HostLaws W}.
Implicit Types st : Interp W.

(** C1: A bundle that [decode] accepts never panics the machine, whatever the
    program, the host's answers and the number of steps taken: no operand is
    missing, no scope without a parent is left, no jump leaves the code and no
    [unreachable!] is reached. *)
Theorem decoded_never_panics fuel bytes chunk st :
  inv st → decode bytes = Ok chunk → run_bytecode fuel chunk st ≠ Panic.
Proof.
  intros Hi Hd. pose proof (decode_admissible _ _ Hd) as Hc.
  pose proof (execute_spec fuel false chunk st Hi Hc) as Hs. unfold run_bytecode.
  cbv [mbind M_bind]. destruct (verify chunk) as [[]|]; [|done]. cbn [lift mret M_ret].
  unfold spec_at in Hs. by destruct (execute fuel chunk st) as [[]| | | |].
Qed.

(** A verified chunk that is not a loop body never ends in a loop exit, and
    the environment it leaves has at least the ancestors of the one it was
    entered with: the [loop_exit_escape_error] of [run_bytecode] is dead code. *)
Theorem verified_flow fuel chunk st flow st' :
  inv st → verify chunk = Ok tt → small_chunk chunk = true →
  execute fuel chunk st = Done flow st' →
  (∃ v, flow = Flow_Continue v ∨ flow = Flow_Return v) ∧ deep st st'.
Proof.
  intros Hi Hv Hs He. pose proof (execute_spec fuel false chunk st Hi (conj Hv Hs)) as H'.
  unfold spec_at in H'. rewrite He in H'. destruct H' as (_ & Hd & Hf). split; [|done].
  specialize (Hf eq_refl). destruct flow; cbn in Hf; eauto; done.
Qed.

(** Promises end with the chunk that makes them: when the execution of a
    verified chunk ends, with a value or with an error, the active promises are
    those it started with. *)
Theorem promises_end_with_chunk fuel il chunk st :
  inv st → admissible il chunk →
  match execute fuel chunk st with
  | Done _ st' | Fail _ st' => active_promises st' = active_promises st
  | Panic => False
  | Dangling | OutOfFuel => True
  end.
Proof.
  intros Hi Hc. pose proof (execute_promises_eq fuel il chunk st Hi Hc) as Hp.
  pose proof (execute_spec fuel il chunk st Hi Hc) as Hs. unfold spec_at in Hs.
  by destruct (execute fuel chunk st).
Qed.

Lemma zero_lt_cons {A} (x : A) l : 0 <? len (x :: l) = true.
Proof using Type. apply N.ltb_lt. rewrite len_cons. lia. Qed.

(** The machine after a promise at the start of a chunk. *)
Lemma run_promise exec fuel clauses span code st :
  let code := mkInstruction (Op_Promise clauses) span :: code in
  (∃ e, run exec (S fuel) code [] 0 st = Fail e st) ∨
  (∃ i m, run exec (S fuel) code [] 0 st =
     run exec fuel code [] 1
       (set_promises (active_promises st ++ clauses) (set_budgets i m st))).
Proof using Type.
  intros code'. cbn [run]. unfold code' at 1 4. rewrite !zero_lt_cons.
  unfold step, check_cancelled, charge. cbv [mbind M_bind get mret M_ret].
  destruct (host_cancelled (world st)); [left; by eexists|].
  change (code' !! N.to_nat 0) with (Some (mkInstruction (Op_Promise clauses) span)).
  destruct (instruction_budget st) as [[|n]|] eqn:Hb.
  - left. cbn. rewrite Hb. eexists. reflexivity.
  - right. cbn. rewrite Hb. eexists _, _. reflexivity.
  - right. cbn. rewrite Hb. exists (instruction_budget st), (memory_budget st). by destruct st.
Qed.

(** C37: A promise renounces for the rest of its chunk: when a verified chunk
    starts with [promise never c], no native that needs the capability [c] is
    entered while it runs, not even through the functions it calls, and also
    when it fails. *)
Theorem promise_renounces fuel il v clauses span code st c :
  inv st → admissible il (mkChunk v (mkInstruction (Op_Promise clauses) span :: code)) →
  promised_never clauses c = true →
  match execute fuel (mkChunk v (mkInstruction (Op_Promise clauses) span :: code)) st with
  | Done _ st' | Fail _ st' => untouched c (world st) (world st')
  | Panic => False
  | Dangling | OutOfFuel => True
  end.
Proof.
  intros Hi Ha Hc. destruct fuel as [|[|fuel]]; [done| |].
  { cbn [execute_with]. unfold execute_chunk_vm, finally. cbv [mbind M_bind get]. cbn [chunk_code run].
    by rewrite zero_lt_cons. }
  destruct (chunk_cert _ _ _ Ha) as (L & Hw0 & Hok & HwL).
  rewrite (eq_refl : execute (S (S fuel)) (Body_Bytecode _) = execute_chunk_vm (execute (S fuel)) (S fuel) _).
  unfold execute_chunk_vm, finally. cbv [mbind M_bind get]. cbn [chunk_code].
  destruct (run_promise (execute (S fuel)) fuel clauses span code st) as [[e ->]|(i & m & ->)].
  { apply untouched_refl. }
  set (st1 := set_promises _ _).
  assert (inv st1) as Hi1 by by destruct Hi.
  assert (goes_to (mkInstruction (Op_Promise clauses) span :: code) L (0, 0)%Z 1) as Hg.
  { destruct Hw0 as [[H0 _]|[_ HL]]; [by rewrite len_cons in H0; lia|].
    destruct (HwL 0 _ span _ eq_refl HL) as (_ & _ & _ & Hsu).
    by apply Forall_cons in Hsu as [? _]. }
  pose proof (spec_run (execute (S fuel)) (execute_spec (S fuel)) _ L il Hok HwL st1 st1 fuel 1 [] 0%Z
    Hi1 ltac:(done) ltac:(intros k; cbn; by rewrite Nat.add_0_r) Hg) as Hs.
  unfold spec_at in Hs.
  assert (promised_never (active_promises st1) c = true) as Hc1.
  { cbn. unfold promised_never in *. rewrite existsb_app, Hc. apply orb_true_r. }
  destruct (run _ _ _ _ _ st1) as [flow st2|e st2| | |]; try done; cbn.
  - by apply (ext_world _ _ (proj2 (proj1 Hs))).
  - by apply (ext_world _ _ (proj2 Hs)).
Qed.

(** C38: A refused native is not entered: when a promise renounces the
    capability, the project does not allow it, or the granted scope does not
    cover the arguments, the call fails and leaves the whole state, the world
    included, as it was. *)
Theorem refused_native_not_entered exec fuel f c arguments span st :
  native_capability f = Some c → len arguments = native_arity f →
  promised_never (active_promises st) c = true ∨
  (∃ allowed, capabilities st = Some allowed ∧ c ∉ allowed) ∨
  is_ok (authorize_scope (host_path_is_within (world st)) (capability_scopes st) c
           (native_name f) (native_arguments st f c arguments) span) = false →
  ∃ e, call exec fuel (V_Native f) arguments span st = Fail e st.
Proof using Type.
  intros Hf Ha Hr.
  assert (is_ok (gate st f arguments span) = false) as Hg.
  { unfold gate. rewrite Hf. destruct (promised_never _ c); [done|].
    destruct Hr as [Hr|[(allowed & Hal & Hin)|Hr]]; [done| |].
    - rewrite Hal, bool_decide_false; done.
    - destruct (match capabilities st with Some _ => _ | None => _ end); [done|].
      by destruct (authorize_scope _ _ _ _ _ _). }
  destruct fuel; cbn [call]; unfold check_arity; rewrite Ha, N.eqb_refl;
    cbv [mbind M_bind get lift mret M_ret throw];
    destruct (gate st f arguments span) as [|e]; try done; by exists e.
Qed.

(** A call gives control back in the caller's environment, whatever the
    callee: native, function, constructor, protocol or derived method. *)
Theorem call_restores_environment fuel callee arguments span st v st' :
  inv st → call (execute fuel) fuel callee arguments span st = Done v st' →
  environment st' = environment st.
Proof.
  intros Hi Hc.
  pose proof (spec_call (execute fuel) (execute_spec fuel) st fuel callee arguments span Hi) as Hs.
  unfold spec_at in Hs. rewrite Hc in Hs. by destruct Hs as (_ & He & _).
Qed.

(** A [for] loop gives control back in the environment it started in, also
    when its body leaves it with [stop] or [skip] from inside a block. *)
Theorem iterate_restores_environment fuel name pattern body span values last st flow st' :
  inv st → admissible true body →
  iterate (execute fuel) name pattern body span values last st = Done flow st' →
  environment st' = environment st.
Proof.
  intros Hi Hb Hc.
  pose proof (spec_iterate (execute fuel) (execute_spec fuel) st name pattern body span values
    last Hi Hb) as Hs.
  unfold spec_at in Hs. rewrite Hc in Hs. by destruct Hs as (_ & He & _).
Qed.
End executions.

(** ** Fuel and budgets *)

Section fuel.
Context {W : Type} `{Foreign} `{!Host W}.

(** What a chunk does is well defined: two executions that are given enough
    fuel to end, end in the same way, with the same value, error and state. *)
Theorem fuel_independent fuel fuel' chunk (st : Interp W) :
  execute fuel chunk st ≠ OutOfFuel → execute fuel' chunk st ≠ OutOfFuel →
  execute fuel chunk st = execute fuel' chunk st.
Proof.
  intros Ho Ho'. destruct (Nat.le_gt_cases fuel fuel') as [Hle|Hlt].
  - symmetry. by eapply execute_more.
  - eapply execute_more; [done|done|lia].
Qed.

(** A method that implements itself is looked up for ever. *)
Lemma self_dispatch exec fuel r r' protocol member receiver arguments span (st : Interp W) :
  protocol_dispatch st !! (protocol, member, type_name receiver)
    = Some (V_ProtocolMethod r protocol member) →
  call exec fuel (V_ProtocolMethod r' protocol member) (receiver :: arguments) span st = OutOfFuel.
Proof.
  intros Hd. revert r'. induction fuel as [|fuel IH]; intros r'; cbn [call];
    cbv [mbind M_bind get]; rewrite Hd; [done|apply IH].
Qed.

Lemma run_next exec fuel code stack pc (st : Interp W) pc' stack' st' :
  pc <? len code = true → step exec fuel code stack pc st = Done (Step_Next pc' stack') st' →
  run exec (S fuel) code stack pc st = run exec fuel code stack' pc' st'.
Proof. intros Hpc Hs. cbn [run]. rewrite Hpc. cbv [mbind M_bind]. by rewrite Hs. Qed.

Lemma run_call_spins exec fuel code stack pc (st : Interp W) arity span st' arguments callee rest :
  pc <? len code = true → code !! N.to_nat pc = Some (mkInstruction (Op_Call arity) span) →
  host_cancelled (world st) = false → charge span st = Done tt st' → arity <=? len stack = true →
  (rev (take (N.to_nat arity) stack), drop (N.to_nat arity) stack) = (arguments, callee :: rest) →
  call exec fuel callee arguments span st' = OutOfFuel →
  run exec (S fuel) code stack pc st = OutOfFuel.
Proof.
  intros Hpc Hi Hc Hch Ha [= Hargs Hrest] Hcall. cbn [run]. rewrite Hpc. unfold step, check_cancelled.
  cbv [mbind M_bind get]. rewrite Hc. cbv [mret M_ret]. unfold Code in *. rewrite Hi, Hch.
  cbn [step_op]. unfold step_call, split_off. rewrite Ha. cbv [mbind M_bind mret M_ret].
  rewrite Hargs, Hrest. cbv [pop mret M_ret]. by rewrite Hcall.
Qed.
End fuel.

(** ** Programs on the recording host *)

Module Programs.
Definition here (line : N) : Span := mkSpan line 1.
Definition int (n : Z) : Expr := Expr_Literal (Literal_Int n) (here 1).
Definition var (name : string) : Expr := Expr_Variable name (here 1).

Definition read_native : NativeFunction := mkNative 1 "read" 1 (Some "FileRead") None.
Definition never_read : PromiseClause := mkPromiseClause "FileRead" true [] (here 1).

(** [let x be 1  while true { let x be 2  stop }  say x] *)
Definition shadowing_while : list Stmt :=
  [ Stmt_Let "x" false None (int 1) (here 1);
    Stmt_While (Expr_Literal (Literal_Bool true) (here 2))
      (Stmt_Block [Stmt_Let "x" false None (int 2) (here 3); Stmt_Stop (here 4)] (here 2))
      (here 2);
    Stmt_Print (var "x") (here 5) ].

(** [let x be 1  for i in [0] { let x be 2  stop }  say x] *)
Definition shadowing_for : list Stmt :=
  [ Stmt_Let "x" false None (int 1) (here 1);
    Stmt_For "i" None (Expr_Array [int 0] (here 2))
      (Stmt_Block [Stmt_Let "x" false None (int 2) (here 3); Stmt_Stop (here 4)] (here 2))
      (here 2);
    Stmt_Print (var "x") (here 5) ].

(** [promise never FileRead  read("a")] *)
Definition promised : Code :=
  [ mkInstruction (Op_Promise [never_read]) (here 1);
    mkInstruction (Op_Load "read") (here 2);
    mkInstruction (Op_Constant (Literal_String "a")) (here 2);
    mkInstruction (Op_Call 1) (here 2) ].

(** [let f be P.m  adopt P for Int { m uses f }  f(1)], with [P] a protocol. *)
Definition self_adopting : Code :=
  [ mkInstruction (Op_DefineProtocol "P" ["m"]) (here 1);
    mkInstruction (Op_Get "m") (here 2);
    mkInstruction (Op_Define "f" false) (here 2);
    mkInstruction (Op_AdoptProtocol "P" "Int" [("m", "f")]) (here 3);
    mkInstruction Op_Pop (here 3);
    mkInstruction (Op_Constant (Literal_Int 1)) (here 4);
    mkInstruction (Op_Call 1) (here 4) ].

(** [while true {}] *)
Definition forever : list Stmt :=
  [ Stmt_While (Expr_Literal (Literal_Bool true) (here 1)) (Stmt_Block [] (here 1)) (here 1) ].

(** The compiled chunk of a program and the bytes of its bundle. *)
Definition chunk_of (program : list Stmt) : Chunk :=
  match compile program with Some (Ok c) => c | _ => mkChunk 0 [] end.
Definition bytes_of (c : Chunk) : list byte := match encode c with Ok bytes => bytes | Err _ => [] end.
End Programs.
Import Trace Programs.

(** [execute_bytecode_repeat] does not restore the environment: a [while]
    body that declares a name in its block and leaves with [stop] stays the
    current scope after the loop, so the outer name remains shadowed and the
    program prints 2.  The same body in a [for] loop prints 1. *)
Theorem repeat_leaks_scope :
  Trace.output (Trace.run_program 50 shadowing_while (Trace.start [] [])) = Some ["2"] ∧
  Trace.output (Trace.run_program 50 shadowing_for (Trace.start [] [])) = Some ["1"].
Proof. split; vm_compute; reflexivity. Qed.

Lemma decoded_never_panics_witness :
  run_bytecode 50 (chunk_of shadowing_for) (Trace.start [] []) ≠ Panic.
Proof.
  apply (decoded_never_panics 50 (bytes_of (chunk_of shadowing_for))).
  - apply Trace.start_inv.
  - vm_compute. reflexivity.
Defined.

Lemma verified_flow_witness :
  ∃ flow st', execute 50 (chunk_of shadowing_for) (Trace.start [] []) = Done flow st' ∧
    ∃ v, flow = Flow_Continue v ∨ flow = Flow_Return v.
Proof.
  eexists _, _. split; [vm_compute; reflexivity|].
  eapply (verified_flow 50 (chunk_of shadowing_for) (Trace.start [] [])).
  - apply Trace.start_inv.
  - vm_compute. reflexivity.
  - vm_compute. reflexivity.
  - vm_compute. reflexivity.
Defined.

Lemma promises_end_with_chunk_witness :
  match execute 50 (mkChunk BYTECODE_VERSION promised)
          (Trace.start [("read", V_Native read_native)] []) with
  | Done _ st' | Fail _ st' => active_promises st' = []
  | Panic => False
  | Dangling | OutOfFuel => True
  end.
Proof.
  apply (promises_end_with_chunk 50 false (mkChunk BYTECODE_VERSION promised)
           (Trace.start [("read", V_Native read_native)] [])).
  - apply Trace.start_inv.
  - split; vm_compute; reflexivity.
Defined.

(** The promised program fails before the native is entered. *)
Example promised_refused :
  match execute 50 (mkChunk BYTECODE_VERSION promised)
          (Trace.start [("read", V_Native read_native)] []) with
  | Fail e st => world st = []
  | _ => False
  end.
Proof. vm_compute. reflexivity. Qed.

Lemma promise_renounces_witness :
  match execute 50 (mkChunk BYTECODE_VERSION promised)
          (Trace.start [("read", V_Native read_native)] []) with
  | Done _ st' | Fail _ st' => untouched "FileRead" [] (world st')
  | Panic => False
  | Dangling | OutOfFuel => True
  end.
Proof.
  apply (promise_renounces 50 false BYTECODE_VERSION [never_read] (here 1) (tail promised)
           (Trace.start [("read", V_Native read_native)] []) "FileRead").
  - apply Trace.start_inv.
  - split; vm_compute; reflexivity.
  - reflexivity.
Defined.

Lemma refused_native_not_entered_witness :
  ∃ e, call (execute 5) 5 (V_Native read_native) [V_String "a"] (here 1)
         (Trace.start [] [never_read]) = Fail e (Trace.start [] [never_read]).
Proof.
  apply (refused_native_not_entered (execute 5) 5 read_native "FileRead");
    [reflexivity|reflexivity|left; reflexivity].
Defined.

Lemma call_restores_environment_witness :
  ∃ st', call (execute 5) 5 (V_Native read_native) [V_String "a"] (here 1)
           (Trace.start [] []) = Done V_Null st' ∧ environment st' = 0.
Proof.
  eexists. split; [vm_compute; reflexivity|].
  eapply (call_restores_environment 5 (V_Native read_native) [V_String "a"] (here 1)
            (Trace.start [] [])).
  - apply Trace.start_inv.
  - vm_compute. reflexivity.
Defined.

Definition stop_body : Chunk :=
  mkChunk BYTECODE_VERSION
    [ mkInstruction Op_EnterScope (here 1); mkInstruction (Op_LoopExit false) (here 2) ].

Lemma iterate_restores_environment_witness :
  ∃ st', iterate (execute 5) "i" None stop_body (here 1) [V_Int 1] V_Null
           (Trace.start [] []) = Done (Flow_Continue V_Null) st' ∧ environment st' = 0.
Proof.
  eexists. split; [vm_compute; reflexivity|].
  eapply (iterate_restores_environment 5 "i" None stop_body (here 1) [V_Int 1] V_Null
            (Trace.start [] [])).
  - apply Trace.start_inv.
  - split; vm_compute; reflexivity.
  - vm_compute. reflexivity.
Defined.

Lemma fuel_independent_witness :
  execute 50 (chunk_of shadowing_for) (Trace.start [] [])
  = execute 90 (chunk_of shadowing_for) (Trace.start [] []).
Proof. apply (fuel_independent 50 90); vm_compute; discriminate. Defined.

Lemma self_adopting_spins fuel :
  execute (10 + fuel) (mkChunk BYTECODE_VERSION self_adopting)
    (set_budgets (Some 100) None (Trace.start [] [])) = OutOfFuel.
Proof.
  change (10 + fuel)%nat with (S (9 + fuel)). cbn [execute_with]. generalize (execute (9 + fuel)).
  intros exec. unfold execute_chunk_vm. cbv [mbind M_bind get finally].
  change (9 + fuel)%nat with (S (S (S (S (S (S (S (2 + fuel)))))))). cbn [chunk_code].
  do 6 (erewrite run_next; [|reflexivity|vm_compute; reflexivity]).
  erewrite run_call_spins; [done|reflexivity..| |reflexivity| |]; [vm_compute; reflexivity|reflexivity|].
  by apply self_dispatch with (r := 2).
Qed.

(** Protocol dispatch is not metered: a verified chunk may adopt a protocol
    with the protocol's own method as its implementation, and calling it recurses
    without being charged and without counting as a call, so that no amount of
    fuel is enough although the budget is 100 instructions and the call depth is
    bounded. *)
Theorem dispatch_unmetered fuel :
  verify (mkChunk BYTECODE_VERSION self_adopting) = Ok tt ∧
  execute fuel (mkChunk BYTECODE_VERSION self_adopting) (set_budgets (Some 100) None (Trace.start [] []))
  = OutOfFuel.
Proof.
  split; [vm_compute; reflexivity|].
  destruct (execute fuel _ _) eqn:He; try done; exfalso;
    (eapply (execute_more _ _ (10 + fuel)) in He; [|done|lia]); by rewrite self_adopting_spins in He.
Qed.
