(* ===== verification/VmKeeps.v ===== *)
(** * What executions leave alone

    Calls and nested executions give back the caller's promises, and an
    interpreter without budgets keeps running without budgets.  Unlike the
    safety results these hold of any code, verified or not, of executions that
    end with a value. *)
From S2P Require Import Prelude Ast Bytecode Verifier Values Gate Vm Tree TreeLift Engine.
Open Scope list_scope.

(** [st'] has no budget that [st] does not have, and the same payload limit. *)
Definition unmetered {W} (st st' : Interp W) : Prop :=
  (instruction_budget st = None → instruction_budget st' = None) ∧
  (memory_budget st = None → memory_budget st' = None) ∧
  payload_limit st' = payload_limit st.

(** The promises only grow, or stay. *)
Definition grows {W} (st st' : Interp W) : Prop :=
  unmetered st st' ∧ active_promises st `prefix_of` active_promises st'.
Definition stays {W} (st st' : Interp W) : Prop :=
  unmetered st st' ∧ active_promises st' = active_promises st.

#[export] Instance grows_preorder {W} : PreOrder (@grows W).
Proof.
  split.
  - intros st. by split.
  - intros a b c [(? & ? & ?) ?] [(? & ? & ?) ?].
    split; [split_and!; [auto|auto|congruence]|by etrans].
Qed.
#[export] Instance stays_preorder {W} : PreOrder (@stays W).
Proof.
  split.
  - intros st. by split.
  - intros a b c [(? & ? & ?) ?] [(? & ? & ?) ?].
    split; [split_and!; [auto|auto|congruence]|congruence].
Qed.
Lemma stays_grows {W} (st st' : Interp W) : stays st st' → grows st st'.
Proof. intros [? Hp]. split; [done|]. by rewrite Hp. Qed.

Section keeps.
Context {W : Type}.

(** Executions of [m] that end with a value are related by [R]. *)
Definition keeps {A} (R : Interp W → Interp W → Prop) (m : M W A) : Prop :=
  ∀ st a st', m st = Done a st' → R st st'.

Context (R : Interp W → Interp W → Prop) `{!PreOrder R}.
#[local] Set Default Proof Using "All".

Lemma keeps_ret {A} (a : A) : keeps R (mret a).
Proof. intros st x st' [= <- <-]. done. Qed.
Lemma keeps_get : keeps R get.
Proof. intros st x st' [= <- <-]. done. Qed.
Lemma keeps_throw {A} e : keeps R (throw (A := A) e).
Proof. done. Qed.
Lemma keeps_panic {A} : keeps R (panic (A := A)).
Proof. done. Qed.
Lemma keeps_dangling {A} : keeps R (dangling (A := A)).
Proof. done. Qed.
Lemma keeps_out_of_fuel {A} : keeps R (out_of_fuel (A := A)).
Proof. done. Qed.
Lemma keeps_lift {A} (r : result NivError A) : keeps R (lift r).
Proof. destruct r; [apply keeps_ret|apply keeps_throw]. Qed.
Lemma keeps_unwrap {A} (o : option A) : keeps R (unwrap o).
Proof. destruct o; [apply keeps_ret|apply keeps_panic]. Qed.
Lemma keeps_update f : (∀ st, R st (f st)) → keeps R (update f).
Proof. intros Hf st x st' [= <- <-]. done. Qed.
Lemma keeps_bind {A B} (m : M W A) (f : A → M W B) :
  keeps R m → (∀ a, keeps R (f a)) → keeps R (m ≫= f).
Proof.
  intros Hm Hf st b st'. unfold mbind, M_bind. destruct (m st) as [a st1|e st1| | |] eqn:E; try done.
  intros H. etrans; [by eapply Hm|by eapply Hf].
Qed.
Lemma keeps_finally {A} (m : M W A) f :
  keeps R m → (∀ st st', R st st' → R st (f st')) → keeps R (finally m f).
Proof.
  intros Hm Hf st a st'. unfold finally. destruct (m st) as [a' st1|e st1| | |] eqn:E; try done.
  intros [= <- <-]. eapply Hf, Hm, E.
Qed.
Lemma keeps_with_trace {A} (m : M W A) name span : keeps R m → keeps R (with_trace m name span).
Proof.
  intros Hm st a st'. unfold with_trace. destruct (m st) as [a' st1|e st1| | |] eqn:E; try done.
  intros [= <- <-]. by eapply Hm.
Qed.
Lemma keeps_fold {A S} (f : S → A → M W S) l s :
  (∀ s a, keeps R (f s a)) → keeps R (fold_left_M f l s).
Proof.
  intros Hf. revert s. induction l as [|x l IH]; intros s; cbn; [apply keeps_ret|].
  by apply keeps_bind.
Qed.
End keeps.

Create HintDb keep.
#[export] Hint Resolve keeps_ret keeps_get keeps_throw keeps_panic keeps_dangling
  keeps_out_of_fuel keeps_lift keeps_unwrap : keep.

(** Follow the structure of a computation. *)
Ltac keep :=
  repeat first
    [ solve [eauto with keep typeclass_instances]
    | apply keeps_bind; [apply _| |intros ?]
    | match goal with
      | |- keeps _ (update _) => apply keeps_update; [apply _|intros ?; by split]
      | |- keeps _ (finally _ _) => apply keeps_finally; [apply _| |by intros ? ? [(? & ? & ?) ?]]
      | |- keeps _ (with_trace _ _ _) => apply keeps_with_trace; [apply _|]
      | |- keeps _ (fold_left_M _ _ _) => apply keeps_fold; [apply _|intros ? []]
      | |- keeps _ (match ?x with _ => _ end) => destruct x
      end ].

(** Natives leave promises and budgets alone, and the position of a call matters
    only to the errors they report. *)
Class HostQuiet (W : Type) `{Host W} : Prop := {
  quiet_native : ∀ f arguments span, keeps stays (host_native f arguments span);
  quiet_drain : ∀ ref span, keeps stays (host_drain ref span);
  quiet_close : ∀ kind ref span, keeps stays (host_close kind ref span);
  native_anywhere : ∀ f arguments span span' st v st',
    host_native f arguments span st = Done v st' → host_native f arguments span' st = Done v st';
  derived_anywhere : ∀ schema name arguments span span' v,
    host_derived schema name arguments span = Ok v →
    host_derived schema name arguments span' = Ok v }.
#[export] Hint Resolve quiet_native quiet_drain quiet_close : keep.

Section machine.
Context {W : Type} `{Foreign} `{!Host W, !HostQuiet W}.

Lemma stays_keeps_grows {A} (m : M W A) : keeps stays m → keeps grows m.
Proof. intros Hm st a st' E. by eapply stays_grows, Hm. Qed.

(** Cutting the promises back to what they were. *)
Lemma keeps_end_promises {A} (m : M W A) :
  keeps grows m →
  keeps stays (st ← get; finally m (λ st', set_promises
    (take (length (active_promises st)) (active_promises st')) st')).
Proof.
  intros Hm st a st'. cbv [mbind M_bind get finally].
  destruct (m st) as [f st1|e st1| | |] eqn:E; try done. intros [= <- <-].
  apply Hm in E as [Hu [q Hq]]. split; [done|]. cbn. by rewrite Hq, take_app_length.
Qed.
#[local] Set Default Proof Using "All".

Lemma keeps_child_scope parent bindings : keeps (W := W) stays (child_scope parent bindings).
Proof. unfold child_scope, fresh. intros st a st' [= <- <-]. done. Qed.
Lemma keeps_fresh : keeps (W := W) stays fresh.
Proof. unfold fresh. intros st a st' [= <- <-]. done. Qed.
Lemma keeps_scope_at env : keeps (W := W) stays (scope_at env).
Proof. unfold scope_at. keep. Qed.
#[local] Hint Resolve keeps_child_scope keeps_fresh keeps_scope_at : keep.
Lemma keeps_insert_binding env name b : keeps (W := W) stays (insert_binding env name b).
Proof. unfold insert_binding. keep. Qed.
#[local] Hint Resolve keeps_insert_binding : keep.
Lemma keeps_assign fuel env name v span : keeps (W := W) stays (assign fuel env name v span).
Proof. revert env. induction fuel as [|fuel IH]; intros env; cbn [assign]; keep. Qed.

Lemma keeps_charge span : keeps (W := W) stays (charge span).
Proof.
  intros st a st'. unfold charge. cbv [mbind M_bind get].
  destruct (instruction_budget st) as [[|n]|] eqn:E; [done| |by intros [= <- <-]].
  intros [= <- <-]. by split; [split_and!; cbn; congruence|].
Qed.
Lemma keeps_charge_memory v span : keeps (W := W) stays (charge_memory v span).
Proof.
  intros st a st'. unfold charge_memory. cbv [mbind M_bind get].
  destruct (value_bytes _ v); [|done]. destruct (memory_budget st) eqn:E; [|by intros [= <- <-]].
  case_match; [|done]. intros [= <- <-]. by split; [split_and!; cbn; congruence|].
Qed.
Lemma keeps_check_cancelled : keeps (W := W) stays check_cancelled.
Proof. unfold check_cancelled. keep. Qed.
#[local] Hint Resolve keeps_assign keeps_charge keeps_charge_memory keeps_check_cancelled : keep.

Lemma keeps_declare name v : keeps (W := W) stays (declare name v).
Proof. unfold declare. keep. Qed.
#[local] Hint Resolve keeps_declare : keep.
Lemma keeps_declare_all bindings span : keeps (W := W) stays (declare_all bindings span).
Proof. unfold declare_all. keep. Qed.
Lemma keeps_adopt p t ms span : keeps (W := W) stays (adopt p t ms span).
Proof. unfold adopt. keep. Qed.
Lemma keeps_next op span pc stack : keeps (W := W) stays (next op span pc stack).
Proof. unfold next. keep. Qed.
Lemma keeps_pop stack : keeps (W := W) stays (pop stack).
Proof. unfold pop. keep. Qed.
Lemma keeps_peek stack : keeps (W := W) stays (peek stack).
Proof. unfold peek. keep. Qed.
Lemma keeps_split_off n stack : keeps (W := W) stays (split_off n stack).
Proof. unfold split_off. keep. Qed.
Lemma keeps_lift_r r : keeps (W := W) stays (lift_r r).
Proof. unfold lift_r. keep. Qed.
#[local] Hint Resolve keeps_declare_all keeps_adopt keeps_next keeps_pop keeps_peek
  keeps_split_off keeps_lift_r : keep.
Lemma keeps_push_flow op span pc stack flow escape :
  keeps (W := W) stays (push_flow op span pc stack flow escape).
Proof. unfold push_flow. keep. Qed.
#[local] Hint Resolve keeps_push_flow : keep.

(** Modest changes are invisible to both relations. *)
Lemma modest_stays (f : Interp W → Interp W) st st' : modest f → stays st st' → stays st (f st').
Proof.
  intros Hf [(? & ? & ?) ?]. destruct (Hf st') as (Hi & Hm & Hl & Hp).
  split; [split_and!|]; congruence || (rewrite ?Hi, ?Hm; done).
Qed.
Lemma modest_grows (f : Interp W → Interp W) st st' : modest f → grows st st' → grows st (f st').
Proof.
  intros Hf [(? & ? & ?) ?]. destruct (Hf st') as (Hi & Hm & Hl & Hp).
  split; [split_and!|]; congruence || (rewrite ?Hi, ?Hm, ?Hp; done).
Qed.

#[export] Instance stays_lifting : Lifting (λ A (m _ : M W A), keeps stays m).
Proof.
  split; intros; try (keep; fail).
  - apply keeps_update; [apply _|]. intros st. by apply modest_stays.
  - apply keeps_finally; [apply _|done|]. intros. by apply modest_stays.
Qed.
#[export] Instance grows_lifting : Lifting (λ A (m _ : M W A), keeps grows m).
Proof.
  split; intros; try (apply stays_keeps_grows; keep; fail).
  - by apply keeps_bind; [apply _|..].
  - apply keeps_update; [apply _|]. intros st. by apply modest_grows.
  - apply keeps_finally; [apply _|done|]. intros. by apply modest_grows.
Qed.

Lemma keeps_then_close (R : Interp W → Interp W → Prop) `{!PreOrder R} m kind ref span :
  (∀ st st', stays st st' → R st st') → keeps R m → keeps R (then_close m kind ref span).
Proof.
  intros HR Hm st a st'. unfold then_close. destruct (m st) as [f st1|e st1| | |] eqn:E; try done.
  - intros H'. etrans; [by eapply Hm|]. apply HR.
    assert (keeps stays (_ ← host_close kind ref span; mret f)) as Hk by keep. by eapply Hk.
  - by destruct (host_close kind ref span st1).
Qed.

#[export] Instance grows_statement_lifting : StatementLifting (λ A (m _ : M W A), keeps grows m).
Proof.
  split.
  - intros clauses. apply keeps_update; [apply _|]. intros st. split; [done|]. by apply prefix_app_r.
  - intros m _ Hm. by apply stays_keeps_grows, keeps_end_promises.
  - intros m _ kind ref span Hm. apply keeps_then_close; [apply _|apply stays_grows|done].
Qed.

Section execution.
Context (exec : FunctionBody → M W VmFlow).
Hypothesis exec_keeps : ∀ c, keeps stays (exec c).
#[local] Hint Resolve exec_keeps : keep.

Lemma keeps_in_environment {A} env (m : M W A) : keeps stays m → keeps stays (in_environment env m).
Proof using Type. intros Hm. unfold in_environment. keep. Qed.
#[local] Hint Resolve keeps_in_environment : keep.

Lemma keeps_call_function ref arguments span : keeps stays (call_function exec ref arguments span).
Proof. unfold call_function, function_result. keep. Qed.
#[local] Hint Resolve keeps_call_function : keep.

Lemma keeps_call fuel callee arguments span : keeps stays (call exec fuel callee arguments span).
Proof. revert callee. induction fuel as [|fuel IH]; intros []; cbn [call]; keep. Qed.
#[local] Hint Resolve keeps_call : keep.

Lemma keeps_run_arm body guard span : keeps stays (run_arm exec body guard span).
Proof. unfold run_arm. keep. Qed.
#[local] Hint Resolve keeps_run_arm : keep.
Lemma keeps_execute_match subject arms span : keeps stays (execute_match exec subject arms span).
Proof. induction arms as [|[ps g b s] arms IH]; cbn [execute_match]; keep. Qed.
Lemma keeps_execute_module name body exports span :
  keeps stays (execute_module exec name body exports span).
Proof. unfold execute_module. keep. Qed.
Lemma keeps_drain_adopter fuel implementation state items span :
  keeps stays (drain_adopter exec fuel implementation state items span).
Proof.
  revert state items. induction fuel as [|fuel IH]; intros state items; cbn [drain_adopter]; keep.
Qed.
#[local] Hint Resolve keeps_drain_adopter : keep.
Lemma keeps_iteration_values fuel iterable span :
  keeps stays (iteration_values exec fuel iterable span).
Proof. unfold iteration_values. keep. Qed.
Lemma keeps_iterate name pattern body span values last :
  keeps stays (iterate exec name pattern body span values last).
Proof. revert last. induction values as [|v values IH]; intros last; cbn [iterate]; keep. Qed.
Lemma keeps_repeat fuel condition body span last :
  keeps stays (repeat exec fuel condition body span last).
Proof. revert last. induction fuel as [|fuel IH]; intros last; cbn [repeat]; keep. Qed.
Lemma keeps_then_close_stays m kind ref span :
  keeps stays m → keeps (W := W) stays (then_close m kind ref span).
Proof. by apply keeps_then_close; [apply _|]. Qed.
#[local] Hint Resolve keeps_then_close_stays : keep.
Lemma keeps_execute_using name resource body span :
  keeps stays (execute_using exec name resource body span).
Proof. unfold execute_using. keep. Qed.
#[local] Hint Resolve keeps_execute_match keeps_execute_module keeps_iteration_values
  keeps_iterate keeps_repeat keeps_execute_using : keep.

Lemma keeps_step_op fuel op span stack pc : keeps grows (step_op exec fuel op span stack pc).
Proof.
  pose proof (@stays_keeps_grows BytecodeStep) as Hw.
  destruct op; try (apply Hw; cbn [step_op];
    unfold step_call, execute_sample, execute_if_carries; keep; fail).
  cbn [step_op]. apply keeps_bind; [apply _| |intros []; by apply Hw, keeps_next].
  apply keeps_update; [apply _|]. intros st. split; [done|]. by apply prefix_app_r.
Qed.

Lemma keeps_run fuel code stack pc : keeps grows (run exec fuel code stack pc).
Proof.
  pose proof @stays_keeps_grows as Hw.
  revert stack pc. induction fuel as [|fuel IH]; intros stack pc; cbn [run];
    destruct (pc <? len code); try (apply Hw; keep; fail).
  apply keeps_bind; [apply _| |intros []; [apply IH|apply Hw; keep..]].
  unfold step. apply keeps_bind; [apply _|by apply Hw, keeps_check_cancelled|intros _].
  destruct (code !! N.to_nat pc) as [[op span]|]; [|apply Hw; keep].
  apply keeps_bind; [apply _|by apply Hw, keeps_charge|intros _]. apply keeps_step_op.
Qed.

(** ** The tree interpreter *)

Lemma keeps_evaluate fuel gm e : keeps stays (evaluate exec fuel gm e).
Proof.
  apply (evaluate_rel (λ A m _, keeps stays m) exec exec fuel fuel gm gm); intros.
  - apply keeps_call.
  - keep.
Qed.

Lemma keeps_execute_stmt fuel gm redeclare s :
  keeps grows (execute_stmt exec fuel gm redeclare s).
Proof.
  apply (execute_stmt_rel (λ A m _, keeps grows m) exec exec fuel fuel gm gm); try apply _; intros; try done.
  - apply stays_keeps_grows, keeps_call.
  - apply stays_keeps_grows. keep.
  - apply stays_keeps_grows, keeps_iteration_values.
  - by apply (rel_declare_function (λ A m _, keeps grows m)).
Qed.
End execution.

Lemma keeps_execute rules fuel body : keeps (W := W) stays (execute_with rules fuel body).
Proof.
  revert body. induction fuel as [|fuel IH]; intros body; cbn [execute_with]; [done|].
  destruct body as [ss|chunk]; [unfold block|unfold execute_chunk_vm]; apply keeps_end_promises.
  - apply (rel_run_statements (λ A m _, keeps grows m) _ (execute_stmt (execute_with rules fuel) fuel (rule_get rules) (rule_redeclare rules))).
    apply Forall_forall. intros s _. by apply keeps_execute_stmt.
  - by apply keeps_run.
Qed.
End machine.
