(* ===== verification/Sim.v ===== *)
(** * Related states of the two engines

    The tree interpreter and the machine work on the same state, except that the
    functions of the former have trees as bodies and those of the latter their
    compiled code.  [R] is that relation; [blind] computations, which do not look
    at the function store, respect it, and so do calls, once the bodies of
    functions do.

    The comparison is about [tame] programs, whose meaning does not depend on
    where the engines differ: promises are made at the top of a body (the
    machine keeps a promise for the rest of the chunk, not of the block), a
    [while] loop has no loop exit ([repeat] leaks scopes), and after its first
    hole a text literal only looks at the state (the machine renders all holes
    at the end).  Names of functions are declared once per scope and records
    have no two fields of the same name ([strict_rules]). *)
From S2P Require Import Prelude Ast Bytecode Codegen Verifier Values ValuesOk Gate.
From S2P Require Import Vm Tree TreeLift Engine Clean CleanTree VmMono VmKeeps.
Open Scope list_scope.

(** ** Tame programs *)

(** The operators the grammar gives to logical expressions. *)
Definition logical_operator (o : TokenKind) : bool :=
  match o with Tk_And | Tk_Or => true | _ => false end.

(** Expressions that change nothing a text literal can show. *)
Fixpoint quiet (e : Expr) : bool :=
  match e with
  | Expr_Literal _ _ | Expr_Variable _ _ => true
  | Expr_Unary _ e _ | Expr_Propagate e _ | Expr_Get e _ _ => quiet e
  | Expr_Binary l _ r _ | Expr_Logical l _ r _ | Expr_Index l r _ | Expr_Coalesce l r _ =>
      quiet l && quiet r
  | Expr_Array es _ => forallb quiet es
  | Expr_Text ps _ => forallb quiet_piece ps
  | _ => false
  end
with quiet_piece (p : TextPiece) : bool :=
  match p with TextPiece_Literal _ => true | TextPiece_Hole e => quiet e end.

(** Only the first hole of a text literal may do more than look. *)
Fixpoint quiet_tail (ps : list TextPiece) : bool :=
  match ps with
  | [] => true
  | TextPiece_Literal _ :: ps => quiet_tail ps
  | TextPiece_Hole _ :: ps => forallb quiet_piece ps
  end.

Fixpoint tame (e : Expr) : bool :=
  match e with
  | Expr_Literal _ _ | Expr_Variable _ _ => true
  | Expr_Text ps _ => quiet_tail ps && forallb tame_piece ps
  | Expr_Assign _ e _ | Expr_Unary _ e _ | Expr_Propagate e _ | Expr_Perform e _
  | Expr_Get e _ _ => tame e
  | Expr_Logical l o r _ => logical_operator o && tame l && tame r
  | Expr_Binary l _ r _ | Expr_Index l r _ | Expr_Coalesce l r _ | Expr_Through l r _ =>
      tame l && tame r
  | Expr_Call c es _ _ => tame c && forallb tame es
  | Expr_Array es _ => forallb tame es
  | Expr_Match e arms _ => tame e && forallb tame_arm arms
  end
with tame_piece (p : TextPiece) : bool :=
  match p with TextPiece_Literal _ => true | TextPiece_Hole e => tame e end
with tame_arm (a : MatchArm) : bool :=
  match a with
  | mkMatchArm _ g v _ => match g with Some g => tame g | None => true end && tame v
  end.

(** [top] says that the statement stands directly in a body. *)
Fixpoint tame_stmt (top : bool) (s : Stmt) : bool :=
  let branch o := match o with Some s => tame_stmt false s | None => true end in
  match s with
  | Stmt_Prepare _ _ e _ | Stmt_Let _ _ _ e _ | Stmt_LetPattern _ e _ | Stmt_Expression e
  | Stmt_Print e _ => tame e
  | Stmt_Block ss _ => forallb (tame_stmt false) ss
  | Stmt_If c t e _ | Stmt_IfCarries c _ t e _ => tame c && tame_stmt false t && branch e
  | Stmt_While c b _ => negb (contains_loop_exit b) && tame c && tame_stmt false b
  | Stmt_Promise _ _ => top
  | Stmt_Sample _ b _ _ | Stmt_Function _ _ _ _ _ _ b _ | Stmt_Module _ b _ _ =>
      forallb (tame_stmt true) b
  | Stmt_For _ _ e b _ => tame e && tame_stmt false b
  | Stmt_Using _ e b _ => negb (contains_loop_exit b) && tame e && tame_stmt false b
  | Stmt_Return (Some e) _ => tame e
  | _ => true
  end.

(** ** The function store out of sight *)

Section blind.
Context {W : Type}.
Implicit Types st : Interp W.

Definition with_functions {A} (fs : gmap N Function) (o : outcome W A) : outcome W A :=
  match o with
  | Done a st => Done a (set_functions fs st)
  | Fail e st => Fail e (set_functions fs st)
  | o => o
  end.

(** [m] neither reads nor writes functions. *)
Definition blind {A} (m : M W A) : Prop :=
  ∀ fs st, m (set_functions fs st) = with_functions fs (m st).

Lemma blind_ret {A} (a : A) : blind (mret a).
Proof. done. Qed.
Lemma blind_throw {A} e : blind (throw (A := A) e).
Proof. done. Qed.
Lemma blind_panic {A} : blind (panic (A := A)).
Proof. done. Qed.
Lemma blind_dangling {A} : blind (dangling (A := A)).
Proof. done. Qed.
Lemma blind_lift {A} (r : result NivError A) : blind (lift r).
Proof. by destruct r. Qed.
Lemma blind_fresh : blind fresh.
Proof. done. Qed.
Lemma blind_bind {A B} (m : M W A) (f : A → M W B) :
  blind m → (∀ a, blind (f a)) → blind (m ≫= f).
Proof.
  intros Hm Hf fs st. cbv [mbind M_bind]. rewrite Hm. destruct (m st); cbn; try done. apply Hf.
Qed.
Lemma blind_read {B} (f : Interp W → M W B) :
  (∀ fs st, f (set_functions fs st) = f st) → (∀ st, blind (f st)) → blind (get ≫= f).
Proof. intros He Hf fs st. cbv [mbind M_bind get]. by rewrite He, Hf. Qed.
Lemma blind_update f :
  (∀ fs st, f (set_functions fs st) = set_functions fs (f st)) → blind (update f).
Proof. intros Hf fs st. unfold update. cbn. by rewrite Hf. Qed.
Lemma blind_finally {A} (m : M W A) f :
  blind m → (∀ fs st, f (set_functions fs st) = set_functions fs (f st)) → blind (finally m f).
Proof. intros Hm Hf fs st. unfold finally. rewrite Hm. destruct (m st); cbn; by rewrite ?Hf. Qed.
Lemma blind_fold {A S} (f : S → A → M W S) l s :
  (∀ s a, blind (f s a)) → blind (fold_left_M f l s).
Proof. intros Hf. revert s. induction l as [|x l IH]; intros s; cbn; [done|]. by apply blind_bind. Qed.

Lemma set_functions_id st : set_functions (functions st) st = st.
Proof. by destruct st. Qed.

Lemma blind_functions {A} (m : M W A) st a st' :
  blind m → m st = Done a st' → functions st' = functions st.
Proof.
  intros Hm E. pose proof (Hm (functions st) st) as Hs. rewrite set_functions_id, E in Hs.
  cbn in Hs. injection Hs as ->. done.
Qed.
End blind.

Create HintDb blind.
#[export] Hint Resolve blind_ret blind_throw blind_panic blind_dangling blind_lift blind_fresh : blind.

Ltac blind :=
  repeat first
    [ solve [eauto with blind]
    | match goal with
      | |- blind (get ≫= _) => apply blind_read; [done|intros ?]
      | |- blind (update _) => apply blind_update; done
      | |- blind (finally _ _) => apply blind_finally; [|done]
      | |- blind (_ ≫= _) => apply blind_bind; [|intros ?]
      | |- blind (match ?x with _ => _ end) => destruct x
      end ].

(** Natives do not look at functions. *)
Class HostBlind (W : Type) `{Host W} : Prop := {
  native_blind : ∀ f arguments span, blind (host_native f arguments span);
  drain_blind : ∀ ref span, blind (host_drain ref span);
  close_blind : ∀ kind ref span, blind (host_close kind ref span) }.
#[export] Hint Resolve native_blind drain_blind close_blind : blind.

Section operations.
Context {W : Type} `{Foreign} `{!Host W}.

Lemma blind_scope_at env : blind (W := W) (scope_at env).
Proof. unfold scope_at. blind. Qed.
Lemma blind_child_scope parent bindings : blind (W := W) (child_scope parent bindings).
Proof. unfold child_scope. blind. Qed.
#[local] Hint Resolve blind_scope_at blind_child_scope : blind.
Lemma blind_insert_binding env name b : blind (W := W) (insert_binding env name b).
Proof. unfold insert_binding. blind. Qed.
#[local] Hint Resolve blind_insert_binding : blind.
Lemma blind_assign fuel env name v span : blind (W := W) (assign fuel env name v span).
Proof. revert env. induction fuel as [|fuel IH]; intros env; cbn [assign]; blind. Qed.
Lemma blind_declare name v : blind (W := W) (declare name v).
Proof. unfold declare. blind. Qed.
#[local] Hint Resolve blind_declare : blind.
Lemma blind_declare_all bindings span : blind (W := W) (declare_all bindings span).
Proof. unfold declare_all. apply blind_read; [done|]. intros st. apply blind_fold. intros _ [n v]. blind. Qed.
Lemma blind_adopt p t ms span : blind (W := W) (adopt p t ms span).
Proof.
  unfold adopt. apply blind_read; [done|]. intros st. apply blind_bind; [|intros; blind].
  apply blind_fold. intros _ [n v]. blind.
Qed.
Lemma blind_adopt_members p t ms : blind (W := W) (adopt_members p t ms).
Proof.
  unfold adopt_members. apply blind_read; [done|]. intros st. apply blind_bind; [|intros; blind].
  apply blind_fold. intros _ m. blind.
Qed.
End operations.
#[export] Hint Resolve blind_scope_at blind_child_scope blind_insert_binding blind_assign
  blind_declare blind_declare_all blind_adopt blind_adopt_members : blind.

(** ** The relation *)

(** A compiled function body. *)
Definition function_chunk (code : Code) (span : Span) : Chunk :=
  mkChunk BYTECODE_VERSION (code ++ [ins (Op_Constant Literal_Null) span; ins Op_Return span]).

Definition body_rel (b b' : FunctionBody) : Prop :=
  ∃ ss code span, b = Body_Tree ss ∧ forallb (tame_stmt true) ss = true ∧
    gen_stmts gen_stmt 0 ss = Some code ∧ b' = Body_Bytecode (function_chunk code span).

Record fun_rel (f f' : Function) : Prop := mkFunRel {
  rel_name : f_name f' = f_name f;
  rel_params : f_params f' = f_params f;
  rel_closure : f_closure f' = f_closure f;
  rel_body : body_rel (f_body f) (f_body f') }.

Definition funs_rel (fs fs' : gmap N Function) : Prop := ∀ r,
  match fs !! r, fs' !! r with
  | Some f, Some f' => fun_rel f f'
  | None, None => True
  | _, _ => False
  end.

Lemma funs_rel_empty : funs_rel ∅ ∅.
Proof. intros r. by rewrite !lookup_empty. Qed.

Lemma funs_rel_insert fs fs' r f f' :
  funs_rel fs fs' → fun_rel f f' → funs_rel (<[r := f]> fs) (<[r := f']> fs').
Proof.
  intros Hfs Hf r'. destruct (decide (r' = r)) as [->|Hr]; [by rewrite !lookup_insert_eq|].
  rewrite !lookup_insert_ne by done. apply Hfs.
Qed.

Section relation.
Context {W : Type} `{Foreign} `{!Host W}.
Implicit Types st mst : Interp W.

Definition R st mst : Prop := ∃ fs, mst = set_functions fs st ∧ funs_rel (functions st) fs.

(** Up to the environment: the machine leaves a chunk from any of its scopes. *)
Definition R_env st mst : Prop :=
  ∃ fs env, mst = set_environment env (set_functions fs st) ∧ funs_rel (functions st) fs.

Lemma R_R_env st mst : R st mst → R_env st mst.
Proof. intros (fs & -> & Hf). exists fs, (environment st). by destruct st. Qed.
Lemma R_env_restore st mst env :
  R_env st mst → R (set_environment env st) (set_environment env mst).
Proof. intros (fs & e & -> & Hf). by exists fs. Qed.
Lemma R_environment st mst env : R st mst → R (set_environment env st) (set_environment env mst).
Proof. intros. by apply R_env_restore, R_R_env. Qed.

(** What the engines see is the same. *)
Lemma R_blind {A} (m : M W A) st mst a st' :
  blind m → R st mst → m st = Done a st' → ∃ mst', m mst = Done a mst' ∧ R st' mst'.
Proof.
  intros Hm (fs & -> & Hf) E. exists (set_functions fs st'). split; [by rewrite Hm, E|].
  exists fs. split; [done|]. by erewrite blind_functions.
Qed.

Lemma display_ext (names names' : N → string) v :
  (∀ r, names r = names' r) → display names v = display names' v.
Proof.
  intros Hn. revert v. fix IH 1. intros v.
  destruct v; cbn [display]; try done; try (by rewrite ?Hn, ?IH);
    try (destruct payload; [by rewrite IH|done]); try (do 2 f_equal).
  - f_equal. induction values as [|x vs IHl]; [done|]. cbn [map]. by rewrite (IH x), IHl.
  - f_equal. induction entries as [|[k x] es IHl]; [done|]. cbn [map]. by rewrite (IH k), (IH x), IHl.
  - f_equal. induction values as [|x vs IHl]; [done|]. cbn [map]. by rewrite (IH x), IHl.
  - destruct (if bool_decide _ then _ else _); [done|]. do 4 f_equal.
    induction fields as [|[k x] fs IHl]; [done|]. cbn [map]. by rewrite (IH x), IHl.
Qed.

Lemma text_of_R st mst v : R st mst → text_of mst v = text_of st v.
Proof.
  intros (fs & -> & Hf). apply display_ext. intros r. specialize (Hf r). cbn.
  destruct (functions st !! r), (fs !! r); try done. by destruct Hf.
Qed.

Lemma text_hole_R st mst v span :
  R st mst → text_hole_string mst v span = text_hole_string st v span.
Proof.
  intros HR. unfold text_hole_string. rewrite (text_of_R st mst) by done.
  by destruct HR as (fs & -> & _).
Qed.

Lemma pattern_functions fs st p v bs :
  pattern_matches (set_functions fs st) p v bs = pattern_matches st p v bs.
Proof.
  revert p v bs. fix IH 1. intros p v bs. destruct p as [|l| | |name inner|name fields];
    cbn [pattern_matches]; try done.
  - destruct v as [ | | | | | | | | | | | | | | | | | | | | |t c [w|]| | | |w|w| | | ]; try done;
      by rewrite ?IH.
  - destruct v as [ | | | | | | | | | | | | | | | | | |t values| | | | | | | | | | | ]; try done.
    destruct (_ || _); [|done]. revert bs. induction fields as [|[f sub] fields IHf]; intros bs; cbn; [done|].
    destruct (member_get values f) as [w|]; [|done]. cbn. rewrite (IH sub w bs).
    destruct (pattern_matches st sub w bs); [|done]. apply IHf.
Qed.

Lemma pattern_R st mst p v : R st mst → pattern_bindings mst p v = pattern_bindings st p v.
Proof. intros (fs & -> & _). apply pattern_functions. Qed.

Lemma first_match_R st mst ps v : R st mst → first_match mst ps v = first_match st ps v.
Proof.
  intros HR. induction ps as [|p ps IH]; [done|]. cbn. rewrite (pattern_R st mst) by done.
  by destruct (pattern_bindings st p v).
Qed.
End relation.

(** ** The machine without budgets *)

Section progress.
Context {W : Type} `{Foreign} `{!Host W, !HostQuiet W, !HostBlind W}.
Implicit Types st mst : Interp W.
#[local] Set Default Proof Using "Type".

(** No budgets. *)
Definition plain st : Prop := instruction_budget st = None ∧ memory_budget st = None.

(** A value of supported depth. *)
Definition charged (v : Value) : Prop := is_Some (value_bytes (S MAXIMUM_VALUE_DEPTH) v).

Lemma grows_plain st st' : grows st st' → plain st → plain st'.
Proof. intros [(? & ? & ?) ?] [? ?]. split; auto. Qed.
Lemma stays_plain st st' : stays st st' → plain st → plain st'.
Proof. intros. by eapply grows_plain; [apply stays_grows|]. Qed.
Lemma R_plain st mst : R st mst → plain st → plain mst.
Proof. by intros (fs & -> & _). Qed.

Lemma charge_plain span st : plain st → charge span st = Done tt st.
Proof. intros [Hi _]. unfold charge. cbv [mbind M_bind get]. by rewrite Hi. Qed.

Lemma charge_memory_plain v span st : plain st → charged v → charge_memory v span st = Done tt st.
Proof.
  intros [_ Hm] [n Hn]. unfold charge_memory. cbv [mbind M_bind get]. by rewrite Hn, Hm.
Qed.

Lemma charge_memory_Done v span st u st' :
  plain st → charge_memory v span st = Done u st' → charged v ∧ st' = st.
Proof.
  intros [_ Hm]. unfold charge_memory, charged. cbv [mbind M_bind get]. rewrite Hm.
  destruct (value_bytes _ v); [|done]. intros [= <- <-]. by split.
Qed.

(** ** Inverting computations *)

Lemma bind_Done {A B} (m : M W A) (f : A → M W B) st b st' :
  (m ≫= f) st = Done b st' → ∃ a st1, m st = Done a st1 ∧ f a st1 = Done b st'.
Proof. cbv [mbind M_bind]. destruct (m st); try done. eauto. Qed.

Lemma lift_Done {A} (r : result NivError A) st a st' :
  lift r st = Done a st' → r = Ok a ∧ st' = st.
Proof. destruct r; [|done]. by intros [= -> ->]. Qed.

Lemma finally_Done {A} (m : M W A) f st a st' :
  finally m f st = Done a st' → ∃ st1, m st = Done a st1 ∧ st' = f st1.
Proof. unfold finally. destruct (m st); try done. intros [= -> <-]. eauto. Qed.

Lemma with_trace_Done {A} (m : M W A) name span st a st' :
  with_trace m name span st = Done a st' → m st = Done a st'.
Proof. unfold with_trace. by destruct (m st). Qed.

Lemma in_environment_Done {A} env (m : M W A) st a st' :
  in_environment env m st = Done a st' ↔
  ∃ st1, m (set_environment env st) = Done a st1 ∧ st' = set_environment (environment st) st1.
Proof.
  unfold in_environment, finally. cbv [mbind M_bind get update].
  destruct (m (set_environment env st)) as [x st1|e st1| | |]; split;
    try (by intros (? & ? & _)); try done.
  - intros [= <- <-]. eauto.
  - intros (st2 & [= <- <-] & ->). done.
Qed.

Lemma finish_Done span v st w st' :
  plain st → finish span v st = Done w st' → w = v ∧ st' = st ∧ charged v.
Proof.
  intros Hp (u & st1 & Hc & [= <- <-])%bind_Done.
  by destruct (charge_memory_Done _ _ _ _ _ Hp Hc) as [? ->].
Qed.
End progress.

(** ** Member access *)

(** Member access that refuses a record with two fields of the same name. *)
Definition distinct_get `{Foreign} (ref : N) (object : Value) (name : string) (span : Span)
    : result NivError Value :=
  match object with
  | V_Record _ fields =>
      if decide (NoDup (map fst fields)) then tree_get ref object name span
      else Err (error_at "duplicate field" span)
  | object => tree_get ref object name span
  end.

(** The tree interpreter, refusing what the engines treat differently. *)
Definition strict_rules `{Foreign} : Rules := mkRules distinct_get false.

Section members.
Context `{Foreign}.

Lemma member_get_None fields name : name ∉ map fst fields → member_get fields name = None.
Proof.
  induction fields as [|[n v] fields IH]; [done|]. cbn. rewrite not_elem_of_cons.
  intros [Hne Hn]. rewrite IH by done. rewrite bool_decide_false; [done|congruence].
Qed.

Lemma first_field_member fields name :
  NoDup (map fst fields) → first_field fields name = member_get fields name.
Proof.
  induction fields as [|[n v] fields IH]; [done|]. cbn. rewrite NoDup_cons. intros [Hn Hd].
  case_bool_decide as Hname; [subst; by rewrite member_get_None|].
  rewrite IH by done. by destruct (member_get fields name).
Qed.

Lemma distinct_tree ref v name span r :
  distinct_get ref v name span = Ok r → tree_get ref v name span = Ok r.
Proof. destruct v; try done. cbn [distinct_get]. by case_decide. Qed.

Lemma distinct_machine ref v name span r :
  distinct_get ref v name span = Ok r → get_value ref v name span = Ok r.
Proof.
  destruct v; try done. cbn [distinct_get]. case_decide as Hd; [|done]. cbn [tree_get get_value].
  rewrite first_field_member by done. by destruct (_ <=? 8).
Qed.
End members.

(** ** What a computation does, another also does *)

Section also.
Context {W : Type} `{Foreign} `{!Host W}.
Implicit Types st : Interp W.

Lemma gate_anywhere st f arguments span span' r :
  gate st f arguments span = Ok r → gate st f arguments span' = Ok r.
Proof.
  unfold gate. destruct (native_capability f); [|done]. destruct (promised_never _ _); [done|].
  destruct (match capabilities st with Some _ => _ | None => _ end); [done|].
  unfold authorize_scope. destruct (capability_scopes st !! _); [|done]. by destruct (scope_allows _ _ _ _ _).
Qed.

Lemma check_arity_anywhere name n m span span' u :
  check_arity name n m span = Ok u → check_arity name n m span' = Ok u.
Proof. unfold check_arity. by destruct (n =? m). Qed.

(** [m'] does what [m] does when [m] ends with a value. *)
Definition also {A} (m m' : M W A) : Prop := ∀ st a st', m st = Done a st' → m' st = Done a st'.

Lemma also_refl {A} (m : M W A) : also m m.
Proof. by intros st a st'. Qed.
Lemma also_lift {A} (r r' : result NivError A) :
  (∀ x, r = Ok x → r' = Ok x) → also (lift r) (lift r').
Proof. intros Hr st a st' [-> ->]%lift_Done. by rewrite (Hr a eq_refl). Qed.
Lemma also_throw {A} e (m : M W A) : also (throw e) m.
Proof. by intros st a st'. Qed.
Lemma also_bind {A B} (m m' : M W A) (f f' : A → M W B) :
  also m m' → (∀ a, also (f a) (f' a)) → also (m ≫= f) (m' ≫= f').
Proof.
  intros Hm Hf st b st' (a & st1 & Ha & Hb)%bind_Done. cbv [mbind M_bind].
  rewrite (Hm _ _ _ Ha). by apply Hf.
Qed.
Lemma also_with_trace {A} (m m' : M W A) name span span' :
  also m m' → also (with_trace m name span) (with_trace m' name span').
Proof.
  intros Hm st a st'. unfold with_trace. destruct (m st) as [b st1|e st1| | |] eqn:E; try done.
  intros [= <- <-]. by rewrite (Hm _ _ _ E).
Qed.
Lemma also_finally {A} (m m' : M W A) f : also m m' → also (finally m f) (finally m' f).
Proof.
  intros Hm st a st'. unfold finally. destruct (m st) as [b st1|e st1| | |] eqn:E; try done.
  intros [= <- <-]. by rewrite (Hm _ _ _ E).
Qed.
Lemma mle_also {A} (m m' : M W A) : mle m m' → also m m'.
Proof. intros Hm st a st' E. destruct (Hm st) as [E'|E']; rewrite <- ?E', E in *; done. Qed.
Lemma also_trans {A} (m1 m2 m3 : M W A) : also m1 m2 → also m2 m3 → also m1 m3.
Proof. intros H1 H2 st a st' E. auto. Qed.

(** Where a call stands matters only to its errors. *)
Lemma call_function_anywhere exec ref arguments span span' :
  also (call_function exec ref arguments span) (call_function exec ref arguments span').
Proof.
  unfold call_function. apply also_bind; [apply also_refl|intros st].
  destruct (functions st !! ref) as [f|]; [|apply also_refl].
  apply also_bind; [apply also_lift, check_arity_anywhere|intros _].
  destruct (max_call_depth st <=? call_depth st); [apply also_throw|].
  apply also_bind; [apply also_refl|intros _]. apply also_with_trace, also_finally.
  do 2 (apply also_bind; [apply also_refl|intros ?]).
  unfold function_result. case_match; first [apply also_throw|apply also_refl].
Qed.

#[export] Instance also_refining : Refining (@also).
Proof.
  split; intros; [apply also_refl|done|by apply also_bind|by apply also_finally|by apply also_with_trace|].
  intros st a st'. unfold then_close.
  match goal with Ha : also _ _ |- _ => rename Ha into Hm end.
  destruct (m st) as [f st1|e st1| | |] eqn:E; try done; [by rewrite (Hm _ _ _ E)|].
  by destruct (host_close kind ref span st1).
Qed.

(** The strict tree interpreter does what the source's does. *)
Lemma strict_get ref v name span :
  also (lift (rule_get strict_rules ref v name span)) (lift (rule_get source_rules ref v name span)).
Proof. apply also_lift, distinct_tree. Qed.

Lemma strict_declare name v :
  also (declare_function (rule_redeclare strict_rules) name v)
    (declare_function (rule_redeclare source_rules) name v).
Proof.
  intros st a st'. cbn [declare_function rule_redeclare strict_rules source_rules].
  intros (? & ? & [= <- <-] & Hd)%bind_Done. apply bind_Done in Hd as (s & st1 & Hs & Hd).
  case_bool_decide; [done|]. revert Hs. unfold scope_at. cbv [mbind M_bind get].
  destruct (scopes st !! environment st); [|done]. by intros [= -> ->].
Qed.

Lemma strict_execute F body : also (execute_with strict_rules F body) (execute F body).
Proof. apply (refines_execute (@also)); [apply strict_get|apply strict_declare|done]. Qed.

Lemma strict_run_tree F program v :
  also (run_tree_with strict_rules F program v) (run_tree F program v).
Proof.
  revert v. induction program as [|s program IH]; intros v; [apply also_refl|]. cbn [run_tree_with].
  apply also_bind; [|intros []; try apply also_refl; apply IH].
  apply (refines_execute_stmt (@also));
    [intros; apply strict_execute|done|apply strict_get|apply strict_declare].
Qed.

Context `{!HostQuiet W}.
#[local] Set Default Proof Using "Type*".

Lemma also_call_anywhere exec fuel callee arguments span span' :
  also (call exec fuel callee arguments span) (call exec fuel callee arguments span').
Proof.
  revert callee. induction fuel as [|fuel IH]; intros callee; destruct callee; cbn [call];
    try apply also_throw; try apply call_function_anywhere;
    try (apply also_bind;
      [apply also_lift;
       first [apply check_arity_anywhere|intros ?; apply derived_anywhere]|intros _ || intros ?];
      try apply also_refl).
  all: try (apply also_bind; [apply also_refl|intros st];
    apply also_bind; [apply also_lift; intros ?; apply gate_anywhere|intros ?];
    apply also_bind; [|intros ?; apply also_refl];
    intros st1 v st2; apply native_anywhere).
  all: destruct arguments; [apply also_throw|];
    apply also_bind; [apply also_refl|intros st];
    destruct (protocol_dispatch st !! _); [|apply also_throw];
    first [apply IH|apply also_refl].
Qed.


End also.

(** ** Calls *)

Section calls.
Context {W : Type} `{Foreign} `{!Host W, !HostQuiet W, !HostBlind W, !HostClean W}.
Implicit Types st mst : Interp W.
#[local] Set Default Proof Using "All".

(** What every state of the comparison satisfies. *)
Definition ready st : Prop := plain st ∧ tidy st.

Lemma strict_clean ref v name span r :
  clean v = true → rule_get strict_rules ref v name span = Ok r → clean r = true.
Proof using Type. intros Hv Hr%distinct_tree. by eapply clean_get. Qed.

Lemma gives_strict F0 ss : gives (W := W) (execute_with strict_rules F0 (Body_Tree ss)) flow_clean.
Proof. apply gives_execute, strict_clean. Qed.

(** [m'] does on the machine what [m] does on the tree, given enough fuel. *)
Definition sim {A} (m : M W A) (m' : nat → nat → M W A) : Prop :=
  ∀ st mst a st', ready st → R st mst → m st = Done a st' →
    ∃ mst' n, R st' mst' ∧ ∀ F fuel, (n ≤ F)%nat → (n ≤ fuel)%nat → m' F fuel mst = Done a mst'.

Lemma sim_blind {A} (m : M W A) : blind m → sim m (λ _ _, m).
Proof.
  intros Hm st mst a st' _ HR E. destruct (R_blind _ _ _ _ _ Hm HR E) as (mst' & E' & HR').
  by exists mst', 0%nat.
Qed.

(** The bodies of functions agree: a tree body that ends is matched by the
    return of its chunk. *)
Definition bodies_agree (F0 : nat) : Prop := ∀ ss code span st mst flow st',
  forallb (tame_stmt true) ss = true → gen_stmts gen_stmt 0 ss = Some code → ready st → R st mst →
  execute_with strict_rules F0 (Body_Tree ss) st = Done flow st' →
  let returns v := ∃ mst' n, R_env st' mst' ∧ ∀ F, (n ≤ F)%nat →
    execute F (function_chunk code span) mst = Done (Flow_Return v) mst' in
  match flow with
  | Flow_Continue _ => returns V_Null
  | Flow_Return v => returns v
  | Flow_Stop | Flow_Skip => True
  end.

(** A call that ends, step by step. *)
Lemma call_function_Done exec ref arguments span st v st' :
  call_function exec ref arguments span st = Done v st' →
  ∃ f env st1 flow st2,
    functions st !! ref = Some f ∧
    check_arity (f_name f) (len (f_params f)) (len arguments) span = Ok tt ∧
    (max_call_depth st <=? call_depth st) = false ∧
    child_scope (f_closure f) (immutable (zip (f_params f) arguments))
      (set_call_depth (call_depth st + 1) st) = Done env st1 ∧
    exec (f_body f) (set_environment env st1) = Done flow st2 ∧
    function_result (f_body f) flow span (set_environment (environment st1) st2)
      = Done v (set_environment (environment st1) st2) ∧
    st' = set_call_depth (call_depth st2 - 1) (set_environment (environment st1) st2).
Proof.
  unfold call_function. intros (? & ? & [= <- <-] & Hc)%bind_Done.
  destruct (functions st !! ref) as [f|]; [|done].
  apply bind_Done in Hc as ([] & ? & [Ha ->]%lift_Done & Hc).
  destruct (_ <=? _) eqn:Hd; [done|]. apply bind_Done in Hc as (? & ? & [= <- <-] & Hc).
  apply with_trace_Done, finally_Done in Hc as (st3 & Hc & ->).
  apply bind_Done in Hc as (env & st1 & Hch & Hc).
  apply bind_Done in Hc as (flow & st4 & (st2 & He & ->)%in_environment_Done & Hr).
  assert (st3 = set_environment (environment st1) st2) as ->.
  { destruct flow, (f_body f); cbn in Hr; try done; by injection Hr. }
  exists f, env, st1, flow, st2. done.
Qed.

Lemma call_function_sim F0 ref arguments span span' :
  bodies_agree F0 → forallb clean arguments = true →
  sim (call_function (execute_with strict_rules F0) ref arguments span)
    (λ F _, call_function (execute F) ref arguments span').
Proof.
  intros Hb Hclean st mst v st' [Hp Ht0] HR Hc.
  apply call_function_Done in Hc as (f & env & st1 & flow & st2 & Hf & Ha & Hd & Hch & He & Hr & ->).
  destruct HR as (fs & -> & Hfs). pose proof (Hfs ref) as Hfr. rewrite Hf in Hfr.
  destruct (fs !! ref) as [f'|] eqn:Hf'; [|done]. destruct Hfr as [Hn Hpa Hcl Hbo].
  assert (R (set_call_depth (call_depth st + 1) st)
            (set_call_depth (call_depth st + 1) (set_functions fs st))) as HR by by exists fs.
  destruct (R_blind _ _ _ _ _ (blind_child_scope _ _) HR Hch) as (mst1 & Hch' & HR1).
  destruct Hbo as (ss & code & sp & Eb & Ht & Hg & Eb').
  assert (ready (set_environment env st1)) as Hp1.
  { split.
    - eapply (stays_plain (set_call_depth (call_depth st + 1) st)); [|done].
      destruct (keeps_child_scope _ _ _ _ _ Hch). by split.
    - apply tidy_environment. eapply gives_child_scope; [|by apply (tidies_other (set_call_depth (call_depth st + 1)))|exact Hch].
      by apply immutable_clean, zip_clean. }
  rewrite Eb in He, Hr.
  pose proof (Hb ss code sp _ _ _ _ Ht Hg Hp1 (R_environment _ _ env HR1) He) as Hbody.
  assert (∃ mst' n, R_env st2 mst' ∧ ∀ F, (n ≤ F)%nat →
    execute F (function_chunk code sp) (set_environment env mst1) = Done (Flow_Return v) mst')
    as (mst' & n & HR2 & Hx).
  { destruct flow; cbn in Hr; try done; injection Hr as <-; done. }
  exists (set_call_depth (call_depth st2 - 1) (set_environment (environment st1) mst')), n. split.
  { destruct (R_env_restore _ _ (environment st1) HR2) as (fs2 & E & Hfs2). rewrite E.
    exists fs2. by split. }
  intros F _ HF _. unfold call_function. cbv [mbind M_bind get]. cbn [functions set_functions].
  rewrite Hf'. rewrite Hn, Hpa, Hcl, Eb'.
  assert (check_arity (f_name f) (len (f_params f)) (len arguments) span' = Ok tt) as ->.
  { revert Ha. unfold check_arity. by destruct (_ =? _). }
  cbn [lift max_call_depth call_depth set_functions mret M_ret]. cbv [mret M_ret]. rewrite Hd.
  cbv [update with_trace finally]. rewrite Hch'. unfold in_environment. cbv [mbind M_bind get finally update].
  rewrite Hx by done. cbn [function_result]. cbv [mret M_ret]. f_equal.
  destruct HR1 as (fs1 & -> & _). destruct HR2 as (fs2 & e2 & -> & _). done.
Qed.

(** Callees that do not run code of the program. *)
Definition leaf (callee : Value) : bool :=
  match callee with V_Function _ | V_ProtocolMethod _ _ _ => false | _ => true end.

Lemma leaf_blind exec n callee arguments span :
  leaf callee = true → blind (W := W) (call exec n callee arguments span).
Proof. destruct n, callee; try done; intros _; cbn [call]; blind. Qed.

Lemma leaf_exec exec exec' n n' callee arguments span :
  leaf callee = true →
  call (W := W) exec n callee arguments span = call exec' n' callee arguments span.
Proof. by destruct n, n', callee. Qed.

Lemma call_sim F0 n callee arguments span span' :
  bodies_agree F0 → forallb clean arguments = true →
  sim (call (execute_with strict_rules F0) n callee arguments span)
    (λ F fuel, call (execute F) fuel callee arguments span').
Proof.
  intros Hb Ha. revert callee. induction n as [|n IH]; intros callee st mst v st' Hp HR Hc.
  all: destruct (leaf callee) eqn:Hl;
    [apply (also_call_anywhere _ _ _ _ _ span') in Hc;
     destruct (R_blind _ _ _ _ _ (leaf_blind _ _ _ _ _ Hl) HR Hc) as (mst' & Hc' & HR');
     exists mst', 0%nat; split; [done|]; intros F fuel _ _; by erewrite leaf_exec|].
  all: destruct callee; try done; cbn [call] in Hc.
  all: try (destruct (call_function_sim F0 _ _ _ span' Hb Ha st mst v st' Hp HR Hc) as (mst' & k & HR' & Hk);
            exists mst', k; split; [done|]; intros F [|fuel] HF Hfuel; exact (Hk F _ HF Hfuel)).
  all: destruct arguments as [|receiver arguments]; [done|].
  all: apply bind_Done in Hc as (? & ? & [= <- <-] & Hc).
  all: match type of Hc with context [protocol_dispatch ?st !! ?k] =>
         destruct (protocol_dispatch st !! k) as [impl|] eqn:Hd end; try done.
  destruct (IH impl st mst v st' Hp HR Hc) as (mst' & k & HR' & Hk).
  exists mst', (S k). split; [done|]. intros F [|fuel] HF Hfuel; [lia|]. cbn [call].
  cbv [mbind M_bind get]. destruct HR as (fs & -> & _). cbn [protocol_dispatch set_functions].
  rewrite Hd. apply Hk; lia.
Qed.

Lemma call_ready F0 n callee arguments span st v st' :
  forallb clean arguments = true →
  call (execute_with strict_rules F0) n callee arguments span st = Done v st' → ready st →
  ready st' ∧ clean v = true.
Proof.
  intros Ha Hc [Hp Ht]. destruct (gives_call _ (gives_strict F0) _ _ _ _ Ha _ _ _ Ht Hc) as (? & _ & ?).
  split; [split|]; [|done..]. eapply stays_plain, Hp. eapply keeps_call; [|exact Hc]. intros. apply keeps_execute.
Qed.

Lemma drain_adopter_sim F0 n impl state items span :
  bodies_agree F0 → clean state = true →
  sim (drain_adopter (execute_with strict_rules F0) n impl state items span)
    (λ F fuel, drain_adopter (execute F) fuel impl state items span).
Proof.
  intros Hb. revert state items.
  induction n as [|n IH]; intros state items Hs st mst vs st' Hp HR Hd; [done|].
  assert (forallb clean [state] = true) as Ha by (cbn; by rewrite Hs).
  cbn [drain_adopter] in Hd. apply bind_Done in Hd as (v & st1 & Hc & Hd).
  destruct (call_sim F0 n impl [state] span span Hb Ha st mst v st1 Hp HR Hc) as (mst1 & k & HR1 & Hk).
  apply call_ready in Hc as [Hp1 Hv]; [|done..].
  destruct v as [ | | | | | | | | | | | | | | | | | |t fields| | | | | | | | | | | ]; try done.
  - injection Hd as <- <-. exists mst1, (S k). split; [done|]. intros F [|fuel] HF Hfuel; [lia|].
    cbn [drain_adopter]. cbv [mbind M_bind]. by rewrite Hk by lia.
  - destruct (member_get fields "item") as [item|] eqn:Hi; [|done].
    destruct (member_get fields "next") as [next|] eqn:Hn; [|done].
    destruct (1000000 <? len (items ++ [item])) eqn:Hm; [done|].
    destruct (IH _ _ (clean_member _ _ _ Hv Hn) _ _ _ _ Hp1 HR1 Hd) as (mst2 & k2 & HR2 & Hk2).
    exists mst2, (S (k + k2)). split; [done|]. intros F [|fuel] HF Hfuel; [lia|].
    cbn [drain_adopter]. cbv [mbind M_bind]. rewrite Hk by lia. rewrite Hi, Hn. cbv zeta. rewrite Hm.
    apply Hk2; lia.
Qed.

Lemma iteration_values_sim F0 n iterable span :
  bodies_agree F0 → clean iterable = true →
  sim (iteration_values (execute_with strict_rules F0) n iterable span)
    (λ F fuel, iteration_values (execute F) fuel iterable span).
Proof.
  intros Hb Hi. destruct iterable; try done; cbn [iteration_values].
  - apply sim_blind. blind.
  - apply sim_blind. blind.
  - intros st mst vs st' Hp HR He. apply bind_Done in He as (? & ? & [= <- <-] & He).
    destruct (protocol_dispatch st !! _) as [impl|] eqn:Hd; [|done].
    destruct (drain_adopter_sim F0 n impl _ _ _ Hb Hi _ _ _ _ Hp HR He) as (mst' & k & HR' & Hk).
    exists mst', k. split; [done|]. intros F fuel HF Hfuel. cbv [mbind M_bind get].
    destruct HR as (fs & -> & _). cbn [protocol_dispatch set_functions]. rewrite Hd. by apply Hk.
  - destruct kind; try done. apply sim_blind. blind.
Qed.
End calls.
