(* ===== verification/AgreeExpr.v ===== *)
(** * Expressions on the two engines

    The code of a tame expression does on the machine what the tree interpreter
    does with the expression: [frag] says of a fragment of code that it takes
    related states to related states, and that it ends with values on the stack
    or leaves the chunk.  An internal return of the tree interpreter is a return
    from the chunk. *)
From S2P Require Import Prelude Ast Bytecode Codegen Verifier Values ValuesOk Gate.
From S2P Require Import Vm Tree TreeLift Engine Clean CleanTree VmMono VmKeeps Sim.
Open Scope list_scope.

(** ** Code at a position *)

Definition at_code (code : Code) (b : N) (f : Code) : Prop :=
  ∃ pre post, code = pre ++ f ++ post ∧ len pre = b.

Lemma at_app code b f g : at_code code b (f ++ g) → at_code code b f ∧ at_code code (b + len f) g.
Proof.
  intros (pre & post & -> & <-). split.
  - exists pre, (g ++ post). by rewrite <- app_assoc.
  - exists (pre ++ f), post. by rewrite len_app, <- !app_assoc.
Qed.

Lemma at_cons code b i f :
  at_code code b (i :: f) → code !! N.to_nat b = Some i ∧ at_code code (b + 1) f.
Proof.
  intros (pre & post & -> & <-). split.
  - unfold len. rewrite Nat2N.id. by apply list_lookup_middle.
  - exists (pre ++ [i]), post. rewrite <- app_assoc. split; [done|].
    by rewrite len_app, len_cons, len_nil.
Qed.

(** An interpreter that is not a cancelled task: the engines look at the request
    at different places. *)
Class Uncancelled (W : Type) `{Host W} : Prop := never_cancelled (w : W) : host_cancelled w = false.

Section agree.
Context {W : Type} `{Foreign} `{!Host W, !HostQuiet W, !HostBlind W, !HostClean W, !Uncancelled W}.
Implicit Types st mst : Interp W.
#[local] Set Default Proof Using "All".

(** ** The machine's progress *)

(** Inside a chunk, or out of it. *)
Inductive place : Type :=
| At (pc : N) (stack : Stack) (mst : Interp W)
| Out (flow : VmFlow) (mst : Interp W).

Definition resume (F fuel : nat) (code : Code) (x : place) : outcome W VmFlow :=
  match x with
  | At pc stack mst => run (execute F) fuel code stack pc mst
  | Out flow mst => Done flow mst
  end.

(** From [x] the machine gets to [y] in some number of steps. *)
Definition leads (code : Code) (x y : place) : Prop :=
  ∃ n N, ∀ F fuel, (N ≤ F)%nat → (N ≤ fuel)%nat →
    resume F (n + fuel) code x = resume F fuel code y.

Lemma leads_refl code x : leads code x x.
Proof using Type. by exists 0%nat, 0%nat. Qed.

Lemma leads_trans code x y z : leads code x y → leads code y z → leads code x z.
Proof using Type.
  intros (n1 & N1 & H1) (n2 & N2 & H2). exists (n1 + n2)%nat, (N1 + N2)%nat.
  intros F fuel HF Hfuel. rewrite <- Nat.add_assoc, H1 by lia. apply H2; lia.
Qed.

(** Where a step leads. *)
Definition after_step (s : BytecodeStep) mst : place :=
  match s with
  | Step_Next pc stack => At pc stack mst
  | Step_Return v => Out (Flow_Return v) mst
  | Step_Stop => Out Flow_Stop mst
  | Step_Skip => Out Flow_Skip mst
  end.

Lemma leads_step code pc stack mst s mst' op span :
  code !! N.to_nat pc = Some (mkInstruction op span) → plain mst →
  (∃ N, ∀ F fuel, (N ≤ F)%nat → (N ≤ fuel)%nat →
     step_op (execute F) fuel op span stack pc mst = Done s mst') →
  leads code (At pc stack mst) (after_step s mst').
Proof.
  intros Hop Hp [N HN]. exists 1%nat, N. intros F fuel HF Hfuel. cbn [resume Nat.add run].
  rewrite (proj2 (N.ltb_lt pc (len code))) by (apply lookup_lt_Some in Hop; unfold len; lia).
  unfold step, check_cancelled. rewrite Hop. cbv [mbind M_bind get].
  rewrite never_cancelled. cbn [mret M_ret]. rewrite charge_plain by done.
  rewrite HN by done. by destruct s.
Qed.

Lemma next_plain op span pc v stack mst :
  plain mst → charged v → next op span pc (v :: stack) mst = Done (Step_Next (pc + 1) (v :: stack)) mst.
Proof using Type.
  intros Hp Hv. unfold next. destruct (charges_memory op); [|done].
  cbv [mbind M_bind]. by rewrite charge_memory_plain.
Qed.

(** ** Fragments *)

(** How a fragment ends: with values on the stack, or out of the chunk. *)
Inductive reach : Type :=
| Gives (vs : list Value)
| Leaves (flow : VmFlow).

Definition related (r : reach) st mst : Prop :=
  match r with Gives _ => R st mst | Leaves _ => R_env st mst end.

Definition ends_at (r : reach) (pc : N) (stack : Stack) mst : place :=
  match r with Gives vs => At pc (rev vs ++ stack) mst | Leaves flow => Out flow mst end.

(** The code [f] at [b], with [us] on the stack, does from [st] to [st'] what
    [r] says. *)
Definition frag (b : N) (f : Code) (us : list Value) st (r : reach) st' : Prop :=
  ∀ mst, R st mst → ∃ mst', related r st' mst' ∧
    ∀ code stack, at_code code b f →
      leads code (At b (rev us ++ stack) mst) (ends_at r (b + len f) stack mst').

Lemma frag_stay b us st : frag b [] us st (Gives us) st.
Proof using Type.
  intros mst HR. exists mst. split; [done|]. intros code stack _. cbn.
  rewrite len_nil, N.add_0_r. apply leads_refl.
Qed.

Lemma frag_seq b f g us st ws st1 r st2 :
  frag b f us st (Gives ws) st1 → frag (b + len f) g ws st1 r st2 → frag b (f ++ g) us st r st2.
Proof using Type.
  intros Hf Hg mst HR. destruct (Hf mst HR) as (mst1 & HR1 & L1).
  destruct (Hg mst1 HR1) as (mst2 & HR2 & L2). exists mst2. split; [done|].
  intros code stack [Ha Hb]%at_app. eapply leads_trans; [by apply L1|].
  rewrite len_app, N.add_assoc. by apply L2.
Qed.

Lemma frag_cons b i g us st ws st1 r st2 :
  frag b [i] us st (Gives ws) st1 → frag (b + 1) g ws st1 r st2 → frag b (i :: g) us st r st2.
Proof using Type. intros Hi Hg. exact (frag_seq b [i] g us st ws st1 r st2 Hi Hg). Qed.

Lemma frag_leaves b f g us st flow st1 :
  frag b f us st (Leaves flow) st1 → frag b (f ++ g) us st (Leaves flow) st1.
Proof using Type.
  intros Hf mst HR. destruct (Hf mst HR) as (mst1 & HR1 & L1). exists mst1. split; [done|].
  intros code stack [Ha _]%at_app. by apply L1.
Qed.

(** Values below stay where they are. *)
Definition below (vs : list Value) (r : reach) : reach :=
  match r with Gives ws => Gives (vs ++ ws) | r => r end.

Lemma frag_below vs b f us st r st' :
  frag b f us st r st' → frag b f (vs ++ us) st (below vs r) st'.
Proof using Type.
  intros Hf mst HR. destruct (Hf mst HR) as (mst1 & HR1 & L1). exists mst1.
  split; [by destruct r|]. intros code stack Ha. specialize (L1 code (rev vs ++ stack) Ha).
  rewrite rev_app_distr, <- app_assoc. destruct r as [ws|]; cbn; [|done].
  by rewrite rev_app_distr, <- app_assoc.
Qed.

(** One instruction. *)
Lemma frag_ins b op span us st r st' (s : N → Stack → BytecodeStep) :
  ready st →
  (∀ pc stack mst, after_step (s pc stack) mst = ends_at r pc stack mst) →
  (∀ mst, R st mst → ∃ mst' N, related r st' mst' ∧ ∀ F fuel stack, (N ≤ F)%nat → (N ≤ fuel)%nat →
     step_op (execute F) fuel op span (rev us ++ stack) b mst = Done (s (b + 1) stack) mst') →
  frag b [ins op span] us st r st'.
Proof.
  intros [Hp _] Hs Hop mst HR. destruct (Hop mst HR) as (mst' & N & HR' & HN).
  exists mst'. split; [done|]. intros code stack [Hi _]%at_cons. rewrite len_cons, len_nil.
  rewrite <- Hs. eapply leads_step; [exact Hi|by eapply R_plain|].
  exists N. intros F fuel HF Hfuel. rewrite HN by done. by rewrite N.add_0_r.
Qed.

Lemma frag_op b op span us st ws st' :
  ready st →
  (∀ mst, R st mst → ∃ mst' N, R st' mst' ∧ ∀ F fuel stack, (N ≤ F)%nat → (N ≤ fuel)%nat →
     step_op (execute F) fuel op span (rev us ++ stack) b mst
     = Done (Step_Next (b + 1) (rev ws ++ stack)) mst') →
  frag b [ins op span] us st (Gives ws) st'.
Proof. intros Hr Hop. by apply (frag_ins _ _ _ _ _ _ _ (λ pc stack, Step_Next pc (rev ws ++ stack))). Qed.

Lemma frag_return b op span us st v st' :
  ready st →
  (∀ mst, R st mst → ∃ mst' N, R_env st' mst' ∧ ∀ F fuel stack, (N ≤ F)%nat → (N ≤ fuel)%nat →
     step_op (execute F) fuel op span (rev us ++ stack) b mst = Done (Step_Return v) mst') →
  frag b [ins op span] us st (Leaves (Flow_Return v)) st'.
Proof. intros Hr Hop. by apply (frag_ins _ _ _ _ _ _ _ (λ _ _, Step_Return v)). Qed.

(** An instruction that only works on the stack. *)
Lemma frag_stack b op span us st ws :
  ready st →
  (∀ mst exec fuel stack, R st mst → plain mst → step_op exec fuel op span (rev us ++ stack) b mst
     = Done (Step_Next (b + 1) (rev ws ++ stack)) mst) →
  frag b [ins op span] us st (Gives ws) st.
Proof.
  intros Hr Hop. apply frag_op; [done|]. intros mst HR. exists mst, 0%nat. split; [done|].
  intros F fuel stack _ _. apply Hop; [done|]. eapply R_plain; [done|apply Hr].
Qed.

Lemma frag_pop b span us v st : ready st → frag b [ins Op_Pop span] (us ++ [v]) st (Gives us) st.
Proof.
  intros Hr. apply frag_stack; [done|]. intros mst exec fuel stack _ _.
  rewrite rev_unit. cbn [step_op tail app]. unfold next. cbn [charges_memory].
  by destruct (rev us ++ stack).
Qed.

Lemma frag_constant b span us l st :
  ready st → frag b [ins (Op_Constant l) span] us st (Gives (us ++ [literal_value l])) st.
Proof.
  intros Hr. apply frag_stack; [done|]. intros mst exec fuel stack _ Hp. cbn [step_op].
  rewrite rev_unit. apply next_plain; [done|]. by destruct l; eexists.
Qed.

(** An instruction that jumps forward. *)
Lemma frag_over b op span g h us st r st' :
  ready st →
  (∀ mst exec fuel stack, R st mst → step_op exec fuel op span (rev us ++ stack) b mst
     = Done (Step_Next (b + 1 + len g) (rev us ++ stack)) mst) →
  frag (b + 1 + len g) h us st r st' → frag b (ins op span :: g ++ h) us st r st'.
Proof.
  intros [Hp _] Hop Hh mst HR. destruct (Hh mst HR) as (mst' & HR' & L). exists mst'.
  split; [done|]. intros code stack [Hi [Hg Ha]%at_app]%at_cons.
  eapply leads_trans.
  - eapply leads_step; [exact Hi|by eapply R_plain|]. exists 0%nat. intros F fuel _ _. by apply Hop.
  - cbn [after_step]. rewrite len_cons, len_app, !N.add_assoc. by apply L.
Qed.

Lemma frag_jump b t span g h us st r st' :
  ready st → t = b + 1 + len g →
  frag t h us st r st' → frag b (ins (Op_Jump t) span :: g ++ h) us st r st'.
Proof. intros Hr ->. by apply frag_over. Qed.

Lemma frag_if_false b t span g h us st r st' :
  ready st → t = b + 1 + len g → frag t h (us ++ [V_Bool false]) st r st' →
  frag b (ins (Op_JumpIfFalse t) span :: g ++ h) (us ++ [V_Bool false]) st r st'.
Proof. intros Hr ->. apply frag_over; [done|]. intros. by rewrite rev_unit. Qed.

Lemma frag_if_true b t span us st :
  ready st → frag b [ins (Op_JumpIfFalse t) span] (us ++ [V_Bool true]) st (Gives (us ++ [V_Bool true])) st.
Proof. intros Hr. apply frag_stack; [done|]. intros. by rewrite rev_unit. Qed.

(** ** Chunks *)

(** The end of a chunk and of a block: its promises end. *)
Definition ended st st' : Interp W :=
  set_promises (take (length (active_promises st)) (active_promises st')) st'.

Definition reach_flow (r : reach) : VmFlow :=
  match r with
  | Gives vs => Flow_Continue (default V_Null (head (rev vs)))
  | Leaves flow => flow
  end.

Lemma related_promises r st mst ps : related r st mst → related r (set_promises ps st) (set_promises ps mst).
Proof using Type.
  destruct r; [intros (fs & -> & Hf); by exists fs|intros (fs & env & -> & Hf); by exists fs, env].
Qed.
Lemma related_active r st mst : related r st mst → active_promises mst = active_promises st.
Proof using Type. by destruct r; [intros (fs & -> & _)|intros (fs & env & -> & _)]. Qed.

Lemma frag_chunk v f st r st' mst :
  frag 0 f [] st r st' → R st mst →
  ∃ mst' N, related r (ended st st') mst' ∧
    ∀ F, (N ≤ F)%nat → execute F (mkChunk v f) mst = Done (reach_flow r) mst'.
Proof.
  intros Hf HR. destruct (Hf mst HR) as (mst1 & HR1 & L).
  destruct (L f []) as (n & N & HN). { exists [], []. by rewrite app_nil_r. }
  rewrite N.add_0_l in HN.
  exists (set_promises (take (length (active_promises mst)) (active_promises mst1)) mst1), (S (n + N)).
  split.
  - unfold ended. rewrite (related_active (Gives []) _ _ HR), (related_active _ _ _ HR1).
    by apply related_promises.
  - intros [|F] HF; [lia|]. cbn [execute_with]. unfold execute_chunk_vm, finally.
    cbv [mbind M_bind get]. cbn [chunk_code].
    specialize (HN F (F - n)%nat). replace (n + (F - n))%nat with F in HN by lia.
    cbn [resume rev app] in HN. rewrite HN by lia. destruct r as [ws|flow]; cbn [ends_at resume]; [|done].
    destruct (F - n)%nat; cbn [run]; rewrite N.ltb_irrefl; unfold check_cancelled;
      cbv [mbind M_bind get]; rewrite never_cancelled; by rewrite app_nil_r.
Qed.

(** ** Text literals *)

(** What rendering a value looks at. *)
Definition same_view st st' : Prop :=
  scopes st' = scopes st ∧ environment st' = environment st ∧ functions st' = functions st ∧
  payload_limit st' = payload_limit st.
#[local] Instance same_view_preorder : PreOrder same_view.
Proof. split; unfold same_view; [done|]. intros a b c ??. naive_solver congruence. Qed.

Lemma text_hole_view st st' v span :
  same_view st st' → text_hole_string st' v span = text_hole_string st v span.
Proof using Type.
  intros (Hs & He & Hf & _). unfold text_hole_string, text_of, lookup_type, lookup_name.
  by rewrite Hs, He, Hf.
Qed.

Section quiet_view.
Context (exec : FunctionBody → M W VmFlow) (fuel : nat).
Context (get_member : N → Value → string → Span → result NivError Value).

Lemma view_charge span : keeps (W := W) same_view (charge span).
Proof.
  intros st a st'. unfold charge. cbv [mbind M_bind get].
  destruct (instruction_budget st) as [[|n]|]; [done|by intros [= <- <-]..].
Qed.
Lemma view_finish span v : keeps (W := W) same_view (finish span v).
Proof.
  intros st a st' (u & st1 & Hc & [= <- <-])%bind_Done. revert Hc. unfold charge_memory.
  cbv [mbind M_bind get]. destruct (value_bytes _ v); [|done].
  destruct (memory_budget st); [case_match; [|done]|]; by intros [= <- <-].
Qed.
Lemma view_fresh : keeps (W := W) same_view fresh.
Proof. by intros st a st' [= <- <-]. Qed.
#[local] Hint Resolve view_charge view_finish view_fresh : keep.
#[local] Hint Resolve same_view_preorder : typeclass_instances.

Lemma keeps_part (R : Interp W → Interp W → Prop) `{!PreOrder R} m k :
  keeps R m → (∀ v, keeps R (k v)) → keeps R (part m k).
Proof using Type. intros. unfold part. keep. Qed.
Lemma keeps_parts (R : Interp W → Interp W → Prop) `{!PreOrder R} ev es acc k :
  Forall (λ e, keeps R (ev e)) es → (∀ vs, keeps R (k vs)) → keeps R (parts ev es acc k).
Proof using Type.
  intros He Hk. revert acc. induction He as [|e es He _ IH]; intros acc; cbn; [apply Hk|].
  by apply keeps_part.
Qed.
Lemma keeps_push_piece (R : Interp W → Interp W → Prop) `{!PreOrder R} span output text k :
  (∀ o, keeps R (k o)) → keeps R (push_piece span output text k).
Proof using Type. intros. unfold push_piece. keep. Qed.
Lemma keeps_each_piece (R : Interp W → Interp W → Prop) piece ps output k :
  Forall (λ p, ∀ output k, (∀ o, keeps R (k o)) → keeps R (piece p output k)) ps →
  (∀ o, keeps R (k o)) → keeps R (each_piece piece ps output k).
Proof using Type.
  intros Hps Hk. revert output. induction Hps as [|p ps Hp _ IH]; intros output; cbn; [done|].
  by apply Hp.
Qed.

Ltac view :=
  repeat first
    [ solve [eauto with keep typeclass_instances]
    | apply keeps_part; [apply _| |intros ?]
    | apply keeps_bind; [apply _| |intros ?]
    | match goal with |- keeps _ (match ?x with _ => _ end) => destruct x end ].

Lemma quiet_view e : quiet e = true → keeps same_view (evaluate exec fuel get_member e).
Proof.
  induction e using Expr_nested_ind with (Q := λ _, True)
    (R := λ p, quiet_piece p = true → ∀ span output k, (∀ o, keeps same_view (k o)) →
            keeps same_view (evaluate_piece exec fuel get_member span p output k)).
  all: try done; cbn [quiet quiet_piece]; rewrite ?andb_true_iff, ?forallb_forall; intros Hq.
  all: lazymatch goal with
    | |- keeps _ (evaluate _ _ _ (Expr_Text _ _)) => rewrite evaluate_text_eq
    | _ => cbn [evaluate evaluate_piece]
    end.
  all: try (apply keeps_bind; [apply _|apply view_charge|intros _]).
  all: try (try destruct Hq; unfold lift_r; view; fail).
  all: try match goal with Hf : Forall _ _ |- _ => rewrite Forall_forall in Hf end.
  - apply keeps_each_piece; [|intros output; view]. apply Forall_forall. intros p Hin.
    match goal with Hf : ∀ x, _ ∈ _ → _ |- _ => apply Hf; [done|] end.
    by apply Hq, list_elem_of_In.
  - apply keeps_parts; [apply _| |intros vs; view]. apply Forall_forall. intros e Hin.
    match goal with Hf : ∀ x, _ ∈ _ → _ |- _ => apply Hf; [done|] end.
    by apply Hq, list_elem_of_In.
  - intros. by apply keeps_push_piece; [apply _|].
  - intros. apply keeps_part; [apply _|auto|intros v].
    do 2 (apply keeps_bind; [apply _|eauto with keep typeclass_instances|intros ?]).
    by apply keeps_push_piece; [apply _|].
Qed.

End quiet_view.

(** ** Evaluation *)

(** What an expression's value means for its code. *)
Definition value_reach (v : Value) : reach :=
  match v with V_EarlyReturn w => Leaves (Flow_Return w) | v => Gives [v] end.

Lemma value_reach_clean v : clean v = true → value_reach v = Gives [v].
Proof using Type. by destruct v. Qed.

Section simulation.
Context (F0 : nat).
Hypothesis bodies : bodies_agree F0.
#[local] Notation exec0 := (execute_with strict_rules F0).
#[local] Notation eval := (evaluate exec0 F0 distinct_get).

Lemma eval_ready e st v st' :
  eval e st = Done v st' → ready st → ready st' ∧ passing v.
Proof using HostQuiet0 HostBlind0 HostClean0.
  intros E [Hp Ht].
  destruct (gives_evaluate exec0 (gives_strict F0) F0 distinct_get strict_clean e _ _ _ Ht E)
    as (Ht' & _ & Hv).
  split; [split|]; [|done..]. eapply stays_plain, Hp. eapply keeps_evaluate; [|exact E].
  intros. apply keeps_execute.
Qed.

Lemma fresh_ready st a st' : fresh st = Done a st' → ready st → ready st'.
Proof using Type.
  intros E [Hp Ht]. destruct (gives_fresh _ _ _ Ht E) as (? & _). split; [|done]. by injection E as <- <-.
Qed.

(** Evaluation is matched by the code of the expression. *)
Definition agrees (e : Expr) : Prop :=
  ∀ b f st v st', gen_expr b e = Some f → ready st → eval e st = Done v st' →
    frag b f [] st (value_reach v) st'.

(** A part, with [us] already on the stack. *)
Lemma part_frag e us b f g st k v st' :
  agrees e → gen_expr b e = Some f → ready st → part (eval e) k st = Done v st' →
  (∀ w st1, eval e st = Done w st1 → ready st1 → clean w = true → k w st1 = Done v st' →
     frag (b + len f) g (us ++ [w]) st1 (value_reach v) st') →
  frag b (f ++ g) us st (value_reach v) st'.
Proof.
  intros A G Hr (w & st1 & E & Hk)%bind_Done Hg. destruct (eval_ready _ _ _ _ E Hr) as [Hr1 Hw].
  pose proof (frag_below us _ _ _ _ _ _ (A _ _ _ _ _ G Hr E)) as Hf. rewrite app_nil_r in Hf.
  destruct (is_early w) eqn:He.
  - injection Hk as -> ->. destruct v; try done. by apply frag_leaves.
  - apply (passing_clean _ Hw) in He. rewrite value_reach_clean in Hf by done.
    eapply frag_seq; [exact Hf|]. by apply Hg.
Qed.

Lemma parts_frag es us b f g acc st k v st' :
  Forall agrees es → gen_seq gen_expr b es = Some f → ready st →
  parts eval es acc k st = Done v st' →
  (∀ vs st1, len vs = len es → ready st1 → forallb clean vs = true →
     k (acc ++ vs) st1 = Done v st' → frag (b + len f) g (us ++ vs) st1 (value_reach v) st') →
  frag b (f ++ g) us st (value_reach v) st'.
Proof.
  intros Ha. revert us b f acc st. induction Ha as [|e es He _ IH]; intros us b f acc st G Hr Hp Hg.
  - injection G as <-. rewrite len_nil, N.add_0_r in Hg. specialize (Hg [] st). rewrite !app_nil_r in Hg.
    by apply Hg.
  - cbn in G. destruct (gen_expr b e) as [f1|] eqn:G1; [|done]. cbn in G.
    destruct (gen_seq gen_expr (b + len f1) es) as [f2|] eqn:G2; [|done]. injection G as <-.
    rewrite <- app_assoc. eapply part_frag; [done..|exact Hp|]. cbn beta. intros w st1 E Hr1 Hw Hk.
    eapply IH; [done..|exact Hk|]. intros vs st2 Hl Hr2 Hvs Hk2.
    specialize (Hg (w :: vs) st2). rewrite len_app, N.add_assoc in Hg. rewrite <- app_assoc in *.
    apply Hg; [by rewrite !len_cons, Hl|done|cbn; by rewrite Hw|done].
Qed.

(** The node is entered: its charge is free. *)
Lemma enter_Done {A} span (m : M W A) st a st' :
  ready st → (_ ← charge span; m) st = Done a st' → m st = Done a st'.
Proof using Type. intros [Hp _]. cbv [mbind M_bind]. by rewrite charge_plain. Qed.

(** The last instruction of a node. *)
Lemma frag_last b op span' us st0 st span v w st' :
  ready st0 → ready st → clean v = true → finish span v st = Done w st' →
  (∀ mst, R st0 mst → ∃ mst' N, R st mst' ∧ ∀ F fuel stack, (N ≤ F)%nat → (N ≤ fuel)%nat →
     step_op (execute F) fuel op span' (rev us ++ stack) b mst = next op span' b (v :: stack) mst') →
  frag b [ins op span'] us st0 (value_reach w) st'.
Proof.
  intros Hr0 [Hp Ht] Hv (-> & -> & Hc)%finish_Done Hop; [|done]. rewrite value_reach_clean by done.
  apply frag_op; [done|]. intros mst HR. destruct (Hop mst HR) as (mst' & N & HR' & HN).
  exists mst', N. split; [done|]. intros F fuel stack HF Hfuel. rewrite HN by done.
  apply next_plain; [by eapply R_plain|done].
Qed.

(** The last instruction of a node that leaves the state alone. *)
Lemma frag_pure b op span' us st span v w st' :
  ready st → clean v = true → finish span v st = Done w st' →
  (∀ mst exec fuel stack, R st mst →
     step_op exec fuel op span' (rev us ++ stack) b mst = next op span' b (v :: stack) mst) →
  frag b [ins op span'] us st (value_reach w) st'.
Proof.
  intros Hr Hv Hf Hop. eapply frag_last; [done..|]. intros mst HR. exists mst, 0%nat.
  split; [done|]. intros F fuel stack _ _. by apply Hop.
Qed.

Ltac gen G f :=
  match type of G with
  | context [gen_expr ?b ?e] => destruct (gen_expr b e) as [f|] eqn:?G; [|done]
  | context [gen_seq ?g ?b ?e] => destruct (gen_seq g b e) as [f|] eqn:?G; [|done]
  end; cbn [mbind option_bind] in G.
Ltac node Hg He Hr := cbn [gen_expr] in Hg; cbn [evaluate] in He; apply enter_Done in He; [|exact Hr].

Lemma agrees_literal l span : agrees (Expr_Literal l span).
Proof.
  intros b f st v st' Hg Hr He. node Hg He Hr. injection Hg as <-.
  eapply frag_pure; [done|apply clean_literal|done|]. done.
Qed.

Lemma agrees_variable name span : agrees (Expr_Variable name span).
Proof.
  intros b f st v st' Hg Hr He. node Hg He Hr. injection Hg as <-.
  apply bind_Done in He as (? & ? & [= <- <-] & He). apply bind_Done in He as (w & ? & Hl & He).
  apply lift_Done in Hl as [Hl ->]. destruct (lookup_name st name) as [x|] eqn:Hx; [|done].
  injection Hl as ->. eapply frag_pure; [done|eapply lookup_clean; [apply Hr|done]|done|].
  intros mst exec fuel stack (fs & -> & _). cbn [step_op]. cbv [mbind M_bind get].
  replace (lookup_name (set_functions fs st) name) with (Some w) by (by symmetry). done.
Qed.

Lemma agrees_assign name e span : agrees e → agrees (Expr_Assign name e span).
Proof.
  intros A b f st v st' Hg Hr He. node Hg He Hr. gen Hg g. injection Hg as <-.
  eapply part_frag; [done..|exact He|]. cbn beta. intros w st1 _ Hr1 Hw Hk.
  apply bind_Done in Hk as (? & ? & [= <- <-] & Hk). apply bind_Done in Hk as ([] & st2 & Ha & Hk).
  assert (ready st2) as Hr2.
  { destruct Hr1 as [Hp1 Ht1]. split; [by eapply stays_plain; [by eapply keeps_assign|]|].
    by eapply gives_assign. }
  eapply frag_last; [done..|]. intros mst HR.
  destruct (R_blind _ _ _ _ _ (blind_assign _ _ _ _ _) HR Ha) as (mst' & Ha' & HR').
  exists mst', 0%nat. split; [done|]. intros F fuel stack _ _.
  cbn [app rev step_op peek unwrap head]. cbv [mbind M_bind get mret M_ret].
  destruct HR as (fs & -> & _). cbn [scopes environment set_functions]. by rewrite Ha'.
Qed.

Lemma agrees_unary o e span : agrees e → agrees (Expr_Unary o e span).
Proof.
  intros A b f st v st' Hg Hr He. node Hg He Hr. gen Hg g. injection Hg as <-.
  eapply part_frag; [done..|exact He|]. cbn beta. intros w st1 _ Hr1 Hw Hk.
  apply bind_Done in Hk as (r & st2 & Ho & Hk).
  assert (st2 = st1 ∧ clean r = true ∧ ∀ mst, (match o with
            | Tk_Minus => lift (negate w span)
            | Tk_Bang => b ← lift (expect_bool w span); mret (V_Bool (negb b))
            | _ => panic end) mst = Done r mst) as (-> & Hc & Ho').
  { destruct o; try done.
    - apply lift_Done in Ho as [Hn ->]. rewrite Hn. split_and!; [done|by eapply clean_negate|done].
    - apply bind_Done in Ho as (? & ? & [Hb ->]%lift_Done & [= <- ->]). rewrite Hb. done. }
  eapply frag_pure; [done..|]. intros mst exec fuel stack _.
  cbn [rev app step_op pop]. cbv [mbind M_bind mret M_ret] in *. by rewrite Ho'.
Qed.

Lemma agrees_binary e1 o e2 span : agrees e1 → agrees e2 → agrees (Expr_Binary e1 o e2 span).
Proof.
  intros A1 A2 b f st v st' Hg Hr He. node Hg He Hr. gen Hg f1. gen Hg f2. injection Hg as <-.
  eapply (part_frag e1); [done..|exact He|]. cbn beta. intros v1 st1 _ Hr1 Hv1 Hk.
  eapply (part_frag e2); [done..|exact Hk|]. cbn beta. intros v2 st2 _ Hr2 Hv2 Hk2.
  apply bind_Done in Hk2 as (r & st3 & Ho & Hk2). apply bind_Done in Ho as (r' & st4 & Hu & Ho).
  destruct (binary v1 o v2 span) as [res|] eqn:Hb; [|done]. injection Hu as <- <-.
  apply lift_Done in Ho as [-> ->]. eapply frag_pure; [done|by eapply clean_binary|done|].
  intros mst exec fuel stack _. cbn [rev app step_op pop]. cbv [mbind M_bind mret M_ret].
  assert (is_binary_operator o = true) as Ho by (eapply binary_operator; by eexists).
  cbn [pop]. cbv [mret M_ret]. destruct v1; try (by rewrite Hb). destruct v2; try (by rewrite Hb).
  rewrite binary_int in Hb by done. by rewrite Hb.
Qed.

Lemma agrees_index e1 e2 span : agrees e1 → agrees e2 → agrees (Expr_Index e1 e2 span).
Proof.
  intros A1 A2 b f st v st' Hg Hr He. node Hg He Hr. gen Hg f1. gen Hg f2. injection Hg as <-.
  eapply (part_frag e1); [done..|exact He|]. cbn beta. intros v1 st1 _ Hr1 Hv1 Hk.
  eapply (part_frag e2); [done..|exact Hk|]. cbn beta. intros v2 st2 _ Hr2 Hv2 Hk2.
  apply bind_Done in Hk2 as (i & ? & [Hi ->]%lift_Done & Hk2).
  apply bind_Done in Hk2 as (r & ? & [Hx ->]%lift_Done & Hk2).
  eapply frag_pure; [done|exact (clean_index _ _ _ _ Hv1 Hx)|done|].
  intros mst exec fuel stack _. cbn [rev app step_op pop]. cbv [mbind M_bind mret M_ret].
  rewrite Hi. cbn [lift pop]. cbv [mret M_ret]. by rewrite Hx.
Qed.

Lemma agrees_get e name span : agrees e → agrees (Expr_Get e name span).
Proof.
  intros A b f st v st' Hg Hr He. node Hg He Hr. gen Hg g. injection Hg as <-.
  eapply part_frag; [done..|exact He|]. cbn beta. intros w st1 _ Hr1 Hw Hk.
  apply bind_Done in Hk as (ref & st2 & Hf & Hk).
  apply bind_Done in Hk as (r & ? & [Hx ->]%lift_Done & Hk).
  pose proof (fresh_ready _ _ _ Hf Hr1) as Hr2.
  eapply frag_last; [done..|exact (strict_clean _ _ _ _ _ Hw Hx)|done|]. intros mst HR.
  destruct (R_blind _ _ _ _ _ blind_fresh HR Hf) as (mst' & Hf' & HR'). exists mst', 0%nat.
  split; [done|]. intros F fuel stack _ _. cbn [rev app step_op pop]. cbv [mbind M_bind mret M_ret].
  rewrite Hf'. by rewrite (distinct_machine _ _ _ _ _ Hx).
Qed.

Lemma agrees_propagate e span : agrees e → agrees (Expr_Propagate e span).
Proof.
  intros A b f st v st' Hg Hr He. node Hg He Hr. gen Hg g. injection Hg as <-.
  eapply part_frag; [done..|exact He|]. cbn beta. intros w st1 _ Hr1 Hw Hk.
  destruct w as [ | | | | | | | | | | | | | | | | | | | | | | | | |w|w| | | ]; try done.
  - eapply frag_pure; [done|exact (Hw : clean w = true)|exact Hk|done].
  - apply finish_Done in Hk as (-> & -> & _); [|apply Hr1]. cbn [value_reach].
    apply frag_return; [done|]. intros mst HR. exists mst, 0%nat. split; [by apply R_R_env|done].
Qed.

(** ** Sequences and calls *)

Lemma split_off_rev n vs (stack : Stack) mst :
  n = len vs → split_off n (rev vs ++ stack) mst = Done (vs, stack) mst.
Proof using Type.
  intros ->. unfold split_off. rewrite len_app. unfold len. rewrite length_rev.
  rewrite (proj2 (N.leb_le _ _)) by lia. rewrite Nat2N.id.
  rewrite take_app_length', drop_app_length' by (by rewrite length_rev). by rewrite rev_involutive.
Qed.

(** A call as [evaluate] makes it. *)
Lemma call_frag c es b f g st span v st' op span' :
  agrees c → Forall agrees es → gen_expr b c = Some f → gen_seq gen_expr (b + len f) es = Some g →
  ready st →
  (∀ exec fuel stack pc mst, step_op exec fuel op span' stack pc mst
     = step_call exec fuel op (len es) span' pc stack mst) →
  part (eval c) (λ callee, parts eval es [] (λ arguments,
      v ← call exec0 F0 callee arguments span; finish span v)) st = Done v st' →
  frag b (f ++ g ++ [ins op span']) [] st (value_reach v) st'.
Proof.
  intros Ac Aes Gc Ges Hr Hop He. eapply (part_frag c); [done..|exact He|]. cbn beta.
  intros callee st1 _ Hr1 Hcl Hk. eapply (parts_frag es); [done..|exact Hk|]. cbn beta.
  intros vs st2 Hl Hr2 Hvs Hk2. apply bind_Done in Hk2 as (w & st3 & Hc & Hk2).
  destruct (call_ready _ _ _ _ _ _ _ _ Hvs Hc Hr2) as [Hr3 Hw].
  apply finish_Done in Hk2 as (-> & -> & Hch); [|apply Hr3]. rewrite value_reach_clean by done.
  apply frag_op; [done|]. intros mst HR.
  destruct (call_sim F0 F0 callee vs span span' bodies Hvs _ _ _ _ Hr2 HR Hc) as (mst' & n & HR' & Hn).
  exists mst', n. split; [done|]. intros F fuel stack HF Hfuel. rewrite Hop. unfold step_call.
  cbn [rev app]. rewrite <- app_assoc. cbv [mbind M_bind]. rewrite split_off_rev by done.
  cbn [pop app]. cbv [mret M_ret]. rewrite Hn by done.
  assert (plain mst') by (eapply R_plain; [done|apply Hr3]).
  destruct callee; try (by apply next_plain). done.
Qed.

Lemma agrees_call c es labels span :
  agrees c → Forall agrees es → agrees (Expr_Call c es labels span).
Proof.
  intros Ac Aes b f st v st' Hg Hr He. node Hg He Hr. gen Hg f1. gen Hg f2. injection Hg as <-.
  by eapply call_frag.
Qed.

Lemma agrees_array es span : Forall agrees es → agrees (Expr_Array es span).
Proof.
  intros Aes b f st v st' Hg Hr He. node Hg He Hr. gen Hg g. injection Hg as <-.
  eapply parts_frag; [done..|exact He|]. cbn beta. intros vs st1 Hl Hr1 Hvs Hk.
  eapply frag_pure; [done| |exact Hk|]; [exact Hvs|]. intros mst exec fuel stack _.
  cbn [step_op app]. cbv [mbind M_bind]. by rewrite split_off_rev.
Qed.

(** The value of a part, with more code behind. *)
Lemma whole_frag e b f g st v st' :
  agrees e → gen_expr b e = Some f → ready st → eval e st = Done v st' →
  (ready st' → clean v = true → frag (b + len f) g [v] st' (Gives [v]) st') →
  frag b (f ++ g) [] st (value_reach v) st'.
Proof.
  intros A G Hr E Hg. destruct (eval_ready _ _ _ _ E Hr) as [Hr' Hv].
  pose proof (A _ _ _ _ _ G Hr E) as Hf. destruct (is_early v) eqn:He.
  - destruct v; try done. by apply frag_leaves.
  - apply (passing_clean _ Hv) in He. rewrite value_reach_clean in * by done.
    eapply frag_seq; [done|auto].
Qed.

Lemma finish_eval e span st w st1 v st' :
  ready st → eval e st = Done w st1 → finish span w st1 = Done v st' → v = w ∧ st' = st1.
Proof using HostQuiet0 HostBlind0 HostClean0.
  intros Hr E Hf. destruct (eval_ready _ _ _ _ E Hr) as [[Hp _] _].
  by apply finish_Done in Hf as (-> & -> & _).
Qed.

Lemma agrees_perform e span : agrees e → call_parts agrees e → agrees (Expr_Perform e span).
Proof.
  intros A Hparts b f st v st' Hg Hr He. node Hg He Hr.
  apply bind_Done in He as (w & st1 & E & He). destruct (finish_eval _ _ _ _ _ _ _ Hr E He) as [-> ->].
  assert (∀ g, gen_expr b e = Some g → frag b (g ++ [ins Op_Perform span]) [] st (value_reach w) st1)
    as Hother.
  { intros g G. eapply whole_frag; [done..|]. intros Hr1 _. by apply frag_stack. }
  destruct e as [ | | | | | | |c es ls sp| | | | | | | | ];
    try (destruct (gen_expr b _) as [g|] eqn:G in Hg; [|done]; injection Hg as <-; by apply Hother).
  destruct Hparts as [Ac Aes]. gen Hg f1. gen Hg f2. injection Hg as <-.
  cbn [evaluate] in E. apply enter_Done in E; [|done]. by eapply call_frag.
Qed.

Lemma agrees_through input stage span :
  agrees input → agrees stage → call_parts agrees stage →
  agrees (Expr_Through input stage span).
Proof.
  intros Ai As Hparts b f st v st' Hg Hr He. cbn [evaluate] in He. apply enter_Done in He; [|done].
  (* the lowered call *)
  assert (∀ c es ls, agrees c → Forall agrees es →
    gen_expr b (Expr_Call c (input :: es) ls span) = Some f →
    (w ← (_ ← charge span;
          part (eval c) (λ callee, part (eval input) (λ i, parts eval es [i] (λ arguments,
            v ← call exec0 F0 callee arguments span; finish span v))));
     finish span w) st = Done v st' → frag b f [] st (value_reach v) st') as Hcall.
  { intros c es ls Ac Aes Hg' (w & st1 & E & He')%bind_Done.
    assert (eval (Expr_Call c (input :: es) ls span) st = Done w st1) as E' by exact E.
    destruct (finish_eval _ _ _ _ _ _ _ Hr E' He') as [-> ->].
    by apply (agrees_call c (input :: es) ls span Ac ltac:(by constructor) b f st w st1). }
  destruct stage as [ | |n sp| | | | |c es ls sp| | | | | | |o n sp| ]; try done.
  - apply (Hcall (Expr_Variable n sp) [] None); [done..| |exact He].
    cbn [gen_expr gen_seq mbind option_bind] in *.
    destruct (gen_expr _ input); [|done]. cbn [mbind option_bind] in *. by rewrite app_nil_r.
  - destruct Hparts as [Ac Aes]. apply (Hcall c es ls); [done..| |exact He].
    cbn [gen_expr gen_seq] in *. destruct (gen_expr b c); [|done]. cbn [mbind option_bind] in *.
    destruct (gen_expr _ input); [|done]. cbn [mbind option_bind] in *.
    destruct (gen_seq _ _ es); [|done]. cbn [mbind option_bind] in *.
    by rewrite <- ?app_assoc, ?len_cons.
  - apply (Hcall (Expr_Get o n sp) [] None); [done..| |exact He].
    cbn [gen_expr gen_seq] in *. destruct (gen_expr b o); [|done]. cbn [mbind option_bind] in *.
    destruct (gen_expr _ input); [|done]. cbn [mbind option_bind] in *. by rewrite app_nil_r.
Qed.

(** ** Branches *)

Lemma bool_value v span x : expect_bool v span = Ok x → v = V_Bool x.
Proof using Type. destruct v; cbn; congruence. Qed.

(** The right operand of a logical operator, after the left one is dropped. *)
Lemma logical_right e2 b b2 f x st span span' v st' :
  agrees e2 → gen_expr b2 e2 = Some f → b2 = b + 1 → ready st →
  part (eval e2) (λ rhs, rhs ← lift (expect_bool rhs span); finish span (V_Bool rhs)) st = Done v st' →
  frag b (ins Op_Pop span' :: f) [V_Bool x] st (value_reach v) st'.
Proof.
  intros A G -> Hr He. eapply frag_cons; [by apply (frag_pop b span' [])|].
  rewrite <- (app_nil_r f). eapply (part_frag e2); [done..|exact He|]. cbn beta.
  intros w st1 _ Hr1 _ Hk. apply bind_Done in Hk as (y & ? & [->%bool_value ->]%lift_Done & Hk).
  apply finish_Done in Hk as (-> & -> & _); [|apply Hr1]. apply frag_stay.
Qed.

Lemma agrees_logical e1 o e2 span :
  logical_operator o = true → agrees e1 → agrees e2 → agrees (Expr_Logical e1 o e2 span).
Proof.
  intros Ho A1 A2 b f st v st' Hg Hr He. node Hg He Hr. gen Hg f1.
  destruct o; try done; cbn [is_or] in Hg; gen Hg f2; injection Hg as <-.
  all: eapply (part_frag e1); [done..|exact He|]; cbn beta; intros w st1 _ Hr1 _ Hk;
    apply bind_Done in Hk as (x & ? & [->%bool_value ->]%lift_Done & Hk); cbn [app].
  - (* and *)
    destruct x.
    + eapply frag_cons; [by apply (frag_if_true _ _ _ [])|].
      eapply (logical_right e2); [done..|lia|done|exact Hk].
    + apply finish_Done in Hk as (-> & -> & _); [|apply Hr1].
      rewrite <- (app_nil_r f2), app_comm_cons. apply (frag_if_false _ _ _ _ _ []); [done| |apply frag_stay].
      rewrite len_cons, app_nil_r. lia.
  - (* or *)
    destruct x.
    + apply finish_Done in Hk as (-> & -> & _); [|apply Hr1].
      eapply frag_cons; [by apply (frag_if_true _ _ _ [])|].
      rewrite <- (app_nil_r f2), app_comm_cons. apply frag_jump; [done| |apply frag_stay].
      rewrite len_cons, app_nil_r. lia.
    + apply (frag_if_false _ _ _ [_] (_ :: f2) []); [done|rewrite len_cons, len_nil; lia|].
      eapply (logical_right e2); [done..|lia|done|exact Hk].
Qed.

Lemma value_eq_null v : value_eq v V_Null = true → v = V_Null.
Proof using Type. by destruct v. Qed.

Lemma agrees_coalesce e1 e2 span : agrees e1 → agrees e2 → agrees (Expr_Coalesce e1 e2 span).
Proof.
  intros A1 A2 b f st v st' Hg Hr He. node Hg He Hr. gen Hg f1. gen Hg f2. injection Hg as <-.
  eapply (part_frag e1); [done..|exact He|]. cbn beta. intros w st1 _ Hr1 Hw Hk. cbn [app].
  destruct (value_eq w V_Null) eqn:Hnull.
  - apply value_eq_null in Hnull as ->. apply bind_Done in Hk as (x & st2 & E2 & Hk).
    destruct (finish_eval _ _ _ _ _ _ _ Hr1 E2 Hk) as [-> ->].
    eapply frag_cons; [by apply (frag_stack _ _ _ [V_Null] _ [V_Null])|].
    eapply frag_cons; [by apply (frag_pop _ _ [])|]. eapply A2; [|done..].
    by replace (b + len f1 + 1 + 1) with (b + len f1 + 2) by lia.
  - apply finish_Done in Hk as (-> & -> & _); [|apply Hr1]. rewrite value_reach_clean by done.
    rewrite <- (app_nil_r f2), app_comm_cons. apply frag_over; [done| |apply frag_stay].
    intros mst exec fuel stack _. rewrite len_cons, app_nil_r.
    replace (b + len f1 + 1 + (1 + len f2)) with (b + len f1 + 2 + len f2) by lia. by destruct w.
Qed.

(** ** Arms *)

Lemma ended_stays st st' : stays st st' → ended st st' = st'.
Proof using Type.
  intros [_ Hp]. unfold ended. rewrite <- Hp, firstn_all. by destruct st'.
Qed.

Lemma eval_stays e st v st' : eval e st = Done v st' → stays st st'.
Proof using HostQuiet0. intros E. eapply keeps_evaluate; [|exact E]. intros. apply keeps_execute. Qed.

(** The chunk of an expression, run on its own. *)
Lemma chunk_sim e f st v st' mst :
  agrees e → gen_expr 0 e = Some f → ready st → eval e st = Done v st' → R st mst →
  ∃ mst' N, related (value_reach v) st' mst' ∧ ∀ F, (N ≤ F)%nat →
    execute F (mkChunk BYTECODE_VERSION f) mst = Done (reach_flow (value_reach v)) mst'.
Proof.
  intros A G Hr E HR. rewrite <- (ended_stays st st') by by eapply eval_stays.
  by apply frag_chunk; [eapply A|].
Qed.

Lemma related_env r st mst : related r st mst → R_env st mst.
Proof using Type. destruct r; [apply R_R_env|done]. Qed.

(** An arm whose guard and value agree. *)
Definition arm_agrees (a : MatchArm) : Prop :=
  match a with
  | mkMatchArm _ guard value _ => from_option agrees True guard ∧ agrees value
  end.

(** What [evaluate_arm] runs in the arm's scope. *)
Definition arm_body (guard : option Expr) (value : Expr) (span : Span) : M W (option Value) :=
  let body := v ← eval value; mret (Some v) in
  match guard with
  | None => body
  | Some guard =>
      decision ← eval guard;
      if is_early decision then mret (Some decision)
      else b ← lift (expect_bool decision span);
           if b : bool then body else mret None
  end.

Definition value_flow (v : Value) : VmFlow := reach_flow (value_reach v).

Lemma value_flow_clean v : clean v = true → value_flow v = Flow_Continue v.
Proof using Type. by destruct v. Qed.

Lemma arm_value_sim value f st o st' mst :
  agrees value → gen_expr 0 value = Some f → ready st → R st mst →
  (v ← eval value; mret (Some v)) st = Done o st' →
  ready st' ∧ from_option passing True o ∧ ∃ mst' N, R_env st' mst' ∧ ∀ F, (N ≤ F)%nat →
    (flow ← execute F (mkChunk BYTECODE_VERSION f); mret (Some flow)) mst
    = Done (value_flow <$> o) mst'.
Proof.
  intros A G Hr HR (v & st2 & E & [= <- ->])%bind_Done.
  destruct (eval_ready _ _ _ _ E Hr) as [Hr' Hv]. split_and!; [done..|].
  destruct (chunk_sim _ _ _ _ _ _ A G Hr E HR) as (mst' & N & HR' & HN).
  exists mst', N. split; [by eapply related_env|]. intros F HF. cbv [mbind M_bind]. by rewrite HN.
Qed.

Lemma arm_body_sim ps guard value s span a st o st' mst :
  arm_agrees (mkMatchArm ps guard value s) → gen_arm (mkMatchArm ps guard value s) = Some a →
  ready st → R st mst → arm_body guard value span st = Done o st' →
  ready st' ∧ from_option passing True o ∧ ∃ g b mst' N, a = mkArm ps g b s ∧ R_env st' mst' ∧
    ∀ F, (N ≤ F)%nat → run_arm (execute F) b g span mst = Done (value_flow <$> o) mst'.
Proof.
  intros [Ag Av] Hga Hr HR Hb. cbn [gen_arm] in Hga. gen Hga f.
  destruct guard as [g|]; cbn [arm_body] in Hb; cbn [from_option] in Ag.
  - gen Hga fg. injection Hga as <-. apply bind_Done in Hb as (d & st1 & Eg & Hb).
    destruct (eval_ready _ _ _ _ Eg Hr) as [Hr1 Hd].
    destruct (chunk_sim _ _ _ _ _ _ Ag Hga1 Hr Eg HR) as (mst1 & N1 & HR1 & HN1).
    destruct (is_early d) eqn:He.
    + injection Hb as <- <-. split_and!; [done..|]. eexists _, _, mst1, N1. split_and!; [done|by eapply related_env|].
      intros F HF. unfold run_arm. cbv [mbind M_bind]. rewrite HN1 by done. by destruct d.
    + apply (passing_clean _ Hd) in He. rewrite value_reach_clean in HR1, HN1 by done.
      change (reach_flow (Gives [d])) with (Flow_Continue d) in HN1.
      apply bind_Done in Hb as (x & ? & [Hx ->]%lift_Done & Hb). destruct x.
      * destruct (arm_value_sim _ _ _ _ _ mst1 Av Hga0 Hr1 HR1 Hb) as (Hr' & Ho & mst' & N & HR' & HN).
        split_and!; [done..|]. eexists _, _, mst', (N1 + N)%nat. split_and!; [done..|].
        intros F HF. unfold run_arm. cbv [mbind M_bind] in *. rewrite HN1 by lia.
        cbv beta iota. rewrite Hx. apply HN. lia.
      * injection Hb as <- <-. split_and!; [done..|]. eexists _, _, mst1, N1. split_and!; [done|by apply R_R_env|].
        intros F HF. unfold run_arm. cbv [mbind M_bind] in *. rewrite HN1 by lia.
        cbv beta iota. by rewrite Hx.
  - injection Hga as <-. destruct (arm_value_sim _ _ _ _ _ mst Av Hga0 Hr HR Hb) as (Hr' & Ho & mst' & N & HR' & HN).
    split_and!; [done..|]. eexists _, _, mst', N. split_and!; [done..|]. intros F HF. by apply HN.
Qed.

Lemma child_ready parent bindings st env st' :
  clean_bindings bindings = true → ready st →
  child_scope parent (immutable bindings) st = Done env st' → ready st'.
Proof using H HostQuiet0.
  intros Hb [Hp Ht] Hc. split.
  - eapply stays_plain; [by eapply keeps_child_scope|done].
  - eapply gives_child_scope; [|done..]. by apply immutable_clean.
Qed.

Lemma ready_environment env st : ready st → ready (set_environment env st).
Proof using Type. intros [Hp Ht]. split; [done|by apply tidy_environment]. Qed.

(** Running in another environment and coming back. *)
Lemma in_environment_R st1 st3 mst1 mst3 :
  R st1 mst1 → R_env st3 mst3 →
  R (set_environment (environment st1) st3) (set_environment (environment mst1) mst3).
Proof using Type.
  intros (fs & -> & _) HR. cbn [environment set_functions]. by apply R_env_restore.
Qed.

Lemma match_sim arms arms' subject span e st v st' mst :
  Forall arm_agrees arms → mapM gen_arm arms = Some arms' → ready st → R st mst →
  clean subject = true →
  each_arm (evaluate_arm exec0 F0 distinct_get subject span) (throw e) arms st = Done v st' →
  ready st' ∧ passing v ∧ ∃ mst' N, R st' mst' ∧ ∀ F, (N ≤ F)%nat →
    execute_match (execute F) subject arms' span mst = Done (value_flow v) mst'.
Proof.
  intros Ha. revert arms' st mst.
  induction Ha as [|[ps g val s] arms Ha _ IH]; intros arms' st mst Hm Hr HR Hs He; [done|].
  cbn [mapM] in Hm. destruct (gen_arm _) as [a|] eqn:Ga; [|done]. cbn [mbind option_bind] in Hm.
  destruct (mapM gen_arm arms) as [as'|] eqn:Gas; [|done]. injection Hm as <-.
  cbn [each_arm evaluate_arm] in He. apply bind_Done in He as (? & ? & [= <- <-] & He).
  pose proof (first_match_R _ _ ps subject HR) as Hfm.
  assert (∃ g' b', a = mkArm ps g' b' s) as (g' & b' & ->).
  { cbn [gen_arm] in Ga. gen Ga f. destruct g as [g|]; [gen Ga fg|]; injection Ga as <-; eauto. }
  destruct (first_match st ps subject) as [bindings|] eqn:Hf.
  2: { destruct (IH _ _ _ eq_refl Hr HR Hs He) as (Hr' & Hv & mst' & N & HR' & HN).
       split_and!; [done..|]. exists mst', N. split; [done|]. intros F HF. cbn [execute_match].
       cbv [mbind M_bind get]. rewrite Hfm. by apply HN. }
  apply bind_Done in He as (env & st1 & Hc & He).
  pose proof (child_ready _ _ _ _ _ (first_match_clean _ _ _ _ Hs Hf) Hr Hc) as Hr1.
  destruct (R_blind _ _ _ _ _ (blind_child_scope _ _) HR Hc) as (mst1 & Hc' & HR1).
  apply bind_Done in He as (o & st2 & (st3 & Hb & ->)%in_environment_Done & He).
  change (arm_body g val span (set_environment env st1) = Done o st3) in Hb.
  destruct (arm_body_sim _ _ _ _ span _ _ _ _ (set_environment env mst1) Ha Ga
    (ready_environment env _ Hr1) (R_environment _ _ env HR1) Hb)
    as (Hr3 & Ho & g2 & b2 & mst3 & N1 & [= <- <-] & HR3 & HN1).
  pose proof (in_environment_R _ _ _ _ HR1 HR3) as HR4.
  pose proof (ready_environment (environment st1) _ Hr3) as Hr4.
  assert (∀ F, (N1 ≤ F)%nat → execute_match (execute F) subject (mkArm ps g' b' s :: as') span mst
    = match o with
      | Some v => Done (value_flow v) (set_environment (environment mst1) mst3)
      | None => execute_match (execute F) subject as' span (set_environment (environment mst1) mst3)
      end) as HF1.
  { intros F HF. cbn [execute_match]. cbv [mbind M_bind get]. rewrite Hfm.
    replace (environment mst) with (environment st) by (by destruct HR as (fs & -> & _)). rewrite Hc'.
    rewrite (proj2 (in_environment_Done env _ mst1 _ _) (ex_intro _ mst3 (conj (HN1 F HF) eq_refl))).
    by destruct o. }
  destruct o as [w|].
  - injection He as -> <-. split_and!; [done..|]. eexists _, N1. by split.
  - destruct (IH _ _ _ eq_refl Hr4 HR4 Hs He) as (Hr' & Hv & mst' & N2 & HR' & HN2).
    split_and!; [done..|]. exists mst', (N1 + N2)%nat. split; [done|]. intros F HF.
    rewrite HF1 by lia. apply HN2. lia.
Qed.

Lemma agrees_match e arms span :
  agrees e → Forall arm_agrees arms → agrees (Expr_Match e arms span).
Proof.
  intros A Aarms b f st v st' Hg Hr He. cbn [gen_expr] in Hg. gen Hg f1.
  destruct (mapM gen_arm arms) as [arms'|] eqn:G2; [|done]. injection Hg as <-.
  rewrite evaluate_match_eq in He. apply enter_Done in He; [|done].
  eapply (part_frag e); [done..|exact He|]. cbn beta. intros w st1 _ Hr1 Hw Hk.
  apply bind_Done in Hk as (x & st2 & Hm & Hk).
  pose proof (λ mst HR, match_sim _ _ _ _ _ _ _ _ mst Aarms G2 Hr1 HR Hw Hm) as Hsim.
  intros mst HR. destruct (Hsim mst HR) as (Hr2 & Hx & _).
  apply finish_Done in Hk as (-> & -> & Hch); [|apply Hr2]. revert mst HR. destruct (is_early x) eqn:Hearly.
  - destruct x as [ | | | | | | | | | | | | | | | | | | | | | | | | | | | | |r]; try done. apply frag_return; [done|]. intros mst HR.
    destruct (Hsim mst HR) as (_ & _ & mst' & N & HR' & HN). exists mst', N.
    split; [by apply R_R_env|]. intros F fuel stack HF _. cbn [app rev step_op pop].
    cbv [mbind M_bind mret M_ret]. by rewrite HN.
  - apply (passing_clean _ Hx) in Hearly. rewrite value_reach_clean by done. apply frag_op; [done|].
    intros mst HR. destruct (Hsim mst HR) as (_ & _ & mst' & N & HR' & HN). exists mst', N.
    split; [done|]. intros F fuel stack HF _. cbn [app rev step_op pop].
    cbv [mbind M_bind mret M_ret]. rewrite HN, value_flow_clean by done. cbn [push_flow].
    apply next_plain; [eapply R_plain; [done|apply Hr2]|done].
Qed.

(** ** Text literals *)

Definition piece_agrees (p : TextPiece) : Prop :=
  match p with TextPiece_Literal _ => True | TextPiece_Hole e => agrees e end.

Lemma push_piece_Done span output text k st v st' :
  push_piece span output text k st = Done v st' →
  (payload_limit st <? str_len (output +:+ text)) = false ∧ k (output +:+ text) st = Done v st'.
Proof using Type. unfold push_piece. cbv [mbind M_bind get]. by destruct (_ <? _). Qed.

(** One piece, with what it leaves on the stack. *)
Lemma piece_frag p span us b f g output k st v st' :
  piece_agrees p → gen_piece span b p = Some f → ready st →
  evaluate_piece exec0 F0 distinct_get span p output k st = Done v st' →
  (∀ w st1 text, ready st1 → stays st st1 → (quiet_piece p = true → same_view st st1) →
     (∀ st2, same_view st1 st2 ∨ (∃ s, p = TextPiece_Literal s) →
        text_hole_string st2 w span = Ok text) →
     (payload_limit st1 <? str_len (output +:+ text)) = false →
     k (output +:+ text) st1 = Done v st' →
     frag (b + len f) g (us ++ [w]) st1 (value_reach v) st') →
  frag b (f ++ g) us st (value_reach v) st'.
Proof.
  intros Ap G Hr He Hg. destruct p as [s|e]; cbn [gen_piece evaluate_piece piece_agrees] in *.
  - injection G as <-. apply push_piece_Done in He as [Hl He].
    eapply frag_cons; [by apply frag_constant|]. by apply (Hg (V_String s) st s).
  - eapply (part_frag e); [done..|exact He|]. cbn beta. intros w st1 E Hr1 _ Hk.
    apply bind_Done in Hk as (? & ? & [= <- <-] & Hk).
    apply bind_Done in Hk as (text & ? & [Ht ->]%lift_Done & Hk).
    apply push_piece_Done in Hk as [Hl Hk]. apply (Hg w st1 text); try done.
    + by eapply eval_stays.
    + intros Hq. by eapply quiet_view.
    + intros st2 [Hview|[s [=]]]. by rewrite (text_hole_view st1 st2).
Qed.

Lemma pieces_frag span ps us b f g output k st v st' :
  Forall piece_agrees ps → gen_seq (gen_piece span) b ps = Some f → ready st →
  quiet_tail ps = true ∨ forallb quiet_piece ps = true →
  each_piece (evaluate_piece exec0 F0 distinct_get span) ps output k st = Done v st' →
  (∀ vs st1 text, ready st1 → len vs = len ps → payload_limit st1 = payload_limit st →
     (forallb quiet_piece ps = true → same_view st st1) →
     make_text st1 vs output span = Ok text → k text st1 = Done v st' →
     frag (b + len f) g (us ++ vs) st1 (value_reach v) st') →
  frag b (f ++ g) us st (value_reach v) st'.
Proof.
  intros Ha. revert us b f output st.
  induction Ha as [|p ps Ap _ IH]; intros us b f output st G Hr Hq He Hg.
  { injection G as <-. rewrite len_nil, N.add_0_r in Hg. specialize (Hg [] st output).
    rewrite !app_nil_r in Hg. by apply Hg. }
  cbn in G. destruct (gen_piece span b p) as [f1|] eqn:G1; [|done]. cbn in G.
  destruct (gen_seq _ _ ps) as [f2|] eqn:G2; [|done]. injection G as <-. rewrite <- app_assoc.
  eapply (piece_frag p); [done..|exact He|]. cbn beta. intros w st1 t1 Hr1 S1 Hview1 Ht Hl Hk.
  assert (quiet_tail ps = true ∨ forallb quiet_piece ps = true) as Hq'.
  { destruct p; cbn in Hq; [by destruct Hq; [left|right]|].
    right. destruct Hq as [|[_ ?]%andb_true_iff]; done. }
  eapply IH; [done..|exact Hk|]. intros vs st2 text Hr2 Hlen Hlim Hview2 Hm Hk2.
  rewrite <- app_assoc, <- N.add_assoc, <- len_app. apply (Hg (w :: vs) st2 text); try done.
  - by rewrite !len_cons, Hlen.
  - rewrite Hlim. by destruct S1 as [(_ & _ & ?) _].
  - cbn [forallb]. intros [Hq1 Hq2]%andb_true_iff. etrans; [by apply Hview1|by apply Hview2].
  - cbn [make_text]. rewrite (Ht st2); [cbn [mbind result_bind]; by rewrite Hlim, Hl|].
    destruct p as [s|e]; [right; by eexists|left]. apply Hview2. cbn in Hq.
    destruct Hq as [|[_ ?]%andb_true_iff]; done.
Qed.

Lemma make_text_R st mst vs output span :
  R st mst → make_text mst vs output span = make_text st vs output span.
Proof using Type.
  intros HR. revert output. induction vs as [|v vs IH]; intros output; [done|]. cbn [make_text].
  rewrite (text_hole_R st mst) by done. destruct (text_hole_string st v span); [|done].
  cbn [mbind result_bind]. destruct HR as (fs & -> & Hf). cbn [payload_limit set_functions].
  destruct (_ <? _); [done|]. apply IH.
Qed.

Lemma agrees_text ps span :
  Forall piece_agrees ps → quiet_tail ps = true → agrees (Expr_Text ps span).
Proof.
  intros Ha Hq b f st v st' Hg Hr He. cbn [gen_expr] in Hg. gen Hg g. injection Hg as <-.
  rewrite evaluate_text_eq in He. apply enter_Done in He; [|done].
  eapply pieces_frag; [done..|by left|exact He|]. cbn beta.
  intros vs st1 text Hr1 Hlen _ _ Hm Hk. eapply frag_pure; [done| |exact Hk|]; [done|].
  intros mst exec fuel stack HR. cbn [app step_op]. cbv [mbind M_bind get].
  rewrite split_off_rev by done. by rewrite (make_text_R st1 mst), Hm.
Qed.

(** ** Tame expressions *)

Lemma Forall_tame {A} (t : A → bool) (P : A → Prop) l :
  Forall (λ x, t x = true → P x) l → forallb t l = true → Forall P l.
Proof using Type.
  rewrite forallb_forall, !Forall_forall. intros Hf Ht x Hx. apply Hf; [done|].
  by apply Ht, list_elem_of_In.
Qed.

Lemma tame_agrees e : tame e = true → agrees e.
Proof.
  induction e using Expr_nested_ind with (Q := λ a, tame_arm a = true → arm_agrees a)
    (R := λ p, tame_piece p = true → piece_agrees p).
  all: cbn [tame tame_piece tame_arm]; rewrite ?andb_true_iff; intros Ht.
  - apply agrees_literal.
  - destruct Ht as [Hq Ht]. apply agrees_text; [|done]. by eapply Forall_tame.
  - apply agrees_variable.
  - by apply agrees_assign, IHe.
  - by apply agrees_unary, IHe.
  - destruct Ht. apply agrees_binary; auto.
  - destruct Ht as [[? ?] ?]. apply agrees_logical; auto.
  - destruct Ht as [? ?]. apply agrees_call; [auto|]. by eapply Forall_tame.
  - apply agrees_array. by eapply Forall_tame.
  - destruct Ht. apply agrees_index; auto.
  - destruct Ht. apply agrees_coalesce; auto.
  - by apply agrees_propagate, IHe.
  - apply agrees_perform; [by apply IHe|]. destruct e; try done. cbn in Ht.
    apply andb_true_iff in Ht as [? ?].
    match goal with Hc : call_parts _ _ |- _ => destruct Hc as [? ?] end.
    split; [auto|]. by eapply Forall_tame.
  - destruct Ht as [? Ht2]. apply agrees_through; [auto|auto|]. destruct e2; try done. cbn in Ht2.
    apply andb_true_iff in Ht2 as [? ?].
    match goal with Hc : call_parts _ _ |- _ => destruct Hc as [? ?] end.
    split; [auto|]. by eapply Forall_tame.
  - by apply agrees_get, IHe.
  - destruct Ht as [? ?]. apply agrees_match; [auto|]. by eapply Forall_tame.
  - destruct Ht as [? ?]. split; [|auto]. destruct g; cbn in *; auto.
  - done.
  - cbn. auto.
Qed.
End simulation.
End agree.
