(* ===== verification/AgreeStmt.v ===== *)
(** * Statements on the two engines

    The code of a tame statement does on the machine what the tree interpreter
    does with the statement: it continues with the same value, returns the same
    value, or leaves the enclosing loop in the same way.  From this the bodies of
    functions agree, by induction on the fuel, and so do whole programs. *)
From S2P Require Import Prelude Ast Bytecode Codegen Verifier Values ValuesOk Gate.
From S2P Require Import Vm Tree TreeLift Engine Clean CleanTree VmMono VmKeeps Sim AgreeExpr.
Open Scope list_scope.

Section agree.
Context {W : Type} `{Foreign} `{!Host W, !HostQuiet W, !HostBlind W, !HostClean W, !Uncancelled W}.
Implicit Types st mst : Interp W.
#[local] Set Default Proof Using "All".

(** ** What statements leave alone *)

Section statements.
Context (exec : FunctionBody → M W VmFlow) (fuel : nat).
Context (gm : N → Value → string → Span → result NivError Value) (redeclare : bool).
Hypothesis exec_keeps : ∀ c, keeps stays (exec c).
#[local] Notation run := (execute_stmt exec fuel gm redeclare).
#[local] Hint Resolve keeps_child_scope keeps_fresh keeps_scope_at keeps_insert_binding
  keeps_declare keeps_declare_all keeps_charge keeps_call keeps_evaluate keeps_in_environment
  keeps_iteration_values keeps_execute_stmt : keep.

Lemma keeps_run_statements (ex : Stmt → M W VmFlow) ss last :
  (∀ s, keeps grows (ex s)) → keeps grows (run_statements ex ss last).
Proof using Type.
  intros He. revert last. induction ss as [|s ss IH]; intros last; cbn.
  - apply stays_keeps_grows, keeps_ret, _.
  - apply keeps_bind; [apply _|done|]. intros []; try (apply stays_keeps_grows, keeps_ret, _). apply IH.
Qed.

Lemma keeps_block ss : keeps stays (block run ss).
Proof using HostQuiet0 exec_keeps.
  apply keeps_end_promises, keeps_run_statements. intros s. by apply keeps_execute_stmt.
Qed.
#[local] Hint Resolve keeps_block : keep.

Lemma keeps_after m (k : Value → M W VmFlow) :
  keeps stays m → (∀ v, keeps stays (k v)) → keeps stays (after m k).
Proof using Type. intros. unfold after. keep. Qed.

Lemma keeps_while passes condition body span last :
  keeps stays condition → keeps stays body →
  keeps (W := W) stays (while_loop passes condition body span last).
Proof using Type.
  intros Hc Hb. revert last. induction passes as [|passes IH]; intros last; cbn [while_loop]; [keep|].
  apply keeps_after; [done|]. intros v. unfold continue_with. keep.
Qed.

Lemma keeps_for name pattern body span values last :
  keeps stays body → keeps (W := W) stays (for_loop name pattern body span values last).
Proof using HostQuiet0.
  intros Hb. revert last. induction values as [|v values IH]; intros last; cbn [for_loop];
    unfold continue_with; keep.
Qed.

(** A statement that does not stand directly in a body makes no promise. *)
Lemma tame_stays s : tame_stmt false s = true → keeps stays (run s).
Proof using HostQuiet0 exec_keeps.
  induction s using Stmt_nested_ind; [destruct s; try done|..]; cbn [tame_stmt execute_stmt];
    intros Ht; (apply keeps_bind; [apply _|apply keeps_charge|intros _]);
    try (apply keeps_after; [by apply keeps_evaluate|intros v]);
    unfold declare_new, continue_with, declare_value, run_sample, run_module, adopt_members,
      execute_block, declare_function.
  all: try (keep; fail).
  - apply andb_true_iff in Ht as [[_ Ht]%andb_true_iff He].
    apply keeps_bind; [apply _|keep|intros []; [auto|]]. destruct e; cbn in *; [auto|keep].
  - apply andb_true_iff in Ht as [_ He].
    apply keeps_bind; [apply _|keep|intros st]. destruct (match v with V_Null => _ | _ => _ end); [keep|].
    destruct e; cbn in *; [auto|keep].
  - apply andb_true_iff in Ht as [_ Hb]. apply keeps_while; [by apply keeps_evaluate|auto].
  - apply keeps_bind; [apply _|by apply keeps_iteration_values|intros vs].
    apply keeps_for, keeps_block.
  - unfold using_resource. destruct v; try (keep; fail). destruct (closable kind); [|keep].
    apply keeps_bind; [apply _|keep|intros st]. apply keeps_bind; [apply _|keep|intros env].
    apply keeps_then_close; [apply _|done|].
    apply keeps_in_environment, keeps_block.
Qed.

(** ** Loop exits *)

(** Computations that end with a value or a return. *)
Definition steady (m : M W VmFlow) : Prop := ∀ st flow st', m st = Done flow st' →
  match flow with Flow_Stop | Flow_Skip => False | _ => True end.

Lemma steady_bind {A} (m : M W A) f : (∀ a, steady (f a)) → steady (m ≫= f).
Proof using Type. intros Hf st flow st' (a & st1 & _ & E)%bind_Done. by eapply Hf. Qed.
Lemma steady_continue v : steady (continue_with v).
Proof using Type. by intros st flow st' [= <- <-]. Qed.
Lemma steady_throw e : steady (throw e).
Proof using Type. done. Qed.
Lemma steady_return v : steady (mret (Flow_Return v)).
Proof using Type. by intros st flow st' [= <- <-]. Qed.
Lemma steady_in_environment env m : steady m → steady (in_environment env m).
Proof using Type. intros Hm st flow st' (st1 & E & _)%in_environment_Done. by eapply Hm. Qed.
#[local] Hint Resolve steady_continue steady_throw steady_return : steady.

Lemma steady_after m k : (∀ v, steady (k v)) → steady (after m k).
Proof using Type. intros Hk. apply steady_bind. intros []; eauto with steady. Qed.

Lemma steady_block ex ss : Forall (λ s, steady (ex s)) ss → steady (block ex ss).
Proof using Type.
  intros Hss st flow st' (? & ? & [= <- <-] & (st1 & E & _)%finally_Done)%bind_Done.
  revert st E. generalize V_Null as last. intros last. revert last. induction Hss as [|s ss Hs _ IH]; intros last st; cbn; [by intros [= <- <-]|].
  intros (fl & st2 & E & E')%bind_Done. apply Hs in E. destruct fl; try done; [by eapply IH|].
  by injection E' as <- <-.
Qed.

Lemma steady_while passes condition body span last : steady (while_loop passes condition body span last).
Proof using Type.
  revert last. induction passes as [|passes IH]; intros last; cbn [while_loop]; [done|].
  apply steady_after. intros v. apply steady_bind. intros []; [|eauto with steady].
  apply steady_bind. intros []; eauto with steady.
Qed.

Lemma steady_for name pattern body span values last : steady (for_loop name pattern body span values last).
Proof using Type.
  revert last. induction values as [|v values IH]; intros last; cbn [for_loop]; [eauto with steady|].
  do 4 (apply steady_bind; intros ?). case_match; eauto with steady.
Qed.

Lemma steady_then_close m kind ref span : steady m → steady (then_close m kind ref span).
Proof using Type.
  intros Hm st flow st'. unfold then_close. destruct (m st) as [f st1|e st1| | |] eqn:E; try done.
  - intros (? & ? & _ & [= <- <-])%bind_Done. by eapply Hm.
  - by destruct (host_close kind ref span st1).
Qed.

Lemma existsb_Forall {A} (f : A → bool) (P : A → Prop) l :
  Forall (λ x, f x = false → P x) l → existsb f l = false → Forall P l.
Proof using Type.
  induction 1 as [|x l Hx _ IH]; [done|]. cbn. intros [? ?]%orb_false_iff. constructor; auto.
Qed.

#[local] Ltac steady :=
  repeat first
    [ solve [eauto with steady]
    | apply steady_after; intros ?
    | apply steady_bind; intros ?
    | match goal with |- steady (match ?x with _ => _ end) => destruct x end ].

(** A statement without a loop exit does not leave a loop. *)
Lemma no_exit s : contains_loop_exit s = false → steady (run s).
Proof using Type.
  induction s using Stmt_nested_ind; [destruct s; try done|..]; cbn [contains_loop_exit execute_stmt];
    intros Ht; (apply steady_bind; intros _).
  all: unfold declare_new, declare_value, run_sample, run_module, adopt_members, execute_block;
    try (steady; fail).
  - apply steady_bind. intros st. apply steady_bind. intros env.
    apply steady_in_environment, steady_block. by eapply existsb_Forall.
  - apply orb_false_iff in Ht as [Ht He]. apply steady_after. intros v. apply steady_bind.
    intros []; [auto|]. destruct e; cbn in *; eauto with steady.
  - apply orb_false_iff in Ht as [Ht He]. apply steady_after. intros v. apply steady_bind. intros st.
    destruct (match v with V_Null => _ | _ => _ end).
    + apply steady_bind. intros env. apply steady_in_environment, steady_block.
      apply Forall_singleton. auto.
    + destruct e; cbn in *; eauto with steady.
  - apply steady_while.
  - apply steady_after. intros v. apply steady_bind. intros vs. apply steady_for.
  - apply steady_after. intros v. unfold using_resource. destruct v; eauto with steady.
    destruct (closable kind); eauto with steady. do 2 (apply steady_bind; intros ?).
    apply steady_then_close, steady_in_environment, steady_block. apply Forall_singleton. auto.
Qed.
End statements.

(** ** Statements *)

(** What a statement's end means for its code. *)
Definition flow_reach (flow : VmFlow) : reach :=
  match flow with Flow_Continue v => Gives [v] | flow => Leaves flow end.

Lemma flow_reach_flow flow : reach_flow (flow_reach flow) = flow.
Proof using Type. by destruct flow. Qed.

Section simulation.
Context (F0 : nat).
Hypothesis bodies : bodies_agree F0.
#[local] Notation exec0 := (execute_with strict_rules F0).
#[local] Notation eval := (evaluate exec0 F0 distinct_get).
#[local] Notation run := (execute_stmt exec0 F0 distinct_get false).

Lemma run_ready s st flow st' :
  run s st = Done flow st' → ready st → ready st' ∧ anchored st st' ∧ flow_clean flow.
Proof using HostQuiet0 HostBlind0 HostClean0.
  intros E [Hp Ht].
  destruct (gives_execute_stmt exec0 (gives_strict F0) F0 distinct_get strict_clean false s _ _ _ Ht E)
    as (Ht' & Ha & Hf).
  split; [split|]; [|done..]. eapply grows_plain, Hp. eapply keeps_execute_stmt; [|exact E].
  intros. apply keeps_execute.
Qed.

Definition stmt_agrees (s : Stmt) : Prop := ∀ b f st flow st',
  gen_stmt b s = Some f → ready st → run s st = Done flow st' → frag b f [] st (flow_reach flow) st'.

(** The value of the statement's expression, then the rest. *)
Lemma after_frag e us b f g st k flow st' :
  tame e = true → gen_expr b e = Some f → ready st → after (eval e) k st = Done flow st' →
  (∀ v st1, ready st1 → clean v = true → k v st1 = Done flow st' →
     frag (b + len f) g (us ++ [v]) st1 (flow_reach flow) st') →
  frag b (f ++ g) us st (flow_reach flow) st'.
Proof.
  intros A%(tame_agrees F0 bodies) G Hr (w & st1 & E & Hk)%bind_Done Hg.
  destruct (eval_ready _ _ _ _ _ E Hr) as [Hr1 Hw].
  pose proof (frag_below us _ _ _ _ _ _ (A _ _ _ _ _ G Hr E)) as Hf. rewrite app_nil_r in Hf.
  destruct (is_early w) eqn:He.
  - destruct w; try done. injection Hk as <- <-. by apply frag_leaves.
  - apply (passing_clean _ Hw) in He. rewrite value_reach_clean in Hf by done.
    eapply frag_seq; [exact Hf|]. apply Hg; [done..|]. by destruct w.
Qed.

Lemma continue_Done v st flow st' :
  continue_with v st = Done flow st' → flow = Flow_Continue v ∧ st' = st.
Proof using Type. by intros [= <- <-]. Qed.

(** [Define], of a name the scope does not have. *)
Lemma insert_frag b name mutable v span st st' :
  ready st → insert_binding (environment st) name (mkBinding v mutable) st = Done false st' →
  frag b [ins (Op_Define name mutable) span] [v] st (Gives [v]) st'.
Proof.
  intros Hr Hi. apply frag_op; [done|]. intros mst HR.
  destruct (R_blind _ _ _ _ _ (blind_insert_binding _ _ _) HR Hi) as (mst' & Hi' & HR').
  exists mst', 0%nat. split; [done|]. intros F fuel stack _ _.
  cbn [rev app step_op peek unwrap head]. cbv [mbind M_bind get mret M_ret].
  replace (environment mst) with (environment st) by (by destruct HR as (fs & -> & _)).
  by rewrite Hi'.
Qed.

Lemma scope_at_Done env st s st1 : scope_at env st = Done s st1 → scopes st !! env = Some s ∧ st1 = st.
Proof using Type.
  unfold scope_at. cbv [mbind M_bind get]. destruct (scopes st !! env); [|done]. by intros [= -> ->].
Qed.

Lemma insert_new env name bd s st replaced st' :
  scopes st !! env = Some s → bool_decide (is_Some (s_values s !! name)) = false →
  insert_binding env name bd st = Done replaced st' → replaced = false.
Proof using Type.
  intros Hs Hn. unfold insert_binding, scope_at. cbv [mbind M_bind get]. rewrite Hs.
  intros [= <- _]. exact Hn.
Qed.

(** [Define] after [Let] and [Prepare]. *)
Lemma define_frag b name mutable v span span' st flow st' :
  ready st → declare_new name mutable v span st = Done flow st' →
  frag b [ins (Op_Define name mutable) span'] [v] st (flow_reach flow) st'.
Proof.
  intros Hr (? & ? & [= <- <-] & Hd)%bind_Done.
  apply bind_Done in Hd as (s & st1 & [Hs ->]%scope_at_Done & Hd).
  destruct (bool_decide (is_Some (s_values s !! name))) eqn:Hnew; [done|].
  apply bind_Done in Hd as (replaced & st2 & Hi & [-> ->]%continue_Done).
  apply insert_frag; [done|]. by rewrite <- (insert_new _ _ _ _ _ _ _ Hs Hnew Hi).
Qed.

Ltac gen G f :=
  match type of G with
  | context [gen_expr ?b ?e] => destruct (gen_expr b e) as [f|] eqn:?G; [|done]
  | context [gen_stmt ?b ?e] => destruct (gen_stmt b e) as [f|] eqn:?G; [|done]
  | context [gen_stmts ?g ?b ?e] => destruct (gen_stmts g b e) as [f|] eqn:?G; [|done]
  end; cbn [mbind option_bind] in G.
Ltac node Ht Hg He Hr :=
  cbn [tame_stmt] in Ht; cbn [gen_stmt] in Hg; cbn [execute_stmt] in He;
  apply enter_Done in He; [|exact Hr].

Lemma agrees_prepare top name plan e span :
  tame_stmt top (Stmt_Prepare name plan e span) = true → stmt_agrees (Stmt_Prepare name plan e span).
Proof.
  intros Ht b f st flow st' Hg Hr He. node Ht Hg He Hr. gen Hg g. injection Hg as <-.
  eapply (after_frag _ []); [done..|exact He|]. intros v st1 Hr1 Hv Hk.
  eapply frag_cons; [by apply (frag_stack _ _ _ [v] _ [v])|]. eapply define_frag; [done|exact Hk].
Qed.

Lemma agrees_let top name mutable ty e span :
  tame_stmt top (Stmt_Let name mutable ty e span) = true → stmt_agrees (Stmt_Let name mutable ty e span).
Proof.
  intros Ht b f st flow st' Hg Hr He. node Ht Hg He Hr. gen Hg g. injection Hg as <-.
  eapply (after_frag _ []); [done..|exact He|]. intros v st1 Hr1 Hv Hk. eapply define_frag; [done|exact Hk].
Qed.

Lemma agrees_let_pattern top pattern e span :
  tame_stmt top (Stmt_LetPattern pattern e span) = true → stmt_agrees (Stmt_LetPattern pattern e span).
Proof.
  intros Ht b f st flow st' Hg Hr He. node Ht Hg He Hr. gen Hg g. injection Hg as <-.
  eapply (after_frag _ []); [done..|exact He|]. intros v st1 Hr1 Hv Hk.
  apply bind_Done in Hk as (? & ? & [= <- <-] & Hk). apply bind_Done in Hk as (bs & ? & [Hb ->]%lift_Done & Hk).
  apply bind_Done in Hk as ([] & st2 & Hd & [-> ->]%continue_Done).
  apply frag_op; [done|]. intros mst HR.
  destruct (R_blind _ _ _ _ _ (blind_declare_all _ _) HR Hd) as (mst' & Hd' & HR').
  exists mst', 0%nat. split; [done|]. intros F fuel stack _ _.
  cbn [rev app step_op peek unwrap head]. cbv [mbind M_bind get mret M_ret].
  rewrite (pattern_R st1 mst), Hb by done. cbn [lift]. cbv [mret M_ret]. by rewrite Hd'.
Qed.

Lemma agrees_expression top e : tame_stmt top (Stmt_Expression e) = true → stmt_agrees (Stmt_Expression e).
Proof.
  intros Ht b f st flow st' Hg Hr He. node Ht Hg He Hr. rewrite <- (app_nil_r f).
  eapply (after_frag _ []); [done..|exact He|]. intros v st1 Hr1 Hv [-> ->]%continue_Done. apply frag_stay.
Qed.

Lemma agrees_print top e span : tame_stmt top (Stmt_Print e span) = true → stmt_agrees (Stmt_Print e span).
Proof.
  intros Ht b f st flow st' Hg Hr He. node Ht Hg He Hr. gen Hg g. injection Hg as <-.
  eapply (after_frag _ []); [done..|exact He|]. intros v st1 Hr1 Hv Hk.
  apply bind_Done in Hk as ([] & st2 & [= <-] & [-> ->]%continue_Done).
  apply frag_op; [done|]. intros mst HR. pose proof (text_of_R _ _ v HR) as Htext.
  destruct HR as (fs & -> & Hf). eexists _, 0%nat. split; [|intros F fuel stack _ _; reflexivity].
  exists fs. split; [|done]. rewrite Htext. done.
Qed.

(** ** Lists of statements *)

(** A statement, with more code behind. *)
Lemma stmt_frag s b f g st flow st' :
  stmt_agrees s → gen_stmt b s = Some f → ready st → run s st = Done flow st' →
  (∀ v, flow = Flow_Continue v → ready st' → frag (b + len f) g [v] st' (Gives [v]) st') →
  frag b (f ++ g) [] st (flow_reach flow) st'.
Proof.
  intros A G Hr E Hg. pose proof (A _ _ _ _ _ G Hr E) as Hf.
  destruct (run_ready _ _ _ _ E Hr) as (Hr' & _ & _).
  destruct flow; [|by apply frag_leaves..]. eapply frag_seq; [exact Hf|]. by apply Hg.
Qed.

Lemma list_frag ss b f last st flow st' :
  Forall stmt_agrees ss → gen_stmts gen_stmt b ss = Some f → ready st →
  run_statements run ss last st = Done flow st' → (ss = [] → last = V_Null) →
  frag b f [] st (flow_reach flow) st'.
Proof.
  intros Ha. revert b f last st. induction Ha as [|s ss As Hss IH]; intros b f last st G Hr E Hl.
  - injection G as <-. apply continue_Done in E as [-> ->]. rewrite Hl by done.
    by apply (frag_constant b _ [] Literal_Null).
  - cbn [run_statements] in E. apply bind_Done in E as (fl & st1 & E & Hk). cbn [gen_stmts] in G.
    destruct ss as [|s' ss].
    + assert (flow = fl ∧ st' = st1) as [-> ->] by (destruct fl; by injection Hk as <- <-). by eapply As.
    + gen G f1. gen G f2. injection G as <-. destruct (run_ready _ _ _ _ E Hr) as (Hr1 & _ & _).
      pose proof (As _ _ _ _ _ G0 Hr E) as Hf. destruct fl.
      2-4: injection Hk as <- <-; by apply frag_leaves.
      eapply frag_seq; [exact Hf|]. eapply frag_cons; [by apply (frag_pop _ _ [])|].
      by eapply IH.
Qed.

Lemma block_Done ss st flow st' :
  block run ss st = Done flow st' →
  ∃ st1, run_statements run ss V_Null st = Done flow st1 ∧ st' = ended st st1.
Proof using Type. by intros (? & ? & [= <- <-] & (st1 & E & ->)%finally_Done)%bind_Done; eauto. Qed.

Lemma block_ready ss st flow st' :
  block run ss st = Done flow st' → ready st → ready st' ∧ anchored st st' ∧ flow_clean flow.
Proof using HostQuiet0 HostBlind0 HostClean0.
  intros E [Hp Ht].
  assert (gives (block run ss) flow_clean) as Hb.
  { apply gives_block, Forall_forall. intros s _. apply gives_execute_stmt; [apply gives_strict|apply strict_clean]. }
  destruct (Hb _ _ _ Ht E) as (? & ? & ?). split; [split|]; [|done..].
  eapply stays_plain, Hp. eapply keeps_block; [|exact E]. intros. apply keeps_execute.
Qed.

(** The chunk of a list of statements. *)
Lemma block_sim ss f st flow st' mst :
  Forall stmt_agrees ss → gen_stmts gen_stmt 0 ss = Some f → ready st → R st mst →
  block run ss st = Done flow st' →
  ∃ mst' N, related (flow_reach flow) st' mst' ∧ ∀ F, (N ≤ F)%nat →
    execute F (mkChunk BYTECODE_VERSION f) mst = Done flow mst'.
Proof.
  intros A G Hr HR (st1 & E & ->)%block_Done. 
  destruct (frag_chunk BYTECODE_VERSION f st (flow_reach flow) st1 mst) as (mst' & N & HR' & HN);
    [by eapply list_frag|done|]. rewrite flow_reach_flow in HN. eauto.
Qed.

Lemma related_flow_env flow st mst : related (flow_reach flow) st mst → R_env st mst.
Proof using Type. destruct flow; cbn; auto using R_R_env. Qed.

(** The same in a scope of its own. *)
Lemma scoped_sim env ss f st flow st' mst :
  Forall stmt_agrees ss → gen_stmts gen_stmt 0 ss = Some f → ready st → R st mst →
  in_environment env (block run ss) st = Done flow st' →
  ready st' ∧ ∃ mst' N, R st' mst' ∧ ∀ F, (N ≤ F)%nat →
    in_environment env (execute F (mkChunk BYTECODE_VERSION f)) mst = Done flow mst'.
Proof.
  intros A G Hr HR (st1 & E & ->)%in_environment_Done.
  pose proof (ready_environment env _ Hr) as Hr0.
  destruct (block_ready _ _ _ _ E Hr0) as (Hr1 & _ & _). split; [by apply ready_environment|].
  destruct (block_sim _ _ _ _ _ _ A G Hr0 (R_environment _ _ env HR) E) as (mst1 & N & HR1 & HN).
  eexists _, N. split.
  - eapply in_environment_R; [exact HR|by eapply related_flow_env].
  - intros F HF. apply in_environment_Done. eexists. split; [by apply HN|done].
Qed.

(** ** Blocks *)

Lemma frag_environment env b f us st flow st' :
  frag b f us st (Leaves flow) st' → frag b f us st (Leaves flow) (set_environment env st').
Proof using Type.
  intros Hf mst HR. destruct (Hf mst HR) as (mst' & (fs & e & -> & Hfs) & L). eexists.
  split; [|exact L]. by exists fs, e.
Qed.

Lemma child_parent parent bindings st env st' :
  child_scope (W := W) parent bindings st = Done env st' →
  ∃ s, scopes st' !! env = Some s ∧ s_parent s = Some parent.
Proof using Type.
  unfold child_scope, fresh. intros [= <- <-]. cbn. rewrite lookup_insert_eq. eauto.
Qed.

Lemma enter_frag b span st env st1 :
  ready st → child_scope (environment st) [] st = Done env st1 →
  frag b [ins Op_EnterScope span] [] st (Gives []) (set_environment env st1).
Proof.
  intros Hr Hc. apply frag_op; [done|]. intros mst HR.
  destruct (R_blind _ _ _ _ _ (blind_child_scope _ _) HR Hc) as (mst1 & Hc' & HR1).
  exists (set_environment env mst1), 0%nat. split; [by apply R_environment|].
  intros F fuel stack _ _. cbn [step_op rev app]. cbv [mbind M_bind get].
  replace (environment mst) with (environment st) by (by destruct HR as (fs & -> & _)).
  rewrite Hc'. unfold next. cbn [charges_memory update]. by destruct stack.
Qed.

Lemma exit_frag b span v st s parent :
  ready st → scopes st !! environment st = Some s → s_parent s = Some parent →
  frag b [ins Op_ExitScope span] [v] st (Gives [v]) (set_environment parent st).
Proof.
  intros Hr Hs Hp. apply frag_op; [done|]. intros mst HR.
  exists (set_environment parent mst), 0%nat. split; [by apply R_environment|].
  intros F fuel stack _ _. cbn [step_op rev app]. unfold scope_at. cbv [mbind M_bind get].
  destruct HR as (fs & -> & _). cbn [environment scopes set_functions]. by rewrite Hs; cbn; rewrite Hp.
Qed.

Lemma list_stays ss last :
  forallb (tame_stmt false) ss = true → keeps stays (run_statements run ss last).
Proof using HostQuiet0.
  intros Hss. revert last. induction ss as [|s ss IH]; intros last; cbn; [keep|].
  cbn in Hss. apply andb_true_iff in Hss as [Hs Hss]. apply keeps_bind; [apply _| |].
  - apply tame_stays; [|done]. intros. apply keeps_execute.
  - intros []; [by apply IH|keep..].
Qed.

Lemma list_ready ss last st flow st' :
  run_statements run ss last st = Done flow st' → ready st → ready st' ∧ anchored st st'.
Proof using HostQuiet0 HostBlind0 HostClean0.
  revert last st. induction ss as [|s ss IH]; intros last st.
  - by intros [-> ->]%continue_Done.
  - cbn. intros (fl & st1 & E & Hk)%bind_Done Hr. destruct (run_ready _ _ _ _ E Hr) as (Hr1 & Ha & _).
    destruct fl; [|by injection Hk as <- <-..].
    destruct (IH _ _ Hk Hr1) as [? ?]. split; [done|by etrans].
Qed.

Lemma agrees_block top ss span :
  tame_stmt top (Stmt_Block ss span) = true → Forall stmt_agrees ss → stmt_agrees (Stmt_Block ss span).
Proof.
  intros Ht A b f st flow st' Hg Hr He. node Ht Hg He Hr. gen Hg g. injection Hg as <-.
  apply bind_Done in He as (? & ? & [= <- <-] & He). apply bind_Done in He as (env & st1 & Hc & He).
  apply in_environment_Done in He as (st2 & (st3 & E & ->)%block_Done & ->).
  assert (ready (set_environment env st1)) as Hr1 by (by eapply ready_environment, (child_ready _ [])).
  destruct (list_ready _ _ _ _ _ E Hr1) as [Hr3 [Henv Hpar]].
  rewrite (ended_stays (set_environment env st1) st3) by (by eapply list_stays).
  assert (environment st1 = environment st) as He1 by (by injection Hc as <- <-). rewrite He1.
  eapply frag_cons; [by eapply enter_frag|].
  assert (frag (b + 1) g [] (set_environment env st1) (flow_reach flow) st3) as Hbody
    by (by eapply list_frag).
  destruct flow as [v|v| |]; [|by apply frag_environment, frag_leaves..].
  eapply frag_seq; [exact Hbody|]. destruct (child_parent _ _ _ _ _ Hc) as (s & Hs & Hsp).
  destruct (Hpar _ _ Hs) as (s' & Hs' & Hsp'). eapply exit_frag; [done| |by rewrite Hsp'].
  by rewrite Henv.
Qed.

(** ** Branches *)

Definition branch_agrees (o : option Stmt) : Prop := from_option stmt_agrees True o.

Lemma agrees_if top c t e span :
  tame_stmt top (Stmt_If c t e span) = true → stmt_agrees t → branch_agrees e →
  stmt_agrees (Stmt_If c t e span).
Proof.
  intros Ht At Ae b f st flow st' Hg Hr He. node Ht Hg He Hr.
  apply andb_true_iff in Ht as [[Hc _]%andb_true_iff _]. gen Hg fc. gen Hg ft.
  destruct (match e with Some branch => _ | None => _ end) as [fe|] eqn:Ge in Hg; [|done].
  injection Hg as <-. eapply (after_frag _ []); [done..|exact He|]. intros v st1 Hr1 _ Hk.
  apply bind_Done in Hk as (x & ? & [->%bool_value ->]%lift_Done & Hk). cbn [app]. destruct x.
  - eapply frag_cons; [by apply (frag_if_true _ _ _ [])|].
    eapply frag_cons; [by apply (frag_pop _ _ [])|].
    eapply stmt_frag; [exact At| |done|exact Hk|].
    { replace (b + len fc + 1 + 1) with (b + len fc + 2) by lia. exact Hg1. }
    intros w _ Hr2. rewrite <- (app_nil_r fe), app_comm_cons.
    apply frag_jump; [done| |apply frag_stay]. rewrite len_cons, app_nil_r. lia.
  - change (ins Op_Pop span :: ft ++ ?x) with ((ins Op_Pop span :: ft) ++ x).
    rewrite (cons_middle (ins (Op_Jump _) _)), app_assoc.
    apply (frag_if_false _ _ _ _ _ []); [done| |].
    { rewrite len_app, !len_cons, len_nil. lia. }
    eapply frag_cons; [by apply (frag_pop _ _ [])|]. destruct e as [e|]; cbn in Ae.
    + eapply Ae; [|done|exact Hk].
      replace (b + len fc + 2 + len ft + 1 + 1) with (b + len fc + 2 + len ft + 2) by lia. exact Ge.
    + injection Ge as <-. apply continue_Done in Hk as [-> ->].
      by apply (frag_constant _ _ [] Literal_Null).
Qed.

(** An instruction that ends as a nested execution does. *)
Definition exits_loop (flow : VmFlow) : bool :=
  match flow with Flow_Stop | Flow_Skip => true | _ => false end.

Lemma frag_flow b op span us st flow st' (escape : bool) :
  ready st → charges_memory op = false → (exits_loop flow = true → escape = true) →
  (∀ mst, R st mst → ∃ mst' N, related (flow_reach flow) st' mst' ∧
     ∀ F fuel stack, (N ≤ F)%nat → (N ≤ fuel)%nat →
       step_op (execute F) fuel op span (rev us ++ stack) b mst
       = push_flow op span b stack flow escape mst') →
  frag b [ins op span] us st (flow_reach flow) st'.
Proof.
  intros Hr Hc Hescape Hop. destruct flow as [v|v| |].
  - apply frag_op; [done|]. intros mst HR. destruct (Hop mst HR) as (mst' & N & HR' & HN).
    exists mst', N. split; [done|]. intros F fuel stack HF Hfuel. rewrite HN by done.
    unfold push_flow, next. by rewrite Hc.
  - apply frag_return; [done|]. intros mst HR. destruct (Hop mst HR) as (mst' & N & HR' & HN).
    exists mst', N. split; [done|]. intros F fuel stack HF Hfuel. by rewrite HN.
  - rewrite Hescape in Hop by done.
    apply (frag_ins _ _ _ _ _ _ _ (λ _ _, Step_Stop)); [done|done|]. exact Hop.
  - rewrite Hescape in Hop by done.
    apply (frag_ins _ _ _ _ _ _ _ (λ _ _, Step_Skip)); [done|done|]. exact Hop.
Qed.

(** A statement as a chunk of its own, in the scope it stands in. *)
Lemma stmt_chunk_sim s f st flow st' mst :
  stmt_agrees s → gen_stmt 0 s = Some f → tame_stmt false s = true → ready st → R st mst →
  run s st = Done flow st' →
  ∃ mst' N, related (flow_reach flow) st' mst' ∧ ∀ F, (N ≤ F)%nat →
    execute F (mkChunk BYTECODE_VERSION f) mst = Done flow mst'.
Proof.
  intros A G Ht Hr HR E. rewrite <- (ended_stays st st').
  2: { eapply tame_stays; [|done|exact E]. intros. apply keeps_execute. }
  destruct (frag_chunk BYTECODE_VERSION f st (flow_reach flow) st' mst) as (mst' & N & HR' & HN);
    [by eapply A|done|]. rewrite flow_reach_flow in HN. eauto.
Qed.

Lemma new_chunk_Some f c : new_chunk f = Some c → ∃ g, f = Some g ∧ c = mkChunk BYTECODE_VERSION g.
Proof using Type. destruct f as [g|]; [|done]. intros [= <-]. eauto. Qed.
Ltac chunk_of G f :=
  match type of G with
  | context [new_chunk ?m] =>
      let E := fresh "G" in
      destruct (new_chunk m) as [?c|] eqn:E; [|done]; cbn [mbind option_bind] in G;
      apply new_chunk_Some in E as (f & E & ->)
  end.

Lemma child_sim parent bindings st env st1 mst :
  R st mst → child_scope parent bindings st = Done env st1 →
  ∃ mst1, child_scope parent bindings mst = Done env mst1 ∧ R st1 mst1.
Proof using Type. intros HR Hc. exact (R_blind _ _ _ _ _ (blind_child_scope _ _) HR Hc). Qed.

Lemma R_same_environment st mst : R st mst → environment mst = environment st.
Proof using Type. by intros (fs & -> & _). Qed.

Lemma agrees_if_carries top c ps t e span :
  tame_stmt top (Stmt_IfCarries c ps t e span) = true → stmt_agrees t → branch_agrees e →
  stmt_agrees (Stmt_IfCarries c ps t e span).
Proof.
  intros Ht At Ae b f st flow st' Hg Hr He. node Ht Hg He Hr.
  apply andb_true_iff in Ht as [[Hc Htt]%andb_true_iff Hte]. gen Hg fc. chunk_of Hg ft.
  destruct (match e with Some branch => _ | None => _ end) as [fe|] eqn:Ge in Hg; [|done].
  injection Hg as <-. eapply (after_frag _ []); [done..|exact He|]. intros v st1 Hr1 Hv Hk.
  apply bind_Done in Hk as (? & ? & [= <- <-] & Hk). cbn [app].
  apply (frag_flow _ _ _ _ _ _ _ true); [done..|]. intros mst HR.
  pose proof (R_same_environment _ _ HR) as Henv.
  destruct (match v with V_Null => _ | _ => _ end) as [bindings|] eqn:Hm in Hk.
  - apply bind_Done in Hk as (env & st2 & Hch & Hk).
    assert (ready st2) as Hr2.
    { eapply child_ready; [|exact Hr1|exact Hch]. apply (first_match_clean st1 ps v); [done|]. by destruct v. }
    destruct (child_sim _ _ _ _ _ _ HR Hch) as (mst2 & Hch' & HR2).
    destruct (scoped_sim env [t] ft st2 flow st' mst2 ltac:(by constructor) G Hr2 HR2 Hk)
      as (Hr' & mst' & N & HR' & HN).
    exists mst', N. split; [destruct flow; cbn; auto using R_R_env|]. intros F fuel stack HF _.
    cbn [rev app step_op pop]. unfold execute_if_carries. cbv [mbind M_bind get mret M_ret].
    rewrite (first_match_R st1 mst), Hm, Henv, Hch' by done. by rewrite HN.
  - destruct e as [e|]; cbn in Ae, Hte.
    + chunk_of Ge fe'. injection Ge as <-.
      destruct (stmt_chunk_sim e fe' st1 flow st' mst Ae G0 Hte Hr1 HR Hk) as (mst' & N & HR' & HN).
      exists mst', N. split; [done|]. intros F fuel stack HF _.
      cbn [rev app step_op pop]. unfold execute_if_carries. cbv [mbind M_bind get mret M_ret].
      rewrite (first_match_R st1 mst), Hm by done. by rewrite HN.
    + injection Ge as <-. apply continue_Done in Hk as [-> ->]. exists mst, 0%nat. split; [done|].
      intros F fuel stack _ _. cbn [rev app step_op pop]. unfold execute_if_carries.
      cbv [mbind M_bind get mret M_ret]. by rewrite (first_match_R st1 mst), Hm by done.
Qed.

(** ** Loops *)

(** A jump back to the start of the fragment. *)
Lemma frag_loop b p i us st ws st1 span r st' :
  frag b p us st (Gives ws) st1 → ready st1 →
  frag b (p ++ [ins (Op_Jump b) span; i]) ws st1 r st' →
  frag b (p ++ [ins (Op_Jump b) span; i]) us st r st'.
Proof.
  intros Hp Hr Hl mst HR. destruct (Hp mst HR) as (mst1 & HR1 & L1).
  destruct (Hl mst1 HR1) as (mst' & HR' & L). exists mst'. split; [done|]. intros code stack Hat.
  eapply leads_trans; [|by apply L]. apply at_app in Hat as [Ha [Hj _]%at_cons].
  eapply leads_trans; [by apply L1|]. cbn [ends_at].
  apply (leads_step _ _ _ _ (Step_Next b (rev ws ++ stack)) _ _ _ Hj).
  - eapply R_plain; [done|apply Hr].
  - exists 0%nat. done.
Qed.

Lemma while_frag c s b fc fs t span last passes st flow st' :
  tame c = true → stmt_agrees s → contains_loop_exit s = false →
  gen_expr b c = Some fc → gen_stmt (b + len fc + 3) s = Some fs →
  t = b + len fc + 3 + len fs + 1 → ready st →
  while_loop passes (eval c) (run s) span last st = Done flow st' →
  frag b ((fc ++ [ins (Op_JumpIfFalse t) span; ins Op_Pop span; ins Op_Pop span] ++ fs)
            ++ [ins (Op_Jump b) span; ins Op_Pop span]) [last] st (flow_reach flow) st'.
Proof.
  intros Tc As Hx Gc Gs ->. revert last st. induction passes as [|passes IH]; intros last st Hr He; [done|].
  cbn [while_loop] in He. apply bind_Done in He as (w & st1 & E & Hk).
  destruct (eval_ready _ _ _ _ _ E Hr) as [Hr1 Hw].
  pose proof (frag_below [last] _ _ _ _ _ _ (tame_agrees F0 bodies c Tc _ _ _ _ _ Gc Hr E)) as Hc.
  destruct (is_early w) eqn:Hearly.
  { destruct w; try done. injection Hk as <- <-. by apply frag_leaves, frag_leaves. }
  apply (passing_clean _ Hw) in Hearly. rewrite value_reach_clean in Hc by done.
  assert ((x ← lift (expect_bool w span);
           if x : bool then
             flow ← run s;
             match flow with
             | Flow_Continue v => while_loop passes (eval c) (run s) span v
             | Flow_Return v => mret (Flow_Return v)
             | Flow_Stop => continue_with last
             | Flow_Skip => while_loop passes (eval c) (run s) span last
             end
           else continue_with last) st1 = Done flow st') as Hk' by (by destruct w). clear Hk.
  apply bind_Done in Hk' as (x & ? & [->%bool_value ->]%lift_Done & Hk). destruct x.
  - apply bind_Done in Hk as (fl & st2 & Es & Hk). destruct (run_ready _ _ _ _ Es Hr1) as (Hr2 & _ & _).
    assert (frag b (fc ++ [ins (Op_JumpIfFalse (b + len fc + 3 + len fs + 1)) span; ins Op_Pop span;
      ins Op_Pop span] ++ fs) [last] st (flow_reach fl) st2) as Hp.
    { eapply frag_seq; [exact Hc|]. cbn [app].
      eapply frag_cons; [by apply (frag_if_true _ _ _ [last])|].
      eapply frag_cons; [by apply (frag_pop _ _ [last])|].
      eapply frag_cons; [by apply (frag_pop _ _ [])|]. eapply As; [|done|exact Es].
      by replace (b + len fc + 1 + 1 + 1) with (b + len fc + 3) by lia. }
    apply (no_exit _ _ _ _ _ Hx) in Es as Hsteady. destruct fl as [v|v| |]; try done.
    + eapply frag_loop; [exact Hp|done|]. by apply IH.
    + injection Hk as <- <-. by apply frag_leaves.
  - apply continue_Done in Hk as [-> ->]. rewrite <- app_assoc. eapply frag_seq; [exact Hc|]. cbn [app].
    change (ins Op_Pop span :: ins Op_Pop span :: fs ++ ?x) with ((ins Op_Pop span :: ins Op_Pop span :: fs) ++ x).
    rewrite (cons_middle (ins (Op_Jump _) _)), app_assoc.
    apply (frag_if_false _ _ _ _ _ [last]); [done| |by apply (frag_pop _ _ [last])].
    rewrite len_app, !len_cons, len_nil. lia.
Qed.

Lemma agrees_while top c s span :
  tame_stmt top (Stmt_While c s span) = true → stmt_agrees s → stmt_agrees (Stmt_While c s span).
Proof.
  intros Ht As b f st flow st' Hg Hr He. node Ht Hg He Hr.
  apply andb_true_iff in Ht as [[Hx Hc]%andb_true_iff _]. apply negb_true_iff in Hx. rewrite Hx in Hg.
  gen Hg fc. gen Hg fs. injection Hg as <-.
  eapply frag_cons; [by apply (frag_constant _ _ [] Literal_Null)|].
  pose proof (while_frag c s (b + 1) fc fs _ span V_Null F0 st flow st' Hc As Hx Hg0 Hg1 eq_refl Hr He) as Hw.
  rewrite <- !app_assoc in Hw. exact Hw.
Qed.

(** ** Exits *)

Lemma agrees_stop span : stmt_agrees (Stmt_Stop span).
Proof.
  intros b f st flow st' Hg Hr He. cbn [gen_stmt] in Hg. injection Hg as <-.
  cbn [execute_stmt] in He. apply enter_Done in He; [|done]. injection He as <- <-.
  apply (frag_ins _ _ _ _ _ _ _ (λ _ _, Step_Stop)); [done|done|]. intros mst HR.
  exists mst, 0%nat. split; [by apply R_R_env|done].
Qed.

Lemma agrees_skip span : stmt_agrees (Stmt_Skip span).
Proof.
  intros b f st flow st' Hg Hr He. cbn [gen_stmt] in Hg. injection Hg as <-.
  cbn [execute_stmt] in He. apply enter_Done in He; [|done]. injection He as <- <-.
  apply (frag_ins _ _ _ _ _ _ _ (λ _ _, Step_Skip)); [done|done|]. intros mst HR.
  exists mst, 0%nat. split; [by apply R_R_env|done].
Qed.

Lemma return_frag b span v st :
  ready st → frag b [ins Op_Return span] [v] st (Leaves (Flow_Return v)) st.
Proof.
  intros Hr. apply frag_return; [done|]. intros mst HR. exists mst, 0%nat. split; [by apply R_R_env|done].
Qed.

Lemma agrees_return top e span :
  tame_stmt top (Stmt_Return e span) = true → stmt_agrees (Stmt_Return e span).
Proof.
  intros Ht b f st flow st' Hg Hr He. node Ht Hg He Hr. destruct e as [e|].
  - gen Hg g. injection Hg as <-. apply bind_Done in He as (v & st1 & E & [= <- ->]).
    destruct (eval_ready _ _ _ _ _ E Hr) as [Hr1 Hv].
    pose proof (tame_agrees F0 bodies e Ht _ _ _ _ _ Hg0 Hr E) as Hf. destruct (is_early v) eqn:Hearly.
    + destruct v; try done. by apply frag_leaves.
    + apply (passing_clean _ Hv) in Hearly. rewrite value_reach_clean in Hf by done.
      eapply frag_seq; [exact Hf|]. destruct v; try done; by apply return_frag.
  - injection Hg as <-. injection He as <- <-.
    eapply frag_cons; [by apply (frag_constant _ _ [] Literal_Null)|]. by apply return_frag.
Qed.

Lemma promise_frag b clauses span st :
  ready st → frag b [ins (Op_Promise clauses) span] [] st (Gives [])
    (set_promises (active_promises st ++ clauses) st).
Proof.
  intros Hr. apply frag_op; [done|]. intros mst HR.
  eexists _, 0%nat. split; [|intros F fuel stack _ _; cbn [step_op rev app]; unfold next;
    cbn [charges_memory]; by destruct stack].
  destruct HR as (fs & -> & Hf). by exists fs.
Qed.

Lemma agrees_promise clauses span : stmt_agrees (Stmt_Promise clauses span).
Proof.
  intros b f st flow st' Hg Hr He. cbn [gen_stmt] in Hg. injection Hg as <-.
  cbn [execute_stmt] in He. apply enter_Done in He; [|done].
  apply bind_Done in He as (? & ? & [= <- <-] & [-> ->]%continue_Done).
  eapply frag_cons; [by apply promise_frag|]. apply (frag_constant _ _ [] Literal_Null).
  destruct Hr as [? []]. by split.
Qed.

(** Statements without effect. *)
Lemma agrees_nothing s span :
  (∀ b, gen_stmt b s = Some [ins (Op_Constant Literal_Null) span]) →
  (∀ st, run s st = (_ ← charge (statement_span s); continue_with V_Null) st) → stmt_agrees s.
Proof.
  intros Hgen Hrun b f st flow st' Hg Hr He. rewrite Hgen in Hg. injection Hg as <-.
  rewrite Hrun in He. apply enter_Done in He; [|done]. apply continue_Done in He as [-> ->].
  by apply (frag_constant _ _ [] Literal_Null).
Qed.

(** ** Iteration *)

Lemma iteration_bindings_R st mst name pattern v span :
  R st mst → iteration_bindings mst name pattern v span = iteration_bindings st name pattern v span.
Proof using Type.
  intros HR. unfold iteration_bindings. destruct pattern; [|done]. by rewrite (pattern_R st mst).
Qed.

Lemma iteration_clean st name pattern v span bs :
  clean v = true → iteration_bindings st name pattern v span = Ok bs → clean_bindings bs = true.
Proof using Type.
  intros Hv. unfold iteration_bindings. destruct pattern as [p|].
  - destruct (pattern_bindings st p v) eqn:E; [|done]. intros [= <-].
    exact (pattern_clean st p v [] _ Hv eq_refl E).
  - intros [= <-]. cbn. by rewrite Hv.
Qed.

Lemma for_sim s f name pattern span values last st flow st' mst :
  stmt_agrees s → gen_stmts gen_stmt 0 [s] = Some f → ready st → R st mst →
  forallb clean values = true →
  for_loop name pattern (block run [s]) span values last st = Done flow st' →
  ∃ mst' N, R st' mst' ∧ ∀ F, (N ≤ F)%nat →
    iterate (execute F) name pattern (mkChunk BYTECODE_VERSION f) span values last mst = Done flow mst'.
Proof.
  intros A G. revert last st mst. induction values as [|v values IH]; intros last st mst Hr HR Hvs He.
  { apply continue_Done in He as [-> ->]. by exists mst, 0%nat. }
  cbn in Hvs. apply andb_true_iff in Hvs as [Hv Hvs]. cbn [for_loop] in He.
  apply bind_Done in He as (? & ? & [= <- <-] & He).
  apply bind_Done in He as (bs & ? & [Hb ->]%lift_Done & He).
  apply bind_Done in He as (env & st1 & Hc & He). apply bind_Done in He as (fl & st2 & E & Hk).
  pose proof (child_ready _ _ _ _ _ (iteration_clean _ _ _ _ _ _ Hv Hb) Hr Hc) as Hr1.
  destruct (child_sim _ _ _ _ _ _ HR Hc) as (mst1 & Hc' & HR1).
  destruct (scoped_sim env [s] f st1 fl st2 mst1 ltac:(by constructor) G Hr1 HR1 E)
    as (Hr2 & mst2 & N & HR2 & HN).
  pose proof (R_same_environment _ _ HR) as Henv.
  assert (∀ F, (N ≤ F)%nat →
    iterate (execute F) name pattern (mkChunk BYTECODE_VERSION f) span (v :: values) last mst =
    match fl with
    | Flow_Continue w => iterate (execute F) name pattern (mkChunk BYTECODE_VERSION f) span values w
    | Flow_Return w => mret (Flow_Return w)
    | Flow_Stop => mret (Flow_Continue last)
    | Flow_Skip => iterate (execute F) name pattern (mkChunk BYTECODE_VERSION f) span values last
    end mst2) as Hit.
  { intros F HF. cbn [iterate]. cbv [mbind M_bind get]. rewrite (iteration_bindings_R st mst), Hb by done.
    cbn [lift]. cbv [mret M_ret]. rewrite Henv, Hc', HN by done. by destruct fl. }
  destruct fl as [w|w| |].
  1,4: destruct (IH _ _ _ Hr2 HR2 Hvs Hk) as (mst' & N' & HR' & HN'); exists mst', (N + N')%nat;
    (split; [done|]); intros F HF; rewrite Hit by lia; apply HN'; lia.
  - injection Hk as <- <-. exists mst2, N. split; [done|]. intros F HF. by rewrite Hit.
  - apply continue_Done in Hk as [-> ->]. exists mst2, N. split; [done|]. intros F HF. by rewrite Hit.
Qed.

Lemma related_R flow st mst : R st mst → related (flow_reach flow) st mst.
Proof using Type. destruct flow; cbn; auto using R_R_env. Qed.

Lemma agrees_for top name pattern e s span :
  tame_stmt top (Stmt_For name pattern e s span) = true → stmt_agrees s →
  stmt_agrees (Stmt_For name pattern e s span).
Proof.
  intros Ht A b f st flow st' Hg Hr He. node Ht Hg He Hr. apply andb_true_iff in Ht as [Te _].
  gen Hg fe. chunk_of Hg fb. injection Hg as <-.
  eapply (after_frag _ []); [done..|exact He|]. cbn beta. intros v st1 Hr1 Hv Hk.
  apply bind_Done in Hk as (vs & st2 & Hi & Hk).
  destruct (gives_iteration_values exec0 (gives_strict F0) _ _ _ Hv _ _ _ (proj2 Hr1) Hi) as (Ht2 & _ & Hvs).
  assert (ready st2) as Hr2.
  { split; [|done]. eapply stays_plain, Hr1. eapply keeps_iteration_values; [|exact Hi].
    intros. apply keeps_execute. }
  apply (frag_flow _ _ _ _ _ _ _ false); [done..| |].
  { apply steady_for in Hk. by destruct flow. }
  intros mst HR.
  destruct (iteration_values_sim F0 F0 v span bodies Hv _ _ _ _ Hr1 HR Hi) as (mst2 & N1 & HR2 & HN1).
  destruct (for_sim _ _ _ _ _ _ _ _ _ _ _ A G Hr2 HR2 Hvs Hk) as (mst' & N2 & HR' & HN2).
  exists mst', (N1 + N2)%nat. split; [by apply related_R|]. intros F fuel stack HF Hfuel.
  cbn [rev app step_op pop]. cbv [mbind M_bind mret M_ret]. rewrite HN1 by lia. by rewrite HN2 by lia.
Qed.

(** ** Resources *)

Lemma agrees_using top name e s span :
  tame_stmt top (Stmt_Using name e s span) = true → stmt_agrees s →
  stmt_agrees (Stmt_Using name e s span).
Proof.
  intros Ht A b f st flow st' Hg Hr He. pose proof He as Hrun. node Ht Hg He Hr.
  apply andb_true_iff in Ht as [[Hx Te]%andb_true_iff _]. apply negb_true_iff in Hx.
  assert (exits_loop flow = false) as Hflow.
  { apply (no_exit exec0 F0 distinct_get false (Stmt_Using name e s span) Hx) in Hrun. by destruct flow. }
  gen Hg fe. chunk_of Hg fb. injection Hg as <-.
  eapply (after_frag _ []); [done..|exact He|]. cbn beta. intros v st1 Hr1 Hv Hk.
  unfold using_resource in Hk. destruct v; try done. destruct (closable kind) eqn:Hclose; [|done].
  apply bind_Done in Hk as (? & ? & [= <- <-] & Hk). apply bind_Done in Hk as (env & st2 & Hc & Hk).
  pose proof (child_ready (environment st1) [(name, V_Handle kind ref)] _ _ _ eq_refl Hr1 Hc) as Hr2.
  unfold then_close in Hk. destruct (in_environment env _ st2) as [fl st3|e3 st3| | |] eqn:E; try done.
  2: { by destruct (host_close kind ref span st3). }
  apply bind_Done in Hk as ([] & st4 & Hcl & [= -> ->]).
  apply (frag_flow _ _ _ _ _ _ _ false); [done..|by rewrite Hflow|]. intros mst HR.
  destruct (child_sim _ _ _ _ _ _ HR Hc) as (mst2 & Hc' & HR2).
  destruct (scoped_sim env [s] fb st2 flow st3 mst2 ltac:(by constructor) G Hr2 HR2 E)
    as (Hr3 & mst3 & N & HR3 & HN).
  destruct (R_blind _ _ _ _ _ (close_blind _ _ _) HR3 Hcl) as (mst4 & Hcl' & HR4).
  exists mst4, N. split; [by apply related_R|]. intros F fuel stack HF _.
  cbn [rev app step_op pop]. cbv [mbind M_bind mret M_ret]. unfold execute_using. rewrite Hclose.
  cbv [mbind M_bind get].
  rewrite (R_same_environment _ _ HR), Hc'. unfold then_close. rewrite HN by done.
  cbv [mbind M_bind]. by rewrite Hcl'.
Qed.

(** ** Samples *)

Lemma agrees_sample title ss shows span :
  Forall stmt_agrees ss → stmt_agrees (Stmt_Sample title ss shows span).
Proof.
  intros A b f st flow st' Hg Hr He. cbn [gen_stmt] in Hg. chunk_of Hg fb. injection Hg as <-.
  cbn [execute_stmt] in He. apply enter_Done in He; [|done].
  apply bind_Done in He as (? & ? & [= <- <-] & He). destruct (run_samples st) eqn:Hs.
  - apply bind_Done in He as (env & st1 & Hc & He). apply bind_Done in He as (fl & st2 & E & Hk).
    pose proof (child_ready (environment st) [] _ _ _ eq_refl Hr Hc) as Hr1.
    destruct fl as [v|v| |]; try done. apply bind_Done in Hk as (? & ? & [= <- <-] & Hk).
    assert (flow = Flow_Continue V_Null ∧ st' = st2 ∧
      ∀ expected, shows = Some expected → text_of st2 v = expected) as (-> & -> & Hshows).
    { destruct shows as [expected|]; [|by apply continue_Done in Hk as [-> ->]].
      case_bool_decide; [|done]. apply continue_Done in Hk as [-> ->]. split_and!; congruence. }
    apply frag_op; [done|]. intros mst HR.
    destruct (child_sim _ _ _ _ _ _ HR Hc) as (mst1 & Hc' & HR1).
    destruct (scoped_sim env ss fb st1 (Flow_Continue v) st2 mst1 A G Hr1 HR1 E)
      as (Hr2 & mst2 & N & HR2 & HN).
    exists mst2, N. split; [done|]. intros F fuel stack HF _. cbn [step_op rev app].
    unfold execute_sample. cbv [mbind M_bind get mret M_ret].
    replace (run_samples mst) with true by (by destruct HR as (fs & -> & _)).
    rewrite (R_same_environment _ _ HR), Hc', HN by done.
    destruct shows as [expected|]; [|done]. rewrite (text_of_R st2 mst2), (Hshows expected) by done.
    by rewrite bool_decide_true.
  - apply continue_Done in He as [-> ->]. apply frag_stack; [done|]. intros mst exec fuel stack HR _.
    cbn [step_op rev app]. unfold execute_sample. cbv [mbind M_bind get mret M_ret].
    by replace (run_samples mst) with false by (by destruct HR as (fs & -> & _)).
Qed.

(** ** Declarations *)

Lemma next_ref_ready st : ready st → ready (set_next_ref (next_ref st + 1) st).
Proof using Type. intros Hr. by eapply fresh_ready; [|exact Hr]. Qed.

(** The tree's function and the machine's. *)
Lemma function_R st mst r f f' :
  R st mst → fun_rel f f' →
  R (set_functions (<[r := f]> (functions st)) st) (set_functions (<[r := f']> (functions mst)) mst).
Proof using Type.
  intros (fs & -> & Hfs) Hf. exists (<[r := f']> fs). split; [done|]. by apply funs_rel_insert.
Qed.

Lemma function_ready st r f : ready st → (∃ ss, f_body f = Body_Tree ss) →
  ready (set_functions (<[r := f]> (functions st)) st).
Proof using Type.
  intros [Hp [? ? Hf ?]] Hb. split; [done|]. split; [done..| |done]. cbn. intros r' f'.
  rewrite lookup_insert. case_decide; [by intros [= <-]|apply Hf].
Qed.

Lemma agrees_function top name tp params rt ne cn ss span :
  tame_stmt top (Stmt_Function name tp params rt ne cn ss span) = true →
  stmt_agrees (Stmt_Function name tp params rt ne cn ss span).
Proof.
  intros Ht b f st flow st' Hg Hr He. node Ht Hg He Hr. gen Hg code. injection Hg as <-.
  apply bind_Done in He as (ref & st1 & [= <- <-] & He).
  apply bind_Done in He as ([] & st2 & [= <-] & He).
  apply bind_Done in He as ([] & st3 & Hd & [-> ->]%continue_Done).
  unfold declare_function in Hd. apply bind_Done in Hd as (? & ? & [= <- <-] & Hd).
  apply bind_Done in Hd as (s & ? & [Hs ->]%scope_at_Done & Hd).
  destruct (bool_decide (is_Some (s_values s !! name))) eqn:Hnew; [done|].
  apply bind_Done in Hd as (? & ? & [= <- <-] & Hd).
  apply bind_Done in Hd as (replaced & ? & Hi & [= <-]).
  pose proof (insert_new _ _ _ _ _ _ _ Hs Hnew Hi) as ->.
  eapply frag_cons; [|apply insert_frag; [|exact Hi]].
  - apply frag_op; [done|]. intros mst HR. eexists _, 0%nat. split.
    + apply (function_R (set_next_ref (next_ref st + 1) st) (set_next_ref (next_ref st + 1) mst));
        [by destruct HR as (fs & -> & Hfs); exists fs|].
      apply (mkFunRel _ (mkFunction name (map param_name params)
        (Body_Bytecode (function_chunk code span)) (environment st))); try done.
      exists ss, code, span. done.
    + intros F fuel stack _ _. cbn [step_op rev app].
      destruct HR as (fs & -> & _).
      by apply (next_plain (Op_MakeFunction name (map param_name params) (function_chunk code span))
        span b (V_Function (next_ref st))); [apply Hr|eexists].
  - apply (function_ready (set_next_ref (next_ref st + 1) st)); [|by eexists]. by apply next_ref_ready.
Qed.

(** [Record], [Enum] and [Protocol]. *)
Lemma declare_value_frag b op name (value : N → Value) span st flow st' :
  ready st → (∀ ref, charged (value ref)) → declare_value name value st = Done flow st' →
  (∀ mst exec fuel stack, R st mst → step_op exec fuel op span stack b mst =
     (ref ← fresh; _ ← declare name (value ref); next op span b (value ref :: stack)) mst) →
  frag b [ins op span] [] st (flow_reach flow) st'.
Proof.
  intros Hr Hv (ref & st1 & Hf & Hd)%bind_Done Hop.
  apply bind_Done in Hd as ([] & st2 & Hd & [-> ->]%continue_Done).
  pose proof (fresh_ready _ _ _ Hf Hr) as Hr1.
  assert (plain st2) as Hp2 by (eapply stays_plain, Hr1; by eapply keeps_declare).
  apply frag_op; [done|]. intros mst HR.
  destruct (R_blind _ _ _ _ _ blind_fresh HR Hf) as (mst1 & Hf' & HR1).
  destruct (R_blind _ _ _ _ _ (blind_declare _ _) HR1 Hd) as (mst2 & Hd' & HR2).
  exists mst2, 0%nat. split; [done|]. intros F fuel stack _ _. rewrite Hop by done.
  cbv [mbind M_bind]. rewrite Hf', Hd'. apply next_plain; [by eapply R_plain|done].
Qed.

Lemma agrees_record name tp fields derives span : stmt_agrees (Stmt_Record name tp fields derives span).
Proof.
  intros b f st flow st' Hg Hr He. cbn [gen_stmt statement] in Hg. injection Hg as <-.
  cbn [execute_stmt] in He. apply enter_Done in He; [|done].
  apply bind_Done in He as (? & ? & [= <- <-] & He).
  eapply declare_value_frag; [done| |exact He|]; [by eexists|].
  by intros mst exec fuel stack (fs & -> & _).
Qed.

Lemma agrees_enum name tp variants span : stmt_agrees (Stmt_Enum name tp variants span).
Proof.
  intros b f st flow st' Hg Hr He. cbn [gen_stmt statement] in Hg. injection Hg as <-.
  cbn [execute_stmt] in He. apply enter_Done in He; [|done].
  apply bind_Done in He as (? & ? & [= <- <-] & He).
  eapply declare_value_frag; [done| |exact He|]; [by eexists|].
  by intros mst exec fuel stack (fs & -> & _).
Qed.

Lemma agrees_protocol name members span : stmt_agrees (Stmt_Protocol name members span).
Proof.
  intros b f st flow st' Hg Hr He. cbn [gen_stmt statement] in Hg. injection Hg as <-.
  cbn [execute_stmt] in He. apply enter_Done in He; [|done].
  apply bind_Done in He as (? & ? & [= <- <-] & He).
  eapply declare_value_frag; [done| |exact He|]; [by eexists|].
  by intros mst exec fuel stack (fs & -> & _).
Qed.

(** [Adoption]: where a member stands matters only to errors. *)
Lemma fold_map {A B S} (g : A → B) (f : S → B → M W S) (f' : S → A → M W S) l s :
  (∀ s a, also (f' s a) (f s (g a))) → also (fold_left_M f' l s) (fold_left_M f (map g l) s).
Proof using Type.
  intros Hf. revert s. induction l as [|x l IH]; intros s; [apply also_refl|]. cbn.
  apply also_bind; [apply Hf|]. intros. apply IH.
Qed.

Lemma adopt_Done protocol ty members span st flow st' :
  adopt_members protocol ty members st = Done flow st' →
  ∃ v, flow = Flow_Continue v ∧
    adopt protocol (schema_name ty) (map (λ m, (adoption_member m, adoption_implementation m)) members)
      span st = Done v st'.
Proof using Type.
  intros (? & ? & [= <- <-] & He)%bind_Done.
  apply bind_Done in He as ([] & st1 & Hf & [-> ->]%continue_Done). eexists. split; [done|].
  unfold adopt. change ((get ≫= ?f) st) with (f st st). cbv beta zeta. unfold mbind at 1, M_bind at 1.
  erewrite fold_map; [by destruct members| |exact Hf]. cbv beta.
  intros [] m. apply also_bind; [apply also_refl|intros st2].
  apply also_bind; [|intros v; apply also_refl]. apply also_lift.
  intros v. cbv beta iota. unfold ok_or. by destruct (lookup_name st2 (adoption_implementation m)).
Qed.

Lemma agrees_adoption protocol ty members span : stmt_agrees (Stmt_Adoption protocol ty members span).
Proof.
  intros b f st flow st' Hg Hr He. cbn [gen_stmt statement] in Hg. injection Hg as <-.
  cbn [execute_stmt] in He. apply enter_Done in He; [|done].
  apply (adopt_Done _ _ _ span) in He as (v & -> & Ha). apply frag_op; [done|]. intros mst HR.
  destruct (R_blind _ _ _ _ _ (blind_adopt _ _ _ _) HR Ha) as (mst' & Ha' & HR').
  exists mst', 0%nat. split; [done|]. intros F fuel stack _ _. cbn [step_op rev app].
  cbv [mbind M_bind]. by rewrite Ha'.
Qed.

(** ** Modules *)

Lemma namespace_ready ns st : ready st → ready (set_namespace ns st).
Proof using Type. intros [Hp []]. by split. Qed.

Lemma agrees_module name ss exports span :
  Forall stmt_agrees ss → stmt_agrees (Stmt_Module name ss exports span).
Proof.
  intros A b f st flow st' Hg Hr He. cbn [gen_stmt] in Hg. chunk_of Hg fb. injection Hg as <-.
  cbn [execute_stmt] in He. apply enter_Done in He; [|done].
  apply bind_Done in He as (? & ? & [= <- <-] & He). apply bind_Done in He as (env & st1 & Hc & He).
  apply bind_Done in He as (fl & st2 & (st3 & E & ->)%in_environment_Done & Hk).
  apply bind_Done in E as (? & ? & [= <- <-] & (st4 & E & ->)%finally_Done).
  apply bind_Done in E as ([] & ? & [= <-] & E). destruct fl as [v0|v0| |]; try done.
  apply bind_Done in Hk as (scope & ? & Hs & Hk). apply bind_Done in Hk as (values & ? & Hv & Hk).
  apply bind_Done in Hk as (ref & st5 & Hf & Hk). apply bind_Done in Hk as ([] & st6 & Hd & [-> ->]%continue_Done).
  pose proof (child_ready (globals st) [] _ _ _ eq_refl Hr Hc) as Hr1.
  pose proof (namespace_ready (namespace st1 ++ [name]) _ (ready_environment env _ Hr1)) as Hr2.
  apply frag_op; [done|]. intros mst HR. destruct (child_sim _ _ _ _ _ _ HR Hc) as (mst1 & Hc' & HR1).
  assert (R (set_namespace (namespace st1 ++ [name]) (set_environment env st1))
            (set_namespace (namespace mst1 ++ [name]) (set_environment env mst1))) as HR2
    by (destruct HR1 as (fs & -> & ?); by exists fs).
  destruct (block_sim _ _ _ _ _ _ A G Hr2 HR2 E) as (mst4 & N & HR4 & HN).
  assert (R (set_environment (environment st1) (set_namespace (namespace st1) st4))
            (set_environment (environment mst1) (set_namespace (namespace mst1) mst4))) as HR5
    by (destruct HR1 as (fs & -> & ?), HR4 as (fs' & -> & ?); by exists fs').
  destruct (R_blind _ _ _ _ _ (blind_scope_at _) HR5 Hs) as (mst5 & Hs' & HR6).
  destruct (R_blind _ _ _ _ _ (blind_lift _) HR6 Hv) as (mst6 & Hv' & HR7).
  destruct (R_blind _ _ _ _ _ blind_fresh HR7 Hf) as (mst7 & Hf' & HR8).
  destruct (R_blind _ _ _ _ _ (blind_declare _ _) HR8 Hd) as (mst8 & Hd' & HR9).
  exists mst8, N. split; [done|]. intros F fuel stack HF _. cbn [step_op rev app].
  unfold execute_module, in_environment, finally. unfold declare in Hd'. cbv [mbind M_bind get update] in *.
  replace (globals mst) with (globals st) by (by destruct HR as (fs & -> & _)).
  rewrite Hc'. cbn [namespace set_environment]. rewrite HN by done. rewrite Hs', Hv', Hf'.
  destruct (insert_binding _ _ _ mst7) as [old mst9|?| | |]; try done. injection Hd' as ->. done.
Qed.

(** ** All statements *)

Lemma Forall_top top ss :
  Forall (λ s, ∀ top, tame_stmt top s = true → stmt_agrees s) ss →
  forallb (tame_stmt top) ss = true → Forall stmt_agrees ss.
Proof using Type.
  intros Hss. apply Forall_tame. eapply Forall_impl; [exact Hss|]. eauto.
Qed.

Lemma tame_stmt_agrees s top : tame_stmt top s = true → stmt_agrees s.
Proof.
  revert top. induction s using Stmt_nested_ind; intros top Ht.
  - destruct s; try done.
    all: try (by eapply agrees_nothing).
    all: try (intros b f st flow st' _ Hr He; cbn [execute_stmt] in He; apply enter_Done in He; done).
    all: eauto using agrees_prepare, agrees_let, agrees_let_pattern, agrees_expression, agrees_print,
      agrees_stop, agrees_skip, agrees_promise, agrees_return, agrees_record, agrees_enum,
      agrees_protocol, agrees_adoption.
  - apply (agrees_block top); [done|]. by apply (Forall_top false).
  - pose proof Ht as Ht'. cbn [tame_stmt] in Ht'. rewrite !andb_true_iff in Ht'. destruct Ht' as [[_ ?] ?].
    apply (agrees_if top); [done|eauto|]. destruct e; cbn in *; eauto.
  - pose proof Ht as Ht'. cbn [tame_stmt] in Ht'. rewrite !andb_true_iff in Ht'. destruct Ht' as [[_ ?] ?].
    apply (agrees_if_carries top); [done|eauto|]. destruct e; cbn in *; eauto.
  - pose proof Ht as Ht'. cbn [tame_stmt] in Ht'. rewrite !andb_true_iff in Ht'. destruct Ht' as [[_ ?] ?].
    apply (agrees_while top); eauto.
  - apply agrees_sample. by apply (Forall_top true).
  - pose proof Ht as Ht'. cbn [tame_stmt] in Ht'. rewrite !andb_true_iff in Ht'. destruct Ht' as [_ ?].
    apply (agrees_for top); eauto.
  - pose proof Ht as Ht'. cbn [tame_stmt] in Ht'. rewrite !andb_true_iff in Ht'. destruct Ht' as [[_ ?] ?].
    apply (agrees_using top); eauto.
  - by eapply agrees_function.
  - apply agrees_module. by apply (Forall_top true).
Qed.

Lemma tame_list_agrees top ss : forallb (tame_stmt top) ss = true → Forall stmt_agrees ss.
Proof.
  intros Ht. apply Forall_forall. intros s Hs. apply (tame_stmt_agrees s top).
  rewrite forallb_forall in Ht. by apply Ht, list_elem_of_In.
Qed.
End simulation.

(** ** Function bodies *)

(** The chunk of a function whose body ends with [flow]. *)
Lemma function_frag code span st flow st' :
  ready st' → frag 0 code [] st (flow_reach flow) st' →
  match flow with
  | Flow_Continue _ => frag 0 (code ++ [ins (Op_Constant Literal_Null) span; ins Op_Return span]) []
      st (Leaves (Flow_Return V_Null)) st'
  | Flow_Return v => frag 0 (code ++ [ins (Op_Constant Literal_Null) span; ins Op_Return span]) []
      st (Leaves (Flow_Return v)) st'
  | _ => True
  end.
Proof.
  intros Hr Hf. destruct flow as [v|v| |]; [|by apply frag_leaves|done..].
  eapply frag_seq; [exact Hf|]. eapply frag_cons; [by apply (frag_constant _ _ [v] Literal_Null)|].
  apply frag_return; [done|]. intros mst HR. exists mst, 0%nat. split; [by apply R_R_env|done].
Qed.

Lemma bodies_agree_all F0 : bodies_agree F0.
Proof.
  induction F0 as [|F0 IH]; intros ss code span st mst flow st' Ht Hg Hr HR He; [done|].
  cbn [execute_with] in He. apply block_Done in He as (st1 & E & ->).
  destruct (list_ready F0 _ _ _ _ _ E Hr) as [Hr1 _].
  pose proof (list_frag F0 IH ss 0 code V_Null st flow st1 (tame_list_agrees F0 IH true ss Ht) Hg Hr E
    ltac:(done)) as Hf.
  pose proof (function_frag code span st flow st1 Hr1 Hf) as Hfun.
  destruct flow as [v|v| |]; try done;
    destruct (frag_chunk BYTECODE_VERSION _ _ _ _ mst Hfun HR) as (mst' & N & HR' & HN);
    exists mst', N; (split; [exact HR'|exact HN]).
Qed.

(** ** Programs *)

Lemma run_tree_statements rules F program v st w st' :
  run_tree_with rules F program v st = Done w st' →
  run_statements (execute_stmt (execute_with rules F) F (rule_get rules) (rule_redeclare rules))
    program v st = Done (Flow_Continue w) st'.
Proof using Type.
  revert v st. induction program as [|s program IH]; intros v st.
  - by intros [= -> ->].
  - cbn [run_tree_with run_statements]. intros (flow & st1 & E & Hk)%bind_Done.
    cbv [mbind M_bind]. rewrite E. destruct flow; try done. by apply IH.
Qed.

Lemma program_sim F0 program code st v st' mst :
  forallb (tame_stmt true) program = true → gen_stmts gen_stmt 0 program = Some code →
  ready st → R st mst → run_tree_with strict_rules F0 program V_Null st = Done v st' →
  ∃ mst' N, R (ended st st') mst' ∧ ∀ F, (N ≤ F)%nat →
    execute F (mkChunk BYTECODE_VERSION code) mst = Done (Flow_Continue v) mst'.
Proof.
  intros Ht Hg Hr HR E%run_tree_statements. pose proof (bodies_agree_all F0) as Hb.
  pose proof (list_frag F0 Hb program 0 code V_Null st _ st' (tame_list_agrees F0 Hb true _ Ht) Hg Hr E
    ltac:(done)) as Hf.
  exact (frag_chunk BYTECODE_VERSION code st _ st' mst Hf HR).
Qed.
End agree.
