(* ===== verification/AgreeOk.v ===== *)
(** * The two engines agree

    The theorems of the comparison of the tree interpreter and the machine, on
    expressions and on whole programs, their instances on the recording host of
    [VmOk], and the programs on which the engines are seen to differ. *)
From S2P Require Import Prelude Ast Bytecode Codegen Verifier Values ValuesOk Gate.
From S2P Require Import Vm Tree TreeLift Engine Clean CleanTree VmMono VmKeeps VmOk.
From S2P Require Import Sim AgreeExpr AgreeStmt.
Open Scope list_scope.

(** The two engines agree on expressions: in related states, when the tree
    interpreter evaluates a tame expression, without budgets and without reading
    a field of a record that has two fields of that name, the machine running
    the compiled expression ends, with enough fuel and any more, in a related
    state: with the same value, or, where the tree interpreter passes an
    [or give] on as an internal return, with a return of that value.  Calls,
    assignments, patterns, guards and text literals are included. *)
Theorem engines_agree {W} `{Foreign} `{!Host W, !HostQuiet W, !HostBlind W, !HostClean W, !Uncancelled W}
    F0 e chunk (st mst st' : Interp W) v :
  tame e = true → compile_expression e = Some chunk → ready st → R st mst →
  evaluate (execute_with strict_rules F0) F0 distinct_get e st = Done v st' →
  evaluate (execute F0) F0 tree_get e st = Done v st' ∧
  ∃ mst' N, related (value_reach v) st' mst' ∧
    ∀ F, (N ≤ F)%nat → execute F chunk mst = Done (value_flow v) mst'.
Proof.
  intros Ht Hg Hr HR He. split.
  - eapply (evaluate_rel (@also W)); [| |exact He].
    + intros. apply (ref_call (@also W)); [apply strict_execute|done].
    + intros. apply strict_get.
  - rewrite compile_expression_gen in Hg. apply new_chunk_Some in Hg as (f & Hg & ->).
    pose proof (bodies_agree_all F0) as Hb. apply (chunk_sim F0 Hb e f st v st' mst); try done.
    by apply tame_agrees.
Qed.

(** C3: The two engines agree on programs, under these conditions: the program is
    tame; the state has no budgets, no functions and no internal returns; the
    tree interpreter runs the program to its end under the strict rules, which
    refuse a second function of one name in a scope and the members of a record
    with two fields of one name; the natives of the host leave promises and
    budgets alone, do not look at functions or at the place of the call and give
    no internal returns, and the task is not cancelled.  Then the tree interpreter ends so under its own rules, and the
    bytecode loop (native tier off, no collections) running the compiled program
    ends, with enough fuel and any more, with the same value in the same state:
    the same bindings, output, dispatch table, call depth and world.  Only the
    promises of the program are over, and its functions are the compiled ones.
    Functions, calls, returns, loops, blocks, patterns, modules, samples and
    resources are included.  Without the strict rules the engines differ
    ([engines_differ]). *)
Theorem programs_agree {W} `{Foreign} `{!Host W, !HostQuiet W, !HostBlind W, !HostClean W, !Uncancelled W}
    F0 program chunk (st st' : Interp W) v :
  forallb (tame_stmt true) program = true → compile program = Some (Ok chunk) →
  plain st → tidy st → functions st = ∅ →
  run_tree_with strict_rules F0 program V_Null st = Done v st' →
  run_tree F0 program V_Null st = Done v st' ∧
  ∃ N fs, funs_rel (functions st') fs ∧
    ∀ F, (N ≤ F)%nat → run_bytecode F chunk st = Done v (set_functions fs (ended st st')).
Proof.
  intros Ht Hc Hp Hti Hf He. split; [by eapply strict_run_tree|].
  unfold compile in Hc. rewrite statements_gen, appended_nil, len_nil in Hc.
  destruct (gen_stmts gen_stmt 0 program) as [code|] eqn:Hg; [|done]. cbn [mbind option_bind] in Hc.
  destruct (verify _) as [[]|] eqn:Hv; [|done]. injection Hc as <-.
  assert (R st st) as HR.
  { exists ∅. split; [rewrite <- Hf; by destruct st|]. rewrite Hf. apply funs_rel_empty. }
  destruct (program_sim F0 program code st v st' st Ht Hg (conj Hp Hti) HR He)
    as (mst' & N & (fs & -> & Hfs) & HN).
  exists N, fs. split; [exact Hfs|]. intros F HF. unfold run_bytecode. cbv [mbind M_bind].
  rewrite Hv. cbn [lift]. cbv [mret M_ret]. by rewrite HN.
Qed.

(** C40: Internal returns stay internal: a program that the tree interpreter runs
    to its end from a state that holds no [EarlyReturn] gives a value without
    one at any depth, and leaves none in any binding of any scope and in any
    implementation of a protocol, provided that natives given values without
    internal returns give such values back. *)
Theorem internal_returns_stay_internal {W} `{Foreign} `{!Host W, !HostClean W}
    F program (st st' : Interp W) v :
  tidy st → run_tree F program V_Null st = Done v st' → clean v = true ∧ tidy st'.
Proof.
  intros Ht He. assert (gives (run_tree F program V_Null) (λ v, clean v = true)) as Hg.
  { apply gives_run_tree; [|done]. intros ref w name span r. apply clean_get. }
  by destruct (Hg _ _ _ Ht He) as (? & _ & ?).
Qed.

(** ** On the recording host *)

Import Trace Programs.

#[export] Instance trace_quiet : HostQuiet Trace.World.
Proof.
  split.
  - intros f arguments span st v st' [= <- <-]. done.
  - by intros ref span st v st' [= <- <-].
  - by intros kind ref span st v st' [= <- <-].
  - by intros f arguments span span' st v st'.
  - by intros schema name arguments span span' v.
Qed.
#[export] Instance trace_blind : HostBlind Trace.World.
Proof. split; intros; intros fs st; done. Qed.
#[export] Instance trace_clean : HostClean Trace.World.
Proof.
  split.
  - intros f arguments span _. apply (gives_bind _ _ anything); [|intros; by apply gives_ret].
    by apply gives_update, tidies_other.
  - by intros schema name arguments span v _ [= <-].
  - intros ref span. by apply gives_ret.
  - intros kind ref span. by apply gives_ret.
Qed.
#[export] Instance trace_uncancelled : Uncancelled Trace.World.
Proof. done. Qed.

(** States that start tidy. *)
Lemma start_tidy bindings promises :
  forallb (λ '(_, v), clean v) bindings = true → tidy (start bindings promises).
Proof.
  intros Hb. split; cbn; [|done|done|].
  - intros r s n b [<- <-]%lookup_singleton_Some. cbn. intros Hn%elem_of_list_to_map_2.
    apply list_elem_of_fmap in Hn as ([n' v] & [= -> ->] & Hin). cbn.
    rewrite forallb_forall in Hb. exact (Hb (n', v) (proj1 (list_elem_of_In _ _) Hin)).
  - intros r s [<- _]%lookup_singleton_Some. lia.
Qed.

Definition sample_start : Interp Trace.World := start [("read", V_Native read_native)] [].

(** [choose read("a") { otherwise => 1 + 2 }] *)
Definition sample_expression : Expr :=
  Expr_Match (Expr_Call (var "read")
                [Expr_Literal (Literal_String "a") (here 1)] None (here 1))
    [mkMatchArm [Pattern_Any (here 2)] None
       (Expr_Binary (int 1) Tk_Plus (int 2) (here 3)) (here 4)]
    (here 5).

(** Where the tree interpreter ends. *)
Definition sample_end : Interp Trace.World :=
  match evaluate (execute_with strict_rules 20) 20 distinct_get sample_expression sample_start with
  | Done _ st | Fail _ st => st
  | _ => sample_start
  end.

Lemma sample_ready : ready sample_start.
Proof. split; [done|]. by apply start_tidy. Qed.

Lemma sample_related : R sample_start sample_start.
Proof. exists ∅. split; [done|]. apply funs_rel_empty. Qed.

Lemma engines_agree_witness :
  world sample_end = [read_native] ∧
  ∃ chunk mst' N, compile_expression sample_expression = Some chunk ∧
    related (value_reach (V_Int 3)) sample_end mst' ∧
    ∀ F, (N ≤ F)%nat → execute F chunk sample_start = Done (Flow_Continue (V_Int 3)) mst'.
Proof.
  split; [vm_compute; reflexivity|].
  destruct (compile_expression sample_expression) as [chunk|] eqn:Hc; [|vm_compute in Hc; discriminate].
  destruct (engines_agree 20 sample_expression chunk sample_start sample_start sample_end (V_Int 3))
    as [_ (mst' & N & HR & HN)].
  - reflexivity.
  - exact Hc.
  - exact sample_ready.
  - exact sample_related.
  - vm_compute. reflexivity.
  - exists chunk, mst', N. split; [reflexivity|]. split; [exact HR|exact HN].
Defined.

(** [to find(n) { for each i in [1, 2, 3] { if i == n { give i } } give 0 }
     say find(2)  let t be 0  while t < 3 { set t to t + 1 }  say t] *)
Definition sample_program : list Stmt :=
  [ Stmt_Function "find" [] [mkParam "n" None (here 1)] None [] []
      [ Stmt_For "i" None (Expr_Array [int 1; int 2; int 3] (here 2))
          (Stmt_Block
             [ Stmt_If (Expr_Binary (var "i") Tk_EqualEqual (var "n") (here 3))
                 (Stmt_Block [Stmt_Return (Some (var "i")) (here 3)] (here 3)) None (here 3) ]
             (here 2))
          (here 2);
        Stmt_Return (Some (int 0)) (here 4) ]
      (here 1);
    Stmt_Print (Expr_Call (var "find") [int 2] None (here 5)) (here 5);
    Stmt_Let "t" true None (int 0) (here 6);
    Stmt_While (Expr_Binary (var "t") Tk_Less (int 3) (here 7))
      (Stmt_Block
         [ Stmt_Expression (Expr_Assign "t" (Expr_Binary (var "t") Tk_Plus (int 1) (here 8)) (here 8)) ]
         (here 7))
      (here 7);
    Stmt_Print (var "t") (here 9) ].

Definition program_end : Interp Trace.World :=
  match run_tree_with strict_rules 50 sample_program V_Null (start [] []) with
  | Done _ st | Fail _ st => st
  | _ => start [] []
  end.

Lemma programs_agree_witness :
  printed program_end = ["2"; "3"] ∧
  ∃ N fs, ∀ F, (N ≤ F)%nat →
    run_bytecode F (chunk_of sample_program) (start [] [])
    = Done V_Null (set_functions fs (ended (start [] []) program_end)).
Proof.
  split; [vm_compute; reflexivity|].
  destruct (programs_agree 50 sample_program (chunk_of sample_program) (start [] []) program_end V_Null)
    as [_ (N & fs & _ & HN)].
  - reflexivity.
  - vm_compute. reflexivity.
  - split; reflexivity.
  - by apply start_tidy.
  - reflexivity.
  - vm_compute. reflexivity.
  - exists N, fs. exact HN.
Defined.

(** [to attempt() { let x be bad or give  give x }  let r be attempt()] *)
Definition giving_program : list Stmt :=
  [ Stmt_Function "attempt" [] [] None [] []
      [ Stmt_Let "x" false None (Expr_Propagate (var "bad") (here 2)) (here 2);
        Stmt_Return (Some (var "x")) (here 3) ]
      (here 1);
    Stmt_Let "r" false None (Expr_Call (var "attempt") [] None (here 4)) (here 4) ].

Definition giving_start : Interp Trace.World := start [("bad", V_Err (V_Int 1))] [].

Lemma internal_returns_witness :
  ∃ st', run_tree 50 giving_program V_Null giving_start = Done (V_Err (V_Int 1)) st' ∧ tidy st'.
Proof.
  destruct (run_tree 50 giving_program V_Null giving_start) as [v st'|e st'| | |] eqn:He;
    [|vm_compute in He; discriminate..].
  assert (v = V_Err (V_Int 1)) as -> by (vm_compute in He; by injection He).
  destruct (internal_returns_stay_internal 50 giving_program giving_start st' (V_Err (V_Int 1)))
    as [_ Ht].
  - by apply start_tidy.
  - exact He.
  - exists st'. split; [reflexivity|exact Ht].
Defined.

(** ** Where the engines differ *)

(** [{ promise never FileRead }  read("a")] *)
Definition promise_in_block : list Stmt :=
  [ Stmt_Block [Stmt_Promise [never_read] (here 1)] (here 1);
    Stmt_Expression (Expr_Call (var "read") [Expr_Literal (Literal_String "a") (here 2)] None (here 2)) ].

Definition entered {A} (o : outcome Trace.World A) : option (list NativeFunction) :=
  match o with Done _ st => Some (world st) | _ => None end.

(** A promise made in a nested block ends with the block in the tree
    interpreter, which enters the native after it, and lasts to the end of the
    chunk on the machine, which refuses it: the compiled block has no code that
    ends its promises. *)
Theorem promise_in_block_differs :
  entered (run_tree 50 promise_in_block V_Null sample_start) = Some [read_native] ∧
  entered (run_program 50 promise_in_block sample_start) = None ∧
  (∃ e st, run_program 50 promise_in_block sample_start = Fail e st ∧ world st = []).
Proof. split_and!; [vm_compute; reflexivity..|]. eexists _, _. vm_compute. done. Qed.

(** [to f() { give 1 }  to f() { give 2 }  say f()] *)
Definition redeclared : list Stmt :=
  let f n := Stmt_Function "f" [] [] None [] [] [Stmt_Return (Some (int n)) (here 1)] (here 1) in
  [ f 1%Z; f 2%Z; Stmt_Print (Expr_Call (var "f") [] None (here 3)) (here 3) ].

(** On two more kinds of program the engines do not agree, outside the
    tame ones or the strict rules: after a [while] body that leaves its block
    with [stop], the tree interpreter sees the outer binding again and the
    machine the inner one; a second declaration of a function in a scope
    replaces the first in the tree interpreter and is refused by the machine. *)
Lemma engines_differ :
  output (run_tree 50 shadowing_while V_Null (start [] [])) = Some ["1"] ∧
  output (run_program 50 shadowing_while (start [] [])) = Some ["2"] ∧
  output (run_tree 50 redeclared V_Null (start [] [])) = Some ["2"] ∧
  (∃ e st, run_program 50 redeclared (start [] []) = Fail e st).
Proof. split_and!; [vm_compute; reflexivity..|]. eexists _, _. vm_compute. reflexivity. Qed.
