(* ===== verification/Collector.v ===== *)
(** * The garbage collector

    Marking, sweeping and the generational collector of src/src/runtime.rs over
    the store of the machine, and the machine with its collections.  Scopes are
    never freed here, only emptied as the source empties them; which of them
    still have an owner, as [Weak] answers it, is the function [strong] of the
    store.  The thread that marks is represented by what polling it gives. *)
From S2P Require Import Prelude Ast Bytecode Verifier Values Gate Vm Tree Engine.
Open Scope list_scope.

(** What the handles of the host hold: the elements of an iterator with its
    callback, the entries of a transaction, the value of a lock.  [held_weight]
    bounds the size of what is found there. *)
Class Holds := { held : HandleKind → N → list Value; held_weight : HandleKind → N → nat }.

(** ** Marking *)

(** A scope or a value that is still to be visited. *)
Inductive Item := Env_item (env : N) | Value_item (v : Value).

Section marking.
Context `{Holds} (scopes : gmap N Scope) (functions : gmap N Function).

(** [mark_value]: what it goes on to. *)
Definition value_parts (v : Value) : list Item :=
  match v with
  | V_Function ref => match functions !! ref with Some f => [Env_item (f_closure f)] | None => [] end
  | V_Array values | V_Set values => map Value_item values
  | V_Map entries => entries ≫= λ '(key, value), [Value_item key; Value_item value]
  | V_Handle (H_Iterator | H_Transaction | H_Lock | H_LockGuard) ref as v =>
      match v with V_Handle kind _ => map Value_item (held kind ref) | _ => [] end
  | V_Record _ fields => map (λ '(_, value), Value_item value) fields
  | V_Enum _ _ (Some payload) => [Value_item payload]
  | V_Ok value | V_Err value | V_EarlyReturn value => [Value_item value]
  | V_Module _ members => map (λ '(_, value), Value_item value) members
  | _ => []
  end.

(** [mark_environment]: the parent, then the values. *)
Definition scope_parts (s : Scope) : list Item :=
  match s_parent s with Some parent => [Env_item parent] | None => [] end
  ++ map (λ '(_, b), Value_item (b_value b)) (map_to_list (s_values s)).

(** [mark_environment] and [mark_value], with the calls that are still to be
    made as a list. *)
Fixpoint mark (fuel : nat) (work : list Item) (marked : gset N) : option (gset N) :=
  match work with
  | [] => Some marked
  | item :: work =>
      match fuel with
      | O => None
      | S fuel =>
          match item with
          | Value_item v => mark fuel (value_parts v ++ work) marked
          | Env_item env =>
              if bool_decide (env ∈ marked) then mark fuel work marked
              else mark fuel (match scopes !! env with Some s => scope_parts s | None => [] end ++ work)
                     ({[env]} ∪ marked)
          end
      end
  end.

(** Enough calls. *)
Fixpoint value_weight (v : Value) : nat :=
  match v with
  | V_Function _ => 2
  | V_Array values | V_Set values => S (foldr (λ v n, (value_weight v + n)%nat) 0%nat values)
  | V_Map entries => S (foldr (λ '(k, v) n, (value_weight k + (value_weight v + n))%nat) 0%nat entries)
  | V_Handle kind ref => S (held_weight kind ref)
  | V_Record _ fields => S (foldr (λ '(_, v) n, (value_weight v + n)%nat) 0%nat fields)
  | V_Enum _ _ (Some payload) => S (value_weight payload)
  | V_Ok value | V_Err value | V_EarlyReturn value => S (value_weight value)
  | V_Module _ members => S (foldr (λ '(_, v) n, (value_weight v + n)%nat) 0%nat members)
  | _ => 1
  end.
Definition item_weight (item : Item) : nat := match item with Env_item _ => 1 | Value_item v => value_weight v end.
Definition items_weight (items : list Item) : nat := foldr (λ item n, (item_weight item + n)%nat) 0%nat items.
Definition store_weight : nat := foldr (λ '(_, s) n, (items_weight (scope_parts s) + n)%nat) 0%nat (map_to_list scopes).

(** What a collection starts from. *)
Record Roots := mkRoots { o_globals : N; o_current : N; o_roots : list N; o_stack : list Value }.
Definition root_items (o : Roots) : list Item :=
  Env_item (o_globals o) :: Env_item (o_current o) :: map Env_item (o_roots o) ++ map Value_item (o_stack o).

(** [mark_roots] *)
Definition mark_roots (o : Roots) : option (gset N) :=
  mark (items_weight (root_items o) + store_weight) (root_items o) ∅.
End marking.

(** ** Sweeping *)

Definition cleared : Scope := mkScope ∅ None.

Section sweeping.
Context (strong : gmap N Scope → N → bool).

Definition eligible (young_ages : option (gmap N N)) (env : N) : bool :=
  match young_ages with Some ages => default 0 (ages !! env) <? 2 | None => true end.

(** [sweep_environments] *)
Definition sweep_one (marked : gset N) (young_ages : option (gmap N N)) (scopes : gmap N Scope) (env : N) : gmap N Scope :=
  if strong scopes env && eligible young_ages env && negb (bool_decide (env ∈ marked))
  then alter (λ _, cleared) env scopes
  else scopes.
Definition sweep_environments (marked : gset N) (young_ages : option (gmap N N)) (environments : list N)
    (scopes : gmap N Scope) : list N * gmap N Scope :=
  let scopes := foldl (sweep_one marked young_ages) scopes environments in
  (filter (λ env, strong scopes env = true) environments, scopes).

(** [refresh_ages] *)
Definition older (age : option N) : option N := Some (N.min (N.min (default 0 age + 1) 255) 2).
Definition refresh_ages (marked : gset N) (environments : list N) (scopes : gmap N Scope) (ages : gmap N N) : gmap N N :=
  let live := filter (λ env, strong scopes env = true) environments in
  let ages := foldl (λ ages env, if bool_decide (env ∈ marked) then partial_alter older env ages else ages) ages live in
  filter (λ '(env, _), env ∈ live) ages.

(** ** The collector *)

(** [GenerationalCollector] *)
Record Gc := mkGc {
  g_collections : N; g_minor : N; g_major : N; g_cycles : N; g_ages : gmap N N; g_pending : bool }.
Definition new_gc : Gc := mkGc 0 0 0 0 ∅ false.

(** What [try_recv] gives. *)
Inductive Poll := Ready (marked : gset N) | Empty | Disconnected.

Context `{Holds} (functions : gmap N Function) (o : Roots).

(** The collector, the scopes it tracks and the store. *)
Record Heap := mkHeap { h_gc : Gc; h_environments : list N; h_scopes : gmap N Scope }.

Definition succ (n : N) : N := saturating_add_u64 n 1.

(** Mark, sweep and age: [also] is marked besides, [minor] spares the old. *)
Definition sweep_marked (also : gset N) (minor pending : bool) (h : Heap) : option Heap :=
  marked ← mark_roots (h_scopes h) functions o;
  let marked := also ∪ marked in
  let gc := h_gc h in
  let '(environments, scopes) :=
    sweep_environments marked (if minor then Some (g_ages gc) else None) (h_environments h) (h_scopes h) in
  Some (mkHeap
    (mkGc (succ (g_collections gc)) (if minor then succ (g_minor gc) else g_minor gc)
       (if minor then g_major gc else succ (g_major gc)) (g_cycles gc)
       (refresh_ages marked environments scopes (g_ages gc)) pending)
    environments scopes).

Definition set_cycles (cycles : N) (pending : bool) (h : Heap) : Heap :=
  let gc := h_gc h in
  mkHeap (mkGc (g_collections gc) (g_minor gc) (g_major gc) cycles (g_ages gc) pending) (h_environments h) (h_scopes h).

(** [Collector::collect] *)
Definition collect (poll : Poll) (h : Heap) : option Heap :=
  h ← (if g_pending (h_gc h) then
         match poll with
         | Ready marked => sweep_marked marked false false h
         | Empty => Some h
         | Disconnected => Some (set_cycles (g_cycles (h_gc h)) false h)
         end
       else Some h);
  let cycles := succ (g_cycles (h_gc h)) in
  let h := set_cycles cycles (g_pending (h_gc h)) h in
  if negb (g_pending (h_gc h)) && (cycles mod 8 =? 0) then Some (set_cycles cycles true h)
  else sweep_marked ∅ true (g_pending (h_gc h)) h.

(** [Collector::collect_full] *)
Definition collect_full (h : Heap) : option Heap := sweep_marked ∅ false false h.
End sweeping.

(** ** The machine with its collections *)

(** Where the interpreter keeps its collector. *)
Class Collects (W : Type) := {
  gc_of : W → Gc; ticks_of : W → N; set_gc : Gc → N → W → W;
  polled : W → Poll; gc_stress : W → bool; has_owner : W → gmap N Scope → N → bool }.

Section machine.
Context {W : Type} `{Foreign} `{Host W} `{Holds} `{Collects W}.

(** The scopes made by [child_scope]: all but the globals. *)
Definition environments (st : Interp W) : list N :=
  filter (λ env, env ≠ globals st) (map fst (map_to_list (scopes st))).

(** [maybe_collect] with the stack of the running chunk *)
Definition maybe_collect (roots : list N) (stack : list Value) : M W unit := fun st =>
  let w := world st in
  let ticks := saturating_add_u64 (ticks_of w) 1 in
  if gc_stress w || (1024 <=? ticks) then
    match collect (has_owner w) (functions st) (mkRoots (globals st) (environment st) roots stack) (polled w)
            (mkHeap (gc_of w) (environments st) (scopes st)) with
    | Some h => Done tt (set_world (set_gc (h_gc h) 0 w) (set_scopes (h_scopes h) st))
    | None => OutOfFuel
    end
  else Done tt (set_world (set_gc (gc_of w) ticks w) st).

(** A call of a function goes on without a collection. *)
Definition collects (op : Op) (stack : list Value) : bool :=
  match op with
  | Op_Call arity | Op_PerformCall arity =>
      match stack !! N.to_nat arity with Some (V_Function _) => false | _ => true end
  | _ => true
  end.

Section loop.
Variable exec : list N → FunctionBody → M W VmFlow.

(** The loop of [execute_chunk_vm]; what runs inside a step has the scope it
    started in as a root.  The collection follows the charge for
    the memory of the result here; the source has the two the other way round,
    which shows only in the scopes that a failing charge leaves behind. *)
Fixpoint run_collecting (roots : list N) (fuel : nat) (code : Code) (stack : list Value) (pc : N) : M W VmFlow :=
  if pc <? len code then
    match fuel with
    | O => out_of_fuel
    | S fuel =>
        st ← get;
        s ← step (exec (environment st :: roots)) fuel code stack pc;
        match s with
        | Step_Next pc' stack' =>
            _ ← match code !! N.to_nat pc with
                | Some (mkInstruction op _) =>
                    if collects op stack then maybe_collect roots stack' else mret tt
                | None => mret tt
                end;
            run_collecting roots fuel code stack' pc'
        | Step_Return v => mret (Flow_Return v)
        | Step_Stop => mret Flow_Stop
        | Step_Skip => mret Flow_Skip
        end
    end
  else
    _ ← check_cancelled;
    mret (Flow_Continue (default V_Null (head stack))).
End loop.

(** [execute_chunk] with collections *)
Fixpoint execute_collecting (fuel : nat) (roots : list N) (body : FunctionBody) : M W VmFlow :=
  match fuel with
  | O => out_of_fuel
  | S fuel =>
      match body with
      | Body_Bytecode chunk =>
          st ← get;
          finally (run_collecting (execute_collecting fuel) roots fuel (chunk_code chunk) [] 0)
            (λ st', set_promises (take (length (active_promises st)) (active_promises st')) st')
      | Body_Tree ss =>
          block (execute_stmt (execute_collecting fuel roots) fuel (rule_get source_rules)
                   (rule_redeclare source_rules)) ss
      end
  end.

(** [run_bytecode] with collections *)
Definition run_bytecode_collecting (fuel : nat) (chunk : Chunk) : M W Value :=
  _ ← lift (verify chunk);
  flow ← execute_collecting fuel [] chunk;
  match flow with
  | Flow_Continue value => mret value
  | Flow_Return _ => throw (NivError_new "give may only appear inside a function" 1 1)
  | Flow_Stop | Flow_Skip => throw (loop_exit_escape_error (mkSpan 1 1))
  end.
End machine.
