(* ===== verification/CollectorOk.v ===== *)
(** * Correctness of the collector

    Marking ends and marks exactly what is live; a collection leaves every live
    scope as it was, whatever the marking thread reports, and a full one empties
    everything else.  The machine with its collections ends under a budget.  What
    it hands to a collection as roots is not all it still uses: a program by
    computation shows a closure that loses its scope. *)
From S2P Require Import Prelude Ast Bytecode Verifier Values ValuesOk Gate Vm Tree Engine VmEnds Collector.
Open Scope list_scope.


Section marking.
Context `{Holds} (scopes : gmap N Scope) (functions : gmap N Function).
Local Set Default Proof Using "Type".

(** ** Liveness *)


(** ** Marking is sound *)


(** ** Marking is complete *)








(** ** Marking ends *)









End marking.

(** ** Sweeping *)

Section sweeping.
Context (strong : gmap N Scope → N → bool).
Local Set Default Proof Using "Type".



End sweeping.

(** ** Collections *)

Section collections.
Context `{HoldsLaws} (strong : gmap N Scope → N → bool) (functions : gmap N Function) (o : Roots).
Local Set Default Proof Using "Type".







End collections.



(** ** Budgets *)

Section budgets.
Context {W : Type} `{Foreign} `{!Host W, !HostEnds W} `{HoldsLaws} `{!Collects W}.
Local Set Default Proof Using "All".




End budgets.

(** ** What the machine forgets *)

Definition nothing_held : Holds := {| held _ _ := []; held_weight _ _ := 0%nat |}.

(** An interpreter whose world is its collector and the ticks since the last
    collection; its natives do nothing. *)
Definition Kept : Type := Gc * N.

Definition kept_host : Host Kept := {|
  host_cancelled _ := false; host_native _ _ _ := mret V_Null; host_derived _ _ _ _ := Ok V_Null;
  host_drain _ _ := mret []; host_close _ _ _ := mret tt;
  host_path_is_within _ path scope := bool_decide (path = scope); host_canonicalize _ path := Some path |}.
Definition kept_collects : Collects Kept := {|
  gc_of := fst; ticks_of := snd; set_gc gc ticks _ := (gc, ticks);
  polled _ := Empty; gc_stress _ := false; has_owner _ _ _ := true |}.
Definition kept_start : Interp Kept :=
  mkInterp 0 {[0 := mkScope ∅ None]} ∅ 1 0 [] [] ∅ 0 128 None None None ∅ false (64 * 1024 * 1024) [] (new_gc, 0).


Definition at_line (line : N) : Span := mkSpan line 1.
Definition named (x : string) : Expr := Expr_Variable x (at_line 1).
Definition numeral (z : Z) : Expr := Expr_Literal (Literal_Int z) (at_line 1).
Definition calling (f : string) (arguments : list Expr) : Expr := Expr_Call (named f) arguments None (at_line 1).
Definition defining (f : string) (params : list string) (body : list Stmt) : Stmt :=
  Stmt_Function f [] (map (λ p, mkParam p None (at_line 1)) params) None [] [] body (at_line 1).

(** [define make takes x { define inner { give x }  give inner }
     define spin { keep t set 0  while t < 100 { change t }  give t }
     define first takes f, n { give f() }
     show first(make(7), spin())] *)
Definition forgetful : list Stmt :=
  [ defining "make" ["x"]
      [ defining "inner" [] [Stmt_Return (Some (named "x")) (at_line 1)];
        Stmt_Return (Some (named "inner")) (at_line 1) ];
    defining "spin" []
      [ Stmt_Let "t" true None (numeral 0) (at_line 1);
        Stmt_While (Expr_Binary (named "t") Tk_Less (numeral 100) (at_line 1))
          (Stmt_Block [Stmt_Expression (Expr_Assign "t" (Expr_Binary (named "t") Tk_Plus (numeral 1) (at_line 1)) (at_line 1))] (at_line 1))
          (at_line 1);
        Stmt_Return (Some (named "t")) (at_line 1) ];
    defining "first" ["f"; "n"] [Stmt_Return (Some (calling "f" [])) (at_line 1)];
    Stmt_Print (calling "first" [calling "make" [numeral 7]; calling "spin" []]) (at_line 1) ].



Definition reported {W A} (o : outcome W A) : option (list string * option string) :=
  match o with
  | Done _ st => Some (printed st, None)
  | Fail e st => Some (printed st, Some (err_message e))
  | _ => None
  end.

(** C21: a collection takes the scope of a closure that waits on the stack of a
    caller.  The machine hands over the stack of the chunk that runs and no
    other: in a program that passes a closure and the result of a long call to a
    function, the collection during that call empties the scope of the closure,
    which then does not find its own variable; without collections the program
    prints it. *)
Theorem collection_forgets_caller :
  ∃ chunk, compile forgetful = Some (Ok chunk) ∧
    reported (@run_bytecode Kept plain_foreign kept_host 2000 chunk kept_start) = Some (["7"], None) ∧
    reported (@run_bytecode_collecting Kept plain_foreign kept_host nothing_held kept_collects 2000 chunk kept_start)
    = Some ([], Some "undefined name 'x'").
Proof.
  destruct (compile forgetful) as [[chunk|]|] eqn:Hc; [|by vm_compute in Hc..].
  exists chunk. vm_compute in Hc. split; [reflexivity|].
  injection Hc as <-. split; vm_compute; reflexivity.
Qed.


