(* ===== verification/Text.v ===== *)
(** * Text

    The pieces of Rust's [char] and [str] that the scanner and the formatter
    use: Unicode scalar values, the UTF-8 encoding a [String] holds, iteration
    with [chars()], the character classes, trimming, and the number parsers of
    the standard library on the texts the scanner hands them.

    The Unicode tables behind [char::is_alphabetic] and [char::is_numeric] are
    a parameter, the class [Unicode]; its laws fix them on ASCII, which is what
    the documentation of the two methods promises. *)
From Stdlib Require Import Floats.SpecFloat.
From S2P Require Import Prelude Ast Values.

(** ** Scalar values *)

(** A [char]: a Unicode scalar value. *)
Notation char := N (only parsing).

(** [char::from_u32] *)
Definition from_u32 (n : N) : option char :=
  if (n <? 0xD800) || (0xDFFF <? n) && (n <=? 0x10FFFF) then Some n else None.

(** The scalar value a one-character ASCII literal denotes. *)
Definition ch (s : string) : char :=
  match s with String a _ => Ascii.N_of_ascii a | EmptyString => 0 end.

Definition newline : char := 10.
Definition carriage_return : char := 13.
Definition tab : char := 9.
Definition quote : char := 34.
Definition backslash : char := 92.

(** [char::is_ascii_digit] and [char::is_ascii_hexdigit] *)
Definition is_ascii_digit (c : char) : bool := (48 <=? c) && (c <=? 57).
Definition is_ascii_hexdigit (c : char) : bool :=
  is_ascii_digit c || (65 <=? c) && (c <=? 70) || (97 <=? c) && (c <=? 102).

Definition is_ascii_alphabetic (c : char) : bool :=
  (65 <=? c) && (c <=? 90) || (97 <=? c) && (c <=? 122).

(** [char::is_whitespace]: the code points with the property White_Space. *)
Definition is_white (c : char) : bool :=
  (9 <=? c) && (c <=? 13) || (c =? 32) || (c =? 0x85) || (c =? 0xA0)
  || (c =? 0x1680) || (0x2000 <=? c) && (c <=? 0x200A) || (c =? 0x2028)
  || (c =? 0x2029) || (c =? 0x202F) || (c =? 0x205F) || (c =? 0x3000).

(** [char::is_alphabetic] and [char::is_numeric] consult Unicode tables; on
    ASCII they are the letters and the digits. *)
Class Unicode := {
  is_alphabetic : char → bool;
  is_numeric : char → bool;
  alphabetic_ascii : ∀ c, c < 128 → is_alphabetic c = is_ascii_alphabetic c;
  numeric_ascii : ∀ c, c < 128 → is_numeric c = is_ascii_digit c;
  alphabetic_not_white : ∀ c, is_alphabetic c = true → is_white c = false }.

(** [char::is_alphanumeric] *)
Definition is_alphanumeric `{Unicode} (c : char) : bool :=
  is_alphabetic c || is_numeric c.

(** Unicode tables that know ASCII only: enough to run the definitions on ASCII
    sources. *)
Lemma ascii_alphabetic_not_white c : is_ascii_alphabetic c = true → is_white c = false.
Proof.
  unfold is_ascii_alphabetic, is_white.
  rewrite orb_true_iff, !andb_true_iff, !N.leb_le. intros Hc.
  rewrite !orb_false_iff, !andb_false_iff, !N.leb_gt, !N.eqb_neq. lia.
Qed.

Definition ascii_tables : Unicode := {|
  is_alphabetic := is_ascii_alphabetic; is_numeric := is_ascii_digit;
  alphabetic_ascii c _ := eq_refl; numeric_ascii c _ := eq_refl;
  alphabetic_not_white := ascii_alphabetic_not_white |}.

(** ** Strings as characters *)

(** The UTF-8 encoding of one scalar value. *)
Definition encode_utf8 (c : char) : list byte :=
  let tail shift := byte_of_N (0x80 + N.land (N.shiftr c shift) 0x3F) in
  if c <? 0x80 then [byte_of_N c]
  else if c <? 0x800 then [byte_of_N (0xC0 + N.shiftr c 6); tail 0]
  else if c <? 0x10000 then [byte_of_N (0xE0 + N.shiftr c 12); tail 6; tail 0]
  else [byte_of_N (0xF0 + N.shiftr c 18); tail 12; tail 6; tail 0].

(** [chars.iter().collect::<String>()] *)
Definition str_of_chars (l : list char) : string :=
  string_of_bytes (l ≫= encode_utf8).

(** The decoding [str::chars] performs; a [str] is well-formed UTF-8, so a
    truncated sequence does not occur. *)
Definition continued (b : byte) : N := N.land (Byte.to_N b) 0x3F.

Fixpoint decode_utf8 (l : list byte) : list char :=
  match l with
  | [] => []
  | b0 :: l1 =>
    let n := Byte.to_N b0 in
    if n <? 0x80 then n :: decode_utf8 l1
    else match l1 with
    | [] => []
    | b1 :: l2 =>
      if n <? 0xE0 then
        N.shiftl (N.land n 0x1F) 6 + continued b1 :: decode_utf8 l2
      else match l2 with
      | [] => []
      | b2 :: l3 =>
        if n <? 0xF0 then
          N.shiftl (N.land n 0xF) 12 + N.shiftl (continued b1) 6 + continued b2
          :: decode_utf8 l3
        else match l3 with
        | [] => []
        | b3 :: l4 =>
          N.shiftl (N.land n 0x7) 18 + N.shiftl (continued b1) 12
          + N.shiftl (continued b2) 6 + continued b3 :: decode_utf8 l4
        end
      end
    end
  end.

(** [s.chars().collect::<Vec<char>>()] *)
Definition chars_of_str (s : string) : list char := decode_utf8 (string_bytes s).

(** The characters of an ASCII literal. *)
Fixpoint ascii_chars (s : string) : list char :=
  match s with String a s => Ascii.N_of_ascii a :: ascii_chars s | EmptyString => [] end.

(** [trim_start] and [trim] on characters. *)
Fixpoint trim_start (l : list char) : list char :=
  match l with
  | c :: l' => if is_white c then trim_start l' else l
  | [] => []
  end.
Definition trim_end (l : list char) : list char := rev (trim_start (rev l)).
Definition trim (l : list char) : list char := trim_end (trim_start l).

(** [starts_with], [ends_with] and [contains] for a pattern of characters. *)
Definition starts_with (p l : list char) : bool := bool_decide (take (length p) l = p).
Definition ends_with (p l : list char) : bool := starts_with (rev p) (rev l).
Fixpoint contains (p l : list char) : bool :=
  starts_with p l || match l with [] => false | _ :: l => contains p l end.

(** ** Numbers *)

(** The value of a hexadecimal digit ([char::to_digit]). *)
Definition digit_value (c : char) : N :=
  if is_ascii_digit c then c - 48 else if c <? 97 then c - 55 else c - 87.

(** A non-empty run of digits below [radix]; a sign is not part of the texts
    the scanner passes. *)
Definition from_digits (radix : N) (l : list char) : option N :=
  match l with
  | [] => None
  | _ =>
    foldM (λ c n,
      if is_ascii_hexdigit c && (digit_value c <? radix)
      then Some (n * radix + digit_value c) else None) l 0
  end.

(** [i64::from_str_radix] and, with radix ten, [str::parse::<i64>]. *)
Definition i64_from_digits (radix : N) (l : list char) : option Z :=
  n ← from_digits radix l;
  if (n <=? 9223372036854775807) then Some (Z.of_N n) else None.

(** [u32::from_str_radix] *)
Definition u32_from_digits (radix : N) (l : list char) : option N :=
  n ← from_digits radix l; if (n <=? u32_max) then Some n else None.

(** The longest prefix whose characters satisfy [p], and what follows it. *)
Fixpoint span (p : char → bool) (l : list char) : list char * list char :=
  match l with
  | c :: l' => if p c then let '(w, r) := span p l' in (c :: w, r) else ([], l)
  | [] => ([], [])
  end.

Lemma span_spec p l w r :
  span p l = (w, r) →
  l = w ++ r ∧ Forall (λ c, p c = true) w ∧ match r with c :: _ => p c = false | [] => True end.
Proof.
  revert w r. induction l as [|c l IH]; cbn; intros w r.
  - intros H. by simplify_eq.
  - destruct (p c) eqn:Hp.
    + destruct (span p l) as [w' r'] eqn:Hs. intros H. simplify_eq.
      destruct (IH _ _ eq_refl) as (-> & ? & ?). split_and!; [done|by constructor|done].
    + intros H. by simplify_eq.
Qed.

(** The binary64 number nearest to [m * 10 ^ e], ties to even. *)
Definition f64_of_decimal (m : N) (e : Z) : f64 :=
  match m with
  | 0 => 0
  | Npos m =>
    let '(num, den) :=
      (if (0 <=? e)%Z then (Zpos m * 10 ^ e, 1) else (Zpos m, 10 ^ (- e)))%Z in
    let '(q, e', l) := SFdiv_core_binary 53 1024 num 0 den 0 in
    bits_of_float (binary_round_aux 53 1024 false q e' l)
  end.

(** [str::parse::<f64>] on a text of the form [digits [. digits] [e [sign] digits]];
    the signs, infinities and names the parser also knows are not passed to
    it. *)
Definition f64_from_str (l : list char) : option f64 :=
  let '(whole, l) := span is_ascii_digit l in
  let '(fraction, l) :=
    match l with
    | c :: l' => if c =? ch "." then span is_ascii_digit l' else ([], l)
    | [] => ([], [])
    end in
  m ← from_digits 10 (whole ++ fraction);
  let scale := Z.of_nat (length fraction) in
  match l with
  | [] => Some (f64_of_decimal m (- scale)%Z)
  | c :: l =>
    if (c =? ch "e") || (c =? ch "E") then
      let '(negative, l) :=
        match l with
        | c :: l' => if c =? ch "-" then (true, l') else if c =? ch "+" then (false, l')
                     else (false, l)
        | [] => (false, [])
        end in
      e ← from_digits 10 l;
      Some (f64_of_decimal m ((if negative then - Z.of_N e else Z.of_N e) - scale)%Z)
    else None
  end.

Example f64_from_str_values :
  f64_from_str (ascii_chars "1.5") = Some 0x3FF8000000000000 ∧
  f64_from_str (ascii_chars "0.1") = Some 0x3FB999999999999A ∧
  f64_from_str (ascii_chars "1e23") = Some 0x44B52D02C7E14AF6 ∧
  f64_from_str (ascii_chars "2.5e-3") = Some 0x3F647AE147AE147B ∧
  f64_from_str (ascii_chars "5e-324") = Some 1 ∧
  f64_from_str (ascii_chars "1e400") = Some 0x7FF0000000000000 ∧
  f64_from_str (ascii_chars "0.0") = Some 0.
Proof. vm_compute. repeat split. Qed.
