(* ===== verification/Strs.v ===== *)
(** * Slices of texts and ordered maps

    The methods of [str] that take a text apart ([lines], [split], [split_once],
    [strip_prefix], [strip_suffix]), [Path::components] of the Unix targets, and
    the order in which a [BTreeMap] is iterated.

    A text is the list of its characters.  A [BTreeMap] is a finite map, and its
    iteration the list of its entries sorted by key; texts are compared by their
    characters, which is the order of their UTF-8 bytes. *)
From stdpp Require Import sorting.
From S2P Require Import Prelude Text.
Open Scope list_scope.

(** ** Pieces of a text *)

(** [str::as_bytes] *)
Definition as_bytes (text : list char) : list byte := text ≫= encode_utf8.

Definition is_empty {A} (l : list A) : bool := match l with [] => true | _ => false end.

(** [text.ends_with([c1, c2, …])] *)
Definition ends_in (cs : list char) (l : list char) : bool :=
  match last l with Some c => existsb (N.eqb c) cs | None => false end.

(** [str::lines] *)
Definition strip_return (l : list char) : list char :=
  if ends_in [carriage_return] l then removelast l else l.
Fixpoint str_lines (line l : list char) : list (list char) :=
  match l with
  | [] => if is_empty line then [] else [line]
  | c :: l =>
      if c =? newline then strip_return line :: str_lines [] l
      else str_lines (line ++ [c]) l
  end.

(** [str::split] with one character. *)
Fixpoint split_char (a : char) (l : list char) : list (list char) :=
  match l with
  | [] => [[]]
  | c :: l =>
      if c =? a then [] :: split_char a l
      else match split_char a l with
           | part :: parts => (c :: part) :: parts
           | [] => [[c]]
           end
  end.

(** [str::split_once] *)
Fixpoint split_once (a : char) (l : list char) : option (list char * list char) :=
  match l with
  | [] => None
  | c :: l => if c =? a then Some ([], l) else '(x, y) ← split_once a l; Some (c :: x, y)
  end.

(** [str::strip_prefix] and [str::strip_suffix] *)
Fixpoint strip_prefix (p l : list char) : option (list char) :=
  match p, l with
  | [], _ => Some l
  | a :: p, c :: l => if a =? c then strip_prefix p l else None
  | _ :: _, [] => None
  end.
Definition strip_suffix (p l : list char) : option (list char) :=
  r ← strip_prefix (rev p) (rev l); Some (rev r).

Lemma strip_prefix_iff p l r : strip_prefix p l = Some r ↔ l = p ++ r.
Proof.
  revert l. induction p as [|a p IH]; intros [|c l]; cbn; [naive_solver..|].
  destruct (N.eqb_spec a c) as [->|Hac]; [|naive_solver]. rewrite IH. naive_solver.
Qed.

Lemma strip_suffix_iff p l r : strip_suffix p l = Some r ↔ l = r ++ p.
Proof.
  unfold strip_suffix. rewrite bind_Some. setoid_rewrite strip_prefix_iff. split.
  - intros (k & Hk & [= <-]). rewrite <- (rev_involutive l), Hk, rev_app_distr. by rewrite rev_involutive.
  - intros ->. exists (rev r). by rewrite rev_app_distr, rev_involutive.
Qed.

Lemma split_once_iff a l x y : split_once a l = Some (x, y) ↔ l = x ++ a :: y ∧ a ∉ x.
Proof.
  revert x. induction l as [|c l IH]; intros x; cbn.
  - split; [done|]. intros [He _]. by destruct x.
  - destruct (N.eqb_spec c a) as [->|Hca].
    + split; [intros [= <- <-]; split; [done|apply not_elem_of_nil]|].
      intros [He Ha]. destruct x as [|b x]; [by injection He as ->|].
      injection He as -> ->. by destruct Ha; left.
    + destruct (split_once a l) as [[x' y']|] eqn:E; cbn.
      * split.
        -- intros [= <- <-]. destruct (proj1 (IH x')) as [-> Hx]; [done|]. split; [done|].
           apply not_elem_of_cons. by split; [congruence|].
        -- intros [He Ha]. destruct x as [|b x]; [by injection He as ->|].
           injection He as <- He. apply not_elem_of_cons in Ha as [_ Ha].
           assert (Some (x', y') = Some (x, y)) as [= -> ->] by (apply IH; by split). done.
      * split; [done|]. intros [He Ha]. destruct x as [|b x]; [by injection He as ->|].
        injection He as <- He. apply not_elem_of_cons in Ha as [_ Ha].
        assert (None = Some (x, y)) by (apply IH; by split). done.
Qed.

(** The lines of a text that ends each of them. *)
Lemma str_lines_line line l rest :
  newline ∉ l → str_lines line (l ++ newline :: rest) = strip_return (line ++ l) :: str_lines [] rest.
Proof.
  revert line. induction l as [|c l IH]; intros line Hl; cbn [str_lines app]; [by rewrite app_nil_r|].
  apply not_elem_of_cons in Hl as [Hc Hl]. destruct (N.eqb_spec c newline) as [->|_]; [done|].
  rewrite IH by done. by rewrite <- app_assoc.
Qed.

Lemma str_lines_no_newline line l k : newline ∉ line → k ∈ str_lines line l → newline ∉ k.
Proof.
  revert line. induction l as [|c l IH]; intros line Hline; cbn [str_lines].
  - destruct (is_empty line); [by intros ?%not_elem_of_nil|]. by intros ->%list_elem_of_singleton.
  - destruct (N.eqb_spec c newline) as [->|Hc].
    + rewrite elem_of_cons. intros [->|Hk]; [|by eapply IH, Hk; apply not_elem_of_nil].
      unfold strip_return. destruct (ends_in _ _) eqn:He; [|done].
      intros Hin. apply Hline. rewrite (app_removelast_last 0 (l := line)).
      * apply elem_of_app. by left.
      * intros ->. done.
    + apply IH. rewrite elem_of_app, list_elem_of_singleton. naive_solver.
Qed.

Lemma split_char_none a l : a ∉ l → split_char a l = [l].
Proof.
  induction l as [|c l IH]; [done|]. intros [Hc Hl]%not_elem_of_cons. cbn.
  destruct (N.eqb_spec c a) as [->|_]; [done|]. by rewrite IH.
Qed.

Lemma split_char_head a l : a ∉ default [] (head (split_char a l)) ∧ (∀ c, c ∈ default [] (head (split_char a l)) → c ∈ l).
Proof.
  induction l as [|c l [IHa IHl]]; cbn; [split; [apply not_elem_of_nil|done]|].
  destruct (N.eqb_spec c a) as [->|Hca]; cbn; [split; [apply not_elem_of_nil|by intros ? ?%elem_of_nil]|].
  destruct (split_char a l) as [|part parts]; cbn in *.
  - split; [by rewrite list_elem_of_singleton|]. intros d ->%list_elem_of_singleton. by left.
  - split; [by apply not_elem_of_cons|]. intros d. rewrite !elem_of_cons. naive_solver.
Qed.

Lemma split_char_Forall (P : char → Prop) a l :
  P a → Forall (Forall P) (split_char a l) → Forall P l.
Proof.
  intros Pa. induction l as [|c l IH]; [done|]. cbn.
  destruct (N.eqb_spec c a) as [->|_].
  - intros [_ H]%Forall_cons. constructor; [done|by apply IH].
  - destruct (split_char a l) as [|part parts].
    + intros [[Hc _]%Forall_cons _]%Forall_cons. constructor; [done|]. by apply IH.
    + intros [[Hc Hp]%Forall_cons Hps]%Forall_cons. constructor; [done|]. apply IH. by constructor.
Qed.

(** ** Trimming *)

Lemma trim_start_subset c l : c ∈ trim_start l → c ∈ l.
Proof.
  induction l as [|d l IH]; cbn; [done|]. destruct (is_white d); [|done]. right. by apply IH.
Qed.
Lemma trim_subset c l : c ∈ trim l → c ∈ l.
Proof.
  unfold trim, trim_end. rewrite list_elem_of_In, <- in_rev, <- list_elem_of_In.
  intros H%trim_start_subset. apply trim_start_subset.
  by rewrite list_elem_of_In, <- in_rev, <- list_elem_of_In in H.
Qed.

(** A text that begins and ends with ink. *)
Definition inked (l : list char) : Prop :=
  (∀ c, head l = Some c → is_white c = false) ∧ (∀ c, last l = Some c → is_white c = false).

Lemma trim_start_white pre l :
  Forall (λ c, is_white c = true) pre → (∀ c, head l = Some c → is_white c = false) → trim_start (pre ++ l) = l.
Proof.
  intros Hpre Hl. induction Hpre as [|c pre Hc _ IH]; cbn.
  - destruct l as [|c l]; [done|]. cbn. by rewrite (Hl c).
  - by rewrite Hc.
Qed.

Lemma trim_padded pre l post :
  Forall (λ c, is_white c = true) pre → Forall (λ c, is_white c = true) post → inked l →
  trim (pre ++ l ++ post) = l.
Proof.
  intros Hpre Hpost [Hh Ht]. destruct l as [|c l].
  - unfold trim, trim_end. rewrite <- (app_nil_r (pre ++ [] ++ post)), trim_start_white; [done| |done].
    by apply Forall_app.
  - unfold trim. rewrite trim_start_white by done. unfold trim_end. rewrite rev_app_distr.
    rewrite trim_start_white; [apply rev_involutive|by apply Forall_rev|].
    intros d Hd. apply Ht. destruct (rev (c :: l)) as [|e r] eqn:E; [done|]. injection Hd as ->.
    rewrite <- (rev_involutive (c :: l)), E. cbn. apply last_snoc.
Qed.

Lemma trim_inked l : inked l → trim l = l.
Proof. intros Hl. rewrite <- (app_nil_r l) at 1. by apply (trim_padded [] l []). Qed.

(** ** Paths *)

(** [std::path::Component] on Unix *)
Inductive Component := RootDir | CurDir | ParentDir | NormalDir (name : list char).

#[export] Instance Component_eq_dec : EqDecision Component.
Proof. solve_decision. Defined.

Definition slash : char := 47.

(** The component one piece between slashes stands for. *)
Definition component (part : list char) : option Component :=
  if bool_decide (part = [] ∨ part = ascii_chars ".") then None
  else if bool_decide (part = ascii_chars "..") then Some ParentDir
  else Some (NormalDir part).

(** [Path::is_absolute] and [Path::components] *)
Definition is_absolute (path : list char) : bool := starts_with [slash] path.

Definition components (path : list char) : list Component :=
  let parts := split_char slash path in
  (if is_absolute path then [RootDir]
   else if bool_decide (head parts = Some (ascii_chars ".")) then [CurDir] else [])
  ++ omap component parts.

(** [Path::join] *)
Definition path_join (base path : list char) : list char :=
  if is_absolute path then path
  else if is_empty base || ends_in [slash] base then base ++ path
  else base ++ slash :: path.

Example components_values :
  components (ascii_chars "a//b/./c/") = map (NormalDir ∘ ascii_chars) ["a"; "b"; "c"] ∧
  components (ascii_chars "./a/..") = [CurDir; NormalDir (ascii_chars "a"); ParentDir] ∧
  components (ascii_chars "/a") = [RootDir; NormalDir (ascii_chars "a")] ∧
  components [] = [].
Proof. by vm_compute. Qed.

(** ** Ordered iteration *)

(** [Ord] for [str] and for pairs of texts. *)
Fixpoint str_leb (a b : list char) : bool :=
  match a, b with
  | [], _ => true
  | _ :: _, [] => false
  | x :: a, y :: b => (x <? y) || (x =? y) && str_leb a b
  end.
Definition pair_leb (a b : list char * list char) : bool :=
  if bool_decide (a.1 = b.1) then str_leb a.2 b.2 else str_leb a.1 b.1.

(** A total order on the keys of an ordered map. *)
Class Ordered (K : Type) `{EqDecision K} := {
  key_leb : K → K → bool;
  key_leb_total : ∀ a b, key_leb a b = true ∨ key_leb b a = true;
  key_leb_trans : ∀ a b c, key_leb a b = true → key_leb b c = true → key_leb a c = true;
  key_leb_antisym : ∀ a b, key_leb a b = true → key_leb b a = true → a = b }.

Lemma str_leb_total a b : str_leb a b = true ∨ str_leb b a = true.
Proof.
  revert b. induction a as [|x a IH]; intros [|y b]; cbn; [by left..|by right|].
  rewrite !orb_true_iff, !andb_true_iff, !N.ltb_lt, !N.eqb_eq.
  destruct (N.lt_trichotomy x y) as [?|[->|?]]; [tauto| |tauto]. destruct (IH b); tauto.
Qed.
Lemma str_leb_trans a b c : str_leb a b = true → str_leb b c = true → str_leb a c = true.
Proof.
  revert b c. induction a as [|x a IH]; intros [|y b] [|z c]; cbn; try done.
  rewrite !orb_true_iff, !andb_true_iff, !N.ltb_lt, !N.eqb_eq.
  intros [?|[-> Hab]] [?|[-> Hbc]]; [left; lia|tauto|tauto|]. right. split; [done|]. by eapply IH.
Qed.
Lemma str_leb_antisym a b : str_leb a b = true → str_leb b a = true → a = b.
Proof.
  revert b. induction a as [|x a IH]; intros [|y b]; cbn; try done.
  rewrite !orb_true_iff, !andb_true_iff, !N.ltb_lt, !N.eqb_eq.
  intros [?|[Hxy Hab]] [?|[Hyx Hba]]; [lia|lia|lia|]. subst. f_equal. by apply IH.
Qed.

#[export] Instance str_ordered : Ordered (list char) := {|
  key_leb := str_leb; key_leb_total := str_leb_total;
  key_leb_trans := str_leb_trans; key_leb_antisym := str_leb_antisym |}.

#[export] Instance pair_ordered : Ordered (list char * list char).
Proof.
  refine {| key_leb := pair_leb |}; unfold pair_leb.
  - intros [a a'] [b b']; cbn. repeat case_bool_decide; subst; try done; apply str_leb_total.
  - intros [a a'] [b b'] [c c']; cbn. destruct (decide (a = b)) as [->|Hab].
    + rewrite (bool_decide_true (b = b)) by done. case_bool_decide; [apply str_leb_trans|done].
    + rewrite (bool_decide_false (a = b)) by done. destruct (decide (b = c)) as [->|Hbc].
      * rewrite (bool_decide_true (c = c)), bool_decide_false by done. done.
      * rewrite bool_decide_false by done. case_bool_decide; [|apply str_leb_trans].
        subst. intros Hl Hr. by destruct Hab; apply str_leb_antisym.
  - intros [a a'] [b b']; cbn. destruct (decide (a = b)) as [->|Hab].
    + rewrite (bool_decide_true (b = b)) by done. intros Hl Hr. f_equal. by apply str_leb_antisym.
    + rewrite !bool_decide_false by done. intros Hl Hr. by destruct Hab; apply str_leb_antisym.
Defined.

Section entries.
Context {K : Type} `{Countable K} `{!Ordered K} {A : Type}.
Implicit Types m : gmap K A.

Definition entry_le (p q : K * A) : Prop := key_leb p.1 q.1 = true.
#[export] Instance entry_le_dec : RelDecision entry_le.
Proof. intros p q. unfold entry_le. apply _. Defined.
#[export] Instance entry_le_total : Total entry_le.
Proof. intros p q. apply key_leb_total. Qed.
#[export] Instance entry_le_trans : Transitive entry_le.
Proof. intros p q r. apply key_leb_trans. Qed.

(** The iteration of a map. *)
Definition entries m : list (K * A) := merge_sort entry_le (map_to_list m).

Lemma entries_perm m : entries m ≡ₚ map_to_list m.
Proof. apply merge_sort_Permutation. Qed.
Lemma entries_NoDup m : NoDup (entries m).*1.
Proof. rewrite entries_perm. apply NoDup_fst_map_to_list. Qed.
Lemma elem_of_entries m k a : (k, a) ∈ entries m ↔ m !! k = Some a.
Proof. rewrite entries_perm. apply elem_of_map_to_list. Qed.
Lemma list_to_map_entries m : list_to_map (entries m) = m.
Proof.
  rewrite (list_to_map_proper _ (map_to_list m)); [apply list_to_map_to_list|apply entries_NoDup|apply entries_perm].
Qed.
Lemma entries_sorted m : StronglySorted entry_le (entries m).
Proof. apply StronglySorted_merge_sort; apply _. Qed.
Lemma length_entries m : length (entries m) = size m.
Proof. rewrite entries_perm. apply length_map_to_list. Qed.
Lemma entries_nil m : entries m = [] ↔ m = ∅.
Proof.
  split; [|by intros ->]. intros He. apply map_to_list_empty_iff, Permutation_nil. by rewrite <- (entries_perm m), He.
Qed.
End entries.

(** The iteration of a [BTreeSet]. *)
Definition str_le (a b : list char) : Prop := str_leb a b = true.
#[export] Instance str_le_dec : RelDecision str_le.
Proof. intros a b. unfold str_le. apply _. Defined.
Definition members (s : gset (list char)) : list (list char) := merge_sort str_le (elements s).

Lemma members_perm s : members s ≡ₚ elements s.
Proof. apply merge_sort_Permutation. Qed.
Lemma elem_of_members s k : k ∈ members s ↔ k ∈ s.
Proof. rewrite members_perm. apply elem_of_elements. Qed.
Lemma members_NoDup s : NoDup (members s).
Proof. rewrite members_perm. apply NoDup_elements. Qed.
Lemma list_to_set_members s : list_to_set (members s) = s.
Proof. rewrite members_perm. apply list_to_set_elements_L. Qed.
