(* ===== verification/Lexer.v ===== *)
(** * The scanner

    [Lexer] of src/src/lexer.rs: the cursor state, one definition per method,
    and [scan].  A method is a computation in the state monad [M]; [None] is a
    panic (an index past the end of the source) or a loop that was cut off.
    Loops run with one iteration of fuel more than there are characters left,
    which [LexerOk] shows to be enough.  Indices into the source are [nat];
    lines and columns count characters and cannot overflow for a source that
    fits in memory. *)
From S2P Require Import Prelude Ast Text.

Record Lexer := mkLexer {
  chars : list char;
  start : nat;
  current : nat;
  line : N;
  column : N;
  start_column : N;
  tokens : list Token;
  errors : list NivError }.

Definition set_start (s : Lexer) : Lexer :=
  mkLexer (chars s) (current s) (current s) (line s) (column s) (column s)
    (tokens s) (errors s).

(** ** The monad *)

Definition M (A : Type) : Type := Lexer → option (A * Lexer).
#[export] Instance M_ret : MRet M := λ A a s, Some (a, s).
#[export] Instance M_bind : MBind M := λ A B f m s,
  match m s with Some (a, s) => f a s | None => None end.

(** Read a field of the cursor. *)
Definition gets {A} (f : Lexer → A) : M A := λ s, Some (f s, s).

(** [while cond { body }], carrying the loop's local variables of type [V]. *)
Fixpoint loop {V} (fuel : nat) (cond : V → Lexer → bool) (body : V → M V) (v : V) : M V :=
  λ s,
    if cond v s then
      match fuel with
      | O => None
      | S fuel => (body v ≫= loop fuel cond body) s
      end
    else Some (v, s).

Definition while {V} (cond : V → Lexer → bool) (body : V → M V) (v : V) : M V :=
  λ s, loop (S (length (chars s) - current s)) cond body v s.

(** ** Cursor primitives *)

(** [Lexer::is_at_end] *)
Definition is_at_end (s : Lexer) : bool := (length (chars s) <=? current s)%nat.

(** [Lexer::peek] *)
Definition peek (s : Lexer) : char :=
  if is_at_end s then 0 else default 0 (chars s !! current s).

(** [Lexer::peek_next] *)
Definition peek_next (s : Lexer) : char :=
  if (length (chars s) <=? S (current s))%nat then 0
  else default 0 (chars s !! S (current s)).

(** [self.current += 1; self.column += 1] *)
Definition bump (s : Lexer) : Lexer :=
  mkLexer (chars s) (start s) (S (current s)) (line s) (column s + 1) (start_column s)
    (tokens s) (errors s).

(** [Lexer::advance] *)
Definition advance : M char := λ s,
  match chars s !! current s with Some c => Some (c, bump s) | None => None end.

(** [Lexer::matches] *)
Definition matches (expected : char) : M bool := λ s,
  if is_at_end s || negb (default 0 (chars s !! current s) =? expected)
  then Some (false, s) else Some (true, bump s).

(** [Lexer::add] *)
Definition add (kind : TokenKind) : M unit := λ s,
  Some (tt, mkLexer (chars s) (start s) (current s) (line s) (column s) (start_column s)
              (tokens s ++ [mkToken kind (line s) (start_column s)]) (errors s)).

(** [self.errors.push(NivError::new(message, line, column))] *)
Definition report (message : string) (at_line at_column : N) : M unit := λ s,
  Some (tt, mkLexer (chars s) (start s) (current s) (line s) (column s) (start_column s)
              (tokens s) (errors s ++ [NivError_new message at_line at_column])).

(** The two places a diagnostic points at. *)
Definition report_here (message : string) : M unit :=
  '(l, c) ← gets (λ s, (line s, column s)); report message l c.
Definition report_start (message : string) : M unit :=
  '(l, c) ← gets (λ s, (line s, start_column s)); report message l c.

(** [self.line += 1; self.column = 1] *)
Definition end_line : M unit := λ s,
  Some (tt, mkLexer (chars s) (start s) (current s) (line s + 1) 1 (start_column s)
              (tokens s) (errors s)).

(** [self.chars[self.start]] *)
Definition at_start : M char := λ s,
  match chars s !! start s with Some c => Some (c, s) | None => None end.

(** [&self.chars[from..self.current]] *)
Definition lexed_from (from : Lexer → nat) : M (list char) := λ s,
  match slice_get (chars s) (N.of_nat (from s)) (N.of_nat (current s)) with
  | Some l => Some (l, s)
  | None => None
  end.

Section scanner.
Context `{Unicode}.

(** [is_identifier_start] *)
Definition is_identifier_start (c : char) : bool :=
  (c =? ch "_") || is_alphabetic c.

(** [is_identifier_continue] *)
Definition is_identifier_continue (c : char) : bool :=
  is_identifier_start c || is_ascii_digit c.

(** ** Comments *)

(** [Lexer::block_comment] *)
Definition block_comment : M unit :=
  depth ← while (λ depth s, (0 <? depth) && negb (is_at_end s))
    (λ depth,
      closing ← gets (λ s, (peek s =? ch "*") && (peek_next s =? ch "/"));
      if (closing : bool) then _ ← advance; _ ← advance; mret (depth - 1)
      else c ← advance; _ ← (if c =? newline then end_line else mret tt); mret depth)
    1;
  if 0 <? depth then report_here "unterminated block comment" else mret tt.

(** The arm of [scan_token] for [//] and [///]. *)
Definition line_comment : M unit :=
  documentation ← matches (ch "/");
  text ← while (λ _ s, negb (peek s =? newline) && negb (is_at_end s))
           (λ text, c ← advance; mret (text ++ [c])) [];
  if (documentation : bool)
  then add (Tk_DocComment (str_of_chars (trim text))) else mret tt.

(** ** Strings *)

(** The contextual word before a string: is the last token this identifier? *)
Definition after_word (word : string) (s : Lexer) : bool :=
  match tok_kind <$> last (tokens s) with
  | Some (Tk_Identifier name) => bool_decide (name = word)
  | _ => false
  end.

(** What a string ends with: the closing quote, or the end of the source. *)
Definition close_string (value : list char) : M unit :=
  at_end ← gets is_at_end;
  if (at_end : bool) then report_start "unterminated string"
  else _ ← advance; add (Tk_String (str_of_chars value)).

(** The branch of [Lexer::string] for a [raw] string. *)
Definition raw_string : M unit :=
  value ← while (λ _ s, negb (is_at_end s) && negb (peek s =? quote))
    (λ value, c ← advance; _ ← (if c =? newline then end_line else mret tt);
              mret (value ++ [c]))
    [];
  close_string value.

(** The arm of [Lexer::string] for [\u{…}]: the opening brace is next. *)
Definition unicode_escape (value : list char) : M (list char) :=
  _ ← advance;
  digits ← while (λ digits s, is_ascii_hexdigit (peek s) && (len digits <=? 6))
             (λ digits, c ← advance; mret (digits ++ [c])) [];
  next ← gets peek;
  let scalar :=
    if (next =? ch "}") && negb (len digits =? 0) && (len digits <=? 6)
    then u32_from_digits 16 digits ≫= from_u32 else None in
  match scalar with
  | Some scalar => _ ← advance; mret (value ++ [scalar])
  | None =>
      _ ← report_here "invalid \u{…} escape; give 1-6 hex digits naming a Unicode scalar";
      mret value
  end.

(** A quotation mark in the text of a diagnostic. *)
Definition quote_str : string := string_of_bytes [x22].

(** The arm of [Lexer::string] for a backslash. *)
Definition escape (value : list char) : M (list char) :=
  escaped ← advance;
  next ← gets peek;
  if escaped =? ch "n" then mret (value ++ [newline])
  else if escaped =? ch "r" then mret (value ++ [carriage_return])
  else if escaped =? ch "t" then mret (value ++ [tab])
  else if escaped =? quote then mret (value ++ [quote])
  else if escaped =? backslash then mret (value ++ [backslash])
  else if (escaped =? ch "u") && (next =? ch "{") then unicode_escape value
  else
    _ ← report_here ("unknown escape '\" +:+ str_of_chars [escaped]
          +:+ "'; use \n, \r, \t, \" +:+ quote_str +:+ ", \\, or \u{…}");
    mret value.

(** The arm of [Lexer::string] for a string nested in a hole; its opening
    quote has been taken. *)
Definition nested_string (value : list char) : M (list char) :=
  value ← while (λ _ s, negb (is_at_end s) && negb (peek s =? quote))
    (λ value,
      nested ← advance;
      _ ← (if nested =? newline then end_line else mret tt);
      at_end ← gets is_at_end;
      if (nested =? backslash) && negb at_end
      then c ← advance; mret (value ++ [nested; c])
      else mret (value ++ [nested]))
    (value ++ [quote]);
  at_end ← gets is_at_end;
  if (at_end : bool) then mret value else _ ← advance; mret (value ++ [quote]).

(** One pass of the main loop of [Lexer::string]; the state is the depth of
    holes, the value so far, and whether the loop was left by [break]. *)
Definition string_step (hole_aware : bool) (v : N * list char * bool)
    : M (N * list char * bool) :=
  let '(depth, value, _) := v in
  c ← advance;
  if c =? newline then _ ← end_line; mret (depth, value ++ [newline], false)
  else if c =? backslash then
    at_end ← gets is_at_end;
    if (at_end : bool) then mret (depth, value, true)
    else value ← escape value; mret (depth, value, false)
  else if hole_aware && (c =? ch "{") then
    next ← gets peek;
    if next =? ch "{"
    then c ← advance; mret (depth, value ++ [ch "{"; c], false)
    else mret (depth + 1, value ++ [ch "{"], false)
  else if hole_aware && (c =? ch "}") && (0 <? depth) then
    mret (depth - 1, value ++ [ch "}"], false)
  else if hole_aware && (c =? quote) then
    value ← nested_string value; mret (depth, value, false)
  else mret (depth, value ++ [c], false).

(** [Lexer::string] *)
Definition string_token : M unit :=
  hole_aware ← gets (after_word "text");
  raw ← gets (after_word "raw");
  if (raw : bool) then raw_string
  else
    '(_, value, _) ←
      while (λ '(depth, _, broke) s,
               negb broke && negb (is_at_end s || (peek s =? quote) && (depth =? 0)))
        (string_step hole_aware) (0, [], false);
    close_string value.

(** ** Numbers *)

(** The closure [digits] of [Lexer::number]. *)
Definition digits : M unit :=
  while (λ _ s, is_ascii_digit (peek s) || (peek s =? ch "_"))
    (λ _, _ ← advance; mret tt) tt.

Definition drop_separators (l : list char) : list char :=
  filter (λ c, negb (c =? ch "_")) l.

(** The branch of [Lexer::number] for [0x…] and [0b…]. *)
Definition radix_number : M unit :=
  next ← gets peek;
  let radix := if next =? ch "x" then 16 else 2 in
  _ ← advance;
  _ ← while (λ _ s, is_ascii_hexdigit (peek s) || (peek s =? ch "_"))
        (λ _, _ ← advance; mret tt) tt;
  raw ← lexed_from (λ s, start s + 2)%nat;
  let digits := drop_separators raw in
  match i64_from_digits radix digits with
  | Some value =>
      if negb (len digits =? 0) then add (Tk_Int value) else report_start "invalid number"
  | None => report_start "invalid number"
  end.

(** The test that an exponent begins here. *)
Definition at_exponent (s : Lexer) : bool :=
  ((peek s =? ch "e") || (peek s =? ch "E"))
  && (is_ascii_digit (peek_next s)
      || ((peek_next s =? ch "+") || (peek_next s =? ch "-"))
         && match chars s !! (current s + 2)%nat with
            | Some c => is_ascii_digit c
            | None => false
            end).

Definition separators_valid (raw : list char) : bool :=
  negb (starts_with [ch "_"] raw) && negb (ends_with [ch "_"] raw)
  && negb (contains (ascii_chars "_.") raw) && negb (contains (ascii_chars "._") raw)
  && negb (contains (ascii_chars "__") raw).

(** [Lexer::number] *)
Definition number : M unit :=
  first ← at_start;
  next ← gets peek;
  if (first =? ch "0") && ((next =? ch "x") || (next =? ch "b")) then radix_number
  else
     _ ← digits;
     fraction ← gets (λ s, (peek s =? ch ".") && is_ascii_digit (peek_next s));
     _ ← (if (fraction : bool) then _ ← advance; digits else mret tt);
     exponent ← gets at_exponent;
     _ ← (if (exponent : bool) then
            _ ← advance;
            sign ← gets (λ s, (peek s =? ch "+") || (peek s =? ch "-"));
            _ ← (if (sign : bool) then _ ← advance; mret tt else mret tt);
            digits
          else mret tt);
     raw ← lexed_from start;
     let text := drop_separators raw in
     let kind :=
       if negb (separators_valid raw) then None
       else if (fraction || exponent : bool) then Tk_Float <$> f64_from_str text
       else Tk_Int <$> i64_from_digits 10 text in
     match kind with
     | Some number => add number
     | None => report_start "invalid number"
     end.

(** ** Words *)

(** The reserved words and the token each one is. *)
Definition keyword (text : string) : option TokenKind :=
  match text with
  | "keep" => Some Tk_Let | "change" => Some Tk_Var | "define" => Some Tk_Fun
  | "give" => Some Tk_Return | "when" => Some Tk_If | "otherwise" => Some Tk_Else
  | "repeat" => Some Tk_While | "each" => Some Tk_For | "within" => Some Tk_In
  | "yes" => Some Tk_True | "no" => Some Tk_False | "none" => Some Tk_Null
  | "show" => Some Tk_Print | "shape" => Some Tk_Record | "choice" => Some Tk_Enum
  | "protocol" => Some Tk_Protocol | "adopt" => Some Tk_Adopt | "for" => Some Tk_ForType
  | "choose" => Some Tk_Match | "use" => Some Tk_Import | "expose" => Some Tk_Export
  | "through" => Some Tk_Through | "start" => Some Tk_Start | "wait" => Some Tk_Wait
  | "together" => Some Tk_Together | "race" => Some Tk_Race | "needs" => Some Tk_Needs
  | "using" => Some Tk_Using | "is" => Some Tk_Is | "set" => Some Tk_Set
  | "to" => Some Tk_To | "takes" => Some Tk_Takes | "holds" => Some Tk_Holds
  | "case" => Some Tk_Case | "carries" => Some Tk_Carries | "with" => Some Tk_With
  | "maybe" => Some Tk_Maybe | "as" => Some Tk_As
  | "prepare" => Some Tk_Prepare | "perform" => Some Tk_Perform
  | "while" => Some Tk_WhileClause | "in" => Some Tk_In | "gives" => Some Tk_Arrow
  | "and" => Some Tk_And | "not" => Some Tk_Bang | "or" => Some Tk_Or
  | _ => None
  end%string.

(** [Lexer::identifier] *)
Definition identifier : M unit :=
  _ ← while (λ _ s, is_identifier_continue (peek s)) (λ _, _ ← advance; mret tt) tt;
  text ← lexed_from start;
  let text := str_of_chars text in
  add (default (Tk_Identifier text) (keyword text)).

(** ** Tokens *)

(** The characters that are a token by themselves. *)
Definition single (c : char) : option TokenKind :=
  if c =? ch "(" then Some Tk_LeftParen else if c =? ch ")" then Some Tk_RightParen
  else if c =? ch "{" then Some Tk_LeftBrace else if c =? ch "}" then Some Tk_RightBrace
  else if c =? ch "[" then Some Tk_LeftBracket
  else if c =? ch "]" then Some Tk_RightBracket
  else if c =? ch "," then Some Tk_Comma else if c =? ch ";" then Some Tk_Semicolon
  else if c =? ch ":" then Some Tk_Colon else if c =? ch "." then Some Tk_Dot
  else if c =? ch "+" then Some Tk_Plus else if c =? ch "-" then Some Tk_Minus
  else if c =? ch "*" then Some Tk_Star else if c =? ch "%" then Some Tk_Percent
  else None.

(** [Lexer::scan_token] *)
Definition scan_token : M unit :=
  c ← advance;
  match single c with
  | Some kind => add kind
  | None =>
    if c =? ch "?" then
      two ← matches (ch "?");
      add (if (two : bool) then Tk_QuestionQuestion else Tk_Question)
    else if c =? ch "!" then
      two ← matches (ch "=");
      if (two : bool) then add Tk_BangEqual else report_start "negation is spelled 'not'"
    else if c =? ch "=" then
      equal ← matches (ch "=");
      if (equal : bool) then add Tk_EqualEqual
      else arrow ← matches (ch ">"); add (if (arrow : bool) then Tk_FatArrow else Tk_Equal)
    else if c =? ch "<" then
      two ← matches (ch "="); add (if (two : bool) then Tk_LessEqual else Tk_Less)
    else if c =? ch ">" then
      two ← matches (ch "="); add (if (two : bool) then Tk_GreaterEqual else Tk_Greater)
    else if c =? ch "/" then
      comment ← matches (ch "/");
      if (comment : bool) then line_comment
      else block ← matches (ch "*");
           if (block : bool) then block_comment else add Tk_Slash
    else if (c =? ch " ") || (c =? carriage_return) || (c =? tab) then mret tt
    else if c =? newline then end_line
    else if c =? quote then string_token
    else if is_ascii_digit c then number
    else if is_identifier_start c then identifier
    else report_start ("unexpected character '" +:+ str_of_chars [c] +:+ "'")
  end.

(** [Lexer::new] *)
Definition Lexer_new (source : string) : Lexer :=
  mkLexer (chars_of_str source) 0 0 1 1 1 [] [].

(** [Lexer::scan_tokens] *)
Definition scan_tokens (s : Lexer) : option (result (list NivError) (list Token)) :=
  '(_, s) ← while (λ _ s, negb (is_at_end s)) (λ _ s, scan_token (set_start s)) tt s;
  let tokens := tokens s ++ [mkToken Tk_Eof (line s) (column s)] in
  Some (match errors s with [] => Ok tokens | errors => Err errors end).

(** [scan] *)
Definition scan (source : string) : option (result (list NivError) (list Token)) :=
  scan_tokens (Lexer_new source).

End scanner.

Example scan_sample :
  (λ r, map tok_kind <$> (r : result _ _)) <$> scan (H:=ascii_tables)
    "keep total set f(1_000, 0x1F) + 2.5e-3 // sum"
  = Some (Ok [Tk_Let; Tk_Identifier "total"; Tk_Set; Tk_Identifier "f"; Tk_LeftParen;
              Tk_Int 1000; Tk_Comma; Tk_Int 31; Tk_RightParen; Tk_Plus;
              Tk_Float 0x3F647AE147AE147B; Tk_Eof]).
Proof. vm_compute. done. Qed.
