(* ===== verification/Grammar.v ===== *)
(** * The lexical grammar

    What a source text is, independently of any scanner: a sequence of gaps
    (blanks and comments) and lexemes, each the longest that fits, read from
    left to right.  [reads] relates a text to its tokens and their positions;
    [LexerOk] shows that [Lexer.scan] computes exactly this relation. *)
From S2P Require Import Prelude Ast Text Lexer.

(** ** Positions *)

(** A line and a column, and the position after a text. *)
Definition position : Type := N * N.
Definition advance_char (p : position) (c : char) : position :=
  if c =? newline then (p.1 + 1, 1) else (p.1, p.2 + 1).
Definition move (p : position) (w : list char) : position := foldl advance_char p w.

(** [w] is the longest prefix of [w ++ rest] in the class [p]. *)
Definition maximal (p : char → bool) (w rest : list char) : Prop :=
  Forall (λ c, p c = true) w ∧
  match rest with c :: _ => p c = false | [] => True end.

(** The next character is not [c]. *)
Definition not_next (c : char) (rest : list char) : Prop := head rest ≠ Some c.

(** The rest of the line: what a line comment takes. *)
Definition not_newline (c : char) : bool := negb (c =? newline).
Definition not_quote (c : char) : bool := negb (c =? quote).

(** ** Gaps *)

Inductive gap : list char → list char → Prop :=
| gap_blank c rest :
    c ∈ [ch " "; carriage_return; tab; newline] → gap [c] rest
| gap_line text rest :
    maximal not_newline text rest → not_next (ch "/") (text ++ rest) →
    gap (ascii_chars "//" ++ text) rest
| gap_block body rest :
    contains (ascii_chars "*/") body = false →
    gap (ascii_chars "/*" ++ body ++ ascii_chars "*/") rest.

(** ** Strings *)

(** An escape sequence after its backslash, and the character it denotes. *)
Inductive escapes : list char → char → Prop :=
| escapes_n : escapes [ch "n"] newline
| escapes_r : escapes [ch "r"] carriage_return
| escapes_t : escapes [ch "t"] tab
| escapes_quote : escapes [quote] quote
| escapes_backslash : escapes [backslash] backslash
| escapes_unicode digits n c :
    Forall (λ d, is_ascii_hexdigit d = true) digits → 1 ≤ len digits ≤ 6 →
    u32_from_digits 16 digits = Some n → from_u32 n = Some c →
    escapes (ascii_chars "u{" ++ digits ++ [ch "}"]) c.

(** A string nested in a hole, up to its closing quote.  The second list is
    the text as it counts for positions: a line break after a backslash does
    not end the line there. *)
Inductive nested : list char → list char → Prop :=
| nested_end : nested [] []
| nested_escape c w m :
    nested w m →
    nested (backslash :: c :: w)
           (backslash :: (if c =? newline then ch " " else c) :: m)
| nested_plain c w m :
    c ≠ quote → c ≠ backslash → nested w m → nested (c :: w) (c :: m).

(** The inside of a string: [content hole depth w m v] when [w], read with
    [depth] holes open, denotes the characters [v]; [m] is [w] as it counts
    for positions.  Holes exist only in a [text] literal. *)
Inductive content (hole : bool) : N → list char → list char → list char → Prop :=
| content_end : content hole 0 [] [] []
| content_newline d w m v :
    content hole d w m v →
    content hole d (newline :: w) (newline :: m) (newline :: v)
| content_escape d e c w m v :
    escapes e c → content hole d w m v →
    content hole d (backslash :: e ++ w) (backslash :: e ++ m) (c :: v)
| content_brace d w m v :
    hole = true → content hole d w m v →
    content hole d (ascii_chars "{{" ++ w) (ascii_chars "{{" ++ m) (ascii_chars "{{" ++ v)
| content_open d w m v :
    hole = true → not_next (ch "{") w → content hole (d + 1) w m v →
    content hole d (ch "{" :: w) (ch "{" :: m) (ch "{" :: v)
| content_close d w m v :
    hole = true → content hole d w m v →
    content hole (d + 1) (ch "}" :: w) (ch "}" :: m) (ch "}" :: v)
| content_nested d n n' w m v :
    hole = true → 0 < d → nested n n' → content hole d w m v →
    content hole d (quote :: n ++ quote :: w) (quote :: n' ++ quote :: m)
            (quote :: n ++ quote :: v)
| content_plain d c w m v :
    c ∉ [newline; backslash; quote] → (hole = true → c ≠ ch "{") →
    (hole = true → 0 < d → c ≠ ch "}") → content hole d w m v →
    content hole d (c :: w) (c :: m) (c :: v).

(** ** Numbers *)

Definition decimal_char (c : char) : bool := is_ascii_digit c || (c =? ch "_").
Definition radix_char (c : char) : bool := is_ascii_hexdigit c || (c =? ch "_").

Definition starts_digit (l : list char) : bool :=
  match l with c :: _ => is_ascii_digit c | [] => false end.

(** An exponent begins here: [e] or [E], an optional sign and a digit. *)
Definition starts_exponent (l : list char) : bool :=
  match l with
  | e :: l =>
      ((e =? ch "e") || (e =? ch "E"))
      && (starts_digit l
          || match l with
             | g :: l => ((g =? ch "+") || (g =? ch "-")) && starts_digit l
             | [] => false
             end)
  | [] => false
  end.

Definition starts_fraction (l : list char) : bool :=
  match l with c :: l => (c =? ch ".") && starts_digit l | [] => false end.

(** The fraction of a number before [rest], and whether there is one. *)
Inductive fraction : list char → bool → list char → Prop :=
| fraction_none rest : starts_fraction rest = false → fraction [] false rest
| fraction_some ds rest :
    starts_digit ds = true → maximal decimal_char ds rest →
    fraction (ch "." :: ds) true rest.

Inductive exponent : list char → bool → list char → Prop :=
| exponent_none rest : starts_exponent rest = false → exponent [] false rest
| exponent_some e sign ds rest :
    e = ch "e" ∨ e = ch "E" → sign = [] ∨ sign = [ch "+"] ∨ sign = [ch "-"] →
    starts_digit ds = true → maximal decimal_char ds rest →
    exponent (e :: sign ++ ds) true rest.

(** The number a decimal text denotes. *)
Definition number_kind (float : bool) (raw : list char) : option TokenKind :=
  if negb (separators_valid raw) then None
  else if float then Tk_Float <$> f64_from_str (drop_separators raw)
  else Tk_Int <$> i64_from_digits 10 (drop_separators raw).

(** ** Lexemes *)

Section grammar.
Context `{Unicode}.

(** [lexeme prev w m k rest]: after the token [prev], the text [w] before
    [rest] is a token of kind [k]; [m] is [w] as it counts for positions. *)
Inductive lexeme (prev : option TokenKind)
    : list char → list char → TokenKind → list char → Prop :=
| lexeme_single c k rest : single c = Some k → lexeme prev [c] [c] k rest
| lexeme_question rest :
    not_next (ch "?") rest → lexeme prev [ch "?"] [ch "?"] Tk_Question rest
| lexeme_question2 rest :
    lexeme prev (ascii_chars "??") (ascii_chars "??") Tk_QuestionQuestion rest
| lexeme_not_equal rest :
    lexeme prev (ascii_chars "!=") (ascii_chars "!=") Tk_BangEqual rest
| lexeme_equal rest :
    not_next (ch "=") rest → not_next (ch ">") rest →
    lexeme prev [ch "="] [ch "="] Tk_Equal rest
| lexeme_equal2 rest :
    lexeme prev (ascii_chars "==") (ascii_chars "==") Tk_EqualEqual rest
| lexeme_arrow rest :
    lexeme prev (ascii_chars "=>") (ascii_chars "=>") Tk_FatArrow rest
| lexeme_less rest :
    not_next (ch "=") rest → lexeme prev [ch "<"] [ch "<"] Tk_Less rest
| lexeme_less_equal rest :
    lexeme prev (ascii_chars "<=") (ascii_chars "<=") Tk_LessEqual rest
| lexeme_greater rest :
    not_next (ch "=") rest → lexeme prev [ch ">"] [ch ">"] Tk_Greater rest
| lexeme_greater_equal rest :
    lexeme prev (ascii_chars ">=") (ascii_chars ">=") Tk_GreaterEqual rest
| lexeme_slash rest :
    not_next (ch "/") rest → not_next (ch "*") rest →
    lexeme prev [ch "/"] [ch "/"] Tk_Slash rest
| lexeme_documentation text rest :
    maximal not_newline text rest →
    lexeme prev (ascii_chars "///" ++ text) (ascii_chars "///" ++ text)
      (Tk_DocComment (str_of_chars (trim text))) rest
| lexeme_raw w rest :
    prev = Some (Tk_Identifier "raw") → Forall (λ c, not_quote c = true) w →
    lexeme prev (quote :: w ++ [quote]) (quote :: w ++ [quote])
      (Tk_String (str_of_chars w)) rest
| lexeme_string hole w m v rest :
    prev ≠ Some (Tk_Identifier "raw") →
    (hole = true ↔ prev = Some (Tk_Identifier "text")) →
    content hole 0 w m v →
    lexeme prev (quote :: w ++ [quote]) (quote :: m ++ [quote])
      (Tk_String (str_of_chars v)) rest
| lexeme_radix x ds n rest :
    x = ch "x" ∨ x = ch "b" → maximal radix_char ds rest →
    i64_from_digits (if x =? ch "x" then 16 else 2) (drop_separators ds) = Some n →
    lexeme prev (ch "0" :: x :: ds) (ch "0" :: x :: ds) (Tk_Int n) rest
| lexeme_number d ds f has_f e has_e k rest :
    is_ascii_digit d = true →
    (d = ch "0" → head (ds ++ f ++ e ++ rest) ∉ [Some (ch "x"); Some (ch "b")]) →
    maximal decimal_char ds (f ++ e ++ rest) →
    fraction f has_f (e ++ rest) → exponent e has_e rest →
    number_kind (has_f || has_e) (d :: ds ++ f ++ e) = Some k →
    lexeme prev (d :: ds ++ f ++ e) (d :: ds ++ f ++ e) k rest
| lexeme_word c w rest :
    is_identifier_start c = true → maximal is_identifier_continue w rest →
    let text := str_of_chars (c :: w) in
    lexeme prev (c :: w) (c :: w) (default (Tk_Identifier text) (keyword text)) rest.

(** ** Texts *)

(** A token has the column where its text begins and the line where its text
    ends. *)
Inductive reads : option TokenKind → position → list char → list Token → Prop :=
| reads_end prev p : reads prev p [] [mkToken Tk_Eof p.1 p.2]
| reads_gap prev p g rest ts :
    gap g rest → reads prev (move p g) rest ts → reads prev p (g ++ rest) ts
| reads_token prev p w m k rest ts :
    lexeme prev w m k rest → reads (Some k) (move p m) rest ts →
    reads prev p (w ++ rest) (mkToken k (move p m).1 p.2 :: ts).

End grammar.
