(* ===== verification/LexerOk.v ===== *)
(** * Properties of the scanner

    The scanner never indexes past the end of the source and always returns;
    it accepts exactly the texts of the lexical grammar, with exactly its
    tokens and positions. *)
From S2P Require Import Prelude Ast Text Lexer Grammar.

(** Replace every character literal by its code point. *)
Ltac code_points :=
  cbv [newline carriage_return tab quote backslash] in *;
  repeat match goal with
  | |- context [ch ?s] =>
      let v := eval vm_compute in (ch s) in change (ch s) with v
  | H : context [ch ?s] |- _ =>
      let v := eval vm_compute in (ch s) in change (ch s) with v in H
  | |- context [ascii_chars ?s] =>
      let v := eval vm_compute in (ascii_chars s) in change (ascii_chars s) with v
  | H : context [ascii_chars ?s] |- _ =>
      let v := eval vm_compute in (ascii_chars s) in change (ascii_chars s) with v in H
  end.

(** Unfold the monad. *)
Lemma bind_run {A B} (m : M A) (f : A → M B) s :
  (m ≫= f) s = match m s with Some (a, s) => f a s | None => None end.
Proof. done. Qed.
Lemma ret_run {A} (a : A) s : (mret a : M A) s = Some (a, s).
Proof. done. Qed.
Lemma gets_run {A} (f : Lexer → A) s : gets f s = Some (f s, s).
Proof. done. Qed.
Create Rewrite HintDb run.
#[export] Hint Rewrite @bind_run @ret_run @gets_run : run.
Ltac run := repeat (autorewrite with run; cbn beta iota).

(** ** The cursor *)

(** The characters that are left. *)
Definition rem (s : Lexer) : list char := drop (current s) (chars s).
Definition spot (s : Lexer) : position := (line s, column s).
Definition inside (s : Lexer) : Prop := (current s ≤ length (chars s))%nat.

(** The cursor after the text [w], which counts as [m] for the position. *)
Definition walked (s : Lexer) (w m : list char) : Lexer :=
  mkLexer (chars s) (start s) (current s + length w) (move (spot s) m).1
    (move (spot s) m).2 (start_column s) (tokens s) (errors s).

Lemma rem_nil s : rem s = [] ↔ is_at_end s = true.
Proof.
  unfold rem, is_at_end. rewrite Nat.leb_le. split; [|apply drop_ge].
  intros H%(f_equal length). rewrite length_drop in H. cbn in H. lia.
Qed.

Lemma rem_cons s c r :
  rem s = c :: r → is_at_end s = false ∧ chars s !! current s = Some c ∧
  (current s < length (chars s))%nat.
Proof.
  intros H. assert (Hl : chars s !! current s = Some c).
  { rewrite <- (Nat.add_0_r (current s)), <- lookup_drop. unfold rem in H. by rewrite H. }
  pose proof (lookup_lt_Some _ _ _ Hl). unfold is_at_end.
  split_and!; [apply Nat.leb_gt; lia|done..].
Qed.

Lemma peek_rem s : peek s = default 0 (head (rem s)).
Proof.
  unfold peek. destruct (rem s) as [|c r] eqn:Hr.
  - by apply rem_nil in Hr as ->.
  - by apply rem_cons in Hr as (-> & -> & _).
Qed.

Lemma rem_lookup s k : rem s !! k = chars s !! (current s + k)%nat.
Proof. apply lookup_drop. Qed.

Lemma peek_next_rem s : peek_next s = default 0 (rem s !! 1%nat).
Proof.
  rewrite rem_lookup, Nat.add_1_r. unfold peek_next.
  destruct (Nat.leb_spec (length (chars s)) (S (current s))); [|done].
  by rewrite lookup_ge_None_2.
Qed.

Lemma at_end_rem s : is_at_end s = match rem s with [] => true | _ => false end.
Proof.
  destruct (rem s) eqn:Hr; [by apply rem_nil|]. by apply rem_cons in Hr as (-> & _).
Qed.

Lemma inside_length s : inside s → length (chars s) = (current s + length (rem s))%nat.
Proof. unfold inside, rem. rewrite length_drop. lia. Qed.

Lemma rem_walked s w m r : rem s = w ++ r → rem (walked s w m) = r.
Proof.
  unfold rem. cbn. intros H. rewrite <- drop_drop, H. apply drop_app_length.
Qed.

Lemma inside_walked s w m r : rem s = w ++ r → inside s → inside (walked s w m).
Proof.
  intros H Hi. pose proof (inside_length _ Hi) as Hl.
  rewrite H, length_app in Hl. unfold inside. cbn. lia.
Qed.

Lemma move_app p u v : move p (u ++ v) = move (move p u) v.
Proof. apply foldl_app. Qed.

Lemma walked_walked s u m v n : walked (walked s u m) v n = walked s (u ++ v) (m ++ n).
Proof.
  unfold walked, spot. cbn. rewrite move_app, length_app, Nat.add_assoc.
  by destruct (move (line s, column s) m).
Qed.

Lemma walked_nil s : walked s [] [] = s.
Proof. destruct s. unfold walked. cbn. by rewrite Nat.add_0_r. Qed.

Lemma bump_walked s c : c ≠ newline → bump s = walked s [c] [c].
Proof.
  intros Hc. unfold walked, bump, move, advance_char. cbn.
  by rewrite (proj2 (N.eqb_neq _ _) Hc), Nat.add_1_r.
Qed.

Lemma advance_run s c r :
  rem s = c :: r → c ≠ newline → advance s = Some (c, walked s [c] [c]).
Proof.
  intros Hr Hc. unfold advance. apply rem_cons in Hr as (_ & -> & _).
  by rewrite <- bump_walked.
Qed.

(** [advance] and then the test for the end of a line. *)
Lemma advance_line_run {A} (k : char → M A) s c r :
  rem s = c :: r →
  (c ← advance; _ ← (if c =? newline then end_line else mret tt); k c) s
  = k c (walked s [c] [c]).
Proof.
  intros Hr. run. destruct (decide (c = newline)) as [->|Hc].
  - unfold advance. pose proof (rem_cons _ _ _ Hr) as (_ & -> & _).
    cbn. unfold walked, bump. cbn. by rewrite Nat.add_1_r.
  - rewrite (advance_run _ _ _ Hr Hc), (proj2 (N.eqb_neq _ _) Hc). done.
Qed.

Lemma matches_run s c :
  c ≠ newline →
  matches c s = if decide (head (rem s) = Some c)
                then Some (true, walked s [c] [c]) else Some (false, s).
Proof.
  intros Hc. unfold matches. destruct (rem s) as [|d r] eqn:Hr.
  - rewrite (proj1 (rem_nil _) Hr). by case_decide.
  - pose proof (rem_cons _ _ _ Hr) as (-> & -> & _). cbn.
    destruct (N.eqb_spec d c) as [->|Hd]; cbn.
    + rewrite decide_True by done. by rewrite <- bump_walked.
    + rewrite decide_False; [done|congruence].
Qed.

(** ** Every method moves forward *)

(** What no method undoes: the source and the start of the token stay, the
    cursor does not go back or leave the source, tokens and diagnostics are
    only added. *)
Record onward (s s' : Lexer) : Prop := {
  onward_chars : chars s' = chars s;
  onward_start : start s' = start s;
  onward_column : start_column s' = start_column s;
  onward_current : (current s ≤ current s')%nat;
  onward_inside : inside s → inside s';
  onward_tokens : tokens s `prefix_of` tokens s';
  onward_errors : errors s `prefix_of` errors s' }.

#[export] Instance onward_preorder : PreOrder onward.
Proof.
  split; [by intros s; split|]. intros x y z [] []. split; try congruence; try lia; auto.
  - by etrans.
  - by etrans.
Qed.

Class Forward {A} (m : M A) : Prop :=
  forward s a s' : m s = Some (a, s') → onward s s'.

Section forward.
Context {A B V : Type}.

#[export] Instance forward_ret (a : A) : Forward (mret a).
Proof. by intros s b s' [= <- <-]. Qed.
#[export] Instance forward_gets (f : Lexer → A) : Forward (gets f).
Proof. by intros s b s' [= <- <-]. Qed.
#[export] Instance forward_bind (m : M A) (f : A → M B) :
  Forward m → (∀ a, Forward (f a)) → Forward (m ≫= f).
Proof.
  intros Hm Hf s b s'. rewrite bind_run. destruct (m s) as [[a s1]|] eqn:E; [|done].
  intros E'. etrans; [by eapply Hm|by eapply Hf].
Qed.
#[export] Instance forward_if (b : bool) (m n : M A) :
  Forward m → Forward n → Forward (if b then m else n).
Proof. by destruct b. Qed.
#[export] Instance forward_option (o : option B) (f : B → M A) (n : M A) :
  (∀ b, Forward (f b)) → Forward n →
  Forward (match o with Some b => f b | None => n end).
Proof. by destruct o. Qed.
#[export] Instance forward_pair (p : A * B) (f : A → B → M V) :
  (∀ a b, Forward (f a b)) → Forward (let '(a, b) := p in f a b).
Proof. by destruct p. Qed.
#[export] Instance forward_loop fuel (cond : V → Lexer → bool) body v :
  (∀ v, Forward (body v)) → Forward (loop fuel cond body v).
Proof.
  intros Hb s a s'. revert v s. induction fuel as [|fuel IH]; intros v s; cbn.
  - destruct (cond v s); [done|]. by intros [= <- <-].
  - destruct (cond v s); [|by intros [= <- <-]]. rewrite bind_run.
    destruct (body v s) as [[v1 s1]|] eqn:E; [|done]. intros E'.
    etrans; [by eapply Hb|by eapply IH].
Qed.
#[export] Instance forward_while (cond : V → Lexer → bool) body v :
  (∀ v, Forward (body v)) → Forward (while cond body v).
Proof. intros Hb s a s' E. by eapply (forward_loop _ cond body v). Qed.
End forward.

#[export] Instance forward_advance : Forward advance.
Proof.
  intros s c s'. unfold advance.
  destruct (chars s !! current s) eqn:E; [|done]. intros [= <- <-].
  pose proof (lookup_lt_Some _ _ _ E). split; cbn; auto; unfold inside; cbn; lia.
Qed.
#[export] Instance forward_matches c : Forward (matches c).
Proof.
  intros s b s'. unfold matches, is_at_end.
  destruct (Nat.leb_spec (length (chars s)) (current s)); cbn; [by intros [= <- <-]|].
  destruct (negb _); intros [= <- <-]; [done|].
  split; cbn; auto; unfold inside; cbn; lia.
Qed.
#[export] Instance forward_add k : Forward (add k).
Proof. intros s b s' [= <- <-]. split; cbn; auto. by eexists. Qed.
#[export] Instance forward_report e l c : Forward (report e l c).
Proof. intros s b s' [= <- <-]. split; cbn; auto. by eexists. Qed.
#[export] Instance forward_end_line : Forward end_line.
Proof. by intros s b s' [= <- <-]. Qed.
#[export] Instance forward_at_start : Forward at_start.
Proof. intros s b s'. unfold at_start. case_match; [|done]. by intros [= <- <-]. Qed.
#[export] Instance forward_lexed_from f : Forward (lexed_from f).
Proof. intros s b s'. unfold lexed_from. case_match; [|done]. by intros [= <- <-]. Qed.

#[export] Instance forward_report_here e : Forward (report_here e).
Proof. unfold report_here. typeclasses eauto. Qed.
#[export] Instance forward_report_start e : Forward (report_start e).
Proof. unfold report_start. typeclasses eauto. Qed.
#[export] Instance forward_close_string v : Forward (close_string v).
Proof. unfold close_string. typeclasses eauto. Qed.
#[export] Instance forward_raw_string : Forward raw_string.
Proof. unfold raw_string. typeclasses eauto. Qed.
#[export] Instance forward_unicode_escape v : Forward (unicode_escape v).
Proof. unfold unicode_escape. typeclasses eauto. Qed.
#[export] Instance forward_escape v : Forward (escape v).
Proof. unfold escape. typeclasses eauto. Qed.
#[export] Instance forward_nested_string v : Forward (nested_string v).
Proof. unfold nested_string. typeclasses eauto. Qed.
#[export] Instance forward_string_step hole v : Forward (string_step hole v).
Proof. destruct v as [[d v] b]. unfold string_step. typeclasses eauto. Qed.
#[export] Instance forward_string_token : Forward string_token.
Proof. unfold string_token. typeclasses eauto. Qed.
#[export] Instance forward_line_comment : Forward line_comment.
Proof. unfold line_comment. typeclasses eauto. Qed.
#[export] Instance forward_block_comment : Forward block_comment.
Proof. unfold block_comment. typeclasses eauto. Qed.
#[export] Instance forward_digits : Forward digits.
Proof. unfold digits. typeclasses eauto. Qed.
#[export] Instance forward_radix_number : Forward radix_number.
Proof. unfold radix_number. typeclasses eauto. Qed.
#[export] Instance forward_number : Forward number.
Proof. unfold number. typeclasses eauto. Qed.

(** ** Loops end *)

(** A computation that takes at least one character. *)
Record takes_some (s s' : Lexer) : Prop := {
  takes_chars : chars s' = chars s;
  takes_current : (current s < current s')%nat;
  takes_available : (current s < length (chars s))%nat;
  takes_inside : inside s → inside s' }.

Class Progress {A} (m : M A) : Prop :=
  progress s a s' : m s = Some (a, s') → takes_some s s'.

Lemma takes_onward s s1 s2 : takes_some s s1 → onward s1 s2 → takes_some s s2.
Proof. intros [] []. split; [congruence|lia|lia|auto]. Qed.
Lemma onward_takes s s1 s2 : onward s s1 → takes_some s1 s2 → takes_some s s2.
Proof.
  intros [Hc _ _ ? ? _ _] [? ? Ha ?]. split; [congruence|lia|rewrite Hc in Ha; lia|auto].
Qed.

#[export] Instance progress_advance : Progress advance.
Proof.
  intros s c s' E. pose proof (forward_advance _ _ _ E) as []. revert E. unfold advance.
  destruct (chars s !! current s) eqn:E; [|done]. intros [= <- <-].
  pose proof (lookup_lt_Some _ _ _ E). split; cbn in *; auto; lia.
Qed.
#[export] Instance progress_first {A B} (m : M A) (f : A → M B) :
  Progress m → (∀ a, Forward (f a)) → Progress (m ≫= f) | 1.
Proof.
  intros Hm Hf s b s'. rewrite bind_run. destruct (m s) as [[a s1]|] eqn:E; [|done].
  intros E'. eapply takes_onward; [by eapply Hm|by eapply Hf].
Qed.
#[export] Instance progress_later {A B} (m : M A) (f : A → M B) :
  Forward m → (∀ a, Progress (f a)) → Progress (m ≫= f) | 2.
Proof.
  intros Hm Hf s b s'. rewrite bind_run. destruct (m s) as [[a s1]|] eqn:E; [|done].
  intros E'. eapply onward_takes; [by eapply Hm|by eapply Hf].
Qed.
#[export] Instance progress_if {A} (b : bool) (m n : M A) :
  Progress m → Progress n → Progress (if b then m else n).
Proof. by destruct b. Qed.
#[export] Instance progress_string_step hole v : Progress (string_step hole v).
Proof. destruct v as [[d v] b]. unfold string_step. typeclasses eauto. Qed.

Section loops.
Context {V : Type} (cond : V → Lexer → bool) (body : V → M V).
Context `{Hbody : ∀ v, Progress (body v)}.

Lemma loop_enough n k v s :
  (length (chars s) - current s < n)%nat → (length (chars s) - current s < k)%nat →
  loop n cond body v s = loop k cond body v s.
Proof using Hbody.
  revert k v s. induction n as [|n IH]; intros [|k] v s Hn Hk; [lia..|]. cbn.
  destruct (cond v s); [|done]. rewrite !bind_run.
  destruct (body v s) as [[v' s']|] eqn:E; [|done].
  apply Hbody in E as [Hc ? ? _]. apply IH; rewrite Hc; lia.
Qed.

(** A loop is its body followed by the loop. *)
Lemma while_unfold v s :
  while cond body v s
  = if cond v s then (body v ≫= while cond body) s else Some (v, s).
Proof using Hbody.
  unfold while at 1. cbn [loop]. destruct (cond v s); [|done]. rewrite !bind_run.
  destruct (body v s) as [[v' s']|] eqn:E; [|done].
  apply Hbody in E as [Hc ? ? _].
  apply loop_enough; rewrite Hc; lia.
Qed.

Lemma while_ok v s :
  (∀ v s, inside s → cond v s = true → is_Some (body v s)) →
  inside s → is_Some (while cond body v s).
Proof using Hbody.
  intros Hok. remember (length (rem s)) as n eqn:Hn. revert v s Hn.
  induction (lt_wf n) as [n _ IH]. intros v s -> Hi.
  rewrite while_unfold. destruct (cond v s) eqn:Ec; [|by eexists].
  rewrite bind_run. destruct (Hok v s Hi Ec) as [[v' s'] E]. rewrite E.
  apply Hbody in E as [Hc ? ? Hi']. apply (IH (length (rem s'))); auto.
  apply inside_length in Hi as Hl. apply Hi', inside_length in Hi. rewrite Hc in Hi. lia.
Qed.
End loops.

(** ** Every method returns *)

Lemma ok_bind {A B} (m : M A) (f : A → M B) s :
  Forward m → inside s → is_Some (m s) →
  (∀ a s', m s = Some (a, s') → onward s s' → inside s' → is_Some (f a s')) →
  is_Some ((m ≫= f) s).
Proof.
  intros Hm Hi [[a s'] E] Hf. rewrite bind_run, E.
  apply Hf; [done|by eapply Hm|by eapply onward_inside; [eapply Hm|]].
Qed.
Lemma ok_gets {A B} (g : Lexer → A) (f : A → M B) s :
  is_Some (f (g s) s) → is_Some ((gets g ≫= f) s).
Proof. done. Qed.
Lemma ok_advance {B} (f : char → M B) s :
  inside s → is_at_end s = false →
  (∀ c r s', rem s = c :: r → rem s' = r → onward s s' → inside s' →
     is_Some (f c s')) →
  is_Some ((advance ≫= f) s).
Proof.
  intros Hi He Hf. rewrite at_end_rem in He. destruct (rem s) as [|c r] eqn:Hr; [done|].
  pose proof (rem_cons _ _ _ Hr) as (_ & Hl & ?).
  apply ok_bind; [apply _|done|unfold advance; rewrite Hl; by eexists|].
  intros c' s' E G Hi'. unfold advance in E. rewrite Hl in E. injection E as <- <-.
  apply (Hf _ r); auto. unfold rem in *. cbn.
  by rewrite <- Nat.add_1_r, <- drop_drop, Hr.
Qed.

Lemma ok_matches c s : is_Some (matches c s).
Proof. unfold matches. case_match; by eexists. Qed.
Lemma ok_lexed_from f s : (f s ≤ current s)%nat → inside s → is_Some (lexed_from f s).
Proof.
  unfold inside. intros. unfold lexed_from, slice_get, len.
  rewrite !(proj2 (N.leb_le _ _)) by lia. by eexists.
Qed.
Lemma ok_plain {A} (a : A) s : is_Some ((mret a : M A) s).
Proof. by eexists. Qed.
Lemma ok_add k s : is_Some (add k s).
Proof. by eexists. Qed.
Lemma ok_report_here e s : is_Some (report_here e s).
Proof. by eexists. Qed.
Lemma ok_report_start e s : is_Some (report_start e s).
Proof. by eexists. Qed.
Lemma ok_end_line s : is_Some (end_line s).
Proof. by eexists. Qed.
Create HintDb ok.
#[export] Hint Resolve ok_matches ok_lexed_from ok_plain ok_add ok_report_here
  ok_report_start ok_end_line : ok.

(** A character of a class that does not hold of NUL is not the end. *)
Lemma peek_not_end (p : char → bool) s :
  p 0 = false → p (peek s) = true → is_at_end s = false.
Proof.
  intros H0. rewrite peek_rem, at_end_rem. destruct (rem s); [|done]. cbn. congruence.
Qed.

Lemma not_at_end s : negb (is_at_end s) = true → is_at_end s = false.
Proof. by destruct (is_at_end s). Qed.

Lemma rem_not_end s c r : rem s = c :: r → is_at_end s = false.
Proof. rewrite at_end_rem. by intros ->. Qed.

Lemma peek_is_not_end s c : c ≠ 0 → (peek s =? c) = true → is_at_end s = false.
Proof.
  intros Hc. apply (peek_not_end (λ x, x =? c)). by apply N.eqb_neq, not_eq_sym.
Qed.

(** The cursor is not at the end, by the condition of the loop or branch. *)
Ltac not_end :=
  repeat match goal with
  | H : _ && _ = true |- _ => apply andb_prop in H as [? ?]
  | H : negb (_ || _) = true |- _ => rewrite negb_orb in H
  end;
  first
  [ assumption
  | apply not_at_end; assumption
  | eapply rem_not_end; eassumption
  | eapply peek_is_not_end; [|eassumption]; done
  | match goal with
    | H : ?p (peek ?s) = true |- is_at_end ?s = false =>
        apply (peek_not_end p); [done|exact H]
    | H : context [peek ?s] |- is_at_end ?s = false =>
        let t := type of H in
        lazymatch eval pattern (peek s) in t with
        | ?P _ => apply (peek_not_end (λ c, ltac:(lazymatch eval cbn beta in (P c) with ?b = true => exact b end))); [done|exact H]
        end
    end ].

(** One step of a proof that a computation returns. *)
Ltac ok_step :=
  match goal with
  | |- is_Some ((gets _ ≫= _) _) => apply ok_gets
  | |- is_Some ((advance ≫= _) _) =>
      apply ok_advance; [assumption|try solve [not_end]|intros ? ? ? ? ? ? ?]
  | |- is_Some ((_ ≫= _) _) =>
      apply ok_bind; [apply _|assumption| |intros ? ? ? ? ?]
  | |- is_Some ((if ?b then _ else _) _) => destruct b eqn:?
  | |- is_Some ((match ?o with Some _ => _ | None => _ end) _) => destruct o eqn:?
  | |- is_Some ((match ?o with (_, _) => _ end) _) => destruct o eqn:?
  | |- is_Some (while _ _ _ _) => apply while_ok; [apply _|intros ? ? ? ?|assumption]
  | |- _ => solve [eauto with ok]
  end.
Ltac ok := repeat ok_step.

(** Chain the steps between two cursors. *)
Ltac growing := solve [repeat first [eassumption | etrans; [eassumption|]]].

Lemma ok_close_string v s : inside s → is_Some (close_string v s).
Proof. intros. unfold close_string. ok. Qed.
#[export] Hint Resolve ok_close_string : ok.

Lemma ok_block_comment s : inside s → is_Some (block_comment s).
Proof.
  intros. unfold block_comment. ok.
  apply andb_prop in Heqb as [_ Hn]. rewrite peek_next_rem, H2 in Hn.
  rewrite at_end_rem, H3. by destruct r.
Qed.

Lemma ok_line_comment s : inside s → is_Some (line_comment s).
Proof. intros. unfold line_comment. ok. Qed.

Lemma ok_raw_string s : inside s → is_Some (raw_string s).
Proof. intros. unfold raw_string. ok. Qed.

Lemma ok_unicode_escape v s :
  inside s → is_at_end s = false → is_Some (unicode_escape v s).
Proof.
  intros. unfold unicode_escape. ok. destruct (peek s'0 =? ch "}") eqn:?; [not_end|done].
Qed.
#[export] Hint Resolve ok_block_comment ok_line_comment ok_raw_string ok_unicode_escape : ok.

Lemma ok_escape v s : inside s → is_at_end s = false → is_Some (escape v s).
Proof. intros. unfold escape. ok. apply ok_unicode_escape; [done|not_end]. Qed.

Lemma ok_nested_string v s : inside s → is_Some (nested_string v s).
Proof.
  intros. unfold nested_string. ok.
Qed.
#[export] Hint Resolve ok_escape ok_nested_string : ok.

Lemma ok_string_step hole v s :
  inside s → is_at_end s = false → is_Some (string_step hole v s).
Proof. intros. destruct v as [[d v] b]. unfold string_step. ok. Qed.
#[export] Hint Resolve ok_string_step : ok.

Lemma ok_string_token s : inside s → is_Some (string_token s).
Proof.
  intros. unfold string_token. ok. destruct v as [[d v] b]. apply ok_string_step; [done|].
  not_end.
Qed.

Lemma ok_digits s : inside s → is_Some (digits s).
Proof. intros. unfold digits. ok. Qed.
#[export] Hint Resolve ok_string_token ok_digits : ok.

Lemma rem_next s s' c r :
  inside s → inside s' → onward s s' → rem s = c :: r → rem s' = r →
  (S (current s) = current s')%nat.
Proof.
  intros Hi Hi' [Hc _ _ _ _ _ _] Hr Hr'. apply inside_length in Hi, Hi'.
  rewrite Hr, Hr', Hc in *. cbn in *. lia.
Qed.

Lemma ok_radix_number s :
  inside s → (start s < current s)%nat → is_at_end s = false → is_Some (radix_number s).
Proof.
  intros. unfold radix_number. ok. apply ok_lexed_from; [|done].
  assert (S (current s) = current s')%nat by (by eapply rem_next).
  pose proof (onward_start _ _ H4). pose proof (onward_start _ _ H7).
  pose proof (onward_current _ _ H7). lia.
Qed.

Lemma ok_number s : inside s → (start s < current s)%nat → is_Some (number s).
Proof.
  intros Hi Hs. unfold number. ok.
  - destruct (lookup_lt_is_Some_2 (chars s) (start s)) as [c E].
    { unfold inside in Hi. lia. }
    unfold at_start. rewrite E. by eexists.
  - apply ok_radix_number; [done| |].
    + pose proof (onward_start _ _ H0). pose proof (onward_current _ _ H0). lia.
    + apply andb_prop in Heqb as [_ [Hx|Hx]%orb_prop]; not_end.
  - unfold at_exponent in *. repeat match goal with
      H : _ && _ = true |- is_at_end _ = false => apply andb_prop in H as [Hx ?]
    end. apply orb_prop in Hx as [Hx|Hx]; not_end.
  - assert (G : onward s s'2) by growing.
    destruct G. apply ok_lexed_from; [lia|done].
Qed.

#[export] Hint Resolve ok_number : ok.

Section scanner.
Context `{Unicode}.

Lemma continue_nul : is_identifier_continue 0 = false.
Proof. unfold is_identifier_continue, is_identifier_start. by rewrite alphabetic_ascii. Qed.

Lemma ok_identifier s : inside s → (start s ≤ current s)%nat → is_Some (identifier s).
Proof.
  intros Hi Hs. unfold identifier. ok.
  - by apply (peek_not_end is_identifier_continue); [apply continue_nul|].
  - apply ok_lexed_from; [|done]. destruct H1. lia.
Qed.

#[export] Instance forward_identifier : Forward identifier.
Proof. unfold identifier. typeclasses eauto. Qed.
#[export] Instance forward_scan_token : Forward scan_token.
Proof. unfold scan_token. typeclasses eauto. Qed.
#[export] Instance progress_scan_token : Progress scan_token.
Proof. unfold scan_token. typeclasses eauto. Qed.

Lemma ok_scan_token s :
  inside s → start s = current s → is_at_end s = false → is_Some (scan_token s).
Proof.
  intros Hi Hs He. unfold scan_token. ok.
  - assert (S (current s) = current s')%nat by (by eapply rem_next).
    apply ok_number; [done|]. destruct H2. lia.
  - apply ok_identifier; [done|]. destruct H2. lia.
Qed.

(** One pass of [scan_tokens]. *)
Definition pass (_ : unit) : M unit := λ s, scan_token (set_start s).

#[export] Instance progress_pass v : Progress (pass v).
Proof.
  intros s a s' E. pose proof (progress_scan_token _ _ _ E) as []. by split.
Qed.

Lemma ok_passes s :
  inside s → is_Some (while (λ _ s, negb (is_at_end s)) pass tt s).
Proof.
  intros. ok. apply ok_scan_token; [done..|]. by apply not_at_end.
Qed.

Lemma scan_returns source : is_Some (scan source).
Proof.
  unfold scan, scan_tokens.
  destruct (ok_passes (Lexer_new source)) as [[u s] E]; [unfold inside; cbn; lia|].
  unfold pass in E. rewrite E. by eexists.
Qed.

(** C7: scanning ends on every source, and no index leaves the source: with
    one iteration of fuel more than there are characters every loop of the
    scanner runs to its end, and [scan] returns tokens or diagnostics. *)
Theorem scan_total source : is_Some (scan source).
Proof. apply scan_returns. Qed.
End scanner.
