(* ===== verification/LexReads.v ===== *)
(** * What the scanning methods take

    For comments, escapes and strings: what the method does to a cursor whose
    remaining text is known, and what a run without a diagnostic says about the
    text it took, in the terms of [Grammar]. *)
From S2P Require Import Prelude Ast Text Lexer Grammar LexerOk.

(** ** Taking text *)

(** From [s] the text [w] was taken, counting as [m], and nothing else
    happened. *)
Definition eats (s : Lexer) (w m : list char) (s' : Lexer) : Prop :=
  rem s = w ++ rem s' ∧ s' = walked s w m.

Lemma eats_nil s : eats s [] [] s.
Proof. split; [done|by rewrite walked_nil]. Qed.
Lemma eats_app s u m s1 v n s2 :
  eats s u m s1 → eats s1 v n s2 → eats s (u ++ v) (m ++ n) s2.
Proof.
  intros [H1 ->] [H2 ->]. split; [by rewrite H1, H2, app_assoc|apply walked_walked].
Qed.
Lemma eats_cons s c s1 v n s2 :
  eats s [c] [c] s1 → eats s1 v n s2 → eats s (c :: v) (c :: n) s2.
Proof. apply (eats_app s [c] [c]). Qed.
Lemma eats_walked s w m r : rem s = w ++ r → eats s w m (walked s w m).
Proof. intros Hr. split; [|done]. by rewrite (rem_walked _ _ _ _ Hr). Qed.
Lemma eats_one s c r : rem s = c :: r → eats s [c] [c] (walked s [c] [c]).
Proof. apply (eats_walked s [c]). Qed.
Lemma eats_rem s w m s' r : eats s w m s' → rem s = w ++ r → rem s' = r.
Proof. intros [H1 _] H2. rewrite H1 in H2. by simplify_list_eq. Qed.

(** A run that reports nothing. *)
Definition quiet {A} (m : M A) (s : Lexer) (a : A) (s' : Lexer) : Prop :=
  m s = Some (a, s') ∧ errors s' = errors s.

Lemma onward_same s s1 s2 :
  onward s s1 → onward s1 s2 → errors s2 = errors s → errors s1 = errors s.
Proof.
  intros [_ _ _ _ _ _ [k1 H1]] [_ _ _ _ _ _ [k2 H2]] H.
  rewrite H1 in H2. rewrite H in H2. rewrite <- app_assoc in H2.
  apply (f_equal length) in H2. rewrite !length_app in H2.
  destruct k1; [|cbn in H2; lia]. by rewrite H1, app_nil_r.
Qed.

Lemma quiet_bind {A B} (m : M A) (f : A → M B) s b s' :
  Forward m → (∀ a, Forward (f a)) →
  quiet (m ≫= f) s b s' → ∃ a s1, quiet m s a s1 ∧ quiet (f a) s1 b s'.
Proof.
  intros Hm Hf [E He]. rewrite bind_run in E.
  destruct (m s) as [[a s1]|] eqn:E1; [|done]. exists a, s1.
  assert (errors s1 = errors s).
  { eapply onward_same; [by eapply Hm|by eapply Hf|done]. }
  unfold quiet. rewrite He. naive_solver.
Qed.
Lemma quiet_ret {A} (a b : A) s s' : quiet (mret a) s b s' → b = a ∧ s' = s.
Proof. by intros [[= <- <-] _]. Qed.
Lemma quiet_gets {A B} (g : Lexer → A) (f : A → M B) s b s' :
  quiet (gets g ≫= f) s b s' → quiet (f (g s)) s b s'.
Proof. done. Qed.
Lemma quiet_add k s a s' : quiet (add k) s a s' →
  add k s = Some (tt, s').
Proof. intros [E _]. by destruct a. Qed.
Lemma quiet_report e l c s a s' : ¬ quiet (report e l c) s a s'.
Proof.
  intros [[= <- <-] H]. cbn in H. apply (f_equal length) in H.
  rewrite length_app in H. cbn in H. lia.
Qed.
Lemma quiet_report_here e s a s' : ¬ quiet (report_here e) s a s'.
Proof. apply quiet_report. Qed.
Lemma quiet_report_start e s a s' : ¬ quiet (report_start e) s a s'.
Proof. apply quiet_report. Qed.

Lemma quiet_advance s c s' :
  quiet advance s c s' → rem s = c :: rem s' ∧ s' = bump s.
Proof.
  intros [E _]. unfold advance in E.
  destruct (rem s) as [|d r] eqn:Hr.
  - apply rem_nil in Hr. unfold is_at_end in Hr. apply Nat.leb_le in Hr.
    by rewrite lookup_ge_None_2 in E.
  - pose proof (rem_cons _ _ _ Hr) as (_ & Hl & _). rewrite Hl in E. injection E as <- <-.
    split; [|done]. f_equal. unfold rem in *. cbn.
    by rewrite <- Nat.add_1_r, <- drop_drop, Hr.
Qed.
Lemma quiet_advance_eats s c s' :
  quiet advance s c s' → c ≠ newline → eats s [c] [c] s'.
Proof. intros [Hr ->]%quiet_advance Hc. split; [done|by apply bump_walked]. Qed.

(** [advance] and the test for the end of a line, as one step. *)
Lemma quiet_advance_line {A} (k : char → M A) s a s' :
  (∀ c, Forward (k c)) →
  quiet (c ← advance; _ ← (if c =? newline then end_line else mret tt); k c) s a s' →
  ∃ c s1, eats s [c] [c] s1 ∧ quiet (k c) s1 a s'.
Proof.
  intros Hk [E He]. destruct (rem s) as [|c r] eqn:Hr.
  - run. rewrite bind_run in E. unfold advance in E. apply rem_nil in Hr.
    unfold is_at_end in Hr. apply Nat.leb_le in Hr. by rewrite lookup_ge_None_2 in E.
  - rewrite (advance_line_run k _ _ _ Hr) in E. exists c, (walked s [c] [c]).
    split; [by eapply eats_one|]. by split.
Qed.

(** Take a quiet run apart. *)
Ltac quiet_step H :=
  lazymatch type of H with
  | quiet (gets _ ≫= _) _ _ _ => apply quiet_gets in H
  | quiet (_ ≫= _) _ _ _ =>
      let a := fresh "a" in let s := fresh "s" in let H1 := fresh "C" in
      apply quiet_bind in H as (a & s & H1 & H); [|apply _|intros; apply _]
  | quiet (mret _) _ _ _ => apply quiet_ret in H as [? ?]; subst
  | quiet (report_here _) _ _ _ => by apply quiet_report_here in H
  | quiet (report_start _) _ _ _ => by apply quiet_report_start in H
  | quiet (if ?b then _ else _) _ _ _ => destruct b eqn:?
  end.

(** A quiet run does not report. *)
Ltac reported H :=
  exfalso; cbn [andb] in H; repeat quiet_step H;
  match goal with
  | C : quiet (report_here _) _ _ _ |- _ => by apply quiet_report_here in C
  | C : quiet (report_start _) _ _ _ |- _ => by apply quiet_report_start in C
  end.

(** ** Runs of a class *)

Lemma span_maximal p l w r : span p l = (w, r) → l = w ++ r ∧ maximal p w r.
Proof. intros (-> & ? & ?)%span_spec. by split_and!. Qed.

Section runs.
Context {V : Type} (p : char → bool) (f : V → char → V).
Context (cond : V → Lexer → bool) (body : V → M V) `{∀ v, Progress (body v)}.
Context (cond_next : ∀ v s c r, rem s = c :: r → cond v s = p c).
Context (cond_end : ∀ v s, rem s = [] → cond v s = false).
Context (body_run : ∀ v s c r, rem s = c :: r → p c = true →
           body v s = Some (f v c, walked s [c] [c])).

(** A loop that takes characters while they are in the class [p]. *)
Lemma take_run w v s rest :
  rem s = w ++ rest → maximal p w rest →
  while cond body v s = Some (foldl f v w, walked s w w).
Proof using All.
  revert v s. induction w as [|c w IH]; intros v s Hr [Hw Hm]; rewrite while_unfold by apply _.
  - cbn in *. rewrite walked_nil. destruct rest as [|c rest].
    + by rewrite cond_end.
    + by rewrite (cond_next _ _ _ _ Hr), Hm.
  - apply Forall_cons in Hw as [Hc Hw].
    rewrite (cond_next _ _ _ _ Hr), Hc, bind_run, (body_run _ _ _ _ Hr Hc).
    rewrite IH; [by rewrite walked_walked| |done]. by apply (rem_walked s [c]).
Qed.
End runs.

Lemma cond_peek {V} (p : char → bool) :
  p 0 = false →
  (∀ (v : V) s c r, rem s = c :: r → p (peek s) = p c) ∧
  (∀ (v : V) s, rem s = [] → p (peek s) = false).
Proof. intros Hp. split; intros; by rewrite peek_rem, H. Qed.

(** [while p(self.peek()) { self.advance(); }] *)
Lemma skip_run p s w rest :
  p 0 = false → p newline = false → rem s = w ++ rest → maximal p w rest →
  while (λ _ s, p (peek s)) (λ _, _ ← advance; mret tt) tt s = Some (tt, walked s w w).
Proof.
  intros H0 Hn Hr Hm. destruct (@cond_peek unit p H0) as [H1 H2].
  rewrite (take_run p (λ _ _, tt) _ _ H1 H2) with (w := w) (rest := rest); try done; try apply _.
  - by destruct (foldl _ _ _).
  - intros v s' c r Hr' Hc. run.
    rewrite (advance_run _ _ _ Hr'); [done|congruence].
Qed.

Lemma foldl_snoc {A} (v w : list A) : foldl (λ v c, v ++ [c]) v w = v ++ w.
Proof.
  revert v. induction w as [|c w IH]; intros v; cbn; [by rewrite app_nil_r|].
  by rewrite IH, <- app_assoc.
Qed.

(** The characters of a line comment. *)
Lemma line_run s w rest :
  rem s = w ++ rest → maximal not_newline w rest →
  while (λ _ s, negb (peek s =? newline) && negb (is_at_end s))
    (λ text, c ← advance; mret (text ++ [c])) [] s = Some (w, walked s w w).
Proof.
  intros Hr Hm. rewrite (take_run not_newline (λ v c, v ++ [c])) with (w := w) (rest := rest); try done; try apply _.
  - by rewrite foldl_snoc.
  - intros v s' c r Hr'. rewrite peek_rem, at_end_rem, Hr'. apply andb_true_r.
  - intros v s' Hr'. by rewrite peek_rem, at_end_rem, Hr'.
  - intros v s' c r Hr' Hc. run. rewrite (advance_run _ _ _ Hr'); [done|].
    intros ->. done.
Qed.

(** The characters of a raw string. *)
Lemma raw_run s w rest :
  rem s = w ++ rest → maximal not_quote w rest →
  while (λ _ s, negb (is_at_end s) && negb (peek s =? quote))
    (λ value, c ← advance; _ ← (if c =? newline then end_line else mret tt);
              mret (value ++ [c])) [] s = Some (w, walked s w w).
Proof.
  intros Hr Hm. rewrite (take_run not_quote (λ v c, v ++ [c])) with (w := w) (rest := rest); try done; try apply _.
  - by rewrite foldl_snoc.
  - intros v s' c r Hr'. by rewrite peek_rem, at_end_rem, Hr'.
  - intros v s' Hr'. by rewrite peek_rem, at_end_rem, Hr'.
  - intros v s' c r Hr' Hc.
    by rewrite (advance_line_run (λ c, mret (v ++ [c])) _ _ _ Hr').
Qed.

(** ** Block comments *)

Definition closing : list char := ascii_chars "*/".

(** The loop of [block_comment]. *)
Definition block_loop : N → M N :=
  while (λ depth s, (0 <? depth) && negb (is_at_end s))
    (λ depth,
      closing ← gets (λ s, (peek s =? ch "*") && (peek_next s =? ch "/"));
      if (closing : bool) then _ ← advance; _ ← advance; mret (depth - 1)
      else c ← advance; _ ← (if c =? newline then end_line else mret tt); mret depth).

Lemma starts_closing l :
  starts_with closing l = (default 0 (head l) =? ch "*") && (default 0 (l !! 1%nat) =? ch "/").
Proof.
  unfold starts_with, closing. code_points. destruct l as [|c [|d l]]; cbn.
  - done.
  - rewrite andb_false_r. by apply bool_decide_eq_false.
  - destruct (N.eqb_spec c 42), (N.eqb_spec d 47); subst; cbn;
      [by apply bool_decide_eq_true|apply bool_decide_eq_false; congruence..].
Qed.

Lemma closing_test s :
  (peek s =? ch "*") && (peek_next s =? ch "/") = starts_with closing (rem s).
Proof. by rewrite starts_closing, peek_rem, peek_next_rem. Qed.

Lemma starts_closing_app body rest c :
  starts_with closing (c :: body ++ closing ++ rest) = starts_with closing (c :: body).
Proof.
  rewrite !starts_closing. unfold closing. code_points. destruct body; [|done].
  cbn. by rewrite andb_false_r.
Qed.

Lemma block_done s : block_loop 0 s = Some (0, s).
Proof. unfold block_loop. by rewrite while_unfold by apply _. Qed.

Lemma block_step s c r :
  rem s = c :: r →
  block_loop 1 s =
    if starts_with closing (c :: r) then Some (0, walked s closing closing)
    else block_loop 1 (walked s [c] [c]).
Proof.
  intros Hr. unfold block_loop at 1. rewrite while_unfold by apply _.
  rewrite (rem_not_end _ _ _ Hr). cbn [N.ltb N.compare negb andb].
  rewrite bind_run, bind_run, gets_run, closing_test, Hr.
  destruct (starts_with closing (c :: r)) eqn:E.
  - apply bool_decide_eq_true in E. destruct r as [|d r]; [done|].
    injection E as -> ->. rewrite bind_run, (advance_run _ _ _ Hr) by done.
    rewrite bind_run, (advance_run _ 47 r); [|by apply (rem_walked s [_])|done].
    rewrite walked_walked. apply block_done.
  - by rewrite (advance_line_run (λ _, mret 1) _ _ _ Hr).
Qed.

Lemma block_run body s rest :
  contains closing body = false → rem s = body ++ closing ++ rest →
  block_comment s = Some (tt, walked s (body ++ closing) (body ++ closing)).
Proof.
  intros Hb Hr. unfold block_comment. rewrite bind_run. fold (block_loop 1).
  assert (block_loop 1 s = Some (0, walked s (body ++ closing) (body ++ closing))) as ->;
    [|done].
  revert s Hr. induction body as [|c body IH]; intros s Hr.
  - rewrite (block_step _ _ _ Hr). by rewrite starts_closing.
  - cbn [contains] in Hb. apply orb_false_elim in Hb as [Hc Hb].
    rewrite (block_step _ _ _ Hr), starts_closing_app, Hc.
    rewrite IH, walked_walked by (done || by apply (rem_walked s [c])). done.
Qed.

Lemma block_open s : contains closing (rem s) = false →
  ∃ s', block_loop 1 s = Some (1, s').
Proof.
  remember (rem s) as l eqn:Hr. symmetry in Hr. revert s Hr.
  induction l as [|c l IH]; intros s Hr Hl.
  - unfold block_loop. rewrite while_unfold by apply _.
    rewrite (proj1 (rem_nil _) Hr). by eexists.
  - rewrite (block_step _ _ _ Hr). cbn [contains] in Hl.
    apply orb_false_elim in Hl as [-> Hl]. apply IH; [|done]. by apply (rem_walked s [c]).
Qed.

Lemma first_closing l :
  contains closing l = false ∨
  ∃ body rest, l = body ++ closing ++ rest ∧ contains closing body = false.
Proof.
  induction l as [|c l IH]; [by left|]. cbn [contains].
  destruct (starts_with closing (c :: l)) eqn:E; cbn [orb].
  - right. exists [], (drop 2 (c :: l)). split; [|done].
    apply bool_decide_eq_true in E. by rewrite <- (take_drop 2 (c :: l)), E at 1.
  - destruct IH as [IH|(body & rest & -> & Hb)]; [by left|right].
    exists (c :: body), rest. split; [done|]. cbn [contains].
    by rewrite Hb, <- (starts_closing_app body rest c), E.
Qed.

Lemma quiet_block s a s' :
  quiet block_comment s a s' →
  ∃ body, contains closing body = false ∧ eats s (body ++ closing) (body ++ closing) s'.
Proof.
  intros H. destruct (first_closing (rem s)) as [Ho|(body & rest & Hr & Hb)].
  - unfold block_comment in H. quiet_step H. destruct (block_open _ Ho) as [s2 E2].
    destruct C as [E1 _]. fold (block_loop 1) in E1. rewrite E1 in E2. injection E2 as -> ->.
    by apply quiet_report_here in H.
  - exists body. split; [done|]. destruct H as [E _].
    rewrite (block_run _ _ _ Hb Hr) in E. injection E as _ <-.
    eapply eats_walked. by rewrite Hr, app_assoc.
Qed.

(** ** Escapes *)

(** The hexadecimal digits of [\u{…}]. *)
Definition hex_loop : list char → M (list char) :=
  while (λ digits s, is_ascii_hexdigit (peek s) && (len digits <=? 6))
    (λ digits, c ← advance; mret (digits ++ [c])).

Lemma hex_step ds s c r :
  rem s = c :: r → is_ascii_hexdigit c = true → len ds ≤ 6 →
  hex_loop ds s = hex_loop (ds ++ [c]) (walked s [c] [c]).
Proof.
  intros Hr Hc Hd. unfold hex_loop at 1. rewrite while_unfold by apply _.
  rewrite peek_rem, Hr. cbn [head default]. unfold id.
  rewrite Hc, (proj2 (N.leb_le _ _) Hd), bind_run. run.
  rewrite (advance_run _ _ _ Hr); [done|]. by intros ->.
Qed.
Lemma hex_stop ds s :
  is_ascii_hexdigit (default 0 (head (rem s))) = false ∨ 6 < len ds →
  hex_loop ds s = Some (ds, s).
Proof.
  intros Hd. unfold hex_loop. rewrite while_unfold by apply _. rewrite peek_rem.
  destruct Hd as [->|Hd%N.leb_gt]; [done|]. by rewrite Hd, andb_false_r.
Qed.

Lemma hex_run w ds s r :
  rem s = w ++ ch "}" :: r → Forall (λ d, is_ascii_hexdigit d = true) w →
  len (ds ++ w) ≤ 6 → hex_loop ds s = Some (ds ++ w, walked s w w).
Proof.
  revert ds s. induction w as [|c w IH]; intros ds s Hr Hw Hl.
  - rewrite app_nil_r, walked_nil. apply hex_stop. rewrite Hr. by left.
  - apply Forall_cons in Hw as [Hc Hw]. len_simpl.
    rewrite (hex_step _ _ _ _ Hr Hc) by lia.
    rewrite IH; [by rewrite walked_walked, <- app_assoc| |done|len_simpl; lia].
    by apply (rem_walked s [c]).
Qed.

Lemma hex_any ds s : ∃ w,
  hex_loop ds s = Some (ds ++ w, walked s w w) ∧ ∃ r, rem s = w ++ r ∧
  Forall (λ d, is_ascii_hexdigit d = true) w.
Proof.
  remember (rem s) as l eqn:Hr. symmetry in Hr. revert ds s Hr.
  induction l as [|c l IH]; intros ds s Hr.
  - exists []. rewrite app_nil_r, walked_nil. split; [|by exists []].
    apply hex_stop. rewrite Hr. by left.
  - destruct (is_ascii_hexdigit c) eqn:Hc.
    1: destruct (decide (len ds ≤ 6)) as [Hd|Hd].
    2,3: exists []; rewrite app_nil_r, walked_nil; split;
         [apply hex_stop; rewrite Hr; cbn; unfold id; rewrite Hc; auto; right; lia
         |by exists (c :: l)].
    rewrite (hex_step _ _ _ _ Hr Hc Hd).
    destruct (IH (ds ++ [c]) (walked s [c] [c])) as (w & -> & r & -> & Hw).
    { by apply (rem_walked s [c]). }
    exists (c :: w). rewrite walked_walked, <- app_assoc.
    split; [done|]. exists r. by split; [|constructor].
Qed.

Lemma unicode_run digits n c v s r :
  Forall (λ d, is_ascii_hexdigit d = true) digits → 1 ≤ len digits ≤ 6 →
  u32_from_digits 16 digits = Some n → from_u32 n = Some c →
  rem s = (ch "{" :: digits ++ [ch "}"]) ++ r →
  unicode_escape v s
  = Some (v ++ [c], walked s (ch "{" :: digits ++ [ch "}"]) (ch "{" :: digits ++ [ch "}"])).
Proof.
  intros Hd Hl Hn Hc Hr. unfold unicode_escape. rewrite bind_run.
  rewrite (advance_run _ _ _ Hr) by done.
  assert (Hr1 : rem (walked s [ch "{"] [ch "{"]) = digits ++ ch "}" :: r).
  { apply rem_walked. rewrite Hr. cbn. by rewrite <- app_assoc. }
  rewrite bind_run. fold (hex_loop []).
  rewrite (hex_run digits [] _ r Hr1 Hd) by apply Hl. rewrite walked_walked. cbn [app].
  pose proof (rem_walked _ digits digits _ Hr1) as Hr'. rewrite walked_walked in Hr'. cbn [app] in Hr'.
  rewrite bind_run, gets_run, peek_rem, Hr'. cbn [app head default]. unfold id.
  rewrite N.eqb_refl, (proj2 (N.eqb_neq (len digits) 0)), (proj2 (N.leb_le (len digits) 6)) by lia.
  cbn [andb negb]. rewrite Hn. cbn [mbind option_bind]. rewrite Hc, bind_run.
  rewrite (advance_run _ _ _ Hr') by done. by rewrite walked_walked.
Qed.

Lemma quiet_unicode v s v' s' :
  peek s = ch "{" → quiet (unicode_escape v) s v' s' →
  ∃ digits n c, Forall (λ d, is_ascii_hexdigit d = true) digits ∧ 1 ≤ len digits ≤ 6 ∧
    u32_from_digits 16 digits = Some n ∧ from_u32 n = Some c ∧ v' = v ++ [c] ∧
    eats s (ch "{" :: digits ++ [ch "}"]) (ch "{" :: digits ++ [ch "}"]) s'.
Proof.
  intros Hp H. unfold unicode_escape in H. quiet_step H.
  pose proof (quiet_advance _ _ _ C) as [Hr _].
  rewrite peek_rem, Hr in Hp. cbn in Hp. unfold id in Hp. subst a.
  apply quiet_advance_eats in C; [|done].
  apply quiet_bind in H as (digits & s1 & [E _] & H); [|apply _|intros; apply _].
  fold (hex_loop []) in E. destruct (hex_any [] s0) as (w & E' & r & Hw & Hx).
  rewrite E' in E. injection E as <- <-. cbn [app] in H.
  assert (C' := eats_walked s0 w w r Hw). quiet_step H.
  destruct (_ && _) eqn:Hb; [|by reported H].
  apply andb_prop in Hb as [[Hb1 Hb2]%andb_prop Hb3].
  destruct (u32_from_digits 16 w) as [n|] eqn:Hn; cbn in H; [|by reported H].
  destruct (from_u32 n) as [c|] eqn:Hc; [|by reported H].
  quiet_step H. quiet_step H. exists w, n, c.
  rewrite negb_true_iff, N.eqb_neq in Hb2. apply N.leb_le in Hb3.
  split_and!; try done; [lia|].
  pose proof (quiet_advance _ _ _ C0) as [Hr1 _].
  rewrite peek_rem, Hr1 in Hb1. cbn in Hb1. apply N.eqb_eq in Hb1. unfold id in Hb1. subst a.
  apply quiet_advance_eats in C0; [|done].
  eapply eats_cons; [done|]. by eapply eats_app.
Qed.

Ltac decide_chars := code_points; cbn [N.eqb Pos.eqb andb orb negb].

Lemma escape_run e c v s r :
  escapes e c → rem s = e ++ r → escape v s = Some (v ++ [c], walked s e e).
Proof.
  intros He Hr. unfold escape. rewrite bind_run. destruct He; cbn [app] in Hr.
  1-5: rewrite (advance_run _ _ _ Hr) by done; done.
  cbn [ascii_chars app] in Hr.
  assert (Hr1 : rem (walked s [ch "u"] [ch "u"])
                = (ch "{" :: digits ++ [ch "}"]) ++ r) by by apply (rem_walked s [_]).
  rewrite (advance_run _ (ch "u") _ Hr) by done. rewrite bind_run, gets_run, peek_rem, Hr1.
  cbn [app head default]. unfold id. decide_chars.
  pose proof (unicode_run digits n c v _ r H H0 H1 H2 Hr1) as E. code_points.
  rewrite E, walked_walked. done.
Qed.

Lemma quiet_escape v s v' s' :
  quiet (escape v) s v' s' → ∃ e c, escapes e c ∧ v' = v ++ [c] ∧ eats s e e s'.
Proof.
  intros H. unfold escape in H. quiet_step H. quiet_step H.
  repeat (let E := fresh in destruct (a =? _) eqn:E in H; [apply N.eqb_eq in E as ->|]).
  all: try (quiet_step H; eexists _, _; split_and!; [constructor|done|];
            by apply quiet_advance_eats).
  - cbn [andb] in H. destruct (peek s0 =? ch "{") eqn:Hp; [|by reported H].
    apply N.eqb_eq in Hp. apply (quiet_unicode _ _ _ _ Hp) in H as (ds & n & c & ? & ? & ? & ? & ? & ?).
    exists (ascii_chars "u{" ++ ds ++ [ch "}"]), c. split_and!; [by econstructor|done|].
    eapply eats_cons; [by apply quiet_advance_eats|done].
  - by reported H.
Qed.

(** ** Strings nested in a hole *)

Lemma quiet_while {V} (cond : V → Lexer → bool) (body : V → M V)
    (P : V → Lexer → V → Lexer → Prop) `{∀ v, Forward (body v)} :
  (∀ v s, cond v s = false → P v s v s) →
  (∀ v s v1 s1 v' s', cond v s = true → quiet (body v) s v1 s1 → P v1 s1 v' s' → P v s v' s') →
  ∀ v s v' s', quiet (while cond body v) s v' s' → P v s v' s'.
Proof.
  intros Hstop Hstep v s v' s'. unfold quiet, while. generalize (S (length (chars s) - current s)).
  intros n. revert v s. induction n as [|n IH]; intros v s; cbn [loop].
  - destruct (cond v s) eqn:Hc; [by intros []|]. intros [[= <- <-] _]. auto.
  - destruct (cond v s) eqn:Hc; [|intros [[= <- <-] _]; auto].
    intros C. apply quiet_bind in C as (v1 & s1 & C1 & C2); [|apply _..].
    eapply Hstep; [done..|]. by apply IH.
Qed.

Definition flat (c : char) : char := if c =? newline then ch " " else c.
Lemma bump_flat s c : bump s = walked s [c] [flat c].
Proof.
  unfold flat. destruct (N.eqb_spec c newline) as [->|Hc]; [|by apply bump_walked].
  unfold walked, bump. cbn. by rewrite Nat.add_1_r.
Qed.
Lemma advance_flat_run s c r : rem s = c :: r → advance s = Some (c, walked s [c] [flat c]).
Proof.
  intros Hr. unfold advance. apply rem_cons in Hr as (_ & -> & _). by rewrite (bump_flat s c).
Qed.

(** The loop of [nested_string]. *)
Definition nested_loop : list char → M (list char) :=
  while (λ _ s, negb (is_at_end s) && negb (peek s =? quote))
    (λ value,
      nested ← advance;
      _ ← (if nested =? newline then end_line else mret tt);
      at_end ← gets is_at_end;
      if (nested =? backslash) && negb at_end
      then c ← advance; mret (value ++ [nested; c])
      else mret (value ++ [nested])).

Lemma nested_loop_step v s c r :
  rem s = c :: r → c ≠ quote →
  nested_loop v s =
    match c =? backslash, r with
    | true, d :: _ =>
        nested_loop (v ++ [c; d]) (walked s [c; d] [c; flat d])
    | _, _ => nested_loop (v ++ [c]) (walked s [c] [c])
    end.
Proof.
  intros Hr Hc. unfold nested_loop at 1. rewrite while_unfold by apply _.
  rewrite (rem_not_end _ _ _ Hr), peek_rem, Hr. cbn [head default negb andb]. unfold id.
  rewrite (proj2 (N.eqb_neq _ _) Hc). cbn [negb].
  rewrite bind_run, (advance_line_run (λ nested, at_end ← gets is_at_end; _) _ _ _ Hr).
  rewrite bind_run, gets_run, at_end_rem, (rem_walked s [c] [c] r Hr).
  destruct (c =? backslash); [|done]. destruct r as [|d r]; [done|]. cbn [negb andb].
  rewrite bind_run, (advance_flat_run _ d r); [|by apply (rem_walked s [c])].
  by rewrite walked_walked.
Qed.

Lemma nested_loop_run n n' v s r :
  nested n n' → rem s = n ++ quote :: r → nested_loop v s = Some (v ++ n, walked s n n').
Proof.
  intros Hn. revert v s. induction Hn as [|c w m Hn IH|c w m Hq Hb Hn IH]; intros v s Hr.
  - rewrite app_nil_r, walked_nil. unfold nested_loop. rewrite while_unfold by apply _.
    by rewrite (rem_not_end _ _ _ Hr), peek_rem, Hr.
  - rewrite (nested_loop_step _ _ _ _ Hr) by done. cbn [N.eqb Pos.eqb backslash app].
    rewrite IH, <- app_assoc, walked_walked; [done|]. by apply (rem_walked s [_; _]).
  - rewrite (nested_loop_step _ _ _ _ Hr Hq), (proj2 (N.eqb_neq _ _) Hb).
    rewrite IH, <- app_assoc, walked_walked; [done|]. by apply (rem_walked s [_]).
Qed.

Lemma quiet_nested_loop v s v' s' :
  quiet (nested_loop v) s v' s' →
  rem s' = [] ∨ ∃ n n', nested n n' ∧ v' = v ++ n ∧ eats s n n' s' ∧ head (rem s') = Some quote.
Proof.
  revert v s v' s'. apply quiet_while; [apply _|..].
  - intros v s Hc. rewrite at_end_rem, peek_rem in Hc.
    destruct (rem s) as [|c r] eqn:Hr; [by left|right]. cbn in Hc. unfold id in Hc.
    exists [], []. rewrite app_nil_r. split_and!; [constructor|done|apply eats_nil|].
    by destruct (N.eqb_spec c quote) as [->|].
  - intros v s v1 s1 v' s' Hc C IH. rewrite peek_rem in Hc.
    apply (quiet_advance_line (λ nested, at_end ← gets is_at_end; _)) in C
      as (c & s2 & E & C); [|intros; apply _].
    destruct E as [Hr ->]. cbn [app] in Hr.
    rewrite Hr in Hc. apply andb_prop in Hc as [_ Hc]. cbn in Hc. unfold id in Hc.
    apply negb_true_iff, N.eqb_neq in Hc. quiet_step C. quiet_step C.
    + apply andb_prop in Heqb as [->%N.eqb_eq _]. quiet_step C. quiet_step C.
      destruct IH as [IH|(n & n' & Hn & -> & He & Hq)]; [by left|right].
      exists (backslash :: a :: n), (backslash :: flat a :: n').
      rewrite <- app_assoc. split_and!; [by constructor|done| |done].
      apply quiet_advance in C0 as [Hr1 ->].
      eapply eats_cons; [by eapply eats_one|].
      apply (eats_app _ [a] [flat a] (bump (walked s [backslash] [backslash]))); [|done].
      split; [done|apply bump_flat].
    + quiet_step C. destruct IH as [IH|(n & n' & Hn & -> & He & Hq)]; [by left|].
      destruct (decide (c = backslash)) as [->|Hb].
      * cbn [N.eqb Pos.eqb backslash andb] in Heqb. left.
        rewrite at_end_rem in Heqb. destruct He as [He _]. 
        destruct (rem (walked s [backslash] [backslash])) eqn:Hx; [|done].
        by symmetry in He; apply app_nil in He as [_ ?].
      * right. exists (c :: n), (c :: n'). rewrite <- app_assoc.
        split_and!; [by constructor|done| |done].
        eapply eats_cons; [by eapply eats_one|done].
Qed.

Lemma nested_string_run n n' v s r :
  nested n n' → rem s = n ++ quote :: r →
  nested_string v s
  = Some (v ++ quote :: n ++ [quote], walked s (n ++ [quote]) (n' ++ [quote])).
Proof.
  intros Hn Hr. unfold nested_string. rewrite bind_run. fold (nested_loop (v ++ [quote])).
  rewrite (nested_loop_run _ _ _ _ _ Hn Hr). apply (rem_walked _ _ n') in Hr.
  rewrite bind_run, gets_run, at_end_rem, Hr. cbn iota.
  rewrite bind_run, (advance_run _ _ _ Hr) by done.
  rewrite walked_walked, ret_run, <- !app_assoc. done.
Qed.

Lemma quiet_nested v s v' s' :
  quiet (nested_string v) s v' s' →
  rem s' = [] ∨
  ∃ n n', nested n n' ∧ v' = v ++ quote :: n ++ [quote] ∧
    eats s (n ++ [quote]) (n' ++ [quote]) s'.
Proof.
  intros H. unfold nested_string in H.
  apply quiet_bind in H as (v1 & s1 & C & H); [|apply _|intros; apply _].
  apply (quiet_nested_loop (v ++ [quote])) in C.
  quiet_step H. rewrite at_end_rem in H. destruct (rem s1) as [|c r] eqn:Hr.
  - apply quiet_ret in H as [-> ->]. by left.
  - destruct C as [C|(n & n' & Hn & -> & He & Hq)]; [done|]. injection Hq as ->.
    right. exists n, n'. quiet_step H. quiet_step H.
    pose proof (quiet_advance _ _ _ C) as [Hr' _]. rewrite Hr in Hr'. injection Hr' as <- _.
    split_and!; [done|by rewrite <- !app_assoc|].
    eapply eats_app; [done|by apply quiet_advance_eats].
Qed.

(** ** The inside of a string *)

Definition string_loop (hole : bool) : N * list char * bool → M (N * list char * bool) :=
  while (λ '(depth, _, broke) s,
           negb broke && negb (is_at_end s || (peek s =? quote) && (depth =? 0)))
    (string_step hole).

Lemma string_loop_step hole d acc s c r :
  rem s = c :: r → c ≠ quote ∨ d ≠ 0 →
  string_loop hole (d, acc, false) s
  = (string_step hole (d, acc, false) ≫= string_loop hole) s.
Proof.
  intros Hr Hc. unfold string_loop at 1. rewrite while_unfold by apply _.
  rewrite (rem_not_end _ _ _ Hr), peek_rem, Hr. cbn [head default negb andb orb]. unfold id.
  destruct Hc as [Hc%N.eqb_neq|Hc%N.eqb_neq]; rewrite Hc; [done|]. by rewrite andb_false_r.
Qed.

Lemma string_loop_stop hole acc s r :
  rem s = quote :: r → string_loop hole (0, acc, false) s = Some ((0, acc, false), s).
Proof.
  intros Hr. unfold string_loop. rewrite while_unfold by apply _.
  by rewrite (rem_not_end _ _ _ Hr), peek_rem, Hr.
Qed.

(** One pass, for each way a piece of the text can begin. *)
Section pieces.
Context (hole : bool) (d : N) (acc : list char) (s : Lexer) (r : list char).
Notation pass_ := (string_step hole (d, acc, false) s).

Lemma piece_newline :
  rem s = newline :: r →
  pass_ = Some ((d, acc ++ [newline], false), walked s [newline] [newline]).
Proof.
  intros Hr. unfold string_step. rewrite bind_run. unfold advance.
  pose proof (rem_cons _ _ _ Hr) as (_ & -> & _). cbn.
  unfold walked, bump. cbn. by rewrite Nat.add_1_r.
Qed.
Lemma piece_escape e c :
  rem s = backslash :: e ++ r → escapes e c →
  pass_ = Some ((d, acc ++ [c], false), walked s (backslash :: e) (backslash :: e)).
Proof.
  intros Hr He. unfold string_step. rewrite bind_run, (advance_run _ _ _ Hr) by done.
  apply (rem_walked s [backslash] [backslash]) in Hr.
  cbn [N.eqb Pos.eqb newline backslash]. rewrite bind_run, gets_run, at_end_rem, Hr.
  assert (e ≠ []) by (by destruct He). destruct e as [|e0 e]; [done|]. cbn [app] in *. cbn iota.
  rewrite bind_run, (escape_run _ _ _ _ r He Hr). by rewrite walked_walked.
Qed.
Lemma piece_brace :
  hole = true → rem s = ch "{" :: ch "{" :: r →
  pass_ = Some ((d, acc ++ ascii_chars "{{", false),
                walked s (ascii_chars "{{") (ascii_chars "{{")).
Proof.
  intros -> Hr. unfold string_step. rewrite bind_run, (advance_run _ _ _ Hr) by done.
  apply (rem_walked s [ch "{"] [ch "{"]) in Hr.
  decide_chars. rewrite bind_run, gets_run, peek_rem, Hr. cbn [head default]. unfold id.
  decide_chars. rewrite bind_run, (advance_run _ _ _ Hr) by done. by rewrite walked_walked.
Qed.
Lemma piece_open :
  hole = true → rem s = ch "{" :: r → not_next (ch "{") r →
  pass_ = Some ((d + 1, acc ++ [ch "{"], false), walked s [ch "{"] [ch "{"]).
Proof.
  intros -> Hr Hn. unfold string_step. rewrite bind_run, (advance_run _ _ _ Hr) by done.
  apply (rem_walked s [ch "{"] [ch "{"]) in Hr.
  decide_chars. rewrite bind_run, gets_run, peek_rem, Hr.
  destruct (N.eqb_spec (default 0 (head r)) 123) as [E|E]; [|done].
  exfalso. apply Hn. destruct r; [done|]. by rewrite <- E.
Qed.
Lemma piece_close :
  hole = true → 0 < d → rem s = ch "}" :: r →
  pass_ = Some ((d - 1, acc ++ [ch "}"], false), walked s [ch "}"] [ch "}"]).
Proof.
  intros -> Hd%N.ltb_lt Hr. unfold string_step. rewrite bind_run, (advance_run _ _ _ Hr) by done.
  decide_chars. by rewrite Hd.
Qed.
Lemma piece_nested n n' :
  hole = true → rem s = quote :: n ++ quote :: r → nested n n' →
  pass_ = Some ((d, acc ++ quote :: n ++ [quote], false),
                walked s (quote :: n ++ [quote]) (quote :: n' ++ [quote])).
Proof.
  intros -> Hr Hn. unfold string_step. rewrite bind_run, (advance_run _ _ _ Hr) by done.
  apply (rem_walked s [quote] [quote]) in Hr. decide_chars.
  rewrite bind_run, (nested_string_run _ _ _ _ _ Hn Hr). by rewrite walked_walked.
Qed.
Lemma piece_plain c :
  rem s = c :: r → c ∉ [newline; backslash; quote] → (hole = true → c ≠ ch "{") →
  (hole = true → 0 < d → c ≠ ch "}") →
  pass_ = Some ((d, acc ++ [c], false), walked s [c] [c]).
Proof.
  rewrite !not_elem_of_cons. intros Hr (Hn & Hb & Hq & _) H1 H2. unfold string_step.
  rewrite bind_run, (advance_run _ _ _ Hr) by done.
  apply N.eqb_neq in Hn, Hb, Hq. rewrite Hn, Hb, Hq, !andb_false_r.
  destruct hole; [|done]. rewrite (proj2 (N.eqb_neq _ _) (H1 eq_refl)). cbn [andb].
  destruct (N.ltb_spec 0 d) as [Hd|Hd]; [|by rewrite andb_false_r].
  by rewrite (proj2 (N.eqb_neq _ _) (H2 eq_refl Hd)).
Qed.
End pieces.

Lemma content_run hole d w m v acc s r :
  content hole d w m v → rem s = w ++ quote :: r →
  string_loop hole (d, acc, false) s = Some ((0, acc ++ v, false), walked s w m).
Proof.
  intros Hc. revert acc s. induction Hc; intros acc s Hr.
  1: rewrite app_nil_r, walked_nil; by eapply string_loop_stop.
  all: cbn [app] in Hr; rewrite <- ?app_assoc in Hr; cbn [app ascii_chars] in Hr.
  all: rewrite (string_loop_step _ _ _ _ _ _ Hr);
    [|first [by left | right; lia | left; set_solver]].
  all: rewrite bind_run.
  all: first
    [ erewrite piece_newline by done | erewrite piece_escape by done
    | erewrite piece_brace by done
    | erewrite piece_open; [|done..|destruct w; [done|by intros [= ->]]]
    | erewrite piece_close by (done || lia) | erewrite piece_nested by done
    | erewrite piece_plain by done ].
  all: rewrite ?N.add_sub, IHHc;
    [ rewrite walked_walked, <- !app_assoc; cbn [app]; by rewrite <- ?app_assoc
    | apply rem_walked; rewrite Hr; cbn [app ascii_chars]; by rewrite <- ?app_assoc ].
Qed.

(** What one quiet pass takes, and how it continues a content. *)
Lemma quiet_step_piece hole d acc s d1 v1 b1 s1 :
  quiet (string_step hole (d, acc, false)) s (d1, v1, b1) s1 →
  hole = true ∨ d = 0 → ¬ (peek s = quote ∧ d = 0) →
  rem s1 = [] ∨
  b1 = false ∧ (hole = true ∨ d1 = 0) ∧ ∃ w m v, v1 = acc ++ v ∧ eats s w m s1 ∧
    ∀ w2 m2 v2 r, content hole d1 w2 m2 v2 → rem s1 = w2 ++ quote :: r →
      content hole d (w ++ w2) (m ++ m2) (v ++ v2).
Proof.
  intros H Hhole Hnq. pose proof H as [E _]. unfold string_step in H. cbn iota in H.
  quiet_step H.
  pose proof (quiet_advance _ _ _ C) as [Hr ->].
  rewrite peek_rem, Hr in Hnq. cbn [head default] in Hnq. unfold id in Hnq.
  destruct (a =? newline) eqn:Hn; [apply N.eqb_eq in Hn; subst a|apply N.eqb_neq in Hn].
  { right. rewrite (piece_newline _ _ _ _ _ Hr) in E. injection E as <- <- <- <-.
    split; [done|]. split; [tauto|]. exists [newline], [newline], [newline].
    split_and!; [done|by eapply eats_one|]. intros. by constructor. }
  apply quiet_advance_eats in C; [|done].
  destruct (a =? backslash) eqn:Hb; [apply N.eqb_eq in Hb; subst a|apply N.eqb_neq in Hb].
  { quiet_step H. rewrite at_end_rem in H. destruct (rem (bump s)) as [|c r] eqn:Hr1.
    { quiet_step H. left. by simplify_eq. }
    quiet_step H. apply quiet_escape in C0 as (e & c' & He & -> & Hs). quiet_step H.
    simplify_eq. right. split; [done|]. split; [tauto|].
    exists (backslash :: e), (backslash :: e), [c'].
    split_and!; [done|by eapply eats_cons|]. intros. cbn. by constructor. }
  destruct (hole && (a =? ch "{")) eqn:Ho.
  { apply andb_prop in Ho as [-> ->%N.eqb_eq]. right. quiet_step H.
    rewrite peek_rem in H. destruct (N.eqb_spec (default 0 (head (rem (bump s)))) (ch "{")) as [Hx|Hx].
    - destruct (rem (bump s)) as [|x r] eqn:Hr1; [done|]. cbn in Hx. unfold id in Hx. subst x.
      rewrite (piece_brace _ _ _ _ _ eq_refl Hr) in E. injection E as <- <- <- <-.
      split; [done|]. split; [tauto|]. eexists (ascii_chars "{{"), _, (ascii_chars "{{").
      split_and!; [done|by eapply (eats_walked _ (ascii_chars "{{") _ r)|].
      intros. by constructor.
    - assert (Hx' : not_next (ch "{") (rem (bump s))).
      { unfold not_next. intros Hh. apply Hx. by rewrite Hh. }
      rewrite (piece_open _ _ _ _ _ eq_refl Hr Hx') in E. injection E as <- <- <- <-.
      split; [done|]. split; [tauto|]. eexists [ch "{"], _, [ch "{"].
      split_and!; [done|by eapply eats_one|]. intros w2 m2 v2 r Hc2 Hr2. constructor; [done| |done].
      rewrite (rem_walked s [ch "{"] _ _ Hr) in Hr2. rewrite Hr2 in Hx'.
      by destruct w2. }
  destruct (hole && (a =? ch "}") && (0 <? d)) eqn:Hcl.
  { apply andb_prop in Hcl as [[-> ->%N.eqb_eq]%andb_prop Hd%N.ltb_lt]. right.
    rewrite (piece_close _ _ _ _ _ eq_refl Hd Hr) in E. injection E as <- <- <- <-.
    split; [done|]. split; [tauto|]. eexists [ch "}"], _, [ch "}"].
    split_and!; [done|by eapply eats_one|]. intros.
    rewrite <- (N.sub_add 1 d) by lia. by constructor. }
  destruct (hole && (a =? quote)) eqn:Hq.
  { apply andb_prop in Hq as [-> ->%N.eqb_eq]. quiet_step H.
    apply quiet_nested in C0 as [C0|(n & n' & Hne & -> & Hs)].
    { left. quiet_step H. by simplify_eq. }
    quiet_step H. simplify_eq. right. split; [done|]. split; [tauto|].
    exists (quote :: n ++ [quote]), (quote :: n' ++ [quote]), (quote :: n ++ [quote]).
    split_and!; [done|by eapply eats_cons|]. intros. cbn. rewrite <- !app_assoc.
    constructor; [done| |done..]. naive_solver lia. }
  quiet_step H. simplify_eq. right. split; [done|]. split; [tauto|]. exists [a], [a], [a].
  split_and!; [done..|]. intros. cbn. constructor; [| | |done].
  - rewrite !not_elem_of_cons. split_and!; [done..| |set_solver].
    intros ->. destruct Hhole as [->| ->]; [done|tauto].
  - intros -> ->. done.
  - intros -> Hd%N.ltb_lt ->. by rewrite Hd in Hcl.
Qed.

(** What a quiet run of the loop has taken when it stops. *)
Definition taken (hole : bool) (x : N * list char * bool) (s : Lexer)
    (y : N * list char * bool) (s' : Lexer) : Prop :=
  let '(d, acc, b) := x in let '(_, v', _) := y in
  (rem s = [] → rem s' = []) ∧
  (b = false → hole = true ∨ d = 0 →
   rem s' = [] ∨ ∃ w m v, content hole d w m v ∧ v' = acc ++ v ∧ eats s w m s' ∧
                  head (rem s') = Some quote).

Lemma quiet_string_loop hole x s y s' :
  quiet (string_loop hole x) s y s' → taken hole x s y s'.
Proof.
  revert x s y s'. apply quiet_while; [apply _|..].
  - intros [[d acc] b] s Hc. split; [done|]. intros -> _.
    rewrite at_end_rem, peek_rem in Hc. destruct (rem s) as [|c r] eqn:Hr; [by left|right].
    cbn in Hc. unfold id in Hc. apply negb_false_iff, andb_prop in Hc as [->%N.eqb_eq ->%N.eqb_eq].
    exists [], [], []. split_and!; [apply content_end|by rewrite app_nil_r|apply eats_nil|done].
  - intros [[d acc] b] s [[d1 v1] b1] s1 [[d' v'] b'] s' Hc C [IH1 IH2].
    apply andb_prop in Hc as [Hb Hc]. destruct b; [done|]. clear Hb.
    rewrite negb_true_iff, orb_false_iff, at_end_rem in Hc. destruct Hc as [Hc1 Hc2].
    split; [by destruct (rem s)|]. intros _ Hh.
    apply quiet_step_piece in C as [Hr|(-> & Hh1 & w & m & v & -> & He & Hk)]; [left; auto| |done|].
    + destruct (IH2 eq_refl Hh1) as [?|(w2 & m2 & v2 & Hc & -> & He2 & Hq)]; [by left|right].
      exists (w ++ w2), (m ++ m2), (v ++ v2).
      split_and!; [|by rewrite app_assoc|by eapply eats_app|done].
      destruct (rem s') as [|q r] eqn:Hr; [done|]. injection Hq as ->.
      eapply Hk; [done|]. destruct He2 as [-> _]. by rewrite Hr.
    + intros [Hp ->]. by rewrite Hp in Hc2.
Qed.

(** ** String tokens *)

(** The cursor after [add]. *)
Definition added (k : TokenKind) (s : Lexer) : Lexer :=
  mkLexer (chars s) (start s) (current s) (line s) (column s) (start_column s)
    (tokens s ++ [mkToken k (line s) (start_column s)]) (errors s).
Lemma add_run k s : add k s = Some (tt, added k s).
Proof. done. Qed.
Lemma quiet_added k s a s' : quiet (add k) s a s' → s' = added k s.
Proof. by intros [[= _ <-] _]. Qed.

(** The kind of the last token. *)
Definition prev (s : Lexer) : option TokenKind := tok_kind <$> last (tokens s).

Lemma after_word_prev word s :
  after_word word s = true ↔ prev s = Some (Tk_Identifier word).
Proof.
  unfold after_word, prev. destruct (tok_kind <$> last (tokens s)) as [[]|]; try done.
  rewrite bool_decide_eq_true. naive_solver.
Qed.

Lemma close_run v s r :
  rem s = quote :: r →
  close_string v s = Some (tt, added (Tk_String (str_of_chars v)) (walked s [quote] [quote])).
Proof.
  intros Hr. unfold close_string. rewrite bind_run, gets_run, (rem_not_end _ _ _ Hr).
  by rewrite bind_run, (advance_run _ _ _ Hr).
Qed.

Lemma quiet_close v s a s' :
  quiet (close_string v) s a s' → ∃ c r, rem s = c :: r.
Proof.
  intros H. unfold close_string in H. quiet_step H. rewrite at_end_rem in H.
  destruct (rem s) as [|c r]; [by reported H|]. eauto.
Qed.

Lemma string_run hole w m v s r :
  prev s ≠ Some (Tk_Identifier "raw") →
  (hole = true ↔ prev s = Some (Tk_Identifier "text")) →
  content hole 0 w m v → rem s = w ++ quote :: r →
  string_token s = Some (tt, added (Tk_String (str_of_chars v))
                               (walked s (w ++ [quote]) (m ++ [quote]))).
Proof.
  intros Hraw Hhole Hc Hr. unfold string_token. rewrite bind_run, gets_run, bind_run, gets_run.
  rewrite <- after_word_prev in Hraw, Hhole. apply not_true_is_false in Hraw as ->.
  replace (after_word "text" s) with hole by (destruct hole, (after_word "text" s); naive_solver).
  rewrite bind_run. fold (string_loop hole). rewrite (content_run _ _ _ _ _ _ _ _ Hc Hr).
  rewrite (close_run _ _ r), walked_walked; [done|]. by apply rem_walked.
Qed.

Lemma raw_string_run w s r :
  prev s = Some (Tk_Identifier "raw") → Forall (λ c, not_quote c = true) w →
  rem s = w ++ quote :: r →
  string_token s = Some (tt, added (Tk_String (str_of_chars w))
                               (walked s (w ++ [quote]) (w ++ [quote]))).
Proof.
  intros Hraw Hw Hr. unfold string_token. rewrite bind_run, gets_run, bind_run, gets_run.
  apply after_word_prev in Hraw as ->. unfold raw_string. rewrite bind_run.
  rewrite (raw_run _ _ _ Hr) by done.
  rewrite (close_run _ _ r), walked_walked; [done|]. by apply rem_walked.
Qed.

Lemma quiet_string `{Unicode} s a s' :
  quiet string_token s a s' →
  ∃ w m k s1, eats s w m s1 ∧ s' = added k s1 ∧
    ∀ rest, lexeme (prev s) (quote :: w) (quote :: m) k rest.
Proof.
  intros C. unfold string_token in C. quiet_step C. quiet_step C.
  destruct (after_word "raw" s) eqn:Hraw.
  - apply after_word_prev in Hraw. unfold raw_string in C. quiet_step C.
    destruct (span not_quote (rem s)) as [w r] eqn:Hs. apply span_maximal in Hs as [Hr Hm].
    destruct C0 as [E _]. rewrite (raw_run _ _ _ Hr Hm) in E. injection E as <- <-.
    pose proof (rem_walked s w w r Hr) as Hr1.
    pose proof (quiet_close _ _ _ _ C) as (c & r' & Hr2). rewrite Hr1 in Hr2.
    destruct r as [|c0 r]; [done|]. injection Hr2 as -> ->. destruct Hm as [Hw Hq]. apply negb_false_iff, N.eqb_eq in Hq as ->.
    destruct C as [E _]. rewrite (close_run _ _ _ Hr1), walked_walked in E. injection E as _ <-.
    eexists _, _, _, _. split_and!; [eapply eats_walked|done|intros; by apply lexeme_raw].
    by rewrite Hr, <- app_assoc.
  - apply quiet_bind in C as ([[d v] b] & s1 & C1 & C); [|apply _|intros [[] ?]; apply _].
    apply quiet_string_loop in C1 as [_ C1].
    pose proof (quiet_close _ _ _ _ C) as (c & r & Hr1).
    destruct C1 as [C1|(w & m & v' & Hc & -> & He & Hq)]; [done|by right|congruence|].
    rewrite Hr1 in Hq. injection Hq as ->. destruct C as [E _].
    rewrite (close_run _ _ _ Hr1) in E. injection E as _ <-.
    eexists _, _, _, _. split_and!; [eapply eats_app; [done|by eapply eats_one]|done|].
    intros rest. apply (lexeme_string _ (after_word "text" s)); [|apply after_word_prev|done].
    rewrite <- after_word_prev. congruence.
Qed.
