(* ===== verification/LexScan.v ===== *)
(** * The scanner computes the lexical grammar

    Numbers, words and whole tokens, and the two directions together:
    [Lexer.scan] accepts exactly the texts that [Grammar.reads] describes, with
    exactly its tokens and positions. *)
From S2P Require Import Prelude Ast Text Lexer Grammar LexerOk LexReads.

(** ** Texts by their indices *)

(** The text between the start of the token and the cursor. *)
Lemma chars_split s : inside s → chars s = take (current s) (chars s) ++ rem s.
Proof. intros. unfold rem. by rewrite take_drop. Qed.

Lemma lexed_run s u m r s' :
  inside s → start s = current s → rem s = u ++ r → s' = walked s u m →
  lexed_from start s' = Some (u, s').
Proof.
  intros Hi Hs Hr ->. unfold lexed_from. cbn [chars start current walked].
  rewrite (chars_split _ Hi), Hr, Hs.
  assert (N.of_nat (current s) = len (take (current s) (chars s))) as Hc.
  { unfold len. rewrite length_take. unfold inside in Hi. lia. }
  replace (N.of_nat (current s + length u)) with (len (take (current s) (chars s)) + len u)
    by (rewrite <- Hc; unfold len; lia).
  rewrite Hc, slice_get_app. done.
Qed.

Lemma lexed_after_run s a b u m r s' :
  inside s → start s = current s → rem s = a :: b :: u ++ r → s' = walked s (a :: b :: u) m →
  lexed_from (λ s, start s + 2)%nat s' = Some (u, s').
Proof.
  intros Hi Hs Hr ->. unfold lexed_from. cbn [chars start current walked].
  rewrite (chars_split _ Hi), Hr, Hs.
  assert (N.of_nat (current s + 2) = len (take (current s) (chars s) ++ [a; b])) as Hc.
  { unfold len. rewrite length_app, length_take. cbn. unfold inside in Hi. lia. }
  replace (N.of_nat (current s + length (a :: b :: u)))
    with (len (take (current s) (chars s) ++ [a; b]) + len u)
    by (rewrite <- Hc; unfold len; cbn [length]; lia).
  replace (take (current s) (chars s) ++ a :: b :: u ++ r)
    with ((take (current s) (chars s) ++ [a; b]) ++ u ++ r) by by rewrite <- app_assoc.
  rewrite Hc, slice_get_app. done.
Qed.

(** ** Numbers *)

Lemma digits_run s w rest :
  rem s = w ++ rest → maximal decimal_char w rest → digits s = Some (tt, walked s w w).
Proof. by apply (skip_run decimal_char). Qed.

Lemma fraction_test s :
  (peek s =? ch ".") && is_ascii_digit (peek_next s) = starts_fraction (rem s).
Proof.
  rewrite peek_rem, peek_next_rem. by destruct (rem s) as [|c [|d r]].
Qed.

Lemma exponent_test s : at_exponent s = starts_exponent (rem s).
Proof.
  unfold at_exponent. rewrite <- (rem_lookup s 2), peek_rem, peek_next_rem.
  destruct (rem s) as [|c [|d [|e r]]]; cbn; unfold id; try done.
Qed.

Lemma fraction_run {A} (k : bool → M A) f hf s rest :
  fraction f hf rest → rem s = f ++ rest →
  (b ← gets (λ s, (peek s =? ch ".") && is_ascii_digit (peek_next s));
   _ ← (if (b : bool) then _ ← advance; digits else mret tt); k b) s
  = k hf (walked s f f).
Proof.
  intros Hf Hr. rewrite bind_run, gets_run, fraction_test, Hr.
  destruct Hf as [rest Hs|ds rest Hs Hm]; cbn [app].
  - rewrite Hs, bind_run, ret_run. by rewrite walked_nil.
  - destruct ds as [|d ds]; [done|]. cbn [starts_fraction starts_digit app] in *.
    rewrite N.eqb_refl, Hs. cbn [andb].
    rewrite bind_run, bind_run, (advance_run _ _ _ Hr) by done.
    rewrite (digits_run _ (d :: ds) rest), walked_walked; [done| |done].
    by apply (rem_walked s [_]).
Qed.

Lemma exponent_run {A} (k : bool → M A) e he s rest :
  exponent e he rest → rem s = e ++ rest →
  (b ← gets at_exponent;
   _ ← (if (b : bool) then
          _ ← advance;
          sign ← gets (λ s, (peek s =? ch "+") || (peek s =? ch "-"));
          _ ← (if (sign : bool) then _ ← advance; mret tt else mret tt);
          digits
        else mret tt);
   k b) s = k he (walked s e e).
Proof.
  intros He Hr. rewrite bind_run, gets_run, exponent_test, Hr.
  destruct He as [rest Hs|x sign ds rest Hx Hsign Hs Hm]; cbn [app].
  - rewrite Hs, bind_run, ret_run. by rewrite walked_nil.
  - destruct ds as [|d ds]; [done|]. cbn [starts_digit] in Hs.
    assert (starts_exponent (x :: (sign ++ d :: ds) ++ rest) = true) as ->.
    { destruct Hx as [-> | ->], Hsign as [-> | [-> | ->]]; 
      cbn [starts_exponent starts_digit app]; rewrite ?Hs; decide_chars; by rewrite ?orb_true_r. }
    rewrite bind_run, bind_run, (advance_run _ _ _ Hr) by (destruct Hx as [-> | ->]; done).
    cbn [app] in Hr. apply (rem_walked s [x] [x]) in Hr. rewrite <- app_assoc in Hr.
    rewrite bind_run, gets_run, peek_rem, Hr.
    assert (Hsign' : sign = [] ∧ (d =? ch "+") || (d =? ch "-") = false ∨
      ∃ g, sign = [g] ∧ (g =? ch "+") || (g =? ch "-") = true ∧ g ≠ newline).
    { destruct Hsign as [-> | [-> | ->]]; [left|right..].
      - split; [done|]. unfold is_ascii_digit in Hs. code_points.
        apply andb_prop in Hs as [Hs1%N.leb_le _].
        rewrite !(proj2 (N.eqb_neq _ _)) by lia. done.
      - by exists (ch "+").
      - by exists (ch "-"). }
    destruct Hsign' as [[-> Hg]|(g & -> & Hg & Hn)]; cbn [app head default]; unfold id; rewrite Hg.
    + rewrite bind_run, ret_run, (digits_run _ (d :: ds) rest), walked_walked by done. done.
    + rewrite bind_run, bind_run, (advance_run _ g _ Hr) by done.
      rewrite walked_walked, ret_run, (digits_run _ (d :: ds) rest), walked_walked; [done| |done].
      rewrite <- walked_walked. by apply (rem_walked _ [g]).
Qed.

(** What [number] does with the text it has taken. *)
Definition settle (kind : option TokenKind) : M unit :=
  match kind with Some k => add k | None => report_start "invalid number" end.

Section numbers.
Context (s0 : Lexer) (Hi : inside s0) (Hstart : start s0 = current s0).

Lemma at_start_run d w r :
  rem s0 = d :: w ++ r →
  at_start (walked s0 (d :: w) (d :: w)) = Some (d, walked s0 (d :: w) (d :: w)).
Proof using Hstart.
  intros Hr. unfold at_start. cbn [chars start walked]. rewrite Hstart.
  by apply rem_cons in Hr as (_ & -> & _).
Qed.

Lemma number_run d ds f hf e he rest :
  rem s0 = d :: ds ++ f ++ e ++ rest → is_ascii_digit d = true →
  (d = ch "0" → head (ds ++ f ++ e ++ rest) ∉ [Some (ch "x"); Some (ch "b")]) →
  maximal decimal_char ds (f ++ e ++ rest) → fraction f hf (e ++ rest) →
  exponent e he rest →
  number (walked s0 [d] [d])
  = settle (number_kind (hf || he) (d :: ds ++ f ++ e))
      (walked s0 (d :: ds ++ f ++ e) (d :: ds ++ f ++ e)).
Proof using All.
  intros Hr Hd Hx Hm Hf He. pose proof (rem_walked s0 [d] [d] _ Hr) as Hr1.
  unfold number. rewrite bind_run, (at_start_run _ [] _ Hr).
  rewrite bind_run, gets_run, peek_rem, Hr1.
  assert ((d =? ch "0") && ((default 0 (head (ds ++ f ++ e ++ rest)) =? ch "x")
          || (default 0 (head (ds ++ f ++ e ++ rest)) =? ch "b")) = false) as ->.
  { destruct (N.eqb_spec d (ch "0")) as [->|]; [|done]. specialize (Hx eq_refl).
    destruct (ds ++ f ++ e ++ rest) as [|c l]; [done|].
    cbn in *. unfold id. apply orb_false_iff. rewrite !N.eqb_neq. set_solver. }
  rewrite bind_run, (digits_run _ _ _ Hr1 Hm), walked_walked.
  assert (Hr2 := rem_walked _ _ ds _ Hr1). rewrite walked_walked in Hr2.
  rewrite (fraction_run _ _ _ _ _ Hf Hr2), walked_walked.
  assert (Hr3 := rem_walked _ _ f _ Hr2). rewrite walked_walked in Hr3.
  rewrite (exponent_run _ _ _ _ _ He Hr3), walked_walked.
  rewrite bind_run, (lexed_run s0 (d :: ds ++ f ++ e) (d :: ds ++ f ++ e) rest); try done.
  - unfold settle, number_kind. cbn [app]. rewrite <- !app_assoc.
    repeat case_match; done.
  - rewrite Hr. cbn. by rewrite <- !app_assoc.
  - cbn. by rewrite <- !app_assoc.
Qed.

Lemma radix_run x ds rest :
  rem s0 = ch "0" :: x :: ds ++ rest → x = ch "x" ∨ x = ch "b" →
  maximal radix_char ds rest →
  number (walked s0 [ch "0"] [ch "0"])
  = settle (Tk_Int <$> i64_from_digits (if x =? ch "x" then 16 else 2) (drop_separators ds))
      (walked s0 (ch "0" :: x :: ds) (ch "0" :: x :: ds)).
Proof using All.
  intros Hr Hx Hm. pose proof (rem_walked s0 [_] [ch "0"] _ Hr) as Hr1.
  unfold number. rewrite bind_run, (at_start_run _ [] _ Hr).
  rewrite bind_run, gets_run, peek_rem, Hr1. cbn [head default]. unfold id.
  assert ((ch "0" =? ch "0") && ((x =? ch "x") || (x =? ch "b")) = true) as ->
    by (by destruct Hx as [-> | ->]).
  unfold radix_number. rewrite bind_run, gets_run, peek_rem, Hr1. cbn [head default]. unfold id.
  rewrite bind_run, (advance_run _ _ _ Hr1), walked_walked by (destruct Hx as [-> | ->]; done).
  assert (Hr2 := rem_walked _ [x] [x] _ Hr1). rewrite walked_walked in Hr2.
  pose proof (skip_run radix_char _ _ _ eq_refl eq_refl Hr2 Hm) as E. unfold radix_char in E.
  rewrite bind_run, E, walked_walked.
  rewrite bind_run, (lexed_after_run s0 (ch "0") x ds ([ch "0"] ++ [x] ++ ds) rest);
    [|done..|by rewrite <- app_assoc]. cbn [app].
  destruct (drop_separators ds) as [|c l] eqn:Hds; [done|].
  cbn [len length]. unfold settle. by destruct (i64_from_digits _ _).
Qed.

End numbers.

(** Every text has the shape of a number after its first digit. *)
Lemma exponent_shape l : ∃ e he rest, l = e ++ rest ∧ exponent e he rest.
Proof.
  destruct (starts_exponent l) eqn:Hs; [|exists [], false, l; by repeat constructor].
  destruct l as [|x l]; [done|]. cbn [starts_exponent] in Hs.
  apply andb_prop in Hs as [Hx Hs].
  assert (Hx' : x = ch "e" ∨ x = ch "E").
  { apply orb_prop in Hx as [Hx%N.eqb_eq|Hx%N.eqb_eq]; auto. }
  assert (∃ sign l', l = sign ++ l' ∧ starts_digit l' = true ∧
          (sign = [] ∨ sign = [ch "+"] ∨ sign = [ch "-"])) as (sign & l' & -> & Hd & Hsign).
  { apply orb_prop in Hs as [Hs|Hs]; [by exists [], l; auto|].
    destruct l as [|g l]; [done|]. apply andb_prop in Hs as [Hg Hs]. exists [g], l.
    split_and!; [done..|]. apply orb_prop in Hg as [Hg%N.eqb_eq|Hg%N.eqb_eq]; subst; auto. }
  destruct (span decimal_char l') as [ds rest] eqn:E. apply span_maximal in E as [-> Hm].
  exists (x :: sign ++ ds), true, rest. split; [cbn; by rewrite app_assoc|].
  constructor; [done..| |done]. destruct ds as [|c ds]; [|done]. cbn [app] in Hd.
  destruct rest as [|c rest]; [done|]. destruct Hm as [_ Hm].
  unfold decimal_char in Hm. cbn in Hd. by rewrite Hd in Hm.
Qed.

Lemma fraction_shape l : ∃ f hf l', l = f ++ l' ∧ fraction f hf l'.
Proof.
  destruct (starts_fraction l) eqn:Hs; [|exists [], false, l; by repeat constructor].
  destruct l as [|x l]; [done|]. cbn [starts_fraction] in Hs.
  apply andb_prop in Hs as [->%N.eqb_eq Hd].
  destruct (span decimal_char l) as [ds rest] eqn:E. apply span_maximal in E as [-> Hm].
  exists (ch "." :: ds), true, rest. split; [done|].
  constructor; [|done]. destruct ds as [|c ds]; [|done]. cbn [app] in Hd.
  destruct rest as [|c rest]; [done|]. destruct Hm as [_ Hm].
  unfold decimal_char in Hm. cbn in Hd. by rewrite Hd in Hm.
Qed.

Lemma number_shape l : ∃ ds f hf e he rest,
  l = ds ++ f ++ e ++ rest ∧ maximal decimal_char ds (f ++ e ++ rest) ∧
  fraction f hf (e ++ rest) ∧ exponent e he rest.
Proof.
  destruct (span decimal_char l) as [ds l1] eqn:E. apply span_maximal in E as [-> Hm].
  destruct (fraction_shape l1) as (f & hf & l2 & -> & Hf).
  destruct (exponent_shape l2) as (e & he & rest & -> & He).
  by exists ds, f, hf, e, he, rest.
Qed.

(** ** Dispatch on the first character *)

Lemma quiet_matches s c b s' :
  quiet (matches c) s b s' → c ≠ newline →
  if b then eats s [c] [c] s' else s' = s ∧ not_next c (rem s).
Proof.
  intros [E _] Hc. rewrite (matches_run _ _ Hc) in E. case_decide as Hh.
  - injection E as <- <-. destruct (rem s) as [|d r] eqn:Hr; [done|]. injection Hh as ->.
    by eapply eats_one.
  - by injection E as <- <-.
Qed.

Lemma matches_yes s c r :
  rem s = c :: r → c ≠ newline → matches c s = Some (true, walked s [c] [c]).
Proof. intros Hr Hc. rewrite (matches_run _ _ Hc), Hr. by rewrite decide_True. Qed.
Lemma matches_no s c r :
  rem s = r → not_next c r → c ≠ newline → matches c s = Some (false, s).
Proof. intros Hr Hn Hc. rewrite (matches_run _ _ Hc), Hr. by rewrite decide_False. Qed.

(** The characters that begin neither a number nor a word. *)
Definition specials : list char :=
  newline :: carriage_return :: tab :: quote :: ascii_chars "(){}[],;:.+-*%?!=<>/ ".

Section tokens.
Context `{Unicode}.

Lemma specials_begin :
  Forall (λ c, is_ascii_digit c = false ∧ is_identifier_start c = false) specials.
Proof.
  unfold specials, is_identifier_start. code_points.
  repeat constructor; try done; by rewrite alphabetic_ascii.
Qed.

Lemma digit_ordinary c : is_ascii_digit c = true → c ∉ specials.
Proof.
  unfold specials, is_ascii_digit. code_points. intros [H1%N.leb_le H2%N.leb_le]%andb_prop.
  rewrite !not_elem_of_cons. split_and!; try lia. apply not_elem_of_nil.
Qed.
Lemma word_ordinary c : is_identifier_start c = true → c ∉ specials.
Proof.
  intros Hc Hin. pose proof specials_begin as Hs. rewrite Forall_forall in Hs.
  destruct (Hs _ Hin). congruence.
Qed.
Lemma digit_not_word c : is_ascii_digit c = true → is_identifier_start c = false.
Proof.
  unfold is_identifier_start, is_ascii_digit. intros [H1%N.leb_le H2%N.leb_le]%andb_prop.
  rewrite alphabetic_ascii by lia. unfold is_ascii_alphabetic. code_points.
  by rewrite (proj2 (N.eqb_neq c _)), (proj2 (N.leb_gt 65 c)), (proj2 (N.leb_gt 97 c)) by lia.
Qed.

Lemma ordinary_run s c r :
  rem s = c :: r → c ∉ specials →
  scan_token s =
    (if is_ascii_digit c then number
     else if is_identifier_start c then identifier
     else report_start ("unexpected character '" +:+ str_of_chars [c] +:+ "'"))
      (walked s [c] [c]).
Proof.
  unfold specials. code_points. rewrite !not_elem_of_cons. intros Hr Hc.
  unfold scan_token. rewrite bind_run, (advance_run _ _ _ Hr) by (code_points; tauto).
  unfold single. code_points. repeat (rewrite (proj2 (N.eqb_neq c _)) by tauto).
  done.
Qed.

Lemma identifier_run s c w rest :
  inside s → start s = current s → rem s = c :: w ++ rest →
  is_identifier_start c = true → maximal is_identifier_continue w rest →
  let text := str_of_chars (c :: w) in
  identifier (walked s [c] [c])
  = Some (tt, added (default (Tk_Identifier text) (keyword text))
                (walked s (c :: w) (c :: w))).
Proof.
  intros Hi Hs Hr Hc Hm text. unfold identifier. rewrite bind_run.
  rewrite (skip_run is_identifier_continue _ w rest), walked_walked; [|apply continue_nul|..].
  - by rewrite bind_run, (lexed_run s (c :: w) (c :: w) rest).
  - unfold is_identifier_continue, is_identifier_start. by rewrite alphabetic_ascii.
  - by apply (rem_walked s [c]).
  - done.
Qed.

(** ** What [scan_token] does with a lexeme or a gap *)

Lemma single_ordinary c k : single c = Some k → c ≠ newline.
Proof. by intros Hk ->. Qed.

(** Run [scan_token] up to the choice its first character makes. *)
Ltac first_char Hr :=
  unfold scan_token; rewrite bind_run, (advance_run _ _ _ Hr) by done;
  cbv [single]; decide_chars.

Lemma gap_run s g rest :
  gap g rest → rem s = g ++ rest → scan_token s = Some (tt, walked s g g).
Proof.
  intros Hg Hr.
  destruct Hg as [c rest Hc|text rest Hm Hn|body rest Hb]; code_points; cbn [app] in *.
  - destruct (decide (c = 10)) as [->|Hne].
    + unfold scan_token. rewrite bind_run. unfold advance.
      pose proof (rem_cons _ _ _ Hr) as (_ & -> & _). cbn. unfold walked, bump. cbn.
      by rewrite Nat.add_1_r.
    + rewrite !elem_of_cons, elem_of_nil in Hc.
      unfold scan_token. rewrite bind_run, (advance_run _ _ _ Hr) by done.
      by destruct Hc as [-> | [-> | [-> | [-> | []]]]].
  - first_char Hr. pose proof (rem_walked s [47] [47] _ Hr) as Hr1.
    rewrite bind_run, (matches_yes _ _ _ Hr1), walked_walked by done.
    pose proof (rem_walked s [47; 47] [47; 47] _ Hr) as Hr2.
    unfold line_comment. change (ch "/") with 47. cbn [app].
    rewrite bind_run, (matches_no _ _ _ Hr2 Hn) by done.
    rewrite bind_run, (line_run _ _ _ Hr2 Hm). by rewrite walked_walked.
  - first_char Hr. pose proof (rem_walked s [47] [47] _ Hr) as Hr1.
    rewrite bind_run, (matches_no _ _ _ Hr1) by done.
    rewrite bind_run, (matches_yes _ _ _ Hr1), walked_walked by done.
    rewrite (block_run body _ rest), walked_walked; [done..|].
    rewrite <- app_assoc in Hr. by apply (rem_walked s [47; 42]).
Qed.

Ltac takes_next s rest :=
  rewrite bind_run, (matches_yes _ _ rest) by (done || by apply (rem_walked s [_]));
  rewrite walked_walked; cbn [app].
Ltac leaves_next s rest :=
  rewrite bind_run, (matches_no _ _ rest) by (done || by apply (rem_walked s [_])).

Lemma documentation_run s text rest :
  rem s = ascii_chars "///" ++ text ++ rest → maximal not_newline text rest →
  scan_token s = Some (tt, added (Tk_DocComment (str_of_chars (trim text)))
                             (walked s (ascii_chars "///" ++ text) (ascii_chars "///" ++ text))).
Proof.
  code_points. cbn [app]. intros Hr Hm. first_char Hr. takes_next s (47 :: text ++ rest).
  unfold line_comment. change (ch "/") with 47. pose proof (rem_walked s [47; 47] [47; 47] _ Hr) as Hr2.
  rewrite bind_run, (matches_yes _ _ _ Hr2), walked_walked by done. cbn [app].
  pose proof (rem_walked s [47; 47; 47] [47; 47; 47] _ Hr) as Hr3.
  rewrite bind_run, (line_run _ _ _ Hr3 Hm). by rewrite walked_walked.
Qed.

Lemma lexeme_run s w m k rest :
  inside s → start s = current s → lexeme (prev s) w m k rest → rem s = w ++ rest →
  scan_token s = Some (tt, added k (walked s w m)).
Proof.
  intros Hi Hs Hl Hr.
  destruct Hl as [c k rest Hk|rest Hn|rest|rest|rest Hn1 Hn2|rest|rest|rest Hn|rest|rest Hn|rest
    |rest Hn1 Hn2|text rest Hm|w rest Hp Hw|hole w m v rest Hp Hh Hc|x ds n rest Hx Hm Hn
    |d ds f hf e he k rest Hd Hx Hm Hf He Hk|c w rest Hc Hm].
  13: { rewrite <- app_assoc in Hr. by apply (documentation_run _ _ rest). }
  15: { cbn [app] in Hr. rewrite (ordinary_run _ _ _ Hr) by by apply digit_ordinary.
        change (is_ascii_digit (ch "0")) with true. cbn iota.
        rewrite (radix_run _ Hi Hs _ _ _ Hr Hx Hm), Hn. done. }
  15: { cbn [app] in Hr. rewrite <- !app_assoc in Hr. 
        rewrite (ordinary_run _ _ _ Hr), Hd by by apply digit_ordinary.
        rewrite (number_run _ Hi Hs _ _ _ _ _ _ _ Hr Hd Hx Hm Hf He), Hk. done. }
  15: { cbn [app] in Hr. rewrite (ordinary_run _ _ _ Hr) by by apply word_ordinary.
        rewrite Hc. destruct (is_ascii_digit c) eqn:Hd; [by rewrite digit_not_word in Hc|].
        by apply identifier_run with (rest := rest). }
  1: { unfold scan_token. rewrite bind_run, (advance_run _ _ _ Hr) by by eapply single_ordinary.
       by rewrite Hk. }
  12: { cbn [app] in Hr. rewrite <- app_assoc in Hr. first_char Hr.
        rewrite (raw_string_run w _ rest), walked_walked; try done. by apply (rem_walked s [_]). }
  12: { cbn [app] in Hr. rewrite <- app_assoc in Hr. first_char Hr.
        rewrite (string_run hole w m v _ rest), walked_walked; try done.
        by apply (rem_walked s [_]). }
  all: code_points; cbn [app] in *; first_char Hr; 
    repeat (leaves_next s rest || takes_next s rest || leaves_next s (62 :: rest)); done.
Qed.
(** ** What a quiet [scan_token] has read *)

(** From [s], one gap or one token was read. *)
Definition read_one (s s' : Lexer) : Prop :=
  (∃ g, gap g (rem s') ∧ eats s g g s') ∨
  (∃ w m k s1, lexeme (prev s) w m k (rem s1) ∧ eats s w m s1 ∧ s' = added k s1).

Lemma read_token s w m k s1 s' a :
  eats s w m s1 → quiet (add k) s1 a s' → lexeme (prev s) w m k (rem s1) → read_one s s'.
Proof. intros He ->%quiet_added Hl. right. by exists w, m, k, s1. Qed.

Lemma quiet_finish s w m s1 a s' kind :
  eats s w m s1 → quiet (settle kind) s1 a s' →
  (∀ k, kind = Some k → lexeme (prev s) w m k (rem s1)) → read_one s s'.
Proof.
  intros He C Hk. destruct kind as [k|]; cbn [settle] in C; [|by reported C].
  eapply read_token; eauto.
Qed.

Lemma quiet_number s c l a s' :
  inside s → start s = current s → is_ascii_digit c = true →
  rem s = c :: l → quiet number (walked s [c] [c]) a s' → read_one s s'.
Proof.
  intros Hi Hs Hd Hr [E He].
  destruct (decide (c = ch "0" ∧ (head l = Some (ch "x") ∨ head l = Some (ch "b")))) as [[-> Hx]|Hx].
  - destruct l as [|x l']; [by destruct Hx|]. cbn [head] in Hx.
    assert (Hx' : x = ch "x" ∨ x = ch "b") by naive_solver.
    destruct (span radix_char l') as [ds rest] eqn:Es. apply span_maximal in Es as [-> Hm].
    rewrite (radix_run _ Hi Hs _ _ _ Hr Hx' Hm) in E.
    eapply quiet_finish; [eapply eats_walked|by split|].
    + by rewrite Hr.
    + intros k Hk. apply fmap_Some in Hk as (n & Hn & ->).
      rewrite (rem_walked s _ _ rest) by done. by constructor.
  - destruct (number_shape l) as (ds & f & hf & e & he & rest & -> & Hm & Hf & Hex).
    rewrite (number_run _ Hi Hs _ _ _ hf _ he _ Hr Hd) in E; [|set_solver|done..].
    eapply quiet_finish; [eapply (eats_walked s (c :: ds ++ f ++ e) _ rest)|by split|].
    + rewrite Hr. cbn. by rewrite <- !app_assoc.
    + intros k Hk. rewrite (rem_walked s _ _ rest) by (rewrite Hr; cbn; by rewrite <- !app_assoc).
      eapply lexeme_number; try done. set_solver.
Qed.

Lemma quiet_identifier s c l a s' :
  inside s → start s = current s → is_identifier_start c = true →
  rem s = c :: l → quiet identifier (walked s [c] [c]) a s' → read_one s s'.
Proof.
  intros Hi Hs Hc Hr [E _]. 
  destruct (span is_identifier_continue l) as [w rest] eqn:Es.
  apply span_maximal in Es as [-> Hm].
  rewrite (identifier_run _ _ _ _ Hi Hs Hr Hc Hm) in E. injection E as _ <-.
  right. eexists _, _, _, _. split_and!; [|by eapply (eats_walked s (c :: w) _ rest)|done].
  rewrite (rem_walked s _ _ rest) by done. by constructor.
Qed.

Lemma quiet_slash s a s' :
  rem s = ch "/" :: rem (walked s [ch "/"] [ch "/"]) →
  quiet (comment ← matches (ch "/");
         if (comment : bool) then line_comment
         else block ← matches (ch "*");
              if (block : bool) then block_comment else add Tk_Slash)
    (walked s [ch "/"] [ch "/"]) a s' → read_one s s'.
Proof.
  intros Hr C. apply eats_one in Hr as He. quiet_step C. apply quiet_matches in C0; [|done].
  destruct a0.
  - pose proof (eats_app _ _ _ _ _ _ _ He C0) as H2. unfold line_comment in C. quiet_step C.
    apply quiet_matches in C1; [|done].
    assert (∃ w r, rem s1 = w ++ r ∧ maximal not_newline w r) as (w & r & Hw & Hm).
    { destruct (span not_newline (rem s1)) as [w r] eqn:Es. apply span_maximal in Es. eauto. }
    apply quiet_bind in C as (text & s2 & [E _] & C); [|apply _|intros; apply _].
    rewrite (line_run _ _ _ Hw Hm) in E. injection E as <- <-.
    pose proof (eats_walked s1 w w r Hw) as He2. pose proof (rem_walked s1 w w r Hw) as Hr2.
    destruct a0.
    + eapply read_token; [|done|].
      * eapply eats_app; [by eapply eats_app|done].
      * rewrite Hr2. by apply (lexeme_documentation _ w r).
    + destruct C1 as [-> Hn]. quiet_step C. left. exists (ascii_chars "//" ++ w).
      split; [|by eapply eats_app]. apply gap_line; [done|]. by rewrite <- Hw.
  - destruct C0 as [-> Hn]. quiet_step C. apply quiet_matches in C0; [|done]. destruct a0.
    + pose proof (eats_app _ _ _ _ _ _ _ He C0) as H2.
      apply quiet_block in C as (body & Hb & Hbe). left.
      exists (ascii_chars "/*" ++ body ++ closing). split; [by apply gap_block|by eapply eats_app].
    + destruct C0 as [-> Hn2]. eapply read_token; [done..|]. by constructor.
Qed.

Lemma quiet_two s c d k1 k2 s1 a s' :
  eats s [c] [c] s1 → d ≠ newline →
  quiet (two ← matches d; add (if (two : bool) then k2 else k1)) s1 a s' →
  (∀ rest, lexeme (prev s) [c; d] [c; d] k2 rest) →
  (∀ rest, not_next d rest → lexeme (prev s) [c] [c] k1 rest) → read_one s s'.
Proof.
  intros He Hd C H2 H1. quiet_step C. apply quiet_matches in C0; [|done]. destruct a0.
  - eapply read_token; [by eapply eats_app|done|auto].
  - destruct C0 as [-> Hn]. eapply read_token; [done..|auto].
Qed.

(** Decide the next test on the first character. *)
Ltac test_char C :=
  lazymatch type of C with
  | quiet (if ?b then _ else _) _ _ _ =>
      let E := fresh "E" in
      destruct b eqn:E; [first [apply N.eqb_eq in E; subst | idtac]|]
  end.

Lemma quiet_equal s s1 a s' :
  eats s [ch "="] [ch "="] s1 →
  quiet (equal ← matches (ch "=");
         if (equal : bool) then add Tk_EqualEqual
         else arrow ← matches (ch ">"); add (if (arrow : bool) then Tk_FatArrow else Tk_Equal))
    s1 a s' → read_one s s'.
Proof.
  intros He C. quiet_step C. apply quiet_matches in C0; [|done]. destruct a0.
  - eapply read_token; [by eapply eats_app|done|constructor].
  - destruct C0 as [-> Hn]. quiet_step C. apply quiet_matches in C0; [|done]. destruct a0.
    + eapply read_token; [by eapply eats_app|done|constructor].
    + destruct C0 as [-> Hn2]. eapply read_token; [done..|by constructor].
Qed.

Lemma quiet_scan s a s' :
  inside s → start s = current s → quiet scan_token s a s' → read_one s s'.
Proof.
  intros Hi Hs C. unfold scan_token in C. quiet_step C.
  pose proof (quiet_advance _ _ _ C0) as [Hr ->].
  destruct (decide (a0 = newline)) as [->|Hn].
  { destruct C as [[= _ <-] _]. left. exists [newline]. split; [constructor; set_solver|].
    split; [done|]. unfold walked, bump. cbn. by rewrite Nat.add_1_r. }
  apply quiet_advance_eats in C0 as He; [|done]. clear C0. destruct He as [_ Hst].
  rewrite Hst in C, Hr. clear Hst. pose proof (eats_one _ _ _ Hr) as He.
  destruct (single a0) as [k|] eqn:Hk; [eapply read_token; [done..|by constructor]|].
  test_char C. { refine (quiet_two _ _ _ _ _ _ _ _ He _ C _ _); [done|intros; by constructor..]. }
  test_char C.
  { quiet_step C. apply quiet_matches in C0; [|done]. destruct a0; [|by reported C].
    eapply read_token; [by eapply eats_app|done|constructor]. }
  test_char C. { by eapply quiet_equal. }
  test_char C. { refine (quiet_two _ _ _ _ _ _ _ _ He _ C _ _); [done|intros; by constructor..]. }
  test_char C. { refine (quiet_two _ _ _ _ _ _ _ _ He _ C _ _); [done|intros; by constructor..]. }
  test_char C. { by eapply quiet_slash. }
  test_char C.
  { quiet_step C. left. exists [a0]. split; [|done]. constructor.
    rewrite !orb_true_iff, !N.eqb_eq in E5. rewrite !elem_of_cons. tauto. }
  test_char C. { done. }
  test_char C.
  { apply quiet_string in C as (w & m & k & s1 & He1 & -> & Hl). right.
    eexists _, _, _, _. split_and!; [apply Hl|by eapply eats_cons|done]. }
  test_char C. { by eapply quiet_number. }
  test_char C. { by eapply quiet_identifier. }
  by reported C.
Qed.
(** ** Whole sources *)

Definition passes : unit → M unit := while (λ _ s, negb (is_at_end s)) pass.

(** The tokens of a finished scan. *)
Definition finished (s : Lexer) : list Token :=
  tokens s ++ [mkToken Tk_Eof (line s) (column s)].

Lemma spot_walked s w m : spot (walked s w m) = move (spot s) m.
Proof. unfold spot, walked. cbn. by destruct (move _ m). Qed.

Lemma gap_cons g rest : gap g rest → ∃ c g', g = c :: g'.
Proof. intros []; by eexists _, _. Qed.
Lemma lexeme_cons pv w m k rest : lexeme pv w m k rest → ∃ c w', w = c :: w'.
Proof. intros []; by eexists _, _. Qed.

Lemma passes_step s c r s1 :
  rem s = c :: r → scan_token (set_start s) = Some (tt, s1) → passes tt s = passes tt s1.
Proof.
  intros Hr E. unfold passes at 1. rewrite while_unfold by apply _.
  rewrite (rem_not_end _ _ _ Hr). cbn [negb]. rewrite bind_run. unfold pass at 1. by rewrite E.
Qed.
Lemma passes_end s : rem s = [] → passes tt s = Some (tt, s).
Proof.
  intros Hr. unfold passes. rewrite while_unfold by apply _.
  by rewrite (proj1 (rem_nil _) Hr).
Qed.

(** The scanner reads whatever the grammar reads. *)
Lemma reads_passes pv p l ts s :
  reads pv p l ts → inside s → prev s = pv → spot s = p → rem s = l →
  ∃ s', passes tt s = Some (tt, s') ∧ errors s' = errors s ∧ finished s' = tokens s ++ ts.
Proof.
  intros Hrd. revert s.
  induction Hrd as [pv p|pv p g rest ts Hg Hrd IH|pv p w m k rest ts Hl Hrd IH];
    intros s Hi <- <- Hr.
  - exists s. by rewrite passes_end.
  - destruct (gap_cons _ _ Hg) as (c & g' & Hc). pose proof Hr as Hr1. rewrite Hc in Hr1.
    cbn [app] in Hr1. rewrite (passes_step _ _ _ _ Hr1 (gap_run (set_start s) _ _ Hg Hr)).
    apply (IH (walked (set_start s) g g)); [by eapply inside_walked|done|by rewrite spot_walked|].
    by apply rem_walked.
  - destruct (lexeme_cons _ _ _ _ _ Hl) as (c & w' & Hc). pose proof Hr as Hr1. rewrite Hc in Hr1.
    cbn [app] in Hr1.
    rewrite (passes_step _ _ _ _ Hr1 (lexeme_run (set_start s) _ _ _ _ Hi eq_refl Hl Hr)).
    destruct (IH (added k (walked (set_start s) w m))) as (s' & E & He & Hf).
    + by eapply (inside_walked (set_start s)).
    + unfold prev, added. cbn. by rewrite last_snoc.
    + unfold spot, added. cbn. by destruct (move _ m).
    + by apply (rem_walked (set_start s)).
    + exists s'. split_and!; [done..|]. rewrite Hf. cbn [added tokens walked set_start].
      by rewrite <- app_assoc.
Qed.

(** A scan without diagnostics has read the source by the grammar. *)
Lemma passes_reads s s' :
  inside s → passes tt s = Some (tt, s') →
  errors s `prefix_of` errors s' ∧
  (errors s' = errors s → ∃ ts, reads (prev s) (spot s) (rem s) ts ∧ finished s' = tokens s ++ ts).
Proof.
  remember (length (rem s)) as n eqn:Hn. revert s Hn.
  induction (lt_wf n) as [n _ IH]. intros s -> Hi E.
  destruct (rem s) as [|c r] eqn:Hr.
  { rewrite passes_end in E by done. injection E as <-. split; [done|].
    intros _. eexists. by split; [constructor|]. }
  destruct (ok_scan_token (set_start s)) as [[[] s1] E1]; [done..| |].
  { by apply (rem_not_end (set_start s) c r). }
  rewrite (passes_step _ _ _ _ Hr E1) in E.
  pose proof (forward_scan_token _ _ _ E1) as [_ _ _ _ Hi1 _ He1].
  specialize (Hi1 Hi). apply progress_scan_token in E1 as Hp.
  destruct (IH (length (rem s1))) with (s := s1) as [He2 IH2]; try done.
  { destruct Hp as [Hc1 Hc2 Hc3 _]. apply inside_length in Hi as Hl, Hi1 as Hl1.
    rewrite Hc1 in Hl1. cbn in *. rewrite Hr in Hl. cbn in Hl. lia. }
  split; [by etrans|]. intros He.
  assert (errors s1 = errors s) as He'.
  { destruct He1 as [k1 Hk1], He2 as [k2 Hk2]. rewrite Hk1, He in Hk2. cbn in Hk2.
    rewrite <- app_assoc in Hk2. apply (f_equal length) in Hk2. rewrite !length_app in Hk2.
    destruct k1; [|cbn in Hk2; lia]. by rewrite Hk1, app_nil_r. }
  destruct IH2 as (ts & Hts & Hf); [congruence|].
  assert (C : quiet scan_token (set_start s) tt s1) by by split.
  apply quiet_scan in C as [(g & Hg & [Hrg ->])|(w & m & k & s2 & Hl & [Hrw ->] & ->)]; [| |done..].
  - exists ts. split; [|done]. change (rem s = g ++ rem (walked (set_start s) g g)) in Hrg.
    rewrite <- Hr, Hrg. constructor; [done|]. by rewrite spot_walked in Hts.
  - eexists (_ :: ts). split.
    + change (rem s = w ++ rem (walked (set_start s) w m)) in Hrw.
      rewrite <- Hr, Hrw. econstructor; [done|]. unfold prev, added, spot in Hts. cbn in Hts.
      rewrite last_snoc in Hts. by destruct (move _ m).
    + rewrite Hf. cbn [added tokens walked set_start]. by rewrite <- app_assoc.
Qed.

Lemma scan_iff_reads source ts :
  scan source = Some (Ok ts) ↔ reads None (1, 1) (chars_of_str source) ts.
Proof.
  assert (Hi : inside (Lexer_new source)) by (unfold inside; cbn; lia).
  unfold scan, scan_tokens.
  change (while _ _ tt (Lexer_new source)) with (passes tt (Lexer_new source)). split.
  - destruct (passes tt (Lexer_new source)) as [[[] s']|] eqn:E; [|done]. cbn.
    destruct (passes_reads _ _ Hi E) as [_ Hrd].
    destruct (errors s') eqn:He; [|done]. intros [= <-].
    destruct (Hrd eq_refl) as (ts & Hts & Hf). unfold finished in Hf. by rewrite Hf.
  - intros Hrd. destruct (reads_passes _ _ _ _ (Lexer_new source) Hrd Hi)
      as (s' & E & He & Hf); [done..|].
    rewrite E. cbn. rewrite He. unfold finished in Hf. by rewrite Hf.
Qed.

(** C6: the scanner accepts exactly the texts of the lexical grammar: [scan]
    returns these tokens, with these lines and columns, if and only if the
    grammar reads them from the source: gaps and longest lexemes in order,
    nothing left over. *)
Theorem scan_reads source ts :
  scan source = Some (Ok ts) ↔ reads None (1, 1) (chars_of_str source) ts.
Proof. apply scan_iff_reads. Qed.
End tokens.
