(* ===== verification/LexPos.v ===== *)
(** * Positions

    The line and column of a token, from the lexical grammar: the column is
    where the token's text begins and the line is where it ends.  Only a string
    can contain a line break, so every other token carries the position of its
    first character.  The exception that remains, a line break after a
    backslash inside a string nested in a hole, is excluded by hypothesis and
    shown to be real. *)
From S2P Require Import Prelude Ast Text Lexer Grammar LexerOk LexReads LexScan.

(** A backslash directly followed by a line break. *)
Definition escaped_break (l : list char) : bool := contains [backslash; newline] l.

Lemma starts_with_app p l : starts_with p (p ++ l) = true.
Proof. apply bool_decide_eq_true. by rewrite take_app_length. Qed.

Lemma contains_infix p l : contains p l = true ↔ ∃ a b, l = a ++ p ++ b.
Proof.
  split.
  - induction l as [|c l IH]; cbn [contains]; intros [H|H]%orb_prop; try done.
    + apply bool_decide_eq_true in H. rewrite take_nil in H. subst p. by exists [], [].
    + apply bool_decide_eq_true in H. exists [], (drop (length p) (c :: l)).
      cbn [app]. rewrite <- H at 1. by rewrite take_drop.
    + destruct (IH H) as (a & b & ->). by exists (c :: a), b.
  - intros (a & b & ->). induction a as [|c a IH].
    + cbn [app]. assert (∀ l, starts_with p l = true → contains p l = true) as Hs.
      { intros l Hl. destruct l; cbn [contains]; by rewrite Hl. }
      apply Hs, starts_with_app.
    + cbn [app contains]. by rewrite IH, orb_true_r.
Qed.

Lemma contains_part p u v w : contains p (u ++ v ++ w) = false → contains p v = false.
Proof.
  rewrite <- !not_true_iff_false, !contains_infix. intros H (a & b & ->). apply H.
  exists (u ++ a), (b ++ w). by rewrite <- !app_assoc.
Qed.
Lemma contains_tail p u v : contains p (u ++ v) = false → contains p v = false.
Proof. intros H. apply (contains_part p u v []). by rewrite app_nil_r. Qed.

Lemma nested_same w m : nested w m → escaped_break w = false → m = w.
Proof.
  unfold escaped_break. induction 1 as [|c w m Hn IH|c w m Hq Hb Hn IH]; intros He; [done|..].
  - rewrite IH by by apply (contains_tail _ [backslash; c]) in He.
    destruct (N.eqb_spec c newline) as [->|]; [|done]. apply not_true_iff_false in He.
    destruct He. apply contains_infix. by exists [], w.
  - rewrite IH; [done|]. by apply (contains_tail _ [c]) in He.
Qed.

Lemma content_same hole d w m v : content hole d w m v → escaped_break w = false → m = w.
Proof.
  unfold escaped_break. induction 1; intros He; [done|..].
  6: { rewrite IHcontent, (nested_same n n'); [done..| |].
       - by apply (contains_part _ [quote] n (quote :: w)) in He.
       - apply (contains_tail _ (quote :: n ++ [quote])). cbn. by rewrite <- app_assoc. }
  2: { rewrite IHcontent; [done|]. by apply (contains_tail _ (backslash :: e)) in He. }
  all: rewrite IHcontent; [done|].
  all: first [by apply (contains_tail _ (ascii_chars "{{")) in He|by apply (contains_tail _ [_]) in He].
Qed.

Section positions.
Context `{Unicode}.

Lemma lexeme_same pv w m k rest : lexeme pv w m k rest → escaped_break w = false → m = w.
Proof.
  intros [] He; try done. match goal with
  | Hc : content _ _ _ _ _ |- _ => rewrite (content_same _ _ _ _ _ Hc); [done|] end.
  by apply (contains_part _ [quote] _ [quote]) in He.
Qed.

(** ** Only strings contain line breaks *)

Definition unbroken (w : list char) : Prop := Forall (λ c, c ≠ newline) w.

Lemma unbroken_class (p : char → bool) w :
  p newline = false → Forall (λ c, p c = true) w → unbroken w.
Proof. intros Hp Hw. eapply Forall_impl; [exact Hw|]. intros c Hc ->. congruence. Qed.

Lemma lexeme_unbroken pv w m k rest :
  lexeme pv w m k rest → (∀ v, k ≠ Tk_String v) → unbroken w.
Proof.
  unfold unbroken. intros Hl Hk.
  destruct Hl as [c k rest Hc|rest Hn|rest|rest|rest Hn1 Hn2|rest|rest|rest Hn|rest|rest Hn|rest
    |rest Hn1 Hn2|text rest Hm|w rest Hp Hw|hole w m v rest Hp Hh Hc|x ds n rest Hx Hm Hn
    |d ds f hf e he k rest Hd Hx Hm Hf He Hkd|c w rest Hc Hm]; try (by repeat constructor).
  - by repeat constructor; eapply single_ordinary.
  - repeat constructor; try done. by eapply unbroken_class, Hm.
  - by destruct (Hk (str_of_chars w)).
  - by destruct (Hk (str_of_chars v)).
  - repeat constructor; [done|by destruct Hx as [-> | ->]|]. by eapply unbroken_class, Hm.
  - constructor; [by intros ->|]. rewrite !Forall_app. split_and!.
    + by eapply unbroken_class, Hm.
    + destruct Hf as [|ds' r Hs' Hm']; constructor; [done|]. by eapply unbroken_class, Hm'.
    + destruct He as [|x sign ds' r Hx' Hs' Hd' Hm']; [constructor|].
      constructor; [by destruct Hx' as [-> | ->]|]. apply Forall_app. split.
      * by destruct Hs' as [-> | [-> | ->]]; repeat constructor.
      * by eapply unbroken_class, Hm'.
  - assert (is_identifier_start newline = false).
    { unfold is_identifier_start. by rewrite alphabetic_ascii. }
    constructor; [by intros ->; congruence|]. eapply unbroken_class, Hm.
    unfold is_identifier_continue. by rewrite H0.
Qed.

Lemma move_unbroken p w : unbroken w → (move p w).1 = p.1.
Proof.
  revert p. induction w as [|c w IH]; intros p; [done|]. intros [Hc Hw]%Forall_cons.
  cbn. fold (move (advance_char p c) w). rewrite IH by done.
  unfold advance_char. by rewrite (proj2 (N.eqb_neq _ _) Hc).
Qed.

(** ** The position of a token *)

(** [t] is read from the part [w] of a text, after [pre]. *)
Definition stands (l : list char) (t : Token) : Prop :=
  ∃ pre w rest, l = pre ++ w ++ rest ∧
    (tok_kind t = Tk_Eof ∧ w ++ rest = [] ∨ ∃ pv, lexeme pv w w (tok_kind t) rest) ∧
    tok_line t = (move (1, 1) (pre ++ w)).1 ∧ tok_column t = (move (1, 1) pre).2 ∧
    ((∀ v, tok_kind t ≠ Tk_String v) → (tok_line t, tok_column t) = move (1, 1) pre).

Lemma reads_stand pv p l ts pre :
  reads pv p l ts → escaped_break (pre ++ l) = false → p = move (1, 1) pre →
  Forall (stands (pre ++ l)) ts.
Proof.
  intros Hr. revert pre.
  induction Hr as [pv p|pv p g rest ts Hg Hr IH|pv p w m k rest ts Hl Hr IH]; intros pre He Hp.
  - constructor; [|constructor]. exists pre, [], []. subst p. cbn [tok_kind tok_line tok_column].
    rewrite !app_nil_r. split_and!; [done|by left|done..|]. by destruct (move (1, 1) pre).
  - rewrite (app_assoc pre g rest) in *. apply IH; [done|]. by rewrite move_app, Hp.
  - assert (m = w) as ->.
    { eapply lexeme_same; [done|]. by apply contains_part in He. }
    constructor.
    + exists pre, w, rest. subst p. cbn [tok_kind tok_line tok_column]. rewrite move_app.
      split_and!; [done|by right; exists pv|done..|]. intros Hk.
      rewrite (move_unbroken _ w) by by eapply lexeme_unbroken. by destruct (move (1, 1) pre).
    + rewrite (app_assoc pre w rest) in *. apply IH; [done|]. by rewrite move_app, Hp.
Qed.

(** Positions are true: where no backslash stands directly before a line
    break, every token of a scan is a lexeme of the source (the last one its
    end), its column is the one where its text begins, its line the one where
    its text ends, and unless it is a string the two together are the position
    of its first character. *)
Theorem token_positions source ts :
  scan source = Some (Ok ts) → escaped_break (chars_of_str source) = false →
  Forall (stands (chars_of_str source)) ts.
Proof. intros Hr%scan_iff_reads He. by apply (reads_stand None (1, 1) _ _ []). Qed.
End positions.

Lemma token_positions_witness :
  escaped_break (chars_of_str "keep x set 1") = false ∧
  Forall (stands (H:=ascii_tables) (chars_of_str "keep x set 1"))
    [mkToken Tk_Let 1 1; mkToken (Tk_Identifier "x") 1 6; mkToken Tk_Set 1 8;
     mkToken (Tk_Int 1) 1 12; mkToken Tk_Eof 1 13].
Proof.
  split; [vm_compute; reflexivity|].
  apply (token_positions (H:=ascii_tables) "keep x set 1"); vm_compute; reflexivity.
Defined.

(** ** Where a position is not that of the first character *)

Definition in_quotes (l : list char) : list char := quote :: l ++ [quote].

(** A string over two lines has the column of its opening quote and the line of
    its closing one: here line 2, column 9, a place the source does not have,
    after the token that follows it. *)
Lemma string_over_lines :
  scan (H:=ascii_tables)
    (str_of_chars (ascii_chars "        " ++ in_quotes (ascii_chars "a" ++ newline :: ascii_chars "b")
                   ++ ascii_chars " x"))
  = Some (Ok [mkToken (Tk_String (str_of_chars (ascii_chars "a" ++ newline :: ascii_chars "b"))) 2 9;
              mkToken (Tk_Identifier "x") 2 4; mkToken Tk_Eof 2 5]).
Proof. vm_compute. reflexivity. Qed.

(** A line break after a backslash in a string nested in a hole is not
    counted: [x] stands on the second line and is reported on the first. *)
Lemma escaped_break_not_counted :
  (last ∘ take 3 <$>
   (match scan (H:=ascii_tables)
      (str_of_chars (ascii_chars "text "
         ++ in_quotes (ascii_chars "{f(" ++ in_quotes [backslash; newline] ++ ascii_chars ")}")
         ++ ascii_chars " x")) with
    | Some (Ok ts) => Some ts | _ => None end))
  = Some (Some (mkToken (Tk_Identifier "x") 1 18)).
Proof. vm_compute. reflexivity. Qed.
