(* ===== verification/Formatter.v ===== *)
(** * The formatter

    src/src/formatter.rs, function by function.  A [String] under construction
    is its list of characters.  An index into the characters of the source is
    represented by the characters from it on, so that [characters.get(index + 1)]
    is the second of them.  [split_line_comment] scans bytes in the source; all
    bytes it compares are ASCII and no byte of a longer UTF-8 sequence is, so
    scanning characters makes the same decisions.  [None] is a failed
    [debug_assert!] or a loop that was cut off; [FormatterOk] excludes both. *)
From S2P Require Import Prelude Ast Text Strs Lexer.

(** ** Helpers on text *)

Definition is_word (l : list char) (words : list string) : bool :=
  existsb (λ w, bool_decide (l = ascii_chars w)) words.

(** [trim_spaces] *)
Definition trim_spaces (l : list char) : list char :=
  rev (snd (span (λ c, c =? ch " ") (rev l))).

(** [push_space] and [push_pending_space]; the flag is [false] afterwards. *)
Definition push_space (output : list char) (pending : bool) : list char :=
  if pending && negb (is_empty output) && negb (ends_in (ascii_chars " .([") output)
  then output ++ [ch " "] else output.

(** [flush_line]: the lines afterwards; the current line is empty. *)
Definition flush_line (lines : list (list char)) (current : list char) : list (list char) :=
  let line := trim current in
  if is_empty line then lines else lines ++ [line].

(** [next_non_whitespace] *)
Definition next_non_whitespace (l : list char) : option char := head (trim_start l).

(** [is_data_block_header] *)
Definition is_data_block_header (header : list char) : bool :=
  let header := trim header in
  contains (ascii_chars " holds") header || starts_with (ascii_chars "takes") header
  || starts_with (ascii_chars "expose") header || ends_with (ascii_chars " with") header.

(** [should_break_before] *)
Definition should_break_before (word previous_word current : list char)
    (parentheses brackets : N) : bool :=
  if is_empty (trim current) || (0 <? parentheses) || (0 <? brackets) then false
  else if starts_with [ch "}"] (trim_start current)
          && negb (is_word word ["with"; "otherwise"; "or"]) then true
  else if is_word word ["takes"; "gives"; "needs"] then true
  else
    is_word word ["keep"; "change"; "prepare"; "when"; "each"; "repeat"; "using"; "show";
                  "expose"; "define"; "shape"; "choice"; "case"; "protocol"; "adopt"; "import"]
    || (is_word word ["give"] && negb (is_word previous_word ["or"])).

(** ** Canonical lines *)

Record Canon := mkCanon {
  rest : list char;
  lines : list (list char);
  current_line : list char;
  pending_space : bool;
  parentheses : N;
  brackets : N;
  data_blocks : list bool;
  previous_word : list char }.

(** The rest of a string after its opening quote, as it is copied. *)
Fixpoint copy_string (escaped : bool) (l : list char) : list char * list char :=
  match l with
  | [] => ([], [])
  | c :: l =>
      if escaped then let '(w, r) := copy_string false l in (c :: w, r)
      else if c =? backslash then let '(w, r) := copy_string true l in (c :: w, r)
      else if c =? quote then ([c], l)
      else let '(w, r) := copy_string false l in (c :: w, r)
  end.

(** A block comment after its opening, as it is copied. *)
Fixpoint copy_comment (l : list char) : list char * list char :=
  match l with
  | [] => ([], [])
  | c :: l' =>
      match l' with
      | d :: l'' =>
          if (c =? ch "*") && (d =? ch "/") then (ascii_chars "*/", l'')
          else let '(w, r) := copy_comment l' in (c :: w, r)
      | [] => ([c], [])
      end
  end.

(** The lines of a block comment that are not blank, trimmed. *)
Definition comment_lines (comment : list char) : list (list char) :=
  filter (λ l, negb (is_empty l)) (map trim (str_lines [] comment)).

Section formatter.
Context `{Unicode}.

Definition is_word_char (c : char) : bool := is_alphanumeric c || (c =? ch "_").

(** The arm of [canonical_lines] for a whitespace character. *)
Definition canon_white (c : char) (r : list char) (s : Canon) : Canon :=
  let breaks :=
    (c =? newline) && (parentheses s =? 0) && (brackets s =? 0)
    && negb (default false (last (data_blocks s)))
    && negb (bool_decide (next_non_whitespace r = Some (ch "{"))) in
  let lines' := if breaks then flush_line (lines s) (current_line s) else lines s in
  let current' := if breaks then [] else current_line s in
  mkCanon r lines' current' (negb (is_empty current')) (parentheses s) (brackets s)
    (data_blocks s) (if breaks then [] else previous_word s).

(** The arm for [//]; [l] begins with it. *)
Definition canon_line_comment (l : list char) (s : Canon) : Canon :=
  let '(text, r) := span (λ c, negb (c =? newline)) l in
  mkCanon r (flush_line (lines s) (push_space (current_line s) (pending_space s) ++ text)) []
    false (parentheses s) (brackets s) (data_blocks s) [].

(** The arm for [/*]; [l] is what follows it. *)
Definition canon_block_comment (l : list char) (s : Canon) : Canon :=
  let '(text, r) := copy_comment l in
  mkCanon r (flush_line (lines s) (current_line s) ++ comment_lines (ascii_chars "/*" ++ text))
    [] false (parentheses s) (brackets s) (data_blocks s) [].

(** The arm for a string; [l] is what follows the quote. *)
Definition canon_string (l : list char) (s : Canon) : Canon :=
  let '(text, r) := copy_string false l in
  mkCanon r (lines s) (push_space (current_line s) (pending_space s) ++ quote :: text) false
    (parentheses s) (brackets s) (data_blocks s) [].

(** The arm for a word beginning with [c]. *)
Definition canon_word (c : char) (l : list char) (s : Canon) : Canon :=
  let '(w, r) := span is_word_char l in
  let word := c :: w in
  let breaks := should_break_before word (previous_word s) (current_line s) (parentheses s)
                  (brackets s) in
  let lines' := if breaks then flush_line (lines s) (current_line s) else lines s in
  let current' := if breaks then [] else current_line s in
  let pending' := if breaks then false else pending_space s in
  mkCanon r lines' (push_space current' pending' ++ word) false (parentheses s) (brackets s)
    (data_blocks s) word.

(** The final [match] of the loop body. *)
Definition canon_other (c : char) (r : list char) (s : Canon) : Canon :=
  let spaced := push_space (current_line s) (pending_space s) ++ [c] in
  if c =? ch "{" then
    mkCanon r (flush_line (lines s) spaced) [] false (parentheses s) (brackets s)
      (data_blocks s ++ [is_data_block_header (current_line s)]) []
  else if c =? ch "}" then
    mkCanon r (flush_line (lines s) (current_line s)) [c] false (parentheses s) (brackets s)
      (removelast (data_blocks s)) []
  else if c =? ch ";" then
    mkCanon r (flush_line (lines s) (trim_spaces (current_line s) ++ [c])) [] false
      (parentheses s) (brackets s) (data_blocks s) []
  else if c =? ch "(" then
    mkCanon r (lines s) spaced false (parentheses s + 1) (brackets s) (data_blocks s) []
  else if c =? ch ")" then
    mkCanon r (lines s) (current_line s ++ [c]) (pending_space s) (parentheses s - 1)
      (brackets s) (data_blocks s) []
  else if c =? ch "[" then
    mkCanon r (lines s) spaced false (parentheses s) (brackets s + 1) (data_blocks s) []
  else if c =? ch "]" then
    mkCanon r (lines s) (current_line s ++ [c]) (pending_space s) (parentheses s)
      (brackets s - 1) (data_blocks s) []
  else mkCanon r (lines s) spaced false (parentheses s) (brackets s) (data_blocks s) [].

(** One pass of the loop of [canonical_lines], with the next character [c]. *)
Definition canon_step (c : char) (r : list char) (s : Canon) : Canon :=
  let next := head r in
  if is_white c then canon_white c r s
  else if (c =? ch "/") && bool_decide (next = Some (ch "/")) then canon_line_comment (c :: r) s
  else if (c =? ch "/") && bool_decide (next = Some (ch "*")) then canon_block_comment (tail r) s
  else if c =? quote then canon_string r s
  else if is_alphabetic c || (c =? ch "_") then canon_word c r s
  else canon_other c r s.

Fixpoint canon_loop (fuel : nat) (s : Canon) : option Canon :=
  match rest s, fuel with
  | [], _ => Some s
  | _, O => None
  | c :: r, S fuel => canon_loop fuel (canon_step c r s)
  end.

(** [canonical_lines] *)
Definition canonical_lines (source : list char) : option (list (list char)) :=
  s ← canon_loop (length source) (mkCanon source [] [] false 0 0 [] []);
  Some (flush_line (lines s) (current_line s)).

(** ** One line *)

(** [keyword_precedes_group] *)
Definition keyword_precedes_group (output : list char) : bool :=
  let '(w, p) := span is_word_char (rev output) in
  if starts_with [ch "."] p then false
  else is_word (rev w)
    ["set"; "to"; "in"; "within"; "is"; "gives"; "give"; "or"; "and"; "carries"; "maybe";
     "when"; "while"; "repeat"; "through"; "together"; "race"; "perform"; "start"; "wait"].

(** [split_line_comment]; [before] is what has been passed. *)
Fixpoint split_line_comment (before : list char) (in_string escaped : bool) (l : list char)
    : list char * option (list char) :=
  match l with
  | c :: ((d :: _) as l') =>
      if in_string then
        if escaped then split_line_comment (before ++ [c]) true false l'
        else if c =? backslash then split_line_comment (before ++ [c]) true true l'
        else if c =? quote then split_line_comment (before ++ [c]) false false l'
        else split_line_comment (before ++ [c]) true false l'
      else if c =? quote then split_line_comment (before ++ [c]) true escaped l'
      else if (c =? ch "/") && (d =? ch "/") then (before, Some l)
      else if (c =? ch "/") && (d =? ch "*") then (before ++ l, None)
      else split_line_comment (before ++ [c]) false escaped l'
  | _ => (before ++ l, None)
  end.

(** The loop of [normalize_line] over the code of the line. *)
Fixpoint normalize_code (output : list char) (pending in_string escaped : bool) (l : list char)
    : list char :=
  match l with
  | [] => output
  | c :: l' =>
    if in_string then
      if escaped then normalize_code (output ++ [c]) pending true false l'
      else if c =? backslash then normalize_code (output ++ [c]) pending true true l'
      else if c =? quote then normalize_code (output ++ [c]) pending false false l'
      else normalize_code (output ++ [c]) pending true false l'
    else if c =? quote then
      normalize_code (push_space output pending ++ [c]) false true escaped l'
    else if is_white c then normalize_code output (negb (is_empty output)) false escaped l'
    else if (c =? ch ",") || (c =? ch ";") || (c =? ch ":") then
      normalize_code (trim_spaces output ++ [c]) true false escaped l'
    else if c =? ch "." then normalize_code (trim_spaces output ++ [c]) false false escaped l'
    else if (c =? ch "(") || (c =? ch "[") then
      let output := trim_spaces output in
      normalize_code ((if keyword_precedes_group output then output ++ [ch " "] else output)
                      ++ [c]) false false escaped l'
    else if (c =? ch ")") || (c =? ch "]") then
      normalize_code (trim_spaces output ++ [c]) false false escaped l'
    else if c =? ch "=" then
      let output := trim_spaces output in
      let output :=
        if negb (is_empty output) && negb (ends_in (ascii_chars "<>!") output)
        then output ++ [ch " "] else output in
      match l' with
      | d :: l'' =>
          if (d =? ch "=") || (d =? ch ">")
          then normalize_code (output ++ [c; d]) true false escaped l''
          else normalize_code (output ++ [c]) true false escaped l'
      | [] => normalize_code (output ++ [c]) true false escaped l'
      end
    else normalize_code (push_space output pending ++ [c]) false false escaped l'
  end.

(** [normalize_line] *)
Definition normalize_line (line : list char) : list char :=
  let '(code, comment) := split_line_comment [] false false line in
  let output := trim_spaces (normalize_code [] false false false code) in
  match comment with
  | Some comment => (if is_empty output then output else output ++ [ch " "]) ++ comment
  | None => output
  end.

(** [braces]: opening and closing braces, whether the first character of code
    is a closing one, and the depth of block comments afterwards. *)
Record Braces := mkBraces {
  opens : N; closes : N; first_code : option char; block_depth : N }.

Definition first_of (b : Braces) (c : char) : option char :=
  match first_code b with Some f => Some f | None => Some c end.

Fixpoint braces (b : Braces) (in_string escaped : bool) (l : list char) : Braces :=
  match l with
  | [] => b
  | c :: l' =>
    if 0 <? block_depth b then
      match l' with
      | d :: l'' =>
          if (c =? ch "*") && (d =? ch "/")
          then braces (mkBraces (opens b) (closes b) (first_code b) (block_depth b - 1))
                 in_string escaped l''
          else braces b in_string escaped l'
      | [] => b
      end
    else if in_string then
      if escaped then braces b true false l'
      else if c =? backslash then braces b true true l'
      else if c =? quote then braces b false false l'
      else braces b true false l'
    else if (c =? ch "/") && bool_decide (head l' = Some (ch "/")) then b
    else
      let code :=
        if c =? quote then
          braces (mkBraces (opens b) (closes b) (first_of b c) (block_depth b)) true escaped l'
        else if is_white c then braces b false escaped l'
        else
          braces (mkBraces (if c =? ch "{" then opens b + 1 else opens b)
                    (if c =? ch "}" then closes b + 1 else closes b)
                    (first_of b c) (block_depth b)) false escaped l' in
      match l' with
      | d :: l'' =>
          if (c =? ch "/") && (d =? ch "*")
          then braces (mkBraces (opens b) (closes b) (first_code b) 1) false escaped l''
          else code
      | [] => code
      end
  end.

(** ** The whole text *)

(** One pass of the loop of [format]. *)
Definition format_line (raw_line : list char) (st : list char * N * N)
    : option (list char * N * N) :=
  let '(output, indent, block_comment_depth) := st in
  let line := trim raw_line in
  if is_empty line then None
  else
    let started_in_block_comment := 0 <? block_comment_depth in
    let b := braces (mkBraces 0 0 None block_comment_depth) false false line in
    let begins_with_close := bool_decide (first_code b = Some (ch "}")) in
    let line := if started_in_block_comment || starts_with (ascii_chars "/*") line
                then line else normalize_line line in
    let indent := if begins_with_close then indent - 1 else indent in
    let output := output ++ concat (replicate (N.to_nat indent) (ascii_chars "    "))
                  ++ line ++ [newline] in
    let accounted_close := if begins_with_close then 1 else 0 in
    Some (output, indent + opens b - (closes b - accounted_close), block_depth b).

Definition format_chars (source : list char) : option (list char) :=
  lines ← canonical_lines source;
  '(output, _, _) ← foldM format_line lines ([], 0, 0);
  Some output.

(** [format] *)
Definition format (source : string) : option string :=
  str_of_chars <$> format_chars (chars_of_str source).
End formatter.

Example format_sample :
  format (H:=ascii_tables) "define f takes {a as Int,b as Int}gives Int{give   a+b;}"
  = Some (str_of_chars
      (ascii_chars "define f" ++ newline :: ascii_chars "takes {" ++ newline ::
       ascii_chars "    a as Int, b as Int" ++ newline :: ascii_chars "}" ++ newline ::
       ascii_chars "gives Int{" ++ newline :: ascii_chars "    give a+b;" ++ newline ::
       ascii_chars "}" ++ [newline])).
Proof. vm_compute. reflexivity. Qed.
