(* ===== verification/FormatterOk.v ===== *)
(** * Properties of the formatter

    Formatting always returns, and it neither adds, drops nor reorders a
    character that is not white space.  What it may change is white space, and
    one theorem records where that changes the program: inside a string nested
    in a hole of a text literal. *)
From S2P Require Import Prelude Ast Text Strs Lexer Formatter.

(** ** Ink *)

(** The characters of a text that are not white space. *)
Definition ink (l : list char) : list char := filter (λ c, negb (is_white c)) l.

Lemma ink_nil : ink [] = [].
Proof. done. Qed.
Lemma ink_app l k : ink (l ++ k) = ink l ++ ink k.
Proof. apply filter_app. Qed.
Lemma ink_cons c l : ink (c :: l) = (if is_white c then [] else [c]) ++ ink l.
Proof. unfold ink. rewrite filter_cons. by destruct (is_white c). Qed.
Lemma ink_concat ls : ink (concat ls) = concat (map ink ls).
Proof. induction ls as [|l ls IH]; [done|]. cbn. by rewrite ink_app, IH. Qed.
Lemma ink_rev l : ink (rev l) = rev (ink l).
Proof.
  induction l as [|c l IH]; [done|]. cbn [rev]. rewrite ink_app, IH, (ink_cons c l).
  unfold ink at 2. rewrite filter_cons, filter_nil. by destruct (is_white c); cbn; rewrite ?app_nil_r.
Qed.
Lemma ink_white l : Forall (λ c, is_white c = true) l → ink l = [].
Proof. induction 1 as [|c l Hc _ IH]; [done|]. by rewrite ink_cons, Hc, IH. Qed.

Lemma ink_trim_start l : ink (trim_start l) = ink l.
Proof.
  induction l as [|c l IH]; [done|]. cbn [trim_start]. rewrite ink_cons.
  destruct (is_white c) eqn:Hc; [done|]. by rewrite ink_cons, Hc.
Qed.
Lemma ink_trim l : ink (trim l) = ink l.
Proof.
  unfold trim, trim_end. by rewrite ink_rev, ink_trim_start, ink_rev, rev_involutive, ink_trim_start.
Qed.
Lemma ink_trim_spaces l : ink (trim_spaces l) = ink l.
Proof.
  unfold trim_spaces. destruct (span _ (rev l)) as [w r] eqn:E. cbn [snd].
  apply span_spec in E as (Hl & Hw & _).
  assert (Forall (λ c, is_white c = true) w).
  { eapply Forall_impl; [done|]. by intros c ->%N.eqb_eq. }
  rewrite <- (rev_involutive l), ink_rev, (ink_rev (rev l)), Hl, ink_app, (ink_white w) by done.
  done.
Qed.
Lemma ink_push_space l b : ink (push_space l b) = ink l.
Proof.
  unfold push_space. destruct (_ && _); [|done]. by rewrite ink_app, app_nil_r.
Qed.
Lemma ink_flush ls l : concat (map ink (flush_line ls l)) = concat (map ink ls) ++ ink l.
Proof.
  unfold flush_line. pose proof (ink_trim l) as Ht. destruct (trim l) as [|c k]; cbn [is_empty].
  - by rewrite <- Ht, app_nil_r.
  - by rewrite map_app, concat_app, <- Ht; cbn; rewrite app_nil_r.
Qed.
Create Rewrite HintDb ink.
#[export] Hint Rewrite ink_nil @ink_app ink_push_space ink_trim_spaces ink_trim ink_flush
  @app_nil_r @map_app @concat_app : ink.

Lemma copy_string_app e l w r : copy_string e l = (w, r) → l = w ++ r.
Proof.
  revert e w r. induction l as [|c l IH]; cbn; intros e w r; [intros ?; by simplify_eq|].
  repeat case_match; intros ?; simplify_eq; try done; cbn; f_equal; eauto.
Qed.
Lemma copy_comment_app l w r : copy_comment l = (w, r) → l = w ++ r.
Proof.
  assert (∀ n l w r, (length l < n)%nat → copy_comment l = (w, r) → l = w ++ r) as Hn.
  { clear. induction n as [|n IH]; [lia|]. intros [|c [|d l]] w r Hl.
    1-2: cbn; intros ?; by simplify_eq.
    change (copy_comment (c :: d :: l)) with
      (if (c =? ch "*") && (d =? ch "/") then (ascii_chars "*/", l)
       else let '(w, r) := copy_comment (d :: l) in (c :: w, r)).
    destruct (_ && _) eqn:Hc.
    - intros ?. simplify_eq. apply andb_prop in Hc as [Hx Hy]. apply N.eqb_eq in Hx, Hy. by subst.
    - destruct (copy_comment (d :: l)) as [w' r'] eqn:E.
      apply IH in E as ->; [|cbn in *; lia]. intros ?. by simplify_eq. }
  apply (Hn (S (length l))). lia.
Qed.

(** [str::lines] and trimming lose white space only. *)
Lemma ink_strip_return l : ink (strip_return l) = ink l.
Proof.
  unfold strip_return, ends_in. destruct (last l) as [c|] eqn:Hl; [|done].
  destruct (existsb (N.eqb c) [carriage_return]) eqn:E; [|done]. cbn in E.
  rewrite orb_false_r in E. apply N.eqb_eq in E as ->.
  apply last_Some in Hl as [k ->]. rewrite removelast_last. by rewrite ink_app, app_nil_r.
Qed.
Lemma ink_str_lines line l : concat (map ink (str_lines line l)) = ink line ++ ink l.
Proof.
  revert line. induction l as [|c l IH]; intros line; cbn [str_lines].
  - destruct line; [done|]. cbn [is_empty map concat]. done.
  - destruct (N.eqb_spec c newline) as [->|Hc].
    + cbn [map concat]. rewrite IH, ink_strip_return, ink_cons. done.
    + rewrite IH, ink_app, <- app_assoc. f_equal. rewrite !ink_cons. by rewrite app_nil_r.
Qed.
Lemma ink_comment_lines l : concat (map ink (comment_lines l)) = ink l.
Proof.
  unfold comment_lines. rewrite <- (ink_str_lines [] l) at 1. cbn [app].
  generalize (str_lines [] l). intros ls. induction ls as [|k ls IH]; [done|].
  cbn [map]. rewrite filter_cons. pose proof (ink_trim k) as Hk.
  destruct (trim k) as [|c t]; cbn [is_empty negb].
  - rewrite decide_False by (by intros []). by rewrite IH; cbn [map concat]; rewrite <- Hk.
  - rewrite decide_True by done. cbn [map concat]. by rewrite IH, Hk.
Qed.

(** ** Canonical lines *)

(** All the ink of a state: the finished lines, the current one, the rest. *)
Definition ink_of (s : Canon) : list char :=
  concat (map ink (lines s)) ++ ink (current_line s) ++ ink (rest s).

Section formatter.
Context `{Unicode}.

Lemma canon_step_ink c r s : rest s = c :: r → ink_of (canon_step c r s) = ink_of s.
Proof.
  intros Hr. unfold ink_of at 2. rewrite Hr. unfold canon_step.
  destruct (is_white c) eqn:Hw.
  { unfold canon_white, ink_of. cbn [lines current_line rest].
    rewrite ink_cons, Hw. cbn [app]. destruct (_ && _); [|done].
    autorewrite with ink. by rewrite <- app_assoc. }
  assert (Hc : ink (c :: r) = c :: ink r) by by rewrite ink_cons, Hw.
  destruct ((c =? ch "/") && bool_decide (head r = Some (ch "/"))).
  { unfold canon_line_comment. destruct (span _ _) as [t r'] eqn:E.
    apply span_spec in E as (E & _). unfold ink_of. cbn [lines current_line rest].
    rewrite E. autorewrite with ink. by rewrite <- !app_assoc. }
  destruct ((c =? ch "/") && bool_decide (head r = Some (ch "*"))) eqn:Hb.
  { apply andb_prop in Hb as [->%N.eqb_eq Hb%bool_decide_eq_true].
    destruct r as [|d r]; [done|]. assert (d = ch "*") as -> by (by injection Hb).
    cbn [tail].
    unfold canon_block_comment. destruct (copy_comment r) as [t r'] eqn:E.
    apply copy_comment_app in E as ->. unfold ink_of. cbn [lines current_line rest].
    change (ch "/" :: ch "*" :: t ++ r') with (ascii_chars "/*" ++ t ++ r').
    rewrite map_app, concat_app, ink_comment_lines, ink_flush, !ink_app. cbn [app].
    by rewrite <- !app_assoc. }
  destruct (N.eqb_spec c quote) as [->|Hq].
  { unfold canon_string. destruct (copy_string _ r) as [t r'] eqn:E.
    apply copy_string_app in E as ->. unfold ink_of. cbn [lines current_line rest].
    autorewrite with ink. rewrite !ink_cons. cbn [is_white]. autorewrite with ink.
    by rewrite <- !app_assoc. }
  destruct (is_alphabetic c || (c =? ch "_")).
  { unfold canon_word. destruct (span _ r) as [t r'] eqn:E.
    apply span_spec in E as (-> & _). unfold ink_of. cbn [lines current_line rest].
    destruct (should_break_before _ _ _ _ _); autorewrite with ink; rewrite !ink_cons, Hw;
      autorewrite with ink; by rewrite <- ?app_assoc. }
  assert (Hc1 : ink [c] = [c]) by by rewrite ink_cons, Hw.
  unfold canon_other, ink_of.
  repeat lazymatch goal with
  | |- context [if c =? ?x then _ else _] => destruct (c =? x)
  end; cbn [lines current_line rest]; autorewrite with ink; rewrite Hc, ?Hc1;
    by rewrite <- ?app_assoc.
Qed.

Lemma canon_step_shorter c r s : (length (rest (canon_step c r s)) ≤ length r)%nat.
Proof.
  unfold canon_step. destruct (is_white c); [done|].
  destruct (_ && bool_decide (head r = Some (ch "/"))) eqn:Hb.
  { apply andb_prop in Hb as [->%N.eqb_eq _]. unfold canon_line_comment.
    destruct (span _ _) as [t r'] eqn:E. apply span_spec in E as (E & _ & Hr'). cbn [rest].
    destruct t as [|d t]; [by cbn in E; subst r'|].
    injection E as _ ->. rewrite length_app. lia. }
  destruct (_ && bool_decide (head r = Some (ch "*"))).
  { unfold canon_block_comment. destruct (copy_comment _) as [t r'] eqn:E.
    apply copy_comment_app in E. cbn [rest]. apply (f_equal length) in E.
    rewrite length_app in E. destruct r; cbn in *; lia. }
  destruct (c =? quote).
  { unfold canon_string. destruct (copy_string _ r) as [t r'] eqn:E.
    apply copy_string_app in E as ->. cbn [rest]. rewrite length_app. lia. }
  destruct (_ || _).
  { unfold canon_word. destruct (span _ r) as [t r'] eqn:E.
    apply span_spec in E as (-> & _). cbn [rest]. rewrite length_app. lia. }
  unfold canon_other. by repeat case_match.
Qed.

(** ** Lines are not blank *)

Lemma trim_start_head l c r : trim_start l = c :: r → is_white c = false.
Proof.
  induction l as [|d l IH]; [done|]. cbn [trim_start].
  destruct (is_white d) eqn:Hd; [done|]. by intros [= -> ->].
Qed.
Lemma trim_ink l : trim l ≠ [] ↔ ink l ≠ [].
Proof.
  rewrite <- (ink_trim l). split; [|intros Hi E; by rewrite E in Hi].
  unfold trim, trim_end. destruct (trim_start (rev _)) as [|c r] eqn:E; [done|].
  apply trim_start_head in E. intros _. rewrite ink_rev, ink_cons, E. cbn.
  intros Hn%app_nil. by destruct Hn.
Qed.

Definition inky (l : list char) : Prop := ink l ≠ [].

Lemma flush_inky ls l : Forall inky ls → Forall inky (flush_line ls l).
Proof.
  intros Hl. unfold flush_line. destruct (trim l) as [|c k] eqn:E; [done|]. cbn [is_empty].
  apply Forall_app. split; [done|]. constructor; [|done]. unfold inky.
  rewrite <- E, ink_trim. apply trim_ink. congruence.
Qed.
Lemma comment_lines_inky l : Forall inky (comment_lines l).
Proof.
  unfold comment_lines. rewrite Forall_forall. intros k.
  rewrite list_elem_of_filter. intros [Hk (j & -> & _)%list_elem_of_fmap].
  unfold inky. rewrite ink_trim. apply trim_ink. by intros E; rewrite E in Hk.
Qed.

Lemma canon_step_inky c r s : Forall inky (lines s) → Forall inky (lines (canon_step c r s)).
Proof.
  intros Hl. unfold canon_step.
  repeat lazymatch goal with
  | |- context [if ?b then _ else _] => destruct b
  end; unfold canon_white, canon_line_comment, canon_block_comment, canon_string, canon_word,
         canon_other;
  repeat case_match; cbn [lines]; try apply Forall_app; auto using flush_inky, comment_lines_inky.
Qed.

Lemma canonical_lines_spec source :
  ∃ ls, canonical_lines source = Some ls ∧ concat (map ink ls) = ink source ∧ Forall inky ls.
Proof.
  unfold canonical_lines.
  assert (∀ n s, (length (rest s) ≤ n)%nat → Forall inky (lines s) →
    ∃ s', canon_loop n s = Some s' ∧ rest s' = [] ∧ ink_of s' = ink_of s ∧
      Forall inky (lines s')) as Hloop.
  { induction n as [|n IH]; intros s Hn Hi; destruct (rest s) as [|c r] eqn:Hr; cbn in Hn.
    - exists s. cbn. by rewrite Hr.
    - lia.
    - exists s. cbn. by rewrite Hr.
    - cbn [canon_loop]. rewrite Hr. pose proof (canon_step_shorter c r s).
      destruct (IH (canon_step c r s)) as (s' & -> & ? & He & ?);
        [lia|by apply canon_step_inky|].
      exists s'. split_and!; [done..| |done]. by rewrite He, canon_step_ink. }
  destruct (Hloop (length source) (mkCanon source [] [] false 0 0 [] []))
    as (s & -> & Hr & He & Hi); [done..|].
  eexists. split_and!; [done| |by apply flush_inky].
  rewrite ink_flush. unfold ink_of in He. rewrite Hr in He. cbn in He. by rewrite app_nil_r in He.
Qed.
(** ** One line *)

Lemma split_line_comment_app l before i e code comment :
  split_line_comment before i e l = (code, comment) → before ++ l = code ++ default [] comment.
Proof.
  revert before i e. induction l as [|c l IH]; intros before i e.
  - intros [= <- <-]. by rewrite !app_nil_r.
  - destruct l as [|d l]; [intros [= <- <-]; by rewrite !app_nil_r|].
    assert (Hrec : ∀ i e, split_line_comment (before ++ [c]) i e (d :: l) = (code, comment) →
              before ++ c :: d :: l = code ++ default [] comment).
    { intros i' e' E. apply IH in E. by rewrite <- E, <- app_assoc. }
    change (split_line_comment before i e (c :: d :: l)) with
      (if i then
         if e then split_line_comment (before ++ [c]) true false (d :: l)
         else if c =? backslash then split_line_comment (before ++ [c]) true true (d :: l)
         else if c =? quote then split_line_comment (before ++ [c]) false false (d :: l)
         else split_line_comment (before ++ [c]) true false (d :: l)
       else if c =? quote then split_line_comment (before ++ [c]) true e (d :: l)
       else if (c =? ch "/") && (d =? ch "/") then (before, Some (c :: d :: l))
       else if (c =? ch "/") && (d =? ch "*") then (before ++ c :: d :: l, None)
       else split_line_comment (before ++ [c]) false e (d :: l)).
    repeat lazymatch goal with
    | |- (if ?b then _ else _) = _ → _ => destruct b
    end; try apply Hrec; intros ?; simplify_eq; by rewrite ?app_nil_r.
Qed.

Lemma normalize_code_ink l output pending i e :
  ink (normalize_code output pending i e l) = ink output ++ ink l.
Proof.
  remember (length l) as n eqn:Hn. revert l Hn output pending i e.
  induction (lt_wf n) as [n _ IH]. intros l -> output pending i e.
  destruct l as [|c l]; [by rewrite app_nil_r|].
  assert (Hrec : ∀ out p i e, ink out = ink (output ++ [c]) →
     ink (normalize_code out p i e l) = ink output ++ ink (c :: l)).
  { intros out p i' e' Ho. rewrite (IH (length l)), Ho, ink_app, <- app_assoc, <- ink_app;
      [done|cbn; lia|done]. }
  cbn [normalize_code].
  repeat lazymatch goal with
  | |- ink (if (c =? ch "=") then _ else _) = _ => fail
  | |- ink (if ?b then _ else _) = _ => destruct b eqn:?
  end; try (apply Hrec; autorewrite with ink; done).
  - rewrite (IH (length l)) by (cbn; lia || done).
    match goal with Hw : is_white c = true |- _ => by rewrite ink_cons, Hw end.
  - apply Hrec. destruct (keyword_precedes_group _); autorewrite with ink; done.
  - destruct (c =? ch "="); [|apply Hrec; by autorewrite with ink].
    set (out := if negb _ && _ then _ else _).
    assert (Ho : ink out = ink output).
    { subst out. destruct (_ && _); by autorewrite with ink. }
    assert (Hone : ink (out ++ [c]) = ink (output ++ [c])) by by rewrite !ink_app, Ho.
    destruct l as [|d l]; [by apply Hrec|].
    destruct ((d =? ch "=") || (d =? ch ">")); [|by apply Hrec].
    rewrite (IH (length l)), ink_app, Ho, <- app_assoc, <- ink_app by (cbn; lia || done). done.
Qed.

Lemma normalize_line_ink line : ink (normalize_line line) = ink line.
Proof.
  unfold normalize_line.
  destruct (split_line_comment [] false false line) as [code comment] eqn:E.
  apply split_line_comment_app in E. cbn [app] in E. subst line. rewrite ink_app.
  pose proof (normalize_code_ink code [] false false false) as Hn.
  destruct comment as [comment|]; cbn [default].
  - destruct (is_empty _); autorewrite with ink; by rewrite Hn.
  - autorewrite with ink. by rewrite Hn.
Qed.

(** ** The whole text *)

Lemma indent_ink n : ink (concat (replicate n (ascii_chars "    "))) = [].
Proof. induction n as [|n IH]; [done|]. cbn [replicate concat]. by rewrite ink_app, IH. Qed.

Lemma format_line_ink raw output indent depth :
  inky raw → ∃ indent' depth' output',
    format_line raw (output, indent, depth) = Some (output', indent', depth') ∧
    ink output' = ink output ++ ink raw.
Proof.
  intros Hi. unfold format_line. apply trim_ink in Hi.
  destruct (is_empty (trim raw)) eqn:He; [by destruct (trim raw)|].
  eexists _, _, _. split; [done|]. rewrite !ink_app, indent_ink. cbn [app].
  destruct (_ || _); rewrite ?normalize_line_ink, ink_trim; cbn; by rewrite app_nil_r.
Qed.

(** C34: formatting always returns, with no line it would have asserted against,
    and changes white space only: the characters that are not white space are
    the same, in the same order, as in the source. *)
Theorem format_keeps_ink source :
  ∃ text, format source = Some (str_of_chars text) ∧ ink text = ink (chars_of_str source).
Proof.
  unfold format, format_chars.
  destruct (canonical_lines_spec (chars_of_str source)) as (ls & -> & Hink & Hi).
  assert (∀ output indent depth, ∃ output' indent' depth',
    foldM format_line ls (output, indent, depth) = Some (output', indent', depth') ∧
    ink output' = ink output ++ concat (map ink ls)) as Hfold.
  { clear Hink. induction Hi as [|l ls Hl Hls IH]; intros output indent depth.
    - exists output, indent, depth. by rewrite app_nil_r.
    - destruct (format_line_ink l output indent depth Hl) as (i1 & d1 & o1 & E1 & H1).
      cbn [foldM]. rewrite E1. cbn [mbind option_bind].
      destruct (IH o1 i1 d1) as (o2 & i2 & d2 & E2 & H2).
      exists o2, i2, d2. split; [done|]. by rewrite H2, H1, <- app_assoc. }
  destruct (Hfold [] 0 0) as (output & i & d & E & Ho). exists output.
  cbn [mbind option_bind]. rewrite E. split; [done|]. by rewrite Ho, Hink.
Qed.
End formatter.

(** ** Where formatting changes the program *)

Definition quoted (s : string) : list char := quote :: ascii_chars s ++ [quote].

(** The formatter does not know the holes of a text literal: it takes the
    quote that opens a nested string for the end of the literal, and closes up
    the white space of the nested string as if it were code.  The literal that
    shows [f] of a text with two spaces becomes one that shows [f] of a text
    with one. *)
Theorem format_alters_nested_string :
  let program nested :=
    str_of_chars (ascii_chars "show text " ++ quote :: ascii_chars "{f("
                  ++ quoted nested ++ ascii_chars ")}" ++ [quote] ++ ascii_chars ";") in
  let value nested := Tk_String (str_of_chars (ascii_chars "{f(" ++ quoted nested ++ ascii_chars ")}")) in
  let kinds source := (λ r, map tok_kind <$> (r : result _ _)) <$> scan (H:=ascii_tables) source in
  (format (H:=ascii_tables) (program "a  b") ≫= kinds)
  = kinds (program "a b") ∧
  kinds (program "a  b")
  = Some (Ok [Tk_Print; Tk_Identifier "text"; value "a  b"; Tk_Semicolon; Tk_Eof]) ∧
  kinds (program "a b")
  = Some (Ok [Tk_Print; Tk_Identifier "text"; value "a b"; Tk_Semicolon; Tk_Eof]).
Proof. vm_compute. split_and!; reflexivity. Qed.
