(* ===== verification/Utf8.v ===== *)
(** * UTF-8

    Encoding characters and decoding them again gives the characters back, and
    decoding only ever gives characters that encode this way. *)
From Stdlib Require Import ZifyN Lia.
From S2P Require Import Prelude Ast Values Text Strs.
Ltac Zify.zify_post_hook ::= Z.to_euclidean_division_equations.

(** What fits in the four bytes of the longest sequence. *)
Definition encodable (c : char) : Prop := c < 2 ^ 21.

Lemma byte_of_N_small n : n < 256 → Byte.to_N (byte_of_N n) = n.
Proof. intros. rewrite byte_of_N_to_N. by apply N.mod_small. Qed.

(** Turn the bit operations of the codec into arithmetic. *)
Ltac bits_to_arith :=
  repeat match goal with
  | |- context [N.land ?n 0x3F] => rewrite (N.land_ones n 6 : N.land n 0x3F = _)
  | |- context [N.land ?n 0x1F] => rewrite (N.land_ones n 5 : N.land n 0x1F = _)
  | |- context [N.land ?n 0xF] => rewrite (N.land_ones n 4 : N.land n 0xF = _)
  | |- context [N.land ?n 0x7] => rewrite (N.land_ones n 3 : N.land n 0x7 = _)
  end;
  rewrite ?N.shiftr_div_pow2, ?N.shiftl_mul_pow2;
  repeat match goal with
  | |- context [2 ^ ?k] => let v := eval vm_compute in (2 ^ k) in change (2 ^ k) with v
  end.

Lemma decode_encode_char c l : encodable c → decode_utf8 (encode_utf8 c ++ l) = c :: decode_utf8 l.
Proof.
  unfold encodable, encode_utf8. change (2 ^ 21) with 2097152. intros Hc. bits_to_arith.
  destruct (N.ltb_spec c 0x80); [|destruct (N.ltb_spec c 0x800); [|destruct (N.ltb_spec c 0x10000)]];
    cbn [app decode_utf8]; unfold continued; rewrite ?byte_of_N_small by lia.
  - by rewrite (proj2 (N.ltb_lt _ _)) by done.
  - rewrite (proj2 (N.ltb_ge _ _)), (proj2 (N.ltb_lt _ _)) by lia.
    f_equal. bits_to_arith. lia.
  - rewrite !(proj2 (N.ltb_ge _ _)), (proj2 (N.ltb_lt _ _)) by lia.
    f_equal. bits_to_arith. lia.
  - rewrite !(proj2 (N.ltb_ge _ _)) by lia. f_equal. bits_to_arith. lia.
Qed.

Lemma chars_of_str_of_chars l : Forall encodable l → chars_of_str (str_of_chars l) = l.
Proof.
  unfold chars_of_str, str_of_chars. rewrite string_bytes_of_bytes.
  induction 1 as [|c l Hc _ IH]; [done|].
  change ((c :: l) ≫= encode_utf8) with (encode_utf8 c ++ (l ≫= encode_utf8)).
  by rewrite decode_encode_char, IH.
Qed.

Lemma decode_encodable l : Forall encodable (decode_utf8 l).
Proof.
  remember (length l) as n eqn:Hn. revert l Hn. induction (lt_wf n) as [n _ IH].
  intros l ->. assert (Hrec : ∀ k, (length k < length l)%nat → Forall encodable (decode_utf8 k))
    by (intros; by eapply IH).
  clear IH. unfold encodable in *. change (2 ^ 21) with 2097152 in *.
  destruct l as [|b0 l]; [constructor|]. cbn [decode_utf8]. unfold continued.
  pose proof (byte_to_N_bound b0).
  destruct (N.ltb_spec (Byte.to_N b0) 0x80); [constructor; [lia|apply Hrec; cbn; lia]|].
  destruct l as [|b1 l]; [constructor|].
  destruct (N.ltb_spec (Byte.to_N b0) 0xE0);
    [constructor; [bits_to_arith; lia|apply Hrec; cbn; lia]|].
  destruct l as [|b2 l]; [constructor|].
  destruct (N.ltb_spec (Byte.to_N b0) 0xF0);
    [constructor; [bits_to_arith; lia|apply Hrec; cbn; lia]|].
  destruct l as [|b3 l]; [constructor|].
  constructor; [bits_to_arith; lia|apply Hrec; cbn; lia].
Qed.

Lemma chars_encodable s : Forall encodable (chars_of_str s).
Proof. apply decode_encodable. Qed.

(** The characters of Rust: no surrogates. *)
Definition scalar (c : char) : Prop := c < 0x110000 ∧ ¬ (0xD800 ≤ c ≤ 0xDFFF).

Lemma byte_in_spec lo hi n :
  n < 256 → byte_in lo hi (byte_of_N n) = (lo <=? n) && (n <=? hi).
Proof. intros Hn. unfold byte_in. by rewrite byte_of_N_small. Qed.

Lemma utf8_valid_char c l : scalar c → utf8_valid (encode_utf8 c ++ l) = utf8_valid l.
Proof.
  intros [Hc Hs]. unfold encode_utf8. bits_to_arith.
  destruct (N.ltb_spec c 0x80); [|destruct (N.ltb_spec c 0x800); [|destruct (N.ltb_spec c 0x10000)]];
    cbn [app utf8_valid]; cbv zeta; rewrite !byte_in_spec by lia;
    repeat match goal with |- context [?a <=? ?b] => destruct (N.leb_spec a b); try lia; cbn [andb] end; done.
Qed.

Lemma as_bytes_valid l : Forall scalar l → utf8_valid (as_bytes l) = true ∧ decode_utf8 (as_bytes l) = l.
Proof.
  induction 1 as [|c l Hc _ [IHv IHd]]; [done|].
  change (as_bytes (c :: l)) with (encode_utf8 c ++ as_bytes l). rewrite utf8_valid_char by done.
  split; [done|]. rewrite decode_encode_char, IHd; [done|]. unfold encodable. destruct Hc as [Hc _].
  change (2 ^ 21) with 2097152. lia.
Qed.
