(* ===== verification/Parser.v ===== *)
(** * The parser

    src/src/parser.rs, method by method: recursive descent over the tokens of
    the scanner.  A method is a computation in [P]: it may fail with a
    diagnostic and keeps its state when it does, because [program] goes on
    after one; [None] is a panic (an index outside the tokens, an underflow) or
    a loop or recursion that was cut off.

    The recursion is open: the methods are written over a record [Knot] of the
    methods they call back into, and [knot n] ties it for [n] nested calls.
    Loops take one token per iteration at least, and run with the number of
    tokens left as fuel.  [ParserOk] shows how much of both is enough. *)
From S2P Require Import Prelude Ast Values Text Lexer.

Record Parser := mkParser {
  p_tokens : list Token;
  p_current : nat;
  p_depth : N;
  p_callables : gmap string (list string);
  p_pending : list Stmt }.

Definition MAX_PARSE_DEPTH : N := 128.

(** ** The monad *)

Definition P (A : Type) : Type := Parser → option (result NivError A * Parser).
#[export] Instance P_ret : MRet P := λ A a s, Some (Ok a, s).
#[export] Instance P_bind : MBind P := λ A B f m s,
  match m s with
  | Some (Ok a, s) => f a s
  | Some (Err e, s) => Some (Err e, s)
  | None => None
  end.

Definition throw {A} (e : NivError) : P A := λ s, Some (Err e, s).

(** A panic, or a recursion cut off. *)
Definition panic {A} : P A := λ _, None.

(** Read the state; [None] is a panic. *)
Definition reads_state {A} (f : Parser → option A) : P A := λ s,
  match f s with Some a => Some (Ok a, s) | None => None end.
Definition updates (f : Parser → Parser) : P unit := λ s, Some (Ok tt, f s).

Definition set_current (n : nat) (s : Parser) : Parser :=
  mkParser (p_tokens s) n (p_depth s) (p_callables s) (p_pending s).
Definition set_depth (d : N) (s : Parser) : Parser :=
  mkParser (p_tokens s) (p_current s) d (p_callables s) (p_pending s).
Definition add_callable (name : string) (labels : list string) (s : Parser) : Parser :=
  mkParser (p_tokens s) (p_current s) (p_depth s) (<[name := labels]> (p_callables s))
    (p_pending s).
Definition add_pending (st : Stmt) (s : Parser) : Parser :=
  mkParser (p_tokens s) (p_current s) (p_depth s) (p_callables s) (p_pending s ++ [st]).

(** [loop { … }]: the body says whether to go on. *)
Fixpoint loop_fuel {V} (fuel : nat) (body : V → P (bool * V)) (v : V) : P V :=
  match fuel with
  | O => panic
  | S fuel =>
      '(again, v) ← body v;
      if (again : bool) then loop_fuel fuel body v else mret v
  end.
Definition repeated {V} (body : V → P (bool * V)) (v : V) : P V := λ s,
  loop_fuel (S (length (p_tokens s) - p_current s)) body v s.

(** [while cond { body }] *)
Definition while_do {V} (cond : P bool) (body : V → P V) (v : V) : P V :=
  repeated (λ v, c ← cond; if (c : bool) then v ← body v; mret (true, v)
                           else mret (false, v)) v.

(** ** Tokens *)

(** [std::mem::discriminant] of a token kind. *)
Definition discriminant (k : TokenKind) : N :=
  match k with
  | Tk_LeftParen => 0 | Tk_RightParen => 1 | Tk_LeftBrace => 2 | Tk_RightBrace => 3
  | Tk_LeftBracket => 4 | Tk_RightBracket => 5 | Tk_Comma => 6 | Tk_Semicolon => 7
  | Tk_Colon => 8 | Tk_Arrow => 9 | Tk_Question => 10 | Tk_QuestionQuestion => 11
  | Tk_Dot => 12 | Tk_Plus => 13 | Tk_Minus => 14 | Tk_Star => 15 | Tk_Slash => 16
  | Tk_Percent => 17 | Tk_Bang => 18 | Tk_BangEqual => 19 | Tk_Equal => 20
  | Tk_EqualEqual => 21 | Tk_FatArrow => 22 | Tk_Greater => 23 | Tk_GreaterEqual => 24
  | Tk_Less => 25 | Tk_LessEqual => 26 | Tk_Identifier _ => 27 | Tk_DocComment _ => 28
  | Tk_Int _ => 29 | Tk_Float _ => 30 | Tk_String _ => 31 | Tk_Let => 32 | Tk_Var => 33
  | Tk_Fun => 34 | Tk_Return => 35 | Tk_If => 36 | Tk_Else => 37 | Tk_While => 38
  | Tk_For => 39 | Tk_In => 40 | Tk_True => 41 | Tk_False => 42 | Tk_Null => 43
  | Tk_Print => 44 | Tk_Record => 45 | Tk_Enum => 46 | Tk_Protocol => 47
  | Tk_Adopt => 48 | Tk_ForType => 49 | Tk_Match => 50 | Tk_Import => 51
  | Tk_Export => 52 | Tk_Through => 53 | Tk_Start => 54 | Tk_Wait => 55
  | Tk_Together => 56 | Tk_Race => 57 | Tk_Needs => 58 | Tk_Using => 59 | Tk_Is => 60
  | Tk_Set => 61 | Tk_To => 62 | Tk_Takes => 63 | Tk_Holds => 64 | Tk_Case => 65
  | Tk_Carries => 66 | Tk_With => 67 | Tk_Maybe => 68 | Tk_As => 69 | Tk_From => 70
  | Tk_Type => 71 | Tk_Prepare => 72 | Tk_Perform => 73 | Tk_WhileClause => 74
  | Tk_And => 75 | Tk_Or => 76 | Tk_Eof => 77
  end.

(** [same_variant] *)
Definition same_variant (left right : TokenKind) : bool :=
  discriminant left =? discriminant right.

(** [Parser::peek] *)
Definition peek_token : P Token := reads_state (λ s, p_tokens s !! p_current s).
Definition peek_kind : P TokenKind := token ← peek_token; mret (tok_kind token).

(** [self.tokens[self.current + 1].kind] *)
Definition next_kind : P TokenKind :=
  reads_state (λ s, tok_kind <$> p_tokens s !! S (p_current s)).

(** [Parser::previous] *)
Definition previous : P Token :=
  reads_state (λ s, match p_current s with O => None | S n => p_tokens s !! n end).

(** [Parser::is_at_end] *)
Definition at_eof : P bool := k ← peek_kind; mret (same_variant k Tk_Eof).

(** [Parser::advance] *)
Definition advance_token : P Token :=
  at_end ← at_eof;
  _ ← (if (at_end : bool) then mret tt else updates (λ s, set_current (S (p_current s)) s));
  previous.

Definition span_of (t : Token) : Span := mkSpan (tok_line t) (tok_column t).

(** [Parser::previous_span], and [Span { line: self.peek().line, … }]. *)
Definition previous_span : P Span := t ← previous; mret (span_of t).
Definition peek_span : P Span := t ← peek_token; mret (span_of t).

(** [Err(self.error_here(message))] *)
Definition error_here {A} (message : string) : P A :=
  t ← peek_token; throw (NivError_new message (tok_line t) (tok_column t)).

(** [Parser::check] *)
Definition check (kind : TokenKind) : P bool := k ← peek_kind; mret (same_variant k kind).

(** [Parser::matches] *)
Definition matches_any (kinds : list TokenKind) : P bool :=
  k ← peek_kind;
  if existsb (same_variant k) kinds then _ ← advance_token; mret true else mret false.
Definition matches_kind (kind : TokenKind) : P bool := matches_any [kind].

(** [Parser::consume] *)
Definition consume (kind : TokenKind) (message : string) : P unit :=
  found ← check kind;
  if (found : bool) then _ ← advance_token; mret tt else error_here message.

(** The words [Parser::consume_identifier] takes for a name. *)
Definition name_of (k : TokenKind) : option string :=
  match k with
  | Tk_Identifier name => Some name
  | Tk_Set => Some "set" | Tk_From => Some "from" | Tk_As => Some "as"
  | Tk_With => Some "with" | Tk_Maybe => Some "maybe" | Tk_Start => Some "start"
  | _ => None
  end%string.

(** [Parser::consume_identifier] *)
Definition consume_identifier (message : string) : P string :=
  k ← peek_kind;
  match name_of k with
  | Some name => _ ← advance_token; mret name
  | None => error_here message
  end.

Definition is_identifier (k : TokenKind) : bool :=
  match k with Tk_Identifier _ => true | _ => false end.
Definition is_string (k : TokenKind) : bool :=
  match k with Tk_String _ => true | _ => false end.
Definition is_the_word (word : string) (k : TokenKind) : bool :=
  match k with Tk_Identifier name => bool_decide (name = word) | _ => false end.

(** [Parser::optional_semicolon] *)
Definition optional_semicolon : P unit := _ ← matches_kind Tk_Semicolon; mret tt.

(** [Parser::enter_nested_syntax] *)
Definition enter_nested_syntax : P unit :=
  depth ← reads_state (λ s, Some (p_depth s));
  if MAX_PARSE_DEPTH <=? depth then error_here "syntax nesting exceeds the supported limit"
  else updates (λ s, set_depth (p_depth s + 1) s).

(** [self.depth -= 1] after a nested method, whatever its result. *)
Definition leave_nested {A} (m : P A) : P A := λ s,
  match m s with
  | Some (r, s) => if p_depth s =? 0 then None else Some (r, set_depth (p_depth s - 1) s)
  | None => None
  end.
Definition nested_syntax {A} (m : P A) : P A :=
  _ ← enter_nested_syntax; leave_nested m.

(** [Parser::synchronize] *)
Definition starts_declaration (k : TokenKind) : bool :=
  match k with
  | Tk_Let | Tk_Var | Tk_Fun | Tk_If | Tk_While | Tk_For | Tk_Return | Tk_Print
  | Tk_Record | Tk_Enum | Tk_Import | Tk_Export => true
  | _ => false
  end.
Definition synchronize : P unit :=
  at_end ← at_eof;
  _ ← (if (at_end : bool) then mret tt else _ ← advance_token; mret tt);
  repeated (λ _,
    at_end ← at_eof;
    if (at_end : bool) then mret (false, tt)
    else
      last ← previous;
      if same_variant (tok_kind last) Tk_Semicolon then mret (false, tt)
      else
        k ← peek_kind;
        if starts_declaration k then mret (false, tt)
        else _ ← advance_token; mret (true, tt)) tt.

(** ** Checks without state *)

(** [items.join(", ")] *)
Fixpoint join (separator : string) (l : list string) : string :=
  match l with
  | [] => ""
  | [x] => x
  | x :: l => x +:+ separator +:+ join separator l
  end.

(** [value_span] *)
Definition value_span (value : TypeRef) : Span :=
  match value with
  | TypeRef_Named _ span | TypeRef_Applied _ _ span | TypeRef_Array _ span
  | TypeRef_Nullable _ span | TypeRef_Result _ _ span => span
  end.

Definition CAPABILITIES : list string :=
  ["FileRead"; "FileWrite"; "Environment"; "Time"; "Process"; "Network"; "Task"; "Channel";
   "Log"; "Native"; "Random"].

(** [char::is_control]: the general category Cc. *)
Definition is_control (c : char) : bool := (c <? 32) || (127 <=? c) && (c <=? 159).

(** [validate_capability_need] *)
Definition validate_capability_need (capability : string) (boundary : option string)
    (span : Span) : result NivError unit :=
  if negb (bool_decide (capability ∈ CAPABILITIES)) then
    Err (error_at ("unknown capability '" +:+ capability +:+ "'; expected one of "
                   +:+ join ", " CAPABILITIES) span)
  else
    match boundary with
    | None => Ok tt
    | Some boundary =>
        let l := chars_of_str boundary in
        if (str_len boundary =? 0) || (1024 <? str_len boundary) || existsb is_control l then
          Err (error_at "a capability boundary must be non-empty, at most 1024 bytes, and contain no control characters" span)
        else if bool_decide (capability = "Network")
                && (contains (ascii_chars "://") l || contains (ascii_chars "/") l
                    || existsb is_white l) then
          Err (error_at ("a Network boundary names a host such as " +:+ quote_str
                         +:+ "api.example.com" +:+ quote_str
                         +:+ ", without a URL scheme or path") span)
        else Ok tt
    end.

(** [task_call] *)
Definition task_call (operation : string) (argument : Expr) (span : Span) : Expr :=
  let standard := Expr_Variable "std" span in
  let task := Expr_Get standard "tasks" span in
  let function := Expr_Get task operation span in
  Expr_Call function [argument] None span.

(** [expression_continues] *)
Definition expression_continues (k : TokenKind) : bool :=
  match k with
  | Tk_LeftParen | Tk_LeftBracket | Tk_Dot | Tk_Plus | Tk_Minus | Tk_Star | Tk_Slash
  | Tk_Percent | Tk_EqualEqual | Tk_BangEqual | Tk_Less | Tk_LessEqual | Tk_Greater
  | Tk_GreaterEqual | Tk_And | Tk_Or | Tk_Question | Tk_QuestionQuestion | Tk_Equal
  | Tk_FatArrow | Tk_Through | Tk_With | Tk_Set | Tk_To | Tk_Is | Tk_Colon | Tk_Arrow => true
  | _ => false
  end.

(** [declared_statement_name] *)
Definition declared_statement_name (st : Stmt) : option string :=
  match st with
  | Stmt_Function name _ _ _ _ _ _ _ | Stmt_Record name _ _ _ _ | Stmt_Enum name _ _ _
  | Stmt_Protocol name _ _ | Stmt_Let name _ _ _ _ => Some name
  | _ => None
  end.

(** The labels of the methods of derive_methods.rs, by name. *)
Definition method_labels (name : string) : list string :=
  match name with
  | "compare" => ["left"; "right"]
  | "from_json" | "from_row" => ["source"]
  | "from_binary" => ["bytes"]
  | "from_arguments" => ["arguments"]
  | _ => ["value"]
  end%string.

Definition BUILT_INS : list string :=
  ["Json"; "Compare"; "Display"; "Key"; "Validate"; "Binary"; "DatabaseRow"; "Arguments"].

(** The keywords that are member names after a dot. *)
Definition keyword_name (k : TokenKind) : option string :=
  match k with
  | Tk_While => Some "repeat" | Tk_Record => Some "shape" | Tk_Enum => Some "choice"
  | Tk_If => Some "when" | Tk_Return => Some "give" | Tk_For => Some "each"
  | _ => None
  end%string.

(** The hole of a text literal after its opening brace: its source, and what
    follows the closing brace; [None] when there is none. *)
Fixpoint split_hole (depth : N) (in_string escaped : bool) (l : list char)
    : option (list char * list char) :=
  match l with
  | [] => None
  | c :: l =>
    let push (r : option (list char * list char)) :=
      '(hole, rest) ← r; Some (c :: hole, rest) in
    if in_string then
      if escaped then push (split_hole depth true false l)
      else if c =? backslash then push (split_hole depth true true l)
      else if c =? quote then push (split_hole depth false false l)
      else push (split_hole depth true false l)
    else if c =? quote then push (split_hole depth true escaped l)
    else if c =? ch "{" then push (split_hole (depth + 1) false escaped l)
    else if c =? ch "}" then
      if depth - 1 =? 0 then Some ([], l) else push (split_hole (depth - 1) false escaped l)
    else push (split_hole depth false escaped l)
  end.

(** ** The methods that call each other *)

(** What a method may call back into. *)
Record Knot := mkKnot {
  k_declaration : P Stmt;
  k_statement : P Stmt;
  k_expression : P Expr;
  k_assignment : P Expr;
  k_coalesce : P Expr;
  k_unary : P Expr;
  k_type_ref : P TypeRef;
  k_pattern : P Pattern;
  k_parse : list Token → option (result (list NivError) (list Stmt)) }.

Section parser.
Context `{Unicode} (call_labels_get : string → option (list string)).
Context (k : Knot).

(** *** Types and patterns *)

(** A non-empty list separated by commas: [loop { push(item()?); if !matches(Comma) { break } }]. *)
Definition comma_separated {A} (item : list A → P A) : P (list A) :=
  repeated (λ l, x ← item l; more ← matches_kind Tk_Comma; mret (more, l ++ [x])) [].

(** [while !self.check(RightBrace) && !self.is_at_end() { … }] *)
Definition until_brace {V} (body : V → P V) (v : V) : P V :=
  while_do (closed ← check Tk_RightBrace;
            if (closed : bool) then mret false
            else at_end ← at_eof; mret (negb at_end)) body v.

(** [Parser::type_ref_inner] *)
Definition type_ref_inner : P TypeRef :=
  maybe ← matches_kind Tk_Maybe;
  result ←
    (if (maybe : bool) then
       span ← previous_span; item ← k_type_ref k; mret (TypeRef_Nullable item span)
     else
       bracket ← matches_kind Tk_LeftBracket;
       if (bracket : bool) then
         span ← previous_span;
         element ← k_type_ref k;
         _ ← consume Tk_RightBracket "expected ']' after array element type";
         mret (TypeRef_Array element span)
       else
         span ← peek_span;
         name ← consume_identifier "expected type name";
         less ← matches_kind Tk_Less;
         if (less : bool) then
           arguments ← comma_separated (λ _, k_type_ref k);
           _ ← consume Tk_Greater "expected '>' after type arguments";
           match bool_decide (name = "Result"), arguments with
           | true, [ok; error] => mret (TypeRef_Result ok error span)
           | _, _ => mret (TypeRef_Applied name arguments span)
           end
         else mret (TypeRef_Named name span));
  question ← matches_kind Tk_Question;
  if (question : bool) then span ← previous_span; mret (TypeRef_Nullable result span)
  else mret result.

(** [Parser::shape_pattern_fields] *)
Definition shape_pattern_fields : P (list (string * Pattern)) :=
  _ ← consume Tk_LeftBrace "expected '{' after 'holds'";
  fields ← until_brace (λ fields,
    field ← consume_identifier "expected a field name";
    _ ← consume Tk_Set "a field pattern uses 'set'";
    pattern ← k_pattern k;
    _ ← matches_kind Tk_Comma;
    mret (fields ++ [(field, pattern)])) [];
  _ ← consume Tk_RightBrace "expected '}' after field patterns";
  mret fields.

(** [Parser::arm_pattern] *)
Definition arm_pattern : P Pattern :=
  token ← peek_token;
  let span := span_of token in
  let literal l := _ ← advance_token; mret (Pattern_Literal l span) in
  match tok_kind token with
  | Tk_Int value => literal (Literal_Int value)
  | Tk_Float value => literal (Literal_Float value)
  | Tk_String value => literal (Literal_String value)
  | Tk_True => literal (Literal_Bool true)
  | Tk_False => literal (Literal_Bool false)
  | Tk_Null => literal Literal_Null
  | Tk_Identifier name =>
      _ ← advance_token;
      if bool_decide (name = "any") then mret (Pattern_Any span)
      else
        carries ← matches_kind Tk_Carries;
        if (carries : bool) then inner ← k_pattern k; mret (Pattern_Carries name inner span)
        else
          holds ← matches_kind Tk_Holds;
          if (holds : bool) then
            fields ← shape_pattern_fields; mret (Pattern_Shape name fields span)
          else mret (Pattern_Name name span)
  | _ =>
      throw (error_at "expected a pattern: a case, a literal, a shape, a binding, or 'any'" span)
  end.

(** [let mut patterns = vec![self.arm_pattern()?]; while self.matches(Or) { … }] *)
Definition alternatives : P (list Pattern) :=
  first ← k_pattern k;
  while_do (matches_kind Tk_Or) (λ l, p ← k_pattern k; mret (l ++ [p])) [first].

(** [Parser::type_parameters] *)
Definition type_parameters : P (list TypeParam) :=
  less ← matches_kind Tk_Less;
  if (less : bool) then
    type_params ← comma_separated (λ type_params,
      if 255 <=? len type_params then
        error_here "declarations may have at most 255 type parameters"
      else
        span ← peek_span;
        parameter ← consume_identifier "expected generic type parameter";
        if existsb (λ t, bool_decide (tparam_name t = parameter)) type_params then
          error_here "duplicate generic type parameter"
        else
          constrained ← matches_kind Tk_Is;
          constraint ←
            (if (constrained : bool)
             then c ← consume_identifier "expected protocol constraint"; mret (Some c)
             else mret None);
          mret (mkTypeParam parameter constraint span));
    _ ← consume Tk_Greater "expected '>' after generic type parameters";
    mret type_params
  else mret [].

(** *** Expressions *)

(** [Parser::intent_arguments] *)
Definition intent_arguments : P (list string * list Expr) :=
  _ ← consume Tk_LeftBrace "expected '{' before labeled values";
  r ← until_brace (λ '(labels, arguments),
    name ← consume_identifier "expected a labeled value name";
    if bool_decide (name ∈ labels) then
      error_here ("labeled value '" +:+ name +:+ "' appears more than once")
    else
      _ ← consume Tk_Set "a labeled value uses 'set'";
      argument ← k_expression k;
      _ ← matches_kind Tk_Comma;
      mret (labels ++ [name], arguments ++ [argument])) ([], []);
  _ ← consume Tk_RightBrace "expected '}' after labeled values";
  mret r.

(** [Parser::validate_labels] *)
Definition validate_labels (callable : string) (labels : list string) (span : Span) : P unit :=
  callables ← reads_state (λ s, Some (p_callables s));
  let expected :=
    match callables !! callable with
    | Some expected => Some expected
    | None => call_labels_get callable
    end in
  match expected with
  | None => mret tt
  | Some expected =>
      if bool_decide (labels = expected)
         || (len expected =? len labels + 1) && bool_decide (labels = tail expected)
      then mret tt
      else throw (error_at (callable +:+ " expects labeled values [" +:+ join ", " expected
                            +:+ "] in canonical order; received [" +:+ join ", " labels
                            +:+ "]") span)
  end.

(** [Parser::text_hole] *)
Definition text_hole (source : list char) (span : Span) : P Expr :=
  let first_error (errors : list NivError) :=
    let detail := match errors with e :: _ => err_message e | [] => "" end in
    error_at ("a text hole holds an invalid expression: " +:+ detail) span in
  match trim source with
  | [] => throw (error_at "a text hole needs an expression between '{' and '}'" span)
  | _ =>
    scanned ← reads_state (λ _, scan (str_of_chars source));
    match scanned with
    | Err errors => throw (first_error errors)
    | Ok tokens =>
      parsed ← reads_state (λ _, k_parse k tokens);
      match parsed with
      | Err errors => throw (first_error errors)
      | Ok [Stmt_Expression expression] => mret expression
      | Ok _ => throw (error_at "a text hole holds exactly one expression" span)
      end
    end
  end.

(** The loop of [Parser::text_literal]; [fuel] bounds the characters left. *)
Fixpoint text_pieces (fuel : nat) (span : Span) (pieces : list TextPiece) (literal l : list char)
    : P (list TextPiece) :=
  let flushed :=
    match literal with
    | [] => pieces
    | _ => pieces ++ [TextPiece_Literal (str_of_chars literal)]
    end in
  match l, fuel with
  | [], _ => mret flushed
  | _, O => panic
  | c :: l', S fuel =>
    if (c =? ch "{") && bool_decide (head l' = Some (ch "{")) then
      text_pieces fuel span pieces (literal ++ [ch "{"]) (tail l')
    else if (c =? ch "}") && bool_decide (head l' = Some (ch "}")) then
      text_pieces fuel span pieces (literal ++ [ch "}"]) (tail l')
    else if c =? ch "}" then
      throw (error_at "a text literal found '}' without a hole; spell a literal brace '}}'" span)
    else if c =? ch "{" then
      match split_hole 1 false false l' with
      | None => throw (error_at "a text hole is missing its closing '}'" span)
      | Some (hole, rest) =>
          expression ← text_hole hole span;
          text_pieces fuel span (flushed ++ [TextPiece_Hole expression]) [] rest
      end
    else text_pieces fuel span pieces (literal ++ [c]) l'
  end.

(** [Parser::text_literal] *)
Definition text_literal (raw : string) (span : Span) : P Expr :=
  let characters := chars_of_str raw in
  pieces ← text_pieces (length characters) span [] [] characters;
  mret (Expr_Text pieces span).

(** The body of an arm loop of [Parser::match_expression]. *)
Definition match_arm : P MatchArm :=
  span ← peek_span;
  otherwise ← matches_kind Tk_Else;
  if (otherwise : bool) then
    named ← matches_kind Tk_As;
    binding ←
      (if (named : bool)
       then name ← consume_identifier "expected a binding name after 'as'"; mret (Some name)
       else mret None);
    _ ← consume Tk_FatArrow "expected '=>' after otherwise";
    value ← k_expression k;
    _ ← matches_kind Tk_Comma;
    mret (mkMatchArm
            [match binding with
             | Some name => Pattern_Binding name span
             | None => Pattern_Any span
             end] None value span)
  else
    _ ← consume Tk_Case "a choose arm opens with 'case' or 'otherwise'";
    patterns ← alternatives;
    guarded ← matches_kind Tk_If;
    guard ← (if (guarded : bool) then g ← k_expression k; mret (Some g) else mret None);
    _ ← consume Tk_FatArrow "expected '=>' after choice arm";
    value ← k_expression k;
    _ ← matches_kind Tk_Comma;
    mret (mkMatchArm patterns guard value span).

(** [Parser::match_expression] *)
Definition match_expression (span : Span) : P Expr :=
  parenthesized ← matches_kind Tk_LeftParen;
  subject ←
    (if (parenthesized : bool) then
       value ← k_expression k;
       _ ← consume Tk_RightParen "expected ')' after choose value"; mret value
     else k_expression k);
  _ ← consume Tk_LeftBrace "expected '{' before choose arms";
  arms ← until_brace (λ arms, arm ← match_arm; mret (arms ++ [arm])) [];
  _ ← consume Tk_RightBrace "expected '}' after choose";
  mret (Expr_Match subject arms span).

(** The token after a word is a string: take it. *)
Definition take_string : P string :=
  token ← advance_token;
  match tok_kind token with
  | Tk_String value => mret value
  | _ => panic
  end.

(** [Parser::primary] *)
Definition primary : P Expr :=
  token ← advance_token;
  let span := span_of token in
  match tok_kind token with
  | Tk_False => mret (Expr_Literal (Literal_Bool false) span)
  | Tk_True => mret (Expr_Literal (Literal_Bool true) span)
  | Tk_Null => mret (Expr_Literal Literal_Null span)
  | Tk_Int value => mret (Expr_Literal (Literal_Int value) span)
  | Tk_Float value => mret (Expr_Literal (Literal_Float value) span)
  | Tk_String value => mret (Expr_Literal (Literal_String value) span)
  | Tk_Identifier name =>
      next ← peek_kind;
      if bool_decide (name = "raw") && is_string next then
        value ← take_string; mret (Expr_Literal (Literal_String value) span)
      else if bool_decide (name = "text") && is_string next then
        raw ← take_string; text_literal raw span
      else mret (Expr_Variable name span)
  | Tk_Match => match_expression span
  | Tk_LeftBracket =>
      closed ← check Tk_RightBracket;
      values ← (if (closed : bool) then mret [] else comma_separated (λ _, k_expression k));
      _ ← consume Tk_RightBracket "expected ']' after array";
      mret (Expr_Array values span)
  | Tk_LeftParen =>
      value ← k_expression k;
      _ ← consume Tk_RightParen "expected ')' after expression";
      mret value
  | _ => throw (error_at "expected expression" span)
  end.

(** One pass of the loop of [Parser::call]. *)
Definition call_suffix (expression : Expr) : P (bool * Expr) :=
  labeled ← matches_kind Tk_With;
  if (labeled : bool) then
    span ← previous_span;
    '(labels, args) ← intent_arguments;
    _ ← match expression_path expression with
        | Some name => validate_labels name labels span
        | None => mret tt
        end;
    mret (true, Expr_Call expression args (Some labels) span)
  else
  paren ← matches_kind Tk_LeftParen;
  if (paren : bool) then
    span ← previous_span;
    closed ← check Tk_RightParen;
    args ← (if (closed : bool) then mret []
            else comma_separated (λ args,
                   if 255 <=? len args then error_here "calls may have at most 255 arguments"
                   else k_expression k));
    _ ← consume Tk_RightParen "expected ')' after arguments";
    mret (true, Expr_Call expression args None span)
  else
  bracket ← matches_kind Tk_LeftBracket;
  if (bracket : bool) then
    span ← previous_span;
    index ← k_expression k;
    _ ← consume Tk_RightBracket "expected ']' after index";
    mret (true, Expr_Index expression index span)
  else
  dot ← matches_kind Tk_Dot;
  if (dot : bool) then
    span ← previous_span;
    next ← peek_kind;
    name ← match keyword_name next with
           | Some name => _ ← advance_token; mret name
           | None => consume_identifier "expected field name after '.'"
           end;
    mret (true, Expr_Get expression name span)
  else mret (false, expression).

(** [Parser::call] *)
Definition parse_call : P Expr := expression ← primary; repeated call_suffix expression.

(** The words of [Parser::unary_inner] for tasks. *)
Definition task_word (k : TokenKind) : option string :=
  match k with
  | Tk_Start => Some "spawn" | Tk_Wait => Some "await" | Tk_Together => Some "all"
  | Tk_Race => Some "race"
  | _ => None
  end%string.

(** [Parser::unary_inner] *)
Definition unary_inner : P Expr :=
  performs ← matches_kind Tk_Perform;
  if (performs : bool) then
    span ← previous_span; value ← k_unary k; mret (Expr_Perform value span)
  else
    next ← peek_kind;
    match task_word next with
    | Some operation =>
        _ ← advance_token;
        span ← previous_span;
        argument ← k_unary k;
        mret (task_call operation argument span)
    | None =>
        prefixed ← matches_any [Tk_Bang; Tk_Minus];
        if (prefixed : bool) then
          operator ← previous;
          value ← k_unary k;
          mret (Expr_Unary (tok_kind operator) value (span_of operator))
        else parse_call
    end.

(** [Parser::binary] *)
Definition parse_binary (next : P Expr) (kinds : list TokenKind) : P Expr :=
  expression ← next;
  while_do (matches_any kinds) (λ expression,
    operator ← previous;
    right ← next;
    mret (Expr_Binary expression (tok_kind operator) right (span_of operator))) expression.

(** [Parser::factor], [Parser::term], [Parser::comparison], [Parser::equality] *)
Definition factor : P Expr := parse_binary (k_unary k) [Tk_Star; Tk_Slash; Tk_Percent].
Definition term : P Expr := parse_binary factor [Tk_Plus; Tk_Minus].
Definition comparison_expr : P Expr :=
  parse_binary term [Tk_Greater; Tk_GreaterEqual; Tk_Less; Tk_LessEqual].
Definition equality : P Expr := parse_binary comparison_expr [Tk_BangEqual; Tk_EqualEqual].

(** [Parser::and] *)
Definition and_expr : P Expr :=
  expression ← equality;
  while_do (matches_kind Tk_And) (λ expression,
    operator ← previous;
    right ← equality;
    mret (Expr_Logical expression (tok_kind operator) right (span_of operator))) expression.

(** [Parser::or] *)
Definition or_expr : P Expr :=
  expression ← and_expr;
  repeated (λ expression,
    more ← matches_kind Tk_Or;
    if (more : bool) then
      gives ← matches_kind Tk_Return;
      if (gives : bool) then
        span ← previous_span; mret (false, Expr_Propagate expression span)
      else
        operator ← previous;
        right ← and_expr;
        mret (true, Expr_Logical expression (tok_kind operator) right (span_of operator))
    else mret (false, expression)) expression.

(** [Parser::pipeline] *)
Definition pipeline : P Expr :=
  expression ← or_expr;
  while_do (matches_kind Tk_Through) (λ expression,
    span ← previous_span;
    stage ← parse_call;
    match stage with
    | Expr_Call _ _ _ _ | Expr_Variable _ _ | Expr_Get _ _ _ =>
        mret (Expr_Through expression stage span)
    | _ => throw (error_at "through expects a function or function call" span)
    end) expression.

(** [Parser::coalesce_inner] *)
Definition coalesce_inner : P Expr :=
  expression ← pipeline;
  found ← matches_kind Tk_QuestionQuestion;
  if (found : bool) then
    span ← previous_span; right ← k_coalesce k; mret (Expr_Coalesce expression right span)
  else mret expression.

(** [Parser::assignment_inner] *)
Definition assignment_inner : P Expr :=
  expression ← k_coalesce k;
  found ← matches_kind Tk_Equal;
  if (found : bool) then
    span ← previous_span;
    value ← k_assignment k;
    match expression with
    | Expr_Variable name _ => mret (Expr_Assign name value span)
    | _ => throw (error_at "invalid assignment target" span)
    end
  else mret expression.

(** *** Statements *)

(** [Parser::block_contents] *)
Definition block_contents : P (list Stmt) :=
  statements ← until_brace (λ l, st ← k_declaration k; mret (l ++ [st])) [];
  _ ← consume Tk_RightBrace "expected '}' after block";
  mret statements.

(** [Parser::control_condition] *)
Definition control_condition (keyword : string) : P Expr :=
  paren ← matches_kind Tk_LeftParen;
  if (paren : bool) then
    condition ← k_expression k;
    _ ← consume Tk_RightParen ("expected ')' after " +:+ keyword +:+ " condition");
    mret condition
  else k_expression k.

(** The inputs between the braces after [takes]. *)
Definition inputs (expected_name expected_is : string) : P (list Param) :=
  until_brace (λ params,
    span ← peek_span;
    name ← consume_identifier expected_name;
    _ ← consume Tk_Is expected_is;
    ty ← k_type_ref k;
    _ ← matches_kind Tk_Comma;
    mret (params ++ [mkParam name (Some ty) span])) [].

(** [if self.matches(Takes) { … }] *)
Definition takes_clause (expected_name expected_is expected_close : string) : P (list Param) :=
  takes ← matches_kind Tk_Takes;
  if (takes : bool) then
    _ ← consume Tk_LeftBrace "expected '{' after 'takes'";
    params ← inputs expected_name expected_is;
    _ ← consume Tk_RightBrace expected_close;
    mret params
  else mret [].

(** [Parser::prepare_statement] *)
Definition prepare_statement : P Stmt :=
  span ← previous_span;
  name ← consume_identifier "expected a plan name after 'prepare'";
  _ ← consume Tk_As "a prepared plan states its type with 'as'";
  plan_type ← consume_identifier "expected a plan type after 'as'";
  _ ← consume Tk_With "a prepared plan provides values with 'with'";
  '(labels, arguments) ← intent_arguments;
  _ ← validate_labels plan_type labels span;
  _ ← optional_semicolon;
  mret (Stmt_Prepare name plan_type
          (Expr_Call (Expr_Variable plan_type span) arguments (Some labels) span) span).

(** [Parser::print_statement] *)
Definition print_statement : P Stmt :=
  span ← previous_span;
  _ ← consume Tk_LeftParen "show writes one value with 'show(value)'";
  value ← k_expression k;
  _ ← consume Tk_RightParen "expected ')' after show value";
  _ ← optional_semicolon;
  mret (Stmt_Print value span).

(** [Parser::return_statement] *)
Definition return_statement : P Stmt :=
  span ← previous_span;
  semicolon ← check Tk_Semicolon;
  brace ← check Tk_RightBrace;
  value ← (if (semicolon || brace : bool) then mret None
           else e ← k_expression k; mret (Some e));
  _ ← optional_semicolon;
  mret (Stmt_Return value span).

(** [if self.matches(Else) { Some(self.statement()?) } else { None }] *)
Definition else_clause : P (option Stmt) :=
  otherwise ← matches_kind Tk_Else;
  if (otherwise : bool) then st ← k_statement k; mret (Some st) else mret None.

(** [Parser::if_statement] *)
Definition if_statement : P Stmt :=
  span ← previous_span;
  condition ← control_condition "when";
  carries ← matches_kind Tk_Carries;
  patterns ← (if (carries : bool) then l ← alternatives; mret (Some l) else mret None);
  then_branch ← k_statement k;
  else_branch ← else_clause;
  mret (match patterns with
        | Some patterns => Stmt_IfCarries condition patterns then_branch else_branch span
        | None => Stmt_If condition then_branch else_branch span
        end).

(** [Parser::while_statement] *)
Definition while_statement : P Stmt :=
  span ← previous_span;
  _ ← matches_kind Tk_WhileClause;
  condition ← control_condition "repeat";
  body ← k_statement k;
  mret (Stmt_While condition body span).

(** [Parser::for_statement] *)
Definition for_statement : P Stmt :=
  span ← previous_span;
  parenthesized ← matches_kind Tk_LeftParen;
  name ← consume_identifier "expected iteration binding";
  holds ← matches_kind Tk_Holds;
  pattern ← (if (holds : bool)
             then fields ← shape_pattern_fields; mret (Some (Pattern_Shape name fields span))
             else mret None);
  _ ← consume Tk_In "expected 'in' after iteration binding";
  iterable ← k_expression k;
  _ ← (if (parenthesized : bool) then consume Tk_RightParen "expected ')' after iterable"
       else mret tt);
  body ← k_statement k;
  mret (Stmt_For name pattern iterable body span).

(** [Parser::using_statement] *)
Definition using_statement : P Stmt :=
  span ← previous_span;
  name ← consume_identifier "expected resource name after using";
  set ← matches_kind Tk_Set;
  if (set : bool) then
    resource ← k_expression k;
    body ← k_statement k;
    mret (Stmt_Using name resource body span)
  else error_here "a scoped resource uses 'set'".

(** The boundaries of a promise clause. *)
Definition boundaries : P (list string) :=
  repeated (λ l,
    next ← peek_kind;
    match next with
    | Tk_String boundary =>
        _ ← advance_token;
        comma ← check Tk_Comma;
        if (comma : bool) then
          after ← next_kind;
          if is_string after then _ ← advance_token; mret (true, l ++ [boundary])
          else mret (false, l ++ [boundary])
        else mret (false, l ++ [boundary])
    | _ => error_here "expected a boundary string after 'within'"
    end) [].

(** One clause of [Parser::promise_statement]. *)
Definition promise_clause : P PromiseClause :=
  span ← peek_span;
  first ← consume_identifier "expected 'never' or a capability name";
  if bool_decide (first = "never") then
    capability ← consume_identifier "expected a capability name after 'never'";
    mret (mkPromiseClause capability true [] span)
  else
    only ← consume_identifier "a scoped promise continues with 'only'";
    if bool_decide (only = "only") then
      _ ← consume Tk_In "expected 'within' after 'only'";
      l ← boundaries;
      mret (mkPromiseClause first false l span)
    else
      throw (error_at ("a scoped promise reads 'Capability only within " +:+ quote_str
                       +:+ "boundary" +:+ quote_str +:+ "'") span).

(** The current token is [word], followed by a token of class [next]. *)
Definition word_before (word : string) (next : TokenKind → bool) : P bool :=
  here ← peek_kind;
  if is_the_word word here then after ← next_kind; mret (next after) else mret false.

(** [Parser::promise_statement], when the statement is one. *)
Definition promise_statement : P Stmt :=
  _ ← advance_token;
  span ← previous_span;
  clauses ← repeated (λ clauses,
    clause ← promise_clause;
    comma ← check Tk_Comma;
    if (comma : bool) then
      after ← next_kind;
      if is_identifier after then _ ← advance_token; mret (true, clauses ++ [clause])
      else mret (false, clauses ++ [clause])
    else mret (false, clauses ++ [clause])) [];
  _ ← optional_semicolon;
  mret (Stmt_Promise clauses span).

(** [Parser::sample_statement], when the statement is one. *)
Definition sample_statement : P Stmt :=
  _ ← advance_token;
  span ← previous_span;
  title ← take_string;
  _ ← consume Tk_LeftBrace "expected '{' before the sample body";
  body ← block_contents;
  shown ← word_before "shows" is_string;
  shows ← (if (shown : bool) then _ ← advance_token; e ← take_string; mret (Some e)
           else mret None);
  _ ← optional_semicolon;
  mret (Stmt_Sample title body shows span).

(** [Parser::loop_exit_statement], for the word [stop] or [skip]. *)
Definition loop_exit_statement (exit : Span → Stmt) : P Stmt :=
  _ ← advance_token;
  span ← previous_span;
  _ ← optional_semicolon;
  mret (exit span).

(** The branch of [Parser::statement_inner] for [generate]. *)
Definition generator_statement : P Stmt :=
  _ ← advance_token;
  span ← previous_span;
  name ← consume_identifier "expected a generator name";
  params ← takes_clause "expected an input name" "an input states its type with 'is'"
             "expected '}' after inputs";
  _ ← consume Tk_LeftBrace "expected '{' before the generator body";
  body ← block_contents;
  _ ← optional_semicolon;
  mret (Stmt_Generator name params body span).

(** The branch of [Parser::statement_inner] for [expand]. *)
Definition expand_statement : P Stmt :=
  _ ← advance_token;
  span ← previous_span;
  name ← consume_identifier "expected a generator name after 'expand'";
  labeled ← matches_kind Tk_With;
  '(labels, arguments) ← (if (labeled : bool) then intent_arguments else mret ([], []));
  _ ← optional_semicolon;
  mret (Stmt_Expand name labels arguments span).

(** The branch of [Parser::statement_inner] for [trusted]. *)
Definition trusted_statement : P Stmt :=
  _ ← advance_token;
  span ← previous_span;
  reason ← take_string;
  _ ← optional_semicolon;
  mret (Stmt_Trusted reason span).

Definition expression_statement : P Stmt :=
  expression ← k_expression k;
  _ ← optional_semicolon;
  mret (Stmt_Expression expression).

(** [Parser::statement_inner]: a keyword, a contextual word, or an expression. *)
Definition statement_inner : P Stmt :=
  prepare ← matches_kind Tk_Prepare; if (prepare : bool) then prepare_statement else
  print ← matches_kind Tk_Print; if (print : bool) then print_statement else
  gives ← matches_kind Tk_Return; if (gives : bool) then return_statement else
  when ← matches_kind Tk_If; if (when : bool) then if_statement else
  repeats ← matches_kind Tk_While; if (repeats : bool) then while_statement else
  each ← matches_kind Tk_For; if (each : bool) then for_statement else
  uses ← matches_kind Tk_Using; if (uses : bool) then using_statement else
  brace ← matches_kind Tk_LeftBrace;
  if (brace : bool) then
    span ← previous_span; body ← block_contents; mret (Stmt_Block body span)
  else
  promise ← word_before "promise" is_identifier;
  if (promise : bool) then promise_statement else
  sample ← word_before "sample" is_string;
  if (sample : bool) then sample_statement else
  generates ← word_before "generate" is_identifier;
  if (generates : bool) then generator_statement else
  expands ← word_before "expand" is_identifier;
  if (expands : bool) then expand_statement else
  trusted ← word_before "trusted" is_string;
  if (trusted : bool) then trusted_statement else
  stops ← word_before "stop" (λ next, negb (expression_continues next));
  if (stops : bool) then loop_exit_statement Stmt_Stop else
  skips ← word_before "skip" (λ next, negb (expression_continues next));
  if (skips : bool) then loop_exit_statement Stmt_Skip else expression_statement.

(** [Parser::statement] *)
Definition parse_statement : P Stmt := nested_syntax statement_inner.

(** *** Declarations *)

(** The annotation [is T] of a binding. *)
Definition annotation_clause : P (option TypeRef) :=
  typed ← matches_kind Tk_Is;
  if (typed : bool) then ty ← k_type_ref k; mret (Some ty) else mret None.

(** [Parser::binding] *)
Definition parse_binding (mutable : bool) : P Stmt :=
  span ← previous_span;
  name ← consume_identifier "expected a name after binding keyword";
  holds ← matches_kind Tk_Holds;
  if (holds : bool) then
    if mutable then
      throw (error_at "'change' binds one name; destructuring patterns use 'keep'" span)
    else
    fields ← shape_pattern_fields;
    _ ← consume Tk_Set "this binding states its intent with 'set'";
    initializer ← k_expression k;
    _ ← optional_semicolon;
    mret (Stmt_LetPattern (Pattern_Shape name fields span) initializer span)
  else
    annotation ← annotation_clause;
    _ ← consume Tk_Set "this binding states its intent with 'set'";
    initializer ← k_expression k;
    _ ← optional_semicolon;
    mret (Stmt_Let name mutable annotation initializer span).

(** [Parser::change_declaration] *)
Definition change_declaration : P Stmt :=
  span ← previous_span;
  name ← consume_identifier "expected a name after 'change'";
  assigns ← matches_kind Tk_To;
  if (assigns : bool) then
    value ← k_expression k;
    _ ← optional_semicolon;
    mret (Stmt_Expression (Expr_Assign name value span))
  else
    annotation ← annotation_clause;
    _ ← consume Tk_Set "a mutable binding uses 'set' for its initial value";
    initializer ← k_expression k;
    _ ← optional_semicolon;
    mret (Stmt_Let name true annotation initializer span).

(** [needs] of a function: the capabilities and their boundaries. *)
Definition capability_need (l : list CapabilityNeed) : P CapabilityNeed :=
  span ← peek_span;
  capability ← consume_identifier "expected capability after needs";
  if bool_decide (capability ∈ map need_capability l) then
    error_here "duplicate capability in needs list"
  else
    scoped ← matches_kind Tk_In;
    boundary ←
      (if (scoped : bool) then
         token ← advance_token;
         match tok_kind token with
         | Tk_String boundary => mret (Some boundary)
         | _ => error_here "a scoped need expects a quoted boundary"
         end
       else mret None);
    match validate_capability_need capability boundary span with
    | Ok _ => mret (mkCapabilityNeed capability boundary span)
    | Err e => throw e
    end.

(** [Parser::function] *)
Definition function_declaration : P Stmt :=
  span ← previous_span;
  name ← consume_identifier "expected function name";
  type_params ← type_parameters;
  params ← takes_clause "expected an input name" "an input states its type with 'is'"
             "expected '}' after inputs";
  arrow ← matches_kind Tk_Arrow;
  return_type ←
    (if (arrow : bool) then
       value ← k_type_ref k;
       fails ← matches_kind Tk_Or;
       if (fails : bool) then
         problem ← k_type_ref k;
         mret (Some (TypeRef_Result value problem (value_span value)))
       else mret (Some value)
     else mret None);
  needed ← matches_kind Tk_Needs;
  capability_needs ← (if (needed : bool) then comma_separated capability_need else mret []);
  _ ← updates (add_callable name (map param_name params));
  _ ← consume Tk_LeftBrace "expected '{' before function body";
  body ← block_contents;
  mret (Stmt_Function name type_params params return_type (map need_capability capability_needs)
          capability_needs body span).

(** [Parser::derive_list] *)
Definition derive_list : P (list string) :=
  word ← peek_kind;
  if is_the_word "derives" word then
    _ ← advance_token;
    comma_separated (λ derives,
      derive ← consume_identifier "expected a derive name after 'derives'";
      if negb (bool_decide (derive ∈ BUILT_INS)) then
        error_here ("unknown derive '" +:+ derive +:+ "'; Edition 4 derives are "
                    +:+ join ", " BUILT_INS)
      else if bool_decide (derive ∈ derives) then
        error_here ("derive '" +:+ derive +:+ "' appears more than once")
      else mret derive)
  else
    labeled ← check Tk_With;
    if (labeled : bool) then
      error_here "a derive list opens with 'derives'; 'with' introduces labeled values"
    else mret [].

(** The methods of the derives, as callables of the shape. *)
Definition add_methods (name : string) (derives : list string) (s : Parser) : Parser :=
  foldl (λ s '(derive, method),
    if bool_decide (derive ∈ derives)
    then add_callable (name +:+ "." +:+ method) (method_labels method) s else s) s METHODS.

(** [Parser::record] *)
Definition record_declaration : P Stmt :=
  span ← previous_span;
  name ← consume_identifier "expected shape name";
  type_params ← type_parameters;
  edition_four ← matches_kind Tk_Holds;
  _ ← consume Tk_LeftBrace "expected 'holds {' after shape name";
  fields ← until_brace (λ fields,
    field_span ← peek_span;
    field_name ← consume_identifier "expected field name";
    typed ← matches_kind Tk_Is;
    if (typed : bool) then
      ty ← k_type_ref k;
      let fields := fields ++ [mkFieldDef field_name ty field_span] in
      if (edition_four : bool) then mret fields
      else
        comma ← matches_kind Tk_Comma;
        if (comma : bool) then mret fields
        else
          closed ← check Tk_RightBrace;
          if (closed : bool) then mret fields
          else error_here "expected ',' or '}' after shape field"
    else error_here "a shape field states its type with 'is'") [];
  _ ← consume Tk_RightBrace "expected '}' after shape";
  derives ← derive_list;
  _ ← updates (λ s, add_methods name derives (add_callable name (map field_name fields) s));
  mret (Stmt_Record name type_params fields derives span).

(** [Parser::nominal_type] *)
Definition nominal_type : P Stmt :=
  span ← previous_span;
  name ← consume_identifier "expected nominal type name";
  typed ← matches_kind Tk_Is;
  if (typed : bool) then
    representation ← k_type_ref k;
    _ ← optional_semicolon;
    _ ← updates (add_callable name ["value"]);
    mret (Stmt_Record name [] [mkFieldDef "value" representation span] [] span)
  else error_here "a nominal type names its representation with 'is'".

(** [Parser::enum_declaration] *)
Definition enum_declaration : P Stmt :=
  span ← previous_span;
  name ← consume_identifier "expected choice name";
  type_params ← type_parameters;
  edition_four ← matches_kind Tk_Holds;
  _ ← consume Tk_LeftBrace "expected 'holds {' after choice name";
  variants ← until_brace (λ variants,
    variant_span ← peek_span;
    uses_case ← matches_kind Tk_Case;
    variant_name ← consume_identifier "expected case name";
    carries ← matches_kind Tk_Carries;
    payload ←
      (if (carries : bool) then ty ← k_type_ref k; mret (Some ty)
       else
         paren ← matches_kind Tk_LeftParen;
         if (paren : bool) then
           payload ← k_type_ref k;
           _ ← consume Tk_RightParen "expected ')' after choice variant payload type";
           mret (Some payload)
         else mret None);
    let variants := variants ++ [mkVariantDef variant_name payload variant_span] in
    if (edition_four || uses_case : bool) then mret variants
    else
      comma ← matches_kind Tk_Comma;
      if (comma : bool) then mret variants
      else
        closed ← check Tk_RightBrace;
        if (closed : bool) then mret variants
        else error_here "expected ',' or '}' after choice variant") [];
  _ ← consume Tk_RightBrace "expected '}' after choice";
  match variants with
  | [] => throw (error_at "choice requires at least one variant" span)
  | _ => mret (Stmt_Enum name type_params variants span)
  end.

(** One member of [Parser::protocol_declaration]. *)
Definition protocol_member : P ProtocolMember :=
  _ ← consume Tk_Fun "expected 'define' before protocol member";
  member_span ← previous_span;
  member_name ← consume_identifier "expected protocol member name";
  params ← takes_clause "expected protocol parameter name"
             "a protocol input states its type with 'is'" "expected '}' after protocol inputs";
  _ ← consume Tk_Arrow "protocol members require a 'gives' type";
  value_type ← k_type_ref k;
  fails ← matches_kind Tk_Or;
  return_type ←
    (if (fails : bool)
     then problem_type ← k_type_ref k; mret (TypeRef_Result value_type problem_type member_span)
     else mret value_type);
  needed ← matches_kind Tk_Needs;
  needs ←
    (if (needed : bool) then
       comma_separated (λ needs,
         capability ← consume_identifier "expected capability after needs";
         if bool_decide (capability ∈ needs) then error_here "duplicate capability in needs list"
         else mret capability)
     else mret []);
  _ ← optional_semicolon;
  mret (mkProtocolMember member_name params return_type needs member_span).

(** [Parser::protocol_declaration] *)
Definition protocol_declaration : P Stmt :=
  span ← previous_span;
  name ← consume_identifier "expected protocol name";
  brace ← matches_kind Tk_LeftBrace;
  members ←
    (if (brace : bool) then
       members ← until_brace (λ members, m ← protocol_member; mret (members ++ [m])) [];
       _ ← consume Tk_RightBrace "expected '}' after protocol members";
       mret members
     else mret []);
  _ ← optional_semicolon;
  mret (Stmt_Protocol name members span).

(** [Parser::adoption_declaration] *)
Definition adoption_declaration : P Stmt :=
  span ← previous_span;
  protocol ← consume_identifier "expected protocol name after adopt";
  _ ← consume Tk_ForType "expected 'for' after protocol name";
  ty ← k_type_ref k;
  brace ← matches_kind Tk_LeftBrace;
  members ←
    (if (brace : bool) then
       members ← until_brace (λ members,
         member_span ← peek_span;
         member ← consume_identifier "expected protocol member name";
         set ← matches_kind Tk_Set;
         if (set : bool) then
           implementation ← consume_identifier "expected implementation function name";
           let members := members ++ [mkAdoptionMember member implementation member_span] in
           comma ← matches_kind Tk_Comma;
           if (comma : bool) then mret members
           else
             closed ← check Tk_RightBrace;
             if (closed : bool) then mret members
             else error_here "expected ',' or '}' after protocol mapping"
         else error_here "a protocol adoption maps a member with 'set'") [];
       _ ← consume Tk_RightBrace "expected '}' after protocol adoption";
       mret members
     else mret []);
  _ ← optional_semicolon;
  mret (Stmt_Adoption protocol ty members span).

(** [Parser::import_declaration] *)
Definition import_declaration : P Stmt :=
  span ← previous_span;
  token ← advance_token;
  match tok_kind token with
  | Tk_String path =>
      named ← matches_kind Tk_As;
      alias ←
        (if (named : bool)
         then a ← consume_identifier "expected a namespace name after 'as'"; mret (Some a)
         else mret None);
      _ ← optional_semicolon;
      mret (Stmt_Import path alias span)
  | _ => error_here "expected quoted use path"
  end.

(** [Parser::export_declaration] *)
Definition export_declaration : P Stmt :=
  span ← previous_span;
  brace ← check Tk_LeftBrace;
  if (brace : bool) then
    _ ← consume Tk_LeftBrace "expected '{' after expose";
    closed ← check Tk_RightBrace;
    names ← (if (closed : bool) then mret []
             else comma_separated (λ _, consume_identifier "expected exposed name"));
    _ ← consume Tk_RightBrace "expected '}' after exposed names";
    _ ← optional_semicolon;
    match names with
    | [] => throw (error_at "expose list cannot be empty" span)
    | _ => mret (Stmt_Export names span)
    end
  else
    declaration ← k_declaration k;
    match declared_statement_name declaration with
    | None => throw (error_at "expose marks a named declaration or lists names in braces" span)
    | Some name =>
        _ ← updates (add_pending (Stmt_Export [name] span));
        mret declaration
    end.

(** A run of doc comments. *)
Definition doc_comments : P Stmt :=
  span ← peek_span;
  lines ← repeated (λ lines,
    next ← peek_kind;
    match next with
    | Tk_DocComment text => _ ← advance_token; mret (true, lines ++ [text])
    | _ => mret (false, lines)
    end) [];
  mret (Stmt_Doc (join (str_of_chars [newline]) lines) span).

(** [Parser::declaration] *)
Definition parse_declaration : P Stmt :=
  next ← peek_kind;
  match next with
  | Tk_DocComment _ => doc_comments
  | _ =>
  keep ← matches_kind Tk_Let; if (keep : bool) then parse_binding false else
  change ← matches_kind Tk_Var; if (change : bool) then change_declaration else
  define ← matches_kind Tk_Fun; if (define : bool) then function_declaration else
  shape ← matches_kind Tk_Record; if (shape : bool) then record_declaration else
  nominal ← reads_state (λ s,
    Some (is_the_word "type" next
          && match p_tokens s !! S (p_current s) with
             | Some token => is_identifier (tok_kind token)
             | None => false
             end));
  if (nominal : bool) then _ ← advance_token; nominal_type else
  choice ← matches_kind Tk_Enum; if (choice : bool) then enum_declaration else
  protocol ← matches_kind Tk_Protocol; if (protocol : bool) then protocol_declaration else
  adopt ← matches_kind Tk_Adopt; if (adopt : bool) then adoption_declaration else
  use ← matches_kind Tk_Import; if (use : bool) then import_declaration else
  expose ← matches_kind Tk_Export; if (expose : bool) then export_declaration else
  parse_statement
  end.

(** ** Programs *)

(** One pass of [Parser::program]; the first list is the diagnostics. *)
Definition program_step (st : list NivError * list Stmt) : P (bool * (list NivError * list Stmt)) :=
  let '(errors, statements) := st in
  at_end ← at_eof;
  if (at_end : bool) then mret (false, st)
  else λ s,
    match parse_declaration s with
    | Some (Ok statement, s) =>
        Some (Ok (true, (errors, statements ++ statement :: p_pending s)),
              mkParser (p_tokens s) (p_current s) (p_depth s) (p_callables s) [])
    | Some (Err error, s) =>
        (_ ← synchronize; mret (true, (errors ++ [error], statements))) s
    | None => None
    end.

Definition Parser_new (tokens : list Token) : Parser := mkParser tokens 0 0 ∅ [].

(** [Parser::program] of a new parser. *)
Definition program (tokens : list Token) : option (result (list NivError) (list Stmt)) :=
  match repeated program_step ([], []) (Parser_new tokens) with
  | Some (Ok ([], statements), _) => Some (Ok statements)
  | Some (Ok (errors, _), _) => Some (Err errors)
  | Some (Err e, _) => Some (Err [e])
  | None => None
  end.
End parser.

(** ** Tying the knot *)

Section knot.
Context `{Unicode} (call_labels_get : string → option (list string)).

(** The methods for [n] nested calls. *)
Fixpoint knot (n : nat) : Knot :=
  match n with
  | O => mkKnot panic panic panic panic panic panic panic panic (λ _, None)
  | S n =>
    let k := knot n in
    mkKnot
      (parse_declaration call_labels_get k)
      (parse_statement call_labels_get k)
      (nested_syntax (k_assignment k))
      (nested_syntax (assignment_inner k))
      (nested_syntax (coalesce_inner call_labels_get k))
      (nested_syntax (unary_inner call_labels_get k))
      (nested_syntax (type_ref_inner k))
      (arm_pattern k)
      (program call_labels_get k)
  end.

(** How much recursion a text may ask for: every nested call takes a token or
    counts against the nesting limit, and a string may hold holes. *)
Definition token_weight (t : Token) : nat :=
  match tok_kind t with
  | Tk_String value => S (140 * length (chars_of_str value))
  | _ => 1
  end.
Definition weight (tokens : list Token) : nat := sum_list_with token_weight tokens.

(** [parse] *)
Definition parse (tokens : list Token) : option (result (list NivError) (list Stmt)) :=
  k_parse (knot (weight tokens + 130)) tokens.

(** [parse_expression] and [parse_type]: the first diagnostic of the scanner,
    or what the method returns when it has read all tokens. *)
Definition parse_all {A} (what : string) (m : Knot → P A) (source : string)
    : option (result NivError A) :=
  scanned ← scan source;
  match scanned with
  | Err (e :: _) => Some (Err e)
  | Err [] => None
  | Ok tokens =>
      match m (knot (weight tokens + 130)) (Parser_new tokens) with
      | Some (Ok a, s) =>
          match at_eof s with
          | Some (Ok true, _) => Some (Ok a)
          | Some (Ok false, _) =>
              Some (Err (NivError_new ("'" +:+ source +:+ "' is not a single " +:+ what) 1 1))
          | _ => None
          end
      | Some (Err e, _) => Some (Err e)
      | None => None
      end
  end.
Definition parse_expression : string → option (result NivError Expr) :=
  parse_all "expression" k_expression.
Definition parse_type : string → option (result NivError TypeRef) :=
  parse_all "type" k_type_ref.
End knot.
