(* ===== verification/ParserOk.v ===== *)
(** * The rules of the parser's methods

    A method is run on a state whose cursor is on a token of a list that ends
    with [Tk_Eof].  [ok m s Q]: the method returns from [s], keeps the tokens
    and the nesting depth, moves only forward, and a result satisfies [Q].  The
    rules below take one call of a method each; a loop needs a body that moves
    the cursor on. *)
From S2P Require Import Prelude Ast Values Text Lexer Parser.

(** ** States *)

Definition kind_at (s : Parser) : option TokenKind :=
  tok_kind <$> p_tokens s !! p_current s.

(** The tokens end with the end of the source. *)
Definition ended_by_eof (ts : list Token) : Prop :=
  ∃ l t, ts = l ++ [t] ∧ tok_kind t = Tk_Eof.

(** The cursor is on a token, and there is one before it if it is on the end. *)
Record fine (s : Parser) : Prop := {
  fine_eof : ended_by_eof (p_tokens s);
  fine_current : (p_current s < length (p_tokens s))%nat;
  fine_live : (0 < p_current s)%nat ∨ kind_at s ≠ Some Tk_Eof }.

Record steps (s s' : Parser) : Prop := {
  steps_tokens : p_tokens s' = p_tokens s;
  steps_depth : p_depth s' = p_depth s;
  steps_current : (p_current s ≤ p_current s')%nat;
  steps_inside : (p_current s' < length (p_tokens s'))%nat }.

(** What a nested call may still use up: the weight of the tokens left and the
    room under the nesting limit. *)
Definition mu (s : Parser) : nat :=
  weight (drop (p_current s) (p_tokens s)) + (N.to_nat MAX_PARSE_DEPTH - N.to_nat (p_depth s)).

Lemma steps_fine s s' : fine s → steps s s' → fine s'.
Proof.
  intros [He Hc Hl] [Ht Hd Hle Hin]. split; [by rewrite Ht|done|].
  destruct Hl as [Hl|Hl]; [left; lia|]. destruct (decide (p_current s = p_current s')) as [E|].
  - right. unfold kind_at in *. by rewrite Ht, <- E.
  - left. lia.
Qed.
Lemma steps_refl s : fine s → steps s s.
Proof. intros []. by split. Qed.
Lemma steps_trans s s1 s2 : steps s s1 → steps s1 s2 → steps s s2.
Proof. intros [] []. split; [congruence|congruence|lia|done]. Qed.

Lemma token_weight_pos t : (1 ≤ token_weight t)%nat.
Proof. unfold token_weight. destruct (tok_kind t); lia. Qed.

Lemma weight_app l l' : weight (l ++ l') = (weight l + weight l')%nat.
Proof. unfold weight. apply sum_list_with_app. Qed.
Lemma weight_length l : (length l ≤ weight l)%nat.
Proof. induction l as [|t l IH]; cbn; [lia|]. pose proof (token_weight_pos t). unfold weight in IH. lia. Qed.

(** Every token passed is worth one at least. *)
Lemma steps_mu s s' :
  steps s s' → (mu s' + (p_current s' - p_current s) ≤ mu s)%nat.
Proof.
  intros [Ht Hd Hc Hi]. unfold mu. rewrite Ht, Hd.
  rewrite <- (take_drop (p_current s' - p_current s) (drop (p_current s) (p_tokens s))) at 1.
  rewrite weight_app, drop_drop.
  replace (p_current s + (p_current s' - p_current s))%nat with (p_current s') by lia.
  pose proof (weight_length (take (p_current s' - p_current s) (drop (p_current s) (p_tokens s)))) as Hw.
  rewrite length_take, length_drop in Hw. rewrite Ht in Hi. lia.
Qed.

Lemma fine_token s : fine s → ∃ t, p_tokens s !! p_current s = Some t.
Proof. intros [_ Hc _]. by apply lookup_lt_is_Some. Qed.

(** The token under the cursor is not the last one unless it is the end. *)
Lemma next_inside s :
  fine s → kind_at s ≠ Some Tk_Eof → (S (p_current s) < length (p_tokens s))%nat.
Proof.
  intros [(l & t & Ht & Hk) Hc _] Hs. unfold kind_at in Hs. rewrite Ht in *.
  rewrite length_app in *. cbn in *.
  destruct (decide (p_current s = length l)) as [E|]; [|lia].
  rewrite E, list_lookup_middle in Hs by done. cbn in Hs. congruence.
Qed.

Lemma same_variant_eof k : same_variant k Tk_Eof = true ↔ k = Tk_Eof.
Proof. by destruct k. Qed.
Lemma at_eof_or_not s : kind_at s = Some Tk_Eof ∨ kind_at s ≠ Some Tk_Eof.
Proof. 
  destruct (kind_at s) as [k|]; [|by right]. destruct (same_variant k Tk_Eof) eqn:E.
  - apply same_variant_eof in E as ->. by left.
  - right. by intros [= ->].
Qed.
Lemma same_variant_sym k k' : same_variant k k' = same_variant k' k.
Proof. unfold same_variant. apply N.eqb_sym. Qed.

(** ** Methods that return *)

Definition ok {A} (m : P A) (s : Parser) (Q : A → Parser → Prop) : Prop :=
  ∃ r s', m s = Some (r, s') ∧ steps s s' ∧ match r with Ok a => Q a s' | Err _ => True end.

(** A result that took a token, unless there was none. *)
Definition advances {A} (s : Parser) (_ : A) (s' : Parser) : Prop :=
  kind_at s ≠ Some Tk_Eof → (p_current s < p_current s')%nat.
Definition anyhow {A} (_ : A) (_ : Parser) : Prop := True.

(** A method that starts anywhere, and one that starts after a token. *)
Definition Ready {A} (n : nat) (m : P A) : Prop :=
  ∀ s, fine s → (mu s < n)%nat → ok m s (advances s).
Definition Body {A} (n : nat) (m : P A) : Prop :=
  ∀ s, fine s → (0 < p_current s)%nat → (mu s < n)%nat → ok m s anyhow.

Section rules.
Context {A B : Type}.
Implicit Types (m : P A) (f : A → P B) (s : Parser).

Lemma returns_ret (a : A) s Q : fine s → Q a s → ok (mret a) s Q.
Proof. intros Hf HQ. exists (Ok a), s. split; [done|]. split; [by apply steps_refl|done]. Qed.
Lemma returns_throw e s Q : fine s → ok (throw (A:=A) e) s Q.
Proof. intros Hf. exists (Err e), s. split; [done|]. split; [by apply steps_refl|done]. Qed.

Lemma returns_weaken m s Q Q' :
  ok m s Q' → (∀ a s1, steps s s1 → Q' a s1 → Q a s1) → ok m s Q.
Proof.
  intros (r & s' & E & Hs & HQ) Himp. exists r, s'. split; [done|]. split; [done|].
  destruct r; [by apply Himp|done].
Qed.
Lemma returns_bind m f s Q Q' :
  ok m s Q' → (∀ a s1, steps s s1 → Q' a s1 → ok (f a) s1 Q) → ok (m ≫= f) s Q.
Proof.
  intros (r & s' & E & Hs & HQ) Hf. unfold mbind, P_bind, ok. rewrite E.
  destruct r as [a|e]; [|by exists (Err e), s'].
  destruct (Hf a s' Hs HQ) as (r & s2 & E2 & Hs2 & HQ2). exists r, s2.
  split; [done|]. split; [by eapply steps_trans|done].
Qed.
Lemma returns_tail m s Q : ok (m ≫= mret) s Q → ok m s Q.
Proof. unfold ok, mbind, P_bind. destruct (m s) as [[[a|e] s1]|]; done. Qed.
Lemma returns_read (g : Parser → option A) f s Q a :
  g s = Some a → ok (f a) s Q → ok (reads_state g ≫= f) s Q.
Proof. intros E H. unfold ok, mbind, P_bind, reads_state. by rewrite E. Qed.

End rules.

Lemma returns_peek_token {B} (f : Token → P B) s Q :
  fine s → (∀ t, p_tokens s !! p_current s = Some t → ok (f t) s Q) → ok (peek_token ≫= f) s Q.
Proof. intros Hf H. destruct (fine_token s Hf) as [t Ht]. eapply returns_read; [done|by apply H]. Qed.
Lemma returns_error_here {A} e s Q : fine s → ok (error_here (A:=A) e) s Q.
Proof.
  intros Hf. unfold error_here. destruct (fine_token s Hf) as [t Ht].
  unfold peek_token, ok, mbind, P_bind, reads_state. rewrite Ht.
  eexists _, s. split; [done|]. split; [by apply steps_refl|done].
Qed.
Lemma returns_peek_kind {B} (f : TokenKind → P B) s Q :
  fine s → (∀ k, kind_at s = Some k → ok (f k) s Q) → ok (peek_kind ≫= f) s Q.
Proof.
  intros Hf H. destruct (fine_token s Hf) as [t Ht].
  unfold peek_kind, peek_token, ok, mbind, P_bind, reads_state. rewrite Ht.
  apply H. unfold kind_at. by rewrite Ht.
Qed.
Lemma returns_peek_span {B} (f : Span → P B) s Q :
  fine s → (∀ sp, ok (f sp) s Q) → ok (peek_span ≫= f) s Q.
Proof.
  intros Hf H. destruct (fine_token s Hf) as [t Ht].
  unfold peek_span, peek_token, ok, mbind, P_bind, reads_state. rewrite Ht. apply H.
Qed.
Lemma returns_check {B} kd (f : bool → P B) s Q :
  fine s →
  (∀ b k, kind_at s = Some k → b = same_variant k kd → ok (f b) s Q) → ok (check kd ≫= f) s Q.
Proof.
  intros Hf H. destruct (fine_token s Hf) as [t Ht].
  unfold check, peek_kind, peek_token, ok, mbind, P_bind, reads_state. rewrite Ht.
  eapply H; [|done]. unfold kind_at. by rewrite Ht.
Qed.
Lemma returns_at_eof {B} (f : bool → P B) s Q :
  fine s →
  (kind_at s = Some Tk_Eof → ok (f true) s Q) → (kind_at s ≠ Some Tk_Eof → ok (f false) s Q) →
  ok (at_eof ≫= f) s Q.
Proof.
  intros Hf Ht He. apply (returns_check Tk_Eof); [done|]. intros [] k Hk Hv; symmetry in Hv.
  - apply same_variant_eof in Hv as ->. by apply Ht.
  - apply He. rewrite Hk. intros [= ->]. discriminate Hv.
Qed.
Lemma returns_next_kind {B} (f : TokenKind → P B) s Q :
  fine s → kind_at s ≠ Some Tk_Eof →
  (∀ t, p_tokens s !! S (p_current s) = Some t → ok (f (tok_kind t)) s Q) →
  ok (next_kind ≫= f) s Q.
Proof.
  intros Hf Hk H. destruct (lookup_lt_is_Some_2 (p_tokens s) (S (p_current s))) as [t Ht];
    [by apply next_inside|].
  eapply returns_read; [by rewrite Ht|]. by apply H.
Qed.
Lemma returns_previous {B} (f : Token → P B) s Q :
  fine s → (0 < p_current s)%nat →
  (∀ t, p_tokens s !! Nat.pred (p_current s) = Some t → ok (f t) s Q) → ok (previous ≫= f) s Q.
Proof.
  intros Hf H0 H. destruct (lookup_lt_is_Some_2 (p_tokens s) (Nat.pred (p_current s))) as [t Ht].
  { destruct Hf. lia. }
  eapply returns_read; [|by apply H]. destruct (p_current s); [lia|done].
Qed.
Lemma returns_previous_span {B} (f : Span → P B) s Q :
  fine s → (0 < p_current s)%nat → (∀ sp, ok (f sp) s Q) → ok (previous_span ≫= f) s Q.
Proof.
  intros Hf H0 H. destruct (lookup_lt_is_Some_2 (p_tokens s) (Nat.pred (p_current s))) as [t Ht].
  { destruct Hf. lia. }
  unfold previous_span, previous, ok, mbind, P_bind, reads_state.
  destruct (p_current s) eqn:E; [lia|]. cbn in Ht. rewrite Ht. apply H.
Qed.

Lemma returns_advance {B} (f : Token → P B) s Q :
  fine s →
  (∀ t s1, steps s s1 → (0 < p_current s1)%nat →
     (kind_at s ≠ Some Tk_Eof → p_tokens s !! p_current s = Some t ∧ p_current s1 = S (p_current s)) →
     ok (f t) s1 Q) →
  ok (advance_token ≫= f) s Q.
Proof.
  intros Hf H. destruct (fine_token s Hf) as [t Ht].
  set (R t (s1 : Parser) := (0 < p_current s1)%nat ∧ (kind_at s ≠ Some Tk_Eof →
    p_tokens s !! p_current s = Some t ∧ p_current s1 = S (p_current s))).
  apply returns_bind with R; [|intros a s1 Hs [? ?]; by apply H].
  unfold advance_token. apply returns_at_eof; [done| |]; intros Hk.
  - pose proof (steps_refl s Hf). destruct Hf as [He Hc [Hl|Hl]]; [|done].
    destruct (lookup_lt_is_Some_2 (p_tokens s) (Nat.pred (p_current s))) as [t' Ht']; [lia|].
    exists (Ok t'), s. unfold mbind, P_bind, previous, reads_state. cbn.
    destruct (p_current s) eqn:E; [lia|]. cbn in Ht'. rewrite Ht'.
    split; [done|]. split; [done|]. split; [lia|done].
  - pose proof (next_inside s Hf Hk).
    exists (Ok t), (set_current (S (p_current s)) s).
    unfold mbind, P_bind, previous, reads_state. cbn. rewrite Ht.
    split; [done|]. split; [split; cbn; (done || lia)|]. split; cbn; [lia|done].
Qed.

Lemma returns_matches_any {B} kds (f : bool → P B) s Q :
  fine s → existsb (same_variant Tk_Eof) kds = false →
  (∀ s1, steps s s1 → p_current s1 = S (p_current s) → kind_at s ≠ Some Tk_Eof →
     ok (f true) s1 Q) →
  ok (f false) s Q →
  ok (matches_any kds ≫= f) s Q.
Proof.
  intros Hf Heof Ht He.
  apply returns_bind with (λ (b : bool) s1, if b then p_current s1 = S (p_current s) ∧ kind_at s ≠ Some Tk_Eof else s1 = s).
  - unfold matches_any. apply returns_peek_kind; [done|]. intros k Hk.
    destruct (existsb (same_variant k) kds) eqn:E; [|by apply returns_ret].
    assert (kind_at s ≠ Some Tk_Eof) as Hne by (rewrite Hk; intros [= ->]; congruence).
    apply returns_advance; [done|]. intros t s1 Hs _ Hadv. apply returns_ret; [by eapply steps_fine|].
    by destruct Hadv as [_ ?].
  - intros [] s1 Hs; [intros []; by apply Ht|]. by intros ->.
Qed.
Lemma returns_matches {B} kd (f : bool → P B) s Q :
  fine s → same_variant Tk_Eof kd = false →
  (∀ s1, steps s s1 → p_current s1 = S (p_current s) → kind_at s ≠ Some Tk_Eof →
     ok (f true) s1 Q) →
  ok (f false) s Q →
  ok (matches_kind kd ≫= f) s Q.
Proof. intros Hf Hk. apply returns_matches_any; [done|]. cbn [existsb]. by rewrite Hk. Qed.

Lemma returns_consume {B} kd e (f : unit → P B) s Q :
  fine s → same_variant Tk_Eof kd = false →
  (∀ s1, steps s s1 → p_current s1 = S (p_current s) → kind_at s ≠ Some Tk_Eof → ok (f tt) s1 Q) →
  ok (consume kd e ≫= f) s Q.
Proof.
  intros Hf Heof H.
  apply returns_bind with (λ _ s1, p_current s1 = S (p_current s) ∧ kind_at s ≠ Some Tk_Eof);
    [|intros [] s1 Hs []; by apply H].
  unfold consume. apply returns_check; [done|]. intros [] k Hk Hv; [|by apply returns_error_here].
  assert (kind_at s ≠ Some Tk_Eof) as Hne by (rewrite Hk; intros [= ->]; congruence).
  apply returns_advance; [done|]. intros t s1 Hs _ Hadv. apply returns_ret; [by eapply steps_fine|].
  by destruct Hadv as [_ ?].
Qed.
Lemma returns_consume_identifier {B} e (f : string → P B) s Q :
  fine s →
  (∀ name s1, steps s s1 → p_current s1 = S (p_current s) → kind_at s ≠ Some Tk_Eof →
     ok (f name) s1 Q) →
  ok (consume_identifier e ≫= f) s Q.
Proof.
  intros Hf H.
  apply returns_bind with (λ _ s1, p_current s1 = S (p_current s) ∧ kind_at s ≠ Some Tk_Eof);
    [|intros name s1 Hs []; by apply H].
  unfold consume_identifier. apply returns_peek_kind; [done|]. intros k Hk.
  destruct (name_of k) eqn:E; [|by apply returns_error_here].
  assert (kind_at s ≠ Some Tk_Eof) as Hne by (rewrite Hk; intros [= ->]; discriminate E).
  apply returns_advance; [done|]. intros t s1 Hs _ Hadv. apply returns_ret; [by eapply steps_fine|].
  by destruct Hadv as [_ ?].
Qed.
Lemma returns_optional_semicolon {B} (f : unit → P B) s Q :
  fine s → (∀ s1, steps s s1 → ok (f tt) s1 Q) → ok (optional_semicolon ≫= f) s Q.
Proof.
  intros Hf H. apply returns_bind with anyhow; [|intros [] s1 Hs _; by apply H].
  unfold optional_semicolon. apply returns_matches; [done..| |]; [|by apply returns_ret].
  intros s1 Hs _ _. apply returns_ret; [by eapply steps_fine|done].
Qed.
(** A change of the callables or of the pending statements. *)
Definition book_keeping (g : Parser → Parser) : Prop :=
  ∀ s, p_tokens (g s) = p_tokens s ∧ p_depth (g s) = p_depth s ∧ p_current (g s) = p_current s.
Lemma returns_updates {B} (g : Parser → Parser) (f : unit → P B) s Q :
  fine s → book_keeping g → (∀ s1, steps s s1 → ok (f tt) s1 Q) → ok (updates g ≫= f) s Q.
Proof.
  intros Hs Hg H. apply returns_bind with anyhow; [|intros [] s1 ? _; by apply H].
  exists (Ok tt), (g s). split; [done|]. split; [|done]. destruct (Hg s) as (Ht & Hd & Hc).
  destruct Hs. split; [done..|by rewrite Hc|by rewrite Ht, Hc].
Qed.

(** A nested method runs with less room, and gives it back. *)
Lemma ready_nested {A} n (m : P A) : Ready n m → Ready (S n) (nested_syntax m).
Proof.
  intros Hm s Hf Hmu. unfold nested_syntax, enter_nested_syntax, ok, mbind, P_bind, reads_state.
  destruct (N.leb_spec MAX_PARSE_DEPTH (p_depth s)).
  - destruct (returns_error_here (A:=unit) "syntax nesting exceeds the supported limit" s (λ _ _, False) Hf)
      as ([[]|e] & s' & E & Hs & Hq); [done|]. rewrite E. by exists (Err e), s'.
  - unfold updates, leave_nested. set (s1 := set_depth (p_depth s + 1) s).
    assert (fine s1) by by destruct Hf.
    destruct (Hm s1) as (r & s2 & E & [Ht Hd Hc Hi] & HQ); [done| |].
    { unfold mu, s1, MAX_PARSE_DEPTH in *. cbn [set_depth p_tokens p_current p_depth]. lia. }
    rewrite E. cbn in Ht, Hd, Hc. destruct (N.eqb_spec (p_depth s2) 0); [lia|].
    eexists _, _. split; [done|]. split; [by split; cbn; [|lia|..]|]. by destruct r.
Qed.

Lemma Ready_mono {A} n n' (m : P A) : (n' ≤ n)%nat → Ready n m → Ready n' m.
Proof. intros Hn Hm s Hf Hmu. apply Hm; [done|lia]. Qed.
Lemma Body_mono {A} n n' (m : P A) : (n' ≤ n)%nat → Body n m → Body n' m.
Proof. intros Hn Hm s Hf H0 Hmu. apply Hm; [done..|lia]. Qed.

(** ** Loops *)

Lemma returns_loop_fuel {V} (body : V → P (bool * V)) n : ∀ v s,
  fine s → (length (p_tokens s) - p_current s < n)%nat →
  (∀ v s1, steps s s1 → ok (body v) s1 (λ r s2, r.1 = true → (p_current s1 < p_current s2)%nat)) →
  ok (loop_fuel n body v) s anyhow.
Proof.
  induction n as [|n IH]; intros v s Hf Hn Hb; [lia|]. cbn [loop_fuel].
  eapply returns_bind; [apply Hb; by apply steps_refl|]. intros [[] v'] s1 Hs Hp; cbn in Hp.
  - pose proof (steps_fine _ _ Hf Hs) as Hf1. apply IH; [done| |].
    + destruct Hs as [Ht _ _ _], Hf1. specialize (Hp eq_refl). rewrite Ht in *. lia.
    + intros v2 s2 Hs2. apply Hb. by eapply steps_trans.
  - apply returns_ret; [by eapply steps_fine|done].
Qed.
Lemma returns_repeated {V} (body : V → P (bool * V)) v s :
  fine s →
  (∀ v s1, steps s s1 → ok (body v) s1 (λ r s2, r.1 = true → (p_current s1 < p_current s2)%nat)) →
  ok (repeated body v) s anyhow.
Proof. intros Hf Hb. apply returns_loop_fuel; [done|lia|done]. Qed.

Lemma returns_repeated_first {V} (body : V → P (bool * V)) v s :
  fine s →
  (∀ v s1, steps s s1 → ok (body v) s1 (λ r s2, r.1 = true → (p_current s1 < p_current s2)%nat)) →
  ok (body v) s (λ _ s2, (p_current s < p_current s2)%nat) →
  ok (repeated body v) s (λ _ s2, (p_current s < p_current s2)%nat).
Proof.
  intros Hf Hb Hfirst.
  change (ok (loop_fuel (S (length (p_tokens s) - p_current s)) body v) s
             (λ _ s2, (p_current s < p_current s2)%nat)).
  cbn [loop_fuel]. eapply returns_bind; [exact Hfirst|].
  intros [[] v'] s1 Hs Hlt; pose proof (steps_fine _ _ Hf Hs) as Hf1; [|by apply returns_ret].
  eapply returns_weaken; [apply returns_loop_fuel; [done| |]|].
  - destruct Hs as [Ht _ _ _], Hf1. rewrite Ht in *. lia.
  - intros v2 s2 Hs2. apply Hb. by eapply steps_trans.
  - intros ? s2 [_ _ ? _] _. lia.
Qed.

Lemma returns_while_matches {V} kds (body : V → P V) v s :
  fine s → existsb (same_variant Tk_Eof) kds = false →
  (∀ v s1, steps s s1 → (0 < p_current s1)%nat → ok (body v) s1 anyhow) →
  ok (while_do (matches_any kds) body v) s anyhow.
Proof.
  intros Hf Hk Hb. apply returns_repeated; [done|]. intros v1 s1 Hs1.
  pose proof (steps_fine _ _ Hf Hs1) as Hf1.
  apply returns_matches_any; [done..| |]; [|by apply returns_ret]. intros s2 Hs2 Hc _.
  eapply returns_bind; [apply Hb; [by eapply steps_trans|lia]|]. intros v2 s3 Hs3 _.
  apply returns_ret; [eapply steps_fine, Hs3; by eapply steps_fine|]. destruct Hs3. cbn. lia.
Qed.

Lemma returns_comma_separated {A} (item : list A → P A) s :
  fine s → (∀ l s1, steps s s1 → ok (item l) s1 anyhow) → ok (comma_separated item) s anyhow.
Proof.
  intros Hf Hi. apply returns_repeated; [done|]. intros l s1 Hs1.
  eapply returns_bind; [by apply Hi|]. intros a s2 Hs2 _.
  assert (fine s2) by (eapply steps_fine, Hs2; by eapply steps_fine).
  apply returns_matches; [done..| |]; [|by apply returns_ret].
  intros s3 Hs3 Hc _. apply returns_ret; [by eapply steps_fine|]. destruct Hs2. cbn. lia.
Qed.

Lemma returns_until_brace {V} (body : V → P V) v s :
  fine s →
  (∀ v s1, steps s s1 → kind_at s1 ≠ Some Tk_Eof →
     ok (body v) s1 (λ _ s2, (p_current s1 < p_current s2)%nat)) →
  ok (until_brace body v) s anyhow.
Proof.
  intros Hf Hb. apply returns_repeated; [done|]. intros v1 s1 Hs1.
  pose proof (steps_fine _ _ Hf Hs1) as Hf1.
  apply returns_bind with (λ (b : bool) s2, s2 = s1 ∧ (b = true → kind_at s1 ≠ Some Tk_Eof)).
  - apply returns_check; [done|]. intros [] k _ _; [by apply returns_ret|].
    apply returns_at_eof; [done|..]; intros Hk; by apply returns_ret.
  - intros [] s2 _ [-> Hk]; [|by apply returns_ret].
    eapply returns_bind; [by apply Hb; [|apply Hk]|]. intros v2 s3 Hs3 Hlt.
    apply returns_ret; [by eapply steps_fine|done].
Qed.
