(* ===== verification/LexWeight.v ===== *)
(** * How much the tokens of a source weigh

    A token of a scan is worth at most 140 for each character of its text, and
    the end of the source one more; the tokens end with [Tk_Eof].  This is what
    bounds the recursion of the parser into the holes of a [text] literal: a
    hole is shorter than the literal it is in. *)
From S2P Require Import Prelude Ast Values Text Lexer Utf8 Grammar LexerOk LexReads LexScan Parser ParserOk.

Lemma keyword_plain text k : keyword text = Some k → is_string k = false.
Proof. unfold keyword. intros E. repeat (case_match; simplify_eq); done. Qed.
Lemma single_plain c k : single c = Some k → is_string k = false.
Proof. unfold single. intros E. repeat (case_match; simplify_eq); done. Qed.
Lemma number_plain float raw k : number_kind float raw = Some k → is_string k = false.
Proof.
  unfold number_kind. intros E. repeat (case_match; simplify_eq); by apply fmap_Some in E as (? & _ & ->).
Qed.

Lemma plain_weight k ln cl : is_string k = false → token_weight (mkToken k ln cl) = 1%nat.
Proof. by destruct k. Qed.
Lemma string_weight l ln cl :
  Forall encodable l → token_weight (mkToken (Tk_String (str_of_chars l)) ln cl) = S (140 * length l).
Proof. intros Hl. unfold token_weight. cbn [tok_kind]. by rewrite chars_of_str_of_chars. Qed.

Lemma escapes_encodable e c : escapes e c → encodable c.
Proof.
  intros He. destruct He as [| | | | |ds n c _ _ _ Hc]; [done..|].
  unfold encodable, from_u32 in *. change (2 ^ 21) with 2097152.
  destruct (N.ltb_spec n 0xD800); [simplify_eq/=; lia|].
  destruct (N.ltb_spec 0xDFFF n), (N.leb_spec n 0x10FFFF); simplify_eq/=; lia.
Qed.

(** A literal denotes no more characters than it is written with. *)
Lemma content_encodable hole d w m v :
  content hole d w m v → Forall encodable w → Forall encodable v ∧ (length v ≤ length w)%nat.
Proof.
  induction 1 as [|d w m v _ IH|d e c w m v He _ IH|d w m v _ _ IH|d w m v _ _ _ IH
    |d w m v _ _ IH|d n n' w m v _ _ _ _ IH|d c w m v _ _ _ _ IH]; intros Hw;
    rewrite ?Forall_cons, ?Forall_app, ?Forall_cons in Hw; cbn; [done|..];
    rewrite ?length_app; cbn; destruct_and?; (destruct IH as [IHv IHl]; [by eauto|]).
  - split; [by constructor|lia].
  - split; [constructor; [by eapply escapes_encodable|done]|lia].
  - split; [by repeat constructor|lia].
  - split; [by constructor|lia].
  - split; [by constructor|lia].
  - split; [|lia]. constructor; [done|]. apply Forall_app. split; [done|by constructor].
  - split; [by constructor|lia].
Qed.

Section weights.
Context `{Unicode}.

Lemma lexeme_weight prev w m k rest ln cl :
  lexeme prev w m k rest → Forall encodable w →
  (token_weight (mkToken k ln cl) ≤ 140 * length w)%nat.
Proof.
  intros Hlex Hw. destruct Hlex; rewrite ?plain_weight by
      (first [done|by eapply single_plain|by eapply number_plain]); cbn [length app ascii_chars]; try lia.
  - apply Forall_cons in Hw as [_ Hw]. apply Forall_app in Hw as [Hw _].
    rewrite string_weight, length_app by done. cbn. lia.
  - apply Forall_cons in Hw as [_ Hw]. apply Forall_app in Hw as [Hw _].
    destruct (content_encodable _ _ _ _ _ H2 Hw).
    rewrite string_weight, length_app by done. cbn. lia.
  - destruct (keyword _) eqn:E; cbn [default].
    + rewrite plain_weight by (by eapply keyword_plain). lia.
    + rewrite plain_weight by done. lia.
Qed.

Lemma reads_weight prev p l ts :
  reads prev p l ts → Forall encodable l →
  ended_by_eof ts ∧ (weight ts ≤ 140 * length l + 1)%nat.
Proof.
  induction 1 as [prev p|prev p g rest ts Hg _ IH|prev p w m k rest ts Hlex _ IH]; intros Hl.
  - split; [|done]. by exists [], (mkToken Tk_Eof p.1 p.2).
  - apply Forall_app in Hl as [_ Hl]. destruct (IH Hl) as [He Hw]. rewrite length_app. split; [done|lia].
  - apply Forall_app in Hl as [Hl1 Hl2]. destruct (IH Hl2) as [(l & t & -> & Ht) Hw]. split.
    + by eexists (_ :: l), t.
    + rewrite length_app. pose proof (lexeme_weight _ _ _ _ _ (move p m).1 p.2 Hlex Hl1).
      unfold weight in *. cbn [sum_list_with]. lia.
Qed.

(** The tokens of a hole. *)
Lemma scan_weight l ts :
  Forall encodable l → scan (str_of_chars l) = Some (Ok ts) →
  ended_by_eof ts ∧ (weight ts ≤ 140 * length l + 1)%nat.
Proof.
  intros Hl E. apply scan_iff_reads in E. rewrite chars_of_str_of_chars in E by done.
  by eapply reads_weight.
Qed.
Lemma scan_ended source ts : scan source = Some (Ok ts) → ended_by_eof ts.
Proof. intros E. apply scan_iff_reads in E. eapply reads_weight; [done|apply chars_encodable]. Qed.
End weights.
