(* ===== verification/ParserTotal.v ===== *)
(** * The parser returns

    Every method of the parser returns when the methods it calls back into do
    ([KnotOk]), takes a token unless it is at the end, and indexes no token
    that is not there.  The methods tied for [n] nested calls return from every
    state with [mu] below [n], so [parse] returns on the tokens of every
    source. *)
From S2P Require Import Prelude Ast Values Text Lexer Utf8 LexerOk LexWeight Parser ParserOk.

(** ** Changes that do not concern the tokens *)

Create HintDb book discriminated.
Lemma book_add_callable name ls : book_keeping (add_callable name ls).
Proof. done. Qed.
Lemma book_add_pending st : book_keeping (add_pending st).
Proof. done. Qed.
Lemma book_add_methods name ds ls :
  book_keeping (λ s, add_methods name ds (add_callable name ls s)).
Proof.
  intros s. unfold add_methods.
  assert (∀ ms s0, let s1 := foldl (λ s '(derive, method),
      if bool_decide (derive ∈ ds)
      then add_callable (name +:+ "." +:+ method) (method_labels method) s else s) s0 ms in
    p_tokens s1 = p_tokens s0 ∧ p_depth s1 = p_depth s0 ∧ p_current s1 = p_current s0) as Hms.
  { clear. induction ms as [|[d m] ms IH]; intros s0; [done|]. cbn [foldl].
    specialize (IH (if bool_decide (d ∈ ds)
      then add_callable (name +:+ "." +:+ m) (method_labels m) s0 else s0)).
    cbn in IH. destruct IH as (-> & -> & ->). by case_bool_decide. }
  destruct (Hms METHODS (add_callable name ls s)) as (-> & -> & ->). done.
Qed.
#[export] Hint Resolve book_add_callable book_add_pending book_add_methods : book.

(** ** Running a method *)

(** Replace a move by what it says of the state reached. *)
Ltac reach Hs :=
  lazymatch type of Hs with
  | steps ?s ?s1 =>
    lazymatch goal with Hf : fine s |- _ =>
      pose proof (steps_fine _ _ Hf Hs); pose proof (steps_mu _ _ Hs);
      pose proof (steps_current _ _ Hs); clear Hs
    end
  end.

Ltac post :=
  unfold advances, anyhow in *; cbn [fst snd] in *;
  first [ exact I
        | done
        | intros; repeat match goal with
            | H : ?x ≠ Some Tk_Eof → _, H' : ?x ≠ Some Tk_Eof |- _ => specialize (H H')
            end; first [discriminate | lia | congruence] ].

Create HintDb parser discriminated.
#[export] Hint Constants Opaque : parser.

Lemma use_ready {A} n (m : P A) s : Ready n m → fine s → (mu s < n)%nat → ok m s (advances s).
Proof. intros H ? ?. by apply H. Qed.
Lemma use_body {A} n (m : P A) s :
  Body n m → fine s → (0 < p_current s)%nat → (mu s < n)%nat → ok m s anyhow.
Proof. intros H ? ? ?. by apply H. Qed.

(** A call of a method known to the database. *)
Ltac call :=
  first [ eapply use_ready; [solve [eauto 1 with parser]|assumption|lia]
        | eapply use_body; [solve [eauto 1 with parser]|assumption|lia|lia] ].

(** The token under the cursor is of a kind that is not the end. *)
Ltac not_eof :=
  lazymatch goal with
  | H : ?x ≠ Some Tk_Eof |- ?x ≠ Some Tk_Eof => exact H
  | H : kind_at ?s = Some ?k, H' : true = same_variant ?k _ |- kind_at ?s ≠ Some Tk_Eof =>
      rewrite H; intros [= ->]; discriminate H'
  | H : kind_at ?s = Some _ |- kind_at ?s ≠ Some Tk_Eof => by rewrite H
  end.

Ltac run1 :=
  lazy beta zeta match;
  lazymatch goal with
  | |- ok (mret _) _ _ => apply returns_ret; [assumption|post]
  | |- ok (throw _) _ _ => apply returns_throw; assumption
  | |- ok (error_here _) _ _ => apply returns_error_here; assumption
  | |- ok (if ?b then _ else _) _ _ => destruct b
  | |- ok (match ?x with _ => _ end) _ _ => destruct x
  | |- ok (peek_span ≫= _) _ _ => apply returns_peek_span; [assumption|intros ?]
  | |- ok (previous_span ≫= _) _ _ => apply returns_previous_span; [assumption|lia|intros ?]
  | |- ok (previous ≫= _) _ _ => apply returns_previous; [assumption|lia|intros ? _]
  | |- ok (peek_kind ≫= _) _ _ => apply returns_peek_kind; [assumption|intros ? ?]
  | |- ok (peek_token ≫= _) _ _ => apply returns_peek_token; [assumption|intros ? ?]
  | |- ok (reads_state _ ≫= _) _ _ => eapply returns_read; [reflexivity|]
  | |- ok (check _ ≫= _) _ _ => apply returns_check; [assumption|intros ? ? ? ?]
  | |- ok (at_eof ≫= _) _ _ => apply returns_at_eof; [assumption|intros ?|intros ?]
  | |- ok (next_kind ≫= _) _ _ => apply returns_next_kind; [assumption|not_eof|intros ? _]
  | |- ok (advance_token ≫= _) _ _ =>
      let Hs := fresh in let Ha := fresh in
      apply returns_advance; [assumption|intros ? ? Hs ? Ha; reach Hs];
      try (destruct Ha as [? ?]; [not_eof|])
  | |- ok (matches_kind _ ≫= _) _ _ =>
      let Hs := fresh in
      apply returns_matches; [assumption|reflexivity|intros ? Hs ? ?; reach Hs|]
  | |- ok (matches_any _ ≫= _) _ _ =>
      let Hs := fresh in
      apply returns_matches_any; [assumption|reflexivity|intros ? Hs ? ?; reach Hs|]
  | |- ok (consume _ _ ≫= _) _ _ =>
      let Hs := fresh in
      apply returns_consume; [assumption|reflexivity|intros ? Hs ? ?; reach Hs]
  | |- ok (consume_identifier _ ≫= _) _ _ =>
      let Hs := fresh in
      apply returns_consume_identifier; [assumption|intros ? ? Hs ? ?; reach Hs]
  | |- ok (optional_semicolon ≫= _) _ _ =>
      let Hs := fresh in
      apply returns_optional_semicolon; [assumption|intros ? Hs; reach Hs]
  | |- ok (repeated _ _) _ anyhow =>
      let Hs := fresh in apply returns_repeated; [assumption|intros ? ? Hs; reach Hs]
  | |- ok (comma_separated _) _ anyhow =>
      let Hs := fresh in apply returns_comma_separated; [assumption|intros ? ? Hs; reach Hs]
  | |- ok (until_brace _ _) _ anyhow =>
      let Hs := fresh in apply returns_until_brace; [assumption|intros ? ? Hs ?; reach Hs]
  | |- ok (while_do (matches_any _) _ _) _ anyhow =>
      let Hs := fresh in
      apply returns_while_matches; [assumption|reflexivity|intros ? ? Hs ?; reach Hs]
  | |- ok (while_do (matches_kind _) _ _) _ anyhow =>
      let Hs := fresh in
      apply returns_while_matches; [assumption|reflexivity|intros ? ? Hs ?; reach Hs]
  | |- ok (updates _ ≫= _) _ _ =>
      let Hs := fresh in
      apply returns_updates; [assumption|solve [auto 1 with book]|intros ? Hs; reach Hs]
  | |- ok (consume_identifier _) _ _ => apply returns_tail
  | |- ok (consume _ _) _ _ => apply returns_tail
  | |- ok (_ ≫= _) _ _ =>
      let Hs := fresh in
      first [ eapply returns_bind; [call|intros ? ? Hs ?; reach Hs]
            | apply returns_bind with anyhow; [|intros ? ? Hs _; reach Hs] ]
  | |- ok _ _ ?Q =>
      tryif is_evar Q then fail else
      let Hs := fresh in
      first [ eapply returns_weaken; [call|intros ? ? Hs ?; reach Hs; post]
            | lazymatch Q with anyhow => fail | _ =>
                eapply (returns_weaken _ _ _ anyhow); [|intros ? ? Hs _; reach Hs; post] end ]
  end.
Ltac run := repeat run1.
Ltac head_of t := lazymatch t with ?f _ => head_of f | _ => t end.
Ltac start :=
  intros s; intros; lazymatch goal with |- ok ?m _ _ => let h := head_of m in unfold h end.
Ltac method := start; run.

(** ** Strings and holes *)

Lemma split_hole_app d i e l hole rest :
  split_hole d i e l = Some (hole, rest) → l = hole ++ ch "}" :: rest.
Proof.
  revert d i e hole rest. induction l as [|c l IH]; intros d i e hole rest; cbn [split_hole]; [done|].
  assert (Hpush : ∀ d i e, ('(hole, rest) ← split_hole d i e l; Some (c :: hole, rest)) = Some (hole, rest) →
    c :: l = hole ++ ch "}" :: rest).
  { intros d' i' e' ([h r] & E & [= <- <-])%bind_Some. cbn. f_equal. by eapply IH. }
  repeat (case_match; [|]); try apply Hpush. intros [= <- <-].
  by match goal with H : (c =? ch "}") = true |- _ => apply N.eqb_eq in H as -> end.
Qed.

(** A string under the cursor counts with all its characters. *)
Lemma string_mu s v :
  kind_at s = Some (Tk_String v) → (140 * length (chars_of_str v) < mu s)%nat.
Proof.
  unfold kind_at. intros (t & Ht & Hv)%fmap_Some. unfold mu. erewrite drop_S by done.
  unfold weight. cbn [sum_list_with]. unfold token_weight at 1. rewrite <- Hv. lia.
Qed.
Lemma returns_take_string {B} (f : string → P B) s v Q :
  fine s → kind_at s = Some (Tk_String v) →
  (∀ s1, steps s s1 → p_current s1 = S (p_current s) → ok (f v) s1 Q) → ok (take_string ≫= f) s Q.
Proof.
  intros Hf Hv H. apply returns_bind with (λ a s1, a = v ∧ p_current s1 = S (p_current s));
    [|intros a s1 Hs [-> Hc]; by apply H].
  unfold take_string. apply returns_advance; [done|]. intros t s1 Hs _ Hadv.
  destruct Hadv as [Ht Hc]; [by rewrite Hv|]. unfold kind_at in Hv. rewrite Ht in Hv.
  cbn in Hv. injection Hv as ->. apply returns_ret; [by eapply steps_fine|done].
Qed.
Lemma is_string_inv k : is_string k = true → ∃ v, k = Tk_String v.
Proof. destruct k; try done. by eexists. Qed.

Lemma returns_word_before {B} word next (f : bool → P B) s Q :
  fine s →
  (∀ t, kind_at s = Some (Tk_Identifier word) → p_tokens s !! S (p_current s) = Some t →
     next (tok_kind t) = true → ok (f true) s Q) →
  ok (f false) s Q →
  ok (word_before word next ≫= f) s Q.
Proof.
  intros Hf Ht Hfalse.
  apply returns_bind with (λ b s1, s1 = s ∧ (b = true → ∃ t, kind_at s = Some (Tk_Identifier word) ∧
    p_tokens s !! S (p_current s) = Some t ∧ next (tok_kind t) = true)).
  - unfold word_before. apply returns_peek_kind; [done|]. intros kd Hkd.
    destruct (is_the_word word kd) eqn:E; [|by apply returns_ret].
    destruct kd; try discriminate E. apply bool_decide_eq_true in E as ->.
    apply returns_next_kind; [done|by rewrite Hkd|]. intros t Hn. apply returns_ret; [done|].
    split; [done|]. intros ?. by exists t.
  - intros [] s1 _ [-> H]; [|done]. destruct (H eq_refl) as (t & ? & ? & ?). by eapply Ht.
Qed.

(** What is known of the methods a method calls back into. *)
Record KnotOk (n : nat) (k : Knot) : Prop := {
  ready_declaration : Ready n (k_declaration k);
  ready_statement : Ready n (k_statement k);
  ready_expression : Ready n (k_expression k);
  ready_assignment : Ready n (k_assignment k);
  ready_coalesce : Ready n (k_coalesce k);
  ready_unary : Ready n (k_unary k);
  ready_type_ref : Ready n (k_type_ref k);
  ready_pattern : Ready n (k_pattern k);
  ready_parse ts :
    ended_by_eof ts → (weight ts + 128 < n)%nat → is_Some (k_parse k ts) }.

Section methods.
Local Set Default Proof Using "All".
Context (n : nat) (k : Knot) (Hk : KnotOk n k).

Local Lemma rd_declaration : Ready n (k_declaration k). Proof. apply Hk. Qed.
Local Lemma rd_statement : Ready n (k_statement k). Proof. apply Hk. Qed.
Local Lemma rd_expression : Ready n (k_expression k). Proof. apply Hk. Qed.
Local Lemma rd_assignment : Ready n (k_assignment k). Proof. apply Hk. Qed.
Local Lemma rd_coalesce : Ready n (k_coalesce k). Proof. apply Hk. Qed.
Local Lemma rd_unary : Ready n (k_unary k). Proof. apply Hk. Qed.
Local Lemma rd_type_ref : Ready n (k_type_ref k). Proof. apply Hk. Qed.
Local Lemma rd_pattern : Ready n (k_pattern k). Proof. apply Hk. Qed.
Local Hint Resolve rd_declaration rd_statement rd_expression rd_assignment rd_coalesce rd_unary
  rd_type_ref rd_pattern : parser.

Lemma ready_type_ref_inner : Ready n (type_ref_inner k).
Proof.
  start. run1; (eapply (returns_bind _ _ _ _ (advances s)); [run|intros ? ? Hs ?; reach Hs; run]).
Qed.
Lemma body_shape_pattern_fields : Body n (shape_pattern_fields k).
Proof. method. Qed.
Local Hint Resolve body_shape_pattern_fields : parser.
Lemma ready_arm_pattern : Ready (S n) (arm_pattern k).
Proof. method. Qed.
Lemma ready_alternatives : Ready n (alternatives k).
Proof. method. Qed.
Lemma ready_type_parameters : Body n type_parameters.
Proof. method. Qed.
Lemma body_intent_arguments : Body n (intent_arguments k).
Proof. method. Qed.
Local Hint Resolve ready_alternatives ready_type_parameters body_intent_arguments : parser.

(** *** Expressions *)

Context `{Unicode}.

Lemma returns_text_hole l sp s :
  fine s → Forall encodable l → (140 * length l + 129 < n)%nat → ok (text_hole k l sp) s anyhow.
Proof.
  intros Hf Hl Hn. unfold text_hole. destruct (trim l); [by apply returns_throw|].
  destruct (scan_returns (str_of_chars l)) as [r Hr]. eapply returns_read; [done|].
  destruct r as [ts|es]; [|by apply returns_throw]. destruct (scan_weight l ts Hl Hr) as [He Hw].
  destruct (ready_parse _ _ Hk ts He) as [r Hp]; [lia|]. eapply returns_read; [done|]. run.
Qed.

Lemma returns_text_pieces fuel sp s : ∀ pieces literal l,
  fine s → (length l ≤ fuel)%nat → Forall encodable l → (140 * length l ≤ n)%nat →
  ok (text_pieces k fuel sp pieces literal l) s anyhow.
Proof.
  revert s. induction fuel as [|fuel IH]; intros s pieces literal l Hf Hfu Hl Hn.
  - destruct l; [|cbn in *; lia]. by apply returns_ret.
  - destruct l as [|c l]; [by apply returns_ret|]. cbn [text_pieces]. cbn in Hfu, Hn.
    apply Forall_cons in Hl as [_ Hl].
    assert (Hrec : ∀ p q, ok (text_pieces k fuel sp p q l) s anyhow)
      by (intros; apply IH; [done|lia|done|lia]).
    assert (Htail : ∀ p q, ok (text_pieces k fuel sp p q (tail l)) s anyhow).
    { intros. destruct l; [apply Hrec|]. apply Forall_cons in Hl as [_ Hl].
      cbn in *. apply IH; [done|lia|done|lia]. }
    destruct (_ && _); [apply Htail|]. destruct (_ && _); [apply Htail|].
    destruct (c =? ch "}"); [by apply returns_throw|]. destruct (c =? ch "{"); [|apply Hrec].
    destruct (split_hole 1 false false l) as [[hole rest]|] eqn:E; [|by apply returns_throw].
    apply split_hole_app in E as ->. apply Forall_app in Hl as [Hh Hr].
    apply Forall_cons in Hr as [_ Hr]. rewrite length_app in *. cbn in Hfu, Hn.
    eapply returns_bind; [apply returns_text_hole; [done..|lia]|]. intros e s1 Hs _.
    apply IH; [by eapply steps_fine|lia|done|lia].
Qed.

Lemma body_match_arm : Ready n (match_arm k).
Proof. method. Qed.
Local Hint Resolve body_match_arm : parser.
Lemma body_match_expression sp : Body n (match_expression k sp).
Proof. method. Qed.
Local Hint Resolve body_match_expression : parser.

(** A [raw] or [text] literal after its word. *)
Lemma ready_primary : Ready n (primary k).
Proof.
  start. run1. destruct (tok_kind t); try solve [run].
  apply returns_peek_kind; [done|]. intros next Hnext.
  destruct (bool_decide (name = "raw") && is_string next) eqn:Hraw.
  { apply andb_true_iff in Hraw as [_ [v ->]%is_string_inv].
    apply (returns_take_string _ _ v); [done..|]. intros s2 Hs2 ?. reach Hs2. run. }
  destruct (bool_decide (name = "text") && is_string next) eqn:Htext; [|run].
  apply andb_true_iff in Htext as [_ [v ->]%is_string_inv]. pose proof (string_mu _ _ Hnext).
  apply (returns_take_string _ _ v); [done..|]. intros s2 Hs2 ?. reach Hs2.
  unfold text_literal. eapply returns_bind.
  - apply returns_text_pieces; [done..|apply chars_encodable|lia].
  - intros ps s3 Hs3 _. reach Hs3. run.
Qed.
Local Hint Resolve ready_primary : parser.

Context (labels : string → option (list string)).
Lemma ready_validate_labels name ls sp : Body n (validate_labels labels name ls sp).
Proof. method. Qed.
Local Hint Resolve ready_validate_labels : parser.

Lemma ready_parse_call : Ready n (parse_call labels k).
Proof. method. unfold call_suffix. run. Qed.
Local Hint Resolve ready_parse_call : parser.
Lemma ready_unary_inner : Ready n (unary_inner labels k).
Proof. method. Qed.

Lemma ready_binary m kds :
  existsb (same_variant Tk_Eof) kds = false → Ready n m → Ready n (parse_binary m kds).
Proof.
  intros Hkds Hm. start. eapply returns_bind; [by apply Hm|]. intros e s1 Hs1 ?. reach Hs1.
  eapply returns_weaken; [|intros ? ? Hs _; reach Hs; post].
  apply returns_while_matches; [done..|]. intros e2 s2 Hs2 ?. reach Hs2. run1.
  eapply returns_bind; [by apply Hm; [|lia]|]. intros e3 s3 Hs3 ?. reach Hs3. run.
Qed.
Lemma ready_equality : Ready n (equality k).
Proof. repeat (apply ready_binary; [done|]). apply rd_unary. Qed.
Local Hint Resolve ready_equality : parser.
Lemma ready_and : Ready n (and_expr k).
Proof. method. Qed.
Local Hint Resolve ready_and : parser.
Lemma ready_or : Ready n (or_expr k).
Proof. method. Qed.
Local Hint Resolve ready_or : parser.
Lemma ready_pipeline : Ready n (pipeline labels k).
Proof. method. Qed.
Local Hint Resolve ready_pipeline : parser.
Lemma ready_coalesce_inner : Ready n (coalesce_inner labels k).
Proof. method. Qed.
Lemma ready_assignment_inner : Ready n (assignment_inner k).
Proof. method. Qed.

(** *** Statements *)

Lemma body_block_contents : Body n (block_contents k).
Proof. method. Qed.
Lemma ready_control_condition w : Ready n (control_condition k w).
Proof. method. Qed.
Lemma body_takes_clause a b c : Body n (takes_clause k a b c).
Proof. start. unfold inputs. run. Qed.
Local Hint Resolve body_block_contents ready_control_condition body_takes_clause : parser.

Lemma body_prepare_statement : Body n (prepare_statement labels k).
Proof. method. Qed.
Lemma body_print_statement : Body n (print_statement k).
Proof. method. Qed.
Lemma body_return_statement : Body n (return_statement k).
Proof. method. Qed.
Lemma body_else_clause : Body n (else_clause k).
Proof. method. Qed.
Local Hint Resolve body_else_clause : parser.
Lemma body_if_statement : Body n (if_statement k).
Proof. method. Qed.
Lemma body_while_statement : Body n (while_statement k).
Proof. method. Qed.
Lemma body_for_statement : Body n (for_statement k).
Proof. method. Qed.
Lemma body_using_statement : Body n (using_statement k).
Proof. method. Qed.
Local Hint Resolve body_prepare_statement body_print_statement body_return_statement
  body_if_statement body_while_statement body_for_statement body_using_statement : parser.

Lemma body_boundaries : Body n boundaries.
Proof. method. Qed.
Local Hint Resolve body_boundaries : parser.
Lemma body_promise_clause : Body n promise_clause.
Proof. method. Qed.
Local Hint Resolve body_promise_clause : parser.

(** A statement that begins with a contextual word. *)
Lemma returns_promise_statement : ∀ s,
  fine s → kind_at s ≠ Some Tk_Eof → (mu s < n)%nat → ok promise_statement s (advances s).
Proof. method. Qed.
Lemma returns_loop_exit_statement f : ∀ s,
  fine s → kind_at s ≠ Some Tk_Eof → ok (loop_exit_statement f) s (advances s).
Proof. method. Qed.
Lemma returns_generator_statement : ∀ s,
  fine s → kind_at s ≠ Some Tk_Eof → (mu s < n)%nat → ok (generator_statement k) s (advances s).
Proof. method. Qed.
Lemma returns_expand_statement : ∀ s,
  fine s → kind_at s ≠ Some Tk_Eof → (mu s < n)%nat → ok (expand_statement k) s (advances s).
Proof. method. Qed.
Lemma ready_expression_statement : Ready n (expression_statement k).
Proof. method. Qed.
Local Hint Resolve ready_expression_statement : parser.

(** The string after a contextual word. *)
Lemma string_after s s1 t :
  steps s s1 → p_current s1 = S (p_current s) → p_tokens s !! S (p_current s) = Some t →
  is_string (tok_kind t) = true → ∃ v, kind_at s1 = Some (Tk_String v).
Proof.
  intros [Ht _ _ _] Hc Hn [v Hv]%is_string_inv. exists v. unfold kind_at.
  by rewrite Ht, Hc, Hn, <- Hv.
Qed.

Lemma returns_sample_statement t : ∀ s,
  fine s → kind_at s ≠ Some Tk_Eof → p_tokens s !! S (p_current s) = Some t →
  is_string (tok_kind t) = true → (mu s < n)%nat → ok (sample_statement k) s (advances s).
Proof.
  start. apply returns_advance; [done|]. intros t1 s1 Hs1 _ [_ Hc1]; [done|].
  destruct (string_after s s1 t) as [v Hv]; [done..|]. reach Hs1. run1.
  apply (returns_take_string _ _ v); [done..|]. intros s2 Hs2 Hc2. reach Hs2. do 2 run1.
  apply returns_word_before; [done| |run]. intros t3 Hkd3 Hn3 Ht3.
  eapply (returns_bind _ _ _ _ anyhow); [|intros ? ? Hs _; reach Hs; run].
  apply returns_advance; [done|]. intros t4 s4 Hs4 _ [_ Hc4]; [by rewrite Hkd3|].
  edestruct string_after as [v' Hv']; [exact Hs4|done..|]. reach Hs4.
  apply (returns_take_string _ _ v'); [done..|]. intros s5 Hs5 Hc5. reach Hs5. run.
Qed.
Lemma returns_trusted_statement t : ∀ s,
  fine s → kind_at s ≠ Some Tk_Eof → p_tokens s !! S (p_current s) = Some t →
  is_string (tok_kind t) = true → ok trusted_statement s (advances s).
Proof.
  start. apply returns_advance; [done|]. intros t1 s1 Hs1 _ [_ Hc1]; [done|].
  destruct (string_after s s1 t) as [v Hv]; [done..|]. reach Hs1. run1.
  apply (returns_take_string _ _ v); [done..|]. intros s2 Hs2 Hc2. reach Hs2. run.
Qed.

Lemma ready_statement_inner : Ready n (statement_inner labels k).
Proof.
  start. do 8 (run1; [solve [run]|]).
  apply returns_word_before; [done| |].
  { intros t Hw Hn Ht. apply returns_promise_statement; [done|by rewrite Hw|done]. }
  apply returns_word_before; [done| |].
  { intros t Hw Hn Ht. eapply returns_sample_statement; [done|by rewrite Hw|done..]. }
  apply returns_word_before; [done| |].
  { intros t Hw Hn Ht. apply returns_generator_statement; [done|by rewrite Hw|done]. }
  apply returns_word_before; [done| |].
  { intros t Hw Hn Ht. apply returns_expand_statement; [done|by rewrite Hw|done]. }
  apply returns_word_before; [done| |].
  { intros t Hw Hn Ht. eapply returns_trusted_statement; [done|by rewrite Hw|done..]. }
  do 2 (apply returns_word_before; [done| |];
    [intros t Hw Hn Ht; apply returns_loop_exit_statement; [done|by rewrite Hw]|]).
  run.
Qed.
Lemma ready_parse_statement : Ready (S n) (parse_statement labels k).
Proof. apply ready_nested, ready_statement_inner. Qed.
Local Hint Resolve ready_parse_statement : parser.

(** *** Declarations *)

Lemma body_annotation_clause : Body n (annotation_clause k).
Proof. method. Qed.
Local Hint Resolve body_annotation_clause : parser.
Lemma body_parse_binding b : Body n (parse_binding k b).
Proof. method. Qed.
Lemma body_change_declaration : Body n (change_declaration k).
Proof. method. Qed.
Lemma body_capability_need l : Body n (capability_need l).
Proof. method. Qed.
Local Hint Resolve body_capability_need : parser.
Lemma body_function_declaration : Body n (function_declaration k).
Proof. method. Qed.
Lemma body_derive_list : Body n derive_list.
Proof. method. Qed.
Local Hint Resolve body_derive_list : parser.
Lemma body_record_declaration : Body n (record_declaration k).
Proof. method. Qed.
Lemma body_nominal_type : Body n (nominal_type k).
Proof. method. Qed.
Lemma body_enum_declaration : Body n (enum_declaration k).
Proof. method. Qed.
Lemma ready_protocol_member : Ready n (protocol_member k).
Proof. method. Qed.
Local Hint Resolve ready_protocol_member : parser.
Lemma body_protocol_declaration : Body n (protocol_declaration k).
Proof. method. Qed.
Lemma body_adoption_declaration : Body n (adoption_declaration k).
Proof. method. Qed.
Lemma body_import_declaration : Body n import_declaration.
Proof. method. Qed.
Lemma body_export_declaration : Body n (export_declaration k).
Proof. method. Qed.
Local Hint Resolve body_parse_binding body_change_declaration body_function_declaration
  body_record_declaration body_nominal_type body_enum_declaration body_protocol_declaration
  body_adoption_declaration body_import_declaration body_export_declaration : parser.

(** The first comment is taken. *)
Lemma returns_doc_comments text : ∀ s,
  fine s → kind_at s = Some (Tk_DocComment text) → ok doc_comments s (advances s).
Proof.
  start. run1. eapply returns_bind; [eapply returns_repeated_first|intros ? ? Hs Hc; reach Hs; run].
  - done.
  - intros l s1 Hs1. reach Hs1. run.
  - apply returns_peek_kind; [done|]. intros kd Hkd. simplify_eq. run.
Qed.

Lemma returns_doc_or {A} kd (m m' : P A) s Q :
  (∀ text, kd = Tk_DocComment text → ok m s Q) → ok m' s Q →
  ok (match kd with Tk_DocComment _ => m | _ => m' end) s Q.
Proof. destruct kd; eauto. Qed.

Lemma ready_parse_declaration : Ready (S n) (parse_declaration labels k).
Proof.
  start. apply returns_peek_kind; [done|]. intros next Hnext. apply returns_doc_or.
  { intros text ->. by apply (returns_doc_comments text). }
  do 4 (run1; [solve [run]|]). eapply returns_read; [done|].
  destruct (is_the_word "type" next && _) eqn:E; [|do 5 (run1; [solve [run]|]); run].
  apply andb_true_iff in E as [E _]. destruct next; try discriminate E. run.
Qed.

(** *** Programs *)

Lemma returns_synchronize s : fine s → ok synchronize s (advances s).
Proof.
  intros Hf. unfold synchronize. run1; [destruct (fine_live _ Hf); [run|done]|].
  lazy beta zeta match. apply returns_bind with (λ _ s1, (p_current s < p_current s1)%nat); [run|].
  intros ? ? Hs ?. reach Hs. run.
Qed.

(** A pass takes a token: the declaration does, or the diagnostic is at the
    end, or [synchronize] does. *)
Lemma returns_program_step st s :
  fine s → (mu s < S n)%nat →
  ok (program_step labels k st) s (λ r s2, r.1 = true → (p_current s < p_current s2)%nat).
Proof.
  intros Hf Hmu. destruct st as [es l]. unfold program_step. run1; lazy beta zeta match; [run|].
  destruct (ready_parse_declaration s Hf Hmu) as ([st|e] & s1 & E & Hs & Hadv).
  - unfold ok. rewrite E. eexists _, _. split; [done|]. split; [|intros _; by apply Hadv].
    by destruct Hs.
  - pose proof (steps_fine _ _ Hf Hs) as Hf1.
    assert (ok (_ ← synchronize; mret (true, (es ++ [e], l))) s1
      (λ r s2, r.1 = true → (p_current s < p_current s2)%nat)) as (r & s2 & E2 & Hs2 & HQ).
    { eapply returns_bind; [by apply returns_synchronize|]. intros [] s2 Hs2 Ha.
      apply returns_ret; [by eapply steps_fine|]. intros _.
      destruct (decide (p_current s = p_current s1)) as [Ec|].
      - rewrite Ec. apply Ha. unfold kind_at in *. by rewrite (steps_tokens _ _ Hs), <- Ec.
      - destruct Hs, Hs2. lia. }
    unfold ok. rewrite E. exists r, s2. split; [exact E2|]. split; [by eapply steps_trans|done].
Qed.

Lemma program_returns ts :
  ended_by_eof ts → (weight ts + 128 < S n)%nat → is_Some (program labels k ts).
Proof.
  intros He Hw. set (s := Parser_new ts).
  assert (is_Some (repeated (program_step labels k) ([], []) s)) as [[r s'] E].
  { destruct (at_eof_or_not s) as [Heof|Hne].
    - unfold repeated. cbn [loop_fuel]. unfold program_step.
      unfold at_eof, peek_kind, peek_token, mbind, P_bind, reads_state.
      unfold kind_at in Heof. apply fmap_Some in Heof as (t & Ht & Hk'). rewrite Ht.
      cbn. rewrite <- Hk'. by eexists.
    - assert (fine s) as Hf.
      { split; [done| |by right]. destruct He as (l & t & -> & _). cbn. rewrite length_app. cbn. lia. }
      assert (mu s < S n)%nat by (unfold mu, s, Parser_new, MAX_PARSE_DEPTH; cbn [p_current p_tokens p_depth]; rewrite drop_0; lia).
      destruct (returns_repeated (program_step labels k) ([], []) s Hf) as (r & s' & E & _); [|by eexists].
      intros st s1 Hs. reach Hs. apply returns_program_step; [done|lia]. }
  unfold program. fold s. rewrite E. destruct r as [[[|? ?] ?]|?]; by eexists.
Qed.
End methods.

(** ** The knot *)

Section knot.
Context `{Unicode} (labels : string → option (list string)).

Lemma knot_ok n : KnotOk n (knot labels n).
Proof.
  induction n as [|n IH]; [split; try (intros s ? ?; lia); intros; lia|].
  split; cbn [knot k_declaration k_statement k_expression k_assignment k_coalesce k_unary k_type_ref
    k_pattern k_parse].
  - by apply ready_parse_declaration.
  - by apply ready_parse_statement.
  - apply ready_nested, ready_assignment, IH.
  - by apply ready_nested, ready_assignment_inner.
  - by apply ready_nested, ready_coalesce_inner.
  - by apply ready_nested, ready_unary_inner.
  - by apply ready_nested, ready_type_ref_inner.
  - by apply ready_arm_pattern.
  - by apply program_returns.
Qed.

Lemma parse_returns ts : ended_by_eof ts → is_Some (parse labels ts).
Proof. intros He. apply (ready_parse _ _ (knot_ok _)); [done|lia]. Qed.

(** C33: parsing ends on the tokens of every source and indexes no token that
    is not there: [parse] returns a program or diagnostics whenever the scan
    of a source gives tokens.  Recursion is bounded by the tokens, the
    characters of the strings (a [text] literal holds programs) and the
    nesting limit, and every loop takes a token each time. *)
Theorem parse_total source ts :
  scan source = Some (Ok ts) → is_Some (parse labels ts).
Proof. intros Hs. by eapply parse_returns, scan_ended. Qed.
End knot.

Lemma parse_total_witness :
  let ts := match scan (H := ascii_tables) "show(1)" with Some (Ok ts) => ts | _ => [] end in
  length ts = 5%nat ∧ is_Some (parse (H := ascii_tables) (λ _, None) ts).
Proof.
  split; [vm_compute; reflexivity|].
  apply (parse_total (H := ascii_tables) (λ _, None) "show(1)"). vm_compute. reflexivity.
Defined.
