(* ===== verification/ParserWf.v ===== *)
(** * What the parser builds

    Every expression the parser builds is one the compiler takes: operators
    are operators of their node, a pipeline ends in something callable, and no
    vector is longer than the tokens it was read from.  The loop exits are the
    one condition of [CompileOk] the parser leaves open: [stop] and [skip] are
    statements wherever they stand. *)
From S2P Require Import Prelude Ast Values Text Lexer Utf8 Grammar LexerOk LexReads LexScan LexWeight Bytecode Codegen Verifier CompileOk Parser ParserOk ParserTotal.

(** ** Sound syntax *)

(** [wf_stmt] without the condition on loop exits, and that condition. *)
Fixpoint sound_stmt (st : Stmt) : bool :=
  match st with
  | Stmt_Prepare _ _ e _ | Stmt_Let _ _ _ e _ | Stmt_LetPattern _ e _
  | Stmt_Expression e | Stmt_Print e _ => wf_expr e
  | Stmt_Return value _ => match value with Some e => wf_expr e | None => true end
  | Stmt_Block ss _ => forallb sound_stmt ss
  | Stmt_If c t e _ | Stmt_IfCarries c _ t e _ =>
      wf_expr c && sound_stmt t && match e with Some e => sound_stmt e | None => true end
  | Stmt_While c b _ | Stmt_For _ _ c b _ | Stmt_Using _ c b _ => wf_expr c && sound_stmt b
  | Stmt_Sample _ b _ _ | Stmt_Function _ _ _ _ _ _ b _ | Stmt_Module _ b _ _ =>
      forallb sound_stmt b
  | _ => true
  end.
Fixpoint exits_placed (in_loop : bool) (st : Stmt) : bool :=
  match st with
  | Stmt_Stop _ | Stmt_Skip _ => in_loop
  | Stmt_Block ss _ => forallb (exits_placed in_loop) ss
  | Stmt_If _ t e _ | Stmt_IfCarries _ _ t e _ =>
      exits_placed in_loop t && match e with Some e => exits_placed in_loop e | None => true end
  | Stmt_While _ b _ | Stmt_For _ _ _ b _ => exits_placed true b
  | Stmt_Using _ _ b _ => exits_placed false b
  | Stmt_Sample _ b _ _ | Stmt_Function _ _ _ _ _ _ b _ | Stmt_Module _ b _ _ =>
      forallb (exits_placed false) b
  | _ => true
  end.

Lemma forallb_split {A} (f g h : A → bool) l :
  Forall (λ x, h x = f x && g x) l → forallb h l = forallb f l && forallb g l.
Proof.
  induction 1 as [|x l Hx _ IH]; [done|]. cbn. rewrite Hx, IH.
  destruct (f x), (g x), (forallb f l); done.
Qed.
Lemma wf_stmt_split st : ∀ il, wf_stmt il st = sound_stmt st && exits_placed il st.
Proof.
  induction st as [st Hleaf|ss s IH|c t e s IHt IHe|c ps t e s IHt IHe|c b s IHb
    |ti b sh s IHb|n p i b s IHb|n r b s IHb|n tp ps rt ne cn b s IHb|n b ex s IHb]
    using Stmt_nested_ind; intros il; cbn.
  - destruct st; try done; cbn in *; try (by rewrite andb_true_r); try (by destruct il).
  - apply forallb_split. eapply Forall_impl; [done|]. naive_solver.
  - rewrite IHt. destruct e; [rewrite IHe|]; rewrite ?andb_true_r, ?andb_assoc; [|done].
    by rewrite <- !andb_assoc, (andb_comm (exits_placed il t)), <- !andb_assoc, (andb_comm (exits_placed il t)).
  - rewrite IHt. destruct e; [rewrite IHe|]; rewrite ?andb_true_r, ?andb_assoc; [|done].
    by rewrite <- !andb_assoc, (andb_comm (exits_placed il t)), <- !andb_assoc, (andb_comm (exits_placed il t)).
  - by rewrite IHb, andb_assoc.
  - apply forallb_split. eapply Forall_impl; [done|]. naive_solver.
  - by rewrite IHb, andb_assoc.
  - by rewrite IHb, andb_assoc.
  - apply forallb_split. eapply Forall_impl; [done|]. naive_solver.
  - apply forallb_split. eapply Forall_impl; [done|]. naive_solver.
Qed.

(** What a value of the parser promises, by its type. *)
Class Sound (A : Type) := sound : A → Prop.
#[export] Instance sound_any A : Sound A | 100 := λ _, True.
#[export] Instance sound_Expr : Sound Expr := λ e, wf_expr e = true.
#[export] Instance sound_TextPiece : Sound TextPiece := λ p, wf_piece p = true.
#[export] Instance sound_MatchArm : Sound MatchArm := λ a, wf_arm a = true.
#[export] Instance sound_Stmt : Sound Stmt := λ st, sound_stmt st = true.
#[export] Instance sound_option `{Sound A} : Sound (option A) := λ o,
  match o with Some a => sound a | None => True end.
#[export] Instance sound_list `{Sound A} : Sound (list A) := λ l, Forall sound l.
#[export] Instance sound_pair `{Sound A, Sound B} : Sound (A * B) := λ p, sound p.1 ∧ sound p.2.

Section yields.
Context (B : nat) (HB : (Z.of_nat B + 8 ≤ isize_max)%Z).

(** The tokens weigh at most [B], and what waits to be added is sound. *)
Definition fit (s : Parser) : Prop := (weight (p_tokens s) ≤ B)%nat ∧ Forall sound (p_pending s).

Definition yields_at {A} (s : Parser) (Φ : A → Prop) (m : P A) : Prop :=
  ∀ r s', m s = Some (r, s') → fit s' ∧ match r with Ok a => Φ a | Err _ => True end.
Definition yields {A} (Φ : A → Prop) (m : P A) : Prop := ∀ s, fit s → yields_at s Φ m.

Lemma yield_ret {A} (Φ : A → Prop) a : Φ a → yields Φ (mret a).
Proof. by intros ? s Hf r s' [= <- <-]. Qed.
Lemma yields_throw {A} (Φ : A → Prop) e : yields Φ (throw e).
Proof. by intros s Hf r s' [= <- <-]. Qed.
Lemma yields_panic {A} (Φ : A → Prop) : yields Φ panic.
Proof. done. Qed.
Lemma yields_weaken {A} (Φ Ψ : A → Prop) m : yields Ψ m → (∀ a, Ψ a → Φ a) → yields Φ m.
Proof.
  intros Hm Himp s Hf r s' E. destruct (Hm s Hf r s' E) as [? Hr]. split; [done|].
  destruct r; [by apply Himp|done].
Qed.
Lemma yields_at_bind {A C} (Φ : C → Prop) (Ψ : A → Prop) s m f :
  yields_at s Ψ m → (∀ a, Ψ a → yields Φ (f a)) → yields_at s Φ (m ≫= f).
Proof.
  intros Hm Hf r s' E. unfold mbind, P_bind in E.
  destruct (m s) as [[[a|e] s1]|] eqn:Em; [| |done].
  - destruct (Hm _ _ Em) as [? Ha]. by eapply Hf.
  - injection E as <- <-. by destruct (Hm _ _ Em).
Qed.
Lemma yield_bind {A C} (Φ : C → Prop) (Ψ : A → Prop) m f :
  yields Ψ m → (∀ a, Ψ a → yields Φ (f a)) → yields Φ (m ≫= f).
Proof. intros Hm Hf s Hs. eapply yields_at_bind; [by apply Hm|done]. Qed.
Lemma yields_reads {A} (Φ : A → Prop) g :
  (∀ s a, fit s → g s = Some a → Φ a) → yields Φ (reads_state g).
Proof.
  intros H s Hf r s' E. unfold reads_state in E. destruct (g s) eqn:Eg; [|done].
  injection E as <- <-. eauto.
Qed.
Lemma yields_updates (Φ : unit → Prop) g :
  (∀ s, fit s → fit (g s)) → Φ tt → yields Φ (updates g).
Proof. intros Hg Ht s Hf r s' [= <- <-]. eauto. Qed.

Lemma token_fit s i t : fit s → p_tokens s !! i = Some t → (token_weight t ≤ B)%nat.
Proof.
  intros [Hw _] Ht. rewrite <- (take_drop_middle _ _ _ Ht), weight_app in Hw. unfold weight in Hw. cbn [sum_list_with] in Hw. lia.
Qed.
Definition light (t : Token) : Prop := (token_weight t ≤ B)%nat.

Lemma yields_peek_token : yields light peek_token.
Proof. apply yields_reads. intros s a Hf. by apply token_fit. Qed.
Lemma yields_previous : yields light previous.
Proof.
  apply yields_reads. intros s a Hf. destruct (p_current s); [done|]. by apply token_fit.
Qed.
Lemma yields_peek_kind : yields (λ _, True) peek_kind.
Proof. eapply yield_bind; [apply yields_peek_token|]. intros. by apply yield_ret. Qed.
Lemma yields_at_eof : yields (λ _, True) at_eof.
Proof. eapply yield_bind; [apply yields_peek_kind|]. intros. by apply yield_ret. Qed.
Lemma yields_error_here {A} (Φ : A → Prop) e : yields Φ (error_here e).
Proof. eapply yield_bind; [apply yields_peek_token|]. intros. by apply yields_throw. Qed.
Lemma yields_advance : yields light advance_token.
Proof.
  eapply yield_bind; [apply yields_at_eof|]. intros b _.
  eapply (yield_bind _ (λ _, True)); [|intros; apply yields_previous].
  destruct b; [by apply yield_ret|]. by apply yields_updates.
Qed.

(** A loop keeps an invariant of its accumulator. *)
Lemma yields_loop_fuel {V} (I : V → Prop) n (body : V → P (bool * V)) : ∀ v,
  I v → (∀ v, I v → yields (λ r, I r.2) (body v)) → yields I (loop_fuel n body v).
Proof.
  induction n as [|n IH]; intros v Hv Hb; cbn [loop_fuel]; [apply yields_panic|].
  eapply yield_bind; [by apply Hb|]. intros [[] v'] Hv'; [by apply IH|by apply yield_ret].
Qed.
Lemma yields_repeated {V} (I : V → Prop) (body : V → P (bool * V)) v :
  I v → (∀ v, I v → yields (λ r, I r.2) (body v)) → yields I (repeated body v).
Proof. intros Hv Hb s Hf. by apply yields_loop_fuel. Qed.
Lemma yields_while_do {V} (I : V → Prop) cond (body : V → P V) v :
  I v → yields (λ _, True) cond → (∀ v, I v → yields I (body v)) → yields I (while_do cond body v).
Proof.
  intros Hv Hc Hb. apply yields_repeated; [done|]. intros v1 Hv1.
  eapply yield_bind; [done|]. intros [] _; [|by apply yield_ret].
  eapply yield_bind; [by apply Hb|]. intros v2 Hv2. by apply yield_ret.
Qed.

(** Something that grows by one per pass is no larger than the tokens. *)
Lemma yields_loop_size {V} (size : V → nat) n (body : V → P (bool * V)) : ∀ v,
  (∀ v, yields (λ r, (size r.2 ≤ S (size v))%nat) (body v)) →
  yields (λ v', (size v' ≤ size v + n)%nat) (loop_fuel n body v).
Proof.
  induction n as [|n IH]; intros v Hb; cbn [loop_fuel]; [apply yields_panic|].
  eapply yield_bind; [by apply Hb|]. intros [[] v'] Hv'; cbn in Hv'.
  - eapply yields_weaken; [by apply IH|]. cbn. intros. lia.
  - apply yield_ret. cbn. lia.
Qed.
Lemma yields_repeated_size {V} (size : V → nat) (body : V → P (bool * V)) v :
  (∀ v, yields (λ r, (size r.2 ≤ S (size v))%nat) (body v)) →
  yields (λ v', (size v' ≤ size v + S B)%nat) (repeated body v).
Proof.
  intros Hb s Hf r s' E. destruct (yields_loop_size size _ body v Hb s Hf _ _ E) as [? Hr].
  split; [done|]. destruct r; [|done]. pose proof (weight_length (p_tokens s)).
  destruct Hf as [Hw _]. lia.
Qed.
Lemma yields_and {A} (Φ Ψ : A → Prop) m : yields Φ m → yields Ψ m → yields (λ a, Φ a ∧ Ψ a) m.
Proof.
  intros H1 H2 s Hf r s' E. destruct (H1 s Hf r s' E) as [? HΦ], (H2 s Hf r s' E) as [_ HΨ].
  split; [done|]. by destruct r.
Qed.

Lemma yields_nested {A} (Φ : A → Prop) m : yields Φ m → yields Φ (nested_syntax m).
Proof.
  intros Hm. eapply (yield_bind _ (λ _, True)).
  - eapply (yield_bind _ (λ _, True)); [by apply yields_reads|]. intros d _.
    destruct (MAX_PARSE_DEPTH <=? d); [apply yields_error_here|by apply yields_updates].
  - intros _ _ s Hf r s' E. unfold leave_nested in E. destruct (m s) as [[r1 s1]|] eqn:Em; [|done].
    destruct (p_depth s1 =? 0); [done|]. injection E as <- <-. by destruct (Hm s Hf _ _ Em).
Qed.

(** A token that matched is the one before the cursor. *)
Definition matched (kds : list TokenKind) (t : Token) : Prop :=
  existsb (same_variant (tok_kind t)) kds = true.
Lemma yields_matched {A} (Φ : A → Prop) kds f :
  existsb (same_variant Tk_Eof) kds = false →
  (∀ s t, fit s → previous s = Some (Ok t, s) → matched kds t → yields_at s Φ (f true)) →
  yields Φ (f false) → yields Φ (matches_any kds ≫= f).
Proof.
  intros Heof Ht Hfalse s Hf r s' E. unfold matches_any, peek_kind, peek_token in E.
  unfold mbind, P_bind, reads_state in E. destruct (p_tokens s !! p_current s) as [t|] eqn:Hlook; [|done].
  cbn in E. destruct (existsb (same_variant (tok_kind t)) kds) eqn:Hm; [|by eapply Hfalse].
  assert (same_variant (tok_kind t) Tk_Eof = false) as Hne.
  { destruct (same_variant (tok_kind t) Tk_Eof) eqn:Hv; [|done].
    apply same_variant_eof in Hv. rewrite Hv in Hm. congruence. }
  unfold advance_token, at_eof, peek_kind, peek_token, mbind, P_bind, reads_state in E.
  rewrite Hlook in E. cbn in E. fold (same_variant (tok_kind t) Tk_Eof) in E.
  rewrite Hne in E. unfold updates, previous, reads_state in E. cbn in E. rewrite Hlook in E.
  eapply Ht; [..|done|exact E]; [done|]. unfold previous, reads_state. cbn. by rewrite Hlook.
Qed.

Lemma yields_matches_any kds : yields (λ _, True) (matches_any kds).
Proof.
  eapply yield_bind; [apply yields_peek_kind|]. intros k _.
  destruct (existsb _ _); [|by apply yield_ret].
  eapply yield_bind; [apply yields_advance|]. intros. by apply yield_ret.
Qed.
Lemma yields_until_brace {V} (I : V → Prop) (body : V → P V) v :
  I v → (∀ v, I v → yields I (body v)) → yields I (until_brace body v).
Proof.
  intros Hv Hb. apply yields_while_do; [done| |done].
  eapply (yield_bind _ (λ _, True)); [|intros [] _; [by apply yield_ret|]].
  - eapply yield_bind; [apply yields_peek_kind|]. intros. by apply yield_ret.
  - eapply yield_bind; [apply yields_at_eof|]. intros. by apply yield_ret.
Qed.
Lemma yields_comma_separated `{Sound A} (item : list A → P A) :
  (∀ l, yields sound (item l)) → yields sound (comma_separated item).
Proof.
  intros Hi. apply (yields_repeated sound); [constructor|]. intros l Hl.
  eapply yield_bind; [apply Hi|]. intros a Ha.
  eapply yield_bind; [apply yields_matches_any|]. intros b _. apply yield_ret.
  cbn. apply Forall_app_2; [done|by constructor].
Qed.

(** The lengths of what a loop collects. *)
Lemma yields_comma_size {A} (item : list A → P A) :
  (∀ l, yields (λ _, True) (item l)) →
  yields (λ l, (length l ≤ S B)%nat) (comma_separated item).
Proof.
  intros Hi. apply (yields_repeated_size length). intros l.
  eapply yield_bind; [apply Hi|]. intros a _.
  eapply yield_bind; [apply yields_matches_any|]. intros b _. apply yield_ret.
  cbn. rewrite length_app. cbn. lia.
Qed.
Lemma yields_until_brace_size {V} (size : V → nat) (body : V → P V) v :
  (∀ v, yields (λ v', (size v' ≤ S (size v))%nat) (body v)) →
  yields (λ v', (size v' ≤ size v + S B)%nat) (until_brace body v).
Proof.
  intros Hb. apply yields_repeated_size. intros v1.
  eapply (yield_bind _ (λ _, True)).
  - eapply (yield_bind _ (λ _, True)); [|intros [] _; [by apply yield_ret|]].
    + eapply yield_bind; [apply yields_peek_kind|]. intros. by apply yield_ret.
    + eapply yield_bind; [apply yields_at_eof|]. intros. by apply yield_ret.
  - intros [] _; [|apply yield_ret; cbn; lia].
    eapply yield_bind; [apply Hb|]. intros v2 Hv2. by apply yield_ret.
Qed.
Lemma vec_ok_short {A} (l : list A) : (length l ≤ B + 4)%nat → vec_ok l = true.
Proof using HB. intros Hl. unfold vec_ok, len. apply Z.leb_le. lia. Qed.
End yields.

(** ** Running a method *)

Lemma forallb_of_Forall {A} (f : A → bool) l : Forall (λ x, f x = true) l → forallb f l = true.
Proof. induction 1 as [|x l Hx _ IH]; [done|]. cbn. by rewrite Hx, IH. Qed.

Ltac unfold_sound :=
  unfold sound, sound_any, sound_Expr, sound_TextPiece, sound_MatchArm, sound_Stmt, sound_option,
    sound_list, sound_pair, sound in *; cbn [fst snd] in *.
Ltac split_option :=
  match goal with
  | |- context [match ?o with Some _ => _ | None => _ end] => is_var o; destruct o
  end.
Ltac sounds :=
  intros; unfold_sound; repeat split_option; cbn [wf_expr wf_piece wf_arm sound_stmt callable fst snd forallb] in *;
  rewrite ?andb_true_iff in *; destruct_and?;
  repeat first
    [ done | assumption | split
    | split_option
    | apply forallb_of_Forall | apply Forall_app_2 | constructor ].

Create HintDb yield discriminated.
#[export] Hint Constants Opaque : yield.
Ltac yield1 :=
  lazy beta zeta match;
  lazymatch goal with
  | |- yields _ _ (mret _) => apply yield_ret; solve [sounds]
  | |- yields _ _ (throw _) => apply yields_throw
  | |- yields _ _ (error_here _) => apply yields_error_here
  | |- yields _ _ panic => apply yields_panic
  | |- yields _ _ (if ?b then _ else _) => destruct b
  | |- yields _ _ (match ?x with _ => _ end) => destruct x
  | |- yields _ _ (repeated _ _) => apply (yields_repeated _ sound); [solve [sounds]|intros ? ?]
  | |- yields _ _ (while_do _ _ _) =>
      apply (yields_while_do _ sound); [solve [sounds]|eauto 1 with yield|intros ? ?]
  | |- yields _ _ (until_brace _ _) =>
      apply (yields_until_brace _ sound); [solve [sounds]|intros ? ?]
  | |- yields _ _ (comma_separated _) => apply yields_comma_separated; intros ?
  | |- yields _ _ (_ ≫= _) =>
      first [ eapply yield_bind; [solve [eauto 1 with yield]|intros ? ?]
            | apply (yield_bind _ _ sound); [|intros ? ?] ]
  | |- yields _ _ _ => eapply yields_weaken; [solve [eauto 1 with yield]|solve [sounds]]
  end.
Ltac yield := repeat yield1.
Ltac yield_method := lazymatch goal with |- yields _ _ ?m => let h := head_of m in unfold h end; yield.

#[export] Hint Resolve yields_peek_token yields_previous yields_peek_kind yields_at_eof
  yields_advance yields_matches_any : yield.

Section primitives.
Context (B : nat).
Notation yields := (yields B).

Lemma yields_check kd : yields (λ _, True) (check kd).
Proof. yield_method. Qed.
Lemma yields_matches_kind kd : yields (λ _, True) (matches_kind kd).
Proof. apply yields_matches_any. Qed.
Hint Resolve yields_check yields_matches_kind : yield.
Lemma yields_next_kind : yields (λ _, True) next_kind.
Proof. by apply yields_reads. Qed.
Lemma yields_previous_span : yields (λ _, True) previous_span.
Proof. yield_method. Qed.
Lemma yields_peek_span : yields (λ _, True) peek_span.
Proof. yield_method. Qed.
Lemma yields_consume kd e : yields (λ _, True) (consume kd e).
Proof. yield_method. Qed.
Lemma yields_consume_identifier e : yields (λ _, True) (consume_identifier e).
Proof. yield_method. Qed.
Lemma yields_optional_semicolon : yields (λ _, True) optional_semicolon.
Proof. yield_method. Qed.
Hint Resolve yields_next_kind yields_previous_span yields_peek_span yields_consume
  yields_consume_identifier yields_optional_semicolon : yield.
Lemma yields_word_before w next : yields (λ _, True) (word_before w next).
Proof. yield_method. Qed.
Lemma yields_synchronize : yields (λ _, True) synchronize.
Proof. yield_method. Qed.
Lemma yields_take_string : yields (λ v, (140 * length (chars_of_str v) < B)%nat) take_string.
Proof.
  eapply yield_bind; [apply yields_advance|]. intros t Ht. unfold light, token_weight in Ht.
  destruct (tok_kind t); try apply yields_panic. apply yield_ret. lia.
Qed.
End primitives.
#[export] Hint Resolve yields_check yields_matches_kind yields_next_kind
  yields_previous_span yields_peek_span yields_consume yields_consume_identifier
  yields_optional_semicolon yields_word_before yields_synchronize yields_take_string : yield.

Record KnotYields (B : nat) (k : Knot) : Prop := {
  yields_k_declaration : yields B sound (k_declaration k);
  yields_k_statement : yields B sound (k_statement k);
  yields_k_expression : yields B sound (k_expression k);
  yields_k_assignment : yields B sound (k_assignment k);
  yields_k_coalesce : yields B sound (k_coalesce k);
  yields_k_unary : yields B sound (k_unary k);
  yields_k_type_ref : yields B sound (k_type_ref k);
  yields_k_pattern : yields B sound (k_pattern k);
  yields_k_parse ts l :
    (weight ts ≤ B)%nat → k_parse k ts = Some (Ok l) → sound l }.

Section methods.
Local Set Default Proof Using "All".
Context (B : nat) (HB : (Z.of_nat B + 8 ≤ isize_max)%Z) (k : Knot) (Hk : KnotYields B k).
Notation yields := (yields B).

Local Lemma y_declaration : yields sound (k_declaration k). Proof. apply Hk. Qed.
Local Lemma y_statement : yields sound (k_statement k). Proof. apply Hk. Qed.
Local Lemma y_expression : yields sound (k_expression k). Proof. apply Hk. Qed.
Local Lemma y_assignment : yields sound (k_assignment k). Proof. apply Hk. Qed.
Local Lemma y_coalesce : yields sound (k_coalesce k). Proof. apply Hk. Qed.
Local Lemma y_unary : yields sound (k_unary k). Proof. apply Hk. Qed.
Local Lemma y_type_ref : yields sound (k_type_ref k). Proof. apply Hk. Qed.
Local Lemma y_pattern : yields sound (k_pattern k). Proof. apply Hk. Qed.
Local Hint Resolve y_declaration y_statement y_expression y_assignment y_coalesce y_unary
  y_type_ref y_pattern : yield.

Lemma y_type_ref_inner : yields sound (type_ref_inner k).
Proof. yield_method. Qed.
Lemma y_shape_pattern_fields : yields sound (shape_pattern_fields k).
Proof. yield_method. Qed.
Local Hint Resolve y_shape_pattern_fields : yield.
Lemma y_arm_pattern : yields sound (arm_pattern k).
Proof. yield_method. Qed.
Lemma y_alternatives : yields sound (alternatives k).
Proof. yield_method. Qed.
Lemma y_type_parameters : yields sound type_parameters.
Proof. yield_method. Qed.
Local Hint Resolve y_alternatives y_type_parameters : yield.

(** *** Expressions *)

(** The values of labels: no more than there are tokens. *)
Definition labeled (r : list string * list Expr) : Prop :=
  Forall sound r.2 ∧ vec_ok r.2 = true.
Lemma y_intent_arguments : yields labeled (intent_arguments k).
Proof.
  unfold intent_arguments. yield1.
  eapply (yield_bind _ _ labeled); [|intros; yield1; by apply yield_ret].
  eapply yields_weaken; [apply yields_and|].
  - apply (yields_until_brace _ (λ r, Forall sound r.2)); [constructor|]. intros [ls es] Hes.
    yield.
  - apply (yields_until_brace_size _ (λ r, length r.2)). intros [ls es]. yield.
    apply yield_ret. cbn. rewrite length_app. cbn. lia.
  - intros r [Hr Hl]. split; [done|]. eapply vec_ok_short; [done|]. cbn in Hl. lia.
Qed.
Local Hint Resolve y_intent_arguments : yield.

Context `{Unicode}.

Lemma y_text_hole l sp :
  Forall encodable l → (140 * length l + 1 ≤ B)%nat → yields sound (text_hole k l sp).
Proof.
  intros Hl Hn. unfold text_hole. destruct (trim l); [apply yields_throw|].
  eapply (yield_bind _ _ (λ r, ∀ ts, r = Ok ts → (weight ts ≤ B)%nat)).
  { apply yields_reads. intros _ r _ Hr ts ->. apply scan_weight in Hr as [_ ?]; [lia|done]. }
  intros [ts|es] Hts; [|apply yields_throw].
  eapply (yield_bind _ _ (λ r, ∀ sts, r = Ok sts → sound sts)).
  { apply yields_reads. intros _ r _ Hr sts ->. eapply yields_k_parse; [done|by apply Hts|done]. }
  intros [sts|es] Hsts; [|apply yields_throw]. specialize (Hsts sts eq_refl).
  destruct sts as [|[] [|]]; try apply yields_throw. apply yield_ret.
  by apply Forall_cons in Hsts as [Hst _].
Qed.

Definition pieces_ok (bound : nat) (ps : list TextPiece) : Prop :=
  Forall sound ps ∧ (length ps ≤ bound)%nat.
Lemma y_text_pieces fuel sp bound : ∀ pieces literal l,
  Forall encodable l → (140 * length l + 1 ≤ B)%nat →
  pieces_ok (bound - 2 * length l - 1) pieces → (2 * length l + 1 ≤ bound)%nat →
  yields (pieces_ok bound) (text_pieces k fuel sp pieces literal l).
Proof.
  induction fuel as [|fuel IH]; intros pieces literal l Hl Hn [Hp Hlen] Hb.
  - destruct l; [|apply yields_panic]. apply yield_ret.
    destruct literal; split; [done|lia| |]; [apply Forall_app_2; [done|by constructor]|].
    rewrite length_app. cbn in *. lia.
  - destruct l as [|c l]; cbn [text_pieces].
    { apply yield_ret. destruct literal; split; [done|lia| |]; [apply Forall_app_2; [done|by constructor]|].
      rewrite length_app. cbn in *. lia. }
    apply Forall_cons in Hl as [_ Hl]. cbn in Hn, Hlen, Hb.
    assert (Hrec : ∀ q, yields (pieces_ok bound) (text_pieces k fuel sp pieces q l)).
    { intros. apply IH; [done|lia|split; [done|lia]|lia]. }
    assert (Htail : ∀ q, yields (pieces_ok bound) (text_pieces k fuel sp pieces q (tail l))).
    { intros. destruct l; [apply Hrec|]. apply Forall_cons in Hl as [_ Hl].
      cbn in *. apply IH; [done|lia|split; [done|lia]|lia]. }
    destruct (_ && _); [apply Htail|]. destruct (_ && _); [apply Htail|].
    destruct (c =? ch "}"); [apply yields_throw|]. destruct (c =? ch "{"); [|apply Hrec].
    destruct (split_hole 1 false false l) as [[hole rest]|] eqn:E; [|apply yields_throw].
    apply split_hole_app in E as ->. apply Forall_app in Hl as [Hh Hr].
    apply Forall_cons in Hr as [_ Hr]. rewrite length_app in *. cbn in Hn, Hlen, Hb.
    eapply yield_bind; [apply y_text_hole; [done|lia]|]. intros e He.
    apply IH; [done|lia| |lia].
    split.
    + apply Forall_app_2; [|by constructor]. destruct literal; [done|].
      apply Forall_app_2; [done|by constructor].
    + rewrite length_app. destruct literal; rewrite ?length_app; cbn; lia.
Qed.
Lemma y_text_literal raw sp :
  (140 * length (chars_of_str raw) < B)%nat → yields sound (text_literal k raw sp).
Proof.
  intros Hn. unfold text_literal. eapply yield_bind.
  - apply (y_text_pieces _ _ (2 * length (chars_of_str raw) + 1)); [apply chars_encodable|lia| |lia].
    split; [constructor|cbn; lia].
  - intros ps [Hps Hlen]. apply yield_ret. unfold_sound. cbn [wf_expr].
    rewrite (vec_ok_short B) by (done || lia). by apply forallb_of_Forall.
Qed.

Lemma y_match_arm : yields sound (match_arm k).
Proof. yield_method. Qed.
Local Hint Resolve y_match_arm : yield.
Lemma y_match_expression sp : yields sound (match_expression k sp).
Proof. yield_method. Qed.
Local Hint Resolve y_match_expression : yield.

(** The elements of an array: no more than there are tokens. *)
Lemma y_primary : yields sound (primary k).
Proof.
  unfold primary. yield1. destruct (tok_kind a); try solve [yield].
  - yield1.
    apply (yield_bind _ _ (λ l, Forall sound l ∧ vec_ok l = true)).
    + destruct a0; [by apply yield_ret|].
      eapply yields_weaken; [apply yields_and; [apply yields_comma_separated|apply yields_comma_size]|].
      * intros. apply y_expression.
      * intros. by eapply yields_weaken; [apply y_expression|].
      * intros l [Hl Hn]. split; [done|]. by apply (vec_ok_short B); [|lia].
    + intros l [Hl Hv]. yield1. apply yield_ret. unfold_sound. cbn [wf_expr]. rewrite Hv.
      by apply forallb_of_Forall.
  - yield. by apply y_text_literal.
Qed.
Local Hint Resolve y_primary : yield.

Context (labels : string → option (list string)).
Lemma y_validate_labels name ls sp : yields sound (validate_labels labels name ls sp).
Proof.
  unfold validate_labels. eapply (yield_bind _ _ (λ _, True)); [by apply yields_reads|].
  intros ? _. yield.
Qed.
Local Hint Resolve y_validate_labels : yield.

(** The arguments of a call: at most 255, or as many as labels. *)
Lemma y_call_suffix e : sound e → yields sound (call_suffix labels k e).
Proof.
  intros He. unfold call_suffix. yield1. destruct a.
  { yield1. eapply yield_bind; [apply y_intent_arguments|]. intros [ls args] [Ha Hv].
    eapply (yield_bind _ _ (λ _, True)); [|intros _ _].
    - destruct (expression_path e); [|by apply yield_ret].
      eapply yields_weaken; [apply y_validate_labels|done].
    - apply yield_ret. unfold_sound. cbn [wf_expr]. cbn in Ha, Hv. rewrite He, Hv.
      split; [done|]. by apply forallb_of_Forall. }
  yield1. destruct a.
  { yield1. yield1. eapply (yield_bind _ _ (λ l, Forall sound l ∧ vec_ok l = true)).
    - destruct a0; [by apply yield_ret|].
      eapply yields_weaken; [apply yields_and; [apply yields_comma_separated|apply yields_comma_size]|].
      + intros. yield.
      + intros. destruct (255 <=? _); [apply yields_error_here|].
        by eapply yields_weaken; [apply y_expression|].
      + intros l [Hl Hn]. split; [done|]. by apply (vec_ok_short B); [|lia].
    - intros l [Hl Hv]. yield1. apply yield_ret. unfold_sound. cbn [wf_expr]. rewrite He, Hv.
      split; [done|]. by apply forallb_of_Forall. }
  yield.
Qed.
Lemma y_parse_call : yields sound (parse_call labels k).
Proof.
  unfold parse_call. yield1. apply (yields_repeated _ sound); [done|]. intros e He.
  eapply yields_weaken; [by apply y_call_suffix|]. by intros ? [].
Qed.
Local Hint Resolve y_parse_call : yield.

(** The operator of a prefix is one of the two. *)
Lemma y_unary_inner : yields sound (unary_inner labels k).
Proof.
  unfold unary_inner. yield1. yield1; [yield|]. yield1. yield1.
  - do 3 yield1. apply yield_ret. unfold task_call. unfold_sound. cbn [wf_expr forallb].
    match goal with He : wf_expr _ = true |- _ => rewrite He end. by vm_compute.
  - apply yields_matched; [done| |yield]. intros s t Hf Hprev Ht.
    eapply (yields_at_bind _ _ (λ t, matched [Tk_Bang; Tk_Minus] t)).
    + intros r s' E. rewrite Hprev in E. by injection E as <- <-.
    + intros t' Ht'. yield1. apply yield_ret. unfold_sound. cbn [wf_expr].
      unfold matched in Ht'. destruct (tok_kind t'); try discriminate Ht'; done.
Qed.

(** The operator of a binary node is one of its level. *)
Lemma y_parse_binary m kds :
  existsb (same_variant Tk_Eof) kds = false →
  (∀ t, matched kds t → is_binary_operator (tok_kind t) = true) →
  yields sound m → yields sound (parse_binary m kds).
Proof.
  intros Heof Hop Hm. unfold parse_binary. eapply yield_bind; [done|]. intros e He.
  apply (yields_repeated _ sound); [done|]. intros e1 He1.
  apply yields_matched; [done| |by apply yield_ret]. intros s t Hf Hprev Ht.
  eapply (yields_at_bind _ _ sound); [|intros; by apply yield_ret].
  eapply (yields_at_bind _ _ (matched kds)).
  - intros r s' E. rewrite Hprev in E. by injection E as <- <-.
  - intros t' Ht'. eapply yield_bind; [done|]. intros e2 He2. apply yield_ret.
    unfold_sound. cbn [wf_expr]. by rewrite Hop, He1, He2.
Qed.
Lemma y_equality : yields sound (equality k).
Proof.
  repeat (apply y_parse_binary; [done| |]); [..|apply y_unary].
  all: intros t Ht; unfold matched in Ht; by destruct (tok_kind t).
Qed.
Local Hint Resolve y_equality : yield.
Lemma y_and_expr : yields sound (and_expr k).
Proof. yield_method. Qed.
Local Hint Resolve y_and_expr : yield.
Lemma y_or_expr : yields sound (or_expr k).
Proof. yield_method. Qed.
Local Hint Resolve y_or_expr : yield.
Lemma y_pipeline : yields sound (pipeline labels k).
Proof. yield_method. Qed.
Local Hint Resolve y_pipeline : yield.
Lemma y_coalesce_inner : yields sound (coalesce_inner labels k).
Proof. yield_method. Qed.
Lemma y_assignment_inner : yields sound (assignment_inner k).
Proof. yield_method. Qed.

(** *** Statements *)

Lemma y_block_contents : yields sound (block_contents k).
Proof. yield_method. Qed.
Lemma y_control_condition w : yields sound (control_condition k w).
Proof. yield_method. Qed.
Lemma y_inputs a b : yields sound (inputs k a b).
Proof. yield_method. Qed.
Local Hint Resolve y_block_contents y_control_condition y_inputs : yield.
Lemma y_takes_clause a b c : yields sound (takes_clause k a b c).
Proof. yield_method. Qed.
Lemma y_else_clause : yields sound (else_clause k).
Proof. yield_method. Qed.
Local Hint Resolve y_takes_clause y_else_clause : yield.
Lemma y_prepare_statement : yields sound (prepare_statement labels k).
Proof.
  unfold prepare_statement. do 5 yield1. eapply yield_bind; [apply y_intent_arguments|].
  intros [ls args] [Ha Hv]. do 2 yield1. apply yield_ret. unfold_sound. cbn [sound_stmt wf_expr].
  cbn in Hv. rewrite Hv. by apply forallb_of_Forall.
Qed.
Lemma y_print_statement : yields sound (print_statement k).
Proof. yield_method. Qed.
Lemma y_return_statement : yields sound (return_statement k).
Proof. yield_method. Qed.
Lemma y_if_statement : yields sound (if_statement k).
Proof. yield_method. Qed.
Lemma y_while_statement : yields sound (while_statement k).
Proof. yield_method. Qed.
Lemma y_for_statement : yields sound (for_statement k).
Proof. yield_method. Qed.
Lemma y_using_statement : yields sound (using_statement k).
Proof. yield_method. Qed.
Lemma y_boundaries : yields sound boundaries.
Proof. yield_method. Qed.
Local Hint Resolve y_prepare_statement y_print_statement y_return_statement y_if_statement
  y_while_statement y_for_statement y_using_statement y_boundaries : yield.
Lemma y_promise_clause : yields sound promise_clause.
Proof. yield_method. Qed.
Local Hint Resolve y_promise_clause : yield.
Lemma y_promise_statement : yields sound promise_statement.
Proof. yield_method. Qed.
Lemma y_sample_statement : yields sound (sample_statement k).
Proof. yield_method. Qed.
Lemma y_stop : yields sound (loop_exit_statement Stmt_Stop).
Proof. yield_method. Qed.
Lemma y_skip : yields sound (loop_exit_statement Stmt_Skip).
Proof. yield_method. Qed.
Lemma y_generator_statement : yields sound (generator_statement k).
Proof. yield_method. Qed.
Lemma y_expand_statement : yields sound (expand_statement k).
Proof.
  unfold expand_statement. do 4 yield1. apply (yield_bind _ _ (λ _, True)); [|intros [] _; yield].
  yield1; [|by apply yield_ret]. by eapply yields_weaken; [apply y_intent_arguments|].
Qed.
Lemma y_trusted_statement : yields sound trusted_statement.
Proof. yield_method. Qed.
Lemma y_expression_statement : yields sound (expression_statement k).
Proof. yield_method. Qed.
Local Hint Resolve y_promise_statement y_sample_statement y_stop y_skip y_generator_statement y_expand_statement y_trusted_statement
  y_expression_statement : yield.
Lemma y_statement_inner : yields sound (statement_inner labels k).
Proof. yield_method. Qed.
Lemma y_parse_statement : yields sound (parse_statement labels k).
Proof. apply yields_nested, y_statement_inner. Qed.
Local Hint Resolve y_parse_statement : yield.

(** *** Declarations *)

Lemma y_add_callable name ls : yields (λ _, True) (updates (add_callable name ls)).
Proof. by apply yields_updates. Qed.
Lemma y_add_export names sp : yields (λ _, True) (updates (add_pending (Stmt_Export names sp))).
Proof.
  apply yields_updates; [|done]. intros s [Hw Hp]. split; [done|].
  apply Forall_app_2; [done|by constructor].
Qed.
Lemma y_add_methods name ds ls :
  yields (λ _, True) (updates (λ s, add_methods name ds (add_callable name ls s))).
Proof.
  apply yields_updates; [|done]. intros s Hf. unfold add_methods.
  assert (∀ ms s0, fit B s0 → fit B (foldl (λ s '(derive, method),
      if bool_decide (derive ∈ ds)
      then add_callable (name +:+ "." +:+ method) (method_labels method) s else s) s0 ms)) as Hms.
  { clear. induction ms as [|[d m] ms IH]; intros s0 Hf; [done|]. cbn [foldl]. apply IH.
    by case_bool_decide. }
  by apply Hms.
Qed.
Lemma y_annotation_clause : yields sound (annotation_clause k).
Proof. yield_method. Qed.
Local Hint Resolve y_add_callable y_add_export y_add_methods y_annotation_clause : yield.
Lemma y_parse_binding b : yields sound (parse_binding k b).
Proof. yield_method. Qed.
Lemma y_change_declaration : yields sound (change_declaration k).
Proof. yield_method. Qed.
Lemma y_capability_need l : yields sound (capability_need l).
Proof. yield_method. Qed.
Local Hint Resolve y_capability_need : yield.
Lemma y_function_declaration : yields sound (function_declaration k).
Proof. yield_method. Qed.
Lemma y_derive_list : yields sound derive_list.
Proof. yield_method. Qed.
Local Hint Resolve y_derive_list : yield.
Lemma y_record_declaration : yields sound (record_declaration k).
Proof. yield_method. Qed.
Lemma y_nominal_type : yields sound (nominal_type k).
Proof. yield_method. Qed.
Lemma y_enum_declaration : yields sound (enum_declaration k).
Proof. yield_method. Qed.
Lemma y_protocol_member : yields sound (protocol_member k).
Proof. yield_method. Qed.
Local Hint Resolve y_protocol_member : yield.
Lemma y_protocol_declaration : yields sound (protocol_declaration k).
Proof. yield_method. Qed.
Lemma y_adoption_declaration : yields sound (adoption_declaration k).
Proof. yield_method. Qed.
Lemma y_import_declaration : yields sound import_declaration.
Proof. yield_method. Qed.
Lemma y_export_declaration : yields sound (export_declaration k).
Proof. yield_method. Qed.
Lemma y_doc_comments : yields sound doc_comments.
Proof. yield_method. Qed.
Local Hint Resolve y_parse_binding y_change_declaration y_function_declaration
  y_record_declaration y_nominal_type y_enum_declaration y_protocol_declaration
  y_adoption_declaration y_import_declaration y_export_declaration y_doc_comments : yield.
Lemma yields_doc_or {A} (Φ : A → Prop) kd (m m' : P A) :
  yields Φ m → yields Φ m' → yields Φ (match kd with Tk_DocComment _ => m | _ => m' end).
Proof. by destruct kd. Qed.
Lemma y_parse_declaration : yields sound (parse_declaration labels k).
Proof.
  unfold parse_declaration. yield1. apply yields_doc_or; [yield|]. do 4 (yield1; yield1; [solve [yield]|]).
  eapply (yield_bind _ _ (λ _, True)); [by apply yields_reads|]. intros b _. yield.
Qed.

(** *** Programs *)

Lemma y_program_step st :
  sound st.2 → yields (λ r, sound r.2.2) (program_step labels k st).
Proof.
  destruct st as [es l]. intros Hl. unfold program_step. yield1. yield1; [by apply yield_ret|].
  intros s Hf r s' E. destruct (parse_declaration labels k s) as [[[st|e] s1]|] eqn:Ed; [| |done];
    destruct (y_parse_declaration s Hf _ _ Ed) as [Hf1 Hst].
  - injection E as <- <-. destruct Hf1 as [Hw Hp]. split; [split; [done|constructor]|].
    cbn. apply Forall_app_2; [done|]. by constructor.
  - eapply (yield_bind _ _ _ _ _ (yields_synchronize B)); [|done|exact E].
    intros ? _. by apply yield_ret.
Qed.
Lemma y_program ts l :
  (weight ts ≤ B)%nat → program labels k ts = Some (Ok l) → sound l.
Proof.
  intros Hw E. unfold program in E.
  destruct (repeated _ _ _) as [[[[[|] l']|e] s']|] eqn:Er; try done. injection E as ->.
  eapply (yields_repeated _ (λ st, sound st.2)) in Er as [_ Hl]; [exact Hl|..].
  - constructor.
  - intros st Hst. by apply y_program_step.
  - split; [done|constructor].
Qed.
End methods.

(** ** The knot *)

Section knot.
Context `{Unicode} (labels : string → option (list string)).

Lemma knot_yields B n : (Z.of_nat B + 8 ≤ isize_max)%Z → KnotYields B (knot labels n).
Proof.
  intros HB. induction n as [|n IH]; [by split|].
  split; cbn [knot k_declaration k_statement k_expression k_assignment k_coalesce k_unary k_type_ref
    k_pattern k_parse].
  - by apply y_parse_declaration.
  - by apply y_parse_statement.
  - apply yields_nested, IH.
  - by apply yields_nested, y_assignment_inner.
  - by apply yields_nested, y_coalesce_inner.
  - by apply yields_nested, y_unary_inner.
  - by apply yields_nested, y_type_ref_inner.
  - by apply y_arm_pattern.
  - by apply y_program.
Qed.

(** The tokens of a program weigh no more than a vector may hold. *)
Definition weighable (ts : list Token) : Prop := (Z.of_nat (weight ts) + 8 ≤ isize_max)%Z.

Lemma parse_sound ts program :
  weighable ts → parse labels ts = Some (Ok program) → forallb sound_stmt program = true.
Proof.
  intros Hw E. apply forallb_of_Forall.
  by eapply (yields_k_parse _ _ (knot_yields (weight ts) _ Hw)).
Qed.

Lemma parsed_compiles ts program :
  weighable ts → parse labels ts = Some (Ok program) →
  forallb (exits_placed false) program = true →
  ∃ chunk, compile program = Some (Ok chunk).
Proof.
  intros Hw E Hx. apply compile_accepted. rewrite (forallb_split sound_stmt (exits_placed false)).
  - by rewrite (parse_sound _ _ Hw E), Hx.
  - apply Forall_true. intros st. apply wf_stmt_split.
Qed.

(** C8: what the parser builds, the compiler takes: for a source of less than
    2^55 characters that scans and parses and whose [stop] and [skip] stand in
    loops, [compile] neither panics on an operator, a pipeline or a count nor
    reports an error, and its bytecode passes the verifier. *)
Theorem source_compiles source ts program :
  (Z.of_nat (length (chars_of_str source)) < 2 ^ 55)%Z →
  scan source = Some (Ok ts) → parse labels ts = Some (Ok program) →
  forallb (exits_placed false) program = true →
  ∃ chunk, compile program = Some (Ok chunk).
Proof.
  intros Hlen Hs. apply parsed_compiles.
  apply scan_iff_reads, reads_weight in Hs as [_ Hw]; [|apply chars_encodable].
  unfold weighable, isize_max. change (2 ^ 55)%Z with 36028797018963968%Z in Hlen. lia.
Qed.
End knot.

Definition compiles_source : string := "repeat while no { when no { stop } show(1 + 2) }".
Definition compiles_tokens : list Token :=
  match scan (H := ascii_tables) compiles_source with Some (Ok ts) => ts | _ => [] end.
Definition compiles_program : list Stmt :=
  match parse (H := ascii_tables) (λ _, None) compiles_tokens with Some (Ok p) => p | _ => [] end.
Lemma source_compiles_witness :
  length compiles_program = 1%nat ∧ ∃ chunk, compile compiles_program = Some (Ok chunk).
Proof.
  split; [vm_compute; reflexivity|].
  apply (source_compiles (H := ascii_tables) (λ _, None) compiles_source compiles_tokens);
    vm_compute; reflexivity.
Defined.
