(* ===== verification/Spelling.v ===== *)
(** * How an expression is spelled

    The expression grammar of src/spec/LANGUAGE-5-DRAFT.md (section 3, the
    productions from [expression] to [array]), as a printer: every production is
    a level, an operand is written in parentheses when its production is not
    reached from the one its place asks for, and nothing else is.
    [PrecedenceOk] shows where src/src/parser.rs reads back what is written
    here. *)
From S2P Require Import Prelude Ast Values Text Lexer Parser.

(** ** Levels *)

(** The productions of the draft, from the loosest: 1 [pipeline], 2 [fallible],
    3 [coalesce], 4 [logical-or], 5 [logical-and], 6 [equality],
    7 [comparison], 8 [term], 9 [factor], 10 [unary], 11 [postfix],
    12 [primary]; 0 is [expression] itself. *)
Definition binary_level (k : TokenKind) : option nat :=
  match k with
  | Tk_BangEqual | Tk_EqualEqual => Some 6
  | Tk_Greater | Tk_GreaterEqual | Tk_Less | Tk_LessEqual => Some 7
  | Tk_Plus | Tk_Minus => Some 8
  | Tk_Star | Tk_Slash | Tk_Percent => Some 9
  | _ => None
  end%nat.

Definition logical_level (k : TokenKind) : nat :=
  match k with Tk_And => 5 | _ => 4 end.

Definition level_of (e : Expr) : nat :=
  match e with
  | Expr_Through _ _ _ => 1
  | Expr_Propagate _ _ => 2
  | Expr_Coalesce _ _ _ => 3
  | Expr_Logical _ k _ _ => logical_level k
  | Expr_Binary _ k _ _ => default 9 (binary_level k)
  | Expr_Unary _ _ _ | Expr_Perform _ _ => 10
  | Expr_Call _ _ _ _ | Expr_Index _ _ _ | Expr_Get _ _ _ => 11
  | _ => 12
  end%nat.

(** ** Tokens *)

Definition token_at (k : TokenKind) (sp : Span) : Token := mkToken k (span_line sp) (span_column sp).
Definition plain_token (k : TokenKind) : Token := mkToken k 1 1.

Definition literal_token (l : Literal) : TokenKind :=
  match l with
  | Literal_Int value => Tk_Int value
  | Literal_Float value => Tk_Float value
  | Literal_String value => Tk_String value
  | Literal_Bool value => if value then Tk_True else Tk_False
  | Literal_Null => Tk_Null
  end.

Section separated.
Context {A : Type} (f : A → list Token).
Fixpoint separated (l : list A) : list Token :=
  match l with
  | [] => []
  | [x] => f x
  | x :: l => f x ++ plain_token Tk_Comma :: separated l
  end.
End separated.

Definition parenthesized (w : list Token) : list Token :=
  plain_token Tk_LeftParen :: w ++ [plain_token Tk_RightParen].

(** The tokens of [e] where production [p] is asked for: [pipeline] and the
    operators repeat their own level on the left, [coalesce] on the right.  A
    node's span is the position of the token that makes it. *)
Fixpoint spell (p : nat) (e : Expr) {struct e} : list Token :=
  let w :=
    match e with
    | Expr_Literal l sp => [token_at (literal_token l) sp]
    | Expr_Variable name sp => [token_at (Tk_Identifier name) sp]
    | Expr_Through input stage sp => spell 1 input ++ token_at Tk_Through sp :: spell 2 stage
    | Expr_Propagate value sp =>
        spell 3 value ++ [plain_token Tk_Or; token_at Tk_Return sp]
    | Expr_Coalesce lhs rhs sp => spell 4 lhs ++ token_at Tk_QuestionQuestion sp :: spell 3 rhs
    | Expr_Logical lhs k rhs sp =>
        spell (logical_level k) lhs ++ token_at k sp :: spell (S (logical_level k)) rhs
    | Expr_Binary lhs k rhs sp =>
        let q := default 9%nat (binary_level k) in
        spell q lhs ++ token_at k sp :: spell (S q) rhs
    | Expr_Unary k value sp => token_at k sp :: spell 10 value
    | Expr_Perform value sp => token_at Tk_Perform sp :: spell 10 value
    | Expr_Call callee args _ sp =>
        spell 11 callee ++ token_at Tk_LeftParen sp ::
          separated (spell 0) args ++ [plain_token Tk_RightParen]
    | Expr_Index value index sp =>
        spell 11 value ++ token_at Tk_LeftBracket sp ::
          spell 0 index ++ [plain_token Tk_RightBracket]
    | Expr_Get object name sp =>
        spell 11 object ++ [token_at Tk_Dot sp; plain_token (Tk_Identifier name)]
    | Expr_Array values sp =>
        token_at Tk_LeftBracket sp ::
          separated (spell 0) values ++ [plain_token Tk_RightBracket]
    | Expr_Assign _ _ _ | Expr_Text _ _ | Expr_Match _ _ _ => []
    end in
  if (level_of e <? p)%nat then parenthesized w else w.

(** ** The expressions the reference covers *)

Definition is_coalesce (e : Expr) : bool :=
  match e with Expr_Coalesce _ _ _ => true | _ => false end.

(** Operators, calls by position, indices, members, arrays and pipelines; not
    [choose], text with holes, calls with labels, and assignments, which are no
    expressions of the draft.  Two forms of the draft are left out because the
    parser departs from it there ([coalesce_over_fallible],
    [coalesce_over_through] in [PrecedenceOk]): a [??] as the operand of
    [or give] and as the input of [through].  A stage is a name, a member or a
    call, the only ones the parser takes. *)
Fixpoint plain (e : Expr) : bool :=
  match e with
  | Expr_Literal _ _ | Expr_Variable _ _ => true
  | Expr_Perform e _ | Expr_Get e _ _ => plain e
  | Expr_Propagate e _ => plain e && negb (is_coalesce e)
  | Expr_Coalesce l r _ | Expr_Index l r _ => plain l && plain r
  | Expr_Through i t _ =>
      plain i && plain t && negb (is_coalesce i)
      && match t with Expr_Call _ _ _ _ | Expr_Variable _ _ | Expr_Get _ _ _ => true | _ => false end
  | Expr_Logical l k r _ =>
      plain l && plain r && match k with Tk_And | Tk_Or => true | _ => false end
  | Expr_Binary l k r _ =>
      plain l && plain r && match binary_level k with Some _ => true | None => false end
  | Expr_Unary k e _ => plain e && match k with Tk_Bang | Tk_Minus => true | _ => false end
  | Expr_Call c args None _ => plain c && forallb plain args && (len args <=? 255)
  | Expr_Array vs _ => forallb plain vs
  | Expr_Assign _ _ _ | Expr_Call _ _ (Some _) _ | Expr_Text _ _ | Expr_Match _ _ _ => false
  end.

Definition max_of (l : list nat) : nat := foldr Nat.max 0%nat l.

(** The height of the tree. *)
Fixpoint height (e : Expr) : nat :=
  S match e with
    | Expr_Assign _ e _ | Expr_Propagate e _ | Expr_Perform e _ | Expr_Get e _ _
    | Expr_Unary _ e _ => height e
    | Expr_Coalesce l r _ | Expr_Index l r _ | Expr_Through l r _
    | Expr_Logical l _ r _ | Expr_Binary l _ r _ => Nat.max (height l) (height r)
    | Expr_Call c args _ _ => Nat.max (height c) (max_of (map height args))
    | Expr_Array vs _ => max_of (map height vs)
    | _ => 0
    end.
