(* ===== verification/PrecedenceOk.v ===== *)
(** * The parser reads what is spelled

    [Parser::expression] and the methods below it, one per level, turn the
    spelling of an expression back into the expression: precedence,
    associativity, the places of parentheses and the spans of the nodes are
    those of the grammar of src/spec/LANGUAGE-5-DRAFT.md ([Spelling]).  The
    parser's own nesting is that of src/spec/LANGUAGE-3.md:44-47 ([parse_level]):
    [??] over [through] over [or give], where the draft has [through] over
    [or give] over [??]; the readings differ on a [??] that is the operand of
    [or give] or the input of [through], and only there.  A loop of a method is
    unrolled along the left spine of the expression ([chain]). *)
From S2P Require Import Prelude Ast Values Text Lexer Parser ParserOk ParserTotal Spelling.

(** ** The tokens ahead *)

Definition upcoming (s : Parser) : list Token := drop (p_current s) (p_tokens s).
Definition eat (j : nat) (s : Parser) : Parser := set_current (p_current s + j) s.

Lemma eat_eat i j s : eat j (eat i s) = eat (i + j) s.
Proof. unfold eat, set_current. cbn. by rewrite Nat.add_assoc. Qed.
Lemma eat_0 s : eat 0 s = s.
Proof. unfold eat, set_current. rewrite Nat.add_0_r. by destruct s. Qed.
Lemma upcoming_eat j s : upcoming (eat j s) = drop j (upcoming s).
Proof. unfold upcoming. cbn. by rewrite drop_drop. Qed.
Lemma upcoming_eat_app w rest s : upcoming s = w ++ rest → upcoming (eat (length w) s) = rest.
Proof. intros E. rewrite upcoming_eat, E. apply drop_app_length. Qed.
Lemma upcoming_eat_1 t rest s : upcoming s = t :: rest → upcoming (eat 1 s) = rest.
Proof. intros E. by rewrite upcoming_eat, E. Qed.

Lemma upcoming_lookup s t w : upcoming s = t :: w → p_tokens s !! p_current s = Some t.
Proof.
  intros E. pose proof (lookup_drop (p_tokens s) (p_current s) 0) as Hl.
  unfold upcoming in E. rewrite E, Nat.add_0_r in Hl. by symmetry.
Qed.
Lemma upcoming_mu s : mu s = (weight (upcoming s) + (128 - N.to_nat (p_depth s)))%nat.
Proof. done. Qed.
Lemma upcoming_length s t w :
  upcoming s = t :: w → (length (p_tokens s) - p_current s = S (length w))%nat.
Proof. intros E. unfold upcoming in E. rewrite <- length_drop, E. done. Qed.

(** ** One token *)

Lemma bind_ok {A B} (m : P A) (f : A → P B) s a s1 :
  m s = Some (Ok a, s1) → (m ≫= f) s = f a s1.
Proof. unfold mbind, P_bind. by intros ->. Qed.

Section one_token.
Context (s : Parser) (t : Token) (w : list Token) (Hu : upcoming s = t :: w).
Local Set Default Proof Using "All".

Lemma peek_ahead : peek_token s = Some (Ok t, s).
Proof. unfold peek_token, reads_state. by rewrite (upcoming_lookup _ _ _ Hu). Qed.
Lemma peek_kind_ahead : peek_kind s = Some (Ok (tok_kind t), s).
Proof. unfold peek_kind. by rewrite (bind_ok _ _ _ _ _ peek_ahead). Qed.
Lemma check_ahead kd : check kd s = Some (Ok (same_variant (tok_kind t) kd), s).
Proof. unfold check. by rewrite (bind_ok _ _ _ _ _ peek_kind_ahead). Qed.
Lemma previous_after : previous (eat 1 s) = Some (Ok t, eat 1 s).
Proof.
  unfold previous, reads_state, eat. cbn. rewrite Nat.add_1_r.
  by rewrite (upcoming_lookup _ _ _ Hu).
Qed.
Lemma advance_ahead :
  same_variant (tok_kind t) Tk_Eof = false → advance_token s = Some (Ok t, eat 1 s).
Proof.
  intros Hne. unfold advance_token.
  rewrite (bind_ok _ _ _ _ _ (check_ahead Tk_Eof : at_eof s = _)), Hne.
  rewrite (bind_ok _ _ s tt (eat 1 s)); [apply previous_after|].
  unfold updates, eat. by rewrite Nat.add_1_r.
Qed.
Lemma span_after : previous_span (eat 1 s) = Some (Ok (span_of t), eat 1 s).
Proof. unfold previous_span. by rewrite (bind_ok _ _ _ _ _ previous_after). Qed.
Lemma ahead_no kds :
  existsb (same_variant (tok_kind t)) kds = false → matches_any kds s = Some (Ok false, s).
Proof. intros Hn. unfold matches_any. by rewrite (bind_ok _ _ _ _ _ peek_kind_ahead), Hn. Qed.
Lemma ahead_yes kds :
  same_variant (tok_kind t) Tk_Eof = false →
  existsb (same_variant (tok_kind t)) kds = true → matches_any kds s = Some (Ok true, eat 1 s).
Proof.
  intros Hne Hy. unfold matches_any.
  rewrite (bind_ok _ _ _ _ _ peek_kind_ahead), Hy. by rewrite (bind_ok _ _ _ _ _ (advance_ahead Hne)).
Qed.
Lemma consume_ahead kd e :
  same_variant (tok_kind t) Tk_Eof = false → same_variant (tok_kind t) kd = true →
  consume kd e s = Some (Ok tt, eat 1 s).
Proof.
  intros Hne Hy. unfold consume. rewrite (bind_ok _ _ _ _ _ (check_ahead kd)), Hy.
  by rewrite (bind_ok _ _ _ _ _ (advance_ahead Hne)).
Qed.
End one_token.

(** ** Loops *)

(** [turns body j v s v' s']: [j] passes that go on lead from [v] to [v']. *)
Inductive turns {V} (body : V → P (bool * V)) : nat → V → Parser → V → Parser → Prop :=
| turns_O v s : turns body 0 v s v s
| turns_S j v s v1 s1 v2 s2 :
    turns body j v s v1 s1 → body v1 s1 = Some (Ok (true, v2), s2) →
    turns body (S j) v s v2 s2.

Lemma turns_loop {V} (body : V → P (bool * V)) j v s v' s' :
  turns body j v s v' s' → ∀ m, loop_fuel (j + m) body v s = loop_fuel m body v' s'.
Proof.
  induction 1 as [v s|j v s v1 s1 v2 s2 _ IH E]; intros m; [done|].
  replace (S j + m)%nat with (j + S m)%nat by lia. rewrite IH. cbn [loop_fuel].
  by rewrite (bind_ok _ _ _ _ _ E).
Qed.
Lemma turns_repeated {V} (body : V → P (bool * V)) j v s v' s' v2 s2 :
  turns body j v s v' s' → (j ≤ length (p_tokens s) - p_current s)%nat →
  body v' s' = Some (Ok (false, v2), s2) → repeated body v s = Some (Ok v2, s2).
Proof.
  intros Ht Hj E. unfold repeated.
  replace (S (length (p_tokens s) - p_current s))
    with (j + S (length (p_tokens s) - p_current s - j))%nat by lia.
  rewrite (turns_loop _ _ _ _ _ _ Ht). cbn [loop_fuel]. by rewrite (bind_ok _ _ _ _ _ E).
Qed.

(** ** What ends an expression *)

(** The level a token goes on with; a string would join a word [raw] or
    [text]. *)
Definition cont_level (k : TokenKind) : option nat :=
  match k with
  | Tk_Equal => Some 0
  | Tk_QuestionQuestion => Some 1
  | Tk_Through => Some 2
  | Tk_Or => Some 4
  | Tk_And => Some 5
  | Tk_LeftParen | Tk_LeftBracket | Tk_Dot | Tk_With => Some 11
  | Tk_String _ => Some 12
  | _ => binary_level k
  end%nat.

(** The tokens [rest] do not go on at level [p] or above. *)
Definition ends_at (p : nat) (t : Token) : Prop :=
  match cont_level (tok_kind t) with Some q => (q < p)%nat | None => True end.
Definition stops (p : nat) (rest : list Token) : Prop :=
  match rest with t :: _ => ends_at p t | [] => False end.

Lemma stops_S p rest : stops p rest → stops (S p) rest.
Proof.
  destruct rest as [|t rest]; [done|]. unfold stops, ends_at. destruct (cont_level _); [lia|done].
Qed.

Lemma cont_level_discriminant k :
  cont_level k = match discriminant k with
    | 20 => Some 0%nat | 11 => Some 1%nat | 53 => Some 2%nat | 76 => Some 4%nat | 75 => Some 5%nat
    | 19 | 21 => Some 6%nat | 23 | 24 | 25 | 26 => Some 7%nat | 13 | 14 => Some 8%nat
    | 15 | 16 | 17 => Some 9%nat | 0 | 4 | 12 | 67 => Some 11%nat | 31 => Some 12%nat | _ => None
    end.
Proof. by destruct k. Qed.

Definition goes_on (p : nat) (kds : list TokenKind) : bool :=
  forallb (λ k, match cont_level k with Some q => (p <=? q)%nat | None => false end) kds.
Lemma ends_no p t kds :
  ends_at p t → goes_on p kds = true → existsb (same_variant (tok_kind t)) kds = false.
Proof.
  unfold ends_at. intros He. induction kds as [|k kds IH]; [done|]. cbn [goes_on forallb existsb].
  rewrite andb_true_iff. intros [Hk Hrest]. rewrite (IH Hrest), orb_false_r.
  destruct (same_variant (tok_kind t) k) eqn:Hv; [|done]. unfold same_variant in Hv.
  apply N.eqb_eq in Hv. rewrite cont_level_discriminant, Hv, <- cont_level_discriminant in He.
  destruct (cont_level k); [|done]. apply Nat.leb_le in Hk. lia.
Qed.

Lemma matches_stop p kds s t w :
  goes_on p kds = true → upcoming s = t :: w → ends_at p t → matches_any kds s = Some (Ok false, s).
Proof. intros Hg Hu He. eapply ahead_no; [done|]. by eapply ends_no. Qed.

(** One step of a computation. *)
Ltac step H := rewrite (bind_ok _ _ _ _ _ H).

(** ** Methods by level *)

(** The room a level asks for before its first prefix. *)
Definition room (p : nat) : nat :=
  match p with 0 => 3 | 1 => 2 | 2 | 3 | 4 | 5 | 6 | 7 | 8 | 9 | 10 => 1 | _ => 0 end%nat.

Definition down (s : Parser) : Parser := set_depth (p_depth s + 1) s.
Lemma upcoming_down s : upcoming (down s) = upcoming s.
Proof. done. Qed.
Lemma mu_eat j s : (mu (eat j s) ≤ mu s)%nat.
Proof.
  rewrite !upcoming_mu, upcoming_eat. cbn. rewrite <- (take_drop j (upcoming s)) at 2.
  rewrite weight_app. lia.
Qed.
Lemma mu_down s : (p_depth s < 128)%N → (S (mu (down s)) = mu s)%nat.
Proof. intros Hd. rewrite !upcoming_mu, upcoming_down. cbn [down set_depth p_depth]. lia. Qed.

Lemma nested_ok {A} (m : P A) s a j :
  (p_depth s < 128)%N → m (down s) = Some (Ok a, eat j (down s)) →
  nested_syntax m s = Some (Ok a, eat j s).
Proof.
  intros Hd E. unfold nested_syntax, enter_nested_syntax.
  rewrite (bind_ok _ _ s tt (down s)).
  - unfold leave_nested. rewrite E. cbn [eat set_current down set_depth p_depth].
    rewrite (proj2 (N.eqb_neq _ _)) by lia. do 2 f_equal. unfold set_depth. cbn.
    rewrite N.add_sub. by destruct s.
  - unfold mbind, P_bind, reads_state. unfold MAX_PARSE_DEPTH.
    rewrite (proj2 (N.leb_gt _ _)) by done. done.
Qed.

(** ** First tokens *)

Definition primary_start (k : TokenKind) : bool :=
  match k with
  | Tk_Int _ | Tk_Float _ | Tk_String _ | Tk_True | Tk_False | Tk_Null | Tk_Identifier _
  | Tk_LeftParen | Tk_LeftBracket => true
  | _ => false
  end.
Definition expression_start (k : TokenKind) : bool :=
  primary_start k || match k with Tk_Bang | Tk_Minus | Tk_Perform => true | _ => false end.

(** The first token is of a kind in [f]. *)
Definition headed (f : TokenKind → bool) (w : list Token) : Prop :=
  match w with t :: _ => f (tok_kind t) = true | [] => False end.
Lemma headed_app f w w' : headed f w → headed f (w ++ w').
Proof. by destruct w. Qed.

Lemma spell_head e :
  plain e = true → ∀ p, headed expression_start (spell p e) ∧
                        ((11 ≤ p)%nat → headed primary_start (spell p e)).
Proof.
  assert (Hl : ∀ w w' P, headed expression_start w ∧ (P → headed primary_start w) →
    headed expression_start (w ++ w') ∧ (P → headed primary_start (w ++ w'))).
  { intros w w' P [H1 H2]. split; [by apply headed_app|]. intros HP. by apply headed_app, H2. }
  induction e using Expr_nested_ind with (Q := λ _, True) (R := λ _, True); try done;
    cbn [plain]; intros Hp p; rewrite ?andb_true_iff in Hp;
    cbn [spell]; destruct (_ <? p)%nat eqn:Hlt; try (by split);
    apply Nat.ltb_ge in Hlt; cbn [level_of] in Hlt.
  all: try match goal with |- context [spell ?q ?x ++ _] =>
    apply Hl; assert (plain x = true) as Hx by (by destruct_and?);
    match goal with IH : plain x = true → _ |- _ => destruct (IH Hx q) as [H1 H2] end;
    split; [done|intros H3; by apply H2; lia] end.
  - destruct l as [| | |[]|]; by split.
  - destruct Hp as [_ Ho]. destruct o; try done; (split; [done|lia]).
  - destruct ls; [done|]. rewrite !andb_true_iff in Hp. destruct Hp as [[Hc _] _].
    destruct (IHe Hc 11%nat) as [H1 H2]. apply Hl. split; [done|]. intros _. by apply H2.
  - split; [done|lia].
Qed.

Lemma spell_bare p e : (p ≤ level_of e)%nat → spell p e = spell 0 e.
Proof.
  intros Hp. destruct e; cbn [spell];
    rewrite (proj2 (Nat.ltb_ge _ _)) by exact Hp; by rewrite (proj2 (Nat.ltb_ge _ _)) by lia.
Qed.
Lemma spell_parenthesized p e : (level_of e < p)%nat → spell p e = parenthesized (spell 0 e).
Proof.
  intros Hp. destruct e; cbn [spell];
    rewrite (proj2 (Nat.ltb_lt _ _)) by exact Hp; by rewrite (proj2 (Nat.ltb_ge _ _)) by lia.
Qed.
Lemma height_pos e : (1 ≤ height e)%nat.
Proof. destruct e; cbn; lia. Qed.
Lemma level_of_le e : (level_of e ≤ 12)%nat.
Proof.
  destruct e; cbn; try lia; repeat case_match; simplify_eq/=; try lia.
  all: destruct operator; simplify_eq/=; lia.
Qed.

(** The level at which the parser makes a node.  From 4 on it is the draft's. *)
Definition parse_level (e : Expr) : nat :=
  match e with
  | Expr_Coalesce _ _ _ => 1
  | Expr_Through _ _ _ => 2
  | Expr_Propagate _ _ => 3
  | _ => level_of e
  end%nat.

(** Where the draft writes [e] without parentheses for production [p], the
    parser's method of level [q] can make it. *)
Definition fits (p q : nat) (e : Expr) : Prop := (p ≤ level_of e → q ≤ parse_level e)%nat.

Lemma fits_same q e : (4 ≤ q)%nat → fits q q e.
Proof. unfold fits. destruct e; cbn; lia. Qed.
Lemma fits_expression e : fits 0 0 e.
Proof. unfold fits. lia. Qed.
Lemma operator_levels k : (4 ≤ logical_level k ∧ 4 ≤ default 9 (binary_level k))%nat.
Proof. destruct k; cbn; lia. Qed.
Lemma fits_coalesce e : fits 4 2 e ∧ fits 3 1 e.
Proof. unfold fits. destruct e; cbn; lia. Qed.
Lemma fits_fallible e : is_coalesce e = false → fits 3 4 e.
Proof.
  unfold fits. destruct e; cbn; intros Hc; try done; try lia; intros _; apply operator_levels.
Qed.
Lemma fits_pipeline e : is_coalesce e = false → fits 1 2 e.
Proof.
  unfold fits. destruct e; cbn; intros Hc; try done; try lia;
    intros _; pose proof (operator_levels operator); lia.
Qed.

Definition is_stage (e : Expr) : bool :=
  match e with Expr_Call _ _ _ _ | Expr_Variable _ _ | Expr_Get _ _ _ => true | _ => false end.
Lemma fits_stage e : is_stage e = true → fits 2 11 e.
Proof. unfold fits. destruct e; cbn; try done; lia. Qed.
Lemma parse_level_le e : (parse_level e ≤ 12)%nat.
Proof. pose proof (level_of_le e). destruct e; cbn in *; lia. Qed.
Lemma parse_level_high e : (11 ≤ parse_level e → 11 ≤ level_of e)%nat.
Proof. destruct e; cbn; lia. Qed.

Section levels.
Context `{Unicode} (labels : string → option (list string)).

Definition meth (n p : nat) : P Expr :=
  let k := knot labels n in
  match p with
  | 0 => k_assignment k
  | 1 => k_coalesce k
  | 2 => pipeline labels k
  | 3 | 4 => or_expr k
  | 5 => and_expr k
  | 6 => equality k
  | 7 => comparison_expr k
  | 8 => term k
  | 9 => factor k
  | 10 => k_unary k
  | 11 => parse_call labels k
  | _ => primary k
  end%nat.

(** The method of level [p] reads [w] as [e] with [c] levels of nesting. *)
Definition reads_at (p : nat) (w : list Token) (e : Expr) (c : nat) : Prop :=
  ∀ n s rest,
    upcoming s = w ++ rest → stops p rest → (mu s < n)%nat →
    (N.to_nat (p_depth s) + room p + c ≤ 133)%nat →
    meth n p s = Some (Ok e, eat (length w) s).

Lemma reads_weaken p w e c c' : (c ≤ c')%nat → reads_at p w e c → reads_at p w e c'.
Proof. intros Hc Hr n s rest Hu Hs Hmu Hd. apply (Hr n s rest); [done..|lia]. Qed.

(** A left-associative level: a first operand, then passes of a loop. *)
Section chain.
Context (q : nat) (body : nat → Expr → P (bool * Expr)).
Local Set Default Proof Using "Type".

Definition chain (w : list Token) (e : Expr) (c : nat) : Prop :=
  ∀ n s rest,
    upcoming s = w ++ rest → stops (S q) rest → (mu s < n)%nat →
    (N.to_nat (p_depth s) + room q + c ≤ 133)%nat →
    ∃ e0 i j, meth n (S q) s = Some (Ok e0, eat i s) ∧
      turns (body n) j e0 (eat i s) e (eat (length w) s) ∧ (i + j ≤ length w)%nat.

Lemma chain_base w e c : (room (S q) ≤ room q)%nat → reads_at (S q) w e c → chain w e c.
Proof.
  intros Hroom Hr n s rest Hu Hs Hmu Hd. exists e, (length w), 0%nat.
  split; [eapply Hr; [done..|lia]|]. split; [constructor|lia].
Qed.
Lemma chain_step wl l w e c c' :
  chain wl l c → (c ≤ c')%nat → stops (S q) w →
  (∀ n s rest, upcoming s = w ++ rest → stops (S q) rest → (mu s < n)%nat →
     (N.to_nat (p_depth s) + room q + c' ≤ 133)%nat →
     body n l s = Some (Ok (true, e), eat (length w) s)) →
  chain (wl ++ w) e c'.
Proof.
  intros Hl Hc Hst Hb n s rest Hu Hs Hmu Hd. rewrite <- app_assoc in Hu.
  destruct (Hl n s (w ++ rest)) as (e0 & i & j & E & Ht & Hij); [done| |done|lia|].
  { destruct w; [done|]. exact Hst. }
  exists e0, i, (S j). split; [done|]. rewrite length_app. split.
  - eapply turns_S; [exact Ht|]. rewrite <- eat_eat. eapply Hb; [|exact Hs| |exact Hd].
    + by apply upcoming_eat_app.
    + pose proof (mu_eat (length wl) s). lia.
  - destruct w; [done|]. cbn. lia.
Qed.
Lemma chain_reads w e c :
  (∀ n, meth n q = (e0 ← meth n (S q); repeated (body n) e0)) →
  (∀ n v s t rest, upcoming s = t :: rest → ends_at q t → body n v s = Some (Ok (false, v), s)) →
  chain w e c → reads_at q w e c.
Proof.
  intros Hm Hend Hch n s rest Hu Hs Hmu Hd.
  destruct (Hch n s rest) as (e0 & i & j & E & Ht & Hij); [done|by apply stops_S|done..|].
  rewrite Hm, (bind_ok _ _ _ _ _ E). destruct rest as [|t rest]; [done|].
  eapply turns_repeated; [exact Ht| |].
  - pose proof (f_equal length Hu) as Hl. unfold upcoming in Hl.
    rewrite length_drop, length_app in Hl. cbn in *. lia.
  - eapply Hend; [|exact Hs]. by eapply upcoming_eat_app.
Qed.
End chain.

(** A headed text is not empty. *)
Lemma headed_cons f w : headed f w → ∃ t w', w = t :: w' ∧ f (tok_kind t) = true.
Proof. destruct w as [|t w]; [done|]. by exists t, w. Qed.
Lemma start_no k kds :
  expression_start k = true → existsb (λ kd, expression_start kd) kds = false →
  existsb (same_variant k) kds = false.
Proof.
  intros Hk. induction kds as [|kd kds IH]; [done|]. cbn [existsb].
  rewrite orb_false_iff. intros [Hkd Hrest]. rewrite (IH Hrest), orb_false_r.
  destruct (same_variant k kd) eqn:Hv; [|done]. exfalso. unfold same_variant in Hv.
  destruct k; try discriminate Hk; destruct kd; done.
Qed.
Lemma start_not_eof k : expression_start k = true → same_variant k Tk_Eof = false.
Proof. by destruct k. Qed.

(** *** From a level to the one below *)

Lemma reads_prefix w e c :
  (8 ≤ c)%nat → reads_at 11 w e c → headed primary_start w → reads_at 10 w e c.
Proof.
  intros Hc Hr Hh n s rest Hu Hs Hmu Hd. destruct n as [|n]; [lia|].
  apply headed_cons in Hh as (t & w' & -> & Ht).
  apply nested_ok; [cbn in Hd; lia|]. set (s1 := down s).
  assert (upcoming s1 = t :: w' ++ rest) as Hu1 by exact Hu.
  unfold unary_inner.
  step (ahead_no _ _ _ Hu1 [Tk_Perform] ltac:(by destruct (tok_kind t))).
  step (peek_kind_ahead _ _ _ Hu1).
  replace (task_word (tok_kind t)) with (@None string) by (by destruct (tok_kind t)).
  step (ahead_no _ _ _ Hu1 [Tk_Bang; Tk_Minus] ltac:(by destruct (tok_kind t))).
  apply (Hr n s1 rest); [done|by apply stops_S| |].
  - assert (p_depth s < 128)%N as Hdepth by (cbn in Hd; lia). pose proof (mu_down s Hdepth).
    unfold s1. lia.
  - cbn in *. lia.
Qed.

Lemma reads_coalesce w e c : (8 ≤ c)%nat → reads_at 2 w e c → reads_at 1 w e c.
Proof.
  intros Hc Hr n s rest Hu Hs Hmu Hd. destruct n as [|n]; [lia|].
  assert (p_depth s < 128)%N as Hdepth by (cbn in Hd; lia).
  apply nested_ok; [done|]. unfold coalesce_inner.
  rewrite (bind_ok _ _ _ e (eat (length w) (down s))).
  2: { apply (Hr n _ rest); [done|by apply stops_S| |]; [pose proof (mu_down s Hdepth); lia|].
       cbn in *. lia. }
  destruct rest as [|t rest]; [done|].
  assert (upcoming (eat (length w) (down s)) = t :: rest) as Hu1 by by eapply upcoming_eat_app.
  by step (matches_stop 1 [Tk_QuestionQuestion] _ _ _ eq_refl Hu1 Hs).
Qed.
Lemma reads_assignment w e c : (8 ≤ c)%nat → reads_at 1 w e c → reads_at 0 w e c.
Proof.
  intros Hc Hr n s rest Hu Hs Hmu Hd. destruct n as [|n]; [lia|].
  assert (p_depth s < 128)%N as Hdepth by (cbn in Hd; lia).
  apply nested_ok; [done|]. unfold assignment_inner.
  rewrite (bind_ok _ _ _ e (eat (length w) (down s))).
  2: { apply (Hr n _ rest); [done|by apply stops_S| |]; [pose proof (mu_down s Hdepth); lia|].
       cbn in *. lia. }
  destruct rest as [|t rest]; [done|].
  assert (upcoming (eat (length w) (down s)) = t :: rest) as Hu1 by by eapply upcoming_eat_app.
  by step (matches_stop 0 [Tk_Equal] _ _ _ eq_refl Hu1 Hs).
Qed.

(** *** Operators *)

Definition operator_body (kds : list TokenKind) (next : P Expr)
    (node : Expr → TokenKind → Expr → Span → Expr) (v : Expr) : P (bool * Expr) :=
  c ← matches_any kds;
  if (c : bool) then
    v ← (operator ← previous; right ← next;
         mret (node v (tok_kind operator) right (span_of operator)));
    mret (true, v)
  else mret (false, v).

Lemma operator_stop q kds next node v s t rest :
  goes_on q kds = true → upcoming s = t :: rest → ends_at q t →
  operator_body kds next node v s = Some (Ok (false, v), s).
Proof. intros Hg Hu He. unfold operator_body. by step (matches_stop q kds _ _ _ Hg Hu He). Qed.

Lemma operator_step kds next node v s t wr r rest :
  upcoming s = (t :: wr) ++ rest → same_variant (tok_kind t) Tk_Eof = false →
  existsb (same_variant (tok_kind t)) kds = true →
  next (eat 1 s) = Some (Ok r, eat (length wr) (eat 1 s)) →
  operator_body kds next node v s
    = Some (Ok (true, node v (tok_kind t) r (span_of t)), eat (length (t :: wr)) s).
Proof.
  intros Hu Hne Hk E. unfold operator_body. step (ahead_yes _ _ _ Hu kds Hne Hk).
  rewrite (bind_ok _ _ _ (node v (tok_kind t) r (span_of t)) (eat (length (t :: wr)) s)); [done|].
  step (previous_after _ _ _ Hu). step E. by rewrite eat_eat.
Qed.

(** A level whose loop is [operator_body]. *)
Section operator_level.
Context (q : nat) (kds : list TokenKind) (node : Expr → TokenKind → Expr → Span → Expr).
Context (Hmeth : ∀ n, meth n q =
  (e0 ← meth n (S q); repeated (operator_body kds (meth n (S q)) node) e0)).
Context (Hgo : goes_on q kds = true) (Hroom : (room (S q) ≤ room q)%nat).
Context (Hkind : ∀ k, existsb (same_variant k) kds = true →
  cont_level k = Some q ∧ same_variant k Tk_Eof = false).
Local Set Default Proof Using "All".
Let body n := operator_body kds (meth n (S q)) node.

Lemma operator_chain_reads w e c : chain q body w e c → reads_at q w e c.
Proof.
  apply chain_reads; [exact Hmeth|]. intros n v s t rest Hu He. by eapply operator_stop.
Qed.
Lemma operator_chain_step wl l cl t wr r cr c :
  chain q body wl l cl → reads_at (S q) wr r cr →
  existsb (same_variant (tok_kind t)) kds = true → (cl ≤ c)%nat → (cr ≤ c)%nat →
  chain q body (wl ++ t :: wr) (node l (tok_kind t) r (span_of t)) c.
Proof.
  intros Hl Hr Hk Hcl Hcr. destruct (Hkind _ Hk) as [Hq Hne].
  eapply chain_step; [exact Hl|done| |].
  - unfold stops, ends_at. rewrite Hq. lia.
  - intros n s rest Hu Hs Hmu Hd. eapply operator_step; [exact Hu|done..|].
    eapply Hr; [by eapply upcoming_eat_1|exact Hs| |].
    + pose proof (mu_eat 1 s). lia.
    + change (p_depth (eat 1 s)) with (p_depth s). lia.
Qed.
End operator_level.

Definition level_kinds (q : nat) : list TokenKind :=
  match q with
  | 5 => [Tk_And]
  | 6 => [Tk_BangEqual; Tk_EqualEqual]
  | 7 => [Tk_Greater; Tk_GreaterEqual; Tk_Less; Tk_LessEqual]
  | 8 => [Tk_Plus; Tk_Minus]
  | _ => [Tk_Star; Tk_Slash; Tk_Percent]
  end%nat.
Definition level_node (q : nat) : Expr → TokenKind → Expr → Span → Expr :=
  match q with 5 => Expr_Logical | _ => Expr_Binary end%nat.
Definition level_body (q n : nat) : Expr → P (bool * Expr) :=
  operator_body (level_kinds q) (meth n (S q)) (level_node q).

Lemma level_kinds_spec q k :
  (5 ≤ q ≤ 9)%nat → existsb (same_variant k) (level_kinds q) = true →
  cont_level k = Some q ∧ same_variant k Tk_Eof = false.
Proof.
  intros Hq. do 10 (destruct q as [|q]; [lia || by destruct k|]). lia.
Qed.
Lemma level_meth q n :
  (5 ≤ q ≤ 9)%nat → meth n q = (e0 ← meth n (S q); repeated (level_body q n) e0).
Proof. intros Hq. do 10 (destruct q as [|q]; [lia || done|]). lia. Qed.
Lemma level_goes_on q : (5 ≤ q ≤ 9)%nat → goes_on q (level_kinds q) = true.
Proof. intros Hq. do 10 (destruct q as [|q]; [lia || done|]). lia. Qed.
Lemma level_room q : (2 ≤ q ≤ 11)%nat → (room (S q) ≤ room q)%nat.
Proof. intros Hq. do 12 (destruct q as [|q]; [cbn; lia|]). lia. Qed.

Lemma level_reads q w e c :
  (5 ≤ q ≤ 9)%nat → chain q (level_body q) w e c → reads_at q w e c.
Proof.
  intros Hq. apply operator_chain_reads; [intros; by apply level_meth|by apply level_goes_on|
    apply level_room; lia|intros k; by apply level_kinds_spec].
Qed.
Lemma level_step q wl l cl t wr r cr c :
  (5 ≤ q ≤ 9)%nat → chain q (level_body q) wl l cl → reads_at (S q) wr r cr →
  existsb (same_variant (tok_kind t)) (level_kinds q) = true → (cl ≤ c)%nat → (cr ≤ c)%nat →
  chain q (level_body q) (wl ++ t :: wr) (level_node q l (tok_kind t) r (span_of t)) c.
Proof.
  intros Hq. apply operator_chain_step; [intros; by apply level_meth|by apply level_goes_on|
    apply level_room; lia|intros k; by apply level_kinds_spec].
Qed.

(** *** [or] and [or give] *)

Definition or_body (n : nat) (v : Expr) : P (bool * Expr) :=
  more ← matches_kind Tk_Or;
  if (more : bool) then
    gives ← matches_kind Tk_Return;
    if (gives : bool) then span ← previous_span; mret (false, Expr_Propagate v span)
    else
      operator ← previous;
      right ← meth n 5;
      mret (true, Expr_Logical v (tok_kind operator) right (span_of operator))
  else mret (false, v).

Lemma or_stop n v s t rest :
  upcoming s = t :: rest → ends_at 4 t → or_body n v s = Some (Ok (false, v), s).
Proof.
  intros Hu He. unfold or_body. by step (matches_stop 4 [Tk_Or] _ _ _ eq_refl Hu He).
Qed.
Lemma or_step wl l cl t wr r cr c :
  chain 4 or_body wl l cl → reads_at 5 wr r cr → headed expression_start wr →
  tok_kind t = Tk_Or → (cl ≤ c)%nat → (cr ≤ c)%nat →
  chain 4 or_body (wl ++ t :: wr) (Expr_Logical l (tok_kind t) r (span_of t)) c.
Proof.
  intros Hl Hr Hh Hk Hcl Hcr. eapply chain_step; [exact Hl|done| |].
  - unfold stops, ends_at. rewrite Hk. cbn. lia.
  - intros n s rest Hu Hs Hmu Hd. unfold or_body. cbn [app] in Hu.
    rewrite (bind_ok _ _ _ true (eat 1 s)) by (eapply ahead_yes; [exact Hu|by rewrite Hk..]).
    apply headed_cons in Hh as (t2 & w2 & -> & Ht2).
    pose proof (upcoming_eat_1 _ _ _ Hu) as Hu1.
    step (ahead_no _ _ _ Hu1 [Tk_Return] (start_no _ [Tk_Return] Ht2 eq_refl)).
    step (previous_after _ _ _ Hu).
    rewrite (bind_ok _ _ _ r (eat (length (t2 :: w2)) (eat 1 s))); [by rewrite eat_eat|].
    eapply Hr; [exact Hu1|exact Hs| |].
    + pose proof (mu_eat 1 s). lia.
    + change (p_depth (eat 1 s)) with (p_depth s). cbn in *. lia.
Qed.
Lemma or_reads w e c : chain 4 or_body w e c → reads_at 4 w e c ∧ reads_at 3 w e c.
Proof.
  intros Hch. assert (reads_at 4 w e c) as Hr.
  { eapply chain_reads; [|intros; by eapply or_stop|exact Hch]. done. }
  split; [done|]. intros n s rest Hu Hs Hmu Hd. apply (Hr n s rest); [done|by apply stops_S|done..].
Qed.
(** [or give] ends the loop, so nothing of level 4 follows it. *)
Lemma propagate_reads w e c c' sp :
  chain 4 or_body w e c → (c ≤ c')%nat →
  reads_at 3 (w ++ [plain_token Tk_Or; token_at Tk_Return sp]) (Expr_Propagate e sp) c'.
Proof.
  intros Hch Hc n s rest Hu Hs Hmu Hd. rewrite <- app_assoc in Hu. cbn [app] in Hu.
  destruct (Hch n s _ Hu) as (e0 & i & j & E & Ht & Hij); [cbn; lia|done|cbn in *; lia|].
  change (meth n 3) with (e0 ← meth n 5; repeated (or_body n) e0). step E.
  eapply turns_repeated; [exact Ht| |].
  - pose proof (f_equal length Hu) as Hl. unfold upcoming in Hl.
    rewrite length_drop, length_app in Hl. cbn in *. lia.
  - pose proof (upcoming_eat_app _ _ _ Hu) as Hu1. pose proof (upcoming_eat_1 _ _ _ Hu1) as Hu2.
    unfold or_body. step (ahead_yes _ _ _ Hu1 [Tk_Or] eq_refl eq_refl).
    step (ahead_yes _ _ _ Hu2 [Tk_Return] eq_refl eq_refl). step (span_after _ _ _ Hu2).
    rewrite length_app, !eat_eat. cbn. by destruct sp.
Qed.

(** *** Pipelines *)

Definition through_body (n : nat) (v : Expr) : P (bool * Expr) :=
  c ← matches_kind Tk_Through;
  if (c : bool) then
    v ← (span ← previous_span;
         stage ← parse_call labels (knot labels n);
         match stage with
         | Expr_Call _ _ _ _ | Expr_Variable _ _ | Expr_Get _ _ _ =>
             mret (Expr_Through v stage span)
         | _ => throw (error_at "through expects a function or function call" span)
         end);
    mret (true, v)
  else mret (false, v).
Lemma stops_le p p' rest : (p ≤ p')%nat → stops p rest → stops p' rest.
Proof. intros Hle Hs. induction Hle as [|p' _ IH]; [done|]. by apply stops_S. Qed.

Lemma through_reads w e c : chain 2 through_body w e c → reads_at 2 w e c.
Proof.
  apply chain_reads; [done|]. intros n v s t rest Hu He. unfold through_body.
  by step (matches_stop 2 [Tk_Through] _ _ _ eq_refl Hu He).
Qed.
Lemma through_step wl l cl sp wr r cr c :
  chain 2 through_body wl l cl → reads_at 11 wr r cr → is_stage r = true →
  (cl ≤ c)%nat → (cr ≤ c)%nat →
  chain 2 through_body (wl ++ token_at Tk_Through sp :: wr) (Expr_Through l r sp) c.
Proof.
  intros Hl Hr Hst Hcl Hcr. eapply chain_step; [exact Hl|done|cbn; lia|].
  intros n s rest Hu Hs Hmu Hd. unfold through_body. cbn [app] in Hu.
  step (ahead_yes _ _ _ Hu [Tk_Through] eq_refl eq_refl).
  rewrite (bind_ok _ _ _ (Expr_Through l r sp) (eat (length (token_at Tk_Through sp :: wr)) s)); [done|].
  step (span_after _ _ _ Hu).
  rewrite (bind_ok _ _ _ r (eat (length wr) (eat 1 s))).
  - rewrite eat_eat. destruct r; try discriminate Hst; by destruct sp.
  - eapply (Hr n); [by eapply upcoming_eat_1|eapply stops_le; [|exact Hs]; lia| |].
    + pose proof (mu_eat 1 s). lia.
    + change (p_depth (eat 1 s)) with (p_depth s). cbn in *. lia.
Qed.

(** *** Expressions in brackets *)

Lemma expression_reads n s w e c rest :
  reads_at 0 w e c → upcoming s = w ++ rest → stops 0 rest → (mu s < n)%nat →
  (N.to_nat (p_depth s) + 4 + c ≤ 133)%nat → (8 ≤ c)%nat →
  k_expression (knot labels n) s = Some (Ok e, eat (length w) s).
Proof.
  intros Hr Hu Hs Hmu Hd Hc. destruct n as [|n]; [lia|].
  assert (p_depth s < 128)%N as Hdepth by lia. apply nested_ok; [done|].
  apply (Hr n (down s) rest); [done..| |]; [pose proof (mu_down s Hdepth); lia|].
  cbn. lia.
Qed.

(** A token that ends a list. *)
Definition list_end (t : Token) : Prop :=
  ends_at 0 t ∧ same_variant (tok_kind t) Tk_Comma = false.

Lemma comma_loop (bound : nat) (item : list Expr → P Expr) n c t rest : ∀ args acc m s,
  (∀ l, (length l < bound)%nat → item l = k_expression (knot labels n)) →
  Forall (λ e, reads_at 0 (spell 0 e) e c) args → args ≠ [] → list_end t →
  upcoming s = separated (spell 0) args ++ t :: rest → (mu s < n)%nat →
  (N.to_nat (p_depth s) + 4 + c ≤ 133)%nat → (8 ≤ c)%nat →
  (length acc + length args ≤ bound)%nat → (length args ≤ m)%nat →
  loop_fuel m (λ l, x ← item l; more ← matches_kind Tk_Comma; mret (more, l ++ [x])) acc s
    = Some (Ok (acc ++ args), eat (length (separated (spell 0) args)) s).
Proof.
  induction args as [|e args IH]; intros acc m s Hitem Hall Hne Ht Hu Hmu Hd Hc Hb Hm; [done|].
  apply Forall_cons in Hall as [He Hall]. cbn in Hb, Hm. destruct m as [|m]; [lia|].
  destruct args as [|e2 args].
  - cbn [separated] in *. destruct Ht as [He0 Hcm]. cbn [loop_fuel].
    rewrite (bind_ok _ _ _ (false, acc ++ [e]) (eat (length (spell 0 e)) s)); [done|].
    rewrite Hitem by lia. step (expression_reads n s _ _ c _ He Hu He0 Hmu Hd Hc).
    pose proof (upcoming_eat_app _ _ _ Hu) as Hu1.
    step (ahead_no _ _ _ Hu1 [Tk_Comma] ltac:(cbn [existsb]; by rewrite Hcm)). done.
  - remember (e2 :: args) as args' eqn:Eargs.
    assert (separated (spell 0) (e :: args') = spell 0 e ++ plain_token Tk_Comma :: separated (spell 0) args') as Hsep
      by (by rewrite Eargs).
    rewrite Hsep in *. rewrite <- app_assoc in Hu. cbn [app] in Hu. cbn [loop_fuel].
    set (s1 := eat 1 (eat (length (spell 0 e)) s)).
    rewrite (bind_ok _ _ _ (true, acc ++ [e]) s1).
    + rewrite IH; [..|lia]; try done; [|by rewrite Eargs| | |].
      * rewrite <- app_assoc. cbn. rewrite length_app. unfold s1. rewrite !eat_eat.
        done.
      * unfold s1. eapply upcoming_eat_1, upcoming_eat_app. exact Hu.
      * unfold s1. rewrite eat_eat. pose proof (mu_eat (length (spell 0 e) + 1) s). lia.
      * rewrite length_app. cbn. lia.
    + rewrite Hitem by lia. step (expression_reads n s _ _ c _ He Hu I Hmu Hd Hc).
      pose proof (upcoming_eat_app _ _ _ Hu) as Hu1.
      step (ahead_yes _ _ _ Hu1 [Tk_Comma] eq_refl eq_refl). done.
Qed.

Lemma comma_reads bound item n c t rest args s :
  (∀ l, (length l < bound)%nat → item l = k_expression (knot labels n)) →
  Forall (λ e, reads_at 0 (spell 0 e) e c) args → args ≠ [] → list_end t →
  upcoming s = separated (spell 0) args ++ t :: rest → (mu s < n)%nat →
  (N.to_nat (p_depth s) + 4 + c ≤ 133)%nat → (8 ≤ c)%nat → (length args ≤ bound)%nat →
  (length args ≤ length (p_tokens s) - p_current s)%nat →
  comma_separated item s = Some (Ok args, eat (length (separated (spell 0) args)) s).
Proof.
  intros Hitem Hall Hne Ht Hu Hmu Hd Hc Hb Hl. unfold comma_separated, repeated.
  by rewrite (comma_loop bound item n c t rest args []) by (done || lia).
Qed.
Lemma separated_length args :
  Forall (λ e, plain e = true) args → (length args ≤ length (separated (spell 0) args))%nat.
Proof.
  induction 1 as [|e args He _ IH]; [done|].
  destruct (headed_cons _ _ (proj1 (spell_head e He 0%nat))) as (t & w & E & _).
  destruct args as [|e2 args]; cbn [separated] in *; rewrite ?length_app, E; cbn in *; lia.
Qed.
Lemma separated_head args :
  args ≠ [] → Forall (λ e, plain e = true) args → headed expression_start (separated (spell 0) args).
Proof.
  intros Hne Hall. destruct args as [|e args]; [done|]. apply Forall_cons in Hall as [He _].
  pose proof (proj1 (spell_head e He 0%nat)) as Hh.
  destruct args; [done|]. by apply headed_app.
Qed.

(** *** Calls, indices, members *)

Lemma suffix_stop n v s t rest :
  upcoming s = t :: rest → ends_at 11 t →
  call_suffix labels (knot labels n) v s = Some (Ok (false, v), s).
Proof.
  intros Hu He. unfold call_suffix. step (matches_stop 11 [Tk_With] _ _ _ eq_refl Hu He).
  step (matches_stop 11 [Tk_LeftParen] _ _ _ eq_refl Hu He).
  step (matches_stop 11 [Tk_LeftBracket] _ _ _ eq_refl Hu He).
  by step (matches_stop 11 [Tk_Dot] _ _ _ eq_refl Hu He).
Qed.
Definition suffix_body (n : nat) : Expr → P (bool * Expr) := call_suffix labels (knot labels n).

Lemma suffix_reads w e c : chain 11 suffix_body w e c → reads_at 11 w e c.
Proof. apply chain_reads; [done|]. intros. by eapply suffix_stop. Qed.

Lemma get_step wl l cl sp name c :
  chain 11 suffix_body wl l cl → (cl ≤ c)%nat →
  chain 11 suffix_body (wl ++ [token_at Tk_Dot sp; plain_token (Tk_Identifier name)])
    (Expr_Get l name sp) c.
Proof.
  intros Hl Hcl. eapply chain_step; [exact Hl|done|cbn; lia|].
  intros n s rest Hu Hs Hmu Hd. unfold suffix_body, call_suffix. cbn [app] in Hu.
  step (ahead_no _ _ _ Hu [Tk_With] eq_refl). step (ahead_no _ _ _ Hu [Tk_LeftParen] eq_refl).
  step (ahead_no _ _ _ Hu [Tk_LeftBracket] eq_refl).
  step (ahead_yes _ _ _ Hu [Tk_Dot] eq_refl eq_refl). step (span_after _ _ _ Hu).
  pose proof (upcoming_eat_1 _ _ _ Hu) as Hu1. step (peek_kind_ahead _ _ _ Hu1).
  cbn [tok_kind plain_token keyword_name].
  rewrite (bind_ok _ _ _ name (eat 1 (eat 1 s))).
  - rewrite eat_eat. by destruct sp.
  - unfold consume_identifier. step (peek_kind_ahead _ _ _ Hu1).
    cbn [tok_kind plain_token name_of]. by step (advance_ahead _ _ _ Hu1 eq_refl).
Qed.

Lemma index_step wl l cl sp wi i ci c :
  chain 11 suffix_body wl l cl → reads_at 0 wi i ci →
  (cl ≤ c)%nat → (ci + 4 ≤ c)%nat → (8 ≤ ci)%nat →
  chain 11 suffix_body (wl ++ token_at Tk_LeftBracket sp :: wi ++ [plain_token Tk_RightBracket])
    (Expr_Index l i sp) c.
Proof.
  intros Hl Hi Hcl Hci Hc8. eapply chain_step; [exact Hl|done|cbn; lia|].
  intros n s rest Hu Hs Hmu Hd. unfold suffix_body, call_suffix. cbn [app] in Hu.
  rewrite <- app_assoc in Hu. cbn [app] in Hu.
  step (ahead_no _ _ _ Hu [Tk_With] eq_refl). step (ahead_no _ _ _ Hu [Tk_LeftParen] eq_refl).
  step (ahead_yes _ _ _ Hu [Tk_LeftBracket] eq_refl eq_refl). step (span_after _ _ _ Hu).
  pose proof (upcoming_eat_1 _ _ _ Hu) as Hu1. pose proof (mu_eat 1 s).
  rewrite (bind_ok _ _ _ i (eat (length wi) (eat 1 s))).
  2: { eapply expression_reads; [exact Hi|exact Hu1|exact I|lia| |lia].
       change (p_depth (eat 1 s)) with (p_depth s). cbn in Hd. lia. }
  pose proof (upcoming_eat_app _ _ _ Hu1) as Hu2.
  step (consume_ahead _ _ _ Hu2 Tk_RightBracket "expected ']' after index" eq_refl eq_refl).
  rewrite !eat_eat. cbn [length]. rewrite length_app. by destruct sp.
Qed.

Lemma call_step wl l cl sp args ca c :
  chain 11 suffix_body wl l cl → Forall (λ e, reads_at 0 (spell 0 e) e ca) args →
  Forall (λ e, plain e = true) args → len args ≤ 255 →
  (cl ≤ c)%nat → (args = [] ∨ ca + 4 ≤ c)%nat → (8 ≤ ca)%nat →
  chain 11 suffix_body
    (wl ++ token_at Tk_LeftParen sp :: separated (spell 0) args ++ [plain_token Tk_RightParen])
    (Expr_Call l args None sp) c.
Proof.
  intros Hl Hall Hplain Hlen Hcl Hca Hc8. eapply chain_step; [exact Hl|done|cbn; lia|].
  intros n s rest Hu Hs Hmu Hd. unfold suffix_body, call_suffix. cbn [app] in Hu.
  rewrite <- app_assoc in Hu. cbn [app] in Hu.
  step (ahead_no _ _ _ Hu [Tk_With] eq_refl).
  step (ahead_yes _ _ _ Hu [Tk_LeftParen] eq_refl eq_refl). step (span_after _ _ _ Hu).
  pose proof (upcoming_eat_1 _ _ _ Hu) as Hu1. pose proof (mu_eat 1 s).
  rewrite (bind_ok _ _ _ (bool_decide (args = [])) (eat 1 s)).
  2: { destruct args as [|e args]; [exact (check_ahead _ _ _ Hu1 _)|].
       destruct (headed_cons _ _ (separated_head (e :: args) ltac:(done) Hplain)) as (t & w & E & Ht).
       rewrite E in Hu1. rewrite (check_ahead _ _ _ Hu1). do 3 f_equal.
       by destruct (tok_kind t). }
  rewrite (bind_ok _ _ _ args (eat (length (separated (spell 0) args)) (eat 1 s))).
  2: { case_bool_decide as Hnil; [by rewrite Hnil, eat_0|].
       eapply (comma_reads 255 _ n); [|exact Hall|done| |exact Hu1|lia| |lia| |].
       - intros l' Hl'. by rewrite (proj2 (N.leb_gt 255 (len l'))) by (unfold len; lia).
       - by split.
       - destruct Hca as [?|Hca]; [done|]. change (p_depth (eat 1 s)) with (p_depth s).
         cbn in Hd. lia.
       - unfold len in Hlen. lia.
       - pose proof (separated_length args Hplain). pose proof (f_equal length Hu1) as Hl1.
         unfold upcoming in Hl1. rewrite length_drop, length_app in Hl1. cbn in *. lia. }
  pose proof (upcoming_eat_app _ _ _ Hu1) as Hu2.
  step (consume_ahead _ _ _ Hu2 Tk_RightParen "expected ')' after arguments" eq_refl eq_refl).
  rewrite !eat_eat. cbn [length]. rewrite length_app. by destruct sp.
Qed.

(** *** What stands alone *)

Lemma literal_reads l sp c : reads_at 12 [token_at (literal_token l) sp] (Expr_Literal l sp) c.
Proof.
  intros n s rest Hu Hs Hmu Hd. cbn [meth]. unfold primary. cbn [app] in Hu.
  step (advance_ahead _ _ _ Hu ltac:(by destruct l as [| | |[]|])).
  destruct l as [| | |[]|]; by destruct sp.
Qed.
Lemma variable_reads name sp c :
  reads_at 12 [token_at (Tk_Identifier name) sp] (Expr_Variable name sp) c.
Proof.
  intros n s rest Hu Hs Hmu Hd. cbn [meth]. unfold primary. cbn [app] in Hu.
  step (advance_ahead _ _ _ Hu eq_refl). cbn [token_at tok_kind].
  destruct rest as [|t rest]; [done|]. pose proof (upcoming_eat_1 _ _ _ Hu) as Hu1.
  step (peek_kind_ahead _ _ _ Hu1).
  assert (is_string (tok_kind t) = false) as ->.
  { unfold stops, ends_at in Hs. destruct (tok_kind t); try done. cbn in Hs. lia. }
  rewrite !andb_false_r. by destruct sp.
Qed.
Lemma array_reads args sp ca c :
  Forall (λ e, reads_at 0 (spell 0 e) e ca) args → Forall (λ e, plain e = true) args →
  (args = [] ∨ ca + 4 ≤ c)%nat → (8 ≤ ca)%nat →
  reads_at 12 (token_at Tk_LeftBracket sp :: separated (spell 0) args ++ [plain_token Tk_RightBracket])
    (Expr_Array args sp) c.
Proof.
  intros Hall Hplain Hca Hc8 n s rest Hu Hs Hmu Hd. cbn [meth]. unfold primary.
  cbn [app] in Hu. rewrite <- app_assoc in Hu. cbn [app] in Hu.
  step (advance_ahead _ _ _ Hu eq_refl). cbn [token_at tok_kind].
  pose proof (upcoming_eat_1 _ _ _ Hu) as Hu1. pose proof (mu_eat 1 s).
  rewrite (bind_ok _ _ _ (bool_decide (args = [])) (eat 1 s)).
  2: { destruct args as [|e args]; [exact (check_ahead _ _ _ Hu1 _)|].
       destruct (headed_cons _ _ (separated_head (e :: args) ltac:(done) Hplain)) as (t & w & E & Ht).
       rewrite E in Hu1. rewrite (check_ahead _ _ _ Hu1). do 3 f_equal.
       by destruct (tok_kind t). }
  rewrite (bind_ok _ _ _ args (eat (length (separated (spell 0) args)) (eat 1 s))).
  2: { case_bool_decide as Hnil; [by rewrite Hnil, eat_0|].
       eapply (comma_reads (length args) _ n); [done|exact Hall|done| |exact Hu1|lia| |lia|lia|].
       - by split.
       - destruct Hca as [?|Hca]; [done|]. change (p_depth (eat 1 s)) with (p_depth s).
         cbn in Hd. lia.
       - pose proof (separated_length args Hplain). pose proof (f_equal length Hu1) as Hl1.
         unfold upcoming in Hl1. rewrite length_drop, length_app in Hl1. cbn in *. lia. }
  pose proof (upcoming_eat_app _ _ _ Hu1) as Hu2.
  step (consume_ahead _ _ _ Hu2 Tk_RightBracket "expected ']' after array" eq_refl eq_refl).
  rewrite !eat_eat. cbn [length]. rewrite length_app. by destruct sp.
Qed.
Lemma parenthesized_reads w e c :
  (8 ≤ c)%nat → reads_at 0 w e c → reads_at 12 (parenthesized w) e (c + 4).
Proof.
  intros Hc Hr n s rest Hu Hs Hmu Hd. cbn [meth]. unfold primary, parenthesized in *.
  cbn [app] in Hu. rewrite <- app_assoc in Hu. cbn [app] in Hu.
  step (advance_ahead _ _ _ Hu eq_refl). cbn [plain_token tok_kind].
  pose proof (upcoming_eat_1 _ _ _ Hu) as Hu1. pose proof (mu_eat 1 s).
  rewrite (bind_ok _ _ _ e (eat (length w) (eat 1 s))).
  2: { eapply expression_reads; [exact Hr|exact Hu1|exact I|lia| |lia].
       change (p_depth (eat 1 s)) with (p_depth s). cbn in Hd. lia. }
  pose proof (upcoming_eat_app _ _ _ Hu1) as Hu2.
  step (consume_ahead _ _ _ Hu2 Tk_RightParen "expected ')' after expression" eq_refl eq_refl).
  rewrite !eat_eat. cbn [length]. by rewrite length_app.
Qed.

(** *** Prefixes and [??] *)

Lemma prefix_reads k wv v cv sp c :
  reads_at 10 wv v cv → k = Tk_Bang ∨ k = Tk_Minus → (cv + 1 ≤ c)%nat → (8 ≤ c)%nat →
  reads_at 10 (token_at k sp :: wv) (Expr_Unary k v sp) c.
Proof.
  intros Hv Hk Hcv Hc n s rest Hu Hs Hmu Hd. destruct n as [|n]; [lia|].
  assert (p_depth s < 128)%N as Hdepth by (cbn in Hd; lia).
  apply nested_ok; [done|]. pose proof (mu_down s Hdepth). cbn [app] in Hu.
  assert (upcoming (down s) = token_at k sp :: wv ++ rest) as Hu1 by exact Hu.
  unfold unary_inner. step (ahead_no _ _ _ Hu1 [Tk_Perform] ltac:(by destruct Hk as [->| ->])).
  step (peek_kind_ahead _ _ _ Hu1). cbn [tok_kind token_at].
  replace (task_word k) with (@None string) by (by destruct Hk as [->| ->]).
  step (ahead_yes _ _ _ Hu1 [Tk_Bang; Tk_Minus] ltac:(by destruct Hk as [->| ->])
    ltac:(by destruct Hk as [->| ->])).
  step (previous_after _ _ _ Hu1).
  rewrite (bind_ok _ _ _ v (eat (length wv) (eat 1 (down s)))).
  - rewrite eat_eat. by destruct sp.
  - eapply (Hv n); [by eapply upcoming_eat_1|exact Hs| |].
    + pose proof (mu_eat 1 (down s)). lia.
    + cbn in *. lia.
Qed.
Lemma perform_reads wv v cv sp c :
  reads_at 10 wv v cv → (cv + 1 ≤ c)%nat → (8 ≤ c)%nat →
  reads_at 10 (token_at Tk_Perform sp :: wv) (Expr_Perform v sp) c.
Proof.
  intros Hv Hcv Hc n s rest Hu Hs Hmu Hd. destruct n as [|n]; [lia|].
  assert (p_depth s < 128)%N as Hdepth by (cbn in Hd; lia).
  apply nested_ok; [done|]. pose proof (mu_down s Hdepth). cbn [app] in Hu.
  assert (upcoming (down s) = token_at Tk_Perform sp :: wv ++ rest) as Hu1 by exact Hu.
  unfold unary_inner. step (ahead_yes _ _ _ Hu1 [Tk_Perform] eq_refl eq_refl).
  step (span_after _ _ _ Hu1).
  rewrite (bind_ok _ _ _ v (eat (length wv) (eat 1 (down s)))).
  - rewrite eat_eat. by destruct sp.
  - eapply (Hv n); [by eapply upcoming_eat_1|exact Hs| |].
    + pose proof (mu_eat 1 (down s)). lia.
    + cbn in *. lia.
Qed.
Lemma coalesce_reads wl l cl wr r cr sp c :
  reads_at 2 wl l cl → reads_at 1 wr r cr → (cl ≤ c)%nat → (cr + 1 ≤ c)%nat → (8 ≤ c)%nat →
  reads_at 1 (wl ++ token_at Tk_QuestionQuestion sp :: wr) (Expr_Coalesce l r sp) c.
Proof.
  intros Hl Hr Hcl Hcr Hc n s rest Hu Hs Hmu Hd. destruct n as [|n]; [lia|].
  assert (p_depth s < 128)%N as Hdepth by (cbn in Hd; lia).
  apply nested_ok; [done|]. pose proof (mu_down s Hdepth). rewrite <- app_assoc in Hu.
  cbn [app] in Hu. assert (upcoming (down s) = wl ++ token_at Tk_QuestionQuestion sp :: wr ++ rest) as Hu1
    by exact Hu.
  unfold coalesce_inner. rewrite (bind_ok _ _ _ l (eat (length wl) (down s))).
  2: { eapply (Hl n); [exact Hu1|cbn; lia|lia|]. cbn in *. lia. }
  pose proof (upcoming_eat_app _ _ _ Hu1) as Hu2.
  step (ahead_yes _ _ _ Hu2 [Tk_QuestionQuestion] eq_refl eq_refl). step (span_after _ _ _ Hu2).
  rewrite (bind_ok _ _ _ r (eat (length wr) (eat 1 (eat (length wl) (down s))))).
  - rewrite !eat_eat, length_app. by destruct sp.
  - eapply (Hr n); [by eapply upcoming_eat_1|exact Hs| |].
    + rewrite eat_eat. pose proof (mu_eat (length wl + 1) (down s)). lia.
    + cbn in *. lia.
Qed.

(** Down to a lower level: nothing is read on the way. *)
Lemma reads_lower p w e c :
  (8 ≤ c)%nat → (p = 10%nat → headed primary_start w) → (p < 12)%nat →
  reads_at (S p) w e c → reads_at p w e c.
Proof.
  intros Hc Hh Hp Hr. destruct (decide (5 ≤ p ≤ 9)%nat) as [Hq|Hq].
  { apply level_reads; [done|]. apply chain_base; [apply level_room; lia|done]. }
  assert (p = 0 ∨ p = 1 ∨ p = 2 ∨ p = 3 ∨ p = 4 ∨ p = 10 ∨ p = 11)%nat
    as [->|[->|[->|[->|[->|[->| ->]]]]]] by lia.
  - by apply reads_assignment.
  - by apply reads_coalesce.
  - apply through_reads, chain_base; [cbn; lia|by apply Hr].
  - intros n s rest Hu Hs Hmu Hd. apply (Hr n s rest); [done|by apply stops_S|done..].
  - apply or_reads, chain_base; [cbn; lia|by apply Hr].
  - apply reads_prefix; [done..|by apply Hh].
  - apply suffix_reads, chain_base; [cbn; lia|by apply Hr].
Qed.
Lemma reads_below q w e c p :
  (8 ≤ c)%nat → (p ≤ 10 → 11 ≤ q → headed primary_start w)%nat → (q ≤ 12)%nat →
  reads_at q w e c → (p ≤ q)%nat → reads_at p w e c.
Proof.
  intros Hc Hh Hq Hr Hle. remember (q - p)%nat as d eqn:Hd. revert p Hle Hd Hh.
  induction d as [|d IH]; intros p Hle Hd Hh; [by replace p with q by lia|].
  apply reads_lower; [done| |lia|].
  - intros ->. apply Hh; lia.
  - apply IH; [lia..|]. intros. apply Hh; lia.
Qed.

(** ** Every spelling is read back *)

Definition bare_cost (e : Expr) : nat := (8 * height e)%nat.
Definition cost (e : Expr) : nat := (8 * height e + 4)%nat.

(** The loop of a level, where it has one. *)
Definition body_of (q : nat) : option (nat → Expr → P (bool * Expr)) :=
  match q with
  | 2 => Some through_body
  | 4 => Some or_body
  | 5 | 6 | 7 | 8 | 9 => Some (level_body q)
  | 11 => Some suffix_body
  | _ => None
  end%nat.

(** What the proof knows of an expression: every method its level allows reads
    its bare tokens, every method reads them in parentheses, and a loop reads
    them as the left end of a longer text. *)
Record Read (e : Expr) : Prop := {
  read_bare p : (p ≤ parse_level e)%nat → reads_at p (spell 0 e) e (cost e);
  read_closed p : (p ≤ 12)%nat → reads_at p (parenthesized (spell 0 e)) e (cost e);
  read_bare_chain q body :
    body_of q = Some body → (q ≤ parse_level e)%nat → chain q body (spell 0 e) e (cost e);
  read_closed_chain q body :
    body_of q = Some body → chain q body (parenthesized (spell 0 e)) e (cost e) }.

Lemma read_at e p q : Read e → fits p q e → (q ≤ 12)%nat → reads_at q (spell p e) e (cost e).
Proof.
  intros He Hf Hq. destruct (decide (p ≤ level_of e)%nat).
  - rewrite spell_bare by done. by apply read_bare; [|apply Hf].
  - rewrite spell_parenthesized by lia. by apply read_closed.
Qed.
Lemma read_chain e p q body :
  Read e → fits p q e → body_of q = Some body → chain q body (spell p e) e (cost e).
Proof.
  intros He Hf Hb. destruct (decide (p ≤ level_of e)%nat).
  - rewrite spell_bare by done. by apply read_bare_chain; [| |apply Hf].
  - rewrite spell_parenthesized by lia. by apply read_closed_chain.
Qed.

Lemma body_of_inv q body :
  body_of q = Some body → (2 ≤ q ≤ 11)%nat ∧
    ∀ w e c, chain q body w e c → reads_at q w e c.
Proof.
  intros E. assert (q = 2 ∨ q = 4 ∨ (5 ≤ q ≤ 9) ∨ q = 11)%nat as Hq.
  { do 12 (destruct q as [|q]; [try discriminate E; lia|]). discriminate E. }
  split; [lia|]. intros w e c. destruct Hq as [->|[->|[Hq| ->]]].
  - injection E as <-. apply through_reads.
  - injection E as <-. apply or_reads.
  - replace body with (level_body q); [by apply level_reads|].
    do 10 (destruct q as [|q]; [lia || by injection E|]). lia.
  - injection E as <-. apply suffix_reads.
Qed.

(** An expression read at its own level is read everywhere. *)
Lemma read_of_own e :
  plain e = true → reads_at (parse_level e) (spell 0 e) e (bare_cost e) →
  (∀ body, body_of (parse_level e) = Some body →
     chain (parse_level e) body (spell 0 e) e (bare_cost e)) →
  Read e.
Proof.
  intros Hp Hown Hch. pose proof (height_pos e). pose proof (parse_level_le e).
  assert (bare_cost e ≤ cost e)%nat as Hcost by (unfold bare_cost, cost; lia).
  assert (Hbare : ∀ p, (p ≤ parse_level e)%nat → reads_at p (spell 0 e) e (bare_cost e)).
  { intros p Hle. apply (reads_below (parse_level e)); [unfold bare_cost; lia| |done..].
    intros _ H11. rewrite <- (spell_bare 11) by (by apply parse_level_high).
    by apply spell_head. }
  assert (Hclosed : ∀ p, (p ≤ 12)%nat → reads_at p (parenthesized (spell 0 e)) e (cost e)).
  { intros p Hp12. apply (reads_below 12); [unfold cost; lia|done|done| |done].
    apply parenthesized_reads; [unfold bare_cost; lia|]. apply Hbare. lia. }
  split; [|done| |].
  - intros p Hle. eapply reads_weaken; [done|by apply Hbare].
  - intros q body Hb Hle. destruct (decide (q = parse_level e)) as [->|Hne].
    + intros n s rest Hu Hs Hmu Hd. apply (Hch body Hb n s rest); [done..|lia].
    + destruct (body_of_inv _ _ Hb). apply chain_base; [by apply level_room|].
      eapply reads_weaken; [done|apply Hbare; lia].
  - intros q body Hb. destruct (body_of_inv _ _ Hb).
    apply chain_base; [by apply level_room|]. apply Hclosed. lia.
Qed.
Lemma read_of_chain e body :
  plain e = true → body_of (parse_level e) = Some body →
  chain (parse_level e) body (spell 0 e) e (bare_cost e) → Read e.
Proof.
  intros Hp Hb Hch. apply read_of_own; [done| |].
  - by eapply body_of_inv.
  - intros body' Hb'. rewrite Hb in Hb'. by injection Hb' as <-.
Qed.
Lemma read_of_reads e :
  plain e = true → body_of (parse_level e) = None →
  reads_at (parse_level e) (spell 0 e) e (bare_cost e) → Read e.
Proof. intros Hp Hb Hr. apply read_of_own; [done..|]. intros body E. congruence. Qed.

Lemma read_cost e e' : (height e' < height e)%nat → (cost e' + 4 ≤ bare_cost e)%nat.
Proof. unfold cost, bare_cost. lia. Qed.
Lemma max_of_le n l : n ∈ l → (n ≤ max_of l)%nat.
Proof. unfold max_of. induction 1 as [|n m l _ IH]; cbn [foldr]; lia. Qed.

(** The elements of a list, with one cost for all. *)
Lemma reads_elements args c :
  Forall Read args → Forall (λ e, (cost e ≤ c)%nat) args →
  Forall (λ e, reads_at 0 (spell 0 e) e c) args.
Proof.
  intros Hr Hc. apply Forall_forall. intros e He. rewrite Forall_forall in Hr, Hc.
  eapply reads_weaken; [by apply Hc|]. apply (read_at e 0 0); [by apply Hr|apply fits_expression|lia].
Qed.
Lemma elements_cost args :
  Forall (λ e, (cost e ≤ 8 * max_of (map height args) + 4)%nat) args.
Proof.
  apply Forall_forall. intros e He. unfold cost.
  pose proof (max_of_le (height e) (map height args)). rewrite list_elem_of_fmap in H0. naive_solver lia.
Qed.

Ltac costs := unfold bare_cost, cost; cbn [height level_node]; lia.

Section nodes.
Context (e1 e2 : Expr) (H1 : Read e1) (H2 : Read e2) (sp : Span).
Local Set Default Proof Using "All".

Lemma read_binary k : plain (Expr_Binary e1 k e2 sp) = true → Read (Expr_Binary e1 k e2 sp).
Proof.
  intros Hp. cbn [plain] in Hp. pose proof Hp as [_ Hk]%andb_true_iff.
  assert (∃ q, binary_level k = Some q ∧ (6 ≤ q ≤ 9)%nat ∧
    existsb (same_variant k) (level_kinds q) = true ∧ body_of q = Some (level_body q) ∧
    level_node q = Expr_Binary) as (q & Hq & Hrange & Hin & Hb & Hn).
  { destruct k; try discriminate Hk; eexists; (split; [reflexivity|]); (split; [lia|]); done. }
  assert (parse_level (Expr_Binary e1 k e2 sp) = q) as Elevel by (cbn; by rewrite Hq).
  apply (read_of_chain _ (level_body q)); [done|by rewrite Elevel|]. rewrite Elevel.
  replace (spell 0 (Expr_Binary e1 k e2 sp)) with (spell q e1 ++ token_at k sp :: spell (S q) e2)
    by (cbn; by rewrite Hq).
  replace (Expr_Binary e1 k e2 sp)
    with (level_node q e1 (tok_kind (token_at k sp)) e2 (span_of (token_at k sp)))
    by (rewrite Hn; by destruct sp).
  apply (level_step q _ _ (cost e1) _ _ _ (cost e2));
    [lia|by apply read_chain; [|apply fits_same; lia|]|by apply read_at; [|apply fits_same; lia|lia]|done|..]; rewrite Hn; costs.
Qed.
Lemma read_and : plain e1 && plain e2 = true → Read (Expr_Logical e1 Tk_And e2 sp).
Proof.
  intros Hp. apply (read_of_chain _ (level_body 5)); [cbn [plain]; by rewrite Hp|done|].
  cbn [parse_level level_of spell logical_level].
  replace (Expr_Logical e1 Tk_And e2 sp)
    with (level_node 5 e1 (tok_kind (token_at Tk_And sp)) e2 (span_of (token_at Tk_And sp)))
    by (by destruct sp).
  apply (level_step 5 _ _ (cost e1) _ _ _ (cost e2));
    [lia|by apply read_chain; [|apply fits_same; lia|]|by apply read_at; [|apply fits_same; lia|lia]|done|..]; costs.
Qed.
Lemma read_or : plain e1 && plain e2 = true → Read (Expr_Logical e1 Tk_Or e2 sp).
Proof.
  intros Hp. apply (read_of_chain _ or_body); [cbn [plain]; by rewrite Hp|done|].
  apply andb_true_iff in Hp as [_ Hp2]. cbn [parse_level level_of spell logical_level].
  replace (Expr_Logical e1 Tk_Or e2 sp)
    with (Expr_Logical e1 (tok_kind (token_at Tk_Or sp)) e2 (span_of (token_at Tk_Or sp)))
    by (by destruct sp).
  apply (or_step _ _ (cost e1) _ _ _ (cost e2));
    [by apply read_chain; [|apply fits_same; lia|]|by apply read_at; [|apply fits_same; lia|lia]
    |by apply spell_head|done|..]; costs.
Qed.
Lemma read_coalesce : plain e1 && plain e2 = true → Read (Expr_Coalesce e1 e2 sp).
Proof.
  intros Hp. apply read_of_reads; [done..|]. cbn [parse_level level_of spell].
  apply (coalesce_reads _ _ (cost e1) _ _ (cost e2));
    [by apply read_at; [|apply fits_coalesce|lia]..|costs|costs|costs].
Qed.
Lemma read_through : plain (Expr_Through e1 e2 sp) = true → Read (Expr_Through e1 e2 sp).
Proof.
  intros Hp. apply (read_of_chain _ through_body); [done..|]. cbn [parse_level level_of spell].
  cbn [plain] in Hp. rewrite !andb_true_iff, negb_true_iff in Hp.
  destruct Hp as [[[Hp1 Hp2] Hc] Hst].
  apply (through_step _ _ (cost e1) _ _ _ (cost e2));
    [by apply read_chain; [|by apply fits_pipeline|]
    |by apply read_at; [|by apply fits_stage|lia]|done|costs|costs].
Qed.
Lemma read_index : plain e1 && plain e2 = true → Read (Expr_Index e1 e2 sp).
Proof.
  intros Hp. apply (read_of_chain _ suffix_body); [done..|]. cbn [parse_level level_of spell].
  apply (index_step _ _ (cost e1) _ _ _ (cost e2));
    [by apply read_chain; [|apply fits_same; lia|]
    |by apply read_at; [|apply fits_expression|lia]|costs|costs|pose proof (height_pos e2); costs].
Qed.
End nodes.

Section one_child.
Context (e : Expr) (He : Read e) (sp : Span).
Local Set Default Proof Using "All".

Lemma read_unary k : plain (Expr_Unary k e sp) = true → Read (Expr_Unary k e sp).
Proof.
  intros Hp. apply read_of_reads; [done..|]. cbn [parse_level level_of spell].
  apply andb_true_iff in Hp as [_ Hk].
  apply (prefix_reads _ _ _ (cost e)); [by apply read_at; [|apply fits_same; lia|lia]| |costs|costs].
  destruct k; try done; auto.
Qed.
Lemma read_perform : plain e = true → Read (Expr_Perform e sp).
Proof.
  intros Hp. apply read_of_reads; [done..|]. cbn [parse_level level_of spell].
  apply (perform_reads _ _ (cost e)); [by apply read_at; [|apply fits_same; lia|lia]|costs|costs].
Qed.
Lemma read_propagate : plain (Expr_Propagate e sp) = true → Read (Expr_Propagate e sp).
Proof.
  intros Hp. apply read_of_reads; [done..|]. cbn [parse_level level_of spell].
  apply andb_true_iff in Hp as [_ Hc%negb_true_iff].
  apply (propagate_reads _ _ (cost e)); [by apply read_chain; [|by apply fits_fallible|]|costs].
Qed.
Lemma read_get name : plain e = true → Read (Expr_Get e name sp).
Proof.
  intros Hp. apply (read_of_chain _ suffix_body); [done..|]. cbn [parse_level level_of spell].
  apply (get_step _ _ (cost e)); [by apply read_chain; [|apply fits_same; lia|]|costs].
Qed.
End one_child.

Section lists.
Context (args : list Expr) (Hargs : Forall Read args) (sp : Span).
Local Set Default Proof Using "All".

Lemma forallb_plain : forallb plain args = true → Forall (λ e, plain e = true) args.
Proof. intros Hp. apply Forall_forall. intros e He. rewrite forallb_forall in Hp. by apply Hp, list_elem_of_In. Qed.
Definition args_cost : nat := Nat.max 8 (8 * max_of (map height args) + 4).
Lemma args_read : Forall (λ e, reads_at 0 (spell 0 e) e args_cost) args.
Proof.
  apply reads_elements; [done|]. eapply Forall_impl; [apply elements_cost|].
  unfold args_cost. cbn. lia.
Qed.
Lemma args_cost_le c :
  (8 * S (max_of (map height args)) ≤ c)%nat → args = [] ∨ (args_cost + 4 ≤ c)%nat.
Proof.
  intros Hc. unfold args_cost. destruct args as [|e l]; [by left|right].
  pose proof (height_pos e). cbn in *. lia.
Qed.
Lemma read_array : forallb plain args = true → Read (Expr_Array args sp).
Proof.
  intros Hp. apply read_of_reads; [done..|]. cbn [parse_level level_of spell].
  apply (array_reads _ _ args_cost);
    [apply args_read|by apply forallb_plain|apply args_cost_le; costs|unfold args_cost; lia].
Qed.
Lemma read_call e :
  Read e → plain (Expr_Call e args None sp) = true → Read (Expr_Call e args None sp).
Proof.
  intros He Hp. apply (read_of_chain _ suffix_body); [done..|]. cbn [parse_level level_of spell].
  cbn [plain] in Hp. rewrite !andb_true_iff, N.leb_le in Hp. destruct Hp as [[_ Ha] Hl].
  apply (call_step _ _ (cost e) _ _ args_cost);
    [by apply read_chain; [|apply fits_same; lia|]|apply args_read|by apply forallb_plain|done|costs
    |apply args_cost_le; costs|unfold args_cost; lia].
Qed.
End lists.

Lemma Forall_plain_read args :
  Forall (λ e, plain e = true → Read e) args → forallb plain args = true → Forall Read args.
Proof.
  induction 1 as [|e args He _ IH]; [done|]. cbn. rewrite andb_true_iff. intros [? ?].
  constructor; auto.
Qed.
Lemma plain_read e : plain e = true → Read e.
Proof.
  induction e using Expr_nested_ind with (Q := λ _, True) (R := λ _, True); try done; intros Hp.
  - apply read_of_reads; [done..|]. apply literal_reads.
  - apply read_of_reads; [done..|]. apply variable_reads.
  - apply read_unary; [|done]. apply IHe. by apply andb_true_iff in Hp as [? _].
  - pose proof Hp as [[? ?]%andb_true_iff _]%andb_true_iff. apply read_binary; auto.
  - pose proof Hp as [Hlr Ho]%andb_true_iff. pose proof Hlr as [? ?]%andb_true_iff.
    destruct o; try discriminate Ho; [apply read_and|apply read_or]; auto.
  - destruct ls; [done|]. pose proof Hp as [[? ?]%andb_true_iff _]%andb_true_iff.
    apply read_call; auto. by apply Forall_plain_read.
  - apply read_array; [|done]. by apply Forall_plain_read.
  - pose proof Hp as [? ?]%andb_true_iff. apply read_index; auto.
  - pose proof Hp as [? ?]%andb_true_iff. apply read_coalesce; auto.
  - pose proof Hp as [? _]%andb_true_iff. apply read_propagate; auto.
  - apply read_perform; auto.
  - pose proof Hp as [[[? ?]%andb_true_iff _]%andb_true_iff _]%andb_true_iff. apply read_through; auto.
  - apply read_get; auto.
Qed.

(** The whole text of an expression. *)
Lemma reads_whole w e c :
  reads_at 0 w e c → (8 ≤ c)%nat → (c ≤ 129)%nat →
  let ts := w ++ [plain_token Tk_Eof] in
  k_expression (knot labels (weight ts + 130)) (Parser_new ts)
    = Some (Ok e, eat (length w) (Parser_new ts)).
Proof.
  intros Hr Hc8 Hc ts.
  apply (expression_reads _ _ _ _ c [plain_token Tk_Eof]); [done..| |cbn; lia|done].
  rewrite upcoming_mu. unfold upcoming. cbn [Parser_new p_current p_tokens p_depth].
  rewrite drop_0. lia.
Qed.

(** Where the parser departs from the draft: the text of [(a ?? b) through f],
    which the draft writes without parentheses, is read as
    [a ?? (b through f)], and that of [(a ?? b) or give] as
    [a ?? (b or give)]. *)
Section departures.
Context (a b : Expr) (Ha : plain a = true) (Hb : plain b = true) (Hnc : is_coalesce b = false).
Context (Hha : (height a ≤ 14)%nat) (Hhb : (height b ≤ 14)%nat) (sp sp' : Span).
Local Set Default Proof Using "All".

Lemma coalesce_over w e :
  reads_at 1 w e 128 →
  let w' := spell 4 a ++ token_at Tk_QuestionQuestion sp :: w in
  let ts := w' ++ [plain_token Tk_Eof] in
  k_expression (knot labels (weight ts + 130)) (Parser_new ts)
    = Some (Ok (Expr_Coalesce a e sp), eat (length w') (Parser_new ts)).
Proof.
  intros Hw w'. apply (reads_whole _ _ 129); [|lia..]. apply reads_lower; [lia|done|lia|].
  eapply coalesce_reads; [|exact Hw| |lia..].
  - by apply (read_at a 4 2); [by apply plain_read|apply fits_coalesce|lia].
  - unfold cost. lia.
Qed.
Lemma coalesce_over_through f :
  plain f = true → is_stage f = true → (height f ≤ 14)%nat →
  let w := spell 0 (Expr_Through (Expr_Coalesce a b sp) f sp') in
  let ts := w ++ [plain_token Tk_Eof] in
  k_expression (knot labels (weight ts + 130)) (Parser_new ts)
    = Some (Ok (Expr_Coalesce a (Expr_Through b f sp') sp), eat (length w) (Parser_new ts)).
Proof.
  intros Hf Hst Hhf.
  replace (spell 0 (Expr_Through (Expr_Coalesce a b sp) f sp'))
    with (spell 4 a ++ token_at Tk_QuestionQuestion sp :: spell 3 b ++ token_at Tk_Through sp' :: spell 2 f)
    by (cbn; by rewrite <- app_assoc).
  apply coalesce_over.
  apply reads_lower; [lia|done|lia|]. apply through_reads, (through_step _ _ (cost b) _ _ _ (cost f));
    [apply read_chain; [by apply plain_read| |done]|by apply read_at; [by apply plain_read|apply fits_stage|lia]
    |done|unfold cost; lia..].
  pose proof (fits_fallible b Hnc). unfold fits in *. lia.
Qed.
Lemma coalesce_over_fallible :
  let w := spell 0 (Expr_Propagate (Expr_Coalesce a b sp) sp') in
  let ts := w ++ [plain_token Tk_Eof] in
  k_expression (knot labels (weight ts + 130)) (Parser_new ts)
    = Some (Ok (Expr_Coalesce a (Expr_Propagate b sp') sp), eat (length w) (Parser_new ts)).
Proof.
  replace (spell 0 (Expr_Propagate (Expr_Coalesce a b sp) sp'))
    with (spell 4 a ++ token_at Tk_QuestionQuestion sp :: spell 3 b ++ [plain_token Tk_Or; token_at Tk_Return sp'])
    by (cbn; by rewrite <- app_assoc).
  apply coalesce_over.
  apply (reads_below 3); [lia..| |lia]. apply (propagate_reads _ _ (cost b)); [|unfold cost; lia].
  apply read_chain; [by apply plain_read|by apply fits_fallible|done].
Qed.
End departures.

End levels.

