(* ===== verification/ParserEdges.v ===== *)
(** * The edges of the parser

    Where the methods are not total, and where the nesting limit does not
    reach: [parse_expression] panics on a source without tokens and on no
    other; function bodies nest without limit; the end of the source repeats
    the token before it. *)
From S2P Require Import Prelude Ast Values Text Lexer Utf8 Grammar LexerOk LexReads LexScan LexWeight Parser ParserOk ParserTotal Spelling PrecedenceOk.

(** ** A single expression or type *)

Section edges.
Context `{Unicode} (labels : string → option (list string)).

Lemma scan_errors source es : scan source = Some (Err es) → es ≠ [].
Proof.
  unfold scan, scan_tokens. destruct (while _ _ _ _) as [[u s]|]; [|done]. cbn.
  destruct (errors s); [done|]. by intros [= <-].
Qed.

(** The state before the first of several tokens. *)
Lemma new_fine ts t1 t2 l :
  ended_by_eof ts → ts = t1 :: t2 :: l → tok_kind t1 ≠ Tk_Eof → fine (Parser_new ts).
Proof.
  intros He -> Hk. split; [done|cbn; lia|right]. unfold kind_at. cbn. by intros [= ?].
Qed.

Lemma parse_all_Some {A} what (m : Knot → P A) source ts :
  scan source = Some (Ok ts) →
  ok (m (knot labels (weight ts + 130))) (Parser_new ts) anyhow →
  is_Some (parse_all labels what m source).
Proof.
  intros Hs (r & s' & E & [Ht _ _ Hi] & _). unfold parse_all. rewrite Hs. cbn. rewrite E.
  destruct r as [a|e]; [|by eexists].
  unfold at_eof, peek_kind, peek_token, mbind, P_bind, reads_state.
  destruct (lookup_lt_is_Some_2 _ _ Hi) as [t Ht']. rewrite Ht'. cbn.
  case_match; by eexists.
Qed.

(** Only the end of the source is [Tk_Eof]. *)
Lemma lexeme_not_eof prev w m k rest : lexeme prev w m k rest → k ≠ Tk_Eof.
Proof.
  intros Hlex ->. inversion Hlex as [c k r Hs| | | | | | | | | | | | | | | |d ds f hf e he k r H1 H2 H3 H4 H5 Hk|c w' r Hc Hm text].
  - unfold single in Hs. repeat (case_match; simplify_eq).
  - unfold number_kind in Hk. repeat (case_match; simplify_eq); by apply fmap_Some in Hk as (? & _ & ?).
  - match goal with E : default _ (keyword ?x) = Tk_Eof |- _ => revert E; unfold keyword end.
    intros E. repeat (case_match; simplify_eq).
Qed.
Lemma reads_nonempty prev p l ts : reads prev p l ts → ts ≠ [].
Proof. by induction 1. Qed.
Lemma scan_first source t ts :
  scan source = Some (Ok (t :: ts)) → ts = [] ∧ tok_kind t = Tk_Eof ∨ tok_kind t ≠ Tk_Eof ∧ ts ≠ [].
Proof.
  rewrite scan_iff_reads. remember (t :: ts) as l eqn:El. intros Hr.
  induction Hr as [prev p|prev p g rest ts' _ _ IH|prev p w m k rest ts' Hlex Hr _]; simplify_eq; auto.
  right. split; [by eapply lexeme_not_eof|]. by eapply reads_nonempty.
Qed.

(** Reading a single expression panics on exactly the sources without a
    token (empty, blank or comments only): [advance] at the end of the source
    steps back to a token before the first.  On every other source
    [parse_expression] returns an expression or a diagnostic. *)
Theorem parse_expression_panics source :
  parse_expression labels source = None ↔ ∃ t, scan source = Some (Ok [t]).
Proof.
  destruct (scan_returns source) as [[ts|es] Hs].
  - pose proof (scan_ended _ _ Hs) as He. destruct ts as [|t ts]; [by destruct He as ([] & ? & ? & ?)|].
    destruct (scan_first _ _ _ Hs) as [[-> Ht]|[Ht Hne]].
    + split; [by eexists|]. intros _. unfold parse_expression, parse_all. rewrite Hs. cbn [mbind option_bind].
      destruct t as [k ln cl]. cbn in Ht. subst k.
      assert (k_expression (knot labels (weight [mkToken Tk_Eof ln cl] + 130))
        (Parser_new [mkToken Tk_Eof ln cl]) = None) as ->; [|done]. by vm_compute.
    + split; [|intros [t' E]; rewrite Hs in E; by simplify_eq].
      destruct ts as [|t2 ts]; [done|]. intros E. exfalso.
      assert (fine (Parser_new (t :: t2 :: ts))) as Hf by (by eapply new_fine).
      destruct (parse_all_Some "expression" k_expression source _ Hs) as [r Hr];
        [|unfold parse_expression in E; congruence].
      eapply returns_weaken; [apply (ready_expression _ _ (knot_ok labels _)); [done|]|done].
      unfold mu, Parser_new, MAX_PARSE_DEPTH. cbn [p_current p_tokens p_depth]. rewrite drop_0. lia.
  - split; [|intros [t E]; congruence]. unfold parse_expression, parse_all. rewrite Hs. cbn.
    apply scan_errors in Hs. by destruct es.
Qed.

(** ** Nesting without a limit *)

(** [define f { define f { … } }], [n] deep. *)
Fixpoint nested_defines (n : nat) : list Token :=
  match n with
  | O => []
  | S n =>
      [plain_token Tk_Fun; plain_token (Tk_Identifier "f"); plain_token Tk_LeftBrace]
      ++ nested_defines n ++ [plain_token Tk_RightBrace]
  end.
Fixpoint nested_body (n : nat) : list Stmt :=
  match n with
  | O => []
  | S n => [Stmt_Function "f" [] [] None [] [] (nested_body n) (mkSpan 1 1)]
  end.

(** A method that reads up to [rest]. *)
Definition arrives {A} (m : P A) (s : Parser) (a : A) (rest : list Token) : Prop :=
  ∃ s', m s = Some (Ok a, s') ∧ upcoming s' = rest ∧ p_depth s' = p_depth s
        ∧ p_pending s' = p_pending s.

Lemma brace_or_end_true {A} (f : bool → P A) s t w :
  upcoming s = t :: w → same_variant (tok_kind t) Tk_RightBrace = true →
  ((closed ← check Tk_RightBrace;
    if (closed : bool) then mret false else at_end ← at_eof; mret (negb at_end)) ≫= f) s = f false s.
Proof.
  intros Hu Hk. erewrite bind_ok; [done|]. step (check_ahead _ _ _ Hu Tk_RightBrace). by rewrite Hk.
Qed.
Lemma brace_or_end_false {A} (f : bool → P A) s t w :
  upcoming s = t :: w → same_variant (tok_kind t) Tk_RightBrace = false →
  same_variant (tok_kind t) Tk_Eof = false →
  ((closed ← check Tk_RightBrace;
    if (closed : bool) then mret false else at_end ← at_eof; mret (negb at_end)) ≫= f) s = f true s.
Proof.
  intros Hu Hk He. erewrite bind_ok; [done|]. step (check_ahead _ _ _ Hu Tk_RightBrace). rewrite Hk.
  step (check_ahead _ _ _ Hu Tk_Eof : at_eof s = _). by rewrite He.
Qed.

(** A body that is empty, or one declaration. *)
Lemma block_empty k s rest :
  upcoming s = plain_token Tk_RightBrace :: rest → arrives (block_contents k) s [] rest.
Proof.
  intros Hu. exists (eat 1 s). split; [|split; [by eapply upcoming_eat_1|done]].
  unfold block_contents. rewrite (bind_ok _ _ s [] s).
  - by step (consume_ahead _ _ _ Hu Tk_RightBrace "expected '}' after block" eq_refl eq_refl).
  - unfold until_brace, while_do, repeated. cbn [loop_fuel].
    rewrite (bind_ok _ _ s (false, []) s); [done|]. by erewrite brace_or_end_true.
Qed.
Lemma block_one k s t w st rest :
  upcoming s = t :: w → same_variant (tok_kind t) Tk_RightBrace = false →
  same_variant (tok_kind t) Tk_Eof = false →
  arrives (k_declaration k) s st (plain_token Tk_RightBrace :: rest) →
  arrives (block_contents k) s [st] rest.
Proof.
  intros Hu Hk He (s1 & E & Hu1 & Hd & Hp). exists (eat 1 s1).
  split; [|split; [by eapply upcoming_eat_1|done]].
  unfold block_contents. rewrite (bind_ok _ _ s [st] s1).
  - by step (consume_ahead _ _ _ Hu1 Tk_RightBrace "expected '}' after block" eq_refl eq_refl).
  - unfold until_brace, while_do, repeated. rewrite (upcoming_length _ _ _ Hu). cbn [loop_fuel].
    rewrite (bind_ok _ _ s (true, [st]) s1).
    + rewrite (bind_ok _ _ s1 (false, [st]) s1); [done|]. by erewrite brace_or_end_true.
    + erewrite brace_or_end_false; [|done..]. cbn beta iota.
      rewrite (bind_ok _ _ s [st] s1); [done|]. by step E.
Qed.

Lemma function_arrives k body s w rest :
  upcoming s = plain_token (Tk_Identifier "f") :: plain_token Tk_LeftBrace :: w →
  previous_span s = Some (Ok (mkSpan 1 1), s) →
  (∀ s1, upcoming s1 = w → (mu s1 ≤ mu s)%nat → arrives (block_contents k) s1 body rest) →
  arrives (function_declaration k) s
    (Stmt_Function "f" [] [] None [] [] body (mkSpan 1 1)) rest.
Proof.
  intros Hu Hsp Hb. pose proof (upcoming_eat_1 _ _ _ Hu) as Hu1.
  set (s2 := add_callable "f" [] (eat 1 s)).
  assert (upcoming s2 = plain_token Tk_LeftBrace :: w) as Hu2 by exact Hu1.
  destruct (Hb (eat 1 s2)) as (s' & E & Hrest & Hd & Hp);
    [by eapply upcoming_eat_1|change (mu (eat 1 s2)) with (mu (eat 1 (eat 1 s))); rewrite eat_eat; apply mu_eat|].
  exists s'. split; [|done]. unfold function_declaration. step Hsp.
  rewrite (bind_ok _ _ _ "f" (eat 1 s)).
  2: { unfold consume_identifier. step (peek_kind_ahead _ _ _ Hu).
       cbn [plain_token tok_kind name_of]. by step (advance_ahead _ _ _ Hu eq_refl). }
  rewrite (bind_ok _ _ _ [] (eat 1 s)).
  2: { unfold type_parameters. by step (ahead_no _ _ _ Hu1 [Tk_Less] eq_refl). }
  rewrite (bind_ok _ _ _ [] (eat 1 s)).
  2: { unfold takes_clause. by step (ahead_no _ _ _ Hu1 [Tk_Takes] eq_refl). }
  step (ahead_no _ _ _ Hu1 [Tk_Arrow] eq_refl). rewrite (bind_ok _ _ _ None (eat 1 s)) by done.
  step (ahead_no _ _ _ Hu1 [Tk_Needs] eq_refl). rewrite (bind_ok _ _ _ [] (eat 1 s)) by done.
  rewrite (bind_ok _ _ _ tt s2) by done.
  step (consume_ahead _ _ _ Hu2 Tk_LeftBrace "expected '{' before function body" eq_refl eq_refl).
  by step E.
Qed.

Lemma declaration_arrives k body s w rest :
  upcoming s = plain_token Tk_Fun :: plain_token (Tk_Identifier "f") :: plain_token Tk_LeftBrace :: w →
  (∀ s1, upcoming s1 = w → (mu s1 < mu s)%nat → arrives (block_contents k) s1 body rest) →
  arrives (parse_declaration labels k) s
    (Stmt_Function "f" [] [] None [] [] body (mkSpan 1 1)) rest.
Proof.
  intros Hu Hb. pose proof (upcoming_eat_1 _ _ _ Hu) as Hu1.
  destruct (function_arrives k body (eat 1 s) w rest Hu1) as (s' & E & Hrest); [by apply span_after in Hu| |].
  { intros s1 Hs1 Hmu. apply Hb; [done|]. rewrite !upcoming_mu, upcoming_eat, Hu in *.
    cbn -[weight] in *. unfold weight in *. cbn [sum_list_with token_weight tok_kind plain_token] in *. lia. }
  exists s'. split; [|done]. unfold parse_declaration. step (peek_kind_ahead _ _ _ Hu).
  cbn [tok_kind plain_token].
  step (ahead_no _ _ _ Hu [Tk_Let] eq_refl). step (ahead_no _ _ _ Hu [Tk_Var] eq_refl).
  by step (ahead_yes _ _ _ Hu [Tk_Fun] eq_refl eq_refl).
Qed.
Lemma nested_arrives n : ∀ m s rest,
  upcoming s = nested_defines (S n) ++ rest → (mu s < m)%nat →
  arrives (k_declaration (knot labels m)) s
    (Stmt_Function "f" [] [] None [] [] (nested_body n) (mkSpan 1 1)) rest.
Proof.
  induction n as [|n IH]; intros m s rest Hu Hm; (destruct m as [|m]; [lia|]);
    change (k_declaration (knot labels (S m))) with (parse_declaration labels (knot labels m)).
  - eapply declaration_arrives; [exact Hu|]. intros s1 Hu1 _. by apply block_empty.
  - apply (declaration_arrives (knot labels m) (nested_body (S n)) s
      (nested_defines (S n) ++ plain_token Tk_RightBrace :: rest) rest).
    { rewrite Hu. cbn [nested_defines app]. by rewrite <- !app_assoc. }
    intros s1 Hu1 Hmu. eapply block_one; [exact Hu1|done..|]. apply IH; [done|lia].
Qed.

(** The nesting limit does not reach function bodies: the parser accepts
    functions nested to any depth, past [MAX_PARSE_DEPTH], recursing once per
    level, although the limit is there so that no source exhausts the stack. *)
Theorem function_nesting_unlimited n :
  parse labels (nested_defines (S n) ++ [plain_token Tk_Eof]) = Some (Ok (nested_body (S n))).
Proof.
  set (ts := nested_defines (S n) ++ [plain_token Tk_Eof]). set (s0 := Parser_new ts).
  assert (upcoming s0 = ts) as Hu by (unfold upcoming, s0; cbn [Parser_new p_current p_tokens]; apply drop_0).
  destruct (nested_arrives n (weight ts + 130) s0 [plain_token Tk_Eof]) as (s1 & E & Hu1 & _ & Hp);
    [done|rewrite upcoming_mu, Hu; cbn; lia|].
  assert (∃ w, ts = plain_token Tk_Fun :: w) as [w Hts] by (by eexists).
  pose proof Hu as Hu'. rewrite Hts in Hu'.
  replace (weight ts + 130)%nat with (S (weight ts + 129)) in * by lia.
  unfold parse. replace (weight ts + 130)%nat with (S (weight ts + 129)) by lia.
  cbn [knot k_parse k_declaration] in *. unfold program. fold s0.
  set (s2 := mkParser (p_tokens s1) (p_current s1) (p_depth s1) (p_callables s1) []).
  rewrite (turns_repeated _ 1 _ _ ([], nested_body (S n)) s2 ([], nested_body (S n)) s2); [done| | |].
  - eapply turns_S; [apply turns_O|]. unfold program_step.
    step (check_ahead _ _ _ Hu' Tk_Eof : at_eof s0 = _). 
    change (same_variant (tok_kind (plain_token Tk_Fun)) Tk_Eof) with false. cbv beta iota.
    by rewrite E, Hp.
  - rewrite (upcoming_length _ _ _ Hu'). lia.
  - unfold program_step. assert (upcoming s2 = [plain_token Tk_Eof]) as Hu2 by exact Hu1.
    by step (check_ahead _ _ _ Hu2 Tk_Eof : at_eof s2 = _).
Qed.
End edges.

(** ** At the end of the source, and inside a function *)

Section examples.
Context (labels : string → option (list string)).

(** What a source parses to. *)
Definition parsed (source : string) : option (result (list NivError) (list Stmt)) :=
  tokens ← scan (H := ascii_tables) source;
  match tokens with
  | Ok ts => parse (H := ascii_tables) labels ts
  | Err es => Some (Err es)
  end.

(** At the end of the source [advance] gives the last token again, so a
    statement that is missing is read from the condition before it: [when
    ready] is accepted as [when ready ready]. *)
Theorem missing_statement_accepted :
  parsed "when ready" = Some (Ok [
    Stmt_If (Expr_Variable "ready" (mkSpan 1 6))
      (Stmt_Expression (Expr_Variable "ready" (mkSpan 1 6))) None (mkSpan 1 1)]).
Proof. vm_compute. reflexivity. Qed.

(** [expose] in a function body takes effect at the top: the export it
    leaves waiting is added after the enclosing declaration, where no [g] is
    declared. *)
Theorem inner_expose_leaks :
  parsed "define f { expose define g { give 1 } }" = Some (Ok [
    Stmt_Function "f" [] [] None [] []
      [Stmt_Function "g" [] [] None [] []
         [Stmt_Return (Some (Expr_Literal (Literal_Int 1) (mkSpan 1 35))) (mkSpan 1 30)]
         (mkSpan 1 19)]
      (mkSpan 1 1);
    Stmt_Export ["g"] (mkSpan 1 12)]).
Proof. vm_compute. reflexivity. Qed.

(** [??] binds looser than [through]: [a ?? b through f] is
    [a ?? (b through f)]. *)
Lemma coalesce_over_pipeline :
  parsed "a ?? b through f" = Some (Ok [Stmt_Expression
    (Expr_Coalesce (Expr_Variable "a" (mkSpan 1 1))
       (Expr_Through (Expr_Variable "b" (mkSpan 1 6)) (Expr_Variable "f" (mkSpan 1 16)) (mkSpan 1 8))
       (mkSpan 1 3))]).
Proof. vm_compute. reflexivity. Qed.
End examples.
