(* ===== verification/Json.v ===== *)
(** * The JSON codec

    src/src/json.rs: the values, the reader ([Parser], one definition per
    method) and the writer.  A Rust [String] or [&str] is the list of its
    characters; only its length is counted in bytes.  A method is a computation
    in the monad [JM]: [None] is a panic or a loop that was cut off, and an
    error is a value that keeps the position reached.  [value], [array] and
    [object] recurse with fuel, one unit per call of [value]; [JsonOk] shows
    that [json_fuel] is enough, which bounds the reader's native stack as well. *)
From S2P Require Import Prelude Ast Text.

(** [MAX_INPUT] and [MAX_DEPTH] *)
Definition MAX_INPUT : N := 16 * 1024 * 1024.
Definition MAX_DEPTH : N := 256.

Inductive Json :=
  | J_Null
  | J_Bool (b : bool)
  | J_Number (text : list char)
  | J_String (text : list char)
  | J_Array (values : list Json)
  | J_Object (values : list (list char * Json)).

(** Induction that reaches the values inside arrays and objects. *)
Section json_induction.
Context (P : Json → Prop).
Context (Hnull : P J_Null) (Hbool : ∀ b, P (J_Bool b)).
Context (Hnumber : ∀ t, P (J_Number t)) (Hstring : ∀ t, P (J_String t)).
Context (Harray : ∀ l, Forall P l → P (J_Array l)).
Context (Hobject : ∀ l, Forall (λ kv, P kv.2) l → P (J_Object l)).

Fixpoint json_ind (v : Json) : P v :=
  match v with
  | J_Null => Hnull
  | J_Bool b => Hbool b
  | J_Number t => Hnumber t
  | J_String t => Hstring t
  | J_Array l =>
      Harray l ((fix go l : Forall P l :=
        match l with
        | [] => Forall_nil_2 _
        | v :: l => Forall_cons_2 _ _ _ (json_ind v) (go l)
        end) l)
  | J_Object l =>
      Hobject l ((fix go l : Forall (λ kv, P kv.2) l :=
        match l with
        | [] => Forall_nil_2 _
        | kv :: l => Forall_cons_2 _ _ _ (json_ind kv.2) (go l)
        end) l)
  end.
End json_induction.

(** [str::len] *)
Definition byte_length (l : list char) : N := len (l ≫= encode_utf8).

(** ** The reader *)

Record JParser := mkJParser { j_chars : list char; j_at : nat }.

Definition JM (A : Type) : Type := JParser → option (result string A * JParser).
#[export] Instance JM_ret : MRet JM := λ A a s, Some (Ok a, s).
#[export] Instance JM_bind : MBind JM := λ A B f m s,
  match m s with
  | Some (Ok a, s) => f a s
  | Some (Err e, s) => Some (Err e, s)
  | None => None
  end.

(** [Parser::error], returned *)
Definition j_error {A} (message : string) : JM A := λ s,
  Some (Err (message +:+ " at character " +:+ pretty (N.of_nat (j_at s) + 1)), s).

(** [Parser::peek] *)
Definition j_peek : JM (option char) := λ s, Some (Ok (j_chars s !! j_at s), s).

(** [self.at += 1] *)
Definition j_bump : JM unit := λ s, Some (Ok tt, mkJParser (j_chars s) (S (j_at s))).

(** [self.at] *)
Definition j_position : JM nat := λ s, Some (Ok (j_at s), s).

(** [self.chars[start..self.at].iter().collect()] *)
Definition j_slice (start : nat) : JM (list char) := λ s,
  match slice_get (j_chars s) (N.of_nat start) (N.of_nat (j_at s)) with
  | Some text => Some (Ok text, s)
  | None => None
  end.

(** [Parser::next] *)
Definition j_next : JM (option char) :=
  c ← j_peek;
  match c with
  | Some c => _ ← j_bump; mret (Some c)
  | None => mret None
  end.

(** [Parser::take] *)
Definition j_take (expected : char) : JM bool :=
  c ← j_peek;
  if bool_decide (c = Some expected) then _ ← j_bump; mret true else mret false.

(** [Parser::expect] *)
Definition j_expect (expected : char) (message : string) : JM unit :=
  taken ← j_take expected;
  if (taken : bool) then mret tt else j_error message.

(** [loop { body }] with the loop's local variables of type [V]; [body] breaks
    with a result or goes round again.  An iteration that goes round again
    moves past a character, so the characters left bound the iterations. *)
Fixpoint j_loop_fuel {V R} (fuel : nat) (body : V → JM (V + R)) (v : V) : JM R :=
  match fuel with
  | O => λ _, None
  | S fuel =>
    next ← body v;
    match next with inl v => j_loop_fuel fuel body v | inr r => mret r end
  end.
Definition j_loop {V R} (body : V → JM (V + R)) (v : V) : JM R := λ s,
  j_loop_fuel (S (length (j_chars s) - j_at s)) body v s.

(** [while self.peek().is_some_and(p) { self.at += 1 }] *)
Definition j_skip (p : char → bool) : JM unit :=
  j_loop (λ _, c ← j_peek;
    match c with
    | Some c => if p c then _ ← j_bump; mret (inl tt) else mret (inr tt)
    | None => mret (inr tt)
    end) tt.

Definition is_json_space (c : char) : bool :=
  (c =? 32) || (c =? tab) || (c =? carriage_return) || (c =? newline).

(** [Parser::whitespace] *)
Definition j_whitespace : JM unit := j_skip is_json_space.

(** [Parser::keyword] *)
Fixpoint j_keyword (keyword : list char) : JM unit :=
  match keyword with
  | [] => mret tt
  | expected :: keyword => _ ← j_expect expected "invalid JSON keyword"; j_keyword keyword
  end.

(** [Parser::digits] *)
Definition j_digits (message : string) : JM unit :=
  start ← j_position;
  _ ← j_skip is_ascii_digit;
  ended ← j_position;
  if bool_decide (ended = start) then j_error message else mret tt.

(** [char::to_digit(16)] *)
Definition to_digit_16 (c : char) : option N :=
  if is_ascii_hexdigit c then Some (digit_value c) else None.

(** Arithmetic of u16, which panics past its range. *)
Definition j_u16 (n : N) : JM N := λ s,
  if n <=? u16_max then Some (Ok n, s) else None.

(** [Parser::hex_quad] *)
Definition j_hex_digit (value : N) : JM N :=
  c ← j_next;
  match c ≫= to_digit_16 with
  | None => j_error "invalid Unicode escape"
  | Some digit => j_u16 (value * 16 + digit)
  end.
Definition j_hex_quad : JM N :=
  a ← j_hex_digit 0; b ← j_hex_digit a; c ← j_hex_digit b; j_hex_digit c.

Definition between (lo hi c : N) : bool := (lo <=? c) && (c <=? hi).

(** [Parser::unicode_escape] *)
Definition j_unicode_escape : JM char :=
  first ← j_hex_quad;
  scalar ←
    (if between 0xd800 0xdbff first then
       b ← j_next;
       u ← (if bool_decide (b = Some backslash) then j_next else mret None);
       if negb (bool_decide (b = Some backslash)) || negb (bool_decide (u = Some (ch "u")))
       then j_error "high surrogate requires a low surrogate"
       else
         second ← j_hex_quad;
         if negb (between 0xdc00 0xdfff second) then j_error "invalid low surrogate"
         else mret (0x10000 + N.shiftl (first - 0xd800) 10 + (second - 0xdc00))
     else if between 0xdc00 0xdfff first then j_error "unexpected low surrogate"
     else mret first);
  match from_u32 scalar with
  | Some c => mret c
  | None => j_error "invalid Unicode scalar"
  end.

(** The arm of [Parser::string] for a backslash: the character it stands for. *)
Definition j_escape : JM char :=
  escaped ← j_next;
  match escaped with
  | None => j_error "unterminated JSON escape"
  | Some e =>
      if (e =? quote) || (e =? backslash) || (e =? ch "/") then mret e
      else if e =? ch "b" then mret 8
      else if e =? ch "f" then mret 12
      else if e =? ch "n" then mret newline
      else if e =? ch "r" then mret carriage_return
      else if e =? ch "t" then mret tab
      else if e =? ch "u" then j_unicode_escape
      else j_error "invalid JSON escape"
  end.

(** [Parser::string] *)
Definition j_string : JM (list char) :=
  _ ← j_expect quote "expected JSON string";
  j_loop (λ value,
    character ← j_next;
    match character with
    | None => j_error "unterminated JSON string"
    | Some c =>
        if c =? quote then mret (inr value)
        else if c =? backslash then e ← j_escape; mret (inl (value ++ [e]))
        else if c <=? 0x1f then j_error "control character in JSON string"
        else mret (inl (value ++ [c]))
    end) [].

(** [self.peek().is_some_and(p)] *)
Definition j_ahead (p : char → bool) : JM bool :=
  c ← j_peek; mret (match c with Some c => p c | None => false end).

(** [Parser::number]: the digits before the point, the fraction and the
    exponent, then the text read. *)
Definition j_integer : JM unit :=
  _ ← j_take (ch "-");
  zero ← j_take (ch "0");
  if (zero : bool) then
    digit ← j_ahead is_ascii_digit;
    if (digit : bool) then j_error "leading zero in JSON number" else mret tt
  else j_digits "expected integer digits".
Definition j_fraction : JM unit :=
  point ← j_take (ch ".");
  if (point : bool) then j_digits "expected fraction digits" else mret tt.
Definition is_exponent (c : char) : bool := (c =? ch "e") || (c =? ch "E").
Definition is_sign (c : char) : bool := (c =? ch "+") || (c =? ch "-").
Definition j_exponent : JM unit :=
  exponent ← j_ahead is_exponent;
  if (exponent : bool) then
    _ ← j_bump;
    sign ← j_ahead is_sign;
    _ ← (if (sign : bool) then j_bump else mret tt);
    j_digits "expected exponent digits"
  else mret tt.
Definition j_number : JM (list char) :=
  start ← j_position;
  _ ← j_integer; _ ← j_fraction; _ ← j_exponent;
  j_slice start.

Section composite.
(** [self.value(depth)] *)
Context (value : N → JM Json).

(** [Parser::array] *)
Definition j_array (depth : N) : JM Json :=
  _ ← j_bump;
  _ ← j_whitespace;
  empty ← j_take (ch "]");
  if (empty : bool) then mret (J_Array [])
  else
    values ← j_loop (λ values,
      v ← value depth;
      _ ← j_whitespace;
      ended ← j_take (ch "]");
      if (ended : bool) then mret (inr (values ++ [v]))
      else
        _ ← j_expect (ch ",") "expected ',' or ']' in array";
        mret (inl (values ++ [v]))) [];
    mret (J_Array values).

(** [Parser::object]: the loop carries the entries and the set of their keys. *)
Definition j_object (depth : N) : JM Json :=
  _ ← j_bump;
  _ ← j_whitespace;
  empty ← j_take (ch "}");
  if (empty : bool) then mret (J_Object [])
  else
    values ← j_loop (λ '(values, keys),
      _ ← j_whitespace;
      key ← j_string;
      if bool_decide (key ∈ keys) then j_error "duplicate JSON object key"
      else
        let keys := {[key]} ∪ keys in
        _ ← j_whitespace;
        _ ← j_expect (ch ":") "expected ':' after object key";
        v ← value depth;
        _ ← j_whitespace;
        ended ← j_take (ch "}");
        if (ended : bool) then mret (inr (values ++ [(key, v)]))
        else
          _ ← j_expect (ch ",") "expected ',' or '}' in object";
          mret (inl (values ++ [(key, v)], keys))) ([], ∅ : gset (list char));
    mret (J_Object values).
End composite.

(** [Parser::value] *)
Fixpoint j_value (fuel : nat) (depth : N) : JM Json :=
  match fuel with
  | O => λ _, None
  | S fuel =>
    if MAX_DEPTH <? depth then j_error "JSON nesting limit exceeded"
    else
      _ ← j_whitespace;
      c ← j_peek;
      match c with
      | None => j_error "unexpected end of JSON input"
      | Some c =>
          if c =? ch "n" then _ ← j_keyword (ascii_chars "null"); mret J_Null
          else if c =? ch "t" then _ ← j_keyword (ascii_chars "true"); mret (J_Bool true)
          else if c =? ch "f" then _ ← j_keyword (ascii_chars "false"); mret (J_Bool false)
          else if c =? quote then t ← j_string; mret (J_String t)
          else if c =? ch "[" then j_array (j_value fuel) (depth + 1)
          else if c =? ch "{" then j_object (j_value fuel) (depth + 1)
          else if (c =? ch "-") || is_ascii_digit c then t ← j_number; mret (J_Number t)
          else j_error "expected JSON value"
      end
  end.

(** Calls of [value] nest once per level, and the call past the limit
    returns at once. *)
Definition json_fuel : nat := N.to_nat (MAX_DEPTH + 2).

(** [parser.at != parser.chars.len()], negated *)
Definition j_at_end : JM bool := λ s,
  Some (Ok (bool_decide (j_at s = length (j_chars s))), s).

(** What [parse] reads: a value, and nothing but white space after it. *)
Definition j_document : JM Json :=
  value ← j_value json_fuel 0;
  _ ← j_whitespace;
  ended ← j_at_end;
  if (ended : bool) then mret value else j_error "unexpected trailing JSON data".

(** [parse] *)
Definition json_parse (source : list char) : option (result string Json) :=
  if MAX_INPUT <? byte_length source then Some (Err "JSON input exceeds 16 MiB limit")
  else fst <$> j_document (mkJParser source 0).

(** ** The writer *)

(** [char::from_digit] below sixteen, in lower case. *)
Definition hex_lower (d : N) : char := if d <? 10 then 48 + d else 87 + d.

(** [format!("{:04x}", n)] for [n] below 2^16 *)
Definition format_04x (n : N) : list char :=
  [hex_lower (n / 4096 mod 16); hex_lower (n / 256 mod 16);
   hex_lower (n / 16 mod 16); hex_lower (n mod 16)].

(** The characters [write_string] writes for one character. *)
Definition write_char (c : char) : list char :=
  if c =? quote then [backslash; quote]
  else if c =? backslash then [backslash; backslash]
  else if c =? newline then [backslash; ch "n"]
  else if c =? carriage_return then [backslash; ch "r"]
  else if c =? tab then [backslash; ch "t"]
  else if c <=? 0x1f then [backslash; ch "u"] ++ format_04x c
  else [c].

(** [write_string] *)
Definition write_string (value : list char) : list char :=
  [quote] ++ (value ≫= write_char) ++ [quote].

(** [output.push('\n'); output.push_str(&" ".repeat(width * depth))] *)
Definition new_line (width depth : nat) : list char := newline :: replicate (width * depth) 32.

(** [separator] *)
Definition separator (indent : option nat) (depth index : nat) : list char :=
  (if (0 <? index)%nat then [ch ","] else [])
  ++ match indent with Some width => new_line width depth | None => [] end.

(** [close] *)
Definition close (indent : option nat) (depth : nat) (empty : bool) : list char :=
  match indent with
  | Some width => if negb empty then new_line width depth else []
  | None => []
  end.

(** [Vec::is_empty] *)
Definition is_nil {A} (l : list A) : bool := match l with [] => true | _ => false end.

(** [write_json] *)
Fixpoint write_json (value : Json) (indent : option nat) (depth : nat) : list char :=
  match value with
  | J_Null => ascii_chars "null"
  | J_Bool b => ascii_chars (if b then "true" else "false")
  | J_Number text => text
  | J_String text => write_string text
  | J_Array values =>
      [ch "["]
      ++ (fix go index values :=
            match values with
            | [] => []
            | v :: values =>
                separator indent (S depth) index ++ write_json v indent (S depth)
                ++ go (S index) values
            end) 0%nat values
      ++ close indent depth (is_nil values)
      ++ [ch "]"]
  | J_Object values =>
      [ch "{"]
      ++ (fix go index values :=
            match values with
            | [] => []
            | (key, v) :: values =>
                separator indent (S depth) index ++ write_string key ++ [ch ":"]
                ++ (if indent then [32] else []) ++ write_json v indent (S depth)
                ++ go (S index) values
            end) 0%nat values
      ++ close indent depth (is_nil values)
      ++ [ch "}"]
  end.

(** [valid], [compact] and [pretty] *)
Definition json_valid (source : list char) : option bool :=
  parsed ← json_parse source; Some (is_ok parsed).
Definition json_compact (source : list char) : option (result string (list char)) :=
  parsed ← json_parse source;
  Some (value ← parsed; Ok (write_json value None 0)).
Definition json_pretty (source : list char) : option (result string (list char)) :=
  parsed ← json_parse source;
  Some (value ← parsed; Ok (write_json value (Some 2%nat) 0 ++ [newline])).
