(* ===== verification/JsonSpec.v ===== *)
(** * JSON texts

    A reference grammar for the texts the codec of src/src/json.rs reads,
    written after the grammar of RFC 8259 and without reference to how the
    reader proceeds.  [json_text l v] says that the characters [l] spell the
    value [v].  What the code adds to the grammar is stated here too: keys of
    an object are distinct, an escaped surrogate comes in a pair, and values
    nest at most [MAX_DEPTH] deep. *)
From S2P Require Import Prelude Ast Text Json.

Definition spaces (l : list char) : Prop := Forall (λ c, is_json_space c = true) l.
Definition digit_run (l : list char) : Prop :=
  l ≠ [] ∧ Forall (λ c, is_ascii_digit c = true) l.

(** A text with white space around it. *)
Definition padded {A} (item : list char → A → Prop) (l : list char) (a : A) : Prop :=
  ∃ before k after, l = before ++ k ++ after ∧ spaces before ∧ spaces after ∧ item k a.

(** One or more texts with commas between them. *)
Inductive separated {A} (item : list char → A → Prop) : list char → list A → Prop :=
  | separated_last l a : item l a → separated item l [a]
  | separated_more l a k r :
      item l a → separated item k r → separated item (l ++ [ch ","] ++ k) (a :: r).

(** ** Strings *)

(** Four hexadecimal digits and the number they spell. *)
Definition quad (l : list char) (n : N) : Prop := length l = 4%nat ∧ from_digits 16 l = Some n.

(** The characters with an escape of two characters. *)
Definition short_escapes : list (char * char) :=
  [(quote, quote); (backslash, backslash); (ch "/", ch "/"); (ch "b", 8); (ch "f", 12);
   (ch "n", newline); (ch "r", carriage_return); (ch "t", tab)].

Inductive spells : list char → char → Prop :=
  | spells_itself c : 0x1f < c → c ≠ quote → c ≠ backslash → spells [c] c
  | spells_short e c : (e, c) ∈ short_escapes → spells [backslash; e] c
  | spells_quad l n :
      quad l n → n < 0xd800 ∨ 0xdfff < n → spells ([backslash; ch "u"] ++ l) n
  | spells_pair l high k low :
      quad l high → 0xd800 ≤ high ≤ 0xdbff → quad k low → 0xdc00 ≤ low ≤ 0xdfff →
      spells ([backslash; ch "u"] ++ l ++ [backslash; ch "u"] ++ k)
        (0x10000 + (high - 0xd800) * 1024 + (low - 0xdc00)).

Definition string_text (l : list char) (t : list char) : Prop :=
  ∃ pieces, l = [quote] ++ concat pieces ++ [quote] ∧ Forall2 spells pieces t.

(** ** Numbers *)

Definition sign_text (l : list char) : Prop := l = [] ∨ l = [ch "-"].
Definition integer_text (l : list char) : Prop :=
  l = [ch "0"] ∨ digit_run l ∧ head l ≠ Some (ch "0").
Definition fraction_text (l : list char) : Prop :=
  l = [] ∨ ∃ d, l = ch "." :: d ∧ digit_run d.
Definition exponent_text (l : list char) : Prop :=
  l = [] ∨ ∃ e sign d, l = e :: sign ++ d ∧ is_exponent e = true ∧ digit_run d ∧
    (sign = [] ∨ ∃ c, sign = [c] ∧ is_sign c = true).

Definition number_text (l : list char) : Prop :=
  ∃ s i f e, l = s ++ i ++ f ++ e ∧
    sign_text s ∧ integer_text i ∧ fraction_text f ∧ exponent_text e.

(** ** Values *)

Definition entry_text (item : list char → Json → Prop) (l : list char)
    (kv : list char * Json) : Prop :=
  ∃ k before v, l = k ++ before ++ [ch ":"] ++ v ∧
    string_text k kv.1 ∧ spaces before ∧ padded item v kv.2.

(** The texts whose inner values are spelled by [inner]. *)
Inductive layer (inner : list char → Json → Prop) : list char → Json → Prop :=
  | layer_null : layer inner (ascii_chars "null") J_Null
  | layer_true : layer inner (ascii_chars "true") (J_Bool true)
  | layer_false : layer inner (ascii_chars "false") (J_Bool false)
  | layer_number l : number_text l → layer inner l (J_Number l)
  | layer_string l t : string_text l t → layer inner l (J_String t)
  | layer_array_empty w : spaces w → layer inner ([ch "["] ++ w ++ [ch "]"]) (J_Array [])
  | layer_array l vs :
      separated (padded inner) l vs → layer inner ([ch "["] ++ l ++ [ch "]"]) (J_Array vs)
  | layer_object_empty w : spaces w → layer inner ([ch "{"] ++ w ++ [ch "}"]) (J_Object [])
  | layer_object l kvs :
      separated (padded (entry_text inner)) l kvs → NoDup kvs.*1 →
      layer inner ([ch "{"] ++ l ++ [ch "}"]) (J_Object kvs).

(** Texts with at most [n] levels of values inside values. *)
Fixpoint value_text (n : nat) : list char → Json → Prop :=
  layer match n with O => λ _ _, False | S n => value_text n end.

(** JSON documents. *)
Definition json_text : list char → Json → Prop := padded (value_text (N.to_nat MAX_DEPTH)).
