(* ===== verification/JsonReads.v ===== *)
(** * What the JSON reader accepts

    Every method of the reader returns (no panic, no loop cut off), and what it
    accepts it takes off the front of the input as a text of the grammar of
    [JsonSpec].  [accepts suf m P]: run before the characters [suf], [m] returns,
    and if it succeeds it has moved past some [l] of them with [P l] of its
    result. *)
From Stdlib Require Import ZifyN.
From S2P Require Import Prelude Ast Text Json JsonSpec.

(** The reader between the characters [pre] and [suf]. *)
Definition between_chars (pre suf : list char) : JParser := mkJParser (pre ++ suf) (length pre).

Definition accepts {A} (suf : list char) (m : JM A) (P : list char → A → Prop) : Prop :=
  ∀ pre, match m (between_chars pre suf) with
         | None => False
         | Some (Err _, _) => True
         | Some (Ok a, s) => ∃ l suf', suf = l ++ suf' ∧ s = between_chars (pre ++ l) suf' ∧ P l a
         end.

(** ** Rules *)

Lemma accepts_ret {A} suf (a : A) (P : list char → A → Prop) : P [] a → accepts suf (mret a) P.
Proof. intros H pre. cbn. exists [], suf. by rewrite app_nil_r. Qed.

Lemma accepts_error {A} suf message (P : list char → A → Prop) : accepts suf (j_error message) P.
Proof. intros pre. done. Qed.

Lemma accepts_bind {A B} suf (m : JM A) (f : A → JM B) P Q :
  accepts suf m P →
  (∀ l a suf', suf = l ++ suf' → P l a → accepts suf' (f a) (λ k b, Q (l ++ k) b)) →
  accepts suf (m ≫= f) Q.
Proof.
  intros Hm Hf pre. specialize (Hm pre). unfold mbind, JM_bind.
  destruct (m _) as [[[a|e] s]|]; [|done|done].
  destruct Hm as (l & suf' & -> & -> & Hp).
  specialize (Hf l a suf' eq_refl Hp (pre ++ l)).
  destruct (f a _) as [[[b|e] s]|]; [|done|done].
  destruct Hf as (k & suf & -> & -> & Hq). exists (l ++ k), suf.
  by rewrite <- !app_assoc.
Qed.

Lemma accepts_weaken_at {A} suf (m : JM A) (P Q : list char → A → Prop) :
  accepts suf m P → (∀ l a suf', suf = l ++ suf' → P l a → Q l a) → accepts suf m Q.
Proof.
  intros Hm H pre. specialize (Hm pre).
  destruct (m _) as [[[a|e] s]|]; [|done|done]. naive_solver.
Qed.

Lemma accepts_weaken {A} suf (m : JM A) (P Q : list char → A → Prop) :
  accepts suf m P → (∀ l a, P l a → Q l a) → accepts suf m Q.
Proof. intros Hm H. eapply accepts_weaken_at; eauto. Qed.

(** Look at the next character. *)
Lemma accepts_peek {B} suf (f : option char → JM B) Q :
  accepts suf (f (head suf)) Q → accepts suf (j_peek ≫= f) Q.
Proof.
  intros Hf pre. specialize (Hf pre). unfold mbind, JM_bind, j_peek. cbn.
  rewrite lookup_app_r, Nat.sub_diag by done. by destruct suf.
Qed.

Lemma accepts_bump c suf : accepts (c :: suf) j_bump (λ l _, l = [c]).
Proof.
  intros pre. cbn. exists [c], suf. split_and!; [done| |done].
  unfold between_chars. rewrite <- app_assoc. f_equal. rewrite length_app. cbn. lia.
Qed.

Lemma accepts_next suf :
  accepts suf j_next (λ l o, match o with Some c => l = [c] | None => l = [] end).
Proof.
  apply accepts_peek. destruct suf as [|c suf]; [by apply accepts_ret|].
  eapply accepts_bind; [apply accepts_bump|]. intros l [] suf' _ ->. by apply accepts_ret.
Qed.

Lemma accepts_take suf c :
  accepts suf (j_take c) (λ l b, l = if b : bool then [c] else []).
Proof.
  apply accepts_peek. case_bool_decide as H; [|by apply accepts_ret].
  destruct suf as [|c' suf]; cbn in H; simplify_eq.
  eapply accepts_bind; [apply accepts_bump|]. intros l [] suf' _ ->. by apply accepts_ret.
Qed.

Lemma accepts_expect suf c message : accepts suf (j_expect c message) (λ l _, l = [c]).
Proof.
  eapply accepts_bind; [apply accepts_take|]. intros l [] suf' _ ->;
    [by apply accepts_ret|apply accepts_error].
Qed.

Lemma accepts_ahead {B} suf p (f : bool → JM B) Q :
  accepts suf (f (match head suf with Some c => p c | None => false end)) Q →
  accepts suf (j_ahead p ≫= f) Q.
Proof.
  intros Hf. eapply accepts_bind.
  { apply accepts_peek. apply accepts_ret with
      (P := λ l b, l = [] ∧ b = match head suf with Some c => p c | None => false end). done. }
  intros l b suf' Hs [-> ->]. cbn in Hs. by subst.
Qed.

(** A loop whose turns move forward, with an invariant of what is read so far. *)
Lemma accepts_loop {V R} (body : V → JM (V + R)) (Inv : list char → V → Prop) Q v suf :
  Inv [] v →
  (∀ l v suf, Inv l v → accepts suf (body v) (λ k r,
     match r with inl v' => k ≠ [] ∧ Inv (l ++ k) v' | inr r => Q (l ++ k) r end)) →
  accepts suf (j_loop body v) Q.
Proof.
  intros Hv Hbody pre. unfold j_loop. cbn [between_chars j_chars j_at].
  rewrite length_app, Nat.add_sub_swap, Nat.sub_diag by done. cbn [Nat.add].
  assert (∀ fuel l v suf, length suf < fuel → Inv l v →
    accepts suf (j_loop_fuel fuel body v) (λ k r, Q (l ++ k) r))%nat as Hloop.
  { clear v suf pre Hv. intros fuel. induction fuel as [|fuel IH]; intros l v suf Hf Hv; [lia|].
    cbn. eapply accepts_bind; [by apply Hbody|].
    intros k [v'|r] suf' -> H; cbn in H.
    - destruct H as [Hk H]. rewrite length_app in Hf. destruct k; [done|].
      eapply accepts_weaken; [apply IH; [cbn in Hf; lia|done]|].
      intros k' r. cbn beta. by rewrite (assoc (++)).
    - apply accepts_ret. by rewrite app_nil_r. }
  refine (Hloop (S (length suf)) [] v suf _ Hv pre). lia.
Qed.

Lemma accepts_skip suf p : accepts suf (j_skip p) (λ l _, Forall (λ c, p c = true) l).
Proof.
  apply accepts_loop with (Inv := λ l _, Forall (λ c, p c = true) l); [constructor|].
  intros l [] k Hl. apply accepts_peek. destruct k as [|c k]; cbn.
  { apply accepts_ret. by rewrite app_nil_r. }
  destruct (p c) eqn:Hp; [|apply accepts_ret; by rewrite app_nil_r].
  eapply accepts_bind; [apply accepts_bump|]. intros ? [] suf' _ ->. apply accepts_ret.
  split; [done|]. apply Forall_app. by repeat constructor.
Qed.

Lemma accepts_whitespace suf : accepts suf j_whitespace (λ l _, spaces l).
Proof. apply accepts_skip. Qed.

Lemma accepts_keyword suf w : accepts suf (j_keyword w) (λ l _, l = w).
Proof.
  revert suf. induction w as [|c w IH]; intros suf; [by apply accepts_ret|].
  eapply accepts_bind; [apply accepts_expect|]. intros l [] suf' _ ->.
  eapply accepts_weaken; [apply IH|]. by intros l [] ->.
Qed.

Lemma accepts_digits suf message : accepts suf (j_digits message) (λ l _, digit_run l).
Proof.
  intros pre. unfold j_digits, mbind, JM_bind, j_position.
  pose proof (accepts_skip suf is_ascii_digit pre) as H.
  destruct (j_skip _ _) as [[[[]|e] s]|]; [|done|done].
  destruct H as (l & suf' & -> & -> & Hl). cbn. rewrite length_app.
  case_bool_decide as Hn; [done|]. cbn. exists l, suf'. split_and!; [done..|].
  split; [|done]. intros ->. apply Hn. cbn. lia.
Qed.

Create HintDb accepts.
#[export] Hint Resolve accepts_next accepts_take accepts_expect accepts_whitespace
  accepts_keyword accepts_digits accepts_bump accepts_skip : accepts.

(** Read the next part with the rule the database knows for it. *)
Ltac accept :=
  eapply accepts_bind; [solve [eauto with accepts]|]; intros ? ? ? -> ?; cbn beta in *;
  try match goal with u : unit |- _ => destruct u end.

(** ** Strings *)

Lemma hex_digit_bound c d : to_digit_16 c = Some d → d < 16.
Proof.
  unfold to_digit_16, digit_value, is_ascii_hexdigit, is_ascii_digit.
  intros H. repeat case_match; simplify_eq;
    rewrite ?orb_true_iff, ?andb_true_iff, ?N.leb_le, ?N.ltb_lt, ?N.ltb_ge, ?andb_false_iff, ?N.leb_gt in *; lia.
Qed.

(** What [n] hexadecimal digits do to the number before them. *)
Definition hex_fold (l : list char) (value : N) : option N :=
  foldM (λ c n, d ← to_digit_16 c; Some (n * 16 + d)) l value.

Lemma hex_fold_app l k v : hex_fold (l ++ k) v = hex_fold l v ≫= hex_fold k.
Proof.
  revert v. induction l as [|c l IH]; intros v; [done|]. cbn.
  destruct (to_digit_16 c); [apply IH|done].
Qed.

Lemma from_digits_16 l : l ≠ [] → from_digits 16 l = hex_fold l 0.
Proof.
  intros Hl. unfold from_digits. destruct l as [|c l]; [done|]. clear Hl.
  generalize 0. generalize (c :: l). clear. intros l. induction l as [|c l IH]; [done|].
  intros n. cbn. unfold to_digit_16. destruct (is_ascii_hexdigit c) eqn:Hc; cbn; [|done].
  assert (digit_value c < 16) as Hd by (apply (hex_digit_bound c); unfold to_digit_16; by rewrite Hc).
  apply N.ltb_lt in Hd as ->. apply IH.
Qed.

Lemma accepts_hex_digit suf v :
  v < 4096 →
  accepts suf (j_hex_digit v) (λ l n, length l = 1%nat ∧ hex_fold l v = Some n ∧ n < v * 16 + 16).
Proof.
  intros Hv. eapply accepts_bind; [apply accepts_next|]. intros l [c|] suf' _ ->; cbn;
    [|apply accepts_error].
  destruct (to_digit_16 c) as [d|] eqn:Hd; [|apply accepts_error].
  pose proof (hex_digit_bound _ _ Hd). intros pre. unfold j_u16, u16_max.
  rewrite (proj2 (N.leb_le _ _)) by lia. exists [], suf'. rewrite app_nil_r.
  split_and!; [done..| | |lia]; [done|]. done.
Qed.

Lemma accepts_hex_quad suf : accepts suf j_hex_quad (λ l n, quad l n ∧ n < 65536).
Proof.
  unfold j_hex_quad.
  do 3 (eapply accepts_bind; [apply accepts_hex_digit; lia|];
        intros ? ? ? _ (? & ? & ?); cbn beta in *).
  eapply accepts_weaken; [apply accepts_hex_digit; lia|]. intros l' n (? & ? & ?).
  split; [|lia]. split; [rewrite !length_app; lia|].
  rewrite from_digits_16 by (intros E; apply (f_equal length) in E; rewrite !length_app in E; cbn in E; lia).
  repeat match goal with
  | |- context [hex_fold (?l ++ ?k) ?v] => rewrite (hex_fold_app l k v)
  | H : hex_fold ?l ?v = Some _ |- context [hex_fold ?l ?v] => rewrite H; cbn [mbind option_bind]
  end. done.
Qed.

Lemma between_spec lo hi c : between lo hi c = true ↔ lo ≤ c ≤ hi.
Proof. unfold between. rewrite andb_true_iff, !N.leb_le. done. Qed.

Lemma between_false lo hi c : between lo hi c = false ↔ c < lo ∨ hi < c.
Proof. unfold between. rewrite andb_false_iff, !N.leb_gt. done. Qed.

(** What follows the letter of a [\u] escape. *)
Definition unicode_text (l : list char) (c : char) : Prop := spells ([backslash; ch "u"] ++ l) c.

Lemma accepts_unicode_escape suf : accepts suf j_unicode_escape unicode_text.
Proof.
  eapply accepts_bind; [apply accepts_hex_quad|]. intros l first suf' _ [Hl Hfirst].
  eapply accepts_bind with (P := λ k n, unicode_text (l ++ k) n);
    [|intros k n ? _ Hn; destruct (from_u32 n) eqn:Hc;
      [apply accepts_ret; unfold from_u32 in Hc; case_match; simplify_eq; by rewrite app_nil_r
      |apply accepts_error]].
  destruct (between 0xd800 0xdbff first) eqn:Hhigh.
  - apply between_spec in Hhigh.
    eapply accepts_bind; [apply accepts_next|]. intros b1 o suf2 _ Ho.
    case_bool_decide as Hb; cbn [negb orb].
    + subst o. subst b1.
      eapply accepts_bind; [apply accepts_next|]. intros b2 u suf3 _ Hu.
      case_bool_decide as Hb; cbn [negb orb]; [|apply accepts_error]. subst u b2.
      eapply accepts_bind; [apply accepts_hex_quad|]. intros k second suf4 _ [Hk _].
      destruct (between _ _ second) eqn:Hlow; cbn; [|apply accepts_error].
      apply between_spec in Hlow. apply accepts_ret. unfold unicode_text. cbn.
      rewrite app_nil_r, N.shiftl_mul_pow2. by apply (spells_pair l first k second).
    + eapply accepts_bind; [by apply accepts_ret with (P := λ l _, l = [])|].
      intros; apply accepts_error.
  - apply between_false in Hhigh.
    destruct (between _ _ first) eqn:Hlow; [apply accepts_error|].
    apply between_false in Hlow. apply accepts_ret. rewrite app_nil_r.
    apply spells_quad; [done|]. lia.
Qed.

Lemma accepts_escape suf : accepts suf j_escape (λ l c, spells (backslash :: l) c).
Proof.
  eapply accepts_bind; [apply accepts_next|]. intros l [e|] suf' _ ->; [|apply accepts_error].
  repeat match goal with
  | |- accepts _ (if ?b then _ else _) _ => destruct b eqn:?
  end; try apply accepts_error;
  try (apply accepts_ret; cbn; apply spells_short;
       rewrite ?orb_true_iff, ?N.eqb_eq in *; destruct_or?; subst; unfold short_escapes; set_solver).
  apply N.eqb_eq in Heqb5 as ->. apply accepts_unicode_escape.
Qed.

Lemma accepts_string suf : accepts suf j_string string_text.
Proof.
  eapply accepts_bind; [apply accepts_expect|]. intros ? [] suf' _ ->.
  apply accepts_loop with
    (Inv := λ l t, ∃ pieces, l = concat pieces ∧ Forall2 spells pieces t);
    [by exists []|].
  intros l t k (pieces & -> & Ht). eapply accepts_bind; [apply accepts_next|].
  intros ? [c|] ? _ ->; [|apply accepts_error].
  assert (∀ p c, spells p c → ∃ ps, concat pieces ++ p = concat ps ∧ Forall2 spells ps (t ++ [c])) as Hsnoc.
  { intros p d Hp. exists (pieces ++ [p]). rewrite concat_app. cbn. rewrite app_nil_r.
    split; [done|]. by apply Forall2_app; [|constructor]. }
  destruct (N.eqb_spec c quote) as [->|].
  { apply accepts_ret. exists pieces. by rewrite app_nil_r. }
  destruct (N.eqb_spec c backslash) as [->|].
  - eapply accepts_bind; [apply accepts_escape|]. intros q e ? _ He. apply accepts_ret.
    rewrite app_nil_r. split; [done|]. by apply Hsnoc.
  - destruct (N.leb_spec c 0x1f); [apply accepts_error|]. apply accepts_ret.
    rewrite app_nil_r. split; [done|]. apply Hsnoc. by apply spells_itself.
Qed.

(** ** Numbers *)

Lemma accepts_integer suf : accepts suf j_integer (λ l _, ∃ s i, l = s ++ i ∧ sign_text s ∧ integer_text i).
Proof.
  eapply accepts_bind; [apply accepts_take|]. intros s minus suf1 _ Hs.
  assert (sign_text s) by (destruct minus; subst s; [by right|by left]). clear Hs minus.
  eapply accepts_bind with (P := λ l b, l = (if b : bool then [ch "0"] else []) ∧
      (b = false → head suf1 ≠ Some (ch "0"))).
  { apply accepts_peek. case_bool_decide as Hz; [|by apply accepts_ret].
    destruct suf1 as [|c suf1]; cbn in Hz; simplify_eq.
    eapply accepts_bind; [apply accepts_bump|]. intros l [] ? _ ->. by apply accepts_ret. }
  intros l [] suf2 -> [-> Hz].
  - apply accepts_ahead. destruct (match _ with Some _ => _ | None => _ end); [apply accepts_error|].
    apply accepts_ret. exists s, [ch "0"]. split_and!; [done..|by left].
  - eapply accepts_weaken_at; [apply accepts_digits|].
    intros d [] suf3 -> Hd. exists s, d. split_and!; [done..|]. right. split; [done|].
    destruct Hd as [Hd _]. destruct d; [done|]. by apply Hz.
Qed.

Lemma accepts_fraction suf : accepts suf j_fraction (λ l _, fraction_text l).
Proof.
  eapply accepts_bind; [apply accepts_take|]. intros s [] suf1 _ ->.
  - eapply accepts_weaken; [apply accepts_digits|]. intros d [] Hd. right. by exists d.
  - apply accepts_ret. by left.
Qed.

Lemma accepts_exponent suf : accepts suf j_exponent (λ l _, exponent_text l).
Proof.
  apply accepts_ahead. destruct (match _ with Some _ => _ | None => _ end) eqn:He;
    [|apply accepts_ret; by left].
  destruct suf as [|e suf]; [done|]. cbn in He.
  eapply accepts_bind; [apply accepts_bump|]. intros ? [] ? _ ->. apply accepts_ahead.
  eapply accepts_bind with (P := λ k _, k = [] ∨ ∃ c, k = [c] ∧ is_sign c = true).
  { destruct (match _ with Some _ => _ | None => _ end) eqn:Hc; [|apply accepts_ret; by left].
    destruct suf' as [|c suf']; [done|]. eapply accepts_weaken; [apply accepts_bump|].
    intros ? [] ->. right. by exists c. }
  intros sign [] ? _ Hsign. eapply accepts_weaken; [apply accepts_digits|].
  intros d [] Hd. right. exists e, sign, d. done.
Qed.

Lemma accepts_number suf : accepts suf j_number (λ l t, t = l ∧ number_text l).
Proof.
  intros pre. unfold j_number. unfold mbind at 1, JM_bind at 1, j_position.
  assert (accepts suf (_ ← j_integer; _ ← j_fraction; j_exponent) (λ l _, number_text l)) as H.
  { eapply accepts_bind; [apply accepts_integer|]. intros ? [] ? _ (s & i & -> & Hs & Hi).
    eapply accepts_bind; [apply accepts_fraction|]. intros f [] ? _ Hf.
    eapply accepts_weaken; [apply accepts_exponent|]. intros e [] He.
    exists s, i, f, e. by rewrite <- app_assoc. }
  specialize (H pre). unfold mbind, JM_bind in *.
  destruct (j_integer _) as [[[[]|] s1]|]; [|done..].
  destruct (j_fraction _) as [[[[]|] s2]|]; [|done..].
  destruct (j_exponent _) as [[[[]|] s3]|]; [|done..].
  destruct H as (l & suf' & -> & -> & Hl). unfold j_slice. cbn.
  replace (slice_get _ _ _) with (Some l); [by exists l, suf'|].
  symmetry. rewrite <- (app_assoc pre), length_app.
  pose proof (slice_get_app pre l suf') as E. unfold len in E. rewrite Nat2N.inj_add. exact E.
Qed.

#[export] Hint Resolve accepts_number accepts_string : accepts.

(** ** Arrays, objects and values *)

Lemma separated_snoc {A} (item : list char → A → Prop) l a k r :
  separated item k r → item l a → separated item (k ++ [ch ","] ++ l) (r ++ [a]).
Proof.
  induction 1 as [k b Hb|k b k' r Hb _ IH]; intros Ha; cbn [app].
  - by constructor; [|constructor].
  - rewrite <- !app_assoc. cbn [app]. constructor; [done|]. by apply IH.
Qed.

(** The texts read so far, each followed by its comma, and their values. *)
Definition so_far {A} (item : list char → A → Prop) (l : list char) (r : list A) : Prop :=
  (l = [] ∧ r = []) ∨ ∃ k, l = k ++ [ch ","] ∧ separated item k r.

Lemma so_far_last {A} (item : list char → A → Prop) l r k a :
  so_far item l r → item k a → separated item (l ++ k) (r ++ [a]).
Proof.
  intros [[-> ->]|(l' & -> & Hl)] Ha; [by constructor|].
  rewrite <- app_assoc. by apply separated_snoc.
Qed.

Lemma so_far_more {A} (item : list char → A → Prop) l r k a :
  so_far item l r → item k a → so_far item (l ++ k ++ [ch ","]) (r ++ [a]).
Proof. intros Hl Ha. right. exists (l ++ k). rewrite app_assoc. split; [done|]. by apply so_far_last. Qed.

Lemma padded_before {A} (item : list char → A → Prop) w l a :
  spaces w → padded item l a → padded item (w ++ l) a.
Proof.
  intros Hw (before & k & after & -> & Hb & Ha & Hk). exists (w ++ before), k, after.
  rewrite <- app_assoc. split_and!; try done. by apply Forall_app.
Qed.

Lemma separated_before {A} (item : list char → A → Prop) w l r :
  spaces w → separated (padded item) l r → separated (padded item) (w ++ l) r.
Proof.
  intros Hw [k a Hk|k a k' r' Hk Hr].
  - constructor. by apply padded_before.
  - rewrite app_assoc. constructor; [|done]. by apply padded_before.
Qed.

(** Concatenations in right-associated form. *)
Ltac flat := repeat (progress (cbn [app]; rewrite <- ?app_assoc, ?app_nil_r)).

Section composite.
Local Set Default Proof Using "All".
Context (value : N → JM Json) (depth : N) (inner : list char → Json → Prop).
Context (Hvalue : ∀ suf, accepts suf (value depth) (λ l v,
  ∃ before k, l = before ++ k ∧ spaces before ∧ inner k v)).

Lemma accepts_array suf :
  accepts (ch "[" :: suf) (j_array value depth) (layer inner).
Proof.
  eapply accepts_bind; [apply accepts_bump|]. intros ? [] suf1 _ ->. accept.
  eapply accepts_bind; [apply accepts_take|]. intros ? [] suf2 _ ->.
  { apply accepts_ret. rewrite app_nil_r. by apply layer_array_empty. }
  eapply accepts_bind with (P := λ l vs, ∃ k, l = k ++ [ch "]"] ∧ separated (padded inner) k vs).
  - apply accepts_loop with (Inv := so_far (padded inner)); [by left|].
    intros read vs suf3 Hread.
    eapply accepts_bind; [apply Hvalue|]. intros ? v ? _ (before & k & -> & Hb & Hk). cbn beta.
    accept. assert (padded inner (before ++ k ++ l0) v) as Hp by (by exists before, k, l0).
    eapply accepts_bind; [apply accepts_take|]. intros ? [] ? _ ->.
    + apply accepts_ret. exists (read ++ before ++ k ++ l0). flat.
      split; [done|]. by apply so_far_last.
    + accept. subst. apply accepts_ret. split; [by destruct before, k, l0|].
      flat. replace (before ++ k ++ l0 ++ [ch ","]) with ((before ++ k ++ l0) ++ [ch ","]) by (by flat).
      by apply so_far_more.
  - intros ? vs ? _ (k & -> & Hk). apply accepts_ret. flat. rewrite (app_assoc l).
    apply (layer_array inner (l ++ k)). by apply separated_before.
Qed.

Lemma accepts_object suf :
  accepts (ch "{" :: suf) (j_object value depth) (layer inner).
Proof.
  eapply accepts_bind; [apply accepts_bump|]. intros ? [] suf1 _ ->. accept.
  eapply accepts_bind; [apply accepts_take|]. intros ? [] suf2 _ ->.
  { apply accepts_ret. rewrite app_nil_r. by apply layer_object_empty. }
  eapply accepts_bind with (P := λ l kvs, ∃ k, l = k ++ [ch "}"] ∧
    separated (padded (entry_text inner)) k kvs ∧ NoDup kvs.*1).
  - apply accepts_loop with (Inv := λ l '(kvs, keys),
      so_far (padded (entry_text inner)) l kvs ∧ NoDup kvs.*1 ∧ keys = list_to_set kvs.*1).
    { split; [by left|]. split; [constructor|done]. }
    intros read [kvs keys] suf3 (Hread & Hnd & ->).
    do 2 accept. case_bool_decide as Hin; [apply accepts_error|].
    accept. accept. subst.
    eapply accepts_bind; [apply Hvalue|]. intros ? v ? _ (before & k & -> & Hb & Hk). cbn beta.
    accept.
    set (text := l0 ++ l1 ++ l2 ++ [ch ":"] ++ before ++ k ++ l3).
    assert (padded (entry_text inner) text (a, v)) as Hp.
    { exists l0, (l1 ++ l2 ++ [ch ":"] ++ before ++ k ++ l3), []. rewrite app_nil_r.
      split_and!; [done..|by constructor|]. exists l1, l2, (before ++ k ++ l3).
      split_and!; [done..|]. by exists before, k, l3. }
    assert (NoDup (kvs ++ [(a, v)]).*1) as Hnd'.
    { rewrite fmap_app. apply NoDup_app. split_and!; [done| |apply NoDup_singleton].
      intros x Hx Hxa. apply list_elem_of_singleton in Hxa. subst x. apply Hin. by apply elem_of_list_to_set. }
    eapply accepts_bind; [apply accepts_take|]. intros ? [] ? _ ->.
    + apply accepts_ret. exists (read ++ text). subst text. flat.
      split_and!; [done| |done]. by apply so_far_last.
    + accept. subst. apply accepts_ret. flat. split; [by destruct l0, l1, l2|].
      split_and!; [|done|rewrite fmap_app, list_to_set_app_L; cbn; set_solver].
      replace (_ ++ _) with (read ++ text ++ [ch ","]) by (subst text; by flat).
      by apply so_far_more.
  - intros ? kvs ? _ (k & -> & Hk & Hnd). apply accepts_ret. flat. rewrite (app_assoc l).
    apply (layer_object inner (l ++ k)); [|done]. by apply separated_before.
Qed.
End composite.

(** What [value] reads: the text of a value after white space. *)
Definition led_by_space (item : list char → Json → Prop) (l : list char) (v : Json) : Prop :=
  ∃ before k, l = before ++ k ∧ spaces before ∧ item k v.

Lemma accepts_value_level fuel depth inner suf :
  depth ≤ MAX_DEPTH →
  (∀ suf, accepts suf (j_value fuel (depth + 1)) (led_by_space inner)) →
  accepts suf (j_value (S fuel) depth) (led_by_space (layer inner)).
Proof.
  intros Hd Hinner. cbn [j_value]. rewrite (proj2 (N.ltb_ge _ _)) by done. accept.
  apply accepts_weaken with (P := layer inner); [|intros k v Hv; by exists l, k].
  apply accepts_peek. destruct suf' as [|c suf']; [apply accepts_error|]. cbn [head].
  repeat match goal with
  | |- accepts _ (if (?c =? ?d) then _ else _) _ => destruct (N.eqb_spec c d) as [->|]
  end.
  all: try (by apply accepts_array); try (by apply accepts_object).
  1-4: eapply accepts_bind; [solve [eauto with accepts]|]; intros ? ? ? _ ?; cbn beta in *;
       subst; apply accepts_ret; rewrite app_nil_r; by constructor.
  destruct (_ || _); [|apply accepts_error]. eapply accepts_bind; [apply accepts_number|].
  intros ? ? ? _ [-> Hn]. apply accepts_ret. rewrite app_nil_r. by constructor.
Qed.

Lemma accepts_value n depth fuel suf :
  (n + N.to_nat depth = N.to_nat MAX_DEPTH)%nat → (S n < fuel)%nat →
  accepts suf (j_value fuel depth) (led_by_space (value_text n)).
Proof.
  revert suf fuel depth. induction n as [|n IH]; intros suf fuel depth Hn Hf;
    (destruct fuel as [|fuel]; [lia|]); apply accepts_value_level; try lia; intros suf'.
  - destruct fuel as [|fuel]; [lia|]. cbn [j_value].
    rewrite (proj2 (N.ltb_lt _ _)) by lia. apply accepts_error.
  - apply IH; lia.
Qed.

Lemma accepts_document suf : accepts suf j_document (λ l v, l = suf ∧ json_text suf v).
Proof.
  eapply accepts_bind; [apply (accepts_value (N.to_nat MAX_DEPTH)); unfold json_fuel; lia|].
  intros ? v suf1 -> (before & k & -> & Hb & Hk). accept.
  intros pre. unfold mbind, JM_bind, j_at_end. cbn. rewrite length_app.
  case_bool_decide as Hend; cbn; [|done].
  destruct suf'; [|cbn in Hend; lia]. exists [], []. rewrite !app_nil_r.
  split_and!; [done..|]. exists before, k, l. by rewrite <- app_assoc.
Qed.

(** Parsing returns, and accepts documents only. *)
Lemma json_parse_accepts source :
  match json_parse source with
  | None => False
  | Some (Ok v) => byte_length source ≤ MAX_INPUT ∧ json_text source v
  | Some (Err _) => True
  end.
Proof.
  unfold json_parse. destruct (N.ltb_spec MAX_INPUT (byte_length source)); [done|].
  pose proof (accepts_document source []) as Hd. unfold between_chars in Hd. cbn in *.
  destruct (j_document _) as [[[v|e] s]|]; cbn; [|done|done]. naive_solver.
Qed.
