(* ===== verification/JsonOk.v ===== *)
(** * The JSON codec is correct

    The reader accepts every document of the grammar of [JsonSpec] with the
    value it spells, so that together with [JsonReads] acceptance is decided
    exactly; the writer produces documents of that grammar, so that reading
    what was written gives the value back. *)
From Stdlib Require Import ZifyN.
From S2P Require Import Prelude Ast Text Json JsonSpec JsonReads.

(** [runs m l a rest]: before [l] and then [rest], [m] takes [l] and returns [a]. *)
Definition runs {A} (m : JM A) (l : list char) (a : A) (rest : list char) : Prop :=
  ∀ pre, m (between_chars pre (l ++ rest)) = Some (Ok a, between_chars (pre ++ l) rest).

(** The rest does not go on with a character of the class [p]. *)
Definition stops (p : char → bool) (rest : list char) : Prop :=
  match head rest with Some c => p c = false | None => True end.

(** ** Rules *)

Lemma runs_ret {A} (a : A) rest : runs (mret a) [] a rest.
Proof. intros pre. cbn. by rewrite app_nil_r. Qed.

Lemma runs_bind {A B} (m : JM A) (f : A → JM B) l k a b rest :
  runs m l a (k ++ rest) → runs (f a) k b rest → runs (m ≫= f) (l ++ k) b rest.
Proof.
  intros Hm Hf pre. unfold mbind, JM_bind. rewrite <- app_assoc, Hm, Hf. by rewrite <- app_assoc.
Qed.

(** The parts before and after one that takes nothing. *)
Lemma runs_bind_0 {A B} (m : JM A) (f : A → JM B) k a b rest :
  runs m [] a (k ++ rest) → runs (f a) k b rest → runs (m ≫= f) k b rest.
Proof. apply (runs_bind m f []). Qed.

Lemma runs_last {A B} (m : JM A) (f : A → JM B) l a b rest :
  runs m l a rest → runs (f a) [] b rest → runs (m ≫= f) l b rest.
Proof. intros Hm Hf. rewrite <- (app_nil_r l). by eapply runs_bind. Qed.

Lemma runs_peek {B} (f : option char → JM B) l b rest :
  runs (f (head (l ++ rest))) l b rest → runs (j_peek ≫= f) l b rest.
Proof.
  intros Hf pre. specialize (Hf pre). unfold mbind, JM_bind, j_peek. cbn.
  rewrite lookup_app_r, Nat.sub_diag by done. by destruct (l ++ rest).
Qed.

Lemma runs_ahead {B} p (f : bool → JM B) l b rest :
  runs (f (match head (l ++ rest) with Some c => p c | None => false end)) l b rest →
  runs (j_ahead p ≫= f) l b rest.
Proof. intros Hf. eapply runs_bind_0; [|exact Hf]. apply runs_peek. apply runs_ret. Qed.

Lemma runs_bump c rest : runs j_bump [c] tt rest.
Proof.
  intros pre. unfold j_bump, between_chars. cbn. rewrite <- app_assoc, length_app.
  repeat f_equal. cbn. lia.
Qed.

Lemma runs_next c rest : runs j_next [c] (Some c) rest.
Proof. apply runs_peek. eapply runs_last; [apply runs_bump|apply runs_ret]. Qed.

Lemma runs_take c rest : runs (j_take c) [c] true rest.
Proof.
  apply runs_peek. cbn. rewrite bool_decide_true by done.
  eapply runs_last; [apply runs_bump|apply runs_ret].
Qed.

Lemma runs_take_not c rest : head rest ≠ Some c → runs (j_take c) [] false rest.
Proof. intros H. apply runs_peek. cbn. rewrite bool_decide_false by done. apply runs_ret. Qed.

Lemma runs_expect c message rest : runs (j_expect c message) [c] tt rest.
Proof. eapply runs_last; [apply runs_take|apply runs_ret]. Qed.

Lemma runs_keyword w rest : runs (j_keyword w) w tt rest.
Proof.
  induction w as [|c w IH]; [apply runs_ret|].
  apply (runs_bind _ _ [c] w tt); [apply runs_expect|apply IH].
Qed.

(** The turns of a loop, and the break that ends it. *)
Inductive loops {V R} (body : V → JM (V + R)) : V → list char → R → list char → Prop :=
  | loops_break v l r rest : runs (body v) l (inr r) rest → loops body v l r rest
  | loops_turn v l v' k r rest :
      l ≠ [] → runs (body v) l (inl v') (k ++ rest) → loops body v' k r rest →
      loops body v (l ++ k) r rest.

Lemma runs_loop {V R} (body : V → JM (V + R)) v l r rest :
  loops body v l r rest → runs (j_loop body v) l r rest.
Proof.
  intros Hl pre. unfold j_loop. cbn [between_chars j_chars j_at].
  rewrite length_app, Nat.add_sub_swap, Nat.sub_diag by done. cbn [Nat.add].
  assert (length (l ++ rest) < S (length (l ++ rest)))%nat as Hf by lia. revert Hf.
  generalize (S (length (l ++ rest))) as fuel. intros fuel Hf. revert fuel pre Hf.
  induction Hl as [v l r rest H|v l v' k r rest Hne H _ IH]; intros fuel pre Hf;
    (destruct fuel as [|fuel]; [lia|]); cbn; unfold mbind, JM_bind.
  - by rewrite H.
  - rewrite <- app_assoc, H, IH, <- app_assoc; [done|].
    rewrite <- app_assoc, length_app in Hf. destruct l; [done|]. cbn in Hf. lia.
Qed.

Lemma runs_skip p l rest :
  Forall (λ c, p c = true) l → stops p rest → runs (j_skip p) l tt rest.
Proof.
  intros Hl Hrest. apply runs_loop. induction Hl as [|c l Hc _ IH].
  - apply loops_break. apply runs_peek. unfold stops in Hrest. cbn.
    destruct (head rest) as [c|]; [rewrite Hrest|]; apply runs_ret.
  - apply (loops_turn _ _ [c] tt l); [done| |done]. apply runs_peek. cbn. rewrite Hc.
    eapply runs_last; [apply runs_bump|apply runs_ret].
Qed.

Lemma runs_whitespace l rest : spaces l → stops is_json_space rest → runs j_whitespace l tt rest.
Proof. apply runs_skip. Qed.

Lemma runs_digits message l rest :
  digit_run l → stops is_ascii_digit rest → runs (j_digits message) l tt rest.
Proof.
  intros [Hne Hl] Hrest pre. unfold j_digits, mbind, JM_bind, j_position.
  rewrite (runs_skip _ _ _ Hl Hrest). cbn. rewrite length_app, bool_decide_false; [done|].
  destruct l; [done|]. cbn. lia.
Qed.

Create HintDb runs.
#[export] Hint Resolve runs_ret runs_bump runs_next runs_take runs_expect runs_keyword
  runs_whitespace runs_digits : runs.

(** Take the next part: [run c] the one character [c], [run0] nothing. *)
Ltac run0 := eapply runs_bind_0; [solve [eauto with runs]|]; cbn beta iota.
Ltac run c := eapply (runs_bind _ _ [c]); [solve [eauto with runs]|]; cbn beta iota.

(** ** Strings *)

Lemma hex_fold_bound l v n :
  hex_fold l v = Some n → n < (v + 1) * 16 ^ len l ∧ v * 16 ^ len l ≤ n.
Proof.
  revert v. induction l as [|c l IH]; intros v H; cbn in H.
  { simplify_eq. rewrite len_nil, N.pow_0_r. lia. }
  destruct (to_digit_16 c) as [d|] eqn:Hd; [|done]. apply hex_digit_bound in Hd.
  apply IH in H. rewrite len_cons, N.pow_add_r, N.pow_1_r. nia.
Qed.

Lemma runs_hex_digit c v d rest :
  to_digit_16 c = Some d → v < 4096 → runs (j_hex_digit v) [c] (v * 16 + d) rest.
Proof.
  intros Hd Hv. pose proof (hex_digit_bound _ _ Hd). eapply runs_last; [apply runs_next|].
  cbn. rewrite Hd. intros pre. unfold j_u16, u16_max. rewrite (proj2 (N.leb_le _ _)) by lia.
  cbn. by rewrite app_nil_r.
Qed.

Lemma runs_hex_quad l n rest : quad l n → runs j_hex_quad l n rest.
Proof.
  intros [Hl Hn]. destruct l as [|c1 [|c2 [|c3 [|c4 [|? ?]]]]]; try done.
  rewrite from_digits_16 in Hn by done. unfold hex_fold in Hn. cbn in Hn.
  repeat match type of Hn with
  | context [to_digit_16 ?c] =>
      let d := fresh "d" in let H := fresh "Hd" in
      destruct (to_digit_16 c) as [d|] eqn:H; cbn in Hn; [|done];
      pose proof (hex_digit_bound _ _ H)
  end. simplify_eq.
  do 3 (eapply (runs_bind _ _ [_]); [apply runs_hex_digit; [done|lia]|]).
  apply runs_hex_digit; [done|lia].
Qed.

Lemma scalar_ok n : n < 0xd800 ∨ 0xdfff < n ≤ 0x10ffff → from_u32 n = Some n.
Proof.
  intros H. unfold from_u32.
  destruct (N.ltb_spec n 0xd800), (N.ltb_spec 0xdfff n), (N.leb_spec n 0x10ffff);
    cbn; done || lia.
Qed.

Lemma quad_bound l n : quad l n → n < 65536.
Proof.
  intros [Hl Hn]. rewrite from_digits_16 in Hn by (intros ->; done).
  apply hex_fold_bound in Hn. unfold len in Hn. rewrite Hl in Hn. cbn in Hn. lia.
Qed.

Lemma runs_unicode_quad l n rest :
  quad l n → n < 0xd800 ∨ 0xdfff < n → runs j_unicode_escape l n rest.
Proof.
  intros Hq Hn. pose proof (quad_bound _ _ Hq). eapply runs_last; [by apply runs_hex_quad|].
  rewrite (proj2 (between_false 0xd800 0xdbff n)), (proj2 (between_false 0xdc00 0xdfff n)) by lia.
  eapply runs_last; [apply runs_ret|]. rewrite scalar_ok by lia. apply runs_ret.
Qed.

Lemma runs_unicode_pair l high k low rest :
  quad l high → 0xd800 ≤ high ≤ 0xdbff → quad k low → 0xdc00 ≤ low ≤ 0xdfff →
  runs j_unicode_escape (l ++ [backslash; ch "u"] ++ k)
    (0x10000 + (high - 0xd800) * 1024 + (low - 0xdc00)) rest.
Proof.
  intros Hl Hhigh Hk Hlow. eapply runs_bind; [by apply runs_hex_quad|].
  rewrite (proj2 (between_spec 0xd800 0xdbff high)) by lia.
  apply runs_last with (a := 0x10000 + (high - 0xd800) * 1024 + (low - 0xdc00));
    [|rewrite scalar_ok by lia; apply runs_ret].
  run backslash. rewrite bool_decide_true by done. run (ch "u").
  rewrite bool_decide_true by done. cbn [negb orb].
  eapply runs_last; [by apply runs_hex_quad|].
  rewrite (proj2 (between_spec 0xdc00 0xdfff low)) by lia. cbn [negb].
  rewrite N.shiftl_mul_pow2. apply runs_ret.
Qed.

(** One turn of the loop of [string]. *)
Definition string_turn (value : list char) : JM (list char + list char) :=
  character ← j_next;
  match character with
  | None => j_error "unterminated JSON string"
  | Some c =>
      if c =? quote then mret (inr value)
      else if c =? backslash then e ← j_escape; mret (inl (value ++ [e]))
      else if c <=? 0x1f then j_error "control character in JSON string"
      else mret (inl (value ++ [c]))
  end.

Lemma runs_escape p c rest : spells (backslash :: p) c → runs j_escape p c rest.
Proof.
  intros H. remember (backslash :: p) as l eqn:Hl.
  destruct H as [c ? ? ?|e c He|l n Hq Hn|l high k low ? ? ? ?]; cbn in Hl; simplify_eq.
  - eapply runs_last; [apply runs_next|].
    unfold short_escapes in He. rewrite !elem_of_cons, elem_of_nil in He.
    destruct_or? He; simplify_eq; try done; apply runs_ret.
  - run (ch "u"). by apply runs_unicode_quad.
  - run (ch "u"). by apply runs_unicode_pair.
Qed.

Lemma runs_string_turn p c t rest :
  spells p c → runs (string_turn t) p (inl (t ++ [c])) rest.
Proof.
  intros H. destruct p as [|b p].
  { inversion H. }
  destruct (decide (b = backslash)) as [->|Hb].
  - run backslash. eapply runs_last; [by apply runs_escape|apply runs_ret].
  - inversion H; simplify_eq; try done. run c. rewrite !(proj2 (N.eqb_neq _ _)) by done.
    rewrite (proj2 (N.leb_gt _ _)) by done. apply runs_ret.
Qed.

Lemma runs_string l t rest : string_text l t → runs j_string l t rest.
Proof.
  intros (pieces & -> & Hp). run quote. apply runs_loop. fold string_turn.
  enough (∀ read, loops string_turn read (concat pieces ++ [quote]) (read ++ t) rest) as H by apply H.
  induction Hp as [|p c pieces t Hc _ IH]; intros read; cbn [concat app].
  - apply loops_break. rewrite app_nil_r. eapply runs_last; [apply runs_next|apply runs_ret].
  - rewrite <- app_assoc. eapply loops_turn.
    + intros ->. inversion Hc.
    + by apply runs_string_turn.
    + change (c :: t) with ([c] ++ t). rewrite app_assoc. apply IH.
Qed.

(** ** Numbers *)

(** The characters a number may go on with. *)
Definition goes_on (c : char) : bool := is_ascii_digit c || (c =? ch ".") || is_exponent c.

Lemma stops_weaken (p q : char → bool) rest :
  (∀ c, q c = true → p c = true) → stops p rest → stops q rest.
Proof.
  unfold stops. intros H. destruct (head rest) as [c|]; [|done].
  specialize (H c). destruct (p c), (q c); naive_solver.
Qed.

Lemma stops_not p rest c : stops p rest → p c = true → head rest ≠ Some c.
Proof. unfold stops. destruct (head rest) as [d|]; [|done]. congruence. Qed.

Lemma digit_stops c rest : is_ascii_digit c = false → stops is_ascii_digit (c :: rest).
Proof. done. Qed.

(** The parts of a number do not begin with a character the part before takes. *)
Lemma exponent_stops e rest p :
  exponent_text e → stops goes_on rest →
  (∀ c, p c = true → goes_on c = true) → (∀ c, is_exponent c = true → p c = false) →
  stops p (e ++ rest).
Proof.
  intros [->|(c & s & d & -> & Hc & _)] Hrest Hp He; [by eapply stops_weaken|]. by apply He.
Qed.

Lemma exponent_not_digit c : is_exponent c = true → is_ascii_digit c = false.
Proof. unfold is_exponent. rewrite orb_true_iff, !N.eqb_eq. by intros [->| ->]. Qed.

Lemma digit_goes_on c : is_ascii_digit c = true → goes_on c = true.
Proof. unfold goes_on. by intros ->. Qed.

Lemma fraction_stops f e rest :
  fraction_text f → exponent_text e → stops goes_on rest → stops is_ascii_digit (f ++ e ++ rest).
Proof.
  intros [->|(d & -> & _)] He Hrest; [|done].
  cbn [app]. apply exponent_stops; [done|done|apply digit_goes_on|apply exponent_not_digit].
Qed.

Lemma runs_exponent e rest : exponent_text e → stops goes_on rest → runs j_exponent e tt rest.
Proof.
  intros He Hrest. assert (stops is_ascii_digit rest) as Hd
    by (eapply stops_weaken; [|done]; apply digit_goes_on).
  apply runs_ahead. destruct He as [->|(c & s & d & -> & Hc & Hd' & Hs)]; cbn.
  - assert (stops is_exponent rest) as H
      by (apply (stops_weaken goes_on); [|done]; unfold goes_on; intros c Hc; by rewrite Hc, orb_true_r).
    unfold stops in H. destruct (head rest) as [c|]; [rewrite H|]; apply runs_ret.
  - rewrite Hc. run c. apply runs_ahead. destruct Hs as [->|(m & -> & Hm)]; cbn.
    + destruct Hd' as [Hne Hall]. destruct d as [|x d]; [done|]. cbn.
      assert (is_sign x = false) as ->.
      { inversion Hall as [|? ? Hx]; subst. unfold is_ascii_digit in Hx.
        rewrite andb_true_iff, !N.leb_le in Hx. unfold is_sign.
        rewrite orb_false_iff, !N.eqb_neq. cbn. lia. }
      run0. by apply runs_digits.
    + rewrite Hm. run m. by apply runs_digits.
Qed.

Lemma runs_fraction f rest :
  fraction_text f → stops is_ascii_digit rest → stops (λ c, c =? ch ".") rest → runs j_fraction f tt rest.
Proof.
  intros [->|(d & -> & Hd)] Hrest Hpoint.
  - apply runs_bind_0 with (a := false); [|apply runs_ret]. apply runs_take_not.
    by apply (stops_not _ _ _ Hpoint).
  - run (ch "."). by apply runs_digits.
Qed.

Lemma runs_integer s i rest :
  sign_text s → integer_text i → stops is_ascii_digit rest → runs j_integer (s ++ i) tt rest.
Proof.
  intros Hs Hi Hrest.
  assert (head i ≠ Some (ch "-")) as Hminus.
  { destruct Hi as [->|[[Hne Hd] _]]; [done|]. destruct i as [|c i]; [done|].
    inversion Hd; subst. intros [= ->]. done. }
  apply runs_bind with (a := bool_decide (s = [ch "-"])).
  { destruct Hs as [->| ->]; [|apply runs_take]. apply runs_take_not.
    destruct i; [|done]. by destruct Hi as [|[[? _] _]]. }
  destruct Hi as [->|[Hd Hz]].
  - eapply runs_last; [apply runs_take|]. apply runs_ahead. cbn. unfold stops in Hrest.
    destruct (head rest) as [c|]; [rewrite Hrest|]; apply runs_ret.
  - apply runs_bind_0 with (a := false); [|by apply runs_digits]. apply runs_take_not.
    by destruct Hd as [? _], i.
Qed.

Lemma runs_number l rest : number_text l → stops goes_on rest → runs j_number l l rest.
Proof.
  intros (s & i & f & e & -> & Hs & Hi & Hf & He) Hrest.
  assert (runs (_ ← j_integer; _ ← j_fraction; j_exponent) ((s ++ i) ++ f ++ e) tt rest) as H.
  { eapply runs_bind; [apply runs_integer; try done; rewrite <- app_assoc; by apply fraction_stops|].
    eapply runs_bind; [|by apply runs_exponent]. apply runs_fraction; [done|..].
    - by apply (fraction_stops [] e); [left|..].
    - apply exponent_stops; try done; intros c Hc.
      + unfold goes_on. by rewrite Hc, orb_true_r.
      + unfold is_exponent in Hc. rewrite orb_true_iff, !N.eqb_eq in Hc. by destruct Hc as [->| ->]. }
  replace (s ++ i ++ f ++ e) with ((s ++ i) ++ f ++ e) by (by rewrite <- app_assoc).
  intros pre. specialize (H pre). unfold j_number. unfold mbind, JM_bind, j_position in *.
  destruct (j_integer _) as [[[[]|] s1]|]; [|done..].
  destruct (j_fraction _) as [[[[]|] s2]|]; [|done..]. rewrite H.
  unfold j_slice. cbn. rewrite <- app_assoc, length_app, Nat2N.inj_add.
  pose proof (slice_get_app pre ((s ++ i) ++ f ++ e) rest) as E. unfold len in E. by rewrite E.
Qed.

#[export] Hint Resolve runs_string runs_number : runs.

(** ** Arrays, objects and values *)

(** The text begins with a character that is neither white space nor closes a
    composite. *)
Definition begins (l : list char) : Prop :=
  ∃ c k, l = c :: k ∧ is_json_space c = false ∧ c ≠ ch "]" ∧ c ≠ ch "}".

Lemma begins_app l k : begins l → begins (l ++ k).
Proof. intros (c & r & -> & H). by exists c, (r ++ k). Qed.

Lemma begins_stops l rest : begins l → stops is_json_space (l ++ rest).
Proof. intros (c & k & -> & Hc & _). exact Hc. Qed.

Lemma digit_begins c k : (c =? ch "-") || is_ascii_digit c = true → begins (c :: k).
Proof.
  unfold is_ascii_digit. rewrite orb_true_iff, andb_true_iff, N.eqb_eq, !N.leb_le. intros Hc.
  exists c, k. unfold is_json_space, tab, carriage_return, newline.
  rewrite !orb_false_iff, !N.eqb_neq. cbn in *. split_and!; [done|lia..].
Qed.

(** The first character of a number. *)
Lemma number_head l : number_text l → ∃ c k, l = c :: k ∧ (c =? ch "-") || is_ascii_digit c = true.
Proof.
  intros (s & i & f & e & -> & [->| ->] & Hi & _); [|by eexists _, _].
  destruct Hi as [->|[[Hne Hd] _]]; [by eexists _, _|].
  destruct i as [|c i]; [done|]. inversion Hd as [|? ? Hc]; subst.
  exists c, (i ++ f ++ e). by rewrite Hc, orb_true_r.
Qed.

Lemma string_begins l t : string_text l t → begins l.
Proof. intros (p & -> & _). by eexists _, _. Qed.

Lemma entry_begins inner l kv : entry_text inner l kv → begins l.
Proof. intros (k & b & v & -> & Hk & _). apply begins_app. by eapply string_begins. Qed.

Lemma layer_begins inner l v : layer inner l v → begins l.
Proof.
  destruct 1 as [| | |l Hl|l t Hl| | | |]; try by eexists _, _.
  - destruct (number_head l Hl) as (c & k & -> & Hc). by apply digit_begins.
  - by eapply string_begins.
Qed.

(** Leading white space can be split off. *)
Lemma separated_trim {A} (item : list char → A → Prop) l r :
  (∀ l a, item l a → begins l) → separated (padded item) l r →
  ∃ w k, l = w ++ k ∧ spaces w ∧ begins k ∧ separated (padded item) k r.
Proof.
  intros Hitem [l' a (before & k & after & -> & Hb & Ha & Hk)
    |l' a k' r' (before & k & after & -> & Hb & Ha & Hk) Hr].
  - exists before, (k ++ after). split_and!; [done..|apply begins_app; eauto|].
    constructor. exists [], k, after. split_and!; [done|constructor|done..].
  - exists before, ((k ++ after) ++ [ch ","] ++ k'). rewrite <- !app_assoc.
    split_and!; [done..|apply begins_app; eauto|]. rewrite app_assoc. constructor; [|done].
    exists [], k, after. split_and!; [done|constructor|done..].
Qed.

(** What can follow a value in a composite: white space, then a comma or the
    closing character. *)
Lemma spaces_stop w rest : spaces w → stops goes_on rest → stops goes_on (w ++ rest).
Proof.
  intros Hw Hrest. destruct w as [|d w]; [done|]. inversion Hw as [|? ? Hd]; subst.
  unfold is_json_space in Hd. rewrite !orb_true_iff, !N.eqb_eq in Hd. unfold stops. cbn.
  by destruct Hd as [[[->| ->]| ->]| ->].
Qed.

Section composite.
Local Set Default Proof Using "All".
Context (value : N → JM Json) (depth : N) (inner : list char → Json → Prop).
Context (Hbegins : ∀ l v, inner l v → begins l).
Context (Hvalue : ∀ before l v rest, spaces before → inner l v → stops goes_on rest →
  runs (value depth) (before ++ l) v rest).

Definition array_turn (values : list Json) : JM (list Json + list Json) :=
  v ← value depth;
  _ ← j_whitespace;
  ended ← j_take (ch "]");
  if (ended : bool) then mret (inr (values ++ [v]))
  else
    _ ← j_expect (ch ",") "expected ',' or ']' in array";
    mret (inl (values ++ [v])).

Lemma array_loops l vs rest read :
  separated (padded inner) l vs → loops array_turn read (l ++ [ch "]"]) (read ++ vs) rest.
Proof.
  intros Hl. revert read. induction Hl as [l v Hv|l v k vs Hv _ IH]; intros read;
    destruct Hv as (before & t & after & -> & Hb & Ha & Ht).
  - apply loops_break. rewrite <- !app_assoc, (app_assoc before).
    eapply runs_bind; [apply Hvalue; try done; rewrite <- app_assoc; by apply spaces_stop|].
    eapply runs_bind; [by apply runs_whitespace|]. run (ch "]"). apply runs_ret.
  - replace ((_ ++ _) ++ _) with (((before ++ t) ++ after ++ [ch ","]) ++ k ++ [ch "]"])
      by (by rewrite <- !app_assoc).
    apply loops_turn with (v' := read ++ [v]).
    + intros E. apply (f_equal length) in E. rewrite !length_app in E. cbn in E. lia.
    + eapply runs_bind; [apply Hvalue; try done; rewrite <- !app_assoc; by apply spaces_stop|].
      eapply runs_bind; [by apply runs_whitespace|].
      eapply runs_bind_0; [by apply runs_take_not|]. run (ch ","). apply runs_ret.
    + change (v :: vs) with ([v] ++ vs). rewrite app_assoc. apply IH.
Qed.

Lemma runs_array l vs rest :
  separated (padded inner) l vs →
  runs (j_array value depth) ([ch "["] ++ l ++ [ch "]"]) (J_Array vs) rest.
Proof.
  intros Hl. destruct (separated_trim _ _ _ Hbegins Hl) as (w & k & -> & Hw & Hk & Hs).
  eapply runs_bind; [apply runs_bump|]. rewrite <- app_assoc.
  eapply runs_bind; [apply runs_whitespace; [done|]; rewrite <- app_assoc; by apply begins_stops|].
  eapply runs_bind_0.
  { apply runs_take_not. destruct Hk as (c & k' & -> & _ & Hc & _). intros [= ->]. by apply Hc. }
  cbn beta iota. eapply runs_last; [|apply runs_ret].
  apply runs_loop. by apply (array_loops k vs rest []).
Qed.

Lemma runs_array_empty w rest :
  spaces w → runs (j_array value depth) ([ch "["] ++ w ++ [ch "]"]) (J_Array []) rest.
Proof.
  intros Hw. eapply runs_bind; [apply runs_bump|].
  eapply runs_bind; [by apply runs_whitespace|]. run (ch "]"). apply runs_ret.
Qed.

Definition object_turn : list (list char * Json) * gset (list char) →
    JM (list (list char * Json) * gset (list char) + list (list char * Json)) :=
  λ '(values, keys),
    _ ← j_whitespace;
    key ← j_string;
    if bool_decide (key ∈ keys) then j_error "duplicate JSON object key"
    else
      let keys := {[key]} ∪ keys in
      _ ← j_whitespace;
      _ ← j_expect (ch ":") "expected ':' after object key";
      v ← value depth;
      _ ← j_whitespace;
      ended ← j_take (ch "}");
      if (ended : bool) then mret (inr (values ++ [(key, v)]))
      else
        _ ← j_expect (ch ",") "expected ',' or '}' in object";
        mret (inl (values ++ [(key, v)], keys)).

(** A turn up to the end of the entry, with what follows it. *)
Lemma object_entry l kv values keys k r rest :
  padded (entry_text inner) l kv → kv.1 ∉ keys →
  stops goes_on (k ++ rest) → stops is_json_space (k ++ rest) →
  runs (ended ← j_take (ch "}");
        if (ended : bool) then mret (inr (values ++ [kv]))
        else _ ← j_expect (ch ",") "expected ',' or '}' in object";
             mret (inl (values ++ [kv], {[kv.1]} ∪ keys))) k r rest →
  runs (object_turn (values, keys)) (l ++ k) r rest.
Proof.
  destruct kv as [key v]. cbn.
  intros (b1 & e & a1 & -> & Hb1 & Ha1 & kt & b2 & vt & -> & Hk & Hb2 & b3 & t & a2 & -> & Hb3 & Ha2 & Ht)
    Hkey Hgo Hspace Hend. cbn in Hk, Ht.
  replace (_ ++ k) with (b1 ++ kt ++ b2 ++ [ch ":"] ++ (b3 ++ t) ++ (a2 ++ a1) ++ k)
    by (by rewrite <- !app_assoc).
  assert (spaces (a2 ++ a1)) as Ha by (by apply Forall_app).
  eapply runs_bind; [apply runs_whitespace; [done|]; rewrite <- !app_assoc;
    apply begins_stops; by eapply string_begins|].
  eapply runs_bind; [by apply runs_string|]. rewrite bool_decide_false by done.
  eapply runs_bind; [by apply runs_whitespace|]. run (ch ":").
  eapply runs_bind; [apply Hvalue; try done; rewrite <- app_assoc; by apply spaces_stop|].
  eapply runs_bind; [by apply runs_whitespace|]. exact Hend.
Qed.

Lemma object_loops l kvs rest read keys :
  separated (padded (entry_text inner)) l kvs → NoDup (read ++ kvs).*1 → keys = list_to_set read.*1 →
  loops object_turn (read, keys) (l ++ [ch "}"]) (read ++ kvs) rest.
Proof.
  intros Hl. revert read keys. induction Hl as [l kv Hkv|l kv k kvs Hkv _ IH]; intros read keys Hnd ->;
    assert (kv.1 ∉@{gset (list char)} list_to_set read.*1) as Hnew
      by (rewrite elem_of_list_to_set; rewrite fmap_app in Hnd;
          apply NoDup_app in Hnd as (_ & Hnd & _); intros Hin; by apply (Hnd _ Hin), list_elem_of_here).
  - apply loops_break. apply object_entry with kv; try done.
    eapply runs_last; [apply runs_take|apply runs_ret].
  - replace ((l ++ _) ++ _) with ((l ++ [ch ","]) ++ k ++ [ch "}"]) by (by rewrite <- !app_assoc).
    apply loops_turn with (v' := (read ++ [kv], {[kv.1]} ∪ list_to_set read.*1)).
    + by destruct l.
    + apply object_entry with kv; try done.
      eapply runs_bind_0; [by apply runs_take_not|]. run (ch ","). apply runs_ret.
    + change (kv :: kvs) with ([kv] ++ kvs) in *. rewrite app_assoc in *. apply IH; [done|].
      rewrite fmap_app, list_to_set_app_L. cbn. set_solver.
Qed.

Lemma runs_object l kvs rest :
  separated (padded (entry_text inner)) l kvs → NoDup kvs.*1 →
  runs (j_object value depth) ([ch "{"] ++ l ++ [ch "}"]) (J_Object kvs) rest.
Proof.
  intros Hl Hnd. destruct (separated_trim _ _ _ (entry_begins inner) Hl) as (w & k & -> & Hw & Hk & Hs).
  eapply runs_bind; [apply runs_bump|]. rewrite <- app_assoc.
  eapply runs_bind; [apply runs_whitespace; [done|]; rewrite <- app_assoc; by apply begins_stops|].
  eapply runs_bind_0.
  { apply runs_take_not. destruct Hk as (c & k' & -> & _ & _ & Hc). intros [= ->]. by apply Hc. }
  cbn beta iota. eapply runs_last; [|apply runs_ret].
  apply runs_loop. by apply (object_loops k kvs rest []).
Qed.

Lemma runs_object_empty w rest :
  spaces w → runs (j_object value depth) ([ch "{"] ++ w ++ [ch "}"]) (J_Object []) rest.
Proof.
  intros Hw. eapply runs_bind; [apply runs_bump|].
  eapply runs_bind; [by apply runs_whitespace|]. run (ch "}"). apply runs_ret.
Qed.
End composite.

Lemma runs_value_level fuel depth inner before l v rest :
  depth ≤ MAX_DEPTH → (∀ l v, inner l v → begins l) →
  (∀ before l v rest, spaces before → inner l v → stops goes_on rest →
     runs (j_value fuel (depth + 1)) (before ++ l) v rest) →
  spaces before → layer inner l v → stops goes_on rest →
  runs (j_value (S fuel) depth) (before ++ l) v rest.
Proof.
  intros Hd Hbegins Hinner Hb Hl Hrest. cbn [j_value]. rewrite (proj2 (N.ltb_ge _ _)) by done.
  eapply runs_bind; [apply runs_whitespace; [done|]; apply begins_stops; by eapply layer_begins|].
  apply runs_peek. destruct Hl as [| | |l Hl|l t Hl|w Hw|l vs Hvs|w Hw|l kvs Hkvs Hnd].
  1-3: eapply runs_last; [apply runs_keyword|apply runs_ret].
  - destruct (number_head l Hl) as (c & k & E & Hc). rewrite E. cbn [head app]. rewrite Hc, <- E.
    repeat match goal with |- context [c =? ?d] => destruct (N.eqb_spec c d) as [->|]; try done end.
    all: eapply runs_last; [by apply runs_number|apply runs_ret].
  - destruct Hl as (p & -> & Hp). cbn. eapply runs_last; [apply runs_string; by exists p|apply runs_ret].
  - by apply runs_array_empty with inner.
  - by apply runs_array with inner.
  - by apply runs_object_empty with inner.
  - by apply runs_object with inner.
Qed.

Lemma value_text_begins n l v : value_text n l v → begins l.
Proof. destruct n; apply layer_begins. Qed.

Lemma runs_value n fuel depth before l v rest :
  (n + N.to_nat depth = N.to_nat MAX_DEPTH)%nat → (S n < fuel)%nat →
  spaces before → value_text n l v → stops goes_on rest →
  runs (j_value fuel depth) (before ++ l) v rest.
Proof.
  revert fuel depth before l v rest. induction n as [|n IH]; intros fuel depth before l v rest Hn Hf Hb Hl Hr;
    (destruct fuel as [|fuel]; [lia|]).
  - eapply runs_value_level; [lia| | |done|exact Hl|done]; done.
  - eapply runs_value_level; [lia| | |done|exact Hl|done].
    + intros. by eapply value_text_begins.
    + intros. apply IH; try done; lia.
Qed.

Lemma json_parse_reads source v :
  byte_length source ≤ MAX_INPUT → json_text source v → json_parse source = Some (Ok v).
Proof.
  intros Hs (before & l & after & -> & Hb & Ha & Hl). unfold json_parse.
  rewrite (proj2 (N.ltb_ge _ _)) by done.
  assert (runs j_document ((before ++ l) ++ after) v []) as H.
  { eapply runs_bind.
    - apply (runs_value (N.to_nat MAX_DEPTH)); try done; [unfold json_fuel; lia|].
      by apply spaces_stop.
    - eapply runs_last; [by apply runs_whitespace|]. intros pre. unfold mbind, JM_bind, j_at_end. cbn.
      by rewrite !app_nil_r, bool_decide_true. }
  specialize (H []). unfold between_chars in H. cbn in H. rewrite app_nil_r, <- app_assoc in H.
  by rewrite H.
Qed.

(** C14: the JSON reader of json.rs always returns (it neither panics nor loops,
    and never nests more than [json_fuel] calls of [value]), and it accepts a
    text exactly when the text is at most 16 MiB long and is a document of the
    reference grammar, with the value the grammar gives it.  The grammar is
    RFC 8259's, with distinct keys, paired surrogates and nesting limited to
    [MAX_DEPTH]. *)
Theorem json_parse_exact source :
  (∃ r, json_parse source = Some r) ∧
  ∀ v, json_parse source = Some (Ok v) ↔ byte_length source ≤ MAX_INPUT ∧ json_text source v.
Proof.
  pose proof (json_parse_accepts source) as H. split.
  - destruct (json_parse source) as [r|]; [by exists r|done].
  - intros v. split; [intros E; by rewrite E in H|]. intros [? ?]. by apply json_parse_reads.
Qed.
