(* ===== verification/JsonWrite.v ===== *)
(** * Reading back what the JSON writer wrote

    The writer turns a value the reader can produce into a document of the
    grammar of [JsonSpec], in the compact form and in every indented form. *)
From Stdlib Require Import ZifyN.
From S2P Require Import Prelude Ast Text Json JsonSpec JsonReads JsonOk.

(** ** Strings *)

Lemma control_quad c : c ≤ 0x1f → quad (format_04x c) c.
Proof.
  intros Hc.
  assert (∀ n, (n < 32)%nat → from_digits 16 (format_04x (N.of_nat n)) = Some (N.of_nat n)) as H
    by (intros n Hn; do 32 (destruct n as [|n]; [done|]); lia).
  split; [done|]. rewrite <- (N2Nat.id c). apply H. lia.
Qed.

Lemma write_char_spells c : spells (write_char c) c.
Proof.
  unfold write_char.
  repeat match goal with
  | |- context [c =? ?d] => destruct (N.eqb_spec c d) as [->|]; [by apply spells_short; cbn; set_solver|]
  end.
  destruct (N.leb_spec c 0x1f); [|by apply spells_itself].
  apply spells_quad; [by apply control_quad|lia].
Qed.

Lemma write_string_text t : string_text (write_string t) t.
Proof.
  exists (write_char <$> t). split.
  - unfold write_string. f_equal. f_equal. induction t as [|c t IH]; [done|].
    change ((c :: t) ≫= write_char) with (write_char c ++ (t ≫= write_char)). by rewrite IH.
  - induction t as [|c t IH]; constructor; [apply write_char_spells|done].
Qed.

(** ** Composites *)

Lemma new_line_spaces w d : spaces (new_line w d).
Proof. constructor; [done|]. apply Forall_replicate. done. Qed.

Definition line_of (indent : option nat) (depth : nat) : list char :=
  match indent with Some width => new_line width depth | None => [] end.

Lemma line_spaces indent d : spaces (line_of indent d).
Proof. destruct indent; [apply new_line_spaces|constructor]. Qed.

Section composite.
Local Set Default Proof Using "All".
Context {A} (item : list char → A → Prop) (piece : A → list char).
Context (indent : option nat) (depth : nat) (go : nat → list A → list char).
Context (Hnil : ∀ i, go i [] = []).
Context (Hcons : ∀ i a l, go i (a :: l) = separator indent (S depth) i ++ piece a ++ go (S i) l).

(** The pieces a composite writes between its brackets. *)
Lemma written_separated a l :
  Forall (λ a, item (piece a) a) (a :: l) →
  separated (padded item) (go 0 (a :: l) ++ close indent depth false) (a :: l).
Proof.
  intros Hl. replace (close indent depth false) with (line_of indent depth) by (by destruct indent).
  rewrite Hcons. change (separator indent (S depth) 0) with (line_of indent (S depth)).
  enough (∀ i, separated (padded item)
    (line_of indent (S depth) ++ piece a ++ go (S i) l ++ line_of indent depth) (a :: l)) as H
    by (rewrite <- !app_assoc; apply H).
  revert a Hl. induction l as [|b l IH]; intros a [Ha Hl]%Forall_cons i.
  - rewrite Hnil. constructor. exists (line_of indent (S depth)), (piece a), (line_of indent depth).
    split_and!; [done|apply line_spaces..|done].
  - rewrite Hcons. unfold separator. cbn [Nat.ltb Nat.leb]. rewrite <- !app_assoc.
    fold (line_of indent (S depth)). rewrite (app_assoc (line_of _ _) (piece a)).
    constructor; [|by apply IH].
    exists (line_of indent (S depth)), (piece a), []. rewrite app_nil_r.
    split_and!; [done|apply line_spaces|constructor|done].
Qed.
End composite.

Lemma separated_items {A} (item : list char → A → Prop) l r :
  separated item l r → r ≠ [] ∧ Forall (λ a, ∃ k, item k a) r.
Proof. induction 1 as [|? ? ? ? ? _ [_ IH]]; (split; [done|]); repeat constructor; eauto. Qed.

Lemma padded_item {A} (item : list char → A → Prop) l a : padded item l a → ∃ k, item k a.
Proof. intros (? & k & ? & _ & _ & _ & Hk). eauto. Qed.

Section level.
Local Set Default Proof Using "All".
Context (inner : list char → Json → Prop) (indent : option nat).
Context (Hinner : ∀ l v d, inner l v → inner (write_json v indent d) v).

Lemma write_array vs d :
  vs ≠ [] → Forall (λ v, ∃ l, padded inner l v) vs →
  layer inner (write_json (J_Array vs) indent d) (J_Array vs).
Proof.
  intros Hne Hvs. destruct vs as [|v vs]; [done|].
  cbn [write_json is_nil]. rewrite (app_assoc _ (close _ _ _)). apply layer_array.
  eapply (written_separated inner (λ v, write_json v indent (S d)) indent d
    (fix go i l := match l with [] => [] | v :: l => separator indent (S d) i ++ write_json v indent (S d) ++ go (S i) l end));
    [done..|].
  eapply Forall_impl; [exact Hvs|]. intros u (l & Hu). destruct (padded_item _ _ _ Hu). eauto.
Qed.

Lemma write_object kvs d :
  kvs ≠ [] → NoDup kvs.*1 → Forall (λ kv, ∃ l, padded (entry_text inner) l kv) kvs →
  layer inner (write_json (J_Object kvs) indent d) (J_Object kvs).
Proof.
  intros Hne Hnd Hkvs. destruct kvs as [|kv kvs]; [done|].
  cbn [write_json is_nil]. rewrite (app_assoc _ (close _ _ _)). apply layer_object; [|done].
  eapply (written_separated (entry_text inner)
    (λ kv, write_string kv.1 ++ [ch ":"] ++ (if indent then [32] else []) ++ write_json kv.2 indent (S d)) indent d
    (fix go i l := match l with [] => [] | (key, v) :: l =>
       separator indent (S d) i ++ write_string key ++ [ch ":"]
       ++ (if indent then [32] else []) ++ write_json v indent (S d) ++ go (S i) l end)).
  - done.
  - intros i [k v] l. cbn [fst snd]. by rewrite <- !app_assoc.
  - eapply Forall_impl; [exact Hkvs|]. intros [k v] (l & Hl).
    destruct (padded_item _ _ _ Hl) as (? & ? & ? & vt & _ & _ & _ & Hv). cbn [fst snd] in *.
    destruct (padded_item _ _ _ Hv) as [t Ht].
    exists (write_string k), [], ((if indent then [32] else []) ++ write_json v indent (S d)).
    split_and!; [done|apply write_string_text|constructor|]. cbn.
    exists (if indent then [32] else []), (write_json v indent (S d)), []. rewrite app_nil_r.
    split_and!; [done|by destruct indent; repeat constructor|constructor|eauto].
Qed.

Lemma write_layer l v d : layer inner l v → layer inner (write_json v indent d) v.
Proof.
  destruct 1 as [| | |l Hl|l t Hl|w Hw|l vs Hvs|w Hw|l kvs Hkvs Hnd].
  1-3: constructor.
  - by constructor.
  - constructor. apply write_string_text.
  - cbn. replace (close indent d true) with (@nil char) by (by destruct indent).
    apply (layer_array_empty inner []). constructor.
  - apply separated_items in Hvs as [? ?]. by apply write_array.
  - cbn. replace (close indent d true) with (@nil char) by (by destruct indent).
    apply (layer_object_empty inner []). constructor.
  - apply separated_items in Hkvs as [? ?]. by apply write_object.
Qed.
End level.

Lemma write_value n l v indent d : value_text n l v → value_text n (write_json v indent d) v.
Proof.
  revert l v d. induction n as [|n IH]; intros l v d; apply write_layer; [done|].
  intros l' v' d'. apply IH.
Qed.

(** White space around what was written does not matter. *)
Lemma write_parses source v indent after :
  json_parse source = Some (Ok v) → spaces after →
  byte_length (write_json v indent 0 ++ after) ≤ MAX_INPUT →
  json_parse (write_json v indent 0 ++ after) = Some (Ok v).
Proof.
  intros Hp Ha Hl. pose proof (json_parse_accepts source) as H. rewrite Hp in H.
  destruct H as (_ & _ & l & _ & _ & _ & _ & Hv). apply json_parse_reads; [done|].
  exists [], (write_json v indent 0), after.
  split_and!; [done|constructor|done|by eapply write_value].
Qed.

Lemma written source out (write : Json → list char) :
  (parsed ← json_parse source; Some (value ← parsed; Ok (write value))) = Some (Ok out) →
  ∃ v, json_parse source = Some (Ok v) ∧ out = write v.
Proof.
  destruct (json_parse source) as [[v|e]|]; cbn; intros; simplify_eq. by exists v.
Qed.

(** C15: what [compact] and [pretty] write is read back as the same value, as
    long as it fits the size limit: so both are idempotent, and compacting the
    indented form is compacting the source. *)
Theorem json_roundtrip source small large :
  json_compact source = Some (Ok small) → json_pretty source = Some (Ok large) →
  byte_length small ≤ MAX_INPUT → byte_length large ≤ MAX_INPUT →
  json_parse small = json_parse source ∧ json_parse large = json_parse source ∧
  json_compact small = Some (Ok small) ∧ json_pretty large = Some (Ok large) ∧
  json_compact large = Some (Ok small).
Proof.
  intros (v & Hv & ->)%written (v' & Hv' & ->)%written Hs Hl. assert (v' = v) as -> by congruence.
  pose proof (write_parses source v None [] Hv ltac:(constructor)) as Es. rewrite app_nil_r in Es.
  specialize (Es Hs).
  pose proof (write_parses source v (Some 2%nat) [newline] Hv ltac:(by repeat constructor) Hl) as El.
  unfold json_compact, json_pretty. by rewrite Es, El.
Qed.

(** A source with an escape, a number and nesting. *)
Definition json_sample : list char :=
  ascii_chars "{ " ++ [quote] ++ ascii_chars "a\u00e9" ++ [quote] ++ ascii_chars ": [1.5e3, null, []] }".

Lemma json_roundtrip_witness :
  ∃ small large, json_compact json_sample = Some (Ok small) ∧
    json_pretty json_sample = Some (Ok large) ∧ json_compact large = Some (Ok small).
Proof.
  destruct (json_compact json_sample) as [[small|]|] eqn:Hs; [|by vm_compute in Hs..].
  destruct (json_pretty json_sample) as [[large|]|] eqn:Hl; [|by vm_compute in Hl..].
  exists small, large. split; [done|]. split; [done|].
  apply (json_roundtrip json_sample small large Hs Hl).
  - vm_compute in Hs. injection Hs as <-. vm_compute. discriminate.
  - vm_compute in Hl. injection Hl as <-. vm_compute. discriminate.
Defined.

(** ** Output the reader refuses *)

Lemma byte_length_app l k : byte_length (l ++ k) = byte_length l + byte_length k.
Proof. unfold byte_length. by rewrite bind_app, len_app. Qed.

Lemma byte_length_repeat n p :
  byte_length (concat (replicate n p)) = N.of_nat n * byte_length p.
Proof. induction n as [|n IH]; [done|]. cbn. rewrite byte_length_app, IH. lia. Qed.

Lemma write_repeat n c :
  write_string (replicate n c) = [quote] ++ concat (replicate n (write_char c)) ++ [quote].
Proof. unfold write_string. f_equal. f_equal. induction n as [|n IH]; [done|]. cbn. by rewrite <- IH. Qed.

Ltac known_lengths :=
  change (byte_length [quote]) with 1; change (byte_length [backslash; ch "b"]) with 2;
  change (byte_length (write_char 8)) with 6.

(** A document of [n] escaped backspaces. *)
Definition backspaces (n : nat) : list char :=
  [quote] ++ concat (replicate n [backslash; ch "b"]) ++ [quote].

Lemma compact_backspaces n :
  N.of_nat n * 2 + 2 ≤ MAX_INPUT →
  json_compact (backspaces n) = Some (Ok ([quote] ++ concat (replicate n (write_char 8)) ++ [quote])).
Proof.
  intros Hn. unfold json_compact. rewrite json_parse_reads with (v := J_String (replicate n 8)).
  - cbn [mbind option_bind result_bind write_json]. by rewrite write_repeat.
  - unfold backspaces. rewrite !byte_length_app, byte_length_repeat. known_lengths. lia.
  - exists [], (backspaces n), []. rewrite app_nil_r. split_and!; [done|constructor..|].
    apply layer_string. exists (replicate n [backslash; ch "b"]). split; [done|].
    induction n as [|n IH]; constructor; [by apply spells_short; cbn; set_solver|apply IH; lia].
Qed.

Lemma compact_too_long source :
  MAX_INPUT < byte_length source →
  json_compact source = Some (Err "JSON input exceeds 16 MiB limit").
Proof. intros H. unfold json_compact, json_parse. by rewrite (proj2 (N.ltb_lt _ _)). Qed.

(** Compacting can make a document larger, because the writer spells the
    backspace and form feed characters with six characters where the source
    used two: for some source under the limit of 16 MiB, [compact] succeeds and
    its own output is refused as too large. *)
Theorem json_compact_outgrows :
  ∃ source out, json_compact source = Some (Ok out) ∧
    json_compact out = Some (Err "JSON input exceeds 16 MiB limit") ∧
    byte_length source < byte_length out.
Proof.
  assert (∃ n, N.of_nat n = 4194304) as [n Hn] by (eexists; apply N2Nat.id).
  eexists (backspaces n), _. split_and!.
  - apply compact_backspaces. unfold MAX_INPUT. lia.
  - apply compact_too_long. rewrite !byte_length_app, byte_length_repeat. known_lengths.
    unfold MAX_INPUT. lia.
  - unfold backspaces. rewrite !byte_length_app, !byte_length_repeat. known_lengths. lia.
Qed.
