(* ===== verification/IntCode.v ===== *)
(** * Native integer code

    The operations the native back end compiles
    (src/crates/nivren-jit/src/lib.rs, [IntOp]), its check of the stack depths
    ([int_stack_depths]), the conditions under which [emit_plan_body] refuses
    to compile, and what the code it emits does.  Cranelift, which turns the
    emitted instructions into machine code, is not part of the repository: an
    operation means what the documentation of the instructions emitted for it
    says (checked addition, subtraction and multiplication, truncating
    division, signed comparison).

    Machine words are integers of 64 bits, slot and operation indices unsigned
    integers of 32 bits; the operand stack is a list, top first.  [NStuck] is
    code that [emit_plan_body] would have refused. *)
From S2P Require Import Prelude Ast Values.
Open Scope list_scope.

(** [IntCondition] *)
Inductive IntCondition :=
  | C_Equal | C_NotEqual | C_Less | C_LessEqual | C_Greater | C_GreaterEqual.

(** [IntOp] *)
Inductive IntOp :=
  | I_Constant (value : Z)
  | I_Load (slot : N)
  | I_Define (slot : N)
  | I_Store (slot : N)
  | I_Pop
  | I_Add
  | I_Subtract
  | I_Multiply
  | I_Divide
  | I_Modulo
  | I_Negate
  | I_Not
  | I_Compare (condition : IntCondition)
  | I_Jump (target : N)
  | I_JumpIfFalse (target : N)
  | I_Nop
  | I_CallPlanned (function arity : N)
  | I_NullConstant
  | I_Return.

#[export] Instance IntCondition_eq_dec : EqDecision IntCondition.
Proof. solve_decision. Defined.
#[export] Instance IntOp_eq_dec : EqDecision IntOp.
Proof. solve_decision. Defined.

(** [CallError] without [Arity], which is checked by the caller. *)
Inductive CallError := Overflow | DivisionByZero | RemainderByZero | CallDepth.

(** [fault_error] *)
Definition fault_error (code : N) : CallError :=
  match code with
  | 2 => DivisionByZero
  | 3 => RemainderByZero
  | 4 => CallDepth
  | _ => Overflow
  end.

(** ** Stack depths *)

(** [int_op_effect] *)
Definition int_op_effect (operation : IntOp) : N * N :=
  match operation with
  | I_Constant _ | I_NullConstant | I_Load _ => (0, 1)
  | I_Define _ | I_Store _ | I_Nop | I_Jump _ => (0, 0)
  | I_Pop | I_Return => (1, 0)
  | I_JumpIfFalse _ => (0, 0)
  | I_Add | I_Subtract | I_Multiply | I_Divide | I_Modulo | I_Compare _ => (2, 1)
  | I_Negate | I_Not => (1, 1)
  | I_CallPlanned _ arity => (arity, 1)
  end.

(** Where control goes after an operation, in the order in which the worklists
    push the places. *)
Definition int_targets (operation : IntOp) (index : N) : list N :=
  match operation with
  | I_Jump target => [target]
  | I_JumpIfFalse target => [target; index + 1]
  | I_Return => []
  | _ => [index + 1]
  end.

(** [for x in items { worklist.push(x) }] on a list whose head is popped. *)
Definition push_all {A} (items worklist : list A) : list A := rev items ++ worklist.

(** The loop of [int_stack_depths]; [None] when it is cut off. *)
Fixpoint int_stack_depths_loop (fuel : nat) (operations : list IntOp) (worklist : list (N * N))
    (depths : list (option N)) : option (result string (list (option N))) :=
  match fuel, worklist with
  | _, [] => Some (Ok depths)
  | O, _ => None
  | S fuel, (index, depth) :: worklist =>
      match operations !! N.to_nat index, depths !! N.to_nat index with
      | Some operation, Some known =>
          match known with
          | Some existing =>
              if existing =? depth then int_stack_depths_loop fuel operations worklist depths
              else Some (Err "JIT stack depths disagree at a join")
          | None =>
              let depths := <[N.to_nat index := Some depth]> depths in
              let '(pops, pushes) := int_op_effect operation in
              if depth <? pops then Some (Err "JIT stack underflow")
              else
                let next_depth := depth - pops + pushes in
                int_stack_depths_loop fuel operations
                  (push_all (map (λ t, (t, next_depth)) (int_targets operation index)) worklist)
                  depths
          end
      | _, _ => Some (Err "JIT control flow escapes the program")
      end
  end.

(** [int_stack_depths] *)
Definition int_stack_depths (operations : list IntOp)
    : option (result string (list (option N))) :=
  int_stack_depths_loop (2 * length operations + 2) operations [(0, 0)]
    (replicate (length operations) None).

(** ** What the back end refuses *)

(** What [emit_plan_body] keeps while it walks the operations: the height of
    its stack of values and its two flags. *)
Record Emit := mkEmit { e_stack : N; e_terminated : bool; e_dead : bool }.

(** [block_starts] *)
Definition block_starts (operations : list IntOp) : list N :=
  concat (imap (λ index operation,
    match operation with
    | I_Jump target => [target]
    | I_JumpIfFalse target => [target; N.of_nat index + 1]
    | _ => []
    end) operations).

(** [blocks.get(&index)]: the places that start a block with their depth. *)
Definition block_at (starts : list N) (depths : list (option N)) (index : N) : option N :=
  if bool_decide (index ∈ starts) then mjoin (depths !! N.to_nat index) else None.

(** [slot_variable] and [callee_refs.get] *)
Definition slot_declared (slots slot : N) : result string unit :=
  if slot <? slots then Ok tt else Err ("JIT slot " +:+ pretty slot +:+ " was never declared").

(** One operation that is not skipped. *)
Definition emit_operation (callees slots : N) (starts : list N) (depths : list (option N))
    (index : N) (operation : IntOp) (stack : N) : result string Emit :=
  let underflow := Err "JIT stack underflow" in
  let going n := Ok (mkEmit n false false) in
  let target t := ok_or "JIT jump target is unreachable" (block_at starts depths t) in
  match operation with
  | I_Nop => going stack
  | I_Constant _ | I_NullConstant => going (stack + 1)
  | I_Load slot => _ ← slot_declared slots slot; going (stack + 1)
  | I_Define slot | I_Store slot =>
      if stack <? 1 then underflow else _ ← slot_declared slots slot; going stack
  | I_Pop => if stack <? 1 then underflow else going (stack - 1)
  | I_Add | I_Subtract | I_Multiply | I_Divide | I_Modulo | I_Compare _ =>
      if stack <? 2 then underflow else going (stack - 1)
  | I_Negate | I_Not => if stack <? 1 then underflow else going stack
  | I_CallPlanned callee arity =>
      if callees <=? callee then Err "JIT call references an unknown planned function"
      else if stack <? arity then underflow
      else going (stack - arity + 1)
  | I_Jump t => _ ← target t; Ok (mkEmit stack true false)
  | I_JumpIfFalse t =>
      if stack <? 1 then underflow
      else
        _ ← target t;
        _ ← ok_or "JIT branch fall-through is unreachable" (block_at starts depths (index + 1));
        Ok (mkEmit stack true false)
  | I_Return => if stack <? 1 then underflow else Ok (mkEmit (stack - 1) true false)
  end.

(** One turn of the loop over the operations. *)
Definition emit_turn (callees slots : N) (starts : list N) (depths : list (option N))
    (index : N) (operation : IntOp) (e : Emit) : result string Emit :=
  match block_at starts depths index with
  | Some depth => emit_operation callees slots starts depths index operation depth
  | None =>
      if e_terminated e || negb (bool_decide (is_Some (mjoin (depths !! N.to_nat index))))
      then Ok (mkEmit (e_stack e) (e_terminated e) true)
      else if e_dead e then Ok e
      else emit_operation callees slots starts depths index operation (e_stack e)
  end.

Fixpoint emit_all (callees slots : N) (starts : list N) (depths : list (option N))
    (index : N) (operations : list IntOp) (e : Emit) : result string Emit :=
  match operations with
  | [] => Ok e
  | operation :: operations =>
      e ← emit_turn callees slots starts depths index operation e;
      emit_all callees slots starts depths (index + 1) operations e
  end.

(** [emit_plan_body]: whether it compiles. *)
Definition emit_plan_body (callees slots : N) (operations : list IntOp)
    : option (result string unit) :=
  depths ← int_stack_depths operations;
  Some (depths ← depths;
        e ← emit_all callees slots (block_starts operations) depths 0 operations
              (mkEmit 0 false false);
        if negb (e_terminated e) && negb (e_dead e) then Err "JIT function has no give"
        else Ok tt).

(** [CompiledFunction::compile_with]: the limits, then the body. *)
Definition compile_with (parameters slots : N) (operations : list IntOp)
    : option (result string unit) :=
  if (slots <? parameters) || (4096 <? slots) || (1000000 <? len operations)
  then Some (Err "invalid JIT function limits")
  else emit_plan_body 0 slots operations.

(** ** What the emitted code does *)

(** [PlanFunction] *)
Record PlanFunction := mkPlanFunction {
  pf_parameters : N; pf_slots : N; pf_operations : list IntOp }.

(** [icmp] *)
Definition compare (condition : IntCondition) (lhs rhs : Z) : bool :=
  match condition with
  | C_Equal => Z.eqb lhs rhs
  | C_NotEqual => negb (Z.eqb lhs rhs)
  | C_Less => Z.ltb lhs rhs
  | C_LessEqual => Z.leb lhs rhs
  | C_Greater => Z.ltb rhs lhs
  | C_GreaterEqual => Z.leb rhs lhs
  end.

Inductive NStep :=
  | NS_Next (pc : N) (stack slots : list Z)
  | NS_Return (value : Z)
  | NS_Fault (code : N)
  | NS_Call (function arity : N)
  | NS_Stuck.

(** The instructions [emit_plan_body] emits for one operation. *)
Definition native_step (operation : IntOp) (pc : N) (stack slots : list Z) : NStep :=
  let next stack := NS_Next (pc + 1) stack slots in
  let checked_result z stack :=
    match checked i64_min i64_max z with Some z => next (z :: stack) | None => NS_Fault 1 end in
  match operation, stack with
  | I_Nop, _ => next stack
  | I_Constant value, _ => next (value :: stack)
  | I_NullConstant, _ => next (0%Z :: stack)
  | I_Load slot, _ =>
      match slots !! N.to_nat slot with Some z => next (z :: stack) | None => NS_Stuck end
  | I_Define slot, value :: _ | I_Store slot, value :: _ =>
      if slot <? len slots then NS_Next (pc + 1) stack (<[N.to_nat slot := value]> slots)
      else NS_Stuck
  | I_Pop, _ :: stack => next stack
  | I_Add, rhs :: lhs :: stack => checked_result (lhs + rhs)%Z stack
  | I_Subtract, rhs :: lhs :: stack => checked_result (lhs - rhs)%Z stack
  | I_Multiply, rhs :: lhs :: stack => checked_result (lhs * rhs)%Z stack
  | I_Divide, rhs :: lhs :: stack =>
      if Z.eqb rhs 0 then NS_Fault 2
      else if Z.eqb lhs i64_min && Z.eqb rhs (-1) then NS_Fault 1
      else next (Z.quot lhs rhs :: stack)
  | I_Modulo, rhs :: lhs :: stack =>
      if Z.eqb rhs 0 then NS_Fault 3
      else if Z.eqb lhs i64_min && Z.eqb rhs (-1) then NS_Fault 1
      else next (Z.rem lhs rhs :: stack)
  | I_Negate, value :: stack =>
      if Z.eqb value i64_min then NS_Fault 1 else next ((- value)%Z :: stack)
  | I_Not, value :: stack => next (Z.lxor value 1 :: stack)
  | I_Compare condition, rhs :: lhs :: stack =>
      next ((if compare condition lhs rhs then 1 else 0)%Z :: stack)
  | I_CallPlanned function arity, _ => NS_Call function arity
  | I_Jump target, _ => NS_Next target stack slots
  | I_JumpIfFalse target, value :: _ =>
      if Z.eqb value 0 then NS_Next target stack slots else next stack
  | I_Return, value :: _ => NS_Return value
  | _, _ => NS_Stuck
  end.

Inductive NResult :=
  | NDone (value : Z) (slots : list Z)
  | NFault (code : N)
  | NStuck
  | NTimeout.

(** The body of a function at a call depth, and with it the functions it
    calls; the depth is checked on entry to a called function. *)
Fixpoint native_run (fuel : nat) (functions : list PlanFunction) (limit depth : N)
    (operations : list IntOp) (pc : N) (stack slots : list Z) : NResult :=
  match fuel with
  | O => NTimeout
  | S fuel =>
      match operations !! N.to_nat pc with
      | None => NStuck
      | Some operation =>
          match native_step operation pc stack slots with
          | NS_Next pc stack slots => native_run fuel functions limit depth operations pc stack slots
          | NS_Return value => NDone value slots
          | NS_Fault code => NFault code
          | NS_Stuck => NStuck
          | NS_Call function arity =>
              match functions !! N.to_nat function with
              | Some f =>
                  if (arity =? pf_parameters f) && (arity <=? len stack)
                     && (arity <=? pf_slots f) then
                    if limit <=? depth + 1 then NFault 4
                    else
                      let arguments := rev (take (N.to_nat arity) stack) in
                      match native_run fuel functions limit (depth + 1) (pf_operations f) 0 []
                              (arguments ++ replicate (N.to_nat (pf_slots f - arity)) 0%Z) with
                      | NDone value _ =>
                          native_run fuel functions limit depth operations (pc + 1)
                            (value :: drop (N.to_nat arity) stack) slots
                      | r => r
                      end
                  else NStuck
              | None => NStuck
              end
          end
      end
  end.
