(* ===== verification/Native.v ===== *)
(** * Planning native integer code

    The planner of src/src/bytecode.rs that turns bytecode into the operations
    of [IntCode]: reachability, the one-to-one lowering of a function body or a
    top-level chunk ([integer_operations]), the check of the kinds of values
    ([verify_integer_kinds]), and the planning of whole programs with direct
    calls, inlined leaf functions and flattened shapes ([lower_integer_code],
    [integer_program_plan]).  [None] is the planner declining; worklists run
    with fuel, and [NativeOk] shows that it does not run out.  Vectors used as
    stacks are lists with the top first; a [BTreeMap] is a finite map. *)
From S2P Require Import Prelude Ast Bytecode IntCode.
Open Scope list_scope.

(** [u32::try_from(n).ok()] and [u32::checked_add] *)
Definition u32_of (n : N) : option N := if n <=? u32_max then Some n else None.
Definition checked_add_u32 (a b : N) : option N := u32_of (a + b).

(** ** Reachability *)

(** The places an instruction pushes on the worklist, in order. *)
Definition jump_targets (op : Op) (index : N) : list N :=
  match op with
  | Op_Return => []
  | Op_Jump target => [target]
  | Op_JumpIfFalse target => [target; index + 1]
  | _ => [index + 1]
  end.

Fixpoint reachable_loop (fuel : nat) (code : list Instruction) (worklist : list N) (reachable : list bool)
    : option (list bool) :=
  match fuel, worklist with
  | _, [] => Some reachable
  | O, _ => None
  | S fuel, index :: worklist =>
      match code !! N.to_nat index, reachable !! N.to_nat index with
      | Some instruction, Some false =>
          reachable_loop fuel code
            (push_all (jump_targets (instr_op instruction) index) worklist)
            (<[N.to_nat index := true]> reachable)
      | _, _ => reachable_loop fuel code worklist reachable
      end
  end.

(** [reachable_instructions] *)
Definition reachable_instructions (code : list Instruction) : option (list bool) :=
  reachable_loop (2 * length code + 2) code [0] (replicate (length code) false).

(** ** One-to-one lowering *)

(** The locals of [integer_operations]. *)
Record Walk := mkWalk {
  w_slots : gmap string N;
  w_next_slot : N;
  w_scopes : list (list string);
  w_persistent : list (string * N * bool);
  w_returned : bool }.

(** The operations that only translate. *)
Definition binary_operation (operator : TokenKind) : option IntOp :=
  match operator with
  | Tk_Plus => Some I_Add
  | Tk_Minus => Some I_Subtract
  | Tk_Star => Some I_Multiply
  | Tk_Slash => Some I_Divide
  | Tk_Percent => Some I_Modulo
  | Tk_EqualEqual => Some (I_Compare C_Equal)
  | Tk_BangEqual => Some (I_Compare C_NotEqual)
  | Tk_Less => Some (I_Compare C_Less)
  | Tk_LessEqual => Some (I_Compare C_LessEqual)
  | Tk_Greater => Some (I_Compare C_Greater)
  | Tk_GreaterEqual => Some (I_Compare C_GreaterEqual)
  | _ => None
  end.
Definition unary_operation (operator : TokenKind) : option IntOp :=
  match operator with Tk_Minus => Some I_Negate | Tk_Bang => Some I_Not | _ => None end.

(** [for name in ended { map.remove(&name) }] *)
Definition remove_all {A} (names : list string) (m : gmap string A) : gmap string A :=
  foldl (λ m name, delete name m) m names.

(** One reachable instruction of [integer_operations]. *)
Definition integer_operation (op : Op) (w : Walk) : option (IntOp * Walk) :=
  match op with
  | Op_Constant (Literal_Int value) => Some (I_Constant value, w)
  | Op_Constant Literal_Null => Some (I_NullConstant, w)
  | Op_Load name => slot ← w_slots w !! name; Some (I_Load slot, w)
  | Op_Define name mutable =>
      if bool_decide (is_Some (w_slots w !! name)) then None
      else
        let slot := w_next_slot w in
        next ← checked_add_u32 slot 1;
        match w_scopes w with
        | [] => None
        | scope :: outer =>
            Some (I_Define slot,
              mkWalk (<[name := slot]> (w_slots w)) next ((name :: scope) :: outer)
                (if bool_decide (outer = []) then w_persistent w ++ [(name, slot, mutable)]
                 else w_persistent w)
                (w_returned w))
        end
  | Op_Store name => slot ← w_slots w !! name; Some (I_Store slot, w)
  | Op_Pop => Some (I_Pop, w)
  | Op_Unary operator => operation ← unary_operation operator; Some (operation, w)
  | Op_Binary operator => operation ← binary_operation operator; Some (operation, w)
  | Op_Jump target => target ← u32_of target; Some (I_Jump target, w)
  | Op_JumpIfFalse target => target ← u32_of target; Some (I_JumpIfFalse target, w)
  | Op_EnterScope =>
      Some (I_Nop, mkWalk (w_slots w) (w_next_slot w) ([] :: w_scopes w) (w_persistent w)
                     (w_returned w))
  | Op_ExitScope =>
      match w_scopes w with
      | ended :: (_ :: _) as outer =>
          Some (I_Nop, mkWalk (remove_all ended (w_slots w)) (w_next_slot w) (tail (w_scopes w))
                         (w_persistent w) (w_returned w))
      | _ => None
      end
  | Op_Return =>
      Some (I_Return, mkWalk (w_slots w) (w_next_slot w) (w_scopes w) (w_persistent w) true)
  | _ => None
  end.

(** The loop of [integer_operations]. *)
Fixpoint integer_walk (code : list Instruction) (reachable : list bool) (w : Walk)
    : option (list IntOp * Walk) :=
  match code, reachable with
  | instruction :: code, live :: reachable =>
      '(operation, w) ←
        (if live : bool then integer_operation (instr_op instruction) w else Some (I_Nop, w));
      '(operations, w) ← integer_walk code reachable w;
      Some (operation :: operations, w)
  | _, _ => Some ([], w)
  end.

(** The parameters in the first slots; a later parameter replaces an earlier
    one of the same name. *)
Fixpoint parameter_slots (index : N) (parameters : list string) (slots : gmap string N)
    : option (gmap string N) :=
  match parameters with
  | [] => Some slots
  | parameter :: parameters =>
      slot ← u32_of index;
      parameter_slots (index + 1) parameters (<[parameter := slot]> slots)
  end.

Definition first_walk (parameters : list string) : option Walk :=
  slots ← parameter_slots 0 parameters ∅;
  next ← u32_of (len parameters);
  Some (mkWalk slots next [rev parameters] [] false).

(** [integer_operations] *)
Definition integer_operations (parameters : list string) (code : list Instruction)
    : option (N * list IntOp * list (string * N * bool)) :=
  w ← first_walk parameters;
  reachable ← reachable_instructions code;
  '(operations, w) ← integer_walk code reachable w;
  if negb (bool_decide (parameters = [])) && negb (w_returned w) then None
  else Some (w_next_slot w, operations, w_persistent w).

(** ** Kinds *)

Inductive Kind := K_Int | K_Bool | K_Null | K_Word.
#[export] Instance Kind_eq_dec : EqDecision Kind.
Proof. solve_decision. Defined.

(** [join] *)
Definition join_kind (lhs rhs : Kind) : option Kind :=
  if bool_decide (lhs = rhs) then Some lhs
  else match lhs, rhs with
       | K_Bool, _ | _, K_Bool => None
       | _, _ => Some K_Word
       end.

(** The elementwise join of two stacks of the same height. *)
Fixpoint join_stacks (lhs rhs : list Kind) : option (list Kind) :=
  match lhs, rhs with
  | [], [] => Some []
  | a :: lhs, b :: rhs => k ← join_kind a b; ks ← join_stacks lhs rhs; Some (k :: ks)
  | _, _ => None
  end.

(** Pop [n] integers. *)
Fixpoint pop_ints (n : nat) (stack : list Kind) : option (list Kind) :=
  match n, stack with
  | O, _ => Some stack
  | S n, K_Int :: stack => pop_ints n stack
  | S _, _ => None
  end.

(** What an operation does to a stack of kinds, and where it goes. *)
Definition kind_step (operation : IntOp) (root : bool) (stack : list Kind) : option (list Kind) :=
  match operation, stack with
  | I_Constant _, _ | I_Load _, _ => Some (K_Int :: stack)
  | I_NullConstant, _ => Some (K_Null :: stack)
  | I_Define _, K_Int :: _ | I_Store _, K_Int :: _ => Some stack
  | I_Pop, _ :: stack => Some stack
  | I_Add, K_Int :: K_Int :: stack | I_Subtract, K_Int :: K_Int :: stack
  | I_Multiply, K_Int :: K_Int :: stack | I_Divide, K_Int :: K_Int :: stack
  | I_Modulo, K_Int :: K_Int :: stack => Some (K_Int :: stack)
  | I_Compare _, K_Int :: K_Int :: stack => Some (K_Bool :: stack)
  | I_Negate, K_Int :: _ => Some stack
  | I_Not, K_Bool :: _ => Some stack
  | I_Nop, _ => Some stack
  | I_CallPlanned _ arity, _ => stack ← pop_ints (N.to_nat arity) stack; Some (K_Int :: stack)
  | I_Jump _, _ => Some stack
  | I_JumpIfFalse _, K_Bool :: _ => Some stack
  | I_Return, K_Int :: stack =>
      if root && negb (bool_decide (stack = [])) then None else Some stack
  | _, _ => None
  end.

(** The loop of [verify_integer_kinds]: the outer [option] is the fuel, the
    inner one the verdict. *)
Fixpoint kinds_loop (fuel : nat) (operations : list IntOp) (root : bool)
    (worklist : list (N * list Kind)) (states : list (option (list Kind))) : option (option unit) :=
  match fuel, worklist with
  | _, [] => Some (Some tt)
  | O, _ => None
  | S fuel, (index, stack) :: worklist =>
      match operations !! N.to_nat index, states !! N.to_nat index with
      | Some operation, Some known =>
          let visit stack :=
            match kind_step operation root stack with
            | None => Some None
            | Some next =>
                kinds_loop fuel operations root
                  (push_all (map (λ t, (t, next)) (int_targets operation index)) worklist)
                  (<[N.to_nat index := Some stack]> states)
            end in
          match known with
          | None => visit stack
          | Some existing =>
              if bool_decide (existing = stack) then
                kinds_loop fuel operations root worklist states
              else match join_stacks existing stack with
                   | None => Some None
                   | Some joined =>
                       if bool_decide (existing = joined) then
                         kinds_loop fuel operations root worklist states
                       else visit joined
                   end
          end
      | _, _ => Some None
      end
  end.

(** Every entry of a stack changes at most once, and no stack is higher than
    there are operations. *)
Definition kinds_fuel (operations : list IntOp) : nat :=
  2 * (length operations * (length operations + 1)) + 2.

(** [verify_integer_kinds] *)
Definition verify_integer_kinds (operations : list IntOp) (root : bool) : option unit :=
  mjoin (kinds_loop (kinds_fuel operations) operations root [(0, [])]
           (replicate (length operations) None)).

(** ** Plans without calls *)

(** [integer_native_plan] *)
Definition integer_native_plan (parameters : list string) (body : Chunk)
    : option (N * list IntOp) :=
  '(slots, operations, _) ← integer_operations parameters (chunk_code body);
  _ ← verify_integer_kinds operations false;
  Some (slots, operations).

(** [chunk.code.split_last()] with a [Print] at the end. *)
Definition split_print (code : list Instruction) : list Instruction * bool :=
  match last code with
  | Some (mkInstruction Op_Print _) => (removelast code, true)
  | _ => (code, false)
  end.

(** [IntegerRootPlan] *)
Record IntegerRootPlan := mkRootPlan {
  slot_count : N;
  root_plan_operations : list IntOp;
  root_prints : bool;
  root_persistent : list (string * N * bool) }.

(** [integer_root_plan] *)
Definition integer_root_plan (chunk : Chunk) : option IntegerRootPlan :=
  let '(code, prints_result) := split_print (chunk_code chunk) in
  '(slots, operations, persistent) ← integer_operations [] code;
  let operations := operations ++ [I_Return] in
  _ ← verify_integer_kinds operations true;
  Some (mkRootPlan slots operations prints_result persistent).

(** ** Programs: stack shapes *)

(** [ShapeEntry] *)
Inductive ShapeEntry :=
  | S_Value
  | S_Function (function : N)
  | S_ShapeType (shape : N)
  | S_ShapeWide (shape : N)
  | S_ShapeGhost (shape : N)
  | S_Phantom.
#[export] Instance ShapeEntry_eq_dec : EqDecision ShapeEntry.
Proof. solve_decision. Defined.

(** [PlannedProgramFunction] *)
Record PlannedProgramFunction := mkPlanned {
  pp_name : string; pp_parameters : N; pp_slots : N; pp_operations : list IntOp }.

(** [BTreeMap<String, (u32, PlannedShape)>]: a shape's number and its fields,
    when all of them are integers. *)
Definition Shapes := gmap string (N * option (list string)).

(** [shapes.values().find(|(id, _)| *id == sid)]: the numbers are distinct. *)
Definition shape_fields (shapes : Shapes) (sid : N) : option (list string) :=
  match List.find (λ entry, entry.2.1 =? sid) (map_to_list shapes) with
  | Some (_, (_, fields)) => fields
  | None => None
  end.

(** [shape_width] *)
Definition shape_width (shapes : Shapes) (sid : N) : option N := len <$> shape_fields shapes sid.

(** The locals of [collect_shape_variables]. *)
Record Collect := mkCollect {
  c_result : gmap N N;
  c_bindings : gmap string N;
  c_construction : option N;
  c_scopes : list (list string) }.

Definition collect_step (shapes : Shapes) (index : N) (op : Op) (c : Collect) : option Collect :=
  match op with
  | Op_Load name =>
      match c_bindings c !! name with
      | Some sid =>
          Some (mkCollect (<[index := sid]> (c_result c)) (c_bindings c) (c_construction c)
                  (c_scopes c))
      | None =>
          match shapes !! name with
          | Some (sid, Some _) =>
              Some (mkCollect (c_result c) (c_bindings c) (Some sid) (c_scopes c))
          | _ => Some c
          end
      end
  | Op_Define name _ =>
      match c_construction c with
      | Some sid =>
          match c_scopes c with
          | [] => None
          | scope :: outer =>
              Some (mkCollect (c_result c) (<[name := sid]> (c_bindings c)) None
                      ((name :: scope) :: outer))
          end
      | None => Some c
      end
  | Op_EnterScope =>
      Some (mkCollect (c_result c) (c_bindings c) (c_construction c) ([] :: c_scopes c))
  | Op_ExitScope =>
      match c_scopes c with
      | ended :: (_ :: _) as outer =>
          Some (mkCollect (c_result c) (remove_all ended (c_bindings c)) (c_construction c)
                  (tail (c_scopes c)))
      | _ => None
      end
  | _ => Some c
  end.

(** [collect_shape_variables] *)
Definition collect_shape_variables (code : list Instruction) (reachable : list bool) (shapes : Shapes)
    : option (gmap N N) :=
  c ← foldM (λ '(index, (instruction, live)) c,
        if live : bool then collect_step shapes index (instr_op instruction) c else Some c)
      (imap (λ i x, (N.of_nat i, x)) (zip code reachable)) (mkCollect ∅ ∅ None [[]]);
  Some (c_result c).

(** [shape.iter().any(|entry| *entry != ShapeEntry::Value)], negated *)
Definition all_values (shape : list ShapeEntry) : bool :=
  forallb (λ e, bool_decide (e = S_Value)) shape.

(** Pop [n] values. *)
Fixpoint pop_values (n : nat) (shape : list ShapeEntry) : option (list ShapeEntry) :=
  match n, shape with
  | O, _ => Some shape
  | S n, S_Value :: shape => pop_values n shape
  | S _, _ => None
  end.

(** The effect of one instruction on the shape of the stack. *)
Definition shape_step (planned : gmap string N) (shapes : Shapes) (shape_vars : gmap N N)
    (allow_functions : bool) (index : N) (op : Op) (shape : list ShapeEntry)
    : option (list ShapeEntry) :=
  match op with
  | Op_Constant (Literal_Int _) | Op_Constant Literal_Null => Some (S_Value :: shape)
  | Op_Load name =>
      match planned !! name with
      | Some function => Some (S_Function function :: shape)
      | None =>
          match shape_vars !! index with
          | Some sid => Some (S_ShapeGhost sid :: shape)
          | None =>
              match shapes !! name with
              | Some (sid, fields) => _ ← fields; Some (S_ShapeType sid :: shape)
              | None => Some (S_Value :: shape)
              end
          end
      end
  | Op_MakeFunction name _ _ =>
      if negb allow_functions then None
      else function ← planned !! name; Some (S_Function function :: shape)
  | Op_DefineRecord name _ _ =>
      if negb allow_functions then None
      else _ ← shapes !! name; Some (S_Phantom :: shape)
  | Op_Get _ =>
      match shape with
      | S_ShapeGhost sid :: shape => _ ← shape_width shapes sid; Some (S_Value :: shape)
      | _ => None
      end
  | Op_Define _ _ =>
      match shape with
      | S_Value :: _ | S_Function _ :: _ => Some shape
      | S_ShapeWide sid :: shape => _ ← shape_width shapes sid; Some (S_Phantom :: shape)
      | _ => None
      end
  | Op_Store _ => match shape with S_Value :: _ => Some shape | _ => None end
  | Op_Pop =>
      match shape with
      | S_Value :: shape | S_Function _ :: shape | S_Phantom :: shape
      | S_ShapeGhost _ :: shape => Some shape
      | _ => None
      end
  | Op_Unary operator =>
      _ ← unary_operation operator;
      match shape with S_Value :: _ => Some shape | _ => None end
  | Op_Binary operator =>
      _ ← binary_operation operator;
      match shape with S_Value :: S_Value :: shape => Some (S_Value :: shape) | _ => None end
  | Op_Call arity =>
      if len shape <? arity + 1 then None
      else
        shape ← pop_values (N.to_nat arity) shape;
        match shape with
        | S_Function _ :: shape => Some (S_Value :: shape)
        | S_ShapeType sid :: shape =>
            width ← shape_width shapes sid;
            if width =? arity then Some (S_ShapeWide sid :: shape) else None
        | _ => None
        end
  | Op_EnterScope | Op_ExitScope => Some shape
  | Op_Jump _ | Op_JumpIfFalse _ => if all_values shape then Some shape else None
  | Op_Return => match shape with S_Value :: shape => Some shape | _ => None end
  | _ => None
  end.

(** The worklist of [lower_integer_code]; [inner] is what one instruction does. *)
Fixpoint shapes_loop (fuel : nat) (code : list Instruction) (top_level : bool)
    (inner : N → Op → list ShapeEntry → option (list ShapeEntry))
    (worklist : list (N * list ShapeEntry)) (states : list (option (list ShapeEntry)))
    : option (option (list (option (list ShapeEntry)))) :=
  match fuel, worklist with
  | _, [] => Some (Some states)
  | O, _ => None
  | S fuel, (index, shape) :: worklist =>
      match code !! N.to_nat index, states !! N.to_nat index with
      | Some instruction, Some (Some existing) =>
          if bool_decide (existing = shape)
          then shapes_loop fuel code top_level inner worklist states
          else Some None
      | Some instruction, Some None =>
          match inner index (instr_op instruction) shape with
          | None => Some None
          | Some next =>
              shapes_loop fuel code top_level inner
                (push_all (map (λ t, (t, next)) (jump_targets (instr_op instruction) index)) worklist)
                (<[N.to_nat index := Some shape]> states)
          end
      | _, _ =>
          if top_level && bool_decide (shape = [S_Value])
          then shapes_loop fuel code top_level inner worklist states
          else Some None
      end
  end.

Definition stack_shapes (code : list Instruction) (top_level : bool)
    (inner : N → Op → list ShapeEntry → option (list ShapeEntry))
    : option (list (option (list ShapeEntry))) :=
  mjoin (shapes_loop (2 * length code + 2) code top_level inner [(0, [])]
           (replicate (length code) None)).

(** ** Programs: lowering *)

(** [LoweredItem] *)
Inductive LoweredItem := L_Op (operation : IntOp) | L_Inline (operations : list IntOp).

Definition item_length (item : LoweredItem) : N :=
  match item with L_Op _ => 1 | L_Inline operations => len operations end.
Definition group_length (group : list LoweredItem) : N :=
  foldr (λ item n, item_length item + n) 0 group.

(** [starts]: where every group begins, and the end. *)
Fixpoint group_starts (total : N) (groups : list (list LoweredItem)) : list N :=
  match groups with
  | [] => [total]
  | group :: groups => total :: group_starts (total + group_length group) groups
  end.

(** The operations of an inlined segment that begins at [base]. *)
Definition rebase_inline (base end_ : N) (operation : IntOp) : option IntOp :=
  match operation with
  | I_Jump target =>
      if target =? u32_max then Some (I_Jump end_)
      else target ← checked_add_u32 base target; Some (I_Jump target)
  | I_JumpIfFalse target =>
      if target =? u32_max then Some (I_JumpIfFalse end_)
      else target ← checked_add_u32 base target; Some (I_JumpIfFalse target)
  | other => Some other
  end.

Definition flatten_item (starts : list N) (position : N) (item : LoweredItem)
    : option (list IntOp) :=
  let rebase target := start ← starts !! N.to_nat target; u32_of start in
  match item with
  | L_Op (I_Jump target) => target ← rebase target; Some [I_Jump target]
  | L_Op (I_JumpIfFalse target) => target ← rebase target; Some [I_JumpIfFalse target]
  | L_Op operation => Some [operation]
  | L_Inline operations =>
      base ← u32_of position;
      length ← u32_of (len operations);
      end_ ← checked_add_u32 base length;
      mapM (rebase_inline base end_) operations
  end.

(** [flatten_groups] *)
Definition flatten_groups (groups : list (list LoweredItem)) : option (list IntOp) :=
  let starts := group_starts 0 groups in
  foldM (λ item operations,
    more ← flatten_item starts (len operations) item; Some (operations ++ more))
    (concat groups) [].

Definition INLINE_LIMIT : N := 32.

(** The locals of the second phase of [lower_integer_code]. *)
Record Lower := mkLower {
  l_slots : gmap string N;
  l_next_slot : N;
  l_scopes : list (list string);
  l_shape_bindings : gmap string (N * N);
  l_pending_ghost : option (N * N);
  l_persistent : list (string * N * bool) }.

Definition set_next_slot (n : N) (l : Lower) : Lower :=
  mkLower (l_slots l) n (l_scopes l) (l_shape_bindings l) (l_pending_ghost l) (l_persistent l).

(** [scopes.last_mut()?.push(name)] *)
Definition push_name (name : string) (scopes : list (list string)) : option (list (list string)) :=
  match scopes with [] => None | scope :: outer => Some ((name :: scope) :: outer) end.

(** [for offset in (0..width).rev()]: store and drop the top values into the
    slots from [base] on. *)
Fixpoint unpack (base : N) (width : nat) : option (list IntOp) :=
  match width with
  | O => Some []
  | S width =>
      slot ← checked_add_u32 base (N.of_nat width);
      rest ← unpack base width;
      Some (I_Store slot :: I_Pop :: rest)
  end.

(** One operation of an inlined callee. *)
Definition inline_operation (base prefix : N) (operation : IntOp) : option IntOp :=
  match operation with
  | I_Load slot => slot ← checked_add_u32 base slot; Some (I_Load slot)
  | I_Store slot => slot ← checked_add_u32 base slot; Some (I_Store slot)
  | I_Define slot => slot ← checked_add_u32 base slot; Some (I_Define slot)
  | I_Jump target => target ← checked_add_u32 target prefix; Some (I_Jump target)
  | I_JumpIfFalse target => target ← checked_add_u32 target prefix; Some (I_JumpIfFalse target)
  | I_Return => Some (I_Jump u32_max)
  | other => Some other
  end.

Definition is_call (operation : IntOp) : bool :=
  match operation with I_CallPlanned _ _ => true | _ => false end.

Definition inlinable (callee : PlannedProgramFunction) (arity : N) : bool :=
  (pp_parameters callee =? arity)
  && negb (bool_decide (pp_operations callee = []))
  && (len (pp_operations callee) <=? INLINE_LIMIT)
  && negb (existsb is_call (pp_operations callee)).

(** The arm for [Op::Call]. *)
Definition lower_call (functions : list PlannedProgramFunction) (arity : N)
    (state : list ShapeEntry) (l : Lower) : option (list LoweredItem * Lower) :=
  match state !! N.to_nat arity with
  | Some (S_Function function) =>
      arity32 ← u32_of arity;
      match functions !! N.to_nat function with
      | Some callee =>
          if inlinable callee arity then
            let base := l_next_slot l in
            width ← u32_of (pp_slots callee);
            next ← checked_add_u32 base width;
            prefix ← u32_of (arity * 2);
            entry ← unpack base (N.to_nat arity32);
            body ← mapM (inline_operation base prefix) (pp_operations callee);
            Some ([L_Inline (entry ++ body)], set_next_slot next l)
          else Some ([L_Op (I_CallPlanned function arity32)], l)
      | None => Some ([L_Op (I_CallPlanned function arity32)], l)
      end
  | Some (S_ShapeType _) => Some ([L_Op I_Nop], l)
  | _ => None
  end.

(** The arm for [Op::Define]. *)
Definition lower_define (planned : gmap string N) (shapes : Shapes) (name : string)
    (mutable : bool) (state : list ShapeEntry) (l : Lower) : option (list LoweredItem * Lower) :=
  match state with
  | S_ShapeWide sid :: _ =>
      width ← shape_width shapes sid;
      width ← u32_of width;
      let base := l_next_slot l in
      next ← checked_add_u32 base width;
      scopes ← push_name name (l_scopes l);
      operations ← unpack base (N.to_nat width);
      Some (match operations with [] => [L_Op I_Nop] | _ => L_Op <$> operations end,
        mkLower (l_slots l) next scopes (<[name := (sid, base)]> (l_shape_bindings l))
          (l_pending_ghost l) (l_persistent l))
  | S_Function _ :: _ => _ ← planned !! name; Some ([L_Op I_Nop], l)
  | _ =>
      if bool_decide (is_Some (l_slots l !! name)) || bool_decide (is_Some (planned !! name))
         || bool_decide (is_Some (l_shape_bindings l !! name))
      then None
      else
        let slot := l_next_slot l in
        next ← checked_add_u32 slot 1;
        scopes ← push_name name (l_scopes l);
        Some ([L_Op (I_Define slot)],
          mkLower (<[name := slot]> (l_slots l)) next scopes (l_shape_bindings l)
            (l_pending_ghost l)
            (if bool_decide (tail scopes = []) then l_persistent l ++ [(name, slot, mutable)]
             else l_persistent l))
  end.

(** The position of a field, as [iter().position(..)]. *)
Fixpoint position_of (field : string) (fields : list string) : option N :=
  match fields with
  | [] => None
  | f :: fields =>
      if bool_decide (f = field) then Some 0 else n ← position_of field fields; Some (n + 1)
  end.

(** One reachable instruction of the second phase. *)
Definition lower_instruction (planned : gmap string N) (functions : list PlannedProgramFunction)
    (shapes : Shapes) (op : Op) (state : list ShapeEntry) (l : Lower)
    : option (list LoweredItem * Lower) :=
  let one operation := Some ([L_Op operation], l) in
  match op with
  | Op_Constant (Literal_Int value) => one (I_Constant value)
  | Op_Constant Literal_Null => one I_NullConstant
  | Op_MakeFunction _ _ _ | Op_DefineRecord _ _ _ => one I_Nop
  | Op_EnterScope =>
      Some ([L_Op I_Nop],
        mkLower (l_slots l) (l_next_slot l) ([] :: l_scopes l) (l_shape_bindings l)
          (l_pending_ghost l) (l_persistent l))
  | Op_ExitScope =>
      match l_scopes l with
      | ended :: (_ :: _) as outer =>
          Some ([L_Op I_Nop],
            mkLower (remove_all ended (l_slots l)) (l_next_slot l) (tail (l_scopes l))
              (remove_all ended (l_shape_bindings l)) (l_pending_ghost l) (l_persistent l))
      | _ => None
      end
  | Op_Load name =>
      match l_shape_bindings l !! name with
      | Some ghost =>
          Some ([L_Op I_Nop],
            mkLower (l_slots l) (l_next_slot l) (l_scopes l) (l_shape_bindings l) (Some ghost)
              (l_persistent l))
      | None =>
          if bool_decide (is_Some (planned !! name)) || bool_decide (is_Some (shapes !! name))
          then one I_Nop
          else slot ← l_slots l !! name; one (I_Load slot)
      end
  | Op_Get field =>
      match state with
      | S_ShapeGhost sid :: _ =>
          '(ghost_sid, base) ← l_pending_ghost l;
          if ghost_sid =? sid then
            fields ← shape_fields shapes sid;
            position ← position_of field fields;
            offset ← u32_of position;
            slot ← checked_add_u32 base offset;
            one (I_Load slot)
          else None
      | _ => None
      end
  | Op_Define name mutable => lower_define planned shapes name mutable state l
  | Op_Store name => slot ← l_slots l !! name; one (I_Store slot)
  | Op_Pop =>
      match state with
      | S_Function _ :: _ | S_Phantom :: _ | S_ShapeGhost _ :: _ => one I_Nop
      | _ => one I_Pop
      end
  | Op_Unary operator => operation ← unary_operation operator; one operation
  | Op_Binary operator => operation ← binary_operation operator; one operation
  | Op_Call arity => lower_call functions arity state l
  | Op_Jump target => target ← u32_of target; one (I_Jump target)
  | Op_JumpIfFalse target => target ← u32_of target; one (I_JumpIfFalse target)
  | Op_Return => one I_Return
  | _ => None
  end.

(** The loop of the second phase. *)
Fixpoint lower_walk (planned : gmap string N) (functions : list PlannedProgramFunction)
    (shapes : Shapes) (code : list Instruction) (reachable : list bool)
    (states : list (option (list ShapeEntry))) (l : Lower)
    : option (list (list LoweredItem) * Lower) :=
  match code, reachable, states with
  | instruction :: code, live :: reachable, state :: states =>
      '(group, l) ←
        (if live : bool then
           state ← state;
           lower_instruction planned functions shapes (instr_op instruction) state l
         else Some ([L_Op I_Nop], l));
      '(groups, l) ← lower_walk planned functions shapes code reachable states l;
      Some (group :: groups, l)
  | _, _, _ => Some ([], l)
  end.

(** [lower_integer_code] *)
Definition lower_integer_code (parameters : list string) (code : list Instruction) (planned : gmap string N)
    (functions : list PlannedProgramFunction) (shapes : Shapes) (allow_functions : bool)
    : option (N * list IntOp * list (string * N * bool)) :=
  reachable ← reachable_instructions code;
  shape_vars ← collect_shape_variables code reachable shapes;
  states ← stack_shapes code (bool_decide (parameters = []))
             (shape_step planned shapes shape_vars allow_functions);
  if existsb (λ p, bool_decide (is_Some (planned !! p))) parameters then None
  else
    w ← first_walk parameters;
    '(groups, l) ← lower_walk planned functions shapes code reachable states
      (mkLower (w_slots w) (w_next_slot w) (w_scopes w) ∅ None []);
    operations ← flatten_groups groups;
    Some (l_next_slot l, operations, l_persistent l).

(** ** Program plans *)

(** [IntegerProgramPlan] *)
Record IntegerProgramPlan := mkProgramPlan {
  plan_functions : list PlannedProgramFunction;
  root_slots : N;
  root_operations : list IntOp;
  plan_prints : bool;
  plan_persistent : list (string * N * bool);
  function_sites : list N;
  shape_sites : list N }.

(** The locals of the loop of [integer_program_plan]. *)
Record Program := mkProgram {
  p_planned : gmap string N;
  p_shapes : Shapes;
  p_functions : list PlannedProgramFunction;
  p_function_sites : list N;
  p_shape_sites : list N }.

Definition program_step_native (index : N) (op : Op) (p : Program) : option Program :=
  match op with
  | Op_DefineRecord name fields _ =>
      if bool_decide (is_Some (p_shapes p !! name)) || bool_decide (is_Some (p_planned p !! name))
      then None
      else
        sid ← u32_of (N.of_nat (size (p_shapes p)));
        let all_int := forallb (λ '(_, ty), bool_decide (ty = "Int")) fields in
        Some (mkProgram (p_planned p)
                (<[name := (sid, if all_int then Some (map fst fields) else None)]> (p_shapes p))
                (p_functions p) (p_function_sites p) (p_shape_sites p ++ [index]))
  | Op_MakeFunction name params body =>
      if bool_decide (is_Some (p_planned p !! name)) || bool_decide (is_Some (p_shapes p !! name))
      then None
      else
        function_index ← u32_of (len (p_functions p));
        let planned := <[name := function_index]> (p_planned p) in
        let functions := p_functions p ++ [mkPlanned name (len params) (len params) []] in
        '(slots, operations, _) ← lower_integer_code params (chunk_code body) planned functions ∅ false;
        _ ← verify_integer_kinds operations false;
        Some (mkProgram planned (p_shapes p)
                (p_functions p ++ [mkPlanned name (len params) slots operations])
                (p_function_sites p ++ [index]) (p_shape_sites p))
  | _ => Some p
  end.

(** [integer_program_plan] *)
Definition integer_program_plan (chunk : Chunk) : option IntegerProgramPlan :=
  let '(code, prints_result) := split_print (chunk_code chunk) in
  reachable ← reachable_instructions code;
  p ← foldM (λ '(index, (instruction, live)) p,
        if live : bool then program_step_native index (instr_op instruction) p else Some p)
      (imap (λ i x, (N.of_nat i, x)) (zip code reachable)) (mkProgram ∅ ∅ [] [] []);
  if bool_decide (p_functions p = []) && bool_decide (p_shapes p = ∅) then None
  else
    '(slots, operations, persistent) ←
      lower_integer_code [] code (p_planned p) (p_functions p) (p_shapes p) true;
    let operations := operations ++ [I_Return] in
    _ ← verify_integer_kinds operations true;
    Some (mkProgramPlan (p_functions p) slots operations prints_result persistent
            (p_function_sites p) (p_shape_sites p)).
