(* ===== verification/NativeOk.v ===== *)
(** * The planner's analyses

    Reachability marks exactly the instructions control can reach.  The check
    of kinds ends, and what it accepts has an assignment of kinds to operations
    that every step of the emitted code respects: planned code never takes an
    operand that is not there, leaves its operations or reads a slot that was
    not declared, and the back end never refuses it. *)
From S2P Require Import Prelude Ast Values Bytecode IntCode Native.
Open Scope list_scope.

(** ** Worklists *)

(** How many elements of a vector still satisfy [p]. *)
Definition missing {A} (p : A → bool) (l : list A) : nat := length (List.filter p l).

Lemma missing_insert {A} (p : A → bool) l i x y :
  l !! i = Some x → p x = true → p y = false → S (missing p (<[i := y]> l)) = missing p l.
Proof.
  unfold missing. revert i. induction l as [|z l IH]; intros [|i] Hi Hx Hy; simplify_eq/=.
  - by rewrite Hx, Hy.
  - destruct (p z); cbn; auto.
Qed.

Lemma missing_replicate {A} (p : A → bool) n x : p x = true → missing p (replicate n x) = n.
Proof. intros Hx. unfold missing. induction n as [|n IH]; cbn; [done|]. by rewrite Hx; cbn; rewrite IH. Qed.

Lemma length_push_all {A} (l k : list A) : length (push_all l k) = (length l + length k)%nat.
Proof. unfold push_all. by rewrite length_app, length_rev. Qed.

Lemma elem_of_push_all {A} (x : A) l k : x ∈ push_all l k ↔ x ∈ l ∨ x ∈ k.
Proof. unfold push_all. rewrite elem_of_app, rev_alt. fold (reverse l). by rewrite elem_of_reverse. Qed.

(** ** Reachability *)

(** Where the plain jumps take control: to the target of a jump, and to the
    next instruction unless this one jumps always or returns. *)
Inductive control (op : Op) (i : N) : N → Prop :=
  | control_jump t : op = Op_Jump t ∨ op = Op_JumpIfFalse t → control op i t
  | control_next : op ≠ Op_Return → (∀ t, op ≠ Op_Jump t) → control op i (i + 1).

Lemma jump_targets_control op i j : j ∈ jump_targets op i ↔ control op i j.
Proof.
  split.
  - destruct op; cbn; rewrite ?elem_of_cons, ?elem_of_nil; intros Hj; try done; destruct_or?; try done; subst;
      try (by apply control_next); apply control_jump; by auto.
  - intros [t [->| ->]|Hr Hj]; [by left|by left|].
    destruct op; try done; cbn; rewrite ?elem_of_cons, ?elem_of_nil; try by auto. by destruct (Hj target).
Qed.

(** Control can reach the instruction at an index. *)
Inductive reaches (code : list Instruction) : N → Prop :=
  | reaches_start : 0 < len code → reaches code 0
  | reaches_step i instruction j :
      reaches code i → code !! N.to_nat i = Some instruction →
      control (instr_op instruction) i j → j < len code → reaches code j.

Lemma jump_targets_length op i : (length (jump_targets op i) ≤ 2)%nat.
Proof. destruct op; cbn; lia. Qed.

Lemma reachable_loop_cons fuel code i worklist marks :
  reachable_loop (S fuel) code (i :: worklist) marks =
  match code !! N.to_nat i, marks !! N.to_nat i with
  | Some instruction, Some false =>
      reachable_loop fuel code (push_all (jump_targets (instr_op instruction) i) worklist)
        (<[N.to_nat i := true]> marks)
  | _, _ => reachable_loop fuel code worklist marks
  end.
Proof. done. Qed.

(** The marks after the loop: sound, and closed under going on. *)
Lemma reachable_loop_spec code fuel worklist marks :
  length marks = length code →
  (length worklist + 2 * missing negb marks < fuel)%nat →
  (∀ i, marks !! N.to_nat i = Some true → reaches code i) →
  (∀ i, i ∈ worklist → i < len code → reaches code i) →
  (∀ i instruction j, marks !! N.to_nat i = Some true → code !! N.to_nat i = Some instruction →
     j ∈ jump_targets (instr_op instruction) i → j < len code →
     j ∈ worklist ∨ marks !! N.to_nat j = Some true) →
  ∃ final, reachable_loop fuel code worklist marks = Some final ∧ length final = length code ∧
    (∀ i, i ∈ worklist → i < len code → final !! N.to_nat i = Some true) ∧
    (∀ i, marks !! N.to_nat i = Some true → final !! N.to_nat i = Some true) ∧
    (∀ i, final !! N.to_nat i = Some true → reaches code i) ∧
    (∀ i instruction j, final !! N.to_nat i = Some true → code !! N.to_nat i = Some instruction →
       j ∈ jump_targets (instr_op instruction) i → j < len code → final !! N.to_nat j = Some true).
Proof.
  revert worklist marks. induction fuel as [|fuel IH]; intros worklist marks Hlen Hfuel Hm Hw Hc; [lia|].
  destruct worklist as [|i worklist].
  { exists marks. split_and!; [done|done|by intros ? ?%not_elem_of_nil|done|done|].
    intros k instruction j Hk Hi Hj Hlt. by destruct (Hc k instruction j Hk Hi Hj Hlt) as [?%not_elem_of_nil|]. }
  rewrite reachable_loop_cons. cbn [length] in Hfuel.
  destruct (code !! N.to_nat i) as [instruction|] eqn:Hi.
  2:{ destruct (IH worklist marks) as (final & H1 & H2 & Hfw & H3 & H4 & H5); try done; [lia|set_solver| |].
      - intros k ins j Hk Hi' Hj Hlt. destruct (Hc k ins j Hk Hi' Hj Hlt) as [[->|?]%elem_of_cons|?]; auto.
        apply lookup_ge_None in Hi. unfold len in Hlt. lia.
      - exists final. split_and!; try done. intros k [->|Hk]%elem_of_cons Hlt; [|auto].
        apply lookup_ge_None in Hi. unfold len in Hlt. lia. }
  assert (i < len code) as Hlt by (apply lookup_lt_Some in Hi; unfold len; lia).
  destruct (marks !! N.to_nat i) as [[|]|] eqn:Hmi.
  - destruct (IH worklist marks) as (final & H1 & H2 & Hfw & Hfm & H4 & H5); try done; [lia|set_solver| |].
    + intros k ins j Hk Hi' Hj Hlt'. destruct (Hc k ins j Hk Hi' Hj Hlt') as [[->|?]%elem_of_cons|?]; auto.
    + exists final. split_and!; try done. intros k [->|Hk]%elem_of_cons Hlt'; auto.
  - assert (length (<[N.to_nat i := true]> marks) = length code) as Hlen' by by rewrite length_insert.
    assert (∀ k, <[N.to_nat i := true]> marks !! N.to_nat k = Some true ↔
              k = i ∨ marks !! N.to_nat k = Some true) as Hins.
    { intros k. destruct (decide (k = i)) as [->|Hne].
      - rewrite list_lookup_insert_eq by (by eapply lookup_lt_Some). tauto.
      - rewrite list_lookup_insert_ne by lia. naive_solver. }
    destruct (IH (push_all (jump_targets (instr_op instruction) i) worklist)
      (<[N.to_nat i := true]> marks)) as (final & H1 & H2 & Hfw & Hfm & Hfr & Hfc); try done.
    + rewrite length_push_all. pose proof (jump_targets_length (instr_op instruction) i).
      pose proof (missing_insert negb marks _ false true Hmi eq_refl eq_refl). lia.
    + intros k [->|Hk]%Hins; [apply Hw; [set_solver|done]|auto].
    + intros k [Hk|Hk]%elem_of_push_all Hlt'; [|apply Hw; [set_solver|done]].
      apply (reaches_step _ i instruction k); [apply Hw; [set_solver|done]|done|by apply jump_targets_control|done].
    + intros k ins j Hk Hi' Hj Hlt'. rewrite elem_of_push_all, Hins.
      apply Hins in Hk as [->|Hk]; [naive_solver|].
      destruct (Hc k ins j Hk Hi' Hj Hlt') as [[->|?]%elem_of_cons|?]; auto.
    + exists final. split_and!; try done.
      * intros k [->|Hk]%elem_of_cons Hlt'; [apply Hfm, Hins; auto|].
        apply Hfw; [|done]. apply elem_of_push_all. auto.
      * intros k Hk. apply Hfm, Hins. auto.
  - apply lookup_ge_None in Hmi. apply lookup_lt_Some in Hi. lia.
Qed.

(** The marks of the planner. *)
Lemma reachable_marks code :
  ∃ marks, reachable_instructions code = Some marks ∧ length marks = length code ∧
    (0 < len code → marks !! 0%nat = Some true) ∧
    (∀ i, marks !! N.to_nat i = Some true → reaches code i) ∧
    (∀ i instruction j, marks !! N.to_nat i = Some true → code !! N.to_nat i = Some instruction →
       j ∈ jump_targets (instr_op instruction) i → j < len code → marks !! N.to_nat j = Some true).
Proof.
  destruct (reachable_loop_spec code (2 * length code + 2) [0] (replicate (length code) false))
    as (final & Hr & Hlen & Hw & _ & Hsound & Hclosed).
  - apply length_replicate.
  - rewrite missing_replicate by done. cbn. lia.
  - intros i Hi. apply lookup_replicate in Hi as [? _]. done.
  - intros i ->%list_elem_of_singleton ?. by constructor.
  - intros i ? ? Hi. apply lookup_replicate in Hi as [? _]. done.
  - exists final. split_and!; try done. intros Hlt. apply (Hw 0); [set_solver|done].
Qed.

(** The planner's reachability analysis ends and marks exactly the
    instructions that control can reach from the first one by falling through,
    jumping and branching. *)
Theorem reachable_exact code :
  ∃ marks, reachable_instructions code = Some marks ∧ length marks = length code ∧
    ∀ i, marks !! N.to_nat i = Some true ↔ reaches code i.
Proof.
  destruct (reachable_marks code) as (marks & Hr & Hlen & Hfirst & Hsound & Hclosed).
  exists marks. split_and!; [done|done|]. intros i. split; [apply Hsound|].
  induction 1 as [Hlt|i instruction j _ IH Hi Hj%jump_targets_control Hlt]; [by apply Hfirst|by eapply Hclosed].
Qed.

(** ** Kinds *)

(** A kind that a value of the first kind also has. *)
Definition kind_le (a b : Kind) : Prop := a = b ∨ b = K_Word ∧ a ≠ K_Bool.
Definition kinds_le : list Kind → list Kind → Prop := Forall2 kind_le.

#[export] Instance kind_le_preorder : PreOrder kind_le.
Proof. split; [by left|]. intros a b c [->|[-> ?]]; [done|]. intros [<-|[-> ?]]; by right. Qed.

Lemma kinds_le_refl s : kinds_le s s.
Proof. apply Forall2_same_length_lookup. split; [done|]. intros i x y Hx Hy. simplify_eq. by left. Qed.

Lemma kinds_le_trans s t u : kinds_le s t → kinds_le t u → kinds_le s u.
Proof. apply (transitivity (R := Forall2 kind_le)). Qed.

Lemma join_kind_le a b k : join_kind a b = Some k → kind_le a k ∧ kind_le b k.
Proof. unfold join_kind, kind_le. case_bool_decide; destruct a, b; intros; simplify_eq; naive_solver. Qed.

Lemma join_stacks_le s t j : join_stacks s t = Some j → kinds_le s j ∧ kinds_le t j.
Proof.
  revert t j. induction s as [|a s IH]; intros [|b t] j H; simplify_eq/=; [split; constructor|].
  destruct (join_kind a b) as [k|] eqn:Hk; simplify_eq/=.
  destruct (join_stacks s t) as [ks|] eqn:Hs; simplify_eq/=.
  apply join_kind_le in Hk as [? ?]. apply IH in Hs as [? ?]. split; by constructor.
Qed.

(** The entries that can still change. *)
Definition open_kind (k : Kind) : bool := negb (bool_decide (k = K_Word)).

Lemma missing_cons {A} (p : A → bool) x l : missing p (x :: l) = ((if p x then 1 else 0) + missing p l)%nat.
Proof. unfold missing. cbn. by destruct (p x). Qed.

Lemma missing_le {A} (p : A → bool) l : (missing p l ≤ length l)%nat.
Proof. induction l as [|x l IH]; [done|]. rewrite missing_cons. cbn. destruct (p x); lia. Qed.

Lemma join_stacks_open s t j :
  join_stacks s t = Some j → (missing open_kind j ≤ missing open_kind s)%nat ∧
  (s ≠ j → missing open_kind j < missing open_kind s)%nat ∧ length j = length s.
Proof.
  revert t j. induction s as [|a s IH]; intros [|b t] j H; simplify_eq/=; [done|].
  destruct (join_kind a b) as [k|] eqn:Hk; simplify_eq/=.
  destruct (join_stacks s t) as [ks|] eqn:Hs; simplify_eq/=.
  destruct (IH _ _ Hs) as (Hle & Hlt & Hlen). rewrite !missing_cons.
  assert ((if open_kind k then 1 else 0) ≤ (if open_kind a then 1 else 0) ∧
    (a ≠ k → (if open_kind k then 1 else 0) < (if open_kind a then 1 else 0)))%nat as [Hk1 Hk2]
    by (clear -Hk; destruct a, b; vm_compute in Hk; simplify_eq; unfold open_kind;
        (split; [|intros ?]; first [done|repeat case_bool_decide; cbn; done || lia])).
  split_and!; [lia| |lia].
  intros Hne. destruct (decide (a = k)) as [->|Ha]; [|specialize (Hk2 Ha); lia].
  assert (s ≠ ks) as Hs' by congruence. specialize (Hlt Hs'). lia.
Qed.

Lemma kind_step_height operation root s s' :
  kind_step operation root s = Some s' → (length s' ≤ S (length s))%nat.
Proof.
  destruct operation; cbn; intros H; repeat case_match; simplify_eq/=; try lia.
  destruct (pop_ints (N.to_nat arity) s) as [r|] eqn:Hr; simplify_eq/=.
  enough (length r ≤ length s)%nat by lia. clear -Hr. revert s Hr.
  induction (N.to_nat arity) as [|n IH]; intros s Hr; simplify_eq/=; [done|].
  destruct s as [|[] s]; simplify_eq/=. apply IH in Hr. lia.
Qed.

Lemma int_targets_length operation i : (length (int_targets operation i) ≤ 2)%nat.
Proof. destruct operation; cbn; lia. Qed.

(** What the analysis has established: every visited operation accepts its
    stack, and what it leaves has arrived, or waits, where control goes. *)
Definition arrived (states : list (option (list Kind))) (t : N) (s : list Kind) : Prop :=
  ∃ s', states !! N.to_nat t = Some (Some s') ∧ kinds_le s s'.

Definition settled (operations : list IntOp) (root : bool) (worklist : list (N * list Kind))
    (states : list (option (list Kind))) : Prop :=
  ∀ i s operation, states !! N.to_nat i = Some (Some s) → operations !! N.to_nat i = Some operation →
    ∃ s', kind_step operation root s = Some s' ∧
      ∀ t, t ∈ int_targets operation i → (t, s') ∈ worklist ∨ arrived states t s'.

Lemma arrived_le states t s s' : kinds_le s s' → arrived states t s' → arrived states t s.
Proof. intros H (u & Hu & Hle). exists u. split; [done|]. by eapply kinds_le_trans. Qed.

(** A state that rises keeps what has arrived. *)
Lemma arrived_insert states i s t u :
  (i < length states)%nat → (∀ old, states !! i = Some (Some old) → kinds_le old s) →
  arrived states t u → arrived (<[i := Some s]> states) t u.
Proof.
  intros Hi Hold (s' & Hs' & Hle). destruct (decide (i = N.to_nat t)) as [->|Hne].
  - exists s. rewrite list_lookup_insert_eq by done. split; [done|].
    eapply kinds_le_trans; [exact Hle|]. by apply Hold.
  - exists s'. by rewrite list_lookup_insert_ne.
Qed.

Lemma arrived_here states t s : (N.to_nat t < length states)%nat →
  arrived (<[N.to_nat t := Some s]> states) t s.
Proof. intros H. exists s. rewrite list_lookup_insert_eq by done. split; [done|apply kinds_le_refl]. Qed.

(** The visit of an operation with a stack, as [kinds_loop] makes it. *)
Definition kinds_visit (fuel : nat) (operations : list IntOp) (root : bool) (i : N)
    (operation : IntOp) (s : list Kind) (worklist : list (N * list Kind))
    (states : list (option (list Kind))) : option (option unit) :=
  match kind_step operation root s with
  | None => Some None
  | Some next =>
      kinds_loop fuel operations root
        (push_all (map (λ t, (t, next)) (int_targets operation i)) worklist)
        (<[N.to_nat i := Some s]> states)
  end.

(** The cases of one turn of the loop. *)
Lemma kinds_loop_cons fuel operations root i s worklist states :
  kinds_loop (S fuel) operations root ((i, s) :: worklist) states =
  match operations !! N.to_nat i, states !! N.to_nat i with
  | Some operation, Some None => kinds_visit fuel operations root i operation s worklist states
  | Some operation, Some (Some old) =>
      if bool_decide (old = s) then kinds_loop fuel operations root worklist states
      else match join_stacks old s with
           | None => Some None
           | Some j =>
               if bool_decide (old = j) then kinds_loop fuel operations root worklist states
               else kinds_visit fuel operations root i operation j worklist states
           end
  | _, _ => Some None
  end.
Proof. cbn. by destruct (operations !! N.to_nat i), (states !! N.to_nat i) as [[]|]. Qed.

(** *** Termination *)

(** What a state can still lose, for [n] operations. *)
Definition slack (n : nat) (state : option (list Kind)) : nat :=
  match state with None => S n | Some s => missing open_kind s end.
Definition slacks (n : nat) (states : list (option (list Kind))) : nat := sum_list_with (slack n) states.

Definition unvisited (state : option (list Kind)) : bool := match state with None => true | Some _ => false end.

(** No stack is higher than there are visited operations. *)
Definition low (worklist : list (N * list Kind)) (states : list (option (list Kind))) : Prop :=
  (∀ i s, (i, s) ∈ worklist → length s + missing unvisited states ≤ length states)%nat ∧
  (∀ i s, states !! i = Some (Some s) → length s + missing unvisited states < length states)%nat.

Lemma low_tail x worklist states : low (x :: worklist) states → low worklist states.
Proof. intros [Hw ?]. split; [|done]. intros i s Hi. apply (Hw i). by right. Qed.

Lemma slacks_insert n states i old s :
  states !! i = Some old → (slack n (Some s) < slack n old)%nat →
  (slacks n (<[i := Some s]> states) < slacks n states)%nat.
Proof.
  unfold slacks. revert i. induction states as [|x states IH]; intros [|i] Hi Hlt; simplify_eq/=; [lia|].
  specialize (IH _ Hi Hlt). lia.
Qed.

Lemma missing_same {A} (p : A → bool) l i x y :
  l !! i = Some x → p x = p y → missing p (<[i := y]> l) = missing p l.
Proof.
  revert i. induction l as [|z l IH]; intros [|i] Hi Hp; simplify_eq/=; rewrite !missing_cons.
  - by rewrite Hp.
  - by erewrite IH.
Qed.

(** A visit keeps the stacks low. *)
Lemma low_visit operation root i s s' worklist states old :
  states !! N.to_nat i = Some old → kind_step operation root s = Some s' →
  match old with None => length s + missing unvisited states ≤ length states
               | Some o => length s = length o end%nat →
  low worklist states →
  low (push_all (map (λ t, (t, s')) (int_targets operation i)) worklist) (<[N.to_nat i := Some s]> states).
Proof.
  intros Hi Hs Hlen [Hw Hst]. apply kind_step_height in Hs as Hh.
  assert (length s + missing unvisited (<[N.to_nat i := Some s]> states) < length states)%nat as Hnew.
  { destruct old as [o|].
    - rewrite (missing_same _ _ _ _ _ Hi) by done. specialize (Hst _ _ Hi). lia.
    - pose proof (missing_insert unvisited states _ None (Some s) Hi eq_refl eq_refl). lia. }
  assert (missing unvisited (<[N.to_nat i := Some s]> states) ≤ missing unvisited states)%nat as Hmono.
  { destruct old as [o|]; [by rewrite (missing_same _ _ _ _ _ Hi)|].
    pose proof (missing_insert unvisited states _ None (Some s) Hi eq_refl eq_refl). lia. }
  split; rewrite length_insert.
  - intros j u [Hj|Hj]%elem_of_push_all; [|specialize (Hw _ _ Hj); lia].
    apply list_elem_of_fmap in Hj as (t & ? & _). simplify_eq. lia.
  - intros j u. destruct (decide (j = N.to_nat i)) as [->|Hne].
    + rewrite list_lookup_insert_eq by (by eapply lookup_lt_Some). intros. simplify_eq. lia.
    + rewrite list_lookup_insert_ne by done. intros Hj. specialize (Hst _ _ Hj). lia.
Qed.

Lemma kinds_loop_total operations root fuel worklist states :
  length states = length operations → low worklist states →
  (length worklist + 2 * slacks (length operations) states < fuel)%nat →
  is_Some (kinds_loop fuel operations root worklist states).
Proof.
  revert worklist states. induction fuel as [|fuel IH]; intros worklist states Hlen Hlow Hf; [lia|].
  destruct worklist as [|[i s] worklist]; [by eexists|]. cbn [length] in Hf. rewrite kinds_loop_cons.
  destruct (operations !! N.to_nat i) as [operation|]; [|by eexists].
  destruct (states !! N.to_nat i) as [old|] eqn:Hi; [|by eexists].
  apply low_tail in Hlow as Hlow'.
  assert (∀ u, match old with None => length u + missing unvisited states ≤ length states
                            | Some o => length u = length o end%nat →
    (slack (length operations) (Some u) < slack (length operations) old)%nat →
    is_Some (kinds_visit fuel operations root i operation u worklist states)) as Hvisit.
  { intros u Hu Hslack. unfold kinds_visit. destruct (kind_step operation root u) as [u'|] eqn:Hs; [|by eexists].
    apply IH; [by rewrite length_insert|by eapply low_visit|].
    rewrite length_push_all, length_map. pose proof (int_targets_length operation i).
    pose proof (slacks_insert _ _ _ _ _ Hi Hslack). lia. }
  destruct old as [old|].
  - case_bool_decide; [apply IH; [done..|lia]|].
    destruct (join_stacks old s) as [j|] eqn:Hj; [|by eexists].
    apply join_stacks_open in Hj as (_ & Hlt & Hl).
    case_bool_decide; [apply IH; [done..|lia]|]. apply Hvisit; [done|]. by apply Hlt.
  - destruct Hlow as [Hw _]. specialize (Hw i s ltac:(by left)). apply Hvisit; [done|].
    cbn [slack]. pose proof (missing_le open_kind s). lia.
Qed.

(** *** Soundness *)

(** An entry that has already arrived can be dropped. *)
Lemma settled_skip operations root i s worklist states :
  settled operations root ((i, s) :: worklist) states → arrived states i s →
  settled operations root worklist states.
Proof.
  intros Hset Harr j u o Hj Ho. destruct (Hset j u o Hj Ho) as (u' & Hu' & Ht).
  exists u'. split; [done|]. intros t Hin.
  destruct (Ht t Hin) as [[Heq|?]%elem_of_cons|?]; [|by left|by right]. simplify_eq. by right.
Qed.

(** A visit with a stack above the entry and the old state. *)
Lemma settled_visit operations root i operation s u u' worklist states :
  settled operations root ((i, s) :: worklist) states →
  operations !! N.to_nat i = Some operation → (N.to_nat i < length states)%nat →
  kinds_le s u → (∀ o, states !! N.to_nat i = Some (Some o) → kinds_le o u) →
  kind_step operation root u = Some u' →
  settled operations root (push_all (map (λ t, (t, u')) (int_targets operation i)) worklist)
    (<[N.to_nat i := Some u]> states).
Proof.
  intros Hset Hop Hlt Hsu Hold Hu' j v o Hj Ho.
  destruct (decide (N.to_nat j = N.to_nat i)) as [Hji|Hne].
  - assert (j = i) as -> by lia. rewrite list_lookup_insert_eq in Hj by done. simplify_eq.
    exists u'. split; [done|]. intros t Ht. left. apply elem_of_push_all. left.
    apply list_elem_of_fmap. by exists t.
  - rewrite list_lookup_insert_ne in Hj by done. destruct (Hset j v o Hj Ho) as (v' & Hv' & Ht).
    exists v'. split; [done|]. intros t Hin. rewrite elem_of_push_all.
    destruct (Ht t Hin) as [[Heq|?]%elem_of_cons|?].
    + simplify_eq. right. eapply arrived_le; [exact Hsu|]. by apply arrived_here.
    + by auto.
    + right. by apply arrived_insert.
Qed.

(** The states a loop that accepts ends with. *)
Definition established (operations : list IntOp) (root : bool) (worklist : list (N * list Kind))
    (states : list (option (list Kind))) : Prop :=
  ∃ final, length final = length operations ∧ settled operations root [] final ∧
    (∀ t s, arrived states t s → arrived final t s) ∧
    (∀ t s, (t, s) ∈ worklist → arrived final t s).

Lemma kinds_loop_sound operations root fuel worklist states :
  length states = length operations → settled operations root worklist states →
  kinds_loop fuel operations root worklist states = Some (Some tt) →
  established operations root worklist states.
Proof.
  revert worklist states. induction fuel as [|fuel IH]; intros worklist states Hlen Hset H;
    (destruct worklist as [|[i s] worklist];
     [exists states; split_and!; [done|done|done|by intros ? ? ?%not_elem_of_nil]|]); [done|].
  rewrite kinds_loop_cons in H.
  destruct (operations !! N.to_nat i) as [operation|] eqn:Hop; [|done].
  destruct (states !! N.to_nat i) as [old|] eqn:Hi; [|done].
  assert (N.to_nat i < length states)%nat as Hlt by (by eapply lookup_lt_Some).
  assert (arrived states i s → kinds_loop fuel operations root worklist states = Some (Some tt) →
    established operations root ((i, s) :: worklist) states) as Hskip.
  { intros Harr Hk. apply IH in Hk as (final & ? & ? & Hgrow & Hin); [|done|by eapply settled_skip].
    exists final. split_and!; try done. intros t u [Heq|?]%elem_of_cons; [|by apply Hin].
    simplify_eq. by apply Hgrow. }
  assert (∀ u, kinds_le s u → (∀ o, states !! N.to_nat i = Some (Some o) → kinds_le o u) →
    kinds_visit fuel operations root i operation u worklist states = Some (Some tt) →
    established operations root ((i, s) :: worklist) states) as Hvisit.
  { intros u Hsu Hold Hk. unfold kinds_visit in Hk.
    destruct (kind_step operation root u) as [u'|] eqn:Hu'; [|done].
    apply IH in Hk as (final & ? & ? & Hgrow & Hin);
      [|by rewrite length_insert|by eapply settled_visit].
    exists final. split_and!; try done; [intros t v Hv; by apply Hgrow, arrived_insert|].
    intros t v [Heq|Hv]%elem_of_cons; [|apply Hin, elem_of_push_all; by right].
    simplify_eq. eapply arrived_le; [exact Hsu|]. by apply Hgrow, arrived_here. }
  destruct old as [old|].
  - case_bool_decide as Hos; [apply Hskip; [|done]; subst; exists s; split; [done|apply kinds_le_refl]|].
    destruct (join_stacks old s) as [j|] eqn:Hj; [|done]. apply join_stacks_le in Hj as [Ho Hs].
    case_bool_decide as Hoj; [apply Hskip; [|done]; subst; by exists j|].
    apply (Hvisit j); [done| |done]. intros o Hio. rewrite Hi in Hio. by simplify_eq.
  - apply (Hvisit s); [apply kinds_le_refl| |done]. intros o Hio. rewrite Hi in Hio. done.
Qed.

(** What an accepted plan has: kinds for the stack at every operation that is
    reached, respected by every operation. *)
Definition kinded (operations : list IntOp) (root : bool) (K : list (option (list Kind))) : Prop :=
  length K = length operations ∧ arrived K 0 [] ∧ settled operations root [] K.

Lemma kinds_loop_verdict operations root :
  is_Some (kinds_loop (kinds_fuel operations) operations root [(0, [])]
             (replicate (length operations) None)).
Proof.
  apply kinds_loop_total; [apply length_replicate| |].
  - split.
    + intros i s Hi. apply list_elem_of_singleton in Hi. simplify_eq. cbn.
      apply missing_le.
    + intros i s Hi. apply lookup_replicate in Hi as [? _]. done.
  - unfold kinds_fuel, slacks. cbn [length].
    assert (∀ n m, sum_list_with (slack m) (replicate n None) = n * S m)%nat as ->
      by (intros n m; induction n as [|n IHn]; cbn; [done|]; rewrite IHn; lia). lia.
Qed.

Lemma verify_kinded operations root :
  verify_integer_kinds operations root = Some tt → ∃ K, kinded operations root K.
Proof.
  unfold verify_integer_kinds. destruct (kinds_loop_verdict operations root) as [r Hr].
  rewrite Hr. cbn. intros ->. apply kinds_loop_sound in Hr as (final & Hl & Hs & _ & Hw).
  - exists final. split_and!; [done| |done]. apply Hw. by left.
  - apply length_replicate.
  - intros i s o Hi. apply lookup_replicate in Hi as [? _]. done.
Qed.
