(* ===== verification/NativeRun.v ===== *)
(** * Planned code runs

    The code of a plan that passed [verify_integer_kinds] goes from operation
    to operation with a stack of the kinds the analysis found: it never gets
    stuck, its results and slots are 64-bit integers, and the back end compiles
    it. *)
From S2P Require Import Prelude Ast Values Bytecode IntCode Native NativeOk.
Open Scope list_scope.

Definition i64 (z : Z) : Prop := (i64_min ≤ z ≤ i64_max)%Z.

(** The machine words of a kind: booleans are 0 and 1, null is 0. *)
Definition has_kind (k : Kind) (z : Z) : Prop :=
  match k with
  | K_Int | K_Word => i64 z
  | K_Bool => z = 0%Z ∨ z = 1%Z
  | K_Null => z = 0%Z
  end.

Lemma i64_small z : (-1 ≤ z ≤ 1)%Z → i64 z.
Proof. unfold i64, i64_min, i64_max. lia. Qed.

Lemma has_kind_i64 k z : has_kind k z → i64 z.
Proof. destruct k; cbn; [done|intros [->| ->]|intros ->|done]; by apply i64_small. Qed.

Lemma has_kind_le a b z : kind_le a b → has_kind a z → has_kind b z.
Proof. intros [->|[-> _]]; [done|]. apply has_kind_i64. Qed.

Lemma has_kinds_le s t l : kinds_le s t → Forall2 has_kind s l → Forall2 has_kind t l.
Proof.
  intros Hle. revert l. induction Hle as [|a b s t Hab _ IH]; intros l Hl; [done|].
  apply Forall2_cons_inv_l in Hl as (z & l' & Hz & Hl' & ->).
  constructor; [by eapply has_kind_le|auto].
Qed.

(** An operation of a function with [n] slots that calls nothing. *)
Definition operation_fits (n : N) (operation : IntOp) : Prop :=
  match operation with
  | I_Constant value => i64 value
  | I_Load slot | I_Define slot | I_Store slot => slot < n
  | I_CallPlanned _ _ => False
  | _ => True
  end.

(** ** Arithmetic *)

Lemma checked_i64 z r : checked i64_min i64_max z = Some r → r = z ∧ i64 z.
Proof. unfold checked, i64. case_match; intros; simplify_eq. lia. Qed.

Lemma quot_i64 a b :
  i64 a → b ≠ 0%Z → ¬ (a = i64_min ∧ b = -1)%Z → i64 (Z.quot a b).
Proof.
  unfold i64, i64_min, i64_max. intros Ha Hb Hne.
  assert (Z.abs (Z.quot a b) * Z.abs b ≤ Z.abs a)%Z as Hq.
  { rewrite <- Z.abs_mul. pose proof (Z.quot_rem' a b) as E.
    pose proof (Z.rem_bound_abs a b Hb). pose proof (Z.mul_quot_le (Z.abs a) (Z.abs b)) as Hm.
    rewrite Z.quot_abs in Hm by done. rewrite Z.mul_comm, <- Z.abs_mul in Hm. lia. }
  destruct (Z.eq_dec (Z.abs b) 1%Z) as [Hb1|Hb1]; [|nia].
  assert (b = 1 ∨ b = -1)%Z as [->| ->] by lia; [rewrite Z.quot_1_r; lia|].
  change (-1)%Z with (- (1))%Z in *. rewrite Z.quot_opp_r, Z.quot_1_r in * by done. lia.
Qed.

Lemma rem_i64 a b : i64 b → b ≠ 0%Z → i64 (Z.rem a b).
Proof. unfold i64, i64_min, i64_max. intros Hb Hne. pose proof (Z.rem_bound_abs a b Hne). lia. Qed.

(** ** One operation *)

(** What a step of planned code gives. *)
Definition step_sound (n : N) (operation : IntOp) (pc : N) (ks : list Kind) (step : NStep) : Prop :=
  match step with
  | NS_Next pc' stack slots =>
      pc' ∈ int_targets operation pc ∧ Forall2 has_kind ks stack ∧ Forall i64 slots ∧ len slots = n
  | NS_Return value => i64 value
  | NS_Fault code => code = 1 ∨ code = 2 ∨ code = 3
  | NS_Call _ _ | NS_Stuck => False
  end.

Lemma checked_step n operation pc ks z stack slots :
  int_targets operation pc = [pc + 1] → Forall2 has_kind ks stack → Forall i64 slots → len slots = n →
  step_sound n operation pc (K_Int :: ks)
    match checked i64_min i64_max z with
    | Some z => NS_Next (pc + 1) (z :: stack) slots
    | None => NS_Fault 1
    end.
Proof.
  intros Ht Hs Hslots Hn. destruct (checked _ _ _) as [r|] eqn:Hc; [|by left].
  apply checked_i64 in Hc as [-> ?]. cbn. rewrite Ht. split_and!; [by left|by constructor|done..].
Qed.

Lemma native_step_sound operation root pc ks ks' stack slots n :
  operation_fits n operation → len slots = n → Forall i64 slots → Forall2 has_kind ks stack →
  kind_step operation root ks = Some ks' →
  step_sound n operation pc ks' (native_step operation pc stack slots).
Proof.
  intros Hfit Hn Hslots Hstack Hk.
  destruct operation; cbn [kind_step] in Hk; repeat case_match; simplify_eq;
    repeat match goal with
    | H : Forall2 has_kind (_ :: _) _ |- _ => apply Forall2_cons_inv_l in H as (? & ? & ? & ? & ->)
    end; cbn [has_kind] in *; cbn [native_step]; try done;
    try (by apply checked_step);
    try (by split_and!; [left| |..]; repeat constructor).
  - split_and!; [by left|by constructor|done..].
  - cbn in Hfit. destruct (slots !! _) as [z|] eqn:Hz.
    + split_and!; [by left| |done..]. constructor; [|done]. by eapply (Forall_lookup_1 i64).
    + apply lookup_ge_None in Hz. unfold len in Hfit. lia.
  - cbn in Hfit. rewrite (proj2 (N.ltb_lt _ _)) by done. split_and!; [by left|by constructor| |].
    + by apply Forall_insert.
    + unfold len. by rewrite length_insert.
  - cbn in Hfit. rewrite (proj2 (N.ltb_lt _ _)) by done. split_and!; [by left|by constructor| |].
    + by apply Forall_insert.
    + unfold len. by rewrite length_insert.
  - destruct (Z.eqb_spec x 0); [by right; left|].
    destruct (_ && _) eqn:Hm; [by left|]. split_and!; [by left| |done..]. constructor; [|done].
    apply quot_i64; try done. intros [-> ->]. by rewrite !Z.eqb_refl in Hm.
  - destruct (Z.eqb_spec x 0); [by right; right|].
    destruct (_ && _) eqn:Hm; [by left|]. split_and!; [by left| |done..]. constructor; [|done].
    by apply rem_i64.
  - destruct (Z.eqb_spec x i64_min); [by left|]. split_and!; [by left| |done..].
    constructor; [|done]. cbn. unfold i64, i64_min, i64_max in *. lia.
  - split_and!; [by left| |done..]. constructor; [|done]. cbn in *. destruct_or?; subst; [by right|by left].
  - split_and!; [by left| |done..]. constructor; [|done]. cbn. destruct (compare _ _ _); [by right|by left].
  - destruct (Z.eqb x 0); (split_and!; [|by constructor|done..]); [by left|by right; left].
Qed.

(** ** Whole runs *)

Definition at_kinds (K : list (option (list Kind))) (pc : N) (stack : list Z) : Prop :=
  ∃ ks, K !! N.to_nat pc = Some (Some ks) ∧ Forall2 has_kind ks stack.

Lemma arrived_at K pc ks stack : arrived K pc ks → Forall2 has_kind ks stack → at_kinds K pc stack.
Proof. intros (ks' & Hk & Hle) Hs. exists ks'. split; [done|]. by eapply has_kinds_le. Qed.

(** How a run of planned code with [n] slots can end. *)
Definition run_sound (n : N) (r : NResult) : Prop :=
  match r with
  | NDone value slots => i64 value ∧ Forall i64 slots ∧ len slots = n
  | NFault code => code = 1 ∨ code = 2 ∨ code = 3
  | NStuck => False
  | NTimeout => True
  end.

Lemma native_run_sound fuel functions limit depth operations root K n pc stack slots :
  kinded operations root K → Forall (operation_fits n) operations →
  at_kinds K pc stack → Forall i64 slots → len slots = n →
  run_sound n (native_run fuel functions limit depth operations pc stack slots).
Proof.
  intros (HK & _ & Hset) Hfit. revert pc stack slots.
  induction fuel as [|fuel IH]; intros pc stack slots (ks & Hks & Hstack) Hslots Hn; [done|]. cbn [native_run].
  destruct (operations !! N.to_nat pc) as [operation|] eqn:Hop.
  2:{ apply lookup_ge_None in Hop. apply lookup_lt_Some in Hks. lia. }
  destruct (Hset _ _ _ Hks Hop) as (ks' & Hstep & Htargets).
  assert (operation_fits n operation) as Hf by (by eapply Forall_lookup_1).
  pose proof (native_step_sound _ root pc _ _ _ _ _ Hf Hn Hslots Hstack Hstep) as H.
  destruct (native_step operation pc stack slots) as [pc' stack' slots'|value|code|? ?|]; try done.
  destruct H as (Ht & Hs & Hsl & Hl). apply IH; [|done..].
  destruct (Htargets _ Ht) as [[]%not_elem_of_nil|Harr]. by eapply arrived_at.
Qed.

(** ** Stack depths *)

Lemma pop_ints_length n ks ks' : pop_ints n ks = Some ks' → length ks = (n + length ks')%nat.
Proof.
  revert ks. induction n as [|n IH]; intros ks H; simplify_eq/=; [done|].
  destruct ks as [|[] ks]; simplify_eq/=. by rewrite (IH _ H).
Qed.

(** The back end's table of effects agrees with the analysis of kinds. *)
Lemma kind_step_effect operation root ks ks' pops pushes :
  kind_step operation root ks = Some ks' → int_op_effect operation = (pops, pushes) →
  pops ≤ len ks ∧ len ks' = len ks - pops + pushes.
Proof.
  destruct operation; cbn; intros H E; simplify_eq; repeat case_match; simplify_eq; unfold len; cbn; try lia.
  destruct (pop_ints _ ks) as [r|] eqn:Hr; simplify_eq/=. apply pop_ints_length in Hr. lia.
Qed.

(** Depths that agree with the kinds. *)
Definition depths_agree (K : list (option (list Kind))) (depths : list (option N)) : Prop :=
  ∀ i d, depths !! N.to_nat i = Some (Some d) → ∃ ks, K !! N.to_nat i = Some (Some ks) ∧ len ks = d.

(** Every known depth is passed on, or waits to be. *)
Definition depths_settled (operations : list IntOp) (worklist : list (N * N))
    (depths : list (option N)) : Prop :=
  ∀ i d operation t, depths !! N.to_nat i = Some (Some d) → operations !! N.to_nat i = Some operation →
    t ∈ int_targets operation i →
    let '(pops, pushes) := int_op_effect operation in
    (t, d - pops + pushes) ∈ worklist ∨ depths !! N.to_nat t = Some (Some (d - pops + pushes)).

Lemma int_stack_depths_loop_cons fuel operations i d worklist depths :
  int_stack_depths_loop (S fuel) operations ((i, d) :: worklist) depths =
  match operations !! N.to_nat i, depths !! N.to_nat i with
  | Some operation, Some (Some existing) =>
      if existing =? d then int_stack_depths_loop fuel operations worklist depths
      else Some (Err "JIT stack depths disagree at a join")
  | Some operation, Some None =>
      let '(pops, pushes) := int_op_effect operation in
      if d <? pops then Some (Err "JIT stack underflow")
      else int_stack_depths_loop fuel operations
             (push_all (map (λ t, (t, d - pops + pushes)) (int_targets operation i)) worklist)
             (<[N.to_nat i := Some d]> depths)
  | _, _ => Some (Err "JIT control flow escapes the program")
  end.
Proof. cbn. by destruct (operations !! N.to_nat i), (depths !! N.to_nat i) as [[]|]. Qed.

Definition unknown (d : option N) : bool := match d with None => true | Some _ => false end.

Section depths.
Local Set Default Proof Using "All".
Context (operations : list IntOp) (root : bool) (K : list (option (list Kind))).
Context (HK : kinded operations root K).

(** A place with a known height in the analysis of kinds. *)
Definition height_at (i d : N) : Prop := ∃ ks, K !! N.to_nat i = Some (Some ks) ∧ len ks = d.

Lemma height_targets i d operation t pops pushes :
  height_at i d → operations !! N.to_nat i = Some operation → int_op_effect operation = (pops, pushes) →
  pops ≤ d ∧ (t ∈ int_targets operation i → height_at t (d - pops + pushes)).
Proof.
  intros (ks & Hks & <-) Hop He. destruct HK as (_ & _ & Hset).
  destruct (Hset _ _ _ Hks Hop) as (ks' & Hstep & Ht).
  destruct (kind_step_effect _ _ _ _ _ _ Hstep He) as [Hp Hl]. split; [done|]. intros Hin.
  destruct (Ht _ Hin) as [[]%not_elem_of_nil|(u & Hu & Hle)]. exists u. split; [done|].
  apply Forall2_length in Hle. unfold len in *. lia.
Qed.

Lemma depths_loop_ok fuel worklist depths :
  length depths = length operations →
  (length worklist + 2 * missing unknown depths < fuel)%nat →
  (∀ i d, (i, d) ∈ worklist → height_at i d) → depths_agree K depths →
  depths_settled operations worklist depths →
  ∃ final, int_stack_depths_loop fuel operations worklist depths = Some (Ok final) ∧
    depths_agree K final ∧ depths_settled operations [] final ∧
    (∀ i d, depths !! N.to_nat i = Some (Some d) → final !! N.to_nat i = Some (Some d)) ∧
    (∀ i d, (i, d) ∈ worklist → final !! N.to_nat i = Some (Some d)).
Proof.
  revert worklist depths. induction fuel as [|fuel IH]; intros worklist depths Hlen Hf Hw Ha Hs; [lia|].
  destruct worklist as [|[i d] worklist].
  { exists depths. split_and!; [done..|by intros ? ? ?%not_elem_of_nil]. }
  assert (height_at i d) as Hid by (apply Hw; by left). cbn [length] in Hf.
  rewrite int_stack_depths_loop_cons. destruct Hid as (ks & Hks & Hd) eqn:E. clear E.
  destruct (operations !! N.to_nat i) as [operation|] eqn:Hop.
  2:{ apply lookup_ge_None in Hop. apply lookup_lt_Some in Hks. destruct HK as (HlK & _). lia. }
  destruct (depths !! N.to_nat i) as [[existing|]|] eqn:Hi.
  - destruct (Ha _ _ Hi) as (ks2 & Hks2 & He). simplify_eq. rewrite N.eqb_refl.
    destruct (IH worklist depths) as (final & ? & ? & ? & Hgrow & Hin); try done; [lia|..].
    + intros j e Hj. apply Hw. by right.
    + intros j e o t Hj Ho Ht. specialize (Hs j e o t Hj Ho Ht). destruct (int_op_effect o).
      destruct Hs as [[Heq|?]%elem_of_cons|?]; [right; congruence|by auto..].
    + exists final. split_and!; try done. intros j e [Heq|?]%elem_of_cons; [|by auto].
      apply Hgrow. congruence.
  - assert (height_at i d) as Hid' by (by exists ks).
    destruct (int_op_effect operation) as [pops pushes] eqn:He.
    destruct (height_targets i d operation 0 pops pushes Hid' Hop He) as [Hp _].
    rewrite (proj2 (N.ltb_ge _ _)) by done.
    assert (N.to_nat i < length depths)%nat as Hlt by (by eapply lookup_lt_Some).
    assert (∀ j e, <[N.to_nat i := Some d]> depths !! N.to_nat j = Some (Some e) ↔
      (j = i ∧ e = d) ∨ depths !! N.to_nat j = Some (Some e)) as Hins.
    { intros j e. destruct (decide (j = i)) as [->|Hne].
      - rewrite list_lookup_insert_eq by done. naive_solver.
      - rewrite list_lookup_insert_ne by lia. naive_solver. }
    destruct (IH (push_all (map (λ t, (t, d - pops + pushes)) (int_targets operation i)) worklist)
      (<[N.to_nat i := Some d]> depths)) as (final & ? & ? & ? & Hgrow & Hin).
    + by rewrite length_insert.
    + rewrite length_push_all, length_map. pose proof (int_targets_length operation i).
      pose proof (missing_insert unknown depths _ None (Some d) Hi eq_refl eq_refl). lia.
    + intros j e [Hj|Hj]%elem_of_push_all; [|apply Hw; by right].
      apply list_elem_of_fmap in Hj as (t & Heq & Ht). injection Heq as -> ->.
      by apply (height_targets i d operation t pops pushes Hid' Hop He).
    + intros j e [[-> ->]|Hj]%Hins; [done|by apply Ha].
    + intros j e o t [[-> ->]|Hj]%Hins Ho Ht.
      * rewrite Hop in Ho. injection Ho as <-. rewrite He. left. apply elem_of_push_all. left. apply list_elem_of_fmap. by exists t.
      * specialize (Hs j e o t Hj Ho Ht). destruct (int_op_effect o). rewrite elem_of_push_all, Hins.
        destruct Hs as [[Heq|?]%elem_of_cons|?]; [right; left; by injection Heq|by auto..].
    + exists final. split_and!; try done.
      * intros j e Hj. apply Hgrow, Hins. by right.
      * intros j e [Heq|Hj]%elem_of_cons; [|apply Hin, elem_of_push_all; by right].
        injection Heq as -> ->. apply Hgrow, Hins. by left.
  - apply lookup_ge_None in Hi. apply lookup_lt_Some in Hop. lia.
Qed.
End depths.

Lemma depths_of_kinds operations root K :
  kinded operations root K →
  ∃ depths, int_stack_depths operations = Some (Ok depths) ∧ depths_agree K depths ∧
    depths_settled operations [] depths ∧ depths !! 0%nat = Some (Some 0).
Proof.
  intros HK. destruct (depths_loop_ok operations root K HK (2 * length operations + 2) [(0, 0)]
    (replicate (length operations) None)) as (final & Hl & Ha & Hs & _ & Hin).
  - apply length_replicate.
  - rewrite missing_replicate by done. cbn. lia.
  - intros i d Hi. apply list_elem_of_singleton in Hi. simplify_eq.
    destruct HK as (_ & (ks & Hks & Hle) & _). apply Forall2_length in Hle.
    exists ks. split; [done|]. unfold len. cbn in Hle. lia.
  - intros i d Hi. apply lookup_replicate in Hi as [? _]. done.
  - intros i d o t Hi. apply lookup_replicate in Hi as [? _]. done.
  - exists final. split_and!; [exact Hl|done|done|]. apply (Hin 0). by left.
Qed.

(** ** Emission *)

Section emission.
Local Set Default Proof Using "All".
Context (operations : list IntOp) (root : bool) (K : list (option (list Kind))) (n : N).
Context (HK : kinded operations root K) (Hfit : Forall (operation_fits n) operations).
Context (depths : list (option N)).
Context (Ha : depths_agree K depths) (Hs : depths_settled operations [] depths).

Lemma target_block i operation t d :
  operations !! N.to_nat i = Some operation → depths !! N.to_nat i = Some (Some d) →
  t ∈ int_targets operation i → match operation with I_Jump _ | I_JumpIfFalse _ => True | _ => False end →
  is_Some (block_at (block_starts operations) depths t).
Proof.
  intros Hop Hd Ht Hj. unfold block_at. rewrite bool_decide_true.
  - specialize (Hs i d operation t Hd Hop Ht). destruct (int_op_effect operation).
    destruct Hs as [[]%not_elem_of_nil|Hs']. rewrite Hs'. by eexists.
  - unfold block_starts. apply list_elem_of_In, in_concat. eexists. split.
    + apply list_elem_of_In, elem_of_lookup_imap. exists (N.to_nat i), operation. by split.
    + apply list_elem_of_In. destruct operation; try done.
      cbn in *. by rewrite N2Nat.id.
Qed.

(** An emission that is neither terminated nor dead stands at a known depth. *)
Definition emit_inv (i : N) (e : Emit) : Prop :=
  e_terminated e = false → e_dead e = false → depths !! N.to_nat i = Some (Some (e_stack e)).

(** The depth an operation passes on to the next one. *)
Lemma emit_next i operation d m :
  operations !! N.to_nat i = Some operation → depths !! N.to_nat i = Some (Some d) →
  i + 1 ∈ int_targets operation i →
  m = d - (int_op_effect operation).1 + (int_op_effect operation).2 →
  emit_inv (i + 1) (mkEmit m false false).
Proof.
  intros Hop Hd Hin Hm _ _. specialize (Hs i d operation _ Hd Hop Hin).
  destruct (int_op_effect operation). subst m. by destruct Hs as [[]%not_elem_of_nil|].
Qed.

Lemma emit_operation_ok i operation d :
  operations !! N.to_nat i = Some operation → depths !! N.to_nat i = Some (Some d) →
  ∃ e, emit_operation 0 n (block_starts operations) depths i operation d = Ok e ∧ emit_inv (i + 1) e.
Proof.
  intros Hop Hd. destruct (Ha _ _ Hd) as (ks & Hks & Hl).
  destruct HK as (_ & _ & Hset). destruct (Hset _ _ _ Hks Hop) as (ks' & Hstep & _).
  assert (operation_fits n operation) as Hf by (by eapply Forall_lookup_1).
  assert (∀ m, i + 1 ∈ int_targets operation i →
    m = d - (int_op_effect operation).1 + (int_op_effect operation).2 →
    ∃ e, Ok (mkEmit m false false) = Ok (E := string) e ∧ emit_inv (i + 1) e) as Hgo
    by (intros m ? ?; eexists; split; [done|]; by eapply emit_next).
  assert (∀ m, ∃ e, Ok (mkEmit m true false) = Ok (E := string) e ∧ emit_inv (i + 1) e) as Hend
    by (intros m; by eexists).
  pose proof (λ t, target_block i operation t d Hop Hd) as Hb.
  destruct operation; cbn [kind_step] in Hstep; repeat case_match; simplify_eq;
    cbn [operation_fits] in Hf; cbn [emit_operation]; try done;
    unfold len in *; cbn [length] in *; unfold slot_declared;
    rewrite ?(proj2 (N.ltb_lt _ _) Hf); rewrite ?(proj2 (N.ltb_ge _ _)) by lia; cbn [mbind result_bind];
    try (apply Hgo; [by left|cbv beta iota delta [int_op_effect fst snd]; lia]).
  - destruct (Hb target) as [b ->]; [by left|done|]. apply Hend.
  - destruct (Hb target) as [b ->]; [by left|done|].
    destruct (Hb (i + 1)) as [c ->]; [by right; left|done|]. apply Hend.
  - apply Hend.
Qed.

Lemma emit_turn_ok i operation e :
  operations !! N.to_nat i = Some operation → emit_inv i e →
  ∃ e', emit_turn 0 n (block_starts operations) depths i operation e = Ok e' ∧ emit_inv (i + 1) e'.
Proof.
  intros Hop He. unfold emit_turn.
  destruct (block_at _ _ i) as [d|] eqn:Hb.
  { apply emit_operation_ok; [done|]. unfold block_at in Hb. case_bool_decide; [|done].
    destruct (depths !! N.to_nat i) as [[]|]; by simplify_eq/=. }
  destruct (e_terminated e || _) eqn:Ht; [eexists; split; [done|]; intros ?; done|].
  apply orb_false_iff in Ht as [Ht Hsome]. destruct (e_dead e) eqn:Hdead.
  - eexists. split; [done|]. intros _ ?. congruence.
  - apply emit_operation_ok; [done|]. by apply He.
Qed.

Lemma emit_all_ok suffix i e :
  (∀ j, operations !! (N.to_nat i + j)%nat = suffix !! j) → emit_inv i e →
  ∃ e', emit_all 0 n (block_starts operations) depths i suffix e = Ok e' ∧ emit_inv (i + len suffix) e'.
Proof.
  revert i e. induction suffix as [|operation suffix IH]; intros i e Hsuf He; cbn [emit_all].
  - exists e. split; [done|]. by rewrite len_nil, N.add_0_r.
  - destruct (emit_turn_ok i operation e) as (e1 & -> & He1); [|done|].
    { specialize (Hsuf 0%nat). by rewrite Nat.add_0_r in Hsuf. }
    cbn [mbind result_bind]. destruct (IH (i + 1) e1) as (e2 & -> & He2); [|done|].
    + intros j. specialize (Hsuf (S j)). cbn in Hsuf. etrans; [|exact Hsuf]. f_equal. lia.
    + exists e2. split; [done|]. rewrite len_cons. by rewrite N.add_assoc.
Qed.
End emission.

(** The back end compiles what the analysis of kinds accepted. *)
Lemma emit_plan_ok operations root K n :
  kinded operations root K → Forall (operation_fits n) operations →
  emit_plan_body 0 n operations = Some (Ok tt).
Proof.
  intros HK Hfit. destruct (depths_of_kinds operations root K HK) as (depths & Hd & Ha & Hs & H0).
  unfold emit_plan_body. rewrite Hd. cbn [mbind option_bind result_bind].
  destruct (emit_all_ok operations root K n HK Hfit depths Ha Hs operations 0 (mkEmit 0 false false))
    as (e & -> & He); [done|by intros _ _|]. cbn [mbind result_bind].
  destruct (e_terminated e) eqn:Ht; [done|]. destruct (e_dead e) eqn:Hdead; [done|].
  specialize (He Ht Hdead). rewrite N.add_0_l in He.
  destruct (Ha _ _ He) as (ks & Hks & _).
  apply lookup_lt_Some in Hks. destruct HK as (Hl & _). rewrite len_to_nat in Hks. lia.
Qed.

(** ** The planner's output *)

(** The integer constants of the code are 64-bit integers, as the type of
    [Literal::Int] has them. *)
Definition ints_fit (code : list Instruction) : Prop :=
  Forall (λ i, match instr_op i with Op_Constant (Literal_Int z) => i64 z | _ => True end) code.

Definition walk_ok (w : Walk) : Prop := ∀ name slot, w_slots w !! name = Some slot → slot < w_next_slot w.

Lemma operation_fits_le n m operation : n ≤ m → operation_fits n operation → operation_fits m operation.
Proof. intros H. destruct operation; cbn; try done; lia. Qed.

Lemma u32_of_Some n m : u32_of n = Some m → m = n.
Proof. unfold u32_of. case_match; naive_solver. Qed.

Lemma remove_all_lookup {A} names (m : gmap string A) name x :
  remove_all names m !! name = Some x → m !! name = Some x.
Proof.
  unfold remove_all. revert m. induction names as [|n names IH]; intros m H; [done|].
  apply IH in H. apply lookup_delete_Some in H. tauto.
Qed.

Lemma binary_operation_fits n operator operation :
  binary_operation operator = Some operation → operation_fits n operation.
Proof. destruct operator; cbn; intros; by simplify_eq. Qed.

Lemma unary_operation_fits n operator operation :
  unary_operation operator = Some operation → operation_fits n operation.
Proof. destruct operator; cbn; intros; by simplify_eq. Qed.

Lemma integer_operation_fits op w operation w' :
  integer_operation op w = Some (operation, w') → walk_ok w →
  match op with Op_Constant (Literal_Int z) => i64 z | _ => True end →
  walk_ok w' ∧ w_next_slot w ≤ w_next_slot w' ∧ operation_fits (w_next_slot w') operation.
Proof.
  intros H Hw Hc. destruct op; cbn [integer_operation] in H; try done;
    try match type of H with
    | (?m ≫= _) = _ => destruct m as [r|] eqn:Hr; cbn in H; [|done]; try apply u32_of_Some in Hr
    end; simplify_eq;
    try (split_and!; [done|cbn; lia|by cbn; eauto using binary_operation_fits, unary_operation_fits]).
  - destruct literal; simplify_eq; by split_and!.
  - case_bool_decide as Hn; [done|]. unfold checked_add_u32 in H.
    destruct (u32_of _) as [next|] eqn:Hnext; [|done]. apply u32_of_Some in Hnext. cbn in H.
    destruct (w_scopes w) as [|scope outer]; simplify_eq. cbn. split_and!; [|lia|lia].
    intros x slot. cbn. rewrite lookup_insert. case_decide; intros; simplify_eq; [lia|].
    etrans; [by eapply Hw|lia].
  - destruct (w_scopes w) as [|ended [|s outer]]; simplify_eq. cbn. split_and!; [|lia|done].
    intros x slot Hx. apply remove_all_lookup in Hx. by eapply Hw.
Qed.

Lemma integer_walk_fits code reachable w operations w' :
  integer_walk code reachable w = Some (operations, w') → walk_ok w → ints_fit code →
  w_next_slot w ≤ w_next_slot w' ∧ Forall (operation_fits (w_next_slot w')) operations.
Proof.
  revert reachable w operations. induction code as [|instruction code IH];
    intros [|live reachable] w operations H Hw Hc; cbn in H; simplify_eq; try (by split; [|constructor]).
  apply Forall_cons in Hc as [Hi Hc].
  assert (∃ operation w1, (if live then integer_operation (instr_op instruction) w else Some (I_Nop, w))
    = Some (operation, w1) ∧ walk_ok w1 ∧ w_next_slot w ≤ w_next_slot w1 ∧
      operation_fits (w_next_slot w1) operation) as (operation & w1 & E & Hw1 & Hle & Hf).
  { destruct live; [|by eexists _, _].
    destruct (integer_operation _ w) as [[operation w1]|] eqn:Ho; [|done].
    exists operation, w1. split; [done|]. by eapply integer_operation_fits. }
  rewrite E in H. cbn in H. destruct (integer_walk code reachable w1) as [[ops w2]|] eqn:Hrest; [|done].
  cbn in H. simplify_eq. destruct (IH _ _ _ Hrest Hw1 Hc) as [Hle2 Hall].
  split; [lia|]. constructor; [by eapply operation_fits_le|done].
Qed.

Lemma parameter_slots_ok index parameters slots slots' :
  parameter_slots index parameters slots = Some slots' →
  (∀ name slot, slots !! name = Some slot → slot < index) →
  ∀ name slot, slots' !! name = Some slot → slot < index + len parameters.
Proof.
  revert index slots. induction parameters as [|p parameters IH]; intros index slots H Hs name slot Hn;
    cbn in H; simplify_eq.
  - rewrite len_nil. specialize (Hs _ _ Hn). lia.
  - destruct (u32_of index) as [n|] eqn:Hu; [|done]. apply u32_of_Some in Hu as ->. cbn in H.
    rewrite len_cons. specialize (IH _ _ H). rewrite N.add_assoc, (N.add_comm _ 1) in *.
    replace (1 + index) with (index + 1) in * by lia. eapply IH; [|done].
    intros x y. rewrite lookup_insert. case_decide; intros; simplify_eq; [lia|].
    etrans; [by eapply Hs|lia].
Qed.

Lemma first_walk_ok parameters w :
  first_walk parameters = Some w → walk_ok w ∧ w_next_slot w = len parameters.
Proof.
  unfold first_walk. destruct (parameter_slots 0 parameters ∅) as [slots|] eqn:Hs; [|done]. cbn.
  destruct (u32_of (len parameters)) as [n|] eqn:Hn; [|done]. apply u32_of_Some in Hn as ->.
  cbn. intros. simplify_eq. split; [|done]. intros name slot Hslot. cbn in *.
  apply (parameter_slots_ok _ _ _ _ Hs) in Hslot; [lia|]. intros ? ?. by rewrite lookup_empty.
Qed.

Lemma integer_operations_fits parameters code slots operations persistent :
  integer_operations parameters code = Some (slots, operations, persistent) → ints_fit code →
  len parameters ≤ slots ∧ Forall (operation_fits slots) operations.
Proof.
  unfold integer_operations. intros H Hc.
  destruct (first_walk parameters) as [w|] eqn:Hw; [|done]. apply first_walk_ok in Hw as [Hok Hn].
  destruct (reachable_instructions code) as [reachable|]; [|done]. cbn in H.
  destruct (integer_walk code reachable w) as [[ops w']|] eqn:Hwalk; [|done]. cbn in H.
  destruct (_ && _); simplify_eq. rewrite <- Hn. by eapply integer_walk_fits.
Qed.

(** The slots a call starts with. *)
Definition entry_slots (slots : N) (arguments : list Z) : list Z :=
  arguments ++ replicate (N.to_nat slots - length arguments) 0%Z.

Lemma entry_slots_ok slots arguments :
  Forall i64 arguments → len arguments ≤ slots →
  Forall i64 (entry_slots slots arguments) ∧ len (entry_slots slots arguments) = slots.
Proof.
  intros Ha Hl. unfold entry_slots. split.
  - apply Forall_app. split; [done|]. apply Forall_replicate. by apply i64_small.
  - unfold len in *. rewrite length_app, length_replicate. lia.
Qed.

(** What a plan for a function body comes with. *)
Lemma planned_kinded parameters body slots operations :
  ints_fit (chunk_code body) → integer_native_plan parameters body = Some (slots, operations) →
  (∃ persistent, integer_operations parameters (chunk_code body) = Some (slots, operations, persistent)) ∧
  len parameters ≤ slots ∧ Forall (operation_fits slots) operations ∧ ∃ K, kinded operations false K.
Proof.
  unfold integer_native_plan. intros Hints H.
  destruct (integer_operations _ _) as [[[n ops] persistent]|] eqn:Hops; [|done]. cbn [mbind option_bind] in H.
  destruct (verify_integer_kinds ops false) as [[]|] eqn:Hk; [|done]. cbn in H. injection H as -> ->.
  apply verify_kinded in Hk. split; [by exists persistent|].
  apply integer_operations_fits in Hops as [? ?]; done.
Qed.

Lemma planned_run_sound parameters body slots operations arguments fuel functions limit depth :
  ints_fit (chunk_code body) → integer_native_plan parameters body = Some (slots, operations) →
  length arguments = length parameters → Forall i64 arguments →
  run_sound slots (native_run fuel functions limit depth operations 0 [] (entry_slots slots arguments)).
Proof.
  intros Hints H Hlen Hargs. destruct (planned_kinded _ _ _ _ Hints H) as (_ & Hle & Hfit & K & HK).
  destruct (entry_slots_ok slots arguments) as [Hs Hn]; [done|unfold len in *; lia|].
  eapply native_run_sound; try done. destruct HK as (_ & H0 & _). by eapply arrived_at.
Qed.

(** C11: what [integer_native_plan] plans for a function body, the back end
    compiles (within its limits on slots and operations), and the compiled code
    is safe: called with as many 64-bit integers as there are parameters it
    never gets stuck on a missing operand, slot or operation, it gives a 64-bit
    integer, and it faults only for overflow and division or remainder by
    zero. *)
Theorem planned_function_safe parameters body slots operations arguments :
  ints_fit (chunk_code body) → integer_native_plan parameters body = Some (slots, operations) →
  length arguments = length parameters → Forall i64 arguments →
  (∀ fuel functions limit depth,
    run_sound slots (native_run fuel functions limit depth operations 0 [] (entry_slots slots arguments))) ∧
  (slots ≤ 4096 → len operations ≤ 1000000 →
   compile_with (len parameters) slots operations = Some (Ok tt)).
Proof.
  intros Hints H Hlen Hargs. split; [intros; by eapply planned_run_sound|].
  destruct (planned_kinded _ _ _ _ Hints H) as (_ & Hle & Hfit & K & HK). intros Hlimit Hmany.
  unfold compile_with. rewrite !(proj2 (N.ltb_ge _ _)) by done. by eapply emit_plan_ok.
Qed.

(** The body of [define sum takes { n is Int } gives Int { change i set 0
    change t set 0  repeat while i < n { change i to i + 1  change t to t + i }
    give t }], with one span for all its instructions. *)
Definition sum_body : Chunk := mkChunk BYTECODE_VERSION (map (λ op, mkInstruction op (mkSpan 1 1))
  [Op_Constant (Literal_Int 0); Op_Define "i" true; Op_Pop;
   Op_Constant (Literal_Int 0); Op_Define "t" true; Op_Pop;
   Op_Constant Literal_Null; Op_Load "i"; Op_Load "n"; Op_Binary Tk_Less; Op_JumpIfFalse 25; Op_Pop; Op_Pop;
   Op_EnterScope; Op_Load "i"; Op_Constant (Literal_Int 1); Op_Binary Tk_Plus; Op_Store "i"; Op_Pop;
   Op_Load "t"; Op_Load "i"; Op_Binary Tk_Plus; Op_Store "t"; Op_ExitScope; Op_Jump 7;
   Op_Pop; Op_Pop; Op_Load "t"; Op_Return; Op_Constant Literal_Null; Op_Return]).

Lemma sum_fits : ints_fit (chunk_code sum_body).
Proof. repeat (constructor; [try done; by apply i64_small|]). constructor. Qed.

Lemma planned_function_safe_witness :
  ∃ slots operations, integer_native_plan ["n"] sum_body = Some (slots, operations) ∧
    native_run 500 [] 0 0 operations 0 [] (entry_slots slots [10%Z]) = NDone 55 [10; 10; 55]%Z ∧
    compile_with 1 slots operations = Some (Ok tt).
Proof.
  assert (∃ slots operations, integer_native_plan ["n"] sum_body = Some (slots, operations) ∧
    slots ≤ 4096 ∧ len operations ≤ 1000000 ∧
    native_run 500 [] 0 0 operations 0 [] (entry_slots slots [10%Z]) = NDone 55 [10; 10; 55]%Z)
    as (slots & operations & Hp & Hs & Ho & Hr).
  { eexists _, _. split; [vm_compute; reflexivity|]. split_and!; [by vm_compute..|]. vm_compute. reflexivity. }
  exists slots, operations. split; [done|]. split; [done|].
  apply (planned_function_safe ["n"] sum_body slots operations [10%Z]); [apply sum_fits|done|done| |done|done].
  constructor; [|constructor]. unfold i64, i64_min, i64_max. lia.
Defined.
