(* ===== verification/NativeWalk.v ===== *)
(** * The planner's view of scopes

    [integer_operations] resolves names to slots in one pass over the code, in
    the order of the instructions, while the machine resolves them in the order
    of execution.  [disciplined] says when the two agree: along every jump the
    pass has the same names in the same slots at both ends, and only mutable
    names are stored to.  It holds for code whose branches and loops declare
    names in blocks of their own, and can be computed. *)
From S2P Require Import Prelude Ast Values Bytecode IntCode Native NativeOk NativeRun.
Open Scope list_scope.

(** One instruction of the pass. *)
Definition walk_next (op : Op) (live : bool) (w : Walk) : option (IntOp * Walk) :=
  if live then integer_operation op w else Some (I_Nop, w).

(** What the pass knows before each instruction. *)
Fixpoint walks (code : list Instruction) (reachable : list bool) (w : Walk) : list Walk :=
  match code, reachable with
  | instruction :: code, live :: reachable =>
      w :: match walk_next (instr_op instruction) live w with
           | Some (_, w) => walks code reachable w
           | None => []
           end
  | _, _ => []
  end.

(** The same names in the same slots and scopes. *)
Definition same_names (w w' : Walk) : Prop := w_slots w = w_slots w' ∧ w_scopes w = w_scopes w'.
#[export] Instance same_names_dec w w' : Decision (same_names w w').
Proof. unfold same_names. apply _. Defined.

(** Is the name assigned to anywhere? *)
Definition stored (code : list Instruction) (name : string) : bool :=
  existsb (λ i, match instr_op i with Op_Store n => bool_decide (n = name) | _ => false end) code.

Definition stores_mutable (parameters : list string) (code : list Instruction) : bool :=
  forallb (λ p, negb (stored code p)) parameters
  && forallb (λ i, match instr_op i with Op_Define n m => implb (stored code n) m | _ => true end) code.

(** The jumps of one instruction lead to the same names. *)
Definition jumps_agree (code : list Instruction) (reachable : list bool) (ws : list Walk) (i : nat) : bool :=
  match code !! i, reachable !! i, ws !! i with
  | Some instruction, Some true, Some w =>
      match integer_operation (instr_op instruction) w with
      | Some (_, w') =>
          forallb (λ t, match ws !! N.to_nat t with
                        | Some wt => bool_decide (same_names wt w')
                        | None => true
                        end) (jump_targets (instr_op instruction) (N.of_nat i))
      | None => true
      end
  | _, _, _ => true
  end.

Definition disciplined (parameters : list string) (code : list Instruction) : bool :=
  match first_walk parameters, reachable_instructions code with
  | Some w, Some reachable =>
      forallb (jumps_agree code reachable (walks code reachable w)) (seq 0 (length code))
      && stores_mutable parameters code
  | _, _ => false
  end.

(** ** The pass by index *)

Lemma walks_spec code reachable w operations w' :
  integer_walk code reachable w = Some (operations, w') → length reachable = length code →
  length operations = length code ∧ length (walks code reachable w) = length code ∧
  ∀ i instruction live, code !! i = Some instruction → reachable !! i = Some live →
    ∃ wi o wi', walks code reachable w !! i = Some wi ∧ operations !! i = Some o ∧
      walk_next (instr_op instruction) live wi = Some (o, wi') ∧
      (∀ wn, walks code reachable w !! S i = Some wn → wn = wi').
Proof.
  revert reachable w operations. induction code as [|instruction code IH];
    intros [|live reachable] w operations H Hlen; simplify_eq/=; [split_and!; [done..|]; by intros [|i]|].
  unfold walk_next. destruct (if live then _ else _) as [[o w1]|] eqn:Ho; [|done]. cbn in H.
  destruct (integer_walk code reachable w1) as [[ops w2]|] eqn:Hw; [|done]. cbn in H. simplify_eq/=.
  destruct (IH reachable w1 ops Hw) as (Hl1 & Hl2 & Hat); [done|]. split_and!; [lia|lia|].
  intros [|i] ins lv Hi Hr; simplify_eq/=; [|by apply Hat].
  exists w, o, w1. split_and!; [done..|]. intros wn Hn.
  destruct code, reachable; simplify_eq/=. by simplify_eq.
Qed.

Lemma walks_0 code reachable w wn : walks code reachable w !! 0%nat = Some wn → wn = w.
Proof. destruct code, reachable; intros H; by simplify_eq/=. Qed.

(** ** What the pass keeps *)

(** Every visible name is in one scope, and in a slot of its own. *)
Record walk_inv (w : Walk) : Prop := {
  inv_dom name : is_Some (w_slots w !! name) ↔ ∃ scope, scope ∈ w_scopes w ∧ name ∈ scope;
  inv_inj a b s : w_slots w !! a = Some s → w_slots w !! b = Some s → a = b;
  inv_fresh : walk_ok w;
  inv_apart i j si sj name : w_scopes w !! i = Some si → w_scopes w !! j = Some sj →
    name ∈ si → name ∈ sj → i = j }.

Lemma remove_all_Some {A} names (m : gmap string A) name x :
  remove_all names m !! name = Some x ↔ m !! name = Some x ∧ name ∉ names.
Proof.
  unfold remove_all. revert m. induction names as [|n names IH]; intros m; cbn; [set_solver|].
  rewrite IH, lookup_delete_Some, not_elem_of_cons. naive_solver.
Qed.

(** Operations that declare nothing and leave no scope do not change what the
    invariant speaks of. *)
Lemma walk_inv_same w w' :
  walk_inv w → w_slots w' = w_slots w → w_scopes w' = w_scopes w → w_next_slot w' = w_next_slot w →
  walk_inv w'.
Proof.
  intros [Hd Hi Hf Ha] E1 E2 E3. split.
  - intros name. by rewrite E1, E2.
  - intros a b s. rewrite E1. apply Hi.
  - intros name slot. rewrite E1, E3. apply Hf.
  - intros i j si sj name. rewrite E2. apply Ha.
Qed.

Lemma walk_inv_define w name slot scope outer p r :
  walk_inv w → w_slots w !! name = None → w_scopes w = scope :: outer → slot = w_next_slot w →
  walk_inv (mkWalk (<[name := slot]> (w_slots w)) (slot + 1) ((name :: scope) :: outer) p r).
Proof.
  intros [Hd Hi Hf Ha] Hnone Hsc ->.
  assert (∀ s, s ∈ w_scopes w → name ∉ s) as Hnew.
  { intros s Hs Hin. destruct (proj2 (Hd name)) as [x Hx]; [by exists s|]. congruence. }
  rewrite Hsc in *. split; cbn.
  - intros n. rewrite lookup_insert. case_decide as Hn; [subst; split; [|by eexists]|].
    + intros _. exists (n :: scope). split; by left.
    + rewrite Hd. split; intros (s & [->|Hs]%elem_of_cons & Hin).
      * exists (name :: scope). split; [by left|by right].
      * exists s. split; [by right|done].
      * exists scope. split; [by left|]. apply elem_of_cons in Hin as [->|]; done.
      * exists s. split; [by right|done].
  - intros a b s. rewrite !lookup_insert. repeat case_decide; intros; simplify_eq; [done|..].
    + match goal with H : w_slots w !! _ = Some _ |- _ => apply Hf in H; lia end.
    + match goal with H : w_slots w !! _ = Some _ |- _ => apply Hf in H; lia end.
    + by eapply Hi.
  - intros n s. cbn. rewrite lookup_insert. case_decide; intros; simplify_eq; [lia|].
    match goal with H : w_slots w !! _ = Some _ |- _ => apply Hf in H; lia end.
  - intros [|i] [|j] si sj n Hsi Hsj Hin Hjn; simplify_eq/=; try done.
    + apply elem_of_cons in Hin as [->|Hin]; [|by apply (Ha 0%nat (S j) scope sj n)].
      exfalso. eapply Hnew; [right; by eapply list_elem_of_lookup_2|done].
    + apply elem_of_cons in Hjn as [->|Hjn]; [|by apply (Ha (S i) 0%nat si scope n)].
      exfalso. eapply Hnew; [right; by eapply list_elem_of_lookup_2|done].
    + by apply (Ha (S i) (S j) si sj n).
Qed.

Lemma walk_inv_enter w p r : walk_inv w → walk_inv (mkWalk (w_slots w) (w_next_slot w) ([] :: w_scopes w) p r).
Proof.
  intros [Hd Hi Hf Ha]. split; cbn; [|done|done|].
  - intros n. rewrite Hd. split; intros (s & Hs & Hin); [exists s; split; [by right|done]|].
    apply elem_of_cons in Hs as [->|Hs]; [by apply not_elem_of_nil in Hin|by exists s].
  - intros [|i] [|j] si sj n Hsi Hsj Hin Hjn; simplify_eq/=; try done;
      try by apply not_elem_of_nil in Hin; try by apply not_elem_of_nil in Hjn.
    + by apply not_elem_of_nil in Hjn.
    + f_equal. by eapply Ha.
Qed.

Lemma walk_inv_exit w ended outer p r :
  walk_inv w → w_scopes w = ended :: outer →
  walk_inv (mkWalk (remove_all ended (w_slots w)) (w_next_slot w) outer p r).
Proof.
  intros [Hd Hi Hf Ha] Hsc. rewrite Hsc in *. split; cbn.
  - intros n. split.
    + intros [x [Hx Hn]%remove_all_Some]. destruct (proj1 (Hd n)) as (s & Hs & Hin); [by eexists|].
      apply elem_of_cons in Hs as [->|Hs]; [done|by exists s].
    + intros (s & Hs & Hin). destruct (proj2 (Hd n)) as [x Hx]; [exists s; split; [by right|done]|].
      exists x. apply remove_all_Some. split; [done|]. intros Hend.
      apply list_elem_of_lookup in Hs as [j Hj]. by specialize (Ha 0%nat (S j) ended s n eq_refl Hj Hend Hin).
  - intros a b s [? _]%remove_all_Some [? _]%remove_all_Some. by eapply Hi.
  - intros n s [? _]%remove_all_Some. by eapply Hf.
  - intros i j si sj n Hsi Hsj Hin Hjn. specialize (Ha (S i) (S j) si sj n Hsi Hsj Hin Hjn). lia.
Qed.

Lemma integer_operation_inv op w o w' :
  integer_operation op w = Some (o, w') → walk_inv w → walk_inv w'.
Proof.
  intros H Hw. destruct op; cbn [integer_operation] in H; try done;
    try match type of H with
    | (?m ≫= _) = _ => destruct m as [r|] eqn:Hr; cbn in H; [|done]
    end; simplify_eq; try done; try (by eapply walk_inv_same).
  - destruct literal; by simplify_eq.
  - case_bool_decide as Hn; [done|]. apply eq_None_not_Some in Hn. unfold checked_add_u32 in H.
    destruct (u32_of _) as [next|] eqn:Hnext; [|done]. apply u32_of_Some in Hnext as ->. cbn in H.
    destruct (w_scopes w) as [|scope outer] eqn:Hsc; simplify_eq. by apply walk_inv_define.
  - by apply walk_inv_enter.
  - destruct (w_scopes w) as [|ended [|s outer]] eqn:Hsc; simplify_eq. cbn. by apply walk_inv_exit.
Qed.

Lemma parameter_slots_spec index parameters slots slots' :
  parameter_slots index parameters slots = Some slots' →
  (∀ a s, slots !! a = Some s → s < index) →
  (∀ a b s, slots !! a = Some s → slots !! b = Some s → a = b) →
  (∀ a, is_Some (slots' !! a) ↔ is_Some (slots !! a) ∨ a ∈ parameters) ∧
  (∀ a b s, slots' !! a = Some s → slots' !! b = Some s → a = b).
Proof.
  revert index slots. induction parameters as [|p parameters IH]; intros index slots H Hlt Hinj; cbn in H.
  { simplify_eq. split; [|done]. intros a. set_solver. }
  destruct (u32_of index) as [n|] eqn:Hu; [|done]. apply u32_of_Some in Hu as ->. cbn in H.
  destruct (IH _ _ H) as [Hd Hi].
  - intros a s. rewrite lookup_insert. case_decide; intros; simplify_eq; [lia|].
    match goal with H : slots !! _ = Some _ |- _ => apply Hlt in H; lia end.
  - intros a b s. rewrite !lookup_insert. destruct (decide (p = a)), (decide (p = b)); intros Ha Hb.
    + congruence.
    + apply Hlt in Hb. simplify_eq. lia.
    + apply Hlt in Ha. simplify_eq. lia.
    + by eapply Hinj.
  - split; [|done]. intros a. rewrite Hd, lookup_insert_is_Some, elem_of_cons.
    destruct (decide (p = a)) as [->|]; naive_solver.
Qed.

Lemma first_walk_inv parameters w : first_walk parameters = Some w → walk_inv w.
Proof.
  intros Hw. apply first_walk_ok in Hw as Hok. destruct Hok as [Hok _]. unfold first_walk in Hw.
  destruct (parameter_slots 0 parameters ∅) as [slots|] eqn:Hs; [|done]. cbn in Hw.
  destruct (u32_of (len parameters)) as [n|]; [|done]. cbn in Hw. simplify_eq.
  destruct (parameter_slots_spec _ _ _ _ Hs) as [Hd Hi]; [by intros ? ?; rewrite lookup_empty..|].
  split; cbn; [|done|done|].
  - intros name. rewrite Hd, lookup_empty. split.
    + intros [[? ?]|Hin]; [done|]. exists (rev parameters). split; [by left|].
      rewrite rev_alt. fold (reverse parameters). by apply elem_of_reverse.
    + intros (s & ->%list_elem_of_singleton & Hin). right.
      rewrite rev_alt in Hin. fold (reverse parameters) in Hin. by apply elem_of_reverse.
  - intros [|i] [|j] si sj name Hsi Hsj; by simplify_eq/=.
Qed.

Lemma walks_inv code reachable w i wi :
  walk_inv w → walks code reachable w !! i = Some wi → walk_inv wi.
Proof.
  revert reachable w i. induction code as [|instruction code IH]; intros [|live reachable] w i Hw Hi;
    try done. cbn [walks] in Hi. destruct i as [|i]; cbn in Hi; [by simplify_eq|].
  destruct (walk_next _ _ _) as [[o w1]|] eqn:Ho; [|done]. eapply IH; [|exact Hi].
  unfold walk_next in Ho. destruct live; [by eapply integer_operation_inv|by simplify_eq].
Qed.
