(* ===== verification/NativeSim.v ===== *)
(** * Native code and the machine agree

    A step-by-step simulation of the machine by the code planned for a function
    body.  The machine keeps the function's variables in the scopes of its
    environment, the native code in slots; the planner's pass ([NativeWalk])
    says which slot belongs to which name of which scope, and the analysis of
    kinds which machine word stands for which value. *)
From S2P Require Import Prelude Ast Values Bytecode Verifier Gate Vm Tree Engine IntCode Native NativeOk NativeRun NativeWalk.
Open Scope list_scope.

(** ** Values *)

(** The machine word that stands for a value of a kind. *)
Definition denotes (k : Kind) (v : Value) (z : Z) : Prop :=
  match k with
  | K_Int => v = V_Int z ∧ i64 z
  | K_Bool => ∃ b : bool, v = V_Bool b ∧ z = if b then 1%Z else 0%Z
  | K_Null => v = V_Null ∧ z = 0%Z
  | K_Word => v = V_Int z ∧ i64 z ∨ v = V_Null ∧ z = 0%Z
  end.

Lemma denotes_le a b v z : kind_le a b → denotes a v z → denotes b v z.
Proof. intros [->|[-> Hb]]; [done|]. destruct a; cbn; naive_solver. Qed.

Definition stack_denotes : list Kind → list Value → list Z → Prop := Forall3 denotes.

Lemma stack_denotes_le s t vs zs : kinds_le s t → stack_denotes s vs zs → stack_denotes t vs zs.
Proof.
  intros Hle. revert vs zs. induction Hle as [|a b s t Hab _ IH]; intros vs zs H; inversion H; subst;
    constructor; [by eapply denotes_le|by apply IH].
Qed.

Lemma stack_cons k ks vs zs :
  stack_denotes (k :: ks) vs zs →
  ∃ v z vs' zs', vs = v :: vs' ∧ zs = z :: zs' ∧ denotes k v z ∧ stack_denotes ks vs' zs'.
Proof. inversion 1; subst. by eexists _, _, _, _. Qed.

(** What the runtime says of a fault. *)
Definition fault_message (code : N) : string :=
  match fault_error code with
  | Overflow => "integer overflow"
  | DivisionByZero => "division by zero"
  | RemainderByZero => "remainder by zero"
  | CallDepth => "call depth limit exceeded"
  end.

(** ** Operators *)

Lemma checked_i64_spec z :
  (i64 z ∧ checked i64_min i64_max z = Some z) ∨ (¬ i64 z ∧ checked i64_min i64_max z = None).
Proof.
  unfold checked, i64. destruct (_ && _) eqn:E; [left|right]; split; try done;
    [|intros []]; rewrite ?andb_true_iff, ?andb_false_iff, ?Z.leb_le, ?Z.leb_gt in E; lia.
Qed.

(** The quotient that does not fit. *)
Lemma quot_overflows a b :
  i64 a → b ≠ 0%Z → ¬ i64 (Z.quot a b) ↔ Z.eqb a i64_min && Z.eqb b (-1) = true.
Proof.
  intros Ha Hb. rewrite andb_true_iff, !Z.eqb_eq. split.
  - intros Hn. destruct (decide (a = i64_min ∧ b = -1)%Z) as [|Hne]; [done|].
    destruct Hn. by apply quot_i64.
  - intros [-> ->]. by intros [_ ?].
Qed.

(** How an operator ends in the machine and in native code. *)
Definition operators_agree (o : IntOp) (root : bool) (pc : N) (ks : list Kind) (zs slots : list Z)
    (native : NStep) (machine : option (result NivError Value)) : Prop :=
  match machine with
  | Some (Ok v) => ∃ z k, native = NS_Next (pc + 1) (z :: zs) slots ∧
      kind_step o root (K_Int :: K_Int :: ks) = Some (k :: ks) ∧ denotes k v z
  | Some (Err e) => ∃ c, native = NS_Fault c ∧ err_message e = fault_message c
  | None => False
  end.

(** Results that are checked against the range. *)
Lemma checked_agrees o root pc ks zs slots z span :
  kind_step o root (K_Int :: K_Int :: ks) = Some (K_Int :: ks) →
  operators_agree o root pc ks zs slots
    match checked i64_min i64_max z with Some z => NS_Next (pc + 1) (z :: zs) slots | None => NS_Fault 1 end
    match checked i64_min i64_max z with
    | Some z => Some (Ok (V_Int z)) | None => Some (Err (error_at "integer overflow" span)) end.
Proof.
  intros Hk. destruct (checked_i64_spec z) as [[Hz ->]|[_ ->]]; [|by exists 1]. by exists z, K_Int.
Qed.

(** Comparisons. *)
Lemma compared_agrees condition root pc ks zs slots a b r :
  compare condition a b = r →
  operators_agree (I_Compare condition) root pc ks zs slots
    (NS_Next (pc + 1) ((if compare condition a b then 1 else 0)%Z :: zs) slots) (Some (Ok (V_Bool r))).
Proof. intros ->. eexists _, K_Bool. split; [done|]. split; [done|]. by exists r. Qed.

Lemma binary_agrees operator o a b span pc ks zs slots root :
  binary_operation operator = Some o → i64 a → i64 b →
  operators_agree o root pc ks zs slots (native_step o pc (b :: a :: zs) slots)
    (vm_int_binary a operator b span).
Proof.
  intros Ho Ha Hb. destruct operator; cbn [binary_operation] in Ho; simplify_eq; cbn [native_step];
    unfold vm_int_binary, int_binary, integer_binary;
    try (apply compared_agrees; cbn; unfold comparison_eqb; destruct (Z.compare_spec a b);
         first [by apply Z.ltb_lt|by apply Z.leb_le; lia|by apply Z.ltb_ge; lia|by apply Z.leb_gt; lia]);
    try (by apply compared_agrees); try (by apply checked_agrees).
  - unfold checked_int. replace (Some _) with (match checked i64_min i64_max (a + b) with
      | Some z => Some (Ok (V_Int z)) | None => Some (Err (error_at "integer overflow" span)) end)
      by (by destruct (checked _ _ _)). by apply checked_agrees.
  - destruct (Z.eqb_spec b 0); [by exists 2|]. pose proof (quot_overflows a b Ha ltac:(done)) as Ho.
    destruct (checked_i64_spec (Z.quot a b)) as [[Hz ->]|[Hz ->]].
    + destruct (_ && _); [by destruct (proj2 Ho eq_refl)|]. by exists (Z.quot a b), K_Int.
    + rewrite (proj1 Ho Hz). by exists 1.
  - destruct (Z.eqb_spec b 0); [by exists 3|]. pose proof (quot_overflows a b Ha ltac:(done)) as Ho.
    unfold checked_rem. destruct (checked_i64_spec (Z.quot a b)) as [[Hz ->]|[Hz ->]]; cbn.
    + destruct (_ && _); [by destruct (proj2 Ho eq_refl)|]. exists (Z.rem a b), K_Int.
      split; [done|]. split; [done|]. split; [done|by apply rem_i64].
    + rewrite (proj1 Ho Hz). by exists 1.
Qed.

Lemma negate_agrees `{Foreign} a span pc zs slots :
  i64 a →
  match negate (V_Int a) span with
  | Ok v => ∃ z, native_step I_Negate pc (a :: zs) slots = NS_Next (pc + 1) (z :: zs) slots ∧ denotes K_Int v z
  | Err e => ∃ c, native_step I_Negate pc (a :: zs) slots = NS_Fault c ∧ err_message e = fault_message c
  end.
Proof.
  intros Ha. cbn [negate native_step]. unfold checked_int.
  destruct (checked_i64_spec (- a)) as [[Hz ->]|[Hz ->]].
  - destruct (Z.eqb_spec a i64_min) as [->|]; [by destruct Hz|]. by exists (- a)%Z.
  - rewrite (proj2 (Z.eqb_eq _ _)); [by exists 1|].
    unfold i64, i64_min, i64_max in *. lia.
Qed.

(** ** Scopes *)

Section chains.
Context (code : list Instruction) (base floor : N).

(** The bindings of one scope: its names, with the integers of their slots. *)
Definition scope_matches (m : gmap string N) (slots : list Z) (vals : gmap string Binding)
    (names : list string) : Prop :=
  ∀ name, match vals !! name with
          | Some b => name ∈ names ∧ ∃ slot z, m !! name = Some slot ∧
              slots !! N.to_nat slot = Some z ∧ b_value b = V_Int z ∧
              (stored code name = true → b_mutable b = true)
          | None => name ∉ names
          end.

(** The scopes from [env] outwards to the function's own, whose parent is
    [base]; all of them were made after [floor]. *)
Inductive chain (s : gmap N Scope) (m : gmap string N) (slots : list Z) : N → list (list string) → Prop :=
  | chain_last env vals names :
      s !! env = Some (mkScope vals (Some base)) → floor ≤ env →
      scope_matches m slots vals names → chain s m slots env [names]
  | chain_more env parent vals names rest :
      s !! env = Some (mkScope vals (Some parent)) → parent < env → floor ≤ env →
      scope_matches m slots vals names → chain s m slots parent rest →
      chain s m slots env (names :: rest).

Lemma scope_matches_change m m' slots slots' vals names :
  (∀ name slot, name ∈ names → m !! name = Some slot →
     m' !! name = Some slot ∧ slots' !! N.to_nat slot = slots !! N.to_nat slot) →
  scope_matches m slots vals names → scope_matches m' slots' vals names.
Proof.
  intros H Hm name. specialize (Hm name). destruct (vals !! name) as [b|]; [|done].
  destruct Hm as (Hin & slot & z & Hs & Hz & Hb). split; [done|]. exists slot, z.
  destruct (H _ _ Hin Hs) as [-> ->]. done.
Qed.

Lemma chain_change s s' m m' slots slots' env scs :
  chain s m slots env scs → (∀ a, a ≤ env → s' !! a = s !! a) →
  (∀ scope name slot, scope ∈ scs → name ∈ scope → m !! name = Some slot →
     m' !! name = Some slot ∧ slots' !! N.to_nat slot = slots !! N.to_nat slot) →
  chain s' m' slots' env scs.
Proof.
  induction 1 as [env vals names He Hf Hm|env parent vals names rest He Hp Hf Hm Hc IH]; intros Hs Hn.
  - eapply chain_last; [by rewrite Hs|done|]. eapply scope_matches_change; [|done].
    intros ? ? ? ?. eapply Hn; [by left|done..].
  - eapply chain_more; [by rewrite Hs|done|done| |].
    + eapply scope_matches_change; [|done]. intros ? ? ? ?. eapply Hn; [by left|done..].
    + apply IH; [intros a Ha; apply Hs; lia|]. intros ? ? ? ?. apply Hn. by right.
Qed.

(** A chain is no longer than the store. *)
Lemma chain_size s m slots env scs : chain s m slots env scs → (length scs ≤ size s)%nat.
Proof.
  intros Hc. enough (∃ l : list N, NoDup l ∧ length l = length scs ∧ ∀ a, a ∈ l → a ≤ env ∧ is_Some (s !! a))
    as (l & Hnd & <- & Hl).
  { assert (list_to_set l ⊆ dom s) as Hsub.
    { intros a Ha%elem_of_list_to_set. apply elem_of_dom. by apply Hl. }
    apply subseteq_size in Hsub. by rewrite size_list_to_set, size_dom in Hsub. }
  induction Hc as [env vals names He Hf Hm|env parent vals names rest He Hp Hf Hm Hc (l & Hnd & Hlen & Hl)].
  - exists [env]. split_and!; [apply NoDup_singleton|done|]. intros a ->%list_elem_of_singleton.
    split; [done|]. by rewrite He.
  - exists (env :: l). split_and!; [|cbn; by rewrite Hlen|].
    + apply NoDup_cons. split; [|done]. intros Hin. apply Hl in Hin as [? _]. lia.
    + intros a [->|Ha]%elem_of_cons; [split; [done|]; by rewrite He|].
      destruct (Hl a Ha). split; [lia|done].
Qed.

Lemma chain_lookup s m slots env scs name scope fuel :
  chain s m slots env scs → scope ∈ scs → name ∈ scope → (length scs ≤ fuel)%nat →
  ∃ slot z, m !! name = Some slot ∧ slots !! N.to_nat slot = Some z ∧
    lookup_in fuel s env name = Some (V_Int z).
Proof.
  intros Hc. revert fuel. induction Hc as [env vals names He Hf Hm|env parent vals names rest He Hp Hf Hm Hc IH];
    intros fuel Hin Hname Hfuel; (destruct fuel as [|fuel]; [cbn in Hfuel; lia|]); cbn [lookup_in];
    rewrite He; cbn; specialize (Hm name).
  - apply list_elem_of_singleton in Hin as ->. destruct (vals !! name) as [b|]; [|done].
    destruct Hm as (_ & slot & z & ? & ? & -> & _). by exists slot, z.
  - destruct (vals !! name) as [b|].
    + destruct Hm as (_ & slot & z & ? & ? & -> & _). by exists slot, z.
    + apply elem_of_cons in Hin as [->|Hin]; [done|]. apply IH; [done..|]. cbn in Hfuel. lia.
Qed.
End chains.

(** ** States *)

Section simulation.
Context {W : Type} `{Foreign} `{!Host W}.
Context (st0 : Interp W) (code : list Instruction) (base : N) (n : N).
Context (Hinstructions : instruction_budget st0 = None) (Hmemory : memory_budget st0 = None).
Context (Hgoing : host_cancelled (world st0) = false).
Local Set Default Proof Using "All".

(** [st0] with the environment [e], the scopes [s] and the next address [r]. *)
Definition frame (e : N) (s : gmap N Scope) (r : N) : Interp W :=
  set_environment e (set_next_ref r (set_scopes s st0)).

Local Notation floor := (next_ref st0).
Local Notation chained := (chain code base floor).

(** The machine's scopes and the native slots hold the same variables. *)
Record related (e : N) (s : gmap N Scope) (r : N) (w : Walk) (slots : list Z) : Prop := {
  rel_chain : chained s (w_slots w) slots e (w_scopes w);
  rel_inv : walk_inv w;
  rel_env : e < r;
  rel_floor : floor ≤ r;
  rel_old a : a < floor → s !! a = scopes st0 !! a;
  rel_slots : Forall i64 slots;
  rel_length : len slots = n }.

Lemma charge_frame span e s r : charge span (frame e s r) = Done tt (frame e s r).
Proof. unfold charge, mbind, M_bind, get. cbn. by rewrite Hinstructions. Qed.

Lemma memory_frame v span e s r b :
  value_bytes (S MAXIMUM_VALUE_DEPTH) v = Some b → charge_memory v span (frame e s r) = Done tt (frame e s r).
Proof.
  intros Hb. unfold charge_memory, mbind, M_bind, get. rewrite Hb. cbn. by rewrite Hmemory.
Qed.

Lemma cancelled_frame e s r : check_cancelled (frame e s r) = Done tt (frame e s r).
Proof. unfold check_cancelled, mbind, M_bind, get. cbn. by rewrite Hgoing. Qed.

(** The end of an instruction that leaves an integer, a boolean or null on top. *)
Definition plain (v : Value) : Prop := match v with V_Int _ | V_Bool _ | V_Null => True | _ => False end.

Lemma plain_bytes v : plain v → value_bytes (S MAXIMUM_VALUE_DEPTH) v = Some 16.
Proof. by destruct v. Qed.

Lemma denotes_plain k v z : denotes k v z → plain v.
Proof. destruct k; cbn; [intros [-> _]|intros (b & -> & _)|intros [-> _]|intros [[-> _]|[-> _]]]; done. Qed.

Lemma next_frame op span pc vs e s r :
  match vs with v :: _ => plain v | [] => True end →
  next op span pc vs (frame e s r) = Done (Step_Next (pc + 1) vs) (frame e s r).
Proof.
  intros Hv. unfold next, mbind, M_bind. destruct (charges_memory op); [|done].
  destruct vs as [|v vs]; [done|]. by rewrite (memory_frame _ _ _ _ _ _ (plain_bytes _ Hv)).
Qed.

Lemma stack_plain ks vs zs : stack_denotes ks vs zs → match vs with v :: _ => plain v | [] => True end.
Proof. destruct 1; [done|]. by eapply denotes_plain. Qed.

(** ** Variables *)

Lemma load_frame e s r w slots name slot :
  related e s r w slots → w_slots w !! name = Some slot →
  ∃ z, slots !! N.to_nat slot = Some z ∧ lookup_name (frame e s r) name = Some (V_Int z).
Proof.
  intros Hr Hs. destruct (proj1 (inv_dom w (rel_inv _ _ _ _ _ Hr) name)) as (scope & Hsc & Hn); [by eexists|].
  destruct (chain_lookup _ _ _ _ _ _ _ _ name scope (S (size s)) (rel_chain _ _ _ _ _ Hr) Hsc Hn)
    as (slot' & z & Hs' & Hz & Hl); [pose proof (chain_size _ _ _ _ _ _ _ _ (rel_chain _ _ _ _ _ Hr)); lia|].
  simplify_eq. by exists z.
Qed.

(** Changing one slot leaves the scopes without its name alone. *)
Lemma others_keep w (slots : list Z) name slot z (scope : list string) name' slot' :
  walk_inv w → w_slots w !! name = Some slot → w_slots w !! name' = Some slot' →
  name' ∈ scope → name ∉ scope →
  w_slots w !! name' = Some slot' ∧ <[N.to_nat slot := z]> slots !! N.to_nat slot' = slots !! N.to_nat slot'.
Proof.
  intros Hw Hs Hs' Hin Hni. split; [done|]. apply list_lookup_insert_ne. intros E.
  assert (slot = slot') as <- by lia. assert (name = name') as <- by (by eapply (inv_inj w Hw)). done.
Qed.

(** No name is in two scopes. *)
Definition apart (scs : list (list string)) : Prop :=
  ∀ i j si sj name, scs !! i = Some si → scs !! j = Some sj → name ∈ si → name ∈ sj → i = j.

Lemma apart_cons names rest :
  apart (names :: rest) → apart rest ∧ ∀ scope name, scope ∈ rest → name ∈ names → name ∉ scope.
Proof.
  intros Ha. split.
  - intros i j si sj name Hi Hj Hin Hjn. specialize (Ha (S i) (S j) si sj name Hi Hj Hin Hjn). lia.
  - intros scope name [j Hj]%list_elem_of_lookup Hn Hs.
    by specialize (Ha 0%nat (S j) names scope name eq_refl Hj Hn Hs).
Qed.

(** The binding of a name in the scope that has it. *)
Lemma insert_binding_frame env name b vals parent e s r :
  s !! env = Some (mkScope vals parent) →
  insert_binding env name b (frame e s r) =
  Done (bool_decide (is_Some (vals !! name))) (frame e (<[env := mkScope (<[name := b]> vals) parent]> s) r).
Proof.
  intros He. unfold insert_binding, scope_at, mbind, M_bind, get, update. cbn. by rewrite He.
Qed.

Lemma scope_matches_store w slots vals names name slot z b :
  walk_inv w → w_slots w !! name = Some slot → slot < len slots → name ∈ names →
  (stored code name = true → b_mutable b = true) → b_value b = V_Int z →
  scope_matches code (w_slots w) slots vals names →
  scope_matches code (w_slots w) (<[N.to_nat slot := z]> slots) (<[name := b]> vals) names.
Proof.
  intros Hw Hs Hlt Hin Hmut Hval Hm name'. rewrite lookup_insert. case_decide as Hn.
  - subst name'. split; [done|]. exists slot, z. split_and!; [done| |done|done].
    apply list_lookup_insert_eq. unfold len in Hlt. lia.
  - specialize (Hm name'). destruct (vals !! name') as [b'|]; [|done].
    destruct Hm as (Hin' & slot' & z' & Hs' & Hz' & Hb'). split; [done|]. exists slot', z'.
    split; [done|]. split; [|done]. rewrite list_lookup_insert_ne; [done|]. intros E.
    apply Hn. eapply (inv_inj w Hw); [exact Hs|]. rewrite Hs'. f_equal. lia.
Qed.

Lemma assign_frame fuel env name v span e s r vals parent :
  s !! env = Some (mkScope vals parent) →
  assign (S fuel) env name v span (frame e s r) =
  match vals !! name with
  | Some b =>
      if b_mutable b
      then Done tt (frame e (<[env := mkScope (<[name := mkBinding v true]> vals) parent]> s) r)
      else Fail (error_at ("cannot assign to immutable binding '" +:+ name +:+ "'") span) (frame e s r)
  | None =>
      match parent with
      | Some parent => assign fuel parent name v span (frame e s r)
      | None => Fail (error_at ("undefined name '" +:+ name +:+ "'") span) (frame e s r)
      end
  end.
Proof.
  intros He. cbn [assign]. unfold scope_at, mbind, M_bind, get. cbn. rewrite He. cbn.
  destruct (vals !! name) as [b|]; [|by destruct parent]. destruct (b_mutable b); [|done].
  unfold insert_binding, scope_at, mbind, M_bind, get, update. cbn. by rewrite He.
Qed.

Lemma assign_chain w s slots scs env fuel name slot z span e r :
  walk_inv w → stored code name = true → w_slots w !! name = Some slot → slot < len slots →
  apart scs → (∃ scope, scope ∈ scs ∧ name ∈ scope) →
  chained s (w_slots w) slots env scs → (length scs ≤ fuel)%nat →
  ∃ s', assign fuel env name (V_Int z) span (frame e s r) = Done tt (frame e s' r) ∧
    (∀ a, env < a ∨ a < floor → s' !! a = s !! a) ∧
    chained s' (w_slots w) (<[N.to_nat slot := z]> slots) env scs.
Proof.
  intros Hw Hst Hslot Hlt Ha Hin Hc. revert fuel Ha Hin.
  induction Hc as [env vals names He Hf Hm|env parent vals names rest He Hp Hf Hm Hc IH];
    intros fuel Ha (scope & Hsc & Hn) Hfuel; (destruct fuel as [|fuel]; [cbn in Hfuel; lia|]);
    rewrite (assign_frame _ _ _ _ _ _ _ _ _ _ He); pose proof (Hm name) as Hname;
    (destruct (vals !! name) as [b|] eqn:Hb; [destruct Hname as (Hnames & ? & ? & _ & _ & _ & ->); [|done]|]).
  - eexists. split; [done|]. split; [intros a ?; rewrite lookup_insert_ne; [done|lia]|].
    eapply chain_last; [by rewrite lookup_insert_eq|done|]. by apply scope_matches_store.
  - apply list_elem_of_singleton in Hsc as ->. done.
  - eexists. split; [done|]. split; [intros a ?; rewrite lookup_insert_ne; [done|lia]|].
    eapply chain_more; [by rewrite lookup_insert_eq|done|done|by apply scope_matches_store|].
    eapply chain_change; [exact Hc|intros a ?; rewrite lookup_insert_ne; [done|lia]|].
    intros scope' name' slot' Hsc' Hn' Hs'. eapply others_keep; try done.
    apply apart_cons in Ha as [_ Ha]. by eapply Ha.
  - apply elem_of_cons in Hsc as [->|Hsc]; [done|].
    destruct (IH fuel) as (s' & Hass & Hsame & Hc').
    + by apply apart_cons in Ha as [? _].
    + by exists scope.
    + cbn in Hfuel. lia.
    + exists s'. split; [done|]. split; [intros a ?; apply Hsame; lia|].
      eapply chain_more; [rewrite Hsame; [exact He|lia]|done|done| |done].
      eapply scope_matches_change; [|exact Hm]. intros name' slot' Hn' Hs'.
      eapply others_keep; done.
Qed.

(** ** One instruction *)

(** The machine's instruction does what the native operation does. *)
Definition steps_agree (machine : outcome W BytecodeStep) (native : NStep) (ks : list Kind)
    (e : N) (s : gmap N Scope) (r : N) (w : Walk) : Prop :=
  match native with
  | NS_Next pc zs slots =>
      ∃ vs e' s' r', machine = Done (Step_Next pc vs) (frame e' s' r') ∧ stack_denotes ks vs zs ∧
        related e' s' r' w slots
  | NS_Return z => machine = Done (Step_Return (V_Int z)) (frame e s r)
  | NS_Fault c => ∃ error, machine = Fail error (frame e s r) ∧ err_message error = fault_message c
  | NS_Call _ _ | NS_Stuck => False
  end.

(** An operation that leaves the variables alone. *)
Lemma step_next op span pc vs zs ks e s r w slots :
  stack_denotes ks vs zs → related e s r w slots →
  steps_agree (next op span pc vs (frame e s r)) (NS_Next (pc + 1) zs slots) ks e s r w.
Proof.
  intros Hs Hr. exists vs, e, s, r. split; [|done]. apply next_frame. by eapply stack_plain.
Qed.

(** What the pass leaves unchanged stays related. *)
Lemma related_same e s r w w' slots :
  related e s r w slots → w_slots w' = w_slots w → w_scopes w' = w_scopes w → walk_inv w' →
  related e s r w' slots.
Proof. intros [] E1 E2 ?. split; try done. by rewrite E1, E2. Qed.

(** A new name does not touch the scopes it is not in. *)
Lemma scope_matches_keep w slots name z names vals :
  walk_inv w → names ∈ w_scopes w → w_slots w !! name = None →
  scope_matches code (w_slots w) slots vals names →
  scope_matches code (<[name := w_next_slot w]> (w_slots w))
    (<[N.to_nat (w_next_slot w) := z]> slots) vals names.
Proof.
  intros Hw Hin Hnone. apply scope_matches_change. intros name' slot' Hn' Hs'.
  split; [rewrite lookup_insert_ne; [done|]; congruence|].
  apply list_lookup_insert_ne. apply (inv_fresh w Hw) in Hs'. lia.
Qed.

Lemma scope_matches_new w slots name z names vals mutable :
  walk_inv w → names ∈ w_scopes w → w_slots w !! name = None → w_next_slot w < len slots →
  (stored code name = true → mutable = true) →
  scope_matches code (w_slots w) slots vals names →
  vals !! name = None ∧
  scope_matches code (<[name := w_next_slot w]> (w_slots w)) (<[N.to_nat (w_next_slot w) := z]> slots)
    (<[name := mkBinding (V_Int z) mutable]> vals) (name :: names).
Proof.
  intros Hw Hin Hnone Hlt Hmut Hm. split.
  - specialize (Hm name). destruct (vals !! name); [|done]. destruct Hm as (_ & slot & x & Hs & _). congruence.
  - intros name'. rewrite lookup_insert. case_decide as Heq.
    + subst name'. split; [by left|]. exists (w_next_slot w), z. rewrite lookup_insert_eq.
      split_and!; [done| |done|done]. apply list_lookup_insert_eq. unfold len in Hlt. lia.
    + pose proof (scope_matches_keep w slots name z names vals Hw Hin Hnone Hm name') as Hk.
      destruct (vals !! name') as [b|]; [destruct Hk as [Hin' Hrest]; split; [by right|done]|].
      rewrite not_elem_of_cons. split; [congruence|done].
Qed.

Lemma related_define e s r w slots name mutable z scope outer p q :
  related e s r w slots → w_slots w !! name = None → w_scopes w = scope :: outer →
  w_next_slot w < n → i64 z → (stored code name = true → mutable = true) →
  ∃ vals parent, s !! e = Some (mkScope vals parent) ∧ vals !! name = None ∧
    related e (<[e := mkScope (<[name := mkBinding (V_Int z) mutable]> vals) parent]> s) r
      (mkWalk (<[name := w_next_slot w]> (w_slots w)) (w_next_slot w + 1) ((name :: scope) :: outer) p q)
      (<[N.to_nat (w_next_slot w) := z]> slots).
Proof.
  intros [Hc Hw He Hf Ho Hsl Hlen] Hnone Hsc Hn Hz Hmut.
  assert (walk_inv (mkWalk (<[name := w_next_slot w]> (w_slots w)) (w_next_slot w + 1)
    ((name :: scope) :: outer) p q)) as Hw' by (by apply walk_inv_define).
  assert (scope ∈ w_scopes w) as Hscin by (rewrite Hsc; by left).
  assert (∃ vals parent, s !! e = Some (mkScope vals parent) ∧ vals !! name = None ∧ floor ≤ e ∧
    chained (<[e := mkScope (<[name := mkBinding (V_Int z) mutable]> vals) parent]> s)
      (<[name := w_next_slot w]> (w_slots w)) (<[N.to_nat (w_next_slot w) := z]> slots)
      e ((name :: scope) :: outer)) as (vals & parent & Hse & Hvn & Hfe & Hc').
  { rewrite Hsc in Hc. inversion_clear Hc as [? vals ? Hse Hfe Hm|? parent vals ? ? Hse Hp Hfe Hm Hrest].
    - destruct (scope_matches_new w slots name z scope vals mutable) as [Hvn Hm']; [done..|lia|done|done|].
      exists vals, (Some base). split_and!; [done..|].
      eapply chain_last; [by rewrite lookup_insert_eq|done|done].
    - destruct (scope_matches_new w slots name z scope vals mutable) as [Hvn Hm']; [done..|lia|done|done|].
      exists vals, (Some parent). split_and!; [done..|].
      eapply chain_more; [by rewrite lookup_insert_eq|done|done|done|].
      eapply chain_change; [exact Hrest|intros a Ha; rewrite lookup_insert_ne; [done|lia]|].
      intros sc name' slot' _ _ Hs'. split; [rewrite lookup_insert_ne; [done|]; congruence|].
      apply list_lookup_insert_ne. apply (inv_fresh w Hw) in Hs'. lia. }
  exists vals, parent. split; [done|]. split; [done|]. split; try done.
  - intros a Ha. rewrite lookup_insert_ne by lia. by apply Ho.
  - by apply Forall_insert.
  - unfold len in *. by rewrite length_insert.
Qed.

Lemma related_store e s r w slots name slot z span fuel :
  related e s r w slots → stored code name = true → w_slots w !! name = Some slot → slot < n → i64 z →
  (size s < fuel)%nat →
  ∃ s', assign fuel e name (V_Int z) span (frame e s r) = Done tt (frame e s' r) ∧
    related e s' r w (<[N.to_nat slot := z]> slots).
Proof.
  intros [Hc Hw He Hf Ho Hsl Hlen] Hst Hs Hn Hz Hfuel.
  destruct (assign_chain w s slots (w_scopes w) e fuel name slot z span e r) as (s' & Ha & Hsame & Hc');
    try done; [lia|exact (inv_apart w Hw)|by apply (inv_dom w Hw)| |].
  - pose proof (chain_size _ _ _ _ _ _ _ _ Hc). lia.
  - exists s'. split; [done|]. split; try done.
    + intros a Hlt. rewrite Hsame by auto. by apply Ho.
    + by apply Forall_insert.
    + unfold len in *. by rewrite length_insert.
Qed.

Lemma related_enter e s r w slots p q :
  related e s r w slots →
  related r (<[r := mkScope ∅ (Some e)]> s) (r + 1)
    (mkWalk (w_slots w) (w_next_slot w) ([] :: w_scopes w) p q) slots.
Proof.
  intros [Hc Hw He Hf Ho Hsl Hlen]. split; cbn; try done; [|by apply walk_inv_enter|lia|lia|].
  - eapply chain_more; [by rewrite lookup_insert_eq|done|lia| |].
    + intros name. rewrite lookup_empty. apply not_elem_of_nil.
    + eapply chain_change; [done|intros a Ha; rewrite lookup_insert_ne; [done|lia]|done].
  - intros a Ha. rewrite lookup_insert_ne by lia. by apply Ho.
Qed.

Lemma related_exit e s r w slots ended scope outer p q :
  related e s r w slots → w_scopes w = ended :: scope :: outer →
  ∃ vals parent, s !! e = Some (mkScope vals (Some parent)) ∧
    related parent s r (mkWalk (remove_all ended (w_slots w)) (w_next_slot w) (scope :: outer) p q) slots.
Proof.
  intros [Hc Hw He Hf Ho Hsl Hlen] Hsc. rewrite Hsc in Hc.
  inversion_clear Hc as [|? parent vals ? ? Hse Hp Hfe Hm Hrest].
  exists vals, parent. split; [done|]. split; cbn; try done; [|by eapply walk_inv_exit|lia].
  eapply chain_change; [exact Hrest|done|]. intros sc name slot Hin Hn Hs. split; [|done].
  apply remove_all_Some. split; [done|]. intros Hend.
  apply list_elem_of_lookup in Hin as [j Hj].
  assert (w_scopes w !! S j = Some sc) as Hj' by (by rewrite Hsc).
  assert (w_scopes w !! 0%nat = Some ended) as H0 by (by rewrite Hsc).
  by specialize (inv_apart w Hw 0%nat (S j) ended sc name H0 Hj' Hend Hn).
Qed.

(** The operations that work on the stack alone. *)
Lemma stack_step_agrees exec fuel op o w w' ks ks' vs zs slots e s r span pc root :
  match op with
  | Op_Constant _ | Op_Pop | Op_Unary _ | Op_Binary _ | Op_Jump _ | Op_JumpIfFalse _ | Op_Return => True
  | _ => False
  end →
  related e s r w slots → integer_operation op w = Some (o, w') → kind_step o root ks = Some ks' →
  stack_denotes ks vs zs → operation_fits n o →
  steps_agree (step_op exec fuel op span vs pc (frame e s r)) (native_step o pc zs slots) ks' e s r w'.
Proof.
  intros Hop Hr Hint Hk Hs Hfit. assert (walk_inv w') as Hw' by (eapply integer_operation_inv; [done|apply Hr]).
  destruct op; try done; cbn [integer_operation] in Hint; cbn [step_op].
  - destruct literal as [z| | | |]; simplify_eq; cbn in Hk; simplify_eq; apply step_next; try done; by constructor.
  - simplify_eq. destruct ks; simplify_eq/=. apply stack_cons in Hs as (? & ? & vs' & zs' & -> & -> & _ & Hs). by apply step_next.
  - destruct operator; cbn [unary_operation mbind option_bind] in Hint; simplify_eq;
      (destruct ks as [|[] ks]; cbn [kind_step] in Hk; simplify_eq).
    + apply stack_cons in Hs as (v & z & vs' & zs' & -> & -> & [-> Hz] & Hs').
      unfold mbind, M_bind. cbn [pop mret M_ret].
      pose proof (negate_agrees z span pc zs' slots Hz) as Hn.
      destruct (negate (V_Int z) span) as [v|er].
      * destruct Hn as (x & -> & Hx). cbn [lift mret M_ret]. apply step_next; [by constructor|done].
      * destruct Hn as (c & -> & Hc). by exists er.
    + apply stack_cons in Hs as (v & z & vs' & zs' & -> & -> & (b & -> & ->) & Hs').
      apply (step_next (Op_Unary Tk_Bang) span pc (V_Bool (negb b) :: vs')); [|done].
      constructor; [|done]. exists (negb b). by destruct b.
  - destruct (binary_operation operator) as [o'|] eqn:Ho; cbn [mbind option_bind] in Hint; simplify_eq.
    assert (∃ ks0, ks = K_Int :: K_Int :: ks0) as [ks0 ->].
    { clear -Ho Hk. destruct operator; cbn in Ho; simplify_eq; destruct ks as [|[] [|[] ks]]; simplify_eq/=; eauto. }
    apply stack_cons in Hs as (v2 & z2 & vs1 & zs1 & -> & -> & [-> Hz2] & Hs1).
    apply stack_cons in Hs1 as (v1 & z1 & vs2 & zs2 & -> & -> & [-> Hz1] & Hs2).
    pose proof (binary_agrees operator o z1 z2 span pc ks0 zs2 slots root Ho Hz1 Hz2) as Hb.
    unfold mbind, M_bind. cbn [pop mret M_ret].
    destruct (vm_int_binary z1 operator z2 span) as [[v|er]|]; [| |done].
    + destruct Hb as (z & k & -> & Hk' & Hz). rewrite Hk in Hk'. simplify_eq.
      cbn [lift_r unwrap lift mbind M_bind mret M_ret]. apply step_next; [by constructor|done].
    + destruct Hb as (c & -> & Hc). by exists er.
  - destruct (u32_of target) as [t|] eqn:Ht; simplify_eq/=. apply u32_of_Some in Ht as ->.
    by exists vs, e, s, r.
  - destruct (u32_of target) as [t|] eqn:Ht; simplify_eq/=. apply u32_of_Some in Ht as ->.
    destruct ks as [|[] ks]; simplify_eq/=. pose proof Hs as Hall.
    apply stack_cons in Hs as (v & z & vs' & zs' & -> & -> & (b & -> & ->) & Hs').
    destruct b; [by apply step_next|]. by eexists _, e, s, r.
  - simplify_eq. destruct ks as [|[] ks]; try done. apply stack_cons in Hs as (v & z & vs' & zs' & -> & -> & [-> Hz] & Hs').
    by cbn.
Qed.

(** What the discipline of the stores says of one instruction. *)
Definition stores_well (op : Op) : Prop :=
  match op with
  | Op_Store name => stored code name = true
  | Op_Define name mutable => stored code name = true → mutable = true
  | _ => True
  end.

(** The operations that work on the variables. *)
Lemma scope_step_agrees exec fuel op o w w' ks ks' vs zs slots e s r span pc root :
  match op with
  | Op_Load _ | Op_Define _ _ | Op_Store _ | Op_EnterScope | Op_ExitScope => True
  | _ => False
  end →
  stores_well op → related e s r w slots → integer_operation op w = Some (o, w') →
  kind_step o root ks = Some ks' → stack_denotes ks vs zs → operation_fits n o →
  steps_agree (step_op exec fuel op span vs pc (frame e s r)) (native_step o pc zs slots) ks' e s r w'.
Proof.
  intros Hop Hst Hr Hint Hk Hs Hfit.
  destruct op; try done; cbn [integer_operation] in Hint; unfold step_op, mbind, M_bind, get.
  - destruct (w_slots w !! name) as [slot|] eqn:Hslot; [|done]. injection Hint as <- <-.
    destruct (load_frame _ _ _ _ _ _ _ Hr Hslot) as (z & Hz & ->). cbn [native_step]. rewrite Hz. cbn [ok_or lift mret M_ret].
    cbn in Hk. simplify_eq. apply step_next; [|done]. constructor; [|done]. split; [done|].
    eapply Forall_lookup_1; [apply Hr|done].
  - destruct (w_slots w !! name) as [slot|] eqn:Hslot; [|done]. injection Hint as <- <-.
    destruct ks as [|[] ks]; cbn in Hk; simplify_eq. pose proof Hs as Hall.
    apply stack_cons in Hs as (v & z & vs' & zs' & -> & -> & [-> Hz] & Hs').
    cbn [native_step]. rewrite (proj2 (N.ltb_lt _ _)) by (by rewrite (rel_length _ _ _ _ _ Hr)).
    destruct (related_store e s r w slots name slot z span (S (size s))) as (s' & Ha & Hr'); [done..|lia|].
    cbn -[assign next frame size]. change (scopes (frame e s r)) with s. change (environment (frame e s r)) with e.
    rewrite Ha. rewrite next_frame by done. by eexists _, e, s', r.
  - case_bool_decide as Hn; [done|]. apply eq_None_not_Some in Hn. unfold checked_add_u32 in Hint.
    destruct (u32_of _) as [next'|] eqn:Hnext; [|done]. apply u32_of_Some in Hnext as ->. cbn in Hint.
    destruct (w_scopes w) as [|scope outer] eqn:Hsc; [done|]. injection Hint as <- <-.
    destruct ks as [|[] ks]; cbn in Hk; simplify_eq. pose proof Hs as Hall.
    apply stack_cons in Hs as (v & z & vs' & zs' & -> & -> & [-> Hz] & Hs').
    cbn [native_step]. rewrite (proj2 (N.ltb_lt _ _)) by (by rewrite (rel_length _ _ _ _ _ Hr)).
    destruct (related_define e s r w slots name mutable z scope outer
      (if bool_decide (outer = []) then w_persistent w ++ [(name, w_next_slot w, mutable)] else w_persistent w)
      (w_returned w) Hr Hn Hsc) as (vals & parent & He & Hv & Hr'); [done..|].
    cbn -[insert_binding next frame]. change (environment (frame e s r)) with e.
    rewrite (insert_binding_frame _ _ _ _ _ _ _ _ He).
    rewrite Hv, bool_decide_false by (intros []; done). rewrite next_frame by done. by eexists _, e, _, r.
  - injection Hint as <- <-. cbn in Hk. simplify_eq. match goal with |- steps_agree ?m _ _ _ _ _ _ =>
      change m with (next Op_EnterScope span pc vs (frame r (<[r := mkScope ∅ (Some e)]> s) (r + 1))) end.
    rewrite (next_frame Op_EnterScope span pc vs r (<[r := mkScope ∅ (Some e)]> s) (r + 1)) by (by eapply stack_plain).
    eexists _, _, _, _. split; [done|]. split; [done|]. by apply related_enter.
  - destruct (w_scopes w) as [|ended [|scope outer]] eqn:Hsc; try done. injection Hint as <- <-. cbn in Hk. simplify_eq.
    destruct (related_exit e s r w slots ended scope outer (w_persistent w) (w_returned w) Hr Hsc)
      as (vals & parent & He & Hr').
    unfold scope_at, update, mbind, M_bind, get. cbn -[next frame steps_agree].
    change (scopes (frame e s r) !! environment (frame e s r)) with (s !! e). rewrite He.
    match goal with |- steps_agree ?m _ _ _ _ _ _ =>
      change m with (next Op_ExitScope span pc vs (frame parent s r)) end.
    rewrite (next_frame Op_ExitScope span pc vs parent s r) by (by eapply stack_plain).
    by eexists _, _, _, _.
Qed.

(** One instruction of planned code. *)
Lemma step_agrees exec fuel op o w w' ks ks' vs zs slots e s r span pc root :
  stores_well op → related e s r w slots → integer_operation op w = Some (o, w') →
  kind_step o root ks = Some ks' → stack_denotes ks vs zs → operation_fits n o →
  steps_agree (step_op exec fuel op span vs pc (frame e s r)) (native_step o pc zs slots) ks' e s r w'.
Proof.
  intros Hst Hr Hint Hk Hs Hfit.
  destruct op; try done; first [by eapply scope_step_agrees|by eapply stack_step_agrees].
Qed.

(** ** Runs *)

Lemma operation_targets op w o w' pc :
  integer_operation op w = Some (o, w') → int_targets o pc = jump_targets op pc.
Proof.
  intros Hint. destruct op; cbn [integer_operation] in Hint; try done;
    try match type of Hint with
    | (?m ≫= _) = _ => destruct m as [x|] eqn:Hx; cbn in Hint; [|done]; try apply u32_of_Some in Hx as ->
    end; simplify_eq; try done; repeat case_match; simplify_eq/=; try done;
    try (destruct operator; by simplify_eq/=).
  all: destruct (checked_add_u32 _ _); by simplify_eq/=.
Qed.

(** What the machine leaves of the scopes it found. *)
Definition kept (s : gmap N Scope) (r : N) : Prop :=
  floor ≤ r ∧ ∀ a, a < floor → s !! a = scopes st0 !! a.

(** How a run ends in the machine and in native code. *)
Definition runs_agree (machine : outcome W VmFlow) (native : NResult) : Prop :=
  match native with
  | NDone z _ => ∃ e s r, machine = Done (Flow_Return (V_Int z)) (frame e s r) ∧ kept s r
  | NFault c => ∃ error e s r, machine = Fail error (frame e s r) ∧ err_message error = fault_message c ∧ kept s r
  | NTimeout => machine = OutOfFuel
  | NStuck => False
  end.

Context (reachable : list bool) (first last : Walk) (operations : list IntOp).
Context (Hreach : reachable_instructions code = Some reachable) (Hfirst : walk_inv first).
Context (Hwalk : integer_walk code reachable first = Some (operations, last)).
Context (Hfit : Forall (operation_fits n) operations).
Context (Hjumps : forallb (jumps_agree code reachable (walks code reachable first)) (seq 0 (length code)) = true).
Context (Hstores : Forall (λ i, stores_well (instr_op i)) code).
Context (K : list (option (list Kind))) (HK : kinded operations false K).

(** The states the two meet in. *)
Definition meeting (e : N) (s : gmap N Scope) (r pc : N) (vs : list Value) (zs slots : list Z) : Prop :=
  ∃ w ks, reachable !! N.to_nat pc = Some true ∧ walks code reachable first !! N.to_nat pc = Some w ∧
    K !! N.to_nat pc = Some (Some ks) ∧ stack_denotes ks vs zs ∧ related e s r w slots.

Lemma stack_has_kinds ks vs zs : stack_denotes ks vs zs → Forall2 has_kind ks zs.
Proof.
  induction 1 as [|k ks v vs z zs Hd _ IH]; [done|]. constructor; [|done].
  destruct k; cbn in *; [tauto|destruct Hd as ([] & _ & ->); auto|tauto|].
  destruct Hd as [[_ ?]|[_ ->]]; [done|]. by apply i64_small.
Qed.

(** What is known at a meeting point. *)
Lemma meeting_instruction e s r pc vs zs slots :
  meeting e s r pc vs zs slots →
  ∃ op span o w w' ks ks', code !! N.to_nat pc = Some (mkInstruction op span) ∧
    operations !! N.to_nat pc = Some o ∧ integer_operation op w = Some (o, w') ∧
    kind_step o false ks = Some ks' ∧ stack_denotes ks vs zs ∧ related e s r w slots ∧
    operation_fits n o ∧ stores_well op ∧
    (∀ t vs' zs' e' s' r' slots', t ∈ int_targets o pc → stack_denotes ks' vs' zs' →
       related e' s' r' w' slots' → meeting e' s' r' t vs' zs' slots').
Proof.
  intros (w & ks & Hlive & Hw & Hks & Hs & Hr).
  destruct (reachable_marks code) as (marks & Hm & Hlen & _ & _ & Hclosed).
  rewrite Hreach in Hm. simplify_eq. destruct HK as (HlenK & _ & Hset).
  destruct (walks_spec _ _ _ _ _ Hwalk Hlen) as (Hlo & Hlw & Hat).
  destruct (lookup_lt_is_Some_2 code (N.to_nat pc)) as [[op span] Hop].
  { apply lookup_lt_Some in Hlive. lia. }
  destruct (Hat _ _ _ Hop Hlive) as (wi & o & w' & Hwi & Ho & Hnext & _).
  assert (wi = w) as -> by congruence.
  cbn [walk_next instr_op] in Hnext. destruct (Hset _ _ _ Hks Ho) as (ks' & Hk & Ht).
  exists op, span, o, w, w', ks, ks'. split_and!; try done.
  - by eapply Forall_lookup_1.
  - by apply (Forall_lookup_1 _ _ _ _ Hstores Hop).
  - intros t vs' zs' e' s' r' slots' Hin Hs' Hr'.
    destruct (Ht t Hin) as [[]%not_elem_of_nil|(ku & Hku & Hle)].
    assert (t < len code) as Hlt by (apply lookup_lt_Some in Hku; unfold len; lia).
    rewrite (operation_targets _ _ _ _ _ Hnext) in Hin.
    destruct (lookup_lt_is_Some_2 (walks code reachable first) (N.to_nat t)) as [wt Hwt];
      [unfold len in Hlt; lia|].
    exists wt, ku. split_and!; [by eapply (Hclosed pc)|done|done|by eapply stack_denotes_le|].
    pose proof (proj1 (forallb_forall _ _) Hjumps (N.to_nat pc)) as Hj.
    unfold jumps_agree in Hj. rewrite Hop, Hlive, Hw in Hj. cbn [instr_op] in Hj. rewrite Hnext, N2Nat.id in Hj.
    assert (In (N.to_nat pc) (seq 0 (length code))) as Hseq
      by (apply in_seq; apply lookup_lt_Some in Hop; lia).
    specialize (Hj Hseq). rewrite forallb_forall in Hj. specialize (Hj t (proj1 (list_elem_of_In _ _) Hin)).
    rewrite Hwt in Hj. apply bool_decide_eq_true in Hj as [E1 E2].
    eapply related_same; [done..|by eapply walks_inv].
Qed.

Lemma related_kept e s r w slots : related e s r w slots → kept s r.
Proof. by intros []. Qed.

Lemma step_charged exec fuel vs pc e s r op span :
  code !! N.to_nat pc = Some (mkInstruction op span) →
  step exec fuel code vs pc (frame e s r) = step_op exec fuel op span vs pc (frame e s r).
Proof.
  intros Hop. unfold step. change (list Instruction) with Code in Hop. rewrite Hop.
  unfold mbind, M_bind. by rewrite cancelled_frame, charge_frame.
Qed.

Lemma run_agrees exec functions limit depth fuel e s r pc vs zs slots :
  meeting e s r pc vs zs slots →
  runs_agree (run exec fuel code vs pc (frame e s r))
    (native_run fuel functions limit depth operations pc zs slots).
Proof.
  revert e s r pc vs zs slots. induction fuel as [|fuel IH]; intros e s r pc vs zs slots Hmeet;
    destruct (meeting_instruction _ _ _ _ _ _ _ Hmeet)
      as (op & span & o & w & w' & ks & ks' & Hop & Ho & Hint & Hk & Hs & Hr & Hf & Hst & Hgo);
    cbn [run native_run];
    (rewrite (proj2 (N.ltb_lt _ _)); [|apply lookup_lt_Some in Hop; unfold len; lia]); [done|].
  rewrite Ho. unfold mbind, M_bind. rewrite (step_charged _ _ _ _ _ _ _ _ _ Hop).
  pose proof (step_agrees exec fuel op o w w' ks ks' vs zs slots e s r span pc false Hst Hr Hint Hk Hs Hf) as Ha.
  pose proof (native_step_sound o false pc ks ks' zs slots n Hf (rel_length _ _ _ _ _ Hr)
    (rel_slots _ _ _ _ _ Hr) (stack_has_kinds _ _ _ Hs) Hk) as Hsound.
  destruct (native_step o pc zs slots) as [pc' zs' slots'|z|c|?|]; cbn [steps_agree] in Ha; try done.
  - destruct Ha as (vs' & e' & s' & r' & -> & Hs' & Hr'). apply IH. eapply Hgo; [|done..]. apply Hsound.
  - rewrite Ha. exists e, s, r. split; [done|]. by eapply related_kept.
  - destruct Ha as (error & -> & Hm). exists error, e, s, r. split_and!; [done|done|]. by eapply related_kept.
Qed.
End simulation.
