(* ===== verification/NativeTier.v ===== *)
(** * Native code for hot functions

    The part of src/src/runtime.rs that calls a function natively: [try_jit]
    counts the calls of a function, plans and compiles its body once the count
    reaches the threshold, and runs the compiled code on arguments that are all
    integers; [call_function] asks it first and falls back to the machine.  The
    main theorem is that asking it makes no difference, for bodies whose names
    are used with discipline ([NativeWalk.disciplined]).

    The counters that [jit_stats] reports are left out; the atomic cells of
    [JitState] are plain fields. *)
From S2P Require Import Prelude Ast Values Bytecode Verifier Gate Vm Tree Engine IntCode Native NativeOk NativeRun NativeWalk NativeSim VmOk.
Open Scope list_scope.

(** ** The tier *)

(** [CompiledFunction] *)
Record CompiledFunction := mkCompiled {
  cf_parameters : N; cf_slots : N; cf_operations : list IntOp }.

(** [JitState] *)
Record JitState := mkJit {
  jit_disabled : bool; jit_calls : N; jit_compiled : option CompiledFunction }.

(** [JitState::default] *)
Definition JitState_default : JitState := mkJit false 0 None.

(** [CompiledFunction::compile] *)
Definition compile_function (parameters slots : N) (operations : list IntOp) : option CompiledFunction :=
  match compile_with parameters slots operations with
  | Some (Ok _) => Some (mkCompiled parameters slots operations)
  | _ => None
  end.

(** The part of [try_jit] up to the call: the new state, and the code to run. *)
Definition jit_prepare (threshold : N) (jit : JitState) (params : list string) (body : Chunk)
    : JitState * option CompiledFunction :=
  if jit_disabled jit then (jit, None)
  else
    let calls := N.min (jit_calls jit + 1) u32_max in
    match jit_compiled jit with
    | Some compiled => (mkJit false calls (Some compiled), Some compiled)
    | None =>
        if threshold <=? calls then
          let compiled :=
            '(slots, operations) ← integer_native_plan params body;
            compile_function (len params) slots operations in
          (mkJit (bool_decide (compiled = None)) calls compiled, compiled)
        else (mkJit false calls None, None)
    end.

(** The arguments, when all of them are integers. *)
Fixpoint integer_arguments (arguments : list Value) : option (list Z) :=
  match arguments with
  | [] => Some []
  | V_Int z :: arguments => zs ← integer_arguments arguments; Some (z :: zs)
  | _ => None
  end.

Section tier.
Context {W : Type} `{Foreign} `{!Host W}.
Context (exec : FunctionBody → M W VmFlow).

(** [CallError] as the runtime reports it. *)
Definition call_error (st : Interp W) (error : CallError) (span : Span) : NivError :=
  match error with
  | Overflow => error_at "integer overflow" span
  | DivisionByZero => error_at "division by zero" span
  | RemainderByZero => error_at "remainder by zero" span
  | CallDepth => error_at ("call depth limit of " +:+ pretty (max_call_depth st) +:+ " exceeded") span
  end.

(** [CompiledFunction::call] and the [match] on its result: the code of a
    function calls no other, so the table of functions is empty. *)
Definition call_compiled (fuel : nat) (compiled : CompiledFunction) (arguments : list Z) (span : Span)
    : M W (option Value) :=
  if negb (len arguments =? cf_parameters compiled) then mret None
  else
    match native_run fuel [] 0 0 (cf_operations compiled) 0 [] (entry_slots (cf_slots compiled) arguments) with
    | NDone z _ => mret (Some (V_Int z))
    | NFault code => st ← get; throw (call_error st (fault_error code) span)
    | NStuck => panic
    | NTimeout => out_of_fuel
    end.

(** [try_jit] *)
Definition try_jit (threshold : N) (fuel : nat) (jit : JitState) (f : Function) (body : Chunk)
    (arguments : list Value) (span : Span) : JitState * M W (option Value) :=
  let '(jit, compiled) := jit_prepare threshold jit (f_params f) body in
  (jit,
   match compiled with
   | None => mret None
   | Some compiled =>
       match integer_arguments arguments with
       | None => mret None
       | Some integers => call_compiled fuel compiled integers span
       end
   end).

(** [call_function] from the point where the call is counted. *)
Definition call_on_machine (f : Function) (arguments : list Value) (span : Span) : M W Value :=
  with_trace
    (finally
       (env ← child_scope (f_closure f) (immutable (zip (f_params f) arguments));
        flow ← in_environment env (exec (f_body f));
        function_result (f_body f) flow span)
       (λ st, set_call_depth (call_depth st - 1) st))
    (f_name f) span.

(** [call_function] with the tier. *)
Definition call_function_jit (threshold : N) (fuel : nat) (jit : JitState) (ref : N)
    (arguments : list Value) (span : Span) : M W Value :=
  st ← get;
  match functions st !! ref with
  | None => dangling
  | Some f =>
      _ ← lift (check_arity (f_name f) (len (f_params f)) (len arguments) span);
      if max_call_depth st <=? call_depth st then
        throw (error_at ("call depth limit of " +:+ pretty (max_call_depth st)
                           +:+ " exceeded") span)
      else
        _ ← update (set_call_depth (call_depth st + 1));
        match f_body f with
        | Body_Bytecode body => λ st,
            match snd (try_jit threshold fuel jit f body arguments span) st with
            | Done (Some value) st => Done value (set_call_depth (call_depth st - 1) st)
            | Done None st => call_on_machine f arguments span st
            | Fail e st =>
                Fail (with_frame e (f_name f) (span_line span) (span_column span))
                  (set_call_depth (call_depth st - 1) st)
            | Panic => Panic
            | Dangling => Dangling
            | OutOfFuel => OutOfFuel
            end
        | Body_Tree _ => call_on_machine f arguments span
        end
  end.
End tier.

(** ** The arguments *)

(** The bindings of a call and the slots of the plan hold the same integers. *)
Definition bound_alike (slots : list Z) (m : gmap string N) (vals : gmap string Binding) : Prop :=
  ∀ name, match vals !! name with
          | Some b => ∃ slot z, m !! name = Some slot ∧ slots !! N.to_nat slot = Some z ∧
              b = mkBinding (V_Int z) false
          | None => m !! name = None
          end.

Lemma parameters_bound slots index params args m m' vals :
  parameter_slots index params m = Some m' → length args = length params →
  (∀ i z, args !! i = Some z → slots !! (N.to_nat index + i)%nat = Some z) →
  bound_alike slots m vals →
  bound_alike slots m'
    (foldl (λ vals '(name, b), <[name := b]> vals) vals (immutable (zip params (V_Int <$> args)))).
Proof.
  revert index args m vals. induction params as [|p params IH]; intros index [|z args] m vals Hp Hlen Hs Hb;
    simplify_eq/=; [done|].
  destruct (u32_of index) as [slot|] eqn:Hu; [|done]. apply u32_of_Some in Hu as ->. cbn in Hp.
  eapply IH; [exact Hp|done| |].
  - intros i z' Hi. rewrite <- (Hs (S i) z') by done. f_equal. lia.
  - intros name. rewrite !lookup_insert. case_decide; [|apply Hb]. eexists _, z. split; [done|]. split; [|done].
    rewrite <- (Hs 0%nat z) by done. f_equal. lia.
Qed.

Lemma entry_slots_args n args i z : args !! i = Some z → entry_slots n args !! i = Some z.
Proof. intros Hi. unfold entry_slots. by apply lookup_app_l_Some. Qed.

(** The scope of a call, as the plan sees it. *)
Lemma entry_matches code n params args w :
  first_walk params = Some w → length args = length params →
  forallb (λ p, negb (stored code p)) params = true →
  w_scopes w = [rev params] ∧
  scope_matches code (w_slots w) (entry_slots n args)
    (foldl (λ vals '(name, b), <[name := b]> vals) ∅ (immutable (zip params (V_Int <$> args)))) (rev params).
Proof.
  intros Hw Hlen Hst. pose proof (first_walk_inv _ _ Hw) as Hinv. unfold first_walk in Hw.
  destruct (parameter_slots 0 params ∅) as [m|] eqn:Hm; [|done]. cbn in Hw.
  destruct (u32_of (len params)) as [k|]; [|done]. cbn in Hw. simplify_eq. split; [done|].
  pose proof (parameters_bound (entry_slots n args) 0 params args ∅ m ∅ Hm Hlen
    (λ i z, entry_slots_args n args i z)) as Hb.
  intros name. specialize (Hb ltac:(intros ?; by rewrite !lookup_empty) name).
  pose proof (inv_dom _ Hinv name) as Hdom. cbn in Hdom.
  assert (is_Some (m !! name) ↔ name ∈ rev params) as Hin by (rewrite Hdom; set_solver).
  destruct (_ !! name) as [b|].
  - destruct Hb as (slot & z & Hs & Hz & ->). split; [apply Hin; by eexists|]. exists slot, z.
    split_and!; [done..|]. intros Hstored. exfalso.
    rewrite forallb_forall in Hst. specialize (Hst name). rewrite Hstored in Hst.
    discriminate Hst. apply (in_rev params), list_elem_of_In, Hin. by eexists.
  - rewrite <- Hin, Hb. by intros [].
Qed.

Lemma integer_arguments_Some arguments zs :
  integer_arguments arguments = Some zs → arguments = V_Int <$> zs.
Proof.
  revert zs. induction arguments as [|v arguments IH]; intros zs Hz; simplify_eq/=; [done|].
  destruct v; try done. destruct (integer_arguments arguments) as [l|]; [|done]. simplify_eq/=. by rewrite <- IH.
Qed.

(** ** A call *)

Section calls.
Context {W : Type} `{Foreign} `{!Host W}.
Local Set Default Proof Using "All".

(** The scopes a call starts with. *)
Definition entry_scopes (st : Interp W) (closure : N) (bindings : list (string * Binding)) : gmap N Scope :=
  <[next_ref st := mkScope (foldl (λ vals '(name, b), <[name := b]> vals) ∅ bindings) (Some closure)]> (scopes st).

Lemma disciplined_spec params code :
  disciplined params code = true →
  ∃ w reachable, first_walk params = Some w ∧ reachable_instructions code = Some reachable ∧
    forallb (jumps_agree code reachable (walks code reachable w)) (seq 0 (length code)) = true ∧
    forallb (λ p, negb (stored code p)) params = true ∧ Forall (λ i, stores_well code (instr_op i)) code.
Proof.
  unfold disciplined. destruct (first_walk params) as [w|]; [|done].
  destruct (reachable_instructions code) as [reachable|]; [|done].
  intros [Hj [Hp Hm]%andb_true_iff]%andb_true_iff. exists w, reachable. split_and!; [done..|].
  apply Forall_forall. intros i Hi. destruct (instr_op i) eqn:Hop; try done; cbn.
  - apply existsb_exists. exists i. split; [by apply list_elem_of_In|]. rewrite Hop. by apply bool_decide_eq_true.
  - intros Hst. rewrite forallb_forall in Hm. specialize (Hm i (proj1 (list_elem_of_In _ _) Hi)).
    rewrite Hop, Hst in Hm. done.
Qed.

(** The body of a planned function. *)
Lemma body_agrees st closure params body slots operations args exec fuel :
  instruction_budget st = None → memory_budget st = None → host_cancelled (world st) = false →
  ints_fit (chunk_code body) → disciplined params (chunk_code body) = true →
  integer_native_plan params body = Some (slots, operations) →
  length args = length params → Forall i64 args →
  runs_agree st
    (run exec fuel (chunk_code body) [] 0
       (frame st (next_ref st) (entry_scopes st closure (immutable (zip params (V_Int <$> args)))) (next_ref st + 1)))
    (native_run fuel [] 0 0 operations 0 [] (entry_slots slots args)).
Proof.
  intros Hi Hm Hg Hints Hd Hplan Hlen Hargs.
  destruct (planned_kinded _ _ _ _ Hints Hplan) as ((persistent & Hops) & Hle & Hfit & K & HK).
  destruct (disciplined_spec _ _ Hd) as (w & reachable & Hw & Hr & Hj & Hp & Hst).
  unfold integer_operations in Hops. rewrite Hw, Hr in Hops. cbn in Hops.
  destruct (integer_walk _ reachable w) as [[ops last]|] eqn:Hwalk; [|done]. cbn in Hops.
  destruct (_ && _); simplify_eq.
  destruct (entry_slots_ok (w_next_slot last) args) as [Hs Hn]; [done|unfold len in *; lia|].
  destruct (entry_matches (chunk_code body) (w_next_slot last) params args w Hw Hlen Hp) as [Hsc Hmatch].
  destruct (reachable_marks (chunk_code body)) as (marks & Hmarks & Hlm & H0 & _).
  rewrite Hr in Hmarks. simplify_eq. destruct (walks_spec _ _ _ _ _ Hwalk Hlm) as (Hlo & Hlw & _).
  destruct HK as (HlK & (ks & Hks & Hle0) & Hset).
  assert (0 < len (chunk_code body)) as Hpos by (apply lookup_lt_Some in Hks; unfold len; lia).
  destruct (lookup_lt_is_Some_2 (walks (chunk_code body) marks w) 0%nat) as [w0 Hw0]; [unfold len in Hpos; lia|].
  eapply (run_agrees st (chunk_code body) closure (w_next_slot last)); try done; [by eapply first_walk_inv| |].
  { by split_and!; [|exists ks|]. }
  exists w0, ks. split_and!; [by apply H0|done|done|inversion Hle0; constructor|].
  apply walks_0 in Hw0 as ->. split; [|by eapply first_walk_inv|lia|lia| |done|done].
  - rewrite Hsc. eapply chain_last; [by unfold entry_scopes; rewrite lookup_insert_eq|lia|done].
  - intros a Ha. unfold entry_scopes. rewrite lookup_insert_ne by lia. done.
Qed.

(** ** The tier and the machine *)

(** The second state is the first with scopes made since. *)
Definition beside (st1 st2 : Interp W) : Prop :=
  ∃ s r, st2 = set_next_ref r (set_scopes s st1) ∧ next_ref st1 ≤ r ∧
    ∀ a, a < next_ref st1 → s !! a = scopes st1 !! a.

Definition calls_agree (tier machine : outcome W Value) : Prop :=
  match tier, machine with
  | Done v st1, Done v' st2 => v = v' ∧ beside st1 st2
  | Fail e st1, Fail e' st2 => err_message e = err_message e' ∧ beside st1 st2
  | Panic, Panic | Dangling, Dangling | OutOfFuel, OutOfFuel => True
  | _, _ => False
  end.

Lemma beside_refl st : beside st st.
Proof. exists (scopes st), (next_ref st). split; [by destruct st|]. by split. Qed.

Lemma calls_agree_refl o : calls_agree o o.
Proof. destruct o; cbn; [split..| | |]; done || apply beside_refl. Qed.

(** What is compiled for a function is the plan of its body. *)
Definition compiled_ok (params : list string) (body : Chunk) (compiled : CompiledFunction) : Prop :=
  cf_parameters compiled = len params ∧
  integer_native_plan params body = Some (cf_slots compiled, cf_operations compiled).

Definition jit_ok (params : list string) (body : Chunk) (jit : JitState) : Prop :=
  ∀ compiled, jit_compiled jit = Some compiled → compiled_ok params body compiled.

Lemma jit_prepare_ok threshold jit params body jit' compiled :
  jit_ok params body jit → jit_prepare threshold jit params body = (jit', compiled) →
  jit_ok params body jit' ∧ ∀ c, compiled = Some c → compiled_ok params body c.
Proof.
  unfold jit_prepare. intros Hok Hp. destruct (jit_disabled jit); [by simplify_eq|].
  destruct (jit_compiled jit) as [c|] eqn:Hc.
  { simplify_eq. split; [|intros ? [= <-]; by apply Hok]. intros ? [= <-]. by apply Hok. }
  destruct (threshold <=? _); [|simplify_eq; by split].
  assert (∀ c, ('(slots, operations) ← integer_native_plan params body;
    compile_function (len params) slots operations) = Some c → compiled_ok params body c) as Hnew.
  { intros c Hp'. destruct (integer_native_plan params body) as [[slots operations]|] eqn:Hplan; [|done].
    cbn in Hp'. unfold compile_function in Hp'. destruct (compile_with _ _ _) as [[]|]; simplify_eq. by split. }
  simplify_eq. split; [|done]. intros c Hc'. by apply Hnew.
Qed.

(** An argument in the range of its type. *)
Definition value_fits (v : Value) : Prop := match v with V_Int z => i64 z | _ => True end.

(** The message of a fault that a planned function can have. *)
Lemma call_error_message (st : Interp W) c span :
  c = 1 ∨ c = 2 ∨ c = 3 → err_message (call_error st (fault_error c) span) = fault_message c.
Proof. by intros [->|[->| ->]]. Qed.

Lemma call_on_machine_planned fuel st f body compiled args span :
  f_body f = Body_Bytecode body → compiled_ok (f_params f) body compiled →
  ints_fit (chunk_code body) → disciplined (f_params f) (chunk_code body) = true →
  instruction_budget st = None → memory_budget st = None → host_cancelled (world st) = false →
  length args = length (f_params f) → Forall i64 args →
  calls_agree
    match call_compiled fuel compiled args span st with
    | Done (Some value) st => Done value (set_call_depth (call_depth st - 1) st)
    | Done None st => call_on_machine (execute (S fuel)) f (V_Int <$> args) span st
    | Fail e st =>
        Fail (with_frame e (f_name f) (span_line span) (span_column span))
          (set_call_depth (call_depth st - 1) st)
    | Panic => Panic
    | Dangling => Dangling
    | OutOfFuel => OutOfFuel
    end
    (call_on_machine (execute (S fuel)) f (V_Int <$> args) span st).
Proof.
  intros Hb [Hcp Hplan] Hints Hd Hi Hm Hg Hlen Hargs. unfold call_compiled.
  rewrite (proj2 (N.eqb_eq _ _)) by (rewrite Hcp; unfold len; lia). cbn [negb].
  pose proof (planned_run_sound _ _ _ _ args fuel [] 0 0 Hints Hplan Hlen Hargs) as Hsound.
  pose proof (body_agrees st (f_closure f) _ _ _ _ args (execute fuel) fuel Hi Hm Hg Hints Hd Hplan Hlen Hargs) as Ha.
  unfold call_on_machine. rewrite Hb. cbn [execute_with].
  unfold with_trace, finally, child_scope, in_environment, execute_chunk_vm, fresh, update, get, mbind, M_bind, mret, M_ret.
  unfold finally. cbn -[run frame native_run].
  destruct (native_run _ _ _ _ _ _ _ _) as [z slots'|c| |]; cbn [runs_agree run_sound] in *; [| |done|].
  - destruct Ha as (e & s & r & Hrun & Hr & Hs). unfold frame, entry_scopes, set_environment, set_next_ref, set_scopes in *.
    cbn -[run] in Hrun |- *. rewrite Hrun. cbn. split; [done|]. exists s, r. cbn.
    by rewrite firstn_all.
  - destruct Ha as (error & e & s & r & Hrun & Hmsg & Hr & Hs). unfold frame, entry_scopes, set_environment, set_next_ref, set_scopes in *.
    cbn -[run] in Hrun |- *. rewrite Hrun. cbn. rewrite Hmsg.
    split; [by apply call_error_message|]. exists s, r. cbn. by rewrite firstn_all.
  - unfold frame, entry_scopes, set_environment, set_next_ref, set_scopes in *. cbn -[run] in Ha |- *. by rewrite Ha.
Qed.

(** C10: whether a call of a function goes through the native tier makes no
    difference: whatever the threshold and the number of calls so far, the tier
    gives the value the machine gives, or an error with the same message, or is
    still running when the machine is, and leaves the same state but for the
    scopes that the machine has made meanwhile; and what it compiles is again
    the plan of the body.  Assumed: integers in range, no budgets, no
    cancellation, and a body that uses its names with discipline if there is a
    plan for it. *)
Theorem jit_call_agrees threshold fuel jit ref f body arguments span st :
  functions st !! ref = Some f → f_body f = Body_Bytecode body → jit_ok (f_params f) body jit →
  ints_fit (chunk_code body) →
  (is_Some (integer_native_plan (f_params f) body) → disciplined (f_params f) (chunk_code body) = true) →
  Forall value_fits arguments →
  instruction_budget st = None → memory_budget st = None → host_cancelled (world st) = false →
  calls_agree (call_function_jit (execute (S fuel)) threshold fuel jit ref arguments span st)
    (call_function (execute (S fuel)) ref arguments span st) ∧
  jit_ok (f_params f) body (fst (try_jit (W := W) threshold fuel jit f body arguments span)).
Proof.
  intros Hf Hb Hjit Hints Hd Hargs Hi Hm Hg. unfold try_jit.
  destruct (jit_prepare threshold jit (f_params f) body) as [jit' compiled] eqn:Hprep.
  destruct (jit_prepare_ok _ _ _ _ _ _ Hjit Hprep) as [Hjit' Hok]. split; [|done].
  unfold call_function_jit, call_function, mbind, M_bind, get. rewrite Hf.
  destruct (check_arity _ _ _ _) as [[]|e] eqn:Har; [|apply calls_agree_refl]. cbn [lift mret M_ret].
  destruct (_ <=? _); [apply calls_agree_refl|]. unfold update. rewrite Hb. unfold try_jit. rewrite Hprep. cbn [snd].
  assert (∀ o, calls_agree o (call_on_machine (execute (S fuel)) f arguments span
    (set_call_depth (call_depth st + 1) st)) → calls_agree o (with_trace
      (finally (env ← child_scope (f_closure f) (immutable (zip (f_params f) arguments));
         flow ← in_environment env (execute (S fuel) body); function_result body flow span)
       (λ st, set_call_depth (call_depth st - 1) st)) (f_name f) span
    (set_call_depth (call_depth st + 1) st))) as Hsame by (unfold call_on_machine; by rewrite Hb).
  apply Hsame. destruct compiled as [compiled|]; [|apply calls_agree_refl].
  destruct (integer_arguments arguments) as [args|] eqn:Hints'; [|apply calls_agree_refl].
  apply integer_arguments_Some in Hints' as ->. specialize (Hok _ eq_refl).
  apply (call_on_machine_planned fuel _ f body compiled args span); try done.
  - apply Hd. rewrite (proj2 Hok). by eexists.
  - unfold check_arity in Har. destruct (_ =? _) eqn:E; [|done]. apply N.eqb_eq in E.
    unfold len in E. rewrite length_fmap in E. lia.
  - exact (proj1 (Forall_fmap V_Int value_fits args) Hargs).
Qed.
End calls.

Import Trace.

(** A machine with the function [sum]. *)
Definition sum_machine : Interp Trace.World :=
  set_functions {[ 5 := mkFunction "sum" ["n"] sum_body 0 ]} (Trace.start [] []).

Lemma jit_call_agrees_witness :
  calls_agree
    (call_function_jit (execute (S 500)) 1 500 JitState_default 5 [V_Int 10] (mkSpan 1 1) sum_machine)
    (call_function (execute (S 500)) 5 [V_Int 10] (mkSpan 1 1) sum_machine) ∧
  match call_function_jit (execute (S 500)) 1 500 JitState_default 5 [V_Int 10] (mkSpan 1 1) sum_machine with
  | Done v _ => v = V_Int 55
  | _ => False
  end.
Proof.
  split; [|by vm_compute].
  refine (proj1 (jit_call_agrees 1 500 JitState_default 5 (mkFunction "sum" ["n"] sum_body 0) sum_body
    [V_Int 10] (mkSpan 1 1) sum_machine _ _ _ sum_fits _ _ _ _ _)); try reflexivity.
  - by intros ? [=].
  - constructor; [|constructor]. cbn. unfold i64, i64_min, i64_max. lia.
Defined.

(** [give 7 / n], written on line 3 of its source. *)
Definition seventh_body : Chunk := mkChunk BYTECODE_VERSION (map (λ op, mkInstruction op (mkSpan 3 10))
  [Op_Constant (Literal_Int 7); Op_Load "n"; Op_Binary Tk_Slash; Op_Return;
   Op_Constant Literal_Null; Op_Return]).

(** Where an error is reported depends on the tier: the machine reports the
    operation, the tier the call. *)
Lemma hot_error_moves :
  let st := set_functions {[ 5 := mkFunction "seventh" ["n"] seventh_body 0 ]} (start [] []) in
  let line (o : outcome World Value) := match o with Fail e _ => Some (err_message e, err_line e) | _ => None end in
  line (call_function (execute 100) 5 [V_Int 0] (mkSpan 20 1) st) = Some ("division by zero", 3) ∧
  line (call_function_jit (execute 100) 1 100 JitState_default 5 [V_Int 0] (mkSpan 20 1) st)
    = Some ("division by zero", 20).
Proof. split; vm_compute; reflexivity. Qed.
