(* ===== verification/NativeRoot.v ===== *)
(** * Native code for whole programs

    The part of src/src/runtime.rs that runs a top-level chunk natively:
    [try_root_native] plans the chunk ([Native]), compiles it, runs it and
    writes its bindings back, and [run_bytecode] asks it before it starts the
    machine.  Debuggers and metrics, which turn it off, are not part of the
    model, nor is the debugging output of NIVREN_ROOT_DEBUG.

    The theorems show where the tier and the machine part: a program whose
    function name is bound again in a block, and a program with an instruction
    budget. *)
From S2P Require Import Prelude Ast Text Values Bytecode Verifier Gate Vm Tree Engine Parser ParserEdges IntCode Native VmOk.
Open Scope list_scope.

(** ** Compilation *)

(** [CompiledProgram::compile]: the limits, then every body; [None] when one
    of the checks is cut off. *)
Definition compile_program (functions : list PlanFunction) (slots : N) (operations : list IntOp)
    : option (result string unit) :=
  if (1024 <? len functions) || (4096 <? slots) then Some (Err "invalid JIT program limits")
  else if existsb (λ f, (pf_slots f <? pf_parameters f) || (4096 <? pf_slots f)
                        || (1000000 <? len (pf_operations f))) functions
  then Some (Err "invalid JIT function limits")
  else
    let bodies := map (λ f, (pf_slots f, pf_operations f)) functions ++ [(slots, operations)] in
    foldr (λ '(slots, operations) rest,
             r ← emit_plan_body (len functions) slots operations;
             match r with Ok _ => rest | Err e => Some (Err e) end)
      (Some (Ok tt)) bodies.

(** [Plan], with what [try_root_native] takes from it. *)
Record RootPlan := mkPlan {
  rp_functions : list PlanFunction;
  rp_slots : N;
  rp_operations : list IntOp;
  rp_persistent : list (string * N * bool);
  rp_prints : bool;
  rp_function_sites : list N;
  rp_shape_sites : list N;
  rp_program : bool }.

(** The choice of the plan. *)
Definition root_plan (chunk : Chunk) : option RootPlan :=
  match integer_program_plan chunk with
  | Some p =>
      Some (mkPlan (map (λ f, mkPlanFunction (pp_parameters f) (pp_slots f) (pp_operations f)) (plan_functions p))
              (root_slots p) (root_operations p) (plan_persistent p) (plan_prints p)
              (function_sites p) (shape_sites p) true)
  | None =>
      p ← integer_root_plan chunk;
      Some (mkPlan [] (slot_count p) (root_plan_operations p) (root_persistent p) (root_prints p) [] [] false)
  end.

Definition total_operations (p : RootPlan) : N :=
  len (rp_operations p) + foldr (λ f n, len (pf_operations f) + n) 0 (rp_functions p).

(** [CompiledFunction::compile_root] or [CompiledProgram::compile]. *)
Definition compile_plan (p : RootPlan) : bool :=
  match (if rp_program p then compile_program (rp_functions p) (rp_slots p) (rp_operations p)
         else compile_with (rp_slots p) (rp_slots p) (rp_operations p)) with
  | Some (Ok _) => true
  | _ => false
  end.

(** ** The tier *)

Section root.
Context {W : Type} `{Foreign} `{!Host W}.

(** [environment.values.insert(name, binding)] *)
Definition bind (name : string) (value : Value) (mutable : bool) : M W unit :=
  st ← get;
  _ ← insert_binding (environment st) name (mkBinding value mutable);
  mret tt.

Fixpoint each {A} (f : A → M W unit) (l : list A) : M W unit :=
  match l with [] => mret tt | x :: l => _ ← f x; each f l end.

(** A shape or function of the chunk becomes a value. *)
Definition materialize (chunk : Chunk) (site : N) : M W unit :=
  match chunk_code chunk !! N.to_nat site with
  | Some (mkInstruction (Op_DefineRecord name fields derives) _) =>
      ref ← fresh;
      bind name (V_RecordType (mkRecordType ref name fields derives)) false
  | Some (mkInstruction (Op_MakeFunction name params body) _) =>
      ref ← fresh;
      _ ← update (λ st, set_functions
            (<[ref := mkFunction name params body (environment st)]> (functions st)) st);
      bind name (V_Function ref) false
  | _ => mret tt
  end.

(** [try_root_native] *)
Definition try_root_native (threshold : N) (fuel : nat) (chunk : Chunk) : M W (option Value) :=
  if threshold =? u32_max then mret None
  else
    match root_plan chunk with
    | None => mret None
    | Some p =>
        if total_operations p <? 16 then mret None
        else
          st ← get;
          scope ← scope_at (environment st);
          if existsb (λ '(name, _, _), bool_decide (is_Some (s_values scope !! name))) (rp_persistent p)
          then mret None
          else if negb (compile_plan p) then mret None
          else
            match native_run fuel (rp_functions p) (max_call_depth st) 0 (rp_operations p) 0 []
                    (replicate (N.to_nat (rp_slots p)) 0%Z) with
            | NTimeout => out_of_fuel
            | NStuck => Vm.panic
            | NFault _ => mret None
            | NDone value slots =>
                _ ← each (materialize chunk) (rp_shape_sites p);
                _ ← each (materialize chunk) (rp_function_sites p);
                _ ← each (λ '(name, slot, mutable),
                      z ← unwrap (slots !! N.to_nat slot);
                      bind name (V_Int z) mutable) (rp_persistent p);
                if rp_prints p then
                  _ ← update (λ st, set_printed (printed st ++ [text_of st (V_Int value)]) st);
                  mret (Some V_Null)
                else mret (Some (V_Int value))
            end
    end.

(** [run_bytecode] with the tier; [Engine.run_bytecode] checks the chunk again,
    with the same result. *)
Definition run_bytecode_native (threshold : N) (fuel : nat) (chunk : Chunk) : M W Value :=
  _ ← lift (verify chunk);
  native ← try_root_native threshold fuel chunk;
  match native with
  | Some value => mret value
  | None => run_bytecode fuel chunk
  end.
End root.

(** ** Where the tier and the machine part *)

Import Trace.

(** A program from its text. *)
Definition compiled_source (source : string) : option Chunk :=
  match parsed (λ _, None) source with
  | Some (Ok statements) =>
      match compile statements with Some (Ok chunk) => Some chunk | _ => None end
  | _ => None
  end.

(** What a program prints on the machine, and with the tier. *)
Definition printed_by (run : Chunk → M World Value) (st : Interp World) (source : string)
    : option (result string (list string)) :=
  chunk ← compiled_source source;
  match run chunk st with
  | Done _ st => Some (Ok (printed st))
  | Fail e _ => Some (Err (err_message e))
  | _ => None
  end.

Definition shadowing_program : string :=
  "define double takes { x is Int } gives Int { give x * 2 }
define triple takes { x is Int } gives Int { give x * 3 }
change total set 0
when 1 == 1 {
  keep double set triple
  change total to double(5)
}
show(total)".

(** C12: the native tier calls the wrong function when a block binds the name of
    a function again: in the block [double] is [triple], so the program prints
    15, and 10 when it runs natively. *)
Theorem shadowed_function_miscompiled :
  printed_by (run_bytecode 400) (start [] []) shadowing_program = Some (Ok ["15"]) ∧
  printed_by (run_bytecode_native 64 400) (start [] []) shadowing_program = Some (Ok ["10"]).
Proof. split; vm_compute; reflexivity. Qed.

Definition counting_program : string :=
  "change i set 0
change t set 0
repeat while i < 100 {
  change i to i + 1
  change t to t + i
}
show(t)".

(** C13: the native tier does not count instructions: with a budget of 50
    instructions the machine stops the program, and the tier runs its hundred
    turns to the end and prints the result. *)
Theorem native_ignores_budget :
  printed_by (run_bytecode 4000) (set_budgets (Some 50) None (start [] [])) counting_program
    = Some (Err "instruction limit exceeded") ∧
  printed_by (run_bytecode_native 64 4000) (set_budgets (Some 50) None (start [] [])) counting_program
    = Some (Ok ["5050"]).
Proof. split; vm_compute; reflexivity. Qed.
