(* ===== verification/WebSocket.v ===== *)
(** * WebSocket

    src/src/websocket.rs: frames, messages and the handshake.  A connection is
    what the peer has sent and has not been read yet, what was written to the
    peer, and whether it was shut down; at the end of what the peer has sent a
    read fails, as it does when the peer has gone.  Reads have no deadline and
    writes do not fail.

    The source takes masks and keys from the random generator and the digest
    SHA-1 from the package ring: the generator is a list of bytes still to come
    in the state, the digest a parameter.  TLS and TCP are the same connection
    here.  Headers are lists of characters, payloads lists of bytes. *)
From S2P Require Import Prelude Ast Text.
Open Scope list_scope.

(** [MAX_MESSAGE] and [GUID] *)
Definition MAX_MESSAGE : N := 16 * 1024 * 1024.
Definition GUID : list char := ascii_chars "258EAFA5-E914-47DA-95CA-C5AB0DC85B11".

(** ** Connections *)

Record Wire := mkWire {
  incoming : list byte;
  outgoing : list byte;
  entropy : list byte;
  shut : bool }.

(** A step on the connection: its state is kept also by a step that fails. *)
Definition WM (A : Type) : Type := Wire → result string A * Wire.

#[export] Instance WM_ret : MRet WM := λ A a w, (Ok a, w).
#[export] Instance WM_bind : MBind WM := λ A B f m w,
  match m w with (Ok a, w) => f a w | (Err e, w) => (Err e, w) end.

Definition refuse {A} (message : string) : WM A := λ w, (Err message, w).
Definition require (b : bool) (message : string) : WM unit := if b then mret tt else refuse message.

(** [stream.read_exact] *)
Definition read_exact (n : N) : WM (list byte) := λ w,
  if n <=? len (incoming w)
  then (Ok (take (N.to_nat n) (incoming w)),
        mkWire (drop (N.to_nat n) (incoming w)) (outgoing w) (entropy w) (shut w))
  else (Err "failed to fill whole buffer", mkWire [] (outgoing w) (entropy w) (shut w)).

(** [stream.write_all] and [stream.flush] *)
Definition write_all (bytes : list byte) : WM unit := λ w,
  (Ok tt, mkWire (incoming w) (outgoing w ++ bytes) (entropy w) (shut w)).

(** [SystemRandom::new().fill] *)
Definition fill (n : N) (message : string) : WM (list byte) := λ w,
  if n <=? len (entropy w)
  then (Ok (take (N.to_nat n) (entropy w)),
        mkWire (incoming w) (outgoing w) (drop (N.to_nat n) (entropy w)) (shut w))
  else (Err message, w).

(** [Transport::shutdown] *)
Definition shutdown : WM unit := λ w, (Ok tt, mkWire (incoming w) (outgoing w) (entropy w) true).

(** ** Frames *)

(** [Frame] *)
Record Frame := mkFrame { fin : bool; opcode : N; payload : list byte }.

(** [to_be_bytes] and [from_be_bytes] *)
Definition to_be_bytes (n : nat) (v : N) : list byte := rev (to_le_bytes n v).
Definition from_be_bytes (l : list byte) : N := from_le_bytes (rev l).

(** [byte ^ mask[index % 4]] for every byte. *)
Definition apply_mask (mask : list byte) (bytes : list byte) : list byte :=
  imap (λ i b, byte_of_N (N.lxor (Byte.to_N b) (Byte.to_N (nth (i mod 4) mask Byte.x00)))) bytes.

(** The length of a payload. *)
Definition read_length (short : N) : WM N :=
  if short =? 126 then bytes ← read_exact 2; mret (from_be_bytes bytes)
  else if short =? 127 then bytes ← read_exact 8; mret (from_be_bytes bytes)
  else mret short.

(** [read_frame]; every 64-bit length is a [usize], which is 64 bits wide here, so
    that conversion does not fail. *)
Definition read_frame (expect_mask : bool) (maximum : N) : WM Frame :=
  head ← read_exact 2;
  let head0 := Byte.to_N (nth 0 head Byte.x00) in
  let head1 := Byte.to_N (nth 1 head Byte.x00) in
  _ ← require (N.land head0 0x70 =? 0) "WebSocket extensions were not negotiated";
  let fin := negb (N.land head0 0x80 =? 0) in
  let opcode := N.land head0 0x0f in
  let masked := negb (N.land head1 0x80 =? 0) in
  _ ← require (Bool.eqb masked expect_mask) "WebSocket frame has the wrong masking mode";
  length ← read_length (N.land head1 0x7f);
  _ ← require (negb ((8 <=? opcode) && (negb fin || (125 <? length)))) "invalid WebSocket control frame";
  _ ← require (negb (maximum <? length)) "WebSocket frame exceeds receive limit";
  mask ← (if masked then read_exact 4 else mret []);
  bytes ← read_exact length;
  mret (mkFrame fin opcode (if masked then apply_mask mask bytes else bytes)).

(** The first bytes of a frame. *)
Definition frame_head (opcode : N) (masked : bool) (length : N) : list byte :=
  let mask_bit := if masked then 0x80 else 0 in
  byte_of_N (N.lor 0x80 opcode) ::
  if length <=? 125 then [byte_of_N (N.lor mask_bit length)]
  else if length <=? 65535 then byte_of_N (N.lor mask_bit 126) :: to_be_bytes 2 length
  else byte_of_N (N.lor mask_bit 127) :: to_be_bytes 8 length.

(** [write_frame] *)
Definition write_frame (opcode : N) (payload : list byte) (masked : bool) : WM unit :=
  let head := frame_head opcode masked (len payload) in
  if masked then
    mask ← fill 4 "could not create a WebSocket frame mask";
    write_all (head ++ mask ++ apply_mask mask payload)
  else write_all (head ++ payload).

(** ** Messages *)

(** [WebSocket] without its stream. *)
Record Socket := mkSocket { mask_outgoing : bool; closed : bool }.

(** [receive_message]: the text and the new value of [closed]; the outer
    [option] is the fuel of the loop. *)
Fixpoint receive_loop (fuel : nat) (mask_outgoing : bool) (maximum : N) (message : list byte)
    (fragmented : bool) (w : Wire) : option (result string string * bool * Wire) :=
  match fuel with
  | O => None
  | S fuel =>
      match read_frame (negb mask_outgoing) (maximum - len message) w with
      | (Err e, w) => Some (Err e, false, w)
      | (Ok frame, w) =>
          let data :=
            let message := message ++ payload frame in
            if maximum <? len message then Some (Err "WebSocket message exceeds receive limit", false, w)
            else if fin frame then
              Some (ok_or "WebSocket text message is not UTF-8" (from_utf8 message), false, w)
            else receive_loop fuel mask_outgoing maximum message true w in
          match opcode frame with
          | 0 => if fragmented then data else Some (Err "invalid WebSocket message sequence", false, w)
          | 1 => if fragmented then Some (Err "invalid WebSocket message sequence", false, w) else data
          | 8 =>
              let '(_, w) := write_frame 8 (payload frame) mask_outgoing w in
              Some (Err "WebSocket peer closed the connection", true, snd (shutdown w))
          | 9 =>
              match write_frame 10 (payload frame) mask_outgoing w with
              | (Err e, w) => Some (Err e, false, w)
              | (Ok _, w) => receive_loop fuel mask_outgoing maximum message fragmented w
              end
          | 10 => receive_loop fuel mask_outgoing maximum message fragmented w
          | 2 => Some (Err "binary WebSocket messages are not supported by receive_text", false, w)
          | _ => Some (Err "invalid WebSocket message sequence", false, w)
          end
      end
  end.

(** Every frame has two bytes at least. *)
Definition receive_message (mask_outgoing : bool) (maximum : N) (w : Wire)
    : option (result string string * bool * Wire) :=
  receive_loop (S (length (incoming w))) mask_outgoing maximum [] false w.

(** [WebSocket::send_text] *)
Definition send_text (message : string) (s : Socket) : WM unit :=
  if closed s then refuse "WebSocket is closed"
  else if MAX_MESSAGE <? str_len message then refuse "WebSocket message exceeds 16 MiB"
  else write_frame 1 (string_bytes message) (mask_outgoing s).

(** [WebSocket::receive_text] *)
Definition receive_text (maximum : N) (s : Socket) (w : Wire)
    : option (result string string * Socket * Wire) :=
  if closed s then Some (Err "WebSocket is closed", s, w)
  else if (maximum =? 0) || (MAX_MESSAGE <? maximum) then
    Some (Err "WebSocket receive limit must be from 1 through 16777216 bytes", s, w)
  else
    '(r, c, w) ← receive_message (mask_outgoing s) maximum w;
    Some (r, mkSocket (mask_outgoing s) c, w).

(** [WebSocket::close] *)
Definition close_socket (s : Socket) (w : Wire) : result string unit * Socket * Wire :=
  if closed s then (Ok tt, s, w)
  else
    let '(sent, w) := write_frame 8 [] (mask_outgoing s) w in
    (sent, mkSocket (mask_outgoing s) true, snd (shutdown w)).
