(* ===== verification/WebSocketOk.v ===== *)
(** * Frames and messages

    The reader of [WebSocket] against the framing of RFC 6455: [wire_frame] says
    which bytes spell a frame, [conversation] which frames spell a message.  The
    reader accepts exactly these, within its limits; what is sent is received;
    an oversized frame leaves the connection open in the middle of its bytes. *)
From S2P Require Import Prelude Ast Text WebSocket.
Open Scope list_scope.

(** ** Bytes *)

(** A check of the numbers below [k]. *)
Lemma below (k : N) (p : N → bool) :
  forallb (λ i, p (N.of_nat i)) (seq 0 (N.to_nat k)) = true → ∀ n, n < k → p n = true.
Proof.
  intros H n Hn. rewrite forallb_forall in H. rewrite <- (N2Nat.id n). apply H, in_seq. lia.
Qed.

Lemma lxor_byte a b : N.lxor (Byte.to_N a) (Byte.to_N b) < 256.
Proof.
  assert (∀ c, N.land (Byte.to_N c) 255 = Byte.to_N c) as Hc.
  { intros c. rewrite (N.land_ones _ 8 : N.land _ 255 = _). apply N.mod_small, byte_to_N_bound. }
  assert (N.land (N.lxor (Byte.to_N a) (Byte.to_N b)) 255 = N.lxor (Byte.to_N a) (Byte.to_N b)) as <-.
  { rewrite <- (Hc a) at 2. rewrite <- (Hc b) at 2. apply N.bits_inj. intros i.
    rewrite !N.land_spec, !N.lxor_spec, !N.land_spec. by destruct (N.testbit 255 i), (N.testbit _ i), (N.testbit _ i). }
  rewrite (N.land_ones _ 8 : N.land _ 255 = _). by apply N.mod_upper_bound.
Qed.

Lemma length_apply_mask mask l : length (apply_mask mask l) = length l.
Proof. apply length_imap. Qed.

(** Masking twice with the same mask changes nothing. *)
Lemma apply_mask_twice mask l : apply_mask mask (apply_mask mask l) = l.
Proof.
  apply list_eq. intros i. unfold apply_mask. rewrite !list_lookup_imap.
  destruct (l !! i) as [b|]; [|done]. cbn. f_equal. apply byte_to_N_inj.
  rewrite !byte_of_N_to_N, (N.mod_small _ _ (lxor_byte _ _)).
  rewrite N.lxor_assoc, N.lxor_nilpotent, N.lxor_0_r. apply N.mod_small, byte_to_N_bound.
Qed.

Lemma length_to_be_bytes n v : length (to_be_bytes n v) = n.
Proof. unfold to_be_bytes. by rewrite length_rev, length_to_le_bytes. Qed.

Lemma from_to_be_bytes n v : v < 256 ^ N.of_nat n → from_be_bytes (to_be_bytes n v) = v.
Proof. unfold from_be_bytes, to_be_bytes. rewrite rev_involutive. apply from_to_le_bytes. Qed.

(** ** The bytes of a frame *)

(** The two fields of the length: any form that can hold it. *)
Inductive length_form (n : N) : N → list byte → Prop :=
  | form_short : n ≤ 125 → length_form n n []
  | form_medium bytes : length bytes = 2%nat → from_be_bytes bytes = n → length_form n 126 bytes
  | form_long bytes : length bytes = 8%nat → from_be_bytes bytes = n → length_form n 127 bytes.

Inductive wire_frame (masked : bool) (f : Frame) : list byte → Prop :=
  | wire_frame_intro short extended mask :
      opcode f < 16 → length_form (len (payload f)) short extended →
      length mask = (if masked then 4 else 0)%nat →
      wire_frame masked f
        (byte_of_N ((if fin f then 128 else 0) + opcode f) ::
         byte_of_N ((if masked then 128 else 0) + short) ::
         extended ++ mask ++ (if masked then apply_mask mask (payload f) else payload f)).

(** What the reader admits: control frames are whole and short. *)
Definition admitted (maximum : N) (f : Frame) : Prop :=
  len (payload f) ≤ maximum ∧ (8 ≤ opcode f → fin f = true ∧ len (payload f) ≤ 125).

(** The fields of the first two bytes. *)
Lemma head0_fields (b : byte) :
  N.land (Byte.to_N b) 0x70 = 0 →
  b = byte_of_N ((if negb (N.land (Byte.to_N b) 0x80 =? 0) then 128 else 0) + N.land (Byte.to_N b) 0x0f) ∧
  N.land (Byte.to_N b) 0x0f < 16.
Proof. destruct b; vm_compute; intros; by split. Qed.

Lemma head1_fields (b : byte) :
  b = byte_of_N ((if negb (N.land (Byte.to_N b) 0x80 =? 0) then 128 else 0) + N.land (Byte.to_N b) 0x7f) ∧
  N.land (Byte.to_N b) 0x7f < 128.
Proof. destruct b; vm_compute; by split. Qed.

Lemma head0_of (fin : bool) opcode :
  opcode < 16 → let n := Byte.to_N (byte_of_N ((if fin then 128 else 0) + opcode)) in
  N.land n 0x70 = 0 ∧ negb (N.land n 0x80 =? 0) = fin ∧ N.land n 0x0f = opcode.
Proof.
  intros Ho. cbv zeta.
  pose (p (b : bool) := λ o, let n := Byte.to_N (byte_of_N ((if b then 128 else 0) + o)) in
    (N.land n 0x70 =? 0) && Bool.eqb (negb (N.land n 0x80 =? 0)) b && (N.land n 0x0f =? o)).
  assert (p fin opcode = true) as Hp by (destruct fin; apply (below 16); [by vm_compute|done|by vm_compute|done]).
  unfold p in Hp. rewrite !andb_true_iff, !N.eqb_eq, eqb_true_iff in Hp. tauto.
Qed.

Lemma head1_of (masked : bool) short :
  short < 128 → let n := Byte.to_N (byte_of_N ((if masked then 128 else 0) + short)) in
  negb (N.land n 0x80 =? 0) = masked ∧ N.land n 0x7f = short.
Proof.
  intros Hs. cbv zeta.
  pose (p (b : bool) := λ s, let n := Byte.to_N (byte_of_N ((if b then 128 else 0) + s)) in
    Bool.eqb (negb (N.land n 0x80 =? 0)) b && (N.land n 0x7f =? s)).
  assert (p masked short = true) as Hp by (destruct masked; apply (below 128); [by vm_compute|done|by vm_compute|done]).
  unfold p in Hp. rewrite !andb_true_iff, !N.eqb_eq, eqb_true_iff in Hp. tauto.
Qed.

(** ** Steps that succeed *)

(** The same connection but for what the peer has sent. *)
Definition same_out (w w' : Wire) : Prop :=
  outgoing w' = outgoing w ∧ entropy w' = entropy w ∧ shut w' = shut w.

Lemma same_out_trans a b c : same_out a b → same_out b c → same_out a c.
Proof. unfold same_out. intros (-> & -> & ->) (-> & -> & ->). done. Qed.

Lemma WM_bind_Ok {A B} (m : WM A) (f : A → WM B) w b w' :
  (m ≫= f) w = (Ok b, w') ↔ ∃ a w1, m w = (Ok a, w1) ∧ f a w1 = (Ok b, w').
Proof.
  unfold mbind, WM_bind. split.
  - destruct (m w) as [[a|e] w1]; [|done]. intros H. by exists a, w1.
  - by intros (a & w1 & -> & ?).
Qed.

Lemma require_Ok b message w u w' : require b message w = (Ok u, w') ↔ b = true ∧ w' = w.
Proof. unfold require, refuse, mret, WM_ret. destruct b, u; naive_solver. Qed.

Lemma read_exact_Ok n w l w' :
  read_exact n w = (Ok l, w') ↔ incoming w = l ++ incoming w' ∧ len l = n ∧ same_out w w'.
Proof.
  unfold read_exact, same_out, len. split.
  - destruct (N.leb_spec n (N.of_nat (length (incoming w)))) as [Hle|]; [|done].
    intros [= <- <-]. cbn. rewrite take_drop, length_take. split_and!; [done|lia|done..].
  - intros (Hin & <- & Ho & He & Hs). rewrite Hin, length_app, (proj2 (N.leb_le _ _)) by lia.
    rewrite Nat2N.id, take_app_length, drop_app_length, <- Ho, <- He, <- Hs. by destruct w'.
Qed.

Lemma read_length_Ok short w n w' :
  short < 128 → read_length short w = (Ok n, w') ↔
  ∃ extended, length_form n short extended ∧ incoming w = extended ++ incoming w' ∧ same_out w w'.
Proof.
  intros Hs. unfold read_length.
  assert (∀ k : N, (bytes ← read_exact k; mret (from_be_bytes bytes)) w = (Ok n, w') ↔
    ∃ bytes, from_be_bytes bytes = n ∧ length bytes = N.to_nat k ∧
      incoming w = bytes ++ incoming w' ∧ same_out w w') as Hread.
  { intros k. rewrite WM_bind_Ok. split.
    - intros (l & w1 & (Hin & Hl & Ho)%read_exact_Ok & [= <- <-]). exists l. unfold len in Hl.
      split_and!; [done|lia|done|apply Ho..].
    - intros (l & Hn & Hl & Hin & Ho). exists l, w'. rewrite read_exact_Ok. unfold mret, WM_ret, len.
      split_and!; [done|lia|apply Ho..|by subst]. }
  destruct (N.eqb_spec short 126) as [->|H6]; [|destruct (N.eqb_spec short 127) as [->|H7]].
  - rewrite Hread. split; [|intros (l & Hf & ?); inversion Hf; subst; [lia|by exists l]].
    intros (l & Hn & Hl & ?). exists l. split; [|done]. by apply form_medium.
  - rewrite Hread. split; [|intros (l & Hf & ?); inversion Hf; subst; [lia|by exists l]].
    intros (l & Hn & Hl & ?). exists l. split; [|done]. by apply form_long.
  - unfold mret, WM_ret. split.
    + intros [= <- <-]. exists []. split_and!; [apply form_short; lia|done..].
    + intros (l & Hf & Hin & Ho & He & Hsh). inversion Hf; subst; [|done|done]. cbn in Hin.
      f_equal. destruct w, w'; cbn in *; congruence.
Qed.

Lemma read_mask_Ok (masked : bool) w mask w' :
  (if masked then read_exact 4 else mret []) w = (Ok mask, w') ↔
  length mask = (if masked then 4 else 0)%nat ∧ incoming w = mask ++ incoming w' ∧ same_out w w'.
Proof.
  destruct masked.
  - rewrite read_exact_Ok. unfold len. split; intros (? & ? & ?); split_and!; try done; try apply H1; lia.
  - unfold mret, WM_ret. split.
    + intros [= <- <-]. done.
    + intros (->%nil_length_inv & Hin & Ho & He & Hsh). f_equal. destruct w, w'; cbn in *; congruence.
Qed.

Lemma admitted_check maximum f :
  negb ((8 <=? opcode f) && (negb (fin f) || (125 <? len (payload f)))) = true →
  negb (maximum <? len (payload f)) = true → admitted maximum f.
Proof.
  rewrite !negb_true_iff, N.ltb_ge. intros Hc Hm. split; [done|]. intros H8%N.leb_le. rewrite H8 in Hc.
  cbn in Hc. apply orb_false_iff in Hc as [Hf%negb_false_iff Hl%N.ltb_ge]. done.
Qed.

Lemma admitted_checks maximum f :
  admitted maximum f →
  negb ((8 <=? opcode f) && (negb (fin f) || (125 <? len (payload f)))) = true ∧
  negb (maximum <? len (payload f)) = true.
Proof.
  intros [Hm Hc]. rewrite !negb_true_iff, N.ltb_ge. split; [|done].
  destruct (N.leb_spec 8 (opcode f)) as [H8|]; [|done]. destruct (Hc H8) as [-> Hl].
  by apply N.ltb_ge in Hl as ->.
Qed.

(** The reader takes exactly the bytes of one frame. *)
Lemma read_frame_Ok expect_mask maximum w f w' :
  read_frame expect_mask maximum w = (Ok f, w') ↔
  ∃ bytes, wire_frame expect_mask f bytes ∧ admitted maximum f ∧
    incoming w = bytes ++ incoming w' ∧ same_out w w'.
Proof.
  unfold read_frame. split.
  - intros (head & w1 & (Hin & Hl & Ho1)%read_exact_Ok & H)%WM_bind_Ok.
    destruct head as [|h0 [|h1 [|]]]; unfold len in Hl; cbn in Hl; try lia. cbn [nth] in H.
    apply WM_bind_Ok in H as ([] & w1' & [Hx%N.eqb_eq ->]%require_Ok & H).
    apply WM_bind_Ok in H as ([] & w1' & [Hm%eqb_prop ->]%require_Ok & H).
    apply head0_fields in Hx as [E0 Hop]. destruct (head1_fields h1) as [E1 Hs].
    apply WM_bind_Ok in H as (n & w2 & (extended & Hf & Hin2 & Ho2)%(read_length_Ok _ _ _ _ Hs) & H).
    apply WM_bind_Ok in H as ([] & w2' & [Hc ->]%require_Ok & H).
    apply WM_bind_Ok in H as ([] & w2' & [Hmax ->]%require_Ok & H).
    rewrite Hm in H, E1.
    apply WM_bind_Ok in H as (mask & w3 & (Hmask & Hin3 & Ho3)%read_mask_Ok & H).
    apply WM_bind_Ok in H as (bytes & w4 & (Hin4 & <- & Ho4)%read_exact_Ok & [= <- <-]).
    set (p := if expect_mask then apply_mask mask bytes else bytes).
    assert (len p = len bytes) as Hp by (unfold p, len; destruct expect_mask; by rewrite ?length_apply_mask).
    exists ([h0; h1] ++ extended ++ mask ++ bytes). split_and!.
    + pose proof (wire_frame_intro expect_mask (mkFrame (negb (N.land (Byte.to_N h0) 0x80 =? 0))
        (N.land (Byte.to_N h0) 0x0f) p) (N.land (Byte.to_N h1) 0x7f) extended mask Hop) as Hw.
      cbn [fin opcode payload] in Hw. rewrite <- E0, <- E1, Hp in Hw. specialize (Hw Hf Hmask).
      replace (if expect_mask then apply_mask mask p else p) with bytes in Hw
        by (unfold p; destruct expect_mask; by rewrite ?apply_mask_twice).
      exact Hw.
    + apply admitted_check; cbn; by rewrite Hp.
    + rewrite Hin, Hin2, Hin3, Hin4, <- !app_assoc. done.
    + by eapply same_out_trans; [|eapply same_out_trans; [|eapply same_out_trans]].
  - intros (bytes & [short extended mask Hop Hf Hmask] & Hadm & Hin & Ho).
    assert (short < 128) as Hs by (inversion Hf; subst; lia).
    apply admitted_checks in Hadm as [Hc Hmax].
    destruct (head0_of (fin f) (opcode f) Hop) as (E1 & E2 & E3).
    destruct (head1_of expect_mask short Hs) as (E4 & E5).
    pose (data := if expect_mask then apply_mask mask (payload f) else payload f).
    assert (len data = len (payload f)) as Hd
      by (unfold data, len; destruct expect_mask; by rewrite ?length_apply_mask).
    pose (at_ l := mkWire l (outgoing w) (entropy w) (shut w)).
    apply WM_bind_Ok. exists [byte_of_N ((if fin f then 128 else 0) + opcode f);
      byte_of_N ((if expect_mask then 128 else 0) + short)], (at_ (extended ++ mask ++ data ++ incoming w')).
    split; [apply read_exact_Ok; split_and!; [|done..]; rewrite Hin; cbn; by rewrite <- !app_assoc|].
    cbn [nth]. apply WM_bind_Ok. exists tt, (at_ (extended ++ mask ++ data ++ incoming w')).
    split; [apply require_Ok; by rewrite E1|]. apply WM_bind_Ok. eexists tt, _.
    split; [apply require_Ok; rewrite E4; by rewrite eqb_reflx|].
    apply WM_bind_Ok. exists (len (payload f)), (at_ (mask ++ data ++ incoming w')).
    split; [rewrite E5; apply read_length_Ok; [done|]; by exists extended|].
    rewrite E2, E3, E4. apply WM_bind_Ok. eexists tt, _. split; [by apply require_Ok|].
    apply WM_bind_Ok. eexists tt, _. split; [by apply require_Ok|].
    apply WM_bind_Ok. exists mask, (at_ (data ++ incoming w')). split; [by apply read_mask_Ok|].
    apply WM_bind_Ok. exists data, w'. split; [apply read_exact_Ok; split; [done|]; split; [exact Hd|exact Ho]|].
    unfold mret, WM_ret, data. destruct f, expect_mask; cbn -[apply_mask]; by rewrite ?apply_mask_twice.
Qed.

(** ** Messages *)

(** The frame goes on with the message. *)
Definition is_data (fragmented : bool) (f : Frame) : bool := opcode f =? (if fragmented then 0 else 1).

(** The frames from which a message is read when [message] of it has been read:
    its text, and the pings to be answered on the way. *)
Inductive conversation (maximum : N) : list byte → bool → list Frame → list byte → list (list byte) → Prop :=
  | conv_last message fragmented f :
      is_data fragmented f = true → fin f = true → admitted (maximum - len message) f →
      conversation maximum message fragmented [f] (message ++ payload f) []
  | conv_more message fragmented f fs text pings :
      is_data fragmented f = true → fin f = false → admitted (maximum - len message) f →
      conversation maximum (message ++ payload f) true fs text pings →
      conversation maximum message fragmented (f :: fs) text pings
  | conv_ping message fragmented f fs text pings :
      opcode f = 9 → admitted (maximum - len message) f →
      conversation maximum message fragmented fs text pings →
      conversation maximum message fragmented (f :: fs) text (payload f :: pings)
  | conv_pong message fragmented f fs text pings :
      opcode f = 10 → admitted (maximum - len message) f →
      conversation maximum message fragmented fs text pings →
      conversation maximum message fragmented (f :: fs) text pings.

(** Frames one after another. *)
Definition spelled (masked : bool) (fs : list Frame) (bytes : list byte) : Prop :=
  ∃ pieces, Forall2 (wire_frame masked) fs pieces ∧ bytes = concat pieces.

(** The answers to pings. *)
Fixpoint answer (mask_outgoing : bool) (pings : list (list byte)) : WM unit :=
  match pings with
  | [] => mret tt
  | p :: pings => _ ← write_frame 10 p mask_outgoing; answer mask_outgoing pings
  end.

Definition with_in (l : list byte) (w : Wire) : Wire := mkWire l (outgoing w) (entropy w) (shut w).

Lemma same_out_with_in w w' : same_out w w' ↔ w' = with_in (incoming w') w.
Proof.
  split; [|intros ->; by split_and!]. intros (Ho & He & Hs). destruct w, w'. cbn in *. by subst.
Qed.

Lemma write_frame_in o p m w l :
  write_frame o p m (with_in l w) = ((write_frame o p m w).1, with_in l (write_frame o p m w).2) ∧
  incoming (write_frame o p m w).2 = incoming w.
Proof.
  unfold write_frame, mbind, WM_bind, write_all, fill. destruct m; cbn; [|done].
  by destruct (_ <=? _).
Qed.

Lemma receive_loop_step fuel mo maximum message fragmented w :
  receive_loop (S fuel) mo maximum message fragmented w =
  match read_frame (negb mo) (maximum - len message) w with
  | (Err e, w) => Some (Err e, false, w)
  | (Ok f, w) =>
      if is_data fragmented f then
        let message := message ++ payload f in
        if maximum <? len message then Some (Err "WebSocket message exceeds receive limit", false, w)
        else if fin f then
          Some (ok_or "WebSocket text message is not UTF-8" (from_utf8 message), false, w)
        else receive_loop fuel mo maximum message true w
      else if opcode f =? 9 then
        match write_frame 10 (payload f) mo w with
        | (Err e, w) => Some (Err e, false, w)
        | (Ok _, w) => receive_loop fuel mo maximum message fragmented w
        end
      else if opcode f =? 10 then receive_loop fuel mo maximum message fragmented w
      else if opcode f =? 8 then
        Some (Err "WebSocket peer closed the connection", true,
              snd (shutdown (write_frame 8 (payload f) mo w).2))
      else if opcode f =? 2 then
        Some (Err "binary WebSocket messages are not supported by receive_text", false, w)
      else Some (Err "invalid WebSocket message sequence", false, w)
  end.
Proof.
  cbn [receive_loop]. destruct (read_frame _ _ w) as [[[fi op pl]|e] w1]; [|done].
  unfold is_data. cbn [opcode payload fin].
  destruct op as [|p]; [by destruct fragmented|].
  do 4 (try (destruct p as [p|p|])); destruct fragmented; try done; cbn; by destruct (write_frame 8 pl mo w1).
Qed.

Lemma wire_frame_length masked f bytes : wire_frame masked f bytes → (2 ≤ length bytes)%nat.
Proof. inversion 1; subst. cbn. lia. Qed.

Lemma spelled_cons masked f fs bytes rest :
  wire_frame masked f bytes → spelled masked fs rest → spelled masked (f :: fs) (bytes ++ rest).
Proof. intros Hf (pieces & Hp & ->). exists (bytes :: pieces). split; [by constructor|done]. Qed.

Lemma spelled_cons_inv masked f fs bytes :
  spelled masked (f :: fs) bytes →
  ∃ b rest, bytes = b ++ rest ∧ wire_frame masked f b ∧ spelled masked fs rest.
Proof.
  intros (pieces & Hp & ->). inversion Hp as [|? b ? pieces' Hf Hps]; subst.
  exists b, (concat pieces'). split_and!; [done..|]. by exists pieces'.
Qed.

Lemma conversation_nil maximum message fragmented text pings :
  ¬ conversation maximum message fragmented [] text pings.
Proof. by inversion 1. Qed.

(** A frame that has been read. *)
Lemma read_frame_in mo maximum w f w1 :
  read_frame (negb mo) maximum w = (Ok f, w1) →
  ∃ bytes, wire_frame (negb mo) f bytes ∧ admitted maximum f ∧ incoming w = bytes ++ incoming w1 ∧
    w1 = with_in (incoming w1) w.
Proof. rewrite read_frame_Ok. setoid_rewrite same_out_with_in. done. Qed.

Lemma receive_loop_sound fuel mo maximum message fragmented w text c w' :
  receive_loop fuel mo maximum message fragmented w = Some (Ok text, c, w') →
  c = false ∧ utf8_valid (string_bytes text) = true ∧
  ∃ fs bytes pings rest, conversation maximum message fragmented fs (string_bytes text) pings ∧
    spelled (negb mo) fs bytes ∧ incoming w = bytes ++ rest ∧ answer mo pings (with_in rest w) = (Ok tt, w').
Proof.
  revert message fragmented w. induction fuel as [|fuel IH]; intros message fragmented w H; [done|].
  rewrite receive_loop_step in H.
  destruct (read_frame _ _ w) as [[f|e] w1] eqn:Hread; [|done].
  apply read_frame_in in Hread as (bytes & Hf & Hadm & Hin & Hw1).
  destruct (is_data fragmented f) eqn:Hdata; [|destruct (N.eqb_spec (opcode f) 9) as [H9|];
    [|destruct (N.eqb_spec (opcode f) 10) as [H10|]; [|by repeat case_match]]].
  - cbv zeta in H. destruct (_ <? _); [done|]. destruct (fin f) eqn:Hfin.
    + destruct (from_utf8 _) as [t|] eqn:Hu; simplify_eq/=. apply from_utf8_Some in Hu as [Ht Hv].
      split; [done|]. split; [done|]. exists [f], (bytes ++ []), [], (incoming w').
      split_and!; [rewrite Ht; by constructor|apply spelled_cons; [done|by exists []]|by rewrite app_nil_r|].
      by rewrite Hw1 at 2.
    + apply IH in H as (-> & Hv & fs & bytes' & pings & rest & Hc & Hs & Hin' & Ha). split; [done|]. split; [done|].
      exists (f :: fs), (bytes ++ bytes'), pings, rest.
      split_and!; [by eapply conv_more|by apply spelled_cons|by rewrite Hin, Hin', app_assoc|].
      rewrite Hw1 in Ha. exact Ha.
  - destruct (write_frame 10 (payload f) mo w1) as [[[]|e] w2] eqn:Hwrite; [|done].
    apply IH in H as (-> & Hv & fs & bytes' & pings & rest & Hc & Hs & Hin' & Ha). split; [done|]. split; [done|].
    exists (f :: fs), (bytes ++ bytes'), (payload f :: pings), rest.
    pose proof (write_frame_in 10 (payload f) mo w1 rest) as [Hwr Hwi]. rewrite Hwrite in Hwr, Hwi. cbn in Hwr, Hwi.
    split_and!; [by apply conv_ping|by apply spelled_cons|by rewrite Hin, <- Hwi, Hin', app_assoc|].
    cbn [answer]. apply WM_bind_Ok. exists tt, (with_in rest w2). split; [|done].
    rewrite Hw1 in Hwr. exact Hwr.
  - apply IH in H as (-> & Hv & fs & bytes' & pings & rest & Hc & Hs & Hin' & Ha). split; [done|]. split; [done|].
    exists (f :: fs), (bytes ++ bytes'), pings, rest.
    split_and!; [by eapply conv_pong|by apply spelled_cons|by rewrite Hin, Hin', app_assoc|].
    rewrite Hw1 in Ha. exact Ha.
Qed.

Lemma admitted_room maximum message f :
  len message ≤ maximum → admitted (maximum - len message) f → len (message ++ payload f) ≤ maximum.
Proof. intros Hm [Hl _]. rewrite len_app. lia. Qed.

Lemma receive_loop_complete mo maximum message fragmented fs text pings :
  conversation maximum message fragmented fs (string_bytes text) pings →
  utf8_valid (string_bytes text) = true → len message ≤ maximum →
  ∀ fuel w bytes rest w', (length fs < fuel)%nat → spelled (negb mo) fs bytes → incoming w = bytes ++ rest →
  answer mo pings (with_in rest w) = (Ok tt, w') →
  receive_loop fuel mo maximum message fragmented w = Some (Ok text, false, w').
Proof.
  remember (string_bytes text) as t eqn:Ht. intros Hc Hv. revert Ht.
  induction Hc as [message fragmented f Hd Hf Hadm|message fragmented f fs t pings Hd Hf Hadm Hc IH
    |message fragmented f fs t pings H9 Hadm Hc IH|message fragmented f fs t pings H10 Hadm Hc IH];
    intros Ht Hm [|fuel] w bytes rest w' Hfuel Hs Hin Ha; try (cbn in Hfuel; lia);
    apply spelled_cons_inv in Hs as (b & bytes' & -> & Hb & Hs);
    rewrite <- app_assoc in Hin;
    assert (read_frame (negb mo) (maximum - len message) w = (Ok f, with_in (bytes' ++ rest) w)) as Hread
      by (apply read_frame_Ok; exists b; split_and!; try done; by apply same_out_with_in);
    rewrite receive_loop_step, Hread.
  - rewrite Hd, Hf. cbv zeta. rewrite (proj2 (N.ltb_ge _ _)) by by apply admitted_room.
    destruct Hs as (pieces & Hp & ->). inversion Hp; subst. injection Ha as <-.
    by rewrite Ht, from_utf8_bytes by (by rewrite <- Ht).
  - rewrite Hd, Hf. cbv zeta. rewrite (proj2 (N.ltb_ge _ _)) by by apply admitted_room.
    eapply IH; [done|done|by apply admitted_room|cbn in Hfuel; lia|exact Hs|done|exact Ha].
  - unfold is_data. rewrite H9. replace (9 =? _) with false by (by destruct fragmented). cbn [N.eqb].
    cbn [answer] in Ha. apply WM_bind_Ok in Ha as ([] & w1 & Hw & Ha).
    destruct (write_frame_in 10 (payload f) mo w rest) as [Hwr Hwi]. rewrite Hwr in Hw. simplify_eq.
    destruct (write_frame_in 10 (payload f) mo w (bytes' ++ rest)) as [-> _].
    destruct (write_frame 10 (payload f) mo w) as [r w1]. cbn in *. simplify_eq. cbn.
    eapply IH; [done|done|done|lia|exact Hs|done|exact Ha].
  - unfold is_data. rewrite H10. replace (10 =? _) with false by (by destruct fragmented). cbn [N.eqb].
    eapply IH; [done|done|done|cbn in Hfuel; lia|exact Hs|done|exact Ha].
Qed.

Lemma receive_loop_total fuel mo maximum message fragmented w :
  (length (incoming w) < fuel)%nat → is_Some (receive_loop fuel mo maximum message fragmented w).
Proof.
  revert message fragmented w. induction fuel as [|fuel IH]; intros message fragmented w Hfuel; [lia|].
  rewrite receive_loop_step. destruct (read_frame _ _ w) as [[f|e] w1] eqn:Hread; [|by eexists].
  apply read_frame_in in Hread as (bytes & Hf%wire_frame_length & _ & Hin & _).
  rewrite Hin, length_app in Hfuel. cbv zeta.
  destruct (write_frame_in 10 (payload f) mo w1 []) as [_ Hwi].
  destruct (write_frame 10 (payload f) mo w1) as [r w2]. cbn in Hwi.
  repeat case_match; try (by eexists); apply IH; rewrite ?Hwi; lia.
Qed.

Lemma spelled_length masked fs bytes : spelled masked fs bytes → (length fs ≤ length bytes)%nat.
Proof.
  intros (pieces & Hp & ->). induction Hp as [|f b fs pieces Hf _ IH]; [done|]. cbn.
  apply wire_frame_length in Hf. rewrite length_app. lia.
Qed.

(** C16: receiving a message always returns, and returns a text exactly when the
    bytes from the peer begin with frames that spell it: fragments that start
    with a text frame and go on with continuation frames until the last one,
    with pings and pongs between them, within the limits on lengths, and valid
    UTF-8 as a whole; every ping has been answered with its payload, in order,
    and the rest of the bytes is left for the next message. *)
Theorem receive_exact mask_outgoing maximum w :
  is_Some (receive_message mask_outgoing maximum w) ∧
  ∀ text c w', receive_message mask_outgoing maximum w = Some (Ok text, c, w') ↔
    c = false ∧ utf8_valid (string_bytes text) = true ∧
    ∃ fs bytes pings rest, conversation maximum [] false fs (string_bytes text) pings ∧
      spelled (negb mask_outgoing) fs bytes ∧ incoming w = bytes ++ rest ∧
      answer mask_outgoing pings (with_in rest w) = (Ok tt, w').
Proof.
  split; [apply receive_loop_total; lia|]. intros text c w'. split; [apply receive_loop_sound|].
  intros (-> & Hv & fs & bytes & pings & rest & Hc & Hs & Hin & Ha).
  eapply receive_loop_complete; [exact Hc|done|rewrite len_nil; lia| |exact Hs|exact Hin|exact Ha].
  apply spelled_length in Hs. rewrite Hin, length_app. lia.
Qed.

(** ** What is sent is received *)

Lemma lor_high opcode : opcode < 16 → N.lor 0x80 opcode = 128 + opcode.
Proof. intros H. apply N.eqb_eq. by apply (below 16 (λ o, N.lor 0x80 o =? 128 + o)). Qed.

Lemma lor_short n : n < 128 → N.lor 0x80 n = 128 + n.
Proof. intros H. apply N.eqb_eq. by apply (below 128 (λ o, N.lor 0x80 o =? 128 + o)). Qed.

(** The writer chooses a form for the length that holds it. *)
Lemma frame_head_form opcode masked n :
  opcode < 16 → n ≤ u64_max →
  ∃ short extended, length_form n short extended ∧
    frame_head opcode masked n =
    byte_of_N (128 + opcode) :: byte_of_N ((if masked then 128 else 0) + short) :: extended.
Proof.
  intros Ho Hn. unfold frame_head. rewrite lor_high by done. unfold u64_max in Hn.
  destruct (N.leb_spec n 125) as [H1|H1]; [|destruct (N.leb_spec n 65535) as [H2|H2]].
  - exists n, []. split; [by constructor|]. destruct masked; [rewrite lor_short by lia|]; done.
  - exists 126, (to_be_bytes 2 n). split; [|by destruct masked].
    apply form_medium; [apply length_to_be_bytes|]. apply from_to_be_bytes. cbn. lia.
  - exists 127, (to_be_bytes 8 n). split; [|by destruct masked].
    apply form_long; [apply length_to_be_bytes|]. apply from_to_be_bytes. cbn. lia.
Qed.

Lemma write_frame_wire o p masked w w' :
  o < 16 → len p ≤ u64_max → write_frame o p masked w = (Ok tt, w') →
  ∃ bytes, wire_frame masked (mkFrame true o p) bytes ∧ outgoing w' = outgoing w ++ bytes.
Proof.
  intros Ho Hp. destruct (frame_head_form o masked (len p) Ho Hp) as (short & extended & Hf & Hh).
  unfold write_frame. rewrite Hh. destruct masked.
  - rewrite WM_bind_Ok. intros (mask & w1 & Hfill & [= <-]). unfold fill in Hfill.
    destruct (N.leb_spec 4 (len (entropy w))) as [Hle|]; [|done]. injection Hfill as <- <-. cbn.
    eexists. split; [|reflexivity].
    apply (wire_frame_intro true (mkFrame true o p) short extended (take 4 (entropy w)) Ho Hf).
    rewrite length_take. unfold len in Hle. lia.
  - intros [= <-]. cbn. eexists. split; [|reflexivity].
    by apply (wire_frame_intro false (mkFrame true o p) short extended [] Ho Hf).
Qed.

(** C17: a text that was sent is received by the other end, which masks the
    other way, when its limit admits the text, and nothing else is taken from
    the connection. *)
Theorem text_roundtrip message s w w' maximum s' rest out ent down :
  utf8_valid (string_bytes message) = true → closed s' = false →
  mask_outgoing s' = negb (mask_outgoing s) → 0 < maximum ≤ MAX_MESSAGE → str_len message ≤ maximum →
  send_text message s w = (Ok tt, w') →
  ∃ bytes, outgoing w' = outgoing w ++ bytes ∧
    receive_text maximum s' (mkWire (bytes ++ rest) out ent down)
      = Some (Ok message, s', mkWire rest out ent down).
Proof.
  intros Hv Hc' Hm Hmax Hlen Hsend. unfold send_text in Hsend.
  destruct (closed s); [done|]. destruct (MAX_MESSAGE <? _); [done|]. unfold MAX_MESSAGE, str_len in *.
  apply write_frame_wire in Hsend as (bytes & Hf & Ho); [|done|unfold u64_max; lia].
  exists bytes. split; [done|]. unfold receive_text, MAX_MESSAGE. rewrite Hc'.
  rewrite (proj2 (N.eqb_neq _ _)), (proj2 (N.ltb_ge _ _)) by lia. cbn [orb].
  replace (receive_message _ _ _) with (Some (Ok (E := string) message, false, mkWire rest out ent down)).
  { cbn. destruct s' as [m' c']. cbn in *. by subst. }
  symmetry. apply (receive_loop_complete _ _ [] false [mkFrame true 1 (string_bytes message)] message [])
    with (bytes := bytes) (rest := rest); [|done|rewrite len_nil; lia| | |done|done].
  - apply (conv_last _ [] false (mkFrame true 1 (string_bytes message))); [done|done|].
    split; cbn; [rewrite len_nil; lia|lia].
  - apply wire_frame_length in Hf. cbn. rewrite length_app. lia.
  - rewrite <- (app_nil_r bytes). apply spelled_cons; [|by exists []]. by rewrite Hm, negb_involutive.
Qed.

(** ** A frame beyond the limit *)

(** A text frame of eleven bytes, masked with [81 82 00 00]. *)
Definition smuggling_frame : Frame :=
  mkFrame true 1 (apply_mask (map byte_of_N [0x81; 0x82; 0; 0]) (map byte_of_N [0; 0; 104; 105; 0; 0; 0; 0; 0; 0; 0])).
Definition smuggling_bytes : list byte :=
  map byte_of_N [0x81; 0x8b; 0x81; 0x82; 0; 0; 0; 0; 104; 105; 0; 0; 0; 0; 0; 0; 0].

(** C18: a frame beyond the receive limit is refused when only its head has been
    read, and the socket stays open: the next call reads the mask and the
    payload of the refused frame as a frame of its own, and returns a text that
    the peer has hidden in it. *)
Theorem oversized_frame_smuggles :
  wire_frame true smuggling_frame smuggling_bytes ∧
  let s := mkSocket false false in
  ∃ w1 w2, receive_text 5 s (mkWire smuggling_bytes [] [] false)
             = Some (Err "WebSocket frame exceeds receive limit", s, w1) ∧
    receive_text 5 s w1 = Some (Ok "hi", s, w2).
Proof.
  split.
  - apply (wire_frame_intro true smuggling_frame 11 [] (map byte_of_N [0x81; 0x82; 0; 0])); [done| |done].
    by apply form_short.
  - exists (mkWire (drop 2 smuggling_bytes) [] [] false), (mkWire (drop 10 smuggling_bytes) [] [] false).
    split; vm_compute; reflexivity.
Qed.

Lemma text_roundtrip_witness :
  ∃ bytes, outgoing (send_text "hello" (mkSocket true false) (mkWire [] [] (map byte_of_N [1; 2; 3; 4]) false)).2
      = bytes ∧
    receive_text 5 (mkSocket false false) (mkWire (bytes ++ []) [] [] false)
      = Some (Ok "hello", mkSocket false false, mkWire [] [] [] false).
Proof.
  destruct (text_roundtrip "hello" (mkSocket true false) (mkWire [] [] (map byte_of_N [1; 2; 3; 4]) false)
    (send_text "hello" (mkSocket true false) (mkWire [] [] (map byte_of_N [1; 2; 3; 4]) false)).2
    5 (mkSocket false false) [] [] [] false) as (bytes & Ho & Hr); [vm_compute; done..|].
  by exists bytes.
Defined.

(** The limit on the message is applied to the pings between its frames: a ping
    of six bytes before a text of five is refused. *)
Lemma ping_counts_against_limit :
  let ping := map byte_of_N [0x89; 0x86; 0; 0; 0; 0; 1; 2; 3; 4; 5; 6] in
  let text := map byte_of_N [0x81; 0x85; 0; 0; 0; 0; 104; 101; 108; 108; 111] in
  (λ r, fst (fst r)) <$> receive_text 5 (mkSocket false false) (mkWire text [] [] false) = Some (Ok "hello") ∧
  (λ r, fst (fst r)) <$> receive_text 5 (mkSocket false false) (mkWire (ping ++ text) [] [] false)
    = Some (Err "WebSocket frame exceeds receive limit").
Proof. split; vm_compute; reflexivity. Qed.
