(* ===== verification/WsHandshake.v ===== *)
(** * The WebSocket handshake

    The rest of src/src/websocket.rs: base64, the headers, the request and the
    response that open a connection.  Header text is a list of characters. *)
From S2P Require Import Prelude Ast Text Strs WebSocket.
Open Scope list_scope.

(** ** Base64 *)

(** [ALPHABET] *)
Definition ALPHABET : list char :=
  ascii_chars "ABCDEFGHIJKLMNOPQRSTUVWXYZabcdefghijklmnopqrstuvwxyz0123456789+/".

(** [bytes.chunks(3)] and [value.chunks(4)] *)
Fixpoint chunks3 {A} (l : list A) : list (list A) :=
  match l with
  | a :: b :: c :: l => [a; b; c] :: chunks3 l
  | [] => []
  | l => [l]
  end.
Fixpoint chunks4 {A} (l : list A) : list (list A) :=
  match l with
  | a :: b :: c :: d :: l => [a; b; c; d] :: chunks4 l
  | [] => []
  | l => [l]
  end.

(** [ALPHABET[index] as char] *)
Definition sextet (index : N) : char := nth (N.to_nat index) ALPHABET 0.

(** One turn of the loop of [base64]. *)
Definition base64_chunk (chunk : list byte) : list char :=
  let at_ i := Byte.to_N (nth i chunk Byte.x00) in
  let value := N.lor (N.lor (N.shiftl (at_ 0%nat) 16) (N.shiftl (at_ 1%nat) 8)) (at_ 2%nat) in
  [sextet (N.land (N.shiftr value 18) 63);
   sextet (N.land (N.shiftr value 12) 63);
   if (1 <? length chunk)%nat then sextet (N.land (N.shiftr value 6) 63) else ch "=";
   if (2 <? length chunk)%nat then sextet (N.land value 63) else ch "="].

(** [base64] *)
Definition base64 (bytes : list byte) : list char := chunks3 bytes ≫= base64_chunk.

(** The [match] of [decode_base64]. *)
Definition decode_sextet (b : byte) : option N :=
  let c := Byte.to_N b in
  if (65 <=? c) && (c <=? 90) then Some (c - 65)
  else if (97 <=? c) && (c <=? 122) then Some (c - 97 + 26)
  else if (48 <=? c) && (c <=? 57) then Some (c - 48 + 52)
  else if c =? ch "+" then Some 62
  else if c =? ch "/" then Some 63
  else if c =? ch "=" then Some 0
  else None.

(** One turn of the loop of [decode_base64]: the chunks have four bytes. *)
Definition decode_chunk (chunk : list byte) : option (list byte) :=
  parts ← mapM decode_sextet chunk;
  let at_ i := nth i parts 0 in
  let value := N.lor (N.lor (N.lor (N.shiftl (at_ 0%nat) 18) (N.shiftl (at_ 1%nat) 12))
                            (N.shiftl (at_ 2%nat) 6)) (at_ 3%nat) in
  let is_padding i := Byte.to_N (nth i chunk Byte.x00) =? ch "=" in
  Some ([byte_of_N (N.shiftr value 16)]
        ++ (if is_padding 2%nat then [] else [byte_of_N (N.shiftr value 8)])
        ++ (if is_padding 3%nat then [] else [byte_of_N value])).

(** [decode_base64] *)
Definition decode_base64 (value : list byte) : option (list byte) :=
  if negb (len value mod 4 =? 0) then None
  else @concat byte <$> mapM decode_chunk (chunks4 value).

(** ** Headers *)

Definition crlf : list char := [carriage_return; newline].

(** [bytes.ends_with(b"\r\n\r\n")] *)
Definition ends_headers (bytes : list byte) : bool :=
  bool_decide (drop (length bytes - 4) bytes = as_bytes (crlf ++ crlf)).

(** The loop of [read_headers], by the bytes the peer has sent. *)
Fixpoint header_bytes (bytes incoming : list byte) : result string (list byte) * list byte :=
  if ends_headers bytes then (Ok bytes, incoming)
  else if 64 * 1024 <=? len bytes then (Err "WebSocket handshake headers exceed 64 KiB", incoming)
  else match incoming with
       | [] => (Err "failed to fill whole buffer", [])
       | b :: incoming => header_bytes (bytes ++ [b]) incoming
       end.

(** [read_headers] *)
Definition read_headers : WM (list char) := λ w,
  let '(r, rest) := header_bytes [] (incoming w) in
  (bytes ← r;
   let head := take (length bytes - 4) bytes in
   if utf8_valid head then Ok (decode_utf8 head) else Err "WebSocket handshake is not UTF-8",
   mkWire rest (outgoing w) (entropy w) (shut w)).

(** [str::split] with a pattern of two characters. *)
Fixpoint split_pair (a b : char) (l : list char) : list (list char) :=
  match l with
  | [] => [[]]
  | c :: l' =>
      match l' with
      | d :: l'' =>
          if (c =? a) && (d =? b) then [] :: split_pair a b l''
          else match split_pair a b l' with
               | part :: parts => (c :: part) :: parts
               | [] => [[c]]
               end
      | [] => [[c]]
      end
  end.
Definition split_lines : list char → list (list char) := split_pair carriage_return newline.

(** [str::split_whitespace] *)
Fixpoint split_white (word : list char) (l : list char) : list (list char) :=
  match l with
  | [] => if bool_decide (word = []) then [] else [word]
  | c :: l =>
      if is_white c then (if bool_decide (word = []) then [] else [word]) ++ split_white [] l
      else split_white (word ++ [c]) l
  end.
Definition split_whitespace : list char → list (list char) := split_white [].

(** [char::to_ascii_lowercase] *)
Definition ascii_lower (c : char) : char := if (65 <=? c) && (c <=? 90) then c + 32 else c.
Definition to_ascii_lowercase : list char → list char := map ascii_lower.

Notation Headers := (gmap (list N) (list N)).

(** [parse_headers] *)
Fixpoint parse_headers (lines : list (list char)) (headers : Headers) : result string Headers :=
  match lines with
  | [] => Ok headers
  | line :: lines =>
      '(name, value) ← ok_or "invalid WebSocket response header" (split_once (ch ":") line);
      parse_headers lines (<[to_ascii_lowercase name := trim value]> headers)
  end.

(** [require_token] *)
Definition has_token (headers : Headers) (name token : string) : bool :=
  match headers !! ascii_chars name with
  | Some value =>
      existsb (λ part, bool_decide (to_ascii_lowercase (trim part) = to_ascii_lowercase (ascii_chars token)))
        (split_char (ch ",") value)
  | None => false
  end.
Definition require_token (headers : Headers) (name token : string) : result string unit :=
  if has_token headers name token then Ok tt
  else Err ("WebSocket handshake needs " +:+ name +:+ ": " +:+ token).

(** ** Opening a connection *)

Section handshake.
(** The digest SHA-1 of the package ring. *)
Context (sha1 : list byte → list byte).

(** [accept_key] *)
Definition accept_key (key : list char) : list char := base64 (sha1 (as_bytes (key ++ GUID))).

Definition lift_result {A} (r : result string A) : WM A := λ w, (r, w).

(** [format!] of the request and of the response. *)
Definition request_text (path host key : list char) : list char :=
  ascii_chars "GET " ++ path ++ ascii_chars " HTTP/1.1" ++ crlf
  ++ ascii_chars "Host: " ++ host ++ crlf
  ++ ascii_chars "Upgrade: websocket" ++ crlf
  ++ ascii_chars "Connection: Upgrade" ++ crlf
  ++ ascii_chars "Sec-WebSocket-Key: " ++ key ++ crlf
  ++ ascii_chars "Sec-WebSocket-Version: 13" ++ crlf ++ crlf.
Definition response_text (accept : list char) : list char :=
  ascii_chars "HTTP/1.1 101 Switching Protocols" ++ crlf
  ++ ascii_chars "Upgrade: websocket" ++ crlf
  ++ ascii_chars "Connection: Upgrade" ++ crlf
  ++ ascii_chars "Sec-WebSocket-Accept: " ++ accept ++ crlf ++ crlf.

(** [value.contains(['\r', '\n'])] *)
Definition breaks_line (l : list char) : bool := existsb (λ c, (c =? carriage_return) || (c =? newline)) l.

(** [WebSocket::connect_transport] *)
Definition connect_transport (host path : list char) : WM Socket :=
  if bool_decide (host = []) || breaks_line host || negb (starts_with [ch "/"] path) || breaks_line path
  then refuse "invalid WebSocket host or path"
  else
    nonce ← fill 16 "could not create a WebSocket handshake key";
    let key := base64 nonce in
    _ ← write_all (as_bytes (request_text path host key));
    response ← read_headers;
    match split_lines response with
    | [] => refuse "WebSocket response has no status"
    | status :: lines =>
        if negb (starts_with (ascii_chars "HTTP/1.1 101 ") status)
        then refuse ("WebSocket upgrade was rejected: " +:+ str_of_chars status)
        else
          headers ← lift_result (parse_headers lines ∅);
          _ ← lift_result (require_token headers "upgrade" "websocket");
          _ ← lift_result (require_token headers "connection" "upgrade");
          if bool_decide (headers !! ascii_chars "sec-websocket-accept" = Some (accept_key key))
          then mret (mkSocket true false)
          else refuse "WebSocket server returned the wrong accept key"
    end.

(** [WebSocket::accept_transport] *)
Definition accept_transport (method : list char) (headers : Headers) : WM Socket :=
  if negb (bool_decide (method = ascii_chars "GET")) then refuse "WebSocket upgrade needs a GET request"
  else
    _ ← lift_result (require_token headers "upgrade" "websocket");
    _ ← lift_result (require_token headers "connection" "upgrade");
    if negb (bool_decide (headers !! ascii_chars "sec-websocket-version" = Some (ascii_chars "13")))
    then refuse "WebSocket upgrade needs version 13"
    else
      match headers !! ascii_chars "sec-websocket-key" with
      | None => refuse "WebSocket request has no key"
      | Some key =>
          match decode_base64 (as_bytes key) with
          | Some value =>
              if len value =? 16 then
                _ ← write_all (as_bytes (response_text (accept_key key)));
                mret (mkSocket false false)
              else refuse "WebSocket request key is invalid"
          | None => refuse "WebSocket request key is invalid"
          end
      end.

(** [WebSocket::accept_tls_request] *)
Definition accept_tls_request : WM Socket :=
  request ← read_headers;
  match split_lines request with
  | [] => refuse "WebSocket request has no request line"
  | request_line :: lines =>
      match split_whitespace request_line with
      | [method; path; version] =>
          if negb (starts_with [ch "/"] path)
             || negb (bool_decide (version = ascii_chars "HTTP/1.0")
                      || bool_decide (version = ascii_chars "HTTP/1.1"))
          then refuse "invalid WebSocket request line"
          else
            headers ← lift_result (parse_headers lines ∅);
            accept_transport method headers
      | _ => refuse "invalid WebSocket request line"
      end
  end.
End handshake.
