(* ===== verification/WsHandshakeOk.v ===== *)
(** * The handshake completes

    Base64 is read back, and a client and a server of [WsHandshake] that talk to
    each other open the connection, whatever the digest; the server's check of
    the key takes padding anywhere. *)
From Stdlib Require Import ZifyN.
From S2P Require Import Prelude Ast Values Text Strs Utf8 WebSocket WebSocketOk WsHandshake.
Open Scope list_scope.
Ltac Zify.zify_post_hook ::= Z.to_euclidean_division_equations.

(** ** Base64 *)

(** Disjoint bits add up. *)
Lemma lor_shift x k y : y < 2 ^ k → N.lor (N.shiftl x k) y = x * 2 ^ k + y.
Proof.
  intros Hy. assert (N.land (N.shiftl x k) y = 0) as Hd.
  { apply N.bits_inj. intros i. rewrite N.land_spec, N.bits_0.
    destruct (N.lt_ge_cases i k); [by rewrite N.shiftl_spec_low|].
    rewrite <- (N.mod_small y (2 ^ k)), N.mod_pow2_bits_high by done. apply andb_false_r. }
  rewrite <- (N.lxor_lor _ _ Hd), <- (N.add_nocarry_lxor _ _ Hd). by rewrite N.shiftl_mul_pow2.
Qed.

(** A character of the alphabet, as a byte. *)
Definition sextet_byte (i : N) : byte := byte_of_N (sextet i).

Lemma sextet_decodes i :
  i < 64 → decode_sextet (sextet_byte i) = Some i ∧ Byte.to_N (sextet_byte i) =? ch "=" = false ∧
    encode_utf8 (sextet i) = [sextet_byte i].
Proof.
  intros Hi. pose (p i := bool_decide (decode_sextet (sextet_byte i) = Some i) &&
    negb (Byte.to_N (sextet_byte i) =? ch "=") && bool_decide (encode_utf8 (sextet i) = [sextet_byte i])).
  assert (p i = true) as Hp by (apply (below 64); [by vm_compute|done]). unfold p in Hp.
  rewrite !andb_true_iff, !bool_decide_eq_true, negb_true_iff in Hp. tauto.
Qed.

(** The four numbers a chunk is spelled with. *)
Definition padding : byte := byte_of_N (ch "=").
Lemma padding_decodes : decode_sextet padding = Some 0 ∧ encode_utf8 (ch "=") = [padding] ∧
  Byte.to_N padding =? ch "=" = true.
Proof. by vm_compute. Qed.

Lemma land63 n : N.land n 63 < 64.
Proof. rewrite (N.land_ones n 6 : N.land n 63 = _). by apply N.mod_upper_bound. Qed.

(** Three bytes and their number. *)
Definition word (a b c : byte) : N :=
  N.lor (N.lor (N.shiftl (Byte.to_N a) 16) (N.shiftl (Byte.to_N b) 8)) (Byte.to_N c).

Lemma word_sum a b c : word a b c = Byte.to_N a * 65536 + Byte.to_N b * 256 + Byte.to_N c.
Proof.
  pose proof (byte_to_N_bound a). pose proof (byte_to_N_bound b). pose proof (byte_to_N_bound c).
  unfold word. rewrite lor_shift by (rewrite N.shiftl_mul_pow2; cbn; lia).
  rewrite N.shiftl_mul_pow2. change (2 ^ 16) with 65536. change (2 ^ 8) with 256.
  replace (Byte.to_N a * 65536 + Byte.to_N b * 256) with (N.shiftl (Byte.to_N a * 256 + Byte.to_N b) 8)
    by (rewrite N.shiftl_mul_pow2; cbn; lia).
  rewrite lor_shift by done. rewrite N.shiftl_mul_pow2. cbn. lia.
Qed.

(** Four sextets and their number. *)
Lemma sextets_sum p q r s :
  q < 64 → r < 64 → s < 64 →
  N.lor (N.lor (N.lor (N.shiftl p 18) (N.shiftl q 12)) (N.shiftl r 6)) s = p * 262144 + q * 4096 + r * 64 + s.
Proof.
  intros Hq Hr Hs. rewrite lor_shift by (rewrite N.shiftl_mul_pow2; cbn; lia).
  replace (p * 2 ^ 18 + N.shiftl q 12) with (N.shiftl (p * 64 + q) 12) by (rewrite !N.shiftl_mul_pow2; cbn; lia).
  rewrite lor_shift by (rewrite N.shiftl_mul_pow2; cbn; lia).
  replace ((p * 64 + q) * 2 ^ 12 + N.shiftl r 6) with (N.shiftl ((p * 64 + q) * 64 + r) 6)
    by (rewrite !N.shiftl_mul_pow2; cbn; lia).
  rewrite lor_shift by (cbn; lia). cbn. lia.
Qed.

Lemma split_word w :
  w < 16777216 →
  N.land (N.shiftr w 18) 63 * 262144 + N.land (N.shiftr w 12) 63 * 4096 + N.land (N.shiftr w 6) 63 * 64
    + N.land w 63 = w.
Proof. intros Hw. bits_to_arith. change (2 ^ 6) with 64. lia. Qed.

(** The bytes a word holds. *)
Lemma word_bytes a b c :
  word a b c < 16777216 ∧ byte_of_N (N.shiftr (word a b c) 16) = a ∧ byte_of_N (N.shiftr (word a b c) 8) = b ∧
  byte_of_N (word a b c) = c.
Proof.
  pose proof (byte_to_N_bound a). pose proof (byte_to_N_bound b). pose proof (byte_to_N_bound c).
  rewrite word_sum. split; [lia|]. rewrite !N.shiftr_div_pow2. change (2 ^ 16) with 65536. change (2 ^ 8) with 256.
  split_and!; apply byte_to_N_inj; rewrite byte_of_N_to_N; lia.
Qed.

Lemma base64_chunk_roundtrip chunk :
  (1 ≤ length chunk ≤ 3)%nat →
  ∃ b0 b1 b2 b3, as_bytes (base64_chunk chunk) = [b0; b1; b2; b3] ∧ decode_chunk [b0; b1; b2; b3] = Some chunk.
Proof.
  destruct padding_decodes as (Hpd & Hpe & Hpp).
  destruct chunk as [|a [|b [|c [|]]]]; cbn [length]; try lia; intros _; unfold base64_chunk; cbn [nth length Nat.ltb Nat.leb];
    match goal with |- context [N.lor (N.lor (N.shiftl (Byte.to_N ?x) 16) (N.shiftl (Byte.to_N ?y) 8)) (Byte.to_N ?z)] =>
      change (N.lor (N.lor (N.shiftl (Byte.to_N x) 16) (N.shiftl (Byte.to_N y) 8)) (Byte.to_N z)) with (word x y z);
      destruct (word_bytes x y z) as (Hw & Ha & Hb & Hc); pose proof (word_sum x y z) as Hsum; set (w := word x y z) in *
    end;
    pose proof (split_word w Hw) as Hsplit;
    destruct (sextet_decodes _ (land63 (N.shiftr w 18))) as (Hd0 & Hn0 & He0);
    destruct (sextet_decodes _ (land63 (N.shiftr w 12))) as (Hd1 & Hn1 & He1);
    destruct (sextet_decodes _ (land63 (N.shiftr w 6))) as (Hd2 & Hn2 & He2);
    destruct (sextet_decodes _ (land63 w)) as (Hd3 & Hn3 & He3);
    unfold as_bytes; cbn [mbind list_bind]; rewrite He0, He1, ?He2, ?He3, ?Hpe; eexists _, _, _, _; (split; [done|]);
    unfold decode_chunk; cbn [mapM mbind option_bind nth]; rewrite Hd0; cbn [mbind option_bind]; rewrite Hd1;
    cbn [mbind option_bind]; rewrite ?Hd2, ?Hpd; cbn [mbind option_bind]; rewrite ?Hd3, ?Hpd; cbn [mbind option_bind mret option_ret nth];
    rewrite ?Hn2, ?Hn3, ?Hpp, sextets_sum by (apply land63 || done).
  - assert (N.land (N.shiftr w 6) 63 = 0 ∧ N.land w 63 = 0) as [E1 E2].
    { rewrite Hsum. change (Byte.to_N Byte.x00) with 0. bits_to_arith. change (2 ^ 6) with 64. lia. }
    rewrite E1, E2 in Hsplit. rewrite Hsplit. cbn. by rewrite Ha.
  - assert (N.land w 63 = 0) as E2.
    { rewrite Hsum. change (Byte.to_N Byte.x00) with 0. bits_to_arith. lia. }
    rewrite E2 in Hsplit. rewrite Hsplit. cbn. by rewrite Ha, Hb.
  - rewrite Hsplit. cbn. by rewrite Ha, Hb, Hc.
Qed.

Lemma chunks3_spec {A} (l : list A) :
  concat (chunks3 l) = l ∧ Forall (λ chunk, (1 ≤ length chunk ≤ 3)%nat) (chunks3 l).
Proof.
  remember (length l) as n eqn:Hn. revert l Hn. induction (lt_wf n) as [n _ IH]. intros l ->.
  destruct l as [|a [|b [|c l]]]; cbn [chunks3 concat]; [by split| | |].
  - split; [done|]. constructor; [cbn; lia|done].
  - split; [done|]. constructor; [cbn; lia|done].
  - destruct (IH (length l)) with (l := l) as [Hc Hf]; [cbn; lia|done|].
    split; [by rewrite Hc|]. constructor; [cbn; lia|done].
Qed.

Lemma chunks4_cons {A} (a b c d : A) l : chunks4 (a :: b :: c :: d :: l) = [a; b; c; d] :: chunks4 l.
Proof. done. Qed.

Lemma as_bytes_app l k : as_bytes (l ++ k) = as_bytes l ++ as_bytes k.
Proof.
  induction l as [|c l IH]; [done|].
  change (encode_utf8 c ++ as_bytes (l ++ k) = (encode_utf8 c ++ as_bytes l) ++ as_bytes k).
  by rewrite IH, app_assoc.
Qed.

Lemma decode_chunks chunks :
  Forall (λ chunk, (1 ≤ length chunk ≤ 3)%nat) chunks →
  len (as_bytes (chunks ≫= base64_chunk)) mod 4 = 0 ∧
  mapM decode_chunk (chunks4 (as_bytes (chunks ≫= base64_chunk))) = Some chunks.
Proof.
  induction 1 as [|chunk chunks Hc _ [IHl IH]]; [done|].
  destruct (base64_chunk_roundtrip chunk Hc) as (b0 & b1 & b2 & b3 & He & Hd).
  assert (as_bytes ((chunk :: chunks) ≫= base64_chunk) =
    b0 :: b1 :: b2 :: b3 :: as_bytes (chunks ≫= base64_chunk)) as ->.
  { change ((chunk :: chunks) ≫= base64_chunk) with (base64_chunk chunk ++ (chunks ≫= base64_chunk)).
    by rewrite as_bytes_app, He. }
  split; [rewrite !len_cons; lia|].
  rewrite chunks4_cons. cbn [mapM]. rewrite Hd. cbn [mbind option_bind]. by rewrite IH.
Qed.

(** Decoding gives the bytes that were encoded. *)
Lemma base64_decodes bytes : decode_base64 (as_bytes (base64 bytes)) = Some bytes.
Proof.
  destruct (chunks3_spec bytes) as [Hc Hf]. destruct (decode_chunks _ Hf) as [Hl Hm].
  unfold decode_base64, base64. rewrite Hl. cbn [N.eqb negb]. rewrite Hm. cbn. by rewrite Hc.
Qed.

(** ** Characters and bytes *)

Definition LF : byte := byte_of_N newline.

Lemma encode_no_newline c : scalar c → c ≠ newline → LF ∉ encode_utf8 c.
Proof.
  unfold newline. intros [Hs _] Hc Hin. unfold encode_utf8 in Hin.
  assert (∀ n, n < 256 → LF = byte_of_N n → n = 10) as Hn.
  { intros n Hn Heq. apply (f_equal Byte.to_N) in Heq. by rewrite !byte_of_N_small in Heq by (done || cbn; lia). }
  destruct (N.ltb_spec c 0x80); [|destruct (N.ltb_spec c 0x800); [|destruct (N.ltb_spec c 0x10000)]];
    revert Hin; rewrite ?elem_of_cons, elem_of_nil; bits_to_arith; intros Hin; destruct_or?; try done;
    apply Hn in Hin; lia.
Qed.

(** A line of header text. *)
Definition line_ok (l : list char) : Prop :=
  Forall (λ c, scalar c ∧ c ≠ newline ∧ c ≠ carriage_return) l ∧ l ≠ [].

Lemma line_no_newline l : line_ok l → LF ∉ as_bytes l.
Proof.
  intros [Hl _]. induction Hl as [|c l (Hs & Hn & _) _ IH]; [apply not_elem_of_nil|].
  change (as_bytes (c :: l)) with (encode_utf8 c ++ as_bytes l). rewrite elem_of_app.
  intros [Hin|Hin]; [by apply (encode_no_newline c)|done].
Qed.

Lemma as_bytes_nonempty l : l ≠ [] → as_bytes l ≠ [].
Proof.
  destruct l as [|c l]; [done|]. intros _. change (as_bytes (c :: l)) with (encode_utf8 c ++ as_bytes l).
  unfold encode_utf8. by repeat case_match.
Qed.

(** ** Reading headers *)

Definition CRLF : list byte := as_bytes crlf.

Lemma ends_headers_app bytes : ends_headers (bytes ++ CRLF ++ CRLF) = true.
Proof.
  unfold ends_headers. apply bool_decide_eq_true.
  rewrite length_app. change (length (CRLF ++ CRLF)) with 4%nat. rewrite Nat.add_sub, drop_app_length. done.
Qed.

(** Headers end with two line breaks. *)
Lemma ends_headers_inv bytes : ends_headers bytes = true → ∃ pre, bytes = pre ++ CRLF ++ CRLF.
Proof.
  unfold ends_headers. intros H%bool_decide_eq_true. exists (take (length bytes - 4) bytes).
  rewrite <- (take_drop (length bytes - 4) bytes) at 1. by rewrite H.
Qed.

Lemma ends_headers_snoc bytes b : b ≠ LF → ends_headers (bytes ++ [b]) = false.
Proof.
  intros Hb. apply not_true_iff_false. intros (pre & Hp)%ends_headers_inv.
  change (CRLF ++ CRLF) with ((CRLF ++ [byte_of_N carriage_return]) ++ [LF]) in Hp. rewrite app_assoc in Hp.
  by apply app_inj_tail in Hp as [_ ?].
Qed.

(** Bytes without a line break do not end the headers. *)
Lemma header_bytes_plain acc l rest :
  ends_headers acc = false → LF ∉ l → len (acc ++ l) ≤ 65535 →
  header_bytes acc (l ++ rest) = header_bytes (acc ++ l) rest ∧ ends_headers (acc ++ l) = false.
Proof.
  revert acc. induction l as [|b l IH]; intros acc Ha Hl Hlen; [by rewrite app_nil_r|].
  apply not_elem_of_cons in Hl as [Hb Hl]. cbn [app header_bytes]. rewrite Ha.
  rewrite (proj2 (N.leb_gt _ _)) by (rewrite len_app, len_cons in Hlen; cbn; lia).
  replace (acc ++ b :: l) with ((acc ++ [b]) ++ l) in * by (by rewrite <- app_assoc).
  destruct (IH (acc ++ [b])) as [-> He]; [by apply ends_headers_snoc|done|done|]. done.
Qed.

Lemma header_bytes_line acc line rest :
  ends_headers acc = false → LF ∉ line → line ≠ [] → len (acc ++ line ++ CRLF) ≤ 65535 →
  header_bytes acc (line ++ CRLF ++ rest) = header_bytes (acc ++ line ++ CRLF) rest ∧
  ends_headers (acc ++ line ++ CRLF) = false.
Proof.
  intros Ha Hl Hne Hlen. set (CR := byte_of_N carriage_return).
  assert (line ++ CRLF ++ rest = (line ++ [CR]) ++ LF :: rest) as -> by (by rewrite <- app_assoc).
  assert (acc ++ line ++ CRLF = (acc ++ line ++ [CR]) ++ [LF]) as E by (by rewrite <- !app_assoc).
  rewrite E in *. destruct (header_bytes_plain acc (line ++ [CR]) (LF :: rest)) as [-> He]; [done| | |].
  - rewrite not_elem_of_app, list_elem_of_singleton. split; [done|by vm_compute].
  - rewrite len_app in Hlen. lia.
  - split; [|rewrite <- E; apply not_true_iff_false; intros (pre & Hp)%ends_headers_inv].
    + cbn [header_bytes]. rewrite He, (proj2 (N.leb_gt _ _)); [done|]. rewrite len_app in Hlen.
      change (len [LF]) with 1 in Hlen. change (64 * 1024) with 65536. lia.
    + rewrite !app_assoc in Hp. apply app_inv_tail in Hp.
      destruct line as [|b line _] using rev_ind; [done|].
      change CRLF with ([CR] ++ [LF]) in Hp. rewrite !app_assoc in Hp. apply app_inj_tail in Hp as [_ ->].
      apply Hl, elem_of_app. right. by left.
Qed.

Lemma header_bytes_end acc rest :
  ends_headers (acc ++ CRLF) = false → len (acc ++ CRLF) ≤ 65534 →
  header_bytes (acc ++ CRLF) (CRLF ++ rest) = (Ok (acc ++ CRLF ++ CRLF), rest).
Proof.
  intros Ha Hlen. set (CR := byte_of_N carriage_return). change (CRLF ++ rest) with ([CR] ++ LF :: rest).
  destruct (header_bytes_plain (acc ++ CRLF) [CR] (LF :: rest)) as [-> He]; [done| | |].
  - rewrite list_elem_of_singleton. by vm_compute.
  - rewrite len_app. change (len [CR]) with 1. lia.
  - cbn [header_bytes]. rewrite He, (proj2 (N.leb_gt _ _)).
    + assert (((acc ++ CRLF) ++ [CR]) ++ [LF] = acc ++ CRLF ++ CRLF) as -> by (by rewrite <- !app_assoc).
      destruct rest; cbn [header_bytes]; by rewrite ends_headers_app.
    + rewrite len_app. change (len [CR]) with 1. change (64 * 1024) with 65536. lia.
Qed.

(** Lines, each with its break. *)
Definition text_of_lines (lines : list (list char)) : list char := lines ≫= (λ l, l ++ crlf).

Lemma text_of_lines_cons l lines : text_of_lines (l :: lines) = l ++ crlf ++ text_of_lines lines.
Proof. unfold text_of_lines. cbn. by rewrite <- app_assoc. Qed.

Lemma header_bytes_lines lines : ∀ acc rest,
  lines ≠ [] → Forall line_ok lines → ends_headers acc = false →
  len (acc ++ as_bytes (text_of_lines lines)) ≤ 65534 →
  header_bytes acc (as_bytes (text_of_lines lines) ++ CRLF ++ rest)
    = (Ok (acc ++ as_bytes (text_of_lines lines) ++ CRLF), rest).
Proof.
  induction lines as [|l lines IH]; intros acc rest Hne Hok Ha Hlen; [done|]. clear Hne.
  apply Forall_cons in Hok as [Hl Hok]. rewrite text_of_lines_cons, !as_bytes_app in *. fold CRLF in *.
  rewrite <- !app_assoc. destruct (header_bytes_line acc (as_bytes l)
    (as_bytes (text_of_lines lines) ++ CRLF ++ rest)) as [-> He];
    [done|by apply line_no_newline|apply as_bytes_nonempty, Hl|rewrite !len_app in *; lia|].
  destruct lines as [|l' lines].
  - change (as_bytes (text_of_lines [])) with (@nil byte) in *. cbn [app].
    rewrite app_assoc, header_bytes_end; [by rewrite <- !app_assoc|by rewrite <- app_assoc|].
    rewrite !len_app in *. lia.
  - rewrite IH; [by rewrite <- !app_assoc|done|done|done|]. rewrite !len_app in *. lia.
Qed.

(** The lines, with breaks between them. *)
Fixpoint join_lines (lines : list (list char)) : list char :=
  match lines with
  | [] => []
  | [l] => l
  | l :: lines => l ++ crlf ++ join_lines lines
  end.

Lemma join_text lines : lines ≠ [] → text_of_lines lines = join_lines lines ++ crlf.
Proof.
  induction lines as [|l [|l' lines] IH]; intros Hne; [done|by cbn; rewrite app_nil_r|].
  rewrite text_of_lines_cons, IH by done. change (join_lines (l :: l' :: lines)) with (l ++ crlf ++ join_lines (l' :: lines)).
  by rewrite <- !app_assoc.
Qed.

Lemma split_plain l : carriage_return ∉ l → split_lines l = [l].
Proof.
  unfold split_lines. induction l as [|c l IH]; [done|]. intros [Hc Hl]%not_elem_of_cons.
  cbn [split_pair]. rewrite (IH Hl). destruct l as [|d l]; [done|].
  by rewrite (proj2 (N.eqb_neq c carriage_return)) by congruence.
Qed.

Lemma split_line l rest : carriage_return ∉ l → split_lines (l ++ crlf ++ rest) = l :: split_lines rest.
Proof.
  unfold split_lines. induction l as [|c l IH]; [done|]. intros [Hc Hl]%not_elem_of_cons.
  specialize (IH Hl). cbn [app split_pair]. cbn [crlf app] in IH |- *.
  destruct (l ++ carriage_return :: newline :: rest) as [|d k] eqn:E; [by destruct l|].
  rewrite (proj2 (N.eqb_neq c carriage_return)) by congruence. cbn [andb]. by rewrite IH.
Qed.

Lemma line_ok_no_return l : line_ok l → carriage_return ∉ l.
Proof. intros [Hl _] Hin. rewrite Forall_forall in Hl. by destruct (Hl _ Hin) as (_ & _ & ?). Qed.

Lemma split_join lines : lines ≠ [] → Forall line_ok lines → split_lines (join_lines lines) = lines.
Proof.
  induction lines as [|l [|l' lines] IH]; intros Hne Hok; [done|apply split_plain, line_ok_no_return; by apply Forall_inv in Hok|].
  apply Forall_cons in Hok as [Hl Hok].
  change (join_lines (l :: l' :: lines)) with (l ++ crlf ++ join_lines (l' :: lines)).
  rewrite split_line by (by apply line_ok_no_return). by rewrite IH.
Qed.

(** Header text on the connection is read back as its lines. *)
Lemma read_lines lines rest w :
  lines ≠ [] → Forall line_ok lines → len (as_bytes (text_of_lines lines ++ crlf)) ≤ 64 * 1024 →
  incoming w = as_bytes (text_of_lines lines ++ crlf) ++ rest →
  ∃ text, read_headers w = (Ok text, with_in rest w) ∧ split_lines text = lines.
Proof.
  intros Hne Hok Hlen Hin. exists (join_lines lines). split; [|by apply split_join].
  rewrite as_bytes_app in *. fold CRLF in *. rewrite len_app in Hlen. change (len CRLF) with 2 in Hlen.
  unfold read_headers. rewrite Hin, <- app_assoc.
  rewrite (header_bytes_lines lines [] rest Hne Hok) by (done || (cbn [app]; lia)). cbn [app mbind result_bind].
  rewrite (join_text _ Hne), as_bytes_app. fold CRLF.
  assert (take (length ((as_bytes (join_lines lines) ++ CRLF) ++ CRLF) - 4)
    ((as_bytes (join_lines lines) ++ CRLF) ++ CRLF) = as_bytes (join_lines lines)) as ->.
  { rewrite <- app_assoc, length_app. change (length (CRLF ++ CRLF)) with 4%nat.
    by rewrite Nat.add_sub, take_app_length. }
  destruct (as_bytes_valid (join_lines lines)) as [-> ->]; [|done].
  clear -Hok. induction lines as [|l [|l' lines] IH]; [constructor|..].
  - apply Forall_inv in Hok as [Hl _]. eapply Forall_impl; [exact Hl|]. by intros ? [].
  - apply Forall_cons in Hok as [[Hl _] Hok].
    change (join_lines (l :: l' :: lines)) with (l ++ crlf ++ join_lines (l' :: lines)).
    apply Forall_app. split; [eapply Forall_impl; [exact Hl|]; by intros ? []|].
    apply Forall_app. split; [|by apply IH].
    unfold crlf, carriage_return, newline, scalar. repeat (apply Forall_cons; split; [lia|]). by apply Forall_nil.
Qed.

(** ** Plain text *)

(** Printed characters of ASCII. *)
Definition printed (c : char) : bool := (33 <=? c) && (c <=? 126).

Lemma base64_printed bytes : Forall (λ c, printed c = true) (base64 bytes).
Proof.
  unfold base64. apply Forall_forall. intros c (chunk & Hc & _)%list_elem_of_bind.
  assert (∀ i, printed (sextet (N.land i 63)) = true) as Hs.
  { intros i. apply (below 64 (λ i, printed (sextet i))); [by vm_compute|apply land63]. }
  unfold base64_chunk in Hc. rewrite !elem_of_cons, elem_of_nil in Hc.
  destruct_or?; subst; try done; repeat case_match; try done; apply Hs.
Qed.

Lemma printed_not_white c : printed c = true → is_white c = false.
Proof.
  unfold printed, is_white. intros [H1%N.leb_le H2%N.leb_le]%andb_true_iff.
  repeat (rewrite orb_false_iff || rewrite andb_false_iff || rewrite N.leb_gt || rewrite N.eqb_neq). lia.
Qed.

Definition text_ok (l : list char) : Prop := Forall (λ c, scalar c ∧ c ≠ newline ∧ c ≠ carriage_return) l.

Lemma printed_text l : Forall (λ c, printed c = true) l → text_ok l.
Proof.
  intros H. eapply Forall_impl; [exact H|]. intros c [H1%N.leb_le H2%N.leb_le]%andb_true_iff.
  unfold scalar, newline, carriage_return. lia.
Qed.

Lemma ascii_text s :
  forallb (λ c, printed c || (c =? 32)) (ascii_chars s) = true → text_ok (ascii_chars s).
Proof.
  intros H. apply Forall_forall. intros c Hc. rewrite forallb_forall in H.
  apply list_elem_of_In, H, orb_true_iff in Hc as [Hp|Heq%N.eqb_eq]; [|unfold scalar, newline, carriage_return; lia].
  apply andb_true_iff in Hp as [H1%N.leb_le H2%N.leb_le]. unfold scalar, newline, carriage_return. lia.
Qed.

(** A value after its space. *)
Lemma trim_plain l : Forall (λ c, is_white c = false) l → trim (32 :: l) = l.
Proof.
  assert (∀ k, Forall (λ c, is_white c = false) k → trim_start k = k) as Hs.
  { intros [|c k] Hk; [done|]. apply Forall_inv in Hk. cbn. by rewrite Hk. }
  intros Hl. unfold trim, trim_end. change (trim_start (32 :: l)) with (trim_start l). rewrite (Hs l Hl), Hs.
  - apply rev_involutive.
  - by apply Forall_rev.
Qed.

Lemma split_white_plain word l rest :
  Forall (λ c, is_white c = false) l → split_white word (l ++ rest) = split_white (word ++ l) rest.
Proof.
  revert word. induction l as [|c l IH]; intros word Hl; [by rewrite app_nil_r|].
  apply Forall_cons in Hl as [Hc Hl]. cbn. rewrite Hc, IH by done. by rewrite <- app_assoc.
Qed.

Lemma base64_length bytes : len (as_bytes (base64 bytes)) ≤ 4 * len bytes.
Proof.
  destruct (chunks3_spec bytes) as [Hc Hf]. rewrite <- Hc at 2. unfold base64. clear Hc.
  induction Hf as [|chunk chunks Hl _ IH]; [done|].
  destruct (base64_chunk_roundtrip chunk Hl) as (b0 & b1 & b2 & b3 & He & _).
  change ((chunk :: chunks) ≫= base64_chunk) with (base64_chunk chunk ++ (chunks ≫= base64_chunk)).
  rewrite as_bytes_app, He. cbn [concat]. rewrite !len_app. change (len [b0; b1; b2; b3]) with 4.
  unfold len in *. lia.
Qed.
