(* ===== verification/WsOpen.v ===== *)
(** * A client and a server

    A client and a server of [WsHandshake] that talk to each other open the
    connection, whatever the digest. *)
From S2P Require Import Prelude Ast Text Strs Utf8 WebSocket WebSocketOk WsHandshake WsHandshakeOk.
Open Scope list_scope.

Section two_ends.
Context (sha1 : list byte → list byte) (Hsha1 : ∀ l, length (sha1 l) = 20%nat).
Local Set Default Proof Using "All".

(** The lines of the request and of the response. *)
Definition request_lines (path host key : list char) : list (list char) :=
  [ascii_chars "GET " ++ path ++ ascii_chars " HTTP/1.1"; ascii_chars "Host: " ++ host;
   ascii_chars "Upgrade: websocket"; ascii_chars "Connection: Upgrade";
   ascii_chars "Sec-WebSocket-Key: " ++ key; ascii_chars "Sec-WebSocket-Version: 13"].
Definition response_lines (accept : list char) : list (list char) :=
  [ascii_chars "HTTP/1.1 101 Switching Protocols"; ascii_chars "Upgrade: websocket";
   ascii_chars "Connection: Upgrade"; ascii_chars "Sec-WebSocket-Accept: " ++ accept].

Lemma request_is_lines path host key :
  request_text path host key = text_of_lines (request_lines path host key) ++ crlf.
Proof. unfold request_text, request_lines. rewrite !text_of_lines_cons, <- !app_assoc. done. Qed.

Lemma response_is_lines accept : response_text accept = text_of_lines (response_lines accept) ++ crlf.
Proof. unfold response_text, response_lines. rewrite !text_of_lines_cons, <- !app_assoc. done. Qed.

Lemma prefixed_line s l :
  forallb (λ c, printed c || (c =? 32)) (ascii_chars s) = true → ascii_chars s ≠ [] → text_ok l →
  line_ok (ascii_chars s ++ l).
Proof.
  intros Hs Hne Hl. split; [|by destruct (ascii_chars s)]. apply Forall_app. split; [by apply ascii_text|done].
Qed.

Lemma request_lines_ok path host key :
  text_ok path → text_ok host → text_ok key → Forall line_ok (request_lines path host key).
Proof.
  intros Hp Hh Hk. unfold request_lines. repeat (apply Forall_cons; split); try (by apply Forall_nil);
    try (rewrite <- (app_nil_r (ascii_chars _)); apply prefixed_line; [done|done|by apply Forall_nil]);
    apply prefixed_line; try done.
  apply Forall_app. split; [done|by apply ascii_text].
Qed.

Lemma response_lines_ok accept : text_ok accept → Forall line_ok (response_lines accept).
Proof.
  intros Ha. unfold response_lines. repeat (apply Forall_cons; split); try (by apply Forall_nil);
    try (rewrite <- (app_nil_r (ascii_chars _)); apply prefixed_line; [done|done|by apply Forall_nil]).
  by apply prefixed_line.
Qed.

(** The headers of the request and of the response. *)
Definition request_headers (host key : list char) : Headers :=
  <[ascii_chars "sec-websocket-version" := ascii_chars "13"]>
  (<[ascii_chars "sec-websocket-key" := key]>
  (<[ascii_chars "connection" := ascii_chars "Upgrade"]>
  (<[ascii_chars "upgrade" := ascii_chars "websocket"]>
  (<[ascii_chars "host" := trim (32 :: host)]> ∅)))).
Definition response_headers (accept : list char) : Headers :=
  <[ascii_chars "sec-websocket-accept" := accept]>
  (<[ascii_chars "connection" := ascii_chars "Upgrade"]>
  (<[ascii_chars "upgrade" := ascii_chars "websocket"]> ∅)).

(** One header line. *)
Lemma parse_header_line name value lines headers :
  ch ":" ∉ name →
  parse_headers ((name ++ ch ":" :: value) :: lines) headers
    = parse_headers lines (<[to_ascii_lowercase name := trim value]> headers).
Proof.
  intros Hn. cbn [parse_headers]. assert (split_once (ch ":") (name ++ ch ":" :: value) = Some (name, value)) as ->; [|done].
  induction name as [|c name IH]; [done|]. apply not_elem_of_cons in Hn as [Hc Hn]. cbn [app split_once].
  rewrite (proj2 (N.eqb_neq _ _)) by congruence. by rewrite IH.
Qed.

Lemma parse_request host key :
  Forall (λ c, is_white c = false) key →
  parse_headers (tail (request_lines [] host key)) ∅ = Ok (request_headers host key).
Proof.
  intros Hk. cbn [tail request_lines].
  change (ascii_chars "Host: " ++ host) with (ascii_chars "Host" ++ ch ":" :: (32 :: host)).
  change (ascii_chars "Upgrade: websocket") with (ascii_chars "Upgrade" ++ ch ":" :: ascii_chars " websocket").
  change (ascii_chars "Connection: Upgrade") with (ascii_chars "Connection" ++ ch ":" :: ascii_chars " Upgrade").
  change (ascii_chars "Sec-WebSocket-Key: " ++ key) with (ascii_chars "Sec-WebSocket-Key" ++ ch ":" :: (32 :: key)).
  change (ascii_chars "Sec-WebSocket-Version: 13") with (ascii_chars "Sec-WebSocket-Version" ++ ch ":" :: ascii_chars " 13").
  rewrite !parse_header_line by (apply (bool_decide_unpack _); by vm_compute).
  rewrite (trim_plain key Hk). done.
Qed.

Lemma parse_response accept :
  Forall (λ c, is_white c = false) accept →
  parse_headers (tail (response_lines accept)) ∅ = Ok (response_headers accept).
Proof.
  intros Ha. cbn [tail response_lines].
  change (ascii_chars "Upgrade: websocket") with (ascii_chars "Upgrade" ++ ch ":" :: ascii_chars " websocket").
  change (ascii_chars "Connection: Upgrade") with (ascii_chars "Connection" ++ ch ":" :: ascii_chars " Upgrade").
  change (ascii_chars "Sec-WebSocket-Accept: " ++ accept) with (ascii_chars "Sec-WebSocket-Accept" ++ ch ":" :: (32 :: accept)).
  rewrite !parse_header_line by (apply (bool_decide_unpack _); by vm_compute).
  rewrite (trim_plain accept Ha). done.
Qed.

Lemma base64_plain bytes : text_ok (base64 bytes) ∧ Forall (λ c, is_white c = false) (base64 bytes).
Proof.
  pose proof (base64_printed bytes) as Hp. split; [by apply printed_text|].
  eapply Forall_impl; [exact Hp|]. apply printed_not_white.
Qed.

Ltac lookup_header :=
  repeat first [rewrite lookup_insert_eq; reflexivity
               |rewrite lookup_insert_ne by (apply (bool_decide_unpack _); by vm_compute)].

Lemma request_lookup host key :
  request_headers host key !! ascii_chars "upgrade" = Some (ascii_chars "websocket") ∧
  request_headers host key !! ascii_chars "connection" = Some (ascii_chars "Upgrade") ∧
  request_headers host key !! ascii_chars "sec-websocket-version" = Some (ascii_chars "13") ∧
  request_headers host key !! ascii_chars "sec-websocket-key" = Some key.
Proof. unfold request_headers. split_and!; lookup_header. Qed.

Lemma response_lookup accept :
  response_headers accept !! ascii_chars "upgrade" = Some (ascii_chars "websocket") ∧
  response_headers accept !! ascii_chars "connection" = Some (ascii_chars "Upgrade") ∧
  response_headers accept !! ascii_chars "sec-websocket-accept" = Some accept.
Proof. unfold response_headers. split_and!; lookup_header. Qed.

(** The headers that both ends ask for. *)
Lemma tokens_accepted (headers : Headers) :
  headers !! ascii_chars "upgrade" = Some (ascii_chars "websocket") →
  headers !! ascii_chars "connection" = Some (ascii_chars "Upgrade") →
  require_token headers "upgrade" "websocket" = Ok tt ∧ require_token headers "connection" "upgrade" = Ok tt.
Proof. intros H1 H2. unfold require_token, has_token. rewrite H1, H2. by vm_compute. Qed.

(** A path without white space. *)
Definition path_ok (path : list char) : Prop :=
  text_ok path ∧ Forall (λ c, is_white c = false) path ∧ starts_with [ch "/"] path = true.

Lemma request_words path :
  path_ok path →
  split_whitespace (ascii_chars "GET " ++ path ++ ascii_chars " HTTP/1.1")
    = [ascii_chars "GET"; path; ascii_chars "HTTP/1.1"].
Proof.
  intros (_ & Hw & Hs). unfold split_whitespace.
  change (split_white [] (ascii_chars "GET " ++ path ++ ascii_chars " HTTP/1.1"))
    with (ascii_chars "GET" :: split_white [] (path ++ ascii_chars " HTTP/1.1")).
  rewrite split_white_plain by done. cbn [app].
  destruct path as [|c path]; [by vm_compute in Hs|]. done.
Qed.

Lemma server_accepts path host nonce rest w :
  path_ok path → text_ok host → length nonce = 16%nat →
  len (as_bytes (request_text path host (base64 nonce))) ≤ 64 * 1024 →
  incoming w = as_bytes (request_text path host (base64 nonce)) ++ rest →
  accept_tls_request sha1 w = (Ok (mkSocket false false),
    mkWire rest (outgoing w ++ as_bytes (response_text (accept_key sha1 (base64 nonce)))) (entropy w) (shut w)).
Proof.
  intros Hpath Hhost Hnonce Hlen Hin. destruct (base64_plain nonce) as [Hkey Hwhite].
  rewrite request_is_lines in Hlen, Hin.
  destruct (read_lines (request_lines path host (base64 nonce)) rest w) as (text & Hread & Hsplit);
    [done|by apply request_lines_ok; [apply Hpath| |]|done|done|].
  unfold accept_tls_request, mbind, WM_bind. rewrite Hread, Hsplit. cbn [request_lines].
  rewrite request_words by done. rewrite (proj2 (proj2 Hpath)).
  replace (bool_decide (ascii_chars "HTTP/1.1" = ascii_chars "HTTP/1.1")) with true by (by rewrite bool_decide_true).
  rewrite orb_true_r. cbn [negb orb]. unfold lift_result.
  pose proof (parse_request host (base64 nonce) Hwhite) as Hparse. cbn [tail request_lines] in Hparse. rewrite Hparse.
  destruct (request_lookup host (base64 nonce)) as (H1 & H2 & H3 & H4).
  destruct (tokens_accepted _ H1 H2) as [Ht1 Ht2].
  unfold accept_transport, mbind, WM_bind, lift_result. rewrite bool_decide_true by done. cbn [negb].
  rewrite Ht1, Ht2, H3, H4, bool_decide_true by done. cbn [negb].
  rewrite base64_decodes. by rewrite (proj2 (N.eqb_eq _ _)) by (unfold len; lia).
Qed.

Lemma client_connects path host nonce rest w ent :
  path_ok path → text_ok host → host ≠ [] → length nonce = 16%nat →
  entropy w = nonce ++ ent →
  incoming w = as_bytes (response_text (accept_key sha1 (base64 nonce))) ++ rest →
  connect_transport sha1 host path w = (Ok (mkSocket true false),
    mkWire rest (outgoing w ++ as_bytes (request_text path host (base64 nonce))) ent (shut w)).
Proof.
  intros Hpath Hhost Hne Hnonce Hent Hin. set (accept := accept_key sha1 (base64 nonce)) in *.
  destruct (base64_plain (sha1 (as_bytes (base64 nonce ++ GUID)))) as [Hkey Hwhite].
  fold (accept_key sha1 (base64 nonce)) in Hkey, Hwhite. fold accept in Hkey, Hwhite.
  assert (∀ l, text_ok l → breaks_line l = false) as Hbreak.
  { intros l Hl. apply not_true_iff_false. intros (c & Hc & Hb)%existsb_exists.
    unfold text_ok in Hl. rewrite Forall_forall in Hl. apply list_elem_of_In, Hl in Hc as (_ & Hn & Hr).
    by rewrite (proj2 (N.eqb_neq _ _) Hn), (proj2 (N.eqb_neq _ _) Hr) in Hb. }
  unfold connect_transport. rewrite bool_decide_false, (Hbreak host Hhost) by done.
  rewrite (proj2 (proj2 Hpath)), (Hbreak path) by apply Hpath. cbn [negb orb].
  unfold mbind, WM_bind, fill. rewrite Hent, len_app, (proj2 (N.leb_le _ _)) by (unfold len; lia).
  assert (take (N.to_nat 16) (nonce ++ ent) = nonce ∧ drop (N.to_nat 16) (nonce ++ ent) = ent) as [-> ->].
  { change (N.to_nat 16) with 16%nat. rewrite <- Hnonce. by rewrite take_app_length, drop_app_length. }
  unfold write_all. rewrite response_is_lines in Hin.
  destruct (read_lines (response_lines accept) rest
    (mkWire (incoming w) (outgoing w ++ as_bytes (request_text path host (base64 nonce))) ent (shut w)))
    as (text & Hread & Hsplit); [done|by apply response_lines_ok| |done|].
  { rewrite <- response_is_lines. unfold response_text. rewrite !as_bytes_app, !len_app.
    pose proof (base64_length (sha1 (as_bytes (base64 nonce ++ GUID)))) as Hl.
    fold (accept_key sha1 (base64 nonce)) in Hl. fold accept in Hl. unfold len at 2 in Hl. rewrite Hsha1 in Hl.
    repeat match goal with |- context [len (as_bytes (ascii_chars ?s))] =>
      let v := eval vm_compute in (len (as_bytes (ascii_chars s))) in change (len (as_bytes (ascii_chars s))) with v end.
    change (len (as_bytes crlf)) with 2. lia. }
  cbn [outgoing incoming entropy shut]. rewrite Hread, Hsplit. cbn [response_lines].
  replace (starts_with _ _) with true by (by vm_compute). cbn [negb]. unfold lift_result.
  pose proof (parse_response accept Hwhite) as Hparse. cbn [tail response_lines] in Hparse. rewrite Hparse.
  destruct (response_lookup accept) as (H1 & H2 & H3). destruct (tokens_accepted _ H1 H2) as [Ht1 Ht2].
  rewrite Ht1, Ht2, H3, bool_decide_true by done. done.
Qed.
End two_ends.

(** C19: the two ends agree on the handshake: the server accepts the request a
    client writes for a host and a path without white space, and the client
    accepts the answer, so both have an open socket, the client's masking and
    the server's not, and neither has read beyond the handshake. *)
Theorem handshake_completes sha1 path host nonce more out ent down more' out' ent' down' :
  (∀ l, length (sha1 l) = 20%nat) → path_ok path → text_ok host → host ≠ [] → length nonce = 16%nat →
  len (as_bytes (request_text path host (base64 nonce))) ≤ 64 * 1024 →
  ∃ request response,
    accept_tls_request sha1 (mkWire (request ++ more) out ent down)
      = (Ok (mkSocket false false), mkWire more (out ++ response) ent down) ∧
    connect_transport sha1 host path (mkWire (response ++ more') out' (nonce ++ ent') down')
      = (Ok (mkSocket true false), mkWire more' (out' ++ request) ent' down').
Proof.
  intros Hsha1 Hpath Hhost Hne Hnonce Hlen.
  exists (as_bytes (request_text path host (base64 nonce))),
    (as_bytes (response_text (accept_key sha1 (base64 nonce)))). split.
  - by apply (server_accepts sha1 Hsha1 path host nonce more (mkWire _ out ent down)).
  - by apply (client_connects sha1 Hsha1 path host nonce more' (mkWire _ out' (nonce ++ ent') down') ent').
Qed.

Lemma handshake_completes_witness :
  ∃ request response,
    accept_tls_request (λ _, replicate 20 Byte.x07) (mkWire (request ++ []) [] [] false)
      = (Ok (mkSocket false false), mkWire [] ([] ++ response) [] false) ∧
    connect_transport (λ _, replicate 20 Byte.x07) (ascii_chars "example.org") (ascii_chars "/chat")
        (mkWire (response ++ []) [] (replicate 16 Byte.x01 ++ []) false)
      = (Ok (mkSocket true false), mkWire [] ([] ++ request) [] false).
Proof.
  apply (handshake_completes (λ _, replicate 20 Byte.x07) (ascii_chars "/chat") (ascii_chars "example.org")
    (replicate 16 Byte.x01) [] [] [] false [] [] [] false); try done.
  - split; [by apply ascii_text|]. split; [|by vm_compute]. repeat (apply Forall_cons; split; [by vm_compute|]).
    by apply Forall_nil.
  - by apply ascii_text.
Defined.

(** The server's check of the key takes padding anywhere: this key is not
    base64. *)
Lemma padded_key_accepted :
  ∃ value, decode_base64 (as_bytes (ascii_chars "=AAA=AAA=AAA=AAA=AAAA===")) = Some value ∧ len value = 16.
Proof. eexists. split; vm_compute; reflexivity. Qed.
