(* ===== verification/Manifest.v ===== *)
(** * Project manifests

    src/src/project.rs: the manifest [niv.toml] of a project, read by [parse] and
    written by [source], with the checks of names, versions, capability grants
    and limits, and the texts of the lock file.

    Texts are lists of characters.  Reading the manifest from disk ([load]) and
    hashing a source tree ([fingerprint]) are not modelled. *)
From S2P Require Import Prelude Ast Text Strs.
Open Scope list_scope.

Local Notation lit := ascii_chars.

(** [Manifest] *)
Record Manifest := mkManifest {
  m_root : list char; m_name : list char; m_version : list char; m_entry : list char;
  m_dependencies : gmap (list char) (list char); m_capabilities : gset (list char);
  m_capability_scopes : gmap (list char) (list char); m_unsafe_modules : gset (list char);
  m_instruction_limit : option N; m_memory_limit : option N; m_payload_limit : option N;
  m_edition : N }.

(** A literal in which a backquote stands for a double quote. *)
Definition quoting (s : string) : list char := map (λ c, if c =? ch "`" then quote else c) (lit s).

(** [project_error] *)
Definition project_error (message : list char) (line : N) : NivError :=
  NivError_new (str_of_chars message) line 1.

(** ** Words *)

Definition among (words : list string) (word : list char) : bool :=
  existsb (λ w, bool_decide (word = lit w)) words.

Definition is_ascii_alphanumeric (c : char) : bool := is_ascii_alphabetic c || is_ascii_digit c.
Definition is_ascii_lowercase (c : char) : bool := (97 <=? c) && (c <=? 122).

(** [valid_name]: a byte that is not ASCII fails the test, and so does the
    character it belongs to. *)
Definition valid_name (value : list char) : bool :=
  negb (is_empty value)
  && forallb (λ c, is_ascii_lowercase c || is_ascii_digit c || (c =? ch "-") || (c =? ch "_")) value.

(** [valid_dependency_name] *)
Definition valid_dependency_name (value : list char) : bool :=
  match value with
  | [] => false
  | c :: rest =>
      (is_ascii_alphabetic c || (c =? ch "_"))
      && forallb (λ c, is_ascii_alphanumeric c || (c =? ch "_")) rest
  end.

Definition valid_version_part (part : list char) : bool :=
  negb (is_empty part) && forallb is_ascii_digit part
  && (bool_decide (part = lit "0") || negb (starts_with (lit "0") part)).

(** [valid_version] *)
Definition valid_version (value : list char) : bool :=
  let parts := split_char (ch ".") value in
  (len parts =? 3) && forallb valid_version_part parts.

(** [known_capability] *)
Definition known_capability : list char → bool :=
  among ["FileRead"; "FileWrite"; "Environment"; "Time"; "Process"; "Network"; "Task";
         "Channel"; "Log"; "Random"; "Native"].

Definition known_section : list char → bool :=
  among ["package"; "dependencies"; "capabilities"; "unsafe"; "limits"].

Definition known_unsafe_module : list char → bool :=
  among ["memory"; "layouts"; "allocators"; "atomics"; "threads"; "simd"; "devices"; "ffi"].

(** [quoted] *)
Definition quoted (value : list char) : option (list char) :=
  inner ← strip_prefix [quote] value;
  inner ← strip_suffix [quote] inner;
  if existsb (N.eqb quote) inner then None else Some inner.

(** [value.strip_prefix(p).is_some_and(|scope| !scope.is_empty())] *)
Definition prefixed (p : string) (value : list char) : bool :=
  match strip_prefix (lit p) value with Some scope => negb (is_empty scope) | None => false end.

(** [valid_composed_scope]; [None] is the early return. *)
Fixpoint scope_clauses (known : list string) (clauses : list (list char)) (seen : gset (list char))
    : option (gset (list char)) :=
  match clauses with
  | [] => Some seen
  | clause :: clauses =>
      '(kind, choices) ← split_once (ch ":") clause;
      if negb (among known kind) || bool_decide (kind ∈ seen) || is_empty choices
         || existsb is_empty (split_char (ch ",") choices)
      then None else scope_clauses known clauses ({[kind]} ∪ seen)
  end.
Definition valid_composed_scope (value : list char) (required : string) (optional : list string) : bool :=
  match scope_clauses (required :: optional) (split_char (ch ";") value) ∅ with
  | Some seen => bool_decide (lit required ∈ seen)
  | None => false
  end.

(** [valid_grant] in [Manifest::parse] *)
Definition valid_grant (key value : list char) : bool :=
  bool_decide (value = lit "allow")
  || among ["FileRead"; "FileWrite"] key && prefixed "path:" value
  || among ["Network"] key && valid_composed_scope value "host" ["method"]
  || among ["Environment"] key && (prefixed "name:" value || prefixed "prefix:" value)
  || among ["Process"] key && valid_composed_scope value "command" ["arg0"]
  || among ["Native"] key && (prefixed "path:" value || prefixed "kind:" value).

Definition grant_hint (key : list char) : list char :=
  if among ["FileRead"; "FileWrite"] key then quoting " or a path scope such as `path:./data`"
  else if among ["Network"] key then
    quoting " or a host/method scope such as `host:api.example.com,*.cdn.example.com;method:GET,POST`"
  else if among ["Environment"] key then
    quoting " or a name/prefix scope such as `name:HOME` or `prefix:NIVREN_`"
  else if among ["Process"] key then
    quoting " or a command/first-argument scope such as `command:git;arg0:status`"
  else if among ["Native"] key then
    quoting " or a path/kind scope such as `path:./native` or `kind:database`"
  else [].

(** [str::parse::<u64>]: one plus sign may precede the digits. *)
Definition parse_u64 (value : list char) : option N :=
  let digits := match value with c :: rest => if c =? ch "+" then rest else value | [] => value end in
  n ← from_digits 10 digits; if n <=? u64_max then Some n else None.

(** ** Reading *)

(** The variables of [Manifest::parse]. *)
Record Reading := mkReading {
  p_section : list char; p_values : gmap (list char) (list char);
  p_dependencies : gmap (list char) (list char); p_capabilities : gset (list char);
  p_capability_scopes : gmap (list char) (list char); p_unsafe_modules : gset (list char);
  p_instruction_limit : option N; p_memory_limit : option N; p_payload_limit : option N }.

Definition reading : Reading := mkReading [] ∅ ∅ ∅ ∅ ∅ None None None.

(** A line in one section; [fail] carries the number of the line. *)
Section line.
Context (number : N) (st : Reading).
Definition fail {A} (message : list char) : result NivError A := Err (project_error message number).

(** [section == "package"] *)
Definition package_line (key value : list char) : result NivError Reading :=
  if bool_decide (is_Some (p_values st !! key)) then fail (lit "duplicate package key '" ++ key ++ lit "'")
  else Ok (mkReading (p_section st) (<[key := value]> (p_values st)) (p_dependencies st)
             (p_capabilities st) (p_capability_scopes st) (p_unsafe_modules st)
             (p_instruction_limit st) (p_memory_limit st) (p_payload_limit st)).

(** [section == "dependencies"] *)
Definition dependency_line (key value : list char) : result NivError Reading :=
  if negb (valid_dependency_name key) then fail (lit "dependency names must be valid Nivren identifiers")
  else if negb (valid_version value)
  then fail (lit "dependency '" ++ key ++ lit "' must use an exact major.minor.patch version")
  else if bool_decide (is_Some (p_dependencies st !! key)) then fail (lit "duplicate dependency '" ++ key ++ lit "'")
  else Ok (mkReading (p_section st) (p_values st) (<[key := value]> (p_dependencies st))
             (p_capabilities st) (p_capability_scopes st) (p_unsafe_modules st)
             (p_instruction_limit st) (p_memory_limit st) (p_payload_limit st)).

(** [section == "capabilities"] *)
Definition capability_line (key value : list char) : result NivError Reading :=
  if negb (known_capability key) then fail (lit "unknown capability '" ++ key ++ lit "'")
  else if negb (valid_grant key value)
  then fail (quoting "capability '" ++ key ++ quoting "' must be `allow`" ++ grant_hint key)
  else if bool_decide (key ∈ p_capabilities st) then fail (lit "duplicate capability '" ++ key ++ lit "'")
  else Ok (mkReading (p_section st) (p_values st) (p_dependencies st)
             ({[key]} ∪ p_capabilities st)
             (if bool_decide (value = lit "allow") then p_capability_scopes st
              else <[key := value]> (p_capability_scopes st))
             (p_unsafe_modules st)
             (p_instruction_limit st) (p_memory_limit st) (p_payload_limit st)).

(** [section == "unsafe"] *)
Definition unsafe_line (key value : list char) : result NivError Reading :=
  if negb (known_unsafe_module key) then fail (lit "unknown unsafe module '" ++ key ++ lit "'")
  else if negb (bool_decide (value = lit "allow"))
  then fail (quoting "unsafe module '" ++ key ++ quoting "' must be explicitly set to `allow`")
  else if bool_decide (key ∈ p_unsafe_modules st) then fail (lit "duplicate unsafe module '" ++ key ++ lit "'")
  else Ok (mkReading (p_section st) (p_values st) (p_dependencies st)
             (p_capabilities st) (p_capability_scopes st) ({[key]} ∪ p_unsafe_modules st)
             (p_instruction_limit st) (p_memory_limit st) (p_payload_limit st)).

(** [slot.replace(parsed).is_some()] *)
Definition duplicate_limit (key : list char) (slot : option N) (after : Reading) : result NivError Reading :=
  match slot with
  | Some _ => fail (lit "duplicate limit '" ++ key ++ lit "'")
  | None => Ok after
  end.

(** the last section, "limits" *)
Definition limit_line (key value : list char) : result NivError Reading :=
  if negb (among ["instructions"; "memory_bytes"; "payload_bytes"] key)
  then fail (lit "unknown limit '" ++ key ++ lit "'")
  else
    match parse_u64 value with
    | Some (Npos _ as parsed) =>
        if among ["payload_bytes"] key && negb ((1024 <=? parsed) && (parsed <=? 268435456))
        then fail (lit "payload_bytes must be from 1024 through 268435456")
        else
          let with_limits :=
            mkReading (p_section st) (p_values st) (p_dependencies st)
              (p_capabilities st) (p_capability_scopes st) (p_unsafe_modules st) in
          if among ["instructions"] key then
            duplicate_limit key (p_instruction_limit st)
              (with_limits (Some parsed) (p_memory_limit st) (p_payload_limit st))
          else if among ["memory_bytes"] key then
            duplicate_limit key (p_memory_limit st)
              (with_limits (p_instruction_limit st) (Some parsed) (p_payload_limit st))
          else
            duplicate_limit key (p_payload_limit st)
              (with_limits (p_instruction_limit st) (p_memory_limit st) (Some parsed))
    | _ => fail (key ++ lit " must be a positive integer")
    end.

Definition enter_section (section : list char) : Reading :=
  mkReading section (p_values st) (p_dependencies st)
    (p_capabilities st) (p_capability_scopes st) (p_unsafe_modules st)
    (p_instruction_limit st) (p_memory_limit st) (p_payload_limit st).

Definition value_line (key value : list char) : result NivError Reading :=
  let section := p_section st in
  if among ["package"] section then package_line key value
  else if among ["dependencies"] section then dependency_line key value
  else if among ["capabilities"] section then capability_line key value
  else if among ["unsafe"] section then unsafe_line key value
  else limit_line key value.

(** The body of the loop over the lines. *)
Definition manifest_line (raw_line : list char) : result NivError Reading :=
  let line := trim (default [] (head (split_char (ch "#") raw_line))) in
  if is_empty line then Ok st
  else if starts_with (lit "[") line && ends_with (lit "]") line then
    let section := trim (removelast (tail line)) in
    if known_section section then Ok (enter_section section)
    else fail (lit "unknown manifest section [" ++ section ++ lit "]")
  else if negb (known_section (p_section st)) then
    fail (lit "manifest values must be inside [package], [dependencies], [capabilities], [unsafe], or [limits]")
  else
    '(key, raw_value) ← ok_or (project_error (quoting "expected a key = `value` pair") number)
                          (split_once (ch "=") line);
    let key := trim key in
    if among ["package"] (p_section st) && negb (among ["name"; "version"; "entry"; "edition"] key)
    then fail (lit "unknown package key '" ++ key ++ lit "'")
    else
      value ← ok_or (project_error (lit "'" ++ key ++ lit "' must be a quoted string") number)
                (quoted (trim raw_value));
      value_line key value.
End line.

Fixpoint manifest_lines (number : N) (lines : list (list char)) (st : Reading) : result NivError Reading :=
  match lines with
  | [] => Ok st
  | line :: lines => st ← manifest_line number st line; manifest_lines (number + 1) lines st
  end.

(** [required] *)
Definition required (values : gmap (list char) (list char)) (key : string) : result NivError (list char) :=
  ok_or (project_error (lit "missing package key '" ++ lit key ++ lit "'") 1) (values !! lit key).

(** What [Manifest::parse] checks when the lines have been read. *)
Definition finish (st : Reading) (root : list char) : result NivError Manifest :=
  name ← required (p_values st) "name";
  if negb (valid_name name) then
    Err (project_error (lit "package name must use lowercase ASCII letters, digits, '-' or '_'") 1)
  else if bool_decide (is_Some (p_dependencies st !! name)) then
    Err (project_error (lit "a package cannot depend on itself") 1)
  else if negb (bool_decide (p_unsafe_modules st = ∅)) && negb (bool_decide (lit "Native" ∈ p_capabilities st)) then
    Err (project_error (lit "declared unsafe modules require an explicit Native capability grant") 1)
  else
    version ← required (p_values st) "version";
    if negb (valid_version version) then
      Err (project_error (lit "package version must have the form major.minor.patch") 1)
    else
      edition ← (match p_values st !! lit "edition" with
                 | None => Ok 4
                 | Some other =>
                     if bool_decide (other = lit "4") then Ok 4
                     else if bool_decide (other = lit "5") then Ok 5
                     else Err (project_error (quoting "unknown edition '" ++ other
                                 ++ quoting "'; declare edition = `4` or `5`") 1)
                 end);
      entry ← required (p_values st) "entry";
      if is_absolute entry || bool_decide (ParentDir ∈ components entry) then
        Err (project_error (lit "package entry must be a relative path within the project") 1)
      else
        Ok (mkManifest root name version entry (p_dependencies st) (p_capabilities st)
              (p_capability_scopes st) (p_unsafe_modules st) (p_instruction_limit st)
              (p_memory_limit st) (p_payload_limit st) edition).

(** [Manifest::parse] *)
Definition parse_manifest (source root : list char) : result NivError Manifest :=
  st ← manifest_lines 1 (str_lines [] source) reading;
  finish st root.

(** [Manifest::add_dependency]: the manifest afterwards. *)
Definition add_dependency (m : Manifest) (name version : list char) : result NivError Manifest :=
  if negb (valid_dependency_name name) then
    Err (project_error (lit "dependency names must be valid Nivren identifiers") 1)
  else if bool_decide (name = m_name m) then
    Err (project_error (lit "a package cannot depend on itself") 1)
  else if negb (valid_version version) then
    Err (project_error (lit "dependency '" ++ name ++ lit "' must use an exact major.minor.patch version") 1)
  else Ok (mkManifest (m_root m) (m_name m) (m_version m) (m_entry m)
             (<[name := version]> (m_dependencies m)) (m_capabilities m) (m_capability_scopes m)
             (m_unsafe_modules m) (m_instruction_limit m) (m_memory_limit m) (m_payload_limit m)
             (m_edition m)).

(** ** Writing *)

(** [key = "value"] and a line end *)
Definition pair_line (key value : list char) : list char :=
  key ++ quoting " = `" ++ value ++ [quote; newline].

Definition decimal (n : N) : list char := lit (pretty n).

Definition section_lines (present : bool) (name : string) (body : list char) : list char :=
  if negb present then [] else newline :: lit "[" ++ lit name ++ lit "]" ++ newline :: body.

Definition limit_entry (key : string) (limit : option N) : list char :=
  match limit with Some n => pair_line (lit key) (decimal n) | None => [] end.

(** [Manifest::source] *)
Definition source (m : Manifest) : list char :=
  lit "[package]" ++ [newline]
  ++ pair_line (lit "name") (m_name m) ++ pair_line (lit "version") (m_version m)
  ++ pair_line (lit "entry") (m_entry m)
  ++ (if 5 <=? m_edition m then pair_line (lit "edition") (decimal (m_edition m)) else [])
  ++ section_lines (negb (bool_decide (m_dependencies m = ∅))) "dependencies"
       (entries (m_dependencies m) ≫= λ '(name, version), pair_line name version)
  ++ section_lines (negb (bool_decide (m_capabilities m = ∅))) "capabilities"
       (members (m_capabilities m) ≫= λ capability,
          pair_line capability (default (lit "allow") (m_capability_scopes m !! capability)))
  ++ section_lines (negb (bool_decide (m_unsafe_modules m = ∅))) "unsafe"
       (members (m_unsafe_modules m) ≫= λ module, pair_line module (lit "allow"))
  ++ section_lines (bool_decide (is_Some (m_instruction_limit m) ∨ is_Some (m_memory_limit m)
                                ∨ is_Some (m_payload_limit m))) "limits"
       (limit_entry "instructions" (m_instruction_limit m)
        ++ limit_entry "memory_bytes" (m_memory_limit m)
        ++ limit_entry "payload_bytes" (m_payload_limit m)).

(** [Manifest::resolved_lockfile] and [Manifest::lockfile] *)
Definition resolved_lockfile (m : Manifest) (resolved : gmap (list char * list char) (list char)) : list char :=
  lit "# This file is generated by Nivren." ++ [newline] ++ lit "format = 1" ++ [newline; newline]
  ++ lit "[[package]]" ++ [newline] ++ pair_line (lit "name") (m_name m)
  ++ pair_line (lit "version") (m_version m)
  ++ (entries resolved ≫= λ '((name, version), sha256),
        newline :: lit "[[dependency]]" ++ newline :: pair_line (lit "name") name
        ++ pair_line (lit "version") version ++ pair_line (lit "sha256") sha256).
Definition lockfile (m : Manifest) : list char := resolved_lockfile m ∅.

(** [Manifest::anchored_capability_scopes] *)
Definition anchored_capability_scopes (m : Manifest) : gmap (list char) (list char) :=
  (λ scope,
     match strip_prefix (lit "path:") scope with
     | Some path => if is_absolute path then scope else lit "path:" ++ path_join (m_root m) path
     | None => scope
     end) <$> m_capability_scopes m.

(** [Manifest::entry_path] *)
Definition entry_path (m : Manifest) : list char := path_join (m_root m) (m_entry m).
