(* ===== verification/ManifestOk.v ===== *)
(** * Correctness of manifests

    What a manifest that parses satisfies ([manifest_ok]), that adding a
    dependency keeps it, and that writing such a manifest and reading it back
    gives it again. *)
From Stdlib Require Import ZifyN.
From S2P Require Import Prelude Ast Text Strs Manifest.
Open Scope list_scope.

Local Notation lit := ascii_chars.

(** ** What a manifest promises *)

(** A value that survives between quotes on a line with comments. *)
Definition plain (v : list char) : Prop := newline ∉ v ∧ quote ∉ v ∧ ch "#" ∉ v.

Definition limit_in (low high : N) (limit : option N) : Prop :=
  ∀ n, limit = Some n → low ≤ n ≤ high.

(** The manifests that are accepted: every dependency is pinned, every grant is
    of a known capability and has the form its kind allows, every scope belongs
    to a capability that is granted, unsafe modules come with the capability
    Native, and the entry stays below the root. *)
Record manifest_ok (m : Manifest) : Prop := {
  ok_name : valid_name (m_name m) = true;
  ok_version : valid_version (m_version m) = true;
  ok_entry : is_absolute (m_entry m) = false ∧ ParentDir ∉ components (m_entry m) ∧ plain (m_entry m);
  ok_dependencies : ∀ d v, m_dependencies m !! d = Some v →
    valid_dependency_name d = true ∧ valid_version v = true ∧ d ≠ m_name m;
  ok_capabilities : ∀ c, c ∈ m_capabilities m → known_capability c = true;
  ok_scopes : ∀ c s, m_capability_scopes m !! c = Some s →
    c ∈ m_capabilities m ∧ s ≠ lit "allow" ∧ valid_grant c s = true ∧ plain s;
  ok_unsafe : ∀ u, u ∈ m_unsafe_modules m → known_unsafe_module u = true ∧ lit "Native" ∈ m_capabilities m;
  ok_instructions : limit_in 1 u64_max (m_instruction_limit m);
  ok_memory : limit_in 1 u64_max (m_memory_limit m);
  ok_payload : limit_in 1024 268435456 (m_payload_limit m);
  ok_edition : m_edition m = 4 ∨ m_edition m = 5 }.

(** ** One line *)

(** The keys of a manifest: letters, digits and underscores. *)
Lemma key_chars key c :
  valid_dependency_name key = true → c ∈ key → is_ascii_alphanumeric c || (c =? ch "_") = true.
Proof.
  destruct key as [|k key]; [done|]. cbn. rewrite andb_true_iff, forallb_forall. intros [Hk Hkey].
  rewrite elem_of_cons, list_elem_of_In. intros [->|Hc]; [|by apply Hkey].
  apply orb_true_iff in Hk as [Hk|Hk]; unfold is_ascii_alphanumeric; rewrite Hk; [done|apply orb_true_r].
Qed.

Lemma key_char_bounds c :
  is_ascii_alphanumeric c || (c =? ch "_") = true → 48 ≤ c ≤ 57 ∨ 65 ≤ c ≤ 90 ∨ c = 95 ∨ 97 ≤ c ≤ 122.
Proof.
  unfold is_ascii_alphanumeric, is_ascii_alphabetic, is_ascii_digit. change (ch "_") with 95.
  rewrite !orb_true_iff, !andb_true_iff, !N.leb_le, N.eqb_eq. lia.
Qed.

Lemma key_without key c :
  valid_dependency_name key = true → (c < 48 ∨ c = 61 ∨ c = 91) → c ∉ key.
Proof. intros Hk Hc Hin. pose proof (key_char_bounds c (key_chars key c Hk Hin)). lia. Qed.

Lemma key_char_ink c : is_ascii_alphanumeric c || (c =? ch "_") = true → is_white c = false.
Proof.
  intros Hc%key_char_bounds. unfold is_white.
  rewrite !orb_false_iff, !andb_false_iff, !N.leb_gt, !N.eqb_neq. lia.
Qed.

Lemma key_inked key : valid_dependency_name key = true → inked key.
Proof.
  intros Hk. split; intros c Hc; apply key_char_ink, (key_chars key); try done.
  - destruct key; [done|]. injection Hc as ->. by left.
  - apply last_Some in Hc as [k ->]. apply elem_of_app. right. by left.
Qed.

(** A line [key = "value"]. *)
Definition pair_text (key value : list char) : list char := key ++ quoting " = `" ++ value ++ [quote].

Lemma pair_line_text key value : pair_line key value = pair_text key value ++ [newline].
Proof. unfold pair_line, pair_text. by rewrite <- !app_assoc. Qed.

Lemma pair_text_without key value c :
  valid_dependency_name key = true → c ∉ value → c = newline ∨ c = ch "#" → c ∉ pair_text key value.
Proof.
  intros Hk Hv Hc. unfold pair_text. change (quoting " = `") with [32; 61; 32; 34].
  rewrite !elem_of_app, !elem_of_cons, elem_of_nil. unfold newline, quote in *. change (ch "#") with 35 in *.
  pose proof (key_without key c Hk). intuition lia.
Qed.

Lemma pair_text_inked key value : valid_dependency_name key = true → inked (pair_text key value).
Proof.
  intros Hkey. pose proof (key_inked key Hkey) as [Hhd _]. split; intros c Hc.
  - destruct key as [|k key]; [done|]. by apply Hhd.
  - unfold pair_text in Hc. rewrite !app_assoc, last_snoc in Hc. by injection Hc as <-.
Qed.

Lemma quoted_spec value inner : quoted value = Some inner ↔ value = quote :: inner ++ [quote] ∧ quote ∉ inner.
Proof.
  unfold quoted. rewrite bind_Some. setoid_rewrite strip_prefix_iff. setoid_rewrite bind_Some.
  setoid_rewrite strip_suffix_iff. split.
  - intros (r & -> & k & -> & Hk). destruct (existsb _ _) eqn:He; [done|]. injection Hk as ->. split; [done|].
    intros Hin. apply not_true_iff_false in He. apply He, existsb_exists. exists quote.
    by rewrite <- list_elem_of_In, N.eqb_refl.
  - intros [-> Hq]. exists (inner ++ [quote]). split; [done|]. exists inner. split; [done|].
    destruct (existsb _ _) eqn:He; [|done]. apply existsb_exists in He as (c & Hc%list_elem_of_In & He%N.eqb_eq). by subst.
Qed.

Lemma manifest_line_pair number st key value :
  known_section (p_section st) = true →
  valid_dependency_name key = true → plain value →
  (among ["package"] (p_section st) = true → among ["name"; "version"; "entry"; "edition"] key = true) →
  manifest_line number st (pair_text key value) = value_line number st key value.
Proof.
  intros Hsec Hkey (Hn & Hq & Hh) Hpkg. unfold manifest_line.
  rewrite split_char_none by (apply pair_text_without; auto). cbn [head from_option id].
  rewrite trim_inked by (by apply pair_text_inked).
  assert (is_empty (pair_text key value) = false) as -> by (unfold pair_text; by destruct key).
  assert (starts_with (lit "[") (pair_text key value) = false) as ->.
  { destruct key as [|k key]; [done|]. unfold starts_with. apply bool_decide_eq_false. cbn. intros [= ->].
    apply (key_without (91 :: key) 91 Hkey); [lia|by left]. }
  rewrite Hsec. cbn [andb negb].
  assert (split_once (ch "=") (pair_text key value) = Some (key ++ [32], 32 :: quote :: value ++ [quote])) as ->.
  { apply split_once_iff. split; [by rewrite <- app_assoc|].
    rewrite elem_of_app, list_elem_of_singleton. change (ch "=") with 61.
    intros [H|H]; [|done]. by apply (key_without key 61) in H; [|done|lia]. }
  cbn [ok_or mbind result_bind].
  assert (trim (key ++ [32]) = key) as ->.
  { apply (trim_padded [] key [32]); [done|by constructor|by apply key_inked]. }
  assert (trim (32 :: quote :: value ++ [quote]) = quote :: value ++ [quote]) as ->.
  { rewrite <- (app_nil_r (quote :: value ++ [quote])) at 1. apply (trim_padded [32] _ []); [by constructor|done|].
    split; intros c Hc; [by injection Hc as <-|]. rewrite app_comm_cons, last_snoc in Hc. by injection Hc as <-. }
  destruct (among ["package"] _) eqn:Hp; [rewrite Hpkg by done|]; cbn [andb negb];
    rewrite (proj2 (quoted_spec _ value)) by done; done.
Qed.

(** ** Several lines *)

(** Reading the lines of [text] takes one state to another, whatever follows. *)
Definition reads (st : Reading) (text : list char) (st' : Reading) : Prop :=
  ∀ n rest, ∃ n', manifest_lines n (str_lines [] (text ++ rest)) st = manifest_lines n' (str_lines [] rest) st'.

Lemma reads_nil st : reads st [] st.
Proof. intros n rest. by exists n. Qed.

Lemma reads_app st a st' b st'' : reads st a st' → reads st' b st'' → reads st (a ++ b) st''.
Proof.
  intros Ha Hb n rest. destruct (Ha n (b ++ rest)) as [n' En]. destruct (Hb n' rest) as [n'' En'].
  exists n''. by rewrite <- app_assoc, En.
Qed.

Lemma reads_line st line st' :
  newline ∉ line → ends_in [carriage_return] line = false →
  (∀ n, manifest_line n st line = Ok st') → reads st (line ++ [newline]) st'.
Proof.
  intros Hn Hr Hl n rest. exists (n + 1). rewrite <- app_assoc. cbn [app].
  rewrite str_lines_line by done. unfold strip_return. cbn [app]. rewrite Hr. cbn [manifest_lines]. by rewrite Hl.
Qed.

(** One line of a text, cut from it. *)
Lemma str_lines_pair key value rest :
  valid_dependency_name key = true → newline ∉ value →
  str_lines [] (pair_line key value ++ rest) = pair_text key value :: str_lines [] rest.
Proof.
  intros Hk Hv. rewrite pair_line_text, <- app_assoc. cbn [app].
  rewrite str_lines_line by (apply pair_text_without; auto). unfold strip_return, ends_in, pair_text.
  cbn [app]. by rewrite !app_assoc, last_snoc.
Qed.

Lemma reads_pair st key value st' :
  known_section (p_section st) = true →
  valid_dependency_name key = true → plain value →
  (among ["package"] (p_section st) = true → among ["name"; "version"; "entry"; "edition"] key = true) →
  (∀ n, value_line n st key value = Ok st') → reads st (pair_line key value) st'.
Proof.
  intros Hs Hk Hv Hp Hl. rewrite pair_line_text. apply reads_line.
  - apply pair_text_without; [done|apply Hv|by left].
  - unfold ends_in, pair_text. by rewrite !app_assoc, last_snoc.
  - intros n. rewrite manifest_line_pair by done. apply Hl.
Qed.

(** A section written entry by entry; [f done] is the state after [done]. *)
Lemma reads_each {X} (l : list X) (text : X → list char) (f : list X → Reading) :
  (∀ before x after, l = before ++ x :: after → reads (f before) (text x) (f (before ++ [x]))) →
  reads (f []) (l ≫= text) (f l).
Proof.
  intros Hstep. assert (∀ before after, l = before ++ after → reads (f before) (after ≫= text) (f l)) as H.
  { intros before after. revert before. induction after as [|x after IH]; intros before ->.
    - rewrite app_nil_r. apply reads_nil.
    - cbn [mbind list_bind]. eapply reads_app; [by eapply Hstep|]. apply IH. by rewrite <- app_assoc. }
  by apply (H [] l).
Qed.

Lemma reads_blank st : reads st [newline] st.
Proof. by apply (reads_line st [] st); [apply not_elem_of_nil| |]. Qed.

(** The head of a section. *)
Lemma reads_head st name :
  known_section (lit name) = true →
  reads st (lit "[" ++ lit name ++ lit "]" ++ [newline]) (enter_section st (lit name)).
Proof.
  unfold known_section, among. rewrite existsb_exists.
  intros (w & Hw & Hn%bool_decide_eq_true). rewrite Hn. clear Hn name.
  rewrite !app_assoc. assert (newline ∉ (lit "[" ++ lit w) ++ lit "]" ∧ ends_in [carriage_return] ((lit "[" ++ lit w) ++ lit "]") = false ∧ ∀ n, manifest_line n st ((lit "[" ++ lit w) ++ lit "]") = Ok (enter_section st (lit w))) as (? & ? & ?).
  { repeat (destruct Hw as [<-|Hw]; [split_and!; [by apply (bool_decide_eq_true_1 _); vm_compute|done|done]|]). done. }
  by apply reads_line.
Qed.

Lemma reads_section (present : bool) name body st st' :
  known_section (lit name) = true →
  reads (enter_section st (lit name)) body (enter_section st' (lit name)) →
  (present = false → enter_section st (p_section st) = enter_section st' (p_section st)) →
  ∃ section, reads st (section_lines present name body) (enter_section st' section).
Proof.
  intros Hs Hb He. destruct present; cbn [section_lines negb].
  - exists (lit name). change (newline :: ?t) with ([newline] ++ t). eapply reads_app; [apply reads_blank|].
    replace (lit "[" ++ lit name ++ lit "]" ++ newline :: body)
      with ((lit "[" ++ lit name ++ lit "]" ++ [newline]) ++ body) by by rewrite <- !app_assoc.
    eapply reads_app; [by apply reads_head|done].
  - exists (p_section st). rewrite <- He by done. unfold section_lines, enter_section. cbn. destruct st. apply reads_nil.
Qed.

(** ** Values *)

Lemma plain_of (P : char → bool) v :
  forallb P v = true → P newline = false → P quote = false → P (ch "#") = false → plain v.
Proof.
  rewrite forallb_forall. intros Hv Hn Hq Hh.
  split_and!; intros Hin; apply list_elem_of_In, Hv in Hin; congruence.
Qed.

Lemma plain_name v : valid_name v = true → plain v.
Proof. unfold valid_name. rewrite andb_true_iff. intros [_ Hv]. by eapply plain_of. Qed.

Lemma plain_allow : plain (lit "allow").
Proof. by apply plain_name. Qed.

Lemma version_chars v : valid_version v = true → Forall (λ c, is_ascii_digit c || (c =? ch ".") = true) v.
Proof.
  unfold valid_version. rewrite andb_true_iff, forallb_forall. intros [_ Hv].
  apply (split_char_Forall _ (ch ".")); [done|]. apply List.Forall_forall. intros part Hp.
  apply Hv in Hp. unfold valid_version_part in Hp. rewrite !andb_true_iff, forallb_forall in Hp.
  destruct Hp as [[_ Hp] _]. apply List.Forall_forall. intros c Hc. by rewrite Hp.
Qed.

Lemma plain_version v : valid_version v = true → plain v.
Proof.
  intros Hv%version_chars. apply (plain_of (λ c, is_ascii_digit c || (c =? ch "."))); [|done..].
  by apply forallb_forall, List.Forall_forall.
Qed.

(** The decimal spelling of a number is read back. *)
Definition read_digits (l : list char) (n : N) : option N :=
  foldM (λ c n, if is_ascii_hexdigit c && (digit_value c <? 10) then Some (n * 10 + digit_value c) else None) l n.

Lemma pretty_digit x :
  let c := Ascii.N_of_ascii (pretty_N_char (x `mod` 10)) in
  is_ascii_digit c = true ∧ digit_value c = x `mod` 10.
Proof.
  assert (x `mod` 10 < 10) as Hx by (apply N.mod_lt; lia). revert Hx. generalize (x `mod` 10). intros d Hd.
  assert (d = 0 ∨ d = 1 ∨ d = 2 ∨ d = 3 ∨ d = 4 ∨ d = 5 ∨ d = 6 ∨ d = 7 ∨ d = 8 ∨ d = 9) as H by lia.
  by destruct_or! H; subst.
Qed.

Lemma pretty_go_read x s : read_digits (lit (pretty_N_go x s)) 0 = read_digits (lit s) x.
Proof.
  revert s. induction (N.lt_wf_0 x) as [x _ IH]. intros s.
  destruct (decide (x = 0)) as [->|Hx]; [by rewrite pretty_N_go_0|].
  rewrite pretty_N_go_step by lia. rewrite IH by (apply N.div_lt; lia).
  unfold read_digits. cbn [lit foldM]. fold lit.
  destruct (pretty_digit x) as [Hd Hv]. unfold is_ascii_hexdigit. rewrite Hd, Hv.
  assert (x `mod` 10 <? 10 = true) as -> by (apply N.ltb_lt, N.mod_lt; lia). cbn [orb andb mbind option_bind].
  f_equal. pose proof (N.div_mod x 10). lia.
Qed.

Lemma pretty_go_digits x s :
  Forall (λ c, is_ascii_digit c = true) (lit s) → Forall (λ c, is_ascii_digit c = true) (lit (pretty_N_go x s)).
Proof.
  revert s. induction (N.lt_wf_0 x) as [x _ IH]. intros s Hs.
  destruct (decide (x = 0)) as [->|Hx]; [by rewrite pretty_N_go_0|].
  rewrite pretty_N_go_step by lia. apply IH; [apply N.div_lt; lia|].
  constructor; [apply pretty_digit|done].
Qed.

Lemma decimal_digits n : Forall (λ c, is_ascii_digit c = true) (decimal n).
Proof.
  unfold decimal, pretty, pretty_N. case_decide; [by repeat constructor|]. apply pretty_go_digits. constructor.
Qed.

Lemma decimal_read n : from_digits 10 (decimal n) = Some n.
Proof.
  assert (read_digits (decimal n) 0 = Some n) as H.
  { unfold decimal, pretty, pretty_N. case_decide; [by subst|]. by rewrite pretty_go_read. }
  unfold from_digits. destruct (decimal n) eqn:E; [|done].
  unfold decimal, pretty, pretty_N in E. case_decide; [done|]. cbn in H. congruence.
Qed.

Lemma plain_decimal n : plain (decimal n).
Proof.
  apply (plain_of is_ascii_digit); [|done..]. apply forallb_forall, List.Forall_forall, decimal_digits.
Qed.

Lemma parse_decimal n : n ≤ u64_max → parse_u64 (decimal n) = Some n.
Proof.
  intros Hn. unfold parse_u64.
  assert ((match decimal n with c :: rest => if c =? ch "+" then rest else decimal n | [] => decimal n end) = decimal n) as ->.
  { pose proof (decimal_digits n) as Hd. destruct (decimal n) as [|c l]; [done|]. apply Forall_cons in Hd as [Hc _].
    destruct (N.eqb_spec c (ch "+")) as [->|_]; done. }
  rewrite decimal_read. cbn. destruct (N.leb_spec n u64_max); [done|lia].
Qed.

(** ** Writing and reading back *)

Ltac fields :=
  cbn [p_section p_values p_dependencies p_capabilities p_capability_scopes p_unsafe_modules
       p_instruction_limit p_memory_limit p_payload_limit].

(** The keys of the manifest are words. *)
Lemma word_valid words key :
  Forall (λ w, valid_dependency_name (lit w) = true) words → among words key = true → valid_dependency_name key = true.
Proof.
  unfold among. rewrite existsb_exists, List.Forall_forall. intros Hw (w & Hin & ->%bool_decide_eq_true). by apply Hw.
Qed.

Lemma capability_word c : known_capability c = true → valid_dependency_name c = true.
Proof. apply word_valid. by repeat constructor. Qed.
Lemma module_word u : known_unsafe_module u = true → valid_dependency_name u = true.
Proof. apply word_valid. by repeat constructor. Qed.

Definition package_values (m : Manifest) : gmap (list char) (list char) :=
  (if 5 <=? m_edition m then <[lit "edition" := decimal (m_edition m)]> else id)
    (<[lit "entry" := m_entry m]> (<[lit "version" := m_version m]> {[lit "name" := m_name m]})).

Lemma reads_package_value values key value :
  among ["name"; "version"; "entry"; "edition"] key = true → plain value → values !! key = None →
  reads (mkReading (lit "package") values ∅ ∅ ∅ ∅ None None None) (pair_line key value)
    (mkReading (lit "package") (<[key := value]> values) ∅ ∅ ∅ ∅ None None None).
Proof.
  intros Hk Hv Hnew. apply reads_pair; [done| |done|done|intros n].
  - revert Hk. apply word_valid. by repeat constructor.
  - unfold value_line. cbn [p_section]. change (among ["package"] (lit "package")) with true.
    unfold package_line. cbn [p_values]. rewrite Hnew, bool_decide_false by (by intros [? ?]). done.
Qed.

Lemma reads_package m :
  manifest_ok m →
  reads reading
    (lit "[package]" ++ [newline] ++ pair_line (lit "name") (m_name m) ++ pair_line (lit "version") (m_version m)
     ++ pair_line (lit "entry") (m_entry m)
     ++ (if 5 <=? m_edition m then pair_line (lit "edition") (decimal (m_edition m)) else []))
    (mkReading (lit "package") (package_values m) ∅ ∅ ∅ ∅ None None None).
Proof.
  intros Hm. pose proof (ok_name m Hm). pose proof (ok_version m Hm). destruct (ok_entry m Hm) as (_ & _ & ?).
  change (lit "[package]" ++ [newline] ++ ?t) with ((lit "[" ++ lit "package" ++ lit "]" ++ [newline]) ++ t).
  eapply reads_app; [by apply reads_head|].
  change (enter_section reading (lit "package")) with (mkReading (lit "package") ∅ ∅ ∅ ∅ ∅ None None None).
  eapply reads_app; [by apply reads_package_value; [|apply plain_name|]|].
  eapply reads_app; [by apply reads_package_value; [|apply plain_version|rewrite lookup_insert_ne]|].
  eapply reads_app; [by apply reads_package_value; [| |rewrite !lookup_insert_ne]|].
  unfold package_values. destruct (5 <=? m_edition m); [|apply reads_nil].
  apply reads_package_value; [done|apply plain_decimal|]. by rewrite !lookup_insert_ne.
Qed.

Lemma reads_dependencies m sec values i me p :
  manifest_ok m →
  ∃ sec', reads (mkReading sec values ∅ ∅ ∅ ∅ i me p)
    (section_lines (negb (bool_decide (m_dependencies m = ∅))) "dependencies"
       (entries (m_dependencies m) ≫= λ '(name, version), pair_line name version))
    (mkReading sec' values (m_dependencies m) ∅ ∅ ∅ i me p).
Proof.
  intros Hm.
  apply (reads_section _ _ _ (mkReading sec values ∅ ∅ ∅ ∅ i me p) (mkReading sec values (m_dependencies m) ∅ ∅ ∅ i me p)).
  - done.
  - unfold enter_section. fields. rewrite <- (list_to_map_entries (m_dependencies m)) at 2.
    apply (reads_each _ _ (λ l, mkReading (lit "dependencies") values (list_to_map l) ∅ ∅ ∅ i me p)).
    intros before [d v] after E.
    assert ((d, v) ∈ entries (m_dependencies m)) as Hin%elem_of_entries.
    { rewrite E. apply elem_of_app. right. by left. }
    destruct (ok_dependencies m Hm d v Hin) as (Hd & Hv & _).
    assert (d ∉ before.*1) as Hnew.
    { pose proof (entries_NoDup (m_dependencies m)) as Hnd. rewrite E, fmap_app in Hnd.
      apply NoDup_app in Hnd as (_ & Hdis & _). intros Hb. apply (Hdis d Hb). by left. }
    apply reads_pair; [done|done|by apply plain_version|done|]. intros n. unfold value_line, dependency_line. cbn [p_section].
    change (among ["package"] (lit "dependencies")) with false. change (among ["dependencies"] (lit "dependencies")) with true.
    rewrite Hd, Hv. cbn [negb p_dependencies]. rewrite bool_decide_false.
    + do 2 f_equal. by rewrite list_to_map_snoc.
    + by rewrite (not_elem_of_list_to_map_1 before d) by done; intros [? ?].
  - intros H%negb_false_iff%bool_decide_eq_true. unfold enter_section. fields. by rewrite H.
Qed.

(** The scopes of the capabilities written so far. *)
Definition scopes_of (m : Manifest) (l : list (list char)) : gmap (list char) (list char) :=
  filter (λ kv, kv.1 ∈ l) (m_capability_scopes m).

Lemma scopes_of_nil m : scopes_of m [] = ∅.
Proof. apply map_empty. intros c. apply map_lookup_filter_None. right. by intros s _ ?%elem_of_nil. Qed.

Lemma scopes_of_snoc m l c :
  scopes_of m (l ++ [c]) =
  match m_capability_scopes m !! c with Some s => <[c := s]> (scopes_of m l) | None => scopes_of m l end.
Proof.
  apply map_eq. intros k. unfold scopes_of. apply option_eq. intros s.
  rewrite map_lookup_filter_Some. cbn [fst]. rewrite elem_of_app, list_elem_of_singleton.
  destruct (m_capability_scopes m !! c) as [s'|] eqn:E; [rewrite lookup_insert_Some|];
    rewrite map_lookup_filter_Some; cbn [fst]; destruct (decide (k = c)); naive_solver.
Qed.

Lemma scopes_of_all m : manifest_ok m → scopes_of m (members (m_capabilities m)) = m_capability_scopes m.
Proof.
  intros Hm. apply map_filter_id. intros c s Hc. apply elem_of_members. by apply (ok_scopes m Hm c s).
Qed.

Lemma members_new s before x after : members s = before ++ x :: after → x ∉ before ∧ x ∈ s.
Proof.
  intros E. split.
  - pose proof (members_NoDup s) as H. rewrite E in H. apply NoDup_app in H as (_ & H & _).
    intros Hx. apply (H x Hx). by left.
  - apply elem_of_members. rewrite E. apply elem_of_app. right. by left.
Qed.

Lemma snoc_set (before : list (list char)) x :
  ({[x]} ∪ list_to_set before : gset (list char)) = list_to_set (before ++ [x]).
Proof. rewrite list_to_set_app_L. cbn. set_solver. Qed.

Lemma reads_capabilities m sec values i me p :
  manifest_ok m →
  ∃ sec', reads (mkReading sec values (m_dependencies m) ∅ ∅ ∅ i me p)
    (section_lines (negb (bool_decide (m_capabilities m = ∅))) "capabilities"
       (members (m_capabilities m) ≫= λ capability,
          pair_line capability (default (lit "allow") (m_capability_scopes m !! capability))))
    (mkReading sec' values (m_dependencies m) (m_capabilities m) (m_capability_scopes m) ∅ i me p).
Proof.
  intros Hm.
  apply (reads_section _ _ _ (mkReading sec values (m_dependencies m) ∅ ∅ ∅ i me p)
           (mkReading sec values (m_dependencies m) (m_capabilities m) (m_capability_scopes m) ∅ i me p)).
  - done.
  - unfold enter_section. fields. rewrite <- (list_to_set_members (m_capabilities m)) at 2.
    set (f := λ l, mkReading (lit "capabilities") values (m_dependencies m) (list_to_set l) (scopes_of m l) ∅ i me p).
    enough (reads (f []) (members (m_capabilities m) ≫= λ capability,
      pair_line capability (default (lit "allow") (m_capability_scopes m !! capability))) (f (members (m_capabilities m)))) as H.
    { unfold f in H. by rewrite scopes_of_all, scopes_of_nil in H. }
    apply reads_each.
    intros before c after [Hnew Hin]%members_new. pose proof (ok_capabilities m Hm c Hin) as Hc.
    pose proof (ok_scopes m Hm c) as Hs. unfold f. rewrite scopes_of_snoc, <- snoc_set.
    apply reads_pair; [done|by apply capability_word| |done|].
    { destruct (_ !! c) as [s|]; [by apply Hs|apply plain_allow]. }
    intros n. unfold value_line, capability_line. fields.
    change (among ["package"] (lit "capabilities")) with false.
    change (among ["dependencies"] (lit "capabilities")) with false.
    change (among ["capabilities"] (lit "capabilities")) with true. rewrite Hc. cbn [negb].
    assert (bool_decide (c ∈ (list_to_set before : gset (list char))) = false) as ->
      by (by apply bool_decide_eq_false; rewrite elem_of_list_to_set).
    destruct (_ !! c) as [s|]; cbn [default from_option id]; [|by rewrite bool_decide_true].
    destruct (Hs s eq_refl) as (_ & Hal & Hg & _). by rewrite Hg, bool_decide_false.
  - intros H%negb_false_iff%bool_decide_eq_true. unfold enter_section. fields. rewrite H. f_equal.
    symmetry. apply map_empty. intros c. destruct (_ !! c) eqn:E; [|done].
    apply (ok_scopes m Hm) in E as [E _]. rewrite H in E. by apply not_elem_of_empty in E.
Qed.

Lemma reads_unsafe m sec values deps caps scopes i me p :
  manifest_ok m →
  ∃ sec', reads (mkReading sec values deps caps scopes ∅ i me p)
    (section_lines (negb (bool_decide (m_unsafe_modules m = ∅))) "unsafe"
       (members (m_unsafe_modules m) ≫= λ module, pair_line module (lit "allow")))
    (mkReading sec' values deps caps scopes (m_unsafe_modules m) i me p).
Proof.
  intros Hm.
  apply (reads_section _ _ _ (mkReading sec values deps caps scopes ∅ i me p)
           (mkReading sec values deps caps scopes (m_unsafe_modules m) i me p)).
  - done.
  - unfold enter_section. fields. rewrite <- (list_to_set_members (m_unsafe_modules m)) at 2.
    apply (reads_each _ _ (λ l, mkReading (lit "unsafe") values deps caps scopes (list_to_set l) i me p)).
    intros before u after [Hnew Hin]%members_new. destruct (ok_unsafe m Hm u Hin) as [Hu _]. rewrite <- snoc_set.
    apply reads_pair; [done|by apply module_word|apply plain_allow|done|].
    intros n. unfold value_line, unsafe_line. fields.
    change (among ["package"] (lit "unsafe")) with false. change (among ["dependencies"] (lit "unsafe")) with false.
    change (among ["capabilities"] (lit "unsafe")) with false. change (among ["unsafe"] (lit "unsafe")) with true.
    rewrite Hu. cbn [negb].
    rewrite bool_decide_true by done. cbn [negb]. by rewrite bool_decide_false by (by rewrite elem_of_list_to_set).
  - intros H%negb_false_iff%bool_decide_eq_true. unfold enter_section. fields. by rewrite H.
Qed.

(** The three limits. *)
Lemma reads_limit st key limit after :
  p_section st = lit "limits" →
  among ["instructions"; "memory_bytes"; "payload_bytes"] (lit key) = true →
  (limit = None → st = after) →
  (∀ n d, limit = Some d → limit_line n st (lit key) (decimal d) = Ok after) →
  reads st (limit_entry key limit) after.
Proof.
  intros Hsec Hkey Hnone Hstep. destruct limit as [d|]; cbn [limit_entry].
  - apply reads_pair; [by rewrite Hsec| |apply plain_decimal|by rewrite Hsec|].
    + revert Hkey. apply word_valid. by repeat constructor.
    + intros n. unfold value_line. rewrite Hsec.
      change (limit_line n st (lit key) (decimal d) = Ok after). by apply Hstep.
  - rewrite Hnone by done. apply reads_nil.
Qed.

Lemma limit_line_parsed n st key d :
  1 ≤ d ≤ u64_max →
  among ["instructions"; "memory_bytes"; "payload_bytes"] key = true →
  (among ["payload_bytes"] key = true → 1024 ≤ d ≤ 268435456) →
  limit_line n st key (decimal d) =
    (let with_limits :=
       mkReading (p_section st) (p_values st) (p_dependencies st)
         (p_capabilities st) (p_capability_scopes st) (p_unsafe_modules st) in
     if among ["instructions"] key then
       duplicate_limit n key (p_instruction_limit st)
         (with_limits (Some d) (p_memory_limit st) (p_payload_limit st))
     else if among ["memory_bytes"] key then
       duplicate_limit n key (p_memory_limit st)
         (with_limits (p_instruction_limit st) (Some d) (p_payload_limit st))
     else
       duplicate_limit n key (p_payload_limit st)
         (with_limits (p_instruction_limit st) (p_memory_limit st) (Some d))).
Proof.
  intros Hd Hk Hp. unfold limit_line. rewrite Hk, parse_decimal by lia. cbn [negb].
  destruct d as [|d]; [lia|]. destruct (among ["payload_bytes"] key); [|done].
  destruct (Hp eq_refl) as [H1 H2]. apply N.leb_le in H1, H2. by rewrite H1, H2.
Qed.

Lemma reads_limits m sec values deps caps scopes unsafes :
  manifest_ok m →
  ∃ sec', reads (mkReading sec values deps caps scopes unsafes None None None)
    (section_lines (bool_decide (is_Some (m_instruction_limit m) ∨ is_Some (m_memory_limit m)
                                 ∨ is_Some (m_payload_limit m))) "limits"
       (limit_entry "instructions" (m_instruction_limit m) ++ limit_entry "memory_bytes" (m_memory_limit m)
        ++ limit_entry "payload_bytes" (m_payload_limit m)))
    (mkReading sec' values deps caps scopes unsafes (m_instruction_limit m) (m_memory_limit m) (m_payload_limit m)).
Proof.
  intros Hm. pose proof (ok_instructions m Hm) as Hi. pose proof (ok_memory m Hm) as Hme.
  pose proof (ok_payload m Hm) as Hp.
  apply (reads_section _ _ _ (mkReading sec values deps caps scopes unsafes None None None)
           (mkReading sec values deps caps scopes unsafes (m_instruction_limit m) (m_memory_limit m) (m_payload_limit m))).
  - done.
  - unfold enter_section. fields.
    eapply reads_app; [|eapply reads_app].
    + apply (reads_limit _ _ _ (mkReading (lit "limits") values deps caps scopes unsafes (m_instruction_limit m) None None));
        [done|done|by intros ->|].
      intros n d E. specialize (Hi d E). rewrite limit_line_parsed by (done || lia). by rewrite E.
    + apply (reads_limit _ _ _ (mkReading (lit "limits") values deps caps scopes unsafes
               (m_instruction_limit m) (m_memory_limit m) None)); [done|done|by intros ->|].
      intros n d E. specialize (Hme d E). rewrite limit_line_parsed by (done || lia). by rewrite E.
    + apply reads_limit; [done|done|by intros ->|].
      intros n d E. specialize (Hp d E). rewrite limit_line_parsed by (done || unfold u64_max; lia). by rewrite E.
  - intros H%bool_decide_eq_false. unfold enter_section. fields.
    destruct (m_instruction_limit m), (m_memory_limit m), (m_payload_limit m); try done; naive_solver.
Qed.

Lemma package_values_lookup m :
  package_values m !! lit "name" = Some (m_name m) ∧ package_values m !! lit "version" = Some (m_version m) ∧
  package_values m !! lit "entry" = Some (m_entry m).
Proof.
  unfold package_values. split_and!; destruct (5 <=? m_edition m); cbn [id];
    repeat (rewrite lookup_insert_ne by done); by rewrite ?lookup_insert_eq, ?lookup_singleton_eq.
Qed.

Lemma package_values_edition m :
  manifest_ok m → package_values m !! lit "edition" = if m_edition m =? 4 then None else Some (lit "5").
Proof.
  intros Hm. unfold package_values. destruct (ok_edition m Hm) as [-> | ->].
  - change (5 <=? 4) with false. cbn [id]. by rewrite !lookup_insert_ne, lookup_singleton_ne.
  - change (5 <=? 5) with true. cbn [id]. by rewrite lookup_insert_eq.
Qed.

Lemma finish_written m sec root :
  manifest_ok m →
  finish (mkReading sec (package_values m) (m_dependencies m) (m_capabilities m) (m_capability_scopes m)
            (m_unsafe_modules m) (m_instruction_limit m) (m_memory_limit m) (m_payload_limit m)) root =
  Ok (mkManifest root (m_name m) (m_version m) (m_entry m) (m_dependencies m) (m_capabilities m)
        (m_capability_scopes m) (m_unsafe_modules m) (m_instruction_limit m) (m_memory_limit m)
        (m_payload_limit m) (m_edition m)).
Proof.
  intros Hm. unfold finish. fields.
  destruct (package_values_lookup m) as (Hname & Hversion & Hentry).
  unfold required. rewrite Hname, Hversion, Hentry.
  cbn [ok_or mbind result_bind]. rewrite (ok_name m Hm), (ok_version m Hm). cbn [negb].
  rewrite bool_decide_false by (intros [v Hv]; by apply (ok_dependencies m Hm) in Hv as (_ & _ & ?)).
  assert (negb (bool_decide (m_unsafe_modules m = ∅)) && negb (bool_decide (lit "Native" ∈ m_capabilities m)) = false) as ->.
  { destruct (decide (m_unsafe_modules m = ∅)) as [->|Hne]; [by rewrite bool_decide_true|].
    apply set_choose_L in Hne as [u Hu]. apply (ok_unsafe m Hm) in Hu as [_ Hn].
    by rewrite (bool_decide_true (_ ∈ _)), andb_false_r. }
  destruct (ok_entry m Hm) as (Ha & Hpd & _).
  rewrite (package_values_edition m Hm). destruct (ok_edition m Hm) as [-> | ->].
  - change (4 =? 4) with true. cbn [mbind result_bind]. by rewrite Ha, bool_decide_false.
  - change (5 =? 4) with false. cbv iota beta.
    rewrite (bool_decide_false (lit "5" = lit "4")), (bool_decide_true (lit "5" = lit "5")) by done.
    cbn [mbind result_bind]. by rewrite Ha, bool_decide_false.
Qed.

(** ** What is read *)

(** The invariant of the loop over the lines. *)
Record reading_ok (st : Reading) : Prop := {
  in_values : ∀ k v, p_values st !! k = Some v → plain v;
  in_dependencies : ∀ d v, p_dependencies st !! d = Some v → valid_dependency_name d = true ∧ valid_version v = true;
  in_capabilities : ∀ c, c ∈ p_capabilities st → known_capability c = true;
  in_scopes : ∀ c s, p_capability_scopes st !! c = Some s →
    c ∈ p_capabilities st ∧ s ≠ lit "allow" ∧ valid_grant c s = true ∧ plain s;
  in_unsafe : ∀ u, u ∈ p_unsafe_modules st → known_unsafe_module u = true;
  in_instructions : limit_in 1 u64_max (p_instruction_limit st);
  in_memory : limit_in 1 u64_max (p_memory_limit st);
  in_payload : limit_in 1024 268435456 (p_payload_limit st) }.

Lemma reading_ok_start : reading_ok reading.
Proof. split; cbn; intros *; set_solver || done. Qed.

(** Case analysis on the guards of a line that was accepted. *)
Ltac accepted :=
  repeat match goal with
    | H : (if ?b then _ else _) = Ok _ |- _ => destruct b eqn:?; [done|]
    | H : negb _ = false |- _ => apply negb_false_iff in H
    end.

Lemma package_line_ok n st key value st' :
  reading_ok st → plain value → package_line n st key value = Ok st' → reading_ok st'.
Proof.
  intros Hst Hv. unfold package_line. intros H. accepted. injection H as <-.
  split; fields; try apply Hst. intros k v [[-> <-]|[_ Hk]]%lookup_insert_Some; [done|by eapply Hst].
Qed.

Lemma dependency_line_ok n st key value st' :
  reading_ok st → dependency_line n st key value = Ok st' → reading_ok st'.
Proof.
  intros Hst. unfold dependency_line. intros H. accepted. injection H as <-.
  split; fields; try apply Hst. intros d v [[-> <-]|[_ Hk]]%lookup_insert_Some; [done|by eapply Hst].
Qed.

Lemma capability_line_ok n st key value st' :
  reading_ok st → plain value → capability_line n st key value = Ok st' → reading_ok st'.
Proof.
  intros Hst Hv. unfold capability_line. intros H. accepted. injection H as <-.
  split; fields; try apply Hst.
  - intros c [->%elem_of_singleton|Hc]%elem_of_union; [done|by apply Hst].
  - intros c s Hs. case_bool_decide as Hal.
    + apply (in_scopes st Hst) in Hs as (? & ?). split; [by apply elem_of_union_r|done].
    + apply lookup_insert_Some in Hs as [[-> <-]|[_ Hs]]; [split_and!; [set_solver|done..]|].
      apply (in_scopes st Hst) in Hs as (? & ?). split; [by apply elem_of_union_r|done].
Qed.

Lemma unsafe_line_ok n st key value st' :
  reading_ok st → unsafe_line n st key value = Ok st' → reading_ok st'.
Proof.
  intros Hst. unfold unsafe_line. intros H. accepted. injection H as <-.
  split; fields; try apply Hst. intros u [->%elem_of_singleton|Hu]%elem_of_union; [done|by apply Hst].
Qed.

Lemma duplicate_limit_ok n key slot after st' : duplicate_limit n key slot after = Ok st' → after = st'.
Proof. destruct slot; [done|]. by intros [= ->]. Qed.

Lemma limit_in_Some low high d : low ≤ d ≤ high → limit_in low high (Some d).
Proof. by intros ? n [= <-]. Qed.

Lemma limit_line_ok n st key value st' :
  reading_ok st → limit_line n st key value = Ok st' → reading_ok st'.
Proof.
  intros Hst. unfold limit_line. intros H. accepted.
  destruct (parse_u64 value) as [[|d]|] eqn:Ed; [done| |done].
  assert (1 ≤ Npos d ≤ u64_max) as Hd.
  { unfold parse_u64 in Ed. apply bind_Some in Ed as (x & _ & Hx).
    destruct (N.leb_spec x u64_max); [|done]. injection Hx as ->. lia. }
  destruct (among ["payload_bytes"] key && _) eqn:Hp; [done|].
  destruct (among ["instructions"] key) eqn:Hi; [|destruct (among ["memory_bytes"] key) eqn:Hme];
    apply duplicate_limit_ok in H as <-; split; fields; try apply Hst; apply limit_in_Some; try done.
  assert (among ["payload_bytes"] key = true) as Hk.
  { match goal with Ha : among [_; _; _] key = true |- _ => unfold among in Ha, Hi, Hme |- *; cbn [existsb] in * end.
    rewrite !orb_false_r in *. by rewrite Hi, Hme in *. }
  rewrite Hk in Hp. cbn [andb] in Hp. apply negb_false_iff, andb_true_iff in Hp as [?%N.leb_le ?%N.leb_le]. done.
Qed.

Lemma value_line_ok n st key value st' :
  reading_ok st → plain value → value_line n st key value = Ok st' → reading_ok st'.
Proof.
  intros Hst Hv. unfold value_line. repeat case_match;
    eauto using package_line_ok, dependency_line_ok, capability_line_ok, unsafe_line_ok, limit_line_ok.
Qed.

Lemma enter_section_ok st section : reading_ok st → reading_ok (enter_section st section).
Proof. intros Hst. split; apply Hst. Qed.

Lemma manifest_line_ok n st raw st' :
  reading_ok st → newline ∉ raw → manifest_line n st raw = Ok st' → reading_ok st'.
Proof.
  intros Hst Hraw. unfold manifest_line. destruct (split_char_head (ch "#") raw) as [Hhash Hsub].
  set (line := trim _). assert (newline ∉ line ∧ ch "#" ∉ line) as [Hn Hh].
  { split; intros Hc%trim_subset; [by apply Hraw, Hsub|done]. }
  clearbody line. destruct (is_empty line); [by intros [= <-]|].
  destruct (_ && _); [destruct (known_section _); [|done]; intros [= <-]; by apply enter_section_ok|].
  destruct (negb _); [done|]. destruct (split_once _ line) as [[key raw_value]|] eqn:Es; [|done]. cbn [ok_or mbind result_bind].
  apply split_once_iff in Es as [-> _]. destruct (_ && _); [done|].
  destruct (quoted _) as [value|] eqn:Eq; [|done]. cbn [ok_or mbind result_bind].
  apply quoted_spec in Eq as [Etrim Hq]. apply value_line_ok; [done|].
  assert (∀ c, c ∈ value → c ∈ key ++ ch "=" :: raw_value) as Hin.
  { intros c Hc. apply elem_of_app. right. right. apply trim_subset. rewrite Etrim. right. apply elem_of_app. by left. }
  split_and!; [intros H|done|intros H]; by apply Hin in H.
Qed.

Lemma manifest_lines_ok n lines st st' :
  reading_ok st → Forall (λ l, newline ∉ l) lines → manifest_lines n lines st = Ok st' → reading_ok st'.
Proof.
  intros Hst Hl. revert n st Hst. induction Hl as [|raw lines Hraw _ IH]; intros n st Hst; cbn [manifest_lines].
  - by intros [= <-].
  - intros (st1 & H1 & H2)%bind_Ok. eauto using manifest_line_ok.
Qed.

Lemma finish_ok st root m : reading_ok st → finish st root = Ok m → manifest_ok m ∧ m_root m = root.
Proof.
  intros Hst. unfold finish, required. intros (name & Hname%ok_or_Ok & H)%bind_Ok. accepted.
  apply bind_Ok in H as (version & Hversion%ok_or_Ok & H). accepted.
  apply bind_Ok in H as (edition & Hedition & H). apply bind_Ok in H as (entry & Hentry%ok_or_Ok & H). accepted.
  injection H as <-. split; [|done].
  repeat match goal with
    | H : _ || _ = false |- _ => apply orb_false_iff in H as [? ?]
    | H : bool_decide _ = false |- _ => apply bool_decide_eq_false in H
    end.
  split; cbn; try apply Hst; try done.
  - split_and!; [done|done|by eapply Hst].
  - intros d v Hd. destruct (in_dependencies st Hst d v Hd). split_and!; [done..|]. intros ->.
    match goal with H : ¬ is_Some _ |- _ => by apply H; exists v end.
  - intros u Hu. split; [by apply Hst|]. match goal with H : _ && _ = false |- _ => rename H into Hand end.
    apply andb_false_iff in Hand as [Hu'|Hn]; apply negb_false_iff, bool_decide_eq_true in Hu' || apply negb_false_iff, bool_decide_eq_true in Hn; [|done].
    rewrite Hu' in Hu. by apply not_elem_of_empty in Hu.
  - repeat case_match; simplify_eq; tauto.
Qed.

Lemma parse_manifest_ok text root m : parse_manifest text root = Ok m → manifest_ok m ∧ m_root m = root.
Proof.
  unfold parse_manifest. intros (st & Hst & Hm)%bind_Ok. eapply finish_ok, Hm.
  eapply manifest_lines_ok, Hst; [apply reading_ok_start|].
  apply Forall_forall. intros l Hl. eapply str_lines_no_newline, Hl. apply not_elem_of_nil.
Qed.

Lemma add_dependency_ok m name version m' :
  manifest_ok m → add_dependency m name version = Ok m' →
  manifest_ok m' ∧ m_dependencies m' = <[name := version]> (m_dependencies m).
Proof.
  intros Hm. unfold add_dependency. intros H. accepted. injection H as <-. split; [|done].
  split; cbn; try apply Hm. intros d v [[-> <-]|[_ Hd]]%lookup_insert_Some; [|by eapply Hm].
  split_and!; [done..|]. by eapply bool_decide_eq_false_1.
Qed.

(** A manifest that is written and read back is the same manifest: for every
    manifest with pinned dependencies, well-formed grants whose scopes belong to
    them, unsafe modules under Native and limits in range, [parse] reads from
    the text of [source] exactly that manifest. *)
Lemma source_parses m : manifest_ok m → parse_manifest (source m) (m_root m) = Ok m.
Proof.
  intros Hm. unfold parse_manifest, source.
  destruct (reads_dependencies m (lit "package") (package_values m) None None None Hm) as [s1 H1].
  destruct (reads_capabilities m s1 (package_values m) None None None Hm) as [s2 H2].
  destruct (reads_unsafe m s2 (package_values m) (m_dependencies m) (m_capabilities m) (m_capability_scopes m) None None None Hm) as [s3 H3].
  destruct (reads_limits m s3 (package_values m) (m_dependencies m) (m_capabilities m) (m_capability_scopes m) (m_unsafe_modules m) Hm) as [s4 H4].
  pose proof (reads_app _ _ _ _ _ (reads_package m Hm) (reads_app _ _ _ _ _ H1 (reads_app _ _ _ _ _ H2 (reads_app _ _ _ _ _ H3 H4)))) as Hall.
  destruct (Hall 1 []) as [n En]. rewrite app_nil_r, <- !app_assoc in En. rewrite En. cbn [str_lines is_empty manifest_lines].
  cbn [mbind result_bind]. rewrite finish_written by done. by destruct m.
Qed.

(** C32: what the manifest reader accepts it can stand by.  A text that parses
    gives a manifest whose name and versions are well formed, whose dependencies
    are pinned and none of them itself, whose grants are known and of the form
    their kind allows, with unsafe modules only under Native and limits within
    bounds; adding a dependency keeps all of this; and every such manifest,
    written out, reads back as the same, with every grant and its scope. *)
Theorem manifest_accepted :
  (∀ text root m, parse_manifest text root = Ok m → manifest_ok m ∧ m_root m = root) ∧
  (∀ m name version m', manifest_ok m → add_dependency m name version = Ok m' →
     manifest_ok m' ∧ m_dependencies m' = <[name := version]> (m_dependencies m)) ∧
  (∀ m, manifest_ok m → parse_manifest (source m) (m_root m) = Ok m).
Proof. split_and!; [apply parse_manifest_ok|apply add_dependency_ok|apply source_parses]. Qed.

Definition sample_manifest : list char := quoting "[package]
name = `demo` # the name
version = `1.20.3`
entry = `src/main.niv`
edition = `5`

[capabilities]
Network = `host:example.com;method:GET`
Native = `kind:db`
[unsafe]
ffi = `allow`
[limits]
payload_bytes = `+1024`
".

Lemma sample_manifest_reads :
  ∃ m m', parse_manifest sample_manifest (lit "/p") = Ok m ∧ manifest_ok m ∧
    m_capability_scopes m !! lit "Native" = Some (lit "kind:db") ∧ m_payload_limit m = Some 1024 ∧
    add_dependency m (lit "abc") (lit "2.0.0") = Ok m' ∧ parse_manifest (source m') (m_root m') = Ok m'.
Proof.
  destruct (parse_manifest sample_manifest (lit "/p")) as [m|] eqn:Hm; [|by vm_compute in Hm].
  destruct (parse_manifest_ok _ _ _ Hm) as [Hok _].
  destruct (add_dependency m (lit "abc") (lit "2.0.0")) as [m'|] eqn:Hm'.
  - exists m, m'. destruct (add_dependency_ok _ _ _ _ Hok Hm') as (Hok' & _). apply source_parses in Hok'.
    vm_compute in Hm. injection Hm as <-. split_and!; [done|done|by vm_compute|done|done|done].
  - vm_compute in Hm. injection Hm as <-. by vm_compute in Hm'.
Qed.
