(* ===== verification/Package.v ===== *)
(** * Package archives

    The archive half of src/src/package.rs: [Package::encode] and
    [Package::decode] with their [Reader], and the checks of identities, paths
    and files.  A [Reader] is the bytes and an offset.  The other half of the
    file, registries and installation, is in [Registry] and [Install]. *)
From S2P Require Import Prelude Ast Text Strs Manifest.
Open Scope list_scope.

Local Notation lit := ascii_chars.

(** [Package] *)
Record Package := mkPackage {
  pk_name : list char; pk_version : list char; pk_files : gmap (list char) (list byte) }.

Definition MAGIC : list byte := string_bytes "NIVP".
Definition FORMAT_VERSION : N := 1.
Definition MAX_FILES : N := 4096.
Definition MAX_FILE_SIZE : N := 16 * 1024 * 1024.
Definition MAX_PACKAGE_SIZE : N := 64 * 1024 * 1024.

Definition MANIFEST_NAME : list char := lit "niv.toml".
Definition LOCKFILE_NAME : list char := lit "niv.lock".
Definition AUTHORITY_LOCKFILE_NAME : list char := lit "niv.authority.lock".

(** [package_error] *)
Definition package_error (message : list char) : NivError := NivError_new (str_of_chars message) 1 1.
Definition refuse {A} (message : string) : result NivError A := Err (package_error (lit message)).

(** ** Checks *)

(** [validate_path] *)
Definition validate_path (value : list char) : result NivError unit :=
  if is_empty value || (4096 <? len (as_bytes value)) || existsb (N.eqb backslash) value
  then refuse "invalid package path"
  else if is_absolute value
          || existsb (λ part, match part with NormalDir _ => false | _ => true end) (components value)
  then refuse "package path must be normalized and relative"
  else Ok tt.

(** The loop of [validate_files]: the total of the sizes. *)
Fixpoint validate_each (files : list (list char * list byte)) (total : N) : result NivError N :=
  match files with
  | [] => Ok total
  | (path, contents) :: files =>
      _ ← validate_path path;
      if MAX_FILE_SIZE <? len contents then refuse "package file exceeds 16 MiB"
      else
        total ← ok_or (package_error (lit "package size overflow")) (checked_add total (len contents));
        validate_each files total
  end.

(** [validate_files] *)
Definition validate_files (files : gmap (list char) (list byte)) : result NivError unit :=
  if bool_decide (files = ∅) || (MAX_FILES <? N.of_nat (size files)) then refuse "invalid package file count"
  else
    total ← validate_each (entries files) 0;
    if MAX_PACKAGE_SIZE <? total then refuse "package contents exceed 64 MiB" else Ok tt.

(** [validate_identity] *)
Definition identity_source (name version : list char) : list char :=
  quoting "[package]" ++ [newline] ++ quoting "name = `" ++ name ++ [quote; newline]
  ++ quoting "version = `" ++ version ++ [quote; newline] ++ quoting "entry = `main.niv`" ++ [newline].
Definition validate_identity (name version : list char) : result NivError unit :=
  _ ← parse_manifest (identity_source name version) (lit "."); Ok tt.

(** ** Encoding *)

(** [write_u32], [write_u64] and [write_string]: the bytes they append. *)
Definition write_u32 (value : N) : result NivError (list byte) :=
  if value <=? u32_max then Ok (to_le_bytes 4 value) else refuse "package value exceeds u32".
Definition write_u64 (value : N) : result NivError (list byte) :=
  if value <=? u64_max then Ok (to_le_bytes 8 value) else refuse "package value exceeds u64".
Definition write_text (value : list char) : result NivError (list byte) :=
  size ← write_u32 (len (as_bytes value)); Ok (size ++ as_bytes value).

Fixpoint write_files (files : list (list char * list byte)) : result NivError (list byte) :=
  match files with
  | [] => Ok []
  | (path, contents) :: files =>
      name ← write_text path;
      size ← write_u64 (len contents);
      rest ← write_files files;
      Ok (name ++ size ++ contents ++ rest)
  end.

(** [Package::encode] *)
Definition encode_package (p : Package) : result NivError (list byte) :=
  _ ← validate_identity (pk_name p) (pk_version p);
  _ ← validate_files (pk_files p);
  name ← write_text (pk_name p);
  version ← write_text (pk_version p);
  count ← write_u32 (N.of_nat (size (pk_files p)));
  files ← write_files (entries (pk_files p));
  let bytes := MAGIC ++ to_le_bytes 2 FORMAT_VERSION ++ name ++ version ++ count ++ files in
  if MAX_PACKAGE_SIZE <? len bytes then refuse "package exceeds 64 MiB" else Ok bytes.

(** ** Decoding *)

(** What a reader returns and the offset afterwards. *)
Definition Cursor (A : Type) : Type := list byte → N → result NivError (A * N).

#[export] Instance cursor_ret : MRet Cursor := λ A a bytes offset, Ok (a, offset).
#[export] Instance cursor_bind : MBind Cursor := λ A B f r bytes offset,
  match r bytes offset with Ok (a, offset) => f a bytes offset | Err e => Err e end.

Definition lift {A} (r : result NivError A) : Cursor A := λ bytes offset,
  match r with Ok a => Ok (a, offset) | Err e => Err e end.

(** [Reader::take] with its two errors *)
Definition cursor_take (overflow truncated : NivError) (length : N) : Cursor (list byte) := λ bytes offset,
  match checked_add offset length with
  | None => Err overflow
  | Some stop =>
      match slice_get bytes offset stop with
      | None => Err truncated
      | Some value => Ok (value, stop)
      end
  end.

Definition take_bytes : N → Cursor (list byte) :=
  cursor_take (package_error (lit "package offset overflow")) (package_error (lit "truncated package")).

(** [Reader::u16], [Reader::u32], [Reader::u64] and [Reader::string] *)
Definition read_number (width : N) : Cursor N := bytes ← take_bytes width; mret (from_le_bytes bytes).

(** [String::from_utf8] *)
Definition text_of_bytes (bytes : list byte) : option (list char) :=
  if utf8_valid bytes then Some (decode_utf8 bytes) else None.

Definition read_text : Cursor (list char) :=
  length ← read_number 4;
  if 4096 <? length then lift (refuse "package string exceeds 4096 bytes")
  else
    bytes ← take_bytes length;
    lift (ok_or (package_error (lit "package string is not UTF-8")) (text_of_bytes bytes)).

(** The loop over the files. *)
Fixpoint read_files (count : nat) (files : gmap (list char) (list byte)) : Cursor (gmap (list char) (list byte)) :=
  match count with
  | O => mret files
  | S count =>
      path ← read_text;
      _ ← lift (validate_path path);
      length ← read_number 8;
      if MAX_FILE_SIZE <? length then lift (refuse "package file exceeds 16 MiB")
      else
        contents ← take_bytes length;
        if bool_decide (is_Some (files !! path)) then lift (refuse "duplicate package path")
        else read_files count (<[path := contents]> files)
  end.

Definition read_package : Cursor (list char * list char * gmap (list char) (list byte)) :=
  magic ← take_bytes 4;
  if negb (bool_decide (magic = MAGIC)) then lift (refuse "invalid package magic")
  else
    format ← read_number 2;
    if negb (format =? FORMAT_VERSION) then
      lift (Err (package_error (lit "unsupported package format " ++ decimal format)))
    else
      name ← read_text;
      version ← read_text;
      _ ← lift (validate_identity name version);
      count ← read_number 4;
      if (count =? 0) || (MAX_FILES <? count) then lift (refuse "invalid package file count")
      else
        files ← read_files (N.to_nat count) ∅;
        mret (name, version, files).

(** The manifest inside a package. *)
Definition embedded_manifest (files : gmap (list char) (list byte)) (root : list char) : result NivError Manifest :=
  manifest_bytes ← ok_or (package_error (lit "package has no niv.toml")) (files !! MANIFEST_NAME);
  manifest_source ← ok_or (package_error (lit "package manifest is not UTF-8")) (text_of_bytes manifest_bytes);
  parse_manifest manifest_source root.

(** [Package::decode] *)
Definition decode_package (bytes : list byte) : result NivError Package :=
  if MAX_PACKAGE_SIZE <? len bytes then refuse "package exceeds 64 MiB"
  else
    '((name, version, files), offset) ← read_package bytes 0;
    if negb (offset =? len bytes) then refuse "trailing package data"
    else
      _ ← validate_files files;
      manifest ← embedded_manifest files (lit ".");
      if negb (bool_decide (m_name manifest = name)) || negb (bool_decide (m_version manifest = version))
      then refuse "package identity does not match its manifest"
      else Ok (mkPackage name version files).
