(* ===== verification/PackageOk.v ===== *)
(** * Correctness of package archives

    Encoding and decoding are inverse; what [decode_package] accepts stays below
    the directory it is extracted to and is what its manifest says it is. *)
From Stdlib Require Import ZifyN.
From S2P Require Import Prelude Ast Values Text Strs Utf8 Manifest ManifestOk Package.
Open Scope list_scope.

Local Notation lit := ascii_chars.

(** ** Reading what was written *)

Lemma Ok_eq {E A} (a b : A) : @Ok E A a = Ok b → a = b.
Proof. by intros [= ->]. Qed.

(** [r] reads [x] from [w], wherever [w] stands. *)
Definition cursor_reads {A} (w : list byte) (r : Cursor A) (x : A) : Prop :=
  ∀ pre post, len (pre ++ w ++ post) ≤ usize_max →
    r (pre ++ w ++ post) (len pre) = Ok (x, len pre + len w).

Lemma reads_ret {A} (x : A) : cursor_reads [] (mret x) x.
Proof. intros pre post _. unfold mret, cursor_ret. by rewrite len_nil, N.add_0_r. Qed.

Lemma reads_lift {A} (r : result NivError A) x : r = Ok x → cursor_reads [] (lift r) x.
Proof. intros -> pre post _. unfold lift. by rewrite len_nil, N.add_0_r. Qed.

Lemma reads_bind {A B} w w' (r : Cursor A) (f : A → Cursor B) x y :
  cursor_reads w r x → cursor_reads w' (f x) y → cursor_reads (w ++ w') (r ≫= f) y.
Proof.
  intros Hr Hf pre post Hlen. unfold mbind, cursor_bind.
  rewrite <- app_assoc in Hlen |- *. rewrite Hr by done.
  replace (pre ++ w ++ w' ++ post) with ((pre ++ w) ++ w' ++ post) in * by by rewrite <- app_assoc.
  rewrite <- len_app, Hf by done. by rewrite !len_app, N.add_assoc.
Qed.

(** A step that takes no bytes. *)
Lemma reads_check {A B} w (r : Cursor A) (f : A → Cursor B) x y :
  cursor_reads [] r x → cursor_reads w (f x) y → cursor_reads w (r ≫= f) y.
Proof. intros Hr Hf. by apply (reads_bind [] w _ _ x). Qed.

Lemma reads_take overflow truncated w n : n = len w → cursor_reads w (cursor_take overflow truncated n) w.
Proof.
  intros -> pre post Hlen. unfold cursor_take, checked_add. len_simpl.
  destruct (N.leb_spec (len pre + len w) usize_max); [|lia]. by rewrite slice_get_app.
Qed.

Lemma reads_number width n :
  n < 256 ^ N.of_nat width → cursor_reads (to_le_bytes width n) (read_number (N.of_nat width)) n.
Proof.
  intros Hn. unfold read_number. rewrite <- (app_nil_r (to_le_bytes _ _)). eapply reads_bind.
  - apply reads_take. unfold len. by rewrite length_to_le_bytes.
  - rewrite from_to_le_bytes by done. apply reads_ret.
Qed.

Lemma text_of_as_bytes t : Forall scalar t → text_of_bytes (as_bytes t) = Some t.
Proof. intros [Hv Hd]%as_bytes_valid. unfold text_of_bytes. by rewrite Hv, Hd. Qed.

Lemma reads_text t w :
  Forall scalar t → len (as_bytes t) ≤ 4096 → write_text t = Ok w → cursor_reads w read_text t.
Proof.
  intros Ht Hlen. unfold write_text, write_u32. destruct (N.leb_spec (len (as_bytes t)) u32_max); [|done].
  intros <-%Ok_eq. unfold read_text. eapply reads_bind.
  - apply (reads_number 4). change (256 ^ N.of_nat 4) with (u32_max + 1). lia.
  - destruct (N.ltb_spec 4096 (len (as_bytes t))); [lia|]. rewrite <- (app_nil_r (as_bytes t)) at 1.
    eapply reads_bind; [by apply reads_take|]. apply reads_lift. by rewrite text_of_as_bytes.
Qed.

Definition file_ok (f : list char * list byte) : Prop :=
  Forall scalar f.1 ∧ validate_path f.1 = Ok tt ∧ len f.2 ≤ MAX_FILE_SIZE.

Lemma validate_path_len path : validate_path path = Ok tt → len (as_bytes path) ≤ 4096.
Proof.
  unfold validate_path. destruct (N.ltb_spec 4096 (len (as_bytes path))); [|lia]. by rewrite orb_true_r.
Qed.

Lemma reads_files l w files :
  Forall file_ok l → NoDup l.*1 → (∀ f, f ∈ l.*1 → files !! f = None) → write_files l = Ok w →
  cursor_reads w (read_files (length l) files) (list_to_map l ∪ files).
Proof.
  intros Hl. revert w files. induction Hl as [|[path contents] l (Hs & Hp & Hc) Hl IH]; intros w files Hnd Hdis.
  { intros [= <-]. rewrite list_to_map_nil, (left_id_L ∅ (∪)). apply reads_ret. }
  cbn [fmap list_fmap fst] in Hnd, Hdis. apply NoDup_cons in Hnd as [Hnew Hnd]. cbn [write_files].
  intros (name & Hname & (size & Hsize & (rest & Hrest & <-%Ok_eq)%bind_Ok)%bind_Ok)%bind_Ok.
  cbn [fst snd] in *. unfold write_u64 in Hsize. destruct (N.leb_spec (len contents) u64_max); [|done].
  apply Ok_eq in Hsize as <-. cbn [length read_files].
  eapply reads_bind; [by apply reads_text; [|apply validate_path_len|]|].
  eapply reads_check; [by apply reads_lift|].
  eapply reads_bind; [apply (reads_number 8); change (256 ^ N.of_nat 8) with (u64_max + 1); lia|].
  destruct (N.ltb_spec MAX_FILE_SIZE (len contents)); [lia|].
  eapply reads_bind; [by apply reads_take|].
  rewrite bool_decide_false by (rewrite Hdis by (by left); by intros [? ?]).
  assert (list_to_map ((path, contents) :: l) ∪ files = list_to_map l ∪ <[path := contents]> files) as ->.
  { cbn [list_to_map foldr curry]. rewrite <- insert_union_r by by apply not_elem_of_list_to_map_1.
    by rewrite insert_union_l. }
  apply IH; [done| |done]. intros f Hf. rewrite lookup_insert_ne by (intros ->; done).
  apply Hdis. by right.
Qed.

(** ** What is checked *)

Lemma validate_each_spec l total n :
  validate_each l total = Ok n →
  Forall (λ f, validate_path f.1 = Ok tt ∧ len f.2 ≤ MAX_FILE_SIZE) l ∧ n = total + foldr (λ f s, len f.2 + s) 0 l.
Proof.
  revert total. induction l as [|[path contents] l IH]; intros total; cbn [validate_each foldr].
  - intros [= <-]. split; [done|lia].
  - intros ([] & Hp & H)%bind_Ok. destruct (N.ltb_spec MAX_FILE_SIZE (len contents)); [done|].
    apply bind_Ok in H as (t & Ht & H). apply ok_or_Ok in Ht. unfold checked_add in Ht.
    destruct (_ <=? _); [|done]. injection Ht as <-. apply IH in H as [Hf ->]. split; [by constructor|]. cbn. lia.
Qed.

(** The bytes of all files. *)
Definition contents_size (files : gmap (list char) (list byte)) : N :=
  foldr (λ f s, len f.2 + s) 0 (entries files).

Lemma validate_files_spec files :
  validate_files files = Ok tt →
  files ≠ ∅ ∧ N.of_nat (size files) ≤ MAX_FILES ∧ contents_size files ≤ MAX_PACKAGE_SIZE ∧
  map_Forall (λ path contents, validate_path path = Ok tt ∧ len contents ≤ MAX_FILE_SIZE) files.
Proof.
  unfold validate_files. destruct (bool_decide (files = ∅)) eqn:He; [done|]. apply bool_decide_eq_false in He.
  destruct (N.ltb_spec MAX_FILES (N.of_nat (size files))); [done|]. cbn [orb].
  intros (n & Hn & Htot)%bind_Ok. apply validate_each_spec in Hn as [Hf ->].
  destruct (N.ltb_spec MAX_PACKAGE_SIZE (0 + foldr (λ f s, len f.2 + s) 0 (entries files))); [done|].
  split_and!; [done|done|done|]. intros path contents Hin%elem_of_entries.
  by apply (proj1 (Forall_forall _ _) Hf (path, contents)).
Qed.

(** ** Where a path leads *)

(** Following a path from a directory, itself given by the names above it. *)
Definition follow (directory : list (list char)) (c : Component) : list (list char) :=
  match c with
  | RootDir => []
  | CurDir => directory
  | ParentDir => removelast directory
  | NormalDir name => directory ++ [name]
  end.
Definition resolve (directory : list (list char)) (path : list char) : list (list char) :=
  foldl follow directory (components path).

Lemma normal_components l :
  existsb (λ part, match part with NormalDir _ => false | _ => true end) l = false → ∃ names, l = map NormalDir names.
Proof.
  induction l as [|c l IH]; [by exists []|]. cbn. intros [Hc Hl]%orb_false_iff.
  destruct (IH Hl) as [names ->]. destruct c as [| | |name]; try done. by exists (name :: names).
Qed.

Lemma follow_names directory names : foldl follow directory (map NormalDir names) = directory ++ names.
Proof.
  revert directory. induction names as [|name names IH]; intros directory; cbn; [by rewrite app_nil_r|].
  by rewrite IH, <- app_assoc.
Qed.

Lemma split_char_first a c l : c ≠ a → ∃ part parts, split_char a (c :: l) = (c :: part) :: parts.
Proof.
  intros Hc. cbn. destruct (N.eqb_spec c a); [done|]. destruct (split_char a l); eauto.
Qed.

(** An accepted path names something below the directory it is resolved in. *)
Lemma validate_path_below path :
  validate_path path = Ok tt → ∃ names, names ≠ [] ∧ ∀ directory, resolve directory path = directory ++ names.
Proof.
  unfold validate_path. destruct path as [|c path]; [done|].
  destruct (_ || _); [done|]. destruct (is_absolute (c :: path)) eqn:Ha; [done|]. cbn [orb].
  destruct (existsb _ _) eqn:He; [done|]. intros _. apply normal_components in He as [names Hn].
  exists names. split; [|intros directory; unfold resolve; rewrite Hn; apply follow_names].
  intros ->. unfold components in Hn. rewrite Ha in Hn. apply app_eq_nil in Hn as [Hdot Hn].
  destruct (split_char_first slash c path) as (part & parts & E).
  { intros ->. unfold is_absolute, starts_with in Ha. by apply bool_decide_eq_false in Ha. }
  rewrite E in Hn, Hdot. cbn [omap list_omap head] in Hn, Hdot.
  case_bool_decide as Hd; [done|].
  assert (∃ d, component (c :: part) = Some d) as [d Ed]; [|by rewrite Ed in Hn].
  unfold component. rewrite bool_decide_false; [case_bool_decide; eauto|]. intros [H|H]; [done|]. by rewrite H in Hd.
Qed.

(** ** Identities *)

(** A proper name and version pass. *)
Lemma validate_identity_valid name version :
  valid_name name = true → valid_version version = true → validate_identity name version = Ok tt.
Proof.
  intros Hn Hv. unfold validate_identity.
  set (m := mkManifest (lit ".") name version (lit "main.niv") ∅ ∅ ∅ ∅ None None None 4).
  assert (manifest_ok m) as Hm.
  { split; cbn; try done; try (intros ? ?; set_solver); try (intros ?; set_solver); [|by left].
    split_and!; [done|by apply (bool_decide_eq_true_1 (ParentDir ∉ components (lit "main.niv")))|by apply plain_of with (P := λ c, negb (c =? newline) && negb (c =? quote) && negb (c =? ch "#"))]. }
  assert (identity_source name version = source m) as ->; [|change (lit ".") with (m_root m); by rewrite (source_parses m Hm)].
  unfold identity_source, source, m, pair_line, section_lines. cbn [m_name m_version m_entry m_edition m_dependencies
    m_capabilities m_capability_scopes m_unsafe_modules m_instruction_limit m_memory_limit m_payload_limit].
  change (5 <=? 4) with false. rewrite !bool_decide_true by done. rewrite bool_decide_false by (intros [[]|[[]|[]]]; done).
  cbn [negb]. rewrite !app_nil_r, <- !app_assoc. done.
Qed.

(** ** The archive as a whole *)

Lemma valid_name_scalar name : valid_name name = true → Forall scalar name.
Proof.
  unfold valid_name. rewrite andb_true_iff, forallb_forall. intros [_ H]. apply List.Forall_forall. intros c Hc%H.
  unfold is_ascii_lowercase, is_ascii_digit in Hc. change (ch "-") with 45 in Hc. change (ch "_") with 95 in Hc.
  rewrite !orb_true_iff, !andb_true_iff, !N.leb_le, !N.eqb_eq in Hc. unfold scalar. lia.
Qed.

Lemma valid_version_scalar version : valid_version version = true → Forall scalar version.
Proof.
  intros H%version_chars. eapply Forall_impl; [done|]. intros c Hc. cbv beta in Hc.
  unfold is_ascii_digit in Hc. change (ch ".") with 46 in Hc.
  rewrite !orb_true_iff, !andb_true_iff, !N.leb_le, !N.eqb_eq in Hc. unfold scalar. lia.
Qed.

(** What [encode] writes decodes. *)
Lemma encode_decodes p bytes :
  encode_package p = Ok bytes →
  map_Forall (λ path _, Forall scalar path) (pk_files p) →
  len (as_bytes (pk_name p)) ≤ 4096 → len (as_bytes (pk_version p)) ≤ 4096 →
  Forall scalar (pk_name p) → Forall scalar (pk_version p) →
  read_package bytes 0 = Ok (pk_name p, pk_version p, pk_files p, len bytes) ∧ len bytes ≤ MAX_PACKAGE_SIZE.
Proof.
  intros He Hpaths Hnl Hvl Hns Hvs. unfold encode_package in He.
  apply bind_Ok in He as ([] & Hid & He). apply bind_Ok in He as ([] & Hfiles & He).
  apply bind_Ok in He as (name & Hname & He). apply bind_Ok in He as (version & Hversion & He).
  apply bind_Ok in He as (count & Hcount & He). apply bind_Ok in He as (files & Hwrite & He). cbv zeta in He.
  set (out := MAGIC ++ _) in He. destruct (N.ltb_spec MAX_PACKAGE_SIZE (len out)) as [|Hmax]; [done|].
  apply Ok_eq in He as <-. split; [|done].
  apply validate_files_spec in Hfiles as (Hne & Hsize & _ & Hall).
  unfold write_u32 in Hcount. destruct (N.leb_spec (N.of_nat (size (pk_files p))) u32_max); [|done]. apply Ok_eq in Hcount as <-.
  assert (cursor_reads out read_package (pk_name p, pk_version p, pk_files p)) as Hr.
  { unfold out, read_package. eapply reads_bind; [by apply reads_take|]. rewrite bool_decide_true by done. cbn [negb].
    eapply reads_bind; [by apply (reads_number 2)|]. cbn [negb N.eqb FORMAT_VERSION Pos.eqb].
    eapply reads_bind; [by apply (reads_text (pk_name p))|]. eapply reads_bind; [by apply (reads_text (pk_version p))|].
    eapply reads_check; [by apply reads_lift|].
    eapply reads_bind; [apply (reads_number 4); change (256 ^ N.of_nat 4) with (u32_max + 1); lia|].
    destruct (N.eqb_spec (N.of_nat (size (pk_files p))) 0) as [Hz|_].
    { apply (N2Nat.inj_iff _ 0) in Hz. rewrite Nat2N.id in Hz. by apply map_size_empty_inv in Hz. }
    destruct (N.ltb_spec MAX_FILES (N.of_nat (size (pk_files p)))); [lia|]. cbn [orb].
    rewrite <- (app_nil_r files). eapply reads_bind; [|apply reads_ret].
    assert (pk_files p = list_to_map (entries (pk_files p)) ∪ ∅) as Hall'.
    { by rewrite (right_id_L ∅ (∪)), list_to_map_entries. }
    rewrite Nat2N.id, <- length_entries. rewrite Hall' at 2.
    apply reads_files; [|apply entries_NoDup|done|done].
    apply Forall_forall. intros [path contents] Hin%elem_of_entries. split; [by eapply Hpaths|by apply Hall]. }
  specialize (Hr [] []). cbn [app] in Hr. rewrite app_nil_r, N.add_0_l in Hr. apply Hr.
  unfold MAX_PACKAGE_SIZE, usize_max, u64_max in *. lia.
Qed.

(** A package that was encoded decodes to the same package, every path and
    every byte of it, when its manifest names it and its texts fit the format. *)
Theorem package_roundtrip p m bytes :
  encode_package p = Ok bytes →
  embedded_manifest (pk_files p) (lit ".") = Ok m → m_name m = pk_name p → m_version m = pk_version p →
  map_Forall (λ path _, Forall scalar path) (pk_files p) →
  len (as_bytes (pk_name p)) ≤ 4096 → len (as_bytes (pk_version p)) ≤ 4096 →
  decode_package bytes = Ok p.
Proof.
  intros He Hm Hname Hversion Hpaths Hn Hv.
  assert (validate_files (pk_files p) = Ok tt) as Hfiles.
  { unfold encode_package in He. apply bind_Ok in He as ([] & _ & He). by apply bind_Ok in He as ([] & ? & _). }
  assert (manifest_ok m) as Hok.
  { unfold embedded_manifest in Hm. apply bind_Ok in Hm as (? & _ & Hm). apply bind_Ok in Hm as (? & _ & Hm).
    by apply parse_manifest_ok in Hm as [? _]. }
  destruct (encode_decodes p bytes He Hpaths Hn Hv) as [Hread Hmax].
  { rewrite <- Hname. by apply valid_name_scalar, ok_name. }
  { rewrite <- Hversion. by apply valid_version_scalar, ok_version. }
  unfold decode_package. destruct (N.ltb_spec MAX_PACKAGE_SIZE (len bytes)); [lia|]. rewrite Hread.
  cbn [mbind result_bind]. rewrite N.eqb_refl. cbn [negb]. rewrite Hfiles. cbn [mbind result_bind]. rewrite Hm.
  cbn [mbind result_bind]. rewrite !bool_decide_true by done. by destruct p.
Qed.

(** C30: what [decode] accepts can be extracted safely: the archive is within
    its limits, its name and version are those of the manifest inside, which is
    itself in order, and every path leads strictly below the directory it is
    extracted to. *)
Theorem decode_package_safe bytes p :
  decode_package bytes = Ok p →
  len bytes ≤ MAX_PACKAGE_SIZE ∧ N.of_nat (size (pk_files p)) ≤ MAX_FILES ∧
  contents_size (pk_files p) ≤ MAX_PACKAGE_SIZE ∧
  (∃ m, embedded_manifest (pk_files p) (lit ".") = Ok m ∧ manifest_ok m ∧
        m_name m = pk_name p ∧ m_version m = pk_version p) ∧
  map_Forall (λ path contents, len contents ≤ MAX_FILE_SIZE ∧
    ∃ names, names ≠ [] ∧ ∀ directory, resolve directory path = directory ++ names) (pk_files p).
Proof.
  unfold decode_package. destruct (N.ltb_spec MAX_PACKAGE_SIZE (len bytes)); [done|].
  intros ([[[name version] files] offset] & _ & H')%bind_Ok. destruct (negb _); [done|].
  apply bind_Ok in H' as ([] & Hfiles & H'). apply bind_Ok in H' as (m & Hm & H').
  destruct (_ || _) eqn:Hid; [done|]. apply Ok_eq in H' as <-. cbn [pk_name pk_version pk_files].
  apply orb_false_iff in Hid as [Hn%negb_false_iff%bool_decide_eq_true Hv%negb_false_iff%bool_decide_eq_true].
  apply validate_files_spec in Hfiles as (_ & Hsize & Htotal & Hall). split_and!; [done..| |].
  - exists m. split_and!; [done| |done|done]. unfold embedded_manifest in Hm.
    apply bind_Ok in Hm as (? & _ & Hm). apply bind_Ok in Hm as (? & _ & Hm). by apply parse_manifest_ok in Hm as [? _].
  - intros path contents Hin. apply Hall in Hin as [Hp Hl]. split; [done|by apply validate_path_below].
Qed.

(** A package with two spellings of one path. *)
Definition aliased_package : Package :=
  mkPackage (lit "demo") (lit "1.0.0")
    (<[MANIFEST_NAME := as_bytes (identity_source (lit "demo") (lit "1.0.0"))]>
       (<[lit "lib/x.niv" := as_bytes (lit "1")]> {[lit "lib//x.niv" := as_bytes (lit "2")]})).

Definition plain_package : Package :=
  mkPackage (lit "demo") (lit "1.0.0")
    (<[MANIFEST_NAME := as_bytes (identity_source (lit "demo") (lit "1.0.0"))]>
       {[lit "src/main.niv" := as_bytes (lit "show 1")]}).

Lemma plain_package_paths : map_Forall (λ path _, Forall scalar path) (pk_files plain_package).
Proof.
  unfold plain_package. cbn [pk_files]. intros path contents Hin.
  apply lookup_insert_Some in Hin as [[<- _]|[_ Hin]]; [|apply lookup_singleton_Some in Hin as [<- _]];
    repeat constructor; cbn; lia.
Qed.

Lemma package_roundtrip_witness :
  ∃ bytes, encode_package plain_package = Ok bytes ∧ decode_package bytes = Ok plain_package.
Proof.
  destruct (encode_package plain_package) as [bytes|] eqn:He; [|by vm_compute in He].
  destruct (embedded_manifest (pk_files plain_package) (lit ".")) as [m|] eqn:Hm; [|by vm_compute in Hm].
  exists bytes. split; [done|]. apply (package_roundtrip plain_package m bytes He Hm);
    [| |apply plain_package_paths|done|done]; vm_compute in Hm; by injection Hm as <-.
Defined.

(** A path need not be normalized: [decode] accepts an archive in which two
    entries with different contents name the same file, so extracting it
    writes one over the other. *)
Theorem aliased_paths_accepted :
  ∃ bytes p a b, encode_package p = Ok bytes ∧ decode_package bytes = Ok p ∧
    pk_files p !! a ≠ pk_files p !! b ∧ is_Some (pk_files p !! a) ∧ is_Some (pk_files p !! b) ∧
    ∀ directory, resolve directory a = resolve directory b.
Proof.
  destruct (encode_package aliased_package) as [bytes|] eqn:He; [|by vm_compute in He].
  exists bytes, aliased_package, (lit "lib/x.niv"), (lit "lib//x.niv").
  split; [done|]. split; [|by split_and!; [vm_compute| | |]].
  vm_compute in He. injection He as <-. by vm_compute.
Qed.

(** C31: a name is spliced into a manifest unquoted, so [validate_identity] accepts
    one that closes its own quotes: it is no package name, and the file of the
    registry it stands for lies outside of the registry, the [..] of a path taken
    as a step back. *)
Theorem identity_injected :
  ∃ name version, validate_identity name version = Ok tt ∧ valid_name name = false ∧
    resolve [] (path_join (path_join (lit "srv/registry/v1/index") name) (version ++ lit ".json"))
    = map lit ["srv"; "other"; "1.0.0.json"].
Proof.
  exists (quoting "x` #/../../../../other"), (lit "1.0.0"). by vm_compute.
Qed.

Lemma decode_package_safe_witness :
  ∃ bytes, decode_package bytes = Ok plain_package ∧
    map_Forall (λ path contents, len contents ≤ MAX_FILE_SIZE ∧
      ∃ names, names ≠ [] ∧ ∀ directory, resolve directory path = directory ++ names) (pk_files plain_package).
Proof.
  destruct (encode_package plain_package) as [bytes|] eqn:He; [|by vm_compute in He].
  assert (decode_package bytes = Ok plain_package) as Hd.
  { vm_compute in He. injection He as <-. by vm_compute. }
  exists bytes. split; [done|]. by destruct (decode_package_safe bytes plain_package Hd) as (_ & _ & _ & _ & ?).
Defined.
