(* ===== verification/Trust.v ===== *)
(** * Trust metadata

    src/src/trust.rs: the documents the registry signs (authorizations, release
    provenance, status, advisories, admin actions), the bytes that are signed,
    the checks of [verify_release] and [verify_admin_action], and the envelope
    in which a release is published.

    A [BTreeSet] or [BTreeMap] of a document is the list of its entries in
    order.  Ed25519 and SHA-256 come from other packages, and so do the JSON
    texts of serde: they are the classes [Crypto] and [Documents]. *)
From S2P Require Import Prelude Ast Text Strs Manifest Package.
Open Scope list_scope.

(** [trust_error] *)
Definition trust_error (message : string) : NivError := NivError_new message 1 1.

(** ** Documents *)

(** [PublisherAuthorization] *)
Record PublisherAuthorization := mkAuthorization {
  a_publisher : string; a_public_key : string; a_repository : string; a_workflow : string;
  a_expires_at : N; a_packages : list string; a_signature : string }.

(** [ReleaseProvenance] *)
Record ReleaseProvenance := mkProvenance {
  r_package : string; r_version : string; r_sha256 : string; r_publisher : string;
  r_public_key : string; r_repository : string; r_workflow : string; r_commit : string;
  r_issued_at : N; r_signature : string }.

(** [RegistryStatus] *)
Record RegistryStatus := mkStatus {
  s_generation : N; s_issued_at : N; s_expires_at : N; s_revoked_keys : list string;
  s_frozen_packages : list (string * string); s_advisories_sha256 : string; s_signature : string }.

(** [Advisory] *)
Record Advisory := mkAdvisory {
  v_id : string; v_package : string; v_affected_versions : list string; v_severity : string;
  v_summary : string; v_withdrawn : bool; v_signature : string }.

(** [RegistryAdminAction] *)
Record RegistryAdminAction := mkAction {
  x_format : N; x_action : string; x_package : string; x_version : string; x_generation : N;
  x_issued_at : N; x_expires_at : N; x_reason : string; x_signature : string }.

(** ** What is signed *)

(** [append] to an empty vector *)
Definition append (value : list byte) : list byte := to_le_bytes 8 (len value) ++ value.

Definition appends (fields : list (list byte)) : list byte := concat (map append fields).

(** [canonical] *)
Definition canonical (domain : string) (fields : list (list byte)) : list byte :=
  append (string_bytes domain) ++ appends fields.

(** [canonical_list] *)
Definition canonical_list (items : list (list byte)) : list byte :=
  append (to_le_bytes 8 (len items)) ++ appends items.

(** [authorization_bytes] *)
Definition authorization_bytes (a : PublisherAuthorization) : list byte :=
  let packages := canonical_list (map string_bytes (a_packages a)) in
  canonical "nivren.publisher-authorization.v2"
    [string_bytes (a_publisher a); string_bytes (a_public_key a); string_bytes (a_repository a);
     string_bytes (a_workflow a); to_le_bytes 8 (a_expires_at a); packages].

(** [provenance_bytes] *)
Definition provenance_bytes (r : ReleaseProvenance) : list byte :=
  canonical "nivren.release-provenance.v1"
    [string_bytes (r_package r); string_bytes (r_version r); string_bytes (r_sha256 r);
     string_bytes (r_publisher r); string_bytes (r_public_key r); string_bytes (r_repository r);
     string_bytes (r_workflow r); string_bytes (r_commit r); to_le_bytes 8 (r_issued_at r)].

(** [status_bytes] *)
Definition status_bytes (s : RegistryStatus) : list byte :=
  let revoked := canonical_list (map string_bytes (s_revoked_keys s)) in
  let frozen := canonical_list (map (λ '(package, reason),
    canonical "frozen" [string_bytes package; string_bytes reason]) (s_frozen_packages s)) in
  canonical "nivren.registry-status.v2"
    [to_le_bytes 8 (s_generation s); to_le_bytes 8 (s_issued_at s); to_le_bytes 8 (s_expires_at s);
     revoked; frozen; string_bytes (s_advisories_sha256 s)].

(** [advisory_bytes] *)
Definition advisory_bytes (v : Advisory) : list byte :=
  let affected := canonical_list (map string_bytes (v_affected_versions v)) in
  canonical "nivren.advisory.v2"
    [string_bytes (v_id v); string_bytes (v_package v); affected; string_bytes (v_severity v);
     string_bytes (v_summary v); [byte_of_N (if v_withdrawn v then 1 else 0)]].

(** [admin_action_bytes] *)
Definition admin_action_bytes (m : RegistryAdminAction) : list byte :=
  canonical "nivren.registry-admin-action.v1"
    [to_le_bytes 2 (x_format m); string_bytes (x_action m); string_bytes (x_package m);
     string_bytes (x_version m); to_le_bytes 8 (x_generation m); to_le_bytes 8 (x_issued_at m);
     to_le_bytes 8 (x_expires_at m); string_bytes (x_reason m)].

(** ** Hexadecimal text *)

(** [format!("{byte:02x}")] *)
Definition hex_digit (n : N) : byte := byte_of_N (if n <? 10 then 48 + n else 87 + n).
Definition encode_hex (bytes : list byte) : string :=
  string_of_bytes (bytes ≫= (λ b, [hex_digit (Byte.to_N b / 16); hex_digit (Byte.to_N b mod 16)])).

Definition hex_value (b : byte) : option N :=
  let c := Byte.to_N b in
  if (48 <=? c) && (c <=? 57) then Some (c - 48)
  else if (97 <=? c) && (c <=? 102) then Some (c - 87)
  else if (65 <=? c) && (c <=? 70) then Some (c - 55)
  else None.

(** [u8::from_str_radix(text, 16)] on two bytes: a sign may precede digits. *)
Definition u8_from_hex (a b : byte) : option N :=
  if Byte.to_N a =? ch "+" then hex_value b
  else high ← hex_value a; low ← hex_value b; Some (16 * high + low).

Fixpoint hex_pairs (l : list byte) : option (list byte) :=
  match l with
  | a :: b :: l => n ← u8_from_hex a b; rest ← hex_pairs l; Some (byte_of_N n :: rest)
  | _ => Some []
  end.

(** [decode_hex] *)
Definition decode_hex (n : N) (value label : string) : result NivError (list byte) :=
  if negb (forallb (λ b, Byte.to_N b <? 128) (string_bytes value)) || negb (str_len value =? n * 2)
  then Err (trust_error ("invalid " +:+ label +:+ " length"))
  else ok_or (trust_error ("invalid hexadecimal " +:+ label)) (hex_pairs (string_bytes value)).

(** [decode_key] *)
Definition decode_key (value : string) : result NivError (list byte) := decode_hex 32 value "public key".

(** ** Names and texts *)

Definition is_alphanumeric_byte (b : byte) : bool :=
  let c := Byte.to_N b in is_ascii_digit c || is_ascii_alphabetic c.

(** [valid_publisher] *)
Definition valid_publisher (value : string) : bool :=
  match string_bytes value with
  | [] => false
  | b :: bytes =>
      is_alphanumeric_byte b && (str_len value <=? 128)
      && forallb (λ b, is_alphanumeric_byte b || (Byte.to_N b =? ch "-") || (Byte.to_N b =? ch "_")) bytes
  end.

(** [strip_suffix('*')] *)
Definition strip_star (pattern : string) : option (list byte) :=
  match rev (string_bytes pattern) with
  | b :: prefix => if Byte.to_N b =? ch "*" then Some (rev prefix) else None
  | [] => None
  end.

(** [valid_package_pattern] *)
Definition valid_package_pattern (pattern : string) : bool :=
  bool_decide (pattern = "*")
  || match strip_star pattern with
     | None => valid_publisher pattern
     | Some prefix => negb (bool_decide (prefix = [])) && valid_publisher (string_of_bytes prefix)
     end.

(** [authorization_allows_package] *)
Definition authorization_allows_package (patterns : list string) (package : string) : bool :=
  valid_publisher package
  && existsb (λ pattern,
       bool_decide (pattern = "*")
       || match strip_star pattern with
          | None => bool_decide (pattern = package)
          | Some prefix => bool_decide (take (length prefix) (string_bytes package) = prefix)
          end) patterns.

(** [char::is_control] *)
Definition is_control (c : char) : bool := (c <=? 0x1f) || (0x7f <=? c) && (c <=? 0x9f).

(** [safe_text] *)
Definition safe_text (value : string) (maximum : N) : bool :=
  negb (bool_decide (value = "")) && (str_len value <=? maximum)
  && negb (existsb is_control (chars_of_str value)).

(** [validate_status] *)
Definition validate_status (s : RegistryStatus) : result NivError unit :=
  if existsb (λ key, negb (is_ok (decode_key key))) (s_revoked_keys s)
     || existsb (λ '(package, reason), negb (valid_publisher package) || negb (safe_text reason 1024))
          (s_frozen_packages s)
     || negb (str_len (s_advisories_sha256 s) =? 64)
     || negb (forallb (λ b, is_ascii_hexdigit (Byte.to_N b)) (string_bytes (s_advisories_sha256 s)))
  then Err (trust_error "registry status contains invalid entries")
  else Ok tt.

(** [validate_advisory] *)
Definition validate_advisory (v : Advisory) : result NivError unit :=
  if negb (safe_text (v_id v) 128) || negb (valid_publisher (v_package v))
     || existsb (λ version, negb (safe_text version 64)) (v_affected_versions v)
     || negb (safe_text (v_severity v) 64) || (4096 <? str_len (v_summary v))
     || existsb (λ c, is_control c && negb (c =? newline)) (chars_of_str (v_summary v))
  then Err (trust_error "advisory contains invalid entries")
  else Ok tt.

(** [value.split('.').count()] *)
Definition dots (value : string) : N :=
  len (List.filter (λ b, Byte.to_N b =? ch ".") (string_bytes value)).

(** [validate_admin_action] *)
Definition validate_admin_action (m : RegistryAdminAction) : result NivError unit :=
  if negb (x_format m =? 1) || negb (bool_decide (x_action m = "yank") || bool_decide (x_action m = "unyank"))
  then Err (trust_error "invalid registry admin action")
  else if negb (valid_publisher (x_package m)) || (64 <? str_len (x_version m))
          || negb (dots (x_version m) + 1 =? 3)
          || negb (forallb (λ b, is_ascii_digit (Byte.to_N b) || (Byte.to_N b =? ch ".")) (string_bytes (x_version m)))
  then Err (trust_error "registry admin package identity is invalid")
  else if (x_generation m =? 0) || (x_expires_at m <? x_issued_at m)
          || bool_decide (trim (chars_of_str (x_reason m)) = []) || (1024 <? str_len (x_reason m))
          || existsb is_control (chars_of_str (x_reason m))
  then Err (trust_error "registry admin bounds are invalid")
  else Ok tt.

(** ** Signatures *)

(** Ed25519 and SHA-256: whether 32 bytes are a key, whether a signature of a
    message verifies strictly, signing with a secret, the public key of a
    secret, and the digest. *)
Class Crypto := {
  valid_key : list byte → bool;
  verify_strict : list byte → list byte → list byte → bool;
  sign_bytes : list byte → list byte → list byte;
  public_of : list byte → list byte;
  sha256_digest : list byte → list byte }.

(** The JSON texts serde writes and reads for two of the documents. *)
Class Documents := {
  provenance_json : ReleaseProvenance → list byte;
  provenance_of_json : list byte → result string ReleaseProvenance;
  authorization_json : PublisherAuthorization → list byte;
  authorization_of_json : list byte → result string PublisherAuthorization }.

Section trust.
Context `{Crypto}.

(** [sign] *)
Definition sign (secret message : list byte) : string := encode_hex (sign_bytes secret message).

(** [verify] *)
Definition verify (public message : list byte) (signature : string) : result NivError unit :=
  if negb (valid_key public) then Err (trust_error "invalid Ed25519 public key")
  else
    signature ← decode_hex 64 signature "signature";
    if verify_strict public message signature then Ok tt else Err (trust_error "signature verification failed").

(** [sha256] *)
Definition sha256 (bytes : list byte) : string := encode_hex (sha256_digest bytes).

(** [advisories_sha256] *)
Definition advisories_sha256 (advisories : list Advisory) : string :=
  sha256 (canonical "nivren.advisory-list.v1" [] ++ canonical_list (map advisory_bytes advisories)).

(** [authorize_publisher] *)
Definition with_a_signature (a : PublisherAuthorization) (signature : string) : PublisherAuthorization :=
  mkAuthorization (a_publisher a) (a_public_key a) (a_repository a) (a_workflow a) (a_expires_at a)
    (a_packages a) signature.
Definition authorize_publisher (root_secret : list byte) (publisher public_key repository workflow : string)
    (expires_at : N) (packages : list string) : result NivError PublisherAuthorization :=
  _ ← decode_key public_key;
  if bool_decide (packages = []) || existsb (λ pattern, negb (valid_package_pattern pattern)) packages then
    Err (trust_error "authorized package list must name packages, prefix* patterns, or *")
  else
    let authorization := mkAuthorization publisher public_key repository workflow expires_at packages "" in
    Ok (with_a_signature authorization (sign root_secret (authorization_bytes authorization))).

(** [attest_release] *)
Definition with_r_signature (r : ReleaseProvenance) (signature : string) : ReleaseProvenance :=
  mkProvenance (r_package r) (r_version r) (r_sha256 r) (r_publisher r) (r_public_key r) (r_repository r)
    (r_workflow r) (r_commit r) (r_issued_at r) signature.
Definition attest_release (publisher_secret package_bytes : list byte) (publisher repository workflow commit : string)
    (issued_at : N) : result NivError ReleaseProvenance :=
  if (str_len commit <? 7) || (128 <? str_len commit)
     || negb (forallb (λ b, is_ascii_hexdigit (Byte.to_N b)) (string_bytes commit)) then
    Err (trust_error "commit must be a 7-128 character hexadecimal identifier")
  else
    package ← decode_package package_bytes;
    let provenance :=
      mkProvenance (str_of_chars (pk_name package)) (str_of_chars (pk_version package)) (sha256 package_bytes)
        publisher (encode_hex (public_of publisher_secret)) repository workflow commit issued_at "" in
    Ok (with_r_signature provenance (sign publisher_secret (provenance_bytes provenance))).

(** [sign_status], [sign_advisory] and [sign_admin_action]; the signature is not
    part of what is signed. *)
Definition sign_status (root_secret : list byte) (s : RegistryStatus) : RegistryStatus :=
  mkStatus (s_generation s) (s_issued_at s) (s_expires_at s) (s_revoked_keys s) (s_frozen_packages s)
    (s_advisories_sha256 s) (sign root_secret (status_bytes s)).
Definition sign_advisory (root_secret : list byte) (v : Advisory) : Advisory :=
  mkAdvisory (v_id v) (v_package v) (v_affected_versions v) (v_severity v) (v_summary v) (v_withdrawn v)
    (sign root_secret (advisory_bytes v)).
Definition sign_admin_action (root_secret : list byte) (m : RegistryAdminAction) : result NivError RegistryAdminAction :=
  _ ← validate_admin_action m;
  Ok (mkAction (x_format m) (x_action m) (x_package m) (x_version m) (x_generation m) (x_issued_at m)
        (x_expires_at m) (x_reason m) (sign root_secret (admin_action_bytes m))).

(** [verify_admin_action] *)
Definition verify_admin_action (m : RegistryAdminAction) (root_public_key : list byte) (now minimum_generation : N)
    : result NivError unit :=
  _ ← validate_admin_action m;
  _ ← verify root_public_key (admin_action_bytes m) (x_signature m);
  if x_generation m <=? minimum_generation then
    Err (trust_error "registry admin generation was replayed or rolled back")
  else if (saturating_add_u64 now 300 <? x_issued_at m) || (x_expires_at m <? now) then
    Err (trust_error "registry admin action is stale or future-dated")
  else Ok tt.

(** The loop over the advisories in [verify_release]. *)
Fixpoint check_advisories (root_public_key : list byte) (name version : string) (advisories : list Advisory)
    : result NivError unit :=
  match advisories with
  | [] => Ok tt
  | v :: advisories =>
      _ ← validate_advisory v;
      _ ← verify root_public_key (advisory_bytes v) (v_signature v);
      if negb (v_withdrawn v) && bool_decide (v_package v = name) && bool_decide (version ∈ v_affected_versions v) then
        Err (trust_error ("release is blocked by advisory " +:+ v_id v +:+ " (" +:+ v_severity v +:+ "): " +:+ v_summary v))
      else check_advisories root_public_key name version advisories
  end.

(** [frozen_packages.get] *)
Definition frozen_reason (s : RegistryStatus) (package : string) : option string :=
  found ← list_find (λ entry, entry.1 = package) (s_frozen_packages s); Some found.2.2.

(** [verify_release] *)
Definition verify_release (package_bytes : list byte) (provenance : ReleaseProvenance)
    (authorization : PublisherAuthorization) (status : RegistryStatus) (advisories : list Advisory)
    (root_public_key : list byte) (now minimum_status_generation : N) : result NivError Package :=
  if negb (valid_publisher (a_publisher authorization)) || negb (valid_publisher (r_publisher provenance)) then
    Err (trust_error "publisher name is not a safe registry identifier")
  else
  _ ← verify root_public_key (authorization_bytes authorization) (a_signature authorization);
  _ ← validate_status status;
  _ ← verify root_public_key (status_bytes status) (s_signature status);
  if s_generation status <? minimum_status_generation then
    Err (trust_error "registry status generation was rolled back")
  else if negb (bool_decide (s_advisories_sha256 status = advisories_sha256 advisories)) then
    Err (trust_error "registry advisory list does not match the signed status")
  else if (s_expires_at status <? now) || (saturating_add_u64 now 300 <? s_issued_at status) then
    Err (trust_error "registry status is stale or future-dated")
  else if a_expires_at authorization <? now then
    Err (trust_error "publisher authorization has expired")
  else if saturating_add_u64 now 300 <? r_issued_at provenance then
    Err (trust_error "release provenance is dated too far in the future")
  else if negb (bool_decide (r_publisher provenance = a_publisher authorization))
          || negb (bool_decide (r_public_key provenance = a_public_key authorization))
          || negb (bool_decide (r_repository provenance = a_repository authorization))
          || negb (bool_decide (r_workflow provenance = a_workflow authorization)) then
    Err (trust_error "release identity is not authorized")
  else if negb (authorization_allows_package (a_packages authorization) (r_package provenance)) then
    Err (trust_error "publisher is not authorized to release this package")
  else if bool_decide (r_public_key provenance ∈ s_revoked_keys status) then
    Err (trust_error "publisher key has been revoked")
  else
  match frozen_reason status (r_package provenance) with
  | Some reason => Err (trust_error ("package is frozen: " +:+ reason))
  | None =>
    publisher_key ← decode_key (r_public_key provenance);
    _ ← verify publisher_key (provenance_bytes provenance) (r_signature provenance);
    package ← decode_package package_bytes;
    if negb (bool_decide (str_of_chars (pk_name package) = r_package provenance))
       || negb (bool_decide (str_of_chars (pk_version package) = r_version provenance))
       || negb (bool_decide (sha256 package_bytes = r_sha256 provenance)) then
      Err (trust_error "release provenance does not match the package")
    else
      _ ← check_advisories root_public_key (str_of_chars (pk_name package)) (str_of_chars (pk_version package)) advisories;
      Ok package
  end.
End trust.

(** ** The envelope *)

Definition ENVELOPE_MAGIC : list byte := string_bytes "NIVE".
Definition MAX_DOCUMENT_SIZE : N := 1024 * 1024.
Definition MAX_ENVELOPE_SIZE : N := 66 * 1024 * 1024.

(** [PublishEnvelope] *)
Record PublishEnvelope := mkEnvelope {
  e_package : list byte; e_provenance : ReleaseProvenance; e_authorization : PublisherAuthorization }.

Section envelope.
Context `{Documents}.

(** [PublishEnvelope::encode]; a length beyond its field would exceed the
    limits checked before. *)
Definition encode_envelope (e : PublishEnvelope) : result NivError (list byte) :=
  let provenance := provenance_json (e_provenance e) in
  let authorization := authorization_json (e_authorization e) in
  if (MAX_DOCUMENT_SIZE <? len provenance) || (MAX_DOCUMENT_SIZE <? len authorization) then
    Err (trust_error "publish document exceeds 1 MiB")
  else
    _ ← decode_package (e_package e);
    let bytes :=
      ENVELOPE_MAGIC ++ to_le_bytes 2 1 ++ to_le_bytes 4 (len provenance) ++ to_le_bytes 4 (len authorization)
      ++ to_le_bytes 8 (len (e_package e)) ++ provenance ++ authorization ++ e_package e in
    if MAX_ENVELOPE_SIZE <? len bytes then Err (trust_error "publish envelope exceeds 66 MiB") else Ok bytes.

(** [EnvelopeReader] *)
Definition envelope_take : N → Cursor (list byte) :=
  cursor_take (trust_error "publish envelope offset overflow") (trust_error "truncated publish envelope").
Definition envelope_number (width : N) : Cursor N := bytes ← envelope_take width; mret (from_le_bytes bytes).

Definition read_envelope : Cursor PublishEnvelope :=
  magic ← envelope_take 4;
  if negb (bool_decide (magic = ENVELOPE_MAGIC)) then lift (Err (trust_error "invalid publish envelope magic"))
  else
    version ← envelope_number 2;
    if negb (version =? 1) then lift (Err (trust_error "unsupported publish envelope version"))
    else
      provenance_length ← envelope_number 4;
      authorization_length ← envelope_number 4;
      package_length ← envelope_number 8;
      if (MAX_DOCUMENT_SIZE <? provenance_length) || (MAX_DOCUMENT_SIZE <? authorization_length) then
        lift (Err (trust_error "publish document exceeds 1 MiB"))
      else
        bytes ← envelope_take provenance_length;
        provenance ← lift (match provenance_of_json bytes with
                           | Ok document => Ok document
                           | Err error => Err (trust_error ("invalid provenance: " +:+ error))
                           end);
        bytes ← envelope_take authorization_length;
        authorization ← lift (match authorization_of_json bytes with
                              | Ok document => Ok document
                              | Err error => Err (trust_error ("invalid authorization: " +:+ error))
                              end);
        package ← envelope_take package_length;
        mret (mkEnvelope package provenance authorization).

(** [PublishEnvelope::decode] *)
Definition decode_envelope (bytes : list byte) : result NivError PublishEnvelope :=
  if MAX_ENVELOPE_SIZE <? len bytes then Err (trust_error "publish envelope exceeds 66 MiB")
  else
    '(e, offset) ← read_envelope bytes 0;
    if negb (offset =? len bytes) then Err (trust_error "trailing publish envelope data")
    else _ ← decode_package (e_package e); Ok e.
End envelope.
