(* ===== verification/TrustOk.v ===== *)
(** * Correctness of the trust metadata

    What is signed determines the document: the bytes of two documents are equal
    only when the documents are, and documents of different kinds never share
    their bytes.  On that rest the guarantees of [verify_release].  Also the
    round trips of the hexadecimal texts and of the publish envelope, and what
    the spelling of a key does to its revocation. *)
From Stdlib Require Import ZifyN.
From S2P Require Import Prelude Ast Values Text Strs Utf8 Manifest ManifestOk Package PackageOk Trust.
Open Scope list_scope.

(** ** Signed bytes *)

Lemma append_inj a b x y :
  len a ≤ u64_max → len b ≤ u64_max → append a ++ x = append b ++ y → a = b ∧ x = y.
Proof.
  intros Ha Hb. unfold append. rewrite <- !app_assoc. intros [Hn Hr]%app_inj_1; [|by rewrite !length_to_le_bytes].
  apply to_le_bytes_inj in Hn; [|change (256 ^ N.of_nat 8) with (u64_max + 1); lia..].
  apply app_inj_1 in Hr; [done|]. unfold len in Hn. lia.
Qed.

Lemma appends_cons f fs : appends (f :: fs) = append f ++ appends fs.
Proof. done. Qed.

Lemma len_append f : len (append f) = 8 + len f.
Proof. unfold append. rewrite len_app. unfold len at 1. by rewrite length_to_le_bytes. Qed.

Lemma appends_inj fs gs : len (appends fs) ≤ u64_max → appends fs = appends gs → fs = gs.
Proof.
  revert gs. induction fs as [|f fs IH]; intros [|g gs] Hlen He; [done| | |].
  - apply (f_equal len) in He. rewrite appends_cons, len_app, len_append in He. change (len (appends [])) with 0 in He. lia.
  - apply (f_equal len) in He. rewrite appends_cons, len_app, len_append in He. change (len (appends [])) with 0 in He. lia.
  - rewrite !appends_cons in *. pose proof (f_equal len He) as Hl. rewrite !len_app, !len_append in Hl; rewrite len_app, len_append in Hlen.
    apply append_inj in He as [-> He]; [|lia..]. f_equal. apply IH; [lia|done].
Qed.

Lemma len_in_appends f fs : f ∈ fs → len f ≤ len (appends fs).
Proof.
  induction 1 as [f fs|f g fs _ IH]; rewrite appends_cons, len_app, len_append; lia.
Qed.

Lemma canonical_appends d fs : canonical d fs = appends (string_bytes d :: fs).
Proof. done. Qed.
Lemma canonical_list_appends l : canonical_list l = appends (to_le_bytes 8 (len l) :: l).
Proof. done. Qed.

Lemma canonical_inj d e fs gs :
  len (canonical d fs) ≤ u64_max → canonical d fs = canonical e gs → d = e ∧ fs = gs.
Proof.
  rewrite !canonical_appends. intros Hl He%appends_inj; [|done]. injection He as Hd ->.
  by apply string_bytes_inj in Hd.
Qed.

Lemma canonical_list_inj l k : len (canonical_list l) ≤ u64_max → canonical_list l = canonical_list k → l = k.
Proof. rewrite !canonical_list_appends. intros Hl He%appends_inj; [|done]. by apply (f_equal tail) in He. Qed.

Lemma strings_inj l k : map string_bytes l = map string_bytes k → l = k.
Proof. apply (list_fmap_eq_inj string_bytes). intros a b. apply string_bytes_inj. Qed.

Lemma u64_inj n m : n ≤ u64_max → m ≤ u64_max → to_le_bytes 8 n = to_le_bytes 8 m → n = m.
Proof. intros ? ? H. apply to_le_bytes_inj in H; [done|change (256 ^ N.of_nat 8) with (u64_max + 1); lia..]. Qed.

Lemma canonical_field d fs f : len (canonical d fs) ≤ u64_max → f ∈ fs → len f ≤ u64_max.
Proof.
  rewrite canonical_appends. intros Hl Hf.
  assert (len f ≤ len (appends (string_bytes d :: fs))) by (apply len_in_appends; by right). lia.
Qed.

(** The documents without their signatures, which are what is signed. *)
Definition unsigned_status (s : RegistryStatus) : RegistryStatus :=
  mkStatus (s_generation s) (s_issued_at s) (s_expires_at s) (s_revoked_keys s) (s_frozen_packages s)
    (s_advisories_sha256 s) "".
Definition unsigned_advisory (v : Advisory) : Advisory :=
  mkAdvisory (v_id v) (v_package v) (v_affected_versions v) (v_severity v) (v_summary v) (v_withdrawn v) "".
Definition unsigned_action (m : RegistryAdminAction) : RegistryAdminAction :=
  mkAction (x_format m) (x_action m) (x_package m) (x_version m) (x_generation m) (x_issued_at m)
    (x_expires_at m) (x_reason m) "".

(** The numbers and lengths of a document are within their types. *)
Definition authorization_fits (a : PublisherAuthorization) : Prop :=
  a_expires_at a ≤ u64_max ∧ len (authorization_bytes a) ≤ u64_max.
Definition provenance_fits (r : ReleaseProvenance) : Prop :=
  r_issued_at r ≤ u64_max ∧ len (provenance_bytes r) ≤ u64_max.
Definition status_fits (s : RegistryStatus) : Prop :=
  s_generation s ≤ u64_max ∧ s_issued_at s ≤ u64_max ∧ s_expires_at s ≤ u64_max ∧ len (status_bytes s) ≤ u64_max.
Definition advisory_fits (v : Advisory) : Prop := len (advisory_bytes v) ≤ u64_max.
Definition action_fits (m : RegistryAdminAction) : Prop :=
  x_format m ≤ u16_max ∧ x_generation m ≤ u64_max ∧ x_issued_at m ≤ u64_max ∧ x_expires_at m ≤ u64_max ∧
  len (admin_action_bytes m) ≤ u64_max.

Lemma cons_eq {A} (x y : A) l k : x :: l = y :: k → x = y ∧ l = k.
Proof. by intros [= -> ->]. Qed.

(** The fields of two documents from the equality of their bytes; [He] is about
    the lists of fields. *)
Ltac fields_of He :=
  repeat (let H := fresh "H" in apply cons_eq in He as [H He];
          first [apply string_bytes_inj in H | apply u64_inj in H; [|done..] | idtac]).

Lemma authorization_bytes_inj a b :
  authorization_fits a → authorization_fits b → authorization_bytes a = authorization_bytes b →
  with_a_signature a "" = with_a_signature b "".
Proof.
  intros [Ha Hla] [Hb _] He. unfold authorization_bytes in He, Hla. pose proof (λ f, canonical_field _ _ f Hla) as Hf.
  apply canonical_inj in He as [_ He]; [|done]. fields_of He.
  apply canonical_list_inj, strings_inj in H4; [|apply Hf; by do 5 right; left].
  unfold with_a_signature. congruence.
Qed.

Lemma provenance_bytes_inj r q :
  provenance_fits r → provenance_fits q → provenance_bytes r = provenance_bytes q →
  with_r_signature r "" = with_r_signature q "".
Proof.
  intros [Ha Hla] [Hb _] He. unfold provenance_bytes in He, Hla.
  apply canonical_inj in He as [_ He]; [|done]. fields_of He. unfold with_r_signature. congruence.
Qed.

Lemma frozen_inj l k :
  len (canonical_list (map (λ '(package, reason), canonical "frozen" [string_bytes package; string_bytes reason]) l)) ≤ u64_max →
  canonical_list (map (λ '(package, reason), canonical "frozen" [string_bytes package; string_bytes reason]) l)
  = canonical_list (map (λ '(package, reason), canonical "frozen" [string_bytes package; string_bytes reason]) k) →
  l = k.
Proof.
  intros Hl He. apply canonical_list_inj in He; [|done]. rewrite canonical_list_appends, appends_cons, len_app in Hl.
  revert k Hl He. induction l as [|[p r] l IH]; intros [|[q t] k] Hl He; [done..|].
  cbn [map] in *. rewrite appends_cons, len_app, !len_append in Hl. apply cons_eq in He as [H He].
  apply canonical_inj in H as [_ H]; [|lia]. fields_of H. f_equal; [congruence|].
  apply IH; [|done]. rewrite len_append. unfold len at 1. rewrite length_to_le_bytes. unfold len at 1 in Hl.
  rewrite length_to_le_bytes in Hl. lia.
Qed.

Lemma status_bytes_inj s t :
  status_fits s → status_fits t → status_bytes s = status_bytes t → unsigned_status s = unsigned_status t.
Proof.
  intros (? & ? & ? & Hla) (? & ? & ? & _) He. unfold status_bytes in He, Hla. pose proof (λ f, canonical_field _ _ f Hla) as Hf.
  apply canonical_inj in He as [_ He]; [|done]. fields_of He.
  repeat match goal with
    | H : canonical_list (map string_bytes _) = _ |- _ => apply canonical_list_inj, strings_inj in H; [|apply Hf; by do 3 right; left]
    | H : canonical_list _ = canonical_list _ |- _ => apply frozen_inj in H; [|apply Hf; by do 4 right; left]
    end.
  unfold unsigned_status. congruence.
Qed.

Lemma withdrawn_inj (b c : bool) :
  [byte_of_N (if b then 1 else 0)] = [byte_of_N (if c then 1 else 0)] → b = c.
Proof. by destruct b, c. Qed.

Lemma advisory_bytes_inj v w :
  advisory_fits v → advisory_bytes v = advisory_bytes w → unsigned_advisory v = unsigned_advisory w.
Proof.
  intros Hla He. unfold advisory_fits, advisory_bytes in He, Hla. pose proof (λ f, canonical_field _ _ f Hla) as Hf.
  apply canonical_inj in He as [_ He]; [|done]. fields_of He.
  repeat match goal with
    | H : canonical_list _ = canonical_list _ |- _ => apply canonical_list_inj, strings_inj in H; [|apply Hf; by do 2 right; left]
    | H : [_] = [_] |- _ => apply withdrawn_inj in H
    end.
  unfold unsigned_advisory. congruence.
Qed.

Lemma action_bytes_inj m n :
  action_fits m → action_fits n → admin_action_bytes m = admin_action_bytes n → unsigned_action m = unsigned_action n.
Proof.
  intros (Hm & ? & ? & ? & Hla) (Hn & ? & ? & ? & _) He. unfold admin_action_bytes in He, Hla.
  apply canonical_inj in He as [_ He]; [|done]. fields_of He.
  match goal with H : to_le_bytes 2 _ = _ |- _ => apply to_le_bytes_inj in H; [|unfold u16_max in *; cbn; lia..] end.
  unfold unsigned_action. congruence.
Qed.

(** Documents of different kinds never share their bytes. *)
Lemma domain_ne d e fs gs : len (canonical d fs) ≤ u64_max → d ≠ e → canonical d fs ≠ canonical e gs.
Proof. intros Hl Hd He. by apply canonical_inj in He as [? _]. Qed.

(** ** What an accepted release guarantees *)

Section root.
Context `{Crypto} (root : list byte).
(** What the holder of the root key has signed. *)
Context (authorized : PublisherAuthorization → Prop) (published : RegistryStatus → Prop)
        (advised : Advisory → Prop) (ordered : RegistryAdminAction → Prop).

Definition root_message (message : list byte) : Prop :=
  (∃ a, authorized a ∧ authorization_fits a ∧ message = authorization_bytes a) ∨
  (∃ s, published s ∧ status_fits s ∧ message = status_bytes s) ∨
  (∃ v, advised v ∧ advisory_fits v ∧ message = advisory_bytes v) ∨
  (∃ m, ordered m ∧ action_fits m ∧ message = admin_action_bytes m).

(** Signatures of the root key are not forged: one that verifies is of a
    message it has signed. *)
Definition unforged : Prop :=
  ∀ message signature, verify_strict root message signature = true → root_message message.

Lemma verify_Ok public message signature :
  verify public message signature = Ok tt →
  valid_key public = true ∧ ∃ bytes, decode_hex 64 signature "signature" = Ok bytes ∧ verify_strict public message bytes = true.
Proof.
  unfold verify. destruct (valid_key public); [|done]. cbn [negb].
  intros (bytes & Hb & Hv)%bind_Ok. destruct (verify_strict _ _ _) eqn:E; [|done]. eauto.
Qed.

Ltac other_kind := match goal with He : _ = _ |- _ => exfalso; revert He; by apply domain_ne end.

Lemma root_authorization a signature :
  unforged → authorization_fits a → verify root (authorization_bytes a) signature = Ok tt →
  ∃ a', authorized a' ∧ with_a_signature a' "" = with_a_signature a "".
Proof.
  intros Hu Hf (_ & bytes & _ & Hv)%verify_Ok. pose proof Hf as [_ Hl].
  apply Hu in Hv as [(a' & Ha & Hf' & He)|[(x & _ & _ & He)|[(x & _ & _ & He)|(x & _ & _ & He)]]];
    [|other_kind..]. exists a'. split; [done|]. symmetry. by apply authorization_bytes_inj.
Qed.

Lemma root_status s signature :
  unforged → status_fits s → verify root (status_bytes s) signature = Ok tt →
  ∃ s', published s' ∧ unsigned_status s' = unsigned_status s.
Proof.
  intros Hu Hf (_ & bytes & _ & Hv)%verify_Ok. pose proof Hf as (_ & _ & _ & Hl).
  apply Hu in Hv as [(x & _ & _ & He)|[(s' & Hs & Hf' & He)|[(x & _ & _ & He)|(x & _ & _ & He)]]];
    [other_kind| |other_kind..]. exists s'. split; [done|]. symmetry. by apply status_bytes_inj.
Qed.

Lemma root_advisory v signature :
  unforged → advisory_fits v → verify root (advisory_bytes v) signature = Ok tt →
  ∃ v', advised v' ∧ unsigned_advisory v' = unsigned_advisory v.
Proof.
  intros Hu Hf (_ & bytes & _ & Hv)%verify_Ok.
  apply Hu in Hv as [(x & _ & _ & He)|[(x & _ & _ & He)|[(v' & Hs & Hf' & He)|(x & _ & _ & He)]]];
    [other_kind|other_kind| |other_kind]. exists v'. split; [done|]. symmetry. by apply advisory_bytes_inj.
Qed.

Lemma root_action m signature :
  unforged → action_fits m → verify root (admin_action_bytes m) signature = Ok tt →
  ∃ m', ordered m' ∧ unsigned_action m' = unsigned_action m.
Proof.
  intros Hu Hf (_ & bytes & _ & Hv)%verify_Ok. pose proof Hf as (_ & _ & _ & _ & Hl).
  apply Hu in Hv as [(x & _ & _ & He)|[(x & _ & _ & He)|[(x & _ & _ & He)|(m' & Hs & Hf' & He)]]];
    [other_kind..|]. exists m'. split; [done|]. symmetry. by apply action_bytes_inj.
Qed.

Lemma check_advisories_Ok name version advisories :
  unforged → Forall advisory_fits advisories → check_advisories root name version advisories = Ok tt →
  Forall (λ v, (∃ v', advised v' ∧ unsigned_advisory v' = unsigned_advisory v) ∧
               ¬ (v_withdrawn v = false ∧ v_package v = name ∧ version ∈ v_affected_versions v)) advisories.
Proof.
  intros Hu. induction 1 as [|v l Hv _ IH]; [done|]. cbn [check_advisories].
  intros ([] & _ & H0)%bind_Ok. apply bind_Ok in H0 as ([] & Hver & H0).
  destruct (_ && _) eqn:Hb; [done|]. constructor; [|by apply IH]. split; [by eapply root_advisory|].
  intros (Hw & Hp & Ha). by rewrite Hw, !bool_decide_true in Hb.
Qed.
End root.

Lemma frozen_reason_None s package : frozen_reason s package = None → package ∉ (s_frozen_packages s).*1.
Proof.
  unfold frozen_reason. destruct (list_find _ _) as [[i e]|] eqn:E; [done|]. intros _ Hin.
  apply list_find_None in E. apply list_elem_of_fmap in Hin as ([p r] & -> & Hin).
  rewrite Forall_forall in E. by apply (E _ Hin).
Qed.

(** What the holder of the root key, the publisher and the package say of a
    release: the root has authorized this publisher with this key, repository
    and workflow for the package, in a status it has published and that is
    current the key is not revoked and the package not frozen, the publisher's
    key signed the provenance, the provenance describes the package, and no
    standing advisory of the root affects it. *)
Record granted `{Crypto} (authorized : PublisherAuthorization → Prop) (published : RegistryStatus → Prop)
    (advised : Advisory → Prop) (package_bytes : list byte) (package : Package) (r : ReleaseProvenance)
    (advisories : list Advisory) (now minimum : N) : Prop := {
  g_package : decode_package package_bytes = Ok package;
  g_content : r_package r = str_of_chars (pk_name package) ∧ r_version r = str_of_chars (pk_version package) ∧
    r_sha256 r = sha256 package_bytes;
  g_signed : ∃ key signature, decode_key (r_public_key r) = Ok key ∧
    verify_strict key (provenance_bytes r) signature = true;
  g_authorized : ∃ a, authorized a ∧ a_publisher a = r_publisher r ∧ a_public_key a = r_public_key r ∧
    a_repository a = r_repository r ∧ a_workflow a = r_workflow r ∧ now ≤ a_expires_at a ∧
    authorization_allows_package (a_packages a) (r_package r) = true;
  g_status : ∃ s, published s ∧ minimum ≤ s_generation s ∧ now ≤ s_expires_at s ∧
    s_issued_at s ≤ saturating_add_u64 now 300 ∧ r_public_key r ∉ s_revoked_keys s ∧
    r_package r ∉ (s_frozen_packages s).*1 ∧ s_advisories_sha256 s = advisories_sha256 advisories;
  g_advisories : Forall (λ v, (∃ v', advised v' ∧ unsigned_advisory v' = unsigned_advisory v) ∧
    ¬ (v_withdrawn v = false ∧ v_package v = r_package r ∧ r_version r ∈ v_affected_versions v)) advisories }.

(** Case analysis on the guards of a function that returned [Ok]. *)
Ltac passed H :=
  repeat first
    [ match type of H with (if ?b then _ else _) = Ok _ => destruct b eqn:?; [done|] end
    | match type of H with mbind _ _ = Ok _ => apply bind_Ok in H as (? & ? & H) end ].

(** C23: an accepted release is one the root and the publisher stand behind: when
    [verify_release] returns a package and signatures of the root key are not
    forged, the root has issued an authorization and a status, current and with
    the contents that were checked, and everything in [granted] holds of them;
    no document can stand in for one of another kind or with other fields. *)
Theorem verify_release_sound `{Crypto} root authorized published advised ordered
    package_bytes r a s advisories now minimum package :
  unforged root authorized published advised ordered →
  authorization_fits a → status_fits s → Forall advisory_fits advisories →
  verify_release package_bytes r a s advisories root now minimum = Ok package →
  granted authorized published advised package_bytes package r advisories now minimum.
Proof.
  intros Hu Hfa Hfs Hfv Hr. unfold verify_release in Hr. passed Hr.
  destruct (frozen_reason s (r_package r)) eqn:Hfrozen; [done|]. apply frozen_reason_None in Hfrozen. passed Hr.
  apply Ok_eq in Hr as ->.
  repeat match goal with
    | Hx : _ || _ = false |- _ => apply orb_false_iff in Hx as [? ?]
    | Hx : negb _ = false |- _ => apply negb_false_iff in Hx
    | Hx : bool_decide _ = true |- _ => apply bool_decide_eq_true in Hx
    | Hx : bool_decide _ = false |- _ => apply bool_decide_eq_false in Hx
    | Hx : (_ <? _) = false |- _ => apply N.ltb_ge in Hx
    | Hx : unit |- _ => destruct Hx
    end.
  match goal with Hv : verify root (authorization_bytes a) _ = _ |- _ =>
    destruct (root_authorization _ _ _ _ _ _ _ Hu Hfa Hv) as (a' & Ha & Ea) end.
  match goal with Hv : verify root (status_bytes s) _ = _ |- _ =>
    destruct (root_status _ _ _ _ _ _ _ Hu Hfs Hv) as (s' & Hs & Es) end.
  match goal with Hv : verify ?key (provenance_bytes r) _ = _ |- _ =>
    apply verify_Ok in Hv as (_ & signature & _ & Hv) end.
  match goal with Hc : check_advisories _ _ _ _ = _ |- _ =>
    pose proof (check_advisories_Ok _ _ _ _ _ _ _ _ Hu Hfv Hc) as Hadv end.
  unfold with_a_signature in Ea. injection Ea as E1 E2 E3 E4 E5 E6.
  unfold unsigned_status in Es. injection Es as F1 F2 F3 F4 F5 F6.
  repeat match goal with Hx : str_of_chars _ = _ |- _ => rewrite Hx in Hadv; symmetry in Hx end.
  split; [done|by split_and!|by eauto| | |done].
  - exists a'. rewrite E5, E6. split_and!; congruence.
  - exists s'. rewrite F1, F2, F3, F4, F5. split_and!; congruence.
Qed.

(** ** Hexadecimal texts *)

Lemma hex_byte b :
  u8_from_hex (hex_digit (Byte.to_N b / 16)) (hex_digit (Byte.to_N b mod 16)) = Some (Byte.to_N b) ∧
  (Byte.to_N (hex_digit (Byte.to_N b / 16)) <? 128) && (Byte.to_N (hex_digit (Byte.to_N b mod 16)) <? 128) = true.
Proof. destruct b; split; vm_compute; reflexivity. Qed.

(** [encode_hex] spells bytes so that [decode_hex] reads them back. *)
Lemma decode_encode_hex n bytes label : len bytes = n → decode_hex n (encode_hex bytes) label = Ok bytes.
Proof.
  intros <-. unfold decode_hex, encode_hex, str_len. rewrite string_bytes_of_bytes.
  set (text := bytes ≫= _).
  assert (hex_pairs text = Some bytes ∧ forallb (λ b, Byte.to_N b <? 128) text = true ∧ len text = len bytes * 2) as (Hp & Ha & Hl).
  { unfold text. clear text. induction bytes as [|b bytes (IHp & IHa & IHl)]; [done|].
    destruct (hex_byte b) as [Hb Hab%andb_true_iff].
    cbn [mbind list_bind app hex_pairs forallb]. rewrite Hb, IHp. destruct Hab as [-> ->]. cbn [mbind option_bind andb].
    rewrite byte_of_N_of_byte, !len_cons, IHl. split_and!; [done|done|lia]. }
  rewrite Ha, Hl, N.eqb_refl. cbn [negb orb]. by rewrite Hp.
Qed.

(** ** Honest releases *)

(** What the documentation of the two packages promises. *)
Class CryptoLaws `{Crypto} : Prop := {
  signature_length : ∀ secret message, len (sign_bytes secret message) = 64;
  public_length : ∀ secret, len (public_of secret) = 32;
  digest_length : ∀ bytes, len (sha256_digest bytes) = 32;
  public_valid : ∀ secret, valid_key (public_of secret) = true;
  signature_verifies : ∀ secret message, verify_strict (public_of secret) message (sign_bytes secret message) = true }.

Section honest.
Local Set Default Proof Using "All".
Context `{CryptoLaws}.

Lemma verify_sign secret message : verify (public_of secret) message (sign secret message) = Ok tt.
Proof.
  unfold verify, sign. rewrite public_valid. cbn [negb]. rewrite decode_encode_hex by apply signature_length.
  cbn [mbind result_bind]. by rewrite signature_verifies.
Qed.

Lemma check_signed_advisories root_secret name version advisories :
  Forall (λ v, validate_advisory v = Ok tt ∧
    (v_withdrawn v = true ∨ v_package v ≠ name ∨ version ∉ v_affected_versions v)) advisories →
  check_advisories (public_of root_secret) name version (map (sign_advisory root_secret) advisories) = Ok tt.
Proof.
  induction 1 as [|v l [Hv Hn] _ IH]; [done|]. cbn [map check_advisories].
  change (validate_advisory (sign_advisory root_secret v)) with (validate_advisory v). rewrite Hv. cbn [mbind result_bind].
  change (advisory_bytes (sign_advisory root_secret v)) with (advisory_bytes v).
  change (v_signature (sign_advisory root_secret v)) with (sign root_secret (advisory_bytes v)).
  rewrite verify_sign. cbn [mbind result_bind sign_advisory v_withdrawn v_package v_affected_versions].
  destruct (negb _ && _ && _) eqn:E; [|done].
  apply andb_true_iff in E as [[E1%negb_true_iff E2%bool_decide_eq_true]%andb_true_iff E3%bool_decide_eq_true].
  destruct Hn as [Hn|[Hn|Hn]]; [congruence|done|done].
Qed.
End honest.

Ltac verified f :=
  match goal with |- context [verify ?key (f ?document) ?signature] =>
    assert (verify key (f document) signature = Ok tt) as -> by apply verify_sign end.

(** C24: an honest release passes: the package a publisher attests, authorized by
    the root for its name, under a status the root has signed that is current,
    revokes or freezes nothing of it and commits to the advisories served, is
    accepted by [verify_release] when no advisory affects it. *)
Theorem honest_release_accepted `{CryptoLaws} root_secret secret publisher repository workflow commit
    expires_at packages issued_at package_bytes a r s advisories now minimum :
  authorize_publisher root_secret publisher (encode_hex (public_of secret)) repository workflow expires_at packages = Ok a →
  attest_release secret package_bytes publisher repository workflow commit issued_at = Ok r →
  valid_publisher publisher = true → authorization_allows_package packages (r_package r) = true →
  now ≤ expires_at → issued_at ≤ saturating_add_u64 now 300 →
  validate_status s = Ok tt → minimum ≤ s_generation s → now ≤ s_expires_at s →
  s_issued_at s ≤ saturating_add_u64 now 300 →
  s_advisories_sha256 s = advisories_sha256 (map (sign_advisory root_secret) advisories) →
  encode_hex (public_of secret) ∉ s_revoked_keys s → frozen_reason s (r_package r) = None →
  Forall (λ v, validate_advisory v = Ok tt ∧
    (v_withdrawn v = true ∨ v_package v ≠ r_package r ∨ r_version r ∉ v_affected_versions v)) advisories →
  ∃ package, decode_package package_bytes = Ok package ∧
    verify_release package_bytes r a (sign_status root_secret s) (map (sign_advisory root_secret) advisories)
      (public_of root_secret) now minimum = Ok package.
Proof.
  intros Ha Hr Hpub Hallow Hexp Hissued Hs Hgen Hsexp Hsiss Hdig Hrev Hfro Hadv.
  unfold authorize_publisher in Ha. passed Ha. apply Ok_eq in Ha as <-.
  unfold attest_release in Hr. passed Hr. apply Ok_eq in Hr as <-.
  match goal with Hd : decode_package _ = Ok ?p |- _ => exists p; split; [done|]; rename Hd into Hdec end.
  unfold verify_release.
  cbn [with_a_signature with_r_signature sign_status a_publisher a_public_key a_repository a_workflow a_expires_at a_packages
       a_signature r_package r_version r_sha256 r_publisher r_public_key r_repository r_workflow r_issued_at r_signature
       s_generation s_issued_at s_expires_at s_revoked_keys s_advisories_sha256 s_signature] in *.
  rewrite Hpub. cbn [negb orb].
  verified authorization_bytes.
  match goal with |- context [validate_status ?x] => change (validate_status x) with (validate_status s) end.
  cbn [mbind result_bind]. rewrite Hs. cbn [mbind result_bind].
  verified status_bytes. cbn [mbind result_bind].
  rewrite (proj2 (N.ltb_ge _ _) Hgen), (bool_decide_true _ Hdig), (proj2 (N.ltb_ge _ _) Hsexp), (proj2 (N.ltb_ge _ _) Hsiss).
  rewrite (proj2 (N.ltb_ge _ _) Hexp), (proj2 (N.ltb_ge _ _) Hissued), !(bool_decide_true (_ = _)), Hallow by done.
  cbn [negb orb]. rewrite (bool_decide_false _ Hrev).
  match goal with |- context [frozen_reason ?x] => change (frozen_reason x) with (frozen_reason s) end. rewrite Hfro.
  unfold decode_key. rewrite decode_encode_hex by apply public_length. cbn [mbind result_bind].
  verified provenance_bytes. cbn [mbind result_bind].
  rewrite Hdec. cbn [mbind result_bind]. rewrite !(bool_decide_true (_ = _)) by done. cbn [negb orb].
  by rewrite check_signed_advisories.
Qed.

(** ** The envelope *)

(** What serde promises of the documents it derives. *)
Class DocumentsLaws `{Documents} : Prop := {
  provenance_reads : ∀ r, provenance_of_json (provenance_json r) = Ok r;
  authorization_reads : ∀ a, authorization_of_json (authorization_json a) = Ok a }.

Lemma reads_envelope_number width n :
  n < 256 ^ N.of_nat width → cursor_reads (to_le_bytes width n) (envelope_number (N.of_nat width)) n.
Proof.
  intros Hn. unfold envelope_number. rewrite <- (app_nil_r (to_le_bytes _ _)). eapply reads_bind.
  - apply reads_take. unfold len. by rewrite length_to_le_bytes.
  - rewrite from_to_le_bytes by done. apply reads_ret.
Qed.

(** A published envelope is received as it was sent: what [encode] writes,
    [decode] reads back as the same package bytes, provenance and authorization. *)
Theorem envelope_roundtrip `{DocumentsLaws} e bytes :
  encode_envelope e = Ok bytes → decode_envelope bytes = Ok e.
Proof.
  unfold encode_envelope, decode_envelope. cbv zeta. intros He.
  destruct (_ || _) eqn:Hdoc; [done|]. apply orb_false_iff in Hdoc as [Hp%N.ltb_ge Ha%N.ltb_ge].
  apply bind_Ok in He as (package & Hpackage & He). set (out := ENVELOPE_MAGIC ++ _) in He.
  destruct (N.ltb_spec MAX_ENVELOPE_SIZE (len out)) as [|Hmax]; [done|]. apply Ok_eq in He as <-.
  destruct (N.ltb_spec MAX_ENVELOPE_SIZE (len out)); [lia|].
  assert (len (e_package e) ≤ u64_max) as Hlen.
  { unfold out in Hmax. rewrite !len_app in Hmax. unfold MAX_ENVELOPE_SIZE, u64_max in *. lia. }
  unfold MAX_DOCUMENT_SIZE in Hp, Ha.
  assert (cursor_reads out read_envelope e) as Hr.
  { unfold out, read_envelope. eapply reads_bind; [by apply reads_take|]. rewrite bool_decide_true by done. cbn [negb].
    eapply reads_bind; [by apply (reads_envelope_number 2)|]. cbn [negb N.eqb Pos.eqb].
    eapply reads_bind; [apply (reads_envelope_number 4); cbn; lia|].
    eapply reads_bind; [apply (reads_envelope_number 4); cbn; lia|].
    eapply reads_bind; [apply (reads_envelope_number 8); change (256 ^ N.of_nat 8) with (u64_max + 1); lia|].
    rewrite !(proj2 (N.ltb_ge _ _)) by (unfold MAX_DOCUMENT_SIZE; lia). cbn [orb].
    eapply reads_bind; [by apply reads_take|]. eapply reads_check; [apply reads_lift; by rewrite provenance_reads|].
    eapply reads_bind; [by apply reads_take|]. eapply reads_check; [apply reads_lift; by rewrite authorization_reads|].
    rewrite <- (app_nil_r (e_package e)) at 1. eapply reads_bind; [by apply reads_take|].
    destruct e. apply reads_ret. }
  specialize (Hr [] []). cbn [app] in Hr. rewrite app_nil_r, len_nil, N.add_0_l in Hr.
  rewrite Hr by (unfold MAX_ENVELOPE_SIZE, usize_max, u64_max in *; lia).
  cbn [mbind result_bind]. rewrite N.eqb_refl. cbn [negb]. by rewrite Hpackage.
Qed.

(** ** Samples *)

(** A signature that carries the key it was made with. *)
Definition zeros (n : nat) : list byte := repeat (byte_of_N 0) n.
Definition toy_public (secret : list byte) : list byte := take 32 (secret ++ zeros 32).
Definition toy_crypto : Crypto := {|
  valid_key _ := true;
  verify_strict key message signature := bool_decide (take 32 signature = key);
  sign_bytes secret message := toy_public secret ++ zeros 32;
  public_of := toy_public;
  sha256_digest bytes := take 32 (rev bytes ++ zeros 32) |}.

Lemma len_padded (l : list byte) : len (take 32 (l ++ zeros 32)) = 32.
Proof. unfold len. rewrite length_take, length_app. unfold zeros. rewrite repeat_length. lia. Qed.

Lemma toy_laws : @CryptoLaws toy_crypto.
Proof.
  split; cbn [sign_bytes public_of sha256_digest valid_key verify_strict toy_crypto]; intros *;
    [|apply len_padded|apply len_padded|done|].
  - rewrite len_app. unfold toy_public. by rewrite len_padded.
  - intros _. apply bool_decide_eq_true. assert (length (toy_public secret) = 32%nat) as Hl.
    { pose proof (len_padded secret) as H. unfold len in H. unfold toy_public. lia. }
    rewrite take_app_le, <- Hl by lia. by rewrite firstn_all.
Qed.

Definition sample_secret : list byte := string_bytes "a publisher's secret, 32 bytes.!".
Definition sample_root : list byte := string_bytes "the root of the registry's trust".

Definition sample_archive : list byte :=
  match encode_package plain_package with Ok bytes => bytes | Err _ => [] end.

Definition sample_status `{Crypto} (revoked : list string) (advisories : list Advisory) : RegistryStatus :=
  mkStatus 7 100 900 revoked [("frozen-package", "compromised")] (advisories_sha256 advisories) "".

Definition sample_advisory : Advisory :=
  mkAdvisory "NIV-1" "demo" ["0.9.0"] "high" "an old release" false "".

Lemma honest_release_accepted_witness :
  let C := toy_crypto in
  ∃ a r s package,
    authorize_publisher sample_root "ann" (encode_hex (public_of sample_secret)) "repo" "ci" 800 ["demo"] = Ok a ∧
    attest_release sample_secret sample_archive "ann" "repo" "ci" "0123abcd" 400 = Ok r ∧
    verify_release sample_archive r a s (map (sign_advisory sample_root) [sample_advisory])
      (public_of sample_root) 500 3 = Ok package.
Proof.
  intros C. pose (s := sample_status [] (map (sign_advisory sample_root) [sample_advisory])).
  destruct (authorize_publisher sample_root "ann" (encode_hex (public_of sample_secret)) "repo" "ci" 800 ["demo"])
    as [a|] eqn:Ha; [|by vm_compute in Ha].
  destruct (attest_release sample_secret sample_archive "ann" "repo" "ci" "0123abcd" 400) as [r|] eqn:Hr; [|by vm_compute in Hr].
  assert (r_package r = "demo" ∧ r_version r = "1.0.0") as [Hp Hv].
  { vm_compute in Hr. by injection Hr as <-. }
  assert (∃ package, decode_package sample_archive = Ok package ∧
    verify_release sample_archive r a (sign_status sample_root s) (map (sign_advisory sample_root) [sample_advisory])
      (public_of sample_root) 500 3 = Ok package) as (package & _ & Hok).
  { apply (@honest_release_accepted toy_crypto toy_laws sample_root sample_secret "ann" "repo" "ci" "0123abcd" 800 ["demo"] 400);
      rewrite ?Hp, ?Hv; [done|done|done|done|done|done|by vm_compute|done|done|done|done|apply not_elem_of_nil|done|].
    constructor; [|done]. split; [by vm_compute|]. right. right. by intros [?|?%elem_of_nil]%elem_of_cons. }
  exists a, r, (sign_status sample_root s), package. exact (conj eq_refl (conj eq_refl Hok)).
Defined.

(** The documents of one release, and a root key that signed nothing else. *)
Definition sample_authorization : PublisherAuthorization :=
  let a := mkAuthorization "ann" (encode_hex (toy_public sample_secret)) "repo" "ci" 800 ["demo"] "" in
  with_a_signature a (@sign toy_crypto sample_root (authorization_bytes a)).
Definition sample_advisories : list Advisory := [@sign_advisory toy_crypto sample_root sample_advisory].
Definition sample_signed_status : RegistryStatus :=
  @sign_status toy_crypto sample_root (@sample_status toy_crypto [] sample_advisories).
Definition sample_provenance : ReleaseProvenance :=
  let r := mkProvenance "demo" "1.0.0" (@sha256 toy_crypto sample_archive) "ann" (encode_hex (toy_public sample_secret))
             "repo" "ci" "0123abcd" 400 "" in
  with_r_signature r (@sign toy_crypto sample_secret (provenance_bytes r)).

Definition issued_messages : list (list byte) :=
  authorization_bytes sample_authorization :: status_bytes sample_signed_status :: map advisory_bytes sample_advisories.

Definition issued_crypto : Crypto := {|
  valid_key _ := true;
  verify_strict key message signature :=
    bool_decide (take 32 signature = key)
    && (negb (bool_decide (key = toy_public sample_root)) || bool_decide (message ∈ issued_messages));
  sign_bytes := @sign_bytes toy_crypto; public_of := toy_public; sha256_digest := @sha256_digest toy_crypto |}.

Lemma issued_unforged :
  @unforged issued_crypto (toy_public sample_root) (eq sample_authorization) (eq sample_signed_status)
    (.∈ sample_advisories) (λ _, False).
Proof.
  intros message signature. cbn [verify_strict issued_crypto].
  rewrite (bool_decide_true (toy_public sample_root = _)) by done. cbn [negb orb].
  intros [_ Hin%bool_decide_eq_true]%andb_true_iff. unfold issued_messages in Hin.
  rewrite !elem_of_cons in Hin. destruct Hin as [->|[->|Hin]].
  - left. exists sample_authorization. split; [done|]. split; [|done]. by split; vm_compute.
  - right. left. exists sample_signed_status. split; [done|]. split; [|done]. by split_and!; vm_compute.
  - right. right. left. apply list_elem_of_fmap in Hin as (v & -> & Hv). exists v. split; [done|]. split; [|done].
    apply list_elem_of_singleton in Hv as ->. by vm_compute.
Qed.

Lemma verify_release_sound_witness :
  ∃ package,
    @verify_release issued_crypto sample_archive sample_provenance sample_authorization sample_signed_status
      sample_advisories (toy_public sample_root) 500 3 = Ok package ∧
    @granted issued_crypto (eq sample_authorization) (eq sample_signed_status) (.∈ sample_advisories)
      sample_archive package sample_provenance sample_advisories 500 3.
Proof.
  destruct (@verify_release issued_crypto sample_archive sample_provenance sample_authorization sample_signed_status
      sample_advisories (toy_public sample_root) 500 3) as [package|] eqn:Hv; [|by vm_compute in Hv].
  exists package. split; [reflexivity|].
  refine (@verify_release_sound issued_crypto _ _ _ _ _ _ _ _ _ _ _ _ _ issued_unforged _ _ _ Hv).
  - by split; vm_compute.
  - by split_and!; vm_compute.
  - constructor; [by vm_compute|done].
Defined.

(** A key written with capital letters. *)
Definition shouted_key : string := "AB" +:+ String.substring 2 62 (encode_hex (toy_public (byte_of_N 0xAB :: sample_secret))).

(** C25: a revocation is of a spelling, not of a key: keys are compared as text,
    and hexadecimal digits may be capitals, so a publisher whose authorization
    spells the revoked key otherwise still has its releases accepted. *)
Theorem revoked_key_accepted :
  ∃ C : Crypto, @CryptoLaws C ∧
  ∃ package_bytes r a s root_secret now minimum package,
    authorize_publisher root_secret (a_publisher a) (a_public_key a) (a_repository a) (a_workflow a)
      (a_expires_at a) (a_packages a) = Ok a ∧
    verify_release package_bytes r a s [] (public_of root_secret) now minimum = Ok package ∧
    ∃ revoked key, revoked ∈ s_revoked_keys s ∧ decode_key revoked = Ok key ∧ decode_key (r_public_key r) = Ok key.
Proof.
  exists toy_crypto. split; [apply toy_laws|].
  pose (secret := byte_of_N 0xAB :: sample_secret).
  pose (a := mkAuthorization "ann" shouted_key "repo" "ci" 800 ["demo"] "").
  pose (r := mkProvenance "demo" "1.0.0" (@sha256 toy_crypto sample_archive) "ann" shouted_key
               "repo" "ci" "0123abcd" 400 "").
  pose (s := @sign_status toy_crypto sample_root (@sample_status toy_crypto [encode_hex (toy_public secret)] [])).
  destruct (decode_package sample_archive) as [package|] eqn:Hp; [|by vm_compute in Hp].
  exists sample_archive, (with_r_signature r (@sign toy_crypto secret (provenance_bytes r))),
    (with_a_signature a (@sign toy_crypto sample_root (authorization_bytes a))), s, sample_root, 500, 3, package.
  split; [by vm_compute|]. split; [vm_compute in Hp; injection Hp as <-; by vm_compute|].
  exists (encode_hex (toy_public secret)), (toy_public secret). split; [by left|]. split; by vm_compute.
Qed.

(** Documents written bit by bit. *)
Fixpoint pos_bytes (p : positive) : list byte :=
  match p with
  | xH => []
  | xO p => byte_of_N 0 :: pos_bytes p
  | xI p => byte_of_N 1 :: pos_bytes p
  end.
Fixpoint bytes_pos (l : list byte) : positive :=
  match l with
  | [] => xH
  | b :: l => if Byte.to_N b =? 0 then xO (bytes_pos l) else xI (bytes_pos l)
  end.
Lemma bytes_pos_bytes p : bytes_pos (pos_bytes p) = p.
Proof. induction p as [p IH|p IH|]; cbn; [by rewrite IH..|done]. Qed.

Definition provenance_tuple (r : ReleaseProvenance) :=
  ([r_package r; r_version r; r_sha256 r; r_publisher r; r_public_key r; r_repository r; r_workflow r; r_commit r;
    r_signature r], r_issued_at r).
Definition authorization_tuple (a : PublisherAuthorization) :=
  (a_publisher a :: a_public_key a :: a_repository a :: a_workflow a :: a_signature a :: a_packages a, a_expires_at a).

Definition toy_documents : Documents := {|
  provenance_json r := pos_bytes (encode (provenance_tuple r));
  provenance_of_json l :=
    match decode (bytes_pos l) with
    | Some ([a; b; c; d; e; f; g; h; j], i) => Ok (mkProvenance a b c d e f g h i j)
    | _ => Err "no provenance"
    end;
  authorization_json a := pos_bytes (encode (authorization_tuple a));
  authorization_of_json l :=
    match decode (bytes_pos l) with
    | Some (a :: b :: c :: d :: g :: f, e) => Ok (mkAuthorization a b c d e f g)
    | _ => Err "no authorization"
    end |}.

Lemma toy_documents_laws : @DocumentsLaws toy_documents.
Proof.
  split; cbn [provenance_of_json provenance_json authorization_of_json authorization_json toy_documents].
  - intros r. rewrite bytes_pos_bytes, decode_encode. by destruct r.
  - intros a. rewrite bytes_pos_bytes, decode_encode. by destruct a.
Qed.

Definition sample_envelope : PublishEnvelope := mkEnvelope sample_archive sample_provenance sample_authorization.

Lemma envelope_roundtrip_witness :
  ∃ bytes, @encode_envelope toy_documents sample_envelope = Ok bytes ∧
    @decode_envelope toy_documents bytes = Ok sample_envelope.
Proof.
  destruct (@encode_envelope toy_documents sample_envelope) as [bytes|] eqn:He.
  2: { apply (f_equal is_ok) in He. by vm_compute in He. }
  exists bytes. split; [reflexivity|]. exact (@envelope_roundtrip toy_documents toy_documents_laws sample_envelope bytes He).
Defined.
