(* ===== verification/Registry.v ===== *)
(** * Registries

    [publish], [fetch], [set_yanked] and [version_parts] of src/src/package.rs
    on a registry as a state: the archives below [v1/packages] and the documents
    below [v1/index], both by name and version, which are path components for
    the names and versions of manifests.  The JSON text of a document is
    represented by the fields that are read, each of which may be missing or of
    another type.  A failing disk is not modelled.

    A registry promises a shelf: for every name and version at most one archive,
    never replaced, with a mark that it is yanked.  Every sequence of
    publications and yanks on the two directories of a registry does what it
    does on the shelf, and [fetch] gives exactly what stands there unmarked. *)
From S2P Require Import Prelude Ast Values Text Strs Utf8 Manifest ManifestOk Package PackageOk Trust TrustOk.
Open Scope list_scope.

Local Notation lit := ascii_chars.

(** A name and a version. *)
Notation Key := (list N * list N)%type.

(** What an index document says; [d_authority] stands for the capabilities, the
    scopes and the unsafe modules, which nothing reads back. *)
Record Document := mkDocument {
  d_format : option N; d_name : option (list char); d_version : option (list char);
  d_sha256 : option string; d_size : option N; d_yanked : option bool;
  d_authority : gset (list char) * gmap (list char) (list char) * gset (list char) }.

#[export] Instance Document_eq_dec : EqDecision Document.
Proof. solve_decision. Defined.

Record Registry := mkRegistry { r_artifacts : gmap Key (list byte); r_index : gmap Key Document }.

Section registry.
Context `{Crypto}.

(** A function of the registry that may change it. *)
Definition RegM (A : Type) : Type := Registry → result NivError A * Registry.

(** The document [publish] writes. *)
Definition published_document (package : Package) (m : Manifest) (package_bytes : list byte) : Document :=
  mkDocument (Some 1) (Some (pk_name package)) (Some (pk_version package)) (Some (sha256 package_bytes))
    (Some (len package_bytes)) (Some false) (m_capabilities m, m_capability_scopes m, m_unsafe_modules m).

(** What [publish] and the installer read of a package's manifest. *)
Definition manifest_of (package : Package) (root : list char) (message : string) : result NivError Manifest :=
  manifest_source ← ok_or (package_error (lit message))
                      (manifest_bytes ← pk_files package !! MANIFEST_NAME; text_of_bytes manifest_bytes);
  parse_manifest manifest_source root.

(** [publish] *)
Definition publish (package_bytes : list byte) : RegM unit := λ registry,
  match (package ← decode_package package_bytes;
         manifest ← manifest_of package (lit ".") "package manifest is not UTF-8";
         Ok (package, manifest)) with
  | Err e => (Err e, registry)
  | Ok (package, manifest) =>
      let key := (pk_name package, pk_version package) in
      let metadata := published_document package manifest package_bytes in
      match r_artifacts registry !! key with
      | Some existing =>
          if negb (bool_decide (sha256 existing = sha256 package_bytes)) then
            (refuse "registry version already exists with different content", registry)
          else
            match r_index registry !! key with
            | Some known =>
                if negb (bool_decide (known = metadata)) then
                  (refuse "registry metadata already exists with different content", registry)
                else (Ok tt, registry)
            | None => (Ok tt, mkRegistry (r_artifacts registry) (<[key := metadata]> (r_index registry)))
            end
      | None =>
          let registry := mkRegistry (<[key := package_bytes]> (r_artifacts registry)) (r_index registry) in
          match r_index registry !! key with
          | Some known =>
              if negb (bool_decide (known = metadata)) then
                (refuse "registry metadata already exists with different content", registry)
              else (Ok tt, registry)
          | None => (Ok tt, mkRegistry (r_artifacts registry) (<[key := metadata]> (r_index registry)))
          end
      end
  end.

(** The test of [fetch] and [set_yanked] on a document. *)
Definition names (d : Document) (key : Key) : bool :=
  bool_decide (d_format d = Some 1) && bool_decide (d_name d = Some key.1) && bool_decide (d_version d = Some key.2).

(** [fetch] *)
Definition fetch (name version : list char) (registry : Registry) : result NivError (list byte) :=
  let key := (name, version) in
  _ ← validate_identity name version;
  metadata ← ok_or (package_error (lit "cannot read registry metadata")) (r_index registry !! key);
  if negb (names metadata key) then refuse "registry metadata identity is invalid"
  else if default false (d_yanked metadata) then
    Err (package_error (lit "package " ++ name ++ lit " " ++ version ++ lit " is yanked and cannot be newly installed"))
  else
    expected ← ok_or (package_error (lit "registry metadata has no checksum")) (d_sha256 metadata);
    expected_size ← ok_or (package_error (lit "registry metadata has an invalid size")) (d_size metadata);
    if MAX_PACKAGE_SIZE <? expected_size then refuse "registry package exceeds size limit"
    else
      bytes ← ok_or (package_error (lit "cannot read registry artifact")) (r_artifacts registry !! key);
      if negb (len bytes =? expected_size) then refuse "registry artifact size mismatch"
      else if negb (bool_decide (sha256 bytes = expected)) then refuse "registry artifact checksum mismatch"
      else
        package ← decode_package bytes;
        if negb (bool_decide (pk_name package = name)) || negb (bool_decide (pk_version package = version)) then
          refuse "registry artifact identity mismatch"
        else Ok bytes.

(** [set_yanked] *)
Definition with_yanked (d : Document) (yanked : bool) : Document :=
  mkDocument (d_format d) (d_name d) (d_version d) (d_sha256 d) (d_size d) (Some yanked) (d_authority d).
Definition set_yanked (name version : list char) (yanked : bool) : RegM unit := λ registry,
  let key := (name, version) in
  match validate_identity name version with
  | Err e => (Err e, registry)
  | Ok _ =>
      match r_index registry !! key with
      | None => (refuse "cannot read registry metadata", registry)
      | Some metadata =>
          if negb (names metadata key) then (refuse "registry metadata identity is invalid", registry)
          else (Ok tt, mkRegistry (r_artifacts registry) (<[key := with_yanked metadata yanked]> (r_index registry)))
      end
  end.
End registry.

(** [version_parts] *)
Definition version_part (part : list char) : N := default 0 (parse_u64 part).
Definition version_parts (version : list char) : N * N * N :=
  let parts := map version_part (split_char (ch ".") version) in
  (default 0 (parts !! 0%nat), default 0 (parts !! 1%nat), default 0 (parts !! 2%nat)).

(** ** The specification *)

Notation Shelf := (gmap (list N * list N) (list byte * bool)).

(** Put an archive under its name and version; the same archive again changes
    nothing, another one or a yanked one is refused. *)
Definition put (package_bytes : list byte) (shelf : Shelf) : bool * Shelf :=
  match decode_package package_bytes with
  | Err _ => (false, shelf)
  | Ok package =>
      let key := (pk_name package, pk_version package) in
      match shelf !! key with
      | None => (true, <[key := (package_bytes, false)]> shelf)
      | Some (bytes, yanked) => (bool_decide (bytes = package_bytes) && negb yanked, shelf)
      end
  end.

(** Set or clear the mark of what is there. *)
Definition mark (key : Key) (yanked : bool) (shelf : Shelf) : bool * Shelf :=
  match shelf !! key with
  | None => (false, shelf)
  | Some (bytes, _) => (true, <[key := (bytes, yanked)]> shelf)
  end.

(** Take what is there unmarked. *)
Definition take_from (key : Key) (shelf : Shelf) : option (list byte) :=
  match shelf !! key with Some (bytes, false) => Some bytes | _ => None end.

Inductive Operation := Publish (bytes : list byte) | Yank (key : Key) (yanked : bool).

Definition on_shelf (op : Operation) (shelf : Shelf) : bool * Shelf :=
  match op with Publish bytes => put bytes shelf | Yank key yanked => mark key yanked shelf end.

Definition on_registry `{Crypto} (op : Operation) (registry : Registry) : bool * Registry :=
  let '(r, registry) :=
    match op with Publish bytes => publish bytes registry | Yank key yanked => set_yanked key.1 key.2 yanked registry end in
  (is_ok r, registry).

(** What every operation reported, and the state at the end. *)
Fixpoint perform {S} (step : Operation → S → bool * S) (ops : list Operation) (s : S) : list bool * S :=
  match ops with
  | [] => ([], s)
  | op :: ops => let '(b, s) := step op s in let '(bs, s) := perform step ops s in (b :: bs, s)
  end.

(** ** Proof *)

Section refinement.
Context `{Crypto}.
Local Set Default Proof Using "Type".

(** What a registry shows for one key. *)
Definition shown (registry : Registry) (key : Key) (entry : option (list byte * bool)) : Prop :=
  match entry with
  | None => r_artifacts registry !! key = None ∧ r_index registry !! key = None
  | Some (bytes, yanked) =>
      r_artifacts registry !! key = Some bytes ∧
      ∃ package m, decode_package bytes = Ok package ∧
        manifest_of package (lit ".") "package manifest is not UTF-8" = Ok m ∧
        key = (pk_name package, pk_version package) ∧
        r_index registry !! key = Some (with_yanked (published_document package m bytes) yanked)
  end.
Definition shows (registry : Registry) (shelf : Shelf) : Prop := ∀ key, shown registry key (shelf !! key).

(** A package that decodes has a manifest, and its identity is well formed. *)
Lemma decoded_manifest bytes package :
  decode_package bytes = Ok package →
  ∃ m, manifest_of package (lit ".") "package manifest is not UTF-8" = Ok m ∧
    valid_name (pk_name package) = true ∧ valid_version (pk_version package) = true ∧ len bytes ≤ MAX_PACKAGE_SIZE.
Proof.
  unfold decode_package. destruct (N.ltb_spec MAX_PACKAGE_SIZE (len bytes)); [done|].
  intros ([[[name version] files] offset] & _ & H')%bind_Ok. destruct (negb _); [done|].
  apply bind_Ok in H' as ([] & _ & H'). apply bind_Ok in H' as (m & Hm & H').
  destruct (_ || _) eqn:Hid; [done|]. apply Ok_eq in H' as <-. cbn [pk_name pk_version pk_files].
  apply orb_false_iff in Hid as [Hn%negb_false_iff%bool_decide_eq_true Hv%negb_false_iff%bool_decide_eq_true].
  unfold embedded_manifest in Hm. apply bind_Ok in Hm as (mb & Hmb%ok_or_Ok & Hm).
  apply bind_Ok in Hm as (text & Ht%ok_or_Ok & Hm). exists m. unfold manifest_of. cbn [pk_files]. rewrite Hmb.
  cbn [mbind option_bind]. rewrite Ht. cbn [ok_or mbind result_bind]. split; [done|].
  apply parse_manifest_ok in Hm as [Hok _]. rewrite <- Hn, <- Hv. split_and!; [apply Hok|apply Hok|done].
Qed.

Lemma shown_other registry artifacts index key key' entry :
  key ≠ key' → artifacts !! key' = r_artifacts registry !! key' → index !! key' = r_index registry !! key' →
  shown registry key' entry → shown (mkRegistry artifacts index) key' entry.
Proof. intros Hk Ha Hi. unfold shown. cbn [r_artifacts r_index]. by rewrite Ha, Hi. Qed.

Lemma with_yanked_published package m bytes y :
  with_yanked (with_yanked (published_document package m bytes) y) = with_yanked (published_document package m bytes).
Proof. done. Qed.

Lemma publish_puts registry shelf bytes :
  (∀ a b, sha256 a = sha256 b → a = b) → shows registry shelf →
  (on_registry (Publish bytes) registry).1 = (put bytes shelf).1 ∧
  shows (on_registry (Publish bytes) registry).2 (put bytes shelf).2.
Proof.
  intros Hfree Hs. unfold on_registry, publish, put.
  destruct (decode_package bytes) as [package|] eqn:Hd; [|done]. cbn [mbind result_bind].
  destruct (decoded_manifest bytes package Hd) as (m & Hm & _). rewrite Hm. cbn [mbind result_bind]. cbv zeta.
  set (key := (pk_name package, pk_version package)). pose proof (Hs key) as Hkey.
  destruct (shelf !! key) as [[old yanked]|] eqn:Eshelf; cbn [shown] in Hkey.
  - destruct Hkey as (Ha & p & m' & Hp & Hm' & Ek & Hi). rewrite Ha, Hi.
    destruct (decide (old = bytes)) as [->|Hne].
    + rewrite Hd in Hp. apply Ok_eq in Hp as <-. rewrite Hm in Hm'. apply Ok_eq in Hm' as <-.
      rewrite (bool_decide_true (sha256 bytes = _)), (bool_decide_true (bytes = _)) by done. cbn [negb andb].
      destruct yanked; cbn [negb].
      * rewrite bool_decide_false by (unfold published_document, with_yanked; congruence). done.
      * by rewrite bool_decide_true.
    + rewrite (bool_decide_false (sha256 old = _)) by auto. rewrite (bool_decide_false (old = bytes)) by done. done.
  - destruct Hkey as [Ha Hi]. rewrite Ha. cbn [r_index]. rewrite Hi. split; [done|]. cbn [snd]. intros key'.
    destruct (decide (key' = key)) as [->|Hne].
    + rewrite lookup_insert_eq. cbn [shown r_artifacts r_index]. rewrite !lookup_insert_eq. split; [done|].
      by exists package, m.
    + rewrite lookup_insert_ne by done. cbn [r_artifacts].
      eapply (shown_other registry _ _ key); [done|by rewrite ?lookup_insert_ne..|apply Hs].
Qed.

Lemma yank_marks registry shelf key yanked :
  shows registry shelf →
  (on_registry (Yank key yanked) registry).1 = (mark key yanked shelf).1 ∧
  shows (on_registry (Yank key yanked) registry).2 (mark key yanked shelf).2.
Proof.
  intros Hs. unfold on_registry, set_yanked, mark. pose proof (Hs key) as Hkey. rewrite <- surjective_pairing.
  destruct (shelf !! key) as [[bytes y]|] eqn:Eshelf; cbn [shown] in Hkey.
  - destruct Hkey as (Ha & p & m & Hp & Hm & Ek & Hi).
    destruct (decoded_manifest bytes p Hp) as (_ & _ & Hn & Hv & _).
    subst key. cbn [fst snd]. rewrite validate_identity_valid, Hi by done.
    assert (names (with_yanked (published_document p m bytes) y) (pk_name p, pk_version p) = true) as ->
      by (unfold names; by rewrite !bool_decide_true).
    set (key := (pk_name p, pk_version p)) in *.
    cbn [negb is_ok fst snd]. split; [done|]. intros key'. destruct (decide (key' = key)) as [->|Hne].
    + rewrite lookup_insert_eq. cbn [shown r_artifacts r_index]. rewrite lookup_insert_eq. split; [done|].
      by exists p, m.
    + rewrite lookup_insert_ne by done. cbn [r_artifacts].
      eapply (shown_other registry _ _ key); [done|by rewrite ?lookup_insert_ne..|apply Hs].
  - destruct Hkey as [_ Hi]. rewrite Hi. by destruct (validate_identity _ _).
Qed.

Lemma fetch_takes registry shelf name version :
  shows registry shelf →
  match fetch name version registry with
  | Ok bytes => take_from (name, version) shelf = Some bytes
  | Err _ => take_from (name, version) shelf = None
  end.
Proof.
  intros Hs. unfold fetch, take_from. pose proof (Hs (name, version)) as Hkey.
  destruct (shelf !! (name, version)) as [[bytes y]|] eqn:Eshelf; cbn [shown] in Hkey.
  - destruct Hkey as (Ha & p & m & Hp & Hm & [= -> ->] & Hi).
    destruct (decoded_manifest bytes p Hp) as (_ & _ & Hn & Hv & Hl).
    rewrite validate_identity_valid by done. cbn [mbind result_bind]. rewrite Hi. cbn [ok_or mbind result_bind].
    assert (names (with_yanked (published_document p m bytes) y) (pk_name p, pk_version p) = true) as ->
      by (unfold names; by rewrite !bool_decide_true).
    cbn [negb with_yanked published_document d_yanked d_sha256 d_size default from_option id]. destruct y; [done|].
    cbn [ok_or mbind result_bind]. rewrite (proj2 (N.ltb_ge _ _) Hl), Ha. cbn [ok_or mbind result_bind].
    rewrite N.eqb_refl, (bool_decide_true (sha256 bytes = _)) by done. cbn [negb]. rewrite Hp. cbn [mbind result_bind].
    by rewrite !bool_decide_true.
  - destruct Hkey as [_ Hi]. destruct (validate_identity _ _); [|done]. cbn [mbind result_bind]. by rewrite Hi.
Qed.

Lemma perform_shows registry shelf ops :
  (∀ a b, sha256 a = sha256 b → a = b) → shows registry shelf →
  (perform on_registry ops registry).1 = (perform on_shelf ops shelf).1 ∧
  shows (perform on_registry ops registry).2 (perform on_shelf ops shelf).2.
Proof.
  intros Hfree. revert registry shelf. induction ops as [|op ops IH]; intros registry shelf Hs; [done|].
  assert ((on_registry op registry).1 = (on_shelf op shelf).1 ∧ shows (on_registry op registry).2 (on_shelf op shelf).2) as [Hb Hs'].
  { destruct op; [by apply publish_puts|by apply yank_marks]. }
  cbn [perform]. destruct (on_registry op registry) as [b registry'], (on_shelf op shelf) as [b' shelf']. cbn in Hb, Hs'.
  destruct (IH _ _ Hs') as [Hbs Hss].
  destruct (perform on_registry ops registry') as [bs r], (perform on_shelf ops shelf') as [bs' s]. cbn in *.
  split; [congruence|done].
Qed.

Lemma shows_empty : shows (mkRegistry ∅ ∅) ∅.
Proof. intros key. by rewrite lookup_empty. Qed.
End refinement.

(** C28: a registry implements a shelf.  After any sequence of publications and
    yanks on an empty registry, when digests do not collide, every operation
    has reported success exactly when the shelf did, and [fetch] returns an
    archive exactly when it stands on the shelf unmarked: what was published
    under a name and version is never replaced, a yank hides it, lifting the
    yank brings the same bytes back. *)
Theorem registry_refines `{Crypto} ops :
  (∀ a b, sha256 a = sha256 b → a = b) →
  (perform on_registry ops (mkRegistry ∅ ∅)).1 = (perform on_shelf ops ∅).1 ∧
  ∀ name version,
    match fetch name version (perform on_registry ops (mkRegistry ∅ ∅)).2 with
    | Ok bytes => take_from (name, version) (perform on_shelf ops ∅).2 = Some bytes
    | Err _ => take_from (name, version) (perform on_shelf ops ∅).2 = None
    end.
Proof.
  intros Hfree. destruct (perform_shows _ _ ops Hfree shows_empty) as [Hr Hs]. split; [done|].
  intros name version. by apply fetch_takes.
Qed.

(** A digest without collisions. *)
Definition plain_crypto : Crypto := {|
  valid_key _ := true; verify_strict _ _ _ := false; sign_bytes _ _ := []; public_of secret := secret;
  sha256_digest bytes := bytes |}.

Lemma plain_collision_free a b : @sha256 plain_crypto a = @sha256 plain_crypto b → a = b.
Proof.
  unfold sha256. cbn [sha256_digest plain_crypto]. intros He.
  pose proof (decode_encode_hex (len a) a "" eq_refl) as Ha. pose proof (decode_encode_hex (len b) b "" eq_refl) as Hb.
  assert (len a = len b) as Hl.
  { rewrite He in Ha. unfold decode_hex in Ha, Hb. destruct (negb _) in Ha, Hb; [done|]. cbn [orb] in Ha, Hb.
    destruct (N.eqb_spec (str_len (encode_hex b)) (len a * 2)); [|done].
    destruct (N.eqb_spec (str_len (encode_hex b)) (len b * 2)); [|done]. lia. }
  rewrite He, Hl, Hb in Ha. by apply Ok_eq in Ha.
Qed.

Lemma registry_refines_witness :
  let C := plain_crypto in
  let key := (lit "demo", lit "1.0.0") in
  let ops := [Publish sample_archive; Yank key true; Publish sample_archive; Yank key false] in
  (perform on_registry ops (mkRegistry ∅ ∅)).1 = [true; true; false; true] ∧
  fetch key.1 key.2 (perform on_registry ops (mkRegistry ∅ ∅)).2 = Ok sample_archive.
Proof.
  intros C key ops. destruct (@registry_refines plain_crypto ops plain_collision_free) as [Hr Hf]. split.
  - etransitivity; [exact Hr|]. by vm_compute.
  - specialize (Hf key.1 key.2).
    assert (take_from (key.1, key.2) (perform on_shelf ops ∅).2 = Some sample_archive) as E by by vm_compute.
    rewrite E in Hf. destruct (fetch key.1 key.2 _) as [bytes|]; [|discriminate Hf].
    apply (inj Some) in Hf. rewrite Hf. reflexivity.
Defined.
