(* ===== verification/Install.v ===== *)
(** * Installation

    The dependency half of src/src/package.rs: the search of the dependency
    graph, which the file writes out four times, as [resolve]; the lock files;
    the authority lock and its guard; and what installing writes below the
    project.

    The disk is the two lock files and, for every installed name and version, the
    files below its directory by the names that lead to them.  Which of the
    system's calls that write fail is a parameter ([DiskFaults]).  Symbolic
    links, reads that fail, the directories in which [extract] and
    [install_package] build what they then rename, and the texts of the system's
    errors are left out. *)
From S2P Require Import Prelude Ast Text Strs Manifest Package Trust Registry.
Open Scope list_scope.

Local Notation lit := ascii_chars.

(** ** Texts *)

(** [str::split] with a pattern: [skip] characters of a match are left. *)
Fixpoint split_text (pattern : list char) (skip : nat) (l : list char) : list (list char) :=
  match l with
  | [] => [[]]
  | c :: rest =>
      match skip with
      | S skip => split_text pattern skip rest
      | O =>
          if starts_with pattern l then [] :: split_text pattern (pred (length pattern)) rest
          else match split_text pattern 0 rest with
               | part :: parts => (c :: part) :: parts
               | [] => [[c]]
               end
      end
  end.

(** The digest of [sha256] as a text. *)
Definition digest_text `{Crypto} (bytes : list byte) : list char := chars_of_str (sha256 bytes).

(** ** The lock file *)

(** The closure [field] of [locked_digests]: what it makes of one line, and of
    the lines of a block. *)
Definition field_of (key : string) (line : list char) : option (list char) :=
  rest ← strip_prefix (lit key) (trim line);
  rest ← strip_prefix (quoting "= `") (trim_start rest);
  strip_suffix [quote] rest.
Definition lock_field (key : string) (block : list char) : option (list char) :=
  head (omap (field_of key) (str_lines [] block)).

(** [locked_digests] of the text of [niv.lock] *)
Definition locked_digests (lock : option (list char)) : gmap Key (list char) :=
  match lock with
  | None => ∅
  | Some text =>
      foldl (λ digests block,
        match lock_field "name" block, lock_field "version" block, lock_field "sha256" block with
        | Some name, Some version, Some sha256 => <[(name, version) := sha256]> digests
        | _, _, _ => digests
        end) ∅ (tail (split_text (lit "[[dependency]]") 0 text))
  end.

(** [check_locked_digest] *)
Definition check_locked_digest (lock : option (list char)) (key : Key) (digest : list char) : result NivError unit :=
  match locked_digests lock !! key with
  | Some expected =>
      if bool_decide (expected = digest) then Ok tt
      else Err (package_error (key.1 ++ lit " " ++ key.2 ++ lit " no longer matches niv.lock (locked " ++ expected
             ++ lit ", fetched " ++ digest ++ lit "); remove its lock entry to accept the new archive"))
  | None => Ok tt
  end.

(** ** The search *)

(** The loop over [pending], its last element first: [look] is the body, which
    gives what is kept of a key and the dependencies it pushes. *)
Section resolve.
Context {A : Type} (look : Key → result NivError (A * list Key)).

Fixpoint resolve (fuel : nat) (pending : list Key) (resolved : gmap Key A) : option (result NivError (gmap Key A)) :=
  match fuel with
  | O => None
  | S fuel =>
      match pending with
      | [] => Some (Ok resolved)
      | key :: pending =>
          if bool_decide (is_Some (resolved !! key)) then resolve fuel pending resolved
          else
            match look key with
            | Err e => Some (Err e)
            | Ok (a, children) => resolve fuel (rev children ++ pending) (<[key := a]> resolved)
            end
      end
  end.

(** Enough turns when only the keys of [known] are found. *)
Definition children_of (key : Key) : list Key := match look key with Ok (_, children) => children | Err _ => [] end.
Definition resolve_fuel (known : list Key) (roots : list Key) : nat :=
  S (length roots + foldr (λ key n, (length (children_of key) + n)%nat) 0%nat known).

Definition resolve_from (known roots : list Key) : option (result NivError (gmap Key A)) :=
  resolve (resolve_fuel known roots) (rev roots) ∅.
End resolve.

(** The dependencies of a manifest, in their order. *)
Definition dependency_keys (m : Manifest) : list Key := entries (m_dependencies m).

(** ** The authority lock *)

(** [lock_string]: the JSON text of a string, by serde. *)
Class LockText := { lock_string : list char → list char }.

Section authority.
Context `{LockText}.

Definition lock_line (key : string) (value : list char) : list char :=
  lit key ++ lit " = " ++ lock_string value ++ [newline].

(** [render_authority_lock]: the part of one package. *)
Definition render_grant (name version capability scope : list char) : list char :=
  newline :: lit "[[grant]]" ++ newline :: lock_line "package" name ++ lock_line "version" version
  ++ lock_line "capability" capability ++ lock_line "scope" scope.
Definition render_unsafe (name version module : list char) : list char :=
  newline :: lit "[[unsafe]]" ++ newline :: lock_line "package" name ++ lock_line "version" version
  ++ lock_line "module" module.
Definition render_package (entry : Key * (list char * Manifest)) : list char :=
  let '((name, version), (source, package)) := entry in
  newline :: lit "[[package]]" ++ newline :: lock_line "name" name ++ lock_line "version" version
  ++ lock_line "source" source
  ++ (members (m_capabilities package) ≫= λ capability,
        render_grant name version capability (default (lit "allow") (m_capability_scopes package !! capability)))
  ++ (members (m_unsafe_modules package) ≫= render_unsafe name version).

(** [render_authority_lock] *)
Definition render_authority_lock (packages : gmap Key (list char * Manifest)) : list char :=
  lit "# This file is generated by Nivren. Review authority changes." ++ [newline] ++ lit "format = 1" ++ [newline]
  ++ (entries packages ≫= render_package).

(** [authority_diff] *)
Definition authority_diff (actual expected : list char) : list char :=
  let old := str_lines [] actual in
  let new := str_lines [] expected in
  let removed := old ≫= λ line, if bool_decide (line ∈ new) then [] else lit "  - " ++ line ++ [newline] in
  let added := new ≫= λ line, if bool_decide (line ∈ old) then [] else lit "  + " ++ line ++ [newline] in
  let output := removed ++ added in
  if is_empty output then lit "  (formatting-only difference)" ++ [newline] else output.

(** [guard_prospective_authority] with the text of the lock on disk *)
Definition guard_prospective_authority (lock : option (list char)) (expected : list char) : result NivError unit :=
  match lock with
  | None => Ok tt
  | Some actual =>
      if bool_decide (actual = expected) then Ok tt
      else Err (package_error (lit "dependency authority changed; review the difference and run 'niv authority lock' to accept it before installing:"
                 ++ newline :: authority_diff actual expected))
  end.
End authority.

(** ** The disk *)

(** The files of one directory, by the names that lead to them. *)
Notation Tree := (gmap (list (list N)) (list byte)).

Record Disk := mkDisk {
  k_lock : option (list char); k_authority : option (list char); k_store : gmap Key Tree }.

(** The names a path leads through from the directory it is joined to. *)
Definition path_names (path : list char) : list (list char) :=
  omap (λ c, match c with NormalDir name => Some name | _ => None end) (components path).

(** A path the system takes for a directory, or refuses: it ends in [/] or [/.], or
    holds the character that ends a name. *)
Definition no_file (path : list char) : bool :=
  existsb (N.eqb 0) path
  || match last (split_char slash path) with
     | Some part => bool_decide (part = []) || bool_decide (part = lit ".")
     | None => true
     end.

(** [fs::create_dir_all] of the parent and [fs::write]: a file cannot stand where
    a directory does, nor the other way round. *)
Definition conflicts (names : list (list char)) (tree : Tree) : bool :=
  existsb (λ known, (bool_decide (known `prefix_of` names) || bool_decide (names `prefix_of` known))
                    && negb (bool_decide (known = names))) (map fst (map_to_list tree)).
Definition write_file (tree : Tree) (path : list char) (contents : list byte) : result NivError Tree :=
  let names := path_names path in
  if no_file path || conflicts names tree then Err (package_error (lit "cannot extract " ++ path))
  else Ok (<[names := contents]> tree).

(** [fs::read] and [fs::read_to_string] *)
Definition read_file (tree : Tree) (path : list char) : option (list byte) :=
  if no_file path then None else tree !! path_names path.
Definition read_text_file (tree : Tree) (path : list char) : option (list char) :=
  bytes ← read_file tree path; text_of_bytes bytes.

(** [Package::extract] *)
Fixpoint extract_files (files : list (list char * list byte)) (tree : Tree) : result NivError Tree :=
  match files with
  | [] => Ok tree
  | (path, contents) :: files => tree ← write_file tree path contents; extract_files files tree
  end.
Definition extract (package : Package) : result NivError Tree := extract_files (entries (pk_files package)) ∅.

Definition CHECKSUM_FILE : list char := lit ".niv-package-sha256".
Definition ARCHIVE_FILE : list char := lit ".niv-package".

(** Where the calls of [install_package] that write can fail: while the new tree
    is staged, at the rename that puts it in place (the old tree may then be
    brought back or not), or when the old tree is removed. *)
Inductive PackageFault := StagingFails | ReplaceFails (restored : bool) | CleanupFails.

(** What the system does: whether the store cannot be created, where installing a
    package fails, and whether writing a lock file fails. *)
Class DiskFaults := {
  store_fault : bool; package_fault : Key → option PackageFault;
  lock_fault : bool; authority_fault : bool }.

(** A disk on which nothing fails. *)
Definition sound_disk : DiskFaults :=
  {| store_fault := false; package_fault _ := None; lock_fault := false; authority_fault := false |}.

(** [write_atomic]: a temporary file and a rename, so a failure leaves the file as
    it was. *)
Definition write_atomic (fails : bool) (path : list char) (old : option (list char)) (contents : list char)
    : result NivError unit * option (list char) :=
  if fails then (Err (package_error (lit "cannot write " ++ path)), old) else (Ok tt, Some contents).

Section install.
Context `{Crypto} `{LockText} `{DiskFaults}.

(** [installed_package_matches] *)
Definition installed_package_matches (package : Package) (tree : Tree) (digest : list char) : bool :=
  match read_text_file tree CHECKSUM_FILE with Some value => bool_decide (trim value = digest) | None => false end
  && match read_file tree ARCHIVE_FILE with Some archive => bool_decide (digest_text archive = digest) | None => false end
  && forallb (λ '(path, expected), bool_decide (read_file tree path = Some expected)) (entries (pk_files package)).

(** [install_package], and the directory afterwards. *)
Definition install_package (fault : option PackageFault) (package : Package) (existing : option Tree)
    (digest : list char) (archive : list byte) : result NivError unit * option Tree :=
  if match existing with Some tree => installed_package_matches package tree digest | None => false end
  then (Ok tt, existing)
  else
    match (tree ← extract package;
           tree ← write_file tree CHECKSUM_FILE (as_bytes (digest ++ [newline]));
           write_file tree ARCHIVE_FILE archive) with
    | Err e => (Err e, existing)
    | Ok tree =>
        match fault, existing with
        | Some StagingFails, _ => (Err (package_error (lit "cannot write dependency checksum")), existing)
        | Some (ReplaceFails _), None => (Err (package_error (lit "cannot install dependency")), None)
        | Some (ReplaceFails restored), Some _ =>
            (Err (package_error (lit "cannot commit dependency replacement")), if restored then existing else None)
        | Some CleanupFails, Some _ => (Err (package_error (lit "cannot remove dependency backup")), Some tree)
        | Some CleanupFails, None | None, _ => (Ok tt, Some tree)
        end
    end.

(** [StagedPackage] *)
Record StagedPackage := mkStaged {
  t_package : Package; t_digest : list char; t_bytes : list byte; t_manifest : Manifest }.

(** The body of the loop of [install_dependencies]; the root of a dependency's
    manifest is its directory. *)
Definition store_path (m : Manifest) (key : Key) : list char :=
  path_join (path_join (path_join (m_root m) (lit ".niv")) (lit "deps")) (key.1 ++ lit "-" ++ key.2).

Definition fetch_step (m : Manifest) (registry : Registry) (lock : option (list char)) (key : Key)
    : result NivError (StagedPackage * list Key) :=
  bytes ← fetch key.1 key.2 registry;
  let digest := digest_text bytes in
  _ ← check_locked_digest lock key digest;
  package ← decode_package bytes;
  dependency_manifest ← manifest_of package (store_path m key) "dependency manifest is not UTF-8";
  Ok (mkStaged package digest bytes dependency_manifest, dependency_keys dependency_manifest).

(** The packages [commit_staged_install] renders. *)
Fixpoint staged_authority (staged : list (Key * StagedPackage)) (packages : gmap Key (list char * Manifest))
    : result NivError (gmap Key (list char * Manifest)) :=
  match staged with
  | [] => Ok packages
  | ((name, version), entry) :: staged =>
      if negb (bool_decide (m_name (t_manifest entry) = name)) || negb (bool_decide (m_version (t_manifest entry) = version)) then
        Err (package_error (lit "fetched package '" ++ name ++ lit "' has the wrong authority identity"))
      else staged_authority staged (<[(name, version) := (lit "dependency", t_manifest entry)]> packages)
  end.

Fixpoint install_all (staged : list (Key * StagedPackage)) (store : gmap Key Tree) : result NivError unit * gmap Key Tree :=
  match staged with
  | [] => (Ok tt, store)
  | (key, entry) :: staged =>
      let '(r, now) :=
        install_package (package_fault key) (t_package entry) (store !! key) (t_digest entry) (t_bytes entry) in
      let store := partial_alter (λ _, now) key store in
      match r with
      | Err e => (Err e, store)
      | Ok _ => install_all staged store
      end
  end.

(** [commit_staged_install]: the two lock files are written one after the other,
    and what was written stays when a later write fails. *)
Definition commit_staged_install (m : Manifest) (staged : gmap Key StagedPackage) (disk : Disk) : result NivError nat * Disk :=
  match (packages ← staged_authority (entries staged) {[(m_name m, m_version m) := (lit "root", m)]};
         let expected_authority := render_authority_lock packages in
         _ ← guard_prospective_authority (k_authority disk) expected_authority;
         Ok expected_authority) with
  | Err e => (Err e, disk)
  | Ok expected_authority =>
      match install_all (entries staged) (k_store disk) with
      | (Err e, store) => (Err e, mkDisk (k_lock disk) (k_authority disk) store)
      | (Ok _, store) =>
          match write_atomic lock_fault (path_join (m_root m) LOCKFILE_NAME) (k_lock disk)
                  (resolved_lockfile m (t_digest <$> staged)) with
          | (Err e, lock) => (Err e, mkDisk lock (k_authority disk) store)
          | (Ok _, lock) =>
              match write_atomic authority_fault (path_join (m_root m) AUTHORITY_LOCKFILE_NAME) (k_authority disk)
                      expected_authority with
              | (Err e, authority) => (Err e, mkDisk lock authority store)
              | (Ok _, authority) => (Ok (size staged), mkDisk lock authority store)
              end
          end
      end
  end.

(** [install_dependencies] *)
Definition known_keys (registry : Registry) : list Key := map fst (map_to_list (r_index registry)).
Definition install_dependencies (m : Manifest) (registry : Registry) (disk : Disk) : option (result NivError nat * Disk) :=
  if store_fault then Some (Err (package_error (lit "cannot create dependency store")), disk)
  else
    staged ← resolve_from (fetch_step m registry (k_lock disk)) (known_keys registry) (dependency_keys m);
    Some (match staged with
          | Err e => (Err e, disk)
          | Ok staged => commit_staged_install m staged disk
          end).

(** The body of the loop of [installed_lockfile]. *)
Definition installed_step (m : Manifest) (disk : Disk) (key : Key) : result NivError (list char * list Key) :=
  tree ← ok_or (package_error (lit "package '" ++ key.1 ++ lit "' " ++ key.2 ++ lit " is not installed; run 'niv install'"))
           (k_store disk !! key);
  archive ← ok_or (package_error (lit "package '" ++ key.1 ++ lit "' " ++ key.2 ++ lit " is not installed; run 'niv install'"))
              (read_file tree ARCHIVE_FILE);
  let digest := digest_text archive in
  recorded ← ok_or (package_error (lit "package '" ++ key.1 ++ lit "' has no checksum")) (read_text_file tree CHECKSUM_FILE);
  if negb (bool_decide (trim recorded = digest)) then
    Err (package_error (lit "installed package '" ++ key.1 ++ lit "' checksum does not match"))
  else
    package ← decode_package archive;
    if negb (bool_decide (pk_name package = key.1)) || negb (bool_decide (pk_version package = key.2)) then
      Err (package_error (lit "installed package '" ++ key.1 ++ lit "' has the wrong identity"))
    else if negb (installed_package_matches package tree digest) then
      Err (package_error (lit "installed package '" ++ key.1 ++ lit "' differs from its locked archive"))
    else
      manifest_source ← ok_or (project_error (lit "cannot read niv.toml") 1) (read_text_file tree MANIFEST_NAME);
      dependency ← parse_manifest manifest_source (store_path m key);
      Ok (digest, dependency_keys dependency).

(** [installed_lockfile] *)
Definition installed_lockfile (m : Manifest) (disk : Disk) : option (result NivError (list char)) :=
  resolved ← resolve_from (installed_step m disk) (map fst (map_to_list (k_store disk))) (dependency_keys m);
  Some (resolved ← resolved; Ok (resolved_lockfile m resolved)).
End install.
