(* ===== verification/LocksOk.v ===== *)
(** * Lock files and the search of the dependency graph

    The search ends and finds exactly what is reachable; the lock file pins what
    it was written for; the text of the authority lock determines the authority
    of the whole graph. *)
From S2P Require Import Prelude Ast Values Text Strs Utf8 Manifest ManifestOk Package PackageOk Trust TrustOk Registry Install.
Open Scope list_scope.

Local Notation lit := ascii_chars.

(** ** The search *)

Section resolve.
Context {A : Type} (look : Key → result NivError (A * list Key)).
Local Set Default Proof Using "Type".

(** What can be reached from [roots]. *)
Inductive reached (roots : list Key) : Key → Prop :=
| reached_root key : key ∈ roots → reached roots key
| reached_child key a children child :
    reached roots key → look key = Ok (a, children) → child ∈ children → reached roots child.

(** The pushes still to come from the keys that are not resolved. *)
Definition pushes (known : list Key) (resolved : gmap Key A) : nat :=
  foldr (λ key n, ((if bool_decide (is_Some (resolved !! key)) then 0 else length (children_of look key)) + n)%nat) 0%nat known.

Lemma pushes_insert known resolved key a :
  NoDup known → key ∈ known → resolved !! key = None →
  (pushes known resolved = length (children_of look key) + pushes known (<[key := a]> resolved))%nat.
Proof.
  intros Hnd Hin Hnone. induction Hnd as [|k known Hk Hnd IH]; [by apply elem_of_nil in Hin|]. cbn [pushes foldr].
  fold (pushes known resolved) (pushes known (<[key := a]> resolved)).
  destruct (decide (k = key)) as [->|Hne].
  - rewrite lookup_insert_eq, Hnone. rewrite bool_decide_false by (by intros [? ?]). rewrite bool_decide_true by eauto.
    assert (pushes known resolved = pushes known (<[key := a]> resolved)) as ->; [|lia].
    clear -Hk. induction known as [|k known IH]; [done|]. apply not_elem_of_cons in Hk as [Hne Hk]. cbn [pushes foldr].
    fold (pushes known resolved) (pushes known (<[key := a]> resolved)). rewrite IH by done.
    by rewrite lookup_insert_ne by congruence.
  - apply elem_of_cons in Hin as [->|Hin]; [done|]. rewrite IH by done. rewrite lookup_insert_ne by congruence. lia.
Qed.

Context (known : list Key).
Hypothesis known_NoDup : NoDup known.
Hypothesis known_all : ∀ key, is_ok (look key) = true → key ∈ known.

Lemma resolve_ends fuel pending resolved :
  (length pending + pushes known resolved < fuel)%nat → resolve look fuel pending resolved ≠ None.
Proof using All.
  revert pending resolved. induction fuel as [|fuel IH]; intros pending resolved Hf; [lia|]. cbn [resolve].
  destruct pending as [|key pending]; [done|]. cbn [length] in Hf.
  case_bool_decide as Hres; [apply IH; lia|].
  destruct (look key) as [[a children]|] eqn:El; [|done]. apply IH.
  rewrite length_app, length_rev. assert (key ∈ known) as Hk by (apply known_all; by rewrite El).
  rewrite (pushes_insert known resolved key a) in Hf by (done || by apply eq_None_not_Some).
  unfold children_of in Hf. rewrite El in Hf. lia.
Qed.

Lemma resolve_from_ends roots : resolve_from look known roots ≠ None.
Proof using All.
  unfold resolve_from, resolve_fuel. apply resolve_ends. rewrite length_rev.
  assert (pushes known (∅ : gmap Key A) = foldr (λ key n, (length (children_of look key) + n)%nat) 0%nat known) as ->; [|lia].
  clear. induction known as [|key l IH]; [done|]. cbn [pushes foldr]. by rewrite lookup_empty, <- IH.
Qed.
End resolve.

Section closure.
Context {A : Type} (look : Key → result NivError (A * list Key)) (roots : list Key).

(** The invariant: everything resolved is reachable and was found, everything
    pending is reachable, and the children of what is resolved are resolved or
    pending. *)
Record searching (pending : list Key) (resolved : gmap Key A) : Prop := {
  q_found : ∀ key a, resolved !! key = Some a →
    reached look roots key ∧ ∃ children, look key = Ok (a, children) ∧
      ∀ child, child ∈ children → is_Some (resolved !! child) ∨ child ∈ pending;
  q_pending : ∀ key, key ∈ pending → reached look roots key;
  q_roots : ∀ key, key ∈ roots → is_Some (resolved !! key) ∨ key ∈ pending }.

Lemma resolve_invariant fuel pending resolved r :
  searching pending resolved → resolve look fuel pending resolved = Some r →
  match r with
  | Ok found => searching [] found
  | Err e => ∃ key, reached look roots key ∧ look key = Err e
  end.
Proof.
  revert pending resolved. induction fuel as [|fuel IH]; intros pending resolved Hq; [done|]. cbn [resolve].
  destruct pending as [|key pending]; [by intros [= <-]|].
  case_bool_decide as Hres.
  { apply IH. split.
    - intros k a Hk. apply (q_found _ _ Hq) in Hk as (Hr & children & El & Hc). split; [done|]. exists children. split; [done|].
      intros child [?|[->|?]%elem_of_cons]%Hc; auto.
    - intros k Hk. apply (q_pending _ _ Hq). by right.
    - intros k [?|[->|?]%elem_of_cons]%(q_roots _ _ Hq); auto. }
  assert (reached look roots key) as Hkey by (apply (q_pending _ _ Hq); by left).
  destruct (look key) as [[a children]|e] eqn:El; [|intros [= <-]; eauto]. apply IH. split.
  - intros k b Hk. destruct (decide (k = key)) as [->|Hne].
    + rewrite lookup_insert_eq in Hk. injection Hk as <-. split; [done|]. exists children. split; [done|].
      intros child Hc. right. apply elem_of_app. left. by rewrite list_elem_of_In, <- in_rev, <- list_elem_of_In.
    + rewrite lookup_insert_ne in Hk by done. apply (q_found _ _ Hq) in Hk as (Hr & cs & Ek & Hc). split; [done|].
      exists cs. split; [done|]. intros child [[b' Hb']|[->|Hp]%elem_of_cons]%Hc.
      * left. apply lookup_insert_is_Some'. right. by exists b'.
      * left. rewrite lookup_insert_eq. eauto.
      * right. apply elem_of_app. by right.
  - intros k [Hk|Hk]%elem_of_app; [|apply (q_pending _ _ Hq); by right].
    rewrite list_elem_of_In, <- in_rev, <- list_elem_of_In in Hk. by eapply reached_child.
  - intros k [[b Hb]|[->|Hp]%elem_of_cons]%(q_roots _ _ Hq).
    + left. apply lookup_insert_is_Some'. right. by exists b.
    + left. rewrite lookup_insert_eq. eauto.
    + right. apply elem_of_app. by right.
Qed.

Lemma resolve_closure fuel r :
  resolve look fuel (rev roots) ∅ = Some r →
  match r with
  | Ok found =>
      (∀ key, is_Some (found !! key) ↔ reached look roots key) ∧
      ∀ key a, found !! key = Some a → ∃ children, look key = Ok (a, children)
  | Err e => ∃ key, reached look roots key ∧ look key = Err e
  end.
Proof.
  intros Hr. eapply resolve_invariant in Hr.
  - destruct r as [found|e]; [|done]. split.
    + intros key. split.
      * intros [a Ha]. by apply (q_found _ _ Hr) in Ha as [? _].
      * induction 1 as [key Hk|key a children child _ IH El Hc].
        -- by apply (q_roots _ _ Hr) in Hk as [?|?%elem_of_nil].
        -- destruct IH as [b Hb]. apply (q_found _ _ Hr) in Hb as (_ & cs & Ek & Hcs). rewrite El in Ek.
           injection Ek as <- <-. by apply Hcs in Hc as [?|?%elem_of_nil].
    + intros key a Ha. apply (q_found _ _ Hr) in Ha as (_ & cs & Ek & _). eauto.
  - split; [intros key a Ha; by rewrite lookup_empty in Ha| |].
    + intros key Hk. apply reached_root. by rewrite list_elem_of_In, <- in_rev, <- list_elem_of_In in Hk.
    + intros key Hk. right. by rewrite list_elem_of_In, <- in_rev, <- list_elem_of_In.
Qed.
End closure.

(** ** The authority lock *)

(** What JSON promises of the text of a string. *)
Class LockTextLaws `{LockText} : Prop := {
  lock_string_inj : ∀ a b, lock_string a = lock_string b → a = b;
  lock_string_line : ∀ a, newline ∉ lock_string a }.

(** What one package of the graph may do: where it comes from, the scope of
    every capability it is granted, and its unsafe modules. *)
Definition grants_of (m : Manifest) : list (list char * list char) :=
  map (λ c, (c, default (lit "allow") (m_capability_scopes m !! c))) (members (m_capabilities m)).
Definition authority_of (entry : Key * (list char * Manifest)) :
    Key * list char * list (list char * list char) * list (list char) :=
  (entry.1, entry.2.1, grants_of entry.2.2, members (m_unsafe_modules entry.2.2)).

Section authority.
Context `{LockTextLaws}.
Local Set Default Proof Using "All".

(** The blocks of the text. *)
Inductive Block :=
| BPackage (name version source : list char)
| BGrant (name version capability scope : list char)
| BUnsafe (name version module : list char).

Definition block_text (b : Block) : list char :=
  match b with
  | BPackage name version source =>
      newline :: lit "[[package]]" ++ newline :: lock_line "name" name ++ lock_line "version" version ++ lock_line "source" source
  | BGrant name version capability scope => render_grant name version capability scope
  | BUnsafe name version module => render_unsafe name version module
  end.

Definition blocks (entry : Key * (list char * Manifest)) : list Block :=
  let '((name, version), (source, package)) := entry in
  BPackage name version source
  :: map (λ '(c, s), BGrant name version c s) (grants_of package)
  ++ map (BUnsafe name version) (members (m_unsafe_modules package)).

Lemma bind_map {X Y Z} (f : X → Y) (g : Y → list Z) l : map f l ≫= g = l ≫= (g ∘ f).
Proof. induction l as [|x l IH]; [done|]. cbn. by rewrite IH. Qed.

Lemma render_package_blocks entry : render_package entry = blocks entry ≫= block_text.
Proof.
  destruct entry as [[name version] [source package]]. unfold render_package, blocks, grants_of.
  rewrite bind_cons, bind_app, !bind_map. unfold block_text at 1. rewrite <- !app_comm_cons, <- !app_assoc.
  do 2 f_equal. rewrite <- !app_comm_cons, <- !app_assoc. done.
Qed.

Lemma line_inj a b x y :
  newline ∉ a → newline ∉ b → a ++ newline :: x = b ++ newline :: y → a = b ∧ x = y.
Proof.
  revert b. induction a as [|c a IH]; intros [|d b] Ha Hb He.
  - by injection He as ->.
  - injection He as <- _. by destruct Hb; left.
  - injection He as -> _. by destruct Ha; left.
  - apply not_elem_of_cons in Ha as [_ Ha], Hb as [_ Hb]. injection He as -> He. by apply IH in He as [-> ->].
Qed.

Lemma lock_line_inj key v w x y : lock_line key v ++ x = lock_line key w ++ y → v = w ∧ x = y.
Proof.
  unfold lock_line. rewrite <- !app_assoc. intros He%app_inv_head%app_inv_head. cbn [app] in He.
  apply line_inj in He as [He ->]; [|apply lock_string_line..]. by apply lock_string_inj in He.
Qed.

(** Blocks of different kinds differ in their first letters. *)
Lemma block_text_inj b c x y : block_text b ++ x = block_text c ++ y → b = c ∧ x = y.
Proof.
  intros He.
  destruct b, c; try (apply (f_equal (take 4)) in He; vm_compute in He; discriminate He);
    unfold block_text, render_grant, render_unsafe in He; rewrite <- !app_comm_cons, <- !app_assoc in He;
    apply cons_eq in He as [_ He]; apply app_inv_head in He; rewrite <- !app_comm_cons, <- !app_assoc in He;
    apply cons_eq in He as [_ He]; repeat (apply lock_line_inj in He as [-> He]); done.
Qed.

Lemma blocks_text_inj bs cs : (bs ≫= block_text) = (cs ≫= block_text) → bs = cs.
Proof.
  revert cs. induction bs as [|b bs IH]; intros [|c cs]; [done| | |].
  - by destruct c.
  - by destruct b.
  - rewrite !bind_cons. intros [-> He]%block_text_inj. f_equal. by apply IH.
Qed.

(** Reading the blocks from the end: the package a grant belongs to precedes it. *)
Definition group_step (b : Block)
    (acc : list (list char * list char) * list (list char) * list (Key * list char * list (list char * list char) * list (list char))) :=
  let '(grants, modules, packages) := acc in
  match b with
  | BPackage name version source => ([], [], (((name, version), source), grants, modules) :: packages)
  | BGrant _ _ capability scope => ((capability, scope) :: grants, modules, packages)
  | BUnsafe _ _ module => (grants, module :: modules, packages)
  end.
Definition group (bs : list Block) := (foldr group_step ([], [], []) bs).2.

Lemma group_grants name version l acc :
  foldr group_step acc (map (λ '(c, s), BGrant name version c s) l) = (l ++ acc.1.1, acc.1.2, acc.2).
Proof. destruct acc as [[g m] p]. induction l as [|[c s] l IH]; [done|]. cbn [map foldr]. by rewrite IH. Qed.
Lemma group_unsafe name version l acc :
  foldr group_step acc (map (BUnsafe name version) l) = (acc.1.1, l ++ acc.1.2, acc.2).
Proof. destruct acc as [[g m] p]. induction l as [|c l IH]; [done|]. cbn [map foldr]. by rewrite IH. Qed.

Lemma group_blocks l : group (l ≫= blocks) = map authority_of l ∧ foldr group_step ([], [], []) (l ≫= blocks) = ([], [], map authority_of l).
Proof.
  assert (foldr group_step ([], [], []) (l ≫= blocks) = ([], [], map authority_of l)) as H1; [|by unfold group; rewrite H1].
  induction l as [|[[name version] [source package]] l IH]; [done|].
  rewrite bind_cons, foldr_app, IH. unfold blocks. rewrite foldr_cons, foldr_app, group_unsafe, group_grants.
  cbn [fst snd group_step]. by rewrite !app_nil_r.
Qed.

Lemma authority_lock_inj p q :
  render_authority_lock p = render_authority_lock q → map authority_of (entries p) = map authority_of (entries q).
Proof.
  unfold render_authority_lock. intros He. do 4 apply app_inv_head in He.
  assert (∀ l, l ≫= render_package = (l ≫= blocks) ≫= block_text) as Hb.
  { intros l. induction l as [|e l IH]; [done|]. by rewrite !bind_cons, bind_app, IH, render_package_blocks. }
  rewrite !Hb in He. apply blocks_text_inj in He.
  rewrite <- (proj1 (group_blocks (entries p))), <- (proj1 (group_blocks (entries q))). by rewrite He.
Qed.
End authority.

(** ** The lock file *)

Lemma starts_with_first a p c l : c ≠ a → starts_with (a :: p) (c :: l) = false.
Proof. intros Hc. apply bool_decide_eq_false. cbn. congruence. Qed.

Lemma split_text_cons p skip l : ∃ part parts, split_text p skip l = part :: parts.
Proof.
  revert skip. induction l as [|c l IH]; intros [|skip]; cbn [split_text]; eauto.
  destruct (starts_with p (c :: l)); eauto. destruct (IH 0%nat) as (part & parts & ->). eauto.
Qed.

(** A text without the first character of the pattern stays in one piece. *)
Lemma split_text_free a p l rest part parts :
  a ∉ l → split_text (a :: p) 0 rest = part :: parts → split_text (a :: p) 0 (l ++ rest) = (l ++ part) :: parts.
Proof.
  intros Ha Hr. induction l as [|c l IH]; [done|]. apply not_elem_of_cons in Ha as [Hc Ha].
  rewrite <- !app_comm_cons. cbn [split_text]. rewrite starts_with_first by congruence. by rewrite IH.
Qed.

Lemma split_text_skipped p s rest : split_text p (length s) (s ++ rest) = split_text p 0 rest.
Proof. induction s as [|c s IH]; [done|]. done. Qed.

Lemma split_text_match a p rest : split_text (a :: p) 0 ((a :: p) ++ rest) = [] :: split_text (a :: p) 0 rest.
Proof.
  rewrite <- app_comm_cons. cbn [split_text]. assert (starts_with (a :: p) (a :: p ++ rest) = true) as ->.
  { apply bool_decide_eq_true. cbn. f_equal. by rewrite take_app_length. }
  change (pred (length (a :: p))) with (length p). by rewrite split_text_skipped.
Qed.

Definition lockable (v : list char) : Prop := newline ∉ v ∧ ch "[" ∉ v.

Definition lock_mark : list char := lit "[[dependency]]".

(** The block of one dependency, after its mark. *)
Definition lock_body (entry : Key * list char) : list char :=
  newline :: pair_line (lit "name") entry.1.1 ++ pair_line (lit "version") entry.1.2 ++ pair_line (lit "sha256") entry.2.

Definition lock_entry_ok (entry : Key * list char) : Prop :=
  lockable entry.1.1 ∧ lockable entry.1.2 ∧ lockable entry.2.

Lemma lock_body_free entry : lock_entry_ok entry → ch "[" ∉ lock_body entry.
Proof.
  intros ([_ H1] & [_ H2] & [_ H3]). unfold lock_body, pair_line. rewrite elem_of_cons, !elem_of_app.
  assert (∀ s, ch "[" ∈ lit s → existsb (N.eqb (ch "[")) (lit s) = true) as Hlit.
  { intros s Hs. apply existsb_exists. exists (ch "["). by rewrite <- list_elem_of_In. }
  assert (ch "[" ∉ quoting " = `" ∧ ch "[" ∉ [quote; newline]) as [Hq Hn].
  { split; intros Hs; apply list_elem_of_In in Hs; cbn in Hs; destruct_or! Hs; done. }
  intros [Hx|[[Hx|[Hx|[Hx|Hx]]]|[[Hx|[Hx|[Hx|Hx]]]|[Hx|[Hx|[Hx|Hx]]]]]]; try done; by apply Hlit in Hx.
Qed.

Lemma lock_lines entry tail_ :
  lock_entry_ok entry → tail_ = [] ∨ tail_ = [newline] →
  ∃ more, str_lines [] (lock_body entry ++ tail_) =
    [] :: pair_text (lit "name") entry.1.1 :: pair_text (lit "version") entry.1.2 :: pair_text (lit "sha256") entry.2 :: more.
Proof.
  intros ([H1 _] & [H2 _] & [H3 _]) Ht. unfold lock_body. rewrite <- app_comm_cons, <- !app_assoc. cbn [str_lines].
  change (newline =? newline) with true. cbv iota. change (strip_return []) with (@nil N).
  rewrite !str_lines_pair by done. destruct Ht as [->| ->]; cbn; eauto.
Qed.

Lemma field_of_pair key value :
  valid_dependency_name (lit key) = true → field_of key (pair_text (lit key) value) = Some value.
Proof.
  intros Hk. unfold field_of. rewrite trim_inked by (by apply pair_text_inked). unfold pair_text.
  rewrite (proj2 (strip_prefix_iff (lit key) _ _) eq_refl). cbn [mbind option_bind].
  change (trim_start (quoting " = `" ++ value ++ [quote])) with (quoting "= `" ++ value ++ [quote]).
  rewrite (proj2 (strip_prefix_iff (quoting "= `") _ _) eq_refl). cbn [mbind option_bind].
  by apply strip_suffix_iff.
Qed.

Lemma field_of_other key other value :
  valid_dependency_name (lit other) = true → head (lit key) ≠ head (lit other) → key ≠ "" →
  field_of key (pair_text (lit other) value) = None.
Proof.
  intros Ho Hh Hne. unfold field_of. rewrite trim_inked by (by apply pair_text_inked). unfold pair_text.
  destruct key as [|a key]; [done|]. destruct other as [|b other]; [done|]. cbn [ascii_chars app strip_prefix].
  destruct (N.eqb_spec (Ascii.N_of_ascii a) (Ascii.N_of_ascii b)) as [E|_]; [|done]. cbn in Hh. congruence.
Qed.

Lemma lock_fields entry tail_ :
  lock_entry_ok entry → tail_ = [] ∨ tail_ = [newline] →
  lock_field "name" (lock_body entry ++ tail_) = Some entry.1.1 ∧
  lock_field "version" (lock_body entry ++ tail_) = Some entry.1.2 ∧
  lock_field "sha256" (lock_body entry ++ tail_) = Some entry.2.
Proof.
  intros He Ht. destruct (lock_lines entry tail_ He Ht) as [more El]. unfold lock_field. rewrite El.
  assert (∀ key, key ≠ "" → field_of key [] = None) as Hnil by (by intros [|a key]).
  split_and!; cbn [omap list_omap]; rewrite Hnil by done;
    repeat (rewrite field_of_other by done); by rewrite field_of_pair.
Qed.

(** Reading the blocks of the dependencies one after the other. *)
Definition lock_text (l : list (Key * list char)) : list char := l ≫= λ e, newline :: lock_mark ++ lock_body e.

Definition lock_step (digests : gmap Key (list char)) (block : list char) : gmap Key (list char) :=
  match lock_field "name" block, lock_field "version" block, lock_field "sha256" block with
  | Some name, Some version, Some sha256 => <[(name, version) := sha256]> digests
  | _, _, _ => digests
  end.

Lemma split_lock_text l :
  Forall lock_entry_ok l →
  ∃ part parts, split_text lock_mark 0 (lock_text l) = part :: parts ∧ (part = [] ∨ part = [newline]) ∧
    ∀ digests, foldl lock_step digests parts = foldl (λ d e, <[e.1 := e.2]> d) digests l.
Proof.
  induction 1 as [|e l He _ (part & parts & Es & Hpart & Hf)]; [by exists [], []; auto|].
  exists [newline], ((lock_body e ++ part) :: parts). split; [|split; [by right|]].
  - unfold lock_text. rewrite bind_cons. rewrite <- app_comm_cons, <- app_assoc.
    change (newline :: ?t) with ([newline] ++ t).
    apply (split_text_free (ch "[")); [by intros ?%list_elem_of_singleton|].
    change (lit "[[dependency]]") with lock_mark. unfold lock_mark at 1 2. rewrite (split_text_match (ch "[")).
    f_equal. apply (split_text_free (ch "[")); [by apply lock_body_free|done].
  - intros digests. cbn [foldl]. rewrite Hf. f_equal. unfold lock_step.
    destruct (lock_fields e part He Hpart) as (-> & -> & ->). by destruct e as [[n v] d].
Qed.

Lemma foldl_insert_map (l : list (Key * list char)) (d : gmap Key (list char)) :
  NoDup l.*1 → foldl (λ d e, <[e.1 := e.2]> d) d l = list_to_map l ∪ d.
Proof.
  revert d. induction l as [|[k v] l IH]; intros d Hnd; cbn [foldl fst snd].
  - by rewrite list_to_map_nil, (left_id_L ∅ (∪)).
  - cbn in Hnd. apply NoDup_cons in Hnd as [Hk Hnd]. rewrite IH by done. cbn.
    rewrite <- insert_union_r by by apply not_elem_of_list_to_map_1. by rewrite insert_union_l.
Qed.

Definition lock_head (m : Manifest) : list char :=
  [newline] ++ pair_line (lit "name") (m_name m) ++ pair_line (lit "version") (m_version m).

Lemma resolved_lockfile_text m resolved :
  resolved_lockfile m resolved =
  (lit "# This file is generated by Nivren." ++ [newline] ++ lit "format = 1" ++ [newline; newline])
  ++ lit "[[package]]" ++ lock_head m ++ lock_text (entries resolved).
Proof.
  unfold resolved_lockfile. set (tl := _ ≫= _). assert (tl = lock_text (entries resolved)) as ->.
  { unfold tl, lock_text. induction (entries resolved) as [|[[n v] d] l IH]; [done|]. by rewrite !bind_cons, IH. }
  unfold lock_head. by rewrite <- !app_assoc.
Qed.

(** The mark of the package is not the mark of a dependency. *)
Lemma split_text_package rest part parts :
  split_text lock_mark 0 rest = part :: parts →
  split_text lock_mark 0 (lit "[[package]]" ++ rest) = (lit "[[package]]" ++ part) :: parts.
Proof.
  intros Hr. change (lit "[[package]]" ++ rest) with (ch "[" :: ch "[" :: lit "package]]" ++ rest).
  cbn [split_text]. assert (starts_with lock_mark (ch "[" :: ch "[" :: lit "package]]" ++ rest) = false) as ->.
  { apply bool_decide_eq_false. intros He. apply (f_equal (take 3)) in He. vm_compute in He. discriminate He. }
  assert (starts_with lock_mark (ch "[" :: lit "package]]" ++ rest) = false) as ->.
  { apply bool_decide_eq_false. intros He. apply (f_equal (take 3)) in He. vm_compute in He. discriminate He. }
  change lock_mark with (ch "[" :: lit "[dependency]]") in Hr |- *.
  rewrite (split_text_free (ch "[") _ (lit "package]]") rest part parts); [done| |done].
  intros Hs. apply list_elem_of_In in Hs. cbn in Hs. destruct_or! Hs; done.
Qed.

Lemma name_lockable name : valid_name name = true → lockable name.
Proof.
  intros Hn. split; [by apply plain_name|]. unfold valid_name in Hn. apply andb_true_iff in Hn as [_ Hn].
  rewrite forallb_forall in Hn. by intros Hin%list_elem_of_In%Hn.
Qed.
Lemma version_lockable version : valid_version version = true → lockable version.
Proof.
  intros Hv. split; [by apply plain_version|]. apply version_chars in Hv. rewrite Forall_forall in Hv. by intros Hin%Hv.
Qed.

(** The lock file pins what it was written for. *)
Lemma locked_digests_written m resolved :
  manifest_ok m → map_Forall (λ key digest, lock_entry_ok (key, digest)) resolved →
  locked_digests (Some (resolved_lockfile m resolved)) = resolved.
Proof.
  intros Hm Hall. destruct (split_lock_text (entries resolved)) as (part & parts & Es & _ & Hf).
  { apply Forall_forall. intros [key digest] Hin%elem_of_entries. by apply Hall. }
  assert (ch "[" ∉ lock_head m) as Hhead.
  { pose proof (lock_body_free ((m_name m, m_version m), [])) as Hb. intros Hin. apply Hb.
    - split_and!; [apply name_lockable, Hm|apply version_lockable, Hm|split; apply not_elem_of_nil].
    - unfold lock_body, lock_head in *. cbn [fst snd app] in *. rewrite elem_of_cons, !elem_of_app in *. tauto. }
  unfold locked_digests. change (lit "[[dependency]]") with lock_mark. rewrite resolved_lockfile_text.
  apply (split_text_free (ch "[") (lit "[dependency]]") _ _ _ _ Hhead), split_text_package in Es.
  eapply (split_text_free (ch "[") (lit "[dependency]]")) in Es; [rewrite Es|].
  - cbn [tail]. change (foldl lock_step ∅ parts = resolved).
    rewrite Hf, foldl_insert_map by apply entries_NoDup. by rewrite (right_id_L ∅ (∪)), list_to_map_entries.
  - intros Hs. apply list_elem_of_In in Hs. cbn in Hs. destruct_or! Hs; done.
Qed.
