(* ===== verification/InstallOk.v ===== *)
(** * Correctness of installation

    Installing keeps to the lock files, and what it writes is what the later
    check of the store accepts. *)
From S2P Require Import Prelude Ast Values Text Strs Utf8 Manifest ManifestOk Package PackageOk Trust TrustOk Registry Install LocksOk.
Open Scope list_scope.

Local Notation lit := ascii_chars.

(** ** Digests *)

Section digests.
Context `{Crypto}.

(** A character of a digest: a hexadecimal digit. *)
Definition digest_char (c : char) : Prop :=
  scalar c ∧ is_white c = false ∧ c ≠ newline ∧ c ≠ ch "[".

Lemma decode_ascii l : Forall (λ b, Byte.to_N b < 128) l → decode_utf8 l = map Byte.to_N l.
Proof.
  induction 1 as [|b l Hb _ IH]; [done|]. cbn [decode_utf8 map]. cbv zeta. rewrite IH.
  by rewrite (proj2 (N.ltb_lt _ 128) Hb).
Qed.

Lemma hex_chars d :
  Forall (λ b, Byte.to_N b < 128 ∧ digest_char (Byte.to_N b)) (string_bytes (encode_hex d)).
Proof.
  unfold encode_hex. rewrite string_bytes_of_bytes.
  assert (∀ n, n < 16 → Byte.to_N (hex_digit n) < 128 ∧ digest_char (Byte.to_N (hex_digit n))) as Hd.
  { assert (Forall (λ n, Byte.to_N (hex_digit n) < 128 ∧ digest_char (Byte.to_N (hex_digit n))) (map N.of_nat (seq 0 16))) as Hall
      by (unfold digest_char, scalar; repeat constructor; vm_compute; by intuition congruence).
    intros n Hn. rewrite Forall_forall in Hall. apply Hall, list_elem_of_In, in_map_iff. exists (N.to_nat n).
    rewrite in_seq. lia. }
  induction d as [|b d IH]; [constructor|]. rewrite bind_cons. pose proof (Byte.to_N_bounded b).
  apply Forall_app. split; [|done]. repeat constructor; apply Hd; zify; lia.
Qed.

Lemma digest_text_bytes bytes : digest_text bytes = map Byte.to_N (string_bytes (sha256 bytes)).
Proof. apply decode_ascii. eapply Forall_impl; [apply hex_chars|]. by intros b [? _]. Qed.

Lemma digest_chars bytes : Forall digest_char (digest_text bytes).
Proof.
  rewrite digest_text_bytes. apply Forall_map. eapply Forall_impl; [apply hex_chars|]. by intros b [_ ?].
Qed.

Lemma digest_lockable bytes : lockable (digest_text bytes).
Proof.
  pose proof (digest_chars bytes) as Hd. rewrite Forall_forall in Hd.
  split; intros Hin%Hd; [by destruct Hin as (_ & _ & Hn & _)|by destruct Hin as (_ & _ & _ & Hn)].
Qed.

Lemma digest_line bytes :
  text_of_bytes (as_bytes (digest_text bytes ++ [newline])) = Some (digest_text bytes ++ [newline]) ∧
  trim (digest_text bytes ++ [newline]) = digest_text bytes.
Proof.
  pose proof (digest_chars bytes) as Hd. split.
  - apply text_of_as_bytes, Forall_app. split; [|constructor; [unfold scalar, newline; lia|constructor]]. eapply Forall_impl; [done|]. by intros c [? _].
  - apply (trim_padded [] _ [newline]); [done|by repeat constructor|]. rewrite Forall_forall in Hd.
    split; intros c Hc; [apply head_Some_elem_of in Hc|apply last_Some_elem_of in Hc]; by apply Hd in Hc as (_ & ? & _).
Qed.
End digests.

(** ** Extraction *)

(** No two paths of the package lead to the same file, and none to the files the
    installer adds. *)
Definition unaliased (p : Package) : Prop :=
  NoDup (map (λ f, path_names f.1) (entries (pk_files p))) ∧
  map_Forall (λ path _, path_names path ≠ path_names CHECKSUM_FILE ∧ path_names path ≠ path_names ARCHIVE_FILE) (pk_files p).

Lemma write_file_Ok tree path contents tree' :
  write_file tree path contents = Ok tree' → no_file path = false ∧ tree' = <[path_names path := contents]> tree.
Proof. unfold write_file. destruct (no_file path); [done|]. destruct (conflicts _ _); [done|]. by intros <-%Ok_eq. Qed.

Lemma write_file_read tree path contents tree' path' :
  write_file tree path contents = Ok tree' →
  read_file tree' path = Some contents ∧
  (path_names path' ≠ path_names path → read_file tree' path' = read_file tree path').
Proof.
  intros [Hn ->]%write_file_Ok. unfold read_file. rewrite Hn, lookup_insert_eq. split; [done|].
  intros Hne. by rewrite lookup_insert_ne.
Qed.

Lemma extract_files_Ok l tree tree' :
  extract_files l tree = Ok tree' → NoDup (map (λ f, path_names f.1) l) →
  (∀ f, f ∈ l → read_file tree' f.1 = Some f.2) ∧
  (∀ path, (∀ f, f ∈ l → path_names path ≠ path_names f.1) → read_file tree' path = read_file tree path).
Proof.
  revert tree. induction l as [|[path contents] l IH]; intros tree He Hnd; cbn [extract_files] in He.
  - apply Ok_eq in He as <-. split; [by intros f ?%elem_of_nil|done].
  - apply bind_Ok in He as (tree1 & Hw & He). cbn [map fst] in Hnd. apply NoDup_cons in Hnd as [Hnew Hnd].
    apply IH in He as [Hin Hout]; [|done]. split.
    + intros f [->|Hf]%elem_of_cons; [|by apply Hin]. cbn [fst snd]. rewrite Hout.
      * by apply (write_file_read _ _ _ _ path) in Hw as [? _].
      * intros f Hf He. apply Hnew. rewrite He. apply list_elem_of_fmap. by exists f.
    + intros p Hp. rewrite Hout by (intros f Hf; apply Hp; by right).
      apply (write_file_read _ _ _ _ p) in Hw as [_ Hw]. apply Hw, (Hp (path, contents)). by left.
Qed.

(** ** One package *)

Section installed.
Context `{Crypto}.
Hypothesis collision_free : ∀ a b, sha256 a = sha256 b → a = b.
Local Set Default Proof Using "All".

Lemma digest_text_inj a b : digest_text a = digest_text b → a = b.
Proof.
  rewrite !digest_text_bytes. intros He. apply collision_free, string_bytes_inj.
  assert (Inj (=) (=) Byte.to_N) by (intros x y; apply byte_to_N_inj). by apply (inj (fmap Byte.to_N)) in He.
Qed.

(** A directory as [install_package] leaves it. *)
Record holds (p : Package) (archive : list byte) (tree : Tree) : Prop := {
  h_matches : installed_package_matches p tree (digest_text archive) = true;
  h_archive : read_file tree ARCHIVE_FILE = Some archive }.

Lemma matches_holds p archive tree :
  installed_package_matches p tree (digest_text archive) = true → holds p archive tree.
Proof.
  intros Hm. split; [done|]. unfold installed_package_matches in Hm. rewrite !andb_true_iff in Hm.
  destruct Hm as [[_ Ha] _]. destruct (read_file tree ARCHIVE_FILE) as [a|]; [|done].
  apply bool_decide_eq_true in Ha. by apply digest_text_inj in Ha as ->.
Qed.

Lemma install_package_tree fault p existing digest archive now :
  install_package fault p existing digest archive = (Ok tt, now) →
  ∃ tree, now = Some tree ∧
    (installed_package_matches p tree digest = true ∨
     (tree ← extract p; tree ← write_file tree CHECKSUM_FILE (as_bytes (digest ++ [newline]));
      write_file tree ARCHIVE_FILE archive) = Ok tree).
Proof using.
  unfold install_package. destruct (match existing with Some _ => _ | None => false end) eqn:Hold.
  { intros [= <-]. destruct existing as [old|]; [|done]. by exists old; auto. }
  destruct (extract p ≫= _) as [tree|]; [|done].
  destruct fault as [[|[]|]|], existing; intros He; simplify_eq; exists tree; auto.
Qed.

Lemma install_package_holds fault p existing archive now :
  unaliased p → install_package fault p existing (digest_text archive) archive = (Ok tt, now) →
  ∃ tree, now = Some tree ∧ holds p archive tree.
Proof.
  intros [Hnd Hfree] (tree & -> & [Hold|Hnew])%install_package_tree; exists tree; (split; [done|]).
  { by apply matches_holds. }
  apply bind_Ok in Hnew as (tree1 & Hx & (tree2 & Hsum & Harc)%bind_Ok). unfold extract in Hx.
  apply extract_files_Ok in Hx as [Hfiles _]; [|done].
  split; [|by apply (write_file_read _ _ _ _ ARCHIVE_FILE) in Harc as [? _]].
  unfold installed_package_matches. rewrite !andb_true_iff. split_and!.
  - unfold read_text_file. destruct (write_file_read _ _ _ _ CHECKSUM_FILE Harc) as [_ ->]; [|done].
    destruct (write_file_read _ _ _ _ CHECKSUM_FILE Hsum) as [-> _]. cbn [mbind option_bind].
    destruct (digest_line archive) as [-> ->]. by rewrite bool_decide_true.
  - destruct (write_file_read _ _ _ _ ARCHIVE_FILE Harc) as [-> _]. by rewrite bool_decide_true.
  - apply forallb_forall. intros [path contents] Hin%list_elem_of_In. apply bool_decide_eq_true.
    pose proof Hin as Hin'%elem_of_entries%Hfree. destruct Hin' as [Hc Ha].
    destruct (write_file_read _ _ _ _ path Harc) as [_ ->]; [|done].
    destruct (write_file_read _ _ _ _ path Hsum) as [_ ->]; [|done]. by apply (Hfiles (path, contents)).
Qed.
End installed.

(** ** The whole graph *)

Section graph.
Context `{Crypto} `{LockText} `{DiskFaults} (m : Manifest) (registry : Registry).
Local Set Default Proof Using "Type".

Lemma install_all_Ok l store store' :
  install_all l store = (Ok tt, store') → NoDup l.*1 →
  (∀ key, key ∉ l.*1 → store' !! key = store !! key) ∧
  ∀ key entry, (key, entry) ∈ l → ∃ existing,
    install_package (package_fault key) (t_package entry) existing (t_digest entry) (t_bytes entry)
    = (Ok tt, store' !! key).
Proof.
  revert store. induction l as [|[k e] l IH]; intros store Hi Hnd; cbn [install_all] in Hi.
  - injection Hi as <-. split; [done|by intros ? ? ?%elem_of_nil].
  - destruct (install_package _ _ _ _ _) as [[[]|] now] eqn:Hp; [|done]. cbn in Hnd. apply NoDup_cons in Hnd as [Hk Hnd].
    apply IH in Hi as [Hout Hin]; [|done]. split.
    + intros key [Hne Hkey]%not_elem_of_cons. rewrite Hout by done. by rewrite lookup_partial_alter_ne.
    + intros key entry [[= -> ->]|He]%elem_of_cons; [|by apply Hin].
      exists (store !! k). rewrite Hout by done. by rewrite lookup_partial_alter_eq.
Qed.

(** What the loop of [install_dependencies] keeps of a key. *)
Record fetched (lock : option (list char)) (key : Key) (entry : StagedPackage) : Prop := {
  f_fetch : fetch key.1 key.2 registry = Ok (t_bytes entry);
  f_digest : t_digest entry = digest_text (t_bytes entry);
  f_locked : check_locked_digest lock key (t_digest entry) = Ok tt;
  f_decode : decode_package (t_bytes entry) = Ok (t_package entry);
  f_manifest : manifest_of (t_package entry) (store_path m key) "dependency manifest is not UTF-8" = Ok (t_manifest entry) }.

Lemma fetch_step_Ok lock key entry children :
  fetch_step m registry lock key = Ok (entry, children) →
  fetched lock key entry ∧ children = dependency_keys (t_manifest entry).
Proof.
  unfold fetch_step. intros (bytes & Hb & H')%bind_Ok. cbv zeta in H'. apply bind_Ok in H' as ([] & Hl & H').
  apply bind_Ok in H' as (p & Hp & H'). apply bind_Ok in H' as (dm & Hdm & [= <- <-]%Ok_eq). split; [by split|done].
Qed.

Lemma fetch_Ok name version bytes :
  fetch name version registry = Ok bytes →
  ∃ d p, r_index registry !! (name, version) = Some d ∧ r_artifacts registry !! (name, version) = Some bytes ∧
    decode_package bytes = Ok p ∧ pk_name p = name ∧ pk_version p = version.
Proof.
  unfold fetch. intros ([] & _ & H')%bind_Ok. apply bind_Ok in H' as (d & Hd%ok_or_Ok & H').
  destruct (negb (names _ _)); [done|]. destruct (default _ _); [done|].
  apply bind_Ok in H' as (e & _ & H'). apply bind_Ok in H' as (n & _ & H'). destruct (_ <? _); [done|].
  apply bind_Ok in H' as (b & Hb%ok_or_Ok & H'). destruct (negb _); [done|]. destruct (negb _); [done|].
  apply bind_Ok in H' as (p & Hp & H'). destruct (_ || _) eqn:Hid; [done|]. apply Ok_eq in H' as <-.
  apply orb_false_iff in Hid as [Hn%negb_false_iff%bool_decide_eq_true Hv%negb_false_iff%bool_decide_eq_true].
  by exists d, p.
Qed.

(** The check of the store agrees with the fetch it follows. *)
Lemma installed_step_fetched lock key entry disk tree :
  fetched lock key entry → k_store disk !! key = Some tree → holds (t_package entry) (t_bytes entry) tree →
  installed_step m disk key = Ok (t_digest entry, dependency_keys (t_manifest entry)).
Proof.
  intros Hf Ht [Hm Ha]. unfold installed_step. rewrite Ht. cbn [ok_or mbind result_bind]. rewrite Ha.
  cbn [ok_or mbind result_bind]. rewrite <- (f_digest _ _ _ Hf) in *. pose proof Hm as Hm'.
  unfold installed_package_matches in Hm'. rewrite !andb_true_iff in Hm'. destruct Hm' as [[Hsum _] Hfiles].
  destruct (read_text_file tree CHECKSUM_FILE) as [recorded|]; [|done]. cbn [ok_or mbind result_bind]. rewrite Hsum.
  cbn [negb]. rewrite (f_decode _ _ _ Hf). cbn [mbind result_bind].
  destruct (fetch_Ok _ _ _ (f_fetch _ _ _ Hf)) as (_ & p & _ & _ & Hp & Hn & Hv). rewrite (f_decode _ _ _ Hf) in Hp.
  apply Ok_eq in Hp as <-. rewrite Hn, Hv, !bool_decide_true by done. cbn [negb orb]. rewrite Hm. cbn [negb].
  pose proof (f_manifest _ _ _ Hf) as Hman. unfold manifest_of in Hman.
  destruct (pk_files (t_package entry) !! MANIFEST_NAME) as [mb|] eqn:Hmb; [|done]. cbn [mbind option_bind] in Hman.
  rewrite forallb_forall in Hfiles. apply elem_of_entries, list_elem_of_In, Hfiles, bool_decide_eq_true in Hmb.
  unfold read_text_file. rewrite Hmb. cbn [mbind option_bind]. destruct (text_of_bytes mb) as [text|]; [|done].
  cbn [ok_or mbind result_bind] in *. rewrite Hman. done.
Qed.

(** What a commit did that came to write [niv.lock]. *)
Record committed (staged : gmap Key StagedPackage) (disk disk' : Disk) (packages : gmap Key (list char * Manifest)) : Prop := {
  c_packages : staged_authority (entries staged) {[(m_name m, m_version m) := (lit "root", m)]} = Ok packages;
  c_guard : guard_prospective_authority (k_authority disk) (render_authority_lock packages) = Ok tt;
  c_store : install_all (entries staged) (k_store disk) = (Ok tt, k_store disk');
  c_lock : k_lock disk' = Some (resolved_lockfile m (t_digest <$> staged)) }.

(** It fails with both lock files as before, or, when it is the authority lock
    that cannot be written, with the new [niv.lock]. *)
Lemma commit_outcome staged disk r disk' :
  commit_staged_install m staged disk = (r, disk') →
  match r with
  | Ok _ => ∃ packages, committed staged disk disk' packages
  | Err _ => k_authority disk' = k_authority disk ∧
      (k_lock disk' = k_lock disk ∨ authority_fault = true ∧ ∃ packages, committed staged disk disk' packages)
  end.
Proof.
  unfold commit_staged_install. destruct (_ ≫= _) as [text|] eqn:Hp; [|intros [= <- <-]; auto].
  apply bind_Ok in Hp as (packages & Hs & Hp). cbv zeta in Hp. apply bind_Ok in Hp as ([] & Hg & <-%Ok_eq).
  destruct (install_all _ _) as [[[]|] store] eqn:Hi; [|intros [= <- <-]; auto].
  unfold write_atomic. destruct lock_fault; [intros [= <- <-]; auto|].
  destruct authority_fault; intros [= <- <-]; [split; [done|]; right; split; [done|]|]; by exists packages.
Qed.

(** The graph an installation found. *)
Definition found (disk disk' : Disk) (staged : gmap Key StagedPackage) (packages : gmap Key (list char * Manifest)) : Prop :=
  committed staged disk disk' packages ∧
  (∀ key, is_Some (staged !! key) ↔ reached (fetch_step m registry (k_lock disk)) (dependency_keys m) key) ∧
  ∀ key entry, staged !! key = Some entry →
    fetched (k_lock disk) key entry ∧
    fetch_step m registry (k_lock disk) key = Ok (entry, dependency_keys (t_manifest entry)).

Lemma install_outcome disk r disk' :
  install_dependencies m registry disk = Some (r, disk') →
  match r with
  | Ok _ => ∃ staged packages, found disk disk' staged packages
  | Err _ => k_authority disk' = k_authority disk ∧
      (k_lock disk' = k_lock disk ∨ authority_fault = true ∧ ∃ staged packages, found disk disk' staged packages)
  end.
Proof.
  unfold install_dependencies. destruct store_fault; [intros [= <- <-]; auto|].
  destruct (resolve_from _ _ _) as [res|] eqn:Hr; [|done]. cbn [mbind option_bind].
  apply resolve_closure in Hr. destruct res as [staged|e]; [|intros [= <- <-]; auto]. intros Hc%(inj Some).
  assert (∀ packages, committed staged disk disk' packages → found disk disk' staged packages) as Hfound.
  { intros packages Hcp. destruct Hr as [Hdom Hval]. split_and!; [done|done|].
    intros key entry Hk. destruct (Hval key entry Hk) as [children Hf]. pose proof Hf as Hf'.
    by apply fetch_step_Ok in Hf' as [? ->]. }
  apply commit_outcome in Hc. destruct r as [n|e].
  - destruct Hc as [packages Hc]. exists staged, packages. auto.
  - destruct Hc as [Ha [Hl|(Hf & packages & Hc)]]; (split; [done|]); [by left|right].
    split; [done|]. exists staged, packages. auto.
Qed.

(** The two searches reach the same keys. *)
Lemma reached_agree {A B} (f : Key → result NivError (A * list Key)) (g : Key → result NivError (B * list Key)) roots :
  (∀ key, reached f roots key → ∃ a b children, f key = Ok (a, children) ∧ g key = Ok (b, children)) →
  ∀ key, reached f roots key ↔ reached g roots key.
Proof.
  intros Hfg key. split.
  - induction 1 as [key Hk|key a children child Hr IH Hf Hc]; [by constructor|].
    destruct (Hfg key Hr) as (a' & b & cs & Ef & Eg). rewrite Hf in Ef. injection Ef as _ <-. by eapply reached_child.
  - induction 1 as [key Hk|key b children child _ IH Hg Hc]; [by constructor|].
    destruct (Hfg key IH) as (a & b' & cs & Ef & Eg). rewrite Hg in Eg. injection Eg as _ <-. by eapply reached_child.
Qed.

Hypothesis collision_free : ∀ a b, sha256 a = sha256 b → a = b.
Hypothesis fetched_unaliased : ∀ name version bytes p,
  fetch name version registry = Ok bytes → decode_package bytes = Ok p → unaliased p.

Lemma install_locked disk disk' n :
  install_dependencies m registry disk = Some (Ok n, disk') →
  ∃ text, installed_lockfile m disk' = Some (Ok text) ∧ k_lock disk' = Some text.
Proof using All.
  intros (staged & packages & Hc & Hdom & Hval)%install_outcome.
  assert (∀ key entry, staged !! key = Some entry →
    installed_step m disk' key = Ok (t_digest entry, dependency_keys (t_manifest entry))) as Hstep.
  { intros key entry Hk. destruct (Hval key entry Hk) as [Hf _].
    destruct (install_all_Ok _ _ _ (c_store _ _ _ _ Hc)) as [_ Hin]; [apply entries_NoDup|].
    destruct (Hin key entry) as (old & Hi); [by apply elem_of_entries|].
    rewrite (f_digest _ _ _ Hf) in Hi. apply install_package_holds in Hi as (tree & Ht & Hh); [|done|].
    2: { eapply fetched_unaliased; [apply (f_fetch _ _ _ Hf)|apply (f_decode _ _ _ Hf)]. }
    by apply (installed_step_fetched (k_lock disk) key entry disk' tree). }
  assert (∀ key, reached (fetch_step m registry (k_lock disk)) (dependency_keys m) key
               ↔ reached (installed_step m disk') (dependency_keys m) key) as Hreach.
  { apply reached_agree. intros key [entry Hk]%Hdom. destruct (Hval key entry Hk) as [_ Hf].
    exists entry, (t_digest entry), (dependency_keys (t_manifest entry)). split; [done|by apply Hstep]. }
  exists (resolved_lockfile m (t_digest <$> staged)). split; [|apply (c_lock _ _ _ _ Hc)].
  unfold installed_lockfile. destruct (resolve_from _ _ _) as [r|] eqn:Hr.
  - cbn [mbind option_bind]. apply resolve_closure in Hr. destruct r as [found|e].
    + destruct Hr as [Hdom' Hval']. cbn [mbind result_bind]. do 3 f_equal. apply map_eq. intros key.
      rewrite lookup_fmap. destruct (staged !! key) as [entry|] eqn:Hk; cbn.
      * destruct (proj2 (Hdom' key)) as [d Hd]; [apply Hreach, Hdom; eauto|]. rewrite Hd.
        destruct (Hval' _ _ Hd) as [cs Hi]. rewrite (Hstep key entry Hk) in Hi. by injection Hi as <-.
      * apply eq_None_not_Some. intros Hs%Hdom'%Hreach%Hdom. rewrite Hk in Hs. by destruct Hs.
    + destruct Hr as (key & Hk%Hreach%Hdom & He). destruct Hk as [entry Hk]. by rewrite (Hstep key entry Hk) in He.
  - exfalso. revert Hr. apply resolve_from_ends.
    + apply NoDup_fst_map_to_list.
    + intros key Hk. unfold installed_step in Hk. destruct (k_store disk' !! key) as [t|] eqn:Et; [|done].
      apply list_elem_of_fmap. exists (key, t). split; [done|]. by apply elem_of_map_to_list.
Qed.
End graph.

(** ** Pins and authority *)

Section guarded.
Context `{Crypto} `{LockText} `{DiskFaults} (m : Manifest) (registry : Registry).
Local Set Default Proof Using "Type".

Lemma staged_authority_Ok l packages packages' :
  staged_authority l packages = Ok packages' → NoDup l.*1 →
  (∀ key, key ∉ l.*1 → packages' !! key = packages !! key) ∧
  ∀ key entry, (key, entry) ∈ l → packages' !! key = Some (lit "dependency", t_manifest entry).
Proof.
  revert packages. induction l as [|[[name version] e] l IH]; intros packages Hs Hnd; cbn [staged_authority] in Hs.
  - apply Ok_eq in Hs as <-. split; [done|by intros ? ? ?%elem_of_nil].
  - destruct (_ || _); [done|]. cbn in Hnd. apply NoDup_cons in Hnd as [Hk Hnd]. apply IH in Hs as [Hout Hin]; [|done].
    split.
    + intros key [Hne Hkey]%not_elem_of_cons. rewrite Hout by done. by rewrite lookup_insert_ne.
    + intros key entry [[= -> ->]|He]%elem_of_cons; [|by apply Hin]. rewrite Hout by done. by rewrite lookup_insert_eq.
Qed.

(** What a new lock pins is what was fetched. *)
Lemma committed_lock staged disk disk' packages :
  manifest_ok m → committed m staged disk disk' packages →
  (∀ key entry, staged !! key = Some entry → fetched m registry (k_lock disk) key entry) →
  locked_digests (k_lock disk') = t_digest <$> staged.
Proof.
  intros Hm Hc Hf. rewrite (c_lock _ _ _ _ _ Hc). apply locked_digests_written; [done|].
  intros key digest Hk. rewrite lookup_fmap in Hk. apply fmap_Some in Hk as (entry & Hk & ->). apply Hf in Hk as Hk'.
  destruct (fetch_Ok registry _ _ _ (f_fetch _ _ _ _ _ Hk')) as (_ & p & _ & _ & Hp & Hn & Hv).
  destruct (decoded_manifest _ _ Hp) as (_ & _ & Hname & Hversion & _). rewrite Hn in Hname. rewrite Hv in Hversion.
  split_and!; [by apply name_lockable|by apply version_lockable|].
  rewrite (f_digest _ _ _ _ _ Hk'). apply digest_lockable.
Qed.

Lemma check_locked_digest_Ok lock key digest expected :
  check_locked_digest lock key digest = Ok tt → locked_digests lock !! key = Some expected → expected = digest.
Proof. unfold check_locked_digest. intros Hc He. rewrite He in Hc. by case_bool_decide. Qed.

Lemma guard_Ok actual expected : guard_prospective_authority (Some actual) expected = Ok tt → actual = expected.
Proof. unfold guard_prospective_authority. by case_bool_decide. Qed.

Lemma install_ends disk : install_dependencies m registry disk ≠ None.
Proof.
  unfold install_dependencies. destruct store_fault; [done|].
  destruct (resolve_from _ _ _) as [r|] eqn:Hr; [done|]. exfalso. revert Hr.
  apply resolve_from_ends; [apply NoDup_fst_map_to_list|]. intros key Hk.
  destruct (fetch_step m registry (k_lock disk) key) as [[e cs]|] eqn:Hf; [|done].
  apply fetch_step_Ok in Hf as [Hf _].
  destruct (fetch_Ok _ _ _ _ (f_fetch _ _ _ _ _ Hf)) as (d & _ & Hd & _). rewrite <- surjective_pairing in Hd.
  apply list_elem_of_fmap. exists (key, d). split; [done|]. by apply elem_of_map_to_list.
Qed.

(** [disk'] keeps to the locks of [disk]: its lock pins exactly the packages
    reachable from the manifest, no package the old lock pins has another
    digest, and if there was an authority lock, every capability, scope and
    unsafe module of every package reached is listed there. *)
Record keeps_locks (disk disk' : Disk) : Prop := {
  kl_reached key : is_Some (locked_digests (k_lock disk') !! key)
    ↔ reached (fetch_step m registry (k_lock disk)) (dependency_keys m) key;
  kl_pinned key old new : locked_digests (k_lock disk) !! key = Some old →
    locked_digests (k_lock disk') !! key = Some new → old = new;
  kl_granted packages key entry children : k_authority disk = Some (render_authority_lock packages) →
    reached (fetch_step m registry (k_lock disk)) (dependency_keys m) key →
    fetch_step m registry (k_lock disk) key = Ok (entry, children) →
    authority_of (key, (lit "dependency", t_manifest entry)) ∈ map authority_of (entries packages) }.

Lemma found_keeps `{!LockTextLaws} disk disk' staged packages :
  manifest_ok m → found m registry disk disk' staged packages → keeps_locks disk disk'.
Proof.
  intros Hm (Hc & Hdom & Hval).
  assert (locked_digests (k_lock disk') = t_digest <$> staged) as Hlock.
  { eapply committed_lock; [done|done|]. intros key entry Hk. by apply Hval. }
  split; rewrite ?Hlock.
  - intros key. by rewrite lookup_fmap, fmap_is_Some.
  - intros key old new Hold Hnew. rewrite lookup_fmap in Hnew. apply fmap_Some in Hnew as (entry & Hk & ->).
    apply Hval in Hk as [Hf _]. by eapply check_locked_digest_Ok; [apply (f_locked _ _ _ _ _ Hf)|].
  - intros packages' key entry children Ha [e Hk]%Hdom Hf. destruct (Hval key e Hk) as [_ Hf']. rewrite Hf in Hf'.
    injection Hf' as -> _. pose proof (c_guard _ _ _ _ _ Hc) as Hg. rewrite Ha in Hg.
    apply guard_Ok, authority_lock_inj in Hg. rewrite Hg. apply list_elem_of_fmap.
    exists (key, (lit "dependency", t_manifest e)). split; [done|]. apply elem_of_entries.
    by eapply staged_authority_Ok; [apply (c_packages _ _ _ _ _ Hc)|apply entries_NoDup|apply elem_of_entries].
Qed.
End guarded.

(** C26: installing keeps to what was locked, for a manifest in order, whichever of
    the calls that write fail, when JSON strings are injective and have no line
    breaks.  It always returns.  When it succeeds, the new lock pins exactly the
    packages reachable from the manifest, no package the old lock pins has
    another digest, and if there was an authority lock, every capability, scope
    and unsafe module of every package installed is listed there.  When it
    fails, the authority lock is as before, and so is [niv.lock], unless what
    failed is the writing of the authority lock, which comes last: then
    [niv.lock] may be the new one, which keeps to the locks all the same. *)
Theorem install_guarded `{Crypto} `{LockTextLaws} `{DiskFaults} m registry disk :
  manifest_ok m →
  ∃ r disk', install_dependencies m registry disk = Some (r, disk') ∧
  match r with
  | Ok _ => keeps_locks m registry disk disk'
  | Err _ => k_authority disk' = k_authority disk ∧
      (k_lock disk' = k_lock disk ∨ authority_fault = true ∧ keeps_locks m registry disk disk')
  end.
Proof.
  intros Hm. destruct (install_dependencies m registry disk) as [[r disk']|] eqn:Hi; [|by apply install_ends in Hi].
  exists r, disk'. split; [done|]. apply install_outcome in Hi. destruct r as [n|e].
  - destruct Hi as (staged & packages & Hf). by eapply found_keeps.
  - destruct Hi as [Ha [Hl|(Hfault & staged & packages & Hf)]]; (split; [done|]); [by left|right].
    split; [done|]. by eapply found_keeps.
Qed.

(** C27: what installing leaves behind is what was locked.  After a successful
    installation of packages none of whose paths lead to the same file, when
    digests do not collide, the check of the installed tree ([installed_lockfile])
    succeeds and gives exactly the lock file that was written. *)
Theorem install_reproduced `{Crypto} `{LockText} `{DiskFaults} m registry disk disk' n :
  (∀ a b, sha256 a = sha256 b → a = b) →
  (∀ name version bytes p, fetch name version registry = Ok bytes → decode_package bytes = Ok p → unaliased p) →
  install_dependencies m registry disk = Some (Ok n, disk') →
  ∃ text, installed_lockfile m disk' = Some (Ok text) ∧ k_lock disk' = Some text.
Proof. intros Hfree Hun. by apply install_locked. Qed.

(** ** Concrete projects *)

(** The JSON text of a string without control characters other than a new line. *)
Definition json_char (c : char) : list char :=
  if c =? newline then [backslash; ch "n"]
  else if (c =? backslash) || (c =? quote) then [backslash; c]
  else [c].
Definition lock_json : LockText := {| lock_string s := quote :: (s ≫= json_char) ++ [quote] |}.

Lemma json_char_inj c d x y : json_char c ++ x = json_char d ++ y → c = d ∧ x = y.
Proof.
  unfold json_char. change newline with 10. change backslash with 92. change quote with 34. change (ch "n") with 110.
  destruct (N.eqb_spec c 10), (N.eqb_spec c 92), (N.eqb_spec c 34), (N.eqb_spec d 10), (N.eqb_spec d 92), (N.eqb_spec d 34);
    cbn [orb app]; intros He; simplify_eq; done.
Qed.

Lemma lock_json_inj s t : (s ≫= json_char) = (t ≫= json_char) → s = t.
Proof.
  assert (∀ c, json_char c ≠ []) as Hne.
  { intros c. unfold json_char. destruct (c =? newline); [done|]. by destruct (_ || _). }
  revert t. induction s as [|c s IH]; intros [|d t]; rewrite ?bind_cons; [done| | |].
  - intros He. symmetry in He. by apply app_eq_nil in He as [?%Hne _].
  - by intros [?%Hne _]%app_eq_nil.
  - intros [-> He]%json_char_inj. f_equal. by apply IH.
Qed.

#[export] Instance json_laws : @LockTextLaws lock_json.
Proof.
  split; cbn [lock_string lock_json].
  - intros a b [_ He]%cons_eq. apply app_inv_tail in He. by apply lock_json_inj.
  - intros a. rewrite elem_of_cons, elem_of_app, list_elem_of_singleton. intros [?|[Hin|?]]; [done| |done].
    apply list_elem_of_bind in Hin as (c & Hc & _). revert Hc. unfold json_char.
    destruct (N.eqb_spec c newline) as [->|Hn]; [by intros [?|[?|?%elem_of_nil]%elem_of_cons]%elem_of_cons|].
    by destruct (_ || _); [intros [?|[?|?%elem_of_nil]%elem_of_cons]%elem_of_cons|intros ?%list_elem_of_singleton].
Qed.

(** A project that depends on one package, and a registry that has it. *)
Definition app_source (more : string) : list char := quoting "[package]
name = `app`
version = `0.1.0`
entry = `main.niv`
[dependencies]
demo = `1.0.0`
" ++ quoting more.
Definition app : Manifest :=
  match parse_manifest (app_source "") (lit "/app") with
  | Ok m => m
  | Err _ => mkManifest [] [] [] [] ∅ ∅ ∅ ∅ None None None 0
  end.
Definition stocked (archive : list byte) : Registry :=
  (@publish plain_crypto archive (mkRegistry ∅ ∅)).2.
Definition empty_disk : Disk := mkDisk None None ∅.

Lemma app_ok : manifest_ok app.
Proof.
  unfold app. destruct (parse_manifest (app_source "") (lit "/app")) as [m|] eqn:Hm; [|by vm_compute in Hm].
  by apply parse_manifest_ok in Hm as [? _].
Qed.

Definition installed (archive : list byte) : option (result NivError nat * Disk) :=
  @install_dependencies plain_crypto lock_json sound_disk app (stocked archive) empty_disk.


Lemma stocked_fetch archive name version bytes :
  @fetch plain_crypto name version (stocked archive) = Ok bytes → bytes = archive.
Proof.
  intros (d & p & _ & Hb & _)%fetch_Ok. unfold stocked, publish in Hb.
  destruct (_ ≫= _) as [[q mq]|] in Hb; cbn in Hb; [|done].
  rewrite lookup_empty in Hb. cbn in Hb. rewrite lookup_empty in Hb. cbn in Hb.
  by apply lookup_insert_Some in Hb as [[_ <-]|[_ ?]].
Qed.

Lemma plain_unaliased : unaliased plain_package.
Proof.
  split.
  - apply (bool_decide_eq_true_1 (NoDup _)). by vm_compute.
  - apply (bool_decide_eq_true_1 (map_Forall _ _)). by vm_compute.
Qed.

Lemma sample_decodes : decode_package sample_archive = Ok plain_package.
Proof. by vm_compute. Qed.

Lemma install_reproduced_witness :
  ∃ disk text, installed sample_archive = Some (Ok 1%nat, disk) ∧
    @installed_lockfile plain_crypto app disk = Some (Ok text) ∧ k_lock disk = Some text.
Proof.
  assert (option_map fst (installed sample_archive) = Some (Ok 1%nat)) as Hok by (vm_compute; reflexivity).
  destruct (installed sample_archive) as [[r disk]|] eqn:Hd; [|discriminate Hok].
  apply (inj Some) in Hok. cbn [fst] in Hok. subst r.
  exists disk. destruct (@install_reproduced plain_crypto lock_json sound_disk app (stocked sample_archive) empty_disk disk 1%nat)
    as (text & Ht); [apply plain_collision_free| |exact Hd|exists text; split; [reflexivity|exact Ht]].
  intros name version bytes p ->%stocked_fetch Hp. rewrite sample_decodes in Hp. apply Ok_eq in Hp as <-.
  apply plain_unaliased.
Defined.

(** Installing again over what was installed. *)
Definition reinstalled (archive : list byte) : option (result NivError nat * Disk) :=
  match installed archive with
  | Some (Ok _, disk) => @install_dependencies plain_crypto lock_json sound_disk app (stocked archive) disk
  | other => other
  end.

Lemma install_guarded_witness :
  ∃ disk, reinstalled sample_archive = Some (Ok 1%nat, disk) ∧
    is_Some (locked_digests (k_lock disk) !! (lit "demo", lit "1.0.0")).
Proof.
  assert (option_map fst (reinstalled sample_archive) = Some (Ok 1%nat)) as Hok by (vm_compute; reflexivity).
  unfold reinstalled in *. destruct (installed sample_archive) as [[[n|] disk]|]; [|discriminate Hok..].
  destruct (@install_guarded plain_crypto lock_json json_laws sound_disk app (stocked sample_archive) disk app_ok)
    as (r & disk' & Hi & Hr).
  rewrite Hi in Hok |- *. apply (inj Some) in Hok. cbn [fst] in Hok. subst r. exists disk'. split; [reflexivity|].
  apply (kl_reached _ _ _ _ Hr). apply reached_root.
  apply (bool_decide_eq_true_1 ((lit "demo", lit "1.0.0") ∈ dependency_keys app)). by vm_compute.
Defined.

(** The case that [install_guarded] sets apart occurs: a first installation on a
    disk that takes [niv.lock] and not the authority lock fails, and leaves a
    lock that pins the packages with no authority lock next to it. *)
Definition full_disk : DiskFaults :=
  {| store_fault := false; package_fault _ := None; lock_fault := false; authority_fault := true |}.

Lemma install_half_written :
  match @install_dependencies plain_crypto lock_json full_disk app (stocked sample_archive) empty_disk with
  | Some (Err e, disk) =>
      e = package_error (lit "cannot write /app/niv.authority.lock") ∧ k_authority disk = None ∧
      is_Some (locked_digests (k_lock disk) !! (lit "demo", lit "1.0.0"))
  | _ => False
  end.
Proof. vm_compute. split_and!; by eexists || done. Qed.

(** A package in which two paths lead to one file cannot be locked: it
    installs, and the check of what was installed then refuses it, since the
    file has the contents of one of them only. *)
Theorem aliased_install_refused :
  ∃ archive disk,
    decode_package archive = Ok aliased_package ∧
    installed archive = Some (Ok 1%nat, disk) ∧
    @installed_lockfile plain_crypto app disk
    = Some (Err (package_error (lit "installed package 'demo' differs from its locked archive"))).
Proof.
  destruct (encode_package aliased_package) as [archive|] eqn:He; [|by vm_compute in He].
  exists archive. vm_compute in He. apply Ok_eq in He.
  assert (option_map fst (installed archive) = Some (Ok 1%nat) ∧ decode_package archive = Ok aliased_package ∧
    match installed archive with Some (_, disk) => @installed_lockfile plain_crypto app disk | None => None end
    = Some (Err (package_error (lit "installed package 'demo' differs from its locked archive")))) as (Hok & Hd & Hl).
  { rewrite <- He. split_and!; vm_compute; reflexivity. }
  destruct (installed archive) as [[r disk]|]; [|discriminate Hok]. apply (inj Some) in Hok. cbn [fst] in Hok. subst r.
  exists disk. split; [exact Hd|split; [reflexivity|exact Hl]].
Qed.

(** ** Reviews *)

(** A package with the given capabilities. *)
Definition graph_entry (name : string) (capabilities : list string) : Key * (list char * Manifest) :=
  ((lit name, lit "1.0.0"),
   (lit "dependency",
    mkManifest [] (lit name) (lit "1.0.0") (lit "main.niv") ∅ (list_to_set (map lit capabilities)) ∅ ∅ None None None 4)).

Definition graph_before : gmap Key (list char * Manifest) :=
  list_to_map [graph_entry "alpha" ["Network"]; graph_entry "beta" ["FileRead"]].
Definition graph_after : gmap Key (list char * Manifest) :=
  list_to_map [graph_entry "alpha" ["Network"]; graph_entry "beta" ["FileRead"; "Network"]].

(** C29: the review text can hide a new grant.  A package that may read files is
    given the network as well, which another package has already: the
    authority differs, and [authority_diff] reports a difference of formatting. *)
Theorem authority_diff_hides_grant :
  map authority_of (entries graph_before) ≠ map authority_of (entries graph_after) ∧
  @authority_diff (@render_authority_lock lock_json graph_before) (@render_authority_lock lock_json graph_after)
  = lit "  (formatting-only difference)" ++ [newline].
Proof. split; [by vm_compute|vm_compute; reflexivity]. Qed.
