(* ===== verification/Workspace.v ===== *)
(** * Workspaces

    src/src/workspace.rs: the members a workspace manifest names, and the order in
    which they are built.  Resolving a path on disk and loading a member's
    manifest are the class [Files].

    The members are put in an order in which each follows those it depends on;
    when there is none, or versions differ, the error is due to a member that
    asks for another version or to members that depend on each other. *)
From S2P Require Import Prelude Ast Text Strs Manifest.
Open Scope list_scope.

Local Notation lit := ascii_chars.

Definition MAX_MEMBERS : N := 256.

(** [Workspace] *)
Record Workspace := mkWorkspace { w_root : list char; w_members : list Manifest }.

(** [workspace_error] *)
Definition workspace_error (message : list char) (line : N) : NivError :=
  NivError_new (str_of_chars message) line 1.

(** ** The manifest *)

(** [quoted] *)
Definition workspace_quoted (value : list char) : option (list char) :=
  inner ← strip_prefix [quote] value;
  inner ← strip_suffix [quote] inner;
  if existsb (λ c, (c =? quote) || (c =? newline) || (c =? 13)) inner then None else Some inner.

(** The loop over the lines: whether the section began, and the members. *)
Fixpoint workspace_lines (number : N) (lines : list (list char)) (in_workspace : bool) (raw_members : option (list char))
    : result NivError (option (list char)) :=
  match lines with
  | [] => Ok raw_members
  | raw_line :: lines =>
      let line := trim (default [] (head (split_char (ch "#") raw_line))) in
      if is_empty line then workspace_lines (number + 1) lines in_workspace raw_members
      else if starts_with (lit "[") line && ends_with (lit "]") line then
        if negb (bool_decide (line = lit "[workspace]")) || in_workspace then
          Err (workspace_error (lit "workspace manifest only permits one [workspace] section") number)
        else workspace_lines (number + 1) lines true raw_members
      else if negb in_workspace then Err (workspace_error (lit "workspace values must be inside [workspace]") number)
      else
        '(key, value) ← ok_or (workspace_error (quoting "expected members = `path,...`") number) (split_once (ch "=") line);
        if negb (bool_decide (trim key = lit "members")) || bool_decide (is_Some raw_members) then
          Err (workspace_error (lit "workspace requires one members value") number)
        else
          members ← ok_or (workspace_error (lit "members must be quoted") number) (workspace_quoted (trim value));
          workspace_lines (number + 1) lines in_workspace (Some members)
  end.

(** ** The order *)

(** [positions] *)
Definition positions (members : list Manifest) : gmap (list char) nat :=
  foldl (λ m '(i, member), <[m_name member := i]> m) ∅ (imap pair members).

Record Graph := mkGraph { g_indegree : list nat; g_dependents : list (list nat) }.

(** The edges of one member. *)
Fixpoint link (members : list Manifest) (pos : gmap (list char) nat) (member_index : nat) (member : list char)
    (dependencies : list (list char * list char)) (g : Graph) : result NivError Graph :=
  match dependencies with
  | [] => Ok g
  | (dependency, required_version) :: dependencies =>
      match pos !! dependency with
      | None => link members pos member_index member dependencies g
      | Some dependency_index =>
          let actual_version := default [] (m_version <$> members !! dependency_index) in
          if negb (bool_decide (required_version = actual_version)) then
            Err (workspace_error (lit "workspace package '" ++ member ++ lit "' requires " ++ dependency ++ lit " "
                   ++ required_version ++ lit ", but the member version is " ++ actual_version) 1)
          else
            link members pos member_index member dependencies
              (mkGraph (alter S member_index (g_indegree g))
                 (alter (λ l, l ++ [member_index]) dependency_index (g_dependents g)))
      end
  end.
Fixpoint link_all (members : list Manifest) (pos : gmap (list char) nat) (todo : list (nat * Manifest)) (g : Graph)
    : result NivError Graph :=
  match todo with
  | [] => Ok g
  | (i, member) :: todo =>
      g ← link members pos i (m_name member) (entries (m_dependencies member)) g;
      link_all members pos todo g
  end.

(** [(0..n).find(...)]: the first index that is not emitted and waits for nothing. *)
Definition is_ready (emitted : list bool) (indegree : list nat) (i : nat) : bool :=
  bool_decide (emitted !! i = Some false) && bool_decide (indegree !! i = Some 0%nat).
Definition find_ready (n : nat) (emitted : list bool) (indegree : list nat) : option nat :=
  head (filter (λ i, is_ready emitted indegree i = true) (seq 0 n)).

(** [names.join(", ")] *)
Fixpoint join_names (names : list (list char)) : list char :=
  match names with
  | [] => []
  | [name] => name
  | name :: names => name ++ lit ", " ++ join_names names
  end.

(** The loop: [count] members are still to be emitted. *)
Fixpoint emit_members (members : list Manifest) (dependents : list (list nat)) (count : nat) (emitted : list bool)
    (indegree : list nat) (ordered : list nat) : result NivError (list nat) :=
  match count with
  | O => Ok ordered
  | S count =>
      match find_ready (length members) emitted indegree with
      | None =>
          let cycle := omap (λ '(done, member), if (done : bool) then None else Some (m_name member)) (zip emitted members) in
          Err (workspace_error (lit "workspace dependency cycle includes: " ++ join_names cycle) 1)
      | Some next =>
          emit_members members dependents count (<[next := true]> emitted)
            (foldl (λ indegree dependent, alter pred dependent indegree) indegree (default [] (dependents !! next)))
            (ordered ++ [next])
      end
  end.

(** The members in the order of the indices. *)
Definition in_order (members : list Manifest) (ordered : list nat) : list Manifest := omap (λ i, members !! i) ordered.

(** [dependency_order] *)
Definition dependency_order (members : list Manifest) : result NivError (list Manifest) :=
  let n := length members in
  g ← link_all members (positions members) (imap pair members) (mkGraph (replicate n 0%nat) (replicate n []));
  ordered_indices ← emit_members members (g_dependents g) n (replicate n false) (g_indegree g) [];
  Ok (in_order members ordered_indices).

(** ** The whole *)

(** [fs::canonicalize] and [Manifest::load] *)
Class Files := {
  canonicalize : list char → result NivError (list char);
  load_manifest : list char → result NivError Manifest }.

Section parse.
Context `{Files}.

(** The loop over the paths. *)
Fixpoint load_members (root : list char) (paths : list (list char)) (member_paths : list (list Component))
    (names : list (list char)) (members : list Manifest) : result NivError (list Manifest) :=
  match paths with
  | [] => Ok members
  | value :: paths =>
      if is_absolute value || existsb (λ part, match part with NormalDir _ => false | _ => true end) (components value) then
        Err (workspace_error (lit "workspace member '" ++ value ++ lit "' must be a normalized relative path") 1)
      else if bool_decide (components value ∈ member_paths) then
        Err (workspace_error (lit "duplicate workspace member '" ++ value ++ lit "'") 1)
      else
        member_root ← canonicalize (path_join root value);
        if negb (bool_decide (components root `prefix_of` components member_root)) then
          Err (workspace_error (lit "workspace member '" ++ value ++ lit "' escapes the workspace root") 1)
        else
          manifest ← load_manifest member_root;
          if bool_decide (m_name manifest ∈ names) then
            Err (workspace_error (lit "duplicate workspace package name '" ++ m_name manifest ++ lit "'") 1)
          else
            load_members root paths (components value :: member_paths) (m_name manifest :: names) (members ++ [manifest])
  end.

(** [Workspace::parse] *)
Definition parse_workspace (source root : list char) : result NivError Workspace :=
  raw_members ← workspace_lines 1 (str_lines [] source) false None;
  raw_members ← ok_or (workspace_error (lit "members is required") 1) raw_members;
  let paths := filter (λ value, is_empty value = false) (map trim (split_char (ch ",") raw_members)) in
  if is_empty paths || (MAX_MEMBERS <? len paths) then
    Err (workspace_error (lit "workspace must contain 1 through 256 members") 1)
  else
    members ← load_members root paths [] [] [];
    members ← dependency_order members;
    Ok (mkWorkspace root members).
End parse.

(** How often [x] occurs. *)
Definition occurrences (x : nat) (l : list nat) : nat := length (filter (.= x) l).

Lemma occurrences_app x l k : occurrences x (l ++ k) = (occurrences x l + occurrences x k)%nat.
Proof. unfold occurrences. by rewrite filter_app, length_app. Qed.
Lemma occurrences_cons x y l : occurrences x (y :: l) = ((if decide (y = x) then 1 else 0) + occurrences x l)%nat.
Proof. unfold occurrences. rewrite filter_cons. by destruct (decide (y = x)). Qed.

Section members.
Context (members : list Manifest).
Hypothesis names_NoDup : NoDup (map m_name members).
Local Set Default Proof Using "Type".

Lemma positions_step (l : list Manifest) (k : nat) (m : gmap (list char) nat) (name : list char) (i : nat) :
  NoDup (map m_name l) →
  foldl (λ m '(i, member), <[m_name member := i]> m) m (imap (λ j x, ((k + j)%nat, x)) l) !! name = Some i ↔
  (∃ j x, l !! j = Some x ∧ m_name x = name ∧ i = (k + j)%nat) ∨ name ∉ map m_name l ∧ m !! name = Some i.
Proof.
  revert k m. induction l as [|x l IH]; intros k m Hnd; cbn [imap foldl].
  - split; [by right; split; [apply not_elem_of_nil|]|]. by intros [(j & y & Hj & _)|[_ ?]].
  - cbn [map] in Hnd. apply NoDup_cons in Hnd as [Hx Hnd].
    replace (imap ((λ j y, ((k + j)%nat, y)) ∘ S) l) with (imap (λ j y, ((S k + j)%nat, y)) l)
      by (apply imap_ext; intros; cbn; f_equal; lia).
    rewrite IH by done. clear IH. cbn [map]. rewrite Nat.add_0_r. split.
    + intros [(j & y & Hj & Hn & ->)|[Hl Hi]]; [left; exists (S j), y; split_and!; [done|done|lia]|].
      apply lookup_insert_Some in Hi as [[<- <-]|[Hne Hi]]; [left; exists 0%nat, x; split_and!; [done|done|lia]|].
      right. split; [|done]. by apply not_elem_of_cons.
    + intros [([|j] & y & Hj & Hn & ->)|[Hl Hi]].
      * cbn in Hj. injection Hj as ->. right. rewrite <- Hn. split; [done|]. rewrite lookup_insert_eq. f_equal. lia.
      * left. exists j, y. split_and!; [done|done|lia].
      * apply not_elem_of_cons in Hl as [Hne Hl]. right. split; [done|]. by rewrite lookup_insert_ne.
Qed.

Lemma positions_spec (name : list char) (i : nat) :
  positions members !! name = Some i ↔ ∃ member, members !! i = Some member ∧ m_name member = name.
Proof using All.
  unfold positions. rewrite (positions_step members 0 ∅ name i names_NoDup). split.
  - intros [(j & x & Hj & Hn & ->)|[_ H]]; [by exists x|]. by rewrite lookup_empty in H.
  - intros (x & Hx & Hn). left. by exists i, x.
Qed.

(** ** The graph *)

(** The members a member depends on. *)
Definition targets (dependencies : list (list char * list char)) : list nat :=
  omap (λ d, positions members !! d.1) dependencies.
Definition needs (i : nat) : list nat :=
  match members !! i with Some m => targets (entries (m_dependencies m)) | None => [] end.

(** The version a member has. *)
Definition agrees (d : list char * list char) : Prop :=
  ∀ j, positions members !! d.1 = Some j → d.2 = default [] (m_version <$> members !! j).

(** [g'] has the edges of [g] and those of [i] to [js], the members it needs. *)
Record linked (i : nat) (js : list nat) (g g' : Graph) : Prop := {
  l_indegree : ∀ k n, g_indegree g !! k = Some n →
    g_indegree g' !! k = Some (n + if decide (k = i) then length js else 0)%nat;
  l_dependents : ∀ j l, g_dependents g !! j = Some l → ∃ l', g_dependents g' !! j = Some l' ∧
    ∀ k, occurrences k l' = (occurrences k l + if decide (k = i) then occurrences j js else 0)%nat }.

Lemma linked_nil i g : linked i [] g g.
Proof.
  split.
  - intros k n Hk. rewrite Hk. f_equal. destruct (decide (k = i)); cbn; lia.
  - intros j l Hj. exists l. split; [done|]. intros k. destruct (decide (k = i)); cbn; lia.
Qed.

Lemma linked_cons i j js g g' :
  linked i js (mkGraph (alter S i (g_indegree g)) (alter (λ l, l ++ [i]) j (g_dependents g))) g' → linked i (j :: js) g g'.
Proof.
  intros [Hi Hd]. cbn [g_indegree g_dependents] in *. split.
  - intros k n Hk. destruct (decide (k = i)) as [->|Hne].
    + rewrite (Hi i (S n)) by (by rewrite list_lookup_alter_eq, Hk). rewrite decide_True by done. f_equal. cbn. lia.
    + rewrite (Hi k n) by (by rewrite list_lookup_alter_ne). by rewrite decide_False.
  - intros k l Hk. destruct (decide (k = j)) as [->|Hne].
    + destruct (Hd j (l ++ [i])) as (l' & Hl' & Ho); [by rewrite list_lookup_alter_eq, Hk|]. exists l'. split; [done|].
      intros x. rewrite Ho, occurrences_app, !occurrences_cons. rewrite (decide_True (P := j = j)) by done.
      destruct (decide (i = x)), (decide (x = i)); try congruence; cbn; lia.
    + destruct (Hd k l) as (l' & Hl' & Ho); [by rewrite list_lookup_alter_ne|]. exists l'. split; [done|].
      intros x. rewrite Ho, occurrences_cons, (decide_False (P := j = k)) by congruence. done.
Qed.

Lemma link_Ok i name ds g g' :
  link members (positions members) i name ds g = Ok g' → linked i (targets ds) g g' ∧ Forall agrees ds.
Proof.
  revert g. induction ds as [|[d v] ds IH]; intros g; cbn [link].
  - intros [= <-]. split; [apply linked_nil|done].
  - unfold targets, agrees. cbn [omap list_omap fst]. destruct (positions members !! d) as [j|] eqn:Hj.
    + case_bool_decide as Hv; [|done]. cbn [negb]. intros [Hl Ha]%IH. split; [by apply linked_cons|].
      constructor; [|done]. cbn. intros j' [= <-]%(eq_trans (eq_sym Hj)). done.
    + intros [Hl Ha]%IH. split; [done|]. constructor; [|done]. cbn. by rewrite Hj.
Qed.

Lemma link_Err i name ds g e :
  link members (positions members) i name ds g = Err e → ∃ d, d ∈ ds ∧ ¬ agrees d.
Proof.
  revert g. induction ds as [|[d v] ds IH]; intros g; cbn [link]; [done|].
  destruct (positions members !! d) as [j|] eqn:Hj.
  - case_bool_decide as Hv; cbn [negb].
    + intros (d' & Hd & Hn)%IH. exists d'. split; [by right|done].
    + intros _. exists (d, v). split; [by left|]. intros Ha. apply Hv. by apply Ha.
  - intros (d' & Hd & Hn)%IH. exists d'. split; [by right|done].
Qed.

(** The edges of the members in [todo]. *)
Record linked_all (todo : list nat) (g g' : Graph) : Prop := {
  a_indegree : ∀ k n, g_indegree g !! k = Some n →
    g_indegree g' !! k = Some (n + if decide (k ∈ todo) then length (needs k) else 0)%nat;
  a_dependents : ∀ j l, g_dependents g !! j = Some l → ∃ l', g_dependents g' !! j = Some l' ∧
    ∀ k, occurrences k l' = (occurrences k l + if decide (k ∈ todo) then occurrences j (needs k) else 0)%nat }.

Lemma linked_all_cons i todo g g1 g' :
  i ∉ todo → linked i (needs i) g g1 → linked_all todo g1 g' → linked_all (i :: todo) g g'.
Proof.
  intros Hi [H1 D1] [H2 D2].
  assert (∀ k (f : nat → nat), ((if decide (k = i) then f i else 0) + (if decide (k ∈ todo) then f k else 0))%nat
    = if decide (k ∈ i :: todo) then f k else 0%nat) as Hsum.
  { intros k f. destruct (decide (k = i)) as [->|Hne].
    - rewrite decide_False by done. rewrite decide_True by (by left). lia.
    - destruct (decide (k ∈ todo)); [by rewrite decide_True by (by right)|].
      rewrite decide_False by (by intros [?|?]%elem_of_cons). done. }
  split.
  - intros k n Hk. apply H1 in Hk. apply H2 in Hk. rewrite Hk. f_equal.
    rewrite <- Nat.add_assoc. by rewrite (Hsum k (λ k, length (needs k))).
  - intros j l Hj. apply D1 in Hj as (l1 & Hl1 & O1). apply D2 in Hl1 as (l2 & Hl2 & O2). exists l2. split; [done|].
    intros k. rewrite O2, O1, <- Nat.add_assoc. by rewrite (Hsum k (λ k, occurrences j (needs k))).
Qed.

Lemma link_all_Ok todo g g' :
  link_all members (positions members) todo g = Ok g' →
  NoDup todo.*1 → (∀ i m, (i, m) ∈ todo → members !! i = Some m) →
  linked_all todo.*1 g g' ∧ ∀ i m, (i, m) ∈ todo → Forall agrees (entries (m_dependencies m)).
Proof.
  revert g. induction todo as [|[i m] todo IH]; intros g; cbn [link_all].
  - intros [= <-] _ _. split; [|by intros ? ? ?%elem_of_nil]. split.
    + intros k n Hk. rewrite Hk. f_equal. rewrite decide_False by apply not_elem_of_nil. lia.
    + intros j l Hj. exists l. split; [done|]. intros k. rewrite decide_False by apply not_elem_of_nil. lia.
  - intros (g1 & H1 & H2)%bind_Ok Hnd Hin. cbn in Hnd. apply NoDup_cons in Hnd as [Hi Hnd].
    apply link_Ok in H1 as [Hl Ha]. apply IH in H2 as [Hl2 Ha2]; [|done|intros ? ? ?; apply Hin; by right].
    assert (members !! i = Some m) as Hm by (apply Hin; by left). split.
    + apply (linked_all_cons i _ _ g1); [done| |done]. unfold needs. by rewrite Hm.
    + intros k x [[= -> ->]|Hx]%elem_of_cons; [done|by eapply Ha2].
Qed.

Lemma link_all_Err todo g e :
  link_all members (positions members) todo g = Err e →
  ∃ i m d, (i, m) ∈ todo ∧ d ∈ entries (m_dependencies m) ∧ ¬ agrees d.
Proof.
  revert g. induction todo as [|[i m] todo IH]; intros g; cbn [link_all]; [done|].
  destruct (link _ _ _ _ _ _) as [g1|e1] eqn:Hl; cbn [mbind result_bind].
  - intros (k & x & d & Hin & Hd)%IH. exists k, x, d. split; [by right|done].
  - intros _. apply link_Err in Hl as (d & Hd & Hn). exists i, m, d. split; [by left|done].
Qed.

(** ** The order *)

Lemma decrement_all (l : list nat) (indegree : list nat) i n :
  indegree !! i = Some n →
  foldl (λ indegree dependent, alter pred dependent indegree) indegree l !! i = Some (n - occurrences i l)%nat.
Proof.
  revert indegree n. induction l as [|k l IH]; intros indegree n Hi; cbn [foldl].
  - rewrite Hi. f_equal. cbn. lia.
  - rewrite occurrences_cons. destruct (decide (k = i)) as [->|Hne].
    + rewrite (IH _ (pred n)) by (by rewrite list_lookup_alter_eq, Hi). f_equal. lia.
    + rewrite (IH _ n) by (by rewrite list_lookup_alter_ne). done.
Qed.

(** The needs of a member that are not emitted yet. *)
Definition unmet (emitted : list bool) (i : nat) : list nat := filter (λ j, emitted !! j = Some false) (needs i).

Lemma missing_emit emitted next i :
  emitted !! next = Some false →
  length (unmet emitted i) = (occurrences next (needs i) + length (unmet (<[next := true]> emitted) i))%nat.
Proof.
  intros Hn. unfold unmet. induction (needs i) as [|j l IH]; [done|]. rewrite occurrences_cons, !filter_cons.
  destruct (decide (j = next)) as [->|Hne].
  - rewrite decide_True by done. rewrite list_lookup_insert_eq by (by eapply lookup_lt_Some).
    rewrite decide_False by done. cbn [length]. rewrite IH. lia.
  - rewrite list_lookup_insert_ne by congruence. case_decide; cbn [length]; rewrite IH; lia.
Qed.

Record emitting (emitted : list bool) (indegree ordered : list nat) : Prop := {
  e_length : length emitted = length members;
  e_emitted : ∀ i, emitted !! i = Some true ↔ i ∈ ordered;
  e_NoDup : NoDup ordered;
  e_indegree : ∀ i, (i < length members)%nat → indegree !! i = Some (length (unmet emitted i));
  e_before : ∀ before i after, ordered = before ++ i :: after → ∀ j, j ∈ needs i → j ∈ before }.

Lemma needs_member i j : j ∈ needs i → (j < length members)%nat.
Proof using All.
  unfold needs, targets. destruct (members !! i) as [m|]; [|by intros ?%elem_of_nil].
  intros (d & Hd & Hj)%list_elem_of_omap. apply positions_spec in Hj as (x & Hx & _). by eapply lookup_lt_Some.
Qed.

Context (dependents : list (list nat)).
Hypothesis dependents_ok : ∀ j, (j < length members)%nat →
  ∃ l, dependents !! j = Some l ∧ ∀ k, occurrences k l = occurrences j (needs k).

Lemma emit_step emitted indegree ordered next :
  emitting emitted indegree ordered → emitted !! next = Some false → indegree !! next = Some 0%nat →
  emitting (<[next := true]> emitted)
    (foldl (λ indegree dependent, alter pred dependent indegree) indegree (default [] (dependents !! next)))
    (ordered ++ [next]).
Proof using All.
  intros He Hn Hz. assert (next < length members)%nat as Hlt.
  { rewrite <- (e_length _ _ _ He). by eapply lookup_lt_Some. }
  assert (next ∉ ordered) as Hnew by (intros Hin%(e_emitted _ _ _ He); congruence). split.
  - by rewrite length_insert, (e_length _ _ _ He).
  - intros i. rewrite elem_of_app, list_elem_of_singleton. destruct (decide (i = next)) as [->|Hne].
    + rewrite list_lookup_insert_eq by (by rewrite (e_length _ _ _ He)). naive_solver.
    + rewrite list_lookup_insert_ne by congruence. rewrite (e_emitted _ _ _ He). naive_solver.
  - apply NoDup_app. split_and!; [apply He| |apply NoDup_singleton]. intros i Hi ->%list_elem_of_singleton. done.
  - intros i Hi. destruct (dependents_ok next Hlt) as (l & -> & Ho). cbn [default from_option id].
    rewrite (decrement_all l indegree i _ (e_indegree _ _ _ He i Hi)). f_equal.
    rewrite (missing_emit emitted next i Hn), Ho. lia.
  - intros before i after Heq j Hj. destruct after as [|a after] using rev_ind.
    + apply app_inj_tail in Heq as [<- <-]. apply (e_emitted _ _ _ He).
      rewrite (e_indegree _ _ _ He) in Hz by done. injection Hz as Hz%nil_length_inv.
      pose proof (needs_member next j Hj) as Hjl. rewrite <- (e_length _ _ _ He) in Hjl.
      apply lookup_lt_is_Some in Hjl as [[|] Hjl]; [done|].
      assert (j ∈ unmet emitted next) as Hmiss by (by apply list_elem_of_filter). rewrite Hz in Hmiss. by apply elem_of_nil in Hmiss.
    + rewrite app_comm_cons, app_assoc in Heq. apply app_inj_tail in Heq as [-> _]. by eapply (e_before _ _ _ He).
Qed.

Lemma find_ready_Some emitted indegree next :
  find_ready (length members) emitted indegree = Some next →
  emitted !! next = Some false ∧ indegree !! next = Some 0%nat.
Proof.
  unfold find_ready. intros Hh%head_Some_elem_of. apply list_elem_of_filter in Hh as [Hr _]. unfold is_ready in Hr.
  by apply andb_true_iff in Hr as [?%bool_decide_eq_true ?%bool_decide_eq_true].
Qed.

Lemma find_ready_None emitted indegree ordered :
  emitting emitted indegree ordered → find_ready (length members) emitted indegree = None →
  ∀ i, emitted !! i = Some false → ∃ j, j ∈ needs i ∧ emitted !! j = Some false.
Proof.
  unfold find_ready. intros He Hh i Hi. assert (i < length members)%nat as Hlt.
  { rewrite <- (e_length _ _ _ He). by eapply lookup_lt_Some. }
  destruct (unmet emitted i) as [|j l] eqn:Hm.
  - assert (i ∈ filter (λ i, is_ready emitted indegree i = true) (seq 0 (length members))) as Hin.
    { apply list_elem_of_filter. split; [|apply elem_of_seq; lia]. unfold is_ready.
      rewrite (e_indegree _ _ _ He i Hlt), Hm. by rewrite !bool_decide_true. }
    destruct (filter _ _) as [|x l]; [by apply elem_of_nil in Hin|done].
  - exists j. assert (j ∈ unmet emitted i) as Hin by (rewrite Hm; by left). by apply list_elem_of_filter in Hin as [??].
Qed.

(** Everything is put in order, or what is left needs itself. *)
Lemma emit_members_spec count emitted indegree ordered :
  emitting emitted indegree ordered → (length ordered + count = length members)%nat →
  match emit_members members dependents count emitted indegree ordered with
  | Ok order => length order = length members ∧ NoDup order ∧ (∀ i, i ∈ order → (i < length members)%nat) ∧
      ∀ before i after, order = before ++ i :: after → ∀ j, j ∈ needs i → j ∈ before
  | Err _ => ∃ left, left ≠ [] ∧ (∀ i, i ∈ left → (i < length members)%nat ∧ ∃ j, j ∈ needs i ∧ j ∈ left)
  end.
Proof using All.
  revert emitted indegree ordered. induction count as [|count IH]; intros emitted indegree ordered He Hl; cbn [emit_members].
  - split_and!; [lia|apply He| |apply He]. intros i Hi%(e_emitted _ _ _ He)%lookup_lt_Some. by rewrite <- (e_length _ _ _ He).
  - destruct (find_ready _ _ _) as [next|] eqn:Hf.
    + apply find_ready_Some in Hf as [Hn Hz]. apply IH; [by apply emit_step|]. rewrite length_app. cbn. lia.
    + pose proof (find_ready_None _ _ _ He Hf) as Hneed.
      set (left := filter (λ i, emitted !! i = Some false) (seq 0 (length members))).
      assert (∀ i, i ∈ left ↔ emitted !! i = Some false) as Hleft.
      { intros i. unfold left. rewrite list_elem_of_filter, elem_of_seq. split; [naive_solver|]. intros Hi. split; [done|].
        apply lookup_lt_Some in Hi. rewrite (e_length _ _ _ He) in Hi. lia. }
      exists left. split.
      * intros Hnil. assert (length members ≤ length ordered)%nat; [|lia].
        rewrite <- (length_seq (length members) 0). apply submseteq_length, NoDup_submseteq; [apply NoDup_seq|].
        intros i Hi%elem_of_seq. apply (e_emitted _ _ _ He).
        destruct (lookup_lt_is_Some_2 emitted i) as [[|] Hi']; [rewrite (e_length _ _ _ He); lia|done|].
        apply Hleft in Hi'. rewrite Hnil in Hi'. by apply elem_of_nil in Hi'.
      * intros i Hi%Hleft. split; [rewrite <- (e_length _ _ _ He); by eapply lookup_lt_Some|].
        destruct (Hneed i Hi) as (j & Hj & Hej). exists j. by rewrite Hleft.
Qed.
End members.

(** ** The theorem *)

(** [m] depends on [m'], and on which version. *)
Definition depends (m m' : Manifest) (version : list char) : Prop := m_dependencies m !! m_name m' = Some version.

(** The result is an order in which members follow what they depend on, or there
    is none. *)
Definition ordered_as (members : list Manifest) (r : result NivError (list Manifest)) : Prop :=
  match r with
  | Ok ordered =>
      ordered ≡ₚ members ∧
      ∀ before m after, ordered = before ++ m :: after →
        ∀ m' version, m' ∈ members → depends m m' version → version = m_version m' ∧ m' ∈ before
  | Err _ =>
      (∃ m m' version, m ∈ members ∧ m' ∈ members ∧ depends m m' version ∧ version ≠ m_version m') ∨
      (∃ cycle, cycle ≠ [] ∧ ∀ m, m ∈ cycle → m ∈ members ∧ ∃ m' version, m' ∈ cycle ∧ depends m m' version)
  end.

Section order.
Context (members : list Manifest).
Hypothesis names_NoDup : NoDup (map m_name members).
Local Set Default Proof Using "All".

Lemma depends_needs i j m m' version :
  members !! i = Some m → members !! j = Some m' → depends m m' version → j ∈ needs members i.
Proof.
  intros Hi Hj Hd. unfold needs, targets. rewrite Hi. apply list_elem_of_omap. exists (m_name m', version).
  split; [by apply elem_of_entries|]. apply (positions_spec members names_NoDup). eauto.
Qed.

Lemma needs_depends i j m :
  members !! i = Some m → j ∈ needs members i → ∃ m' version, members !! j = Some m' ∧ depends m m' version.
Proof.
  intros Hi. unfold needs, targets. rewrite Hi. intros ([d v] & Hd & Hj)%list_elem_of_omap. cbn [fst] in Hj.
  apply (positions_spec members names_NoDup) in Hj as (m' & Hm' & <-). exists m', v. split; [done|]. by apply elem_of_entries.
Qed.

Lemma not_agrees d m :
  d ∈ entries (m_dependencies m) → ¬ agrees members d →
  ∃ m' version, m' ∈ members ∧ depends m m' version ∧ version ≠ m_version m'.
Proof.
  destruct d as [name v]. intros Hd Hn. destruct (positions members !! name) as [j|] eqn:Hj.
  - apply (positions_spec members names_NoDup) in Hj as Hj'. destruct Hj' as (m' & Hm' & <-). exists m', v.
    split_and!; [by eapply list_elem_of_lookup_2|by apply elem_of_entries|].
    intros Hv. apply Hn. intros j' Hj'. cbn in *. rewrite Hj in Hj'. injection Hj' as <-. by rewrite Hm'.
  - destruct Hn. intros j Hj'. cbn in Hj'. congruence.
Qed.

Lemma imap_pair_spec : NoDup (imap pair members).*1 ∧ (∀ i m, (i, m) ∈ imap pair members ↔ members !! i = Some m).
Proof.
  assert ((imap pair members).*1 = seq 0 (length members)) as Hfst.
  { apply list_eq. intros i. rewrite list_lookup_fmap, list_lookup_imap.
    destruct (members !! i) as [m|] eqn:Hm; cbn.
    - apply lookup_lt_Some in Hm. by rewrite lookup_seq_lt.
    - apply lookup_ge_None in Hm. by rewrite lookup_seq_ge. }
  split; [rewrite Hfst; apply NoDup_seq|]. intros i m. rewrite list_elem_of_lookup. setoid_rewrite list_lookup_imap_Some.
  naive_solver.
Qed.

Lemma in_order_perm order :
  length order = length members → NoDup order → (∀ i, i ∈ order → (i < length members)%nat) → in_order members order ≡ₚ members.
Proof.
  intros Hl Hnd Hin. assert (order ≡ₚ seq 0 (length members)) as Hp.
  { apply submseteq_length_Permutation; [|by rewrite length_seq, Hl].
    apply NoDup_submseteq; [done|]. intros i Hi. apply elem_of_seq. specialize (Hin i Hi). lia. }
  unfold in_order. rewrite Hp. clear. apply reflexive_eq.
  assert (∀ l, omap (λ i, (l ++ members) !! i) (seq (length l) (length members)) = members) as Hall.
  { induction members as [|m ms IH]; intros l; [done|]. cbn [length seq omap list_omap].
    rewrite lookup_app_r, Nat.sub_diag by lia. cbn. f_equal.
    rewrite <- (IH (l ++ [m])) at 2. rewrite length_app, <- app_assoc. cbn. by rewrite Nat.add_1_r. }
  apply (Hall []).
Qed.

Lemma in_order_split order before m after :
  in_order members order = before ++ m :: after →
  ∃ b i a, order = b ++ i :: a ∧ in_order members b = before ∧ members !! i = Some m.
Proof using Type.
  revert before. induction order as [|k order IH]; intros before Ht; [by destruct before|].
  unfold in_order in Ht. cbn [omap list_omap] in Ht. destruct (members !! k) as [x|] eqn:Hk.
  - destruct before as [|y before].
    + cbn in Ht. injection Ht as -> _. by exists [], k, order.
    + cbn in Ht. injection Ht as -> Ht. destruct (IH before Ht) as (b & i & a & -> & Hb & Hi).
      exists (k :: b), i, a. split_and!; [done| |done]. unfold in_order. cbn [omap list_omap]. rewrite Hk. by f_equal.
  - destruct (IH before Ht) as (b & i & a & -> & Hb & Hi). exists (k :: b), i, a. split_and!; [done| |done].
    unfold in_order. cbn [omap list_omap]. by rewrite Hk.
Qed.

Lemma start_emitting g :
  linked_all members (imap pair members).*1
    (mkGraph (replicate (length members) 0%nat) (replicate (length members) [])) g →
  emitting members (replicate (length members) false) (g_indegree g) [] ∧
  ∀ j, (j < length members)%nat →
    ∃ l, g_dependents g !! j = Some l ∧ ∀ k, occurrences k l = occurrences j (needs members k).
Proof.
  intros [Hi Hd]. cbn [g_indegree g_dependents] in *.
  assert (∀ i, (i < length members)%nat → i ∈ (imap pair members).*1) as Hall.
  { intros i [m Hm]%lookup_lt_is_Some. apply list_elem_of_fmap. exists (i, m). split; [done|]. by apply imap_pair_spec. }
  split; [split|].
  - apply length_replicate.
  - intros i. split; [|by intros ?%elem_of_nil]. by intros [? _]%lookup_replicate.
  - constructor.
  - intros i Hlt. rewrite (Hi i 0%nat) by (by apply lookup_replicate_2). rewrite decide_True by auto. cbn. f_equal.
    unfold unmet. pose proof (needs_member members names_NoDup i) as Hneeds.
    induction (needs members i) as [|j l IH]; [done|]. rewrite filter_cons, decide_True.
    + cbn [length]. f_equal. apply IH. intros k Hk. apply Hneeds. by right.
    + apply lookup_replicate_2, Hneeds. by left.
  - intros before i after Hn. by destruct before.
  - intros j Hlt. destruct (Hd j []) as (l & Hl & Ho); [by apply lookup_replicate_2|]. exists l. split; [done|].
    intros k. rewrite Ho. cbn. case_decide as Hk; [done|]. unfold needs. destruct (members !! k) as [m|] eqn:Hm; [|done].
    destruct Hk. apply Hall. by eapply lookup_lt_Some.
Qed.
End order.

Lemma dependency_order_spec members :
  NoDup (map m_name members) →
  ordered_as members (dependency_order members).
Proof.
  intros Hnd. destruct (imap_pair_spec members Hnd) as [Hfst Hpair]. unfold dependency_order, ordered_as. cbv zeta.
  destruct (link_all _ _ _ _) as [g|e] eqn:Hg; cbn [mbind result_bind].
  - apply link_all_Ok in Hg as [Hlink Hagree]; [|done|intros; by apply Hpair].
    apply (start_emitting members Hnd) in Hlink as [Hstart Hdeps].
    pose proof (emit_members_spec members Hnd (g_dependents g) Hdeps (length members) _ _ _ Hstart eq_refl) as Hemit.
    destruct (emit_members _ _ _ _ _ _) as [order|e]; cbn [mbind result_bind].
    + destruct Hemit as (Hl & Hno & Hlt & Hbefore). split; [by apply in_order_perm|].
      intros before m after (b & i & a & -> & <- & Hi)%in_order_split m' version Hm' Hdep.
      apply list_elem_of_lookup in Hm' as [j Hj]. split.
      * specialize (Hagree i m (proj2 (Hpair i m) Hi)). rewrite Forall_forall in Hagree.
        specialize (Hagree (m_name m', version) (proj2 (elem_of_entries _ _ _) Hdep) j). cbn in Hagree.
        rewrite Hj in Hagree. apply Hagree. apply (positions_spec members Hnd). eauto.
      * apply list_elem_of_omap. exists j. split; [|done]. eapply Hbefore; [done|]. by eapply depends_needs.
    + right. destruct Hemit as (cycle & Hne & Hc). exists (in_order members cycle). split.
      * destruct cycle as [|i cycle]; [done|]. destruct (Hc i) as [[m Hm]%lookup_lt_is_Some _]; [by left|].
        unfold in_order. cbn [omap list_omap]. by rewrite Hm.
      * intros m (i & Hi & Hm)%list_elem_of_omap. split; [by eapply list_elem_of_lookup_2|].
        destruct (Hc i Hi) as (_ & j & Hj & Hjc). destruct (needs_depends members Hnd i j m Hm Hj) as (m' & v & Hm' & Hd).
        exists m', v. split; [|done]. apply list_elem_of_omap. eauto.
  - left. apply link_all_Err in Hg as (i & m & d & Hin%Hpair & Hd & Hn).
    destruct (not_agrees members Hnd d m Hd Hn) as (m' & v & Hm' & Hdep & Hv). exists m, m', v.
    split_and!; [by eapply list_elem_of_lookup_2|done|done|done].
Qed.

(** ** The manifest *)

Section parsed.
Context `{Files}.

(** A member that was loaded from below the root. *)
Definition loaded (root : list char) (m : Manifest) : Prop :=
  ∃ path member_root, canonicalize (path_join root path) = Ok member_root ∧
    components root `prefix_of` components member_root ∧ load_manifest member_root = Ok m.

Lemma load_members_Ok root paths member_paths names members ms :
  load_members root paths member_paths names members = Ok ms →
  NoDup (map m_name members) → (∀ n, n ∈ map m_name members → n ∈ names) → Forall (loaded root) members →
  NoDup (map m_name ms) ∧ length ms = (length members + length paths)%nat ∧ Forall (loaded root) ms.
Proof.
  revert member_paths names members. induction paths as [|value paths IH]; intros member_paths names members; cbn [load_members].
  - intros [= <-] Hnd _ Hf. split_and!; [done|cbn; lia|done].
  - destruct (_ || _); [done|]. case_bool_decide; [done|].
    intros (member_root & Hc & Hl)%bind_Ok Hnd Hnames Hf. case_bool_decide as Hp; [|done]. cbn [negb] in Hl.
    apply bind_Ok in Hl as (m & Hm & Hl). case_bool_decide as Hin; [done|].
    apply IH in Hl as (Hnd' & Hlen & Hf').
    + split_and!; [done| |done]. rewrite Hlen, length_app. cbn. lia.
    + rewrite map_app. apply NoDup_app. split_and!; [done| |apply NoDup_singleton].
      intros n Hn ->%list_elem_of_singleton. apply Hin. by apply Hnames.
    + intros n. rewrite map_app, elem_of_app. cbn [map]. rewrite list_elem_of_singleton, elem_of_cons. intros [Hn| ->]; [right; by apply Hnames|by left].
    + apply Forall_app. split; [done|]. apply Forall_singleton. by exists value, member_root.
Qed.

(** A workspace that was read has 1 to 256 members with different names, all
    below its root, in the order of their dependencies. *)
Lemma parse_workspace_ordered source root w :
  parse_workspace source root = Ok w →
  w_root w = root ∧ NoDup (map m_name (w_members w)) ∧ (0 < length (w_members w))%nat ∧ len (w_members w) ≤ MAX_MEMBERS ∧
  Forall (loaded root) (w_members w) ∧
  ∀ before m after, w_members w = before ++ m :: after →
    ∀ m' version, m' ∈ w_members w → depends m m' version → version = m_version m' ∧ m' ∈ before.
Proof.
  unfold parse_workspace. intros (raw & _ & Hp)%bind_Ok. apply bind_Ok in Hp as (text & _ & Hp). cbv zeta in Hp.
  set (paths := filter _ _) in Hp. destruct (is_empty paths) eqn:He; [done|].
  destruct (N.ltb_spec MAX_MEMBERS (len paths)) as [|Hmax]; [done|]. cbn [orb] in Hp.
  apply bind_Ok in Hp as (members & Hl & Hp). apply bind_Ok in Hp as (ordered & Ho & Hp).
  injection Hp as <-. cbn [w_root w_members].
  apply load_members_Ok in Hl as (Hnd & Hlen & Hf); [|constructor|by intros ? ?%elem_of_nil|done].
  pose proof (dependency_order_spec members Hnd) as Hexact. rewrite Ho in Hexact. destruct Hexact as [Hperm Hord].
  cbn [length Nat.add] in Hlen. split_and!.
  - done.
  - by rewrite Hperm.
  - rewrite Hperm, Hlen. destruct paths; [done|]. cbn. lia.
  - unfold len. rewrite Hperm, Hlen. exact Hmax.
  - by rewrite Hperm.
  - intros before m after Hs m' v Hm' Hd. rewrite Hperm in Hm'. by eapply Hord.
Qed.
End parsed.

(** C22: the order of a workspace is exact.  For members with different names,
    [dependency_order] gives a permutation of them in which every member stands
    after the members it depends on, whose versions are the ones it asks for; it
    fails only when a member asks for another version of a member or when some
    members all depend on each other, so that there is no such order. *)
Theorem dependency_order_exact members :
  NoDup (map m_name members) →
  ordered_as members (dependency_order members).
Proof. apply dependency_order_spec. Qed.

(** Three members, each of which depends on the next. *)
Definition member (name : string) (needed : list string) : Manifest :=
  mkManifest [] (lit name) (lit "1.0.0") (lit "main.niv")
    (list_to_map (map (λ d, (lit d, lit "1.0.0")) needed)) ∅ ∅ ∅ None None None 4.
Definition sample_members : list Manifest := [member "app" ["service"]; member "service" ["core"; "other"]; member "core" []].

Lemma dependency_order_exact_witness :
  ∃ ordered, dependency_order sample_members = Ok ordered ∧ ordered ≡ₚ sample_members ∧
    map m_name ordered = map lit ["core"; "service"; "app"].
Proof.
  pose proof (dependency_order_exact sample_members) as Hexact.
  assert (NoDup (map m_name sample_members)) as Hnd by (apply (bool_decide_eq_true_1 (NoDup _)); by vm_compute).
  specialize (Hexact Hnd).
  assert (match dependency_order sample_members with Ok o => map m_name o | Err _ => [] end = map lit ["core"; "service"; "app"])
    as Ho by (vm_compute; reflexivity).
  destruct (dependency_order sample_members) as [ordered|]; [|discriminate Ho].
  exists ordered. split; [reflexivity|]. split; [apply (proj1 Hexact)|exact Ho].
Defined.
