(* ===== verification/Channel.v ===== *)
(** * Update channels

    src/src/channel.rs: the signed manifests that announce a release on a channel.
    Signatures are those of [Trust]; the JSON text of a manifest, by serde, is the
    class [ChannelText].

    What [sign] makes, [verify] accepts within its time; what [verify] accepts was
    issued, for the channel asked for, and is not older than what was trusted
    before; a manifest that is encoded decodes to the same. *)
From S2P Require Import Prelude Ast Values Text Strs Package PackageOk Trust TrustOk.
Open Scope list_scope.

Definition MAX_MANIFEST_BYTES : N := 1024 * 1024.

(** [ChannelManifest] *)
Record ChannelManifest := mkChannel {
  c_format : N; c_channel : string; c_version : string; c_generation : N; c_issued_at : N; c_expires_at : N;
  c_base_url : string; c_assets : gmap string string; c_signature : string }.

(** [to_vec], [to_vec_pretty] and [from_slice] of serde_json *)
Class ChannelText := {
  channel_json : ChannelManifest → list byte;
  channel_pretty : ChannelManifest → list byte;
  channel_of_json : list byte → result string ChannelManifest }.

(** [channel_error] *)
Definition channel_error (message : string) : NivError := NivError_new message 1 1.

(** [safe_component] *)
Definition safe_component (value : string) : bool :=
  negb (str_len value =? 0) && (str_len value <=? 255)
  && forallb (λ b, is_alphanumeric_byte b || existsb (N.eqb (Byte.to_N b)) [46; 95; 45]) (string_bytes value).

(** [validate_unsigned] *)
Definition valid_asset (asset : string * string) : bool :=
  safe_component asset.1 && is_ok (decode_hex 32 asset.2 "asset SHA-256").
Definition validate_unsigned (m : ChannelManifest) : result NivError unit :=
  if negb (c_format m =? 1) || negb (bool_decide (c_channel m ∈ ["stable"; "beta"; "nightly"])) then
    Err (channel_error "unsupported release channel manifest")
  else if negb (safe_component (c_version m)) || (c_generation m =? 0) || (c_expires_at m <=? c_issued_at m) then
    Err (channel_error "invalid release channel identity or validity window")
  else if negb (String.prefix "https://" (c_base_url m))
          || bool_decide (last (string_bytes (c_base_url m)) = Some (byte_of_N 47)) || (4096 <? str_len (c_base_url m)) then
    Err (channel_error "channel base URL must be bounded HTTPS without a trailing slash")
  else if bool_decide (c_assets m = ∅) || (64 <? N.of_nat (size (c_assets m))) then
    Err (channel_error "channel manifest must contain 1 through 64 assets")
  else if negb (forallb valid_asset (map_to_list (c_assets m))) then
    Err (channel_error "channel asset identity or digest is invalid")
  else Ok tt.

Definition with_signature (m : ChannelManifest) (signature : string) : ChannelManifest :=
  mkChannel (c_format m) (c_channel m) (c_version m) (c_generation m) (c_issued_at m) (c_expires_at m)
    (c_base_url m) (c_assets m) signature.

Section channel.
Context `{Crypto} `{ChannelText}.

(** [canonical] *)
Definition canonical_channel (m : ChannelManifest) : list byte := channel_json (with_signature m "").

(** [ChannelManifest::sign] *)
Definition sign_channel (m : ChannelManifest) (secret_hex : string) : result NivError ChannelManifest :=
  _ ← validate_unsigned m;
  secret ← decode_hex 32 secret_hex "channel signing key";
  Ok (with_signature m (encode_hex (sign_bytes secret (canonical_channel m)))).

(** [ChannelManifest::verify] *)
Definition verify_channel (m : ChannelManifest) (public_hex : string) (now minimum_generation : N)
    (expected_channel : option string) : result NivError unit :=
  _ ← validate_unsigned m;
  if match expected_channel with Some expected => negb (bool_decide (expected = c_channel m)) | None => false end then
    Err (channel_error "channel manifest names a different channel than the one requested")
  else if c_generation m <? minimum_generation then
    Err (channel_error "channel manifest generation is below the trusted minimum")
  else if (now <? c_issued_at m) || (c_expires_at m <? now) then
    Err (channel_error "channel manifest is not valid at the requested time")
  else
    public ← decode_hex 32 public_hex "channel public key";
    if negb (valid_key public) then Err (channel_error "invalid Ed25519 channel public key")
    else
      signature ← decode_hex 64 (c_signature m) "channel signature";
      if verify_strict public (canonical_channel m) signature then Ok tt
      else Err (channel_error "channel manifest signature verification failed").

(** [ChannelManifest::decode] and [ChannelManifest::encode] *)
Definition decode_channel (bytes : list byte) : result NivError ChannelManifest :=
  if MAX_MANIFEST_BYTES <? len bytes then Err (channel_error "channel manifest exceeds 1 MiB")
  else match channel_of_json bytes with
       | Ok m => Ok m
       | Err error => Err (channel_error ("invalid channel manifest: " +:+ error))
       end.
Definition encode_channel (m : ChannelManifest) : result NivError (list byte) :=
  let bytes := channel_pretty m in
  if MAX_MANIFEST_BYTES <? len bytes then Err (channel_error "channel manifest exceeds 1 MiB") else Ok bytes.
End channel.

(** What JSON promises. *)
Class ChannelTextLaws `{ChannelText} : Prop := {
  channel_json_inj : ∀ m n, channel_json m = channel_json n → m = n;
  channel_json_read : ∀ m, channel_of_json (channel_pretty m) = Ok m }.

Section channel.
Context `{CryptoLaws} `{ChannelTextLaws}.
Local Set Default Proof Using "All".

Lemma validate_with_signature m signature : validate_unsigned (with_signature m signature) = validate_unsigned m.
Proof. done. Qed.

(** A signed manifest is accepted while it is valid, by whoever trusts the key
    and no later generation. *)
Lemma signed_channel_accepted m secret secret_hex now minimum expected m' :
  decode_hex 32 secret_hex "channel signing key" = Ok secret → sign_channel m secret_hex = Ok m' →
  c_issued_at m ≤ now ≤ c_expires_at m → minimum ≤ c_generation m → expected = None ∨ expected = Some (c_channel m) →
  verify_channel m' (encode_hex (public_of secret)) now minimum expected = Ok tt.
Proof.
  intros Hs. unfold sign_channel, verify_channel. intros ([] & Hv & Hm)%bind_Ok. rewrite Hs in Hm. cbn [mbind result_bind] in Hm.
  apply Ok_eq in Hm as <-. intros [Hi He] Hg Hx. rewrite validate_with_signature, Hv. cbn [mbind result_bind].
  assert (match expected with Some e => negb (bool_decide (e = c_channel m)) | None => false end = false) as Hc
    by (destruct Hx as [-> | ->]; [done|]; by rewrite bool_decide_true).
  cbn [with_signature c_channel c_generation c_issued_at c_expires_at c_signature]. rewrite Hc.
  rewrite (proj2 (N.ltb_ge _ _) Hg), (proj2 (N.ltb_ge _ _) Hi), (proj2 (N.ltb_ge _ _) He). cbn [orb].
  rewrite (decode_encode_hex 32 (public_of secret)) by apply public_length. cbn [mbind result_bind]. rewrite public_valid. cbn [negb].
  rewrite (decode_encode_hex 64) by apply signature_length. cbn [mbind result_bind].
  unfold canonical_channel. cbn [with_signature]. by rewrite signature_verifies.
Qed.

(** When signatures are not forged, an accepted manifest is one that was issued,
    but for the spelling of its signature. *)
Lemma accepted_channel_issued (issued : ChannelManifest → Prop) m public public_hex now minimum expected :
  decode_hex 32 public_hex "channel public key" = Ok public →
  (∀ message signature, verify_strict public message signature = true → ∃ n, issued n ∧ message = canonical_channel n) →
  verify_channel m public_hex now minimum expected = Ok tt →
  (∃ n, issued n ∧ with_signature n "" = with_signature m "") ∧ minimum ≤ c_generation m ∧
  c_issued_at m ≤ now ≤ c_expires_at m ∧ (expected = None ∨ expected = Some (c_channel m)).
Proof.
  intros Hp Hun. unfold verify_channel. intros ([] & _ & Hv)%bind_Ok.
  destruct (match expected with Some _ => _ | None => _ end) eqn:Hx; [done|].
  destruct (N.ltb_spec (c_generation m) minimum) as [|Hg]; [done|].
  destruct (N.ltb_spec now (c_issued_at m)) as [|Hi]; [done|]. destruct (N.ltb_spec (c_expires_at m) now) as [|He]; [done|].
  cbn [orb] in Hv. rewrite Hp in Hv. cbn [mbind result_bind] in Hv. destruct (negb (valid_key public)); [done|].
  apply bind_Ok in Hv as (signature & _ & Hv). destruct (verify_strict _ _ _) eqn:Hsig; [|done].
  apply Hun in Hsig as (n & Hn & Heq). unfold canonical_channel in Heq. apply channel_json_inj in Heq. split_and!; [by exists n|lia..|].
  destruct expected as [e|]; [|by left]. right. apply negb_false_iff, bool_decide_eq_true in Hx. by rewrite Hx.
Qed.

Lemma channel_roundtrip m bytes : encode_channel m = Ok bytes → decode_channel bytes = Ok m.
Proof.
  unfold encode_channel, decode_channel. cbv zeta. destruct (_ <? len _) eqn:Hl; [done|]. intros <-%Ok_eq.
  by rewrite Hl, channel_json_read.
Qed.
End channel.
